(* ===== verification/_CoqProject ===== *)
-Q . S2P
Prelude.v
SparseInt.v
PamTree.v
PamAvl.v
PamTreap.v
PamRedBlack.v
PamSeq.v
PamOrder.v
PamMap.v
PamRange.v
PamMulti.v
PamAug.v
PamProps.v
ALock.v
WaitDie.v
WoundDie.v
Alarm.v
TimeoutALock.v
TimeoutWorld.v
LockGroup.v
MultiPaxos.v
PaxosSystem.v
Multimap.v
SnapshotMap.v
Bytes.v
MemSchema.v
PieceExec.v
MemRow.v
MemKey.v
MemTable.v
MvRow.v
Txn2PL.v
TxnQuery.v
DepGraph.v
DepScc.v
DepTraverse.v
RccTxn.v
RccGraph.v
RccSched.v
RccSafety.v
BrqSched.v
BrqSafety.v
BrqCoord.v
BrqRuns.v
CdcClient.v
Sharding.v
TxnChopper.v
ChPayment.v
SlogOrder.v
SlogSched.v
SlogExec.v
SlogSite.v
SlogProgress.v
SlogSystem.v
SlogLogs.v
SlogInv.v
SlogQueues.v
SlogWorld.v
SlogRuns.v
ChrTs.v
ChrSched.v
ChrCrt.v
ChrManager.v
ChrExec.v
ChrRuns.v
Graph.v
APServer.v
APProps.v
