(* ===== verification/Prelude.v ===== *)
(** * FISS verification library

    FISS is a hybrid transactional and analytical store.  Its sources (src/) have
    two halves that exchange messages:

    - OLAP: the analytical server (APServer.cc, APServer.h, DeltaManager.cc), which
      receives committed updates and the dependencies between transactions, ingests
      the updates in dependency order and runs queries; its dependency graph
      (utilities/Graph.h); and PAM, the library of balanced trees on which its tables
      are built (PAM/c++).
    - OLTP/dast: the transactional side.  rrr is its runtime library (locks, alarms,
      marshalling, RPC), memdb its in-memory database (values, schemas, rows, tables,
      snapshots, transactions) and deptran its protocols (dependency graphs of
      transactions, Multi-Paxos replication and the commit protocols).

    ** The files and what they model

    This file: machine integers, partial computations ([runs]), list lemmas and
    ordered maps, shared by all others.

    Runtime library (OLTP/dast/rrr):
    - SparseInt.v: the variable-length integers of base/basetypes.cpp.
    - ALock.v, WaitDie.v, WoundDie.v: the queued locks of misc/alock.hpp and
      alock.cpp; Alarm.v, TimeoutALock.v, TimeoutWorld.v: the alarm of misc/alarm.hpp
      and the locks with timeouts, a world of locks that share one alarm; LockGroup.v:
      DragonBall and ALockGroup.

    Trees (OLAP/PAM/c++): PamTree.v has the nodes, rotations and joins of
    basic_node.h, augmented_node.h and balance_utils.h and the interface [JoinTree];
    PamAvl.v, PamTreap.v and PamRedBlack.v are its implementations (avl_tree.h,
    treap.h, red_black_tree.h).  PamSeq.v (sequence_ops.h), PamMap.v, PamRange.v,
    PamMulti.v (map_ops.h) and PamAug.v (augmented_ops.h) are proved against the
    interface; PamOrder.v is the theory of sorted entries, and PamProps.v states what
    a client of the maps sees.

    Analytical server: Graph.v (utilities/Graph.h), APServer.v (the handlers and the
    query waitlist) and APProps.v (the server as a transition system).

    Protocols (OLTP/dast/deptran): DepGraph.v, DepScc.v and DepTraverse.v are the
    graph of rcc/graph.h, its strongly connected components and its traversal;
    MultiPaxos.v has the executor, scheduler and coordinator of multi_paxos with the part
    of frame.cc and scheduler.cc that makes executors, and PaxosSystem.v the leader and the
    replicas connected by a network.  The frame is an instance of the class [Frame]:
    [MultiPaxosFrame] is the code, [null_frame] what the scheduler expects.

    The dependency-tracking protocol, from the cutting of a transaction to the changes the
    analytical server gets, is in thirteen files.  PieceExec.v: workspaces and pieces
    (txn_chopper.h/.cc) and the loop that runs the pieces of a site (rcc/dtxn.cc);
    Sharding.v: the partition of a key (sharding.h/.cc); TxnChopper.v: the commands of a
    transaction and their messages (txn_chopper.cc, command_marshaler.cc,
    bench/chBenchmark/chopper.cc); ChPayment.v: the payment transaction
    (bench/chBenchmark/payment.cc); RccTxn.v: [RccDTxn] (rcc/dtxn.h/.cc); RccGraph.v: the
    graphs of sites and messages (rcc/dep_graph.cc); RccSched.v and BrqSched.v: the
    scheduler (rcc/sched.h/.cc, brq/sched.cc), with RccSafety.v and BrqSafety.v about the
    waitlist and about histories of messages; BrqCoord.v: the coordinator
    (brq/coord.h/.cc, brq/commo.cc); CdcClient.v: the batches of cdc_client.cpp.  BrqRuns.v
    has runs of coordinators and sites together.

    The Slog protocol (slog/) is in eleven files.  SlogOrder.v: the global log of
    auxiliary_raft.h/.cc and the region managers of manager.h/.cc; SlogSched.v: the
    conflicts of pieces (bench/tpcc/piece.cc, bench/chBenchmark/piece.cc), [TxSlog] and the
    handlers of a site (tx.h/.cc, scheduler.h/.cc).  SlogExec.v: the specification of the
    execution of a queue; SlogSite.v and SlogProgress.v: what every handler of a site keeps
    and never takes back.  SlogSystem.v: the global log, the managers and the sites connected
    by a network (commo.cc, rcc_service.cc); SlogLogs.v, SlogInv.v, SlogQueues.v and
    SlogWorld.v: its invariant, for the logs, for the queues and for the whole; SlogRuns.v:
    what follows for the order of transactions and the answers to clients, and a run.

    The DAST protocol (chronos/) is in six files.  ChrTs.v: timestamps, the clock of a site
    and the anticipated timestamps (types.h, scheduler.cc, manager.cc); ChrSched.v:
    [TxChronos] and every handler of a site that is called (tx.h/.cc, scheduler.h/.cc);
    ChrManager.v: the region managers (manager.h/.cc).  ChrCrt.v: decisions on transactions
    of several regions, over all runs of a site; ChrExec.v: the specification of the
    execution of the queue, and the timestamps of transactions of the region; ChrRuns.v:
    runs on small inputs.

    Database (OLTP/dast/memdb): Multimap.v is the theory of [std::multimap];
    SnapshotMap.v is snapshot.h; Bytes.v is the memory image of integers;
    MemSchema.v is value.h/.cc and schema.h/.cc, MemRow.v is class [Row] of row.h/.cc,
    MemKey.v and MemTable.v are the key order and class [SortedTable] of table.h/.cc,
    MvRow.v is row_mv.h/.cc, and Txn2PL.v and TxnQuery.v are the staged transactions
    of txn_2pl.h/.cc and the merged cursor of txn.h.

    A class is a [Record] of its fields, a method a function on it with the name of
    the source, an enumeration an [Inductive] type; the names are those of the sources
    where Rocq allows them (overloads get a suffix).

    ** Modelling choices

    - A failed [verify], a null or dangling pointer and an access out of range are
      [None]; [runs o P] says that a computation returns and its result satisfies [P].
      Assertions are compiled out (wscript defines NDEBUG) and have no effect.
    - Integers are kept at their width where it matters ([wrap], [swrap]): versions and
      slots are 64-bit unsigned, the PAM rank of [take] and the red-black heights wrap.
    - Callbacks are events in the order of the calls and do not call the object back; so
      the callbacks of an alarm do not register or remove alarms.
    - Critical sections are atomic steps.  In APProps.v every critical section of the
      handlers is a step of its own.  A handler of a protocol is one step; for
      [DastManager::PrepareCRT] this merges several critical sections.  Of the loop
      [IRSyncLoop] that a manager inherits from the sites only the readings of the clock
      are modelled.
    - The field [next_execute_index_] of Slog, which the sources do not initialise, starts
      at 0.  The timestamps of DAST are unbounded integers.  [BrqCoord::finish] is [None]
      when the transaction is to be restarted, and the phase of a coordinator does not wrap.
    - Reference counts are left out; where the code branches on sharing the choice is
      an argument.  The iteration order of unordered containers is the parameter
      [iter], about which only that it permutes its argument is assumed.
    - Pointers that the code compares or keeps (rows of a table, members of a snapshot
      group, locks) are addresses in an explicit heap, so that aliasing is visible:
      MemTable.v keeps the keys of a table as pointers into its rows.
    - The networks of PaxosSystem.v and SlogSystem.v deliver every message once and in any
      order.  A submission to Slog is a new transaction that has pieces on the partition of
      the site it is sent to, as the clients send it; the transactions submitted so far are
      kept in the world for the statements only.
    - A site of DAST reads its physical clock from a sequence of readings, which is a
      parameter; what other sites send is restricted by the premises of the step relations
      of ChrCrt.v and ChrManager.v only.
    - In the dependency-tracking protocol a pointer to a transaction is its identifier; a
      set of pointers is iterated by the parameter [addr], the addresses.  The clock is
      read once per message.  Epochs are left out, since [EpochMgr::AddToEpoch] returns at
      once and nothing is ever removed.  A stored procedure is a program that reads and
      writes columns; the registry of the procedures is a parameter.  The workspaces of a
      transaction share one map of values, as in the sources.  A message is the list of
      its fields.

    ** What the theorems show

    - APProps.v, Graph.v: when updates are not resent after their ingestion and orders
      arrive once and before those of their children, updates are ingested at most once
      and after their parents, the recursion ends and queries wait for what was pending;
      two theorems show what a resent update and a late order break.  The graph searches
      are exact.
    - PaxosSystem.v: with the frame of the code a replica crashes at its first Accept
      request, whatever is submitted.  With the frame the scheduler expects replicas
      agree, no check fails, the system refines a replicated log (a forward simulation),
      and every command is delivered.
    - TxnChopper.v, PieceExec.v: every piece of a transaction is sent once, to its
      partition and in the form the loop of a site needs, which runs each piece at most
      once and with all its inputs.  RccTxn.v: of two transactions
      that access a column of a site the later one depends on the earlier one through
      parents.  RccSafety.v, BrqSafety.v: the loop over the waitlist ends, runs the component
      of a transaction only when it is dispatched and its reachable ancestors are settled
      and finished, a commit is answered at most once, and the graph of a commit fixes the
      parents.  BrqCoord.v: the fast path
      is unanimous.  CdcClient.v: orders and updates leave in sequence.  Sharding.v: the
      partition of a key.  What does not hold is shown too: parents are lost in messages
      and between partitions, so that replicas diverge, and pieces run twice (RccGraph.v,
      BrqCoord.v, BrqRuns.v); a payment does not change the total of its district
      (ChPayment.v).
    - SlogRuns.v, SlogExec.v: all sites of a Slog deployment have common transactions in
      the same order, no check fails, a client is answered at most once and only when every
      partition has executed, and the queue of a site runs a piece only when no unexecuted
      piece before it conflicts.  Conflicts that are not found in the CH benchmark, touched
      partitions of other transactions, barriers that do not arrive and deferred writes that
      are lost are shown on examples.
    - ChrCrt.v: a DAST coordinator decides only with the majorities and leaders of all
      partitions, once, on a timestamp no manager's is after.  ChrManager.v: anticipated
      timestamps increase, reach every site of the region and stay ahead of the manager's
      clock.  ChrExec.v: the queue runs pieces in the order of the timestamps, but for
      transactions that were tried before, and the timestamps of a region's transactions
      fit before the pending ones that the clock has not passed.  ChrRuns.v shows
      what the sources do not ensure: transactions of a region run as they arrive, a tried
      transaction is overtaken, replicas drop unfinished transactions, coordinators outside
      the first region drop their pieces, early decisions are lost.
    - SnapshotMap.v: a group of snapshots refines independent maps, for all operations and
      copies except an erasure of the first match that is not visible; MemRow.v,
      MemTable.v: rows are type safe and return what was stored, tables find exactly
      the rows with a key and updates keep them sorted, except for the update that
      frees a key; Txn2PL.v, TxnQuery.v: a transaction reads its own writes, commit
      installs exactly what it saw, its queries are complete but ordered by address;
      MvRow.v: reads return the newest version, except for repeated versions.
    - WaitDie.v, WoundDie.v, TimeoutWorld.v, LockGroup.v: no history of calls fails a
      check, locks are exclusive, wait-die has no deadlock, requests are answered at
      most once and groups report once.
    - Pam*.v: every scheme's join returns a valid tree, and the operations on maps agree
      with the sorted list of the entries; DepScc.v, DepTraverse.v: components and
      traversals are exact.
    - SparseInt.v: encoding and decoding are inverse except for the 8-byte code.

    ** Fuel

    Recursions that are not structural take fuel, and the theorems prove the fuel the
    definitions pass to be enough: the length of the array in [from_array], the number
    of edges in the graph searches, the number of known transactions plus one in
    [ApplyUpdateByOrder], the number of waiting alarms plus one in [run], the number of
    vertices in [StrongConnectPred] and one more in [TraversePred], the distance to the
    greatest committed slot in [OnCommit], two in [GotoNextPhase] (a phase and the one
    after it), the number of remaining entries in the enumerations, one more than the
    number of pieces in the loop over the pieces of a site (every further round has made a
    piece ready), one more than the number of transactions in [CheckWaitlist] (the
    addresses grow), and one more than the length of the queue for the timestamp of a
    transaction of the region (each round passes an entry).

    ** Bounds

    Histories of lock operations have fewer than 2^63 - 2 steps, Paxos systems fewer
    than 2^64 - 2 commands and 2^32 replicas, red-black trees fewer than 2^32 entries,
    snapshot versions are below 2^64 - 1, row versions below 2^63.

    ** Not modelled

    PAM's weight-balanced trees (floating-point weights), parallel building and memory
    management; sockets, RPC stubs, threads, configuration and logging (input and
    output); generated code, yaml-cpp and pbbslib (third party); the benchmark
    workloads but for the payment, whose piece on the customer formats numbers as text;
    the text form of the changes that are sent; handlers of older protocols that no sender
    calls (in slog/ and chronos/).  The two-phase protocols of deptran, the unsorted,
    indexed and snapshot tables, nested transactions and the marshalling of rrr could be
    modelled on the pieces, rows and locks of this development. *)

From stdpp Require Import base list option numbers sets.
From Stdlib Require Import ZArith Lia Sorting.Sorted.

(** ** Machine integers

    The C++ types are kept at their width: a [w]-bit unsigned integer is the
    representative in [0, 2^w) and a [w]-bit signed one the representative in
    [-2^(w-1), 2^(w-1)). *)
Definition wrap (w z : Z) : Z := (z mod 2 ^ w)%Z.
Definition swrap (w z : Z) : Z :=
  let u := wrap w z in if (u <? 2 ^ (w - 1))%Z then u else (u - 2 ^ w)%Z.

Lemma wrap_small w z : (0 <= z < 2 ^ w)%Z -> wrap w z = z.
Proof. apply Z.mod_small. Qed.

Lemma wrap_bound w z : (0 <= w)%Z -> (0 <= wrap w z < 2 ^ w)%Z.
Proof. intros. apply Z.mod_pos_bound. lia. Qed.

Lemma swrap_small w z : (0 <= z < 2 ^ (w - 1))%Z -> (0 < w)%Z -> swrap w z = z.
Proof.
  intros Hz Hw. unfold swrap, wrap. rewrite Z.mod_small.
  - destruct (Z.ltb_spec z (2 ^ (w - 1))); lia.
  - split; [lia |]. transitivity (2 ^ (w - 1))%Z; [lia |]. apply Z.pow_lt_mono_r; lia.
Qed.

Lemma swrap_id w z : (0 < w)%Z -> (- 2 ^ (w - 1) <= z < 2 ^ (w - 1))%Z -> swrap w z = z.
Proof.
  intros Hw Hz. destruct (Z.lt_ge_cases z 0) as [Hneg|Hpos]; [|apply swrap_small; lia].
  assert (E : (2 ^ w = 2 * 2 ^ (w - 1))%Z) by (rewrite <- Z.pow_succ_r by lia; f_equal; lia).
  unfold swrap, wrap. rewrite <- (Z_mod_plus_full z 1), Z.mul_1_l, Z.mod_small by lia.
  destruct (Z.ltb_spec (z + 2 ^ w) (2 ^ (w - 1))); lia.
Qed.

(** ** Partial computations

    Code that dereferences a null pointer, fails a [verify] or reads out of
    range is modelled by [None].  [runs o P] says that the computation does
    return, and that its result satisfies [P]; the two rules below are the
    calculus in which the components' operations are specified. *)
Definition runs {A} (o : option A) (P : A -> Prop) : Prop :=
  exists x, o = Some x /\ P x.

Lemma runs_ret {A} (x : A) (P : A -> Prop) : P x -> runs (Some x) P.
Proof. intros H. exists x. auto. Qed.

Lemma runs_bind {A B} (o : option A) (f : A -> option B) (Q : A -> Prop) (P : B -> Prop) :
  runs o Q -> (forall x, Q x -> runs (f x) P) -> runs (o ≫= f) P.
Proof. intros (x & -> & Hx) Hf. apply Hf, Hx. Qed.

Lemma runs_mono {A} (o : option A) (P Q : A -> Prop) :
  runs o P -> (forall x, P x -> Q x) -> runs o Q.
Proof. intros (x & -> & Hx) H. exists x. auto. Qed.

Lemma runs_and {A} (o : option A) (P Q : A -> Prop) :
  runs o P -> runs o Q -> runs o (fun x => P x /\ Q x).
Proof. intros (x & -> & Hx) (y & [= ->] & Hy). exists y. auto. Qed.

(** Runs the first computation of a bind with the specification [H]. *)
Ltac runs_with H := eapply runs_bind; [eapply H; eauto |].

(** ** Shared list lemmas *)

Lemma filter_app_cons {A} (f : A -> bool) (l1 l2 : list A) (x : A) :
  List.filter f (l1 ++ x :: l2) =
  List.filter f l1 ++ (if f x then [x] else []) ++ List.filter f l2.
Proof. rewrite List.filter_app. cbn. destruct (f x); reflexivity. Qed.

Lemma split_at_index {A} (xs : list A) (i : nat) (m : A) :
  xs !! i = Some m -> take i xs ++ m :: drop (i + 1) xs = xs.
Proof. intros H. rewrite Nat.add_1_r. apply take_drop_middle, H. Qed.

Lemma Forall_weaken {A} (P Q : A -> Prop) (l : list A) :
  Forall P l -> (forall x, P x -> Q x) -> Forall Q l.
Proof. intros HP HQ. induction HP; constructor; auto. Qed.

Lemma fmap_id_Forall {A} (f : A -> A) (l : list A) : Forall (fun x => f x = x) l -> f <$> l = l.
Proof. induction 1 as [|x l Hx Hl IH]; [reflexivity |]. rewrite fmap_cons. now rewrite Hx, IH. Qed.

Definition option_list {A} (o : option A) : list A :=
  match o with Some x => [x] | None => [] end.

Lemma filter_all {A} (f : A -> bool) (l : list A) :
  Forall (fun x => f x = true) l -> List.filter f l = l.
Proof. induction 1 as [|x l Hx Hl IH]; cbn; [reflexivity |]. now rewrite Hx, IH. Qed.

Lemma filter_none {A} (f : A -> bool) (l : list A) :
  Forall (fun x => f x = false) l -> List.filter f l = [].
Proof. induction 1 as [|x l Hx Hl IH]; cbn; [reflexivity |]. now rewrite Hx, IH. Qed.

Lemma filter_ext_Forall {A} (f g : A -> bool) (l : list A) :
  Forall (fun x => f x = g x) l -> List.filter f l = List.filter g l.
Proof. induction 1 as [|x l Hx Hl IH]; cbn; [reflexivity |]. now rewrite Hx, IH. Qed.

Lemma Forall_filter {A} (P : A -> Prop) (f : A -> bool) (l : list A) :
  Forall P l -> Forall P (List.filter f l).
Proof. induction 1 as [|x l Hx Hl IH]; cbn; [constructor |]. destruct (f x); auto. Qed.

Lemma bfilter_sublist {A} (f : A -> bool) (l : list A) : List.filter f l `sublist_of` l.
Proof. induction l as [|x l IH]; cbn; [constructor |]. destruct (f x); now constructor. Qed.

Lemma Forall_sub {A} (P : A -> Prop) (l k : list A) : l `sublist_of` k -> Forall P k -> Forall P l.
Proof.
  induction 1; intros Hk; [constructor | |]; apply Forall_cons_iff in Hk as [Hx Hk]; auto.
Qed.

Lemma StronglySorted_sub {A} (R : A -> A -> Prop) (l k : list A) :
  l `sublist_of` k -> StronglySorted R k -> StronglySorted R l.
Proof.
  induction 1 as [|x l k Hl IH|x l k Hl IH]; intros Hk; [constructor | |];
    apply StronglySorted_inv in Hk as [Hk Hx]; [|now apply IH].
  constructor; [now apply IH | now apply (Forall_sub _ l k)].
Qed.

Lemma StronglySorted_snoc {A} (R : A -> A -> Prop) l x :
  StronglySorted R l -> Forall (fun y => R y x) l -> StronglySorted R (l ++ [x]).
Proof.
  induction 1 as [|y l Hs IH Hy]; intros Hx; cbn; [repeat constructor |].
  apply Forall_cons_iff in Hx as [Hyx Hx]. constructor; [now apply IH |].
  apply Forall_app. auto.
Qed.

(** ** Ordered maps

    A [std::map] with integer keys is the list of its entries in key order:
    [map_put k x] is [m[k] = x]. *)
Section OrderedMap.
Context {V : Type}.

Fixpoint map_put (k : Z) (x : V) (l : list (Z * V)) : list (Z * V) :=
  match l with
  | [] => [(k, x)]
  | (k', x') :: l' =>
      if (k <? k')%Z then (k, x) :: l
      else if (k =? k')%Z then (k, x) :: l'
      else (k', x') :: map_put k x l'
  end.

Definition key_is_not (k : Z) (e : Z * V) : bool := negb (e.1 =? k)%Z.
Definition map_erase (k : Z) (l : list (Z * V)) : list (Z * V) := List.filter (key_is_not k) l.

Lemma map_put_last k x l :
  Forall (fun e => 1 <= e.1 < k)%Z l -> map_put k x l = l ++ [(k, x)].
Proof.
  induction 1 as [|[k' x'] l Hk _ IH]; cbn in *; [reflexivity |].
  destruct (Z.ltb_spec k k'); [lia |]. destruct (Z.eqb_spec k k'); [lia |]. now rewrite IH.
Qed.

Lemma elem_of_map_put k x l e :
  StronglySorted Z.lt l.*1 -> e ∈ map_put k x l <-> e = (k, x) \/ (e ∈ l /\ e.1 <> k).
Proof.
  induction l as [|[k' x'] l IH]; cbn; intros Hs; [set_solver |].
  apply StronglySorted_inv in Hs as [Hs Hk']. rewrite Forall_forall in Hk'.
  assert (Hl : forall y, y ∈ l -> (k' < y.1)%Z).
  { intros y Hy. apply Hk'. now apply list_elem_of_fmap_2. }
  destruct (Z.ltb_spec k k'); [|destruct (Z.eqb_spec k k') as [<-|Hne]].
  - split; [|set_solver]. intros [->|[->|He]%elem_of_cons]%elem_of_cons; [auto | cbn; right; split; [set_solver | lia] |].
    right. specialize (Hl e He). split; [set_solver | lia].
  - split; [|set_solver]. intros [->|He]%elem_of_cons; [auto |].
    right. specialize (Hl e He). split; [set_solver | lia].
  - rewrite !elem_of_cons, IH by assumption. split; [|tauto].
    intros [->|[->|[He Hn]]]; auto.
Qed.

Lemma map_put_sorted k x l : StronglySorted Z.lt l.*1 -> StronglySorted Z.lt (map_put k x l).*1.
Proof.
  intros Hs. induction l as [|[k' x'] l IH]; cbn in *; [repeat constructor |].
  pose proof Hs as Hs0. apply StronglySorted_inv in Hs as [Hs Hk']. rewrite Forall_forall in Hk'.
  destruct (Z.ltb_spec k k'); [|destruct (Z.eqb_spec k k') as [<-|Hne]]; cbn.
  - constructor; [exact Hs0 |]. constructor; [lia |]. apply Forall_forall. intros y Hy.
    specialize (Hk' y Hy). lia.
  - exact Hs0.
  - constructor; [now apply IH |]. apply Forall_forall.
    intros y ([k2 x2] & -> & Hy)%list_elem_of_fmap. apply elem_of_map_put in Hy; [|assumption].
    destruct Hy as [[= -> ->]|[Hy _]]; [cbn; lia |]. apply Hk'. now apply (list_elem_of_fmap_2 fst) in Hy.
Qed.

Lemma map_erase_sorted k l : StronglySorted Z.lt l.*1 -> StronglySorted Z.lt (map_erase k l).*1.
Proof.
  apply StronglySorted_sub. apply fmap_sublist. unfold map_erase.
  induction l as [|e l IH]; cbn; [constructor |]. destruct (key_is_not k e); now constructor.
Qed.

Lemma elem_of_map_erase k l e : e ∈ map_erase k l <-> e ∈ l /\ e.1 <> k.
Proof.
  unfold map_erase. rewrite !list_elem_of_In, filter_In. unfold key_is_not.
  rewrite negb_true_iff, Z.eqb_neq. reflexivity.
Qed.
End OrderedMap.
