(* ===== verification/SparseInt.v ===== *)
(** * SparseInt: the variable-length integer codec of the RPC layer

    Models [rrr::SparseInt] (src/OLTP/dast/rrr/base/basetypes.cpp), which the
    marshaller uses for [v32] and [v64] values: every length prefix of a
    string, vector, map or set that crosses the network.

    A [char*] buffer is a function from offsets to bytes, so that a write past
    the bytes that are later transmitted stays visible; a byte is the
    representative in [0, 256).  [pv val i] is the [i]-th byte of the
    little-endian two's complement representation that the C++ code reads
    through [(char* ) &val]. *)

From Stdlib Require Import ZArith Lia List Bool.
From S2P Require Import Prelude.
Import ListNotations.
Local Open Scope Z_scope.

Module SparseInt.

(** ** Buffers *)

Definition buffer := nat -> Z.

Definition set (buf : buffer) (i : nat) (b : Z) : buffer :=
  fun j => if Nat.eqb j i then b else buf j.

(** [buf[i] &= m] and [buf[i] |= m] on a [char]. *)
Definition set_and (buf : buffer) (i : nat) (m : Z) : buffer :=
  set buf i (wrap 8 (Z.land (buf i) m)).
Definition set_or (buf : buffer) (i : nat) (m : Z) : buffer :=
  set buf i (wrap 8 (Z.lor (buf i) m)).

Definition pv (val : Z) (i : nat) : Z := wrap 8 (Z.shiftr val (8 * Z.of_nat i)).

(** [buf[dst] = pv[src]] for a list of (dst, src) pairs, in order. *)
Definition copies (val : Z) (ps : list (nat * nat)) (buf : buffer) : buffer :=
  fold_left (fun b p => set b (fst p) (pv val (snd p))) ps buf.

(** ** The code *)

Definition buf_size (byte0 : Z) : nat :=
  if Z.land byte0 0x80 =? 0 then 1%nat
  else if Z.land byte0 0xC0 =? 0x80 then 2%nat
  else if Z.land byte0 0xE0 =? 0xC0 then 3%nat
  else if Z.land byte0 0xF0 =? 0xE0 then 4%nat
  else if Z.land byte0 0xF8 =? 0xF0 then 5%nat
  else if Z.land byte0 0xFC =? 0xF8 then 6%nat
  else if Z.land byte0 0xFE =? 0xFC then 7%nat
  else if Z.land byte0 0xFF =? 0xFE then 8%nat
  else 9%nat.

Definition between (lo val hi : Z) : bool := (lo <=? val) && (val <=? hi).

Definition val_size (val : Z) : nat :=
  if between (-64) val 63 then 1%nat
  else if between (-8192) val 8191 then 2%nat
  else if between (-1048576) val 1048575 then 3%nat
  else if between (-134217728) val 134217727 then 4%nat
  else if between (-17179869184) val 17179869183 then 5%nat
  else if between (-2199023255552) val 2199023255551 then 6%nat
  else if between (-281474976710656) val 281474976710655 then 7%nat
  else if between (-36028797018963968) val 36028797018963967 then 8%nat
  else 9%nat.

Definition dump_i32 (val : Z) (buf : buffer) : buffer * nat :=
  if between (-64) val 63 then
    (set_and (copies val [(0, 0)]%nat buf) 0 0x7F, 1%nat)
  else if between (-8192) val 8191 then
    (set_or (set_and (copies val [(0, 1); (1, 0)]%nat buf) 0 0x3F) 0 0x80, 2%nat)
  else if between (-1048576) val 1048575 then
    (set_or (set_and (copies val [(0, 2); (1, 1); (2, 0)]%nat buf) 0 0x1F) 0 0xC0, 3%nat)
  else if between (-134217728) val 134217727 then
    (set_or (set_and (copies val [(0, 3); (1, 2); (2, 1); (3, 0)]%nat buf) 0 0x0F) 0 0xE0, 4%nat)
  else
    (set (copies val [(1, 3); (2, 2); (3, 1); (4, 0)]%nat buf) 0
       (if val <? 0 then 0xF7 else 0xF0), 5%nat).

Definition dump_i64 (val : Z) (buf : buffer) : buffer * nat :=
  if between (-64) val 63 then
    (set_and (copies val [(0, 0)]%nat buf) 0 0x7F, 1%nat)
  else if between (-8192) val 8191 then
    (set_or (set_and (copies val [(0, 1); (1, 0)]%nat buf) 0 0x3F) 0 0x80, 2%nat)
  else if between (-1048576) val 1048575 then
    (set_or (set_and (copies val [(0, 2); (1, 1); (2, 0)]%nat buf) 0 0x1F) 0 0xC0, 3%nat)
  else if between (-134217728) val 134217727 then
    (set_or (set_and (copies val [(0, 3); (1, 2); (2, 1); (3, 0)]%nat buf) 0 0x0F) 0 0xE0, 4%nat)
  else if between (-17179869184) val 17179869183 then
    (set_or (set_and (copies val [(0, 4); (1, 3); (2, 2); (3, 1); (4, 0)]%nat buf) 0 0x07) 0 0xF0,
     5%nat)
  else if between (-2199023255552) val 2199023255551 then
    (set_or (set_and (copies val [(0, 5); (1, 4); (2, 3); (3, 2); (4, 1); (5, 0)]%nat buf) 0 0x03)
       0 0xF8, 6%nat)
  else if between (-281474976710656) val 281474976710655 then
    (set_or (set_and (copies val [(0, 6); (1, 5); (2, 4); (3, 3); (4, 2); (5, 1); (6, 0)]%nat buf)
       0 0x01) 0 0xFC, 7%nat)
  else if between (-36028797018963968) val 36028797018963967 then
    (set (copies val [(1, 7); (2, 6); (3, 5); (4, 4); (5, 3); (6, 2); (7, 1); (8, 0)]%nat buf)
       0 0xFE, 8%nat)
  else
    (set (copies val [(1, 7); (2, 6); (3, 5); (4, 4); (5, 3); (6, 2); (7, 1); (8, 0)]%nat buf)
       0 0xFF, 9%nat).

(** The integer whose [n] little-endian bytes the pointer [pv] wrote. *)
Fixpoint value_of (n : nat) (bytes : buffer) : Z :=
  match n with
  | O => 0
  | S m => value_of m bytes + bytes m * 2 ^ (8 * Z.of_nat m)
  end.

(** [for (int i = a; i < a + k; i++) pv[i] = src(i);] *)
Definition fill (a k : nat) (src : nat -> Z) (bytes : buffer) : buffer :=
  fold_left (fun b i => set b i (src i)) (seq a k) bytes.

(** The body both loaders share; [width] is the number of bytes of the
    destination (4 or 8) and [limit] the first prefix length that is followed
    by the raw bytes (5 or 8). *)
Definition load_bytes (width limit : nat) (buf : buffer) : buffer :=
  let zero : buffer := fun _ => 0 in
  let bsize := buf_size (buf 0%nat) in
  if (bsize <? limit)%nat then
    let p := fill 0 bsize (fun i => buf (bsize - i - 1)%nat) zero in
    let p := set_and p (bsize - 1) (Z.shiftr 0xFF (Z.of_nat bsize)) in
    if Z.land (Z.shiftr (p (bsize - 1)%nat) (7 - Z.of_nat bsize)) 0x1 =? 0 then p
    else
      let p := set_or p (bsize - 1) (Z.shiftl 0xFF (7 - Z.of_nat bsize)) in
      fill bsize (width - bsize) (fun _ => 0xFF) p
  else fill 0 width (fun i => buf (width - i)%nat) zero.

Definition load_i32 (buf : buffer) : Z := swrap 32 (value_of 4 (load_bytes 4 5 buf)).
Definition load_i64 (buf : buffer) : Z := swrap 64 (value_of 8 (load_bytes 8 8 buf)).

(** ** Facts on bytes *)

(** A statement on a byte is checked on the 256 bytes. *)
Lemma byte_forall (P : Z -> bool) :
  forallb P (map Z.of_nat (List.seq 0 256)) = true -> forall x, 0 <= x < 256 -> P x = true.
Proof.
  intros H x Hx. rewrite forallb_forall in H. apply H, in_map_iff.
  exists (Z.to_nat x). rewrite in_seq. lia.
Qed.

Lemma pv_div val i : pv val i = (val / 2 ^ (8 * Z.of_nat i)) mod 256.
Proof. unfold pv, wrap. now rewrite Z.shiftr_div_pow2 by lia. Qed.

Lemma pv_byte val i : 0 <= pv val i < 256.
Proof. apply (wrap_bound 8). lia. Qed.

(** What the loader does to the first byte of an [n]-byte encoding: the tag is
    stripped, and the sign is spread over the [8 - n] payload bits. *)
Definition payload (n : nat) (x : Z) : Z := x mod 2 ^ (8 - Z.of_nat n).
Definition negative (n : nat) (x : Z) : bool :=
  negb (Z.land (Z.shiftr (payload n x) (7 - Z.of_nat n)) 1 =? 0).

Definition head_ok (n : nat) (y x : Z) : bool :=
  Nat.eqb (buf_size y) n
  && (wrap 8 (Z.land y (Z.shiftr 0xFF (Z.of_nat n))) =? payload n x)
  && eqb (negative n x) (2 ^ (7 - Z.of_nat n) <=? payload n x)
  && (if negative n x then
        wrap 8 (Z.lor (payload n x) (Z.shiftl 0xFF (7 - Z.of_nat n)))
        =? payload n x + 256 - 2 ^ (8 - Z.of_nat n)
      else true).

Definition tagged (mask tag x : Z) : Z := wrap 8 (Z.lor (wrap 8 (Z.land x mask)) tag).

Lemma head_ok_1 x : 0 <= x < 256 -> head_ok 1 (wrap 8 (Z.land x 0x7F)) x = true.
Proof. apply (byte_forall (fun x => head_ok 1 (wrap 8 (Z.land x 0x7F)) x)). vm_compute. reflexivity. Qed.
Lemma head_ok_2 x : 0 <= x < 256 -> head_ok 2 (tagged 0x3F 0x80 x) x = true.
Proof. apply (byte_forall (fun x => head_ok 2 (tagged 0x3F 0x80 x) x)). vm_compute. reflexivity. Qed.
Lemma head_ok_3 x : 0 <= x < 256 -> head_ok 3 (tagged 0x1F 0xC0 x) x = true.
Proof. apply (byte_forall (fun x => head_ok 3 (tagged 0x1F 0xC0 x) x)). vm_compute. reflexivity. Qed.
Lemma head_ok_4 x : 0 <= x < 256 -> head_ok 4 (tagged 0x0F 0xE0 x) x = true.
Proof. apply (byte_forall (fun x => head_ok 4 (tagged 0x0F 0xE0 x) x)). vm_compute. reflexivity. Qed.
Lemma head_ok_5 x : 0 <= x < 256 -> head_ok 5 (tagged 0x07 0xF0 x) x = true.
Proof. apply (byte_forall (fun x => head_ok 5 (tagged 0x07 0xF0 x) x)). vm_compute. reflexivity. Qed.
Lemma head_ok_6 x : 0 <= x < 256 -> head_ok 6 (tagged 0x03 0xF8 x) x = true.
Proof. apply (byte_forall (fun x => head_ok 6 (tagged 0x03 0xF8 x) x)). vm_compute. reflexivity. Qed.
Lemma head_ok_7 x : 0 <= x < 256 -> head_ok 7 (tagged 0x01 0xFC x) x = true.
Proof. apply (byte_forall (fun x => head_ok 7 (tagged 0x01 0xFC x) x)). vm_compute. reflexivity. Qed.

Lemma set_eq b i x : set b i x i = x.
Proof. unfold set. now rewrite Nat.eqb_refl. Qed.

Lemma set_ne b i j x : i <> j -> set b i x j = b j.
Proof. intros. unfold set. destruct (Nat.eqb_spec j i); congruence. Qed.

Lemma fill_spec a k src b j :
  fill a k src b j = if ((a <=? j) && (j <? a + k))%nat then src j else b j.
Proof.
  unfold fill. revert a b. induction k as [|k IH]; intros a b; simpl.
  - destruct (Nat.leb_spec a j), (Nat.ltb_spec j (a + 0)); simpl; (reflexivity || lia).
  - rewrite IH. unfold set.
    destruct (Nat.leb_spec (S a) j), (Nat.leb_spec a j), (Nat.ltb_spec j (S a + k)),
      (Nat.ltb_spec j (a + S k)), (Nat.eqb_spec j a); subst; simpl; (reflexivity || lia).
Qed.

Lemma value_of_ext n b b' :
  (forall i, (i < n)%nat -> b i = b' i) -> value_of n b = value_of n b'.
Proof.
  induction n as [|n IH]; intros H; simpl; [reflexivity |].
  rewrite IH, H by (intros; try apply H; lia). reflexivity.
Qed.

(** The bytes of a value, read back, are the value modulo its width. *)
Lemma value_of_pv n val : value_of n (pv val) = val mod 2 ^ (8 * Z.of_nat n).
Proof.
  induction n as [|n IH]; cbn [value_of].
  - now rewrite Z.mod_1_r.
  - rewrite IH, pv_div.
    replace (8 * Z.of_nat (S n)) with (8 * Z.of_nat n + 8) by lia.
    rewrite Z.pow_add_r by lia. change (2 ^ 8) with 256.
    rewrite Z.rem_mul_r by lia. lia.
Qed.

(** Padding with zero bytes keeps a value, padding with 0xFF bytes subtracts
    the old modulus once the result is taken at its width. *)
Lemma value_of_pad n k b c :
  (forall i, (n <= i < n + k)%nat -> b i = c) ->
  255 * value_of (n + k) b =
  255 * value_of n b + c * (2 ^ (8 * Z.of_nat (n + k)) - 2 ^ (8 * Z.of_nat n)).
Proof.
  induction k as [|k IH]; intros H.
  - rewrite Nat.add_0_r. lia.
  - rewrite Nat.add_succ_r. cbn [value_of].
    rewrite Z.mul_add_distr_l, IH, (H (n + k)%nat) by (intros; try apply H; lia).
    replace (8 * Z.of_nat (S (n + k))) with (8 * Z.of_nat (n + k) + 8) by lia.
    rewrite Z.pow_add_r by lia. change (2 ^ 8) with 256. lia.
Qed.

(** [head_ok] as separate facts. *)
Lemma head_ok_inv n y x :
  head_ok n y x = true ->
  buf_size y = n
  /\ wrap 8 (Z.land y (Z.shiftr 0xFF (Z.of_nat n))) = payload n x
  /\ negative n x = (2 ^ (7 - Z.of_nat n) <=? payload n x)
  /\ (negative n x = true ->
      wrap 8 (Z.lor (payload n x) (Z.shiftl 0xFF (7 - Z.of_nat n)))
      = payload n x + 256 - 2 ^ (8 - Z.of_nat n)).
Proof.
  unfold head_ok. rewrite !andb_true_iff, Nat.eqb_eq, Z.eqb_eq, eqb_true_iff.
  intros [[[H1 H2] H3] H4]. repeat split; auto.
  intros Hn. rewrite Hn, Z.eqb_eq in H4. exact H4.
Qed.

(** Two's complement: the residue of a value of [m] bits. *)
Lemma residue_cases m val :
  0 < m -> - 2 ^ (m - 1) <= val < 2 ^ (m - 1) ->
  if 2 ^ (m - 1) <=? val mod 2 ^ m then val mod 2 ^ m = val + 2 ^ m
  else val mod 2 ^ m = val.
Proof.
  intros Hm Hv. pose proof (swrap_id m val Hm Hv) as H. unfold swrap, wrap in H.
  destruct (Z.ltb_spec (val mod 2 ^ m) (2 ^ (m - 1))),
    (Z.leb_spec (2 ^ (m - 1)) (val mod 2 ^ m)); lia.
Qed.

(** The [n - 1] low bytes and the payload bits of the top one hold the low
    [7 n] bits of the value. *)
Lemma payload_value n val :
  (0 < n <= 7)%nat ->
  val mod 2 ^ (8 * Z.of_nat (n - 1)) + payload n (pv val (n - 1)) * 2 ^ (8 * Z.of_nat (n - 1))
  = val mod 2 ^ (7 * Z.of_nat n).
Proof.
  intros Hn. unfold payload. rewrite pv_div.
  assert (Hd : (2 ^ (8 - Z.of_nat n) | 256)).
  { exists (2 ^ Z.of_nat n). rewrite <- Z.pow_add_r by lia.
    replace (Z.of_nat n + (8 - Z.of_nat n)) with 8 by lia. reflexivity. }
  rewrite Z.mod_mod_divide by assumption.
  replace (7 * Z.of_nat n) with (8 * Z.of_nat (n - 1) + (8 - Z.of_nat n)) by lia.
  rewrite Z.pow_add_r, Z.rem_mul_r by lia. lia.
Qed.
(** Powers of two that relate an [n]-byte encoding to its [7 n] value bits. *)
Lemma pow_split n k :
  (0 < n <= 7)%nat -> 7 <= k <= 16 ->
  2 ^ (7 * Z.of_nat n - 8 + k) = 2 ^ (k - Z.of_nat n) * 2 ^ (8 * Z.of_nat (n - 1)).
Proof. intros. rewrite <- Z.pow_add_r by lia. f_equal. lia. Qed.

(** The sign bit of the payload is the sign bit of the [7 n]-bit residue. *)
Lemma sign_payload n val :
  (0 < n <= 7)%nat ->
  (2 ^ (7 - Z.of_nat n) <=? payload n (pv val (n - 1)))
  = (2 ^ (7 * Z.of_nat n - 1) <=? val mod 2 ^ (7 * Z.of_nat n)).
Proof.
  intros Hn. rewrite <- payload_value by exact Hn.
  pose proof (pow_split n 7 Hn ltac:(lia)) as E.
  replace (7 * Z.of_nat n - 8 + 7) with (7 * Z.of_nat n - 1) in E by lia. rewrite E.
  set (P := payload _ _). set (Q := 2 ^ (8 * Z.of_nat (n - 1))).
  assert (0 <= val mod Q < Q) by (apply Z.mod_pos_bound; lia).
  destruct (Z.leb_spec (2 ^ (7 - Z.of_nat n)) P),
    (Z.leb_spec (2 ^ (7 - Z.of_nat n) * Q) (val mod Q + P * Q)); nia.
Qed.

Lemma swrap_shift w z : swrap w (z + 2 ^ w) = swrap w z.
Proof.
  unfold swrap, wrap.
  replace ((z + 2 ^ w) mod 2 ^ w) with (z mod 2 ^ w); [reflexivity |].
  rewrite <- (Z.mul_1_l (2 ^ w)) at 2. symmetry. apply Z_mod_plus_full.
Qed.

(** The bytes below the top one and the top byte, after the first loop of the
    loader and the masking of the tag. *)
Lemma loaded_low n (b : buffer) val :
  (0 < n)%nat ->
  (forall i, (0 < i < n)%nat -> b i = pv val (n - 1 - i)) ->
  let p := set_and (fill 0 n (fun i => b (n - i - 1)%nat) (fun _ => 0)) (n - 1)
             (Z.shiftr 0xFF (Z.of_nat n)) in
  (forall i, (i < n - 1)%nat -> p i = pv val i)
  /\ p (n - 1)%nat = wrap 8 (Z.land (b 0%nat) (Z.shiftr 0xFF (Z.of_nat n)))
  /\ (forall i, (n <= i)%nat -> p i = 0).
Proof.
  intros Hn Hb p. unfold p, set_and. repeat split.
  - intros i Hi. rewrite set_ne, fill_spec by lia.
    replace ((0 <=? i) && (i <? 0 + n))%nat with true
      by (symmetry; rewrite andb_true_iff, Nat.leb_le, Nat.ltb_lt; lia).
    rewrite Hb by lia. f_equal. lia.
  - rewrite set_eq, fill_spec.
    replace ((0 <=? n - 1) && (n - 1 <? 0 + n))%nat with true
      by (symmetry; rewrite andb_true_iff, Nat.leb_le, Nat.ltb_lt; lia).
    now replace (n - (n - 1) - 1)%nat with 0%nat by lia.
  - intros i Hi. rewrite set_ne, fill_spec by lia.
    replace ((0 <=? i) && (i <? 0 + n))%nat with false
      by (symmetry; rewrite andb_false_iff, Nat.leb_gt, Nat.ltb_ge; lia).
    reflexivity.
Qed.

(** The value of [width] bytes whose low [n - 1] are those of [val], whose
    [n]-th is [top] and whose rest is [c]. *)
Lemma value_of_parts n width p val top c :
  (0 < n <= width)%nat ->
  (forall i, (i < n - 1)%nat -> p i = pv val i) ->
  p (n - 1)%nat = top ->
  (forall i, (n <= i < width)%nat -> p i = c) ->
  255 * value_of width p =
  255 * (val mod 2 ^ (8 * Z.of_nat (n - 1)) + top * 2 ^ (8 * Z.of_nat (n - 1)))
  + c * (2 ^ (8 * Z.of_nat width) - 2 ^ (8 * Z.of_nat n)).
Proof.
  intros Hn Hlow Htop Hc.
  replace width with (n + (width - n))%nat by lia.
  rewrite (value_of_pad n (width - n) p c) by (intros; apply Hc; lia).
  destruct n as [|m]; [lia |]. replace (S m - 1)%nat with m in * by lia.
  cbn [value_of]. rewrite (value_of_ext m p (pv val)), value_of_pv, Htop by exact Hlow.
  reflexivity.
Qed.

(** A prefix encoding of [n < limit] bytes decodes to the value its bytes were
    taken from. *)
Lemma load_bytes_short n width limit (b : buffer) val :
  (0 < n < limit)%nat -> (n <= width)%nat -> (n <= 7)%nat ->
  - 2 ^ (7 * Z.of_nat n - 1) <= val < 2 ^ (7 * Z.of_nat n - 1) ->
  head_ok n (b 0%nat) (pv val (n - 1)) = true ->
  (forall i, (0 < i < n)%nat -> b i = pv val (n - 1 - i)) ->
  swrap (8 * Z.of_nat width) (value_of width (load_bytes width limit b)) = val.
Proof.
  intros Hn Hw H7 Hval Hh Hb.
  apply head_ok_inv in Hh as (Hsz & Hpay & Hneg & Hext).
  destruct (loaded_low n b val) as (Hlow & Htop & Hrest); [lia | exact Hb |].
  rewrite Hpay in Htop. unfold load_bytes. rewrite Hsz.
  rewrite (proj2 (Nat.ltb_lt n limit)) by lia.
  set (p := set_and (fill 0 n _ _) (n - 1) _) in *.
  pose proof (payload_value n val ltac:(lia)) as Hpv.
  pose proof (residue_cases (7 * Z.of_nat n) val ltac:(lia) Hval) as Hsgn.
  rewrite <- sign_payload, <- Hneg in Hsgn by lia.
  set (P := payload n (pv val (n - 1))) in *.
  set (L := val mod 2 ^ (8 * Z.of_nat (n - 1))) in *.
  pose proof (pow_split n 8 ltac:(lia) ltac:(lia)) as E7.
  replace (7 * Z.of_nat n - 8 + 8) with (7 * Z.of_nat n) in E7 by lia.
  assert (Hmono : 2 ^ (7 * Z.of_nat n - 1) <= 2 ^ (8 * Z.of_nat width - 1))
    by (apply Z.pow_le_mono_r; lia).
  assert (E8' : 2 ^ (8 * Z.of_nat n) = 256 * 2 ^ (8 * Z.of_nat (n - 1)))
    by (change 256 with (2 ^ 8); rewrite <- Z.pow_add_r by lia; f_equal; lia).
  rewrite Htop. unfold negative in Hsgn, Hext. fold P in Hsgn, Hext.
  destruct (Z.land (Z.shiftr P (7 - Z.of_nat n)) 1 =? 0); cbn [negb] in Hsgn, Hext.
  - pose proof (value_of_parts n width p val P 0 ltac:(lia) Hlow Htop
                  ltac:(intros; apply Hrest; lia)) as Hv.
    rewrite (swrap_id _ (value_of width p)); lia.
  - set (q := fill n (width - n) _ _).
    assert (Hq : 255 * value_of width q =
      255 * (L + (P + 256 - 2 ^ (8 - Z.of_nat n)) * 2 ^ (8 * Z.of_nat (n - 1)))
      + 255 * (2 ^ (8 * Z.of_nat width) - 2 ^ (8 * Z.of_nat n))).
    { apply value_of_parts; [lia | | |]; unfold q, set_or; intros; rewrite fill_spec.
      - rewrite (proj2 (Nat.leb_gt n i)), set_ne by lia. apply Hlow. lia.
      - rewrite (proj2 (Nat.leb_gt n (n - 1))), set_eq, Htop by lia. apply Hext. reflexivity.
      - replace ((n <=? i) && (i <? n + (width - n)))%nat with true
          by (symmetry; rewrite andb_true_iff, Nat.leb_le, Nat.ltb_lt; lia). reflexivity. }
    replace (value_of width q) with (val + 2 ^ (8 * Z.of_nat width)) by lia.
    rewrite swrap_shift. apply swrap_id; lia.
Qed.

(** ** Properties *)

(** [dump] always returns the length [val_size] announces. *)
Lemma dump_i64_size val buf : snd (dump_i64 val buf) = val_size val.
Proof.
  unfold dump_i64, val_size.
  repeat (match goal with |- context [between ?a val ?c] => destruct (between a val c) end;
          [reflexivity |]).
  reflexivity.
Qed.

Lemma between_true lo val hi : between lo val hi = true <-> lo <= val <= hi.
Proof. unfold between. rewrite andb_true_iff, !Z.leb_le. reflexivity. Qed.

Lemma between_false lo val hi : between lo val hi = false <-> val < lo \/ hi < val.
Proof. unfold between. rewrite andb_false_iff, !Z.leb_gt. lia. Qed.

(** The encoding on the wire is what the receiver reads: [sent val n b2] says
    that buffer [b2] agrees with the dumped one on the [n] transmitted bytes,
    its other bytes being arbitrary. *)
Definition sent (d : buffer * nat) (b2 : buffer) : Prop :=
  forall i, (i < snd d)%nat -> b2 i = fst d i.

(** Raw encodings: [width] bytes after the tag byte, most significant first. *)
Lemma load_bytes_raw width limit (b : buffer) val :
  (limit <= buf_size (b 0%nat))%nat -> (0 < width)%nat ->
  - 2 ^ (8 * Z.of_nat width - 1) <= val < 2 ^ (8 * Z.of_nat width - 1) ->
  (forall i, (1 <= i <= width)%nat -> b i = pv val (width - i)) ->
  swrap (8 * Z.of_nat width) (value_of width (load_bytes width limit b)) = val.
Proof.
  intros Hl Hw Hv Hb. unfold load_bytes. rewrite (proj2 (Nat.ltb_ge _ _)) by exact Hl.
  rewrite (value_of_ext width _ (pv val)), value_of_pv.
  - unfold swrap, wrap. rewrite Z.mod_mod by lia.
    apply (swrap_id (8 * Z.of_nat width)); [lia | exact Hv].
  - intros i Hi. rewrite fill_spec.
    replace ((0 <=? i) && (i <? 0 + width))%nat with true
      by (symmetry; rewrite andb_true_iff, Nat.leb_le, Nat.ltb_lt; lia).
    rewrite Hb by lia. f_equal. lia.
Qed.

Ltac short_case n lem H :=
  apply (load_bytes_short n);
  [ lia | lia | lia | cbn; lia
  | rewrite (H 0%nat) by (cbn; lia); apply lem, pv_byte
  | let i := fresh "i" in
    intros i ?; do 7 (destruct i as [|i]; [first [lia | rewrite H by (cbn; lia); reflexivity] |]);
    lia ].

(** [buf_size] of the first transmitted byte is the dumped length. *)
Lemma buf_size_head n (b2 : buffer) y x :
  head_ok n y x = true -> b2 0%nat = y -> buf_size (b2 0%nat) = n.
Proof. intros H ->. apply head_ok_inv in H. tauto. Qed.

Ltac head_case lem H := eapply buf_size_head; [apply lem, pv_byte | rewrite H by (cbn; lia); reflexivity].

(** Splits on the ranges of the code, keeping the numeric facts. *)
Ltac ranges :=
  repeat match goal with
  | |- context [between ?a ?v ?c] =>
      let E := fresh "R" in
      destruct (between a v c) eqn:E;
      [apply between_true in E | apply between_false in E]
  end.

(** Whatever 32-bit value is dumped, the receiver finds its length from
    the first byte and loads back the same value, from the transmitted bytes
    alone. *)
Lemma load_dump_i32 val buf b2 :
  - 2 ^ 31 <= val < 2 ^ 31 -> sent (dump_i32 val buf) b2 ->
  buf_size (b2 0%nat) = snd (dump_i32 val buf) /\ load_i32 b2 = val.
Proof.
  intros Hv. unfold sent, dump_i32. ranges; intros H; cbn [fst snd] in *; unfold load_i32.
  - split; [head_case head_ok_1 H | short_case 1%nat head_ok_1 H].
  - split; [head_case head_ok_2 H | short_case 2%nat head_ok_2 H].
  - split; [head_case head_ok_3 H | short_case 3%nat head_ok_3 H].
  - split; [head_case head_ok_4 H | short_case 4%nat head_ok_4 H].
  - assert (Hsz : buf_size (b2 0%nat) = 5%nat)
      by (rewrite H by lia; cbn; destruct (val <? 0); reflexivity).
    split; [exact Hsz |].
    apply (load_bytes_raw 4 5); [rewrite Hsz; lia | lia | cbn; lia |].
    intros i ?. rewrite H by lia.
    do 5 (destruct i as [|i]; [first [lia | reflexivity] |]). lia.
Qed.

(** A 64-bit value whose encoding is not eight bytes long is loaded back
    from the transmitted bytes alone. *)
Lemma load_dump_i64 val buf b2 :
  - 2 ^ 63 <= val < 2 ^ 63 -> val_size val <> 8%nat -> sent (dump_i64 val buf) b2 ->
  buf_size (b2 0%nat) = snd (dump_i64 val buf) /\ load_i64 b2 = val.
Proof.
  intros Hv. unfold sent, dump_i64, val_size.
  ranges; intros H8 H; cbn [fst snd] in *; unfold load_i64; try congruence.
  - split; [head_case head_ok_1 H | short_case 1%nat head_ok_1 H].
  - split; [head_case head_ok_2 H | short_case 2%nat head_ok_2 H].
  - split; [head_case head_ok_3 H | short_case 3%nat head_ok_3 H].
  - split; [head_case head_ok_4 H | short_case 4%nat head_ok_4 H].
  - split; [head_case head_ok_5 H | short_case 5%nat head_ok_5 H].
  - split; [head_case head_ok_6 H | short_case 6%nat head_ok_6 H].
  - split; [head_case head_ok_7 H | short_case 7%nat head_ok_7 H].
  - assert (Hsz : buf_size (b2 0%nat) = 9%nat) by (rewrite H by lia; reflexivity).
    split; [exact Hsz |].
    apply (load_bytes_raw 8 8); [rewrite Hsz; lia | lia | cbn; lia |].
    intros i ?. rewrite H by lia.
    do 9 (destruct i as [|i]; [first [lia | reflexivity] |]). lia.
Qed.

(** C40. Whatever integer is dumped, the receiver finds the length of the encoding
    from its first byte and loads back the same value, from the transmitted bytes
    alone: for every 32-bit value, and for every 64-bit value whose encoding is
    not eight bytes long. *)
Theorem load_dump_roundtrip (val : Z) (buf b2 : nat -> Z) :
  (- 2 ^ 31 <= val < 2 ^ 31 -> sent (dump_i32 val buf) b2 ->
     buf_size (b2 0%nat) = snd (dump_i32 val buf) /\ load_i32 b2 = val)
  /\ (- 2 ^ 63 <= val < 2 ^ 63 -> val_size val <> 8%nat -> sent (dump_i64 val buf) b2 ->
     buf_size (b2 0%nat) = snd (dump_i64 val buf) /\ load_i64 b2 = val).
Proof. split; [apply load_dump_i32 | apply load_dump_i64]. Qed.

Lemma load_dump_roundtrip_witness :
  load_i32 (fst (dump_i32 (-123456789) (fun _ => 0))) = -123456789
  /\ load_i64 (fst (dump_i64 (2 ^ 40 + 7) (fun _ => 0))) = 2 ^ 40 + 7.
Proof.
  split.
  - apply (proj1 (load_dump_roundtrip (-123456789) (fun _ => 0) (fst (dump_i32 (-123456789) (fun _ => 0))))).
    + lia.
    + intros i Hi. reflexivity.
  - apply (proj2 (load_dump_roundtrip (2 ^ 40 + 7) (fun _ => 0) (fst (dump_i64 (2 ^ 40 + 7) (fun _ => 0))))).
    + lia.
    + vm_compute. discriminate.
    + intros i Hi. reflexivity.
Defined.

Lemma pv_high val val' i : val / 256 = val' / 256 -> (0 < i)%nat -> pv val i = pv val' i.
Proof.
  intros E Hi. rewrite !pv_div.
  replace (8 * Z.of_nat i) with (8 + 8 * Z.of_nat (i - 1)) by lia.
  rewrite Z.pow_add_r, <- !Z.div_div by lia. change (2 ^ 8) with 256. now rewrite E.
Qed.

(** The eight-byte encoding loses the low byte: two values that need eight
    bytes and differ in their low byte only produce the same eight transmitted
    bytes, so no decoder can tell them apart (the ninth byte, which holds the
    low byte, is written to the buffer but not counted in the length). *)
Theorem dump_i64_eight_bytes_lossy val val' buf buf' :
  val_size val = 8%nat -> val_size val' = 8%nat -> val / 256 = val' / 256 ->
  snd (dump_i64 val buf) = 8%nat
  /\ forall i, (i < 8)%nat -> fst (dump_i64 val buf) i = fst (dump_i64 val' buf') i.
Proof.
  intros H1 H2 E. split; [now rewrite dump_i64_size |].
  revert H1 H2. unfold dump_i64, val_size. ranges; try discriminate; intros _ _ i Hi.
  all: do 8 (destruct i as [|i];
             [cbn; first [reflexivity | apply pv_high; [exact E | lia]] |]); lia.
Qed.

Lemma dump_i64_eight_bytes_lossy_witness :
  map (fst (dump_i64 (2 ^ 50) (fun _ => 0))) (seq 0 8)
  = map (fst (dump_i64 (2 ^ 50 + 255) (fun _ => 0))) (seq 0 8).
Proof.
  apply map_ext_in. intros i Hi.
  apply (dump_i64_eight_bytes_lossy (2 ^ 50) (2 ^ 50 + 255) (fun _ => 0) (fun _ => 0));
    [vm_compute; reflexivity | vm_compute; reflexivity | vm_compute; reflexivity |].
  apply in_seq in Hi. lia.
Defined.

End SparseInt.
