(* ===== verification/PamTree.v ===== *)
(** * PAM trees: nodes, update, and the generic join of balance_utils

    Models the node layer of the PAM library, on which every OLAP table of the
    analytical server is built:
    - src/OLAP/PAM/c++/basic_node.h ([basic_node]: size, update, single),
    - src/OLAP/PAM/c++/augmented_node.h ([aug_node]: the augmented value),
    - src/OLAP/PAM/c++/balance_utils.h (rotations and the join that the AVL
      and the weight-balanced schemes share).

    A [node*] is a value of [tree]: [Null] is the null pointer, and [Nd] holds
    the fields of the C++ struct (children, entry, augmented value, size,
    balance data).  PAM's operations are persistent: a node that is shared is
    copied before it is written ([GC::copy_if_needed], [GC::copy_if]) and a node
    that is not shared is reused, so that the value of every operand that the
    caller still owns is unchanged; the reference counts that decide between
    the two are not part of a tree's value.  Dereferencing the null pointer is
    [None]. *)

From stdpp Require Import base list option.
From Stdlib Require Import ZArith Lia.
From S2P Require Import Prelude.
Local Open Scope Z_scope.

Inductive tree (E A B : Type) : Type :=
| Null
| Nd (lc : tree E A B) (entry : E) (aug : A) (s : Z) (bd : B) (rc : tree E A B).
Arguments Null {E A B}.
Arguments Nd {E A B} lc entry aug s bd rc.

(** The static interface [Entry] of an augmented map (augmented_node.h): the
    augmented value of one entry, the combination of two, and the neutral one.
    A map without augmentation is the instance at [unit]. *)
Class EntryAug (E A : Type) := {
  get_empty : A;
  from_entry : E -> A;
  combine : A -> A -> A;
}.

(** What PAM asks of the augmentation: a monoid. *)
Class EntryAugLaws (E A : Type) `{EntryAug E A} := {
  combine_assoc : forall x y z, combine x (combine y z) = combine (combine x y) z;
  combine_empty_l : forall x, combine get_empty x = x;
  combine_empty_r : forall x, combine x get_empty = x;
}.

#[export] Instance no_aug E : EntryAug E unit :=
  {| get_empty := tt; from_entry := fun _ => tt; combine := fun _ _ => tt |}.

#[export] Instance no_aug_laws E : EntryAugLaws E unit.
Proof. split; intros; repeat match goal with x : unit |- _ => destruct x end; reflexivity. Qed.

(** The entries, in order: the abstract value of a tree. *)
Fixpoint elements {E A B} (t : tree E A B) : list E :=
  match t with
  | Null => []
  | Nd l e _ _ _ r => elements l ++ e :: elements r
  end.

Definition size {E A B} (a : tree E A B) : Z :=
  match a with Null => 0 | Nd _ _ _ s _ _ => s end.

Definition aug_val {E A B} `{EntryAug E A} (a : tree E A B) : A :=
  match a with Null => get_empty | Nd _ _ v _ _ _ => v end.

(** [basic_node::update]: [node_size_t] is a 32-bit unsigned integer. *)
Definition update_size {E A B} (l r : tree E A B) : Z := wrap 32 (size l + size r + 1).

(** [aug_node::update]. *)
Definition update_aug {E A B} `{EntryAug E A} (l : tree E A B) (e : E) (r : tree E A B) : A :=
  let av := from_entry e in
  let av := match l with Null => av | Nd _ _ v _ _ _ => combine v av end in
  match r with Null => av | Nd _ _ v _ _ _ => combine av v end.

(** The balance data of a node and the two tests that [balance_utils] takes from
    its [Node] parameter: what the scheme's [update] writes ([upd_bd]),
    [is_left_heavy] and [is_single_rotation]. *)
Class Balance (E A B : Type) := {
  upd_bd : tree E A B -> tree E A B -> B;
  is_left_heavy : tree E A B -> tree E A B -> bool;
  is_single_rotation : tree E A B -> bool -> bool;
}.

(** [Node::update] of the whole stack on a node with children [l] and [r] and
    entry [e]. *)
Definition update {E A B} `{EntryAug E A, Balance E A B}
    (l : tree E A B) (e : E) (r : tree E A B) : tree E A B :=
  Nd l e (update_aug l e r) (update_size l r) (upd_bd l r) r.

Section BalanceUtils.
Context {E A B : Type} `{EntryAug E A, Balance E A B}.
Abbreviation tree := (tree E A B).

Definition rotate_right (l : tree) (e : E) (r : tree) : option tree :=
  match l with
  | Null => None
  | Nd ll le _ _ _ lr => Some (update ll le (update lr e r))
  end.

Definition rotate_left (l : tree) (e : E) (r : tree) : option tree :=
  match r with
  | Null => None
  | Nd rl re _ _ _ rr => Some (update (update l e rl) re rr)
  end.

Definition double_rotate_right (l : tree) (e : E) (r : tree) : option tree :=
  match l with
  | Nd ll le _ _ _ (Nd xl xe _ _ _ xr) =>
      rotate_right (update (update ll le xl) xe xr) e r
  | _ => None
  end.

Definition double_rotate_left (l : tree) (e : E) (r : tree) : option tree :=
  match r with
  | Nd (Nd xl xe _ _ _ xr) re _ _ _ rr =>
      rotate_left l e (update xl xe (update xr re rr))
  | _ => None
  end.

Definition balanced_join (l r : tree) (e : E) : tree := update l e r.

Fixpoint right_join (t1 t2 : tree) (k : E) : option tree :=
  if negb (is_left_heavy t1 t2) then Some (balanced_join t1 t2 k)
  else match t1 with
  | Null => None
  | Nd l e _ _ _ r =>
      r' ← right_join r t2 k;
      if is_left_heavy r' l then
        if is_single_rotation r' false then rotate_left l e r'
        else double_rotate_left l e r'
      else Some (update l e r')
  end.

Fixpoint left_join (t1 t2 : tree) (k : E) {struct t2} : option tree :=
  if negb (is_left_heavy t2 t1) then Some (balanced_join t1 t2 k)
  else match t2 with
  | Null => None
  | Nd l e _ _ _ r =>
      l' ← left_join t1 l k;
      if is_left_heavy l' r then
        if is_single_rotation l' true then rotate_right l' e r
        else double_rotate_right l' e r
      else Some (update l' e r)
  end.

Definition utils_node_join (t1 t2 : tree) (k : E) : option tree :=
  if is_left_heavy t1 t2 then right_join t1 t2 k
  else if is_left_heavy t2 t1 then left_join t1 t2 k
  else Some (balanced_join t1 t2 k).
End BalanceUtils.

(** ** The interface of a balancing scheme

    What sequence_ops.h and map_ops.h use of their [Tree] parameter: [single]
    and [node_join]. *)
Class JoinTree (E A B : Type) := {
  single : E -> tree E A B;
  node_join : tree E A B -> tree E A B -> E -> option (tree E A B);
}.

(** Every node holds the size and the augmented value that [update] computes
    from its children. *)
Fixpoint stored {E A B} `{EntryAug E A} (t : tree E A B) : Prop :=
  match t with
  | Null => True
  | Nd l e a s _ r => a = update_aug l e r /\ s = update_size l r /\ stored l /\ stored r
  end.

(** What a scheme promises to its clients: an invariant [ok] on which
    [node_join] never dereferences null, and its result is again [ok] and
    holds the two sequences around the middle entry. *)
Class JoinTreeLaws (E A B : Type) `{EntryAug E A, !JoinTree E A B} := {
  ok : tree E A B -> Prop;
  ok_stored : forall t, ok t -> stored t;
  ok_null : ok Null;
  ok_children : forall l e a s b r, ok (Nd l e a s b r) -> ok l /\ ok r;
  ok_single : forall e, ok (single e) /\ elements (single e) = [e];
  ok_join : forall t1 t2 k, ok t1 -> ok t2 ->
    runs (node_join t1 t2 k) (fun t => ok t /\ elements t = elements t1 ++ k :: elements t2);
}.

(** ** Stored sizes and augmented values *)

(** The size field is the number of entries, modulo 2^32. *)
Lemma size_elements {E A B} `{EntryAug E A} (t : tree E A B) :
  stored t -> size t = wrap 32 (Z.of_nat (length (elements t))).
Proof.
  induction t as [|l IHl e a s b r IHr]; cbn [stored size elements]; [reflexivity |].
  intros (_ & -> & Hl & Hr). unfold update_size, wrap in *. rewrite IHl, IHr by assumption.
  rewrite length_app. cbn [length]. rewrite Nat2Z.inj_add, Nat2Z.inj_succ.
  rewrite <- Zplus_mod_idemp_l, <- Zplus_mod, Zplus_mod_idemp_l. f_equal. lia.
Qed.

(** Below 2^32 entries the size field is the number of entries. *)
Lemma size_exact {E A B} `{EntryAug E A} (t : tree E A B) :
  stored t -> Z.of_nat (length (elements t)) < 2 ^ 32 ->
  size t = Z.of_nat (length (elements t)).
Proof. intros Hs Hb. rewrite size_elements by exact Hs. apply wrap_small. lia. Qed.

(** The augmented value of a sequence of entries, by its definition. *)
Definition aug_list {E A} `{EntryAug E A} (l : list E) : A :=
  foldr (fun e a => combine (from_entry e) a) get_empty l.

Section AugList.
Context {E A : Type} `{EntryAugLaws E A}.

Lemma aug_list_app (l1 l2 : list E) :
  aug_list (l1 ++ l2) = combine (aug_list l1) (aug_list l2).
Proof.
  induction l1 as [|e l1 IH]; cbn; [now rewrite combine_empty_l |].
  change (foldr _ _ ?l) with (aug_list l). now rewrite IH, combine_assoc.
Qed.

Lemma aug_list_cons (e : E) (l : list E) :
  aug_list (e :: l) = combine (from_entry e) (aug_list l).
Proof. reflexivity. Qed.

Lemma aug_list_one (e : E) : aug_list [e] = from_entry e.
Proof. apply combine_empty_r. Qed.

(** The augmented value a tree stores is that of its entries. *)
Lemma aug_val_elements {B} (t : tree E A B) :
  stored t -> aug_val t = aug_list (elements t).
Proof.
  induction t as [|l IHl e a s b r IHr]; cbn [stored aug_val elements]; [reflexivity |].
  intros (-> & _ & Hl & Hr). rewrite aug_list_app, aug_list_cons.
  rewrite <- IHl, <- IHr by assumption. unfold update_aug.
  destruct l, r; cbn [aug_val]; rewrite ?combine_empty_l, ?combine_empty_r, ?combine_assoc;
    reflexivity.
Qed.
End AugList.

(** ** Rotations and [update] on stored trees *)
Section Rotations.
Context {E A B : Type} `{EntryAug E A, Balance E A B}.
Implicit Types t l r : tree E A B.

Lemma stored_update l e r : stored l -> stored r -> stored (update l e r).
Proof. cbn. auto. Qed.

Lemma elements_update l e r : elements (update l e r) = elements l ++ e :: elements r.
Proof. reflexivity. Qed.
End Rotations.
