(* ===== verification/PamAvl.v ===== *)
(** * The AVL scheme of PAM

    Models src/OLAP/PAM/c++/avl_tree.h over the generic join of
    [balance_utils] (PamTree), and proves that it implements the
    [JoinTree] interface: [node_join] never dereferences null on AVL trees,
    and returns an AVL tree. *)

From stdpp Require Import base list option.
From Stdlib Require Import ZArith Lia.
From S2P Require Import Prelude PamTree.
Local Open Scope Z_scope.

(** The balance data is the [int height] field of the struct [data]. *)
Definition avl_data := Z.

Definition height {E A} (a : tree E A avl_data) : Z :=
  match a with Null => 0 | Nd _ _ _ _ h _ => h end.

(** [update]'s last line. *)
Definition avl_update_height {E A} (l r : tree E A avl_data) : avl_data :=
  Z.max (height l) (height r) + 1.

Definition avl_is_left_heavy {E A} (t1 t2 : tree E A avl_data) : bool :=
  height t1 >? height t2 + 1.

(** On the null pointer the code would dereference it; the callers pass nodes. *)
Definition avl_is_single_rotation {E A} (t : tree E A avl_data) (dir : bool) : bool :=
  match t with
  | Null => false
  | Nd l _ _ _ _ r =>
      let heavier := height l >? height r in if dir then heavier else negb heavier
  end.

#[export] Instance avl_balance E A : Balance E A avl_data := {|
  upd_bd := avl_update_height;
  is_left_heavy := avl_is_left_heavy;
  is_single_rotation := avl_is_single_rotation;
|}.

Definition avl_is_balanced {E A} (t : tree E A avl_data) : bool :=
  match t with
  | Null => true
  | Nd l _ _ _ _ r => negb (avl_is_left_heavy l r || avl_is_left_heavy r l)
  end.

(** [Node::single] sets the size to 1, the augmented value to that of the entry
    and the height to 1. *)
Definition avl_single {E A} `{EntryAug E A} (e : E) : tree E A avl_data :=
  Nd Null e (from_entry e) 1 1 Null.

Definition avl_node_join {E A} `{EntryAug E A} (t1 t2 : tree E A avl_data) (k : E) :
    option (tree E A avl_data) :=
  utils_node_join t1 t2 k.

#[export] Instance avl_join E A `{EntryAug E A} : JoinTree E A avl_data :=
  {| single := avl_single; node_join := avl_node_join |}.

(** [sequence_ops::check_balance], whose [Tree::is_balanced] is the scheme's. *)
Fixpoint avl_check_balance {E A} (a : tree E A avl_data) : bool :=
  match a with
  | Null => true
  | Nd l _ _ _ _ r => avl_is_balanced a && avl_check_balance l && avl_check_balance r
  end.

(** ** The AVL invariant *)

Fixpoint avl {E A} (t : tree E A avl_data) : Prop :=
  match t with
  | Null => True
  | Nd l _ _ _ h r =>
      h = avl_update_height l r /\ -1 <= height l - height r <= 1 /\ avl l /\ avl r
  end.

Definition avl_ok {E A} `{EntryAug E A} (t : tree E A avl_data) : Prop := avl t /\ stored t.

Section Avl.
Context {E A : Type} `{EntryAug E A}.
Abbreviation tree := (tree E A avl_data).
Implicit Types t l r : tree.

Lemma height_nonneg t : avl t -> 0 <= height t.
Proof.
  induction t as [|l IHl e a s h r IHr]; cbn; [lia |].
  intros (-> & _ & Hl & Hr). unfold avl_update_height.
  specialize (IHl Hl). specialize (IHr Hr). lia.
Qed.

Lemma height_zero t : avl t -> height t = 0 -> t = Null.
Proof.
  destruct t as [|l e a s h r]; [reflexivity |]. cbn.
  intros (-> & _ & Hl & Hr). unfold avl_update_height.
  pose proof (height_nonneg l Hl). pose proof (height_nonneg r Hr). lia.
Qed.

Lemma avl_ok_update l e r :
  avl_ok l -> avl_ok r -> -1 <= height l - height r <= 1 -> avl_ok (update l e r).
Proof. intros [? ?] [? ?] ?. split; cbn; auto. Qed.

Lemma height_update l e r : height (update l e r) = Z.max (height l) (height r) + 1.
Proof. reflexivity. Qed.

Lemma avl_ok_node l e a s h r :
  avl_ok (Nd l e a s h r) ->
  avl_ok l /\ avl_ok r /\ h = Z.max (height l) (height r) + 1
  /\ -1 <= height l - height r <= 1 /\ 0 <= height l /\ 0 <= height r.
Proof.
  intros [(-> & Hb & Hl & Hr) (_ & _ & Sl & Sr)].
  pose proof (height_nonneg l Hl). pose proof (height_nonneg r Hr). repeat split; auto; lia.
Qed.

Lemma height_Nd l e a s h r : height (Nd l e a s h r) = h.
Proof. reflexivity. Qed.
End Avl.

(** Opens every AVL node in sight and reduces heights to [Z.max]. *)
Ltac avl_open :=
  repeat match goal with
  | H : avl_ok (Nd _ _ _ _ _ _) |- _ =>
      apply avl_ok_node in H as (? & ? & -> & ? & ? & ?)
  end;
  rewrite ?height_update, ?height_Nd in *.

(** Names the AVL tests in the generic join. *)
Ltac avl_tests :=
  change (@is_left_heavy ?E ?A avl_data _) with (@avl_is_left_heavy E A);
  try change (@is_single_rotation ?E ?A avl_data _) with (@avl_is_single_rotation E A).

Section AvlJoin.
Context {E A : Type} `{EntryAug E A}.
Abbreviation tree := (tree E A avl_data).
Implicit Types t l r : tree.

(** What a join promises: the entries, the invariant and a height close to
    that of the taller side. *)
Definition joined (h : Z) (es : list E) (t : tree) : Prop :=
  avl_ok t /\ elements t = es /\ h <= height t <= h + 1.

(** Rebalancing after the right subtree grew by at most one level. *)
Lemma rebalance_left l e r h es :
  avl_ok l -> avl_ok r -> elements l ++ e :: elements r = es ->
  -1 <= height l - h <= 1 -> h <= height r <= h + 1 -> 0 <= h ->
  runs (if avl_is_left_heavy r l then
          if avl_is_single_rotation r false then rotate_left l e r
          else double_rotate_left l e r
        else Some (update l e r))
    (joined (Z.max (height l) h + 1) es).
Proof.
  intros Hl Hr He Hb Hh H0. unfold avl_is_left_heavy, joined.
  destruct (Z.gtb_spec (height r) (height l + 1)) as [Hheavy | Hlight].
  - destruct r as [|rl re ra rs rh rr]; [cbn in *; lia |]. avl_open.
    cbn [avl_is_single_rotation].
    destruct (Z.gtb_spec (height rl) (height rr)); cbn [negb].
    + destruct rl as [|xl xe xa xs xh xr]; [cbn in *; lia |]. avl_open.
      apply runs_ret. split; [|split].
      * apply avl_ok_update; [apply avl_ok_update | apply avl_ok_update |];
          auto; rewrite ?height_update; lia.
      * subst es. cbn [elements double_rotate_left rotate_left update].
        rewrite <- !app_assoc. reflexivity.
      * rewrite !height_update. lia.
    + apply runs_ret. split; [|split].
      * apply avl_ok_update; [apply avl_ok_update |  |]; auto; rewrite ?height_update; lia.
      * subst es. cbn [elements update]. rewrite <- !app_assoc. reflexivity.
      * rewrite !height_update. lia.
  - apply runs_ret. split; [|split]; [apply avl_ok_update; auto; lia | exact He |].
    rewrite height_update. lia.
Qed.

(** The two children differ in height.  [is_single_rotation(t, 1)] is strict,
    so that the right rotations need it of a left subtree that grew. *)
Definition skewed t : Prop :=
  match t with Null => False | Nd l _ _ _ _ r => height l <> height r end.

Lemma rebalance_right l e r h es :
  avl_ok l -> avl_ok r -> elements l ++ e :: elements r = es ->
  -1 <= height r - h <= 1 -> h <= height l <= h + 1 -> 0 <= h ->
  (height l > height r + 1 -> skewed l) ->
  runs (if avl_is_left_heavy l r then
          if avl_is_single_rotation l true then rotate_right l e r
          else double_rotate_right l e r
        else Some (update l e r))
    (fun t => joined (Z.max h (height r) + 1) es t
              /\ (height t = Z.max h (height r) + 2 -> skewed t)).
Proof.
  intros Hl Hr He Hb Hh H0 Hskew. unfold avl_is_left_heavy, joined.
  destruct (Z.gtb_spec (height l) (height r + 1)) as [Hheavy | Hlight].
  - specialize (Hskew ltac:(lia)).
    destruct l as [|ll le la ls lh lr]; [cbn in *; lia |]. cbn [skewed] in Hskew. avl_open.
    cbn [avl_is_single_rotation].
    destruct (Z.gtb_spec (height ll) (height lr)); cbn [negb].
    + apply runs_ret. split; [split; [|split] |].
      * apply avl_ok_update; [ | apply avl_ok_update |]; auto; rewrite ?height_update; lia.
      * subst es. cbn [elements update]. rewrite <- !app_assoc. reflexivity.
      * rewrite !height_update. lia.
      * rewrite !height_update. lia.
    + destruct lr as [|xl xe xa xs xh xr]; [cbn in *; lia |]. avl_open.
      apply runs_ret. split; [split; [|split] |].
      * apply avl_ok_update; [apply avl_ok_update | apply avl_ok_update |];
          auto; rewrite ?height_update; lia.
      * subst es. cbn [elements double_rotate_right rotate_right update].
        rewrite <- !app_assoc. cbn [app]. rewrite <- !app_assoc. reflexivity.
      * rewrite !height_update. lia.
      * rewrite !height_update. lia.
  - apply runs_ret. split; [split; [|split] |];
      [apply avl_ok_update; auto; lia | exact He | |]; rewrite height_update; cbn; lia.
Qed.

Lemma right_join_ok t1 t2 k :
  avl_ok t1 -> avl_ok t2 -> height t2 <= height t1 ->
  runs (right_join t1 t2 k) (joined (height t1) (elements t1 ++ k :: elements t2)).
Proof.
  induction t1 as [|l IHl e a s h r IHr]; intros H1 H2 Hh; cbn [right_join]; avl_tests.
  - pose proof (height_nonneg t2 ltac:(apply H2)). unfold avl_is_left_heavy.
    cbn [height] in *. replace (_ >? _) with false
      by (symmetry; rewrite Z.gtb_ltb, Z.ltb_ge; lia).
    apply runs_ret. split; [|split]; [apply avl_ok_update; auto; cbn; lia | reflexivity |].
    unfold balanced_join. rewrite height_update. cbn. lia.
  - unfold avl_is_left_heavy at 1.
    destruct (Z.gtb_spec (height (Nd l e a s h r)) (height t2 + 1)) as [Hgt | Hle];
      cbn [negb].
    + pose proof H1 as H1'. avl_open.
      apply (runs_bind _ _ _ _ (IHr ltac:(assumption) H2 ltac:(lia))).
      intros r' (Hr' & Er' & Hhr'). apply rebalance_left; auto; try lia.
      rewrite Er'. cbn [elements]. rewrite <- app_assoc. reflexivity.
    + apply runs_ret. split; [|split];
        [apply avl_ok_update; auto; lia | reflexivity |].
      unfold balanced_join. rewrite height_update. lia.
Qed.

Lemma left_join_ok t1 t2 k :
  avl_ok t1 -> avl_ok t2 -> height t1 <= height t2 ->
  runs (left_join t1 t2 k)
    (fun t => joined (height t2) (elements t1 ++ k :: elements t2) t
              /\ (height t = height t2 + 1 -> height t2 <= height t1 \/ skewed t)).
Proof.
  intros H1. induction t2 as [|l IHl e a s h r IHr]; intros H2 Hh; cbn [left_join]; avl_tests.
  - pose proof (height_nonneg t1 ltac:(apply H1)). unfold avl_is_left_heavy.
    cbn [height] in *. replace (_ >? _) with false
      by (symmetry; rewrite Z.gtb_ltb, Z.ltb_ge; lia).
    apply runs_ret. split; [split; [|split] |]; [apply avl_ok_update; auto; cbn; lia
      | reflexivity | |]; unfold balanced_join; rewrite height_update; cbn; lia.
  - unfold avl_is_left_heavy at 1.
    destruct (Z.gtb_spec (height (Nd l e a s h r)) (height t1 + 1)) as [Hgt | Hle];
      cbn [negb].
    + pose proof H2 as H2'. avl_open.
      apply (runs_bind _ _ _ _ (IHl ltac:(assumption) ltac:(lia))).
      intros l' ((Hl' & El' & Hhl') & Hsk).
      apply (runs_mono _ (fun t => joined (Z.max (height l) (height r) + 1)
        (elements t1 ++ k :: elements (Nd l e a s (Z.max (height l) (height r) + 1) r)) t
        /\ (height t = Z.max (height l) (height r) + 2 -> skewed t))).
      * apply rebalance_right; auto; try lia.
        -- rewrite El'. cbn [elements]. rewrite <- app_assoc. reflexivity.
        -- intros. destruct (Hsk ltac:(lia)); [lia | assumption].
      * intros t [Hj Hs]. split; [exact Hj |]. intros; right. apply Hs. lia.
    + apply runs_ret. split; [split; [|split] |];
        [apply avl_ok_update; auto; lia | reflexivity | |];
        unfold balanced_join; rewrite height_update; cbn [skewed update]; lia.
Qed.

Lemma avl_node_join_ok t1 t2 k :
  avl_ok t1 -> avl_ok t2 ->
  runs (avl_node_join t1 t2 k)
    (joined (Z.max (height t1) (height t2)) (elements t1 ++ k :: elements t2)).
Proof.
  intros H1 H2. unfold avl_node_join, utils_node_join. avl_tests.
  unfold avl_is_left_heavy.
  destruct (Z.gtb_spec (height t1) (height t2 + 1)).
  - rewrite Z.max_l by lia. apply right_join_ok; auto; lia.
  - destruct (Z.gtb_spec (height t2) (height t1 + 1)).
    + rewrite Z.max_r by lia. eapply runs_mono; [apply left_join_ok; auto; lia |]. intros t [Hj _]. exact Hj.
    + apply runs_ret. split; [|split]; [apply avl_ok_update; auto; lia | reflexivity |].
      unfold balanced_join. rewrite height_update. lia.
Qed.
End AvlJoin.

(** ** The interface, and the facts that make the scheme worth using *)

#[export] Instance avl_laws E A `{EntryAug E A} : JoinTreeLaws E A avl_data.
Proof.
  refine {| ok := avl_ok |}.
  - intros t [_ Hs]. exact Hs.
  - split; exact I.
  - intros l e a s b r (? & ? & _)%avl_ok_node. auto.
  - intros e. split; [|reflexivity]. repeat split; cbn; lia.
  - intros t1 t2 k H1 H2. eapply runs_mono; [apply avl_node_join_ok; auto |].
    intros t (? & ? & _). auto.
Defined.

Lemma avl_ok_check_balance {E A} `{EntryAug E A} (t : tree E A avl_data) :
  avl_ok t -> avl_check_balance t = true.
Proof.
  induction t as [|l IHl e a s h r IHr]; [reflexivity |].
  intros (Hl & Hr & _ & Hb & _)%avl_ok_node. cbn [avl_check_balance].
  rewrite IHl, IHr by assumption. rewrite !andb_true_r.
  unfold avl_is_balanced, avl_is_left_heavy.
  rewrite negb_true_iff, orb_false_iff, !Z.gtb_ltb, !Z.ltb_ge. lia.
Qed.

(** C38. Joining two AVL trees around an entry never dereferences null; the
    result is an AVL tree (the code's own [check_balance] accepts it) whose
    stored sizes and augmented values are right, which holds the entries of the
    left tree, the middle entry and those of the right tree, in order, and which
    is at most one level taller than the taller operand. *)
Theorem avl_node_join_correct {E A} `{EntryAug E A} (t1 t2 : tree E A avl_data) (k : E) :
  avl_ok t1 -> avl_ok t2 ->
  exists t, avl_node_join t1 t2 k = Some t
    /\ avl_ok t /\ avl_check_balance t = true
    /\ elements t = elements t1 ++ k :: elements t2
    /\ Z.max (height t1) (height t2) <= height t <= Z.max (height t1) (height t2) + 1.
Proof.
  intros H1 H2. destruct (avl_node_join_ok t1 t2 k H1 H2) as (t & Ht & Hok & He & Hh).
  pose proof (avl_ok_check_balance t Hok). exists t. split_and!; tauto.
Qed.

(** The height of an AVL tree is logarithmic in the number of its entries. *)
Theorem avl_height_log {E A} `{EntryAug E A} (t : tree E A avl_data) :
  avl_ok t -> 2 ^ (height t / 2) <= Z.of_nat (length (elements t)) + 1.
Proof.
  induction t as [|l IHl e a s h r IHr]; [vm_compute; discriminate |].
  intros (Hl & Hr & -> & Hb & Hl0 & Hr0)%avl_ok_node.
  specialize (IHl Hl). specialize (IHr Hr). cbn [elements].
  rewrite length_app, height_Nd. cbn [length].
  assert (Hm : exists m, m = Z.min (height l) (height r)) by eauto. destruct Hm as [m Hm].
  assert (Hlo : 2 ^ ((Z.max (height l) (height r) + 1) / 2) <= 2 * 2 ^ (m / 2)).
  { rewrite <- Z.pow_succ_r by (apply Z.div_pos; lia).
    apply Z.pow_le_mono_r; [lia |].
    replace (Z.succ (m / 2)) with ((m + 1 * 2) / 2) by (rewrite Z.div_add by lia; lia).
    apply Z.div_le_mono; lia. }
  assert (2 ^ (m / 2) <= 2 ^ (height l / 2))
    by (apply Z.pow_le_mono_r; [lia | apply Z.div_le_mono; lia]).
  assert (2 ^ (m / 2) <= 2 ^ (height r / 2))
    by (apply Z.pow_le_mono_r; [lia | apply Z.div_le_mono; lia]).
  lia.
Qed.
