(* ===== verification/PamTreap.v ===== *)
(** * The treap scheme of PAM

    Models src/OLAP/PAM/c++/treap.h: trees in heap order of the hashes of their
    entries.  The scheme has its own [node_join]; it implements the [JoinTree]
    interface, so that every theorem on sequences and maps that is proved
    against the interface holds for treaps too. *)

From stdpp Require Import base list option.
From Stdlib Require Import ZArith Lia.
From S2P Require Import Prelude PamTree.
Local Open Scope Z_scope.

(** [Entry::hash], a [size_t]. *)
Class EntryHash (E : Type) := {
  hash : E -> Z;
  hash_nonneg : forall e, 0 <= hash e < 2 ^ 64;
}.

(** [struct data { }] *)
Inductive treap_data := TreapData.

Section Treap.
Context {E A : Type} `{EntryHash E, EntryAug E A}.
Abbreviation tree := (tree E A treap_data).
Implicit Types t l r : tree.

(** [Node::update] *)
Definition treap_update (l : tree) (e : E) (r : tree) : tree :=
  Nd l e (update_aug l e r) (update_size l r) TreapData r.

Definition treap_single (e : E) : tree := Nd Null e (from_entry e) 1 TreapData Null.

Definition priority (a : tree) : Z :=
  match a with Null => 0 | Nd _ e _ _ _ _ => hash e end.

Definition treap_is_balanced (t : tree) : bool :=
  match t with
  | Null => true
  | Nd l e _ _ _ r => (priority l <=? hash e) && (priority r <=? hash e)
  end.

Fixpoint treap_node_join (t1 : tree) : tree -> E -> option tree :=
  fix join_t1 (t2 : tree) (k : E) : option tree :=
    if (priority t1 <=? hash k) && (priority t2 <=? hash k) then Some (treap_update t1 k t2)
    else if priority t2 <? priority t1 then
      match t1 with
      | Null => None
      | Nd l e _ _ _ r => r' ← treap_node_join r t2 k; Some (treap_update l e r')
      end
    else
      match t2 with
      | Null => None
      | Nd l e _ _ _ r => l' ← join_t1 l k; Some (treap_update l' e r)
      end.

#[export] Instance treap_join : JoinTree E A treap_data :=
  {| single := treap_single; node_join := treap_node_join |}.

(** [sequence_ops::check_balance] with the scheme's [is_balanced]. *)
Fixpoint treap_check_balance (a : tree) : bool :=
  match a with
  | Null => true
  | Nd l _ _ _ _ r => treap_is_balanced a && treap_check_balance l && treap_check_balance r
  end.

Definition treap_ok (t : tree) : Prop := treap_check_balance t = true /\ stored t.

Lemma priority_nonneg t : 0 <= priority t.
Proof. destruct t as [|? e]; cbn; [lia |]. pose proof (hash_nonneg e). lia. Qed.

Lemma treap_ok_node l e a s b r :
  treap_ok (Nd l e a s b r) <->
  priority l <= hash e /\ priority r <= hash e /\ treap_ok l /\ treap_ok r
  /\ a = update_aug l e r /\ s = update_size l r.
Proof.
  unfold treap_ok. cbn. rewrite !andb_true_iff, !Z.leb_le. tauto.
Qed.

Lemma treap_ok_update l e r :
  treap_ok l -> treap_ok r -> priority l <= hash e -> priority r <= hash e ->
  treap_ok (treap_update l e r).
Proof. intros. apply treap_ok_node. split_and!; auto. Qed.

(** What a join promises: heap order, the entries, and the largest of the three
    priorities at the root. *)
Definition treap_joined (t1 t2 : tree) (k : E) (t : tree) : Prop :=
  treap_ok t /\ elements t = elements t1 ++ k :: elements t2
  /\ priority t = Z.max (hash k) (Z.max (priority t1) (priority t2)).

Lemma treap_node_join_eq t1 t2 k :
  treap_node_join t1 t2 k =
  if (priority t1 <=? hash k) && (priority t2 <=? hash k) then Some (treap_update t1 k t2)
  else if priority t2 <? priority t1 then
    match t1 with
    | Null => None
    | Nd l e _ _ _ r => r' ← treap_node_join r t2 k; Some (treap_update l e r')
    end
  else
    match t2 with
    | Null => None
    | Nd l e _ _ _ r => l' ← treap_node_join t1 l k; Some (treap_update l' e r)
    end.
Proof. destruct t1, t2; reflexivity. Qed.

(** One step, given the joins of the subtrees it may recurse into. *)
Lemma treap_join_step t1 t2 k :
  treap_ok t1 -> treap_ok t2 ->
  (forall l e a s b r, t1 = Nd l e a s b r -> runs (treap_node_join r t2 k) (treap_joined r t2 k)) ->
  (forall l e a s b r, t2 = Nd l e a s b r -> runs (treap_node_join t1 l k) (treap_joined t1 l k)) ->
  runs (treap_node_join t1 t2 k) (treap_joined t1 t2 k).
Proof.
  intros H1 H2 J1 J2. pose proof (hash_nonneg k). pose proof (priority_nonneg t1).
  pose proof (priority_nonneg t2). rewrite treap_node_join_eq.
  destruct (Z.leb_spec (priority t1) (hash k)), (Z.leb_spec (priority t2) (hash k)); cbn [andb].
  { apply runs_ret. split_and!; [now apply treap_ok_update | reflexivity | cbn; lia]. }
  all: destruct (Z.ltb_spec (priority t2) (priority t1)); try lia.
  - destruct t2 as [|l e a s b r]; [cbn in *; lia |]. apply treap_ok_node in H2 as (? & ? & ? & ? & _).
    eapply runs_bind; [now eapply J2 |]. intros l' (Ol & El & Pl). apply runs_ret. cbn [priority] in *.
    split_and!; [apply treap_ok_update; auto; lia | | cbn; lia].
    cbn [elements treap_update]. now rewrite El, <- app_assoc.
  - destruct t1 as [|l e a s b r]; [cbn in *; lia |]. apply treap_ok_node in H1 as (? & ? & ? & ? & _).
    eapply runs_bind; [now eapply J1 |]. intros r' (Or & Er & Pr). apply runs_ret. cbn [priority] in *.
    split_and!; [apply treap_ok_update; auto; lia | | cbn; lia].
    cbn [elements treap_update]. now rewrite Er, <- app_assoc.
  - destruct t1 as [|l e a s b r]; [cbn in *; lia |]. apply treap_ok_node in H1 as (? & ? & ? & ? & _).
    eapply runs_bind; [now eapply J1 |]. intros r' (Or & Er & Pr). apply runs_ret. cbn [priority] in *.
    split_and!; [apply treap_ok_update; auto; lia | | cbn; lia].
    cbn [elements treap_update]. now rewrite Er, <- app_assoc.
  - destruct t2 as [|l e a s b r]; [cbn in *; lia |]. apply treap_ok_node in H2 as (? & ? & ? & ? & _).
    eapply runs_bind; [now eapply J2 |]. intros l' (Ol & El & Pl). apply runs_ret. cbn [priority] in *.
    split_and!; [apply treap_ok_update; auto; lia | | cbn; lia].
    cbn [elements treap_update]. now rewrite El, <- app_assoc.
Qed.

Lemma treap_node_join_ok t1 t2 k :
  treap_ok t1 -> treap_ok t2 -> runs (treap_node_join t1 t2 k) (treap_joined t1 t2 k).
Proof.
  revert t2. induction t1 as [|l1 _ e1 a1 s1 b1 r1 IHr1]; intros t2 H1;
    induction t2 as [|l2 IHl2 e2 a2 s2 b2 r2 _]; intros H2; apply treap_join_step; auto;
    try discriminate; intros l e a s b r Et; injection Et; intros; subst.
  - apply IHl2. now apply treap_ok_node in H2.
  - apply IHr1; [|exact H2]. now apply treap_ok_node in H1.
  - apply IHr1; [|exact H2]. now apply treap_ok_node in H1.
  - apply IHl2. now apply treap_ok_node in H2.
Qed.

#[export] Instance treap_laws : JoinTreeLaws E A treap_data.
Proof.
  refine {| ok := treap_ok |}.
  - intros t [_ Hs]. exact Hs.
  - split; [reflexivity | exact I].
  - intros l e a s b r Ht. apply treap_ok_node in Ht. tauto.
  - intros e. split; [|reflexivity]. apply treap_ok_node. cbn. pose proof (hash_nonneg e).
    split_and!; auto; try lia; split; cbn; auto.
  - intros t1 t2 k H1 H2. eapply runs_mono; [apply treap_node_join_ok; auto |].
    intros t (? & ? & _). auto.
Defined.
End Treap.
