(* ===== verification/PamRedBlack.v ===== *)
(** * The red-black scheme of PAM

    Models src/OLAP/PAM/c++/red_black_tree.h.  The scheme has its own joins and
    uses the rotations of balance_utils.h at its own [update], which reads the
    colour the node already has; the height field is an [unsigned char].  The
    theorem shows that [node_join] returns a valid red-black tree, with trees
    of fewer than 2^32 entries in all, the range of the size field. *)

From stdpp Require Import base list option.
From Stdlib Require Import ZArith Lia.
From S2P Require Import Prelude PamTree.
Local Open Scope Z_scope.

Inductive Color := RED | BLACK.
#[export] Instance Color_eq : EqDecision Color.
Proof. solve_decision. Defined.

Record rb_data := { rb_h : Z; rb_color : Color }.

Section RedBlack.
Context {E A : Type} `{EntryAug E A}.
Abbreviation tree := (tree E A rb_data).
Implicit Types t l r : tree.

Definition rb_height (a : tree) : Z := match a with Null => 1 | Nd _ _ _ _ d _ => rb_h d end.
Definition color (a : tree) : Color := match a with Null => BLACK | Nd _ _ _ _ d _ => rb_color d end.

Definition black_bit (c : Color) : Z := match c with BLACK => 1 | RED => 0 end.

(** [update] of a node of colour [c]. *)
Definition rb_update (c : Color) (l : tree) (e : E) (r : tree) : tree :=
  Nd l e (update_aug l e r) (update_size l r)
     {| rb_h := wrap 8 (rb_height l + black_bit c); rb_color := c |} r.

Definition rb_single (e : E) : tree :=
  Nd Null e (from_entry e) 1 {| rb_h := 2; rb_color := BLACK |} Null.

Definition rb_is_balanced (t : tree) : bool :=
  match t with
  | Null => true
  | Nd l _ _ _ d r =>
      (bool_decide (rb_color d = BLACK)
       || (bool_decide (color l = BLACK) && bool_decide (color r = BLACK)))
      && (rb_height l =? rb_height r)
  end.

(** [t->color = BLACK; t->height++] *)
Definition blacken (t : tree) : tree :=
  match t with
  | Null => Null
  | Nd l e a s d r => Nd l e a s {| rb_h := wrap 8 (rb_h d + 1); rb_color := BLACK |} r
  end.

Definition rb_balanced_join (l r : tree) (e : E) (c : Color) : tree := rb_update c l e r.

(** [balance_utils::rotate_left] and [rotate_right] of a node of colour [c]. *)
Definition rb_rotate_left (c : Color) (l : tree) (e : E) (r : tree) : option tree :=
  match r with
  | Null => None
  | Nd rl re _ _ d rr => Some (rb_update (rb_color d) (rb_update c l e rl) re rr)
  end.
Definition rb_rotate_right (c : Color) (l : tree) (e : E) (r : tree) : option tree :=
  match l with
  | Null => None
  | Nd ll le _ _ d lr => Some (rb_update (rb_color d) ll le (rb_update c lr e r))
  end.

Definition is_red (t : tree) : bool := bool_decide (color t = RED).

(** The test and the repair after a join into the right (left) child. *)
Definition rebalance_rc (c : Color) (l : tree) (e : E) (r : tree) : option tree :=
  if bool_decide (c = BLACK) && is_red r then
    match r with
    | Null => None
    | Nd rl re ra rs rd rr =>
        if is_red rr then rb_rotate_left c l e (Nd rl re ra rs rd (blacken rr))
        else Some (rb_update c l e r)
    end
  else Some (rb_update c l e r).

Definition rebalance_lc (c : Color) (l : tree) (e : E) (r : tree) : option tree :=
  if bool_decide (c = BLACK) && is_red l then
    match l with
    | Null => None
    | Nd ll le la ls ld lr =>
        if is_red ll then rb_rotate_right c (Nd (blacken ll) le la ls ld lr) e r
        else Some (rb_update c l e r)
    end
  else Some (rb_update c l e r).

Fixpoint rb_right_join (t1 t2 : tree) (k : E) : option tree :=
  if (rb_height t1 =? rb_height t2) && bool_decide (color t1 = BLACK)
  then Some (rb_balanced_join t1 t2 k RED)
  else
    match t1 with
    | Null => None
    | Nd l e _ _ d r => r' ← rb_right_join r t2 k; rebalance_rc (rb_color d) l e r'
    end.

Fixpoint rb_left_join (t1 t2 : tree) (k : E) {struct t2} : option tree :=
  if (rb_height t1 =? rb_height t2) && bool_decide (color t2 = BLACK)
  then Some (rb_balanced_join t1 t2 k RED)
  else
    match t2 with
    | Null => None
    | Nd l e _ _ d r => l' ← rb_left_join t1 l k; rebalance_lc (rb_color d) l' e r
    end.

Definition red_rc (t : tree) : bool := match t with Null => false | Nd _ _ _ _ _ r => is_red r end.
Definition red_lc (t : tree) : bool := match t with Null => false | Nd l _ _ _ _ _ => is_red l end.

Definition rb_node_join (t1 t2 : tree) (k : E) : option tree :=
  if rb_height t2 <? rb_height t1 then
    t ← rb_right_join t1 t2 k;
    match t with
    | Null => None
    | Nd l e _ _ d r =>
        t ← rebalance_rc (rb_color d) l e r;
        Some (if is_red t && red_rc t then blacken t else t)
    end
  else if rb_height t1 <? rb_height t2 then
    t ← rb_left_join t1 t2 k;
    match t with
    | Null => None
    | Nd l e _ _ d r =>
        t ← rebalance_lc (rb_color d) l e r;
        Some (if is_red t && red_lc t then blacken t else t)
    end
  else if bool_decide (color t1 = BLACK) && bool_decide (color t2 = BLACK)
  then Some (rb_balanced_join t1 t2 k RED)
  else Some (rb_balanced_join t1 t2 k BLACK).

(** [sequence_ops::check_balance] with the scheme's [is_balanced]. *)
Fixpoint rb_check_balance (a : tree) : bool :=
  match a with
  | Null => true
  | Nd l _ _ _ _ r => rb_is_balanced a && rb_check_balance l && rb_check_balance r
  end.

(** ** Invariant *)

(** The children have the same height, the height field counts the black nodes
    on a path, and [p] restricts the colours. *)
Definition node_ok (c : Color) (l r : tree) (h : Z) : Prop :=
  rb_height l = rb_height r /\ h = rb_height l + black_bit c.

Fixpoint rb (t : tree) : Prop :=
  match t with
  | Null => True
  | Nd l _ _ _ d r =>
      node_ok (rb_color d) l r (rb_h d)
      /\ (rb_color d = RED -> color l = BLACK /\ color r = BLACK) /\ rb l /\ rb r
  end.

Definition rb_ok (t : tree) : Prop := rb t /\ stored t.

Lemma rb_height_pos t : rb t -> 1 <= rb_height t.
Proof.
  induction t as [|l IHl e a s d r IHr]; cbn; [lia |]. intros ((_ & ->) & _ & Hl & _).
  specialize (IHl Hl). unfold black_bit. destruct (rb_color d); lia.
Qed.

(** The height is logarithmic in the number of entries. *)
Lemma rb_height_log t : rb t -> 2 ^ (rb_height t - 1) <= Z.of_nat (length (elements t)) + 1.
Proof.
  induction t as [|l IHl e a s d r IHr]; cbn; [lia |]. intros ((E1 & ->) & _ & Hl & Hr).
  specialize (IHl Hl). specialize (IHr Hr). rewrite <- E1 in IHr. rewrite length_app. cbn [length].
  pose proof (rb_height_pos l Hl).
  assert (2 ^ (rb_height l + black_bit (rb_color d) - 1) <= 2 * 2 ^ (rb_height l - 1)).
  { rewrite <- Z.pow_succ_r by lia. apply Z.pow_le_mono_r; [lia |]. unfold black_bit.
    destruct (rb_color d); lia. }
  lia.
Qed.

(** Trees with a red root whose right (left) child may be red as well, and ones
    where that child has the same defect. *)
Definition red_right (P : tree -> Prop) (t : tree) : Prop :=
  exists l e a s d r, t = Nd l e a s d r /\ rb_color d = RED /\ node_ok RED l r (rb_h d)
    /\ rb l /\ color l = BLACK /\ P r.
Definition red_left (P : tree -> Prop) (t : tree) : Prop :=
  exists l e a s d r, t = Nd l e a s d r /\ rb_color d = RED /\ node_ok RED l r (rb_h d)
    /\ rb r /\ color r = BLACK /\ P l.

Lemma red_right_node P l e a s d r :
  red_right P (Nd l e a s d r) ->
  rb_color d = RED /\ node_ok RED l r (rb_h d) /\ rb l /\ color l = BLACK /\ P r.
Proof. intros (? & ? & ? & ? & ? & ? & Et & Ht). injection Et as -> -> -> -> -> ->. exact Ht. Qed.
Lemma red_left_node P l e a s d r :
  red_left P (Nd l e a s d r) ->
  rb_color d = RED /\ node_ok RED l r (rb_h d) /\ rb r /\ color r = BLACK /\ P l.
Proof. intros (? & ? & ? & ? & ? & ? & Et & Ht). injection Et as -> -> -> -> -> ->. exact Ht. Qed.

Lemma rb_blacken t :
  red_right rb t \/ red_left rb t \/ rb t -> color t = RED -> 0 <= rb_height t < 255 ->
  rb (blacken t) /\ rb_height (blacken t) = rb_height t + 1 /\ color (blacken t) = BLACK.
Proof.
  intros Ht Hc Hh. destruct t as [|l e a s d r]; [discriminate Hc |]. cbn in Hc.
  assert (Hn : rb_height l = rb_height r /\ rb_h d = rb_height l /\ rb l /\ rb r).
  { destruct Ht as [Ht|[Ht|Ht]].
    - apply red_right_node in Ht as (_ & [E1 E2] & ? & _ & ?). cbn in E2. split_and!; auto; lia.
    - apply red_left_node in Ht as (_ & [E1 E2] & ? & _ & ?). cbn in E2. split_and!; auto; lia.
    - cbn in Ht. destruct Ht as ([E1 E2] & _ & ? & ?). rewrite Hc in E2. cbn in E2. split_and!; auto; lia. }
  destruct Hn as (E1 & E2 & Hl & Hr). cbn in Hh |- *. rewrite wrap_small by lia.
  split_and!; auto; try discriminate. split; cbn; lia.
Qed.

Lemma stored_blacken t : stored t -> stored (blacken t).
Proof. destruct t; auto. Qed.
Lemma elements_blacken t : elements (blacken t) = elements t.
Proof. destruct t; auto. Qed.
Lemma stored_rb_update c l e r : stored l -> stored r -> stored (rb_update c l e r).
Proof. cbn. auto. Qed.

Lemma rb_rb_update c l e r :
  rb l -> rb r -> rb_height l = rb_height r -> rb_height l < 255 ->
  (c = RED -> color l = BLACK /\ color r = BLACK) ->
  rb (rb_update c l e r) /\ rb_height (rb_update c l e r) = rb_height l + black_bit c.
Proof.
  intros Hl Hr E1 Hh Hc. pose proof (rb_height_pos l Hl). cbn.
  rewrite wrap_small by (destruct c; cbn; lia). unfold node_ok. auto.
Qed.

(** The defects that a join may leave in the child it descended into. *)
Definition right_result t : Prop := rb t \/ red_right rb t \/ red_right (red_right rb) t.
Definition left_result t : Prop := rb t \/ red_left rb t \/ red_left (red_left rb) t.

Lemma is_red_color t : is_red t = true <-> color t = RED.
Proof. unfold is_red. apply bool_decide_eq_true. Qed.
Lemma not_red_color t : is_red t = false <-> color t = BLACK.
Proof. unfold is_red. rewrite bool_decide_eq_false. destruct (color t); split; congruence. Qed.

(** What the two repairs promise at a black node. *)
Definition repaired (l : tree) (e : E) (r : tree) (t : tree) : Prop :=
  rb t /\ stored t /\ rb_height t = rb_height l + 1 /\ elements t = elements l ++ e :: elements r.

Lemma repaired_update l e r :
  rb_ok l -> rb_ok r -> rb_height l = rb_height r -> rb_height l < 255 ->
  repaired l e r (rb_update BLACK l e r).
Proof.
  intros [Hl Sl] [Hr Sr] E1 Hh. destruct (rb_rb_update BLACK l e r) as [H1 H2]; auto; [discriminate |].
  split_and!; auto. now apply stored_rb_update.
Qed.

(** Rotating a black node whose right child is red, after its right grandchild
    turned black. *)
Lemma rotate_left_ok l e rl re ra rs rd rr :
  rb_ok l -> stored (Nd rl re ra rs rd rr) -> rb_height l < 254 ->
  rb_color rd = RED -> node_ok RED rl rr (rb_h rd) -> rb_height l = rb_h rd ->
  rb rl -> red_right rb rr \/ red_left rb rr \/ rb rr -> color rr = RED ->
  runs (rb_rotate_left BLACK l e (Nd rl re ra rs rd (blacken rr)))
    (repaired l e (Nd rl re ra rs rd rr)).
Proof.
  intros [Hl Sl] (_ & _ & Srl & Srr) Hh Hd [E1 E2] El Hrl Hrr Hc. cbn in E2.
  pose proof (rb_height_pos l Hl).
  destruct (rb_blacken rr Hrr Hc ltac:(lia)) as (Hb & Hbh & Hbc).
  destruct (rb_rb_update BLACK l e rl Hl Hrl ltac:(lia) ltac:(lia) ltac:(discriminate)) as [Hm Hmh]. cbn in Hmh.
  cbn [rb_rotate_left]. rewrite Hd. apply runs_ret.
  destruct (rb_rb_update RED (rb_update BLACK l e rl) re (blacken rr)) as [Ht Hth]; auto.
  - cbn. lia.
  - cbn. lia.
  - split_and!; auto.
    + apply stored_rb_update; [now apply stored_rb_update | now apply stored_blacken].
    + rewrite Hth. cbn. lia.
    + cbn. rewrite elements_blacken, <- app_assoc. reflexivity.
Qed.

Lemma rebalance_rc_ok l e r :
  rb_ok l -> right_result r -> stored r -> rb_height l = rb_height r -> rb_height l < 254 ->
  runs (rebalance_rc BLACK l e r) (repaired l e r).
Proof.
  intros Hl Hr Sr E1 Hh. unfold rebalance_rc. rewrite bool_decide_true by reflexivity. cbn [andb].
  destruct (is_red r) eqn:Er.
  - apply is_red_color in Er. destruct r as [|rl re ra rs rd rr]; [discriminate Er |]. cbn in Er, E1.
    destruct (is_red rr) eqn:Err.
    + apply is_red_color in Err.
      assert (Hn : node_ok RED rl rr (rb_h rd) /\ rb rl /\ (red_right rb rr \/ red_left rb rr \/ rb rr)).
      { destruct Hr as [Hr|[Hr|Hr]].
        - cbn in Hr. destruct Hr as (Hn & Hc & ? & ?). destruct (Hc Er). congruence.
        - apply red_right_node in Hr as (_ & Hn & ? & _ & ?). auto.
        - apply red_right_node in Hr as (_ & Hn & ? & _ & ?). auto. }
      destruct Hn as (Hn & Hrl & Hrr). apply rotate_left_ok; auto.
    + apply not_red_color in Err. apply runs_ret. apply repaired_update; auto; try lia.
      split; [|exact Sr]. destruct Hr as [Hr|[Hr|Hr]]; [exact Hr | |].
      * apply red_right_node in Hr as (Hd & Hn & ? & ? & ?).
        cbn. rewrite Hd. auto.
      * apply red_right_node in Hr as (_ & Hn & ? & _ & Hr).
        destruct Hr as (? & ? & ? & ? & ? & ? & -> & Hd & _). cbn in Err. congruence.
  - apply runs_ret. apply not_red_color in Er. apply repaired_update; auto; try lia. split; [|exact Sr].
    destruct Hr as [Hr|[Hr|Hr]]; [exact Hr | |];
      destruct Hr as (? & ? & ? & ? & ? & ? & -> & Hd & _); cbn in Er; congruence.
Qed.


Lemma rotate_right_ok ll le la ls ld lr e r :
  rb_ok r -> stored (Nd ll le la ls ld lr) -> rb_height r < 254 ->
  rb_color ld = RED -> node_ok RED ll lr (rb_h ld) -> rb_height r = rb_h ld ->
  rb lr -> red_right rb ll \/ red_left rb ll \/ rb ll -> color ll = RED ->
  runs (rb_rotate_right BLACK (Nd (blacken ll) le la ls ld lr) e r)
    (repaired (Nd ll le la ls ld lr) e r).
Proof.
  intros [Hr Sr] (_ & _ & Sll & Slr) Hh Hd [E1 E2] El Hlr Hll Hc. cbn in E2.
  pose proof (rb_height_pos r Hr).
  destruct (rb_blacken ll Hll Hc ltac:(lia)) as (Hb & Hbh & Hbc).
  destruct (rb_rb_update BLACK lr e r Hlr Hr ltac:(lia) ltac:(lia) ltac:(discriminate)) as [Hm Hmh]. cbn in Hmh.
  cbn [rb_rotate_right]. rewrite Hd. apply runs_ret.
  destruct (rb_rb_update RED (blacken ll) le (rb_update BLACK lr e r)) as [Ht Hth]; auto.
  - cbn. lia.
  - lia.
  - split_and!; auto.
    + apply stored_rb_update; [now apply stored_blacken | now apply stored_rb_update].
    + rewrite Hth. cbn. lia.
    + cbn. rewrite elements_blacken, <- app_assoc. reflexivity.
Qed.

Lemma rebalance_lc_ok l e r :
  rb_ok r -> left_result l -> stored l -> rb_height l = rb_height r -> rb_height l < 254 ->
  runs (rebalance_lc BLACK l e r) (repaired l e r).
Proof.
  intros Hr Hl Sl E1 Hh. unfold rebalance_lc. rewrite bool_decide_true by reflexivity. cbn [andb].
  destruct (is_red l) eqn:Er.
  - apply is_red_color in Er. destruct l as [|ll le la ls ld lr]; [discriminate Er |]. cbn in Er, E1, Hh.
    destruct (is_red ll) eqn:Err.
    + apply is_red_color in Err.
      assert (Hn : node_ok RED ll lr (rb_h ld) /\ rb lr /\ (red_right rb ll \/ red_left rb ll \/ rb ll)).
      { destruct Hl as [Hl|[Hl|Hl]].
        - cbn in Hl. destruct Hl as (Hn & Hc & ? & ?). destruct (Hc Er). congruence.
        - apply red_left_node in Hl as (_ & Hn & ? & _ & ?). auto.
        - apply red_left_node in Hl as (_ & Hn & ? & _ & ?). auto. }
      destruct Hn as (Hn & Hlr & Hll). apply rotate_right_ok; auto; lia.
    + apply not_red_color in Err. apply runs_ret. apply repaired_update; auto; try (cbn; lia).
      split; [|exact Sl]. destruct Hl as [Hl|[Hl|Hl]]; [exact Hl | |].
      * apply red_left_node in Hl as (Hd & Hn & ? & ? & ?).
        cbn. rewrite Hd. auto.
      * apply red_left_node in Hl as (_ & Hn & ? & _ & Hl).
        destruct Hl as (? & ? & ? & ? & ? & ? & -> & Hd & _). cbn in Err. congruence.
  - apply runs_ret. apply not_red_color in Er. apply repaired_update; auto; try (cbn; lia). split; [|exact Sl].
    destruct Hl as [Hl|[Hl|Hl]]; [exact Hl | |];
      destruct Hl as (? & ? & ? & ? & ? & ? & -> & Hd & _); cbn in Er; congruence.
Qed.

(** ** The joins *)

(** The shape of a join into the taller tree [t]: whether the two heights are
    equal, and the colour of [t], decide the defect at the root. *)
Definition right_shape t1 t2 t : Prop :=
  if rb_height t1 =? rb_height t2
  then match color t1 with BLACK => red_right rb t | RED => red_right (red_right rb) t end
  else match color t1 with BLACK => rb t | RED => red_right rb t end.
Definition left_shape t1 t2 t : Prop :=
  if rb_height t1 =? rb_height t2
  then match color t2 with BLACK => red_left rb t | RED => red_left (red_left rb) t end
  else match color t2 with BLACK => rb t | RED => red_left rb t end.

Lemma right_shape_result t1 t2 t : right_shape t1 t2 t -> right_result t.
Proof. unfold right_shape, right_result. destruct (_ =? _), (color t1); auto. Qed.
Lemma left_shape_result t1 t2 t : left_shape t1 t2 t -> left_result t.
Proof. unfold left_shape, left_result. destruct (_ =? _), (color t2); auto. Qed.

Definition rb_joined (h : Z) (es : list E) t : Prop :=
  stored t /\ rb_height t = h /\ elements t = es.

(** A red node over a joined child. *)
Lemma red_update_right (P : tree -> Prop) l e r :
  rb l -> color l = BLACK -> P r -> rb_height l = rb_height r -> rb_height l < 255 ->
  red_right P (rb_update RED l e r) /\ rb_height (rb_update RED l e r) = rb_height l.
Proof.
  intros Hl Hc Hr E1 Hh. pose proof (rb_height_pos l Hl). cbn. rewrite wrap_small by lia.
  split; [|lia]. unfold rb_update. eexists _, _, _, _, _, _. split; [reflexivity |]. cbn.
  rewrite wrap_small by lia. unfold node_ok. auto.
Qed.
Lemma red_update_left (P : tree -> Prop) l e r :
  rb r -> color r = BLACK -> P l -> rb_height l = rb_height r -> rb_height r < 255 ->
  red_left P (rb_update RED l e r) /\ rb_height (rb_update RED l e r) = rb_height r.
Proof.
  intros Hr Hc Hl E1 Hh. pose proof (rb_height_pos r Hr). cbn. rewrite wrap_small by lia.
  split; [|lia]. unfold rb_update. eexists _, _, _, _, _, _. split; [reflexivity |]. cbn.
  rewrite wrap_small by lia. unfold node_ok. auto.
Qed.

Lemma rb_right_join_ok t1 t2 k :
  rb_ok t1 -> rb_ok t2 -> rb_height t2 <= rb_height t1 < 254 ->
  runs (rb_right_join t1 t2 k) (fun t =>
    rb_joined (rb_height t1) (elements t1 ++ k :: elements t2) t /\ right_shape t1 t2 t).
Proof.
  intros H1 [H2 S2]. induction t1 as [|l IHl e a s d r IHr]; intros Hh; cbn [rb_right_join].
  - pose proof (rb_height_pos t2 H2). cbn [rb_height color] in *.
    assert (E1 : rb_height t2 = 1) by lia.
    rewrite E1. rewrite bool_decide_true by reflexivity. cbn [andb Z.eqb Pos.eqb].
    destruct (red_update_right rb Null k t2) as [Hs Hsh]; cbn; auto; try lia.
    apply runs_ret. split; [split_and!; cbn; auto |]. unfold right_shape. cbn. rewrite E1. exact Hs.
  - destruct H1 as [(Hn & Hc & Hl & Hr) S1]. pose proof S1 as (_ & _ & Sl & Sr).
    destruct Hn as [E1 E2]. cbn [rb_height color] in *. unfold right_shape. cbn [rb_height color].
    pose proof (rb_height_pos l Hl).
    destruct (Z.eqb_spec (rb_h d) (rb_height t2)) as [Eh|Eh].
    + destruct (rb_color d) eqn:Ed; cbn [black_bit] in E2.
      * rewrite bool_decide_false by discriminate. cbn [andb]. destruct (Hc eq_refl) as [Cl Cr].
        eapply runs_bind; [apply IHr; [now split | lia] |]. intros r' [(Sr' & Hr' & Er') Hsh].
        unfold right_shape in Hsh. rewrite Cr in Hsh. rewrite (proj2 (Z.eqb_eq _ _)) in Hsh by lia.
        unfold rebalance_rc. rewrite bool_decide_false by discriminate. cbn [andb].
        destruct (red_update_right (red_right rb) l e r') as [Hs Hsh']; auto; try lia.
        apply runs_ret. split; [|exact Hs]. split_and!; [now apply stored_rb_update | lia |].
        cbn. now rewrite Er', <- app_assoc.
      * rewrite bool_decide_true by reflexivity. cbn [andb].
        destruct (red_update_right rb (Nd l e a s d r) k t2) as [Hs Hsh]; cbn; auto; try lia.
        { unfold node_ok. rewrite Ed. cbn. split_and!; auto. }
        apply runs_ret. split; [|exact Hs].
        split_and!; [now apply stored_rb_update | exact Hsh | reflexivity].
    + cbn [andb]. eapply runs_bind; [apply IHr; [now split |] |].
      { destruct (rb_color d); cbn [black_bit] in E2; lia. }
      intros r' [(Sr' & Hr' & Er') Hsh]. destruct (rb_color d) eqn:Ed; cbn [black_bit] in E2.
      * destruct (Hc eq_refl) as [Cl Cr]. unfold right_shape in Hsh. rewrite Cr in Hsh.
        rewrite (proj2 (Z.eqb_neq _ _)) in Hsh by lia.
        unfold rebalance_rc. rewrite bool_decide_false by discriminate. cbn [andb].
        destruct (red_update_right rb l e r') as [Hs Hsh']; auto; try lia.
        apply runs_ret. split; [|exact Hs]. split_and!; [now apply stored_rb_update | lia |].
        cbn. now rewrite Er', <- app_assoc.
      * eapply runs_mono; [apply rebalance_rc_ok; auto; try lia |].
        -- now split.
        -- eapply right_shape_result, Hsh.
        -- intros t (Ht & St & Hth & Et). split; [|exact Ht]. split_and!; [exact St | lia |].
           rewrite Et, Er'. cbn. now rewrite <- app_assoc.
Qed.


Lemma rb_left_join_ok t1 t2 k :
  rb_ok t1 -> rb_ok t2 -> rb_height t1 <= rb_height t2 < 254 ->
  runs (rb_left_join t1 t2 k) (fun t =>
    rb_joined (rb_height t2) (elements t1 ++ k :: elements t2) t /\ left_shape t1 t2 t).
Proof.
  intros [H1 S1] H2. induction t2 as [|l IHl e a s d r IHr]; intros Hh; cbn [rb_left_join].
  - pose proof (rb_height_pos t1 H1). cbn [rb_height color] in *.
    assert (E1 : rb_height t1 = 1) by lia.
    rewrite E1. rewrite bool_decide_true by reflexivity. cbn [andb Z.eqb Pos.eqb].
    destruct (red_update_left rb t1 k Null) as [Hs Hsh]; cbn; auto; try lia.
    apply runs_ret. split; [split_and!; cbn; auto |].
    unfold left_shape. cbn. rewrite E1. exact Hs.
  - destruct H2 as [(Hn & Hc & Hl & Hr) S2]. pose proof S2 as (_ & _ & Sl & Sr).
    destruct Hn as [E1 E2]. cbn [rb_height color] in *. unfold left_shape. cbn [rb_height color].
    pose proof (rb_height_pos l Hl).
    destruct (Z.eqb_spec (rb_height t1) (rb_h d)) as [Eh|Eh].
    + destruct (rb_color d) eqn:Ed; cbn [black_bit] in E2.
      * rewrite bool_decide_false by discriminate. cbn [andb]. destruct (Hc eq_refl) as [Cl Cr].
        eapply runs_bind; [apply IHl; [now split | lia] |]. intros l' [(Sl' & Hl' & El') Hsh].
        unfold left_shape in Hsh. rewrite Cl in Hsh. rewrite (proj2 (Z.eqb_eq _ _)) in Hsh by lia.
        unfold rebalance_lc. rewrite bool_decide_false by discriminate. cbn [andb].
        destruct (red_update_left (red_left rb) l' e r) as [Hs Hsh']; auto; try lia.
        apply runs_ret. split; [|exact Hs]. split_and!; [now apply stored_rb_update | lia |].
        cbn. now rewrite El', <- app_assoc.
      * rewrite bool_decide_true by reflexivity. cbn [andb].
        destruct (red_update_left rb t1 k (Nd l e a s d r)) as [Hs Hsh]; cbn; auto; try lia.
        { unfold node_ok. rewrite Ed. cbn. split_and!; auto. }
        apply runs_ret. split; [|exact Hs].
        split_and!; [now apply stored_rb_update | exact Hsh | reflexivity].
    + cbn [andb]. eapply runs_bind; [apply IHl; [now split |] |].
      { destruct (rb_color d); cbn [black_bit] in E2; lia. }
      intros l' [(Sl' & Hl' & El') Hsh]. destruct (rb_color d) eqn:Ed; cbn [black_bit] in E2.
      * destruct (Hc eq_refl) as [Cl Cr]. unfold left_shape in Hsh. rewrite Cl in Hsh.
        rewrite (proj2 (Z.eqb_neq _ _)) in Hsh by lia.
        unfold rebalance_lc. rewrite bool_decide_false by discriminate. cbn [andb].
        destruct (red_update_left rb l' e r) as [Hs Hsh']; auto; try lia.
        apply runs_ret. split; [|exact Hs]. split_and!; [now apply stored_rb_update | lia |].
        cbn. now rewrite El', <- app_assoc.
      * eapply runs_mono; [apply rebalance_lc_ok; auto; try lia |].
        -- now split.
        -- eapply left_shape_result, Hsh.
        -- intros t (Ht & St & Hth & Et). split; [|exact Ht]. split_and!; [exact St | lia |].
           rewrite Et, El'. cbn. now rewrite <- app_assoc.
Qed.

(** The end of [node_join]: the second rebalancing and the colour of the root. *)
Definition finished (h : Z) (es : list E) t : Prop :=
  rb_ok t /\ elements t = es /\ h <= rb_height t <= h + 1.

Lemma finish_right h es t :
  stored t -> rb_height t = h -> elements t = es -> rb t \/ red_right rb t -> 1 < h < 254 ->
  runs (match t with
        | Null => None
        | Nd l e _ _ d r =>
            t ← rebalance_rc (rb_color d) l e r;
            Some (if is_red t && red_rc t then blacken t else t)
        end) (finished h es).
Proof.
  intros St Hh He Ht Hb. destruct t as [|l e a s d r]; [cbn in Hh; lia |].
  pose proof St as (_ & _ & Sl & Sr). cbn [rb_height] in Hh. destruct (rb_color d) eqn:Ed.
  - assert (Hn : node_ok RED l r (rb_h d) /\ rb l /\ color l = BLACK /\ rb r).
    { destruct Ht as [Ht|Ht].
      - cbn in Ht. rewrite Ed in Ht. destruct Ht as (? & Hc & ? & ?). destruct (Hc eq_refl). auto.
      - apply red_right_node in Ht as (_ & Hn & ? & ? & ?). auto. }
    destruct Hn as ([E1 E2] & Hl & Cl & Hr). cbn in E2.
    unfold rebalance_rc. rewrite bool_decide_false by discriminate. cbn [andb mbind option_bind].
    destruct (red_update_right rb l e r) as [Hs Hsh]; auto; try lia.
    pose proof (stored_rb_update RED l e r Sl Sr) as Su. apply runs_ret. unfold finished.
    assert (Cu : color (rb_update RED l e r) = RED) by reflexivity.
    assert (Eu : elements (rb_update RED l e r) = es) by exact He.
    assert (Rc : red_rc (rb_update RED l e r) = is_red r) by reflexivity.
    rewrite (proj2 (is_red_color _) Cu), Rc. cbn [andb]. destruct (is_red r) eqn:Er.
    + destruct (rb_blacken _ (or_introl Hs) Cu ltac:(lia)) as (Hbk & Hbh & _).
      rewrite elements_blacken. split_and!; auto using stored_blacken; [|lia|lia]. split; auto using stored_blacken.
    + apply not_red_color in Er. split_and!; auto; try lia. split; [|exact Su].
      destruct (rb_rb_update RED l e r) as [? _]; auto; lia.
  - assert (Hrb : rb (Nd l e a s d r)).
    { destruct Ht as [Ht|Ht]; [exact Ht |].
      apply red_right_node in Ht as (? & _). congruence. }
    cbn in Hrb. rewrite Ed in Hrb. destruct Hrb as ([E1 E2] & _ & Hl & Hr). cbn in E2.
    eapply runs_bind; [apply rebalance_rc_ok; auto; [now split | now left | lia] |].
    intros t (Htr & Str & Hth & Et). apply runs_ret.
    assert (Hno : is_red t && red_rc t = false).
    { destruct t as [|tl te ta ts td tr]; [reflexivity |]. destruct (is_red (Nd tl te ta ts td tr)) eqn:Er; [|reflexivity].
      apply is_red_color in Er. cbn in Er |- *. apply not_red_color. cbn in Htr. destruct Htr as (_ & Hc & _).
      now apply Hc. }
    rewrite Hno. split_and!; [now split | now rewrite Et | lia | lia].
Qed.

Lemma finish_left h es t :
  stored t -> rb_height t = h -> elements t = es -> rb t \/ red_left rb t -> 1 < h < 254 ->
  runs (match t with
        | Null => None
        | Nd l e _ _ d r =>
            t ← rebalance_lc (rb_color d) l e r;
            Some (if is_red t && red_lc t then blacken t else t)
        end) (finished h es).
Proof.
  intros St Hh He Ht Hb. destruct t as [|l e a s d r]; [cbn in Hh; lia |].
  pose proof St as (_ & _ & Sl & Sr). cbn [rb_height] in Hh. destruct (rb_color d) eqn:Ed.
  - assert (Hn : node_ok RED l r (rb_h d) /\ rb r /\ color r = BLACK /\ rb l).
    { destruct Ht as [Ht|Ht].
      - cbn in Ht. rewrite Ed in Ht. destruct Ht as (? & Hc & ? & ?). destruct (Hc eq_refl). auto.
      - apply red_left_node in Ht as (_ & Hn & ? & ? & ?). auto. }
    destruct Hn as ([E1 E2] & Hr & Cr & Hl). cbn in E2.
    unfold rebalance_lc. rewrite bool_decide_false by discriminate. cbn [andb mbind option_bind].
    destruct (red_update_left rb l e r) as [Hs Hsh]; auto; try lia.
    pose proof (stored_rb_update RED l e r Sl Sr) as Su. apply runs_ret. unfold finished.
    assert (Cu : color (rb_update RED l e r) = RED) by reflexivity.
    assert (Eu : elements (rb_update RED l e r) = es) by exact He.
    assert (Rc : red_lc (rb_update RED l e r) = is_red l) by reflexivity.
    rewrite (proj2 (is_red_color _) Cu), Rc. cbn [andb]. destruct (is_red l) eqn:Er.
    + destruct (rb_blacken _ (or_intror (or_introl Hs)) Cu ltac:(lia)) as (Hbk & Hbh & _).
      rewrite elements_blacken. split_and!; auto using stored_blacken; [|lia|lia]. split; auto using stored_blacken.
    + apply not_red_color in Er. split_and!; auto; try lia. split; [|exact Su].
      destruct (rb_rb_update RED l e r) as [? _]; auto; lia.
  - assert (Hrb : rb (Nd l e a s d r)).
    { destruct Ht as [Ht|Ht]; [exact Ht |].
      apply red_left_node in Ht as (? & _). congruence. }
    cbn in Hrb. rewrite Ed in Hrb. destruct Hrb as ([E1 E2] & _ & Hl & Hr). cbn in E2.
    eapply runs_bind; [apply rebalance_lc_ok; auto; [now split | now left | lia] |].
    intros t (Htr & Str & Hth & Et). apply runs_ret.
    assert (Hno : is_red t && red_lc t = false).
    { destruct t as [|tl te ta ts td tr]; [reflexivity |]. destruct (is_red (Nd tl te ta ts td tr)) eqn:Er; [|reflexivity].
      apply is_red_color in Er. cbn in Er |- *. apply not_red_color. cbn in Htr. destruct Htr as (_ & Hc & _).
      now apply Hc. }
    rewrite Hno. split_and!; [now split | now rewrite Et | lia | lia].
Qed.


Lemma rb_node_join_ok t1 t2 k :
  rb_ok t1 -> rb_ok t2 -> rb_height t1 < 254 -> rb_height t2 < 254 ->
  runs (rb_node_join t1 t2 k)
    (finished (Z.max (rb_height t1) (rb_height t2)) (elements t1 ++ k :: elements t2)).
Proof.
  intros H1 H2 Hh1 Hh2. pose proof (rb_height_pos t1 (proj1 H1)). pose proof (rb_height_pos t2 (proj1 H2)).
  unfold rb_node_join.
  destruct (Z.ltb_spec (rb_height t2) (rb_height t1)); [|destruct (Z.ltb_spec (rb_height t1) (rb_height t2))].
  - rewrite Z.max_l by lia. eapply runs_bind; [apply rb_right_join_ok; auto; lia |].
    intros t [(St & Ht & Et) Hs]. apply finish_right; auto; [|lia].
    unfold right_shape in Hs. rewrite (proj2 (Z.eqb_neq _ _)) in Hs by lia. destruct (color t1); auto.
  - rewrite Z.max_r by lia. eapply runs_bind; [apply rb_left_join_ok; auto; lia |].
    intros t [(St & Ht & Et) Hs]. apply finish_left; auto; [|lia].
    unfold left_shape in Hs. rewrite (proj2 (Z.eqb_neq _ _)) in Hs by lia. destruct (color t2); auto.
  - assert (E1 : rb_height t1 = rb_height t2) by lia. destruct H1 as [H1 S1], H2 as [H2 S2].
    assert (Hc : forall c, (c = RED -> color t1 = BLACK /\ color t2 = BLACK) ->
      finished (Z.max (rb_height t1) (rb_height t2)) (elements t1 ++ k :: elements t2)
        (rb_balanced_join t1 t2 k c)).
    { intros c Hc. destruct (rb_rb_update c t1 k t2) as [Ht Hth]; auto; [lia |].
      change (rb_balanced_join t1 t2 k c) with (rb_update c t1 k t2). unfold finished. rewrite Hth.
      split_and!; [split; auto using stored_rb_update | reflexivity | |]; destruct c; cbn; lia. }
    destruct (bool_decide (color t1 = BLACK) && bool_decide (color t2 = BLACK)) eqn:Eb; apply runs_ret, Hc.
    + apply andb_true_iff in Eb as [?%bool_decide_eq_true ?%bool_decide_eq_true]. auto.
    + discriminate.
Qed.

Lemma rb_check_ok t : rb t -> rb_check_balance t = true.
Proof.
  induction t as [|l IHl e a s d r IHr]; [reflexivity |]. cbn. intros ((E1 & _) & Hc & Hl & Hr).
  rewrite IHl, IHr, E1, Z.eqb_refl by assumption. rewrite !andb_true_r. destruct (rb_color d) eqn:Ed.
  - destruct (Hc eq_refl) as [-> ->]. reflexivity.
  - reflexivity.
Qed.

(** Fewer than 2^32 entries leave room in the height field. *)
Lemma rb_height_small t : rb t -> Z.of_nat (length (elements t)) < 2 ^ 32 -> rb_height t < 254.
Proof.
  intros Ht Hn. pose proof (rb_height_log t Ht) as Hl.
  destruct (Z.lt_ge_cases (rb_height t) 254) as [|Hge]; [assumption |].
  assert (2 ^ 33 <= 2 ^ (rb_height t - 1)) by (apply Z.pow_le_mono_r; lia). lia.
Qed.

(** C39. Joining two red-black trees around an entry, with fewer than 2^32 entries
    in all, never dereferences null; the result is a red-black tree (the code's
    own [check_balance] accepts it) with right sizes and augmented values, which
    holds the entries of the left tree, the middle entry and those of the right
    tree in order, and whose black height is that of the taller operand or one
    more, so that it is logarithmic in the number of entries. *)
Theorem rb_node_join_correct t1 t2 k :
  rb_ok t1 -> rb_ok t2 ->
  Z.of_nat (length (elements t1)) < 2 ^ 32 -> Z.of_nat (length (elements t2)) < 2 ^ 32 ->
  exists t, rb_node_join t1 t2 k = Some t
    /\ rb_ok t /\ rb_check_balance t = true
    /\ elements t = elements t1 ++ k :: elements t2
    /\ Z.max (rb_height t1) (rb_height t2) <= rb_height t <= Z.max (rb_height t1) (rb_height t2) + 1
    /\ 2 ^ (rb_height t - 1) <= Z.of_nat (length (elements t)) + 1.
Proof.
  intros H1 H2 N1 N2.
  destruct (rb_node_join_ok t1 t2 k H1 H2) as (t & Ht & Hok & Et & Hh);
    [apply rb_height_small; auto; apply H1 | apply rb_height_small; auto; apply H2 |].
  exists t. split_and!; auto; try lia; [apply rb_check_ok, Hok | apply rb_height_log, Hok].
Qed.

End RedBlack.

(** A left tree with a red root and a right tree of one entry. *)
Definition rb_left : tree Z unit rb_data :=
  match rb_node_join (rb_single 1) (rb_single 5) 3 with Some t => t | None => Null end.

Lemma rb_node_join_correct_witness :
  exists t, rb_node_join rb_left (rb_single 9) 7 = Some t
    /\ rb_ok t /\ rb_check_balance t = true
    /\ elements t = [1; 3; 5; 7; 9]
    /\ 2 <= rb_height t <= 3
    /\ 2 ^ (rb_height t - 1) <= Z.of_nat (length (elements t)) + 1.
Proof.
  apply (rb_node_join_correct rb_left (rb_single 9) 7).
  - split; vm_compute; repeat split; auto; discriminate.
  - split; vm_compute; repeat split; auto; discriminate.
  - vm_compute. reflexivity.
  - vm_compute. reflexivity.
Defined.
