(* ===== verification/PamSeq.v ===== *)
(** * Sequence operations of PAM

    Models src/OLAP/PAM/c++/sequence_ops.h over any balancing scheme that
    implements the [JoinTree] interface.  The parallel forks of the code
    ([utils::fork], on disjoint subtrees) compute the pair of the two results
    in any order, so that the model evaluates them one after the other; the
    granularity arguments, which only decide whether to fork, are left out
    where they do not select the result. *)

From stdpp Require Import base list option.
From Stdlib Require Import ZArith Lia.
From S2P Require Import Prelude PamTree.
Local Open Scope Z_scope.

Section SeqOps.
Context {E A B : Type} `{EntryAug E A, !JoinTree E A B}.
Abbreviation tree := (tree E A B).

Definition join (l : tree) (e : E) (r : tree) : option tree := node_join l r e.

Fixpoint depth (a : tree) : Z :=
  match a with
  | Null => 0
  | Nd l _ _ _ _ r => Z.max (depth l) (depth r) + 1
  end.

(** [size_t] arithmetic: 64 bits, unsigned. *)
Fixpoint select (b : tree) (lrank : Z) : option E :=
  match b with
  | Null => None
  | Nd l e _ _ _ r =>
      let left_size := size l in
      if left_size <? lrank then select r (wrap 64 (lrank - (left_size + 1)))
      else if lrank <? left_size then select l lrank
      else Some e
  end.

Fixpoint take (b : tree) (rank : Z) : option tree :=
  match b with
  | Null => Some Null
  | Nd l e _ _ _ r =>
      let left_size := size l in
      if rank <? left_size then take l rank
      else r' ← take r (wrap 64 (rank - left_size - 1)); node_join l r' e
  end.

(** The loop that walks down the right spine of [b1] or the left spine of
    [b2], whichever tree is larger. *)
Fixpoint join2 (b1 : tree) : tree -> option tree :=
  fix join2_b1 (b2 : tree) : option tree :=
    match b1, b2 with
    | Null, _ => Some b2
    | _, Null => Some b1
    | Nd l1 e1 _ _ _ r1, Nd l2 e2 _ _ _ r2 =>
        if size b2 <? size b1 then r ← join2 r1 b2; node_join l1 r e1
        else l ← join2_b1 l2; node_join l r2 e2
    end.

Fixpoint filter (f : E -> bool) (b : tree) : option tree :=
  match b with
  | Null => Some Null
  | Nd l e _ _ _ r =>
      l' ← filter f l;
      r' ← filter f r;
      if f e then node_join l' r' e else join2 l' r'
  end.

(** [if_exist] returns early once the shared indicator is set; the indicator
    after the call is returned too. *)
Fixpoint if_exist (f : E -> bool) (b : tree) (indicator : bool) : bool * bool :=
  match b with
  | Null => (false, indicator)
  | Nd l e _ _ _ r =>
      if indicator then (true, indicator)
      else if f e then (true, true)
      else
        let '(p, indicator) := if_exist f l indicator in
        let '(q, indicator) := if_exist f r indicator in
        (p || q, indicator)
  end.

(** [f] is applied to every entry with its index, the root's first. *)
Fixpoint foreach_index (a : tree) (start : Z) : list (E * Z) :=
  match a with
  | Null => []
  | Nd l e _ _ _ r =>
      let lsize := size l in
      (e, wrap 64 (start + lsize))
        :: foreach_index l start ++ foreach_index r (wrap 64 (start + lsize + 1))
  end.

Fixpoint foreach_seq {S} (f : S -> E -> S) (a : tree) (st : S) : S :=
  match a with
  | Null => st
  | Nd l e _ _ _ r => foreach_seq f r (f (foreach_seq f l st) e)
  end.

(** [from_array(A, n)] on the sub-array that holds [xs]; the fuel is the
    length of the array. *)
Fixpoint from_array_fuel (fuel : nat) (xs : list E) : option tree :=
  match xs with
  | [] => Some Null
  | [x] => Some (single x)
  | _ =>
      match fuel with
      | O => None
      | S fuel =>
          let mid := (length xs / 2)%nat in
          m ← xs !! mid;
          l ← from_array_fuel fuel (list.take mid xs);
          r ← from_array_fuel fuel (drop (mid + 1) xs);
          node_join l r m
      end
  end.
Definition from_array (xs : list E) : option tree := from_array_fuel (length xs) xs.

(** [R] is a monoid given by its [identity] and [add]. *)
Fixpoint map_reduce {T} (f : E -> T) (identity : T) (add : T -> T -> T) (b : tree) : T :=
  match b with
  | Null => identity
  | Nd l e _ _ _ r =>
      let p := map_reduce f identity add l in
      let q := map_reduce f identity add r in
      add p (add (f e) q)
  end.

(** The accumulator [v] is passed by reference in the code. *)
Fixpoint semi_map_reduce_seq {T} (f : T -> E -> T) (b : tree) (v : T) : T :=
  match b with
  | Null => v
  | Nd l e _ _ _ r => semi_map_reduce_seq f r (f (semi_map_reduce_seq f l v) e)
  end.

(** A node of at least [grain] entries reduces its two sides separately and
    adds its own entry to the left result; [None] is the null dereference of
    an empty tree with [grain = 0]. *)
Fixpoint semi_map_reduce {T} (f : T -> E -> T) (identity : T) (add : T -> T -> T)
    (grain : Z) (b : tree) : option T :=
  if grain <=? size b then
    match b with
    | Null => None
    | Nd l e _ _ _ r =>
        r' ← semi_map_reduce f identity add grain r;
        l' ← semi_map_reduce f identity add grain l;
        Some (add (f l' e) r')
    end
  else Some (semi_map_reduce_seq f b identity).
End SeqOps.

(** [map] and [map_filter] read a tree of another type ([InTree], [Seq1]). *)
Section SeqMap.
Context {E1 A1 B1 E A B : Type} `{EntryAug E A, !JoinTree E A B}.

Fixpoint map (f : E1 -> E) (b : tree E1 A1 B1) : option (tree E A B) :=
  match b with
  | Null => Some Null
  | Nd l e _ _ _ r =>
      l' ← map f l;
      r' ← map f r;
      node_join l' r' (f e)
  end.

Fixpoint map_filter (f : E1 -> option E) (b : tree E1 A1 B1) : option (tree E A B) :=
  match b with
  | Null => Some Null
  | Nd l e _ _ _ r =>
      l' ← map_filter f l;
      r' ← map_filter f r;
      match f e with
      | Some me => node_join l' r' me
      | None => join2 l' r'
      end
  end.
End SeqMap.

(** ** Specifications *)

Section SeqSpecs.
Context {E A B : Type} `{JoinTreeLaws E A B}.
Abbreviation tree := (PamTree.tree E A B).
Implicit Types t l r : tree.

Lemma ok_left l e a s b r : ok (Nd l e a s b r) -> ok l.
Proof. intros Hok. now apply ok_children in Hok. Qed.

Lemma ok_right l e a s b r : ok (Nd l e a s b r) -> ok r.
Proof. intros Hok. now apply ok_children in Hok. Qed.

Lemma join2_ok b1 b2 :
  ok b1 -> ok b2 ->
  runs (join2 b1 b2) (fun t => ok t /\ elements t = elements b1 ++ elements b2).
Proof.
  revert b2. induction b1 as [|l1 IHl1 e1 a1 s1 d1 r1 IHr1]; intros b2 H1 H2.
  - destruct b2; apply runs_ret; auto.
  - pose proof (ok_children _ _ _ _ _ _ H1) as [Hl1 Hr1].
    induction b2 as [|l2 IHl2 e2 a2 s2 d2 r2 IHr2].
    + apply runs_ret. rewrite app_nil_r. auto.
    + pose proof (ok_children _ _ _ _ _ _ H2) as [Hl2 Hr2].
      cbn [join2]. fold (join2 (B := B)). destruct (_ <? _).
      * runs_with IHr1. intros r [Hr Er]. eapply runs_mono; [apply ok_join; auto |].
        intros t [Ht Et]. split; [exact Ht |]. rewrite Et, Er. cbn [elements].
        now rewrite <- app_assoc.
      * runs_with IHl2. intros l [Hl El]. eapply runs_mono; [apply ok_join; auto |].
        intros t [Ht Et]. split; [exact Ht |]. rewrite Et, El. cbn [elements].
        now rewrite <- !app_assoc.
Qed.

Lemma filter_ok f b :
  ok b -> runs (filter f b) (fun t => ok t /\ elements t = List.filter f (elements b)).
Proof.
  induction b as [|l IHl e a s d r IHr]; intros Hb.
  - apply runs_ret. auto.
  - apply ok_children in Hb as [Hl Hr]. cbn [filter].
    runs_with IHl. intros l' [Hl' El]. runs_with IHr. intros r' [Hr' Er].
    cbn [elements]. rewrite filter_app_cons. destruct (f e).
    + eapply runs_mono; [apply ok_join; auto |]. intros t [Ht Et].
      split; [exact Ht |]. now rewrite Et, El, Er.
    + eapply runs_mono; [apply join2_ok; auto |]. intros t [Ht Et].
      split; [exact Ht |]. now rewrite Et, El, Er.
Qed.

Lemma from_array_fuel_ok fuel xs :
  (length xs <= fuel)%nat ->
  runs (from_array_fuel fuel xs) (fun t => ok t /\ elements t = xs).
Proof.
  revert xs. induction fuel as [|fuel IH]; intros xs Hlen.
  - destruct xs; [apply runs_ret; auto using ok_null | cbn in Hlen; lia].
  - destruct xs as [|x [|y xs]]; [apply runs_ret; auto using ok_null
      | apply runs_ret, ok_single |].
    remember (x :: y :: xs) as zs eqn:Ez.
    assert (Hn : (2 <= length zs)%nat) by (subst; cbn; lia).
    set (mid := (length zs / 2)%nat).
    assert (Hmid : (mid < length zs)%nat) by (apply Nat.div_lt; lia).
    destruct (lookup_lt_is_Some_2 zs mid Hmid) as [m Hm].
    replace (from_array_fuel (S fuel) zs) with
      (m ← zs !! mid; l ← from_array_fuel fuel (list.take mid zs);
       r ← from_array_fuel fuel (drop (mid + 1) zs); node_join l r m)
      by (subst zs; reflexivity).
    rewrite Hm. cbn [mbind option_bind].
    eapply runs_bind; [apply IH; rewrite length_take; lia |]. intros l [Hl El].
    eapply runs_bind; [apply IH; rewrite length_drop; lia |]. intros r [Hr Er].
    eapply runs_mono; [apply ok_join; auto |]. intros t [Ht Et].
    split; [exact Ht |]. rewrite Et, El, Er. now apply split_at_index.
Qed.

Lemma from_array_ok xs : runs (from_array xs) (fun t => ok t /\ elements t = xs).
Proof. apply from_array_fuel_ok. lia. Qed.

Lemma foreach_seq_foldl {S} (f : S -> E -> S) t st :
  foreach_seq f t st = foldl f st (elements t).
Proof.
  revert st. induction t as [|l IHl e a s b r IHr]; intros st; cbn; [reflexivity |].
  now rewrite IHr, IHl, foldl_app.
Qed.

Lemma semi_map_reduce_seq_foldl {T} (f : T -> E -> T) t v :
  semi_map_reduce_seq f t v = foldl f v (elements t).
Proof. exact (foreach_seq_foldl f t v). Qed.

Lemma map_reduce_foldr {T} (f : E -> T) (id : T) (add : T -> T -> T) t :
  (forall x y z, add x (add y z) = add (add x y) z) -> (forall x, add id x = x) ->
  map_reduce f id add t = foldr (fun e a => add (f e) a) id (elements t).
Proof.
  intros Hassoc Hid.
  assert (Happ : forall l1 l2 : list E, foldr (fun e a => add (f e) a) id (l1 ++ l2) =
    add (foldr (fun e a => add (f e) a) id l1) (foldr (fun e a => add (f e) a) id l2)).
  { induction l1 as [|x l1 IH]; intros l2; cbn; [now rewrite Hid |]. now rewrite IH, Hassoc. }
  induction t as [|l IHl e a s b r IHr]; cbn; [reflexivity |].
  now rewrite IHl, IHr, Happ.
Qed.

Lemma if_exist_existsb f t : (if_exist f t false).1 = existsb f (elements t).
Proof.
  assert (Hgen : forall ind, (if_exist f t ind).2 = ind || existsb f (elements t)
                 /\ (ind = false -> (if_exist f t ind).1 = existsb f (elements t))).
  { induction t as [|l IHl e a s b r IHr]; intros ind; cbn [if_exist elements].
    - cbn. now rewrite orb_false_r.
    - rewrite existsb_app. cbn [existsb]. destruct ind; [split; [reflexivity | discriminate] |].
      destruct (f e); cbn [orb]; [now rewrite orb_true_r |].
      destruct (IHl false) as [Hl2 Hl1]. specialize (Hl1 eq_refl). cbn [orb] in Hl2.
      destruct (if_exist f l false) as [p i]. cbn in Hl1, Hl2. subst p i.
      destruct (IHr (existsb f (elements l))) as [Hr2 Hr1].
      destruct (if_exist f r _) as [q j]. cbn in Hr1, Hr2 |- *. subst j.
      split; [reflexivity |]. intros _.
      destruct (existsb f (elements l)); [reflexivity |]. now rewrite Hr1. }
  now apply Hgen.
Qed.
End SeqSpecs.

Section SeqMapSpecs.
Context {E1 A1 B1 E A B : Type} `{JoinTreeLaws E A B}.

Lemma map_ok (f : E1 -> E) (b : tree E1 A1 B1) :
  runs (map f b) (fun t => ok t /\ elements t = f <$> elements b).
Proof.
  induction b as [|l IHl e a s d r IHr]; [apply runs_ret; auto using ok_null |].
  cbn [map]. runs_with IHl. intros l' [Hl' El]. runs_with IHr. intros r' [Hr' Er].
  eapply runs_mono; [apply ok_join; auto |]. intros t [Ht Et].
  split; [exact Ht |]. rewrite Et, El, Er. cbn [elements]. now rewrite fmap_app.
Qed.

Lemma map_filter_ok (f : E1 -> option E) (b : tree E1 A1 B1) :
  runs (map_filter f b) (fun t => ok t /\ elements t = omap f (elements b)).
Proof.
  induction b as [|l IHl e a s d r IHr]; [apply runs_ret; auto using ok_null |].
  cbn [map_filter]. runs_with IHl. intros l' [Hl' El]. runs_with IHr. intros r' [Hr' Er].
  cbn [elements]. rewrite omap_app. cbn. destruct (f e).
  - eapply runs_mono; [apply ok_join; auto |]. intros t [Ht Et].
    split; [exact Ht |]. now rewrite Et, El, Er.
  - eapply runs_mono; [apply join2_ok; auto |]. intros t [Ht Et].
    split; [exact Ht |]. now rewrite Et, El, Er.
Qed.
End SeqMapSpecs.

(** *** Positions: the operations that read the size fields *)
Section Positions.
Context {E A B : Type} `{EntryAug E A, !JoinTree E A B}.
Abbreviation tree := (PamTree.tree E A B).

(** A tree whose sizes are stored and fit the 32-bit field. *)
Definition indexed (t : tree) : Prop :=
  stored t /\ Z.of_nat (length (elements t)) < 2 ^ 32.

Lemma indexed_node l e a s b r :
  indexed (Nd l e a s b r) ->
  indexed l /\ indexed r /\ size l = Z.of_nat (length (elements l))
  /\ size r = Z.of_nat (length (elements r))
  /\ Z.of_nat (length (elements l)) + Z.of_nat (length (elements r)) + 1 < 2 ^ 32.
Proof.
  intros [(_ & _ & Hl & Hr) Hlen]. cbn [elements] in Hlen. rewrite length_app in Hlen.
  cbn [length] in Hlen. unfold indexed. split_and!; auto; try lia; apply size_exact; auto; lia.
Qed.

Lemma select_spec (t : tree) (k : Z) :
  indexed t -> 0 <= k < 2 ^ 64 -> select t k = elements t !! Z.to_nat k.
Proof.
  revert k. induction t as [|l IHl e a s b r IHr]; intros k Hi Hk; [reflexivity |].
  apply indexed_node in Hi as (Hil & Hir & Sl & Sr & Hlen). cbn [select elements].
  rewrite Sl. set (n := length (elements l)) in *.
  destruct (Z.ltb_spec (Z.of_nat n) k).
  - rewrite wrap_small by lia. rewrite IHr by (auto; lia).
    rewrite lookup_app_r by lia. fold n.
    replace (Z.to_nat k - n)%nat with (S (Z.to_nat (k - (Z.of_nat n + 1)))) by lia. reflexivity.
  - destruct (Z.ltb_spec k (Z.of_nat n)).
    + rewrite IHl by (auto; lia). now rewrite lookup_app_l by lia.
    + replace (Z.to_nat k) with n by lia. now rewrite lookup_app_r, Nat.sub_diag by reflexivity.
Qed.

(** Every entry is visited once, with its position. *)
Lemma foreach_index_spec (t : tree) (start : Z) :
  indexed t -> 0 <= start -> start + Z.of_nat (length (elements t)) < 2 ^ 64 ->
  foreach_index t start ≡ₚ
    imap (fun i e => (e, start + Z.of_nat i)) (elements t).
Proof.
  revert start. induction t as [|l IHl e a s b r IHr]; intros start Hi H0 Hlt; [reflexivity |].
  apply indexed_node in Hi as (Hil & Hir & Sl & Sr & Hlen). cbn [foreach_index elements] in *.
  rewrite length_app in Hlt. cbn [length] in Hlt.
  rewrite Sl, !wrap_small by lia. rewrite IHl, IHr by (auto; lia).
  rewrite imap_app. cbn [imap]. rewrite Permutation_middle. f_equiv. f_equiv; [f_equal; lia |].
  erewrite imap_ext; [reflexivity |]. intros i x _. cbn. f_equal. lia.
Qed.
End Positions.

Section Take.
Context {E A B : Type} `{JoinTreeLaws E A B}.

(** From a rank that is past the end, [take] keeps everything. *)
Lemma take_all (t : tree E A B) (k : Z) :
  ok t -> indexed t -> Z.of_nat (length (elements t)) <= k < 2 ^ 64 ->
  runs (take t k) (fun t' => ok t' /\ elements t' = elements t).
Proof.
  revert k. induction t as [|l IHl e a s b r IHr]; intros k Hok Hi Hk.
  - apply runs_ret. auto.
  - apply ok_children in Hok as [Hl Hr].
    apply indexed_node in Hi as (Hil & Hir & Sl & Sr & Hlen). cbn [take elements] in *.
    rewrite length_app in Hk. cbn [length] in Hk.
    rewrite Sl, (proj2 (Z.ltb_ge _ _)), wrap_small by lia.
    eapply runs_bind; [apply IHr; auto; lia |]. intros r' [Hr' Er'].
    eapply runs_mono; [apply ok_join; auto |]. intros t [Ht ->]. now rewrite Er'.
Qed.

(** [take] walks to the entry at the given rank, and there the unsigned
    subtraction [rank - left_size - 1] wraps around: the whole right subtree
    of that entry is kept. *)
Lemma take_below (t : tree E A B) (k : Z) :
  ok t -> indexed t -> 0 <= k < Z.of_nat (length (elements t)) ->
  runs (take t k) (fun t' => ok t' /\ exists m,
    k < Z.of_nat m <= Z.of_nat (length (elements t))
    /\ elements t' = list.take m (elements t)).
Proof.
  revert k. induction t as [|l IHl e a s b r IHr]; intros k Hok Hi Hk; [cbn in Hk; lia |].
  apply ok_children in Hok as [Hl Hr].
  apply indexed_node in Hi as (Hil & Hir & Sl & Sr & Hlen). cbn [take elements] in *.
  rewrite length_app in *. cbn [length] in *. rewrite Sl. set (n := length (elements l)) in *.
  destruct (Z.ltb_spec k (Z.of_nat n)).
  - eapply runs_mono; [apply IHl; auto; lia |]. intros t' (Ht' & m & Hm & Em).
    split; [exact Ht' |]. exists m. split; [lia |]. rewrite Em, take_app_le by lia. reflexivity.
  - destruct (Z.eqb_spec k (Z.of_nat n)) as [-> | Hne].
    + replace (wrap 64 (Z.of_nat n - Z.of_nat n - 1)) with (2 ^ 64 - 1)
        by (rewrite Z.sub_diag; reflexivity).
      eapply runs_bind; [apply take_all; auto; lia |]. intros r' [Hr' Er'].
      eapply runs_mono; [apply ok_join; auto |]. intros t' [Ht' ->].
      split; [exact Ht' |]. exists (length (elements l ++ e :: elements r)).
      rewrite length_app, Er'. cbn [length]. fold n. split; [lia |].
      rewrite take_ge by (rewrite length_app; cbn [length]; lia). reflexivity.
    + rewrite wrap_small by lia.
      eapply runs_bind; [apply IHr; auto; lia |]. intros r' (Hr' & m & Hm & Er').
      eapply runs_mono; [apply ok_join; auto |]. intros t' [Ht' ->].
      split; [exact Ht' |]. exists (n + S m)%nat. split; [lia |].
      rewrite take_app_add', Er' by reflexivity. reflexivity.
Qed.
End Take.
