(* ===== verification/PamOrder.v ===== *)
(** * Keys, sorted sequences of entries and their lookups

    The abstract value of a PAM map is the sorted list of its entries; this file
    holds the theory of such lists that the map operations are specified with.
    [comp] is the strict order [Entry::comp] of map_ops.h.  The code compares
    keys with [comp] only, so that two keys are "equal" when neither is below
    the other; the laws are those of a strict weak order, the requirement of an
    ordered container. *)

From Stdlib Require Import Sorting.Sorted Bool.
From stdpp Require Import base list option.
From S2P Require Import Prelude.

Class KeyOrder (K : Type) := comp : K -> K -> bool.

Class KeyOrderLaws (K : Type) `{KeyOrder K} := {
  comp_irrefl : forall a, comp a a = false;
  comp_trans : forall a b c, comp a b = true -> comp b c = true -> comp a c = true;
  comp_cotrans : forall a b c, comp a c = true -> comp a b = true \/ comp b c = true;
}.

(** Neither key is below the other. *)
Definition keq {K} `{KeyOrder K} (a b : K) : bool := negb (comp a b) && negb (comp b a).

Create HintDb ord.

Section Order.
Context {K : Type} `{KeyOrderLaws K}.
Implicit Types a b c : K.

Lemma comp_asym a b : comp a b = true -> comp b a = false.
Proof.
  intros Hab. destruct (comp b a) eqn:Hba; [|reflexivity].
  pose proof (comp_trans a b a Hab Hba). rewrite comp_irrefl in *. discriminate.
Qed.

Lemma keq_spec a b : keq a b = true <-> comp a b = false /\ comp b a = false.
Proof. unfold keq. rewrite andb_true_iff, !negb_true_iff. reflexivity. Qed.

Lemma keq_refl a : keq a a = true.
Proof. apply keq_spec. now rewrite comp_irrefl. Qed.

Lemma keq_sym a b : keq a b = keq b a.
Proof. unfold keq. apply andb_comm. Qed.

Lemma comp_keq_r a b c : comp a b = true -> keq b c = true -> comp a c = true.
Proof.
  intros Hab [_ Hcb]%keq_spec. destruct (comp_cotrans a c b Hab); [assumption | congruence].
Qed.

Lemma comp_keq_l a b c : keq a b = true -> comp b c = true -> comp a c = true.
Proof.
  intros [_ Hba]%keq_spec Hbc. destruct (comp_cotrans b a c Hbc); [congruence | assumption].
Qed.

Lemma keq_trans a b c : keq a b = true -> keq b c = true -> keq a c = true.
Proof.
  intros Hab Hbc. apply keq_spec. split.
  - destruct (comp a c) eqn:E; [|reflexivity].
    rewrite keq_sym in Hab. pose proof (comp_keq_l b a c Hab E).
    apply keq_spec in Hbc as [? ?]. congruence.
  - destruct (comp c a) eqn:E; [|reflexivity].
    pose proof (comp_keq_r c a b E Hab). apply keq_spec in Hbc as [? ?]. congruence.
Qed.

Lemma comp_not_keq a b : comp a b = true -> keq a b = false.
Proof. intros E. unfold keq. rewrite E. reflexivity. Qed.

Lemma comp_not_keq' a b : comp a b = true -> keq b a = false.
Proof. intros E. rewrite keq_sym. now apply comp_not_keq. Qed.

(** The three outcomes of the two comparisons the code makes. *)
Lemma key_cases a b :
  {comp a b = true /\ comp b a = false /\ keq a b = false}
  + {comp a b = false /\ comp b a = true /\ keq a b = false}
  + {comp a b = false /\ comp b a = false /\ keq a b = true}.
Proof.
  destruct (comp a b) eqn:E1.
  - left; left. pose proof (comp_asym a b E1). auto using comp_not_keq.
  - destruct (comp b a) eqn:E2.
    + left; right. auto using comp_not_keq'.
    + right. rewrite keq_spec. auto.
Qed.
End Order.

(** Decides how two keys compare, and reduces the comparisons of the goal. *)
Ltac key_split a b :=
  destruct (key_cases a b) as [[(E1 & E2 & E3) | (E1 & E2 & E3)] | (E1 & E2 & E3)];
  rewrite ?E1, ?E2, ?E3.

(** The same, for a second comparison. *)
Ltac key_split2 a b :=
  destruct (key_cases a b) as [[(F1 & F2 & F3) | (F1 & F2 & F3)] | (F1 & F2 & F3)];
  rewrite ?F1, ?F2, ?F3.

#[export] Hint Resolve comp_trans comp_keq_r comp_keq_l keq_trans keq_refl comp_asym
  comp_not_keq comp_not_keq' : ord.
#[export] Hint Extern 4 (keq _ _ = true) => rewrite keq_sym; assumption : ord.

(** ** Sorted lists of entries *)

Section Sorted.
Context {K V : Type} `{KeyOrderLaws K}.
Abbreviation E := (K * V)%type.
Implicit Types l : list (K * V).
Implicit Types k : K.

Definition key_lt (x y : E) : Prop := comp x.1 y.1 = true.
Definition sorted (l : list E) : Prop := StronglySorted key_lt l.
Definition below (l : list E) (k : K) : Prop := Forall (fun e => comp e.1 k = true) l.
Definition above (k : K) (l : list E) : Prop := Forall (fun e => comp k e.1 = true) l.

(** The entry of a key, the first one of the list. *)
Definition get (l : list E) (k : K) : option E := List.find (fun e => keq e.1 k) l.

Lemma below_weaken l k k' : below l k -> comp k k' = true -> below l k'.
Proof. intros Hb Hk. eapply Forall_weaken; [exact Hb |]. cbn. eauto with ord. Qed.

Lemma above_weaken l k k' : above k l -> comp k' k = true -> above k' l.
Proof. intros Hb Hk. eapply Forall_weaken; [exact Hb |]. cbn. eauto with ord. Qed.

Lemma below_keq l k k' : below l k -> keq k k' = true -> below l k'.
Proof. intros Hb Hk. eapply Forall_weaken; [exact Hb |]. cbn. eauto with ord. Qed.

Lemma above_keq l k k' : above k l -> keq k k' = true -> above k' l.
Proof. intros Hb Hk. eapply Forall_weaken; [exact Hb |]. cbn. intros e He.
  rewrite keq_sym in Hk. eauto with ord. Qed.

Lemma sorted_middle l1 e l2 :
  sorted (l1 ++ e :: l2) <-> sorted l1 /\ sorted l2 /\ below l1 e.1 /\ above e.1 l2.
Proof.
  unfold sorted, below, above. induction l1 as [|x l1 IH]; cbn [app].
  - split.
    + intros [Hs Hf]%StronglySorted_inv. repeat split; auto; constructor.
    + intros (_ & Hs & _ & Hf). now constructor.
  - split.
    + intros [Hs Hf]%StronglySorted_inv. apply IH in Hs as (H1 & H2 & H3 & H4).
      apply Forall_app in Hf as [Hf1 Hf2]. apply Forall_cons_iff in Hf2 as [He Hf2].
      repeat split; auto; constructor; auto.
    + intros ([H1 Hf]%StronglySorted_inv & H2 & [Hx H3]%Forall_cons_iff & H4).
      constructor; [apply IH; auto |]. apply Forall_app; split; [exact Hf |].
      constructor; [exact Hx |]. eapply Forall_weaken; [exact H4 |].
      unfold key_lt. cbn. eauto with ord.
Qed.

Lemma sorted_nil : sorted [].
Proof. constructor. Qed.

Lemma sorted_app l1 l2 k :
  sorted l1 -> sorted l2 -> below l1 k -> above k l2 -> sorted (l1 ++ l2).
Proof.
  unfold sorted. intros H1 H2 Hb Ha. induction H1 as [|x l1 H1 IH Hf]; [exact H2 |].
  apply Forall_cons_iff in Hb as [Hx Hb]. cbn. constructor; [auto |].
  apply Forall_app; split; [exact Hf |]. eapply Forall_weaken; [exact Ha |].
  unfold key_lt. cbn. eauto with ord.
Qed.

Lemma sorted_app_inv l1 l2 : sorted (l1 ++ l2) -> sorted l1 /\ sorted l2.
Proof.
  unfold sorted. induction l1 as [|x l1 IH]; cbn; intros Hs; [split; [constructor | exact Hs] |].
  apply StronglySorted_inv in Hs as [Hs Hx]. destruct (IH Hs). split; [|assumption].
  constructor; [assumption |]. now apply Forall_app in Hx.
Qed.

(** *** Lookups *)

Lemma get_app l1 l2 k :
  get (l1 ++ l2) k = match get l1 k with Some e => Some e | None => get l2 k end.
Proof.
  unfold get. induction l1 as [|x l1 IH]; [reflexivity |]. cbn.
  destruct (keq x.1 k); [reflexivity | exact IH].
Qed.

Lemma get_cons e l k : get (e :: l) k = if keq e.1 k then Some e else get l k.
Proof. reflexivity. Qed.

Lemma get_none l k : Forall (fun e => keq e.1 k = false) l -> get l k = None.
Proof.
  induction 1 as [|e l He Hl IH]; [reflexivity |]. rewrite get_cons, He. exact IH.
Qed.

Lemma get_below l k k' : below l k -> comp k' k = false -> get l k' = None.
Proof.
  intros Hb Hk. apply get_none. eapply Forall_weaken; [exact Hb |]. intros e He. cbn in He.
  destruct (keq e.1 k') eqn:E; [|reflexivity].
  rewrite keq_sym in E. pose proof (comp_keq_l _ _ _ E He). congruence.
Qed.

Lemma get_above l k k' : above k l -> comp k k' = false -> get l k' = None.
Proof.
  intros Hb Hk. apply get_none. eapply Forall_weaken; [exact Hb |]. intros e He. cbn in He.
  destruct (keq e.1 k') eqn:E; [|reflexivity].
  pose proof (comp_keq_r _ _ _ He E). congruence.
Qed.

Lemma get_some l k e : get l k = Some e -> e ∈ l /\ keq e.1 k = true.
Proof.
  unfold get. intros [Hin Hk]%find_some. split; [now apply list_elem_of_In | exact Hk].
Qed.

Lemma get_elem l e : sorted l -> e ∈ l -> get l e.1 = Some e.
Proof.
  intros Hs Hin. apply list_elem_of_split in Hin as (l1 & l2 & ->).
  apply sorted_middle in Hs as (_ & _ & Hb & _).
  rewrite get_app, (get_below l1 e.1 e.1 Hb), get_cons, keq_refl by apply comp_irrefl.
  reflexivity.
Qed.

Lemma get_keq l k k' : keq k k' = true -> get l k = get l k'.
Proof.
  intros Hk. unfold get. induction l as [|e l IH]; [reflexivity |]. cbn [List.find].
  replace (keq e.1 k) with (keq e.1 k'); [now rewrite IH |].
  destruct (keq e.1 k) eqn:E1, (keq e.1 k') eqn:E2; try reflexivity.
  - rewrite (keq_trans _ _ _ E1 Hk) in E2. discriminate.
  - rewrite keq_sym in Hk. rewrite (keq_trans _ _ _ E2 Hk) in E1. discriminate.
Qed.

(** Bounds on a sorted list are bounds on what it maps. *)
Lemma below_get l k :
  sorted l -> (forall k' e, get l k' = Some e -> comp k' k = true) -> below l k.
Proof.
  intros Hs Hb. apply Forall_forall. intros e Hin%list_elem_of_In. eapply Hb, get_elem; eauto.
Qed.

Lemma above_get l k :
  sorted l -> (forall k' e, get l k' = Some e -> comp k k' = true) -> above k l.
Proof.
  intros Hs Hb. apply Forall_forall. intros e Hin%list_elem_of_In. eapply Hb, get_elem; eauto.
Qed.

Lemma get_below_comp l k k' e : below l k -> get l k' = Some e -> comp k' k = true.
Proof.
  intros Hb Hg. destruct (comp k' k) eqn:E; [reflexivity |].
  rewrite (get_below l k k' Hb E) in Hg. discriminate.
Qed.

Lemma get_above_comp l k k' e : above k l -> get l k' = Some e -> comp k k' = true.
Proof.
  intros Hb Hg. destruct (comp k k') eqn:E; [reflexivity |].
  rewrite (get_above l k k' Hb E) in Hg. discriminate.
Qed.

(** Lookup around a middle entry. *)
Lemma get_middle l1 e l2 k :
  below l1 e.1 -> above e.1 l2 ->
  get (l1 ++ e :: l2) k =
    if comp k e.1 then get l1 k else if comp e.1 k then get l2 k else Some e.
Proof.
  intros Hb Ha. rewrite get_app, get_cons.
  destruct (key_cases k e.1) as [[(E1 & E2 & E3) | (E1 & E2 & E3)] | (E1 & E2 & E3)];
    rewrite E1, ?E2; rewrite keq_sym in E3; rewrite E3.
  - rewrite (get_above l2 e.1 k) by assumption. destruct (get l1 k); reflexivity.
  - now rewrite (get_below l1 e.1 k) by assumption.
  - now rewrite (get_below l1 e.1 k) by assumption.
Qed.

(** Lookup around a separating key that may or may not have an entry. *)
Lemma get_split l1 (o : option (K * V)) l2 k k' :
  below l1 k -> above k l2 -> (forall e, o = Some e -> keq e.1 k = true) ->
  get (l1 ++ option_list o ++ l2) k' =
    if comp k' k then get l1 k' else if comp k k' then get l2 k' else o.
Proof.
  intros Hb Ha He. destruct o as [e|]; cbn [option_list app].
  - specialize (He e eq_refl). pose proof He as He'. rewrite keq_sym in He'.
    rewrite get_middle by eauto using below_keq, above_keq. key_split k' k.
    + now rewrite (comp_keq_r _ _ _ E1 He').
    + pose proof (comp_keq_l _ _ _ He E2) as Hc. now rewrite Hc, (comp_asym _ _ Hc).
    + pose proof (keq_trans _ _ _ E3 He') as Hk. apply keq_spec in Hk as [-> ->]. reflexivity.
  - rewrite get_app. key_split k' k.
    + rewrite (get_above l2 k k') by assumption. destruct (get l1 k'); reflexivity.
    + now rewrite (get_below l1 k k') by assumption.
    + now rewrite (get_below l1 k k'), (get_above l2 k k') by assumption.
Qed.

(** A sorted list is determined by its lookups. *)
Lemma sorted_get_unique l1 l2 :
  sorted l1 -> sorted l2 -> (forall k, get l1 k = get l2 k) -> l1 = l2.
Proof.
  intros H1. revert l2. induction H1 as [|x l1 Hs IH Hf]; intros l2 H2 Hg.
  - destruct l2 as [|y l2]; [reflexivity |]. specialize (Hg y.1).
    rewrite get_cons, keq_refl in Hg. discriminate.
  - destruct l2 as [|y l2].
    { specialize (Hg x.1). rewrite get_cons, keq_refl in Hg. discriminate. }
    apply StronglySorted_inv in H2 as [H2 Hf2].
    assert (Exy : x = y).
    { pose proof (Hg x.1) as Hx. rewrite !get_cons, keq_refl in Hx.
      destruct (keq y.1 x.1) eqn:E; [congruence |].
      pose proof (Hg y.1) as Hy. rewrite !get_cons, keq_refl, keq_sym, E in Hy.
      symmetry in Hx. apply (get_above_comp l2 y.1) in Hx; [|exact Hf2].
      apply (get_above_comp l1 x.1) in Hy; [|exact Hf].
      rewrite (comp_asym _ _ Hx) in Hy. discriminate. }
    subst y. f_equal. apply IH; [exact H2 |]. intros k.
    specialize (Hg k). rewrite !get_cons in Hg. destruct (keq x.1 k) eqn:E; [|exact Hg].
    rewrite (get_above l1 x.1 k), (get_above l2 x.1 k); auto; apply keq_spec in E; tauto.
Qed.
End Sorted.

(** Filtering keeps a list sorted. *)
Lemma sorted_filter {K V} `{KeyOrderLaws K} (f : K * V -> bool) (l : list (K * V)) :
  sorted l -> sorted (List.filter f l).
Proof.
  unfold sorted. induction 1 as [|x l Hs IH Hf]; cbn; [constructor |].
  destruct (f x); [|exact IH]. constructor; [exact IH |].
  rewrite Forall_forall in *. intros y Hy. apply Hf.
  now apply filter_In in Hy.
Qed.
