(* ===== verification/PamMap.v ===== *)
(** * Ordered maps of PAM

    Models src/OLAP/PAM/c++/map_ops.h over the sequence operations (PamSeq) and
    any balancing scheme.  An entry is a key-value pair, [comp] is the strict
    order [Entry::comp] on keys.  As in PamSeq, forks are evaluated one side
    after the other, and the copy flags ([extra_ptr], [copy]) that decide
    whether a node is reused or copied do not change the value that is
    computed; where the code branches on a reference count into different
    functions ([split_inplace]), the count is an argument. *)

From stdpp Require Import base list option.
From Stdlib Require Import ZArith Lia.
From S2P Require Import Prelude PamTree PamSeq PamOrder.
Local Open Scope Z_scope.

Section MapOps.
Context {K V A B : Type} `{KeyOrder K, EntryAug (K * V) A, !JoinTree (K * V) A B}.
Abbreviation E := (K * V)%type.
Abbreviation tree := (tree (K * V) A B).

Definition get_key (e : E) : K := e.1.
Definition get_val (e : E) : V := e.2.
Definition set_val (e : E) (v : V) : E := (e.1, v).

Fixpoint find (b : tree) (key : K) : option E :=
  match b with
  | Null => None
  | Nd l e _ _ _ r =>
      if comp key (get_key e) then find l key
      else if comp (get_key e) key then find r key
      else Some e
  end.

(** The loops of [previous] and [next], with the best node so far. *)
Fixpoint previous_from (b : tree) (key : K) (r : option E) : option E :=
  match b with
  | Null => r
  | Nd bl e _ _ _ br =>
      if comp (get_key e) key then previous_from br key (Some e)
      else previous_from bl key r
  end.
Definition previous (b : tree) (key : K) : option E := previous_from b key None.

Fixpoint next_from (b : tree) (key : K) (r : option E) : option E :=
  match b with
  | Null => r
  | Nd bl e _ _ _ br =>
      if comp key (get_key e) then next_from bl key (Some e)
      else next_from br key r
  end.
Definition next (b : tree) (key : K) : option E := next_from b key None.

Fixpoint rank_from (b : tree) (key : K) (ret : Z) : Z :=
  match b with
  | Null => ret
  | Nd l e _ _ _ r =>
      if comp (get_key e) key then rank_from r key (wrap 64 (ret + (1 + size l)))
      else rank_from l key ret
  end.
Definition rank (b : tree) (key : K) : Z := rank_from b key 0.

(** [split_info]: the two sides and, when [removed], the entry between them. *)
Record split_info := SplitInfo { first : tree; second : tree; entry : option E }.
Definition removed (s : split_info) : bool :=
  match entry s with Some _ => true | None => false end.

Fixpoint split_copy (bst : tree) (e : K) : option split_info :=
  match bst with
  | Null => Some (SplitInfo Null Null None)
  | Nd l m _ _ _ r =>
      if comp (get_key m) e then
        p ← split_copy r e;
        f ← node_join l (first p) m;
        Some (SplitInfo f (second p) (entry p))
      else if comp e (get_key m) then
        p ← split_copy l e;
        s ← node_join (second p) r m;
        Some (SplitInfo (first p) s (entry p))
      else Some (SplitInfo l r (Some m))
  end.

(** [shared i] tells whether the [i]-th node on the search path has
    [ref_cnt > 1]. *)
Fixpoint split_inplace (shared : nat -> bool) (bst : tree) (e : K) : option split_info :=
  match bst with
  | Null => Some (SplitInfo Null Null None)
  | Nd l m _ _ _ r =>
      if shared 0%nat then split_copy bst e
      else if comp (get_key m) e then
        p ← split_inplace (fun i => shared (S i)) r e;
        f ← node_join l (first p) m;
        Some (SplitInfo f (second p) (entry p))
      else if comp e (get_key m) then
        p ← split_inplace (fun i => shared (S i)) l e;
        s ← node_join (second p) r m;
        Some (SplitInfo (first p) s (entry p))
      else Some (SplitInfo l r (Some m))
  end.

Definition split (bst : tree) (e : K) : option split_info :=
  split_inplace (fun _ => false) bst e.

(** [combine_values] on the entry [re] of the node that is kept. *)
Definition combine_values (re e : E) (reverse : bool) (op : V -> V -> V) : E :=
  if reverse then set_val re (op (get_val e) (get_val re))
  else set_val re (op (get_val re) (get_val e)).

Definition update_value (re : E) (op : E -> V) : E := set_val re (op re).

Fixpoint uniont (op : V -> V -> V) (b1 b2 : tree) {struct b2} : option tree :=
  match b1, b2 with
  | Null, _ => Some b2
  | _, Null => Some b1
  | _, Nd l2 e2 _ _ _ r2 =>
      bsts ← split b1 (get_key e2);
      l ← uniont op (first bsts) l2;
      r ← uniont op (second bsts) r2;
      let m := match entry bsts with
               | Some e => combine_values e2 e true op
               | None => e2
               end in
      node_join l r m
  end.

Fixpoint difference (b1 b2 : tree) : option tree :=
  match b1, b2 with
  | Null, _ => Some Null
  | _, Null => Some b1
  | Nd l1 e1 _ _ _ r1, _ =>
      bsts ← split b2 (get_key e1);
      l ← difference l1 (first bsts);
      r ← difference r1 (second bsts);
      if removed bsts then join2 l r else node_join l r e1
  end.

Fixpoint range_root (b : tree) (key_left key_right : K) : tree :=
  match b with
  | Null => Null
  | Nd l e _ _ _ r =>
      if comp key_right (get_key e) then range_root l key_left key_right
      else if comp (get_key e) key_left then range_root r key_left key_right
      else b
  end.

Fixpoint left (b : tree) (e : K) : option tree :=
  match b with
  | Null => Some Null
  | Nd l m _ _ _ r =>
      if comp e (get_key m) then left l e
      else r' ← left r e; node_join l r' m
  end.

Fixpoint right (b : tree) (e : K) : option tree :=
  match b with
  | Null => Some Null
  | Nd l m _ _ _ r =>
      if comp (get_key m) e then right r e
      else l' ← right l e; node_join l' r m
  end.

Definition range (b : tree) (low high : K) : option tree :=
  match range_root b low high with
  | Null => Some Null
  | Nd l e _ _ _ r =>
      l' ← right l low;
      r' ← left r high;
      node_join l' r' e
  end.

Fixpoint left_number (b : tree) (rg : Z) : option tree :=
  match b with
  | Null => Some Null
  | Nd l e _ _ _ r =>
      if rg =? 0 then Some Null
      else if size b <=? rg then Some b
      else
        let x := size l in
        if x <? rg then rtree ← left_number r (wrap 64 (rg - x - 1)); node_join l rtree e
        else left_number l rg
  end.

Fixpoint range_num (b : tree) (low : K) (rg : Z) : option tree :=
  match b with
  | Null => Some Null
  | Nd l e _ _ _ r =>
      if comp (get_key e) low then range_num r low rg
      else
        ltree ← range_num l low rg;
        let x := size ltree in
        if x =? rg then Some ltree
        else rtree ← left_number r (wrap 64 (rg - x - 1)); node_join ltree rtree e
  end.

Section MapReduce.
Context {T : Type} (mp : E -> T) (identity : T) (add : T -> T -> T).

Fixpoint left_number_mr (b : tree) (rg : Z) : T * Z :=
  match b with
  | Null => (identity, 0)
  | Nd l e _ _ _ r =>
      if rg =? 0 then (identity, 0)
      else
        let sz := size b in
        if sz <=? rg then (map_reduce mp identity add b, sz)
        else
          let x := size l in
          if x <? rg then
            let lres := map_reduce mp identity add l in
            let res := add lres (mp e) in
            let '(rres, rn) := left_number_mr r (wrap 64 (rg - x - 1)) in
            (add res rres, wrap 64 (x + 1 + rn))
          else left_number_mr l rg
  end.

Fixpoint range_num_mr (b : tree) (low : K) (rg : Z) : T * Z :=
  match b with
  | Null => (identity, 0)
  | Nd l e _ _ _ r =>
      if comp (get_key e) low then range_num_mr r low rg
      else
        let '(lt, x) := range_num_mr l low rg in
        if x =? rg then (lt, x)
        else
          let '(rt, rn) := left_number_mr r (wrap 64 (rg - x - 1)) in
          (add (add lt (mp e)) rt, wrap 64 (x + 1 + rn))
  end.
End MapReduce.

(** [insert_j] with the join [jn] that rebuilds the path. *)
Fixpoint insert_j (jn : tree -> tree -> E -> option tree) (f : V -> V -> V)
    (b : tree) (e : E) : option tree :=
  match b with
  | Null => Some (single e)
  | Nd l be _ _ _ r =>
      if comp (get_key be) (get_key e) then r' ← insert_j jn f r e; jn l r' be
      else if comp (get_key e) (get_key be) then l' ← insert_j jn f l e; jn l' r be
      else jn l r (combine_values e be true f)
  end.

Definition insert (f : V -> V -> V) (b : tree) (e : E) : option tree :=
  insert_j node_join f b e.

Fixpoint update_j (jn : tree -> tree -> E -> option tree) (f : E -> V)
    (b : tree) (k : K) : option tree :=
  match b with
  | Null => Some Null
  | Nd l be _ _ _ r =>
      if comp (get_key be) k then r' ← update_j jn f r k; jn l r' be
      else if comp k (get_key be) then l' ← update_j jn f l k; jn l' r be
      else jn l r (update_value be f)
  end.

Definition update (f : E -> V) (b : tree) (k : K) : option tree :=
  update_j node_join f b k.

Fixpoint deletet (b : tree) (k : K) : option tree :=
  match b with
  | Null => Some Null
  | Nd l be _ _ _ r =>
      if comp (get_key be) k then r' ← deletet r k; node_join l r' be
      else if comp k (get_key be) then l' ← deletet l k; node_join l' r be
      else join2 l r
  end.
End MapOps.

Arguments split_info : clear implicits.

(** [intersect] reads two trees whose values may have other types. *)
Section Intersect.
Context {K V1 A1 B1 V2 A2 B2 V A B : Type} `{KeyOrder K}.
Context `{!JoinTree (K * V1) A1 B1, EntryAug (K * V) A, !JoinTree (K * V) A B}.

Fixpoint intersect (op : V1 -> V2 -> V) (b1 : tree (K * V1) A1 B1) (b2 : tree (K * V2) A2 B2)
    {struct b2} : option (tree (K * V) A B) :=
  match b1, b2 with
  | Null, _ => Some Null
  | _, Null => Some Null
  | _, Nd l2 e2 _ _ _ r2 =>
      bsts ← split b1 (get_key e2);
      l ← intersect op (first bsts) l2;
      r ← intersect op (second bsts) r2;
      match entry bsts with
      | Some e => node_join l r (get_key e2, op (get_val e) (get_val e2))
      | None => join2 l r
      end
  end.
End Intersect.

(** ** Specifications *)

Section MapSpecs.
Context {K V A B : Type} `{KeyOrderLaws K, JoinTreeLaws (K * V) A B}.
Abbreviation E := (K * V)%type.
Abbreviation tree := (PamTree.tree (K * V) A B).
Implicit Types t : tree.

(** A valid map: a tree of the scheme whose entries are sorted by key. *)
Definition map_inv t : Prop := ok t /\ sorted (elements t).

(** What it maps a key to. *)
Definition lookup_key t (k : K) : option E := get (elements t) k.

Lemma map_inv_null : map_inv Null.
Proof. split; [apply ok_null | constructor]. Qed.

Lemma map_inv_single e : map_inv (single e).
Proof.
  destruct (ok_single e) as [Hok He]. split; [exact Hok |]. rewrite He. repeat constructor.
Qed.

Lemma map_inv_node l e a s b r :
  map_inv (Nd l e a s b r) ->
  map_inv l /\ map_inv r /\ below (elements l) e.1 /\ above e.1 (elements r).
Proof.
  intros [Hok Hs]. apply ok_children in Hok as [Hl Hr].
  cbn [elements] in Hs. apply sorted_middle in Hs as (? & ? & ? & ?). unfold map_inv. auto.
Qed.

Lemma lookup_node l e a s b r k :
  below (elements l) e.1 -> above e.1 (elements r) ->
  lookup_key (Nd l e a s b r) k =
    if comp k e.1 then lookup_key l k else if comp e.1 k then lookup_key r k else Some e.
Proof. apply get_middle. Qed.

(** Joining around an entry that separates the two sides. *)
Lemma join_map_inv l r e :
  map_inv l -> map_inv r -> below (elements l) e.1 -> above e.1 (elements r) ->
  runs (node_join l r e) (fun t => map_inv t /\ elements t = elements l ++ e :: elements r
    /\ forall k, lookup_key t k =
         if comp k e.1 then lookup_key l k else if comp e.1 k then lookup_key r k else Some e).
Proof.
  intros [Hl Sl] [Hr Sr] Hb Ha. eapply runs_mono; [apply ok_join; assumption |].
  intros t [Ht Et]. unfold map_inv, lookup_key. rewrite Et. split_and!; auto.
  - apply sorted_middle. auto.
  - intros k. now apply get_middle.
Qed.

Lemma join2_map_inv l r k0 :
  map_inv l -> map_inv r -> below (elements l) k0 -> above k0 (elements r) ->
  runs (join2 l r) (fun t => map_inv t /\ elements t = elements l ++ elements r
    /\ forall k, lookup_key t k =
         if comp k k0 then lookup_key l k else if comp k0 k then lookup_key r k else None).
Proof.
  intros [Hl Sl] [Hr Sr] Hb Ha. eapply runs_mono; [apply join2_ok; assumption |].
  intros t [Ht Et]. unfold map_inv, lookup_key. rewrite Et. split_and!; auto.
  - eapply sorted_app; eauto.
  - intros k. rewrite get_app.
    key_split k k0.
    + rewrite (get_above (elements r) k0 k) by assumption. destruct (get _ k); reflexivity.
    + now rewrite (get_below (elements l) k0 k) by assumption.
    + now rewrite (get_below (elements l) k0 k), (get_above (elements r) k0 k) by assumption.
Qed.

Lemma find_spec t k : map_inv t -> find t k = lookup_key t k.
Proof.
  induction t as [|l IHl e a s b r IHr]; intros Hi; [reflexivity |].
  apply map_inv_node in Hi as (Hl & Hr & Hb & Ha). rewrite lookup_node by assumption.
  cbn [find]. unfold get_key. rewrite IHl, IHr by assumption. reflexivity.
Qed.

(** *** Split *)

Definition split_spec t (k : K) (s : split_info K V A B) : Prop :=
  map_inv (first s) /\ map_inv (second s)
  /\ below (elements (first s)) k /\ above k (elements (second s))
  /\ (forall e, entry s = Some e -> keq e.1 k = true)
  /\ elements t = elements (first s) ++ option_list (entry s) ++ elements (second s).

Lemma split_inplace_copy shared t k : split_inplace shared t k = split_copy t k.
Proof.
  revert shared. induction t as [|l IHl e a s b r IHr]; intros shared; [reflexivity |].
  cbn [split_inplace]. destruct (shared 0%nat); [reflexivity |].
  cbn [split_copy]. now rewrite IHl, IHr.
Qed.

Lemma split_copy_ok t k : map_inv t -> runs (split_copy t k) (split_spec t k).
Proof.
  induction t as [|l IHl e a s b r IHr]; intros Hi.
  - apply runs_ret. unfold split_spec. cbn.
    split_and!; auto using map_inv_null; try constructor. discriminate.
  - apply map_inv_node in Hi as (Hl & Hr & Hb & Ha). cbn [split_copy elements]. unfold get_key.
    key_split e.1 k.
    + runs_with IHr. intros p (Hf & Hs & Hbp & Hap & He & Ep).
      assert (Ha' : above e.1 (elements (first p)))
        by (rewrite Ep in Ha; now apply Forall_app in Ha).
      eapply runs_bind; [apply join_map_inv; eauto |]. intros f (Hfi & Ef & _).
      apply runs_ret. unfold split_spec. cbn [first second entry elements].
      split_and!; auto.
      * rewrite Ef. apply Forall_app. split; [eapply below_weaken; eauto |].
        constructor; assumption.
      * rewrite Ef, Ep, <- app_assoc. reflexivity.
    + runs_with IHl. intros p (Hf & Hs & Hbp & Hap & He & Ep).
      assert (Hb' : below (elements (second p)) e.1).
      { rewrite Ep in Hb. apply Forall_app in Hb as [_ Hb]. now apply Forall_app in Hb. }
      eapply runs_bind; [apply join_map_inv; eauto |]. intros f (Hfi & Ef & _).
      apply runs_ret. unfold split_spec. cbn [first second entry elements].
      split_and!; auto.
      * rewrite Ef. apply Forall_app. split; [exact Hap |].
        constructor; [exact E2 | eapply above_weaken; eauto].
      * rewrite Ef, Ep, <- !app_assoc. reflexivity.
    + apply runs_ret. unfold split_spec. cbn [first second entry].
      split_and!; auto; [eapply below_keq | eapply above_keq | intros ? [= ->]]; eauto.
Qed.

Lemma split_ok t k : map_inv t -> runs (split t k) (split_spec t k).
Proof. intros Hi. unfold split. rewrite split_inplace_copy. now apply split_copy_ok. Qed.

(** The lookups of a tree, in terms of its two sides. *)
Lemma split_lookup t k s k' :
  split_spec t k s ->
  lookup_key t k' =
    if comp k' k then lookup_key (first s) k'
    else if comp k k' then lookup_key (second s) k' else entry s.
Proof.
  intros (Hf & Hs & Hb & Ha & He & Et). unfold lookup_key. rewrite Et.
  now apply get_split.
Qed.

(** A map all of whose keys come from maps bounded by [k] is bounded by [k]. *)
Lemma below_lookup t k :
  map_inv t -> (forall k', lookup_key t k' <> None -> comp k' k = true) ->
  below (elements t) k.
Proof.
  intros [_ Hs] Hb. apply below_get; [exact Hs |]. intros k' e Hg. apply Hb.
  unfold lookup_key. congruence.
Qed.

Lemma above_lookup t k :
  map_inv t -> (forall k', lookup_key t k' <> None -> comp k k' = true) ->
  above k (elements t).
Proof.
  intros [_ Hs] Hb. apply above_get; [exact Hs |]. intros k' e Hg. apply Hb.
  unfold lookup_key. congruence.
Qed.

Lemma lookup_below t k k' : below (elements t) k -> lookup_key t k' <> None -> comp k' k = true.
Proof.
  intros Hb Hn. unfold lookup_key in Hn. destruct (get _ k') eqn:E; [|congruence].
  eapply get_below_comp; eauto.
Qed.

Lemma lookup_above t k k' : above k (elements t) -> lookup_key t k' <> None -> comp k k' = true.
Proof.
  intros Hb Hn. unfold lookup_key in Hn. destruct (get _ k') eqn:E; [|congruence].
  eapply get_above_comp; eauto.
Qed.
End MapSpecs.

(** What the set operations do to the two entries of a key. *)
Definition union_entry {K V} (op : V -> V -> V) (o1 o2 : option (K * V)) : option (K * V) :=
  match o1, o2 with
  | Some e1, Some e2 => Some (e2.1, op e1.2 e2.2)
  | Some e1, None => Some e1
  | None, _ => o2
  end.

Definition intersect_entry {K V1 V2 V} (op : V1 -> V2 -> V)
    (o1 : option (K * V1)) (o2 : option (K * V2)) : option (K * V) :=
  match o1, o2 with
  | Some e1, Some e2 => Some (e2.1, op e1.2 e2.2)
  | _, _ => None
  end.

Definition difference_entry {K V} (o1 o2 : option (K * V)) : option (K * V) :=
  match o2 with Some _ => None | None => o1 end.

Section SetSpecs.
Context {K V A B : Type} `{KeyOrderLaws K, JoinTreeLaws (K * V) A B}.
Abbreviation tree := (PamTree.tree (K * V) A B).
Implicit Types t : tree.

(** An entry-wise operation on two maps that both stay on one side of [k]
    stays on that side. *)
Lemma op_below t t1 t2 (op : option (K * V) -> option (K * V) -> option (K * V)) k :
  op None None = None -> map_inv t ->
  (forall k', lookup_key t k' = op (lookup_key t1 k') (lookup_key t2 k')) ->
  below (elements t1) k -> below (elements t2) k -> below (elements t) k.
Proof.
  intros Hop Ht Hl M1 M2. apply below_lookup; [exact Ht |]. intros k' Hn.
  rewrite Hl in Hn. destruct (lookup_key t1 k') eqn:E1.
  - eapply (lookup_below t1); [exact M1 | congruence].
  - destruct (lookup_key t2 k') eqn:E2; [|congruence].
    eapply (lookup_below t2); [exact M2 | congruence].
Qed.

Lemma op_above t t1 t2 (op : option (K * V) -> option (K * V) -> option (K * V)) k :
  op None None = None -> map_inv t ->
  (forall k', lookup_key t k' = op (lookup_key t1 k') (lookup_key t2 k')) ->
  above k (elements t1) -> above k (elements t2) -> above k (elements t).
Proof.
  intros Hop Ht Hl M1 M2. apply above_lookup; [exact Ht |]. intros k' Hn.
  rewrite Hl in Hn. destruct (lookup_key t1 k') eqn:E1.
  - eapply (lookup_above t1); [exact M1 | congruence].
  - destruct (lookup_key t2 k') eqn:E2; [|congruence].
    eapply (lookup_above t2); [exact M2 | congruence].
Qed.

Lemma uniont_ok op (b1 b2 : tree) :
  map_inv b1 -> map_inv b2 ->
  runs (uniont op b1 b2) (fun t => map_inv t
    /\ forall k, lookup_key t k = union_entry op (lookup_key b1 k) (lookup_key b2 k)).
Proof.
  revert b1. induction b2 as [|l2 IHl e2 a2 s2 d2 r2 IHr]; intros b1 M1 M2.
  - destruct b1; apply runs_ret; (split; [assumption |]); intros k; [reflexivity |].
    match goal with |- lookup_key ?t k = _ => now destruct (lookup_key t k) end.
  - destruct b1 as [|l1 e1 a1 s1 d1 r1]; [apply runs_ret; auto |].
    set (b1 := Nd l1 e1 a1 s1 d1 r1) in *. cbn [uniont]. fold b1.
    apply map_inv_node in M2 as (Hl2 & Hr2 & Hb2 & Ha2).
    eapply runs_bind; [apply (split_ok b1 (get_key e2) M1) |]. intros s Hs.
    pose proof (fun k' => split_lookup _ _ _ k' Hs) as Hlk.
    destruct Hs as (Hf & Hsn & Hbf & Has & He & _). unfold get_key in *.
    runs_with (IHl (first s)). intros l [Hl Ll]. runs_with (IHr (second s)). intros r [Hr Lr].
    set (m := match entry s with Some e => _ | None => e2 end).
    assert (Em : m.1 = e2.1) by (unfold m; destruct (entry s); reflexivity).
    eapply runs_mono.
    + apply join_map_inv; auto; rewrite Em.
      * eapply (op_below l (first s) l2 (union_entry op)); eauto.
      * eapply (op_above r (second s) r2 (union_entry op)); eauto.
    + intros t (Ht & _ & Lt). split; [exact Ht |]. intros k.
      rewrite Lt, Hlk, lookup_node, Em by assumption. rewrite Ll, Lr.
      key_split k e2.1; try reflexivity. unfold m. destruct (entry s); reflexivity.
Qed.

Lemma difference_ok (b1 b2 : tree) :
  map_inv b1 -> map_inv b2 ->
  runs (difference b1 b2) (fun t => map_inv t
    /\ forall k, lookup_key t k = difference_entry (lookup_key b1 k) (lookup_key b2 k)).
Proof.
  revert b2. induction b1 as [|l1 IHl e1 a1 s1 d1 r1 IHr]; intros b2 M1 M2.
  - destruct b2 as [|l2 e2 a2 s2 d2 r2]; apply runs_ret;
      (split; [assumption || apply map_inv_null |]); intros k; [reflexivity |].
    unfold difference_entry. now destruct (lookup_key (Nd l2 e2 a2 s2 d2 r2) k).
  - destruct b2 as [|l2 e2 a2 s2 d2 r2]; [apply runs_ret; auto |].
    set (b2 := Nd l2 e2 a2 s2 d2 r2) in *. cbn [difference]. fold b2.
    apply map_inv_node in M1 as (Hl1 & Hr1 & Hb1 & Ha1).
    eapply runs_bind; [apply (split_ok b2 (get_key e1) M2) |]. intros s Hs.
    pose proof (fun k' => split_lookup _ _ _ k' Hs) as Hlk.
    destruct Hs as (Hf & Hsn & Hbf & Has & He & _). unfold get_key in *.
    runs_with (IHl (first s)). intros l [Hl Ll]. runs_with (IHr (second s)). intros r [Hr Lr].
    assert (Hbl : below (elements l) e1.1)
      by (eapply (op_below l l1 (first s) difference_entry); eauto).
    assert (Har : above e1.1 (elements r))
      by (eapply (op_above r r1 (second s) difference_entry); eauto).
    unfold removed. destruct (entry s) as [e|] eqn:Ee.
    + eapply runs_mono; [apply (join2_map_inv l r e1.1); auto |].
      intros t (Ht & _ & Lt). split; [exact Ht |]. intros k.
      rewrite Lt, Hlk, lookup_node by assumption. rewrite Ll, Lr. now key_split k e1.1.
    + eapply runs_mono; [apply join_map_inv; auto |].
      intros t (Ht & _ & Lt). split; [exact Ht |]. intros k.
      rewrite Lt, Hlk, lookup_node by assumption. rewrite Ll, Lr. now key_split k e1.1.
Qed.
End SetSpecs.

Section IntersectSpec.
Context {K V1 A1 B1 V2 A2 B2 V A B : Type} `{KeyOrderLaws K}.
Context `{JoinTreeLaws (K * V1) A1 B1, JoinTreeLaws (K * V2) A2 B2, JoinTreeLaws (K * V) A B}.

Lemma intersect_ok (op : V1 -> V2 -> V) (b1 : tree (K * V1) A1 B1) (b2 : tree (K * V2) A2 B2) :
  map_inv b1 -> map_inv b2 ->
  runs (intersect op b1 b2) (fun t : tree (K * V) A B => map_inv t
    /\ forall k, lookup_key t k = intersect_entry op (lookup_key b1 k) (lookup_key b2 k)).
Proof.
  revert b1. induction b2 as [|l2 IHl e2 a2 s2 d2 r2 IHr]; intros b1 M1 M2.
  - destruct b1 as [|l1 e1 a1 s1 d1 r1]; apply runs_ret;
      (split; [apply map_inv_null |]); intros k; [reflexivity |].
    unfold intersect_entry. now destruct (lookup_key (Nd l1 e1 a1 s1 d1 r1) k).
  - destruct b1 as [|l1 e1 a1 s1 d1 r1].
    { apply runs_ret. split; [apply map_inv_null | reflexivity]. }
    set (b1 := Nd l1 e1 a1 s1 d1 r1) in *. cbn [intersect]. fold b1.
    apply map_inv_node in M2 as (Hl2 & Hr2 & Hb2 & Ha2).
    eapply runs_bind; [apply (split_ok b1 (get_key e2) M1) |]. intros s Hs.
    pose proof (fun k' => split_lookup _ _ _ k' Hs) as Hlk.
    destruct Hs as (Hf & Hsn & Hbf & Has & He & _). unfold get_key, get_val in *.
    runs_with (IHl (first s)). intros l [Hl Ll]. runs_with (IHr (second s)). intros r [Hr Lr].
    assert (Hbl : below (elements l) e2.1).
    { apply below_lookup; [exact Hl |]. intros k' Hn. rewrite Ll in Hn.
      apply (lookup_below l2); [exact Hb2 |]. intros E. rewrite E in Hn.
      destruct (lookup_key (first s) k'); contradiction. }
    assert (Har : above e2.1 (elements r)).
    { apply above_lookup; [exact Hr |]. intros k' Hn. rewrite Lr in Hn.
      apply (lookup_above r2); [exact Ha2 |]. intros E. rewrite E in Hn.
      destruct (lookup_key (second s) k'); contradiction. }
    destruct (entry s) as [e|] eqn:Ee.
    + eapply runs_mono; [apply join_map_inv; auto |].
      intros t (Ht & _ & Lt). split; [exact Ht |]. intros k.
      rewrite Lt, Hlk, lookup_node by assumption. rewrite Ll, Lr. cbn [fst]. now key_split k e2.1.
    + eapply runs_mono; [apply (join2_map_inv l r e2.1); auto |].
      intros t (Ht & _ & Lt). split; [exact Ht |]. intros k.
      rewrite Lt, Hlk, lookup_node by assumption. rewrite Ll, Lr. now key_split k e2.1.
Qed.
End IntersectSpec.

Section PointSpecs.
Context {K V A B : Type} `{KeyOrderLaws K, JoinTreeLaws (K * V) A B}.
Abbreviation tree := (PamTree.tree (K * V) A B).
Implicit Types t : tree.

(** A point operation: [t'] is [t] with the entry of [k0] replaced by what
    [res] makes of it. *)
Definition point t (k0 : K) (res : option (K * V) -> option (K * V)) t' : Prop :=
  map_inv t' /\ forall k, lookup_key t' k =
    if keq k0 k then res (lookup_key t k0) else lookup_key t k.

(** The operation went down to the right: the path is rebuilt by a join. *)
Lemma point_right l be a s b r k0 res r' :
  map_inv (Nd l be a s b r) -> comp be.1 k0 = true -> point r k0 res r' ->
  runs (node_join l r' be) (point (Nd l be a s b r) k0 res).
Proof.
  intros Hi E1 [Hr' Lr']. apply map_inv_node in Hi as (Hl & Hr & Hb & Ha).
  eapply runs_mono; [apply join_map_inv; auto |].
  - apply above_lookup; [exact Hr' |]. intros k'. rewrite Lr'.
    destruct (keq k0 k') eqn:Ek; [eauto with ord | now apply lookup_above].
  - intros t' (Ht' & _ & Lt'). split; [exact Ht' |]. intros k.
    rewrite Lt', !lookup_node, E1, (comp_asym _ _ E1), Lr' by assumption.
    destruct (keq k0 k) eqn:Ek; [|reflexivity].
    now rewrite (comp_keq_r _ _ _ E1 Ek), (comp_asym _ _ (comp_keq_r _ _ _ E1 Ek)).
Qed.

Lemma point_left l be a s b r k0 res l' :
  map_inv (Nd l be a s b r) -> comp k0 be.1 = true -> point l k0 res l' ->
  runs (node_join l' r be) (point (Nd l be a s b r) k0 res).
Proof.
  intros Hi E1 [Hl' Ll']. apply map_inv_node in Hi as (Hl & Hr & Hb & Ha).
  eapply runs_mono; [apply join_map_inv; auto |].
  - apply below_lookup; [exact Hl' |]. intros k'. rewrite Ll'.
    destruct (keq k0 k') eqn:Ek; [|now apply lookup_below].
    rewrite keq_sym in Ek. eauto with ord.
  - intros t' (Ht' & _ & Lt'). split; [exact Ht' |]. intros k.
    rewrite Lt', !lookup_node, E1, Ll' by assumption.
    destruct (keq k0 k) eqn:Ek; [|reflexivity]. rewrite keq_sym in Ek.
    now rewrite (comp_keq_l _ _ _ Ek E1).
Qed.

(** The node of the key itself, which holds [e'] afterwards or is removed. *)
Lemma point_here l be a s b r k0 res :
  map_inv (Nd l be a s b r) -> keq be.1 k0 = true ->
  (forall e', res (Some be) = Some e' -> keq e'.1 k0 = true) ->
  runs (match res (Some be) with Some e' => node_join l r e' | None => join2 l r end)
    (point (Nd l be a s b r) k0 res).
Proof.
  intros Hi E3 Hres. apply map_inv_node in Hi as (Hl & Hr & Hb & Ha).
  assert (Hk0 : lookup_key (Nd l be a s b r) k0 = Some be).
  { rewrite lookup_node by assumption. rewrite keq_sym in E3.
    apply keq_spec in E3 as [-> ->]. reflexivity. }
  assert (Hlk : forall k k1, keq k1 k0 = true -> keq k0 k = false ->
    (if comp k k1 then lookup_key l k else if comp k1 k then lookup_key r k else None)
    = lookup_key (Nd l be a s b r) k).
  { intros k k1 Hk1 Hk. rewrite lookup_node by assumption.
    pose proof (keq_trans _ _ _ Hk1 ltac:(rewrite keq_sym; exact E3)) as Hk1b.
    rewrite keq_sym in Hk. key_split2 k k1.
    - now rewrite (comp_keq_r _ _ _ F1 Hk1b).
    - rewrite keq_sym in Hk1b. pose proof (comp_keq_l _ _ _ Hk1b F2) as Hc.
      now rewrite Hc, (comp_asym _ _ Hc).
    - rewrite (keq_trans _ _ _ F3 Hk1) in Hk. discriminate. }
  destruct (res (Some be)) as [e'|] eqn:Er.
  - specialize (Hres e' eq_refl).
    pose proof (keq_trans _ _ _ E3 ltac:(rewrite keq_sym; exact Hres)) as Hbe.
    eapply runs_mono; [apply join_map_inv; auto; [eapply below_keq | eapply above_keq]; eauto |].
    intros t' (Ht' & _ & Lt'). split; [exact Ht' |]. intros k. rewrite Lt', Hk0, Er.
    destruct (keq k0 k) eqn:Ek.
    + pose proof (keq_trans _ _ _ Hres Ek) as Hk. rewrite keq_sym in Hk.
      apply keq_spec in Hk as [-> ->]. reflexivity.
    + rewrite <- (Hlk k e'.1 Hres Ek). key_split2 k e'.1; try reflexivity.
      rewrite keq_sym, (keq_trans _ _ _ F3 Hres) in Ek. discriminate.
  - eapply runs_mono; [apply (join2_map_inv l r be.1); auto |].
    intros t' (Ht' & _ & Lt'). split; [exact Ht' |]. intros k. rewrite Lt', Hk0, Er.
    destruct (keq k0 k) eqn:Ek; [|now apply Hlk].
    pose proof (keq_trans _ _ _ E3 Ek) as Hk. rewrite keq_sym in Hk.
    apply keq_spec in Hk as [-> ->]. reflexivity.
Qed.

(** The entry that [insert] leaves at the key of [e]. *)
Definition inserted (f : V -> V -> V) (e : K * V) (old : option (K * V)) : option (K * V) :=
  Some (match old with Some o => (e.1, f o.2 e.2) | None => e end).

Lemma insert_ok f t e : map_inv t -> runs (insert f t e) (point t e.1 (inserted f e)).
Proof.
  unfold insert. induction t as [|l IHl be a s b r IHr]; intros Hi.
  - apply runs_ret. split; [apply map_inv_single |]. intros k.
    unfold lookup_key. rewrite (proj2 (ok_single e)). reflexivity.
  - pose proof (map_inv_node _ _ _ _ _ _ Hi) as (Hl & Hr & _). cbn [insert_j]. unfold get_key.
    key_split be.1 e.1.
    + runs_with IHr. intros r' Hr'. now apply point_right.
    + runs_with IHl. intros l' Hl'. now apply point_left.
    + apply (point_here l be a s b r e.1 (inserted f e) Hi E3).
      intros e' [= <-]. apply keq_refl.
Qed.

Definition updated (f : K * V -> V) (old : option (K * V)) : option (K * V) :=
  (fun o => (o.1, f o)) <$> old.

Lemma update_ok f t k0 : map_inv t -> runs (update f t k0) (point t k0 (updated f)).
Proof.
  unfold update. induction t as [|l IHl be a s b r IHr]; intros Hi.
  - apply runs_ret. split; [apply map_inv_null |]. intros k. cbn. now destruct (keq k0 k).
  - pose proof (map_inv_node _ _ _ _ _ _ Hi) as (Hl & Hr & _). cbn [update_j]. unfold get_key.
    key_split be.1 k0.
    + runs_with IHr. intros r' Hr'. now apply point_right.
    + runs_with IHl. intros l' Hl'. now apply point_left.
    + apply (point_here l be a s b r k0 (updated f) Hi E3). intros e' [= <-]. exact E3.
Qed.

Lemma deletet_ok t k0 : map_inv t -> runs (deletet t k0) (point t k0 (fun _ => None)).
Proof.
  induction t as [|l IHl be a s b r IHr]; intros Hi.
  - apply runs_ret. split; [apply map_inv_null |]. intros k. cbn. now destruct (keq k0 k).
  - pose proof (map_inv_node _ _ _ _ _ _ Hi) as (Hl & Hr & _). cbn [deletet]. unfold get_key.
    key_split be.1 k0.
    + runs_with IHr. intros r' Hr'. now apply point_right.
    + runs_with IHl. intros l' Hl'. now apply point_left.
    + apply (point_here l be a s b r k0 (fun _ => None) Hi E3). discriminate.
Qed.
End PointSpecs.
