(* ===== verification/PamRange.v ===== *)
(** * Ranges and order statistics of PAM maps

    Specifications of the operations of map_ops.h (defined in PamMap) that
    select entries by key range or by position: [left], [right], [range],
    [left_number], [range_num] and its map-reduce variant, [previous], [next],
    [rank], [select]. *)

From Stdlib Require Import ZArith Lia.
From stdpp Require Import base list option.
From S2P Require Import Prelude PamTree PamSeq PamOrder PamMap.
Local Open Scope Z_scope.

(** The keys at or above a key, at or below a key, and in a closed range. *)
Definition from_key {K V} `{KeyOrder K} (lo : K) (e : K * V) : bool := negb (comp e.1 lo).
Definition to_key {K V} `{KeyOrder K} (hi : K) (e : K * V) : bool := negb (comp hi e.1).
Definition in_range {K V} `{KeyOrder K} (lo hi : K) (e : K * V) : bool :=
  from_key lo e && to_key hi e.

Section Ranges.
Context {K V A B : Type} `{KeyOrderLaws K, JoinTreeLaws (K * V) A B}.
Abbreviation tree := (PamTree.tree (K * V) A B).
Implicit Types t : tree.
Implicit Types es : list (K * V).

Lemma not_comp_trans (a b c : K) : comp b a = false -> comp b c = true -> comp a c = true.
Proof. intros Hba Hbc. destruct (comp_cotrans b a c Hbc); congruence. Qed.

Lemma not_comp_trans' (a b c : K) : comp b a = false -> comp c a = true -> comp c b = true.
Proof. intros Hba Hca. destruct (comp_cotrans c b a Hca); congruence. Qed.

(** A bound decides the filters of a whole side. *)
Lemma below_to_key es k hi : below es k -> comp hi k = false ->
  List.filter (to_key hi) es = es.
Proof.
  intros Hb Hh. apply filter_all. eapply Forall_weaken; [exact Hb |]. cbn. intros e He.
  unfold to_key. rewrite (comp_asym e.1 hi); [reflexivity |]. eapply not_comp_trans'; eauto.
Qed.

Lemma above_to_key es k hi : above k es -> comp hi k = true ->
  List.filter (to_key hi) es = [].
Proof.
  intros Hb Hh. apply filter_none. eapply Forall_weaken; [exact Hb |]. cbn. intros e He.
  unfold to_key. now rewrite (comp_trans _ _ _ Hh He).
Qed.

Lemma above_from_key es k lo : above k es -> comp k lo = false ->
  List.filter (from_key lo) es = es.
Proof.
  intros Hb Hh. apply filter_all. eapply Forall_weaken; [exact Hb |]. cbn. intros e He.
  unfold from_key. rewrite (comp_asym lo e.1); [reflexivity |]. eapply not_comp_trans; eauto.
Qed.

Lemma below_from_key es k lo : below es k -> comp k lo = true ->
  List.filter (from_key lo) es = [].
Proof.
  intros Hb Hh. apply filter_none. eapply Forall_weaken; [exact Hb |]. cbn. intros e He.
  unfold from_key. now rewrite (comp_trans _ _ _ He Hh).
Qed.

Lemma left_ok t k :
  map_inv t -> runs (left t k) (fun t' => map_inv t'
    /\ elements t' = List.filter (to_key k) (elements t)).
Proof.
  induction t as [|l IHl m a s b r IHr]; intros Hi; [apply runs_ret; auto |].
  apply map_inv_node in Hi as (Hl & Hr & Hb & Ha). cbn [left elements]. unfold get_key.
  rewrite filter_app_cons. unfold to_key at 2. destruct (comp k m.1) eqn:E; cbn [negb app].
  - rewrite (above_to_key _ _ _ Ha E), app_nil_r. auto.
  - runs_with IHr. intros r' [Hr' Er']. eapply runs_mono; [apply join_map_inv; auto |].
    + rewrite Er'. now apply Forall_filter.
    + intros t' (Ht' & -> & _). split; [exact Ht' |].
      now rewrite Er', (below_to_key _ _ _ Hb E).
Qed.

Lemma right_ok t k :
  map_inv t -> runs (right t k) (fun t' => map_inv t'
    /\ elements t' = List.filter (from_key k) (elements t)).
Proof.
  induction t as [|l IHl m a s b r IHr]; intros Hi; [apply runs_ret; auto |].
  apply map_inv_node in Hi as (Hl & Hr & Hb & Ha). cbn [right elements]. unfold get_key.
  rewrite filter_app_cons. unfold from_key at 2. destruct (comp m.1 k) eqn:E; cbn [negb app].
  - rewrite (below_from_key _ _ _ Hb E). auto.
  - runs_with IHl. intros l' [Hl' El']. eapply runs_mono; [apply join_map_inv; auto |].
    + rewrite El'. now apply Forall_filter.
    + intros t' (Ht' & -> & _). split; [exact Ht' |].
      now rewrite El', (above_from_key _ _ _ Ha E).
Qed.

(** [range_root] finds the highest node in the range; nothing of the range is
    outside its subtree. *)
Lemma range_root_spec t lo hi :
  map_inv t ->
  map_inv (range_root t lo hi)
  /\ List.filter (in_range lo hi) (elements t)
     = List.filter (in_range lo hi) (elements (range_root t lo hi))
  /\ match range_root t lo hi with
     | Null => True
     | Nd _ e _ _ _ _ => comp hi e.1 = false /\ comp e.1 lo = false
     end.
Proof.
  induction t as [|l IHl e a s b r IHr]; intros Hi; [split_and!; (exact Hi || exact I || reflexivity) |].
  pose proof (map_inv_node _ _ _ _ _ _ Hi) as (Hl & Hr & Hb & Ha).
  cbn [range_root]. unfold get_key. destruct (comp hi e.1) eqn:Eh.
  - destruct (IHl Hl) as (? & Ef & ?). split_and!; auto.
    rewrite <- Ef. cbn [elements]. rewrite filter_app_cons.
    unfold in_range at 2, to_key. rewrite Eh, andb_false_r. cbn [negb app].
    rewrite (filter_none _ (elements r)), app_nil_r; [reflexivity |].
    eapply Forall_weaken; [exact Ha |]. cbn. intros x Hx. unfold in_range, to_key.
    now rewrite (comp_trans _ _ _ Eh Hx), andb_false_r.
  - destruct (comp e.1 lo) eqn:El; [|auto].
    destruct (IHr Hr) as (? & Ef & ?). split_and!; auto.
    rewrite <- Ef. cbn [elements]. rewrite filter_app_cons.
    unfold in_range at 2, from_key. rewrite El. cbn [negb app andb].
    rewrite (filter_none _ (elements l)); [reflexivity |].
    eapply Forall_weaken; [exact Hb |]. cbn. intros x Hx. unfold in_range, from_key.
    now rewrite (comp_trans _ _ _ Hx El).
Qed.

(** Inside the subtree of the range root, one bound decides each side. *)
Lemma in_range_left es e lo hi :
  below es e -> comp hi e = false ->
  List.filter (in_range lo hi) es = List.filter (from_key lo) es.
Proof.
  intros Hb Hh. apply filter_ext_Forall. eapply Forall_weaken; [exact Hb |]. cbn. intros x Hx.
  unfold in_range, to_key. rewrite (comp_asym x.1 hi); [apply andb_true_r |].
  eapply not_comp_trans'; eauto.
Qed.

Lemma in_range_right es e lo hi :
  above e es -> comp e lo = false ->
  List.filter (in_range lo hi) es = List.filter (to_key hi) es.
Proof.
  intros Hb Hh. apply filter_ext_Forall. eapply Forall_weaken; [exact Hb |]. cbn. intros x Hx.
  unfold in_range, from_key. rewrite (comp_asym lo x.1); [reflexivity |].
  eapply not_comp_trans; eauto.
Qed.

(** The entries of the range, around the entry of the range root. *)
Lemma range_elements t lo hi :
  map_inv t ->
  List.filter (in_range lo hi) (elements t) =
    match range_root t lo hi with
    | Null => []
    | Nd l e _ _ _ r =>
        List.filter (from_key lo) (elements l) ++ e :: List.filter (to_key hi) (elements r)
    end.
Proof.
  intros Hi. destruct (range_root_spec t lo hi Hi) as (Hr & -> & He).
  destruct (range_root t lo hi) as [|l e a s b r]; [reflexivity |]. destruct He as [Eh El].
  apply map_inv_node in Hr as (_ & _ & Hb & Ha). cbn [elements]. rewrite filter_app_cons.
  rewrite (in_range_left _ _ _ _ Hb Eh), (in_range_right _ _ _ _ Ha El).
  unfold in_range, from_key, to_key at 1. now rewrite Eh, El.
Qed.

Lemma range_ok t lo hi :
  map_inv t -> runs (range t lo hi) (fun t' => map_inv t'
    /\ elements t' = List.filter (in_range lo hi) (elements t)).
Proof.
  intros Hi. unfold range. rewrite (range_elements t lo hi Hi).
  destruct (range_root_spec t lo hi Hi) as (Hr & _ & He).
  destruct (range_root t lo hi) as [|l e a s b r]; [apply runs_ret; auto |].
  apply map_inv_node in Hr as (Hl & Hr & Hb & Ha).
  eapply runs_bind; [apply right_ok; exact Hl |]. intros l' [Hl' El'].
  eapply runs_bind; [apply left_ok; exact Hr |]. intros r' [Hr' Er'].
  eapply runs_mono; [apply join_map_inv; auto; rewrite ?El', ?Er'; now apply Forall_filter |].
  intros t' (Ht' & -> & _). now rewrite El', Er'.
Qed.
End Ranges.

Section OrderStatistics.
Context {K V A B : Type} `{KeyOrderLaws K, JoinTreeLaws (K * V) A B}.
Abbreviation tree := (PamTree.tree (K * V) A B).
Implicit Types t : tree.
Implicit Types es : list (K * V).

Definition before (k : K) (e : K * V) : bool := comp e.1 k.
Definition after (k : K) (e : K * V) : bool := comp k e.1.

(** One comparison decides [before] on the side it points away from. *)
Lemma below_before es m k : below es m -> comp m k = true -> List.filter (before k) es = es.
Proof.
  intros Hb Hm. apply filter_all. eapply Forall_weaken; [exact Hb |]. unfold before, after. cbn. eauto with ord.
Qed.

Lemma above_before es m k : above m es -> comp m k = false -> List.filter (before k) es = [].
Proof.
  intros Hb Hm. apply filter_none. eapply Forall_weaken; [exact Hb |]. cbn. intros x Hx.
  unfold before. destruct (comp x.1 k) eqn:E; [|reflexivity].
  rewrite (comp_trans _ _ _ Hx E) in Hm. discriminate.
Qed.

Lemma above_after es m k : above m es -> comp k m = true -> List.filter (after k) es = es.
Proof.
  intros Hb Hm. apply filter_all. eapply Forall_weaken; [exact Hb |]. unfold before, after. cbn. eauto with ord.
Qed.

Lemma below_after es m k : below es m -> comp k m = false -> List.filter (after k) es = [].
Proof.
  intros Hb Hm. apply filter_none. eapply Forall_weaken; [exact Hb |]. cbn. intros x Hx.
  unfold after. destruct (comp k x.1) eqn:E; [|reflexivity].
  rewrite (comp_trans _ _ _ E Hx) in Hm. discriminate.
Qed.

(** [previous] is the last entry below the key. *)
Lemma previous_ok t k : map_inv t -> previous t k = list.last (List.filter (before k) (elements t)).
Proof.
  intros Hi. unfold previous.
  assert (Hg : forall d, previous_from t k d =
    match list.last (List.filter (before k) (elements t)) with Some e => Some e | None => d end).
  { induction t as [|l IHl e a s b r IHr]; intros d; [reflexivity |].
    apply map_inv_node in Hi as (Hl & Hr & Hb & Ha). cbn [previous_from elements].
    rewrite filter_app_cons. unfold before at 2, get_key. destruct (comp e.1 k) eqn:E.
    - rewrite (IHr Hr). cbn [app]. rewrite last_app_cons, last_cons.
      destruct (list.last (List.filter (before k) (elements r))); reflexivity.
    - rewrite (above_before _ _ _ Ha E), !app_nil_r. now apply IHl. }
  rewrite Hg. destruct (list.last _); reflexivity.
Qed.

(** [next] is the first entry above the key. *)
Lemma next_ok t k : map_inv t -> next t k = list.head (List.filter (after k) (elements t)).
Proof.
  intros Hi. unfold next.
  assert (Hg : forall d, next_from t k d =
    match list.head (List.filter (after k) (elements t)) with Some e => Some e | None => d end).
  { induction t as [|l IHl e a s b r IHr]; intros d; [reflexivity |].
    apply map_inv_node in Hi as (Hl & Hr & Hb & Ha). cbn [next_from elements].
    rewrite filter_app_cons. unfold after at 2, get_key. destruct (comp k e.1) eqn:E.
    - rewrite (IHl Hl). destruct (List.filter (after k) (elements l)); reflexivity.
    - rewrite (below_after _ _ _ Hb E). now apply IHr. }
  rewrite Hg. destruct (list.head _); reflexivity.
Qed.

(** [rank] counts the entries below the key. *)
Lemma rank_ok t k : map_inv t -> indexed t ->
  rank t k = Z.of_nat (length (List.filter (before k) (elements t))).
Proof.
  intros Hi Hx. unfold rank.
  assert (Hg : forall ret, 0 <= ret -> ret + Z.of_nat (length (elements t)) < 2 ^ 64 ->
    rank_from t k ret = ret + Z.of_nat (length (List.filter (before k) (elements t)))).
  { induction t as [|l IHl e a s b r IHr]; intros ret Hret Hlt; [cbn; lia |].
    apply map_inv_node in Hi as (Hl & Hr & Hb & Ha).
    apply indexed_node in Hx as (Xl & Xr & Sl & Sr & Hlen). cbn [rank_from elements] in *.
    rewrite length_app in Hlt. cbn [length] in Hlt.
    rewrite filter_app_cons. unfold before at 2, get_key. destruct (comp e.1 k) eqn:E.
    - rewrite Sl, wrap_small by lia. rewrite (IHr Hr Xr) by lia.
      rewrite (below_before _ _ _ Hb E), !length_app. cbn [length]. lia.
    - rewrite (IHl Hl Xl) by lia. rewrite (above_before _ _ _ Ha E), !app_nil_r. reflexivity. }
  destruct Hx as [_ Hx]. rewrite Hg; lia.
Qed.

Lemma left_number_ok t n :
  ok t -> indexed t -> 0 <= n < 2 ^ 64 ->
  runs (left_number t n) (fun t' => ok t' /\ elements t' = list.take (Z.to_nat n) (elements t)).
Proof.
  revert n. induction t as [|l IHl e a s b r IHr]; intros n Hok Hx Hn.
  - apply runs_ret. split; [exact Hok |]. cbn [elements List.filter]. now rewrite take_nil.
  - pose proof (ok_children _ _ _ _ _ _ Hok) as [Hl Hr].
    pose proof (indexed_node _ _ _ _ _ _ Hx) as (Xl & Xr & Sl & Sr & Hlen).
    assert (Sb : size (Nd l e a s b r) = Z.of_nat (length (elements (Nd l e a s b r))))
      by (apply size_exact; apply Hx).
    cbn [left_number]. rewrite Sb, Sl. destruct (Z.eqb_spec n 0) as [-> |].
    + apply runs_ret. split; [apply ok_null | reflexivity].
    + destruct (Z.leb_spec (Z.of_nat (length (elements (Nd l e a s b r)))) n).
      * apply runs_ret. split; [exact Hok |]. now rewrite take_ge by lia.
      * cbn [elements] in *. rewrite length_app in *. cbn [length] in *.
        destruct (Z.ltb_spec (Z.of_nat (length (elements l))) n).
        -- rewrite wrap_small by lia.
           eapply runs_bind; [apply IHr; auto; lia |]. intros r' [Hr' Er'].
           eapply runs_mono; [apply ok_join; auto |]. intros t' [Ht' ->].
           split; [exact Ht' |]. rewrite Er'.
           replace (Z.to_nat n) with
             (length (elements l) + S (Z.to_nat (n - Z.of_nat (length (elements l)) - 1)))%nat
             by lia.
           now rewrite take_app_add.
        -- eapply runs_mono; [apply IHl; auto; lia |]. intros t' [Ht' ->].
           split; [exact Ht' |]. now rewrite take_app_le by lia.
Qed.

(** [range_num(b, low, n)]: the first [n] entries at or above [low]. *)
Lemma range_num_ok t low n :
  map_inv t -> indexed t -> 0 <= n < 2 ^ 64 ->
  runs (range_num t low n) (fun t' => ok t'
    /\ elements t' = list.take (Z.to_nat n) (List.filter (from_key low) (elements t))).
Proof.
  induction t as [|l IHl e a s b r IHr]; intros Hi Hx Hn.
  - apply runs_ret. split; [apply ok_null |]. cbn [elements List.filter]. now rewrite take_nil.
  - apply map_inv_node in Hi as (Hl & Hr & Hb & Ha).
    apply indexed_node in Hx as (Xl & Xr & Sl & Sr & Hlen).
    cbn [range_num elements]. rewrite filter_app_cons. unfold from_key at 2, get_key.
    destruct (comp e.1 low) eqn:E; cbn [negb app].
    + rewrite (below_from_key _ _ _ Hb E). auto.
    + rewrite (above_from_key _ _ _ Ha E). set (fl := List.filter (from_key low) (elements l)).
      assert (Hfl : (length fl <= length (elements l))%nat) by apply filter_length_le.
      runs_with IHl. intros lt [Hlt Elt]. fold fl in Elt.
      assert (Slt : size lt = Z.of_nat (Nat.min (Z.to_nat n) (length fl))).
      { rewrite size_exact, Elt, length_take; [reflexivity | now apply ok_stored |].
        rewrite Elt, length_take. lia. }
      rewrite Slt. destruct (Z.eqb_spec (Z.of_nat (Nat.min (Z.to_nat n) (length fl))) n).
      * apply runs_ret. split; [exact Hlt |]. rewrite Elt. now rewrite take_app_le by lia.
      * rewrite wrap_small by lia.
        eapply runs_bind; [apply left_number_ok; auto; [apply Hr | lia] |].
        intros rt [Hrt Ert]. eapply runs_mono; [apply ok_join; auto |]. intros t' [Ht' ->].
        split; [exact Ht' |]. rewrite Elt, Ert.
        replace (Z.to_nat n) with (length fl + S (Z.to_nat (n - Z.of_nat (length fl) - 1)))%nat
          at 3 by lia.
        rewrite take_app_add, take_ge by lia. cbn [list.take]. do 4 f_equal. lia.
Qed.
End OrderStatistics.
