(* ===== verification/PamMulti.v ===== *)
(** * Bulk operations of PAM maps

    Models the array searches and the [multi_*_sorted] operations of
    src/OLAP/PAM/c++/map_ops.h (and pbbslib/binary_search.h, whose
    [binary_search] is the same loop), which insert, delete, update or look up
    a whole sorted array at once; the OLAP tables are built with them. *)

From stdpp Require Import base list option.
From Stdlib Require Import ZArith Lia Sorting.Sorted.
From S2P Require Import Prelude PamTree PamSeq PamOrder PamMap.

(** ** Searching a sorted array *)

Section Search.
Context {X : Type} (less : X -> bool).

Fixpoint linear_search (xs : list X) : nat :=
  match xs with
  | [] => 0
  | x :: xs => if negb (less x) then 0 else S (linear_search xs)
  end.

Definition binary_search_base : nat := 16.

(** The halving loop on the interval [start, finish). *)
Fixpoint binary_search_loop (fuel : nat) (xs : list X) (start finish : nat) :
    option (nat * nat) :=
  if binary_search_base <? finish - start then
    match fuel with
    | O => None
    | S fuel =>
        let mid := (finish + start) / 2 in
        x ← xs !! mid;
        if negb (less x) then binary_search_loop fuel xs start mid
        else binary_search_loop fuel xs (mid + 1) finish
    end
  else Some (start, finish).

Definition binary_search (xs : list X) : option nat :=
  p ← binary_search_loop (length xs) xs 0 (length xs);
  Some (p.1 + linear_search (list.take (p.2 - p.1) (drop p.1 xs))).

(** [m] is where [less] turns from true to false. *)
Definition turns (xs : list X) (m : nat) : Prop :=
  m <= length xs
  /\ Forall (fun x => less x = true) (list.take m xs)
  /\ Forall (fun x => less x = false) (drop m xs).

Lemma turns_lookup (xs : list X) m i x :
  turns xs m -> xs !! i = Some x -> less x = true <-> i < m.
Proof.
  intros (_ & Ht & Hf) Hi. rewrite Forall_lookup in Ht, Hf. destruct (decide (i < m)) as [Hl|Hl].
  - split; [auto |]. intros _. apply (Ht i). now rewrite lookup_take_lt.
  - split; [|lia]. intros Hx. specialize (Hf (i - m) x).
    rewrite lookup_drop in Hf. replace (m + (i - m)) with i in Hf by lia.
    rewrite (Hf Hi) in Hx. discriminate.
Qed.

Lemma linear_search_turns (xs : list X) m : turns xs m -> linear_search xs = m.
Proof.
  intros (Hm & Ht & Hf). revert m Hm Ht Hf.
  induction xs as [|x xs IH]; intros m Hm Ht Hf; cbn in *; [lia |].
  destruct m as [|m]; cbn in *.
  - inversion Hf; subst. now replace (less x) with false.
  - inversion Ht; subst. replace (less x) with true by auto. cbn. f_equal.
    apply IH; auto. lia.
Qed.

Lemma turns_sub (xs : list X) m s n :
  turns xs m -> s <= m <= s + n -> s + n <= length xs ->
  turns (list.take n (drop s xs)) (m - s).
Proof.
  intros Hm Hs Hn. split; [rewrite length_take, length_drop; lia |].
  split; apply Forall_lookup; intros i x; intros Hi.
  - apply lookup_take_Some in Hi as [Hi Hlt]. apply lookup_take_Some in Hi as [Hi _].
    rewrite lookup_drop in Hi. apply (turns_lookup xs m (s + i) x Hm Hi). lia.
  - rewrite lookup_drop in Hi. apply lookup_take_Some in Hi as [Hi Hlt].
    rewrite lookup_drop in Hi. destruct (less x) eqn:E; [|reflexivity].
    apply (turns_lookup xs m _ x Hm Hi) in E. lia.
Qed.

Lemma binary_search_loop_ok fuel (xs : list X) m start finish :
  turns xs m -> start <= m <= finish -> finish <= length xs -> finish - start <= fuel ->
  runs (binary_search_loop fuel xs start finish)
    (fun p => p.1 <= m <= p.2 /\ p.2 <= length xs).
Proof.
  intros Hm. revert start finish.
  induction fuel as [|fuel IH]; intros start finish Hs Hf Hfuel; cbn [binary_search_loop];
    unfold binary_search_base; destruct (Nat.ltb_spec 16 (finish - start));
    try (apply runs_ret; cbn; lia); [lia |].
  set (mid := (finish + start) / 2).
  assert (Hmid : start <= mid < finish)
    by (unfold mid; split; [apply Nat.div_le_lower_bound | apply Nat.Div0.div_lt_upper_bound]; lia).
  destruct (lookup_lt_is_Some_2 xs mid ltac:(lia)) as [x Hx]. rewrite Hx. cbn [mbind option_bind].
  pose proof (turns_lookup xs m mid x Hm Hx) as Hl. destruct (less x); cbn [negb]; apply IH; try lia.
Qed.

(** The search returns the turning point. *)
Lemma binary_search_ok (xs : list X) m : turns xs m -> binary_search xs = Some m.
Proof.
  intros Hm. unfold binary_search.
  destruct (binary_search_loop_ok (length xs) xs m 0 (length xs) Hm) as ([s f] & -> & Hs & Hf);
    [destruct Hm; lia | lia | lia |].
  cbn [mbind option_bind fst snd] in *.
  rewrite (linear_search_turns _ (m - s)) by (apply turns_sub; auto; lia). f_equal. lia.
Qed.
End Search.

(** ** The bulk operations *)

Section Multi.
Context {K V A B : Type} `{KeyOrder K, EntryAug (K * V) A, !JoinTree (K * V) A B}.
Abbreviation E := (K * V)%type.
Abbreviation tree := (tree (K * V) A B).

(** The lines the three operations share: [mid] is the position of the node's
    key in the sorted array, [dup] whether the array holds that key; the
    result is the part before, the duplicate and the part after. *)
Definition cut {X} (key : X -> K) (bk : K) (arr : list X) :
    option (list X * option X * list X) :=
  mid ← binary_search (fun a => comp (key a) bk) arr;
  Some match arr !! mid with
       | Some x =>
           if negb (comp bk (key x)) then (list.take mid arr, Some x, drop (mid + 1) arr)
           else (list.take mid arr, None, drop mid arr)
       | None => (list.take mid arr, None, drop mid arr)
       end.

Fixpoint multi_delete_sorted (b : tree) (arr : list K) : option tree :=
  match b, arr with
  | Null, _ => Some Null
  | _, [] => Some b
  | Nd l e _ _ _ r, _ =>
      p ← cut id (get_key e) arr;
      l' ← multi_delete_sorted l p.1.1;
      r' ← multi_delete_sorted r p.2;
      match p.1.2 with
      | None => node_join l' r' e
      | Some _ => join2 l' r'
      end
  end.

Fixpoint multi_insert_sorted (op : V -> V -> V) (b : tree) (arr : list E) : option tree :=
  match b, arr with
  | Null, _ => from_array arr
  | _, [] => Some b
  | Nd l e _ _ _ r, _ =>
      p ← cut get_key (get_key e) arr;
      l' ← multi_insert_sorted op l p.1.1;
      r' ← multi_insert_sorted op r p.2;
      match p.1.2 with
      | Some x => node_join l' r' (combine_values e x false op)
      | None => node_join l' r' e
      end
  end.

Fixpoint multi_update_sorted {VE} (op : V -> VE -> V) (b : tree) (arr : list (K * VE)) :
    option tree :=
  match b, arr with
  | Null, _ => Some Null
  | _, [] => Some b
  | Nd l e _ _ _ r, _ =>
      p ← cut fst (get_key e) arr;
      l' ← multi_update_sorted op l p.1.1;
      r' ← multi_update_sorted op r p.2;
      match p.1.2 with
      | Some x => node_join l' r' (set_val e (op (get_val e) x.2))
      | None => node_join l' r' e
      end
  end.

(** The writes [ret[offset + mid] = get_val(b)] that the call makes. *)
Fixpoint multi_find_sorted (b : tree) (arr : list K) (offset : nat) : option (list (nat * V)) :=
  match b, arr with
  | Null, _ => Some []
  | _, [] => Some []
  | Nd l e _ _ _ r, _ =>
      p ← cut id (get_key e) arr;
      let mid := length p.1.1 in
      let dup := match p.1.2 with Some _ => 1 | None => 0 end in
      wl ← multi_find_sorted l p.1.1 offset;
      wr ← multi_find_sorted r p.2 (offset + mid + dup);
      Some (wl ++ wr ++ match p.1.2 with
                        | Some _ => [(offset + mid, get_val e)]
                        | None => []
                        end)
  end.
End Multi.

(** ** Specifications *)

Section MultiSpecs.
Context {K V A B : Type} `{KeyOrderLaws K, JoinTreeLaws (K * V) A B}.
Abbreviation tree := (PamTree.tree (K * V) A B).
Implicit Types t : tree.

(** An array seen as a sorted list of entries, and its element for a key. *)
Definition tag {X} (key : X -> K) (arr : list X) : list (K * X) :=
  (fun x => (key x, x)) <$> arr.
Definition element {X} (key : X -> K) (arr : list X) (k : K) : option X :=
  snd <$> get (tag key arr) k.

Lemma sorted_turns {X} (key : X -> K) (arr : list X) (k : K) :
  sorted (tag key arr) -> exists m, turns (fun a => comp (key a) k) arr m.
Proof.
  induction arr as [|x arr IH]; intros Hs.
  - exists 0. repeat split; constructor || reflexivity.
  - apply StronglySorted_inv in Hs as [Hs Hx]. destruct (IH Hs) as (m & Hm & Ht & Hf).
    destruct (comp (key x) k) eqn:Ex.
    + exists (S m). split; [cbn; lia |]. split; [constructor; assumption | exact Hf].
    + exists 0. split; [lia |]. split; [constructor |]. cbn. constructor; [exact Ex |].
      change (Forall (key_lt (key x, x)) ((fun y => (key y, y)) <$> arr)) in Hx.
      rewrite Forall_fmap in Hx. eapply Forall_weaken; [exact Hx |].
      cbn. unfold key_lt. cbn. intros y Hy.
      destruct (comp (key y) k) eqn:Ey; [|reflexivity].
      rewrite (comp_trans _ _ _ Hy Ey) in Ex. discriminate.
Qed.

Definition cut_spec {X} (key : X -> K) (k : K) (arr : list X)
    (p : list X * option X * list X) : Prop :=
  let '(l, o, r) := p in
  arr = l ++ option_list o ++ r
  /\ sorted (tag key l) /\ sorted (tag key r)
  /\ below (tag key l) k /\ above k (tag key r)
  /\ (forall x, o = Some x -> keq (key x) k = true).

Lemma tag_app {X} (key : X -> K) (l r : list X) : tag key (l ++ r) = tag key l ++ tag key r.
Proof. apply fmap_app. Qed.

Lemma cut_ok {X} (key : X -> K) (k : K) (arr : list X) :
  sorted (tag key arr) -> runs (cut key k arr) (cut_spec key k arr).
Proof.
  intros Hs. destruct (sorted_turns key arr k Hs) as (m & Hm). unfold cut.
  rewrite (binary_search_ok _ arr m Hm). cbn [mbind option_bind].
  destruct Hm as (Hlen & Ht & Hf). apply runs_ret.
  assert (Hb : below (tag key (list.take m arr)) k)
    by (unfold below, tag; rewrite Forall_fmap; exact Ht).
  rewrite <- (take_drop m arr), tag_app in Hs.
  pose proof (sorted_app_inv _ _ Hs) as [Hs1 Hs2].
  destruct (arr !! m) as [x|] eqn:Ex.
  - rewrite (drop_S arr x m Ex) in *. apply StronglySorted_inv in Hs2 as [Hs2 Hx].
    apply Forall_cons_iff in Hf as [Hfx Hf]. rewrite Nat.add_1_r.
    destruct (comp k (key x)) eqn:Ek; cbn [negb].
    + unfold cut_spec. split_and!; auto; try discriminate.
      * cbn. now rewrite <- (drop_S arr x m Ex), take_drop.
      * constructor; assumption.
      * constructor; [exact Ek |]. apply (above_weaken _ (key x)); assumption.
    + assert (Hk : keq (key x) k = true) by (apply keq_spec; auto).
      unfold cut_spec. split_and!; auto.
      * cbn. now rewrite <- (drop_S arr x m Ex), take_drop.
      * apply (above_keq _ (key x)); assumption.
      * now intros y [= <-].
  - apply lookup_ge_None in Ex. rewrite drop_ge in * by exact Ex.
    unfold cut_spec. split_and!; auto; try discriminate; try constructor.
    cbn. now rewrite app_nil_r, take_ge by exact Ex.
Qed.

Lemma cut_element {X} (key : X -> K) k arr l o r k' :
  cut_spec key k arr (l, o, r) ->
  element key arr k' =
    if comp k' k then element key l k' else if comp k k' then element key r k' else o.
Proof.
  intros (-> & Hl & Hr & Hb & Ha & Ho). unfold element. rewrite !tag_app.
  replace (tag key (option_list o)) with (option_list ((fun x => (key x, x)) <$> o))
    by (destruct o; reflexivity).
  rewrite (get_split _ _ _ k k') by (try assumption; destruct o; intros ? [= <-]; cbn; auto).
  key_split k' k; try reflexivity. now destruct o.
Qed.

(** The node step that the bulk operations share: [res] combines the entry of
    a key with the array's element for it. *)
Lemma multi_node {X} (key : X -> K) (res : option (K * V) -> option X -> option (K * V))
    l e a s b r arr l0 o r0 l' r' :
  map_inv (Nd l e a s b r) -> cut_spec key e.1 arr (l0, o, r0) ->
  map_inv l' -> (forall k, lookup_key l' k = res (lookup_key l k) (element key l0 k)) ->
  map_inv r' -> (forall k, lookup_key r' k = res (lookup_key r k) (element key r0 k)) ->
  res None None = None -> (forall m, res (Some e) o = Some m -> m.1 = e.1) ->
  runs (match res (Some e) o with Some m => node_join l' r' m | None => join2 l' r' end)
    (fun t => map_inv t
       /\ forall k, lookup_key t k = res (lookup_key (Nd l e a s b r) k) (element key arr k)).
Proof.
  intros Hi Hc Hl' Ll' Hr' Lr' Hnone Hm.
  apply map_inv_node in Hi as (Hl & Hr & Hb & Ha).
  pose proof (fun k => cut_element key e.1 arr l0 o r0 k Hc) as Hel.
  destruct Hc as (_ & _ & _ & Hb0 & Ha0 & _).
  assert (Hbl : below (elements l') e.1).
  { apply below_lookup; [exact Hl' |]. intros k' Hn. rewrite Ll' in Hn.
    destruct (comp k' e.1) eqn:Ek; [reflexivity |]. unfold lookup_key, element in Hn.
    rewrite (get_below _ _ _ Hb Ek), (get_below _ _ _ Hb0 Ek) in Hn. contradiction. }
  assert (Har : above e.1 (elements r')).
  { apply above_lookup; [exact Hr' |]. intros k' Hn. rewrite Lr' in Hn.
    destruct (comp e.1 k') eqn:Ek; [reflexivity |]. unfold lookup_key, element in Hn.
    rewrite (get_above _ _ _ Ha Ek), (get_above _ _ _ Ha0 Ek) in Hn. contradiction. }
  destruct (res (Some e) o) as [m|] eqn:Em.
  - specialize (Hm m eq_refl).
    eapply runs_mono; [apply join_map_inv; rewrite ?Hm; auto |].
    intros t (Ht & _ & Lt). split; [exact Ht |]. intros k.
    rewrite Lt, lookup_node, Hel, Hm, Ll', Lr' by assumption. now key_split k e.1.
  - eapply runs_mono; [apply (join2_map_inv l' r' e.1); auto |].
    intros t (Ht & _ & Lt). split; [exact Ht |]. intros k.
    rewrite Lt, lookup_node, Hel, Ll', Lr' by assumption. now key_split k e.1.
Qed.

Definition multi_insert_entry (op : V -> V -> V) (o x : option (K * V)) : option (K * V) :=
  match o, x with
  | Some e, Some y => Some (e.1, op e.2 y.2)
  | Some e, None => Some e
  | None, _ => x
  end.

Definition multi_delete_entry {X} (o : option (K * V)) (x : option X) : option (K * V) :=
  match x with Some _ => None | None => o end.

Definition multi_update_entry {VE} (op : V -> VE -> V) (o : option (K * V))
    (x : option (K * VE)) : option (K * V) :=
  match o, x with
  | Some e, Some y => Some (e.1, op e.2 y.2)
  | _, _ => o
  end.

Lemma element_fst (arr : list (K * V)) k : element fst arr k = get arr k.
Proof.
  unfold element, tag, get. induction arr as [|x arr IH]; [reflexivity |]. cbn.
  destruct (keq x.1 k); [reflexivity | exact IH].
Qed.

Lemma sorted_fst (arr : list (K * V)) : sorted (tag fst arr) -> sorted arr.
Proof.
  unfold sorted, tag. induction arr as [|x arr IH]; intros Hs; [constructor |].
  apply StronglySorted_inv in Hs as [Hs Hx]. constructor; [auto |].
  change (Forall (key_lt (x.1, x)) ((fun y => (y.1, y)) <$> arr)) in Hx.
  rewrite Forall_fmap in Hx. exact Hx.
Qed.

(** An empty array changes nothing. *)
Lemma element_nil {X} (key : X -> K) k : element key [] k = None.
Proof. reflexivity. Qed.

Lemma multi_insert_sorted_ok op t (arr : list (K * V)) :
  map_inv t -> sorted (tag fst arr) ->
  runs (multi_insert_sorted op t arr) (fun t' => map_inv t' /\ forall k,
    lookup_key t' k = multi_insert_entry op (lookup_key t k) (element fst arr k)).
Proof.
  revert arr. induction t as [|l IHl e a s b r IHr]; intros arr Hi Hs.
  - eapply runs_mono; [apply from_array_ok |]. intros t' [Ht' Et'].
    unfold map_inv, lookup_key. rewrite Et'. split; [split; [exact Ht' | now apply sorted_fst] |].
    intros k. now rewrite element_fst.
  - destruct arr as [|x0 arr'].
    { apply runs_ret. split; [exact Hi |]. intros k.
      now destruct (lookup_key (Nd l e a s b r) k). }
    cbn [multi_insert_sorted]. set (arr := x0 :: arr') in *.
    pose proof (map_inv_node _ _ _ _ _ _ Hi) as (Hl & Hr & _).
    eapply runs_bind; [apply (cut_ok fst e.1 arr Hs) |]. intros [[l0 o] r0] Hc.
    pose proof Hc as (_ & Hs1 & Hs2 & _). cbn [fst snd].
    runs_with (IHl l0). intros l' [Hl' Ll']. runs_with (IHr r0). intros r' [Hr' Lr'].
    replace (match o with Some x => _ | None => _ end) with
      (match multi_insert_entry op (Some e) o with
       | Some m => node_join l' r' m | None => join2 l' r' end) by now destruct o.
    eapply multi_node; eauto. destruct o; intros m [= <-]; reflexivity.
Qed.

Lemma multi_delete_sorted_ok t (arr : list K) :
  map_inv t -> sorted (tag id arr) ->
  runs (multi_delete_sorted t arr) (fun t' => map_inv t' /\ forall k,
    lookup_key t' k = multi_delete_entry (lookup_key t k) (element id arr k)).
Proof.
  revert arr. induction t as [|l IHl e a s b r IHr]; intros arr Hi Hs.
  - apply runs_ret. split; [exact Hi |]. intros k. now destruct (element id arr k).
  - destruct arr as [|x0 arr']; [apply runs_ret; auto |].
    cbn [multi_delete_sorted]. set (arr := x0 :: arr') in *.
    pose proof (map_inv_node _ _ _ _ _ _ Hi) as (Hl & Hr & _).
    eapply runs_bind; [apply (cut_ok id e.1 arr Hs) |]. intros [[l0 o] r0] Hc.
    pose proof Hc as (_ & Hs1 & Hs2 & _). cbn [fst snd].
    runs_with (IHl l0). intros l' [Hl' Ll']. runs_with (IHr r0). intros r' [Hr' Lr'].
    replace (match o with Some x => _ | None => _ end) with
      (match multi_delete_entry (Some e) o with
       | Some m => node_join l' r' m | None => join2 l' r' end) by now destruct o.
    eapply multi_node; eauto. destruct o; intros m [= <-]; reflexivity.
Qed.

Lemma multi_update_sorted_ok {VE} (op : V -> VE -> V) t (arr : list (K * VE)) :
  map_inv t -> sorted (tag fst arr) ->
  runs (multi_update_sorted op t arr) (fun t' => map_inv t' /\ forall k,
    lookup_key t' k = multi_update_entry op (lookup_key t k) (element fst arr k)).
Proof.
  revert arr. induction t as [|l IHl e a s b r IHr]; intros arr Hi Hs.
  - apply runs_ret. split; [exact Hi |]. reflexivity.
  - destruct arr as [|x0 arr'].
    { apply runs_ret. split; [exact Hi |]. intros k.
      now destruct (lookup_key (Nd l e a s b r) k). }
    cbn [multi_update_sorted]. set (arr := x0 :: arr') in *.
    pose proof (map_inv_node _ _ _ _ _ _ Hi) as (Hl & Hr & _).
    eapply runs_bind; [apply (cut_ok fst e.1 arr Hs) |]. intros [[l0 o] r0] Hc.
    pose proof Hc as (_ & Hs1 & Hs2 & _). cbn [fst snd].
    runs_with (IHl l0). intros l' [Hl' Ll']. runs_with (IHr r0). intros r' [Hr' Lr'].
    replace (match o with Some x => _ | None => _ end) with
      (match multi_update_entry op (Some e) o with
       | Some m => node_join l' r' m | None => join2 l' r' end) by now destruct o.
    eapply multi_node; eauto. destruct o; intros m [= <-]; reflexivity.
Qed.

(** Every write of [multi_find_sorted] is the value of the key at that
    position of the array, and every key of the map is written. *)
Lemma multi_find_sorted_ok t (arr : list K) offset :
  map_inv t -> sorted (tag id arr) ->
  runs (multi_find_sorted t arr offset) (fun ws => forall i v,
    (i, v) ∈ ws <-> exists j k e, i = offset + j /\ arr !! j = Some k
                      /\ lookup_key t k = Some e /\ e.2 = v).
Proof.
  revert arr offset. induction t as [|l IHl e a s b r IHr]; intros arr offset Hi Hs.
  - apply runs_ret. intros i v. rewrite elem_of_nil. split; [contradiction |].
    intros (j & k & x & _ & _ & Hl & _). discriminate.
  - destruct arr as [|x0 arr'].
    { apply runs_ret. intros i v. rewrite elem_of_nil. split; [contradiction |].
      intros (j & k & x & _ & Hj & _). discriminate. }
    cbn [multi_find_sorted]. set (arr := x0 :: arr') in *.
    pose proof (map_inv_node _ _ _ _ _ _ Hi) as (Hl & Hr & Hb & Ha).
    eapply runs_bind; [apply (cut_ok id e.1 arr Hs) |]. intros [[l0 o] r0] Hc.
    destruct Hc as (Earr & Hs1 & Hs2 & Hb0 & Ha0 & Ho). cbn [fst snd]. rewrite Earr.
    eapply runs_bind; [apply (IHl l0 offset); auto |]. intros wl Hwl.
    eapply runs_bind; [apply (IHr r0); auto |]. intros wr Hwr.
    apply runs_ret. intros i v. cbv beta in Hwl, Hwr. rewrite !elem_of_app, Hwl, Hwr.
    unfold below, above, tag in Hb0, Ha0. rewrite Forall_fmap in Hb0, Ha0.
    rewrite Forall_lookup in Hb0, Ha0. cbn in Hb0, Ha0.
    assert (Hlk : forall k, lookup_key (Nd l e a s b r) k =
      if comp k e.1 then lookup_key l k else if comp e.1 k then lookup_key r k else Some e)
      by (intros; now apply lookup_node).
    split.
    + intros [(j & k & x & -> & Hj & Hx & Hv) | [(j & k & x & -> & Hj & Hx & Hv) | Hv]].
      * exists j, k, x. rewrite lookup_app_l by (eapply lookup_lt_Some; eauto).
        rewrite Hlk, (Hb0 j k Hj). auto.
      * exists (length (l0 ++ option_list o) + j), k, x.
        rewrite app_assoc, lookup_app_r by lia.
        replace (length (l0 ++ option_list o) + j - length (l0 ++ option_list o)) with j by lia.
        rewrite Hlk, (Ha0 j k Hj), (comp_asym _ _ (Ha0 j k Hj)).
        split_and!; auto. rewrite length_app. destruct o; cbn; lia.
      * destruct o as [k|]; [|now apply elem_of_nil in Hv].
        apply list_elem_of_singleton in Hv as [= -> ->].
        specialize (Ho k eq_refl). rewrite keq_sym in Ho.
        apply keq_spec in Ho as [Ho1 Ho2]. cbn in Ho1, Ho2.
        exists (length l0), k, e. rewrite lookup_app_r, Nat.sub_diag by lia.
        rewrite Hlk. cbn in *. now rewrite Ho1, Ho2.
    + intros (j & k & x & -> & Hj & Hx & Hv). rewrite Hlk in Hx.
      destruct (decide (j < length l0)) as [Hlt | Hge].
      * left. rewrite lookup_app_l in Hj by exact Hlt. exists j, k, x.
        rewrite (Hb0 j k Hj) in Hx. auto.
      * right. rewrite lookup_app_r in Hj by lia.
        apply lookup_app_Some in Hj as [Hj | [Hlen Hj]].
        -- right. destruct o as [k'|]; [|discriminate].
           apply list_lookup_singleton_Some in Hj as [Hj <-].
           specialize (Ho k' eq_refl). rewrite keq_sym in Ho.
           apply keq_spec in Ho as [Ho1 Ho2]. cbn in Ho1, Ho2. rewrite Ho1, Ho2 in Hx.
           injection Hx as <-. apply list_elem_of_singleton. unfold get_val. f_equal; [lia | auto].
        -- left. exists (j - length l0 - length (option_list o)), k, x.
           rewrite (Ha0 _ k Hj), (comp_asym _ _ (Ha0 _ k Hj)) in Hx.
           split_and!; auto. destruct o; cbn in *; lia.
Qed.
End MultiSpecs.
