(* ===== verification/PamAug.v ===== *)
(** * Augmented maps of PAM

    Models src/OLAP/PAM/c++/augmented_ops.h: the sums of the augmented values
    over a key range, and the filter and selection that prune with them. *)

From Stdlib Require Import ZArith Lia.
From stdpp Require Import base list option.
From S2P Require Import Prelude PamTree PamSeq PamOrder PamMap PamRange.

Section AugOps.
Context {K V A B : Type} `{KeyOrder K, EntryAug (K * V) A, !JoinTree (K * V) A B}.
Abbreviation E := (K * V)%type.
Abbreviation tree := (tree (K * V) A B).

(** [aug_sum_t]: the running result. *)
Definition add_entry (result : A) (e : E) : A := combine result (from_entry e).
Definition add_aug_val (result av : A) : A := combine result av.

(** The augmented value of a child is added when the child is not null. *)
Definition add_child (result : A) (c : tree) : A :=
  match c with Null => result | Nd _ _ av _ _ _ => add_aug_val result av end.

(** The sum right of or at [key]. *)
Fixpoint aug_sum_right (b : tree) (key : K) (a : A) : A :=
  match b with
  | Null => a
  | Nd l e _ _ _ r =>
      if negb (comp (get_key e) key) then aug_sum_right l key (add_child (add_entry a e) r)
      else aug_sum_right r key a
  end.

(** The sum left of or at [key]. *)
Fixpoint aug_sum_left (b : tree) (key : K) (a : A) : A :=
  match b with
  | Null => a
  | Nd l e _ _ _ r =>
      if negb (comp key (get_key e)) then aug_sum_left r key (add_child (add_entry a e) l)
      else aug_sum_left l key a
  end.

Definition aug_sum_range (b : tree) (key_left key_right : K) (a : A) : A :=
  match range_root b key_left key_right with
  | Null => a
  | Nd l e _ _ _ r =>
      let a := aug_sum_right l key_left a in
      let a := add_entry a e in
      aug_sum_left r key_right a
  end.

(** [aug_map_::aug_range]. *)
Definition aug_range (b : tree) (key_left key_right : K) : A :=
  aug_sum_range b key_left key_right get_empty.

Fixpoint aug_select (f : A -> bool) (b : tree) : option E :=
  match b with
  | Null => None
  | Nd l e _ _ _ r =>
      if f (aug_val l) then
        if f (from_entry e) then aug_select f r else Some e
      else aug_select f l
  end.

Fixpoint aug_filter (f : A -> bool) (b : tree) : option tree :=
  match b with
  | Null => Some Null
  | Nd l e _ _ _ r =>
      if negb (f (aug_val b)) then Some Null
      else
        l' ← aug_filter f l;
        r' ← aug_filter f r;
        if f (from_entry e) then node_join l' r' e else join2 l' r'
  end.
End AugOps.

(** ** Specifications *)

Section AugSpecs.
Context {K V A B : Type} `{KeyOrderLaws K, JoinTreeLaws (K * V) A B}.
Context `{!EntryAugLaws (K * V) A}.
Abbreviation tree := (PamTree.tree (K * V) A B).
Implicit Types t : tree.

Lemma add_child_stored (a : A) t :
  stored t -> add_child a t = combine a (aug_list (elements t)).
Proof.
  intros Hs. rewrite <- aug_val_elements by exact Hs.
  destruct t; cbn; [now rewrite combine_empty_r | reflexivity].
Qed.

(** *** Pruning with the augmented value *)

Lemma aug_list_or (f : A -> bool) (l : list (K * V)) :
  f get_empty = false -> (forall x y, f (combine x y) = f x || f y) ->
  f (aug_list l) = existsb (fun e => f (from_entry e)) l.
Proof.
  intros He Hc. induction l as [|e l IH]; [exact He |].
  rewrite aug_list_cons, Hc, IH. reflexivity.
Qed.

Lemma existsb_filter_nil {X} (f : X -> bool) (l : list X) :
  existsb f l = false -> List.filter f l = [].
Proof.
  induction l as [|x l IH]; [reflexivity |]. cbn. now destruct (f x).
Qed.

Lemma aug_filter_ok (f : A -> bool) t :
  f get_empty = false -> (forall x y, f (combine x y) = f x || f y) -> ok t ->
  runs (aug_filter f t) (fun t' => ok t'
    /\ elements t' = List.filter (fun e => f (from_entry e)) (elements t)).
Proof.
  intros He Hc. induction t as [|l IHl e a s b r IHr]; intros Hok; [apply runs_ret; auto |].
  cbn [aug_filter]. rewrite (aug_val_elements _ (ok_stored _ Hok)), aug_list_or by assumption.
  destruct (existsb _ _) eqn:Ex; cbn [negb].
  - apply ok_children in Hok as [Hl Hr]. cbn [elements]. rewrite filter_app_cons.
    runs_with IHl. intros l' [Hl' El']. runs_with IHr. intros r' [Hr' Er'].
    destruct (f (from_entry e)).
    + eapply runs_mono; [apply ok_join; auto |]. intros t' [Ht' ->].
      split; [exact Ht' |]. now rewrite El', Er'.
    + eapply runs_mono; [apply join2_ok; auto |]. intros t' [Ht' ->].
      split; [exact Ht' |]. now rewrite El', Er'.
  - apply runs_ret. split; [apply ok_null |]. now rewrite existsb_filter_nil.
Qed.

Lemma aug_list_and (f : A -> bool) (l : list (K * V)) :
  f get_empty = true -> (forall x y, f (combine x y) = f x && f y) ->
  f (aug_list l) = forallb (fun e => f (from_entry e)) l.
Proof.
  intros He Hc. induction l as [|e l IH]; [exact He |].
  rewrite aug_list_cons, Hc, IH. reflexivity.
Qed.

Lemma find_app_forallb {X} (f : X -> bool) (l1 l2 : list X) :
  List.find (fun x => negb (f x)) (l1 ++ l2) =
    if forallb f l1 then List.find (fun x => negb (f x)) l2
    else List.find (fun x => negb (f x)) l1.
Proof.
  induction l1 as [|x l1 IH]; [reflexivity |]. cbn. destruct (f x); cbn; [exact IH | reflexivity].
Qed.

(** [aug_select] finds the first entry on which the test fails. *)
Lemma aug_select_ok (f : A -> bool) t :
  f get_empty = true -> (forall x y, f (combine x y) = f x && f y) -> stored t ->
  aug_select f t = List.find (fun e => negb (f (from_entry e))) (elements t).
Proof.
  intros He Hc. induction t as [|l IHl e a s b r IHr]; intros Hs; [reflexivity |].
  destruct Hs as (_ & _ & Hl & Hr). cbn [aug_select elements].
  rewrite aug_val_elements, aug_list_and by assumption.
  rewrite find_app_forallb. cbn [List.find].
  rewrite IHl, IHr by assumption. destruct (forallb _ _); [|reflexivity].
  destruct (f (from_entry e)); reflexivity.
Qed.
End AugSpecs.

(** *** Range sums

    The sums add the entries in the order in which the search path meets them,
    not in key order: the augmentation has to be commutative. *)
Section AugSums.
Context {K V A B : Type} `{KeyOrderLaws K, JoinTreeLaws (K * V) A B}.
Context `{!EntryAugLaws (K * V) A}.
Hypothesis combine_comm : forall x y : A, combine x y = combine y x.
Abbreviation tree := (PamTree.tree (K * V) A B).
Implicit Types t : tree.

Lemma combine_swap (x y z : A) : combine (combine x y) z = combine (combine x z) y.
Proof. now rewrite <- !combine_assoc, (combine_comm y z). Qed.

Lemma aug_sum_right_ok t lo a :
  map_inv t ->
  aug_sum_right t lo a = combine a (aug_list (List.filter (from_key lo) (elements t))).
Proof.
  revert a. induction t as [|l IHl e v s b r IHr]; intros a Hi;
    [cbn; now rewrite combine_empty_r |].
  pose proof (proj2 (proj2 (proj2 (ok_stored _ (proj1 Hi))))) as Hsr.
  apply map_inv_node in Hi as (Hl & Hr & Hb & Ha). cbn [aug_sum_right elements].
  rewrite filter_app_cons, !aug_list_app. unfold from_key at 2, get_key.
  destruct (comp e.1 lo) eqn:E; cbn [negb].
  - rewrite (below_from_key _ _ _ Hb E), IHr by exact Hr.
    cbn [aug_list foldr]. now rewrite !combine_empty_l.
  - rewrite IHl, (above_from_key _ _ _ Ha E), add_child_stored by assumption.
    unfold add_entry. rewrite aug_list_one.
    set (x := aug_list (List.filter _ (elements l))). set (y := aug_list (elements r)).
    rewrite (combine_comm x (combine _ y)), !combine_assoc. reflexivity.
Qed.

Lemma aug_sum_left_ok t hi a :
  map_inv t ->
  aug_sum_left t hi a = combine a (aug_list (List.filter (to_key hi) (elements t))).
Proof.
  revert a. induction t as [|l IHl e v s b r IHr]; intros a Hi;
    [cbn; now rewrite combine_empty_r |].
  pose proof (proj1 (proj2 (proj2 (ok_stored _ (proj1 Hi))))) as Hsl.
  apply map_inv_node in Hi as (Hl & Hr & Hb & Ha). cbn [aug_sum_left elements].
  rewrite filter_app_cons, !aug_list_app. unfold to_key at 2, get_key.
  destruct (comp hi e.1) eqn:E; cbn [negb].
  - rewrite (above_to_key _ _ _ Ha E), IHl by exact Hl.
    cbn [aug_list foldr]. now rewrite !combine_empty_r.
  - rewrite IHr, (below_to_key _ _ _ Hb E), add_child_stored by assumption.
    unfold add_entry. rewrite aug_list_one, !combine_assoc.
    now rewrite (combine_swap a (from_entry e)).
Qed.

Lemma aug_range_ok t lo hi :
  map_inv t -> aug_range t lo hi = aug_list (List.filter (in_range lo hi) (elements t)).
Proof.
  intros Hi. unfold aug_range, aug_sum_range. rewrite (range_elements t lo hi Hi).
  destruct (range_root_spec t lo hi Hi) as (Hr & _ & _).
  destruct (range_root t lo hi) as [|l e a s b r]; [reflexivity |].
  apply map_inv_node in Hr as (Hl & Hr & _).
  rewrite aug_sum_left_ok, aug_sum_right_ok by assumption.
  rewrite aug_list_app, aug_list_cons. unfold add_entry.
  now rewrite combine_empty_l, !combine_assoc.
Qed.
End AugSums.
