(* ===== verification/PamProps.v ===== *)
(** * The PAM map as its clients see it

    The properties of PAM maps that the analytical server relies on, stated
    with the code's own observers ([find], [elements] of the result) and proved
    for every balancing scheme that implements the [JoinTree] interface; the
    witnesses run them on AVL maps over 64-bit keys. *)

From Stdlib Require Import ZArith Lia Sorting.Sorted.
From stdpp Require Import base list option.
From S2P Require Import Prelude PamTree PamAvl PamSeq PamOrder PamMap PamRange PamMulti PamAug.
Local Open Scope Z_scope.

(** ** A concrete instance: integer keys, sums of the values *)

#[export] Instance z_order : KeyOrder Z := Z.ltb.

#[export] Instance z_order_laws : KeyOrderLaws Z.
Proof.
  split; unfold comp, z_order.
  - apply Z.ltb_irrefl.
  - intros a b c. rewrite !Z.ltb_lt. lia.
  - intros a b c. rewrite !Z.ltb_lt. lia.
Qed.

#[export] Instance sum_aug : EntryAug (Z * Z) Z :=
  {| get_empty := 0; from_entry := snd; combine := Z.add |}.

#[export] Instance sum_aug_laws : EntryAugLaws (Z * Z) Z.
Proof. split; cbn; intros; lia. Qed.

Abbreviation zmap := (tree (Z * Z) Z avl_data).

(** The map with the given sorted entries. *)
Definition build (xs : list (Z * Z)) : zmap := default Null (from_array xs).

Lemma build_elements xs : ok (build xs) /\ elements (build xs) = xs.
Proof. unfold build. destruct (from_array_ok (B := avl_data) xs) as (t & -> & H). exact H. Qed.

Lemma build_inv xs : sorted xs -> map_inv (build xs).
Proof. intros Hs. destruct (build_elements xs) as [Hok He]. split; [exact Hok | now rewrite He]. Qed.

Lemma build_indexed xs : Z.of_nat (length xs) < 2 ^ 32 -> indexed (build xs).
Proof.
  intros Hs. destruct (build_elements xs) as [Hok He]. split; [now apply ok_stored | now rewrite He].
Qed.

Ltac sorted_list := repeat constructor.

Definition fruit := [(1, 10); (3, 30); (5, 50); (7, 70)].
Definition veg := [(3, 1); (4, 2); (5, 3)].

Lemma fruit_inv : map_inv (build fruit).
Proof. apply build_inv. sorted_list. Qed.
Lemma veg_inv : map_inv (build veg).
Proof. apply build_inv. sorted_list. Qed.

(** ** Point operations *)

Section Client.
Context {K V A B : Type} `{KeyOrderLaws K, JoinTreeLaws (K * V) A B}.
Abbreviation tree := (PamTree.tree (K * V) A B).
Implicit Types t : tree.

(** Insertion returns a valid map in which the inserted key is bound to
    the new value, combined with the old one by [f(old, new)] when the key was
    present, and every other key is bound as before. *)
Theorem insert_find f t (e : K * V) :
  map_inv t ->
  exists t', insert f t e = Some t' /\ map_inv t'
    /\ find t' e.1 = Some (match find t e.1 with
                           | Some old => (e.1, f old.2 e.2)
                           | None => e
                           end)
    /\ forall k, keq e.1 k = false -> find t' k = find t k.
Proof.
  intros Hi. destruct (insert_ok f t e Hi) as (t' & Et & Hi' & Hl).
  exists t'. rewrite !find_spec by assumption. split_and!; auto.
  - rewrite Hl, keq_refl. reflexivity.
  - intros k Hk. rewrite !find_spec, Hl, Hk by assumption. reflexivity.
Qed.

(** Deletion returns a valid map in which the key is not bound and every
    other key is bound as before, whether or not the key was present. *)
Theorem deletet_find t (k0 : K) :
  map_inv t ->
  exists t', deletet t k0 = Some t' /\ map_inv t'
    /\ find t' k0 = None /\ forall k, keq k0 k = false -> find t' k = find t k.
Proof.
  intros Hi. destruct (deletet_ok t k0 Hi) as (t' & Et & Hi' & Hl).
  exists t'. rewrite !find_spec by assumption. split_and!; auto.
  - rewrite Hl, keq_refl. reflexivity.
  - intros k Hk. rewrite !find_spec, Hl, Hk by assumption. reflexivity.
Qed.

(** Splitting at a key gives, whatever the reference counts on the search
    path (and so whether nodes are copied or reused), the valid maps of the
    entries strictly below and strictly above the key, and the entry of the
    key if there is one; nothing is lost. *)
Theorem split_correct (shared : nat -> bool) t (k : K) :
  map_inv t ->
  exists s, split_inplace shared t k = Some s
    /\ map_inv (first s) /\ map_inv (second s)
    /\ below (elements (first s)) k /\ above k (elements (second s))
    /\ entry s = find t k
    /\ elements t = elements (first s) ++ option_list (entry s) ++ elements (second s).
Proof.
  intros Hi. destruct (split_copy_ok t k Hi) as (s & Es & Hs).
  exists s. rewrite split_inplace_copy, find_spec by assumption.
  rewrite (split_lookup t k s k Hs), comp_irrefl.
  destruct Hs as (? & ? & ? & ? & ? & ?). split_and!; auto.
Qed.

(** The union of two maps is a valid map: a key bound in both is bound to
    [op(v1, v2)], a key bound in one to that entry. *)
Theorem uniont_find op (b1 b2 : tree) :
  map_inv b1 -> map_inv b2 ->
  exists t, uniont op b1 b2 = Some t /\ map_inv t
    /\ forall k, find t k = union_entry op (find b1 k) (find b2 k).
Proof.
  intros H1' H2'. destruct (uniont_ok op b1 b2 H1' H2') as (t & Et & Hi & Hl).
  exists t. split_and!; auto. intros k. rewrite !find_spec by assumption. apply Hl.
Qed.

(** The difference of two maps is a valid map of the entries of the first
    whose key is not bound in the second. *)
Theorem difference_find (b1 b2 : tree) :
  map_inv b1 -> map_inv b2 ->
  exists t, difference b1 b2 = Some t /\ map_inv t
    /\ forall k, find t k = difference_entry (find b1 k) (find b2 k).
Proof.
  intros H1' H2'. destruct (difference_ok b1 b2 H1' H2') as (t & Et & Hi & Hl).
  exists t. split_and!; auto. intros k. rewrite !find_spec by assumption. apply Hl.
Qed.

(** [range(low, high)] is the valid map of exactly the entries whose key
    is neither below [low] nor above [high] (none when [high] is below
    [low]), in order; and [range_num(low, n)] is the first [n] of the entries
    at or above [low]. *)
Theorem range_correct t (low high : K) (n : Z) :
  map_inv t -> indexed t -> 0 <= n < 2 ^ 64 ->
  (exists t', range t low high = Some t' /\ map_inv t'
     /\ elements t' = List.filter (in_range low high) (elements t))
  /\ (exists t', range_num t low n = Some t' /\ ok t'
     /\ elements t' = list.take (Z.to_nat n) (List.filter (from_key low) (elements t))).
Proof. intros Hi Hx Hn. split; [now apply range_ok | now apply range_num_ok]. Qed.

Lemma filter_before_split t (k : K) :
  map_inv t ->
  exists rest, elements t = List.filter (before k) (elements t) ++ rest
    /\ Forall (fun e => comp e.1 k = false) rest.
Proof.
  intros [_ Hs]. induction (elements t) as [|e l IH]; [exists []; auto |].
  apply StronglySorted_inv in Hs as [Hs He]. destruct (IH Hs) as (rest & El & Hr).
  cbn [List.filter]. unfold before at 1. destruct (comp e.1 k) eqn:E.
  - exists rest. split; [|exact Hr]. cbn. now rewrite <- El.
  - exists (e :: l). rewrite filter_none; [split; [reflexivity |]; constructor; [exact E |] |];
      (eapply Forall_weaken; [exact He |]); unfold key_lt, before; cbn; intros x Hx;
      (destruct (comp x.1 k) eqn:E'; [rewrite (comp_trans _ _ _ Hx E') in E; discriminate
                                     | reflexivity]).
Qed.

(** [previous] and [next] return the greatest entry strictly below and the
    least entry strictly above the key, bound or not, and nothing when there is
    none. *)
Theorem neighbours_correct t (k : K) :
  map_inv t ->
  previous t k = list.last (List.filter (before k) (elements t))
  /\ next t k = list.head (List.filter (after k) (elements t)).
Proof. intros Hi. split; [now apply previous_ok | now apply next_ok]. Qed.

(** [rank] is the number of entries below the key, [select] reads the
    entry at a position, and the two agree: the entry at the rank of a bound
    key is the entry that [find] returns. *)
Theorem rank_select t (k : K) (i : Z) :
  map_inv t -> indexed t -> 0 <= i < 2 ^ 64 ->
  rank t k = Z.of_nat (length (List.filter (before k) (elements t)))
  /\ select t i = elements t !! Z.to_nat i
  /\ (find t k <> None -> select t (rank t k) = find t k).
Proof.
  intros Hi Hx Hb. pose proof (rank_ok t k Hi Hx) as Hr.
  split_and!; [exact Hr | now apply select_spec |]. intros Hf.
  destruct (filter_before_split t k Hi) as (rest & El & Hrest).
  assert (Hlen : (length (List.filter (before k) (elements t)) <= length (elements t))%nat)
    by apply filter_length_le.
  destruct Hx as [Hst Hx]. rewrite select_spec, Hr, Nat2Z.id by (try split; auto; lia).
  rewrite find_spec in * by exact Hi. unfold lookup_key in *.
  set (fl := List.filter (before k) (elements t)) in *.
  assert (Hfl : get fl k = None).
  { apply (get_below fl k); [|apply comp_irrefl]. apply Forall_forall. intros x Hin.
    apply filter_In in Hin. apply Hin. }
  rewrite El, get_app, Hfl, lookup_app_r, Nat.sub_diag in * by lia.
  destruct rest as [|e rest]; [contradiction |]. cbn [get List.find] in *.
  destruct (keq e.1 k) eqn:E; [reflexivity |]. exfalso. apply Hf.
  apply Forall_cons_iff in Hrest as [He _].
  destruct Hi as [_ Hs]. rewrite El in Hs. apply sorted_middle in Hs as (_ & _ & _ & Ha).
  apply (get_above rest e.1); [exact Ha |].
  unfold keq in E. rewrite He in E. cbn in E. now apply negb_false_iff in E.
Qed.

(** [take(k)] never returns [k] entries of a map that has more: at the
    entry of rank [k] the unsigned [rank - left_size - 1] wraps around and the
    whole right subtree is kept, so that the result is a prefix of more than
    [k] entries; with [k] at least the size of the map it is the whole map. *)
Theorem take_overshoots t (k : Z) :
  ok t -> indexed t -> 0 <= k < 2 ^ 64 ->
  exists t' m, take t k = Some t' /\ ok t' /\ elements t' = list.take m (elements t)
    /\ (k < Z.of_nat (length (elements t)) ->
        k < Z.of_nat m <= Z.of_nat (length (elements t)))
    /\ (Z.of_nat (length (elements t)) <= k -> m = length (elements t)).
Proof.
  intros Hok Hx Hk. destruct (Z.ltb_spec k (Z.of_nat (length (elements t)))).
  - destruct (take_below t k Hok Hx) as (t' & Et & Hok' & m & Hm & Em); [lia |].
    exists t', m. split_and!; auto. lia.
  - destruct (take_all t k Hok Hx) as (t' & Et & Hok' & Em); [lia |].
    exists t', (length (elements t)). rewrite firstn_all. split_and!; auto. lia.
Qed.

(** Inserting a whole sorted array at once is inserting its entries: a
    key of both is bound to [op(old, new)] under the old key, a key of one is
    bound as it was there. *)
Theorem multi_insert_find op t (arr : list (K * V)) :
  map_inv t -> sorted (tag fst arr) ->
  exists t', multi_insert_sorted op t arr = Some t' /\ map_inv t'
    /\ forall k, find t' k = multi_insert_entry op (find t k) (get arr k).
Proof.
  intros Hi Hs. destruct (multi_insert_sorted_ok op t arr Hi Hs) as (t' & Et & Hi' & Hl).
  exists t'. split_and!; auto. intros k.
  now rewrite !find_spec, Hl, element_fst by assumption.
Qed.

(** Deleting a sorted array of keys leaves the entries whose key is not
    in the array, and looking one up writes, at the position of every key of
    the array that is bound, the value [find] returns, and nothing else. *)
Theorem multi_delete_and_find t (arr : list K) (offset : nat) :
  map_inv t -> sorted (tag id arr) ->
  (exists t', multi_delete_sorted t arr = Some t' /\ map_inv t'
     /\ forall k, find t' k = multi_delete_entry (find t k) (element id arr k))
  /\ (exists ws, multi_find_sorted t arr offset = Some ws
     /\ forall i v, (i, v) ∈ ws <-> exists j k e, i = (offset + j)%nat
          /\ arr !! j = Some k /\ find t k = Some e /\ e.2 = v).
Proof.
  intros Hi Hs. split.
  - destruct (multi_delete_sorted_ok t arr Hi Hs) as (t' & Et & Hi' & Hl).
    exists t'. split_and!; auto. intros k. now rewrite !find_spec, Hl by assumption.
  - destruct (multi_find_sorted_ok t arr offset Hi Hs) as (ws & Ew & Hw).
    exists ws. split; [exact Ew |]. intros i v. rewrite Hw.
    now setoid_rewrite (fun k => find_spec t k Hi).
Qed.
End Client.


(** ** Set and bulk operations over several value types *)

Section ClientBulk.
Context {K V1 A1 B1 V2 A2 B2 V A B : Type} `{KeyOrderLaws K}.
Context `{JoinTreeLaws (K * V1) A1 B1, JoinTreeLaws (K * V2) A2 B2, JoinTreeLaws (K * V) A B}.

(** The intersection of two maps, which may hold values of different
    types, is a valid map of exactly the keys bound in both, each bound to
    [op(v1, v2)]. *)
Theorem intersect_find (op : V1 -> V2 -> V)
    (b1 : PamTree.tree (K * V1) A1 B1) (b2 : PamTree.tree (K * V2) A2 B2) :
  map_inv b1 -> map_inv b2 ->
  exists t : PamTree.tree (K * V) A B, intersect op b1 b2 = Some t /\ map_inv t
    /\ forall k, find t k = intersect_entry op (find b1 k) (find b2 k).
Proof.
  intros M1 M2. destruct (intersect_ok op b1 b2 M1 M2) as (t & Et & Hi & Hl).
  exists t. split_and!; auto. intros k. rewrite !find_spec by assumption. apply Hl.
Qed.
End ClientBulk.

(** ** Augmented queries *)

Section ClientAug.
Context {K V A B : Type} `{KeyOrderLaws K, JoinTreeLaws (K * V) A B}.
Context `{!EntryAugLaws (K * V) A}.
Abbreviation tree := (PamTree.tree (K * V) A B).
Implicit Types t : tree.

(** [aug_range(low, high)] computes, for a commutative augmentation, the
    combination of the entries of [range(low, high)] without building it: it is
    the stored augmented value of the map [range] returns. *)
Theorem aug_range_is_range_sum t (low high : K) :
  (forall x y : A, combine x y = combine y x) -> map_inv t ->
  exists t', range t low high = Some t' /\ aug_range t low high = aug_val t'
    /\ aug_range t low high = aug_list (List.filter (in_range low high) (elements t)).
Proof.
  intros Hc Hi. destruct (range_ok t low high Hi) as (t' & Et & Hi' & El).
  exists t'. rewrite aug_range_ok, aug_val_elements, El by (auto; apply ok_stored, Hi').
  auto.
Qed.

(** [aug_filter] prunes by the stored augmented values without changing
    the answer: with a test that is false on the empty value and distributes
    over [combine] as a disjunction, it returns what [filter] with the test on
    single entries returns. *)
Theorem aug_filter_is_filter (f : A -> bool) t :
  f get_empty = false -> (forall x y, f (combine x y) = f x || f y) -> map_inv t ->
  exists t1 t2, aug_filter f t = Some t1 /\ filter (fun e => f (from_entry e)) t = Some t2
    /\ map_inv t1 /\ elements t1 = elements t2
    /\ elements t2 = List.filter (fun e => f (from_entry e)) (elements t).
Proof.
  intros He Hf [Hok Hs]. destruct (aug_filter_ok f t He Hf Hok) as (t1 & E1 & Hok1 & El1).
  destruct (filter_ok (fun e => f (from_entry e)) t Hok) as (t2 & E2 & Hok2 & El2).
  exists t1, t2. rewrite El1, El2. split_and!; auto.
  split; [exact Hok1 |]. rewrite El1. now apply sorted_filter.
Qed.

(** [aug_select] finds the first entry, in key order, on which a test
    that distributes over [combine] as a conjunction fails. *)
Theorem aug_select_first (f : A -> bool) t :
  f get_empty = true -> (forall x y, f (combine x y) = f x && f y) -> map_inv t ->
  aug_select f t = List.find (fun e => negb (f (from_entry e))) (elements t).
Proof. intros He Hf [Hok _]. apply aug_select_ok; [exact He | exact Hf | now apply ok_stored]. Qed.
End ClientAug.

(** ** Concrete runs *)

Ltac computed H := vm_compute in H; exact H.

Lemma fruit_indexed : indexed (build fruit).
Proof. apply build_indexed. reflexivity. Qed.

Lemma fruit_avl : avl_ok (build fruit).
Proof. exact (proj1 fruit_inv). Qed.

Lemma veg_avl : avl_ok (build veg).
Proof. exact (proj1 veg_inv). Qed.

Lemma avl_node_join_correct_witness :
  exists t, avl_node_join (build fruit) (build []) (9, 90) = Some t
    /\ avl_check_balance t = true /\ elements t = fruit ++ [(9, 90)].
Proof.
  destruct (avl_node_join_correct (build fruit) (build []) (9, 90) fruit_avl
      (proj1 (build_elements [])))
    as (t & Et & _ & Hb & He & _).
  exists t. split_and!; [exact Et | exact Hb | computed He].
Defined.

Lemma avl_height_log_witness : height (build fruit) = 3 /\ 2 ^ (height (build fruit) / 2) <= 5.
Proof.
  split; [reflexivity |]. pose proof (avl_height_log (build fruit) fruit_avl) as Hl.
  exact Hl.
Defined.

Lemma insert_find_witness :
  exists t', insert (fun old new => old + new) (build fruit) (5, 7) = Some t'
    /\ find t' 5 = Some (5, 57) /\ find t' 3 = Some (3, 30).
Proof.
  destruct (insert_find (fun old new => old + new) (build fruit) (5, 7) fruit_inv)
    as (t' & Et & _ & Hf & Ho).
  exists t'. split_and!; [exact Et | computed Hf |]. now rewrite Ho.
Defined.

Lemma deletet_find_witness :
  exists t', deletet (build fruit) 3 = Some t' /\ find t' 3 = None /\ find t' 5 = Some (5, 50).
Proof.
  destruct (deletet_find (build fruit) 3 fruit_inv) as (t' & Et & _ & Hf & Ho).
  exists t'. split_and!; [exact Et | exact Hf |]. now rewrite Ho.
Defined.

Lemma split_correct_witness :
  exists s, split_inplace (fun _ => true) (build fruit) 5 = Some s
    /\ entry s = Some (5, 50)
    /\ fruit = elements (first s) ++ option_list (entry s) ++ elements (second s).
Proof.
  destruct (split_correct (fun _ => true) (build fruit) 5 fruit_inv)
    as (s & Es & _ & _ & _ & _ & He & Hall).
  exists s. split_and!; [exact Es | computed He | exact Hall].
Defined.

Lemma uniont_find_witness :
  exists t, uniont Z.sub (build fruit) (build veg) = Some t
    /\ find t 3 = Some (3, 29) /\ find t 4 = Some (4, 2) /\ find t 6 = None.
Proof.
  destruct (uniont_find Z.sub (build fruit) (build veg) fruit_inv veg_inv) as (t & Et & _ & Hf).
  exists t. split; [exact Et |]. now rewrite !Hf.
Defined.

Lemma difference_find_witness :
  exists t, difference (build fruit) (build veg) = Some t
    /\ find t 3 = None /\ find t 1 = Some (1, 10).
Proof.
  destruct (difference_find (build fruit) (build veg) fruit_inv veg_inv) as (t & Et & _ & Hf).
  exists t. split; [exact Et |]. now rewrite !Hf.
Defined.

Lemma intersect_find_witness :
  exists t : zmap, intersect Z.add (build fruit) (build veg) = Some t
    /\ find t 3 = Some (3, 31) /\ find t 4 = None.
Proof.
  destruct (intersect_find Z.add (build fruit) (build veg) fruit_inv veg_inv) as (t & Et & _ & Hf).
  exists t. split; [exact Et |]. now rewrite !Hf.
Defined.

Lemma range_correct_witness :
  (exists t', range (build fruit) 2 5 = Some t' /\ elements t' = [(3, 30); (5, 50)])
  /\ (exists t', range_num (build fruit) 2 1 = Some t' /\ elements t' = [(3, 30)]).
Proof.
  destruct (range_correct (build fruit) 2 5 1 fruit_inv fruit_indexed ltac:(lia))
    as [(t1 & E1 & _ & L1) (t2 & E2 & _ & L2)].
  split; [exists t1 | exists t2]; (split; [assumption |]); [computed L1 | computed L2].
Defined.

Lemma rank_select_witness :
  rank (build fruit) 5 = 2 /\ select (build fruit) (rank (build fruit) 5) = Some (5, 50).
Proof.
  destruct (rank_select (build fruit) 5 2 fruit_inv fruit_indexed ltac:(lia)) as (Hr & _ & Hs).
  split; [computed Hr |]. rewrite Hs; [reflexivity | now vm_compute].
Defined.

Lemma neighbours_correct_witness :
  previous (build fruit) 4 = Some (3, 30) /\ next (build fruit) 7 = None.
Proof.
  split.
  - rewrite (proj1 (neighbours_correct (build fruit) 4 fruit_inv)). reflexivity.
  - rewrite (proj2 (neighbours_correct (build fruit) 7 fruit_inv)). reflexivity.
Defined.

Lemma take_overshoots_witness :
  exists t', take (build fruit) 2 = Some t' /\ (2 < length (elements t'))%nat.
Proof.
  destruct (take_overshoots (build fruit) 2 (proj1 fruit_inv) fruit_indexed ltac:(lia))
    as (t' & m & Et & _ & Em & Hm & _).
  exists t'. split; [exact Et |]. rewrite Em, length_take.
  change (length (elements (build fruit))) with 4%nat in *. lia.
Defined.

Lemma multi_insert_find_witness :
  exists t', multi_insert_sorted (fun old new => old + new) (build fruit) veg = Some t'
    /\ find t' 3 = Some (3, 31) /\ find t' 4 = Some (4, 2) /\ find t' 7 = Some (7, 70).
Proof.
  destruct (multi_insert_find (fun old new => old + new) (build fruit) veg fruit_inv
              ltac:(sorted_list)) as (t' & Et & _ & Hf).
  exists t'. split; [exact Et |]. now rewrite !Hf.
Defined.

Lemma multi_delete_and_find_witness :
  (exists t', multi_delete_sorted (build fruit) [1; 2; 5] = Some t'
     /\ find t' 1 = None /\ find t' 3 = Some (3, 30))
  /\ (exists ws, multi_find_sorted (build fruit) [1; 2; 5] 0 = Some ws /\ (2%nat, 50) ∈ ws).
Proof.
  destruct (multi_delete_and_find (build fruit) [1; 2; 5] 0 fruit_inv ltac:(sorted_list))
    as [(t' & Et & _ & Hf) (ws & Ew & Hw)].
  split; [exists t' | exists ws]; (split; [assumption |]); [now rewrite !Hf |].
  apply Hw. exists 2%nat, 5, (5, 50). auto.
Defined.

Lemma sum_comm (x y : Z) : combine (E := Z * Z) x y = combine (E := Z * Z) y x.
Proof. apply Z.add_comm. Qed.

Lemma aug_range_is_range_sum_witness : aug_range (build fruit) 2 6 = 80.
Proof.
  destruct (aug_range_is_range_sum (build fruit) 2 6 sum_comm fruit_inv) as (t' & _ & _ & ->).
  reflexivity.
Defined.

(** The maximum of the values, for pruning tests. *)
#[export] Instance max_aug : EntryAug (Z * Z) (option Z) :=
  {| get_empty := None;
     from_entry e := Some e.2;
     combine x y := match x, y with
                    | Some a, Some b => Some (Z.max a b)
                    | None, _ => y
                    | _, None => x
                    end |}.

#[export] Instance max_aug_laws : EntryAugLaws (Z * Z) (option Z).
Proof.
  split; cbn; try (intros [x|]; reflexivity).
  intros [x|] [y|] [z|]; cbn; try reflexivity. now rewrite Z.max_assoc.
Qed.

Definition at_least (n : Z) (m : option Z) : bool :=
  match m with Some x => n <=? x | None => false end.

Lemma at_least_or n x y : at_least n (combine (E := Z * Z) x y) = at_least n x || at_least n y.
Proof.
  destruct x as [x|], y as [y|]; cbn; [|now rewrite orb_false_r | reflexivity | reflexivity].
  apply eq_true_iff_eq. rewrite orb_true_iff, !Z.leb_le. lia.
Qed.

Definition max_fruit : PamTree.tree (Z * Z) (option Z) avl_data :=
  default Null (from_array fruit).

Lemma max_fruit_inv : map_inv max_fruit.
Proof.
  unfold max_fruit. destruct (from_array_ok (A := option Z) (B := avl_data) fruit)
    as (t & -> & Hok & He).
  split; [exact Hok |]. change (sorted (elements t)). rewrite He. sorted_list.
Qed.

Lemma aug_filter_is_filter_witness :
  exists t, aug_filter (at_least 50) max_fruit = Some t /\ elements t = [(5, 50); (7, 70)].
Proof.
  pose proof (aug_filter_is_filter (at_least 50) max_fruit) as Hf.
  destruct (Hf eq_refl (at_least_or 50) max_fruit_inv)
    as (t1 & t2 & E1 & _ & _ & El1 & El2).
  exists t1. split; [exact E1 |]. rewrite El1. computed El2.
Defined.

Lemma not_at_least_and n x y :
  negb (at_least n (combine (E := Z * Z) x y)) = negb (at_least n x) && negb (at_least n y).
Proof. rewrite at_least_or. apply negb_orb. Qed.

Lemma aug_select_first_witness :
  aug_select (fun m => negb (at_least 50 m)) max_fruit = Some (5, 50).
Proof.
  pose proof (aug_select_first (fun m => negb (at_least 50 m)) max_fruit) as Hs.
  exact (Hs eq_refl (not_at_least_and 50) max_fruit_inv).
Defined.
