(* ===== verification/ALock.v ===== *)
(** * The queued lock: data, acquisition and release

    [rrr::ALock] and the parts that [WaitDieALock] and [WoundDieALock] share
    (rrr/misc/alock.hpp, rrr/misc/alock.cpp): the request queue, the acquire
    helpers and [abort], which both classes have in the same text up to the two
    queue counters of the first.  A callback is recorded as an event, in the
    order in which the code calls it; a failed [verify] is [None]. *)

From Stdlib Require Import ZArith Lia Sorting.Sorted.
From stdpp Require Import base list option.
From S2P Require Import Prelude.
Local Open Scope Z_scope.

Inductive type_t := RLOCK | WLOCK.
Inductive status_t := FREE | WLOCKED | RLOCKED.
Inductive lock_req_status_t := WAIT | LOCK.

#[export] Instance type_t_eq : EqDecision type_t.
Proof. solve_decision. Defined.
#[export] Instance status_t_eq : EqDecision status_t.
Proof. solve_decision. Defined.
#[export] Instance lock_req_status_t_eq : EqDecision lock_req_status_t.
Proof. solve_decision. Defined.

(** The callbacks of a request are identified by its [id]. *)
Record lock_req_t := { id : Z; priority : Z; type : type_t; status : lock_req_status_t }.

(** What the lock calls: [yes_callback(id)], [no_callback()] or
    [wound_callback()] of a request, with the answer of the last. *)
Inductive event := Yes (i : Z) | No (i : Z) | Wound (i ret : Z).

Record alock := {
  next_id_ : Z;
  status_ : status_t;
  n_rlock_ : Z;
  done_ : bool;
  requests_ : list lock_req_t }.

Definition alock_init : alock :=
  {| next_id_ := 1; status_ := FREE; n_rlock_ := 0; done_ := false; requests_ := [] |}.

Definition set_status (st : status_t) (s : alock) : alock :=
  {| next_id_ := next_id_ s; status_ := st; n_rlock_ := n_rlock_ s; done_ := done_ s;
     requests_ := requests_ s |}.
Definition set_n_rlock (n : Z) (s : alock) : alock :=
  {| next_id_ := next_id_ s; status_ := status_ s; n_rlock_ := n; done_ := done_ s;
     requests_ := requests_ s |}.
Definition set_requests (l : list lock_req_t) (s : alock) : alock :=
  {| next_id_ := next_id_ s; status_ := status_ s; n_rlock_ := n_rlock_ s; done_ := done_ s;
     requests_ := l |}.

Definition get_next_id (s : alock) : Z * alock :=
  (next_id_ s,
   {| next_id_ := wrap 64 (next_id_ s + 1); status_ := status_ s; n_rlock_ := n_rlock_ s;
      done_ := done_ s; requests_ := requests_ s |}).

(** [verify(b)] aborts the program when [b] is false. *)
Definition verify (b : bool) : option unit := if b then Some tt else None.

(** ** Acquisition

    A pointer or iterator into the list is the position of the element: the
    requests before it, the element and those after it. *)

Definition is_w (r : lock_req_t) : bool := bool_decide (type r = WLOCK).
Definition is_waiting (r : lock_req_t) : bool := bool_decide (status r = WAIT).
Definition locked (r : lock_req_t) : lock_req_t :=
  {| id := id r; priority := priority r; type := type r; status := LOCK |}.

Definition write_acquire (s : alock) (pre : list lock_req_t) (lock_req : lock_req_t)
    (post : list lock_req_t) : option (alock * list event) :=
  _ ← verify (is_w lock_req && is_waiting lock_req);
  Some (set_requests (pre ++ locked lock_req :: post) (set_status WLOCKED s),
        [Yes (id lock_req)]).

Definition read_acquire (s : alock) (pre : list lock_req_t) (lock_req : lock_req_t)
    (post : list lock_req_t) : option (alock * list event) :=
  _ ← verify (negb (is_w lock_req) && is_waiting lock_req);
  let s := if n_rlock_ s =? 0 then set_status RLOCKED s else s in
  let s := set_n_rlock (swrap 64 (n_rlock_ s + 1)) s in
  Some (set_requests (pre ++ locked lock_req :: post) s, [Yes (id lock_req)]).

(** The overload on a vector of pointers, which point to consecutive requests. *)
Definition read_acquire_all (s : alock) (pre lock_reqs post : list lock_req_t) :
    option (alock * list event) :=
  match lock_reqs with
  | [] => Some (s, [])
  | _ =>
      let s := if n_rlock_ s =? 0 then set_status RLOCKED s else s in
      let s := set_n_rlock (swrap 64 (n_rlock_ s + Z.of_nat (length lock_reqs))) s in
      _ ← verify (forallb (fun r => negb (is_w r) && is_waiting r) lock_reqs);
      Some (set_requests (pre ++ (locked <$> lock_reqs) ++ post) s,
            (fun r => Yes (id r)) <$> lock_reqs)
  end.

(** The loop that collects read requests up to the next write request. *)
Fixpoint leading_reads (l : list lock_req_t) : list lock_req_t * list lock_req_t :=
  match l with
  | [] => ([], [])
  | r :: l' =>
      if is_w r then ([], l) else let (rs, rest) := leading_reads l' in (r :: rs, rest)
  end.

(** The search loop of [abort]. *)
Fixpoint find_req (i : Z) (l : list lock_req_t) :
    option (list lock_req_t * lock_req_t * list lock_req_t) :=
  match l with
  | [] => None
  | r :: l' =>
      if id r =? i then Some ([], r, l')
      else '(pre, it, post) ← find_req i l'; Some (r :: pre, it, post)
  end.

Definition n_w (l : list lock_req_t) : nat := length (List.filter is_w l).

(** ** [abort]: cancels a waiting request or releases a held one *)

Definition abort (s : alock) (i : Z) : option (alock * list event) :=
  if done_ s then Some (s, [])
  else
    match find_req i (requests_ s) with
    | None => Some (s, [])
    | Some (pre, it, post) =>
        let n_w_before_this := n_w pre in
        let erased := set_requests (pre ++ post) s in
        if is_waiting it then
          '(s, evs) ←
            (if is_w it && bool_decide (n_w_before_this = 0%nat) then
               _ ← verify (bool_decide (status_ s = RLOCKED));
               let (lock_reqs, rest) := leading_reads post in
               read_acquire_all erased pre lock_reqs rest
             else Some (erased, []));
          Some (s, evs ++ [No (id it)])
        else if negb (is_w it) then
          let s := set_n_rlock (swrap 64 (n_rlock_ s - 1)) erased in
          if n_rlock_ s =? 0 then
            match post with
            | [] =>
                let s := set_status FREE s in
                _ ← verify (bool_decide (length (requests_ s) = 0%nat));
                Some (s, [])
            | next :: post' => write_acquire s pre next post'
            end
          else Some (s, [])
        else
          match post with
          | [] =>
              let s := set_status FREE erased in
              _ ← verify (bool_decide (length (requests_ s) = 0%nat));
              Some (s, [])
          | next :: post' =>
              if is_w next then write_acquire erased pre next post'
              else
                let (lock_reqs, rest) := leading_reads post in
                '(s, evs) ← read_acquire_all erased pre lock_reqs rest;
                _ ← verify (bool_decide (status_ s = RLOCKED));
                Some (s, evs)
          end
    end.

(** The destructor: the requests that still wait are told no. *)
Definition destroy (s : alock) : option (alock * list event) :=
  _ ← verify (negb (done_ s));
  _ ← verify (negb (bool_decide (status_ s = RLOCKED)));
  Some ({| next_id_ := next_id_ s; status_ := status_ s; n_rlock_ := n_rlock_ s; done_ := true;
           requests_ := [] |},
        (fun r => No (id r)) <$> List.filter is_waiting (requests_ s)).

(** ** The queue invariant

    The granted requests [L] form a prefix of the queue, the waiting ones [W]
    the rest; the status and the reader count describe [L]. *)

Definition held (L : list lock_req_t) (st : status_t) (n : Z) : Prop :=
  match st with
  | FREE => L = [] /\ n = 0
  | WLOCKED => n = 0 /\ exists w, L = [w] /\ is_w w = true
  | RLOCKED => L <> [] /\ Forall (fun r => is_w r = false) L /\ n = Z.of_nat (length L)
  end.

Definition queued (s : alock) (L W : list lock_req_t) : Prop :=
  requests_ s = L ++ W
  /\ Forall (fun r => is_waiting r = false) L /\ Forall (fun r => is_waiting r = true) W
  /\ held L (status_ s) (n_rlock_ s).

(** No request waits that could be granted. *)
Definition no_grantable (st : status_t) (W : list lock_req_t) : Prop :=
  match st with
  | FREE => W = []
  | RLOCKED => match W with [] => True | r :: _ => is_w r = true end
  | WLOCKED => True
  end.

Definition shape (s : alock) (L W : list lock_req_t) : Prop :=
  queued s L W /\ no_grantable (status_ s) W.

(** What does not change when a request is granted. *)
Definition strip (r : lock_req_t) : Z * Z * type_t := (id r, priority r, type r).

Definition ids (l : list lock_req_t) : list Z := id <$> l.
Definition other (i : Z) (r : lock_req_t) : bool := negb (id r =? i).

Fixpoint yes_ids (evs : list event) : list Z :=
  match evs with
  | [] => []
  | Yes i :: evs' => i :: yes_ids evs'
  | _ :: evs' => yes_ids evs'
  end.
Fixpoint no_ids (evs : list event) : list Z :=
  match evs with
  | [] => []
  | No i :: evs' => i :: no_ids evs'
  | _ :: evs' => no_ids evs'
  end.

Lemma yes_ids_app a b : yes_ids (a ++ b) = yes_ids a ++ yes_ids b.
Proof. induction a as [|[] a IH]; cbn; now rewrite ?IH. Qed.
Lemma no_ids_app a b : no_ids (a ++ b) = no_ids a ++ no_ids b.
Proof. induction a as [|[] a IH]; cbn; now rewrite ?IH. Qed.

Lemma yes_ids_granted rs : yes_ids ((fun r => Yes (id r)) <$> rs) = ids rs.
Proof. induction rs as [|r rs IH]; cbn; [reflexivity |]. unfold ids in IH. now rewrite IH. Qed.
Lemma no_ids_granted rs : no_ids ((fun r => Yes (id r)) <$> rs) = [].
Proof. now induction rs. Qed.

Lemma ids_locked rs : ids (locked <$> rs) = ids rs.
Proof. unfold ids. rewrite <- list_fmap_compose. reflexivity. Qed.
Lemma strip_locked (rs : list lock_req_t) : strip <$> (locked <$> rs) = strip <$> rs.
Proof. rewrite <- list_fmap_compose. reflexivity. Qed.

Lemma locked_not_waiting rs : Forall (fun r => is_waiting r = false) (locked <$> rs).
Proof. induction rs; constructor; auto. Qed.
Lemma locked_readers rs :
  Forall (fun r => is_w r = false) rs -> Forall (fun r => is_w r = false) (locked <$> rs).
Proof. induction 1; constructor; auto. Qed.

Lemma n_w_app a b : n_w (a ++ b) = (n_w a + n_w b)%nat.
Proof. unfold n_w. now rewrite List.filter_app, length_app. Qed.
Lemma n_w_readers L : Forall (fun r => is_w r = false) L -> n_w L = 0%nat.
Proof. intros HL. unfold n_w. now rewrite filter_none. Qed.

Lemma leading_reads_spec l :
  l = (leading_reads l).1 ++ (leading_reads l).2
  /\ Forall (fun r => is_w r = false) (leading_reads l).1
  /\ match (leading_reads l).2 with [] => True | r :: _ => is_w r = true end.
Proof.
  induction l as [|r l IH]; [repeat constructor |]. cbn. destruct (is_w r) eqn:E.
  - cbn. auto.
  - destruct (leading_reads l) as [rs rest]. cbn in *. destruct IH as (-> & Hrs & Hr).
    split_and!; [reflexivity | constructor |]; auto.
Qed.

Lemma find_req_spec i l :
  match find_req i l with
  | None => Forall (fun r => other i r = true) l
  | Some (pre, it, post) =>
      l = pre ++ it :: post /\ id it = i /\ Forall (fun r => other i r = true) pre
  end.
Proof.
  induction l as [|r l IH]; cbn; [constructor |]. destruct (Z.eqb_spec (id r) i) as [E|E].
  - auto.
  - assert (Ho : other i r = true) by (unfold other; now apply negb_true_iff, Z.eqb_neq).
    destruct (find_req i l) as [[[pre it] post]|]; cbn; [|auto].
    destruct IH as (-> & Hi & Hp). split_and!; auto.
Qed.

(** With distinct identifiers, erasing the request that was found is filtering
    its identifier out. *)
Lemma other_erased i l pre it post :
  NoDup (ids l) -> find_req i l = Some (pre, it, post) ->
  l = pre ++ it :: post /\ id it = i /\ List.filter (other i) l = pre ++ post
  /\ Forall (fun r => other i r = true) (pre ++ post).
Proof.
  intros Hnd Hf. pose proof (find_req_spec i l) as Hs. rewrite Hf in Hs.
  destruct Hs as (-> & Hi & Hp).
  assert (Hpost : Forall (fun r => other i r = true) post).
  { unfold ids in Hnd. rewrite fmap_app, fmap_cons in Hnd. apply list.NoDup_app in Hnd as (_ & _ & Hnd).
    apply list.NoDup_cons in Hnd as [Hn _]. apply Forall_forall. intros r Hr. apply list_elem_of_In in Hr.
    unfold other. apply negb_true_iff, Z.eqb_neq. intros E. apply Hn. rewrite Hi, <- E.
    now apply list_elem_of_fmap_2. }
  split_and!; auto; [|now apply Forall_app].
  rewrite filter_app_cons, !filter_all by assumption. unfold other at 1.
  rewrite Hi, Z.eqb_refl. reflexivity.
Qed.


(** ** Specifications of the acquire helpers *)

(** [s'] differs from [s] at most in the queue and the status of the lock. *)
Definition same_client (s s' : alock) : Prop :=
  next_id_ s' = next_id_ s /\ done_ s' = done_ s.

#[export] Instance same_client_preorder : PreOrder same_client.
Proof.
  split; [split; reflexivity |]. intros x y z [H1 H2] [H3 H4]. split; congruence.
Qed.

Lemma write_acquire_ok s w W :
  is_w w = true -> is_waiting w = true -> Forall (fun r => is_waiting r = true) W ->
  n_rlock_ s = 0 ->
  runs (write_acquire s [] w W) (fun '(s', evs) =>
    shape s' [locked w] W /\ evs = [Yes (id w)] /\ same_client s s').
Proof.
  intros Hw Hwt HW Hn. unfold write_acquire. rewrite Hw, Hwt. cbn. apply runs_ret.
  unfold same_client, shape, queued. cbn. split_and!; eauto.
Qed.

(** The status after the test [if (n_rlock_ == 0) status_ = RLOCKED]. *)
Lemma mark_read s (L : list lock_req_t) :
  n_rlock_ s = Z.of_nat (length L) -> (L <> [] -> status_ s = RLOCKED) ->
  let s1 := if n_rlock_ s =? 0 then set_status RLOCKED s else s in
  status_ s1 = RLOCKED /\ n_rlock_ s1 = Z.of_nat (length L) /\ same_client s s1.
Proof.
  intros Hn Hst. cbv zeta. destruct (Z.eqb_spec (n_rlock_ s) 0) as [E|E].
  - repeat split; auto.
  - repeat split; auto. apply Hst. intros ->. now rewrite Hn in E.
Qed.

Lemma verify_reads rs :
  Forall (fun r => is_w r = false) rs -> Forall (fun r => is_waiting r = true) rs ->
  forallb (fun r => negb (is_w r) && is_waiting r) rs = true.
Proof. intros Hr Hw. induction Hr as [|r rs E _ IH]; [reflexivity |].
  apply Forall_cons_iff in Hw as [Ew Hw]. cbn. now rewrite E, Ew, IH. Qed.

(** Granting the leading read requests of [W] to a lock that is free or that the
    readers [L] hold. *)
Lemma read_acquire_all_ok s L W :
  Forall (fun r => is_waiting r = false) L -> Forall (fun r => is_w r = false) L ->
  Forall (fun r => is_waiting r = true) W ->
  n_rlock_ s = Z.of_nat (length L) -> (L <> [] -> status_ s = RLOCKED) ->
  requests_ s = L ++ W -> L ++ (leading_reads W).1 <> [] ->
  Z.of_nat (length (L ++ W)) < 2 ^ 63 ->
  runs (read_acquire_all s L (leading_reads W).1 (leading_reads W).2) (fun '(s', evs) =>
    shape s' (L ++ (locked <$> (leading_reads W).1)) (leading_reads W).2
    /\ status_ s' = RLOCKED
    /\ evs = ((fun r => Yes (id r)) <$> (leading_reads W).1) /\ same_client s s').
Proof.
  intros HL HLr HW Hn Hst Hreq Hne Hlen.
  destruct (leading_reads_spec W) as (EW & Hrs & Hrest).
  destruct (leading_reads W) as [rs rest]. cbn [fst snd] in *. subst W.
  apply Forall_app in HW as [HWrs HWrest]. rewrite !length_app in Hlen.
  destruct (mark_read s L Hn Hst) as (Hs1 & Hn1 & Hc1).
  unfold read_acquire_all. destruct rs as [|r rs].
  - apply runs_ret. cbn. rewrite app_nil_r in *. specialize (Hst Hne).
    unfold same_client. split_and!; auto. unfold shape, queued, no_grantable, held.
    rewrite Hst. repeat split; auto.
  - rewrite verify_reads by assumption. revert Hs1 Hn1 Hc1.
    generalize (if n_rlock_ s =? 0 then set_status RLOCKED s else s). intros s1 Hs1 Hn1 Hc1.
    cbn [verify mbind option_bind]. apply runs_ret. unfold same_client in *. cbn [set_requests set_n_rlock next_id_ done_].
    split_and!; try tauto; try exact Hs1. unfold shape, queued.
    cbn [set_requests set_n_rlock requests_ status_ n_rlock_]. rewrite Hs1, Hn1, swrap_small by lia.
    rewrite app_assoc. cbn [held no_grantable]. rewrite length_app, length_fmap. split_and!; auto.
    + apply Forall_app. auto using locked_not_waiting.
    + destruct L; discriminate.
    + apply Forall_app. auto using locked_readers.
    + lia.
Qed.

(** ** [abort] *)

(** Where a request of the queue is. *)
Lemma queue_position L W pre it post :
  Forall (fun r => is_waiting r = false) L -> Forall (fun r => is_waiting r = true) W ->
  L ++ W = pre ++ it :: post ->
  if is_waiting it then exists W1, pre = L ++ W1 /\ W = W1 ++ it :: post
  else exists L2, L = pre ++ it :: L2 /\ post = L2 ++ W.
Proof.
  intros HL HW. revert pre. induction HL as [|r L Hr HL IH]; intros pre E.
  - cbn in E. subst W. apply Forall_app in HW as [_ [-> _]%Forall_cons_iff]. eauto.
  - destruct pre as [|p pre]; cbn in E; injection E as <- E.
    + rewrite Hr. subst post. exists L. auto.
    + specialize (IH pre E). destruct (is_waiting it); destruct IH as (x & -> & ->); eauto.
Qed.

(** What [abort(i)] does to a queue: the request [i] is gone, the order of the
    others is kept, the requests granted are told yes in the order of the queue
    and are appended to the granted ones, and [i] is told no if it was waiting. *)
Definition released (s : alock) (i : Z) (L W : list lock_req_t) (res : alock * list event) : Prop :=
  exists L' W', shape res.1 L' W'
    /\ strip <$> (L' ++ W') = strip <$> List.filter (other i) (L ++ W)
    /\ ids L' = ids (List.filter (other i) L) ++ yes_ids res.2
    /\ no_ids res.2 = ids (List.filter (fun r => negb (other i r)) W)
    /\ same_client s res.1.

Lemma filter_this i it a b :
  id it = i -> Forall (fun r => other i r = true) a -> Forall (fun r => other i r = true) b ->
  List.filter (other i) (a ++ it :: b) = a ++ b
  /\ List.filter (fun r => negb (other i r)) (a ++ it :: b) = [it].
Proof.
  intros Hi Ha Hb. rewrite !filter_app_cons, !(filter_all (other i)) by assumption.
  rewrite !(filter_none (fun r => negb (other i r)))
    by (eapply Forall_weaken; [eassumption |]; cbn; intros x Hx; now rewrite Hx).
  unfold other. rewrite Hi, Z.eqb_refl. auto.
Qed.

Lemma filter_not_this i a :
  Forall (fun r => other i r = true) a ->
  List.filter (other i) a = a /\ List.filter (fun r => negb (other i r)) a = [].
Proof.
  intros Ha. split; [now apply filter_all | apply filter_none].
  eapply Forall_weaken; [exact Ha |]. cbn. intros x ->. reflexivity.
Qed.

(** Aborting a request that waits behind [L ++ W1]. *)
Lemma abort_waiting_ok s L W1 it W2 :
  shape s L (W1 ++ it :: W2) -> Z.of_nat (length (L ++ W1 ++ it :: W2)) < 2 ^ 63 ->
  Forall (fun r => other (id it) r = true) (L ++ W1 ++ W2) ->
  runs ('(s', evs) ←
          (if is_w it && bool_decide (n_w (L ++ W1) = 0%nat) then
             _ ← verify (bool_decide (status_ s = RLOCKED));
             let (lock_reqs, rest) := leading_reads W2 in
             read_acquire_all (set_requests ((L ++ W1) ++ W2) s) (L ++ W1) lock_reqs rest
           else Some (set_requests ((L ++ W1) ++ W2) s, []));
        Some (s', evs ++ [No (id it)])) (released s (id it) L (W1 ++ it :: W2)).
Proof.
  intros [(Hreq & HL & HW & Hheld) Hng] Hlen Ho.
  rewrite !Forall_app in Ho. destruct Ho as (HoL & Ho1 & Ho2).
  destruct (filter_this (id it) it W1 W2 eq_refl Ho1 Ho2) as [F1 F2].
  destruct (filter_not_this (id it) L HoL) as [F3 _].
  apply Forall_app in HW as [HW1 HW2]. apply Forall_cons_iff in HW2 as [Hit HW2].
  destruct (is_w it && bool_decide (n_w (L ++ W1) = 0%nat)) eqn:Eb.
  - apply andb_true_iff in Eb as [Ew En%bool_decide_eq_true]. rewrite n_w_app in En.
    destruct (status_ s) eqn:Es; cbn [held no_grantable] in *.
    { destruct W1; discriminate. }
    { destruct Hheld as (_ & w & -> & Hw). cbn in En. rewrite Hw in En. cbn in En. lia. }
    destruct Hheld as (Hne & HLr & Hn).
    assert (W1 = []) as ->.
    { destruct W1 as [|r W1]; [reflexivity |]. unfold n_w in En. cbn in En, Hng.
      rewrite Hng in En. cbn in En. lia. }
    rewrite app_nil_r, bool_decide_true by reflexivity. cbn [verify mbind option_bind].
    pose proof (read_acquire_all_ok (set_requests (L ++ W2) s) L W2 HL HLr HW2 Hn
                  (fun _ => Es) eq_refl) as Hacq.
    destruct (leading_reads_spec W2) as (EW2 & _ & _).
    destruct (leading_reads W2) as [rs rest]. cbn [fst snd] in *.
    eapply runs_bind.
    { apply Hacq; [destruct L; [contradiction | discriminate] |].
      rewrite !length_app in *. cbn in Hlen. lia. }
    intros [s' evs] (Hsh & _ & -> & Hc). apply runs_ret.
    exists (L ++ (locked <$> rs)), rest. cbn [fst snd]. split_and!; auto.
    + rewrite List.filter_app, F1, F3, !fmap_app, strip_locked, EW2. cbn.
      now rewrite fmap_app, app_assoc.
    + rewrite F3, yes_ids_app, yes_ids_granted. unfold ids. rewrite fmap_app. fold (ids (locked <$> rs)).
      rewrite ids_locked, app_nil_r. reflexivity.
    + rewrite F2, no_ids_app, no_ids_granted. reflexivity.
  - cbn. apply runs_ret. exists L, (W1 ++ W2). cbn [fst snd]. unfold shape, queued. cbn.
    rewrite app_nil_r, List.filter_app, F1, F2, F3, <- app_assoc.
    split_and!; auto; [now apply Forall_app | | now split].
    destruct (status_ s) eqn:Es; cbn in *; auto; [now destruct W1 |].
    destruct W1 as [|r W1]; [|exact Hng]. cbn in Hng. rewrite Hng in Eb. cbn in Eb.
    apply bool_decide_eq_false in Eb. exfalso. apply Eb.
    rewrite app_nil_r. apply n_w_readers. apply Hheld.
Qed.

(** Granting the front of the queue after the last holder [it] has left. *)
Lemma released_front s it W s' evs w W' :
  W = w :: W' -> Forall (fun r => other (id it) r = true) W ->
  shape s' [locked w] W' -> evs = [Yes (id w)] -> same_client s s' ->
  released s (id it) [it] W (s', evs).
Proof.
  intros -> Ho Hsh -> Hc. exists [locked w], W'. cbn [fst snd].
  destruct (filter_this (id it) it [] (w :: W') eq_refl ltac:(constructor) Ho) as [F1 _].
  destruct (filter_not_this (id it) (w :: W') Ho) as [_ F2].
  destruct (filter_this (id it) it [] [] eq_refl ltac:(constructor) ltac:(constructor)) as [F3 _].
  cbn [app] in *. rewrite F1, F2, F3. split_and!; auto.
Qed.

(** The lock becomes free. *)
Lemma released_free s it s' :
  shape s' [] [] -> same_client s s' -> released s (id it) [it] [] (s', []).
Proof.
  intros Hsh Hc. exists [], []. cbn [fst snd].
  destruct (filter_this (id it) it [] [] eq_refl ltac:(constructor) ltac:(constructor)) as [F _].
  cbn [app] in *. rewrite F. split_and!; auto.
Qed.

Lemma shape_free s :
  status_ s = FREE -> n_rlock_ s = 0 -> requests_ s = [] -> shape s [] [].
Proof. intros E1 E2 E3. unfold shape, queued, held, no_grantable. rewrite E1. split_and!; auto. Qed.

(** Releasing a read lock. *)
Lemma abort_reader_ok s L1 it L2 W :
  shape s (L1 ++ it :: L2) W -> is_w it = false ->
  Z.of_nat (length ((L1 ++ it :: L2) ++ W)) < 2 ^ 63 ->
  Forall (fun r => other (id it) r = true) (L1 ++ L2 ++ W) ->
  runs (let s1 := set_n_rlock (swrap 64 (n_rlock_ s - 1))
                    (set_requests (L1 ++ L2 ++ W) s) in
        if n_rlock_ s1 =? 0 then
          match L2 ++ W with
          | [] =>
              let s2 := set_status FREE s1 in
              _ ← verify (bool_decide (length (requests_ s2) = 0%nat));
              Some (s2, [])
          | next :: post' => write_acquire s1 L1 next post'
          end
        else Some (s1, [])) (released s (id it) (L1 ++ it :: L2) W).
Proof.
  intros [(Hreq & HL & HW & Hheld) Hng] Hw Hlen Ho. rewrite !Forall_app in Ho.
  destruct Ho as (Ho1 & Ho2 & HoW).
  destruct (status_ s) eqn:Es; cbn [held no_grantable] in *.
  { destruct Hheld as [E _]. now destruct L1. }
  { destruct Hheld as (_ & w & E & Ew). destruct L1 as [|? [|]]; cbn in E; [|discriminate|discriminate].
    injection E as -> ->. congruence. }
  destruct Hheld as (_ & HLr & Hn). rewrite !length_app in *. cbn [length] in *.
  cbn [set_n_rlock n_rlock_ set_requests]. rewrite Hn, swrap_small by lia.
  replace (Z.of_nat (length L1 + S (length L2)) - 1) with (Z.of_nat (length (L1 ++ L2)))
    by (rewrite length_app; lia).
  destruct (Z.eqb_spec (Z.of_nat (length (L1 ++ L2))) 0) as [E0|E0].
  - assert (L1 = [] /\ L2 = []) as [-> ->] by (rewrite length_app in E0; destruct L1, L2; cbn in E0; auto; lia).
    cbn [app]. destruct W as [|w W'].
    + cbn. apply runs_ret, released_free; [now apply shape_free | now split].
    + apply Forall_cons_iff in HW as [Hwait HW'].
      eapply runs_mono; [apply write_acquire_ok; auto |].
      intros [s' evs] (Hsh & -> & Hc). eapply released_front; eauto.
  - apply runs_ret. exists (L1 ++ L2), W. cbn [fst snd].
    destruct (filter_this (id it) it L1 L2 eq_refl Ho1 Ho2) as [F1 _].
    destruct (filter_not_this (id it) W HoW) as [F2 F3].
    rewrite List.filter_app, F1, F2, F3, app_nil_r. split_and!; auto; [|now split].
    apply Forall_app in HL as [HL1 [_ HL2]%Forall_cons_iff].
    apply Forall_app in HLr as [HLr1 [_ HLr2]%Forall_cons_iff].
    unfold shape, queued. cbn. rewrite Es. cbn. split_and!; auto.
    + now rewrite app_assoc.
    + now apply Forall_app.
    + intros E. now rewrite E in E0.
    + now apply Forall_app.
Qed.

(** Releasing the write lock. *)
Lemma abort_writer_ok s it W :
  shape s [it] W -> is_w it = true -> Z.of_nat (length (it :: W)) < 2 ^ 63 ->
  Forall (fun r => other (id it) r = true) W ->
  runs (let erased := set_requests W s in
        match W with
        | [] =>
            let s := set_status FREE erased in
            _ ← verify (bool_decide (length (requests_ s) = 0%nat));
            Some (s, [])
        | next :: post' =>
            if is_w next then write_acquire erased [] next post'
            else
              let (lock_reqs, rest) := leading_reads W in
              '(s, evs) ← read_acquire_all erased [] lock_reqs rest;
              _ ← verify (bool_decide (status_ s = RLOCKED));
              Some (s, evs)
        end) (released s (id it) [it] W).
Proof.
  intros [(Hreq & HL & HW & Hheld) Hng] Hw Hlen Ho.
  assert (Hn : n_rlock_ s = 0).
  { destruct (status_ s); cbn in Hheld; try tauto.
    destruct Hheld as (_ & Hr & _). apply Forall_cons_iff in Hr as [? _]. congruence. }
  cbv zeta. destruct W as [|w W'].
  - cbn. apply runs_ret, released_free; [now apply shape_free | now split].
  - destruct (is_w w) eqn:Ew.
    + apply Forall_cons_iff in HW as [Hwait HW'].
      eapply runs_mono; [apply write_acquire_ok; auto |].
      intros [s' evs] (Hsh & -> & Hc). eapply released_front; eauto.
    + set (W := w :: W') in *.
      pose proof (read_acquire_all_ok (set_requests W s) [] W ltac:(constructor) ltac:(constructor)
                    HW Hn ltac:(now intros []) eq_refl) as Hacq.
      destruct (leading_reads_spec W) as (EW & _ & _).
      assert (Hne : (leading_reads W).1 <> []) by (cbn; rewrite Ew; now destruct (leading_reads W')).
      destruct (leading_reads W) as [rs rest]. cbn [fst snd] in *.
      eapply runs_bind; [apply Hacq; [exact Hne | cbn in *; lia] |].
      intros [s' evs] (Hsh & -> & -> & Hc). cbn. apply runs_ret.
      exists (locked <$> rs), rest. cbn [fst snd].
      destruct (filter_this (id it) it [] W eq_refl ltac:(constructor) Ho) as [F1 _].
      destruct (filter_not_this (id it) W Ho) as [_ F2].
      destruct (filter_this (id it) it [] [] eq_refl ltac:(constructor) ltac:(constructor)) as [F3 _].
      cbn [app] in *. rewrite F1, F2, F3, yes_ids_granted, no_ids_granted, ids_locked.
      split_and!; auto. now rewrite EW, !fmap_app, strip_locked.
Qed.

Lemma abort_ok s i L W :
  shape s L W -> done_ s = false -> NoDup (ids (requests_ s)) ->
  Z.of_nat (length (requests_ s)) < 2 ^ 63 ->
  runs (abort s i) (released s i L W).
Proof.
  intros Hsh Hd Hnd Hlen. pose proof Hsh as [(Hreq & HL & HW & Hheld) Hng].
  unfold abort. rewrite Hd, Hreq in *. destruct (find_req i (L ++ W)) as [[[pre it] post]|] eqn:Hf.
  - destruct (other_erased i (L ++ W) pre it post Hnd Hf) as (E & <- & _ & Ho).
    pose proof (queue_position L W pre it post HL HW E) as Hpos.
    destruct (is_waiting it) eqn:Ewt.
    + destruct Hpos as (W1 & -> & ->). rewrite <- app_assoc in Ho. now apply abort_waiting_ok.
    + destruct Hpos as (L2 & -> & ->). destruct (is_w it) eqn:Ew; cbn [negb].
      * assert (Hone : pre = [] /\ L2 = []).
        { destruct (status_ s); cbn in Hheld.
          - now destruct Hheld as [?%app_nil _].
          - destruct Hheld as (_ & w & E' & _). destruct pre as [|? []], L2; cbn in E'; try discriminate; auto.
          - destruct Hheld as (_ & Hr & _). apply Forall_app in Hr as [_ [? _]%Forall_cons_iff]. congruence. }
        destruct Hone as [-> ->]. now apply abort_writer_ok.
      * now apply abort_reader_ok.
  - pose proof (find_req_spec i (L ++ W)) as Ho. rewrite Hf in Ho. apply runs_ret.
    exists L, W. cbn [fst snd]. destruct (filter_not_this i _ Ho) as [-> _].
    apply Forall_app in Ho as [HoL HoW]. destruct (filter_not_this i _ HoL) as [-> _].
    destruct (filter_not_this i _ HoW) as [_ ->]. rewrite app_nil_r. split_and!; auto. now split.
Qed.

(** The granted and the waiting requests of a queue. *)
Definition granted_of (l : list lock_req_t) : list lock_req_t := List.filter (fun r => negb (is_waiting r)) l.
Definition waiting_of (l : list lock_req_t) : list lock_req_t := List.filter is_waiting l.

Lemma shape_split s L W :
  shape s L W -> granted_of (requests_ s) = L /\ waiting_of (requests_ s) = W.
Proof.
  intros [(-> & HL & HW & _) _]. unfold granted_of, waiting_of. rewrite !List.filter_app.
  rewrite (filter_all is_waiting W), (filter_none is_waiting L) by assumption.
  rewrite (filter_all (fun r => negb (is_waiting r)) L), (filter_none (fun r => negb (is_waiting r)) W);
    [now rewrite app_nil_r | |]; (eapply Forall_weaken; [eassumption |]); cbn; intros x ->; reflexivity.
Qed.

(** Two requests conflict unless both are reads. *)
Definition conflicts (ty : type_t) (r : lock_req_t) : bool :=
  bool_decide (ty = WLOCK) || is_w r.

Lemma conflicts_w r : conflicts WLOCK r = true.
Proof. reflexivity. Qed.
Lemma conflicts_r r : conflicts RLOCK r = is_w r.
Proof. reflexivity. Qed.
Lemma conflicts_self r ty : is_w r = true -> conflicts ty r = true.
Proof. unfold conflicts. intros ->. now rewrite orb_true_r. Qed.

Lemma type_is_w r : is_w r = true -> type r = WLOCK.
Proof. unfold is_w. now intros ?%bool_decide_eq_true. Qed.
Lemma type_is_r r : is_w r = false -> type r = RLOCK.
Proof. unfold is_w. intros E%bool_decide_eq_false. now destruct (type r). Qed.

(** An order on requests that granting does not affect. *)
Lemma sorted_strip (R : lock_req_t -> lock_req_t -> Prop) l l' :
  (forall a a' b b', strip a = strip a' -> strip b = strip b' -> R a b -> R a' b') ->
  strip <$> l = strip <$> l' -> StronglySorted R l -> StronglySorted R l'.
Proof.
  intros HR.
  assert (Hone : forall a a' l l', strip a = strip a' -> strip <$> l = strip <$> l' ->
            Forall (R a) l -> Forall (R a') l').
  { intros a a' x y Ha. revert y. induction x as [|r x IH]; intros [|r' y] E; try discriminate; auto.
    cbn in E. intros [Hr Hx]%Forall_cons_iff.
    constructor; [apply (HR a a' r r'); auto; congruence | apply IH; [congruence | exact Hx]]. }
  intros E Ho. revert l' E. induction Ho as [|a l Ho IH Ha]; intros [|a' l'] E; try discriminate; [constructor |].
  cbn in E. constructor; [apply IH; congruence | apply (Hone a a' l l'); auto; congruence].
Qed.

Lemma fresh_strip b l l' :
  strip <$> l = strip <$> l' -> Forall (fun r => id r < b) l -> Forall (fun r => id r < b) l'.
Proof.
  revert l'. induction l as [|r l IH]; intros [|r' l'] E Hl; try discriminate; auto.
  injection E as E1 _ _ E. apply Forall_cons_iff in Hl as [Hr Hl].
  constructor; [lia | now apply IH].
Qed.

Lemma NoDup_filtered f l : NoDup (ids l) -> NoDup (ids (List.filter f l)).
Proof.
  induction l as [|r l IH]; cbn; [auto |]. intros [Hn Hl]%list.NoDup_cons.
  destruct (f r); [|now apply IH]. cbn. apply list.NoDup_cons. split; [|now apply IH].
  intros Hin. apply Hn. apply list_elem_of_fmap in Hin as (y & -> & Hy).
  apply list_elem_of_In, List.filter_In in Hy as [Hy _].
  apply list_elem_of_fmap_2. now apply list_elem_of_In.
Qed.

Lemma NoDup_snoc l r b :
  NoDup (ids l) -> Forall (fun x => id x < b) l -> id r = b -> NoDup (ids (l ++ [r])).
Proof.
  intros Hnd Hfr Hid. unfold ids. rewrite fmap_app. apply list.NoDup_app. split_and!; auto.
  - intros x Hx ->%list_elem_of_singleton. apply list_elem_of_fmap in Hx as (y & E & Hy).
    rewrite Hid in E. apply list_elem_of_In in Hy. rewrite List.Forall_forall in Hfr.
    specialize (Hfr y Hy). lia.
  - repeat constructor. intros []%elem_of_nil.
Qed.

(** No two requests hold the lock unless both read. *)
Definition exclusive (l : list lock_req_t) : Prop :=
  forall i j a b, l !! i = Some a -> l !! j = Some b ->
    status a = LOCK -> status b = LOCK -> type a = WLOCK -> i = j.

Lemma shape_exclusive s L W : shape s L W -> exclusive (requests_ s).
Proof.
  intros [(Hreq & HL & HW & Hheld) _] i j a b Ha Hb Sa Sb Ta. rewrite Hreq in *.
  assert (Hin : forall k x, (L ++ W) !! k = Some x -> status x = LOCK -> L !! k = Some x).
  { intros k x Hk Sx. apply lookup_app_Some in Hk as [Hk|[_ Hk]]; [exact Hk | exfalso].
    rewrite List.Forall_forall in HW.
    assert (Hx : is_waiting x = true) by (apply HW; apply list_elem_of_In; eauto using list_elem_of_lookup_2).
    apply bool_decide_eq_true in Hx. congruence. }
  apply Hin in Ha; [|exact Sa]. apply Hin in Hb; [|exact Sb].
  destruct (status_ s); cbn in Hheld.
  - destruct Hheld as [-> _]. discriminate.
  - destruct Hheld as (_ & w & -> & _). apply list_lookup_singleton_Some in Ha as [-> _].
    now apply list_lookup_singleton_Some in Hb as [-> _].
  - destruct Hheld as (_ & Hr & _). rewrite List.Forall_forall in Hr.
    assert (Hx : is_w a = false) by (apply Hr; apply list_elem_of_In; eauto using list_elem_of_lookup_2).
    apply bool_decide_eq_false in Hx. congruence.
Qed.

(** ** Draining the queue: its holders leave one after the other *)

Fixpoint drain (fuel : nat) (s : alock) : option (alock * list event) :=
  match requests_ s, fuel with
  | r :: _, S fuel' =>
      '(s, evs) ← abort s (id r);
      '(s, evs') ← drain fuel' s;
      Some (s, evs ++ evs')
  | _, _ => Some (s, [])
  end.

Lemma shape_head s L W r l : shape s L W -> requests_ s = r :: l -> exists L', L = r :: L'.
Proof.
  intros [(Hreq & _ & _ & Hheld) Hng] E. destruct L as [|x L].
  - exfalso. cbn in Hreq. destruct (status_ s); cbn in *; [congruence | |].
    + destruct Hheld as (_ & w & ? & _). discriminate.
    + now destruct Hheld.
  - rewrite Hreq in E. injection E as -> _. eauto.
Qed.

Lemma ids_strip l : ids l = (fun x => x.1.1) <$> (strip <$> l).
Proof. unfold ids. now rewrite <- list_fmap_compose. Qed.

Lemma drain_ok fuel s L W :
  shape s L W -> done_ s = false -> NoDup (ids (requests_ s)) ->
  Z.of_nat (length (requests_ s)) < 2 ^ 63 -> (length (requests_ s) <= fuel)%nat ->
  runs (drain fuel s) (fun res => shape res.1 [] [] /\ status_ res.1 = FREE
    /\ yes_ids res.2 = ids W /\ no_ids res.2 = [] /\ same_client s res.1).
Proof.
  revert s L W. induction fuel as [|fuel IH]; intros s L W Hsh Hd Hnd Hlen Hf;
    pose proof Hsh as [(Hreq & HL & HW & Hheld) Hng]; cbn [drain];
    destruct (requests_ s) as [|r l] eqn:El; cbn in Hf; try lia.
  1, 2: symmetry in Hreq; apply app_nil in Hreq as [-> ->]; apply runs_ret; cbn [fst snd];
    (split_and!; auto; [|now split]); destruct (status_ s); cbn in Hheld; auto;
    [destruct Hheld as (_ & w & ? & _); discriminate | now destruct Hheld].
  destruct (shape_head s L W r l Hsh El) as [L' ->].
  eapply runs_bind; [apply (abort_ok s (id r)); eauto; rewrite El; auto |].
  intros [s' evs] (L1 & W1 & Hsh' & Hst & Hy & Hno & Hc). cbn [fst snd] in *.
  injection Hreq as ->. assert (Ho : Forall (fun x => other (id r) x = true) (L' ++ W)).
  { destruct (other_erased (id r) (r :: L' ++ W) [] r (L' ++ W) Hnd) as (_ & _ & _ & Ho); [|exact Ho].
    cbn. now rewrite Z.eqb_refl. }
  destruct (filter_this (id r) r [] (L' ++ W) eq_refl ltac:(constructor) Ho) as [F1 _].
  apply Forall_app in Ho as [HoL HoW].
  destruct (filter_this (id r) r [] L' eq_refl ltac:(constructor) HoL) as [F2 _].
  destruct (filter_not_this (id r) W HoW) as [_ F3]. cbn [app] in *. rewrite F1, F2, F3 in *.
  pose proof Hsh' as [(Hreq' & _) _].
  assert (Hids : ids (requests_ s') = ids (L' ++ W)) by (rewrite Hreq', !ids_strip; now f_equal).
  assert (Hlen' : length (requests_ s') = length (L' ++ W))
    by (apply (f_equal length) in Hids; unfold ids in Hids; now rewrite !length_fmap in Hids).
  assert (Hd' : done_ s' = false) by (destruct Hc; congruence).
  cbn in Hlen. eapply runs_bind; [apply (IH s' L1 W1 Hsh' Hd') |].
  { rewrite Hids. now apply list.NoDup_cons in Hnd as [_ ?]. }
  { lia. }
  { lia. }
  intros [s2 evs2] (Hfree & Hfr & Hy2 & Hn2 & Hc2). apply runs_ret. cbn [fst snd] in *.
  rewrite yes_ids_app, no_ids_app, Hno, Hn2, Hy2. split_and!; auto.
  - unfold ids in *. rewrite Hreq', !fmap_app, Hy, <- app_assoc in Hids. now apply app_inv_head in Hids.
  - destruct Hc, Hc2. split; congruence.
Qed.
