(* ===== verification/WaitDie.v ===== *)
(** * The wait-die lock

    [rrr::WaitDieALock] (rrr/misc/alock.hpp, alock.cpp): the lock of two-phase
    locking in which a request waits only for requests of lower priority (larger
    priority value) and dies otherwise.  The release is the shared one of [ALock]
    with the two queue counters added; here are the admission policy, the queue's
    priority order and what follows from it: mutual exclusion, agreement with
    the policy, no deadlock, and that [sanity_check] never fails. *)

From Stdlib Require Import ZArith Lia Sorting.Sorted.
From stdpp Require Import base list option relations.
From S2P Require Import Prelude ALock.
Local Open Scope Z_scope.

Module WaitDie.

Inductive wd_status_t := WD_WAIT | WD_DIE.

Record wd_alock := { base : alock; n_r_in_queue_ : Z; n_w_in_queue_ : Z }.

Definition wd_init : wd_alock := {| base := alock_init; n_r_in_queue_ := 0; n_w_in_queue_ := 0 |}.

(** ** Operations *)

(** [wait_die]: the two scans run from the back of the queue. *)
Fixpoint wait_die_w (p : Z) (rreqs : list lock_req_t) : wd_status_t :=
  match rreqs with
  | [] => WD_WAIT
  | r :: rreqs' =>
      if p >=? priority r then WD_DIE
      else if is_w r then WD_WAIT
      else wait_die_w p rreqs'
  end.

Fixpoint wait_die_r (p : Z) (rreqs : list lock_req_t) : option wd_status_t :=
  match rreqs with
  | [] => None
  | r :: rreqs' =>
      if is_w r then Some (if p <? priority r then WD_WAIT else WD_DIE)
      else wait_die_r p rreqs'
  end.

Definition wait_die (s : wd_alock) (ty : type_t) (p : Z) : option wd_status_t :=
  match ty with
  | WLOCK => Some (wait_die_w p (reverse (requests_ (base s))))
  | RLOCK => wait_die_r p (reverse (requests_ (base s)))
  end.

Definition count_in (ty : type_t) (s : wd_alock) : wd_alock :=
  match ty with
  | RLOCK => {| base := base s; n_r_in_queue_ := wrap 64 (n_r_in_queue_ s + 1);
                n_w_in_queue_ := n_w_in_queue_ s |}
  | WLOCK => {| base := base s; n_r_in_queue_ := n_r_in_queue_ s;
                n_w_in_queue_ := wrap 64 (n_w_in_queue_ s + 1) |}
  end.

Definition count_out (ty : type_t) (s : wd_alock) : wd_alock :=
  match ty with
  | RLOCK => {| base := base s; n_r_in_queue_ := wrap 64 (n_r_in_queue_ s - 1);
                n_w_in_queue_ := n_w_in_queue_ s |}
  | WLOCK => {| base := base s; n_r_in_queue_ := n_r_in_queue_ s;
                n_w_in_queue_ := wrap 64 (n_w_in_queue_ s - 1) |}
  end.

Definition with_base (s : wd_alock) (b : alock) : wd_alock :=
  {| base := b; n_r_in_queue_ := n_r_in_queue_ s; n_w_in_queue_ := n_w_in_queue_ s |}.

(** Returns the new state, the request's identifier and the callbacks called. *)
Definition vlock (s : wd_alock) (ty : type_t) (p : Z) : option (wd_alock * Z * list event) :=
  let '(i, b) := get_next_id (base s) in
  let s := with_base s b in
  let req := {| id := i; priority := p; type := ty; status := WAIT |} in
  if done_ b then Some (s, i, [No i])
  else if bool_decide (status_ b = FREE)
       || bool_decide (status_ b = RLOCKED) && bool_decide (ty = RLOCK) && (n_w_in_queue_ s =? 0)
  then
    let s := count_in ty s in
    '(b, evs) ← match ty with
                | RLOCK => read_acquire b (requests_ b) req []
                | WLOCK => write_acquire b (requests_ b) req []
                end;
    Some (with_base s b, i, evs)
  else
    wd ← wait_die s ty p;
    match wd with
    | WD_WAIT =>
        let s := with_base s (set_requests (requests_ b ++ [req]) b) in
        Some (count_in ty s, i, [])
    | WD_DIE => Some (s, i, [No i])
    end.

Definition abort (s : wd_alock) (i : Z) : option (wd_alock * list event) :=
  let b := base s in
  if done_ b then Some (s, [])
  else
    match find_req i (requests_ b) with
    | None => Some (s, [])
    | Some (pre, it, post) =>
        let n_w_before_this := n_w pre in
        let erased := set_requests (pre ++ post) b in
        if is_waiting it then
          let s := count_out (type it) s in
          '(b, evs) ←
            (if is_w it && bool_decide (n_w_before_this = 0%nat) then
               _ ← verify (bool_decide (status_ b = RLOCKED));
               let (lock_reqs, rest) := leading_reads post in
               read_acquire_all erased pre lock_reqs rest
             else Some (erased, []));
          Some (with_base s b, evs ++ [No (id it)])
        else if negb (is_w it) then
          let s := count_out RLOCK s in
          let b := set_n_rlock (swrap 64 (n_rlock_ b - 1)) erased in
          if n_rlock_ b =? 0 then
            match post with
            | [] =>
                let b := set_status FREE b in
                _ ← verify (bool_decide (length (requests_ b) = 0%nat));
                Some (with_base s b, [])
            | next :: post' =>
                '(b, evs) ← write_acquire b pre next post';
                Some (with_base s b, evs)
            end
          else Some (with_base s b, [])
        else
          let s := count_out WLOCK s in
          match post with
          | [] =>
              let b := set_status FREE erased in
              _ ← verify (bool_decide (length (requests_ b) = 0%nat));
              Some (with_base s b, [])
          | next :: post' =>
              if is_w next then
                '(b, evs) ← write_acquire erased pre next post';
                Some (with_base s b, evs)
              else
                let (lock_reqs, rest) := leading_reads post in
                '(b, evs) ← read_acquire_all erased pre lock_reqs rest;
                _ ← verify (bool_decide (status_ b = RLOCKED));
                Some (with_base s b, evs)
          end
    end.

(** ** [sanity_check]: the queue test the sources ship *)

Record check := {
  acquired_check : bool; big : Z; tmp_big : Z; n_r_locked : Z; num_w : Z; num_r : Z }.

(** The first half of the loop body: the granted requests are a prefix. *)
Definition check_status (b : alock) (first : bool) (c : check) (r : lock_req_t) : option check :=
  if acquired_check c then
    _ ← verify (is_waiting r); Some c
  else if bool_decide (status_ b = WLOCKED) then
    _ ← verify first; _ ← verify (is_w r); _ ← verify (negb (is_waiting r));
    Some {| acquired_check := true; big := big c; tmp_big := tmp_big c;
            n_r_locked := n_r_locked c; num_w := num_w c; num_r := num_r c |}
  else
    _ ← verify (bool_decide (status_ b = RLOCKED));
    if negb (is_w r) then
      _ ← verify (negb (is_waiting r));
      Some {| acquired_check := false; big := big c; tmp_big := tmp_big c;
              n_r_locked := n_r_locked c + 1; num_w := num_w c; num_r := num_r c |}
    else
      _ ← verify (is_waiting r); _ ← verify (n_r_locked c =? n_rlock_ b);
      Some {| acquired_check := true; big := big c; tmp_big := tmp_big c;
              n_r_locked := n_r_locked c; num_w := num_w c; num_r := num_r c |}.

(** The second half: the priorities. *)
Definition check_priority (c : check) (r : lock_req_t) : option check :=
  _ ← verify (big c >? priority r);
  if negb (is_w r) then
    Some {| acquired_check := acquired_check c; big := big c;
            tmp_big := if tmp_big c =? -1 then priority r
                       else if tmp_big c >? priority r then priority r else tmp_big c;
            n_r_locked := n_r_locked c; num_w := num_w c; num_r := num_r c + 1 |}
  else if tmp_big c =? -1 then
    Some {| acquired_check := acquired_check c; big := priority r; tmp_big := tmp_big c;
            n_r_locked := n_r_locked c; num_w := num_w c + 1; num_r := num_r c |}
  else
    _ ← verify (tmp_big c >? priority r);
    Some {| acquired_check := acquired_check c; big := tmp_big c; tmp_big := -1;
            n_r_locked := n_r_locked c; num_w := num_w c + 1; num_r := num_r c |}.

Fixpoint check_loop (b : alock) (first : bool) (c : check) (l : list lock_req_t) : option check :=
  match l with
  | [] => Some c
  | r :: l' =>
      c ← check_status b first c r;
      c ← check_priority c r;
      check_loop b false c l'
  end.

Definition sanity_check (s : wd_alock) : option unit :=
  let b := base s in
  _ ← (if bool_decide (status_ b = FREE)
       then verify (bool_decide (length (requests_ b) = 0%nat)) else Some tt);
  c ← check_loop b true
        {| acquired_check := false; big := 2 ^ 63 - 1; tmp_big := -1; n_r_locked := 0;
           num_w := 0; num_r := 0 |} (requests_ b);
  _ ← verify (num_w c =? n_w_in_queue_ s);
  verify (num_r c =? n_r_in_queue_ s).

(** ** The admission policy

    The reference policy looks at all the conflicting requests of the queue. *)

Inductive outcome := Granted | Waits | Dies.

Definition decision (ty : type_t) (p : Z) (reqs : list lock_req_t) : outcome :=
  match List.filter (conflicts ty) reqs with
  | [] => Granted
  | cs => if forallb (fun r => p <? priority r) cs then Waits else Dies
  end.

(** A later request that conflicts has a smaller priority value. *)
Definition older_first (a b : lock_req_t) : Prop :=
  conflicts (type b) a = true -> priority b < priority a.

Definition ordered (l : list lock_req_t) : Prop := StronglySorted older_first l.

Lemma ordered_snoc l r :
  ordered l -> Forall (fun a => older_first a r) l -> ordered (l ++ [r]).
Proof.
  intros Hl Hr. induction Hl as [|a l Hl IH Ha]; cbn; [repeat constructor |].
  apply Forall_cons_iff in Hr as [Har Hr]. constructor; [now apply IH |].
  apply Forall_app. auto.
Qed.

Lemma ordered_last l r : ordered (l ++ [r]) -> ordered l /\ Forall (fun a => older_first a r) l.
Proof.
  induction l as [|a l IH]; cbn; [repeat constructor |].
  intros H. apply StronglySorted_inv in H as [H Ha]. destruct (IH H) as [H1 H2].
  apply Forall_app in Ha as [Ha1 Ha2]. apply Forall_cons_iff in Ha2 as [Ha2 _].
  split; [constructor |]; auto.
Qed.

Lemma forallb_last {A} (f : A -> bool) (l : list A) (x : A) :
  forallb f (l ++ [x]) = forallb f l && f x.
Proof. rewrite forallb_app. cbn. now rewrite andb_true_r. Qed.

(** A queue that ends in a write request of larger priority value than [p] has
    only larger ones before. *)
Lemma ordered_below l w p :
  ordered (l ++ [w]) -> is_w w = true -> p < priority w -> Forall (fun r => p < priority r) l.
Proof.
  intros [_ Ho]%ordered_last Hw Hp. eapply Forall_weaken; [exact Ho |].
  intros a Ha. unfold older_first in Ha. rewrite (type_is_w w Hw) in Ha.
  specialize (Ha (conflicts_w a)). lia.
Qed.

Lemma forallb_ltb p l : Forall (fun r => p < priority r) l -> forallb (fun r => p <? priority r) l = true.
Proof. induction 1 as [|r l Hr _ IH]; cbn; [reflexivity |]. rewrite IH, andb_true_r. now apply Z.ltb_lt. Qed.

(** The scans stop at the last write request; the order makes that enough. *)
Lemma wait_die_w_spec p l :
  ordered l ->
  wait_die_w p (reverse l) = if forallb (fun r => p <? priority r) l then WD_WAIT else WD_DIE.
Proof.
  induction l as [|r l IH] using rev_ind; intros Ho; [reflexivity |].
  rewrite reverse_app, forallb_last. cbn. rewrite Z.geb_leb, Z.leb_antisym.
  destruct (Z.ltb_spec p (priority r)) as [Hp|Hp]; cbn [negb]; [|now rewrite andb_false_r].
  rewrite andb_true_r. destruct (is_w r) eqn:Ew.
  - now rewrite forallb_ltb by eauto using ordered_below.
  - apply IH. now apply ordered_last in Ho as [? _].
Qed.

Lemma wait_die_r_spec p l :
  ordered l ->
  wait_die_r p (reverse l) =
    match List.filter is_w l with
    | [] => None
    | ws => Some (if forallb (fun r => p <? priority r) ws then WD_WAIT else WD_DIE)
    end.
Proof.
  induction l as [|r l IH] using rev_ind; intros Ho; [reflexivity |].
  rewrite reverse_app, List.filter_app. cbn. destruct (is_w r) eqn:Ew.
  - assert (Hne : List.filter is_w l ++ [r] <> []) by (now destruct (List.filter is_w l)).
    transitivity (Some (if forallb (fun r => p <? priority r) (List.filter is_w l ++ [r])
                        then WD_WAIT else WD_DIE)); [|now destruct (List.filter is_w l ++ [r])].
    rewrite forallb_last.
    destruct (Z.ltb_spec p (priority r)) as [Hp|Hp]; [|now rewrite andb_false_r].
    rewrite forallb_ltb; [reflexivity |]. apply Forall_filter. eauto using ordered_below.
  - rewrite app_nil_r. apply IH. now apply ordered_last in Ho as [? _].
Qed.

(** The whole policy, for the queue of a lock that cannot grant at once. *)
Lemma wait_die_spec s ty p :
  ordered (requests_ (base s)) -> List.filter (conflicts ty) (requests_ (base s)) <> [] ->
  wait_die s ty p = Some (match decision ty p (requests_ (base s)) with
                          | Dies => WD_DIE
                          | _ => WD_WAIT
                          end).
Proof.
  intros Ho Hne. unfold wait_die, decision. destruct ty.
  - rewrite wait_die_r_spec by exact Ho.
    change (List.filter (conflicts RLOCK)) with (List.filter is_w) in *.
    destruct (List.filter is_w _) as [|x ws]; [contradiction |].
    now destruct (forallb _ _).
  - rewrite wait_die_w_spec by exact Ho.
    rewrite (filter_all (conflicts WLOCK)) in * by (apply Forall_true; reflexivity).
    destruct (requests_ (base s)) as [|x ws]; [contradiction |].
    now destruct (forallb _ _).
Qed.


(** ** The invariant *)

Record inv (s : wd_alock) (L W : list lock_req_t) : Prop := {
  inv_shape : shape (base s) L W;
  inv_open : done_ (base s) = false;
  inv_nodup : NoDup (ids (requests_ (base s)));
  inv_fresh : Forall (fun r => id r < next_id_ (base s)) (requests_ (base s));
  inv_next : Z.of_nat (length (requests_ (base s))) < next_id_ (base s) < 2 ^ 63;
  inv_w : n_w_in_queue_ s = Z.of_nat (n_w (requests_ (base s)));
  inv_r : n_r_in_queue_ s = Z.of_nat (length (requests_ (base s)) - n_w (requests_ (base s)));
  inv_ordered : ordered (requests_ (base s)) }.

Lemma inv_requests s L W : inv s L W -> requests_ (base s) = L ++ W.
Proof. intros [[[Hr _] _] _ _ _ _ _ _ _]. exact Hr. Qed.

Lemma inv_init : inv wd_init [] [].
Proof. split; cbn; try constructor; try lia. now apply shape_free. all: constructor. Qed.

Lemma n_w_le l : (n_w l <= length l)%nat.
Proof. unfold n_w. apply List.filter_length_le. Qed.

(** The test for granting at once finds no conflicting request in the queue. *)
Lemma can_grant_spec b L W (ty : type_t) :
  shape b L W ->
  bool_decide (status_ b = FREE)
    || bool_decide (status_ b = RLOCKED) && bool_decide (ty = RLOCK)
       && (Z.of_nat (n_w (L ++ W)) =? 0)
  = bool_decide (List.filter (conflicts ty) (L ++ W) = []).
Proof.
  intros [(_ & _ & _ & Hheld) Hng]. destruct (status_ b); cbn in *.
  - destruct Hheld as [-> _]. now subst W.
  - destruct Hheld as (_ & w & -> & Hw). cbn. now rewrite (conflicts_self w ty Hw).
  - destruct Hheld as (Hne & _ & _). destruct ty; cbn.
    + change (List.filter (conflicts RLOCK)) with (List.filter is_w). unfold n_w.
      now destruct (List.filter is_w (L ++ W)).
    + rewrite (filter_all (conflicts WLOCK)) by (apply Forall_true; reflexivity).
      now destruct L.
Qed.

(** Granting at once: nothing waits. *)
Lemma grant_ok b L W ty i p :
  shape b L W -> List.filter (conflicts ty) (L ++ W) = [] ->
  Z.of_nat (length (L ++ W)) < 2 ^ 63 - 1 ->
  let req := {| id := i; priority := p; type := ty; status := WAIT |} in
  W = [] /\
  runs (match ty with
        | RLOCK => read_acquire b (requests_ b) req []
        | WLOCK => write_acquire b (requests_ b) req []
        end) (fun '(b', evs) => shape b' (L ++ [locked req]) [] /\ evs = [Yes i] /\ same_client b b').
Proof.
  intros Hsh Hno Hlen req. pose proof Hsh as [(Hreq & HL & HW & Hheld) Hng].
  assert (HWn : W = []).
  { destruct W as [|r W]; [reflexivity | exfalso]. destruct (status_ b); cbn in *; [discriminate | |].
    - destruct Hheld as (_ & w & -> & Hw). cbn in Hno. now rewrite (conflicts_self w ty Hw) in Hno.
    - rewrite List.filter_app in Hno. apply app_nil in Hno as [_ Hno]. cbn in Hno.
      now rewrite (conflicts_self r ty Hng) in Hno. }
  subst W. split; [reflexivity |]. rewrite app_nil_r in *. rewrite Hreq.
  unfold read_acquire, write_acquire. destruct ty; cbn; apply runs_ret; cbn.
  - assert (Hn : n_rlock_ b = Z.of_nat (length L) /\ Forall (fun r => is_w r = false) L).
    { destruct (status_ b); cbn in Hheld.
      - destruct Hheld as [-> ->]. auto.
      - destruct Hheld as (_ & w & -> & Hw). cbn in Hno. change (conflicts RLOCK w) with (is_w w) in Hno.
        now rewrite Hw in Hno.
      - tauto. }
    destruct Hn as [Hn HLr].
    destruct (mark_read b L Hn) as (Hs1 & Hn1 & Hc1).
    { intros Hne. destruct (status_ b); cbn in Hheld; [now destruct Hheld | | reflexivity].
      destruct Hheld as (_ & w & -> & Hw). apply Forall_cons_iff in HLr as [? _]. congruence. }
    revert Hs1 Hn1 Hc1. generalize (if n_rlock_ b =? 0 then set_status RLOCKED b else b).
    intros b1 Hs1 Hn1 Hc1. unfold shape, queued, same_client in *. cbn.
    rewrite Hs1, Hn1, swrap_small by lia. cbn. rewrite length_app. cbn.
    split_and!; try tauto; auto.
    + now rewrite app_nil_r.
    + apply Forall_app. split; [exact HL | repeat constructor].
    + destruct L; discriminate.
    + apply Forall_app. split; [exact HLr | repeat constructor].
    + lia.
  - rewrite (filter_all (conflicts WLOCK)) in Hno by (apply Forall_true; reflexivity). subst L.
    unfold shape, queued, same_client. cbn.
    assert (n_rlock_ b = 0).
    { destruct (status_ b); cbn in Hheld; [tauto | tauto | now destruct Hheld]. }
    split_and!; eauto; repeat constructor.
Qed.

(** Waiting at the back of the queue. *)
Lemma wait_shape b L W ty i p :
  shape b L W -> List.filter (conflicts ty) (L ++ W) <> [] ->
  let req := {| id := i; priority := p; type := ty; status := WAIT |} in
  shape (set_requests (requests_ b ++ [req]) b) L (W ++ [req]).
Proof.
  intros [(Hreq & HL & HW & Hheld) Hng] Hne req. unfold shape, queued. cbn.
  rewrite Hreq, app_assoc. split_and!; auto; [apply Forall_app; split; [exact HW | repeat constructor] |].
  destruct (status_ b); cbn in *; auto.
  - destruct Hheld as [-> _]. now subst W.
  - destruct W as [|r W]; [|exact Hng]. cbn. destruct ty; [|reflexivity]. exfalso.
    apply Hne. rewrite app_nil_r. now apply filter_none.
Qed.


(** ** [vlock] *)

Definition admitted (s : wd_alock) (ty : type_t) (p : Z) (res : wd_alock * Z * list event) : Prop :=
  let '(s', i, evs) := res in
  let reqs := requests_ (base s) in
  let reqs' := requests_ (base s') in
  i = next_id_ (base s)
  /\ match decision ty p reqs with
     | Granted => evs = [Yes i]
         /\ reqs' = reqs ++ [{| id := i; priority := p; type := ty; status := LOCK |}]
     | Waits => evs = []
         /\ reqs' = reqs ++ [{| id := i; priority := p; type := ty; status := WAIT |}]
     | Dies => evs = [No i] /\ reqs' = reqs
     end.

Lemma decision_granted ty p l : decision ty p l = Granted <-> List.filter (conflicts ty) l = [].
Proof.
  unfold decision. destruct (List.filter _ l) as [|x cs]; [tauto |].
  destruct (forallb _ _); split; discriminate.
Qed.

Lemma forallb_older ty p l r :
  type r = ty -> priority r = p ->
  forallb (fun x => p <? priority x) (List.filter (conflicts ty) l) = true ->
  Forall (fun a => older_first a r) l.
Proof.
  intros <- <-. induction l as [|a l IH]; cbn; [constructor |].
  destruct (conflicts (type r) a) eqn:E; cbn.
  - intros [Ha Hl]%andb_true_iff. constructor; [intros _; now apply Z.ltb_lt | now apply IH].
  - intros Hl. constructor; [unfold older_first; congruence | now apply IH].
Qed.

(** A request that is admitted is younger than nothing it conflicts with. *)
Lemma decision_older ty p l r :
  decision ty p l <> Dies -> type r = ty -> priority r = p -> Forall (fun a => older_first a r) l.
Proof.
  intros Hd Ht Hp. apply (forallb_older ty p); auto. unfold decision in Hd.
  destruct (List.filter _ l) as [|x cs]; [reflexivity |]. now destruct (forallb _ _).
Qed.

Lemma n_w_one r : n_w [r] = match type r with WLOCK => 1%nat | RLOCK => 0%nat end.
Proof. unfold n_w, is_w. cbn. now destruct (type r). Qed.

(** The invariant of a queue with one more request at the back. *)
Lemma inv_append s L W r b' L' W' :
  inv s L W -> next_id_ (base s) + 1 < 2 ^ 63 ->
  id r = next_id_ (base s) -> Forall (fun a => older_first a r) (requests_ (base s)) ->
  shape b' L' W' -> requests_ b' = requests_ (base s) ++ [r] ->
  next_id_ b' = next_id_ (base s) + 1 -> done_ b' = false ->
  inv (with_base (count_in (type r) s) b') L' W'.
Proof.
  intros [Hsh Hd Hnd Hfr Hnx Hw Hr Ho] Hb Hid Hold Hsh' Hreq Hnext Hdone.
  pose proof (n_w_le (requests_ (base s))).
  assert (Hb64 : 2 ^ 63 < 2 ^ 64) by (apply Z.pow_lt_mono_r; lia).
  split; cbn; rewrite ?Hreq, ?Hnext; auto.
  - eapply NoDup_snoc; eauto.
  - apply Forall_app. split; [|repeat constructor; lia].
    eapply Forall_weaken; [exact Hfr |]. cbn. lia.
  - rewrite length_app. cbn. lia.
  - rewrite n_w_app. cbn [length count_in]. rewrite n_w_one. destruct (type r); cbn.
    + rewrite Hw. f_equal. lia.
    + rewrite Hw, wrap_small by lia. lia.
  - rewrite n_w_app, length_app. cbn [length count_in]. rewrite n_w_one. destruct (type r); cbn.
    + rewrite Hr, wrap_small by lia. lia.
    + rewrite Hr. f_equal. lia.
  - apply ordered_snoc; auto.
Qed.

Lemma count_in_with_base ty s b b' : with_base (count_in ty (with_base s b)) b' = with_base (count_in ty s) b'.
Proof. now destruct ty. Qed.

Lemma vlock_ok s L W ty p :
  inv s L W -> next_id_ (base s) + 1 < 2 ^ 63 ->
  runs (vlock s ty p) (fun res => admitted s ty p res
    /\ next_id_ (base res.1.1) = next_id_ (base s) + 1 /\ exists L' W', inv res.1.1 L' W').
Proof.
  intros Hi Hb. pose proof Hi as [Hsh Hd Hnd Hfr Hnx Hw Hr Ho].
  pose proof (inv_requests s L W Hi) as Hreq.
  assert (Hb64 : 2 ^ 63 < 2 ^ 64) by (apply Z.pow_lt_mono_r; lia).
  unfold vlock, get_next_id. rewrite wrap_small by lia. cbn [done_ status_ with_base n_w_in_queue_ requests_].
  set (i := next_id_ (base s)) in *. rewrite Hd, Hw, Hreq, (can_grant_spec (base s) L W ty Hsh).
  set (b := {| next_id_ := i + 1; status_ := _; n_rlock_ := _; done_ := _; requests_ := _ |}).
  set (req := {| id := i; priority := p; type := ty; status := WAIT |}).
  assert (Hshb : shape b L W).
  { unfold shape, queued in *. cbn. rewrite Hreq in *. exact Hsh. }
  change (L ++ W) with (requests_ b). destruct (bool_decide _) eqn:Eg.
  - apply bool_decide_eq_true in Eg.
    destruct (grant_ok b L W ty i p Hshb Eg) as (-> & Hacq); [rewrite <- Hreq; lia |].
    eapply runs_bind; [exact Hacq |]. intros [b' evs] (Hsh' & -> & Hn & Hd').
    apply runs_ret. cbn [fst]. rewrite app_nil_r in *. pose proof Hsh' as [[Hreq' _] _].
    rewrite app_nil_r in Hreq'. unfold admitted. rewrite Hreq.
    change (requests_ b) with (L ++ []) in Eg. rewrite app_nil_r in Eg.
    assert (Hdec : decision ty p L = Granted) by now apply decision_granted.
    rewrite Hdec. cbn. split_and!; auto. exists (L ++ [locked req]), [].
    rewrite count_in_with_base. apply (inv_append s L [] (locked req)); auto.
    + rewrite Hreq. apply (decision_older ty p); [now rewrite Hdec | reflexivity | reflexivity].
    + now rewrite Hreq.
  - apply bool_decide_eq_false in Eg.
    rewrite (wait_die_spec (with_base s b)); [|cbn; now rewrite <- Hreq | exact Eg].
    cbn [mbind option_bind with_base base]. unfold admitted. change (requests_ b) with (L ++ W).
    rewrite Hreq. destruct (decision ty p (L ++ W)) eqn:Hdec.
    { apply decision_granted in Hdec. contradiction. }
    + apply runs_ret. cbn [fst]. split_and!; auto.
      * now destruct ty.
      * now destruct ty.
      * exists L, (W ++ [req]). pose proof (wait_shape b L W ty i p Hshb Eg) as Hws.
        assert (Ha : inv (with_base (count_in ty s) (set_requests (requests_ b ++ [req]) b)) L (W ++ [req])).
        { apply (inv_append s L W req); auto; [|now rewrite Hreq]. rewrite Hreq.
          apply (decision_older ty p); [now rewrite Hdec | reflexivity | reflexivity]. }
        destruct ty; exact Ha.
    + apply runs_ret. cbn [fst]. split_and!; auto. exists L, W. split; cbn; auto; rewrite <- ?Hreq; auto.
      * eapply Forall_weaken; [exact Hfr |]. cbn. lia.
      * lia.
Qed.


(** ** [abort] *)

Definition counted_out (s : wd_alock) (i : Z) : wd_alock :=
  if done_ (base s) then s
  else match find_req i (requests_ (base s)) with
       | None => s
       | Some (_, it, _) => count_out (type it) s
       end.

(** [abort] is the shared one, with the aborted request counted out. *)
Lemma abort_base s i :
  abort s i = '(b, evs) ← ALock.abort (base s) i; Some (with_base (counted_out s i) b, evs).
Proof.
  assert (Hself : with_base s (base s) = s) by now destruct s.
  unfold abort, ALock.abort, counted_out. destruct (done_ (base s)); [cbn; now rewrite Hself |].
  destruct (find_req i (requests_ (base s))) as [[[pre it] post]|]; [|cbn; now rewrite Hself].
  destruct (is_waiting it).
  - destruct (if is_w it && _ then _ else _) as [[b evs]|]; reflexivity.
  - destruct (is_w it) eqn:Ew; cbn [negb].
    + rewrite (type_is_w it Ew). destruct post as [|next post].
      * now destruct (verify _).
      * destruct (is_w next); [now destruct (write_acquire _ _ _ _) as [[]|] |].
        destruct (leading_reads _) as [rs rest].
        destruct (read_acquire_all _ _ _ _) as [[b evs]|]; cbn; [|reflexivity].
        now destruct (verify _).
    + rewrite (type_is_r it Ew). destruct (_ =? 0); [|reflexivity]. destruct post as [|next post].
      * now destruct (verify _).
      * now destruct (write_acquire _ _ _ _) as [[]|].
Qed.

(** The counters and the order only depend on what granting leaves alone. *)
Lemma n_w_strip l l' : strip <$> l = strip <$> l' -> n_w l = n_w l'.
Proof.
  assert (Hn : forall l, n_w l = length (List.filter (fun x => bool_decide (x.2 = WLOCK)) (strip <$> l))).
  { intros x. unfold n_w. induction x as [|r x IH]; [reflexivity |]. cbn. unfold is_w at 1.
    destruct (bool_decide (type r = WLOCK)); cbn; now rewrite IH. }
  intros E. now rewrite !Hn, E.
Qed.

Lemma ordered_strip l l' : strip <$> l = strip <$> l' -> ordered l -> ordered l'.
Proof.
  apply sorted_strip. intros a a' b b' [= E1 E2 E3] [= F1 F2 F3].
  unfold older_first, conflicts, is_w. now rewrite E2, E3, F2, F3.
Qed.

Lemma ordered_filter f l : ordered l -> ordered (List.filter f l).
Proof.
  induction 1 as [|a l Ho IH Ha]; cbn; [constructor |]. destruct (f a); [|exact IH].
  constructor; [exact IH | now apply Forall_filter].
Qed.

Lemma counted_out_ok s L W i :
  inv s L W ->
  let rest := List.filter (other i) (requests_ (base s)) in
  n_w_in_queue_ (counted_out s i) = Z.of_nat (n_w rest)
  /\ n_r_in_queue_ (counted_out s i) = Z.of_nat (length rest - n_w rest).
Proof.
  intros [Hsh Hd Hnd Hfr Hnx Hw Hr Ho]. cbv zeta. unfold counted_out. rewrite Hd.
  assert (Hb64 : 2 ^ 63 < 2 ^ 64) by (apply Z.pow_lt_mono_r; lia).
  destruct (find_req i (requests_ (base s))) as [[[pre it] post]|] eqn:Hf.
  - destruct (other_erased i _ pre it post Hnd Hf) as (E & _ & -> & _). rewrite E in *.
    pose proof (n_w_le pre). pose proof (n_w_le post).
    change (pre ++ it :: post) with (pre ++ [it] ++ post) in *.
    rewrite !n_w_app, !length_app, n_w_one in *. cbn [length] in *.
    destruct (type it); cbn [count_out n_w_in_queue_ n_r_in_queue_]; rewrite Hw, Hr, ?wrap_small; lia.
  - pose proof (find_req_spec i (requests_ (base s))) as Ho'. rewrite Hf in Ho'.
    rewrite (filter_all _ _ Ho'). auto.
Qed.

Lemma wd_abort_ok s L W i :
  inv s L W ->
  runs (abort s i) (fun res => released (base s) i L W (base res.1, res.2)
    /\ exists L' W', inv res.1 L' W').
Proof.
  intros Hi. pose proof Hi as [Hsh Hd Hnd Hfr Hnx Hw Hr Ho]. rewrite abort_base.
  pose proof (inv_requests s L W Hi) as Hreq. destruct (counted_out_ok s L W i Hi) as [Hcw Hcr].
  eapply runs_bind; [apply (ALock.abort_ok (base s) i L W Hsh Hd Hnd); lia |].
  intros [b evs] Hrel. apply runs_ret. cbn [fst snd]. split; [exact Hrel |].
  destruct Hrel as (L' & W' & Hsh' & Hst & _ & _ & Hn & Hd'). cbn [fst snd] in *.
  exists L', W'. pose proof Hsh' as [[Hreq' _] _]. rewrite <- Hreq, <- Hreq' in Hst. symmetry in Hst.
  assert (Hlen : length (requests_ b) = length (List.filter (other i) (requests_ (base s))))
    by (apply (f_equal length) in Hst; now rewrite !length_fmap in Hst).
  pose proof (List.filter_length_le (other i) (requests_ (base s))).
  split; cbn [with_base base n_w_in_queue_ n_r_in_queue_]; rewrite ?Hn; auto.
  - congruence.
  - rewrite ids_strip, <- Hst, <- ids_strip. now apply NoDup_filtered.
  - eapply fresh_strip; [exact Hst |]. now apply Forall_filter.
  - lia.
  - now rewrite Hcw, (n_w_strip _ _ Hst).
  - now rewrite Hcr, (n_w_strip _ _ Hst), Hlen.
  - eapply ordered_strip; [exact Hst |]. now apply ordered_filter.
Qed.


(** ** Histories *)

Inductive op := OLock (ty : type_t) (p : Z) | OAbort (i : Z).

Definition step (s : wd_alock) (o : op) : option (wd_alock * list event) :=
  match o with
  | OLock ty p => '(s, _, evs) ← vlock s ty p; Some (s, evs)
  | OAbort i => abort s i
  end.

Fixpoint run (s : wd_alock) (os : list op) : option (wd_alock * list event) :=
  match os with
  | [] => Some (s, [])
  | o :: os' =>
      '(s, evs) ← step s o;
      '(s, evs') ← run s os';
      Some (s, evs ++ evs')
  end.

Lemma step_ok s L W o :
  inv s L W -> next_id_ (base s) + 1 < 2 ^ 63 ->
  runs (step s o) (fun res => next_id_ (base res.1) <= next_id_ (base s) + 1
    /\ exists L' W', inv res.1 L' W').
Proof.
  intros Hi Hb. destruct o as [ty p|i]; cbn.
  - eapply runs_bind; [exact (vlock_ok s L W ty p Hi Hb) |].
    intros [[s' i] evs] (_ & Hn & Hi'). apply runs_ret. cbn in *. split; [lia | exact Hi'].
  - eapply runs_mono; [exact (wd_abort_ok s L W i Hi) |].
    intros [s' evs] [(L1 & W1 & _ & _ & _ & _ & Hn & _) Hi']. cbn in *. split; [lia | exact Hi'].
Qed.

Lemma run_ok s L W os :
  inv s L W -> next_id_ (base s) + Z.of_nat (length os) < 2 ^ 63 ->
  runs (run s os) (fun res => exists L' W', inv res.1 L' W').
Proof.
  revert s L W. induction os as [|o os IH]; intros s L W Hi Hb; cbn [run].
  - apply runs_ret. eauto.
  - cbn [length] in Hb. eapply runs_bind; [apply (step_ok s L W o Hi); lia |].
    intros [s1 evs] (Hn & L1 & W1 & Hi1). cbn in *.
    eapply runs_bind; [apply (IH s1 L1 W1 Hi1); lia |].
    intros [s2 evs2] Hi2. apply runs_ret. exact Hi2.
Qed.

(** The states a lock can be in. *)
Definition reachable (s : wd_alock) : Prop :=
  exists os evs, run wd_init os = Some (s, evs) /\ Z.of_nat (length os) < 2 ^ 63 - 1.

Lemma reachable_inv s : reachable s -> exists L W, inv s L W.
Proof.
  intros (os & evs & Hrun & Hlen).
  destruct (run_ok wd_init [] [] os inv_init) as ([s' evs'] & Hrun' & Hi); [cbn; lia |].
  rewrite Hrun in Hrun'. injection Hrun' as <- <-. exact Hi.
Qed.

(** ** [sanity_check] *)

(** What the loop of [sanity_check] knows before the requests [l]. *)
Definition check_order (c : check) (l : list lock_req_t) : Prop :=
  Forall (fun r => priority r < big c) l
  /\ (tmp_big c = -1
      \/ 0 <= tmp_big c /\ Forall (fun r => is_w r = true -> priority r < tmp_big c) l).

Lemma check_priority_ok c r l :
  check_order c (r :: l) -> ordered (r :: l) -> 0 <= priority r ->
  runs (check_priority c r) (fun c' => check_order c' l
    /\ acquired_check c' = acquired_check c /\ n_r_locked c' = n_r_locked c
    /\ num_w c' = num_w c + Z.of_nat (n_w [r])
    /\ num_r c' = num_r c + Z.of_nat (1 - n_w [r])).
Proof.
  intros [Hbig Htmp] Ho Hp. apply StronglySorted_inv in Ho as [_ Hr].
  apply Forall_cons_iff in Hbig as [Hb Hbig]. unfold check_priority.
  replace (big c >? priority r) with true by (symmetry; rewrite Z.gtb_ltb; now apply Z.ltb_lt).
  cbn [verify mbind option_bind]. unfold n_w. cbn [List.filter].
  destruct (is_w r) eqn:Ew; cbn [negb length].
  - assert (Hlt : Forall (fun x => priority x < priority r) l).
    { eapply Forall_weaken; [exact Hr |]. intros x Hx. apply Hx. now apply conflicts_self. }
    destruct (Z.eqb_spec (tmp_big c) (-1)) as [E|E].
    + apply runs_ret. unfold check_order. cbn. split_and!; auto; lia.
    + destruct Htmp as [?|[Ht0 Ht]]; [contradiction |].
      apply Forall_cons_iff in Ht as [Htr Ht]. specialize (Htr Ew).
      replace (tmp_big c >? priority r) with true by (symmetry; rewrite Z.gtb_ltb; now apply Z.ltb_lt).
      apply runs_ret. unfold check_order. cbn. split_and!; auto; try lia.
      eapply Forall_weaken; [exact Hlt |]. cbn. lia.
  - assert (Hlt : Forall (fun x => is_w x = true -> priority x < priority r) l).
    { eapply Forall_weaken; [exact Hr |]. intros x Hx Hxw. apply Hx. now rewrite (type_is_w x Hxw). }
    apply runs_ret. unfold check_order. cbn. split_and!; auto; try lia. right.
    rewrite Z.gtb_ltb. destruct (Z.eqb_spec (tmp_big c) (-1)) as [E|E]; [auto |].
    destruct Htmp as [?|[Ht0 Ht]]; [contradiction |].
    apply Forall_cons_iff in Ht as [_ Ht]. destruct (Z.ltb_spec (priority r) (tmp_big c)); auto.
Qed.

(** Before the requests [l], with [L] of the granted ones still to come. *)
Definition check_prefix (b : alock) (first : bool) (c : check) (L W : list lock_req_t) : Prop :=
  if acquired_check c then L = []
  else match status_ b with
       | FREE => L = [] /\ W = []
       | WLOCKED => first = true /\ exists w, L = [w] /\ is_w w = true
       | RLOCKED => Forall (fun r => is_w r = false) L
                    /\ n_r_locked c + Z.of_nat (length L) = n_rlock_ b
       end.

(** The status part of the check does not touch the rest. *)
Definition same_order (c c' : check) : Prop :=
  big c' = big c /\ tmp_big c' = tmp_big c /\ num_w c' = num_w c /\ num_r c' = num_r c.

Lemma check_status_ok b first c r l L W :
  r :: l = L ++ W -> check_prefix b first c L W -> no_grantable (status_ b) W ->
  Forall (fun r => is_waiting r = false) L -> Forall (fun r => is_waiting r = true) W ->
  runs (check_status b first c r) (fun c' => same_order c c'
    /\ exists L' W', l = L' ++ W' /\ check_prefix b false c' L' W'
       /\ (acquired_check c' = true \/ W' = W)
       /\ Forall (fun r => is_waiting r = false) L' /\ Forall (fun r => is_waiting r = true) W').
Proof.
  intros E Hp Hng HL HW. unfold check_status, check_prefix, same_order in *.
  destruct (acquired_check c) eqn:Ea.
  - subst L. cbn in E. subst W. apply Forall_cons_iff in HW as [Hw HW]. rewrite Hw. cbn.
    apply runs_ret. rewrite Ea. split_and!; auto. exists [], l. auto.
  - destruct (status_ b) eqn:Es; cbn in Hng.
    + destruct Hp as [-> ->]. discriminate.
    + destruct Hp as (-> & w & -> & Hw). injection E as -> ->. apply Forall_cons_iff in HL as [Hl _].
      rewrite bool_decide_true, Hw, Hl by reflexivity. cbn. apply runs_ret. cbn. split_and!; auto.
      exists [], W. auto.
    + destruct Hp as [Hr Hn]. rewrite bool_decide_false, bool_decide_true by easy.
      destruct L as [|x L]; cbn in E.
      * subst W. apply Forall_cons_iff in HW as [Hw HW]. rewrite Hng, Hw. cbn in Hn |- *.
        replace (n_r_locked c =? n_rlock_ b) with true by (symmetry; apply Z.eqb_eq; lia).
        cbn. apply runs_ret. cbn. split_and!; auto. exists [], l. auto.
      * injection E as <- ->. apply Forall_cons_iff in Hr as [Hrw Hr].
        apply Forall_cons_iff in HL as [Hl HL]. rewrite Hrw, Hl. cbn. apply runs_ret. cbn.
        split_and!; auto. exists L, W. cbn in Hn. split_and!; auto; lia.
Qed.

Lemma check_loop_ok b first c l L W :
  l = L ++ W -> check_prefix b first c L W ->
  (acquired_check c = true \/ no_grantable (status_ b) W) ->
  Forall (fun r => is_waiting r = false) L -> Forall (fun r => is_waiting r = true) W ->
  check_order c l -> ordered l -> Forall (fun r => 0 <= priority r) l ->
  runs (check_loop b first c l) (fun c' => num_w c' = num_w c + Z.of_nat (n_w l)
    /\ num_r c' = num_r c + Z.of_nat (length l - n_w l)).
Proof.
  revert first c L W. induction l as [|r l IH]; intros first c L W E Hp Hng HL HW Hco Ho Hpos; cbn [check_loop].
  - apply runs_ret. cbn. lia.
  - assert (Hst : runs (check_status b first c r) (fun c' => same_order c c'
      /\ exists L' W', l = L' ++ W' /\ check_prefix b false c' L' W'
         /\ (acquired_check c' = true \/ no_grantable (status_ b) W')
         /\ Forall (fun r => is_waiting r = false) L' /\ Forall (fun r => is_waiting r = true) W')).
    { destruct Hng as [Ha|Hng].
      - unfold check_status, check_prefix in *. rewrite Ha in *. subst L. cbn in E. subst W.
        apply Forall_cons_iff in HW as [-> HW]. cbn. apply runs_ret. split; [repeat split |].
        exists [], l. rewrite Ha. auto.
      - eapply runs_mono; [now apply (check_status_ok b first c r l L W) |].
        intros c' (Hs & L' & W' & ? & ? & [?| ->] & ? & ?); (split; [exact Hs |]);
          exists L'; eexists; split_and!; eauto. }
    eapply runs_bind; [exact Hst |]. intros c1 ((S1 & S2 & S3 & S4) & L' & W' & El & Hp1 & Hng1 & HL1 & HW1).
    apply Forall_cons_iff in Hpos as [Hr Hpos].
    eapply runs_bind; [apply (check_priority_ok c1 r l); auto; unfold check_order in *; now rewrite S1, S2 |].
    intros c2 (Hco2 & A2 & N2 & W2 & R2).
    eapply runs_mono; [apply (IH false c2 L' W'); auto |].
    + unfold check_prefix in *. now rewrite A2, N2.
    + now rewrite A2.
    + now apply StronglySorted_inv in Ho as [? _].
    + intros c3 [W3 R3]. rewrite W3, R3, W2, R2, S3, S4.
      change (r :: l) with ([r] ++ l). rewrite n_w_app, length_app. cbn [length].
      pose proof (n_w_le l). pose proof (n_w_le [r]). cbn [length] in *. lia.
Qed.


(** ** Properties *)

(** C32. No history of lock and abort calls makes the wait-die lock fail one of
    its [verify]s, and in the state it leaves no two requests hold the lock
    unless both are reads, nothing waits for a free lock, and the status and the
    three counters describe the queue. *)
Theorem wait_die_history_safe (os : list op) :
  Z.of_nat (length os) < 2 ^ 63 - 1 ->
  exists s evs, run wd_init os = Some (s, evs)
    /\ exclusive (requests_ (base s))
    /\ (status_ (base s) = FREE <-> requests_ (base s) = [])
    /\ (status_ (base s) <> WLOCKED ->
        n_rlock_ (base s) = Z.of_nat (length (granted_of (requests_ (base s)))))
    /\ n_w_in_queue_ s = Z.of_nat (n_w (requests_ (base s)))
    /\ n_r_in_queue_ s + n_w_in_queue_ s = Z.of_nat (length (requests_ (base s))).
Proof.
  intros Hlen. destruct (run_ok wd_init [] [] os inv_init) as ([s evs] & Hrun & L & W & Hi); [cbn; lia |].
  exists s, evs. destruct Hi as [Hsh _ _ _ _ Hw Hr _]. cbn [fst] in *.
  destruct (shape_split _ _ _ Hsh) as [-> _]. pose proof (n_w_le (requests_ (base s))).
  split_and!; [exact Hrun | now apply (shape_exclusive _ L W) | | | exact Hw | lia].
  - destruct Hsh as [(-> & _ & _ & Hheld) Hng]. destruct (status_ (base s)); cbn in *.
    + destruct Hheld as [-> _]. now subst W.
    + destruct Hheld as (_ & w & -> & _). split; discriminate.
    + destruct Hheld as [Hne _]. split; [discriminate |]. intros E. now apply app_nil in E as [? _].
  - destruct Hsh as [(_ & _ & _ & Hheld) _]. destruct (status_ (base s)); cbn in *; intros ?.
    + now destruct Hheld as [-> ->].
    + congruence.
    + tauto.
Qed.

(** C33. The admission test of [vlock], which looks at the status, a counter and
    the tail of the queue only, implements the wait-die policy over the whole
    queue: the request is granted at once exactly when no request of the queue
    conflicts with it, waits when its priority value is below that of every
    conflicting request, and dies otherwise. *)
Theorem vlock_policy s ty p :
  reachable s -> next_id_ (base s) + 1 < 2 ^ 63 ->
  exists s' i evs, vlock s ty p = Some (s', i, evs) /\ admitted s ty p (s', i, evs).
Proof.
  intros (L & W & Hi)%reachable_inv Hb.
  destruct (vlock_ok s L W ty p Hi Hb) as ([[s' i] evs] & Hv & Ha & _). eauto.
Qed.

(** [abort] removes the request and nothing else, keeps the order, grants
    from the front of the waiting requests, tells those granted yes in queue
    order, and tells the aborted one no exactly when it was waiting. *)
Theorem abort_effect s i :
  reachable s ->
  let reqs := requests_ (base s) in
  exists s' evs, abort s i = Some (s', evs)
    /\ strip <$> requests_ (base s') = strip <$> List.filter (other i) reqs
    /\ ids (granted_of (requests_ (base s')))
       = ids (List.filter (other i) (granted_of reqs)) ++ yes_ids evs
    /\ no_ids evs = ids (List.filter (fun r => negb (other i r)) (waiting_of reqs)).
Proof.
  intros (L & W & Hi)%reachable_inv. cbv zeta.
  destruct (wd_abort_ok s L W i Hi) as ([s' evs] & Ha & (L' & W' & Hsh & Hst & Hy & Hn & _) & _).
  cbn [fst snd] in *. exists s', evs. destruct Hi as [Hsh0 _ _ _ _ _ _ _].
  destruct (shape_split _ _ _ Hsh0) as [-> ->]. destruct (shape_split _ _ _ Hsh) as [-> _].
  destruct Hsh0 as [[-> _] _]. destruct Hsh as [[-> _] _]. auto.
Qed.

(** The sources' own [sanity_check] passes in every reachable state whose
    requests have priorities in [0, 2^63 - 1). *)
Theorem sanity_check_passes s :
  reachable s ->
  Forall (fun r => 0 <= priority r < 2 ^ 63 - 1) (requests_ (base s)) ->
  sanity_check s = Some tt.
Proof.
  intros (L & W & Hi)%reachable_inv Hp. pose proof (inv_requests s L W Hi) as Hreq.
  destruct Hi as [Hsh _ _ _ _ Hw Hr Ho]. pose proof Hsh as [(_ & HL & HW & Hheld) Hng].
  unfold sanity_check. replace (if bool_decide (status_ (base s) = FREE) then _ else _) with (Some tt).
  2:{ destruct (status_ (base s)); cbn in *; auto. destruct Hheld as [-> _]. subst W. now rewrite Hreq. }
  cbn [mbind option_bind].
  destruct (check_loop_ok (base s) true
    {| acquired_check := false; big := 2 ^ 63 - 1; tmp_big := -1; n_r_locked := 0; num_w := 0; num_r := 0 |}
    (requests_ (base s)) L W Hreq) as (c & -> & Ew & Er); auto.
  - unfold check_prefix. cbn [acquired_check n_r_locked].
    destruct (status_ (base s)); cbn in *; [tauto | tauto |]. destruct Hheld as (_ & ? & ->). auto.
  - split; [|now left]. eapply Forall_weaken; [exact Hp |]. cbn [big]. tauto.
  - eapply Forall_weaken; [exact Hp |]. cbn. tauto.
  - cbn [num_w num_r] in *. cbn [mbind option_bind]. rewrite Ew, Er, Hw, Hr, !Z.eqb_refl. reflexivity.
Qed.

(** One request waits behind another it conflicts with. *)
Definition waits_for (s : wd_alock) (a b : lock_req_t) : Prop :=
  exists i j, (i < j)%nat /\ requests_ (base s) !! i = Some b /\ requests_ (base s) !! j = Some a
    /\ conflicts (type a) b = true.

(** The wait-for graph of a set of locks: an [ALockGroup] passes one priority to
    every lock, so that the priority stands for the transaction. *)
Definition blocks (locks : list wd_alock) (p q : Z) : Prop :=
  exists s a b, s ∈ locks /\ waits_for s a b /\ priority a = p /\ priority b = q.

Lemma ordered_lookup l i j a b :
  ordered l -> (i < j)%nat -> l !! i = Some a -> l !! j = Some b -> older_first a b.
Proof.
  intros Ho. revert i j. induction Ho as [|x l Ho IH Hx]; intros i j Hij Ha Hb; [discriminate |].
  destruct j as [|j]; [lia |]. destruct i as [|i]; cbn in *.
  - injection Ha as ->. rewrite List.Forall_forall in Hx. apply Hx.
    apply list_elem_of_In. eauto using list_elem_of_lookup_2.
  - apply (IH i j); auto. lia.
Qed.

Lemma blocks_older locks p q : Forall reachable locks -> blocks locks p q -> p < q.
Proof.
  intros Hall (s & a & b & Hs & (i & j & Hij & Hb & Ha & Hc) & <- & <-).
  rewrite List.Forall_forall in Hall. apply list_elem_of_In, Hall, reachable_inv in Hs as (L & W & Hi).
  now apply (ordered_lookup _ i j b a (inv_ordered _ _ _ Hi)).
Qed.

(** C34. No deadlock: in whatever states a set of wait-die locks is, there is no
    cycle of transactions each of which waits for the next. *)
Theorem wait_die_no_deadlock (locks : list wd_alock) :
  Forall reachable locks -> forall p, ~ tc (blocks locks) p p.
Proof.
  intros Hall p Hp. assert (Hlt : forall a b, tc (blocks locks) a b -> a < b).
  { induction 1 as [a b Hab | a b c Hab _ IH]; pose proof (blocks_older _ _ _ Hall Hab); lia. }
  specialize (Hlt p p Hp). lia.
Qed.

(** ** Concrete runs *)

(** Reader 1, a writer that waits, a reader that is younger and dies, a reader
    that waits behind the writer; then the reader leaves. *)
Definition history : list op :=
  [OLock RLOCK 9; OLock WLOCK 5; OLock RLOCK 7; OLock RLOCK 3].

Definition after_history : wd_alock := from_option fst wd_init (run wd_init history).

Lemma after_history_reachable : reachable after_history.
Proof. exists history. eexists. split; [reflexivity | vm_compute; reflexivity]. Qed.

Lemma wait_die_history_safe_witness :
  exists s evs, run wd_init (history ++ [OAbort 1]) = Some (s, evs) /\ exclusive (requests_ (base s))
    /\ ids (requests_ (base s)) = [2; 4].
Proof.
  destruct (wait_die_history_safe (history ++ [OAbort 1])) as (s & evs & Hrun & Hex & _); [reflexivity |].
  exists s, evs. split_and!; [exact Hrun | exact Hex |]. vm_compute in Hrun. injection Hrun as <- _. reflexivity.
Defined.

Lemma vlock_policy_witness :
  exists s' i evs, vlock after_history WLOCK 4 = Some (s', i, evs) /\ evs = [No 5].
Proof.
  destruct (vlock_policy after_history WLOCK 4 after_history_reachable) as (s' & i & evs & Hv & Ha);
    [reflexivity |].
  exists s', i, evs. split; [exact Hv |]. vm_compute in Ha. destruct Ha as (-> & -> & _). reflexivity.
Defined.

Lemma abort_effect_witness :
  exists s' evs, abort after_history 2 = Some (s', evs) /\ no_ids evs = [2]
    /\ ids (granted_of (requests_ (base s'))) = [1] ++ yes_ids evs.
Proof.
  destruct (abort_effect after_history 2 after_history_reachable) as (s' & evs & Ha & _ & Hg & Hn).
  exists s', evs. split_and!; [exact Ha | exact Hn | exact Hg].
Defined.

Lemma sanity_check_passes_witness : sanity_check after_history = Some tt.
Proof.
  apply (sanity_check_passes after_history after_history_reachable).
  repeat constructor; vm_compute; discriminate.
Defined.

Lemma wait_die_no_deadlock_witness :
  blocks [after_history] 5 9 /\ ~ tc (blocks [after_history]) 5 5.
Proof.
  split.
  - exists after_history. eexists _, _. split; [now left |]. split; [|split].
    + exists 0%nat, 1%nat. split; [lia |]. split; [reflexivity |]. split; reflexivity.
    + reflexivity.
    + reflexivity.
  - apply (wait_die_no_deadlock [after_history]). constructor; [exact after_history_reachable | constructor].
Defined.

End WaitDie.
