(* ===== verification/WoundDie.v ===== *)
(** * The wound-die lock

    [rrr::WoundDieALock] (rrr/misc/alock.hpp, alock.cpp): a new request asks the
    younger requests it conflicts with to give way (a waiting one is told no, a
    granted one is asked through its wound callback and may refuse) and then
    queues.  The queue, the acquire helpers and [abort] are those of [ALock]. *)

From Stdlib Require Import ZArith Lia Sorting.Sorted.
From stdpp Require Import base list option.
From S2P Require Import Prelude ALock.
Local Open Scope Z_scope.

Module WoundDie.

Section Wound.
(** What the wound callbacks answer, by the request's identifier. *)
Variable wound_callback : Z -> Z.

(** Returns the callback's answer; 0 means that the request gives way. *)
Definition wound (s : alock) (r : lock_req_t) : option (alock * list event * Z) :=
  if is_waiting r then Some (s, [No (id r)], 0)
  else
    let ret := wound_callback (id r) in
    s ← (if ret =? 0 then
           if is_w r then
             _ ← verify (bool_decide (status_ s = WLOCKED));
             Some (set_status FREE s)
           else
             _ ← verify (bool_decide (status_ s = RLOCKED));
             let s := set_n_rlock (swrap 64 (n_rlock_ s - 1)) s in
             Some (if n_rlock_ s =? 0 then set_status FREE s else s)
         else Some s);
    Some (s, [Wound (id r) ret], ret).

(** The loops of [wound_die] run from the back; [rreqs] are the requests still
    to visit, in reverse, and [kept] the ones already visited and kept. *)
Fixpoint wound_die_w (p : Z) (s : alock) (rreqs kept : list lock_req_t) :
    option (alock * list event) :=
  match rreqs with
  | [] => Some (set_requests kept s, [])
  | r :: rreqs' =>
      if priority r >=? p then
        '(s, evs, ret) ← wound s r;
        '(s, evs') ← (if ret =? 0 then wound_die_w p s rreqs' kept
                      else wound_die_w p s rreqs' (r :: kept));
        Some (s, evs ++ evs')
      else if is_w r then Some (set_requests (reverse rreqs ++ kept) s, [])
      else wound_die_w p s rreqs' (r :: kept)
  end.

Fixpoint wound_die_r (p : Z) (s : alock) (rreqs kept : list lock_req_t) :
    option (alock * list event) :=
  match rreqs with
  | [] => Some (set_requests kept s, [])
  | r :: rreqs' =>
      if priority r <? p then Some (set_requests (reverse rreqs ++ kept) s, [])
      else if is_w r then
        '(s, evs, ret) ← wound s r;
        '(s, evs') ← (if ret =? 0 then wound_die_r p s rreqs' kept
                      else wound_die_r p s rreqs' (r :: kept));
        Some (s, evs ++ evs')
      else wound_die_r p s rreqs' (r :: kept)
  end.

Definition wound_die (s : alock) (ty : type_t) (p : Z) : option (alock * list event) :=
  match ty with
  | WLOCK => wound_die_w p s (reverse (requests_ s)) []
  | RLOCK => wound_die_r p s (reverse (requests_ s)) []
  end.

(** The loop of the [RLOCKED] case: the requests before, in and after the run
    of read requests to grant. *)
Fixpoint collect_reads (new_acquired : bool) (l : list lock_req_t) :
    option (list lock_req_t * list lock_req_t * list lock_req_t) :=
  match l with
  | [] => Some ([], [], [])
  | r :: l' =>
      if negb (is_waiting r) then
        _ ← verify (negb (is_w r) && negb new_acquired);
        '(pre, rs, rest) ← collect_reads new_acquired l';
        Some (r :: pre, rs, rest)
      else if negb (is_w r) then
        '(pre, rs, rest) ← collect_reads true l';
        Some (pre, r :: rs, rest)
      else Some ([], [], l)
  end.

Definition vlock (s : alock) (ty : type_t) (p : Z) : option (alock * Z * list event) :=
  let '(i, s) := get_next_id s in
  if done_ s then Some (s, i, [No i])
  else
    '(s, evs) ← wound_die s ty p;
    let s := set_requests
               (requests_ s ++ [{| id := i; priority := p; type := ty; status := WAIT |}]) s in
    front ← head (requests_ s);
    '(s, evs') ←
      match status_ s with
      | FREE =>
          if is_w front then write_acquire s [] front (tail (requests_ s))
          else let (lock_reqs, rest) := leading_reads (requests_ s) in
               read_acquire_all s [] lock_reqs rest
      | RLOCKED =>
          _ ← verify (negb (is_w front) && negb (is_waiting front));
          '(pre, lock_reqs, rest) ← collect_reads false (requests_ s);
          read_acquire_all s pre lock_reqs rest
      | WLOCKED =>
          _ ← verify (is_w front && negb (is_waiting front));
          Some (s, [])
      end;
    Some (s, i, evs ++ evs').
End Wound.

(** ** Wounding *)

(** The requests that were asked to give way and did not. *)
Fixpoint refused (evs : list event) : list Z :=
  match evs with
  | [] => []
  | Wound i ret :: evs' => if ret =? 0 then refused evs' else i :: refused evs'
  | _ :: evs' => refused evs'
  end.

Lemma refused_app a b : refused (a ++ b) = refused a ++ refused b.
Proof. induction a as [|[i|i|i ret] a IH]; cbn; auto. destruct (ret =? 0); cbn; now rewrite IH. Qed.

(** The queue invariant is stable under erasing any request, once the status has
    been corrected for a granted one. *)
Lemma wound_ok cb s a r b L W :
  queued (set_requests (a ++ r :: b) s) L W ->
  Z.of_nat (length (a ++ r :: b)) < 2 ^ 63 ->
  runs (wound cb s r) (fun '(s', evs, ret) => same_client s s'
    /\ (if ret =? 0 then exists L' W', queued (set_requests (a ++ b) s') L' W'
        else s' = s)
    /\ evs = (if is_waiting r then [No (id r)] else [Wound (id r) ret])
    /\ (is_waiting r = true -> ret = 0)).
Proof.
  intros (Hreq & HL & HW & Hheld) Hlen. cbn in Hreq, Hheld. symmetry in Hreq.
  pose proof (queue_position L W a r b HL HW Hreq) as Hpos. unfold wound.
  destruct (is_waiting r) eqn:Ewt.
  - apply runs_ret. split_and!; auto; [reflexivity |]. cbn. destruct Hpos as (W1 & -> & ->).
    exists L, (W1 ++ b). unfold queued. cbn. apply Forall_app in HW as [HW1 [_ HW2]%Forall_cons_iff].
    rewrite <- app_assoc. split_and!; auto. now apply Forall_app.
  - destruct Hpos as (L2 & -> & ->). apply Forall_app in HL as [HL1 [_ HL2]%Forall_cons_iff].
    destruct (Z.eqb_spec (cb (id r)) 0) as [Ec|Ec].
    2:{ cbn. apply runs_ret. split_and!; auto; try discriminate; [reflexivity |].
        destruct (Z.eqb_spec (cb (id r)) 0); [contradiction | reflexivity]. }
    destruct (is_w r) eqn:Ew.
    + assert (status_ s = WLOCKED /\ n_rlock_ s = 0 /\ a = [] /\ L2 = []) as (Es & Hn & -> & ->).
      { destruct (status_ s); cbn in Hheld.
        - now destruct Hheld as [?%app_nil _].
        - destruct Hheld as (? & w & E & _). destruct a as [|? []], L2; cbn in E; try discriminate; auto.
        - destruct Hheld as (_ & Hr & _). apply Forall_app in Hr as [_ [? _]%Forall_cons_iff]. congruence. }
      rewrite Es. cbn. apply runs_ret. rewrite Ec. cbn. split_and!; auto; try discriminate; [split; reflexivity |].
      exists [], W. unfold queued. cbn. split_and!; auto.
    + assert (status_ s = RLOCKED) as Es.
      { destruct (status_ s); cbn in Hheld; [now destruct Hheld as [?%app_nil _] | | reflexivity].
        destruct Hheld as (_ & w & E & Hw). destruct a as [|? []]; cbn in E; [|discriminate|discriminate].
        injection E as -> ->. congruence. }
      rewrite Es in *. destruct Hheld as (_ & Hr & Hn). rewrite !length_app in *. cbn [length] in *.
      apply Forall_app in Hr as [Hr1 [_ Hr2]%Forall_cons_iff]. rewrite !length_app in Hlen.
      cbn. rewrite Hn, swrap_small by lia. apply runs_ret. rewrite Ec. cbn.
      replace (Z.of_nat (length a + S (length L2)) - 1) with (Z.of_nat (length (a ++ L2)))
        by (rewrite length_app; lia).
      split_and!; auto; try discriminate; [now destruct (_ =? 0) |].
      exists (a ++ L2), W. unfold queued. rewrite <- app_assoc.
      split_and!; auto; [now apply Forall_app |].
      destruct (Z.eqb_spec (Z.of_nat (length (a ++ L2))) 0) as [E0|E0]; cbn.
      * split; [|exact E0]. apply length_zero_iff_nil. lia.
      * rewrite Es. split_and!; auto; [intros E; now rewrite E in E0 | now apply Forall_app].
Qed.

(** A request [a] ahead of a request of type [ty] and priority [p]: older, or it
    refused to give way. *)
Definition yields (rf : list Z) (ty : type_t) (p : Z) (a : lock_req_t) : Prop :=
  conflicts ty a = true -> priority a < p \/ id a ∈ rf.

Definition ordered (rf : list Z) (l : list lock_req_t) : Prop :=
  StronglySorted (fun a b => yields rf (type b) (priority b) a) l.

(** A request that was made to give way. *)
Definition told (evs : list event) (ty : type_t) (p : Z) (r : lock_req_t) : Prop :=
  conflicts ty r = true /\ p <= priority r
  /\ if is_waiting r then No (id r) ∈ evs else Wound (id r) 0 ∈ evs.

(** What [wound_die] leaves of a queue. *)
Definition wounded (s : alock) (rf : list Z) (ty : type_t) (p : Z) (reqs : list lock_req_t)
    (res : alock * list event) : Prop :=
  same_client s res.1 /\ (exists L W, queued res.1 L W)
  /\ requests_ res.1 `sublist_of` reqs
  /\ Forall (yields (rf ++ refused res.2) ty p) (requests_ res.1)
  /\ (forall r, r ∈ reqs -> r ∈ requests_ res.1 \/ told res.2 ty p r)
  /\ yes_ids res.2 = [].

Lemma yields_mono rf rf' ty p a : (forall i, i ∈ rf -> i ∈ rf') -> yields rf ty p a -> yields rf' ty p a.
Proof. intros Hsub Hy Hc. destruct (Hy Hc); auto. Qed.

Lemma ordered_mono rf rf' l : (forall i, i ∈ rf -> i ∈ rf') -> ordered rf l -> ordered rf' l.
Proof.
  intros Hsub. induction 1 as [|a l Hl IH Ha]; constructor; [exact IH |].
  eapply Forall_weaken; [exact Ha |]. cbn. intros x. now apply yields_mono.
Qed.

Lemma ordered_front rf l r :
  ordered rf (l ++ [r]) -> ordered rf l /\ Forall (yields rf (type r) (priority r)) l.
Proof.
  induction l as [|a l IH]; cbn; [repeat constructor |].
  intros H. apply StronglySorted_inv in H as [H Ha]. destruct (IH H) as [H1 H2].
  apply Forall_app in Ha as [Ha1 Ha2]. apply Forall_cons_iff in Ha2 as [Ha2 _].
  split; [constructor |]; auto.
Qed.

(** The scan may stop at [r]: everything ahead of it gives way already. *)
Lemma scan_stop s rf ty p l r kept L W :
  queued (set_requests (l ++ r :: kept) s) L W -> ordered rf (l ++ [r]) ->
  Forall (yields rf ty p) kept -> priority r < p -> (ty = WLOCK -> is_w r = true) ->
  wounded s rf ty p (l ++ r :: kept) (set_requests (l ++ r :: kept) s, []).
Proof.
  intros Hq Ho Hk Hp Hty. apply ordered_front in Ho as [_ Ho].
  split_and!; cbn [fst snd]; auto; [now split | eauto |].
  rewrite app_nil_r. apply Forall_app. split; [|constructor; [now left | exact Hk]].
  eapply Forall_weaken; [exact Ho |]. intros a Ha Hc.
  assert (Hc' : conflicts (type r) a = true).
  { destruct ty; [now apply conflicts_self | now rewrite (type_is_w r (Hty eq_refl))]. }
  destruct (Ha Hc'); [left; lia | now right].
Qed.

(** One request [r] is asked to give way, then the scan goes on. *)
Lemma scan_step cb s rf ty p l r kept L W (scan : alock -> list lock_req_t -> option (alock * list event)) :
  queued (set_requests (l ++ r :: kept) s) L W ->
  Z.of_nat (length (l ++ r :: kept)) < 2 ^ 63 ->
  ordered rf (l ++ [r]) -> Forall (yields rf ty p) kept ->
  conflicts ty r = true -> p <= priority r ->
  (forall s1 rf1 kept1 L1 W1, queued (set_requests (l ++ kept1) s1) L1 W1 ->
     Z.of_nat (length (l ++ kept1)) < 2 ^ 63 -> ordered rf1 l -> Forall (yields rf1 ty p) kept1 ->
     runs (scan s1 kept1) (wounded s1 rf1 ty p (l ++ kept1))) ->
  runs ('(s, evs, ret) ← wound cb s r;
        '(s, evs') ← (if ret =? 0 then scan s kept else scan s (r :: kept));
        Some (s, evs ++ evs')) (wounded s rf ty p (l ++ r :: kept)).
Proof.
  intros Hq Hlen Ho Hk Hc Hp Hscan. pose proof (ordered_front rf l r Ho) as [Hol _].
  eapply runs_bind; [exact (wound_ok cb s l r kept L W Hq Hlen) |].
  intros [[s1 evs] ret] (Hs1 & Hres & Hevs & Hret). destruct (Z.eqb_spec ret 0) as [->|Er].
  - destruct Hres as (L1 & W1 & Hq1).
    eapply runs_bind; [apply (Hscan s1 rf kept L1 W1 Hq1); auto; rewrite !length_app in *; cbn in Hlen; lia |].
    intros [s2 evs2] (Hs2 & Hq2 & Hsub & Hy & Ht & Hyes). apply runs_ret. cbn [fst snd] in *.
    assert (Hrf : refused evs = [] /\ yes_ids evs = []) by (rewrite Hevs; now destruct (is_waiting r)).
    destruct Hrf as [Hrf Hye]. split_and!; cbn [fst snd]; auto.
    + now transitivity s1.
    + transitivity (l ++ kept); [exact Hsub |]. apply sublist_app; [reflexivity |]. now constructor.
    + now rewrite refused_app, Hrf.
    + intros x. rewrite elem_of_app, elem_of_cons. intros Hx.
      assert (Hcase : x = r \/ x ∈ l ++ kept) by (rewrite elem_of_app; tauto).
      destruct Hcase as [->|Hin].
      * right. split_and!; auto. rewrite Hevs. destruct (is_waiting r); apply elem_of_app; left; now left.
      * destruct (Ht x Hin) as [?|(? & ? & Hev)]; [now left | right]. split_and!; auto.
        destruct (is_waiting x); apply elem_of_app; now right.
    + rewrite yes_ids_app, Hye. exact Hyes.
  - subst s1. destruct (is_waiting r) eqn:Ewt; [exfalso; apply Er; now apply Hret |].
    assert (Hmono : forall i, i ∈ rf -> i ∈ rf ++ [id r]) by (intros; apply elem_of_app; now left).
    eapply runs_bind; [apply (Hscan s (rf ++ [id r]) (r :: kept) L W Hq Hlen) |].
    + eapply ordered_mono; eauto.
    + constructor; [intros _; right; apply elem_of_app; right; now left |].
      eapply Forall_weaken; [exact Hk |]. intros x. now apply yields_mono.
    + intros [s2 evs2] (Hs2 & Hq2 & Hsub & Hy & Ht & Hyes). apply runs_ret. cbn [fst snd] in *.
      subst evs. split_and!; cbn [fst snd]; auto.
      * rewrite refused_app. cbn. destruct (Z.eqb_spec ret 0); [contradiction |].
        now rewrite app_assoc.
      * intros x Hx. destruct (Ht x Hx) as [?|(? & ? & Hev)]; [now left | right]. split_and!; auto.
        destruct (is_waiting x); apply elem_of_app; now right.
Qed.


Lemma scan_end s rf ty p kept L W :
  queued (set_requests kept s) L W -> Forall (yields rf ty p) kept ->
  wounded s rf ty p kept (set_requests kept s, []).
Proof.
  intros Hq Hk. split_and!; cbn [fst snd]; auto; [now split | eauto |]. now rewrite app_nil_r.
Qed.

Lemma reverse_cons_app {A} (x : A) (l k : list A) : reverse (x :: l) ++ k = reverse l ++ x :: k.
Proof. now rewrite reverse_cons, <- app_assoc. Qed.

Lemma wound_die_w_ok cb p s rf rreqs kept L W :
  queued (set_requests (reverse rreqs ++ kept) s) L W ->
  Z.of_nat (length (reverse rreqs ++ kept)) < 2 ^ 63 ->
  ordered rf (reverse rreqs) -> Forall (yields rf WLOCK p) kept ->
  runs (wound_die_w cb p s rreqs kept) (wounded s rf WLOCK p (reverse rreqs ++ kept)).
Proof.
  revert s rf kept L W. induction rreqs as [|r rreqs IH]; intros s rf kept L W Hq Hlen Ho Hk.
  - apply runs_ret. eapply scan_end; eauto.
  - cbn [wound_die_w]. rewrite reverse_cons_app in *. rewrite reverse_cons in Ho.
    destruct (Z.geb_spec (priority r) p) as [Hp|Hp].
    + eapply (scan_step cb s rf WLOCK p (reverse rreqs) r kept L W (fun s k => wound_die_w cb p s rreqs k)); eauto.
    + destruct (is_w r) eqn:Ew.
      * apply runs_ret. eapply scan_stop; eauto.
      * apply ordered_front in Ho as [Ho _]. eapply IH; eauto. constructor; [now left | exact Hk].
Qed.

Lemma wound_die_r_ok cb p s rf rreqs kept L W :
  queued (set_requests (reverse rreqs ++ kept) s) L W ->
  Z.of_nat (length (reverse rreqs ++ kept)) < 2 ^ 63 ->
  ordered rf (reverse rreqs) -> Forall (yields rf RLOCK p) kept ->
  runs (wound_die_r cb p s rreqs kept) (wounded s rf RLOCK p (reverse rreqs ++ kept)).
Proof.
  revert s rf kept L W. induction rreqs as [|r rreqs IH]; intros s rf kept L W Hq Hlen Ho Hk.
  - apply runs_ret. eapply scan_end; eauto.
  - cbn [wound_die_r]. rewrite reverse_cons_app in *. rewrite reverse_cons in Ho.
    destruct (Z.ltb_spec (priority r) p) as [Hp|Hp].
    + apply runs_ret. eapply scan_stop; eauto. discriminate.
    + destruct (is_w r) eqn:Ew.
      * eapply (scan_step cb s rf RLOCK p (reverse rreqs) r kept L W (fun s k => wound_die_r cb p s rreqs k));
          eauto using conflicts_self.
      * apply ordered_front in Ho as [Ho _]. eapply IH; eauto.
        constructor; [|exact Hk]. unfold yields. rewrite conflicts_r. congruence.
Qed.

Lemma wound_die_ok cb s ty p rf L W :
  queued s L W -> Z.of_nat (length (requests_ s)) < 2 ^ 63 -> ordered rf (requests_ s) ->
  runs (wound_die cb s ty p) (wounded s rf ty p (requests_ s)).
Proof.
  intros Hq Hlen Ho. unfold wound_die.
  assert (Hs : set_requests (requests_ s) s = s) by now destruct s.
  pose proof (wound_die_w_ok cb p s rf (reverse (requests_ s)) [] L W) as Hw.
  pose proof (wound_die_r_ok cb p s rf (reverse (requests_ s)) [] L W) as Hr.
  rewrite reverse_involutive, app_nil_r, Hs in Hw, Hr. destruct ty; auto.
Qed.

(** ** Granting after the new request has queued *)

Lemma collect_reads_waiting W :
  Forall (fun r => is_waiting r = true) W ->
  forall new, collect_reads new W = Some ([], (leading_reads W).1, (leading_reads W).2).
Proof.
  induction 1 as [|r W Hr HW IH]; intros new; [reflexivity |]. cbn. rewrite Hr. cbn.
  destruct (is_w r); cbn; [reflexivity |]. rewrite IH. cbn. now destruct (leading_reads W).
Qed.

Lemma collect_reads_ok L W :
  Forall (fun r => is_waiting r = false) L -> Forall (fun r => is_w r = false) L ->
  Forall (fun r => is_waiting r = true) W ->
  collect_reads false (L ++ W) = Some (L, (leading_reads W).1, (leading_reads W).2).
Proof.
  intros HL HR HW. induction HL as [|r L Hr HL IH]; cbn; [now apply collect_reads_waiting |].
  apply Forall_cons_iff in HR as [Hw HR]. rewrite Hr, Hw. cbn. now rewrite IH.
Qed.

(** Any queue whose status is right is brought into shape. *)
Definition grant (s : alock) (front : lock_req_t) : option (alock * list event) :=
  match status_ s with
  | FREE =>
      if is_w front then write_acquire s [] front (tail (requests_ s))
      else let (lock_reqs, rest) := leading_reads (requests_ s) in
           read_acquire_all s [] lock_reqs rest
  | RLOCKED =>
      _ ← verify (negb (is_w front) && negb (is_waiting front));
      '(pre, lock_reqs, rest) ← collect_reads false (requests_ s);
      read_acquire_all s pre lock_reqs rest
  | WLOCKED =>
      _ ← verify (is_w front && negb (is_waiting front));
      Some (s, [])
  end.

Definition granted (s : alock) (L : list lock_req_t) (res : alock * list event) : Prop :=
  same_client s res.1 /\ (exists L' W', shape res.1 L' W')
  /\ strip <$> requests_ res.1 = strip <$> requests_ s
  /\ ids (granted_of (requests_ res.1)) = ids L ++ yes_ids res.2
  /\ refused res.2 = [] /\ no_ids res.2 = [].

Lemma granted_shape s L W s' L' W' evs :
  requests_ s = L ++ W -> shape s' L' W' -> same_client s s' ->
  strip <$> (L' ++ W') = strip <$> (L ++ W) -> ids L' = ids L ++ yes_ids evs ->
  refused evs = [] -> no_ids evs = [] -> granted s L (s', evs).
Proof.
  intros Hreq Hsh Hc Hst Hy Hr Hn. unfold granted. cbn [fst snd].
  destruct (shape_split _ _ _ Hsh) as [-> _]. pose proof Hsh as [[-> _] _]. rewrite Hreq.
  split_and!; eauto.
Qed.

Lemma refused_granted rs : refused ((fun r => Yes (id r)) <$> rs) = [].
Proof. now induction rs. Qed.

Lemma wnd_grant_ok s front rest L W :
  queued s L W -> requests_ s = front :: rest -> Z.of_nat (length (requests_ s)) < 2 ^ 63 ->
  runs (grant s front) (granted s L).
Proof.
  intros (Hreq & HL & HW & Hheld) Hf Hlen. unfold grant.
  pose proof (fun s' L' W' evs => granted_shape s L W s' L' W' evs Hreq) as Hfin.
  destruct (status_ s) eqn:Es; cbn in Hheld.
  - destruct Hheld as [-> Hn]. cbn in Hreq. rewrite Hf in Hreq. subst W.
    destruct (is_w front) eqn:Ew.
    + apply Forall_cons_iff in HW as [Hwt HW]. rewrite Hf. cbn [tail].
      eapply runs_mono; [now apply write_acquire_ok |]. intros [s' evs] (Hsh & -> & Hc).
      now apply (Hfin s' _ _ _ Hsh).
    + pose proof (read_acquire_all_ok s [] (front :: rest) ltac:(constructor) ltac:(constructor) HW Hn
                    ltac:(now intros []) Hf) as Hacq.
      destruct (leading_reads_spec (front :: rest)) as (EW & _ & _).
      assert (Hne : (leading_reads (front :: rest)).1 <> []) by (cbn; rewrite Ew; now destruct (leading_reads rest)).
      rewrite Hf. destruct (leading_reads (front :: rest)) as [rs rest']. cbn [fst snd app] in *.
      eapply runs_mono; [apply Hacq; [exact Hne | now rewrite <- Hf] |].
      intros [s' evs] (Hsh & _ & -> & Hc).
      apply (Hfin s' _ _ _ Hsh Hc); rewrite ?yes_ids_granted, ?no_ids_granted, ?ids_locked; auto.
      * now rewrite EW, !fmap_app, strip_locked.
      * apply refused_granted.
  - destruct Hheld as (Hn & w & -> & Hw). rewrite Hf in Hreq. injection Hreq as -> ->.
    apply Forall_cons_iff in HL as [Hwt HL]. rewrite Hw, Hwt. cbn. apply runs_ret.
    apply (Hfin s [w] W); auto; try reflexivity. unfold shape, queued. rewrite Es, Hf. cbn.
    split_and!; eauto.
  - destruct Hheld as (Hne & HLr & Hn). destruct L as [|x L]; [contradiction |].
    rewrite Hf in Hreq. injection Hreq as <- ->.
    pose proof HL as HL'. pose proof HLr as HLr'.
    apply Forall_cons_iff in HL' as [-> _]. apply Forall_cons_iff in HLr' as [-> _]. cbn [negb andb verify mbind option_bind].
    rewrite Hf. change (front :: L ++ W) with ((front :: L) ++ W) in *.
    rewrite collect_reads_ok by assumption. cbn [mbind option_bind].
    destruct (leading_reads_spec W) as (EW & _ & _).
    eapply runs_mono; [apply (read_acquire_all_ok s (front :: L) W); auto; try discriminate; now rewrite <- Hf |].
    destruct (leading_reads W) as [rs rest']. cbn [fst snd] in *.
    intros [s' evs] (Hsh & _ & -> & Hc). apply (Hfin s' _ _ _ Hsh Hc);
      rewrite ?yes_ids_granted, ?no_ids_granted; auto.
    + now rewrite EW, !fmap_app, strip_locked, app_assoc.
    + unfold ids. rewrite fmap_app. f_equal. apply ids_locked.
    + apply refused_granted.
Qed.


(** ** The invariant *)

(** [rf] are the requests that refused to give way so far. *)
Record inv (s : alock) (rf : list Z) (L W : list lock_req_t) : Prop := {
  inv_shape : shape s L W;
  inv_open : done_ s = false;
  inv_nodup : NoDup (ids (requests_ s));
  inv_fresh : Forall (fun r => id r < next_id_ s) (requests_ s);
  inv_next : Z.of_nat (length (requests_ s)) < next_id_ s < 2 ^ 63;
  inv_ordered : ordered rf (requests_ s) }.

Lemma wnd_inv_init : inv alock_init [] [] [].
Proof. split; cbn; try constructor; try lia. now apply shape_free. all: constructor. Qed.

Lemma wnd_ordered_snoc rf l r :
  ordered rf l -> Forall (yields rf (type r) (priority r)) l -> ordered rf (l ++ [r]).
Proof.
  intros Hl Hr. induction Hl as [|a l Hl IH Ha]; cbn; [repeat constructor |].
  apply Forall_cons_iff in Hr as [Har Hr]. constructor; [now apply IH |].
  apply Forall_app. auto.
Qed.

Lemma wnd_ordered_strip rf l l' : strip <$> l = strip <$> l' -> ordered rf l -> ordered rf l'.
Proof.
  apply sorted_strip. intros a a' b b' [= E1 E2 E3] [= F1 F2 F3].
  unfold yields, conflicts, is_w. now rewrite E1, E2, E3, F2, F3.
Qed.

(** What [vlock] does: it asks the younger conflicting requests to give way,
    those that do leave the queue, and the new request queues behind the rest. *)
Definition queues (s : alock) (ty : type_t) (p : Z) (res : alock * Z * list event) : Prop :=
  let '(s', i, evs) := res in
  i = next_id_ s
  /\ exists survivors, survivors `sublist_of` requests_ s
     /\ strip <$> requests_ s' = (strip <$> survivors) ++ [(i, p, ty)]
     /\ forall r, r ∈ requests_ s -> r ∈ survivors \/ told evs ty p r.

Lemma told_app evs evs' ty p r : told evs ty p r -> told (evs ++ evs') ty p r.
Proof.
  intros (Hc & Hp & He). split_and!; auto. destruct (is_waiting r); apply elem_of_app; now left.
Qed.

Lemma queued_snoc s L W r :
  queued s L W -> is_waiting r = true -> queued (set_requests (requests_ s ++ [r]) s) L (W ++ [r]).
Proof.
  intros (Hreq & HL & HW & Hh) Hr. unfold queued. cbn. rewrite Hreq, app_assoc.
  split_and!; auto. apply Forall_app. split; [exact HW | now repeat constructor].
Qed.

Lemma wnd_vlock_ok cb s rf L W ty p :
  inv s rf L W -> next_id_ s + 1 < 2 ^ 63 ->
  runs (vlock cb s ty p) (fun res => queues s ty p res
    /\ next_id_ res.1.1 = next_id_ s + 1
    /\ exists L' W', inv res.1.1 (rf ++ refused res.2) L' W').
Proof.
  intros [Hsh Hd Hnd Hfr Hnx Ho] Hb. pose proof Hsh as [Hq _].
  assert (Hb64 : 2 ^ 63 < 2 ^ 64) by (apply Z.pow_lt_mono_r; lia).
  unfold vlock, get_next_id. rewrite wrap_small by lia. cbn [done_]. rewrite Hd.
  set (s0 := {| next_id_ := next_id_ s + 1; status_ := _; n_rlock_ := _; done_ := _; requests_ := _ |}).
  assert (Hq0 : queued s0 L W) by exact Hq.
  eapply runs_bind; [apply (wound_die_ok cb s0 ty p rf L W Hq0); [cbn; lia | exact Ho] |].
  intros [s1 evs1] ([Hn1 Hd1] & (L1 & W1 & Hq1) & Hsub & Hy & Ht & _). cbn [fst snd] in *.
  change (requests_ s0) with (requests_ s) in *.
  set (r := {| id := next_id_ s; priority := p; type := ty; status := WAIT |}).
  pose proof (queued_snoc s1 L1 W1 r Hq1 eq_refl) as Hq2.
  set (s2 := set_requests (requests_ s1 ++ [r]) s1) in *.
  assert (Hlen2 : (length (requests_ s2) <= S (length (requests_ s)))%nat).
  { cbn. rewrite length_app. cbn. apply sublist_length in Hsub. lia. }
  destruct (requests_ s2) as [|front rest] eqn:Ef; [now destruct (requests_ s1) |].
  rewrite <- Ef. cbn [mbind option_bind].
  replace (head (requests_ s2)) with (Some front) by now rewrite Ef. cbn [mbind option_bind].
  fold (grant s2 front).
  eapply runs_bind; [apply (wnd_grant_ok s2 front rest L1 (W1 ++ [r]) Hq2 Ef); rewrite Ef; lia |].
  intros [s3 evs3] ([Hn3 Hd3] & (L3 & W3 & Hsh3) & Hst & _ & Hrf & _). cbn [fst snd] in *.
  apply runs_ret. cbn [fst snd]. change (requests_ s2) with (requests_ s1 ++ [r]) in Hst.
  change (next_id_ s2) with (next_id_ s1) in Hn3. change (done_ s2) with (done_ s1) in Hd3.
  change (next_id_ s0) with (next_id_ s + 1) in Hn1. change (done_ s0) with false in Hd1.
  split_and!; [|lia |].
  - split; [reflexivity |]. exists (requests_ s1). split_and!; auto.
    + now rewrite Hst, fmap_app.
    + intros x Hx. destruct (Ht x Hx); [now left | right; now apply told_app].
  - exists L3, W3. rewrite refused_app, Hrf, app_nil_r. symmetry in Hst.
    assert (Hfr1 : Forall (fun x => id x < next_id_ s) (requests_ s1)) by (eapply Forall_sub; eauto).
    assert (Hlen3 : length (requests_ s3) = length (requests_ s2))
      by (apply (f_equal length) in Hst; now rewrite !length_fmap in Hst).
    rewrite Ef in Hlen3. split; auto; try (congruence || lia).
    + rewrite ids_strip, <- Hst, <- ids_strip. eapply NoDup_snoc; [|exact Hfr1 | reflexivity].
      eapply sublist_NoDup; [exact Hnd |]. now apply fmap_sublist.
    + eapply fresh_strip; [exact Hst |]. rewrite Hn3, Hn1. apply Forall_app.
      split; [|repeat constructor; cbn; lia]. eapply Forall_weaken; [exact Hfr1 |]. cbn. lia.
    + eapply wnd_ordered_strip; [exact Hst |]. apply wnd_ordered_snoc; [|exact Hy].
      eapply StronglySorted_sub; [exact Hsub |].
      eapply ordered_mono; [|exact Ho]. intros; apply elem_of_app; now left.
Qed.


Lemma wnd_abort_ok s rf L W i :
  inv s rf L W ->
  runs (abort s i) (fun res => released s i L W res
    /\ exists L' W', inv res.1 (rf ++ refused res.2) L' W').
Proof.
  intros [Hsh Hd Hnd Hfr Hnx Ho].
  eapply runs_mono; [apply (abort_ok s i L W Hsh Hd Hnd); lia |]. intros [s' evs] Hrel.
  split; [exact Hrel |]. destruct Hrel as (L' & W' & Hsh' & Hst & _ & _ & Hn & Hd'). cbn [fst snd] in *.
  pose proof Hsh as [[Hreq _] _]. pose proof Hsh' as [[Hreq' _] _].
  rewrite <- Hreq, <- Hreq' in Hst. symmetry in Hst. exists L', W'.
  assert (Hsub : List.filter (other i) (requests_ s) `sublist_of` requests_ s).
  { clear. induction (requests_ s) as [|r l IH]; cbn; [constructor |]. destruct (other i r); now constructor. }
  assert (Hlen : length (requests_ s') = length (List.filter (other i) (requests_ s)))
    by (apply (f_equal length) in Hst; now rewrite !length_fmap in Hst).
  apply sublist_length in Hsub as Hle. split; auto; try (congruence || lia).
  - rewrite ids_strip, <- Hst, <- ids_strip. now apply NoDup_filtered.
  - rewrite Hn. eapply fresh_strip; [exact Hst |]. now apply Forall_filter.
  - eapply wnd_ordered_strip; [exact Hst |]. eapply StronglySorted_sub; [exact Hsub |].
    eapply ordered_mono; [|exact Ho]. intros; apply elem_of_app; now left.
Qed.

(** ** Histories *)

Inductive op := OLock (cb : Z -> Z) (ty : type_t) (p : Z) | OAbort (i : Z).

Definition step (s : alock) (o : op) : option (alock * list event) :=
  match o with
  | OLock cb ty p => '(s, _, evs) ← vlock cb s ty p; Some (s, evs)
  | OAbort i => abort s i
  end.

Fixpoint run (s : alock) (os : list op) : option (alock * list event) :=
  match os with
  | [] => Some (s, [])
  | o :: os' =>
      '(s, evs) ← step s o;
      '(s, evs') ← run s os';
      Some (s, evs ++ evs')
  end.

Lemma wnd_step_ok s rf L W o :
  inv s rf L W -> next_id_ s + 1 < 2 ^ 63 ->
  runs (step s o) (fun res => next_id_ res.1 <= next_id_ s + 1
    /\ exists L' W', inv res.1 (rf ++ refused res.2) L' W').
Proof.
  intros Hi Hb. destruct o as [cb ty p|i]; cbn.
  - eapply runs_bind; [exact (wnd_vlock_ok cb s rf L W ty p Hi Hb) |].
    intros [[s' i] evs] (_ & Hn & Hi'). apply runs_ret. cbn in *. split; [lia | exact Hi'].
  - eapply runs_mono; [exact (wnd_abort_ok s rf L W i Hi) |].
    intros [s' evs] [(L1 & W1 & _ & _ & _ & _ & Hn & _) Hi']. cbn in *. split; [lia | exact Hi'].
Qed.

Lemma wnd_run_ok s rf L W os :
  inv s rf L W -> next_id_ s + Z.of_nat (length os) < 2 ^ 63 ->
  runs (run s os) (fun res => exists L' W', inv res.1 (rf ++ refused res.2) L' W').
Proof.
  revert s rf L W. induction os as [|o os IH]; intros s rf L W Hi Hb; cbn [run].
  - apply runs_ret. cbn. rewrite app_nil_r. eauto.
  - cbn [length] in Hb. eapply runs_bind; [apply (wnd_step_ok s rf L W o Hi); lia |].
    intros [s1 evs] (Hn & L1 & W1 & Hi1). cbn [fst snd] in *.
    eapply runs_bind; [apply (IH s1 _ L1 W1 Hi1); lia |].
    intros [s2 evs2] Hi2. apply runs_ret. cbn [fst snd] in *. now rewrite refused_app, app_assoc.
Qed.

Definition reachable (s : alock) : Prop :=
  exists os evs, run alock_init os = Some (s, evs) /\ Z.of_nat (length os) < 2 ^ 63 - 1.

Lemma wnd_reachable_inv s : reachable s -> exists rf L W, inv s rf L W.
Proof.
  intros (os & evs & Hrun & Hlen).
  destruct (wnd_run_ok alock_init [] [] [] os wnd_inv_init) as ([s' evs'] & Hrun' & L & W & Hi); [cbn; lia |].
  rewrite Hrun in Hrun'. injection Hrun' as <- <-. eauto.
Qed.

Lemma wnd_ordered_lookup rf l i j a b :
  ordered rf l -> (i < j)%nat -> l !! i = Some a -> l !! j = Some b -> yields rf (type b) (priority b) a.
Proof.
  intros Ho. revert i j. induction Ho as [|x l Ho IH Hx]; intros i j Hij Ha Hb; [discriminate |].
  destruct j as [|j]; [lia |]. destruct i as [|i]; cbn in *.
  - injection Ha as ->. rewrite List.Forall_forall in Hx. apply Hx.
    apply list_elem_of_In. eauto using list_elem_of_lookup_2.
  - apply (IH i j); auto. lia.
Qed.

(** ** Properties *)

(** C35. No history of lock and abort calls, whatever the wound callbacks answer,
    makes the wound-die lock fail one of its [verify]s; no two requests hold the
    lock unless both are reads, nothing waits for a free lock, and a request
    waits only behind conflicting requests that are older (smaller priority
    value) or that refused to give way during the history. *)
Theorem wound_die_history_safe (os : list op) :
  Z.of_nat (length os) < 2 ^ 63 - 1 ->
  exists s evs, run alock_init os = Some (s, evs)
    /\ exclusive (requests_ s)
    /\ (status_ s = FREE -> requests_ s = [])
    /\ forall i j a b, (i < j)%nat -> requests_ s !! i = Some a -> requests_ s !! j = Some b ->
         conflicts (type b) a = true -> priority a < priority b \/ id a ∈ refused evs.
Proof.
  intros Hlen.
  destruct (wnd_run_ok alock_init [] [] [] os wnd_inv_init) as ([s evs] & Hrun & L & W & Hi); [cbn; lia |].
  exists s, evs. destruct Hi as [Hsh _ _ _ _ Ho]. cbn [fst snd app] in *.
  split_and!; [exact Hrun | now apply (shape_exclusive _ L W) | |].
  - destruct Hsh as [(-> & _ & _ & Hheld) Hng]. intros E. rewrite E in *. cbn in *.
    destruct Hheld as [-> _]. exact Hng.
  - intros i j a b Hij Ha Hb. exact (wnd_ordered_lookup _ _ i j a b Ho Hij Ha Hb).
Qed.

(** [vlock] of the wound-die lock removes from the queue only conflicting
    requests that are not older than the new one, each of which is told (a
    waiting one by its no callback, a granted one by a wound callback that
    agreed), keeps the order of the others and queues the new request last. *)
Theorem vlock_wounds cb s ty p :
  reachable s -> next_id_ s + 1 < 2 ^ 63 ->
  exists s' i evs, vlock cb s ty p = Some (s', i, evs) /\ queues s ty p (s', i, evs).
Proof.
  intros (rf & L & W & Hi)%wnd_reachable_inv Hb.
  destruct (wnd_vlock_ok cb s rf L W ty p Hi Hb) as ([[s' i] evs] & Hv & Ha & _). eauto.
Qed.

(** No waiting request is forgotten: when the holders leave one after the
    other, every waiting request is granted exactly once, in the order of the
    queue, nobody is told no, and the lock ends up free. *)
Theorem drain_grants_all s :
  reachable s ->
  exists s' evs, drain (length (requests_ s)) s = Some (s', evs)
    /\ status_ s' = FREE /\ requests_ s' = []
    /\ yes_ids evs = ids (waiting_of (requests_ s)) /\ no_ids evs = [].
Proof.
  intros (rf & L & W & [Hsh Hd Hnd _ Hnx _])%wnd_reachable_inv.
  destruct (drain_ok (length (requests_ s)) s L W Hsh Hd Hnd) as ([s' evs] & Hr & Hsh' & Hf & Hy & Hn & _);
    [lia | reflexivity |].
  exists s', evs. destruct (shape_split _ _ _ Hsh) as [_ ->]. destruct Hsh' as [[? _] _]. auto.
Qed.

(** ** Concrete runs *)

(** The holder 1 refuses, 2 waits; 3 makes 2 give way. *)
Definition refuses (j : Z) : Z -> Z := fun i => if i =? j then 1 else 0.

Definition history : list op :=
  [OLock (refuses 1) WLOCK 7; OLock (refuses 1) RLOCK 6; OLock (refuses 1) RLOCK 5].

Definition after_history : alock := from_option fst alock_init (run alock_init history).

Lemma wnd_after_history_reachable : reachable after_history.
Proof. exists history. eexists. split; [reflexivity | vm_compute; reflexivity]. Qed.

Lemma wound_die_history_safe_witness :
  exists s evs, run alock_init (history ++ [OAbort 1]) = Some (s, evs) /\ exclusive (requests_ s)
    /\ yes_ids evs = [1; 2; 3].
Proof.
  destruct (wound_die_history_safe (history ++ [OAbort 1])) as (s & evs & Hrun & Hex & _); [reflexivity |].
  exists s, evs. split_and!; [exact Hrun | exact Hex |]. vm_compute in Hrun. injection Hrun as _ <-. reflexivity.
Defined.

Lemma vlock_wounds_witness :
  exists s' i evs, vlock (refuses 1) after_history WLOCK 4 = Some (s', i, evs)
    /\ i = 4 /\ exists r, r ∈ requests_ after_history /\ told evs WLOCK 4 r.
Proof.
  destruct (vlock_wounds (refuses 1) after_history WLOCK 4 wnd_after_history_reachable)
    as (s' & i & evs & Hv & Hi & sv & _ & _ & Ht); [reflexivity |].
  exists s', i, evs. split_and!; [exact Hv | exact Hi |].
  vm_compute in Hv. injection Hv as _ _ <-.
  exists {| id := 3; priority := 5; type := RLOCK; status := WAIT |}.
  split; [right; right; left |]. split_and!; [reflexivity | cbn; lia | left].
Defined.

Lemma drain_grants_all_witness :
  exists s' evs, drain 3 after_history = Some (s', evs) /\ yes_ids evs = [2; 3].
Proof.
  destruct (drain_grants_all after_history wnd_after_history_reachable) as (s' & evs & Hd & _ & _ & Hy & _).
  exists s', evs. split; [exact Hd | exact Hy].
Defined.

End WoundDie.
