(* ===== verification/Alarm.v ===== *)
(** * The alarm of the timeout locks

    [rrr::Alarm] (rrr/misc/alarm.hpp): callbacks registered with a deadline, in
    a map from identifier to deadline and callback.  The map is its list of
    entries in the order of the keys, which is the order in which [exe_next]
    takes them.  A callback is a value of a type [F], and what it does is a
    function [call] on the state [W] of the objects it reaches; the callbacks do
    not call the alarm back.  [set_holder] and the destructor, which register
    the alarm with the poll thread, are not modelled; [idx_time_], which the
    code never uses, is left out. *)

From Stdlib Require Import ZArith Lia Sorting.Sorted.
From stdpp Require Import base list option sets.
From S2P Require Import Prelude.
Local Open Scope Z_scope.

Module Alarm.
Section Alarm.
Context {F : Type}.

Record alarm := { next_id_ : Z; waiting_ : list (Z * (Z * F)) }.

Definition alarm_init : alarm := {| next_id_ := 1; waiting_ := [] |}.

Definition add (time : Z) (func : F) (al : alarm) : Z * alarm :=
  (next_id_ al,
   {| next_id_ := wrap 64 (next_id_ al + 1);
      waiting_ := map_put (next_id_ al) (time, func) (waiting_ al) |}).

(** [remove] erases the key; the result says whether it was there. *)
Definition remove (id : Z) (al : alarm) : bool * alarm :=
  let rest := map_erase id (waiting_ al) in
  ((length rest + 1 =? length (waiting_ al))%nat,
   {| next_id_ := next_id_ al; waiting_ := rest |}).

Section Run.
Context {W : Type} (call : F -> W -> option W).

Definition exe_next (tm_now : Z) (al : alarm) (w : W) : option (bool * (alarm * W)) :=
  match waiting_ al with
  | [] => Some (false, (al, w))
  | (_, (tm_out, func)) :: rest =>
      if tm_out <? tm_now then
        w ← call func w; Some (true, ({| next_id_ := next_id_ al; waiting_ := rest |}, w))
      else Some (false, (al, w))
  end.

(** [while (exe_next()) { }]; [now k] is the [k]-th reading of the clock. *)
Fixpoint run_fuel (fuel : nat) (now : nat -> Z) (al : alarm) (w : W) : option (alarm * W) :=
  match fuel with
  | O => None
  | S fuel =>
      '(ret, (al, w)) ← exe_next (now O) al w;
      if (ret : bool) then run_fuel fuel (fun k => now (S k)) al w else Some (al, w)
  end.

(** Every iteration but the last erases an entry. *)
Definition run (now : nat -> Z) (al : alarm) (w : W) : option (alarm * W) :=
  run_fuel (S (length (waiting_ al))) now al w.
End Run.

(** ** Invariant *)

Definition key_lt (a b : Z * (Z * F)) : Prop := a.1 < b.1.
Definition wf (al : alarm) : Prop :=
  StronglySorted key_lt (waiting_ al)
  /\ Forall (fun e => 1 <= e.1 < next_id_ al) (waiting_ al) /\ 1 <= next_id_ al.

Lemma wf_init : wf alarm_init.
Proof. split_and!; [constructor | constructor | cbn; lia]. Qed.

Lemma add_spec al time func :
  wf al -> next_id_ al + 1 < 2 ^ 64 ->
  let (id, al') := add time func al in
  wf al' /\ id = next_id_ al /\ next_id_ al' = next_id_ al + 1
  /\ waiting_ al' = waiting_ al ++ [(id, (time, func))].
Proof.
  intros (Hs & Hb & H1) Hn. cbn. rewrite map_put_last by assumption.
  rewrite wrap_small by lia. split_and!; auto. unfold wf. cbn. rewrite ?wrap_small by lia.
  split_and!; try lia.
  - apply StronglySorted_snoc; [assumption |].
    eapply Forall_weaken; [exact Hb |]. unfold key_lt. cbn. intros; lia.
  - apply Forall_app. split; [|repeat constructor; cbn; lia].
    eapply Forall_weaken; [exact Hb |]. cbn. intros; lia.
Qed.

Lemma wf_filter f al :
  wf al -> wf {| next_id_ := next_id_ al; waiting_ := List.filter f (waiting_ al) |}.
Proof.
  intros (Hs & Hb & H1). split_and!; cbn; auto using Forall_filter.
  clear Hb. induction Hs as [|e l Hs IH He]; cbn; [constructor |].
  destruct (f e); [|assumption]. constructor; auto using Forall_filter.
Qed.

Lemma wf_tail e rest n : wf {| next_id_ := n; waiting_ := e :: rest |} ->
  wf {| next_id_ := n; waiting_ := rest |}.
Proof.
  intros (Hs & Hb & H1). cbn in *. apply StronglySorted_inv in Hs as [Hs _].
  apply Forall_cons_iff in Hb as [_ Hb]. split_and!; auto.
Qed.

(** The keys of a well-formed alarm are distinct. *)
Lemma wf_key al k x y : wf al -> (k, x) ∈ waiting_ al -> (k, y) ∈ waiting_ al -> x = y.
Proof.
  intros (Hs & _ & _). induction Hs as [|e l Hs IH He]; [set_solver |].
  rewrite !elem_of_cons. rewrite List.Forall_forall in He. unfold key_lt in He.
  intros [<-|Hx] [E|Hy]; [congruence | | | auto].
  - apply list_elem_of_In, He in Hy. cbn in Hy. lia.
  - subst e. apply list_elem_of_In, He in Hx. cbn in Hx. lia.
Qed.

Lemma remove_spec al id :
  wf al ->
  wf (remove id al).2 /\ next_id_ (remove id al).2 = next_id_ al
  /\ forall e, e ∈ waiting_ (remove id al).2 <-> e ∈ waiting_ al /\ e.1 <> id.
Proof.
  intros Hwf. split_and!; [now apply wf_filter | reflexivity |]. intros e.
  apply elem_of_map_erase.
Qed.

Lemma filter_length_key k l :
  StronglySorted key_lt l ->
  (length (List.filter (key_is_not k) l) + (if bool_decide (k ∈ l.*1) then 1 else 0) = length l)%nat.
Proof.
  induction 1 as [|e l Hs IH He]; [reflexivity |]. cbn [List.filter fmap list_fmap length].
  unfold key_is_not at 1. destruct (Z.eqb_spec e.1 k) as [E|E]; cbn [negb].
  - rewrite bool_decide_true by set_solver. rewrite filter_all; [lia |].
    eapply Forall_weaken; [exact He |]. unfold key_lt, key_is_not. intros x Hx.
    apply negb_true_iff, Z.eqb_neq. lia.
  - cbn [length]. rewrite <- IH. case_bool_decide as H1; case_bool_decide as H2;
      [lia | set_solver | set_solver | lia].
Qed.

(** [remove] reports exactly whether the alarm was pending. *)
Lemma remove_reports al id : wf al -> (remove id al).1 = bool_decide (id ∈ (waiting_ al).*1).
Proof.
  intros (Hs & _). cbn. unfold map_erase. pose proof (filter_length_key id _ Hs) as Hl.
  case_bool_decide.
  - apply Nat.eqb_eq. lia.
  - apply Nat.eqb_neq. lia.
Qed.

(** ** The loop

    [I rest w] is an invariant of the loop when [rest] are the entries left. *)
Section RunSpec.
Context {W : Type} (call : F -> W -> option W) (I : list (Z * (Z * F)) -> W -> Prop).

Lemma run_fuel_ok fuel now al w :
  (length (waiting_ al) < fuel)%nat -> wf al -> I (waiting_ al) w ->
  (forall k t f rest now w, I ((k, (t, f)) :: rest) w -> t < now -> runs (call f w) (I rest)) ->
  runs (run_fuel call fuel now al w) (fun '(al', w') =>
    exists fired, waiting_ al = fired ++ waiting_ al' /\ next_id_ al' = next_id_ al
      /\ wf al' /\ I (waiting_ al') w'
      /\ (forall j k t f, fired !! j = Some (k, (t, f)) -> t < now j)
      /\ match waiting_ al' with
         | [] => True
         | (_, (t, _)) :: _ => now (length fired) <= t
         end).
Proof.
  intros Hf Hwf HI Hcall. revert now al w Hf Hwf HI.
  induction fuel as [|fuel IH]; intros now [n wl] w Hf Hwf HI; [lia |]. cbn in *.
  unfold exe_next. cbn. destruct wl as [|[k [t f]] rest].
  - apply runs_ret. exists []. cbn. split_and!; auto. intros j ? ? ? Hj. now rewrite lookup_nil in Hj.
  - destruct (Z.ltb_spec t (now 0%nat)) as [Ht|Ht].
    + destruct (Hcall k t f rest _ w HI Ht) as (w1 & -> & HI1). cbn.
      eapply runs_mono; [apply IH; cbn in *; eauto using wf_tail; lia |].
      intros [al' w'] (fired & E & En & Hwf' & HI' & Hfired & Hhead). cbn in *.
      exists ((k, (t, f)) :: fired). split_and!; auto; [now rewrite E |].
      intros [|j] k' t' f' Hj; cbn in Hj; [congruence | eauto].
    + apply runs_ret. exists []. cbn. split_and!; auto. intros j ? ? ? Hj. now rewrite lookup_nil in Hj.
Qed.

Lemma alarm_run_ok now al w :
  wf al -> I (waiting_ al) w ->
  (forall k t f rest now w, I ((k, (t, f)) :: rest) w -> t < now -> runs (call f w) (I rest)) ->
  runs (run call now al w) (fun '(al', w') =>
    exists fired, waiting_ al = fired ++ waiting_ al' /\ next_id_ al' = next_id_ al
      /\ wf al' /\ I (waiting_ al') w'
      /\ (forall j k t f, fired !! j = Some (k, (t, f)) -> t < now j)
      /\ match waiting_ al' with
         | [] => True
         | (_, (t, _)) :: _ => now (length fired) <= t
         end).
Proof. intros. apply run_fuel_ok; auto. Qed.
End RunSpec.

(** Only the alarm with the smallest identifier is looked at: while its deadline
    has not passed, alarms registered later do not fire although theirs has. *)
Lemma expired_alarm_blocked {W} (call : F -> W -> option W) now k1 t1 f1 rest n w :
  now O <= t1 ->
  let al := {| next_id_ := n; waiting_ := (k1, (t1, f1)) :: rest |} in
  run call now al w = Some (al, w).
Proof.
  intros Ht al. unfold run, al. cbn. unfold exe_next. cbn.
  destruct (Z.ltb_spec t1 (now 0%nat)); [lia | reflexivity].
Qed.

End Alarm.
Arguments alarm F : clear implicits.
End Alarm.
