(* ===== verification/TimeoutALock.v ===== *)
(** * The timeout lock

    [rrr::TimeoutALock] (rrr/misc/alock.hpp, rrr/misc/alock.cpp): a queued lock
    whose waiting requests are refused by an alarm.  The alarm is one static
    object that all locks share, and its callbacks hold references into the
    request lists of the locks: the model is a world of several locks and their
    alarm, a reference is the pair of the lock and the request's identifier, and
    following a reference to a request that is gone fails ([None]), as a failed
    [verify] does.  The fields [timeout_] and [time_] of a request are never read
    and are left out. *)

From Stdlib Require Import ZArith Lia Sorting.Sorted.
From stdpp Require Import base list option gmap sets.
From S2P Require Import Prelude Alarm ALock.
Local Open Scope Z_scope.

Module TimeoutALock.

Inductive req_status_t := WAIT | LOCK | UNLOCK | ABORT | TIMEOUT.
#[export] Instance req_status_t_eq : EqDecision req_status_t.
Proof. solve_decision. Defined.

Record ALockReq := { id_ : Z; alarm_id_ : Z; type_ : type_t; req_status : req_status_t }.

Definition set_status (s : req_status_t) (r : ALockReq) : ALockReq :=
  {| id_ := id_ r; alarm_id_ := alarm_id_ r; type_ := type_ r; req_status := s |}.
Definition set_alarm (k : Z) (r : ALockReq) : ALockReq :=
  {| id_ := id_ r; alarm_id_ := k; type_ := type_ r; req_status := req_status r |}.

Definition cas_status (c s : req_status_t) (r : ALockReq) : option ALockReq :=
  if bool_decide (req_status r = c) then Some (set_status s r) else None.

Record tlock := {
  next_id_ : Z;
  status_ : status_t;
  n_rlock_ : Z;
  tm_wait_ : Z;
  requests_ : list ALockReq }.

Definition tlock_init (time_wait : Z) : tlock :=
  {| next_id_ := 1; status_ := FREE; n_rlock_ := 0; tm_wait_ := time_wait; requests_ := [] |}.

Definition with_lock (st : status_t) (n : Z) (l : list ALockReq) (s : tlock) : tlock :=
  {| next_id_ := next_id_ s; status_ := st; n_rlock_ := n; tm_wait_ := tm_wait_ s;
     requests_ := l |}.

(** A callback of the alarm: the lock and the request it refers to. *)
Abbreviation ref := (Z * Z)%type.
Abbreviation alarm_t := (Alarm.alarm ref).

Definition lockable (s : tlock) (ty : type_t) : bool :=
  bool_decide (status_ s = FREE)
  || (bool_decide (status_ s = RLOCKED) && bool_decide (ty = RLOCK)).

(** [vlock] of the lock [me]; the result is the identifier it returns. *)
Definition vlock (me tm_now : Z) (ty : type_t) (s : tlock) (al : alarm_t) :
    tlock * alarm_t * Z * list event :=
  let id := next_id_ s in
  let s := {| next_id_ := wrap 64 (id + 1); status_ := status_ s; n_rlock_ := n_rlock_ s;
              tm_wait_ := tm_wait_ s; requests_ := requests_ s |} in
  let req := {| id_ := id; alarm_id_ := 0; type_ := ty; req_status := WAIT |} in
  let queue := requests_ s in
  if lockable s ty then
    let s :=
      if bool_decide (ty = RLOCK) then
        with_lock RLOCKED (swrap 64 (n_rlock_ s + 1)) (queue ++ [set_status LOCK req]) s
      else with_lock WLOCKED (n_rlock_ s) (queue ++ [set_status LOCK req]) s in
    (s, al, id, [Yes id])
  else if 0 <? tm_wait_ s then
    let tm_out := wrap 64 (tm_now + tm_wait_ s) in
    let (k, al) := Alarm.add tm_out (me, id) al in
    (with_lock (status_ s) (n_rlock_ s) (queue ++ [set_alarm k (set_status WAIT req)]) s,
     al, id, [])
  else (s, al, id, [No id]).

(** The variables of the loops of [lock_all]; [lock_reqs] are the requests whose
    [yes_callback_] the caller runs. *)
Record loop_t := {
  l_status : status_t; l_n_rlock : Z; l_alarm : alarm_t; n_lock : Z; lock_reqs : list Z }.

Definition grant (st : status_t) (n : Z) (r : ALockReq) (v : loop_t) : loop_t :=
  {| l_status := st; l_n_rlock := n; l_alarm := (Alarm.remove (alarm_id_ r) (l_alarm v)).2;
     n_lock := wrap 32 (n_lock v + 1); lock_reqs := lock_reqs v ++ [id_ r] |}.

(** The second loop: all further read requests. *)
Fixpoint lock_reads (l : list ALockReq) (v : loop_t) : list ALockReq * loop_t :=
  match l with
  | [] => ([], v)
  | r :: l' =>
      if bool_decide (l_status v = RLOCKED) then
        match (if bool_decide (type_ r = RLOCK) then cas_status WAIT LOCK r else None) with
        | Some r' =>
            let (l', v) := lock_reads l' (grant (l_status v) (swrap 64 (l_n_rlock v + 1)) r v) in
            (r' :: l', v)
        | None => let (l', v) := lock_reads l' v in (r :: l', v)
        end
      else (l, v)
  end.

(** The first loop: the first waiting request. *)
Fixpoint lock_next (l : list ALockReq) (v : loop_t) : list ALockReq * loop_t :=
  match l with
  | [] => ([], v)
  | r :: l' =>
      match cas_status WAIT LOCK r with
      | Some r' =>
          let v :=
            if bool_decide (type_ r = RLOCK) then
              grant RLOCKED (swrap 64 (l_n_rlock v + 1)) r v
            else grant WLOCKED (l_n_rlock v) r v in
          let (l', v) := lock_reads l' v in (r' :: l', v)
      | None => let (l', v) := lock_next l' v in (r :: l', v)
      end
  end.

Definition lock_all (s : tlock) (al : alarm_t) : option (tlock * alarm_t * Z * list Z) :=
  _ ← verify (bool_decide (status_ s = FREE) && (n_rlock_ s =? 0));
  let (l, v) :=
    lock_next (requests_ s)
      {| l_status := status_ s; l_n_rlock := n_rlock_ s; l_alarm := al; n_lock := 0;
         lock_reqs := [] |} in
  Some (with_lock (l_status v) (l_n_rlock v) l s, l_alarm v, n_lock v, lock_reqs v).

(** The search loops over the queue. *)
Fixpoint find_request (i : Z) (l : list ALockReq) :
    option (list ALockReq * ALockReq * list ALockReq) :=
  match l with
  | [] => None
  | r :: l' =>
      if id_ r =? i then Some ([], r, l')
      else '(pre, it, post) ← find_request i l'; Some (r :: pre, it, post)
  end.

Definition abort (s : tlock) (al : alarm_t) (i : Z) : option (tlock * alarm_t * list event) :=
  match find_request i (requests_ s) with
  | None => Some (s, al, [])
  | Some (pre, req, post) =>
      match req_status req with
      | LOCK =>
          let n := if bool_decide (type_ req = RLOCK) then swrap 64 (n_rlock_ s - 1)
                   else n_rlock_ s in
          let st := if n =? 0 then FREE else status_ s in
          let s := with_lock st n (pre ++ post) s in
          if bool_decide (status_ s = FREE) then
            '(s, al, _, reqs) ← lock_all s al; Some (s, al, List.map Yes reqs)
          else Some (s, al, [])
      | WAIT =>
          let al := (Alarm.remove (alarm_id_ req) al).2 in
          Some (with_lock (status_ s) (n_rlock_ s) (pre ++ post) s, al, [])
      | TIMEOUT => Some (with_lock (status_ s) (n_rlock_ s) (pre ++ post) s, al, [])
      | UNLOCK | ABORT => None
      end
  end.

(** [do_timeout(req)] of a request of this lock. *)
Definition do_timeout (i : Z) (s : tlock) : option (tlock * list event) :=
  '(pre, req, post) ← find_request i (requests_ s);
  match cas_status WAIT TIMEOUT req with
  | Some req' =>
      Some (with_lock (status_ s) (n_rlock_ s) (pre ++ req' :: post) s, [No (id_ req)])
  | None => Some (s, [])
  end.

(** The destructor refuses the waiting requests and cancels their alarms. *)
Fixpoint destroy_loop (l : list ALockReq) (al : alarm_t) : option (alarm_t * list event) :=
  match l with
  | [] => Some (al, [])
  | req :: l' =>
      match req_status req with
      | LOCK => destroy_loop l' al
      | WAIT =>
          '(al, evs) ← destroy_loop l' (Alarm.remove (alarm_id_ req) al).2;
          Some (al, No (id_ req) :: evs)
      | TIMEOUT => destroy_loop l' al
      | UNLOCK | ABORT => None
      end
  end.

Definition destroy (s : tlock) (al : alarm_t) : option (alarm_t * list event) :=
  destroy_loop (requests_ s) al.

(** ** The world: the locks by address, and the alarm they share *)

Record world := { locks : gmap Z tlock; alarm_ : alarm_t }.

(** What the callbacks of the alarm change: the locks; what they call is added to
    the list of events. *)
Abbreviation heap := (gmap Z tlock * list (Z * event))%type.

(** The callback [[this, &req] () { this->do_timeout(req); }]. *)
Definition alarm_func (f : ref) (w : heap) : option heap :=
  s ← w.1 !! f.1;
  '(s, evs) ← do_timeout f.2 s;
  Some (<[f.1 := s]> w.1, w.2 ++ ((fun e => (f.1, e)) <$> evs)).

Inductive op :=
  | Lock (a : Z) (ty : type_t) (tm_now : Z)
  | Abort (a i : Z)
  | Alarms (now : nat -> Z)
  | Destroy (a : Z).

Definition at_lock (a : Z) (evs : list event) : list (Z * event) := (fun e => (a, e)) <$> evs.

(** One call of a client on a live lock, or one [run] of the alarm. *)
Definition step (o : op) (w : world) : option (world * list (Z * event)) :=
  match o with
  | Lock a ty tm_now =>
      s ← locks w !! a;
      let '(s, al, _, evs) := vlock a tm_now ty s (alarm_ w) in
      Some ({| locks := <[a := s]> (locks w); alarm_ := al |}, at_lock a evs)
  | Abort a i =>
      s ← locks w !! a;
      '(s, al, evs) ← abort s (alarm_ w) i;
      Some ({| locks := <[a := s]> (locks w); alarm_ := al |}, at_lock a evs)
  | Alarms now =>
      '(al, (ls, evs)) ← Alarm.run alarm_func now (alarm_ w) (locks w, []);
      Some ({| locks := ls; alarm_ := al |}, evs)
  | Destroy a =>
      s ← locks w !! a;
      '(al, evs) ← destroy s (alarm_ w);
      Some ({| locks := delete a (locks w); alarm_ := al |}, at_lock a evs)
  end.

(** ** Invariant of one lock *)

Definition waits (r : ALockReq) : bool := bool_decide (req_status r = WAIT).
Definition holds (r : ALockReq) : bool := bool_decide (req_status r = LOCK).
Definition reader (r : ALockReq) : bool := bool_decide (type_ r = RLOCK).
Definition ids (l : list ALockReq) : list Z := id_ <$> l.
Definition holders (l : list ALockReq) : list ALockReq := List.filter holds l.
Definition waiters (l : list ALockReq) : list ALockReq := List.filter waits l.

(** The status and the reader count describe the holders [L]. *)
Definition held_by (st : status_t) (n : Z) (L : list ALockReq) : Prop :=
  match st with
  | FREE => L = [] /\ n = 0
  | WLOCKED => n = 0 /\ exists r, L = [r] /\ reader r = false
  | RLOCKED => L <> [] /\ Forall (fun r => reader r = true) L /\ n = Z.of_nat (length L)
  end.

(** No waiting request could be granted. *)
Definition stuck (st : status_t) (W : list ALockReq) : Prop :=
  match st with
  | FREE => W = []
  | WLOCKED => True
  | RLOCKED => Forall (fun r => reader r = false) W
  end.

Definition queue_inv (l : list ALockReq) (next : Z) : Prop :=
  NoDup (ids l) /\ Forall (fun r => 1 <= id_ r < next) l
  /\ Forall (fun r => req_status r = WAIT \/ req_status r = LOCK \/ req_status r = TIMEOUT) l.

Definition lock_inv (s : tlock) : Prop :=
  queue_inv (requests_ s) (next_id_ s)
  /\ held_by (status_ s) (n_rlock_ s) (holders (requests_ s))
  /\ stuck (status_ s) (waiters (requests_ s)).

(** The alarms of the lock [a] are those of its waiting requests. *)
Definition linked (a : Z) (l : list ALockReq) (al : alarm_t) : Prop :=
  forall k i, (exists t, (k, (t, (a, i))) ∈ Alarm.waiting_ al)
              <-> exists r, r ∈ l /\ id_ r = i /\ req_status r = WAIT /\ alarm_id_ r = k.

(** The alarms of the other locks are kept. *)
Definition frame (a : Z) (al al' : alarm_t) : Prop :=
  forall k t b i, b <> a -> (k, (t, (b, i))) ∈ Alarm.waiting_ al' <-> (k, (t, (b, i))) ∈ Alarm.waiting_ al.

Lemma holders_app a b : holders (a ++ b) = holders a ++ holders b.
Proof. apply List.filter_app. Qed.
Lemma waiters_app a b : waiters (a ++ b) = waiters a ++ waiters b.
Proof. apply List.filter_app. Qed.

Lemma elem_of_waiters r l : r ∈ waiters l <-> r ∈ l /\ req_status r = WAIT.
Proof. unfold waiters, waits. rewrite !list_elem_of_In, filter_In, bool_decide_eq_true. reflexivity. Qed.
Lemma elem_of_holders r l : r ∈ holders l <-> r ∈ l /\ req_status r = LOCK.
Proof. unfold holders, holds. rewrite !list_elem_of_In, filter_In, bool_decide_eq_true. reflexivity. Qed.

Lemma ids_unique l r r' : NoDup (ids l) -> r ∈ l -> r' ∈ l -> id_ r = id_ r' -> r = r'.
Proof.
  unfold ids. induction l as [|x l IH]; [set_solver |].
  rewrite fmap_cons, list.NoDup_cons, !elem_of_cons. intros [Hx Hnd] [->|Hr] [->|Hr'] E; auto.
  - destruct Hx. rewrite E. now apply list_elem_of_fmap_2.
  - destruct Hx. rewrite <- E. now apply list_elem_of_fmap_2.
Qed.

(** ** Cancelling the alarms of waiting requests *)

Definition cancel (G : list ALockReq) (al : alarm_t) : alarm_t :=
  fold_left (fun al r => (Alarm.remove (alarm_id_ r) al).2) G al.

Lemma cancel_spec G al :
  Alarm.wf al ->
  Alarm.wf (cancel G al) /\ Alarm.next_id_ (cancel G al) = Alarm.next_id_ al
  /\ forall e, e ∈ Alarm.waiting_ (cancel G al)
               <-> e ∈ Alarm.waiting_ al /\ e.1 ∉ (alarm_id_ <$> G).
Proof.
  revert al. induction G as [|g G IH]; intros al Hwf.
  - cbn. split_and!; auto. set_solver.
  - destruct (Alarm.remove_spec al (alarm_id_ g) Hwf) as (Hw & Hn & Hm).
    destruct (IH _ Hw) as (Hw' & Hn' & Hm'). split_and!; [exact Hw' | exact (eq_trans Hn' Hn) |].
    intros e. change (cancel (g :: G) al) with (cancel G (Alarm.remove (alarm_id_ g) al).2).
    rewrite Hm', Hm. set_solver.
Qed.

(** Requests [G] stop waiting and their alarms are removed: the rest stay linked. *)
Lemma linked_cancel a l l' al al' (G : list ALockReq) :
  Alarm.wf al -> linked a l al -> NoDup (ids l) ->
  (forall g, g ∈ G -> g ∈ l /\ req_status g = WAIT) ->
  (forall r, r ∈ l' /\ req_status r = WAIT <-> (r ∈ l /\ req_status r = WAIT) /\ r ∉ G) ->
  (forall e, e ∈ Alarm.waiting_ al' <-> e ∈ Alarm.waiting_ al /\ e.1 ∉ (alarm_id_ <$> G)) ->
  linked a l' al' /\ frame a al al'.
Proof.
  intros Hwf Hl Hnd HG Hl' Hal.
  assert (Hown : forall g, g ∈ G -> exists t, (alarm_id_ g, (t, (a, id_ g))) ∈ Alarm.waiting_ al).
  { intros g Hg. destruct (HG g Hg). apply Hl. eauto. }
  split.
  - intros k i. split.
    + intros (t & He). apply Hal in He as [He Hk].
      destruct (proj1 (Hl k i)) as (r & Hr & Hi & Hw & Ha); [eauto |]. exists r.
      destruct (proj2 (Hl' r)) as [Hr' _]; [|auto]. split; [auto |]. intros HrG. apply Hk. cbn.
      rewrite <- Ha. now apply list_elem_of_fmap_2.
    + intros (r & Hr & Hi & Hw & Ha).
      destruct (proj1 (Hl' r)) as [[Hr' _] HrG]; [auto |].
      destruct (proj2 (Hl k i)) as (t & He); [eauto |]. exists t. apply Hal. split; [exact He |].
      cbn. intros (g & E & Hg)%list_elem_of_fmap. destruct (Hown g Hg) as (t' & He').
      rewrite <- E in He'. pose proof (Alarm.wf_key _ _ _ _ Hwf He He') as [= _ Hid].
      apply HrG. replace r with g; [exact Hg |]. apply (ids_unique l); auto.
      * now apply HG.
      * congruence.
  - intros k t b i Hb. rewrite Hal. cbn. split; [tauto |]. intros He. split; [exact He |].
    intros (g & E & Hg)%list_elem_of_fmap. destruct (Hown g Hg) as (t' & He').
    rewrite <- E in He'. pose proof (Alarm.wf_key _ _ _ _ Hwf He He') as [= _ Hid]. congruence.
Qed.


(** ** [lock_all] against a reference definition

    The requests it grants: the first waiting one and, if that is a read
    request, all other waiting read requests. *)

Definition waiting_reader (r : ALockReq) : bool := reader r && waits r.

Fixpoint next_grants (l : list ALockReq) : list ALockReq :=
  match l with
  | [] => []
  | r :: l' =>
      if waits r then if reader r then r :: List.filter waiting_reader l' else [r]
      else next_grants l'
  end.

Definition promote (G : list ALockReq) (r : ALockReq) : ALockReq :=
  if bool_decide (id_ r ∈ ids G) then set_status LOCK r else r.

Lemma next_grants_sublist l : next_grants l `sublist_of` l.
Proof.
  assert (Hf : forall f (l : list ALockReq), List.filter f l `sublist_of` l).
  { intros f k. induction k as [|x k IH]; cbn; [constructor |]. destruct (f x); now constructor. }
  induction l as [|r l IH]; cbn; [constructor |]. destruct (waits r); [|now constructor].
  destruct (reader r); constructor; [apply Hf | apply sublist_nil_l].
Qed.

Lemma next_grants_waiting l g : g ∈ next_grants l -> g ∈ l /\ req_status g = WAIT.
Proof.
  intros Hg. split; [exact (elem_of_sublist _ _ _ Hg (next_grants_sublist l)) |].
  revert Hg. induction l as [|r l IH]; cbn; [set_solver |]. destruct (waits r) eqn:Ew; [|auto].
  apply bool_decide_eq_true in Ew. destruct (reader r).
  - rewrite elem_of_cons. intros [->|Hg]; [assumption |].
    apply list_elem_of_In, filter_In in Hg as [_ Hg]. unfold waiting_reader, waits in Hg.
    apply andb_true_iff in Hg as [_ Hg%bool_decide_eq_true]. exact Hg.
  - rewrite list_elem_of_singleton. now intros ->.
Qed.

Lemma not_in_ids l x r : NoDup (ids (r :: l)) -> x ∈ l -> id_ x <> id_ r.
Proof.
  unfold ids. rewrite fmap_cons, list.NoDup_cons. intros [Hn _] Hx E. apply Hn. rewrite <- E.
  now apply list_elem_of_fmap_2.
Qed.

Lemma id_in_sub l G r :
  NoDup (ids l) -> (forall g, g ∈ G -> g ∈ l) -> r ∈ l -> id_ r ∈ ids G <-> r ∈ G.
Proof.
  intros Hnd HG Hr. split; [|unfold ids; apply list_elem_of_fmap_2].
  intros (g & E & Hg)%list_elem_of_fmap. replace r with g; [exact Hg |].
  apply (ids_unique l); auto.
Qed.

Lemma fmap_ext_in {A B} (f g : A -> B) (l : list A) :
  (forall x, x ∈ l -> f x = g x) -> f <$> l = g <$> l.
Proof. intros H. apply list_fmap_ext. intros i x Hx. apply H. eapply list_elem_of_lookup_2; eauto. Qed.

Lemma promote_out G (l : list ALockReq) : (forall r, r ∈ l -> id_ r ∉ ids G) -> promote G <$> l = l.
Proof.
  intros H. rewrite <- (list_fmap_id l) at 2. apply fmap_ext_in. intros r Hr. unfold promote.
  now rewrite bool_decide_false by auto.
Qed.

Lemma lock_reads_spec l v :
  l_status v = RLOCKED -> 0 <= l_n_rlock v -> l_n_rlock v + Z.of_nat (length l) < 2 ^ 63 ->
  let (l', v') := lock_reads l v in
  l' = (fun r => if waiting_reader r then set_status LOCK r else r) <$> l
  /\ l_status v' = RLOCKED
  /\ l_n_rlock v' = l_n_rlock v + Z.of_nat (length (List.filter waiting_reader l))
  /\ lock_reqs v' = lock_reqs v ++ ids (List.filter waiting_reader l)
  /\ l_alarm v' = cancel (List.filter waiting_reader l) (l_alarm v).
Proof.
  revert v. induction l as [|r l IH]; intros v Hs H0 Hn; cbn [length lock_reads List.filter] in *.
  - cbn. rewrite app_nil_r. split_and!; auto; lia.
  - rewrite Hs, bool_decide_true by reflexivity. unfold cas_status.
    change (bool_decide (type_ r = RLOCK)) with (reader r).
    change (bool_decide (req_status r = WAIT)) with (waits r).
    rewrite fmap_cons. assert (Ewr : waiting_reader r = reader r && waits r) by reflexivity.
    rewrite Ewr. destruct (reader r) eqn:Er; cbn [andb]; [destruct (waits r) eqn:Ew |].
    + rewrite swrap_small by lia.
      specialize (IH (grant RLOCKED (l_n_rlock v + 1) r v)). destruct (lock_reads l _) as [l' v'].
      cbn in IH. destruct IH as (-> & H1 & H2 & H3 & H4); try lia; try reflexivity. cbn [length].
      split_and!; auto; [lia |]. rewrite H3, <- app_assoc. reflexivity.
    + specialize (IH v Hs H0). destruct (lock_reads l v) as [l' v'].
      destruct IH as (-> & ?); [lia | auto].
    + specialize (IH v Hs H0). destruct (lock_reads l v) as [l' v'].
      destruct IH as (-> & ?); [lia | auto].
Qed.

Lemma lock_reads_writer l v : l_status v = WLOCKED -> lock_reads l v = (l, v).
Proof. intros Hs. destruct l; cbn; now rewrite ?Hs. Qed.

(** The status the granted requests leave the lock in. *)
Definition granted_status (G : list ALockReq) : status_t :=
  match G with [] => FREE | r :: _ => if reader r then RLOCKED else WLOCKED end.
Definition granted_count (G : list ALockReq) : Z :=
  match granted_status G with RLOCKED => Z.of_nat (length G) | _ => 0 end.

Lemma lock_next_spec l v :
  NoDup (ids l) -> l_status v = FREE -> l_n_rlock v = 0 -> Z.of_nat (length l) < 2 ^ 63 ->
  let (l', v') := lock_next l v in
  l' = promote (next_grants l) <$> l
  /\ l_status v' = granted_status (next_grants l) /\ l_n_rlock v' = granted_count (next_grants l)
  /\ lock_reqs v' = lock_reqs v ++ ids (next_grants l)
  /\ l_alarm v' = cancel (next_grants l) (l_alarm v).
Proof.
  intros Hnd Hs H0. induction l as [|r l IH]; intros Hn; cbn [length lock_next next_grants] in *.
  - cbn. rewrite app_nil_r. auto.
  - unfold cas_status. change (bool_decide (req_status r = WAIT)) with (waits r).
    change (bool_decide (type_ r = RLOCK)) with (reader r).
    assert (Hout : forall x, x ∈ l -> id_ x <> id_ r) by (intros x; now apply not_in_ids).
    assert (Hndl : NoDup (ids l)) by (unfold ids in *; now apply list.NoDup_cons in Hnd).
    rewrite fmap_cons. destruct (waits r) eqn:Ew; [destruct (reader r) eqn:Er |].
    + pose proof (lock_reads_spec l (grant RLOCKED (swrap 64 (l_n_rlock v + 1)) r v)) as HR.
      rewrite swrap_small in * by lia. destruct (lock_reads l _) as [l' v']. cbn in HR.
      destruct HR as (-> & H1 & H2 & H3 & H4); try lia; try reflexivity.
      unfold granted_count. cbn [granted_status]. rewrite Er. split_and!; auto.
      * f_equal.
        -- unfold promote. rewrite bool_decide_true; [reflexivity |]. unfold ids. set_solver.
        -- apply fmap_ext_in. intros x Hx. unfold promote.
           rewrite (bool_decide_ext _ (waiting_reader x = true)); [now destruct (waiting_reader x) |].
           unfold ids. rewrite fmap_cons, elem_of_cons.
           rewrite (id_in_sub l _ x Hndl) by (auto; intros g; rewrite !list_elem_of_In, filter_In; tauto).
           rewrite list_elem_of_In, filter_In, <- list_elem_of_In. specialize (Hout x Hx). tauto.
      * cbn [length]. lia.
      * rewrite H3, <- app_assoc. reflexivity.
    + rewrite lock_reads_writer by reflexivity. unfold granted_count. cbn [granted_status].
      rewrite Er. split_and!; auto. rewrite promote_out.
      * unfold promote. rewrite bool_decide_true; [reflexivity |]. unfold ids. set_solver.
      * intros x Hx. specialize (Hout x Hx). unfold ids. cbn. set_solver.
    + specialize (IH Hndl). destruct (lock_next l v) as [l' v']. destruct IH as (-> & ?); [lia |].
      split_and!; try tauto. f_equal. unfold promote. rewrite bool_decide_false; [reflexivity |].
      intros (g & E & Hg)%list_elem_of_fmap. apply next_grants_waiting in Hg as [Hg _].
      now apply (Hout g).
Qed.


Lemma ids_promote G l : ids (promote G <$> l) = ids l.
Proof.
  unfold ids. rewrite <- list_fmap_compose. apply fmap_ext_in. intros r _. unfold compose, promote.
  now case_bool_decide.
Qed.

Lemma promote_in G (l : list ALockReq) r' :
  r' ∈ promote G <$> l -> (r' ∈ l /\ id_ r' ∉ ids G)
                          \/ exists g, g ∈ l /\ id_ g ∈ ids G /\ r' = set_status LOCK g.
Proof.
  intros (r & -> & Hr)%list_elem_of_fmap. unfold promote. case_bool_decide; eauto.
Qed.

Lemma promote_waiting G l r :
  NoDup (ids l) -> (forall g, g ∈ G -> g ∈ l) ->
  r ∈ promote G <$> l /\ req_status r = WAIT <-> (r ∈ l /\ req_status r = WAIT) /\ r ∉ G.
Proof.
  intros Hnd HG. split.
  - intros [Hr Hw]. apply promote_in in Hr as [[Hr Hn]|(g & _ & _ & ->)]; [|discriminate Hw].
    rewrite (id_in_sub l) in Hn by auto. auto.
  - intros [[Hr Hw] Hn]. split; [|exact Hw]. apply list_elem_of_fmap. exists r.
    unfold promote. rewrite bool_decide_false; [auto |]. now rewrite (id_in_sub l) by auto.
Qed.

Lemma sublist_by_id (G l : list ALockReq) :
  G `sublist_of` l -> NoDup (ids l) -> List.filter (fun r => bool_decide (id_ r ∈ ids G)) l = G.
Proof.
  induction 1 as [|x G l HG IH|x G l HG IH]; intros Hnd; [reflexivity | |].
  all: assert (Hout : forall y, y ∈ l -> id_ y <> id_ x) by (intros y; now apply not_in_ids).
  all: assert (Hndl : NoDup (ids l)) by (unfold ids in *; now apply list.NoDup_cons in Hnd).
  all: cbn [List.filter].
  - rewrite bool_decide_true by (unfold ids; set_solver). f_equal. etransitivity; [|now apply IH].
    apply filter_ext_Forall, Forall_forall. intros y Hy.
    apply bool_decide_ext. unfold ids. rewrite fmap_cons, elem_of_cons. specialize (Hout y Hy). tauto.
  - rewrite bool_decide_false; [now apply IH |]. intros (g & E & Hg)%list_elem_of_fmap.
    apply (Hout g); [|auto]. exact (elem_of_sublist _ _ _ Hg HG).
Qed.

Lemma holders_promote G l :
  NoDup (ids l) -> G `sublist_of` l -> holders l = [] ->
  holders (promote G <$> l) = set_status LOCK <$> G.
Proof.
  intros Hnd HG Hh. rewrite <- (sublist_by_id G l HG Hnd) at 2. clear HG Hnd.
  induction l as [|r l IH]; [reflexivity |]. unfold holders in *. cbn in *.
  destruct (holds r) eqn:E; [discriminate |]. specialize (IH Hh).
  assert (Ep : promote G r = if bool_decide (id_ r ∈ ids G) then set_status LOCK r else r)
    by reflexivity.
  rewrite Ep. case_bool_decide; cbn; [f_equal; exact IH | rewrite E; exact IH].
Qed.

(** The requests granted together are one writer or readers only. *)
Lemma next_grants_held l :
  held_by (granted_status (next_grants l)) (granted_count (next_grants l))
    (set_status LOCK <$> next_grants l).
Proof.
  induction l as [|r l IH]; cbn; [auto |]. destruct (waits r); [|exact IH].
  unfold granted_count. destruct (reader r) eqn:Er; cbn; rewrite Er; cbn.
  - rewrite length_fmap. split_and!; [discriminate | | lia]. constructor; [exact Er |].
    apply Forall_fmap, List.Forall_forall. intros x [_ Hx]%filter_In.
    now apply andb_true_iff in Hx as [Hx _].
  - split; [reflexivity |]. eexists. split; [reflexivity | exact Er].
Qed.

Lemma next_grants_readers l g :
  granted_status (next_grants l) = RLOCKED -> g ∈ l -> req_status g = WAIT ->
  reader g = true -> g ∈ next_grants l.
Proof.
  intros HG Hg Hw Hr. revert HG Hg. induction l as [|r l IH]; cbn; [set_solver |].
  rewrite elem_of_cons. destruct (waits r) eqn:Ew.
  - destruct (reader r) eqn:Er; cbn; rewrite Er; [|discriminate]. intros _ [->|Hg]; [set_solver |].
    apply elem_of_cons. right. apply list_elem_of_In, filter_In. rewrite <- list_elem_of_In.
    split; [exact Hg |]. unfold waiting_reader, waits. now rewrite Hr, bool_decide_true.
  - intros HG [->|Hg]; [|auto]. unfold waits in Ew. now rewrite bool_decide_true in Ew.
Qed.

Lemma next_grants_none l : next_grants l = [] -> waiters l = [].
Proof.
  induction l as [|r l IH]; cbn; [reflexivity |]. unfold waiters in *. cbn.
  destruct (waits r); [|exact IH]. destruct (reader r); discriminate.
Qed.

Lemma next_grants_stuck l :
  NoDup (ids l) -> stuck (granted_status (next_grants l)) (waiters (promote (next_grants l) <$> l)).
Proof.
  intros Hnd. destruct (granted_status (next_grants l)) eqn:E; cbn; [| exact I |].
  - destruct (next_grants l) as [|g G] eqn:EG; [|cbn in E; destruct (reader g); discriminate].
    rewrite promote_out by (cbn; set_solver). now apply next_grants_none.
  - apply Forall_forall. intros r [Hr Hw]%elem_of_waiters.
    destruct (proj1 (promote_waiting (next_grants l) l r Hnd (fun g Hg => proj1 (next_grants_waiting l g Hg))))
      as [[Hr' _] Hn]; [auto |].
    destruct (reader r) eqn:Er; [|reflexivity]. destruct Hn. now apply next_grants_readers.
Qed.

Lemma queue_inv_promote G l next : queue_inv l next -> queue_inv (promote G <$> l) next.
Proof.
  intros (Hnd & Hb & Hst). split_and!; [now rewrite ids_promote | |]; apply Forall_fmap.
  - eapply Forall_weaken; [exact Hb |]. intros r Hr. unfold compose, promote. now case_bool_decide.
  - eapply Forall_weaken; [exact Hst |]. intros r Hr. unfold compose, promote.
    case_bool_decide; cbn; auto.
Qed.

Lemma lock_all_ok s al :
  queue_inv (requests_ s) (next_id_ s) -> holders (requests_ s) = [] ->
  status_ s = FREE -> n_rlock_ s = 0 -> Z.of_nat (length (requests_ s)) < 2 ^ 63 ->
  let G := next_grants (requests_ s) in
  runs (lock_all s al) (fun '(s', al', _, reqs) =>
    s' = with_lock (granted_status G) (granted_count G) (promote G <$> requests_ s) s
    /\ al' = cancel G al /\ reqs = ids G /\ lock_inv s').
Proof.
  intros (Hnd & Hq) Hh Hs Hn Hlen G. unfold lock_all. rewrite Hs, Hn. cbn [verify mbind option_bind].
  pose proof (lock_next_spec (requests_ s)
    {| l_status := FREE; l_n_rlock := 0; l_alarm := al; n_lock := 0; lock_reqs := [] |}) as H.
  rewrite bool_decide_true by reflexivity. cbn. destruct (lock_next _ _) as [l v].
  destruct H as (-> & -> & -> & -> & ->); auto. apply runs_ret. split_and!; auto.
  split_and!; cbn.
  - apply queue_inv_promote. now split.
  - rewrite holders_promote by auto using next_grants_sublist. apply next_grants_held.
  - now apply next_grants_stuck.
Qed.


(** ** What every operation guarantees *)

Definition ev_id (e : event) : Z := match e with Yes i => i | No i => i | Wound i _ => i end.
Definition ev_ids (evs : list event) : list Z := ev_id <$> evs.

Record lock_step (a : Z) (s : tlock) (al : alarm_t) (s' : tlock) (al' : alarm_t)
    (evs : list event) : Prop := {
  ls_wf : Alarm.wf al';
  ls_inv : lock_inv s';
  ls_linked : linked a (requests_ s') al';
  ls_frame : frame a al al';
  ls_next : next_id_ s <= next_id_ s' <= next_id_ s + 1;
  ls_alarm_next : Alarm.next_id_ al <= Alarm.next_id_ al' <= Alarm.next_id_ al + 1;
  ls_nodup : NoDup (ev_ids evs);
  ls_answers : forall i, i ∈ ev_ids evs ->
    (i = next_id_ s /\ next_id_ s' = next_id_ s + 1)
    \/ exists r, r ∈ requests_ s /\ id_ r = i /\ req_status r = WAIT;
  ls_waits : forall r, r ∈ requests_ s' -> req_status r = WAIT ->
    (id_ r ∉ ev_ids evs) /\ (r ∈ requests_ s \/ id_ r = next_id_ s);
  ls_holds : forall r, r ∈ requests_ s' -> req_status r = LOCK ->
    (Yes (id_ r) ∈ evs) \/ (r ∈ requests_ s);
  ls_refused : forall r, r ∈ requests_ s' -> req_status r = TIMEOUT ->
    (No (id_ r) ∈ evs) \/ (r ∈ requests_ s) }.

Lemma bounded_ids_length (l : list Z) n :
  1 <= n -> NoDup l -> Forall (fun i => 1 <= i < n) l -> Z.of_nat (length l) <= n - 1.
Proof.
  intros Hn Hnd Hb. assert (Hl : (length l <= length (seqZ 1 (n - 1)))%nat).
  { apply NoDup_incl_length; [now apply NoDup_ListNoDup |].
    intros i Hi. apply list_elem_of_In, elem_of_seqZ.
    rewrite List.Forall_forall in Hb. specialize (Hb i Hi). lia. }
  rewrite length_seqZ in Hl. lia.
Qed.

Lemma queue_length l next : 1 <= next -> queue_inv l next -> Z.of_nat (length l) <= next - 1.
Proof.
  intros Hn (Hnd & Hb & _). replace (length l) with (length (ids l)) by apply length_fmap.
  apply bounded_ids_length; auto. unfold ids. now apply Forall_fmap.
Qed.

Lemma queue_inv_snoc l next r :
  1 <= next -> queue_inv l next -> id_ r = next ->
  (req_status r = WAIT \/ req_status r = LOCK \/ req_status r = TIMEOUT) ->
  queue_inv (l ++ [r]) (next + 1).
Proof.
  intros Hn (Hnd & Hb & Hst) Hi Hr. unfold queue_inv. split_and!.
  - unfold ids. rewrite fmap_app. apply list.NoDup_app. split_and!; [exact Hnd | |apply NoDup_singleton].
    intros i (x & -> & Hx)%list_elem_of_fmap E%list_elem_of_singleton. rewrite Forall_forall in Hb.
    specialize (Hb x Hx). lia.
  - apply Forall_app. split; [|repeat constructor; lia].
    eapply Forall_weaken; [exact Hb |]. cbn. intros; lia.
  - apply Forall_app. auto.
Qed.

Lemma queue_inv_next l next : queue_inv l next -> queue_inv l (next + 1).
Proof.
  intros (Hnd & Hb & Hst). split_and!; auto. eapply Forall_weaken; [exact Hb |]. cbn. intros; lia.
Qed.

Lemma linked_snoc a l al r :
  linked a l al -> req_status r <> WAIT -> linked a (l ++ [r]) al.
Proof.
  intros Hl Hr k i. rewrite (Hl k i). split; intros (x & Hx & ?); exists x; [set_solver |].
  apply elem_of_app in Hx as [Hx| ->%list_elem_of_singleton]; tauto.
Qed.

Lemma linked_add a l al al' r t :
  linked a l al -> req_status r = WAIT ->
  Alarm.waiting_ al' = Alarm.waiting_ al ++ [(alarm_id_ r, (t, (a, id_ r)))] ->
  linked a (l ++ [r]) al' /\ frame a al al'.
Proof.
  intros Hl Hr E. split.
  - intros k i. rewrite E. split.
    + intros (t' & He). apply elem_of_app in He as [He|He%list_elem_of_singleton].
      * destruct (proj1 (Hl k i)) as (x & Hx & ?); [eauto |]. exists x. set_solver.
      * injection He as -> -> ->. exists r. set_solver.
    + intros (x & Hx & Hi & Hw & Hk). apply elem_of_app in Hx as [Hx| ->%list_elem_of_singleton].
      * destruct (proj2 (Hl k i)) as (t' & He); [eauto |]. exists t'. set_solver.
      * exists t. set_solver.
  - intros k t' b i Hb. rewrite E, elem_of_app, list_elem_of_singleton. split; [|auto].
    intros [He|[= -> -> -> ->]]; [exact He | congruence].
Qed.


Lemma id_not_next l next r : queue_inv l next -> r ∈ l -> id_ r <> next.
Proof.
  intros (_ & Hb & _) Hr. rewrite Forall_forall in Hb. specialize (Hb r Hr). lia.
Qed.

Lemma frame_refl a al : frame a al al.
Proof. intros ? ? ? ? ?. reflexivity. Qed.

(** The three outcomes of [vlock]: granted, queued with an alarm, refused. *)
Section Vlock.
Variables (a : Z) (s s1 : tlock) (al : alarm_t).
Hypothesis (Hwf : Alarm.wf al) (Hinv : lock_inv s) (Hlink : linked a (requests_ s) al).
Hypothesis (Hpos : 1 <= next_id_ s) (Hs1 : next_id_ s1 = next_id_ s + 1).

Lemma vlock_granted st n r :
  id_ r = next_id_ s -> req_status r = LOCK ->
  held_by st n (holders (requests_ s) ++ [r]) -> stuck st (waiters (requests_ s)) ->
  lock_step a s al (with_lock st n (requests_ s ++ [r]) s1) al [Yes (next_id_ s)].
Proof using All.
  destruct Hinv as (Hq & Hh & Hst). intros Hi Hr Hh' Hst'. split; cbn; auto using frame_refl; try lia.
  - unfold lock_inv. cbn. rewrite Hs1, holders_app, waiters_app. unfold holders at 2, waiters at 2.
    cbn. unfold holds, waits. rewrite Hr. cbn. rewrite app_nil_r.
    split_and!; [apply queue_inv_snoc; auto | exact Hh' | exact Hst'].
  - apply linked_snoc; [assumption | congruence].
  - apply NoDup_singleton.
  - intros i ->%list_elem_of_singleton. auto.
  - intros x Hx Hxw. apply elem_of_app in Hx as [Hx| ->%list_elem_of_singleton]; [|congruence].
    split; [|auto]. intros E%list_elem_of_singleton. now apply (id_not_next _ _ x Hq).
  - intros x Hx Hxw. apply elem_of_app in Hx as [Hx| ->%list_elem_of_singleton]; [auto |].
    left. rewrite Hi. set_solver.
  - intros x Hx Hxw. apply elem_of_app in Hx as [Hx| ->%list_elem_of_singleton]; [auto | congruence].
Qed.

Lemma vlock_queued al' t r :
  id_ r = next_id_ s -> req_status r = WAIT -> Alarm.wf al' ->
  Alarm.next_id_ al' = Alarm.next_id_ al + 1 ->
  Alarm.waiting_ al' = Alarm.waiting_ al ++ [(alarm_id_ r, (t, (a, id_ r)))] ->
  stuck (status_ s) (waiters (requests_ s) ++ [r]) ->
  lock_step a s al (with_lock (status_ s) (n_rlock_ s) (requests_ s ++ [r]) s1) al' [].
Proof using All.
  destruct Hinv as (Hq & Hh & Hst). intros Hi Hr Hwf' Hn' Ewt Hst'.
  destruct (linked_add a _ al al' r t Hlink Hr Ewt) as [Hl' Hf'].
  split; cbn; auto; try lia.
  - unfold lock_inv. cbn. rewrite Hs1, holders_app, waiters_app. unfold holders at 2, waiters at 2.
    cbn. unfold holds, waits. rewrite Hr. cbn. rewrite app_nil_r.
    split_and!; [apply queue_inv_snoc; auto | exact Hh | exact Hst'].
  - constructor.
  - set_solver.
  - intros x Hx Hxw. split; [set_solver |].
    apply elem_of_app in Hx as [Hx| ->%list_elem_of_singleton]; auto.
  - intros x Hx Hxw. apply elem_of_app in Hx as [Hx| ->%list_elem_of_singleton]; [auto | congruence].
  - intros x Hx Hxw. apply elem_of_app in Hx as [Hx| ->%list_elem_of_singleton]; [auto | congruence].
Qed.

Lemma vlock_refused :
  status_ s1 = status_ s -> n_rlock_ s1 = n_rlock_ s -> requests_ s1 = requests_ s ->
  lock_step a s al s1 al [No (next_id_ s)].
Proof using All.
  destruct Hinv as (Hq & Hh & Hst). intros E1 E2 E3. split; rewrite ?E3; auto using frame_refl; try lia.
  - unfold lock_inv. rewrite E1, E2, E3, Hs1. split_and!; auto using queue_inv_next.
  - apply NoDup_singleton.
  - intros i ->%list_elem_of_singleton. auto.
  - intros x Hx Hxw. split; [|auto]. intros E%list_elem_of_singleton. now apply (id_not_next _ _ x Hq).
Qed.
End Vlock.

Lemma lockable_spec s ty :
  if lockable s ty then status_ s = FREE \/ (status_ s = RLOCKED /\ ty = RLOCK)
  else status_ s = WLOCKED \/ (status_ s = RLOCKED /\ ty = WLOCK).
Proof. unfold lockable. destruct (status_ s), ty; repeat case_bool_decide; cbn; auto; congruence. Qed.

Lemma timeout_vlock_ok a tm_now ty s al :
  Alarm.wf al -> lock_inv s -> linked a (requests_ s) al ->
  1 <= next_id_ s -> next_id_ s + 1 < 2 ^ 63 -> Alarm.next_id_ al + 1 < 2 ^ 64 ->
  let '(s', al', i, evs) := vlock a tm_now ty s al in
  lock_step a s al s' al' evs /\ i = next_id_ s.
Proof.
  intros Hwf Hinv Hl H1 Hn Han. pose proof Hinv as (Hq & Hh & Hst).
  pose proof (queue_length _ _ H1 Hq) as Hlen.
  pose proof (List.filter_length_le holds (requests_ s)) as Hhl. fold (holders (requests_ s)) in Hhl.
  unfold vlock. cbn [requests_ status_ n_rlock_ tm_wait_]. rewrite (wrap_small 64) by lia.
  set (s1 := {| next_id_ := _ |}). pose proof (lockable_spec s1 ty) as Hw.
  change (status_ s1) with (status_ s) in Hw. destruct (lockable s1 ty).
  - destruct ty; [rewrite bool_decide_true by reflexivity | rewrite bool_decide_false by discriminate];
      (split; [|reflexivity]).
    + apply vlock_granted; auto; destruct Hw as [E|[E _]]; rewrite E in Hh, Hst; cbn in Hh, Hst |- *.
      * destruct Hh as [-> ->]. split_and!; [discriminate | repeat constructor | reflexivity].
      * destruct Hh as (_ & Hr & E'). rewrite length_app, swrap_small by (cbn; lia). cbn.
        split_and!; [destruct (holders (requests_ s)); discriminate | | lia].
        apply Forall_app. split; [exact Hr | repeat constructor].
      * rewrite Hst. constructor.
      * exact Hst.
    + apply vlock_granted; auto; [|exact I]. destruct Hw as [E|[_ E]]; [|discriminate E].
      rewrite E in Hh. destruct Hh as [-> ->]. cbn. eauto.
  - destruct (Z.ltb_spec 0 (tm_wait_ s)).
    + pose proof (Alarm.add_spec al (wrap 64 (tm_now + tm_wait_ s)) (a, next_id_ s) Hwf Han) as Hadd.
      destruct (Alarm.add _ _ al) as [k al']. destruct Hadd as (Hwf' & _ & Hn' & Ewt).
      split; [|reflexivity]. eapply vlock_queued; eauto. cbn.
      destruct Hw as [E|[E ->]]; rewrite E in *; [exact I |].
      apply Forall_app. split; [exact Hst | repeat constructor].
    + split; [|reflexivity]. apply vlock_refused; auto.
Qed.


Lemma find_request_spec i l :
  match find_request i l with
  | None => i ∉ ids l
  | Some (pre, it, post) => l = pre ++ it :: post /\ id_ it = i
  end.
Proof.
  induction l as [|r l IH]; cbn; [set_solver |]. destruct (Z.eqb_spec (id_ r) i) as [E|E]; [auto |].
  destruct (find_request i l) as [[[pre it] post]|]; cbn.
  - destruct IH as [-> Hi]. auto.
  - set_solver.
Qed.

Lemma queue_inv_erase pre it post next :
  queue_inv (pre ++ it :: post) next ->
  queue_inv (pre ++ post) next /\ id_ it ∉ ids (pre ++ post).
Proof.
  unfold queue_inv, ids. rewrite !fmap_app, fmap_cons, !Forall_app, !Forall_cons_iff.
  intros (Hnd & Hb & Hst). rewrite <- Permutation_middle in Hnd.
  apply list.NoDup_cons in Hnd as [Hn Hnd]. tauto.
Qed.

Lemma elem_of_middle (pre post : list ALockReq) it r :
  r ∈ pre ++ it :: post <-> r = it \/ r ∈ pre ++ post.
Proof. set_solver. Qed.

Lemma holders_erase pre it post :
  holders (pre ++ it :: post) = holders pre ++ (if holds it then [it] else []) ++ holders post.
Proof. apply filter_app_cons. Qed.
Lemma waiters_erase pre it post :
  waiters (pre ++ it :: post) = waiters pre ++ (if waits it then [it] else []) ++ waiters post.
Proof. apply filter_app_cons. Qed.

Lemma stuck_erase st pre W post : stuck st (pre ++ W ++ post) -> stuck st (pre ++ post).
Proof.
  destruct st; cbn; auto.
  - intros [-> [_ ->]%app_nil]%app_nil. reflexivity.
  - rewrite !Forall_app. tauto.
Qed.

(** The status and count that [abort] leaves after releasing the holder [it]. *)
Lemma release_held st n pre it post :
  held_by st n (pre ++ it :: post) -> n < 2 ^ 63 ->
  let n' := if bool_decide (type_ it = RLOCK) then swrap 64 (n - 1) else n in
  let st' := if n' =? 0 then FREE else st in
  held_by st' n' (pre ++ post) /\ (st' = FREE \/ st' = st).
Proof.
  intros Hh Hn. cbv zeta. change (bool_decide (type_ it = RLOCK)) with (reader it).
  destruct st; cbn in Hh.
  - destruct Hh as [E _]. destruct pre; discriminate E.
  - destruct Hh as [-> (r & E & Hr)]. destruct pre as [|x pre]; [|destruct pre; discriminate E].
    injection E as -> ->. rewrite Hr. cbn. auto.
  - destruct Hh as (_ & Hr & ->). rewrite length_app in *. cbn [length] in *.
    apply Forall_app in Hr as [Hr1 [Hr2 Hr3]%Forall_cons_iff]. rewrite Hr2, swrap_small by lia.
    assert (Hpp : length (pre ++ post) = (length pre + length post)%nat) by apply length_app.
    destruct (Z.eqb_spec (Z.of_nat (length pre + S (length post)) - 1) 0).
    + assert (E : pre ++ post = []) by (apply nil_length_inv; lia). rewrite E. cbn. auto.
    + split; [|auto]. cbn. rewrite Hpp. split_and!; [| now apply Forall_app | lia].
      intros E. rewrite E in Hpp. cbn in Hpp. lia.
Qed.

(** Erasing a request, with its alarm if it waits, and granting nothing. *)
Lemma erase_step a s al al' pre it post st n :
  Alarm.wf al -> lock_inv s -> linked a (requests_ s) al ->
  requests_ s = pre ++ it :: post ->
  Alarm.wf al' -> Alarm.next_id_ al' = Alarm.next_id_ al ->
  (forall e, e ∈ Alarm.waiting_ al'
     <-> e ∈ Alarm.waiting_ al /\ e.1 ∉ (alarm_id_ <$> if waits it then [it] else [])) ->
  held_by st n (holders (pre ++ post)) -> stuck st (waiters (pre ++ post)) ->
  lock_step a s al (with_lock st n (pre ++ post) s) al' [].
Proof.
  intros Hwf (Hq & Hh & Hst) Hl E Hwf' Hn' Hal' Hh' Hst'. rewrite E in Hq, Hl.
  pose proof (queue_inv_erase _ _ _ _ Hq) as [Hq' Hnot].
  destruct (linked_cancel a (pre ++ it :: post) (pre ++ post) al al' (if waits it then [it] else []))
    as [Hl' Hf']; auto.
  - apply Hq.
  - unfold waits. case_bool_decide; set_solver.
  - intros r. rewrite elem_of_middle. unfold waits. split.
    + intros [Hr Hw]. split; [auto |]. case_bool_decide; [|set_solver].
      intros ->%list_elem_of_singleton. apply Hnot. unfold ids. now apply list_elem_of_fmap_2.
    + intros [[[->|Hr] Hw] Hn]; [|auto]. rewrite bool_decide_true in Hn by exact Hw. set_solver.
  - split; cbn; auto; try lia; rewrite ?E.
    + now split.
    + constructor.
    + set_solver.
    + intros r Hr _. split; [set_solver |]. left. rewrite elem_of_middle. auto.
    + intros r Hr _. right. rewrite elem_of_middle. auto.
    + intros r Hr _. right. rewrite elem_of_middle. auto.
Qed.


Lemma ev_ids_yes ks : ev_ids (List.map Yes ks) = ks.
Proof. unfold ev_ids. induction ks as [|i ks IH]; cbn; [reflexivity |]. f_equal. exact IH. Qed.

(** Granting the next requests after an erasure. *)
Lemma grant_step a s al pre it post s' :
  Alarm.wf al -> lock_inv s -> linked a (requests_ s) al -> 1 <= next_id_ s ->
  requests_ s = pre ++ it :: post -> req_status it <> WAIT ->
  let G := next_grants (pre ++ post) in
  next_id_ s' = next_id_ s -> requests_ s' = promote G <$> (pre ++ post) -> lock_inv s' ->
  lock_step a s al s' (cancel G al) (List.map Yes (ids G)).
Proof.
  intros Hwf (Hq & Hh & Hst) Hl Hpos E Hit G En Er Hinv'. rewrite E in Hq, Hl.
  pose proof (queue_inv_erase _ _ _ _ Hq) as [Hq' Hnot]. pose proof Hq' as (Hnd & _).
  assert (HGin : forall g, g ∈ G -> g ∈ pre ++ post) by (intros g Hg; now apply next_grants_waiting).
  destruct (cancel_spec G al Hwf) as (Hwf' & Hn' & Hal').
  destruct (linked_cancel a (pre ++ it :: post) (requests_ s') al (cancel G al) G) as [Hl' Hf']; auto.
  - apply Hq.
  - intros g Hg. apply next_grants_waiting in Hg. rewrite elem_of_middle. tauto.
  - intros r. rewrite Er, promote_waiting, elem_of_middle by auto.
    split; [tauto |]. intros [[[->|Hr] Hw] Hn]; tauto.
  - split; auto; try lia; rewrite ?ev_ids_yes, ?Er, ?E.
    + apply (sublist_NoDup _ (ids (pre ++ post))); [exact Hnd |]. apply fmap_sublist, next_grants_sublist.
    + intros i (g & -> & Hg)%list_elem_of_fmap. right. exists g. rewrite elem_of_middle.
      apply next_grants_waiting in Hg. tauto.
    + intros r Hr Hw. destruct (proj1 (promote_waiting G _ r Hnd HGin) (conj Hr Hw)) as [[Hr' _] Hn].
      rewrite (id_in_sub (pre ++ post)) by auto. rewrite elem_of_middle. auto.
    + intros r Hr Hw. apply promote_in in Hr as [[Hr _]|(g & _ & Hg & ->)].
      * right. rewrite elem_of_middle. auto.
      * left. cbn. apply list_elem_of_In, in_map_iff. exists (id_ g). now rewrite <- list_elem_of_In.
    + intros r Hr Hw. apply promote_in in Hr as [[Hr _]|(g & _ & _ & ->)]; [|discriminate Hw].
      right. rewrite elem_of_middle. auto.
Qed.

(** What the queue is after [abort] released the request [it]. *)
Definition after_release (s : tlock) (pre post : list ALockReq) (s' : tlock) (evs : list event) : Prop :=
  (holders (pre ++ post) = []
   /\ requests_ s' = promote (next_grants (pre ++ post)) <$> (pre ++ post)
   /\ evs = List.map Yes (ids (next_grants (pre ++ post))))
  \/ (status_ s = RLOCKED /\ holders (pre ++ post) <> [] /\ requests_ s' = pre ++ post /\ evs = []).

Lemma abort_hold_ok a s al i pre it post :
  Alarm.wf al -> lock_inv s -> linked a (requests_ s) al ->
  1 <= next_id_ s < 2 ^ 63 -> find_request i (requests_ s) = Some (pre, it, post) ->
  req_status it = LOCK ->
  runs (abort s al i) (fun '(s', al', evs) =>
    lock_step a s al s' al' evs /\ next_id_ s' = next_id_ s /\ after_release s pre post s' evs).
Proof.
  intros Hwf Hinv Hl Hn Hf Hit. pose proof Hinv as (Hq & Hh & Hst).
  pose proof (find_request_spec i (requests_ s)) as Hs. rewrite Hf in Hs. destruct Hs as [E Hi].
  unfold abort. rewrite Hf, Hit. cbn [status_ with_lock]. rewrite E in Hq, Hh, Hst.
  pose proof (queue_length _ _ (proj1 Hn) Hq) as Hlen. rewrite length_app in Hlen.
  rewrite holders_erase in Hh. assert (Hhit : holds it = true) by (now apply bool_decide_true).
  rewrite Hhit in Hh. cbn [app] in Hh. rewrite waiters_erase in Hst.
  pose proof (queue_inv_erase _ _ _ _ Hq) as [Hq' Hnot].
  destruct (release_held _ _ _ _ _ Hh) as [Hh' Hst'].
  { destruct (status_ s); cbn in Hh; [lia | lia |]. destruct Hh as (_ & _ & ->).
    pose proof (List.filter_length_le holds pre). pose proof (List.filter_length_le holds post).
    unfold holders. rewrite length_app. cbn [length] in *. lia. }
  cbv zeta in Hh', Hst'. rewrite <- holders_app in Hh'. revert Hh' Hst'.
  generalize (if bool_decide (type_ it = RLOCK) then swrap 64 (n_rlock_ s - 1) else n_rlock_ s).
  intros n. generalize (if n =? 0 then FREE else status_ s). intros st Hh' Hst'.
  case_bool_decide as Hfree.
  - subst st. cbn in Hh'. destruct Hh' as [Hno ->].
    eapply runs_bind; [eapply lock_all_ok; cbn; auto; rewrite ?length_app; cbn [length] in *; lia |].
    intros [[[s' al'] n'] reqs] (-> & -> & -> & Hinv'). apply runs_ret. split_and!; [|reflexivity|].
    + eapply grant_step; eauto; [lia | congruence].
    + left. auto.
  - destruct Hst' as [?|Hst']; [congruence |]. subst st. apply runs_ret.
    split_and!; [|reflexivity|].
    + eapply erase_step; eauto.
      * unfold waits. rewrite Hit. cbn. rewrite bool_decide_false by discriminate. set_solver.
      * rewrite waiters_app. eapply stuck_erase, Hst.
    + right. destruct (status_ s); cbn in Hh'; [congruence | |].
      * cbn in Hh. destruct Hh as [_ (r & Er & _)]. destruct Hh' as [_ (r' & Er' & _)].
        rewrite holders_app in Er'. apply (f_equal length) in Er, Er'.
        rewrite length_app in Er, Er'. cbn in Er, Er'. lia.
      * tauto.
Qed.

Lemma timeout_abort_ok a s al i :
  Alarm.wf al -> lock_inv s -> linked a (requests_ s) al -> 1 <= next_id_ s < 2 ^ 63 ->
  runs (abort s al i) (fun '(s', al', evs) =>
    lock_step a s al s' al' evs /\ next_id_ s' = next_id_ s).
Proof.
  intros Hwf Hinv Hl Hn. pose proof (find_request_spec i (requests_ s)) as Hs.
  destruct (find_request i (requests_ s)) as [[[pre it] post]|] eqn:Ef.
  - destruct Hs as [E Hi]. pose proof Hinv as (Hq & Hh & Hst). rewrite E in Hq, Hh, Hst.
    pose proof Hq as (_ & _ & Hsts). apply Forall_app in Hsts as [_ [Hit _]%Forall_cons_iff].
    rewrite holders_erase in Hh. rewrite waiters_erase in Hst.
    destruct Hit as [Hit|[Hit|Hit]].
    + unfold abort. rewrite Ef, Hit. apply runs_ret. split; [|reflexivity].
      destruct (Alarm.remove_spec al (alarm_id_ it) Hwf) as (Hwf' & Hn' & Hm).
      eapply erase_step; eauto.
      * intros e. rewrite Hm. unfold waits. rewrite Hit, bool_decide_true by reflexivity. cbn. set_solver.
      * unfold holds in Hh. rewrite Hit, bool_decide_false in Hh by discriminate.
        now rewrite holders_app.
      * rewrite waiters_app. eapply stuck_erase, Hst.
    + eapply runs_mono; [eapply abort_hold_ok; eauto |]. intros [[s' al'] evs]. tauto.
    + unfold abort. rewrite Ef, Hit. apply runs_ret. split; [|reflexivity].
      eapply erase_step; eauto.
      * unfold waits. rewrite Hit, bool_decide_false by discriminate. set_solver.
      * unfold holds in Hh. rewrite Hit, bool_decide_false in Hh by discriminate.
        now rewrite holders_app.
      * rewrite waiters_app. eapply stuck_erase, Hst.
  - unfold abort. rewrite Ef. apply runs_ret. split; [|reflexivity].
    split; auto using frame_refl; try lia; [constructor | set_solver | set_solver].
Qed.


(** ** The alarm's callback and the destructor *)

Lemma queue_inv_replace pre it it' post next :
  queue_inv (pre ++ it :: post) next -> id_ it' = id_ it ->
  (req_status it' = WAIT \/ req_status it' = LOCK \/ req_status it' = TIMEOUT) ->
  queue_inv (pre ++ it' :: post) next.
Proof.
  unfold queue_inv, ids. rewrite !fmap_app, !fmap_cons, !Forall_app, !Forall_cons_iff.
  intros (Hnd & Hb & Hst) E Hs. rewrite E. tauto.
Qed.

Lemma do_timeout_ok a i s n k t rest :
  let al := {| Alarm.next_id_ := n; Alarm.waiting_ := (k, (t, (a, i))) :: rest |} in
  let al' := {| Alarm.next_id_ := n; Alarm.waiting_ := rest |} in
  Alarm.wf al -> lock_inv s -> linked a (requests_ s) al ->
  runs (do_timeout i s) (fun '(s', evs) =>
    lock_step a s al s' al' evs /\ next_id_ s' = next_id_ s /\ evs = [No i]).
Proof.
  intros al al' Hwf (Hq & Hh & Hst) Hl.
  destruct (proj1 (Hl k i)) as (r & Hr & Hi & Hw & Hk); [exists t; cbn; set_solver |].
  pose proof (find_request_spec i (requests_ s)) as Hs. unfold do_timeout.
  destruct (find_request i (requests_ s)) as [[[pre it] post]|].
  2: { destruct Hs. rewrite <- Hi. unfold ids. now apply list_elem_of_fmap_2. }
  destruct Hs as [E Hit]. assert (it = r) as ->.
  { apply (ids_unique (requests_ s)); [apply Hq | rewrite E; set_solver | assumption | congruence]. }
  cbn [mbind option_bind]. unfold cas_status. rewrite bool_decide_true by exact Hw.
  apply runs_ret. split_and!; [|reflexivity | now rewrite Hi]. rewrite E in Hq, Hh, Hst, Hl.
  pose proof (queue_inv_erase _ _ _ _ Hq) as [_ Hnot].
  assert (Hnr : r ∉ pre ++ post).
  { intros Hin. apply Hnot. unfold ids. now apply list_elem_of_fmap_2. }
  destruct (linked_cancel a (pre ++ r :: post) (pre ++ set_status TIMEOUT r :: post) al al' [r])
    as [Hl' Hf']; auto.
  - apply Hq.
  - intros g ->%list_elem_of_singleton. split; [set_solver | exact Hw].
  - intros x. rewrite !elem_of_middle, list_elem_of_singleton. split.
    + intros [[->|Hx] Hxw]; [discriminate Hxw |]. split; [auto |]. intros ->. contradiction.
    + tauto.
  - intros [k' y]. cbn. rewrite list_elem_of_singleton, Hk, elem_of_cons.
    destruct Hwf as (Hs & _). apply StronglySorted_inv in Hs as [_ Hs]. cbn in Hs.
    rewrite Forall_forall in Hs. unfold Alarm.key_lt in Hs. split.
    + intros He. split; [auto |]. intros ->. specialize (Hs _ He). cbn in Hs. lia.
    + intros [[[= -> ->]|He] Hne]; [congruence | exact He].
  - split; cbn; auto; try lia; rewrite ?E.
    + eapply Alarm.wf_tail, Hwf.
    + split_and!; cbn.
      * eapply queue_inv_replace; eauto.
      * rewrite holders_erase in *. unfold holds in *. rewrite Hw in Hh. exact Hh.
      * rewrite waiters_erase in *. unfold waits in *. cbn. eapply stuck_erase, Hst.
    + apply NoDup_singleton.
    + intros j ->%list_elem_of_singleton. right. exists r. set_solver.
    + intros x [->|Hx]%elem_of_middle Hxw; [discriminate Hxw |]. rewrite elem_of_middle.
      split; [|auto]. intros Ex%list_elem_of_singleton. apply Hnot. unfold ids. rewrite <- Ex.
      now apply list_elem_of_fmap_2.
    + intros x [->|Hx]%elem_of_middle Hxw; [discriminate Hxw |]. rewrite elem_of_middle. auto.
    + intros x [->|Hx]%elem_of_middle Hxw; [left; cbn; set_solver |]. rewrite elem_of_middle. auto.
Qed.

Lemma destroy_ok s al :
  lock_inv s ->
  destroy s al = Some (cancel (waiters (requests_ s)) al, List.map No (ids (waiters (requests_ s)))).
Proof.
  intros ((_ & _ & Hst) & _). unfold destroy. revert al.
  induction Hst as [|r l Hr Hst IH]; intros al; [reflexivity |].
  assert (Ew : waits r = bool_decide (req_status r = WAIT)) by reflexivity.
  unfold waiters in *. cbn [List.filter destroy_loop]. rewrite Ew.
  destruct Hr as [E|[E|E]]; rewrite E.
  - rewrite bool_decide_true by reflexivity. rewrite IH. reflexivity.
  - rewrite bool_decide_false by discriminate. apply IH.
  - rewrite bool_decide_false by discriminate. apply IH.
Qed.

End TimeoutALock.
