(* ===== verification/TimeoutWorld.v ===== *)
(** * Histories of the timeout locks and their alarm

    Invariants of the world of TimeoutALock.v over all histories of calls and
    alarm runs: no [verify] fails, no alarm follows a reference to a request
    that is gone, every request is answered at most once, and the theorems on
    the release of a lock and on the end of waiting. *)

From Stdlib Require Import ZArith Lia Sorting.Sorted.
From stdpp Require Import base list option gmap sets.
From S2P Require Import Prelude Alarm ALock TimeoutALock.
Local Open Scope Z_scope.

Module TimeoutWorld.
Import TimeoutALock.

(** All objects of a history exist from its start; [Destroy] removes them. *)
Definition initial (w : world) : Prop :=
  alarm_ w = Alarm.alarm_init /\ forall a s, locks w !! a = Some s -> exists tm, s = tlock_init tm.

(** [reach n w log]: the world [w] after [n] operations that called [log]. *)
Inductive reach : nat -> world -> list (Z * event) -> Prop :=
  | reach_init w : initial w -> reach 0 w []
  | reach_step n w log o w' evs :
      reach n w log -> step o w = Some (w', evs) -> reach (S n) w' (log ++ evs).

(** The operation is a call on a live lock, or a run of the alarm. *)
Definition live (o : op) (w : world) : Prop :=
  match o with
  | Lock a _ _ | Abort a _ | Destroy a => is_Some (locks w !! a)
  | Alarms _ => True
  end.

Definition answers (log : list (Z * event)) : list (Z * Z) := (fun e => (e.1, ev_id e.2)) <$> log.

Record winv (N : Z) (w : world) (log : list (Z * event)) : Prop := {
  wi_alarm : Alarm.wf (alarm_ w);
  wi_bound : Alarm.next_id_ (alarm_ w) <= N;
  wi_lock : forall a s, locks w !! a = Some s ->
    lock_inv s /\ linked a (requests_ s) (alarm_ w) /\ 1 <= next_id_ s <= N;
  wi_live : forall k t a i, (k, (t, (a, i))) ∈ Alarm.waiting_ (alarm_ w) -> is_Some (locks w !! a);
  wi_answers : NoDup (answers log);
  wi_answered : forall a i s, (a, i) ∈ answers log -> locks w !! a = Some s ->
    i < next_id_ s /\ forall r, r ∈ requests_ s -> id_ r = i -> req_status r <> WAIT;
  wi_yes : forall a s r, locks w !! a = Some s -> r ∈ requests_ s -> req_status r = LOCK ->
    (a, Yes (id_ r)) ∈ log;
  wi_no : forall a s r, locks w !! a = Some s -> r ∈ requests_ s -> req_status r = TIMEOUT ->
    (a, No (id_ r)) ∈ log }.

Lemma winv_init w : initial w -> winv 1 w [].
Proof.
  intros [Ea Hi].
  split; rewrite ?Ea; auto using Alarm.wf_init; try (cbn; lia).
  - intros a s Hs. destruct (Hi a s Hs) as [tm ->]. split_and!; cbn; try lia.
    + repeat split; constructor.
    + intros k i. cbn. split; [intros (t & He) | intros (r & Hr & _)]; set_solver.
  - cbn. set_solver.
  - constructor.
  - cbn. set_solver.
  - intros a s r Hs Hr. destruct (Hi a s Hs) as [tm ->]. cbn in Hr. set_solver.
  - intros a s r Hs Hr. destruct (Hi a s Hs) as [tm ->]. cbn in Hr. set_solver.
Qed.

Lemma winv_mono N N' w log : N <= N' -> winv N w log -> winv N' w log.
Proof.
  intros HN [H1 H2 H3 H4 H5 H6 H7 H8]. split; auto; [lia |]. intros a s Hs.
  destruct (H3 a s Hs) as (? & ? & ?). split_and!; auto; lia.
Qed.

Lemma answers_app l1 l2 : answers (l1 ++ l2) = answers l1 ++ answers l2.
Proof. apply fmap_app. Qed.

Lemma answers_at a evs : answers (at_lock a evs) = (fun i => (a, i)) <$> ev_ids evs.
Proof. unfold answers, at_lock, ev_ids. now rewrite <- !list_fmap_compose. Qed.

Lemma elem_of_at a b i evs : (b, i) ∈ answers (at_lock a evs) <-> b = a /\ i ∈ ev_ids evs.
Proof.
  rewrite answers_at, list_elem_of_fmap. split.
  - intros (j & [= -> ->] & Hj). auto.
  - intros [-> Hi]. eauto.
Qed.

Lemma elem_of_at_lock a b e evs : (b, e) ∈ at_lock a evs <-> b = a /\ e ∈ evs.
Proof.
  unfold at_lock. rewrite list_elem_of_fmap. split.
  - intros (j & [= -> ->] & Hj). auto.
  - intros [-> Hi]. eauto.
Qed.

(** The answers of one operation are new. *)
Lemma answers_fresh N w log a s al' s' evs :
  winv N w log -> locks w !! a = Some s -> lock_step a s (alarm_ w) s' al' evs ->
  NoDup (answers (log ++ at_lock a evs)).
Proof.
  intros Hw Hs Hst. rewrite answers_app, answers_at. apply list.NoDup_app. split_and!.
  - apply (wi_answers _ _ _ Hw).
  - intros [b i] Hb (j & [= -> ->] & Hj)%list_elem_of_fmap.
    destruct (wi_answered _ _ _ Hw a j s Hb Hs) as [Hlt Hno].
    destruct (ls_answers _ _ _ _ _ _ Hst j Hj) as [[-> _]|(r & Hr & Hi & Hrw)]; [lia |].
    now apply (Hno r).
  - apply NoDup_fmap_2; [intros x y [=]; auto | apply (ls_nodup _ _ _ _ _ _ Hst)].
Qed.

(** An operation on one lock keeps the invariant of the world. *)
Lemma winv_lock_step N w log a s s' al' evs :
  winv N w log -> locks w !! a = Some s -> lock_step a s (alarm_ w) s' al' evs ->
  next_id_ s' <= N -> Alarm.next_id_ al' <= N ->
  winv N {| locks := <[a := s']> (locks w); alarm_ := al' |} (log ++ at_lock a evs).
Proof.
  intros Hw Hs Hst HN HaN. pose proof Hst as [Hwf' Hinv' Hl' Hf' Hn' Ha' Hnd Hans Hwait Hhold Href].
  destruct (wi_lock _ _ _ Hw a s Hs) as (Hinv & Hl & Hb).
  split; cbn; auto.
  - intros b sb. destruct (decide (b = a)) as [->|Hne].
    + rewrite lookup_insert_eq. intros [= <-]. split_and!; auto; lia.
    + rewrite lookup_insert_ne by auto. intros Hsb.
      destruct (wi_lock _ _ _ Hw b sb Hsb) as (Hinvb & Hlb & Hbb). split_and!; try (auto; lia).
      intros k i. rewrite <- (Hlb k i). split; intros (t & He); exists t; now apply Hf'.
  - intros k t b i He. destruct (decide (b = a)) as [->|Hne].
    + rewrite lookup_insert_eq. eauto.
    + rewrite lookup_insert_ne by auto. apply (wi_live _ _ _ Hw k t b i). now apply Hf'.
  - eapply answers_fresh; eauto.
  - intros b i sb. rewrite answers_app, elem_of_app, elem_of_at. destruct (decide (b = a)) as [->|Hne].
    + rewrite lookup_insert_eq. intros Hi [= <-]. split.
      * destruct Hi as [Hi|[_ Hi]]; [destruct (wi_answered _ _ _ Hw a i s Hi Hs); lia |].
        destruct (Hans i Hi) as [[-> E]|(r & Hr & <- & _)]; [lia |].
        destruct Hinv as [(_ & Hr' & _) _]. rewrite Forall_forall in Hr'. specialize (Hr' r Hr). lia.
      * intros r Hr Hri Hrw. destruct (Hwait r Hr Hrw) as [Hnot Hold]. rewrite Hri in Hnot.
        destruct Hi as [Hi|[_ Hi]]; [|contradiction].
        destruct (wi_answered _ _ _ Hw a i s Hi Hs) as [Hlt Hno].
        destruct Hold as [Hold|Hold]; [now apply (Hno r) | lia].
    + rewrite lookup_insert_ne by auto. intros [Hi|[? _]]; [|congruence].
      apply (wi_answered _ _ _ Hw b i sb Hi).
  - intros b sb r. rewrite elem_of_app, elem_of_at_lock. destruct (decide (b = a)) as [->|Hne].
    + rewrite lookup_insert_eq. intros [= <-] Hr Hrw. destruct (Hhold r Hr Hrw) as [?|Hr']; [auto |].
      left. now apply (wi_yes _ _ _ Hw a s r).
    + rewrite lookup_insert_ne by auto. intros Hsb Hr Hrw. left. now apply (wi_yes _ _ _ Hw b sb r).
  - intros b sb r. rewrite elem_of_app, elem_of_at_lock. destruct (decide (b = a)) as [->|Hne].
    + rewrite lookup_insert_eq. intros [= <-] Hr Hrw. destruct (Href r Hr Hrw) as [?|Hr']; [auto |].
      left. now apply (wi_no _ _ _ Hw a s r).
    + rewrite lookup_insert_ne by auto. intros Hsb Hr Hrw. left. now apply (wi_no _ _ _ Hw b sb r).
Qed.

(** ** The operations keep the invariant *)

Lemma alarm_func_ok N next ls evs log k t f rest :
  winv N {| locks := ls; alarm_ := {| Alarm.next_id_ := next; Alarm.waiting_ := (k, (t, f)) :: rest |} |}
    (log ++ evs) ->
  runs (alarm_func f (ls, evs)) (fun x =>
    winv N {| locks := x.1; alarm_ := {| Alarm.next_id_ := next; Alarm.waiting_ := rest |} |}
      (log ++ x.2) /\ x.2 = evs ++ [(f.1, No f.2)]).
Proof.
  destruct f as [a i]. intros Hw.
  destruct (wi_live _ _ _ Hw k t a i) as [s Hs]; [cbn; set_solver |].
  destruct (wi_lock _ _ _ Hw a s Hs) as (Hinv & Hl & Hb).
  unfold alarm_func. cbn in *. rewrite Hs. cbn.
  destruct (do_timeout_ok a i s next k t rest (wi_alarm _ _ _ Hw) Hinv Hl)
    as ([s' evs'] & -> & Hst & En & ->). cbn. apply runs_ret. cbn. split; [|reflexivity].
  rewrite app_assoc. apply (winv_lock_step N _ (log ++ evs) a s s' _ [No i] Hw Hs Hst); [lia |].
  apply (wi_bound _ _ _ Hw).
Qed.

Lemma alarms_ok N w log now :
  winv N w log ->
  runs (Alarm.run alarm_func now (alarm_ w) (locks w, [])) (fun '(al', (ls, evs)) =>
    winv N {| locks := ls; alarm_ := al' |} (log ++ evs)
    /\ exists fired, Alarm.waiting_ (alarm_ w) = fired ++ Alarm.waiting_ al'
       /\ evs ++ ((fun e => (e.2.2.1, No e.2.2.2)) <$> Alarm.waiting_ al')
          = (fun e => (e.2.2.1, No e.2.2.2)) <$> Alarm.waiting_ (alarm_ w)
       /\ (forall j k t f, fired !! j = Some (k, (t, f)) -> t < now j)
       /\ match Alarm.waiting_ al' with
          | [] => True
          | (_, (t, _)) :: _ => now (length fired) <= t
          end).
Proof.
  intros Hw. destruct w as [ls al]. cbn in *.
  set (told := fun e : Z * (Z * ref) => (e.2.2.1, No e.2.2.2)).
  eapply runs_mono; [apply (Alarm.alarm_run_ok alarm_func
    (fun rest x => winv N {| locks := x.1; alarm_ := {| Alarm.next_id_ := Alarm.next_id_ al;
                                                        Alarm.waiting_ := rest |} |} (log ++ x.2)
                   /\ x.2 ++ (told <$> rest) = told <$> Alarm.waiting_ al)) |].
  - apply (wi_alarm _ _ _ Hw).
  - cbn. rewrite app_nil_r. destruct al. cbn in *. auto.
  - intros k t f rest tm [ls' evs] [HI He] _. cbn in *. eapply runs_mono; [eapply alarm_func_ok, HI |].
    intros [ls2 evs2] [H2 E2]. cbn in *. split; [exact H2 |]. rewrite E2, <- app_assoc. exact He.
  - intros [al' [ls' evs]] (fired & E & En & Hwf & [HI He] & Hf & Hh). cbn in *.
    rewrite <- En in HI. destruct al'. cbn in *. split; [exact HI |]. exists fired. auto.
Qed.

Lemma ev_ids_no ks : ev_ids (List.map No ks) = ks.
Proof. unfold ev_ids. induction ks as [|i ks IH]; cbn; [reflexivity |]. f_equal. exact IH. Qed.

Lemma destroy_answers_fresh N w log a s :
  winv N w log -> locks w !! a = Some s ->
  NoDup (answers (log ++ at_lock a (List.map No (ids (waiters (requests_ s)))))).
Proof.
  intros Hw Hs. rewrite answers_app, answers_at, ev_ids_no. apply list.NoDup_app. split_and!.
  - apply (wi_answers _ _ _ Hw).
  - intros [b i] Hb (j & [= -> ->] & Hj)%list_elem_of_fmap.
    apply list_elem_of_fmap in Hj as (r & -> & [Hr Hrw]%elem_of_waiters).
    now apply (proj2 (wi_answered _ _ _ Hw a _ s Hb Hs) r).
  - apply NoDup_fmap_2; [intros x y [=]; auto |].
    destruct (wi_lock _ _ _ Hw a s Hs) as (((Hnd & _) & _) & _).
    apply (sublist_NoDup _ (ids (requests_ s))); [exact Hnd |]. apply fmap_sublist.
    unfold waiters. clear. induction (requests_ s) as [|x l IH]; cbn; [constructor |].
    destruct (waits x); now constructor.
Qed.

Lemma winv_destroy N w log a s :
  winv N w log -> locks w !! a = Some s ->
  winv N {| locks := delete a (locks w); alarm_ := cancel (waiters (requests_ s)) (alarm_ w) |}
    (log ++ at_lock a (List.map No (ids (waiters (requests_ s))))).
Proof.
  intros Hw Hs. destruct (wi_lock _ _ _ Hw a s Hs) as (Hinv & Hl & Hb).
  set (G := waiters (requests_ s)).
  destruct (cancel_spec G _ (wi_alarm _ _ _ Hw)) as (Hwf' & Hn' & Hal').
  destruct (linked_cancel a (requests_ s) [] (alarm_ w) (cancel G (alarm_ w)) G) as [Hl' Hf'].
  - apply (wi_alarm _ _ _ Hw).
  - exact Hl.
  - apply Hinv.
  - intros g. apply elem_of_waiters.
  - intros r. unfold G. rewrite elem_of_waiters. split; [intros [Hr _]; set_solver | tauto].
  - exact Hal'.
  - assert (Hlook : forall b sb, delete a (locks w) !! b = Some sb -> b <> a /\ locks w !! b = Some sb)
      by (intros b sb [? ?]%lookup_delete_Some; auto).
    split; cbn; auto.
    + rewrite Hn'. apply (wi_bound _ _ _ Hw).
    + intros b sb [Hne Hsb]%Hlook. destruct (wi_lock _ _ _ Hw b sb Hsb) as (? & Hlb & ?).
      split_and!; auto; try lia. intros k i. rewrite <- (Hlb k i).
      split; intros (t & He); exists t; now apply Hf'.
    + intros k t b i He. destruct (decide (b = a)) as [->|Hne].
      * destruct (proj1 (Hl' k i)) as (r & Hr & _); [eauto | set_solver].
      * rewrite lookup_delete_ne by auto. apply (wi_live _ _ _ Hw k t b i). now apply Hf'.
    + now apply (destroy_answers_fresh N w).
    + intros b i sb Hi [Hne Hsb]%Hlook. rewrite answers_app, elem_of_app, elem_of_at in Hi.
      destruct Hi as [Hi|[? _]]; [|congruence]. exact (wi_answered _ _ _ Hw b i sb Hi Hsb).
    + intros b sb r [Hne Hsb]%Hlook Hr Hrw. apply elem_of_app. left. exact (wi_yes _ _ _ Hw b sb r Hsb Hr Hrw).
    + intros b sb r [Hne Hsb]%Hlook Hr Hrw. apply elem_of_app. left. exact (wi_no _ _ _ Hw b sb r Hsb Hr Hrw).
Qed.

Lemma world_step_ok N w log o :
  winv N w log -> N + 1 < 2 ^ 63 -> live o w ->
  runs (step o w) (fun '(w', evs) => winv (N + 1) w' (log ++ evs)).
Proof.
  intros Hw HN Hlive. pose proof (wi_bound _ _ _ Hw) as HaN.
  assert (Hw1 : winv (N + 1) w log) by (apply (winv_mono N); [lia | exact Hw]).
  destruct o as [a ty tm|a i|now|a]; cbn in *;
    [| | clear Hlive |]; try (apply is_Some_alt in Hlive; destruct (locks w !! a) as [s|] eqn:Hs;
    [cbn; clear Hlive | contradiction]; destruct (wi_lock _ _ _ Hw a s Hs) as (Hinv & Hl & Hb)).
  - pose proof (timeout_vlock_ok a tm ty s (alarm_ w) (wi_alarm _ _ _ Hw) Hinv Hl) as Hv.
    destruct (vlock a tm ty s (alarm_ w)) as [[[s' al'] i] evs]. destruct Hv as [Hst _]; try lia.
    apply runs_ret. pose proof (ls_next _ _ _ _ _ _ Hst). pose proof (ls_alarm_next _ _ _ _ _ _ Hst).
    apply (winv_lock_step _ w log a s); auto; lia.
  - eapply runs_bind; [apply (timeout_abort_ok a s (alarm_ w) i (wi_alarm _ _ _ Hw) Hinv Hl); lia |].
    intros [[s' al'] evs] [Hst En]. apply runs_ret. pose proof (ls_alarm_next _ _ _ _ _ _ Hst).
    apply (winv_lock_step _ w log a s); auto; lia.
  - eapply runs_bind; [apply (alarms_ok N w log now Hw) |].
    intros [al' [ls evs]] [HI _]. apply runs_ret. apply (winv_mono N); [lia | exact HI].
  - rewrite (destroy_ok s (alarm_ w) Hinv). cbn. apply runs_ret. now apply winv_destroy.
Qed.

Lemma step_live o w w' evs : step o w = Some (w', evs) -> live o w.
Proof.
  destruct o as [a ty tm|a i|now|a]; cbn; auto; destruct (locks w !! a); cbn; eauto; discriminate.
Qed.

Lemma reach_winv n w log :
  reach n w log -> Z.of_nat n < 2 ^ 63 - 2 -> winv (1 + Z.of_nat n) w log.
Proof.
  induction 1 as [w Hi|n w log o w' evs Hr IH Hs]; intros Hn; [now apply winv_init |].
  destruct (world_step_ok _ _ _ o (IH ltac:(lia)) ltac:(lia) (step_live _ _ _ _ Hs)) as ([w2 evs2] & E & Hw).
  rewrite Hs in E. injection E as <- <-. now replace (1 + Z.of_nat (S n)) with (1 + Z.of_nat n + 1) by lia.
Qed.


(** ** Theorems *)

Lemma held_exclusive st n L r1 r2 :
  held_by st n L -> r1 ∈ L -> r2 ∈ L -> r1 = r2 \/ (reader r1 = true /\ reader r2 = true).
Proof.
  intros Hh H1 H2. destruct st; cbn in Hh.
  - destruct Hh as [-> _]. set_solver.
  - destruct Hh as (_ & r & -> & _). set_solver.
  - destruct Hh as (_ & Hr & _). rewrite Forall_forall in Hr. auto.
Qed.

Lemma stuck_conflict s r :
  lock_inv s -> r ∈ waiters (requests_ s) ->
  exists h, h ∈ holders (requests_ s) /\ ~ (reader r = true /\ reader h = true).
Proof.
  intros (_ & Hh & Hst) Hr. destruct (status_ s); cbn in Hh, Hst.
  - rewrite Hst in Hr. set_solver.
  - destruct Hh as (_ & h & -> & Eh). exists h. split; [set_solver |]. rewrite Eh. now intros [_ [=]].
  - destruct Hh as (Hne & _). destruct (holders (requests_ s)) as [|h L]; [congruence |].
    exists h. split; [set_solver |]. rewrite Forall_forall in Hst. rewrite (Hst r Hr). now intros [[=] _].
Qed.

(** C36. After any history of fewer than 2^63 - 2 operations on live locks and
    alarm runs, every further operation returns (no [verify] fails and no alarm
    follows a reference to a request or lock that is gone); two requests hold a
    lock together only if both read; a request waits only while a request it
    conflicts with holds the lock; the alarms pending are exactly those of the
    waiting requests. *)
Theorem timeout_history_safe n w log :
  reach n w log -> Z.of_nat n < 2 ^ 63 - 2 ->
  (forall o, live o w -> exists w' evs, step o w = Some (w', evs))
  /\ (forall a s, locks w !! a = Some s ->
       (forall r1 r2, r1 ∈ holders (requests_ s) -> r2 ∈ holders (requests_ s) ->
          r1 = r2 \/ (reader r1 = true /\ reader r2 = true))
       /\ (forall r, r ∈ waiters (requests_ s) ->
             exists h, h ∈ holders (requests_ s) /\ ~ (reader r = true /\ reader h = true))
       /\ (forall r, r ∈ waiters (requests_ s) ->
             exists t, (alarm_id_ r, (t, (a, id_ r))) ∈ Alarm.waiting_ (alarm_ w)))
  /\ (forall k t a i, (k, (t, (a, i))) ∈ Alarm.waiting_ (alarm_ w) ->
       exists s r, locks w !! a = Some s /\ r ∈ waiters (requests_ s) /\ id_ r = i /\ alarm_id_ r = k).
Proof.
  intros Hr Hn. pose proof (reach_winv n w log Hr Hn) as Hw. split_and!.
  - intros o Ho. destruct (world_step_ok _ _ _ o Hw ltac:(lia) Ho) as ([w' evs] & E & _). eauto.
  - intros a s Hs. destruct (wi_lock _ _ _ Hw a s Hs) as (Hinv & Hl & _). split_and!.
    + intros r1 r2. apply (held_exclusive (status_ s) (n_rlock_ s)). apply Hinv.
    + intros r. now apply stuck_conflict.
    + intros r [Hr' Hrw]%elem_of_waiters. apply Hl. eauto.
  - intros k t a i He. destruct (wi_live _ _ _ Hw k t a i He) as [s Hs].
    destruct (wi_lock _ _ _ Hw a s Hs) as (_ & Hl & _).
    destruct (proj1 (Hl k i)) as (r & Hr' & Hi & Hrw & Hk); [eauto |].
    exists s, r. rewrite elem_of_waiters. auto.
Qed.

(** In every history each request is answered at most once, by its yes or by
    its no callback; a request that waits has not been answered, one that holds
    the lock was told yes and one that timed out was told no. *)
Theorem answered_at_most_once n w log :
  reach n w log -> Z.of_nat n < 2 ^ 63 - 2 ->
  NoDup (answers log)
  /\ forall a s r, locks w !! a = Some s -> r ∈ requests_ s ->
       match req_status r with
       | WAIT => (a, id_ r) ∉ answers log
       | LOCK => (a, Yes (id_ r)) ∈ log
       | TIMEOUT => (a, No (id_ r)) ∈ log
       | UNLOCK | ABORT => False
       end.
Proof.
  intros Hr Hn. pose proof (reach_winv n w log Hr Hn) as Hw. split; [apply (wi_answers _ _ _ Hw) |].
  intros a s r Hs Hin. destruct (req_status r) eqn:Er.
  - intros Ha. now apply (proj2 (wi_answered _ _ _ Hw a _ s Ha Hs) r).
  - now apply (wi_yes _ _ _ Hw a s).
  - destruct (wi_lock _ _ _ Hw a s Hs) as (((_ & _ & Hst) & _) & _). rewrite Forall_forall in Hst.
    destruct (Hst r Hin) as [?|[?|?]]; congruence.
  - destruct (wi_lock _ _ _ Hw a s Hs) as (((_ & _ & Hst) & _) & _). rewrite Forall_forall in Hst.
    destruct (Hst r Hin) as [?|[?|?]]; congruence.
  - now apply (wi_no _ _ _ Hw a s).
Qed.

(** Releasing a held lock: if other holders remain nothing else changes; if
    the released request was the last holder, the lock goes to the first waiting
    request and, when that one reads, to all other waiting readers with it; they
    are told yes in queue order and the rest of the queue keeps its order. *)
Theorem release_hands_over n w log a s i pre it post :
  reach n w log -> Z.of_nat n < 2 ^ 63 - 2 -> locks w !! a = Some s ->
  find_request i (requests_ s) = Some (pre, it, post) -> req_status it = LOCK ->
  exists s' al' evs, abort s (alarm_ w) i = Some (s', al', evs)
    /\ after_release s pre post s' evs
    /\ lock_inv s' /\ linked a (requests_ s') al'.
Proof.
  intros Hr Hn Hs Hf Hit. pose proof (reach_winv n w log Hr Hn) as Hw.
  destruct (wi_lock _ _ _ Hw a s Hs) as (Hinv & Hl & Hb).
  destruct (abort_hold_ok a s (alarm_ w) i pre it post (wi_alarm _ _ _ Hw) Hinv Hl) as
    ([[s' al'] evs] & E & Hst & _ & Ha); auto; [lia |].
  exists s', al', evs. split_and!; auto; apply Hst.
Qed.

(** Waiting ends: when the clock has passed every deadline, one run of the
    alarm tells every waiting request of every lock no, in the order in which
    they began to wait, and leaves no request waiting and no alarm pending. *)
Theorem waiting_ends n w log now :
  reach n w log -> Z.of_nat n < 2 ^ 63 - 2 ->
  (forall k t f j, (k, (t, f)) ∈ Alarm.waiting_ (alarm_ w) -> t < now j) ->
  exists w' evs, step (Alarms now) w = Some (w', evs)
    /\ evs = ((fun e => (e.2.2.1, No e.2.2.2)) <$> Alarm.waiting_ (alarm_ w))
    /\ Alarm.waiting_ (alarm_ w') = []
    /\ forall a s, locks w' !! a = Some s -> waiters (requests_ s) = [].
Proof.
  intros Hr Hn Hpast. pose proof (reach_winv n w log Hr Hn) as Hw. unfold step.
  destruct (alarms_ok _ w log now Hw) as ([al' [ls evs]] & -> & HI & fired & E & He & Hf & Hh).
  cbn [mbind option_bind].
  assert (Hnil : Alarm.waiting_ al' = []).
  { destruct (Alarm.waiting_ al') as [|[k [t f]] rest]; [reflexivity |].
    specialize (Hpast k t f (length fired)). rewrite E in Hpast. specialize (Hpast ltac:(set_solver)). lia. }
  rewrite Hnil in *. cbn in He. rewrite app_nil_r in He.
  exists {| locks := ls; alarm_ := al' |}, evs. cbn. split_and!; auto. intros a s Hs.
  destruct (wi_lock _ _ _ HI a s Hs) as (_ & Hl & _). cbn in Hl.
  destruct (waiters (requests_ s)) as [|r W] eqn:EW; [reflexivity |].
  assert (Hr' : r ∈ waiters (requests_ s)) by (rewrite EW; set_solver).
  apply elem_of_waiters in Hr' as [Hr' Hrw]. destruct (proj2 (Hl (alarm_id_ r) (id_ r))) as (t & Ht).
  - eauto.
  - rewrite Hnil in Ht. set_solver.
Qed.


(** ** A concrete history: a writer holds lock 7 and two readers wait *)

Fixpoint run_ops (os : list op) (w : world) : option (world * list (Z * event)) :=
  match os with
  | [] => Some (w, [])
  | o :: os =>
      '(w, evs) ← step o w;
      '(w, evs') ← run_ops os w; Some (w, evs ++ evs')
  end.

Lemma reach_run os n w log w' evs :
  reach n w log -> run_ops os w = Some (w', evs) -> reach (length os + n) w' (log ++ evs).
Proof.
  revert n w log evs. induction os as [|o os IH]; intros n w log evs Hr E; cbn in E.
  - injection E as <- <-. now rewrite app_nil_r.
  - destruct (step o w) as [[w1 e1]|] eqn:E1; [|discriminate E]. cbn in E.
    destruct (run_ops os w1) as [[w2 e2]|] eqn:E2; [|discriminate E]. cbn in E.
    injection E as <- <-. rewrite app_assoc. cbn. rewrite <- Nat.add_succ_r.
    eapply IH; [|exact E2]. econstructor; eauto.
Qed.

Definition start : world :=
  {| locks := {[7 := tlock_init 10; 8 := tlock_init 0]}; alarm_ := Alarm.alarm_init |}.
Definition history : list op :=
  [Lock 7 WLOCK 100; Lock 7 RLOCK 101; Lock 8 WLOCK 101; Lock 7 RLOCK 102].
Definition later : world * list (Z * event) :=
  Eval vm_compute in match run_ops history start with Some x => x | None => (start, []) end.

Lemma start_initial : initial start.
Proof.
  split; [reflexivity |]. intros a s. cbn. intros [[<- <-]|[_ [<- <-]%lookup_singleton_Some]]%lookup_insert_Some; eauto.
Qed.

Lemma later_reach : reach 4 later.1 later.2.
Proof. apply (reach_run history 0 start [] later.1 later.2); [now apply reach_init, start_initial | vm_compute; reflexivity]. Qed.

Definition lock7 : tlock := {| next_id_ := 4; status_ := WLOCKED; n_rlock_ := 0; tm_wait_ := 10;
  requests_ := [{| id_ := 1; alarm_id_ := 0; type_ := WLOCK; req_status := LOCK |};
                {| id_ := 2; alarm_id_ := 1; type_ := RLOCK; req_status := WAIT |};
                {| id_ := 3; alarm_id_ := 2; type_ := RLOCK; req_status := WAIT |}] |}.

Lemma timeout_history_safe_witness : exists w' evs, step (Abort 7 1) later.1 = Some (w', evs).
Proof.
  apply (timeout_history_safe 4 later.1 later.2 later_reach ltac:(lia)).
  exists lock7. vm_compute. reflexivity.
Defined.

Lemma answered_at_most_once_witness : NoDup (answers [(7, Yes 1); (8, Yes 1)]).
Proof. apply (answered_at_most_once 4 later.1 later.2 later_reach ltac:(lia)). Defined.

Lemma release_hands_over_witness :
  exists s' al' evs, abort lock7 (alarm_ later.1) 1 = Some (s', al', evs)
    /\ after_release lock7 [] (tail (requests_ lock7)) s' evs
    /\ lock_inv s' /\ linked 7 (requests_ s') al'.
Proof.
  apply (release_hands_over 4 later.1 later.2 7 lock7 1 []
           {| id_ := 1; alarm_id_ := 0; type_ := WLOCK; req_status := LOCK |} (tail (requests_ lock7))
           later_reach); [lia | vm_compute; reflexivity | reflexivity | reflexivity].
Defined.

Lemma waiting_ends_witness :
  exists w' evs, step (Alarms (fun _ => 200)) later.1 = Some (w', evs)
    /\ evs = [(7, No 2); (7, No 3)]
    /\ Alarm.waiting_ (alarm_ w') = []
    /\ forall a s, locks w' !! a = Some s -> waiters (requests_ s) = [].
Proof.
  apply (waiting_ends 4 later.1 later.2 (fun _ => 200) later_reach); [lia |].
  intros k t f j He. cbn in He. rewrite !elem_of_cons in He.
  destruct He as [[= -> -> ->]|[[= -> -> ->]|He]]; [lia | lia | set_solver].
Defined.

End TimeoutWorld.
