(* ===== verification/LockGroup.v ===== *)
(** * Lock groups

    [rrr::DragonBall] (rrr/misc/dball.hpp) and [rrr::ALockGroup]
    (rrr/misc/alock.hpp, rrr/misc/alock.cpp): a group requests several queued
    locks and reports once whether it got all of them.  The locks are addresses;
    the callbacks a group registers with them are operations of the group, and
    [lock_all] takes as a parameter the callbacks that each [lock] call runs
    before it returns.  The client's callbacks do not call the group back. *)

From Stdlib Require Import ZArith Lia Sorting.Sorted.
From stdpp Require Import base list option sets.
From S2P Require Import Prelude ALock.
Local Open Scope Z_scope.

Module DragonBall.

Record dragon_ball := { n_wait_ : Z; n_ready_ : Z; called_ : bool }.

(** The constructor takes a 32-bit count. *)
Definition new (n_wait : Z) : dragon_ball :=
  {| n_wait_ := swrap 32 n_wait; n_ready_ := 0; called_ := false |}.

Definition set_wait (n : Z) (d : dragon_ball) : dragon_ball :=
  {| n_wait_ := n; n_ready_ := n_ready_ d; called_ := called_ d |}.

(** [trigger]: the counter is advanced; [true] when the wish is due, after which
    the object deletes itself. *)
Definition trigger (d : dragon_ball) : option (bool * dragon_ball) :=
  let n := swrap 64 (n_ready_ d + 1) in
  _ ← verify (n <=? n_wait_ d);
  let ready := n =? n_wait_ d in
  if ready then
    _ ← verify (negb (called_ d));
    Some (true, {| n_wait_ := n_wait_ d; n_ready_ := n; called_ := true |})
  else Some (false, {| n_wait_ := n_wait_ d; n_ready_ := n; called_ := called_ d |}).

(** A ball that waits for [n] and has seen [k] of them. *)
Definition ball (n k : Z) : dragon_ball := {| n_wait_ := n; n_ready_ := k; called_ := false |}.

Lemma trigger_ball n k :
  0 <= k < n -> n < 2 ^ 63 ->
  trigger (ball n k) = Some (k + 1 =? n, {| n_wait_ := n; n_ready_ := k + 1; called_ := k + 1 =? n |}).
Proof.
  intros Hk Hn. unfold trigger. cbn [n_wait_ n_ready_ called_ ball]. rewrite swrap_small by lia.
  destruct (Z.leb_spec (k + 1) n); [|lia]. cbn. destruct (Z.eqb_spec (k + 1) n); reflexivity.
Qed.
End DragonBall.

Module LockGroup.
Import DragonBall.

Inductive group_status := INIT | WAIT | LOCK | TIMEOUT | UNLOCK.
#[export] Instance group_status_eq : EqDecision group_status.
Proof. solve_decision. Defined.

(** What a group calls: its client's callbacks, [lock] and [abort] of a lock. *)
Inductive group_event :=
  | YesCallback | NoCallback
  | RequestLock (alock : Z) (ty : type_t)
  | AbortLock (alock id : Z).

(** [db_] is [None] before the first [lock_all] and after the ball deleted
    itself: using it then fails. *)
Record group := {
  status_ : group_status;
  locked_ : list (Z * Z);
  tolock_ : list (Z * type_t);
  db_ : option dragon_ball }.

Definition group_init : group := {| status_ := INIT; locked_ := []; tolock_ := []; db_ := None |}.

Definition set_status (s : group_status) (g : group) : group :=
  {| status_ := s; locked_ := locked_ g; tolock_ := tolock_ g; db_ := db_ g |}.
Definition set_locked (l : list (Z * Z)) (g : group) : group :=
  {| status_ := status_ g; locked_ := l; tolock_ := tolock_ g; db_ := db_ g |}.
Definition set_tolock (l : list (Z * type_t)) (g : group) : group :=
  {| status_ := status_ g; locked_ := locked_ g; tolock_ := l; db_ := db_ g |}.
Definition set_db (d : option dragon_ball) (g : group) : group :=
  {| status_ := status_ g; locked_ := locked_ g; tolock_ := tolock_ g; db_ := d |}.

Definition cas_status (c s : group_status) (g : group) : option group :=
  if bool_decide (status_ g = c) then Some (set_status s g) else None.

Definition add (alock : Z) (ty : type_t) (g : group) : option group :=
  if bool_decide (status_ g = INIT) || bool_decide (status_ g = LOCK)
  then Some (set_tolock (map_put alock ty (tolock_ g)) g)
  else None.

Definition abort_all_locked (g : group) : list group_event :=
  (fun p => AbortLock p.1 p.2) <$> List.filter (fun p => negb (p.2 =? 0)) (locked_ g).

Definition abort_all (g : group) : option (group * list group_event) :=
  g ← cas_status LOCK UNLOCK g; Some (g, abort_all_locked g).

Definition unlock_all (g : group) : option (group * list group_event) :=
  g ← cas_status LOCK UNLOCK g; Some (g, abort_all_locked g).

(** The wish of the ball. *)
Definition wish (g : group) : option (group * list group_event) :=
  match cas_status WAIT LOCK g with
  | Some g => Some (g, [YesCallback])
  | None =>
      _ ← verify (bool_decide (status_ g = TIMEOUT));
      Some (g, NoCallback :: abort_all_locked g)
  end.

(** [db_->trigger()] *)
Definition trigger_db (g : group) : option (group * list group_event) :=
  d ← db_ g;
  '(ready, d) ← trigger d;
  if (ready : bool) then '(g, evs) ← wish (set_db (Some d) g); Some (set_db None g, evs)
  else Some (set_db (Some d) g, []).

(** The callbacks that [lock_all] registers with the lock [alock]: [y_cb] with
    the identifier of the request, [n_cb], and the wound callback with the
    answer of the client's [wound_callback_]. *)
Inductive reply := Granted (alock id : Z) | Refused (alock : Z) | Wounded (alock ret : Z).

Definition y_cb (alock id : Z) (g : group) : option (group * list group_event) :=
  trigger_db (set_locked (map_put alock id (locked_ g)) g).

Definition n_cb (g : group) : option (group * list group_event) :=
  trigger_db (set_status TIMEOUT g).

Definition wound_cb (alock ret : Z) (g : group) : group :=
  if ret =? 0 then set_locked (map_erase alock (locked_ g)) g else g.

Definition deliver (r : reply) (g : group) : option (group * list group_event) :=
  match r with
  | Granted alock id => y_cb alock id g
  | Refused _ => n_cb g
  | Wounded alock ret => Some (wound_cb alock ret g, [])
  end.

Fixpoint deliver_all (rs : list reply) (g : group) : option (group * list group_event) :=
  match rs with
  | [] => Some (g, [])
  | r :: rs =>
      '(g, evs) ← deliver r g; '(g, evs') ← deliver_all rs g; Some (g, evs ++ evs')
  end.

(** The loop over the locks; [replies a] are the callbacks that run during
    [a->lock(...)]. *)
Fixpoint request_all (replies : Z -> list reply) (tmp : list (Z * type_t)) (g : group) :
    option (group * list group_event) :=
  match tmp with
  | [] => Some (g, [])
  | (alock, ty) :: tmp =>
      '(g, evs) ← deliver_all (replies alock) g;
      '(g, evs') ← request_all replies tmp g;
      Some (g, RequestLock alock ty :: evs ++ evs')
  end.

Definition lock_all (replies : Z -> list reply) (g : group) : option (group * list group_event) :=
  g ← match cas_status INIT WAIT g with Some g => Some g | None => cas_status LOCK WAIT g end;
  let g := set_db (Some (new (Z.of_nat (length (tolock_ g))))) g in
  request_all replies (tolock_ g) (set_tolock [] g).

(** ** Counting the answers *)

Definition is_answer (r : reply) : bool := match r with Wounded _ _ => false | _ => true end.
Definition is_granted (r : reply) : bool := match r with Refused _ => false | _ => true end.
Definition n_answers (rs : list reply) : Z := Z.of_nat (length (List.filter is_answer rs)).

(** The locks held after the replies. *)
Definition hold (l : list (Z * Z)) (r : reply) : list (Z * Z) :=
  match r with
  | Granted alock id => map_put alock id l
  | Refused _ => l
  | Wounded alock ret => if ret =? 0 then map_erase alock l else l
  end.
Definition hold_all (rs : list reply) (l : list (Z * Z)) : list (Z * Z) := fold_left hold rs l.

(** A group that waits for [n] answers and has got [k]; [ok] says that none of
    them was a refusal. *)
Definition waiting_group (n k : Z) (ok : bool) (l : list (Z * Z)) (todo : list (Z * type_t)) : group :=
  {| status_ := if ok then WAIT else TIMEOUT; locked_ := l; tolock_ := todo; db_ := Some (ball n k) |}.

(** The group after its last answer, and what it reports. *)
Definition settled (ok : bool) (l : list (Z * Z)) (todo : list (Z * type_t)) : group :=
  {| status_ := if ok then LOCK else TIMEOUT; locked_ := l; tolock_ := todo; db_ := None |}.
Definition report (ok : bool) (l : list (Z * Z)) : list group_event :=
  if ok then [YesCallback]
  else NoCallback :: ((fun p => AbortLock p.1 p.2) <$> List.filter (fun p => negb (p.2 =? 0)) l).

Lemma deliver_answer n k ok l todo r :
  is_answer r = true -> 0 <= k < n -> n < 2 ^ 63 ->
  let ok' := ok && is_granted r in
  deliver r (waiting_group n k ok l todo) =
  Some (if k + 1 =? n then (settled ok' (hold l r) todo, report ok' (hold l r))
        else (waiting_group n (k + 1) ok' (hold l r) todo, [])).
Proof.
  intros Hr Hk Hn ok'. subst ok'.
  destruct r as [a i|a|a i]; [| |discriminate Hr]; cbn [deliver y_cb n_cb is_granted hold].
  - unfold y_cb, trigger_db. cbn [db_ set_locked set_db waiting_group mbind option_bind].
    rewrite trigger_ball by lia. cbn [mbind option_bind]. rewrite andb_true_r.
    destruct (Z.eqb_spec (k + 1) n); [|destruct ok; reflexivity]. destruct ok; reflexivity.
  - unfold n_cb, trigger_db. cbn [db_ set_status set_db waiting_group mbind option_bind].
    rewrite trigger_ball by lia. cbn [mbind option_bind]. rewrite andb_false_r.
    destruct (Z.eqb_spec (k + 1) n); reflexivity.
Qed.

Lemma deliver_wound n k ok l todo a ret :
  deliver (Wounded a ret) (waiting_group n k ok l todo)
  = Some (waiting_group n k ok (hold l (Wounded a ret)) todo, []).
Proof. cbn. unfold wound_cb. destruct (ret =? 0); reflexivity. Qed.

Lemma n_answers_cons r rs : n_answers (r :: rs) = (if is_answer r then 1 else 0) + n_answers rs.
Proof. unfold n_answers. cbn. destruct (is_answer r); cbn [length]; lia. Qed.
Lemma n_answers_pos rs : 0 <= n_answers rs.
Proof. unfold n_answers. lia. Qed.

(** While answers are missing the group reports nothing. *)
Lemma deliver_all_waiting n rs : forall k ok l todo,
  0 <= k -> k + n_answers rs < n -> n < 2 ^ 63 ->
  deliver_all rs (waiting_group n k ok l todo)
  = Some (waiting_group n (k + n_answers rs) (ok && forallb is_granted rs) (hold_all rs l) todo, []).
Proof.
  induction rs as [|r rs IH]; intros k ok l todo Hk Hn Hb.
  - cbn. unfold n_answers. cbn. now rewrite Z.add_0_r, andb_true_r.
  - rewrite n_answers_cons in *. pose proof (n_answers_pos rs). cbn [deliver_all forallb].
    destruct (is_answer r) eqn:Er.
    + rewrite deliver_answer by (auto; lia). destruct (Z.eqb_spec (k + 1) n); [lia |].
      cbn [mbind option_bind]. rewrite IH by lia. cbn [mbind option_bind app].
      now rewrite <- andb_assoc, Z.add_assoc.
    + destruct r as [| |a ret]; try discriminate Er. rewrite deliver_wound.
      cbn [mbind option_bind is_granted andb]. rewrite IH by lia. reflexivity.
Qed.

Lemma deliver_all_app rs1 rs2 g :
  deliver_all (rs1 ++ rs2) g =
  ('(g, evs) ← deliver_all rs1 g; '(g, evs') ← deliver_all rs2 g; Some (g, evs ++ evs')).
Proof.
  revert g. induction rs1 as [|r rs1 IH]; intros g; cbn.
  - destruct (deliver_all rs2 g) as [[g' evs]|]; reflexivity.
  - destruct (deliver r g) as [[g1 e1]|]; [|reflexivity]. cbn. rewrite IH.
    destruct (deliver_all rs1 g1) as [[g2 e2]|]; [|reflexivity]. cbn.
    destruct (deliver_all rs2 g2) as [[g3 e3]|]; [|reflexivity]. cbn. now rewrite app_assoc.
Qed.

Lemma n_answers_app rs1 rs2 : n_answers (rs1 ++ rs2) = n_answers rs1 + n_answers rs2.
Proof. unfold n_answers. rewrite List.filter_app, length_app. lia. Qed.

(** With the last answer it reports once. *)
Lemma deliver_all_settled n rs last ok l todo :
  n_answers (rs ++ [last]) = n -> is_answer last = true -> n < 2 ^ 63 ->
  deliver_all (rs ++ [last]) (waiting_group n 0 ok l todo) =
  Some (settled (ok && forallb is_granted (rs ++ [last])) (hold_all (rs ++ [last]) l) todo,
        report (ok && forallb is_granted (rs ++ [last])) (hold_all (rs ++ [last]) l)).
Proof.
  intros Hn Hl Hb. rewrite n_answers_app, n_answers_cons, Hl in Hn. unfold n_answers at 2 in Hn. cbn in Hn.
  pose proof (n_answers_pos rs). rewrite deliver_all_app, deliver_all_waiting by lia. cbn [mbind option_bind].
  cbn [deliver_all]. rewrite deliver_answer by (auto; lia).
  destruct (Z.eqb_spec (0 + n_answers rs + 1) n); [|lia]. cbn [mbind option_bind app].
  rewrite app_nil_r, forallb_app. cbn [forallb]. rewrite andb_true_r, andb_assoc.
  unfold hold_all. rewrite fold_left_app. reflexivity.
Qed.


(** ** [lock_all] *)

Definition is_report (e : group_event) : bool := match e with RequestLock _ _ => false | _ => true end.
Definition reports (evs : list group_event) : list group_event := List.filter is_report evs.
Fixpoint requested (evs : list group_event) : list (Z * type_t) :=
  match evs with
  | [] => []
  | RequestLock a ty :: evs => (a, ty) :: requested evs
  | _ :: evs => requested evs
  end.

Lemma reports_app e1 e2 : reports (e1 ++ e2) = reports e1 ++ reports e2.
Proof. apply List.filter_app. Qed.
Lemma requested_app e1 e2 : requested (e1 ++ e2) = requested e1 ++ requested e2.
Proof. induction e1 as [|[] e1 IH]; cbn; now rewrite ?IH. Qed.

Definition only_reports (evs : list group_event) : Prop := reports evs = evs /\ requested evs = [].

Lemma abort_all_only g : only_reports (abort_all_locked g).
Proof.
  unfold only_reports, abort_all_locked. induction (List.filter _ (locked_ g)) as [|p l IH]; [split; reflexivity |].
  destruct IH as [E1 E2]. split; cbn; [f_equal; exact E1 | exact E2].
Qed.

Lemma trigger_db_only g g' evs : trigger_db g = Some (g', evs) -> only_reports evs.
Proof.
  unfold trigger_db. destruct (db_ g) as [d|]; [|intros [=]]. cbn.
  destruct (trigger d) as [[[] d']|]; cbn; [| intros [= <- <-]; split; reflexivity | intros [=]].
  unfold wish, cas_status. case_bool_decide; cbn; [intros [= <- <-]; split; reflexivity |].
  case_bool_decide; cbn; [|intros [=]]. intros [= <- <-].
  destruct (abort_all_only (set_db (Some d') g)) as [E1 E2].
  split; cbn; [f_equal; exact E1 | exact E2].
Qed.

Lemma deliver_all_only rs g g' evs : deliver_all rs g = Some (g', evs) -> only_reports evs.
Proof.
  revert g evs. induction rs as [|r rs IH]; intros g evs; cbn; [intros [= <- <-]; split; reflexivity |].
  destruct (deliver r g) as [[g1 e1]|] eqn:E1; [|intros [=]]. cbn.
  destruct (deliver_all rs g1) as [[g2 e2]|] eqn:E2; [|intros [=]]. cbn. intros [= <- <-].
  destruct (IH _ _ E2) as [H1 H2]. assert (Ho : only_reports e1).
  { destruct r; [eapply trigger_db_only, E1 | eapply trigger_db_only, E1 |].
    cbn in E1. injection E1 as <- <-. split; reflexivity. }
  destruct Ho as [H3 H4]. unfold only_reports. now rewrite reports_app, requested_app, H1, H2, H3, H4.
Qed.

(** The callbacks that run during the loop, in order. *)
Definition sync (replies : Z -> list reply) (tmp : list (Z * type_t)) : list reply :=
  flat_map replies tmp.*1.

Lemma request_all_deliver replies tmp g g' evs :
  deliver_all (sync replies tmp) g = Some (g', evs) ->
  exists evs', request_all replies tmp g = Some (g', evs') /\ reports evs' = evs /\ requested evs' = tmp.
Proof.
  revert g evs. induction tmp as [|[a ty] tmp IH]; intros g evs.
  - intros [= <- <-]. exists []. auto.
  - unfold sync. cbn [fmap list_fmap flat_map fst]. rewrite deliver_all_app. cbn [request_all].
    destruct (deliver_all (replies a) g) as [[g1 e1]|] eqn:E1; [|intros [=]]. cbn [mbind option_bind].
    fold (sync replies tmp). destruct (deliver_all (sync replies tmp) g1) as [[g2 e2]|] eqn:E2; [|intros [=]].
    cbn. intros [= <- <-]. destruct (IH g1 e2 E2) as (evs' & -> & Hr & Hq). cbn.
    exists (RequestLock a ty :: e1 ++ evs'). destruct (deliver_all_only _ _ _ _ E1) as [H1 H2]. split; [reflexivity |].
    cbn. rewrite reports_app, requested_app, H1, H2, Hr, Hq. auto.
Qed.

Lemma lock_all_starts replies g :
  status_ g = INIT \/ status_ g = LOCK -> Z.of_nat (length (tolock_ g)) < 2 ^ 31 ->
  lock_all replies g =
  request_all replies (tolock_ g)
    (waiting_group (Z.of_nat (length (tolock_ g))) 0 true (locked_ g) []).
Proof.
  intros Hs Hn. unfold lock_all, cas_status, new. destruct g as [st l todo d].
  cbn [status_ tolock_ locked_] in *. unfold waiting_group, ball.
  rewrite <- (swrap_small 32 (Z.of_nat (length todo))) at 1 by lia.
  destruct Hs as [->| ->]; reflexivity.
Qed.

(** C37. A lock group that is not waiting and has at least one lock requests
    exactly the locks that were added.  When as many answers have arrived as it has requests, some during
    [lock_all] and some later, in any order and with wounds of held locks in
    between, it has called one of its two callbacks, once and last: yes if every
    lock was granted, no if one was refused, and then it has aborted every
    request it held.  No [verify] fails and the ball is not used after it deleted
    itself. *)
Theorem group_reports_once replies g later early last :
  status_ g = INIT \/ status_ g = LOCK ->
  Z.of_nat (length (tolock_ g)) < 2 ^ 31 ->
  sync replies (tolock_ g) ++ later = early ++ [last] -> is_answer last = true ->
  n_answers (early ++ [last]) = Z.of_nat (length (tolock_ g)) ->
  let ok := forallb is_granted (early ++ [last]) in
  let held := hold_all (early ++ [last]) (locked_ g) in
  exists g1 evs1 g2 evs2,
    lock_all replies g = Some (g1, evs1) /\ deliver_all later g1 = Some (g2, evs2)
    /\ requested (evs1 ++ evs2) = tolock_ g
    /\ reports (evs1 ++ evs2) = report ok held
    /\ g2 = settled ok held [].
Proof.
  intros Hs Hlen Hrs Hlast Hn ok held. rewrite lock_all_starts by assumption.
  pose proof (deliver_all_settled _ early last true (locked_ g) [] Hn Hlast ltac:(lia)) as Hd.
  cbn [andb] in Hd. fold ok held in Hd. rewrite <- Hrs, deliver_all_app in Hd.
  destruct (deliver_all (sync replies (tolock_ g)) _) as [[g1 e1]|] eqn:E1; [|discriminate Hd].
  cbn [mbind option_bind] in Hd.
  destruct (deliver_all later g1) as [[g2 e2]|] eqn:E2; [|discriminate Hd]. cbn in Hd. injection Hd as -> He.
  destruct (request_all_deliver _ _ _ _ _ E1) as (evs1 & Er & Hr & Hq).
  destruct (deliver_all_only _ _ _ _ E2) as [H1 H2].
  exists g1, evs1, (settled ok held []), e2. rewrite reports_app, requested_app, H1, H2, Hr, Hq, app_nil_r. auto.
Qed.

(** Before the last answer the group is silent. *)
Lemma group_silent replies g later :
  status_ g = INIT \/ status_ g = LOCK ->
  Z.of_nat (length (tolock_ g)) < 2 ^ 31 ->
  n_answers (sync replies (tolock_ g) ++ later) < Z.of_nat (length (tolock_ g)) ->
  exists g1 evs1 g2,
    lock_all replies g = Some (g1, evs1) /\ deliver_all later g1 = Some (g2, [])
    /\ requested evs1 = tolock_ g /\ reports evs1 = []
    /\ (status_ g2 = WAIT \/ status_ g2 = TIMEOUT).
Proof.
  intros Hs Hlen Hn. rewrite lock_all_starts by assumption.
  pose proof (deliver_all_waiting _ _ 0 true (locked_ g) [] ltac:(lia) Hn ltac:(lia)) as Hd.
  rewrite deliver_all_app in Hd.
  destruct (deliver_all (sync replies (tolock_ g)) _) as [[g1 e1]|] eqn:E1; [|discriminate Hd].
  cbn [mbind option_bind] in Hd.
  destruct (deliver_all later g1) as [[g2 e2]|] eqn:E2; [|discriminate Hd]. cbn in Hd. injection Hd as -> He.
  apply app_nil in He as [-> ->]. destruct (request_all_deliver _ _ _ _ _ E1) as (evs1 & Er & Hr & Hq).
  eexists _, _, _. split_and!; eauto. cbn. destruct (forallb _ _); auto.
Qed.

(** A group to which no lock was added waits for ever: [lock_all] calls
    neither callback and requests nothing, no answer is outstanding, and no
    operation takes the group out of its waiting state again. *)
Theorem empty_group_stuck replies g :
  status_ g = INIT \/ status_ g = LOCK -> tolock_ g = [] ->
  exists g', lock_all replies g = Some (g', []) /\ status_ g' = WAIT
    /\ unlock_all g' = None /\ abort_all g' = None
    /\ (forall a ty, add a ty g' = None) /\ (forall rs, lock_all rs g' = None).
Proof.
  intros Hs Ht. rewrite lock_all_starts by (auto; rewrite Ht; cbn; lia). rewrite Ht. cbn.
  eexists. split; [reflexivity |]. split_and!; reflexivity.
Qed.

(** Two locks: one is granted at once, the other refused later. *)
Definition two_locks : group :=
  {| status_ := INIT; locked_ := []; tolock_ := [(3, WLOCK); (5, RLOCK)]; db_ := None |}.

Lemma group_reports_once_witness :
  exists g1 evs1 g2 evs2,
    lock_all (fun a => if a =? 3 then [Granted 3 1] else []) two_locks = Some (g1, evs1)
    /\ deliver_all [Refused 5] g1 = Some (g2, evs2)
    /\ requested (evs1 ++ evs2) = [(3, WLOCK); (5, RLOCK)]
    /\ reports (evs1 ++ evs2) = [NoCallback; AbortLock 3 1]
    /\ g2 = settled false [(3, 1)] [].
Proof.
  apply (group_reports_once (fun a => if a =? 3 then [Granted 3 1] else []) two_locks [Refused 5]
           [Granted 3 1] (Refused 5)); [now left | cbn; lia | reflexivity | reflexivity | reflexivity].
Defined.

Lemma empty_group_stuck_witness :
  exists g', lock_all (fun _ => []) group_init = Some (g', []) /\ status_ g' = WAIT
    /\ unlock_all g' = None /\ abort_all g' = None
    /\ (forall a ty, add a ty g' = None) /\ (forall rs, lock_all rs g' = None).
Proof. apply (empty_group_stuck (fun _ => []) group_init); [now left | reflexivity]. Defined.

End LockGroup.
