(* ===== verification/MultiPaxos.v ===== *)
(** * Replicated log: coordinator, acceptor and learner

    [deptran/multi_paxos]: the executor of one slot (exec.cc), the scheduler of a
    replica (sched.cc, with the executor table of deptran/scheduler.cc), the
    coordinator of one command (coord.cc, coord.h), the slot counter of the
    frame (multi_paxos/frame.cc) and the factory of transactions of the frame
    (deptran/frame.cc).  A failed [verify] is [None], and so is the access to a
    null pointer.  The messages a coordinator
    broadcasts and its commit callback are outputs in the order of the code, and
    so are the commands a replica passes to [learner_action_]; the callbacks do
    not call the object back.  PaxosSystem.v connects them by a network.

    A scheduler makes a transaction object for every executor it creates.  The
    factory of the frame leaves the pointer null in the mode of the replicated
    log and then writes through it, although the scheduler is prepared for a
    null answer.  The scheduler is therefore parameterised by what the frame
    answers ([Frame]): [MultiPaxosFrame] is the frame of the code, with which a
    replica does not survive its first request; [null_frame] is the frame that
    the scheduler expects, for which the learner and the acceptor are analysed. *)

From Stdlib Require Import ZArith Lia.
From stdpp Require Import base list option numbers gmap.
From S2P Require Import Prelude ALock.
Local Open Scope Z_scope.

Section MultiPaxos.
Context {command : Type}.

(** A [ContainerCommand] holds a pointer to the command it carries. *)
Record ContainerCommand := { self_cmd_ : option command }.

(** ** The factory of transactions *)
Inductive DTxn :=
  | TPLDTxn (tid : Z) | MdccDTxn (tid : Z) | OccDTxn (tid : Z)
  | RccDTxn (tid : Z) | RO6DTxn (tid : Z).

Definition tid_ (d : DTxn) : Z :=
  match d with
  | TPLDTxn tid | MdccDTxn tid | OccDTxn tid | RccDTxn tid | RO6DTxn tid => tid
  end.

Definition MODE_NONE := 32.
Definition MODE_2PL := 1.
Definition MODE_OCC := 2.
Definition MODE_RCC := 4.
Definition MODE_RO6 := 8.
Definition MODE_MDCC := 18.
Definition MODE_MULTI_PAXOS := 64.

(** [Frame::CreateDTxn].  The switch leaves [dtxn] null in the mode of the
    replicated log; the last bind is the write to [dtxn->frame_]. *)
Definition CreateDTxn (mode_ tid : Z) : option DTxn :=
  dtxn ← (if mode_ =? MODE_2PL then Some (Some (TPLDTxn tid))
          else if mode_ =? MODE_MDCC then Some (Some (MdccDTxn tid))
          else if mode_ =? MODE_OCC then Some (Some (OccDTxn tid))
          else if mode_ =? MODE_NONE then Some (Some (TPLDTxn tid))
          else if mode_ =? MODE_RCC then Some (Some (RccDTxn tid))
          else if mode_ =? MODE_RO6 then Some (Some (RO6DTxn tid))
          else if mode_ =? MODE_MULTI_PAXOS then Some None
          else None);
  dtxn' ← dtxn;
  Some dtxn'.

(** What a scheduler calls of its frame: the inner option is the pointer. *)
Class Frame := { frame_CreateDTxn : Z -> option (option DTxn) }.

(** The frame of the replicated log does not override the factory. *)
Definition MultiPaxosFrame : Frame :=
  {| frame_CreateDTxn := fun tid => dtxn ← CreateDTxn MODE_MULTI_PAXOS tid; Some (Some dtxn) |}.

(** The answer that [Scheduler::CreateDTxn] expects of it. *)
Definition null_frame : Frame := {| frame_CreateDTxn := fun _ => Some None |}.

(** ** The executor of a slot *)
Record executor := {
  dtxn_ : option DTxn;
  max_ballot_seen_ : Z;
  max_ballot_accepted_ : Z;
  cmd_ : option ContainerCommand;
  committed_cmd_ : option ContainerCommand }.

Definition MultiPaxosExecutor : executor :=
  {| dtxn_ := None; max_ballot_seen_ := 0; max_ballot_accepted_ := 0; cmd_ := None; committed_cmd_ := None |}.

Definition set_dtxn (d : option DTxn) (e : executor) : executor :=
  {| dtxn_ := d; max_ballot_seen_ := max_ballot_seen_ e; max_ballot_accepted_ := max_ballot_accepted_ e;
     cmd_ := cmd_ e; committed_cmd_ := committed_cmd_ e |}.

Definition set_ballots (seen accepted : Z) (e : executor) : executor :=
  {| dtxn_ := dtxn_ e; max_ballot_seen_ := seen; max_ballot_accepted_ := accepted;
     cmd_ := cmd_ e; committed_cmd_ := committed_cmd_ e |}.

Definition set_committed_cmd (c : ContainerCommand) (e : executor) : executor :=
  {| dtxn_ := dtxn_ e; max_ballot_seen_ := max_ballot_seen_ e; max_ballot_accepted_ := max_ballot_accepted_ e;
     cmd_ := cmd_ e; committed_cmd_ := Some c |}.

Definition exec_Prepare (ballot : Z) (e : executor) : option (Z * executor) :=
  _ ← verify (negb (ballot =? max_ballot_seen_ e));
  if max_ballot_seen_ e <? ballot
  then Some (ballot, set_ballots ballot (max_ballot_accepted_ e) e)
  else None.

(** The command is not recorded. *)
Definition exec_Accept (ballot : Z) (cmd : ContainerCommand) (e : executor) : option (Z * executor) :=
  _ ← verify (max_ballot_accepted_ e <? ballot);
  if max_ballot_seen_ e <=? ballot
  then Some (ballot, set_ballots ballot ballot e)
  else None.

(** [Decide] has no return statement; the state it leaves. *)
Definition exec_Decide (ballot : Z) (cmd : ContainerCommand) (e : executor) : option executor :=
  _ ← verify (max_ballot_seen_ e <=? ballot);
  Some (set_ballots ballot ballot e).

(** ** The scheduler of a replica *)
Record sched := {
  max_executed_slot_ : Z;
  max_committed_slot_ : Z;
  executors_ : gmap Z executor;
  dtxns_ : gmap Z DTxn }.

Definition MultiPaxosSched : sched :=
  {| max_executed_slot_ := 0; max_committed_slot_ := 0; executors_ := ∅; dtxns_ := ∅ |}.

Definition put_executor (slot_id : Z) (e : executor) (s : sched) : sched :=
  {| max_executed_slot_ := max_executed_slot_ s; max_committed_slot_ := max_committed_slot_ s;
     executors_ := <[slot_id := e]> (executors_ s); dtxns_ := dtxns_ s |}.

Definition put_dtxn (tid : Z) (d : DTxn) (s : sched) : sched :=
  {| max_executed_slot_ := max_executed_slot_ s; max_committed_slot_ := max_committed_slot_ s;
     executors_ := executors_ s; dtxns_ := <[tid := d]> (dtxns_ s) |}.

Definition set_executed (n : Z) (s : sched) : sched :=
  {| max_executed_slot_ := n; max_committed_slot_ := max_committed_slot_ s;
     executors_ := executors_ s; dtxns_ := dtxns_ s |}.

Definition set_committed (n : Z) (s : sched) : sched :=
  {| max_executed_slot_ := max_executed_slot_ s; max_committed_slot_ := n;
     executors_ := executors_ s; dtxns_ := dtxns_ s |}.

Context {frame_ : Frame}.

(** [Scheduler::CreateDTxn]; [epoch_enabled_] is false and [txn_reg_] is set. *)
Definition sched_CreateDTxn (tid : Z) (s : sched) : option (option DTxn * sched) :=
  _ ← verify (bool_decide (dtxns_ s !! tid = None));
  dtxn ← frame_CreateDTxn tid;
  match dtxn with
  | Some d => _ ← verify (tid_ d =? tid); Some (Some d, put_dtxn tid d s)
  | None => Some (None, s)
  end.

Definition CreateExecutor (txn_id : Z) (s : sched) : option (executor * sched) :=
  _ ← verify (bool_decide (executors_ s !! txn_id = None));
  let exec := MultiPaxosExecutor in
  '(dtxn, s) ← sched_CreateDTxn txn_id s;
  let exec := set_dtxn dtxn exec in
  Some (exec, put_executor txn_id exec s).

Definition GetOrCreateExecutor (txn_id : Z) (s : sched) : option (executor * sched) :=
  match executors_ s !! txn_id with
  | Some e => Some (e, s)
  | None => CreateExecutor txn_id s
  end.

(** The handler ends in [verify(0)]: a prepare request aborts the replica. *)
Definition OnPrepare (slot_id ballot : Z) (s : sched) : option (Z * sched) :=
  '(e, s) ← CreateExecutor slot_id s;
  '(max_ballot, e) ← exec_Prepare ballot e;
  _ ← verify false;
  Some (max_ballot, put_executor slot_id e s).

Definition OnAccept (slot_id ballot : Z) (cmd : ContainerCommand) (s : sched) : option (Z * sched) :=
  '(e, s) ← GetOrCreateExecutor slot_id s;
  '(max_ballot, e) ← exec_Accept ballot cmd e;
  Some (max_ballot, put_executor slot_id e s).

(** The loop of [OnCommit] over the slots after the one just executed. *)
Fixpoint execute_later (fuel : nat) (next_slot : Z) (s : sched)
  : option (list ContainerCommand * sched) :=
  match fuel with
  | O => None
  | S fuel =>
      if next_slot <=? max_committed_slot_ s then
        '(e, s) ← GetOrCreateExecutor next_slot s;
        match committed_cmd_ e with
        | Some c =>
            '(cs, s) ← execute_later fuel (wrap 64 (next_slot + 1))
                         (set_executed (wrap 64 (max_executed_slot_ s + 1)) s);
            Some (c :: cs, s)
        | None => Some ([], s)
        end
      else Some ([], s)
  end.

Definition OnCommit (slot_id ballot : Z) (cmd : ContainerCommand) (s : sched)
  : option (list ContainerCommand * sched) :=
  let s := if max_committed_slot_ s <? slot_id then set_committed slot_id s else s in
  _ ← verify (max_executed_slot_ s <? slot_id);
  if slot_id =? wrap 64 (max_executed_slot_ s + 1) then
    let s := set_executed (wrap 64 (max_executed_slot_ s + 1)) s in
    '(cs, s) ← execute_later (S (Z.to_nat (max_committed_slot_ s - slot_id)))
                 (wrap 64 (slot_id + 1)) s;
    Some (cmd :: cs, s)
  else
    '(e, s) ← GetOrCreateExecutor slot_id s;
    Some ([], put_executor slot_id (set_committed_cmd cmd e) s).

(** ** The coordinator of a command *)
Record coord := {
  in_submission_ : bool;
  in_prepare_ : bool;
  in_accept : bool;
  coord_cmd_ : option ContainerCommand;
  curr_ballot_ : Z;
  n_replica_ : Z;
  slot_id_ : Z;
  loc_id_ : Z;
  phase_ : Z;
  committed_ : bool;
  n_prepare_ack_ : Z;
  n_finish_ack_ : Z }.

(** What a coordinator sends; the acknowledgement callbacks carry the phase. *)
Inductive coord_out :=
  | BroadcastPrepare (slot_id ballot phase : Z)
  | BroadcastAccept (slot_id ballot : Z) (cmd : ContainerCommand) (phase : Z)
  | BroadcastDecide (slot_id ballot : Z) (cmd : ContainerCommand)
  | CommitCallback.

Definition INIT_END := 0.
Definition PREPARE := 1.
Definition ACCEPT := 2.
Definition COMMIT := 3.
Definition n_phase := 4.

Definition set_phase (p : Z) (c : coord) : coord :=
  {| in_submission_ := in_submission_ c; in_prepare_ := in_prepare_ c; in_accept := in_accept c;
     coord_cmd_ := coord_cmd_ c; curr_ballot_ := curr_ballot_ c; n_replica_ := n_replica_ c;
     slot_id_ := slot_id_ c; loc_id_ := loc_id_ c; phase_ := p; committed_ := committed_ c;
     n_prepare_ack_ := n_prepare_ack_ c; n_finish_ack_ := n_finish_ack_ c |}.

Definition set_in_accept (c : coord) : coord :=
  {| in_submission_ := in_submission_ c; in_prepare_ := in_prepare_ c; in_accept := true;
     coord_cmd_ := coord_cmd_ c; curr_ballot_ := curr_ballot_ c; n_replica_ := n_replica_ c;
     slot_id_ := slot_id_ c; loc_id_ := loc_id_ c; phase_ := phase_ c; committed_ := committed_ c;
     n_prepare_ack_ := n_prepare_ack_ c; n_finish_ack_ := n_finish_ack_ c |}.

Definition set_submission (cmd : ContainerCommand) (c : coord) : coord :=
  {| in_submission_ := true; in_prepare_ := in_prepare_ c; in_accept := in_accept c;
     coord_cmd_ := Some cmd; curr_ballot_ := curr_ballot_ c; n_replica_ := n_replica_ c;
     slot_id_ := slot_id_ c; loc_id_ := loc_id_ c; phase_ := phase_ c; committed_ := committed_ c;
     n_prepare_ack_ := n_prepare_ack_ c; n_finish_ack_ := n_finish_ack_ c |}.

Definition set_prepare (ballot : Z) (c : coord) : coord :=
  {| in_submission_ := in_submission_ c; in_prepare_ := true; in_accept := in_accept c;
     coord_cmd_ := coord_cmd_ c; curr_ballot_ := ballot; n_replica_ := n_replica_ c;
     slot_id_ := slot_id_ c; loc_id_ := loc_id_ c; phase_ := phase_ c; committed_ := committed_ c;
     n_prepare_ack_ := n_prepare_ack_ c; n_finish_ack_ := n_finish_ack_ c |}.

Definition set_ballot (ballot : Z) (c : coord) : coord :=
  {| in_submission_ := in_submission_ c; in_prepare_ := in_prepare_ c; in_accept := in_accept c;
     coord_cmd_ := coord_cmd_ c; curr_ballot_ := ballot; n_replica_ := n_replica_ c;
     slot_id_ := slot_id_ c; loc_id_ := loc_id_ c; phase_ := phase_ c; committed_ := committed_ c;
     n_prepare_ack_ := n_prepare_ack_ c; n_finish_ack_ := n_finish_ack_ c |}.

Definition set_acks (prep fin : Z) (com : bool) (c : coord) : coord :=
  {| in_submission_ := in_submission_ c; in_prepare_ := in_prepare_ c; in_accept := in_accept c;
     coord_cmd_ := coord_cmd_ c; curr_ballot_ := curr_ballot_ c; n_replica_ := n_replica_ c;
     slot_id_ := slot_id_ c; loc_id_ := loc_id_ c; phase_ := phase_ c; committed_ := com;
     n_prepare_ack_ := prep; n_finish_ack_ := fin |}.

Definition IsLeader (c : coord) : bool := loc_id_ c =? 0.

Definition n_replica (c : coord) : option Z :=
  _ ← verify (0 <? n_replica_ c); Some (n_replica_ c).

Definition GetQuorum (c : coord) : option Z :=
  n ← n_replica c; Some (wrap 32 (n / 2 + 1)).

Definition PickBallot (c : coord) : Z := wrap 64 (curr_ballot_ c + 1).

(** [Prepare] starts with [verify(0)]. *)
Definition Prepare (c : coord) : option (list coord_out * coord) :=
  _ ← verify false;
  _ ← verify (negb (in_prepare_ c));
  let c := set_prepare (PickBallot c) c in
  _ ← verify (0 <? slot_id_ c);
  _ ← verify (n_prepare_ack_ c =? 0);
  Some ([BroadcastPrepare (slot_id_ c) (curr_ballot_ c) (phase_ c)], c).

Definition Accept (c : coord) : option (list coord_out * coord) :=
  _ ← verify (negb (in_accept c));
  let c := set_in_accept c in
  cmd ← coord_cmd_ c;
  Some ([BroadcastAccept (slot_id_ c) (curr_ballot_ c) cmd (phase_ c)], c).

(** [Commit] and [GotoNextPhase] call each other; [goto] is the latter. *)
Definition Commit (goto : coord -> option (list coord_out * coord)) (c : coord)
  : option (list coord_out * coord) :=
  cmd ← coord_cmd_ c;
  _ ← verify (phase_ c =? COMMIT);
  '(outs, c') ← goto c;
  Some ([CommitCallback; BroadcastDecide (slot_id_ c) (curr_ballot_ c) cmd] ++ outs, c').

Fixpoint goto_next_phase (fuel : nat) (c : coord) : option (list coord_out * coord) :=
  match fuel with
  | O => None
  | S fuel =>
      let current := phase_ c mod n_phase in
      let c := set_phase (wrap 32 (phase_ c + 1)) c in
      if current =? INIT_END then
        if IsLeader c then Accept (set_phase (wrap 32 (phase_ c + 1)) c) else Prepare c
      else if current =? ACCEPT then
        _ ← verify (phase_ c mod n_phase =? COMMIT);
        if committed_ c then Commit (goto_next_phase fuel) c else None
      else if current =? PREPARE then
        _ ← verify (phase_ c mod n_phase =? ACCEPT);
        Accept c
      else if current =? COMMIT then Some ([], c)
      else None
  end.

(** The recursion passes through ACCEPT and then COMMIT at most. *)
Definition GotoNextPhase : coord -> option (list coord_out * coord) := goto_next_phase 2.

Definition Submit (cmd : ContainerCommand) (c : coord) : option (list coord_out * coord) :=
  if negb (IsLeader c) then None
  else
    _ ← verify (negb (in_submission_ c));
    _ ← verify (match coord_cmd_ c with None => true | Some _ => false end);
    _ ← self_cmd_ cmd;
    GotoNextPhase (set_submission cmd c).

(** A replica reported a greater ballot: start over with a greater one. *)
Definition retry_with (max_ballot : Z) (c : coord) : option (list coord_out * coord) :=
  if curr_ballot_ c <? max_ballot
  then GotoNextPhase (set_phase INIT_END (set_ballot (wrap 64 (max_ballot + 1)) c))
  else Some ([], c).

Definition PrepareAck (phase max_ballot : Z) (c : coord) : option (list coord_out * coord) :=
  if negb (phase_ c =? phase) then Some ([], c)
  else if max_ballot =? curr_ballot_ c then
    let c := set_acks (wrap 32 (n_prepare_ack_ c + 1)) (n_finish_ack_ c) (committed_ c) c in
    _ ← verify (n_prepare_ack_ c <=? n_replica_ c);
    q ← GetQuorum c;
    if q <=? n_prepare_ack_ c then GotoNextPhase c else Some ([], c)
  else retry_with max_ballot c.

Definition AcceptAck (phase max_ballot : Z) (c : coord) : option (list coord_out * coord) :=
  if phase <? phase_ c then Some ([], c)
  else if max_ballot =? curr_ballot_ c then
    let c := set_acks (n_prepare_ack_ c) (wrap 32 (n_finish_ack_ c + 1)) (committed_ c) c in
    q ← GetQuorum c;
    if q <=? n_finish_ack_ c
    then GotoNextPhase (set_acks (n_prepare_ack_ c) (n_finish_ack_ c) true c)
    else Some ([], c)
  else retry_with max_ballot c.

(** ** The frame *)

(** [CreateCoord]: a coordinator for the next slot; [slot_hint_] starts at 1. *)
Definition CreateCoord (n_rep loc slot_hint_ : Z) : option (coord * Z) :=
  _ ← verify (negb (n_rep =? 0));
  Some ({| in_submission_ := false; in_prepare_ := false; in_accept := false;
           coord_cmd_ := None; curr_ballot_ := 1; n_replica_ := n_rep; slot_id_ := slot_hint_;
           loc_id_ := loc; phase_ := 0; committed_ := false;
           n_prepare_ack_ := 0; n_finish_ack_ := 0 |}, wrap 64 (slot_hint_ + 1)).
End MultiPaxos.
Arguments ContainerCommand : clear implicits.
Arguments executor : clear implicits.
Arguments sched : clear implicits.
Arguments coord : clear implicits.
Arguments coord_out : clear implicits.

(** ** The frame of the code *)
Section CodeFrame.
Context {command : Type}.

Lemma multi_paxos_dtxn_null tid : CreateDTxn MODE_MULTI_PAXOS tid = None.
Proof. reflexivity. Qed.

(** No executor can be created. *)
Lemma no_executor_created i (s : sched command) :
  CreateExecutor (frame_ := MultiPaxosFrame) i s = None.
Proof.
  unfold CreateExecutor, sched_CreateDTxn. destruct (bool_decide (executors_ s !! i = None)); [|done].
  now destruct (bool_decide (dtxns_ s !! i = None)).
Qed.
End CodeFrame.

(** ** The learner

    [log] is the sequence of the commands chosen for the slots 1, 2, ...  A
    replica that has been told some of them executes the longest prefix of the
    log that it knows. *)
Section Learner.
Context {command : Type}.
#[local] Existing Instance null_frame.
Implicit Types (s : sched command) (log : list (ContainerCommand command)).

Definition log_at (log : list (ContainerCommand command)) (i : Z) : option (ContainerCommand command) :=
  if 1 <=? i then log !! Z.to_nat (i - 1) else None.

Definition committed_at s (i : Z) : option (ContainerCommand command) :=
  executors_ s !! i ≫= committed_cmd_.

Definition ballots_at s (i : Z) : Z * Z :=
  match executors_ s !! i with
  | Some e => (max_ballot_seen_ e, max_ballot_accepted_ e)
  | None => (0, 0)
  end.

(** The replica has received the commit of slot [i]. *)
Definition delivered s (i : Z) : bool :=
  (1 <=? i) && (i <=? max_executed_slot_ s) || bool_decide (is_Some (committed_at s i)).

(** The replica executed the first [max_executed_slot_] commands of the log and
    remembers later ones. *)
Definition learner_pre log s : Prop :=
  0 <= max_executed_slot_ s <= Z.of_nat (length log)
  /\ (forall i c, committed_at s i = Some c -> log_at log i = Some c /\ i <= max_committed_slot_ s)
  /\ max_executed_slot_ s <= max_committed_slot_ s /\ dtxns_ s = ∅.

Definition learner_inv log s : Prop :=
  learner_pre log s /\ committed_at s (max_executed_slot_ s + 1) = None.

(** The commands the replica has executed. *)
Definition executed_prefix log s : list (ContainerCommand command) :=
  take (Z.to_nat (max_executed_slot_ s)) log.

Lemma log_at_range log i c : log_at log i = Some c -> 1 <= i <= Z.of_nat (length log).
Proof.
  unfold log_at. destruct (Z.leb_spec 1 i); [|discriminate]. intros Hc.
  apply lookup_lt_Some in Hc. lia.
Qed.

Lemma log_at_app log log' i c : log_at log i = Some c -> log_at (log ++ log') i = Some c.
Proof.
  unfold log_at. destruct (1 <=? i); [|discriminate]. apply lookup_app_l_Some.
Qed.

Lemma executed_prefix_S log s c :
  0 <= max_executed_slot_ s -> log_at log (max_executed_slot_ s + 1) = Some c ->
  executed_prefix log (set_executed (max_executed_slot_ s + 1) s) = executed_prefix log s ++ [c].
Proof.
  intros H0 Hc. unfold executed_prefix. cbn.
  replace (Z.to_nat (max_executed_slot_ s + 1)) with (S (Z.to_nat (max_executed_slot_ s))) by lia.
  apply take_S_r. revert Hc. unfold log_at. destruct (Z.leb_spec 1 (max_executed_slot_ s + 1)); [|lia].
  intros <-. f_equal. lia.
Qed.

(** Creating the executor of a slot is not observable. *)
Definition same_slots s s' : Prop :=
  max_executed_slot_ s' = max_executed_slot_ s /\ max_committed_slot_ s' = max_committed_slot_ s
  /\ dtxns_ s' = dtxns_ s /\ (forall i, committed_at s' i = committed_at s i) /\ (forall i, ballots_at s' i = ballots_at s i).

(** With the frame that the scheduler expects the scheduler keeps no transactions. *)
Lemma get_or_create_spec i s :
  dtxns_ s = ∅ ->
  runs (GetOrCreateExecutor i s) (fun '(e, s') =>
    same_slots s s' /\ executors_ s' !! i = Some e /\ committed_cmd_ e = committed_at s i
    /\ (max_ballot_seen_ e, max_ballot_accepted_ e) = ballots_at s i).
Proof.
  intros Hd. unfold GetOrCreateExecutor, CreateExecutor, sched_CreateDTxn, committed_at, ballots_at.
  rewrite Hd. destruct (executors_ s !! i) as [e|] eqn:E; apply runs_ret.
  - rewrite E. repeat split; auto.
  - cbn. rewrite lookup_insert_eq. unfold same_slots, committed_at, ballots_at. cbn.
    repeat split; intros j; destruct (decide (j = i)) as [->|Hj];
      rewrite ?E, ?lookup_insert_eq, ?lookup_insert_ne by congruence; reflexivity.
Qed.

Lemma committed_put i e s j :
  committed_at (put_executor i e s) j = if decide (j = i) then committed_cmd_ e else committed_at s j.
Proof.
  unfold committed_at. cbn. destruct (decide (j = i)) as [->|Hj];
    rewrite ?lookup_insert_eq, ?lookup_insert_ne by congruence; reflexivity.
Qed.

Lemma ballots_put i e s j :
  ballots_at (put_executor i e s) j =
  if decide (j = i) then (max_ballot_seen_ e, max_ballot_accepted_ e) else ballots_at s j.
Proof.
  unfold ballots_at. cbn. destruct (decide (j = i)) as [->|Hj];
    rewrite ?lookup_insert_eq, ?lookup_insert_ne by congruence; reflexivity.
Qed.

Lemma same_slots_pre log s s' : same_slots s s' -> learner_pre log s -> learner_pre log s'.
Proof.
  intros (E1 & E2 & E0 & E3 & _) (H1 & H2 & H3 & H4). unfold learner_pre. rewrite E0, E1, E2.
  repeat split; try lia; try done; intros; rewrite E3 in *; eapply H2; eauto.
Qed.

Lemma same_slots_trans s1 s2 s3 : same_slots s1 s2 -> same_slots s2 s3 -> same_slots s1 s3.
Proof.
  intros (A1 & A2 & A3 & A4 & A5) (B1 & B2 & B3 & B4 & B5). unfold same_slots.
  repeat split; intros; etransitivity; eauto.
Qed.

(** What the loop may change: the number of executed slots. *)
Definition loop_result log s (r : list (ContainerCommand command) * sched command) : Prop :=
  let '(cs, s') := r in
  learner_inv log s' /\ max_executed_slot_ s <= max_executed_slot_ s'
  /\ max_committed_slot_ s' = max_committed_slot_ s
  /\ executed_prefix log s' = executed_prefix log s ++ cs
  /\ (forall i, max_executed_slot_ s < i <= max_executed_slot_ s' -> is_Some (committed_at s i))
  /\ (forall i, committed_at s' i = committed_at s i) /\ (forall i, ballots_at s' i = ballots_at s i).

Lemma loop_stop log s s' :
  learner_pre log s -> same_slots s s' -> committed_at s (max_executed_slot_ s + 1) = None ->
  loop_result log s ([], s').
Proof.
  intros Hpre Hs Hnone. destruct Hs as (E1 & E2 & E0 & E3 & E4). unfold loop_result, learner_inv.
  rewrite !E1, E2, E3, app_nil_r. unfold executed_prefix. rewrite E1.
  split; [split; [eapply same_slots_pre; unfold same_slots; eauto | auto] |].
  repeat split; auto; intros; lia.
Qed.

Lemma execute_later_spec log fuel s :
  Z.of_nat (length log) < 2 ^ 64 - 1 -> learner_pre log s ->
  (Z.to_nat (max_committed_slot_ s - max_executed_slot_ s) < fuel)%nat ->
  runs (execute_later fuel (max_executed_slot_ s + 1) s) (loop_result log s).
Proof.
  intros Hlog. revert s. induction fuel as [|fuel IH]; intros s Hpre Hf; [lia |].
  cbn [execute_later]. destruct (Z.leb_spec (max_executed_slot_ s + 1) (max_committed_slot_ s)) as [Hle|Hgt].
  2:{ apply runs_ret, loop_stop; [done | repeat split; auto |].
      destruct (committed_at s _) as [c|] eqn:E; [|done]. apply Hpre in E as [_ E]. lia. }
  eapply runs_bind; [apply get_or_create_spec, Hpre |]. intros [e s1] (Hs & He & Hc & _). cbn beta iota.
  destruct (committed_cmd_ e) as [c|]; [|apply runs_ret, loop_stop; auto].
  destruct (same_slots_pre _ _ _ Hs Hpre) as (H1 & H2 & H3 & H4).
  destruct Hs as (E1 & E2 & E0 & E3 & E4). symmetry in Hc.
  assert (Hc1 : committed_at s1 (max_executed_slot_ s1 + 1) = Some c) by now rewrite E3, E1.
  destruct (H2 _ _ Hc1) as [Hl Hle1]. pose proof (log_at_range _ _ _ Hl) as Hr.
  rewrite !wrap_small by lia.
  set (s2 := set_executed (max_executed_slot_ s1 + 1) s1).
  replace (max_executed_slot_ s + 1 + 1) with (max_executed_slot_ s2 + 1) by (cbn; lia).
  eapply runs_bind.
  { apply IH; [|cbn; lia]. split; [cbn; lia |]. split; [exact H2 |]. split; [cbn; lia | exact H4]. }
  intros [cs s3] (I1 & I2 & I3 & I4 & I5 & I6 & I7). apply runs_ret.
  assert (P : executed_prefix log s2 = executed_prefix log s ++ [c]).
  { unfold s2. rewrite (executed_prefix_S log s1 c) by (lia || done). unfold executed_prefix. now rewrite E1. }
  cbn in I2, I3. split; [done |]. split; [lia |]. split; [congruence |].
  split; [rewrite I4, P, <- app_assoc; reflexivity |].
  repeat split; intros i; [|rewrite I6; apply E3 | rewrite I7; apply E4].
  intros Hi. destruct (decide (i = max_executed_slot_ s + 1)) as [->|Hne]; [eauto |].
  rewrite <- E3. apply (I5 i). cbn. lia.
Qed.

Lemma set_committed_pre log s slot :
  learner_pre log s -> learner_pre log (if max_committed_slot_ s <? slot then set_committed slot s else s).
Proof.
  intros (H1 & H2 & H3 & H4). destruct (Z.ltb_spec (max_committed_slot_ s) slot); [|done].
  split; [done |]. split; [|split; [cbn; lia | exact H4]]. intros i c Hc. destruct (H2 i c Hc). cbn. split; [done | lia].
Qed.

(** A command of the log that the replica has not received. *)
Definition fresh_commit log s (slot : Z) (c : ContainerCommand command) : Prop :=
  Z.of_nat (length log) < 2 ^ 64 - 1 /\ log_at log slot = Some c
  /\ max_executed_slot_ s < slot <= max_committed_slot_ s /\ committed_at s slot = None.

(** The replica has received one more slot, and executed [cs]. *)
Definition commit_result log s (slot : Z) (r : list (ContainerCommand command) * sched command) : Prop :=
  let '(cs, s') := r in
  learner_inv log s' /\ executed_prefix log s' = executed_prefix log s ++ cs
  /\ (forall i, delivered s' i = (i =? slot) || delivered s i)
  /\ (forall i, ballots_at s' i = ballots_at s i).

Lemma commit_in_order log s slot c :
  learner_pre log s -> fresh_commit log s slot c -> slot = max_executed_slot_ s + 1 ->
  runs ('(cs, s) ← execute_later (S (Z.to_nat (max_committed_slot_ s - slot))) (slot + 1)
          (set_executed slot s); Some (c :: cs, s)) (commit_result log s slot).
Proof.
  intros (HA & HB & HC & HD) (Hlog & Hc & Hle & Hnone) ->. pose proof (log_at_range _ _ _ Hc) as Hr.
  set (s1 := set_executed (max_executed_slot_ s + 1) s).
  replace (max_executed_slot_ s + 1 + 1) with (max_executed_slot_ s1 + 1) by reflexivity.
  eapply runs_bind.
  { apply (execute_later_spec log); [done | | cbn; lia]. split; [cbn; lia |].
    split; [exact HB |]. split; [cbn; lia | exact HD]. }
  intros [cs s2] (I1 & I2 & I3 & I4 & I5 & I6 & I7). apply runs_ret. cbn in I2, I3, I5.
  split; [done |]. split; [|split; [|exact I7]].
  - rewrite I4. unfold s1. rewrite (executed_prefix_S log s c), <- app_assoc by (lia || done). reflexivity.
  - intros i. unfold delivered. rewrite I6. change (committed_at s1 i) with (committed_at s i).
    destruct (decide (max_executed_slot_ s + 1 < i <= max_executed_slot_ s2)) as [Hi|Hi].
    + rewrite (bool_decide_eq_true_2 _ (I5 i Hi)), !orb_true_r. reflexivity.
    + replace (i <=? max_executed_slot_ s2) with (i <=? max_executed_slot_ s + 1) by lia.
      destruct (Z.eqb_spec i (max_executed_slot_ s + 1)) as [->|Hne].
      * destruct (Z.leb_spec 1 (max_executed_slot_ s + 1)); [|lia]. now rewrite Z.leb_refl.
      * replace (i <=? max_executed_slot_ s + 1) with (i <=? max_executed_slot_ s) by lia. reflexivity.
Qed.

Lemma commit_out_of_order log s slot c :
  learner_inv log s -> fresh_commit log s slot c -> slot <> max_executed_slot_ s + 1 ->
  runs ('(e, s) ← GetOrCreateExecutor slot s;
        Some ([], put_executor slot (set_committed_cmd c e) s)) (commit_result log s slot).
Proof.
  intros [(HA & HB & HC & HD) Hnext] (Hlog & Hc & Hle & Hnone) Hne.
  eapply runs_bind; [apply get_or_create_spec, HD |].
  intros [e s1] ((E1 & E2 & E0 & E3 & E4) & He & Hce & Hb).
  apply runs_ret. split; [split; [split; [|split; [|split; [|cbn; congruence]]] |] |split; [|split]].
  - cbn. lia.
  - intros i c'. rewrite committed_put. cbn. destruct (decide (i = slot)) as [->|].
    + intros [= <-]. split; [done | lia].
    + rewrite E3, E2. apply HB.
  - cbn. lia.
  - rewrite committed_put. cbn. rewrite E1. destruct (decide _); [lia |]. now rewrite E3.
  - unfold executed_prefix. cbn. now rewrite E1, app_nil_r.
  - intros i. unfold delivered. rewrite committed_put. cbn. rewrite E1.
    destruct (decide (i = slot)) as [->|Hi].
    + rewrite Z.eqb_refl. cbn. apply orb_true_r.
    + destruct (Z.eqb_spec i slot); [done |]. cbn. now rewrite E3.
  - intros i. rewrite ballots_put. destruct (decide (i = slot)) as [->|]; [|now rewrite E4].
    cbn. now rewrite Hb.
Qed.

Lemma commit_result_same log s s0 slot r :
  max_executed_slot_ s0 = max_executed_slot_ s -> executors_ s0 = executors_ s ->
  commit_result log s0 slot r -> commit_result log s slot r.
Proof.
  intros X1 X2. destruct r as [cs s']. unfold commit_result, executed_prefix, delivered, committed_at, ballots_at.
  now rewrite X1, X2.
Qed.

Lemma on_commit_spec log s slot ballot c :
  Z.of_nat (length log) < 2 ^ 64 - 1 -> learner_inv log s ->
  log_at log slot = Some c -> delivered s slot = false ->
  runs (OnCommit slot ballot c s) (commit_result log s slot).
Proof.
  intros Hlog [Hpre Hnext] Hc Hd. pose proof (log_at_range _ _ _ Hc) as Hr.
  unfold OnCommit. apply (set_committed_pre _ _ slot) in Hpre as Hpre'.
  set (s0 := if _ <? slot then _ else _) in *.
  assert (X : max_executed_slot_ s0 = max_executed_slot_ s /\ executors_ s0 = executors_ s
    /\ slot <= max_committed_slot_ s0).
  { unfold s0. destruct (Z.ltb_spec (max_committed_slot_ s) slot); repeat split; cbn; lia. }
  destruct X as (X1 & X2 & X3). cbv zeta.
  assert (XC : forall i, committed_at s0 i = committed_at s i) by (intros; unfold committed_at; now rewrite X2).
  assert (Hinv : learner_inv log s0) by (split; [done | now rewrite X1, XC]).
  unfold delivered in Hd. apply orb_false_iff in Hd as [Hd1 Hd2].
  apply bool_decide_eq_false, eq_None_not_Some in Hd2.
  assert (Hfresh : fresh_commit log s0 slot c).
  { split; [done |]. split; [done |]. split; [lia | now rewrite XC]. }
  apply runs_mono with (P := commit_result log s0 slot); [|intros r; now apply commit_result_same].
  destruct Hpre as (HA & _ & _). rewrite !(wrap_small 64) by lia.
  destruct (Z.ltb_spec (max_executed_slot_ s0) slot); [|lia]. cbn [verify option_bind mbind].
  destruct (Z.eqb_spec slot (max_executed_slot_ s0 + 1)) as [E|E].
  - rewrite <- E. exact (commit_in_order log s0 slot c Hpre' Hfresh E).
  - now apply commit_out_of_order.
Qed.
End Learner.

(** ** The acceptor and the coordinator of a leader *)
Section Leader.
Context {command : Type}.
#[local] Existing Instance null_frame.
Implicit Types (s : sched command) (cmd : ContainerCommand command).

Definition quorum (n : Z) : Z := n / 2 + 1.

Lemma on_accept_spec s slot cmd :
  dtxns_ s = ∅ -> ballots_at s slot = (0, 0) ->
  runs (OnAccept slot 1 cmd s) (fun '(max_ballot, s') =>
    max_ballot = 1 /\ max_executed_slot_ s' = max_executed_slot_ s
    /\ max_committed_slot_ s' = max_committed_slot_ s /\ dtxns_ s' = ∅
    /\ (forall i, committed_at s' i = committed_at s i)
    /\ forall i, ballots_at s' i = if decide (i = slot) then (1, 1) else ballots_at s i).
Proof.
  intros Hd Hb. unfold OnAccept. eapply runs_bind; [apply get_or_create_spec, Hd |].
  intros [e s1] ((E1 & E2 & E0 & E3 & E4) & He & Hce & Hbe). rewrite Hb in Hbe. injection Hbe as B1 B2.
  unfold exec_Accept. rewrite B1, B2. cbn. apply runs_ret. repeat split; auto.
  - cbn. congruence.
  - intros i. rewrite committed_put. cbn. rewrite Hce, <- E3. destruct (decide (i = slot)) as [->|]; auto.
  - intros i. rewrite ballots_put. cbn. destruct (decide (i = slot)); auto.
Qed.

(** A coordinator that waits for acknowledgements, [f] of which have come. *)
Definition waiting (n slot : Z) cmd (f : Z) : coord command :=
  {| in_submission_ := true; in_prepare_ := false; in_accept := true; coord_cmd_ := Some cmd;
     curr_ballot_ := 1; n_replica_ := n; slot_id_ := slot; loc_id_ := 0; phase_ := 2;
     committed_ := false; n_prepare_ack_ := 0; n_finish_ack_ := f |}.

Definition finished (n slot : Z) cmd : coord command :=
  {| in_submission_ := true; in_prepare_ := false; in_accept := true; coord_cmd_ := Some cmd;
     curr_ballot_ := 1; n_replica_ := n; slot_id_ := slot; loc_id_ := 0; phase_ := 4;
     committed_ := true; n_prepare_ack_ := 0; n_finish_ack_ := quorum n |}.

Lemma create_submit n slot x :
  0 < n -> 0 <= slot < 2 ^ 64 - 1 ->
  runs (CreateCoord n 0 slot) (fun '(c, hint) => hint = slot + 1 /\
    Submit {| self_cmd_ := Some x |} c =
    Some ([BroadcastAccept slot 1 {| self_cmd_ := Some x |} ACCEPT],
          waiting n slot {| self_cmd_ := Some x |} 0)).
Proof.
  intros Hn Hs. unfold CreateCoord. destruct (Z.eqb_spec n 0); [lia |]. cbn.
  apply runs_ret. rewrite wrap_small by lia. split; reflexivity.
Qed.

Lemma ack_waiting n slot cmd f :
  0 < n < 2 ^ 32 -> 0 <= f < quorum n ->
  AcceptAck ACCEPT 1 (waiting n slot cmd f) =
  if quorum n =? f + 1
  then Some ([CommitCallback; BroadcastDecide slot 1 cmd], finished n slot cmd)
  else Some ([], waiting n slot cmd (f + 1)).
Proof.
  intros Hn Hf. unfold AcceptAck, GetQuorum, n_replica, quorum in *. cbn -[wrap Z.div Z.pow].
  assert (n / 2 < 2 ^ 32 - 1) by (apply Z.div_lt_upper_bound; lia).
  assert (0 <= n / 2) by (apply Z.div_pos; lia).
  destruct (Z.ltb_spec 0 n); [|lia]. cbn -[wrap Z.div Z.pow]. rewrite !wrap_small by lia.
  destruct (Z.eqb_spec (n / 2 + 1) (f + 1)) as [E|E].
  - destruct (Z.leb_spec (n / 2 + 1) (f + 1)); [|lia]. rewrite <- E. reflexivity.
  - destruct (Z.leb_spec (n / 2 + 1) (f + 1)); [lia |]. reflexivity.
Qed.

Lemma ack_finished n slot cmd b : AcceptAck ACCEPT b (finished n slot cmd) = Some ([], finished n slot cmd).
Proof. reflexivity. Qed.

(** A replica that reports a greater ballot makes the coordinator start over in
    [Accept], whose debugging check was set by the first attempt. *)
Lemma greater_ballot_aborts n slot cmd f b :
  1 < b -> AcceptAck ACCEPT b (waiting n slot cmd f) = None.
Proof.
  intros Hb. unfold AcceptAck, retry_with. cbn -[wrap].
  destruct (Z.eqb_spec b 1); [lia |]. destruct (Z.ltb_spec 1 b); [reflexivity | lia].
Qed.
End Leader.
