(* ===== verification/PaxosSystem.v ===== *)
(** * Replicated log: the system

    The leader's coordinators and the replicas of one partition
    (MultiPaxos.v), connected by the broadcasts of multi_paxos/commo.cc and the
    handlers of multi_paxos/service.cc.  The network delivers every message once
    and in any order.

    With the frame of the code ([MultiPaxosFrame]) no replica survives the
    delivery of an Accept request: [paxos_accept_crashes].  The rest of the file
    analyses the protocol with the frame that the scheduler expects
    ([null_frame]), as what the code would do if the factory of transactions
    returned the null pointer instead of writing through it: the system then
    implements a replicated log, in which every replica executes the submitted
    commands in the order of their submission ([replicas_agree],
    [paxos_refines_log], [paxos_never_aborts], [paxos_delivers_all]). *)

From Stdlib Require Import ZArith Lia.
From stdpp Require Import base list option numbers gmap.
From S2P Require Import Prelude ALock MultiPaxos.
Local Open Scope Z_scope.

Section System.
Context {command : Type} {frame_ : Frame}.
Abbreviation ccmd := (ContainerCommand command).

(** Requests to replica [r], and the replies to the coordinator of a slot. *)
Inductive message :=
  | PrepareReq (r : nat) (slot ballot phase : Z)
  | PrepareReply (slot phase max_ballot : Z)
  | AcceptReq (r : nat) (slot ballot : Z) (cmd : ccmd) (phase : Z)
  | AcceptReply (slot phase max_ballot : Z)
  | DecideReq (r : nat) (slot ballot : Z) (cmd : ccmd).

Record replica := { rep_sched : sched command; executed : list ccmd }.

(** [log] records the submitted commands; it is not part of the program. *)
Record system := {
  slot_hint_ : Z;
  coords : gmap Z (coord command);
  net : list message;
  replicas : list replica;
  log : list ccmd }.

Definition init (n : nat) : system :=
  {| slot_hint_ := 1; coords := ∅; net := [];
     replicas := replicate n {| rep_sched := MultiPaxosSched; executed := [] |}; log := [] |}.

(** The communicator sends a broadcast to every replica of the partition. *)
Definition send (n : nat) (o : coord_out command) : list message :=
  match o with
  | BroadcastPrepare slot ballot phase => (fun r => PrepareReq r slot ballot phase) <$> seq 0 n
  | BroadcastAccept slot ballot cmd phase => (fun r => AcceptReq r slot ballot cmd phase) <$> seq 0 n
  | BroadcastDecide slot ballot cmd => (fun r => DecideReq r slot ballot cmd) <$> seq 0 n
  | CommitCallback => []
  end.

Definition send_all (n : nat) (outs : list (coord_out command)) : list message :=
  outs ≫= send n.

(** [CreateRepCoord()->Submit(cmd)] at the leader. *)
Definition submit (cmd : ccmd) (s : system) : option system :=
  let n := length (replicas s) in
  '(c, hint) ← CreateCoord (Z.of_nat n) 0 (slot_hint_ s);
  '(outs, c') ← Submit cmd c;
  Some {| slot_hint_ := hint; coords := <[slot_id_ c := c']> (coords s);
          net := net s ++ send_all n outs; replicas := replicas s; log := log s ++ [cmd] |}.

(** The acknowledgement callback of a coordinator. *)
Definition ack (slot : Z) (f : coord command -> option (list (coord_out command) * coord command))
    (s : system) : option system :=
  c ← coords s !! slot;
  '(outs, c') ← f c;
  Some {| slot_hint_ := slot_hint_ s; coords := <[slot := c']> (coords s);
          net := net s ++ send_all (length (replicas s)) outs; replicas := replicas s; log := log s |}.

Definition put_replica (r : nat) (rep : replica) (ms : list message) (s : system) : system :=
  {| slot_hint_ := slot_hint_ s; coords := coords s; net := net s ++ ms;
     replicas := <[r := rep]> (replicas s); log := log s |}.

(** The RPC handlers [Prepare], [Accept] and [Decide] of a replica, and the
    replies. *)
Definition handle (m : message) (s : system) : option system :=
  match m with
  | PrepareReq r slot ballot phase =>
      rep ← replicas s !! r;
      '(max_ballot, sc) ← OnPrepare slot ballot (rep_sched rep);
      Some (put_replica r {| rep_sched := sc; executed := executed rep |}
              [PrepareReply slot phase max_ballot] s)
  | AcceptReq r slot ballot cmd phase =>
      rep ← replicas s !! r;
      '(max_ballot, sc) ← OnAccept slot ballot cmd (rep_sched rep);
      Some (put_replica r {| rep_sched := sc; executed := executed rep |}
              [AcceptReply slot phase max_ballot] s)
  | DecideReq r slot ballot cmd =>
      rep ← replicas s !! r;
      '(cs, sc) ← OnCommit slot ballot cmd (rep_sched rep);
      Some (put_replica r {| rep_sched := sc; executed := executed rep ++ cs |} [] s)
  | PrepareReply slot phase max_ballot => ack slot (PrepareAck phase max_ballot) s
  | AcceptReply slot phase max_ballot => ack slot (AcceptAck phase max_ballot) s
  end.

Definition remove_msg (i : nat) (s : system) : system :=
  {| slot_hint_ := slot_hint_ s; coords := coords s; net := delete i (net s);
     replicas := replicas s; log := log s |}.

(** The client submits a command at the leader, or the network delivers its
    [i]-th message. *)
Inductive action := Client (x : command) | Network (i : nat).

Definition enabled (a : action) (s : system) : Prop :=
  match a with Client _ => True | Network i => (i < length (net s))%nat end.

Definition perform (a : action) (s : system) : option system :=
  match a with
  | Client x => submit {| self_cmd_ := Some x |} s
  | Network i => m ← net s !! i; handle m (remove_msg i s)
  end.

Inductive reachable (n : nat) : system -> Prop :=
  | reach_init : reachable n (init n)
  | reach_step s a s' : reachable n s -> enabled a s -> perform a s = Some s' -> reachable n s'.
End System.
Arguments message : clear implicits.
Arguments replica : clear implicits.
Arguments system : clear implicits.

(** ** The invariant *)
Section Invariant.
Context {command : Type}.
#[local] Existing Instance null_frame.
Abbreviation ccmd := (ContainerCommand command).
Implicit Types (s : system command) (sc : sched command).

Definition count {A} (f : A -> bool) (l : list A) : Z := Z.of_nat (length (List.filter f l)).

Definition is_accept (r : nat) (i : Z) (m : message command) : bool :=
  match m with AcceptReq r' i' _ _ _ => (r =? r')%nat && (i =? i') | _ => false end.
Definition is_decide (r : nat) (i : Z) (m : message command) : bool :=
  match m with DecideReq r' i' _ _ => (r =? r')%nat && (i =? i') | _ => false end.
Definition is_reply (i : Z) (m : message command) : bool :=
  match m with AcceptReply i' _ _ => i =? i' | _ => false end.

Definition n_rep s : Z := Z.of_nat (length (replicas s)).
Definition in_log s (i : Z) : bool := bool_decide (is_Some (log_at (log s) i)).
Definition chosen s (i : Z) : bool :=
  match coords s !! i with Some c => committed_ c | None => false end.
Definition accepted sc (i : Z) : bool := bool_decide (ballots_at sc i = (1, 1)).
Definition accepted_by s (i : Z) : Z := count (fun rep => accepted (rep_sched rep) i) (replicas s).

Definition msg_ok s (m : message command) : Prop :=
  match m with
  | AcceptReq r i b c p =>
      log_at (log s) i = Some c /\ b = 1 /\ p = ACCEPT /\ (r < length (replicas s))%nat
  | AcceptReply i p b => is_Some (log_at (log s) i) /\ b = 1 /\ p = ACCEPT
  | DecideReq r i b c => log_at (log s) i = Some c /\ (r < length (replicas s))%nat
  | _ => False
  end.

Definition coord_ok s (i : Z) : Prop :=
  match log_at (log s) i with
  | None => coords s !! i = None
  | Some c =>
      (exists f, coords s !! i = Some (waiting (n_rep s) i c f) /\ 0 <= f < quorum (n_rep s)
                 /\ count (is_reply i) (net s) + f = accepted_by s i)
      \/ (coords s !! i = Some (finished (n_rep s) i c) /\ quorum (n_rep s) <= accepted_by s i)
  end.

(** Every slot of the log is either still to be accepted by the replica, or was
    accepted; once it is chosen, its decision is on the way or was delivered. *)
Definition slot_ok s (r : nat) sc (i : Z) : Prop :=
  (ballots_at sc i = (0, 0) \/ ballots_at sc i = (1, 1))
  /\ count (is_accept r i) (net s) + Z.b2z (accepted sc i) = Z.b2z (in_log s i)
  /\ count (is_decide r i) (net s) + Z.b2z (delivered sc i) = Z.b2z (chosen s i).

Definition replica_ok s (r : nat) (rep : replica command) : Prop :=
  learner_inv (log s) (rep_sched rep)
  /\ executed rep = executed_prefix (log s) (rep_sched rep)
  /\ forall i, slot_ok s r (rep_sched rep) i.

Definition inv s : Prop :=
  slot_hint_ s = Z.of_nat (length (log s)) + 1 /\ 0 < n_rep s < 2 ^ 32
  /\ Forall (msg_ok s) (net s) /\ (forall i, coord_ok s i)
  /\ (forall r rep, replicas s !! r = Some rep -> replica_ok s r rep).

(** *** Counting *)
Lemma count_app {A} (f : A -> bool) l k : count f (l ++ k) = count f l + count f k.
Proof. unfold count. rewrite List.filter_app, length_app. lia. Qed.

Lemma count_cons {A} (f : A -> bool) x l : count f (x :: l) = Z.b2z (f x) + count f l.
Proof. unfold count. cbn. destruct (f x); cbn; lia. Qed.

Lemma count_nonneg {A} (f : A -> bool) l : 0 <= count f l.
Proof. unfold count. lia. Qed.

Lemma count_delete {A} (f : A -> bool) l i x :
  l !! i = Some x -> count f l = Z.b2z (f x) + count f (delete i l).
Proof.
  intros Hx. rewrite <- (take_drop_middle l i x Hx) at 1.
  rewrite delete_take_drop, !count_app, count_cons. lia.
Qed.

Lemma count_insert {A} (f : A -> bool) l i x y :
  l !! i = Some x -> count f (<[i := y]> l) = count f l - Z.b2z (f x) + Z.b2z (f y).
Proof.
  intros Hx. rewrite insert_take_drop by (eapply lookup_lt_Some; eauto).
  rewrite <- (take_drop_middle l i x Hx) at 3. rewrite !count_app, !count_cons. lia.
Qed.

Lemma count_none {A} (f : A -> bool) l : Forall (fun x => f x = false) l -> count f l = 0.
Proof. intros H. unfold count. now rewrite filter_none. Qed.

Lemma count_pos {A} (f : A -> bool) l : 0 < count f l -> exists x, x ∈ l /\ f x = true.
Proof.
  induction l as [|x l IH]; [unfold count; cbn; lia |]. rewrite count_cons.
  destruct (f x) eqn:E; [exists x; split; [left | done] |]. cbn. intros (y & Hy & Ey)%IH.
  exists y. split; [now right | done].
Qed.

Lemma count_all {A} (f : A -> bool) l :
  Forall (fun x => f x = true) l -> count f l = Z.of_nat (length l).
Proof. intros H. unfold count. now rewrite filter_all. Qed.

(** A broadcast holds one message for every replica. *)
Lemma count_broadcast {A} (f : A -> bool) (g : nat -> A) (r n : nat) (b : bool) :
  (forall r', f (g r') = (r =? r')%nat && b) -> (r < n)%nat ->
  count f (g <$> seq 0 n) = Z.b2z b.
Proof.
  intros Hf Hr. rewrite <- (take_drop_middle (seq 0 n) r r) by now rewrite lookup_seq_lt.
  rewrite fmap_app, count_app, fmap_cons, count_cons, Hf, Nat.eqb_refl.
  rewrite !count_none; [destruct b; cbn; lia | |]; apply Forall_forall; intros x (r' & -> & Hr')%list_elem_of_fmap;
    rewrite Hf; destruct (Nat.eqb_spec r r') as [<-|]; try done; exfalso.
  - rewrite drop_seq in Hr'. apply elem_of_seq in Hr'. lia.
  - rewrite take_seq in Hr'. apply elem_of_seq in Hr'. lia.
Qed.

(** *** Initially *)
Lemma system_inv_init n : 0 < Z.of_nat n < 2 ^ 32 -> inv (init (command := command) n).
Proof.
  intros Hn. split; [reflexivity |]. split; [unfold n_rep; cbn; now rewrite length_replicate |].
  split; [constructor |]. split; [|intros r rep [-> _]%lookup_replicate_1].
  - intros i. unfold coord_ok, log_at. cbn. now destruct (1 <=? i).
  - split; [|split; [reflexivity |]].
    + split; [|reflexivity]. split; [cbn; lia |]. split; [done |]. split; [cbn; lia | reflexivity].
    + intros i. split; [now left |]. unfold accepted, in_log, chosen, delivered, log_at. cbn.
      replace ((1 <=? i) && (i <=? 0)) with false by lia. now destruct (1 <=? i).
Qed.

(** *** Submission *)
Lemma log_at_snoc (l : list ccmd) c i :
  log_at (l ++ [c]) i = if decide (i = Z.of_nat (length l) + 1) then Some c else log_at l i.
Proof.
  unfold log_at. destruct (decide (i = _)) as [->|Hi].
  - replace (Z.to_nat _) with (length l) by lia. destruct (Z.leb_spec 1 (Z.of_nat (length l) + 1)); [|lia].
    now apply list_lookup_middle.
  - destruct (Z.leb_spec 1 i); [|done].
    destruct (decide (Z.to_nat (i - 1) < length l)%nat); [now rewrite lookup_app_l |].
    rewrite !lookup_ge_None_2; [done | lia |]. rewrite length_app. cbn. lia.
Qed.

Lemma learner_snoc (l : list ccmd) c sc : learner_inv l sc -> learner_inv (l ++ [c]) sc.
Proof.
  intros [(H1 & H2 & H3) H4]. split; [|done]. split; [rewrite length_app; cbn; lia |].
  split; [|done]. intros i c' [Hc' Hi]%H2. split; [now apply log_at_app | done].
Qed.

Lemma prefix_snoc (l : list ccmd) c sc :
  learner_inv l sc -> executed_prefix (l ++ [c]) sc = executed_prefix l sc.
Proof.
  intros [(H1 & _) _]. unfold executed_prefix. rewrite take_app_le by lia. reflexivity.
Qed.

Lemma msg_ok_snoc s c m hint cs ns :
  msg_ok s m -> msg_ok {| slot_hint_ := hint; coords := cs; net := ns; replicas := replicas s;
                          log := log s ++ [c] |} m.
Proof.
  destruct m; cbn; try done.
  - intros (H1 & H2 & H3 & H4). auto using log_at_app.
  - intros ((c' & H1) & H2). eauto using log_at_app.
  - intros (H1 & H2). auto using log_at_app.
Qed.

Lemma log_at_beyond (l : list ccmd) : log_at l (Z.of_nat (length l) + 1) = None.
Proof.
  destruct (log_at l _) eqn:E; [|done]. apply log_at_range in E. lia.
Qed.

(** A slot beyond the log has been accepted by no replica. *)
Lemma beyond_accepted s i : inv s -> log_at (log s) i = None -> accepted_by s i = 0.
Proof.
  intros (_ & _ & _ & _ & HR) Hi. apply count_none, Forall_lookup. intros r rep Hrep.
  destruct (HR _ _ Hrep) as (_ & _ & Hs). destruct (Hs i) as (_ & H2 & _). unfold in_log in H2.
  rewrite Hi in H2. cbn in H2. pose proof (count_nonneg (is_accept r i) (net s)).
  destruct (accepted _ i); [cbn in H2; lia | done].
Qed.

Lemma beyond_reply s i : inv s -> log_at (log s) i = None -> count (is_reply i) (net s) = 0.
Proof.
  intros (_ & _ & HM & _) Hi. apply count_none. eapply Forall_weaken; [exact HM |].
  intros m Hm. destruct m; try done. cbn in *. destruct (Z.eqb_spec i slot) as [->|]; [|done].
  destruct Hm as [[c Hc] _]. congruence.
Qed.

(** The state after the submission of [cmd]. *)
Definition submitted s (cmd : ccmd) : system command :=
  let slot := Z.of_nat (length (log s)) + 1 in
  {| slot_hint_ := slot + 1; coords := <[slot := waiting (n_rep s) slot cmd 0]> (coords s);
     net := net s ++ ((fun r => AcceptReq r slot 1 cmd ACCEPT) <$> seq 0 (length (replicas s)));
     replicas := replicas s; log := log s ++ [cmd] |}.

Lemma submit_eq s x :
  inv s -> slot_hint_ s < 2 ^ 64 - 1 ->
  submit {| self_cmd_ := Some x |} s = Some (submitted s {| self_cmd_ := Some x |}).
Proof.
  intros (HH & Hn & _) Hb. unfold submit.
  destruct (create_submit (n_rep s) (slot_hint_ s) x) as ([c hint] & E & -> & ES); [lia | lia |].
  unfold n_rep in E. rewrite E. cbn -[submit]. rewrite ES. cbn. rewrite app_nil_r.
  replace (slot_id_ c) with (slot_hint_ s)
    by (unfold CreateCoord in E; destruct (negb _) in E; [now injection E as <- | discriminate]).
  now rewrite HH.
Qed.

Section Submitted.
Context (s : system command) (cmd : ccmd) (Hinv : inv s).
Let slot := Z.of_nat (length (log s)) + 1.
Let s' := submitted s cmd.

Lemma submitted_log i :
  log_at (log s') i = if decide (i = slot) then Some cmd else log_at (log s) i.
Proof using All. apply log_at_snoc. Qed.

Lemma submitted_coords i :
  coords s' !! i = if decide (i = slot) then Some (waiting (n_rep s) slot cmd 0) else coords s !! i.
Proof using All.
  change (coords s') with (<[slot := waiting (n_rep s) slot cmd 0]> (coords s)).
  destruct (decide (i = slot)) as [->|]; [apply lookup_insert_eq | apply lookup_insert_ne; congruence].
Qed.

Lemma submitted_count f (Hf : forall r, f (AcceptReq r slot 1 cmd ACCEPT) = false) :
  count f (net s') = count f (net s).
Proof using All.
  cbn. rewrite count_app, (count_none _ (_ <$> _)); [lia |]. apply Forall_fmap, Forall_true. exact Hf.
Qed.

Lemma submitted_coord_ok i : coord_ok s' i.
Proof using All.
  pose proof Hinv as (HH & Hn & HM & HC & HR). specialize (HC i). unfold coord_ok in *.
  rewrite submitted_log, submitted_coords, submitted_count by done.
  destruct (decide (i = slot)) as [->|Hi]; [|exact HC].
  left. exists 0. split; [done |].
  split; [unfold quorum; pose proof (Z.div_pos (n_rep s) 2); change (n_rep s') with (n_rep s); lia |].
  change (accepted_by s' slot) with (accepted_by s slot).
  now rewrite beyond_accepted, beyond_reply by (done || apply log_at_beyond).
Qed.

Lemma submitted_slot_ok r rep i : replicas s !! r = Some rep -> slot_ok s' r (rep_sched rep) i.
Proof using All.
  intros Hrep. pose proof Hinv as (_ & _ & _ & HC & HR). destruct (HR r rep Hrep) as (_ & _ & R3).
  destruct (R3 i) as (S1 & S2 & S3). pose proof (lookup_lt_Some _ _ _ Hrep) as Hlt.
  split; [done |]. split.
  - cbn [net s' submitted]. rewrite count_app, (count_broadcast _ _ r _ (i =? slot)) by done.
    unfold in_log in *. rewrite submitted_log. destruct (decide (i = slot)) as [->|Hi].
    + rewrite (log_at_beyond (log s) : log_at (log s) slot = None) in S2. rewrite Z.eqb_refl.
      cbn in S2 |- *. lia.
    + destruct (Z.eqb_spec i slot); [done |]. cbn. lia.
  - rewrite submitted_count, S3 by done. unfold chosen. rewrite submitted_coords.
    destruct (decide (i = slot)) as [->|Hi]; [|done].
    specialize (HC slot). unfold coord_ok in HC.
    rewrite (log_at_beyond (log s) : log_at (log s) slot = None) in HC. now rewrite HC.
Qed.

Lemma inv_submitted : inv s'.
Proof using All.
  pose proof Hinv as (HH & Hn & HM & HC & HR).
  split; [cbn; rewrite length_app; cbn; lia |]. split; [done |].
  split; [|split; [exact submitted_coord_ok |]].
  - apply Forall_app. split; [eapply Forall_weaken; [exact HM | intros; now apply msg_ok_snoc] |].
    apply Forall_forall. intros m (r & -> & Hr)%list_elem_of_fmap. apply elem_of_seq in Hr.
    split; [rewrite submitted_log; now destruct (decide _) |].
    change (replicas s') with (replicas s). repeat split; lia.
  - intros r rep Hrep. destruct (HR r rep Hrep) as (R1 & R2 & _).
    split; [now apply learner_snoc |]. split; [cbn; now rewrite prefix_snoc |].
    intros i. now apply submitted_slot_ok.
Qed.
End Submitted.

(** *** Delivery *)
Section Delivery.
Context (s : system command) (i : nat) (m : message command).
Context (Hinv : inv s) (Hm : net s !! i = Some m).

Lemma delivered_msg_ok : msg_ok s m.
Proof using All. destruct Hinv as (_ & _ & HM & _). eapply Forall_lookup_1; eauto. Qed.

Lemma msgs_ok_step ms s' :
  log s' = log s -> length (replicas s') = length (replicas s) ->
  net s' = net (remove_msg i s) ++ ms -> Forall (msg_ok s) ms -> Forall (msg_ok s') (net s').
Proof using All.
  intros E1 E2 -> Hms. destruct Hinv as (_ & _ & HM & _).
  assert (H : Forall (msg_ok s) (net (remove_msg i s) ++ ms)) by (apply Forall_app; split; [apply Forall_delete, HM | done]).
  eapply Forall_weaken; [exact H |]. intros []; cbn; now rewrite ?E1, ?E2.
Qed.

Lemma count_step f ms : count f (net (remove_msg i s) ++ ms) = count f (net s) - Z.b2z (f m) + count f ms.
Proof using All. rewrite count_app, (count_delete f (net s) i m Hm). cbn. lia. Qed.

(** A replica changed its state, as long as the log, the other replicas and the
    coordinators are untouched. *)
Lemma put_replica_inv r rep rep' ms :
  replicas s !! r = Some rep ->
  let s' := put_replica r rep' ms (remove_msg i s) in
  Forall (msg_ok s) ms ->
  (forall j, coord_ok s' j) ->
  (forall r' rep', r' <> r -> replicas s !! r' = Some rep' -> forall j, slot_ok s' r' (rep_sched rep') j) ->
  replica_ok s' r rep' -> inv s'.
Proof using All.
  intros Hr s' Hms Hc Ho Hn. pose proof Hinv as (HH & Hb & _ & _ & HR).
  assert (EL : length (replicas s') = length (replicas s)) by apply length_insert.
  split; [exact HH |]. split; [unfold n_rep; now rewrite EL |].
  split; [eapply msgs_ok_step; eauto; reflexivity |]. split; [exact Hc |].
  intros r' rep0. destruct (decide (r' = r)) as [->|Hne].
  - cbn. rewrite list_lookup_insert_eq by (eapply lookup_lt_Some; eauto). intros [= <-]. exact Hn.
  - cbn. rewrite list_lookup_insert_ne by congruence. intros Hr'.
    destruct (HR _ _ Hr') as (R1 & R2 & _). split; [exact R1 |]. split; [exact R2 |]. eauto.
Qed.

Lemma put_replica_n r rep' ms : n_rep (put_replica r rep' ms (remove_msg i s)) = n_rep s.
Proof using All. unfold n_rep. cbn. now rewrite length_insert. Qed.

Lemma put_replica_accepted r rep rep' ms j :
  replicas s !! r = Some rep ->
  accepted_by (put_replica r rep' ms (remove_msg i s)) j =
  accepted_by s j - Z.b2z (accepted (rep_sched rep) j) + Z.b2z (accepted (rep_sched rep') j).
Proof using All. intros Hr. unfold accepted_by. cbn. now rewrite (count_insert _ _ _ rep). Qed.

(** The counts of a slot after the delivery of [m] and the sending of [ms]. *)
Lemma slot_ok_step s' ms r sc sc' j :
  net s' = net (remove_msg i s) ++ ms -> log s' = log s -> slot_ok s r sc j ->
  ballots_at sc' j = (0, 0) \/ ballots_at sc' j = (1, 1) ->
  Z.b2z (accepted sc' j) + count (is_accept r j) ms = Z.b2z (accepted sc j) + Z.b2z (is_accept r j m) ->
  Z.b2z (delivered sc' j) + count (is_decide r j) ms + Z.b2z (chosen s j) =
    Z.b2z (delivered sc j) + Z.b2z (is_decide r j m) + Z.b2z (chosen s' j) ->
  slot_ok s' r sc' j.
Proof using All.
  intros En El (S1 & S2 & S3) Hb Ha Hd. split; [done |]. unfold in_log in *.
  rewrite En, El, !count_step. split; lia.
Qed.
End Delivery.

Ltac eqb_cases :=
  repeat match goal with
  | |- context [Z.eqb ?a ?b] => destruct (Z.eqb_spec a b); subst
  | |- context [Nat.eqb ?a ?b] => destruct (Nat.eqb_spec a b); subst
  end.

Lemma inv_accept s i r slot b cmd p :
  inv s -> net s !! i = Some (AcceptReq r slot b cmd p) ->
  runs (handle (AcceptReq r slot b cmd p) (remove_msg i s)) inv.
Proof.
  intros Hinv Hm. destruct (delivered_msg_ok _ _ _ Hinv Hm) as (HL & -> & -> & Hr).
  apply lookup_lt_is_Some in Hr as [rep Hr]. cbn -[OnAccept]. rewrite Hr. cbn -[OnAccept].
  pose proof Hinv as (_ & _ & _ & HC & HR). destruct (HR _ _ Hr) as (R1 & R2 & R3).
  assert (Hin : in_log s slot = true) by (apply bool_decide_eq_true_2; eauto).
  assert (Hb : ballots_at (rep_sched rep) slot = (0, 0)).
  { destruct (R3 slot) as ([|Hb] & S2 & _); [done |]. rewrite Hin, (count_delete _ _ _ _ Hm) in S2.
    unfold accepted in S2. rewrite Hb in S2. cbn [is_accept] in S2. rewrite Nat.eqb_refl, Z.eqb_refl in S2.
    rewrite bool_decide_eq_true_2 in S2 by done. cbn [andb Z.b2z] in S2. pose proof (count_nonneg (is_accept r slot) (delete i (net s))). lia. }
  eapply runs_bind; [apply on_accept_spec; [apply R1 | done] |].
  intros [mb sc] (-> & E1 & E2 & E0 & E3 & E4).
  apply runs_ret. set (rep' := {| rep_sched := sc; executed := executed rep |}).
  assert (Hd : forall j, delivered sc j = delivered (rep_sched rep) j)
    by (intros; unfold delivered; now rewrite E1, E3).
  assert (Ha : forall j, Z.b2z (accepted sc j) = Z.b2z (accepted (rep_sched rep) j) + Z.b2z (j =? slot)).
  { intros j. unfold accepted. rewrite E4. destruct (decide (j = slot)) as [->|].
    - now rewrite Hb, Z.eqb_refl.
    - destruct (Z.eqb_spec j slot); [done |]. cbn. lia. }
  apply (put_replica_inv s i _ Hinv Hm r rep); [done | | | |].
  - apply Forall_singleton. cbn. eauto.
  - intros j. specialize (HC j). unfold coord_ok in *. rewrite (put_replica_n s i _ Hinv Hm).
    rewrite (put_replica_accepted s i _ Hinv Hm r rep) by done. cbn [rep_sched rep']. rewrite Ha.
    cbn [log coords net put_replica remove_msg] in *. rewrite (count_step s i _ Hinv Hm), count_cons.
    change (count (is_reply j) []) with 0. cbn [is_reply Z.b2z].
    destruct (log_at (log s) j); [|done]. destruct HC as [(f & F1 & F2 & F3)|[F1 F2]]; [left | right].
    + exists f. split; [done |]. split; [done |]. destruct (j =? slot); cbn; lia.
    + split; [done |]. destruct (j =? slot); cbn; lia.
  - intros r' rep0 Hne Hr' j. destruct (HR _ _ Hr') as (_ & _ & S).
    eapply (slot_ok_step s i _ Hinv Hm); [reflexivity | reflexivity | apply S | apply S | |]; cbn;
      destruct (Nat.eqb_spec r' r); done.
  - split; [|split].
    + destruct R1 as [(A & B & C & D0) D]. cbn.
      split; [split; [|split; [|split]] |]; cbn; rewrite ?E1, ?E2, ?E3; try done.
      intros j c. rewrite E3. apply B.
    + cbn. rewrite R2. unfold executed_prefix. cbn. now rewrite E1.
    + intros j. eapply (slot_ok_step s i _ Hinv Hm); [reflexivity | reflexivity | apply R3 | | |]; cbn [rep_sched rep'].
      * rewrite E4. destruct (decide _); [auto | apply R3].
      * rewrite Ha. cbn. rewrite Nat.eqb_refl. cbn. unfold count. cbn. lia.
      * now rewrite Hd.
Qed.

Lemma inv_decide s i r slot b cmd :
  inv s -> slot_hint_ s < 2 ^ 64 -> net s !! i = Some (DecideReq r slot b cmd) ->
  runs (handle (DecideReq r slot b cmd) (remove_msg i s)) inv.
Proof.
  intros Hinv Hbound Hm. destruct (delivered_msg_ok _ _ _ Hinv Hm) as (HL & Hr).
  apply lookup_lt_is_Some in Hr as [rep Hr]. cbn -[OnCommit]. rewrite Hr. cbn -[OnCommit].
  pose proof Hinv as (HH & _ & _ & HC & HR). destruct (HR _ _ Hr) as (R1 & R2 & R3).
  assert (Hd : delivered (rep_sched rep) slot = false).
  { destruct (R3 slot) as (_ & _ & S3). rewrite (count_delete _ _ _ _ Hm) in S3. cbn [is_decide] in S3.
    rewrite Nat.eqb_refl, Z.eqb_refl in S3. cbn [andb] in S3.
    pose proof (count_nonneg (is_decide r slot) (delete i (net s))).
    destruct (delivered _ _), (chosen _ _); cbn [Z.b2z] in S3; lia || done. }
  eapply runs_bind; [apply (on_commit_spec (log s)); [lia | done | done | done] |].
  intros [cs sc] (C1 & C2 & C3 & C4). apply runs_ret.
  set (rep' := {| rep_sched := sc; executed := executed rep ++ cs |}).
  assert (Ha : forall j, accepted sc j = accepted (rep_sched rep) j)
    by (intros; unfold accepted; now rewrite C4).
  apply (put_replica_inv s i _ Hinv Hm r rep); [done | constructor | | |].
  - intros j. specialize (HC j). unfold coord_ok in *. rewrite (put_replica_n s i _ Hinv Hm).
    rewrite (put_replica_accepted s i _ Hinv Hm r rep) by done. cbn [rep_sched rep']. rewrite Ha.
    cbn [log coords net put_replica remove_msg] in *. rewrite (count_step s i _ Hinv Hm).
    cbn [is_reply Z.b2z]. change (count (is_reply j) []) with 0. rewrite Z.sub_0_r, Z.add_0_r, Z.sub_add.
    exact HC.
  - intros r' rep0 Hne Hr' j. destruct (HR _ _ Hr') as (_ & _ & S).
    eapply (slot_ok_step s i _ Hinv Hm); [reflexivity | reflexivity | apply S | apply S | |]; cbn;
      destruct (Nat.eqb_spec r' r); done.
  - split; [exact C1 |]. split; [cbn; now rewrite R2, C2 |].
    intros j. eapply (slot_ok_step s i _ Hinv Hm); [reflexivity | reflexivity | apply R3 | | |]; cbn [rep_sched rep'].
    + rewrite C4. apply R3.
    + now rewrite Ha.
    + rewrite C3. cbn [is_decide]. rewrite Nat.eqb_refl. cbn [andb]. change (count _ []) with 0.
      change (chosen _ j) with (chosen s j) at 2. destruct (Z.eqb_spec j slot) as [->|]; [|cbn; lia].
      rewrite Hd. cbn. lia.
Qed.

(** A coordinator changed its state. *)
Lemma put_coord_inv s i m slot c c' ms :
  inv s -> net s !! i = Some m ->
  let s' := {| slot_hint_ := slot_hint_ s; coords := <[slot := c']> (coords s);
               net := net (remove_msg i s) ++ ms; replicas := replicas s; log := log s |} in
  coords s !! slot = Some c ->
  Forall (msg_ok s) ms ->
  (forall j, is_reply j m = (j =? slot)) ->
  (forall j, count (is_reply j) ms = 0) ->
  coord_ok s' slot ->
  (forall r j, is_accept r j m = false /\ is_decide r j m = false /\ count (is_accept r j) ms = 0
     /\ ((r < length (replicas s))%nat ->
         count (is_decide r j) ms + Z.b2z (chosen s j) = Z.b2z (chosen s' j))) ->
  inv s'.
Proof.
  intros Hinv Hm s' Hc Hms Hrm Hr Hco Hcount. pose proof Hinv as (HH & Hb & _ & HC & HR).
  split; [exact HH |]. split; [exact Hb |].
  split; [eapply (msgs_ok_step s i _ Hinv Hm); eauto |]. split.
  - intros j. destruct (decide (j = slot)) as [->|Hj]; [done |]. specialize (HC j). unfold coord_ok in *.
    cbn [net log coords s'] in *. rewrite lookup_insert_ne by congruence.
    rewrite (count_step s i _ Hinv Hm), Hrm, Hr. destruct (Z.eqb_spec j slot); [done |].
    cbn [Z.b2z]. rewrite Z.sub_0_r, Z.add_0_r. exact HC.
  - intros r rep Hrep. destruct (HR _ _ Hrep) as (R1 & R2 & R3). split; [done |]. split; [done |].
    intros j. destruct (Hcount r j) as (K1 & K2 & K3 & K4). specialize (K4 (lookup_lt_Some _ _ _ Hrep)).
    eapply (slot_ok_step s i _ Hinv Hm); [reflexivity | reflexivity | apply R3 | apply R3 | |].
    + rewrite K1, K3. cbn. lia.
    + rewrite K2. cbn. lia.
Qed.

(** The coordinator got an acknowledgement and sends nothing. *)
Lemma quiet_ack_inv s i slot c c' :
  inv s -> net s !! i = Some (AcceptReply slot ACCEPT 1) ->
  coords s !! slot = Some c -> committed_ c' = committed_ c ->
  let s' := {| slot_hint_ := slot_hint_ s; coords := <[slot := c']> (coords s);
               net := net (remove_msg i s) ++ []; replicas := replicas s; log := log s |} in
  coord_ok s' slot -> inv s'.
Proof.
  intros Hinv Hm Ec Hcc s' Hco. apply (put_coord_inv s i _ slot _ _ _ Hinv Hm Ec); try done.
  intros r j. repeat split; try done. intros _. change (count _ []) with 0. unfold chosen. cbn.
  destruct (decide (j = slot)) as [->|]; [now rewrite Ec, lookup_insert_eq, Hcc |].
  now rewrite lookup_insert_ne by congruence.
Qed.

(** The acknowledgement completes the quorum. *)
Lemma commit_ack_inv s i slot cmd f :
  inv s -> net s !! i = Some (AcceptReply slot ACCEPT 1) -> log_at (log s) slot = Some cmd ->
  coords s !! slot = Some (waiting (n_rep s) slot cmd f) ->
  let s' := {| slot_hint_ := slot_hint_ s; coords := <[slot := finished (n_rep s) slot cmd]> (coords s);
               net := net (remove_msg i s) ++
                      ((fun r => DecideReq r slot 1 cmd) <$> seq 0 (length (replicas s)));
               replicas := replicas s; log := log s |} in
  quorum (n_rep s) <= accepted_by s slot -> inv s'.
Proof.
  intros Hinv Hm HL Ec s' Hq. apply (put_coord_inv s i _ slot _ _ _ Hinv Hm Ec).
  - apply Forall_forall. intros m (r & -> & Hr)%list_elem_of_fmap. apply elem_of_seq in Hr.
    split; [done | lia].
  - done.
  - intros j. apply count_none. now apply Forall_fmap, Forall_true.
  - unfold coord_ok. cbn [log coords]. rewrite HL, lookup_insert_eq. right. split; [done | exact Hq].
  - intros r j. split; [done |]. split; [done |].
    split; [apply count_none; now apply Forall_fmap, Forall_true |]. intros Hr.
    rewrite (count_broadcast _ _ r _ (j =? slot)) by done. unfold chosen. cbn [coords].
    destruct (Z.eqb_spec j slot) as [->|]; [now rewrite Ec, lookup_insert_eq |].
    now rewrite lookup_insert_ne by congruence.
Qed.

Lemma inv_reply s i slot p b :
  inv s -> net s !! i = Some (AcceptReply slot p b) ->
  runs (handle (AcceptReply slot p b) (remove_msg i s)) inv.
Proof.
  intros Hinv Hm. destruct (delivered_msg_ok _ _ _ Hinv Hm) as ([cmd HL] & -> & ->).
  pose proof Hinv as (HH & Hb & _ & HC & HR). specialize (HC slot) as Hco. unfold coord_ok in Hco.
  rewrite HL in Hco. cbn -[AcceptAck]. unfold ack. cbn [coords remove_msg].
  assert (Hcount : count (is_reply slot) (net s) = 1 + count (is_reply slot) (delete i (net s))).
  { rewrite (count_delete _ _ _ _ Hm). cbn [is_reply]. now rewrite Z.eqb_refl. }
  pose proof (count_nonneg (is_reply slot) (delete i (net s))) as H0.
  destruct Hco as [(f & Ec & Hf & Hcnt)|[Ec Hq]]; rewrite Ec; cbn [option_bind mbind].
  - rewrite ack_waiting by done. destruct (Z.eqb_spec (quorum (n_rep s)) (f + 1)) as [Ef|Ef]; apply runs_ret.
    + unfold send_all. cbn [mbind list_bind app send]. rewrite app_nil_r.
      apply (commit_ack_inv s i slot cmd f Hinv Hm HL Ec). lia.
    + apply (quiet_ack_inv s i slot _ _ Hinv Hm Ec); [done |]. unfold coord_ok. cbn [log coords net].
      rewrite HL, lookup_insert_eq, app_nil_r. left. exists (f + 1). split; [done |].
      change (n_rep _) with (n_rep s). change (accepted_by _ slot) with (accepted_by s slot).
      cbn [remove_msg net]. lia.
  - rewrite ack_finished. apply runs_ret. apply (quiet_ack_inv s i slot _ _ Hinv Hm Ec); [done |].
    unfold coord_ok. cbn [log coords]. rewrite HL, lookup_insert_eq. right. now split.
Qed.

(** *** Reachable states *)
Lemma inv_perform a s :
  inv s -> slot_hint_ s < 2 ^ 64 - 1 -> enabled a s -> runs (perform a s) inv.
Proof.
  intros Hinv Hb Ha. destruct a as [x|i]; cbn -[handle].
  - rewrite submit_eq by done. now apply runs_ret, inv_submitted.
  - apply lookup_lt_is_Some in Ha as [m Hm]. rewrite Hm. cbn -[handle].
    pose proof (delivered_msg_ok _ _ _ Hinv Hm) as Hok. destruct m; try done.
    + now apply inv_accept.
    + now apply inv_reply.
    + apply inv_decide; [done | lia | done].
Qed.

Lemma perform_grows {fr : Frame} a s s' :
  perform (frame_ := fr) a s = Some s' ->
  (length (log s) <= length (log s'))%nat /\ length (replicas s') = length (replicas s).
Proof.
  destruct a as [x|i]; cbn -[OnPrepare OnAccept OnCommit PrepareAck AcceptAck CreateCoord Submit].
  - unfold submit. destruct (CreateCoord _ _ _) as [[c h]|]; [cbn -[Submit] | discriminate].
    destruct (Submit _ c) as [[outs c']|]; [cbn | discriminate]. intros [= <-]. cbn.
    rewrite length_app. lia.
  - destruct (net s !! i) as [[]|]; cbn -[OnPrepare OnAccept OnCommit PrepareAck AcceptAck]; try discriminate.
    1, 3, 5: destruct (replicas s !! r); [cbn -[OnPrepare OnAccept OnCommit] | discriminate];
      match goal with |- (?o ≫= _) = _ -> _ => destruct o as [[]|] end; [cbn | discriminate];
      intros [= <-]; cbn; rewrite length_insert; lia.
    all: unfold ack; cbn -[PrepareAck AcceptAck]; destruct (coords s !! slot); [cbn -[PrepareAck AcceptAck] | discriminate];
      match goal with |- (?o ≫= _) = _ -> _ => destruct o as [[]|] end; [cbn | discriminate];
      intros [= <-]; cbn; lia.
Qed.

Lemma system_reachable_inv n s :
  0 < Z.of_nat n < 2 ^ 32 -> reachable n s -> Z.of_nat (length (log s)) < 2 ^ 64 - 2 ->
  inv s /\ length (replicas s) = n.
Proof.
  intros Hn. induction 1 as [|s a s' Hr IH Ha Hp]; intros Hb.
  - split; [now apply system_inv_init | apply length_replicate].
  - destruct (perform_grows _ _ _ Hp) as [G1 G2]. destruct IH as [Hi Hl]; [lia |].
    destruct (inv_perform a s Hi) as (s2 & E & Hi2); [destruct Hi; lia | done |].
    rewrite Hp in E. injection E as <-. split; [done | lia].
Qed.

Lemma quorum_majority n : n < 2 * quorum n.
Proof. unfold quorum. pose proof (Z.mul_succ_div_gt n 2). lia. Qed.

Lemma chosen_majority s i : inv s -> chosen s i = true -> n_rep s < 2 * accepted_by s i.
Proof.
  intros (_ & _ & _ & HC & _) Hc. specialize (HC i). unfold chosen, coord_ok in *.
  pose proof (quorum_majority (n_rep s)).
  destruct (log_at (log s) i); [|now rewrite HC in Hc].
  destruct HC as [(f & E & _)|[E Hq]]; rewrite E in Hc; [discriminate | lia].
Qed.

Lemma executed_chosen s r rep i :
  inv s -> replicas s !! r = Some rep -> 1 <= i <= Z.of_nat (length (executed rep)) -> chosen s i = true.
Proof.
  intros (_ & _ & _ & _ & HR) Hr Hi. destruct (HR _ _ Hr) as ([(A & _) _] & R2 & R3).
  assert (Hd : delivered (rep_sched rep) i = true).
  { unfold delivered. rewrite R2 in Hi. unfold executed_prefix in Hi. rewrite length_take in Hi.
    replace ((1 <=? i) && (i <=? max_executed_slot_ (rep_sched rep))) with true by lia. reflexivity. }
  destruct (R3 i) as (_ & _ & S3). rewrite Hd in S3. pose proof (count_nonneg (is_decide r i) (net s)).
  destruct (chosen s i); cbn [Z.b2z] in S3; lia || done.
Qed.

(** *** A quiet network *)
Lemma quiet_chosen s i : inv s -> net s = [] -> is_Some (log_at (log s) i) -> chosen s i = true.
Proof.
  intros (_ & Hn & _ & HC & HR) Hnet [c Hc]. specialize (HC i). unfold coord_ok, chosen in *.
  rewrite Hc in HC. destruct HC as [(f & E & Hf & Hcnt)|[-> _]]; [|done]. exfalso.
  assert (Hall : accepted_by s i = n_rep s).
  { apply count_all, Forall_lookup. intros r rep Hr. destruct (HR _ _ Hr) as (_ & _ & R3).
    destruct (R3 i) as (_ & S2 & _). unfold in_log in S2. rewrite Hnet, Hc in S2.
    destruct (accepted _ i); [done | discriminate S2]. }
  rewrite Hnet in Hcnt. change (count _ []) with 0 in Hcnt. unfold quorum in Hf.
  pose proof (Z.mul_div_le (n_rep s) 2). lia.
Qed.

Lemma quiet_executed s r rep :
  inv s -> net s = [] -> replicas s !! r = Some rep -> executed rep = log s.
Proof.
  intros Hinv Hnet Hr. pose proof Hinv as (_ & _ & _ & _ & HR).
  destruct (HR _ _ Hr) as ([(A & B & C & _) D] & -> & R3).
  destruct (decide (max_executed_slot_ (rep_sched rep) = Z.of_nat (length (log s)))) as [E|E].
  { unfold executed_prefix. rewrite E, Nat2Z.id. apply firstn_all. }
  set (i := max_executed_slot_ (rep_sched rep) + 1) in *.
  assert (Hi : is_Some (log_at (log s) i)).
  { unfold log_at. destruct (Z.leb_spec 1 i); [|lia]. apply lookup_lt_is_Some. lia. }
  destruct (R3 i) as (_ & _ & S3). rewrite Hnet, (quiet_chosen s i Hinv Hnet Hi) in S3.
  unfold delivered in S3. rewrite D in S3. replace (i <=? max_executed_slot_ (rep_sched rep)) with false in S3 by lia.
  rewrite andb_false_r in S3. discriminate S3.
Qed.

(** *** Deliveries come to an end *)
Definition weight (n : Z) (m : message command) : Z :=
  match m with
  | AcceptReq _ _ _ _ _ => n + 2
  | AcceptReply _ _ _ => n + 1
  | _ => 1
  end.
Definition work (n : Z) (l : list (message command)) : Z := foldr (fun m z => weight n m + z) 0 l.

Lemma work_cons n m l : work n (m :: l) = weight n m + work n l.
Proof. reflexivity. Qed.

Lemma work_app n l k : work n (l ++ k) = work n l + work n k.
Proof. induction l as [|m l IH]; [reflexivity |]. cbn [app]. rewrite !work_cons. lia. Qed.

Lemma work_delete n l i m : l !! i = Some m -> work n l = weight n m + work n (delete i l).
Proof.
  intros Hm. rewrite <- (take_drop_middle l i m Hm) at 1. rewrite delete_take_drop, !work_app, work_cons. lia.
Qed.

Lemma work_decides n slot c k :
  work n ((fun r => DecideReq r slot 1 c) <$> k) = Z.of_nat (length (k : list nat)).
Proof. induction k as [|r k IH]; [reflexivity |]. rewrite fmap_cons, work_cons, IH. cbn [weight length]. lia. Qed.

Lemma work_nonneg n l : 0 <= n -> 0 <= work n l.
Proof. intros Hn. induction l as [|m l IH]; [done |]. rewrite work_cons. destruct m; cbn [weight]; lia. Qed.

Lemma reply_work s i slot c outs c' :
  inv s -> net s !! i = Some (AcceptReply slot ACCEPT 1) -> coords s !! slot = Some c ->
  AcceptAck ACCEPT 1 c = Some (outs, c') ->
  work (n_rep s) (send_all (length (replicas s)) outs) <= n_rep s.
Proof.
  intros Hinv Hm Ec. destruct (delivered_msg_ok _ _ _ Hinv Hm) as ([cmd HL] & _ & _).
  pose proof Hinv as (_ & Hn & _ & HC & _). specialize (HC slot). unfold coord_ok in HC. rewrite HL in HC.
  destruct HC as [(f & E & Hf & _)|[E _]]; rewrite E in Ec; injection Ec as <-.
  - rewrite ack_waiting by done. destruct (_ =? _); intros [= <- <-]; [|cbn; lia].
    unfold send_all. cbn [mbind list_bind app send]. rewrite app_nil_r, work_decides, length_seq.
    unfold n_rep. lia.
  - rewrite ack_finished. intros [= <- <-]. cbn. lia.
Qed.

(** Every delivery uses up work. *)
Lemma delivery_work s i s' :
  inv s -> perform (Network i) s = Some s' -> work (n_rep s) (net s') < work (n_rep s) (net s).
Proof.
  intros Hinv. cbn -[handle work]. destruct (net s !! i) as [m|] eqn:Hm; [cbn -[handle work] | discriminate].
  pose proof (delivered_msg_ok _ _ _ Hinv Hm) as Hok. rewrite (work_delete _ _ _ _ Hm).
  destruct m; try done; cbn -[OnAccept OnCommit AcceptAck work].
  - destruct (replicas s !! r); [cbn -[OnAccept work] | discriminate].
    destruct (OnAccept _ _ _ _) as [[]|]; [cbn -[work] | discriminate]. intros [= <-]. cbn [net put_replica remove_msg].
    rewrite work_app, work_cons. cbn. lia.
  - destruct Hok as (_ & -> & ->). unfold ack. cbn -[AcceptAck work].
    destruct (coords s !! slot) as [c|] eqn:Ec; [cbn -[AcceptAck work] | discriminate].
    destruct (AcceptAck _ _ _) as [[outs c']|] eqn:E; [cbn -[send_all work] | discriminate]. intros [= <-]. cbn -[send_all work].
    rewrite work_app. pose proof (reply_work _ _ _ _ _ _ Hinv Hm Ec E). lia.
  - destruct (replicas s !! r); [cbn -[OnCommit work] | discriminate].
    destruct (OnCommit _ _ _ _) as [[]|]; [cbn -[work] | discriminate]. intros [= <-].
    cbn [net put_replica remove_msg]. rewrite app_nil_r. lia.
Qed.

End Invariant.

(** ** The replicated log

    What the system promises: a log that the client extends, and for every
    replica the list of the commands it has executed, which grows by the next
    command of the log. *)
Section Spec.
Context {command : Type}.
#[local] Existing Instance null_frame.
Abbreviation ccmd := (ContainerCommand command).
Implicit Types (s : system command).

Record replicated_log := { spec_log : list ccmd; applied : list (list ccmd) }.

Inductive spec_step : replicated_log -> replicated_log -> Prop :=
  | spec_append l exs c :
      spec_step {| spec_log := l; applied := exs |} {| spec_log := l ++ [c]; applied := exs |}
  | spec_apply l exs r ex c :
      exs !! r = Some ex -> l !! length ex = Some c ->
      spec_step {| spec_log := l; applied := exs |}
                {| spec_log := l; applied := <[r := ex ++ [c]]> exs |}.

Definition abstract s : replicated_log :=
  {| spec_log := log s; applied := executed <$> replicas s |}.

Lemma apply_many l exs r ex cs :
  exs !! r = Some ex -> ex ++ cs `prefix_of` l ->
  rtc spec_step {| spec_log := l; applied := exs |}
      {| spec_log := l; applied := <[r := ex ++ cs]> exs |}.
Proof.
  revert exs ex. induction cs as [|c cs IH]; intros exs ex Hr Hp.
  - rewrite app_nil_r, list_insert_id by done. apply rtc_refl.
  - eapply rtc_l; [apply (spec_apply l exs r ex c Hr) |].
    + destruct Hp as [k ->]. rewrite <- app_assoc. now apply list_lookup_middle.
    + assert (E : ex ++ c :: cs = (ex ++ [c]) ++ cs) by now rewrite <- app_assoc.
      rewrite E in Hp |- *.
      rewrite <- (list_insert_insert_eq exs r ((ex ++ [c]) ++ cs) (ex ++ [c])).
      apply IH; [|done]. apply list_lookup_insert_eq. eapply lookup_lt_Some; eauto.
Qed.

Lemma same_executed s r rep rep' ms i :
  replicas s !! r = Some rep -> executed rep' = executed rep ->
  abstract (put_replica r rep' ms (remove_msg i s)) = abstract s.
Proof.
  intros Hr He. unfold abstract. cbn. f_equal. rewrite list_fmap_insert, He.
  apply list_insert_id. now rewrite list_lookup_fmap, Hr.
Qed.

Lemma perform_enabled {fr : Frame} a s s' : perform (frame_ := fr) a s = Some s' -> enabled a s.
Proof.
  destruct a as [x|i]; cbn -[handle]; [done |]. destruct (net s !! i) eqn:E; [|discriminate].
  intros _. eapply lookup_lt_Some; eauto.
Qed.

(** A step of the system is a sequence of steps of the replicated log. *)
Lemma perform_simulates a s s' :
  inv s -> slot_hint_ s < 2 ^ 64 - 1 -> perform a s = Some s' ->
  rtc spec_step (abstract s) (abstract s').
Proof.
  intros Hinv Hb Hp. destruct (inv_perform a s Hinv Hb (perform_enabled _ _ _ Hp)) as (s2 & E & Hi2).
  rewrite Hp in E. injection E as <-. destruct a as [x|i]; cbn -[handle] in Hp.
  - rewrite submit_eq in Hp by done. injection Hp as <-. apply rtc_once. constructor.
  - destruct (net s !! i) as [m|] eqn:Hm; [cbn -[handle] in Hp | discriminate].
    pose proof (delivered_msg_ok _ _ _ Hinv Hm) as Hok. destruct m; try done; cbn -[OnAccept OnCommit AcceptAck] in Hp.
    + destruct (replicas s !! r) as [rep|] eqn:Hr; [cbn -[OnAccept] in Hp | discriminate].
      destruct (OnAccept _ _ _ _) as [[]|]; [cbn in Hp | discriminate]. injection Hp as <-.
      now rewrite (same_executed s r rep).
    + unfold ack in Hp. cbn -[AcceptAck] in Hp.
      destruct (coords s !! slot); [cbn -[AcceptAck] in Hp | discriminate].
      destruct (AcceptAck _ _ _) as [[]|]; [cbn in Hp | discriminate]. injection Hp as <-. apply rtc_refl.
    + destruct (replicas s !! r) as [rep|] eqn:Hr; [cbn -[OnCommit] in Hp | discriminate].
      destruct (OnCommit _ _ _ _) as [[cs sc]|]; [cbn in Hp | discriminate]. injection Hp as <-.
      unfold abstract. cbn [replicas put_replica remove_msg]. rewrite list_fmap_insert.
      apply apply_many; [now rewrite list_lookup_fmap, Hr |]. cbn [log put_replica remove_msg].
      destruct Hi2 as (_ & _ & _ & _ & HR). edestruct (HR r) as (_ & R2 & _).
      { cbn. apply list_lookup_insert_eq. eapply lookup_lt_Some; eauto. }
      cbn in R2. rewrite R2. apply prefix_take.
Qed.

(** *** Deliveries only *)
Inductive deliveries : nat -> system command -> system command -> Prop :=
  | deliver_none s : deliveries 0 s s
  | deliver_one k s i s1 s2 :
      perform (Network i) s = Some s1 -> deliveries k s1 s2 -> deliveries (S k) s s2.

Lemma network_keeps i s s' :
  perform (Network i) s = Some s' -> log s' = log s.
Proof.
  cbn -[handle]. destruct (net s !! i) as [m|]; [cbn -[handle] | discriminate].
  destruct m; cbn -[OnPrepare OnAccept OnCommit PrepareAck AcceptAck].
  1, 3, 5: destruct (replicas s !! r); [cbn -[OnPrepare OnAccept OnCommit] | discriminate];
    match goal with |- (?o ≫= _) = _ -> _ => destruct o as [[]|] end; [cbn | discriminate];
    now intros [= <-].
  all: unfold ack; cbn -[PrepareAck AcceptAck]; destruct (coords s !! slot); [cbn -[PrepareAck AcceptAck] | discriminate];
    match goal with |- (?o ≫= _) = _ -> _ => destruct o as [[]|] end; [cbn | discriminate];
    now intros [= <-].
Qed.

Lemma deliveries_inv k s s' :
  deliveries k s s' -> inv s -> slot_hint_ s < 2 ^ 64 - 1 ->
  inv s' /\ log s' = log s /\ Z.of_nat k + work (n_rep s) (net s') <= work (n_rep s) (net s).
Proof.
  induction 1 as [s|k s i s1 s2 Hp Hd IH]; intros Hinv Hb; [split; [done | split; [done | lia]] |].
  destruct (inv_perform _ s Hinv Hb (perform_enabled _ _ _ Hp)) as (s3 & E & Hi).
  rewrite Hp in E. injection E as <-. pose proof (network_keeps _ _ _ Hp) as Hlog.
  pose proof (delivery_work _ _ _ Hinv Hp) as Hw. destruct (perform_grows _ _ _ Hp) as [_ Hl].
  destruct IH as (I1 & I2 & I3); [done | destruct Hi as [-> _], Hinv as [E _]; rewrite Hlog; lia |].
  unfold n_rep in *. rewrite Hl in I3. split; [done |]. split; [congruence | lia].
Qed.

(** Runs a sequence of actions. *)
Fixpoint run {frame_ : Frame} (acts : list (action (command := command))) (s : system command)
  : option (system command) :=
  match acts with
  | [] => Some s
  | a :: acts => s' ← perform (frame_ := frame_) a s; run (frame_ := frame_) acts s'
  end.

Lemma run_reachable {frame_ : Frame} n acts s s' :
  reachable (frame_ := frame_) n s -> run (frame_ := frame_) acts s = Some s' ->
  reachable (frame_ := frame_) n s'.
Proof.
  revert s. induction acts as [|a acts IH]; cbn -[perform]; intros s Hr; [now intros [= <-] |].
  destruct (perform a s) as [s1|] eqn:E; [cbn -[perform] | discriminate]. apply IH.
  eapply reach_step; eauto using perform_enabled.
Qed.
End Spec.

(** ** The theorems *)
Section Theorems.
Context {command : Type}.
#[local] Existing Instance null_frame.
Implicit Types (s : system command).

(** The partition is not empty and its size fits the coordinator's counter; fewer
    than 2^64 - 2 commands have been submitted. *)
Definition in_range (n : nat) s : Prop :=
  0 < Z.of_nat n < 2 ^ 32 /\ Z.of_nat (length (log s)) < 2 ^ 64 - 2.

(** With the frame that the scheduler expects: whatever the order in which the network delivers the messages,
    every replica of the partition has executed a prefix of the sequence of
    submitted commands, in the order of submission, so that of any two replicas
    one has executed a prefix of what the other has; and every executed slot was
    accepted by a majority of the replicas. *)
Theorem replicas_agree n s :
  reachable n s -> in_range n s ->
  forall r rep, replicas s !! r = Some rep ->
    executed rep `prefix_of` log s
    /\ forall i, 1 <= i <= Z.of_nat (length (executed rep)) -> Z.of_nat n < 2 * accepted_by s i.
Proof.
  intros Hreach [Hn Hb] r rep Hr. destruct (system_reachable_inv n s Hn Hreach Hb) as [Hinv Hl]. split.
  - destruct Hinv as (_ & _ & _ & _ & HR). destruct (HR _ _ Hr) as (_ & -> & _). apply prefix_take.
  - intros i Hi. rewrite <- Hl. apply chosen_majority; [done |]. eapply executed_chosen; eauto.
Qed.

(** With the frame that the scheduler expects no check of the protocol fails: in a reachable state the submission of a
    command at the leader and the delivery of any message succeed. *)
Theorem paxos_never_aborts n s a :
  reachable n s -> in_range n s -> enabled a s -> is_Some (perform a s).
Proof.
  intros Hreach [Hn Hb] Ha. destruct (system_reachable_inv n s Hn Hreach Hb) as [Hinv Hl].
  destruct (inv_perform a s Hinv) as (s' & -> & _); [destruct Hinv; lia | done | eauto].
Qed.

(** With the frame that the scheduler expects every step of the system is a sequence of steps of the
    replicated log, in which the client appends a command or a replica applies
    the next command of the log. *)
Theorem paxos_refines_log n s a s' :
  reachable n s -> in_range n s -> perform a s = Some s' ->
  rtc spec_step (abstract s) (abstract s').
Proof.
  intros Hreach [Hn Hb] Hp. destruct (system_reachable_inv n s Hn Hreach Hb) as [Hinv Hl].
  eapply perform_simulates; eauto. destruct Hinv. lia.
Qed.

(** With the frame that the scheduler expects: from a reachable state the network can deliver at most
    [work (n_rep s) (net s)] messages, in whatever order, before it is empty; and
    when it is empty every replica has executed every submitted command. *)
Theorem paxos_delivers_all n s k s' :
  reachable n s -> in_range n s -> deliveries k s s' ->
  Z.of_nat k <= work (n_rep s) (net s)
  /\ (net s' <> [] -> exists i, is_Some (perform (Network i) s'))
  /\ (net s' = [] -> forall r rep, replicas s' !! r = Some rep -> executed rep = log s).
Proof.
  intros Hreach [Hn Hb] Hd. destruct (system_reachable_inv n s Hn Hreach Hb) as [Hinv Hl].
  destruct (deliveries_inv k s s' Hd Hinv) as (I1 & I2 & I3); [destruct Hinv; lia |].
  split; [|split].
  - pose proof (work_nonneg (n_rep s) (net s')). unfold n_rep in *. lia.
  - intros Hne. destruct (net s') as [|m ms] eqn:E; [done |]. exists O.
    destruct (inv_perform (Network 0) s' I1) as (s2 & -> & _); [|cbn; rewrite E; cbn; lia | eauto].
    destruct I1 as [-> _]. rewrite I2. lia.
  - intros Hq r rep Hr. rewrite <- I2. eapply quiet_executed; eauto.
Qed.
End Theorems.

(** ** The system with the frame of the code *)
Section Code.
Context {command : Type}.
#[local] Existing Instance MultiPaxosFrame.
Implicit Types (s : system command).

Definition unused : replica command := {| rep_sched := MultiPaxosSched; executed := [] |}.

(** No replica has changed; the messages are the requests for the commands. *)
Definition only_requests s : Prop :=
  (forall r rep, replicas s !! r = Some rep -> rep = unused)
  /\ length (net s) = (length (replicas s) * length (log s))%nat
  /\ Forall (fun m => exists r slot cmd, m = AcceptReq r slot 1 cmd ACCEPT /\ is_Some (replicas s !! r)
                        /\ log_at (log s) slot = Some cmd) (net s).

Lemma only_requests_init n : only_requests (init n).
Proof.
  split; [|split; [cbn; lia | constructor]]. intros r rep [-> _]%lookup_replicate_1. reflexivity.
Qed.

(** A replica that gets a request needs an executor. *)
Lemma request_fails s i : only_requests s -> perform (Network i) s = None.
Proof.
  intros (HR & _ & HM). cbn -[handle]. destruct (net s !! i) as [m|] eqn:Hm; [|done].
  destruct (Forall_lookup_1 _ _ _ _ HM Hm) as (r & slot & cmd & -> & [rep Hr] & _).
  cbn -[OnAccept]. rewrite Hr. cbn -[OnAccept]. rewrite (HR _ _ Hr). unfold OnAccept, GetOrCreateExecutor.
  cbn -[CreateExecutor]. now rewrite no_executor_created.
Qed.

Lemma only_requests_submitted s cmd : only_requests s -> only_requests (submitted s cmd).
Proof.
  intros (HR & HN & HM). split; [exact HR |]. cbn [replicas log net submitted]. split.
  - rewrite !length_app, length_fmap, length_seq, HN. cbn. lia.
  - apply Forall_app. split.
    + eapply Forall_weaken; [exact HM |]. intros m (r & slot & c & -> & Hr & Hc).
      exists r, slot, c. auto using log_at_app.
    + apply Forall_forall. intros m (r & -> & Hr)%list_elem_of_fmap. apply elem_of_seq in Hr.
      exists r, (Z.of_nat (length (log s)) + 1), cmd. split; [done |].
      split; [apply lookup_lt_is_Some; lia |]. rewrite log_at_snoc. now destruct (decide _).
Qed.

Lemma code_reachable n s :
  0 < Z.of_nat n < 2 ^ 32 -> reachable n s -> Z.of_nat (length (log s)) < 2 ^ 64 - 2 ->
  inv s /\ only_requests s /\ length (replicas s) = n.
Proof.
  intros Hn. induction 1 as [|s a s' Hr IH Ha Hp]; intros Hb.
  { split; [now apply system_inv_init |]. split; [apply only_requests_init | apply length_replicate]. }
  destruct (perform_grows _ _ _ Hp) as [G1 _]. destruct IH as (Hi & Ho & Hlen); [lia |].
  destruct a as [x|i]; [|now rewrite request_fails in Hp].
  cbn in Hp. rewrite submit_eq in Hp by (done || (destruct Hi; lia)). injection Hp as <-.
  split; [now apply inv_submitted |]. split; [now apply only_requests_submitted | done].
Qed.

(** C21. Whatever the client has submitted, with the frame of the code every
    message in the network is an Accept request, one for every replica and
    submitted command, and its delivery aborts the replica, because it needs an
    executor and the factory of the frame writes through the null pointer it
    made; the leader accepts further commands, no replica has created an
    executor, acknowledged or executed anything. *)
Theorem paxos_accept_crashes n s :
  reachable n s -> in_range n s ->
  (forall x, is_Some (perform (Client x) s))
  /\ length (net s) = (n * length (log s))%nat
  /\ (forall i m, net s !! i = Some m ->
        (exists r slot cmd, m = AcceptReq r slot 1 cmd ACCEPT /\ (r < n)%nat /\ log_at (log s) slot = Some cmd)
        /\ perform (Network i) s = None)
  /\ (forall r rep, replicas s !! r = Some rep ->
        executors_ (rep_sched rep) = ∅ /\ max_executed_slot_ (rep_sched rep) = 0 /\ executed rep = []).
Proof.
  intros Hreach [Hn Hb]. destruct (code_reachable n s Hn Hreach Hb) as (Hi & Ho & Hl).
  split; [|split; [|split]].
  - intros x. cbn. rewrite submit_eq by (done || (destruct Hi; lia)). eauto.
  - destruct Ho as (_ & -> & _). now rewrite Hl.
  - intros i m Hm. split; [|now apply request_fails].
    destruct Ho as (_ & _ & HM). destruct (Forall_lookup_1 _ _ _ _ HM Hm) as (r & slot & cmd & -> & Hr & Hc).
    exists r, slot, cmd. apply lookup_lt_is_Some in Hr. rewrite Hl in Hr. auto.
  - intros r rep Hr. destruct Ho as (HR & _). now rewrite (HR _ _ Hr).
Qed.
End Code.

Definition crash_system : system Z :=
  default (init 3) (run (frame_ := MultiPaxosFrame) [Client 10; Client 20] (init 3)).

Lemma crash_reachable : reachable (frame_ := MultiPaxosFrame) 3 crash_system.
Proof.
  apply (run_reachable (frame_ := MultiPaxosFrame) 3 [Client 10; Client 20] (init 3)); [constructor |].
  vm_compute. reflexivity.
Qed.

Lemma paxos_accept_crashes_witness :
  length (net crash_system) = 6%nat /\ perform (frame_ := MultiPaxosFrame) (Network 4) crash_system = None
  /\ is_Some (perform (frame_ := MultiPaxosFrame) (Client 30) crash_system).
Proof.
  assert (Hr : in_range 3 crash_system) by (split; vm_compute; split; congruence).
  destruct (paxos_accept_crashes 3 crash_system crash_reachable Hr) as (H1 & H2 & H3 & _).
  split; [exact H2 |]. split; [|apply H1].
  destruct (net crash_system !! 4%nat) as [m|] eqn:E; [|vm_compute in E; discriminate].
  exact (proj2 (H3 4%nat m E)).
Defined.

#[local] Existing Instance null_frame.

(** Three replicas, two commands, the messages of the second one first. *)
Definition example_schedule : list (action (command := Z)) :=
  [Client 10; Client 20; Network 3; Network 3; Network 4; Network 4; Network 4;
   Network 0; Network 0; Network 4; Network 4; Network 4].

Definition example_state : option (system Z) := run example_schedule (init 3).
Definition example_system : system Z := default (init 3) example_state.

Lemma example_reachable : reachable 3 example_system.
Proof.
  apply (run_reachable 3 example_schedule (init 3)); [constructor |]. vm_compute. reflexivity.
Qed.

Lemma example_in_range : in_range 3 example_system.
Proof. split; vm_compute; split; congruence. Qed.

(** The remaining messages, delivered in order. *)
Definition example_end : system Z :=
  default (init 3) (run (replicate 8 (Network 0)) example_system).

Lemma run_deliveries k (s s' : system Z) :
  run (replicate k (Network 0)) s = Some s' -> deliveries k s s'.
Proof.
  revert s. induction k as [|k IH]; intros s; cbn -[perform]; [intros [= <-]; constructor |].
  destruct (perform (Network 0) s) as [s1|] eqn:E; [cbn -[perform] | discriminate].
  intros Hr. econstructor; eauto.
Qed.

Lemma replicas_agree_witness :
  exists rep, replicas example_system !! 0%nat = Some rep /\ length (executed rep) = 2%nat
    /\ executed rep `prefix_of` log example_system /\ 3 < 2 * accepted_by example_system 2.
Proof.
  eexists. split; [vm_compute; reflexivity |]. split; [reflexivity |].
  refine ((fun H => conj (proj1 H) (proj2 H 2 _))
    (replicas_agree 3 example_system example_reachable example_in_range 0 _ _)).
  - vm_compute. split; congruence.
  - vm_compute. reflexivity.
Defined.

Lemma paxos_never_aborts_witness : is_Some (perform (Network 4) example_system).
Proof.
  apply (paxos_never_aborts 3); [exact example_reachable | exact example_in_range |].
  vm_compute. repeat constructor.
Defined.

Lemma paxos_refines_log_witness :
  exists s', perform (Network 4) example_system = Some s'
    /\ rtc spec_step (abstract example_system) (abstract s').
Proof.
  destruct (perform (Network 4) example_system) as [s'|] eqn:E; [|vm_compute in E; discriminate].
  exists s'. split; [reflexivity |].
  exact (paxos_refines_log 3 _ (Network 4) s' example_reachable example_in_range E).
Defined.

Lemma paxos_delivers_all_witness :
  8 <= work (n_rep example_system) (net example_system) /\ net example_end = []
  /\ exists rep, replicas example_end !! 2%nat = Some rep /\ executed rep = log example_system.
Proof.
  assert (Hd : deliveries 8 example_system example_end)
    by (apply run_deliveries; vm_compute; reflexivity).
  assert (Hq : net example_end = []) by (vm_compute; reflexivity).
  destruct (paxos_delivers_all 3 _ 8 _ example_reachable example_in_range Hd) as (H1 & _ & H3).
  split; [exact H1 |]. split; [exact Hq |]. eexists. split; [vm_compute; reflexivity |].
  apply (H3 Hq 2%nat). vm_compute. reflexivity.
Defined.
