(* ===== verification/Multimap.v ===== *)
(** * Ordered multimaps

    [std::multimap] as the memdb containers use it: the list of the entries in
    key order, entries with equivalent keys in the order of their insertion.
    Keys are compared with the strict weak order [comp] only.  An iterator is a
    position of the list. *)

From Stdlib Require Import Sorting.Sorted Bool Lia.
From stdpp Require Import base list option sets.
From S2P Require Import Prelude PamOrder.

Section Multimap.
Context {K : Type} `{KeyOrderLaws K} {V : Type}.
Implicit Types (l : list (K * V)) (e : K * V) (k : K).

(** [insert] puts the entry at the upper bound of its key. *)
Fixpoint mm_insert k (x : V) l : list (K * V) :=
  match l with
  | [] => [(k, x)]
  | e :: l' => if comp k e.1 then (k, x) :: l else e :: mm_insert k x l'
  end.

(** The number of leading entries that satisfy [f]. *)
Fixpoint leading {A} (f : A -> bool) (l : list A) : nat :=
  match l with
  | [] => 0
  | e :: l' => if f e then S (leading f l') else 0
  end.

Definition lower_bound k l : nat := leading (fun e => comp e.1 k) l.
Definition upper_bound k l : nat := leading (fun e => negb (comp k e.1)) l.

(** The entries between two positions. *)
Definition segment {A} (lo hi : nat) (l : list A) : list A := drop lo (take hi l).
Definition equal_range k l : list (K * V) := segment (lower_bound k l) (upper_bound k l) l.

(** [erase(begin, end)] *)
Definition erase_segment {A} (lo hi : nat) (l : list A) : list A := take lo l ++ drop hi l.

Definition mm_le e1 e2 : Prop := comp e2.1 e1.1 = false.
Definition mm_sorted l : Prop := StronglySorted mm_le l.

Lemma comp_false_trans (a b c : K) : comp b a = false -> comp c b = false -> comp c a = false.
Proof using All.
  intros Hab Hbc. destruct (comp c a) eqn:E; [|done]. destruct (comp_cotrans c b a E); congruence.
Qed.

(** The two bounds split a sorted list in entries below, at and above the key. *)
Lemma bounds_split k l :
  mm_sorted l ->
  exists l1 l2 l3, l = l1 ++ l2 ++ l3
    /\ lower_bound k l = length l1 /\ upper_bound k l = length (l1 ++ l2)
    /\ Forall (fun e => comp e.1 k = true) l1 /\ Forall (fun e => keq e.1 k = true) l2
    /\ Forall (fun e => comp k e.1 = true) l3.
Proof using All.
  induction 1 as [|e l Hs IH He]; [exists [], [], []; repeat split; constructor |].
  destruct IH as (l1 & l2 & l3 & -> & L & U & F1 & F2 & F3).
  unfold lower_bound, upper_bound in *. cbn [leading].
  destruct (key_cases e.1 k) as [[(E1 & E2 & E3)|(E1 & E2 & E3)]|(E1 & E2 & E3)]; rewrite E1, E2; cbn [negb].
  - exists (e :: l1), l2, l3. cbn. rewrite L, U. repeat split; auto.
  - apply Forall_app in He as [G1 [G2 G3]%Forall_app].
    assert (l1 = []) as ->.
    { destruct l1 as [|a l1]; [done |]. apply Forall_cons_iff in F1 as [Fa _]. apply Forall_cons_iff in G1 as [Ga _].
      pose proof (comp_trans a.1 k e.1 Fa E2). unfold mm_le in Ga. congruence. }
    assert (l2 = []) as ->.
    { destruct l2 as [|a l2]; [done |]. apply Forall_cons_iff in F2 as [Fa _]. apply Forall_cons_iff in G2 as [Ga _].
      pose proof (comp_keq_l a.1 k e.1 Fa E2). unfold mm_le in Ga. congruence. }
    exists [], [], (e :: l3). cbn. auto 10.
  - apply Forall_app in He as [G1 G2]. assert (l1 = []) as ->.
    { destruct l1 as [|a l1]; [done |]. apply Forall_cons_iff in F1 as [Fa _]. apply Forall_cons_iff in G1 as [Ga _].
      rewrite keq_sym in E3. pose proof (comp_keq_r a.1 k e.1 Fa E3). unfold mm_le in Ga. congruence. }
    exists [], (e :: l2), l3. cbn in *. rewrite U. repeat split; auto.
Qed.

Lemma segment_middle {A} (l1 l2 l3 : list A) :
  segment (length l1) (length (l1 ++ l2)) (l1 ++ l2 ++ l3) = l2.
Proof. unfold segment. rewrite app_assoc, take_app_length, drop_app_length. reflexivity. Qed.

Lemma erase_segment_middle {A} (l1 l2 l3 : list A) :
  erase_segment (length l1) (length (l1 ++ l2)) (l1 ++ l2 ++ l3) = l1 ++ l3.
Proof. unfold erase_segment. rewrite take_app_length, app_assoc, drop_app_length. reflexivity. Qed.

Lemma filter_keq_split k (l1 l2 l3 : list (K * V)) :
  Forall (fun e => comp e.1 k = true) l1 -> Forall (fun e => keq e.1 k = true) l2 ->
  Forall (fun e => comp k e.1 = true) l3 ->
  List.filter (fun e => keq e.1 k) (l1 ++ l2 ++ l3) = l2
  /\ List.filter (fun e => negb (keq e.1 k)) (l1 ++ l2 ++ l3) = l1 ++ l3.
Proof using All.
  intros F1 F2 F3.
  assert (N1 : Forall (fun e => keq e.1 k = false) l1).
  { eapply Forall_weaken; [exact F1 |]. intros x Hx. now apply comp_not_keq. }
  assert (N3 : Forall (fun e => keq e.1 k = false) l3).
  { eapply Forall_weaken; [exact F3 |]. intros x Hx. now apply comp_not_keq'. }
  rewrite !List.filter_app. split.
  - rewrite (filter_none _ l1 N1), (filter_all _ l2 F2), (filter_none _ l3 N3). cbn. apply app_nil_r.
  - rewrite (filter_all _ l1), (filter_none _ l2), (filter_all _ l3); [reflexivity | | |];
      (eapply Forall_weaken; [eassumption |]); cbn; intros x ->; reflexivity.
Qed.

(** [equal_range] holds the entries with the key, and erasing it leaves the others. *)
Lemma equal_range_filter k l :
  mm_sorted l -> equal_range k l = List.filter (fun e => keq e.1 k) l.
Proof using All.
  intros (l1 & l2 & l3 & -> & L & U & F1 & F2 & F3)%(bounds_split k).
  unfold equal_range. rewrite L, U, segment_middle. symmetry. now apply filter_keq_split.
Qed.

Lemma erase_range_filter k l :
  mm_sorted l ->
  erase_segment (lower_bound k l) (upper_bound k l) l = List.filter (fun e => negb (keq e.1 k)) l.
Proof using All.
  intros (l1 & l2 & l3 & -> & L & U & F1 & F2 & F3)%(bounds_split k).
  rewrite L, U, erase_segment_middle. symmetry. now apply filter_keq_split.
Qed.

(** [begin() .. lower_bound] and [upper_bound .. end()]. *)
Lemma below_filter k l : mm_sorted l -> take (lower_bound k l) l = List.filter (fun e => comp e.1 k) l.
Proof using All.
  intros (l1 & l2 & l3 & -> & L & U & F1 & F2 & F3)%(bounds_split k). rewrite L, take_app_length.
  rewrite !List.filter_app, (filter_all _ l1 F1), (filter_none _ l2), (filter_none _ l3); [now rewrite app_nil_r | |].
  - eapply Forall_weaken; [exact F3 |]. intros x Hx. now apply comp_asym.
  - eapply Forall_weaken; [exact F2 |]. intros x Hx. now apply keq_spec in Hx.
Qed.

Lemma above_filter k l : mm_sorted l -> drop (upper_bound k l) l = List.filter (fun e => comp k e.1) l.
Proof using All.
  intros (l1 & l2 & l3 & -> & L & U & F1 & F2 & F3)%(bounds_split k).
  rewrite U, app_assoc, drop_app_length.
  rewrite !List.filter_app, (filter_none _ l1), (filter_none _ l2), (filter_all _ l3 F3); [done | |].
  - eapply Forall_weaken; [exact F2 |]. intros x Hx. now apply keq_spec in Hx.
  - eapply Forall_weaken; [exact F1 |]. intros x Hx. now apply comp_asym.
Qed.

Lemma mm_sorted_filter (f : K * V -> bool) l : mm_sorted l -> mm_sorted (List.filter f l).
Proof.
  induction 1 as [|e l Hs IH He]; cbn; [constructor |].
  destruct (f e); [|exact IH]. constructor; [exact IH | now apply Forall_filter].
Qed.

Lemma leading_take {A} (f : A -> bool) n (xs : list A) : leading f (take n xs) = Nat.min n (leading f xs).
Proof.
  revert n. induction xs as [|x xs IH]; intros [|n]; cbn; [lia | lia | lia |].
  destruct (f x); [|lia]. rewrite IH. lia.
Qed.

Lemma leading_mono {A} (f g : A -> bool) (xs : list A) :
  (forall x, f x = true -> g x = true) -> (leading f xs <= leading g xs)%nat.
Proof.
  intros Hfg. induction xs as [|x xs IH]; cbn; [lia |]. destruct (f x) eqn:E; [|lia]. rewrite Hfg by done. lia.
Qed.

Lemma filter_and {A} (f g : A -> bool) (xs : list A) :
  List.filter f (List.filter g xs) = List.filter (fun x => f x && g x) xs.
Proof.
  induction xs as [|x xs IH]; cbn; [done |].
  destruct (f x) eqn:Ef, (g x) eqn:Eg; cbn; rewrite ?Ef, ?Eg, ?IH; done.
Qed.

(** [upper_bound(low) .. lower_bound(high)] *)
Lemma between_filter low high l :
  mm_sorted l -> comp low high = true ->
  segment (upper_bound low l) (lower_bound high l) l =
  List.filter (fun e => comp low e.1 && comp e.1 high) l.
Proof using All.
  intros Hs Hlh. unfold segment.
  assert (Hle : (upper_bound low l <= lower_bound high l)%nat).
  { apply leading_mono. intros e He. apply negb_true_iff in He. destruct (comp_cotrans low e.1 high Hlh); congruence. }
  assert (Hu : upper_bound low (take (lower_bound high l) l) = upper_bound low l).
  { unfold upper_bound at 1. rewrite leading_take. fold (upper_bound low l). lia. }
  rewrite <- Hu. rewrite below_filter by done. rewrite above_filter by now apply mm_sorted_filter.
  apply filter_and.
Qed.

Lemma elem_mm_insert k x l e : e ∈ mm_insert k x l <-> e = (k, x) \/ e ∈ l.
Proof.
  induction l as [|a l IH]; cbn; [rewrite list_elem_of_singleton; set_solver |].
  destruct (comp k a.1); rewrite !elem_of_cons; [tauto |]. rewrite IH. tauto.
Qed.

Lemma mm_insert_perm k x l : mm_insert k x l ≡ₚ (k, x) :: l.
Proof.
  induction l as [|a l IH]; cbn; [done |]. destruct (comp k a.1); [done |]. rewrite IH. apply Permutation_swap.
Qed.

Lemma mm_insert_sorted k x l : mm_sorted l -> mm_sorted (mm_insert k x l).
Proof using All.
  induction 1 as [|e l Hs IH He]; cbn; [repeat constructor |]. destruct (comp k e.1) eqn:E.
  - constructor; [now constructor |]. constructor; [now apply comp_asym |].
    eapply Forall_weaken; [exact He |]. intros a Ha. unfold mm_le in *. cbn.
    eapply comp_false_trans; [|exact Ha]. now apply comp_asym.
  - constructor; [exact IH |]. apply Forall_forall. intros a [->|Ha]%elem_mm_insert; [exact E |].
    eapply Forall_forall in He; eauto.
Qed.

Lemma mm_insert_low k x l : Forall (fun e => comp k e.1 = true) l -> mm_insert k x l = (k, x) :: l.
Proof. destruct 1 as [|e l He _]; cbn; [done | now rewrite He]. Qed.

(** Inserting commutes with hiding other entries. *)
Lemma mm_insert_filter (f : K * V -> bool) k x l :
  mm_sorted l ->
  List.filter f (mm_insert k x l) =
  if f (k, x) then mm_insert k x (List.filter f l) else List.filter f l.
Proof using All.
  induction 1 as [|e l Hs IH He]; cbn; [reflexivity |]. destruct (comp k e.1) eqn:E; cbn.
  - destruct (f (k, x)) eqn:Fx; [|done]. destruct (f e); cbn; [now rewrite E |].
    symmetry. apply mm_insert_low, Forall_filter. eapply Forall_weaken; [exact He |]. intros a Ha.
    unfold mm_le in Ha. destruct (comp_cotrans k a.1 e.1 E); [done | congruence].
  - rewrite IH. destruct (f e), (f (k, x)); cbn; rewrite ?E; reflexivity.
Qed.

Lemma mm_sorted_app l1 l2 :
  mm_sorted (l1 ++ l2) <-> mm_sorted l1 /\ mm_sorted l2 /\ forall a b, a ∈ l1 -> b ∈ l2 -> mm_le a b.
Proof.
  induction l1 as [|e l1 IH]; cbn; [split; [intros; repeat split; [constructor | done | set_solver] | tauto] |].
  split.
  - intros [Hs He]%StronglySorted_inv. apply IH in Hs as (A & B & C). apply Forall_app in He as [He1 He2].
    split; [now constructor |]. split; [done |]. intros a b [->|Ha]%elem_of_cons Hb; [|eauto].
    eapply Forall_forall in He2; eauto.
  - intros ([Hs He]%StronglySorted_inv & B & C). constructor; [apply IH; split; [done |]; split; [done |]; set_solver |].
    apply Forall_app. split; [done |]. apply Forall_forall. intros b Hb. apply C; set_solver.
Qed.

Lemma mm_sorted_sub l l' : l `sublist_of` l' -> mm_sorted l' -> mm_sorted l.
Proof. apply StronglySorted_sub. Qed.
End Multimap.

(** Values play no role in the order. *)
Lemma mm_insert_fmap {K V W} `{KeyOrder K} (f : V -> W) (k : K) (x : V) (l : list (K * V)) :
  prod_map id f <$> mm_insert k x l = mm_insert k (f x) (prod_map id f <$> l).
Proof.
  induction l as [|e l IH]; [reflexivity |]. cbn [mm_insert]. rewrite fmap_cons. cbn [mm_insert].
  change (prod_map id f e).1 with e.1. destruct (comp k e.1); [reflexivity |]. now rewrite fmap_cons, IH.
Qed.

Lemma mm_sorted_fmap {K V W} `{KeyOrder K} (f : V -> W) (l : list (K * V)) :
  mm_sorted (prod_map id f <$> l) <-> mm_sorted l.
Proof.
  induction l as [|e l IH]; [split; constructor |]. rewrite fmap_cons.
  split; intros [Hs He]%StronglySorted_inv; (constructor; [now apply IH |]).
  - apply (proj1 (Forall_fmap _ _ _)) in He. exact He.
  - apply Forall_fmap. exact He.
Qed.
