(* ===== verification/SnapshotMap.v ===== *)
(** * Snapshot maps

    memdb/snapshot.h: [snapshot_sortedmap], an ordered multimap of which read-only
    snapshots can be taken.  The map and its snapshots form a group that shares
    one [std::multimap] of versioned values and at most one writer.

    A map object is an address; a group holds the shared data, the writer and the
    doubly linked ring of its members with their versions [ver_], read from its
    first element.  [version_t] is an unsigned 64-bit integer and its value -1 is
    [NEVER].  The assertions of the file are compiled out (wscript defines
    NDEBUG).  Reference counts are not modelled: the group is released with its
    last member. *)

From Stdlib Require Import ZArith Lia Bool Sorting.Sorted.
From stdpp Require Import base list option sets.
From S2P Require Import Prelude PamOrder ALock Multimap.
Local Open Scope Z_scope.

Module SnapshotMap.

(** [version_t(-1)] *)
Definition NEVER : Z := wrap 64 (-1).

Section Definitions.
Context {K : Type} `{KeyOrder K} {V : Type}.

Record versioned_value := { created_at : Z; removed_at : Z; val : V }.

Definition new_value (created : Z) (v : V) : versioned_value :=
  {| created_at := created; removed_at := NEVER; val := v |}.

Definition valid_at (v : Z) (vv : versioned_value) : bool :=
  (created_at vv <=? v) && ((removed_at vv =? NEVER) || (v <? removed_at vv)).

Definition vv_remove (v : Z) (vv : versioned_value) : versioned_value :=
  {| created_at := created_at vv; removed_at := v; val := val vv |}.

Abbreviation entry := (K * versioned_value)%type.

(** ** Ranges *)
Record snapshot_range := {
  r_version : Z;
  r_all : list entry;       (* begin_ .. end_ *)
  r_next : list entry;      (* next_ .. end_ *)
  cached_next_ : option (K * V);
  count_ : Z }.

Definition new_range (v : Z) (l : list entry) : snapshot_range :=
  {| r_version := v; r_all := l; r_next := l; cached_next_ := None; count_ := -1 |}.

(** The loop of [prefetch_next]. *)
Fixpoint prefetch (v : Z) (l : list entry) : option (K * V) * list entry :=
  match l with
  | [] => (None, [])
  | e :: l => if valid_at v e.2 then (Some (e.1, val e.2), l) else prefetch v l
  end.

Definition prefetch_next (r : snapshot_range) : bool * snapshot_range :=
  let '(c, l) := prefetch (r_version r) (r_next r) in
  (bool_decide (is_Some c),
   {| r_version := r_version r; r_all := r_all r; r_next := l; cached_next_ := c; count_ := count_ r |}).

Definition has_next (r : snapshot_range) : bool * snapshot_range :=
  match cached_next_ r with
  | Some _ => (true, r)
  | None => prefetch_next r
  end.

Definition next (r : snapshot_range) : option ((K * V) * snapshot_range) :=
  let r := match cached_next_ r with Some _ => r | None => (prefetch_next r).2 end in
  kv ← cached_next_ r;
  Some (kv, {| r_version := r_version r; r_all := r_all r; r_next := r_next r;
               cached_next_ := None; count_ := count_ r |}).

Definition range_count (r : snapshot_range) : Z * snapshot_range :=
  if 0 <=? count_ r then (count_ r, r)
  else
    let n := Z.of_nat (length (List.filter (fun e => valid_at (r_version r) e.2) (r_all r))) in
    (n, {| r_version := r_version r; r_all := r_all r; r_next := r_next r;
           cached_next_ := cached_next_ r; count_ := n |}).

(** [while (range.has_next()) range.next()], with the size of the range as fuel. *)
Fixpoint drain (fuel : nat) (r : snapshot_range) : option (list (K * V)) :=
  let '(more, r) := has_next r in
  if (more : bool) then
    match fuel with
    | O => None
    | S fuel => '(kv, r) ← next r; kvs ← drain fuel r; Some (kv :: kvs)
    end
  else Some [].

(** ** Groups *)
Record group := {
  data : list entry;
  writer : option Z;
  gc_insert_counter : Z;
  gc_erase_counter : Z;
  ring : list (Z * Z) }.    (* members and their ver_ *)

(** A new map, the writer of a group of its own. *)
Definition new_map (id : Z) : group :=
  {| data := []; writer := Some id; gc_insert_counter := 0; gc_erase_counter := 0;
     ring := [(id, 0)] |}.

Fixpoint ring_ver (id : Z) (l : list (Z * Z)) : option Z :=
  match l with
  | [] => None
  | (i, v) :: l => if i =? id then Some v else ring_ver id l
  end.
Definition version (id : Z) (g : group) : option Z := ring_ver id (ring g).

Definition writable (id : Z) (g : group) : bool := bool_decide (writer g = Some id).
Definition readonly (id : Z) (g : group) : bool := negb (writable id g).

(** The member before [id] in [l], where [p] is before the first one. *)
Fixpoint pred_in (p id : Z) (l : list (Z * Z)) : option Z :=
  match l with
  | [] => None
  | (i, _) :: l => if i =? id then Some p else pred_in i id l
  end.
Definition prev_ (id : Z) (g : group) : option Z :=
  z ← list.last (ring g); pred_in z.1 id (ring g).

Definition has_readonly_snapshot (id : Z) (g : group) : option bool :=
  if readonly id g then Some true
  else p ← prev_ id g; Some (readonly p g).

Definition has_writable_snapshot (g : group) : bool := bool_decide (is_Some (writer g)).
Definition snapshot_count (g : group) : Z := Z.of_nat (length (ring g)).

Definition set_ver (id v : Z) (l : list (Z * Z)) : list (Z * Z) :=
  (fun m => if m.1 =? id then (id, v) else m) <$> l.

(** The writer moves to the next version. *)
Definition next_version (id : Z) (g : group) : option (Z * Z * group) :=
  _ ← verify (writable id g);
  orig_ver ← version id g;
  let ver := wrap 64 (orig_ver + 1) in
  Some (orig_ver, ver,
        {| data := data g; writer := writer g; gc_insert_counter := gc_insert_counter g;
           gc_erase_counter := gc_erase_counter g; ring := set_ver id ver (ring g) |}).

Definition with_data (d : list entry) (ins er : Z) (g : group) : group :=
  {| data := d; writer := writer g; gc_insert_counter := wrap 64 (gc_insert_counter g + ins);
     gc_erase_counter := wrap 64 (gc_erase_counter g + er); ring := ring g |}.

Definition insert (id : Z) (key : K) (value : V) (g : group) : option group :=
  '(_, ver, g) ← next_version id g;
  Some (with_data (mm_insert key (new_value ver value) (data g)) 1 0 g).

(** [insert(begin, end)] and [insert(range)]: one version for all items. *)
Definition insert_items (id : Z) (items : list (K * V)) (g : group) : option group :=
  '(_, ver, g) ← next_version id g;
  Some (with_data (fold_left (fun d kv => mm_insert kv.1 (new_value ver kv.2) d) items (data g))
                  (Z.of_nat (length items)) 0 g).

(** The marking loop of [erase]: visible entries that satisfy [p] are removed at
    [ver], only the first one if [first_only]; the number of marked entries. *)
Fixpoint mark (p : K * V -> bool) (first_only : bool) (orig_ver ver : Z) (l : list entry)
  : list entry * Z :=
  match l with
  | [] => ([], 0)
  | e :: l =>
      if valid_at orig_ver e.2 && p (e.1, val e.2) then
        let e' := (e.1, vv_remove ver e.2) in
        if first_only then (e' :: l, 1)
        else let '(l, n) := mark p first_only orig_ver ver l in (e' :: l, n + 1)
      else let '(l, n) := mark p first_only orig_ver ver l in (e :: l, n)
  end.

(** Marks in the entries between two positions. *)
Definition mark_segment (p : K * V -> bool) (first_only : bool) (orig_ver ver : Z)
    (lo hi : nat) (d : list entry) : list entry * Z :=
  let '(seg, n) := mark p first_only orig_ver ver (segment lo hi d) in
  (take lo d ++ seg ++ drop hi d, n).

Definition erase (id : Z) (key : K) (first_match_only : bool) (g : group) : option group :=
  '(orig_ver, ver, g) ← next_version id g;
  ro ← has_readonly_snapshot id g;
  let lo := lower_bound key (data g) in
  let hi := upper_bound key (data g) in
  if (ro : bool) then
    let '(d, n) := mark_segment (fun _ => true) first_match_only orig_ver ver lo hi (data g) in
    Some (with_data d 0 n g)
  else if first_match_only then
    _ ← data g !! lo; (* erasing end() is undefined *)
    Some (with_data (delete lo (data g)) 0 0 g)
  else Some (with_data (erase_segment lo hi (data g)) 0 0 g).

(** Erases the entries of a segment that hold [value], only the first one if
    [first_only]. *)
Fixpoint drop_value (eqV : V -> V -> bool) (value : V) (first_only : bool) (l : list entry)
  : list entry :=
  match l with
  | [] => []
  | e :: l =>
      if eqV value (val e.2)
      then if first_only then l else drop_value eqV value first_only l
      else e :: drop_value eqV value first_only l
  end.

Definition erase_value (eqV : V -> V -> bool) (id : Z) (key : K) (value : V)
    (first_match_only : bool) (g : group) : option group :=
  '(orig_ver, ver, g) ← next_version id g;
  ro ← has_readonly_snapshot id g;
  let lo := lower_bound key (data g) in
  let hi := upper_bound key (data g) in
  if (ro : bool) then
    let '(d, n) := mark_segment (fun kv => eqV value kv.2) first_match_only orig_ver ver lo hi (data g) in
    Some (with_data d 0 n g)
  else
    Some (with_data (take lo (data g) ++
                     drop_value eqV value first_match_only (segment lo hi (data g)) ++
                     drop hi (data g)) 0 0 g).

(** [erase(range)], for a range between two positions; the counters are not
    advanced. *)
Definition erase_range (id : Z) (lo hi : nat) (g : group) : option group :=
  '(orig_ver, ver, g) ← next_version id g;
  ro ← has_readonly_snapshot id g;
  if (ro : bool) then
    Some (with_data (mark_segment (fun _ => true) false orig_ver ver lo hi (data g)).1 0 0 g)
  else Some (with_data (erase_segment lo hi (data g)) 0 0 g).

(** *** Snapshots *)

(** Puts a member to the left of [src]. *)
Fixpoint put_left (src : Z) (m : Z * Z) (l : list (Z * Z)) : list (Z * Z) :=
  match l with
  | [] => []
  | e :: l => if e.1 =? src then m :: e :: l else e :: put_left src m l
  end.

Definition make_me_snapshot_of (id src : Z) (g : group) : option group :=
  ver ← version src g;
  let reset := writable src g in
  Some {| data := data g; writer := writer g;
          gc_insert_counter := if reset then 0 else gc_insert_counter g;
          gc_erase_counter := if reset then 0 else gc_erase_counter g;
          ring := put_left src (id, ver) (ring g) |}.

(** [gc_run]: the walk around the ring collects the least version, and, as
    [ver_high] starts at [version_t(-1)], no greater one. *)
Definition gc_bounds (l : list (Z * Z)) (ver : Z) : Z * Z :=
  fold_left (fun b m => (if m.2 <? b.1 then m.2 else b.1, if b.2 <? m.2 then m.2 else b.2))
            l (ver, NEVER).

Definition collectable (b : Z * Z) (vv : versioned_value) : bool :=
  (b.2 <? created_at vv) || (negb (removed_at vv =? NEVER) && (removed_at vv <? b.1)).

Definition gc_run (id : Z) (g : group) : option group :=
  ver ← version id g;
  let b := gc_bounds (ring g) ver in
  Some {| data := List.filter (fun e => negb (collectable b e.2)) (data g); writer := writer g;
          gc_insert_counter := 0; gc_erase_counter := 0; ring := ring g |}.

Definition gc_size (g : group) : Z := Z.of_nat (length (data g)).
Definition gc_counter (g : group) : Z := wrap 64 (gc_insert_counter g + gc_erase_counter g).

(** [destroy_me]: the group that is left, if any. *)
Definition destroy_me (id : Z) (g : group) : option (option group) :=
  let auto_gc := writable id g && (16 <=? gc_counter g) && (gc_size g / 2 <=? gc_counter g) in
  let g' := {| data := data g; writer := if writable id g then None else writer g;
               gc_insert_counter := gc_insert_counter g; gc_erase_counter := gc_erase_counter g;
               ring := List.filter (fun m => negb (m.1 =? id)) (ring g) |} in
  match ring g' with
  | [] => Some None
  | m :: _ => if auto_gc then g'' ← gc_run m.1 g'; Some (Some g'') else Some (Some g')
  end.

(** *** Queries: a snapshot for the range, and the entries between two bounds. *)
Definition range_between (id tmp : Z) (lo hi : nat) (reverse : bool) (g : group)
  : option (snapshot_range * group) :=
  g' ← make_me_snapshot_of tmp id g;
  ver ← version tmp g';
  let seg := segment lo hi (data g') in
  Some (new_range ver (if reverse then rev seg else seg), g').

Definition all (id tmp : Z) (reverse : bool) (g : group) :=
  range_between id tmp 0 (length (data g)) reverse g.
Definition query (id tmp : Z) (key : K) (reverse : bool) (g : group) :=
  range_between id tmp (lower_bound key (data g)) (upper_bound key (data g)) reverse g.
Definition query_lt (id tmp : Z) (key : K) (reverse : bool) (g : group) :=
  range_between id tmp 0 (lower_bound key (data g)) reverse g.
Definition query_gt (id tmp : Z) (key : K) (reverse : bool) (g : group) :=
  range_between id tmp (upper_bound key (data g)) (length (data g)) reverse g.
Definition query_in (id tmp : Z) (low high : K) (reverse : bool) (g : group) :=
  range_between id tmp (upper_bound low (data g)) (lower_bound high (data g)) reverse g.

(** Copying (by construction or by assignment): a copy of a read-only snapshot
    joins its group, a copy of a writer is a new map with the items of the
    source, which are enumerated through the temporary snapshot [tmp]. *)
Definition copy_map (id src tmp : Z) (g : group) : option (option group * group) :=
  if readonly src g then g' ← make_me_snapshot_of id src g; Some (None, g')
  else
    '(r, g') ← all src tmp false g;
    items ← drain (length (r_all r)) r;
    copy ← insert_items id items (new_map id);
    rest ← destroy_me tmp g';
    g'' ← rest;
    Some (Some copy, g'').
End Definitions.
Arguments versioned_value : clear implicits.
Arguments snapshot_range : clear implicits.
Arguments group : clear implicits.

(** ** What a member sees *)
Section Views.
Context {K : Type} `{KeyOrderLaws K} {V : Type}.
Implicit Types (d : list (K * versioned_value V)) (g : group K V).

Definition reveal (e : K * versioned_value V) : K * V := (e.1, val e.2).

(** The entries visible at version [v], in key order. *)
Definition view (v : Z) d : list (K * V) := reveal <$> List.filter (fun e => valid_at v e.2) d.

Definition view_of g (id : Z) : option (list (K * V)) := v ← version id g; Some (view v (data g)).

(** All versions in [d] are at most [v]. *)
Definition settled (v : Z) (vv : versioned_value V) : Prop :=
  created_at vv <= v /\ (removed_at vv = NEVER \/ removed_at vv <= v).

Lemma never_eq : NEVER = 2 ^ 64 - 1.
Proof. reflexivity. Qed.

Lemma settled_valid v v' vv :
  settled v vv -> v <= v' < NEVER -> valid_at v' vv = (removed_at vv =? NEVER).
Proof.
  intros [Hc Hr] Hv. unfold valid_at. destruct (Z.leb_spec (created_at vv) v'); [|lia].
  destruct (Z.eqb_spec (removed_at vv) NEVER); [done |]. cbn. destruct (Z.ltb_spec v' (removed_at vv)); [lia | done].
Qed.

Lemma view_app v d1 d2 : view v (d1 ++ d2) = view v d1 ++ view v d2.
Proof. unfold view. now rewrite List.filter_app, fmap_app. Qed.

Lemma view_cons v e d :
  view v (e :: d) = (if valid_at v e.2 then [reveal e] else []) ++ view v d.
Proof. unfold view. cbn. now destruct (valid_at v e.2). Qed.

(** A settled list looks the same at later versions. *)
Lemma view_later v v' d :
  Forall (fun e => settled v e.2) d -> v <= v' < NEVER -> view v' d = view v d.
Proof.
  intros Hs Hv. unfold view. f_equal. apply filter_ext_Forall. eapply Forall_weaken; [exact Hs |].
  cbn. intros e He. now rewrite !(settled_valid v) by (done || lia).
Qed.

Lemma view_delete v (n : nat) e d :
  d !! n = Some e -> valid_at v e.2 = false -> view v (delete n d) = view v d.
Proof.
  intros He Hx. rewrite delete_take_drop. rewrite <- (take_drop_middle d n e He) at 3.
  now rewrite !view_app, view_cons, Hx.
Qed.

Lemma reveal_insert k (x : versioned_value V) d :
  reveal <$> mm_insert k x d = mm_insert k (val x) (reveal <$> d).
Proof. exact (mm_insert_fmap val k x d). Qed.

Lemma view_insert_new c k x d :
  mm_sorted d -> c < NEVER ->
  view c (mm_insert k (new_value c x) d) = mm_insert k x (view c d).
Proof using All.
  intros Hs Hc. unfold view. rewrite mm_insert_filter by done. cbn. unfold valid_at at 1. cbn.
  rewrite Z.leb_refl, Z.eqb_refl. cbn. apply (reveal_insert k (new_value c x)).
Qed.

Lemma view_insert_old v c k x d :
  mm_sorted d -> v < c -> view v (mm_insert k (new_value c x) d) = view v d.
Proof using All.
  intros Hs Hc. unfold view. rewrite mm_insert_filter by done. cbn. unfold valid_at at 1. cbn.
  destruct (Z.leb_spec c v); [lia |]. done.
Qed.

(** *** Marking *)
Definition mark_entry (p : K * V -> bool) (orig_ver ver : Z) (e : K * versioned_value V) :=
  if valid_at orig_ver e.2 && p (reveal e) then (e.1, vv_remove ver e.2) else e.

Lemma mark_all p orig_ver ver d : (mark p false orig_ver ver d).1 = mark_entry p orig_ver ver <$> d.
Proof.
  induction d as [|e d IH]; [done |]. rewrite fmap_cons, <- IH. cbn. unfold mark_entry, reveal.
  destruct (mark p false orig_ver ver d) as [l n]. destruct (_ && _); done.
Qed.

Lemma mark_old p v orig_ver d :
  Forall (fun e => settled orig_ver e.2) d -> v <= orig_ver < NEVER ->
  view v (mark_entry p orig_ver (orig_ver + 1) <$> d) = view v d.
Proof.
  intros Hs Hv. induction Hs as [|e d He Hs IH]; [done |]. rewrite fmap_cons, !view_cons, IH.
  f_equal. unfold mark_entry. destruct (valid_at orig_ver e.2 && p (reveal e)) eqn:E; [|done].
  apply andb_prop in E as [E _]. rewrite (settled_valid orig_ver) in E by (done || lia).
  unfold valid_at, reveal. cbn. rewrite E. cbn. apply Z.eqb_eq in E.
  destruct (Z.leb_spec (created_at e.2) v); [|done]. cbn.
  destruct (Z.ltb_spec v (orig_ver + 1)); [|lia]. rewrite orb_true_r. done.
Qed.

Lemma mark_new p orig_ver d :
  Forall (fun e => settled orig_ver e.2) d -> orig_ver + 1 < NEVER ->
  view (orig_ver + 1) (mark_entry p orig_ver (orig_ver + 1) <$> d) =
  List.filter (fun kv => negb (p kv)) (view orig_ver d).
Proof.
  intros Hs Hv. induction Hs as [|e d He Hs IH]; [done |].
  rewrite fmap_cons, !view_cons, List.filter_app, IH. f_equal. unfold mark_entry.
  rewrite !(settled_valid orig_ver orig_ver) by (done || lia).
  destruct (removed_at e.2 =? NEVER) eqn:E; cbn.
  - destruct (p (reveal e)); cbn.
    + unfold valid_at. cbn. rewrite Z.ltb_irrefl, orb_false_r.
      destruct (Z.eqb_spec (orig_ver + 1) NEVER); [lia |]. now rewrite andb_false_r.
    + rewrite (settled_valid orig_ver), E by (done || lia). done.
  - now rewrite (settled_valid orig_ver), E by (done || lia).
Qed.

Lemma view_bfilter q v d :
  view v (List.filter (fun e => q (reveal e)) d) = List.filter q (view v d).
Proof.
  induction d as [|e d IH]; [done |]. cbn [List.filter]. rewrite view_cons, List.filter_app, <- IH.
  destruct (q (reveal e)) eqn:E; [rewrite view_cons|]; destruct (valid_at v e.2); cbn; rewrite ?E; done.
Qed.

Lemma view_filter p v d :
  view v (List.filter (fun e => negb (p (reveal e))) d) = List.filter (fun kv => negb (p kv)) (view v d).
Proof. apply (view_bfilter (fun kv => negb (p kv))). Qed.

Lemma mark_sorted p orig_ver ver d : mm_sorted d -> mm_sorted (mark_entry p orig_ver ver <$> d).
Proof.
  induction 1 as [|e d Hs IH He]; [constructor |]. rewrite fmap_cons. constructor; [done |].
  apply Forall_fmap. eapply Forall_weaken; [exact He |]. intros a Ha. unfold mm_le, mark_entry in *. cbn.
  now destruct (_ && _), (_ && _).
Qed.

Lemma mark_segment_sorted p orig_ver ver d1 d2 d3 :
  mm_sorted (d1 ++ d2 ++ d3) -> mm_sorted (d1 ++ (mark_entry p orig_ver ver <$> d2) ++ d3).
Proof.
  set (key := fun _ : versioned_value V => tt).
  rewrite <- !(mm_sorted_fmap key), !fmap_app.
  assert (E : prod_map Datatypes.id key <$> (mark_entry p orig_ver ver <$> d2) = prod_map Datatypes.id key <$> d2).
  { rewrite <- list_fmap_compose. apply list_fmap_ext. intros i e _. cbn. unfold mark_entry.
    now destruct (_ && _). }
  now rewrite E.
Qed.

Lemma mark_settled p orig_ver d :
  Forall (fun e => settled orig_ver e.2) d ->
  Forall (fun e => settled (orig_ver + 1) e.2) (mark_entry p orig_ver (orig_ver + 1) <$> d).
Proof.
  intros Hs. apply Forall_fmap. eapply Forall_weaken; [exact Hs |]. intros e [H1 H2].
  unfold mark_entry, settled. cbn. destruct (_ && _); cbn; lia.
Qed.
End Views.


(** ** Groups *)
Section Groups.
Context {K : Type} `{KeyOrderLaws K} {V : Type}.
Implicit Types (d : list (K * versioned_value V)) (g : group K V).

(** The ring is ordered by version, with the writer at the tail; no version of the
    data is beyond the writer's. *)
Definition written_to g (w : Z) (r : list (Z * Z)) (v : Z) : Prop :=
  writer g = Some w /\ ring g = r ++ [(w, v)] /\ Forall (fun e => settled v e.2) (data g).

Definition group_ok g : Prop :=
  mm_sorted (data g) /\ NoDup ((ring g).*1) /\ ring g <> []
  /\ Forall (fun m => 0 <= m.2 < NEVER) (ring g)
  /\ StronglySorted (fun a b => a.2 <= b.2) (ring g)
  /\ (forall w, writer g = Some w -> exists r v, written_to g w r v).

Lemma ring_ver_app id (r r' : list (Z * Z)) :
  ring_ver id (r ++ r') = match ring_ver id r with Some v => Some v | None => ring_ver id r' end.
Proof. induction r as [|[i v] r IH]; cbn; [done |]. now destruct (i =? id). Qed.

Lemma ring_ver_None id (r : list (Z * Z)) : ring_ver id r = None <-> id ∉ r.*1.
Proof.
  induction r as [|[i v] r IH]; cbn; [split; [intros _; apply not_elem_of_nil | done] |].
  rewrite not_elem_of_cons. destruct (Z.eqb_spec i id) as [->|]; [split; [done | tauto] |].
  rewrite IH. split; [intros; split; [congruence | done] | tauto].
Qed.

Lemma ring_ver_elem id v (r : list (Z * Z)) : ring_ver id r = Some v -> (id, v) ∈ r.
Proof.
  induction r as [|[i u] r IH]; cbn; [done |]. destruct (Z.eqb_spec i id) as [->|].
  - intros [= ->]. left.
  - intros Hr. right. auto.
Qed.

Lemma ring_ver_is_Some id (r : list (Z * Z)) : id ∈ r.*1 -> is_Some (ring_ver id r).
Proof. intros Hin. destruct (ring_ver id r) eqn:E; [eauto |]. now apply ring_ver_None in E. Qed.

Lemma NoDup_snoc_ring (r : list (Z * Z)) w v :
  NoDup ((r ++ [(w, v)]).*1) -> (w ∉ r.*1) /\ NoDup (r.*1).
Proof.
  rewrite fmap_app. intros (A & B & C)%list.NoDup_app. split; [|done]. intros Hin. apply (B w Hin). left.
Qed.

Lemma set_ver_other id v (r : list (Z * Z)) : id ∉ r.*1 -> set_ver id v r = r.
Proof.
  induction r as [|[i u] r IH]; cbn; [done |]. rewrite not_elem_of_cons. intros [Hi Hr].
  destruct (Z.eqb_spec i id); [congruence |]. f_equal. now apply IH.
Qed.

Lemma written_version g w r v : group_ok g -> written_to g w r v -> version w g = Some v.
Proof.
  intros (_ & Hnd & _) (_ & Hr & _). unfold version. rewrite Hr in *. apply NoDup_snoc_ring in Hnd as [Hw _].
  rewrite ring_ver_app, (proj2 (ring_ver_None w r) Hw). cbn. now rewrite Z.eqb_refl.
Qed.

(** Members other than the writer have an older version. *)
Lemma written_older g w r v id u :
  group_ok g -> written_to g w r v -> version id g = Some u -> id <> w -> u <= v /\ (id, u) ∈ r.
Proof.
  intros (_ & _ & _ & _ & Hs & _) (_ & Hr & _) Hu Hid. apply ring_ver_elem in Hu. rewrite Hr in Hu, Hs.
  apply elem_of_app in Hu as [Hu|Hu]; [|apply list_elem_of_singleton in Hu; congruence]. split; [|done].
  clear Hr. induction r as [|m r IH]; [now apply not_elem_of_nil in Hu |].
  cbn in Hs. apply StronglySorted_inv in Hs as [Hs Hm]. apply elem_of_cons in Hu as [<-|Hu]; [|auto].
  apply Forall_app in Hm as [_ Hm]. apply Forall_cons_iff in Hm as [Hm _]. exact Hm.
Qed.

Lemma next_version_spec g w r v :
  group_ok g -> written_to g w r v -> v + 1 < NEVER ->
  next_version w g = Some (v, v + 1,
    {| data := data g; writer := writer g; gc_insert_counter := gc_insert_counter g;
       gc_erase_counter := gc_erase_counter g; ring := r ++ [(w, v + 1)] |}).
Proof.
  intros Hok Hw Hv. pose proof (written_version _ _ _ _ Hok Hw) as Hver.
  destruct Hok as (_ & Hnd & _ & Hb & _). destruct Hw as (Hw & Hr & _).
  unfold next_version, writable. rewrite bool_decide_true by done. cbn. rewrite Hver. cbn.
  rewrite never_eq in *. assert (0 <= v) by (rewrite Hr in Hb; apply Forall_app in Hb as [_ Hb];
    apply Forall_cons_iff in Hb as [Hb _]; cbn in Hb; lia).
  rewrite wrap_small by lia. rewrite Hr in *. apply NoDup_snoc_ring in Hnd as [Hnw _].
  unfold set_ver. rewrite fmap_app. fold (set_ver w (v + 1) r). rewrite set_ver_other by done.
  cbn. now rewrite Z.eqb_refl.
Qed.

(** [has_readonly_snapshot] of the writer looks at the member before it: whether
    the writer is not alone. *)
Lemma pred_in_snoc p w v (r : list (Z * Z)) :
  w ∉ r.*1 -> pred_in p w (r ++ [(w, v)]) = Some (match list.last r with Some m => m.1 | None => p end).
Proof.
  revert p. induction r as [|[i u] r IH]; intros p; cbn [app pred_in]; [now rewrite Z.eqb_refl |].
  rewrite fmap_cons, not_elem_of_cons. intros [Hi Hr]. cbn in Hi. destruct (Z.eqb_spec i w); [congruence |].
  rewrite IH by done. destruct r as [|m r]; [done |]. rewrite !last_cons. cbn. now destruct (list.last r).
Qed.

Lemma last_in (r : list (Z * Z)) m : list.last r = Some m -> m.1 ∈ r.*1.
Proof. intros Hl. apply list_elem_of_fmap. exists m. split; [done |]. apply last_Some_elem_of in Hl. done. Qed.

Lemma readonly_snapshot_spec g w r v :
  NoDup ((ring g).*1) -> writer g = Some w -> ring g = r ++ [(w, v)] ->
  has_readonly_snapshot w g = Some (bool_decide (r <> [])).
Proof.
  intros Hnd Hw Hr. unfold has_readonly_snapshot, readonly, writable. rewrite bool_decide_true by done. cbn.
  unfold prev_. rewrite Hr in *. rewrite last_snoc. cbn. apply NoDup_snoc_ring in Hnd as [Hnw _].
  rewrite pred_in_snoc by done. cbn. destruct (list.last r) as [m|] eqn:E.
  - rewrite bool_decide_false, bool_decide_true; [done | | ].
    + intros ->. discriminate.
    + intros E'. apply Hnw. apply last_in in E. rewrite Hw in E'. injection E' as ->. done.
  - apply last_None in E as ->. rewrite bool_decide_true, bool_decide_false by (done || tauto). done.
Qed.
End Groups.


(** ** Operations *)
Section Operations.
Context {K : Type} `{KeyOrderLaws K} {V : Type}.
Implicit Types (d : list (K * versioned_value V)) (g : group K V).

(** The writer's content became [f] of it and every other member sees what it saw. *)
Definition writes g (w : Z) (f : list (K * V) -> list (K * V)) (g' : group K V) : Prop :=
  group_ok g' /\ forall id, view_of g' id = if decide (id = w) then f <$> view_of g id else view_of g id.

(** New data at the next version of the writer. *)
Lemma writes_intro g w r v d' ins er f :
  group_ok g -> written_to g w r v -> v + 1 < NEVER ->
  mm_sorted d' -> Forall (fun e => settled (v + 1) e.2) d' ->
  view (v + 1) d' = f (view v (data g)) ->
  (r <> [] -> forall u, u <= v -> view u d' = view u (data g)) ->
  writes g w f (with_data d' ins er
    {| data := data g; writer := writer g; gc_insert_counter := gc_insert_counter g;
       gc_erase_counter := gc_erase_counter g; ring := r ++ [(w, v + 1)] |}).
Proof.
  intros Hok Hw Hv Hs Hset Hview Hold. pose proof (written_version _ _ _ _ Hok Hw) as Hver.
  pose proof Hok as (_ & Hnd & _ & Hb & Hsort & _). destruct Hw as (Hwr & Hr & Hset0).
  rewrite Hr in Hnd, Hb, Hsort. split.
  - split; [done |]. cbn. split; [rewrite fmap_app in Hnd |- *; exact Hnd |]. split; [now destruct r |].
    apply Forall_app in Hb as [Hb1 Hb2]. apply Forall_cons_iff in Hb2 as [Hb2 _]. cbn in Hb2.
    split; [apply Forall_app; split; [done |]; constructor; [cbn; lia | constructor] |]. split.
    + clear -Hsort. induction r as [|m r IH]; cbn in *; [repeat constructor |].
      apply StronglySorted_inv in Hsort as [Hs Hm]. constructor; [auto |].
      apply Forall_app in Hm as [Hm1 Hm2]. apply Forall_app. split; [done |].
      apply Forall_cons_iff in Hm2 as [Hm2 _]. constructor; [cbn in *; lia | constructor].
    + intros w' Hw'. rewrite Hwr in Hw'. injection Hw' as <-. exists r, (v + 1). done.
  - apply NoDup_snoc_ring in Hnd as [Hnw _]. intros id. unfold view_of, version. cbn [with_data ring data].
    rewrite Hr, !ring_ver_app. cbn [ring_ver]. destruct (decide (id = w)) as [->|Hid].
    + rewrite (proj2 (ring_ver_None w r) Hnw), !Z.eqb_refl. cbn -[view]. now rewrite Hview.
    + destruct (Z.eqb_spec w id); [congruence |]. destruct (ring_ver id r) as [u|] eqn:Eu; [|done]. cbn -[view].
      rewrite Hold; [done | |].
      * intros ->. discriminate.
      * assert (Hv' : version id g = Some u) by (unfold version; now rewrite Hr, ring_ver_app, Eu).
        now destruct (written_older g w r v id u Hok (conj Hwr (conj Hr Hset0)) Hv' Hid).
Qed.

Lemma settled_mono v v' (d : list (K * versioned_value V)) :
  v <= v' -> Forall (fun e => settled v e.2) d -> Forall (fun e => settled v' e.2) d.
Proof. intros Hv Hs. eapply Forall_weaken; [exact Hs |]. unfold settled. cbn. intros e. lia. Qed.

Lemma settled_new v (k : K) (x : V) d :
  Forall (fun e => settled v e.2) d -> Forall (fun e => settled v e.2) (mm_insert k (new_value v x) d).
Proof.
  intros Hs. apply Forall_forall. intros e [->|He]%elem_mm_insert.
  - split; cbn; [lia | now left].
  - eapply Forall_forall in Hs; eauto.
Qed.

Lemma insert_spec g w r v k x :
  group_ok g -> written_to g w r v -> v + 1 < NEVER ->
  runs (insert w k x g) (writes g w (mm_insert k x)).
Proof using All.
  intros Hok Hw Hv. unfold insert. rewrite (next_version_spec g w r v) by done. cbn.
  pose proof Hok as (Hs & _). pose proof Hw as (_ & _ & Hset). apply runs_ret.
  eapply writes_intro; eauto using mm_insert_sorted.
  - apply settled_new. eapply settled_mono; [|exact Hset]. lia.
  - rewrite view_insert_new by done. f_equal. apply view_later; [done | lia].
  - intros _ u Hu. apply view_insert_old; [done | lia].
Qed.

Lemma insert_items_data v items d :
  mm_sorted d -> Forall (fun e => settled v e.2) d -> v + 1 < NEVER ->
  let d' := fold_left (fun d kv => mm_insert kv.1 (new_value (v + 1) kv.2) d) items d in
  mm_sorted d' /\ Forall (fun e => settled (v + 1) e.2) d'
  /\ view (v + 1) d' = fold_left (fun l kv => mm_insert kv.1 kv.2 l) items (view v d)
  /\ forall u, u <= v -> view u d' = view u d.
Proof using All.
  intros Hs Hset Hv. rewrite <- (view_later v (v + 1) d Hset) by lia.
  apply (settled_mono v (v + 1)) in Hset; [|lia]. revert d Hs Hset.
  induction items as [|[k x] items IH]; intros d Hs Hset; [done |]. cbn [fold_left fst snd].
  destruct (IH (mm_insert k (new_value (v + 1) x) d)) as (I1 & I2 & I3 & I4);
    [now apply mm_insert_sorted | now apply settled_new |].
  split; [done |]. split; [done |]. split.
  - rewrite I3, view_insert_new by (done || lia). done.
  - intros u Hu. rewrite I4, view_insert_old by (done || lia). done.
Qed.

Lemma insert_items_spec g w r v items :
  group_ok g -> written_to g w r v -> v + 1 < NEVER ->
  runs (insert_items w items g)
       (writes g w (fun l => fold_left (fun l kv => mm_insert kv.1 kv.2 l) items l)).
Proof using All.
  intros Hok Hw Hv. unfold insert_items. rewrite (next_version_spec g w r v) by done. cbn.
  pose proof Hok as (Hs & _). pose proof Hw as (_ & _ & Hset). apply runs_ret.
  destruct (insert_items_data v items (data g) Hs Hset Hv) as (I1 & I2 & I3 & I4).
  eapply writes_intro; eauto.
Qed.

Lemma split_segment {A} (lo hi : nat) (l : list A) :
  (lo <= hi)%nat -> l = take lo l ++ segment lo hi l ++ drop hi l.
Proof.
  intros Hlh. unfold segment. rewrite <- (take_drop hi l) at 1. rewrite app_assoc. f_equal.
  rewrite <- (take_drop lo (take hi l)) at 1. f_equal. rewrite take_take. f_equal. lia.
Qed.

(** Marking a segment of the entries that are equivalent to the key. *)
Lemma mark_key p k orig_ver ver d :
  mm_sorted d ->
  (mark_segment p false orig_ver ver (lower_bound k d) (upper_bound k d) d).1 =
  mark_entry (fun kv => keq kv.1 k && p kv) orig_ver ver <$> d.
Proof using All.
  intros Hs. unfold mark_segment. pose proof (mark_all p orig_ver ver) as Hm.
  destruct (bounds_split k d Hs) as (l1 & l2 & l3 & -> & -> & -> & F1 & F2 & F3).
  rewrite segment_middle, take_app_length, (app_assoc l1 l2 l3), drop_app_length.
  specialize (Hm l2). destruct (mark p false orig_ver ver l2) as [l n]. cbn in Hm |- *. subst l.
  rewrite !fmap_app, <- app_assoc. f_equal; [|f_equal].
  - symmetry. apply fmap_id_Forall. eapply Forall_weaken; [exact F1 |].
    intros e He. unfold mark_entry. rewrite (comp_not_keq (reveal e).1 k) by done. now rewrite andb_false_r.
  - apply Forall_fmap_ext_1. eapply Forall_weaken; [exact F2 |]. intros e He. unfold mark_entry.
    change (reveal e).1 with e.1. now rewrite He.
  - symmetry. apply fmap_id_Forall. eapply Forall_weaken; [exact F3 |].
    intros e He. unfold mark_entry. rewrite (comp_not_keq' k (reveal e).1) by done. now rewrite andb_false_r.
Qed.

(** The three ways to erase: the writer has snapshots and marks, or it is alone and
    erases. *)
Lemma bumped_readonly g w r v :
  group_ok g -> written_to g w r v ->
  has_readonly_snapshot w
    {| data := data g; writer := writer g; gc_insert_counter := gc_insert_counter g;
       gc_erase_counter := gc_erase_counter g; ring := r ++ [(w, v + 1)] |} = Some (bool_decide (r <> [])).
Proof.
  intros (_ & Hnd & _) (Hw & Hr & _). eapply readonly_snapshot_spec; [|exact Hw | reflexivity].
  cbn. rewrite Hr, fmap_app in Hnd. rewrite fmap_app. exact Hnd.
Qed.

Lemma writes_ext g w f f' g' : (forall l, f l = f' l) -> writes g w f g' -> writes g w f' g'.
Proof.
  intros Hf [Hok Hv]. split; [done |]. intros id. rewrite Hv. destruct (decide _); [|done].
  destruct (view_of g id); [cbn; now rewrite Hf | done].
Qed.

Lemma marked_writes g w r v p ins er :
  group_ok g -> written_to g w r v -> v + 1 < NEVER ->
  writes g w (List.filter (fun kv => negb (p kv)))
    (with_data (mark_entry p v (v + 1) <$> data g) ins er
      {| data := data g; writer := writer g; gc_insert_counter := gc_insert_counter g;
         gc_erase_counter := gc_erase_counter g; ring := r ++ [(w, v + 1)] |}).
Proof.
  intros Hok Hw Hv. pose proof Hok as (Hs & _). pose proof Hw as (_ & _ & Hset).
  eapply writes_intro; eauto using mark_sorted, mark_settled.
  - now apply mark_new.
  - intros _ u Hu. apply mark_old; [done | lia].
Qed.

Lemma erased_writes g w v p ins er :
  group_ok g -> written_to g w [] v -> v + 1 < NEVER ->
  writes g w (List.filter (fun kv => negb (p kv)))
    (with_data (List.filter (fun e => negb (p (reveal e))) (data g)) ins er
      {| data := data g; writer := writer g; gc_insert_counter := gc_insert_counter g;
         gc_erase_counter := gc_erase_counter g; ring := [] ++ [(w, v + 1)] |}).
Proof.
  intros Hok Hw Hv. pose proof Hok as (Hs & _). pose proof Hw as (_ & _ & Hset).
  eapply writes_intro; eauto using mm_sorted_filter.
  - apply Forall_filter. eapply settled_mono; [|exact Hset]. lia.
  - rewrite view_filter. f_equal. apply view_later; [done | lia].
  - done.
Qed.

Lemma erase_spec g w r v k :
  group_ok g -> written_to g w r v -> v + 1 < NEVER ->
  runs (erase w k false g) (writes g w (List.filter (fun kv => negb (keq kv.1 k)))).
Proof using All.
  intros Hok Hw Hv. unfold erase. rewrite (next_version_spec g w r v) by done. cbn [mbind option_bind].
  rewrite bumped_readonly by done. cbn [mbind option_bind data]. pose proof Hok as (Hs & _).
  case_bool_decide as Hr.
  - pose proof (mark_key (fun _ => true) k v (v + 1) (data g) Hs) as Hm.
    destruct (mark_segment _ _ _ _ _ _ _) as [d n]. cbn in Hm. subst d. apply runs_ret.
    eapply writes_ext; [|now apply marked_writes]. intros l. apply List.filter_ext. intros kv.
    now rewrite andb_true_r.
  - subst r.
    rewrite erase_range_filter by done. apply runs_ret.
    exact (erased_writes g w v (fun kv => keq kv.1 k) 0 0 Hok Hw Hv).
Qed.

Lemma drop_value_filter eqV x (l : list (K * versioned_value V)) :
  drop_value eqV x false l = List.filter (fun e => negb (eqV x (reveal e).2)) l.
Proof. induction l as [|e l IH]; cbn; [done |]. destruct (eqV x (val e.2)); cbn; now rewrite IH. Qed.

Lemma erase_key_value eqV x k d :
  mm_sorted d ->
  take (lower_bound k d) d ++
  drop_value eqV x false (segment (lower_bound k d) (upper_bound k d) d) ++ drop (upper_bound k d) d =
  List.filter (fun e => negb (keq (reveal e).1 k && eqV x (reveal e).2)) d.
Proof using All.
  intros (l1 & l2 & l3 & -> & -> & -> & F1 & F2 & F3)%(bounds_split k).
  rewrite segment_middle, take_app_length, (app_assoc l1 l2 l3), drop_app_length, drop_value_filter.
  rewrite <- app_assoc, !List.filter_app. f_equal; [|f_equal]; symmetry.
  - apply filter_all. eapply Forall_weaken; [exact F1 |]. intros e He. cbn. now rewrite (comp_not_keq e.1 k).
  - apply filter_ext_Forall. eapply Forall_weaken; [exact F2 |]. intros e He. cbn. now rewrite He.
  - apply filter_all. eapply Forall_weaken; [exact F3 |]. intros e He. cbn. now rewrite (comp_not_keq' k e.1).
Qed.

Lemma erase_value_spec eqV g w r v k x :
  group_ok g -> written_to g w r v -> v + 1 < NEVER ->
  runs (erase_value eqV w k x false g)
       (writes g w (List.filter (fun kv => negb (keq kv.1 k && eqV x kv.2)))).
Proof using All.
  intros Hok Hw Hv. unfold erase_value. rewrite (next_version_spec g w r v) by done. cbn [mbind option_bind].
  rewrite bumped_readonly by done. cbn [mbind option_bind data]. pose proof Hok as (Hs & _).
  case_bool_decide as Hr.
  - pose proof (mark_key (fun kv => eqV x kv.2) k v (v + 1) (data g) Hs) as Hm.
    destruct (mark_segment _ _ _ _ _ _ _) as [d n]. cbn in Hm. subst d. apply runs_ret.
    now apply marked_writes.
  - subst r.
    rewrite erase_key_value by done. apply runs_ret.
    exact (erased_writes g w v (fun kv => keq kv.1 k && eqV x kv.2) 0 0 Hok Hw Hv).
Qed.

(** Marking a segment, or dropping it when nobody else can see it. *)
Lemma segment_writes g w r v p l1 l2 l3 ins er :
  group_ok g -> written_to g w r v -> v + 1 < NEVER -> data g = l1 ++ l2 ++ l3 ->
  writes g w (fun _ => view v l1 ++ List.filter (fun kv => negb (p kv)) (view v l2) ++ view v l3)
    (with_data (l1 ++ (mark_entry p v (v + 1) <$> l2) ++ l3) ins er
      {| data := data g; writer := writer g; gc_insert_counter := gc_insert_counter g;
         gc_erase_counter := gc_erase_counter g; ring := r ++ [(w, v + 1)] |}).
Proof.
  intros Hok Hw Hv Hd. pose proof Hok as (Hs & _). pose proof Hw as (_ & _ & Hset).
  rewrite Hd in Hs, Hset. apply Forall_app in Hset as [H1 [H2 H3]%Forall_app].
  eapply writes_intro; eauto.
  - eapply mark_segment_sorted. exact Hs.
  - apply Forall_app. split; [eapply settled_mono; [|exact H1]; lia |]. apply Forall_app.
    split; [now apply mark_settled | eapply settled_mono; [|exact H3]; lia].
  - rewrite !view_app, mark_new by done. now rewrite !(view_later v (v + 1)) by (done || lia).
  - intros _ u Hu. rewrite Hd at 1. rewrite !view_app, mark_old by (done || lia). done.
Qed.

Lemma dropped_writes g w v l1 l2 l3 ins er :
  group_ok g -> written_to g w [] v -> v + 1 < NEVER -> data g = l1 ++ l2 ++ l3 ->
  writes g w (fun _ => view v l1 ++ view v l3)
    (with_data (l1 ++ l3) ins er
      {| data := data g; writer := writer g; gc_insert_counter := gc_insert_counter g;
         gc_erase_counter := gc_erase_counter g; ring := [] ++ [(w, v + 1)] |}).
Proof.
  intros Hok Hw Hv Hd. pose proof Hok as (Hs & _). pose proof Hw as (_ & _ & Hset).
  rewrite Hd in Hs, Hset. apply Forall_app in Hset as [H1 [H2 H3]%Forall_app].
  eapply writes_intro; eauto; [| | |done].
  - eapply mm_sorted_sub; [|exact Hs]. apply sublist_app; [done | now apply sublist_inserts_l].
  - apply Forall_app. split; (eapply settled_mono; [|eassumption]; lia).
  - rewrite view_app. now rewrite !(view_later v (v + 1)) by (done || lia).
Qed.

Lemma writes_at g w v f f' g' :
  version w g = Some v -> f (view v (data g)) = f' (view v (data g)) -> writes g w f g' -> writes g w f' g'.
Proof.
  intros Hv Hf [Hok Hview]. split; [done |]. intros id. rewrite Hview. destruct (decide _) as [->|]; [|done].
  unfold view_of. rewrite Hv. cbn. now rewrite Hf.
Qed.

(** Erasing between two positions hides the visible entries between them. *)
Lemma erase_range_spec g w r v lo hi :
  group_ok g -> written_to g w r v -> v + 1 < NEVER -> (lo <= hi)%nat -> r <> [] ->
  runs (erase_range w lo hi g)
       (writes g w (fun _ => view v (take lo (data g)) ++ view v (drop hi (data g)))).
Proof using All.
  intros Hok Hw Hv Hlh Hr. unfold erase_range. rewrite (next_version_spec g w r v) by done. cbn [mbind option_bind].
  rewrite bumped_readonly by done. cbn [mbind option_bind data]. rewrite bool_decide_true by done.
  apply runs_ret.
  assert (Hm : (mark_segment (fun _ => true) false v (v + 1) lo hi (data g)).1 =
    take lo (data g) ++ (mark_entry (fun _ => true) v (v + 1) <$> segment lo hi (data g)) ++ drop hi (data g)).
  { unfold mark_segment. pose proof (mark_all (fun _ => true) v (v + 1) (segment lo hi (data g))) as Hm.
    destruct (mark _ _ _ _ _). cbn in Hm |- *. now rewrite Hm. }
  rewrite Hm. eapply writes_ext; [|apply segment_writes; [exact Hok | exact Hw | exact Hv | now apply split_segment]].
  intros l. cbn beta. now rewrite (filter_none _ (view v (segment lo hi (data g)))) by (apply Forall_true; done).
Qed.

(** *** Erasing one entry *)

Fixpoint remove_first (p : K * V -> bool) (l : list (K * V)) : list (K * V) :=
  match l with
  | [] => []
  | kv :: l => if p kv then l else kv :: remove_first p l
  end.

Lemma remove_first_none p l : Forall (fun kv => p kv = false) l -> remove_first p l = l.
Proof. induction 1 as [|kv l Hp _ IH]; [done |]. cbn. now rewrite Hp, IH. Qed.

Lemma remove_first_app p l l' :
  Forall (fun kv => p kv = false) l -> remove_first p (l ++ l') = l ++ remove_first p l'.
Proof. induction 1 as [|kv l Hp _ IH]; [done |]. cbn. now rewrite Hp, IH. Qed.

Lemma view_Forall (P : K * V -> Prop) v d : Forall (fun e => P (reveal e)) d -> Forall P (view v d).
Proof. intros HP. apply Forall_fmap, Forall_filter, HP. Qed.

(** The marking of one entry changes the first visible one with the property. *)
Lemma mark_first p orig_ver ver d :
  (mark p true orig_ver ver d).1 = d /\ Forall (fun kv => p kv = false) (view orig_ver d)
  \/ exists d1 e d2, d = d1 ++ [e] ++ d2 /\ (mark p true orig_ver ver d).1 = d1 ++ (mark_entry p orig_ver ver <$> [e]) ++ d2
       /\ Forall (fun kv => p kv = false) (view orig_ver d1) /\ valid_at orig_ver e.2 = true /\ p (reveal e) = true.
Proof.
  induction d as [|e d IH]; [left; split; [done | constructor] |]. cbn [mark].
  destruct (valid_at orig_ver e.2 && p (e.1, val e.2)) eqn:E.
  - apply andb_prop in E as [E1 E2]. right. exists [], e, d. cbn. unfold mark_entry, reveal.
    rewrite E1, E2. repeat split; constructor.
  - assert (Hf : Forall (fun kv => p kv = false) (if valid_at orig_ver e.2 then [reveal e] else [])).
    { destruct (valid_at orig_ver e.2); [constructor; [exact E | constructor] | constructor]. }
    destruct (mark p true orig_ver ver d) as [l n]. cbn [fst] in *.
    destruct IH as [[-> IH]|(d1 & e1 & d2 & -> & -> & I1 & I2 & I3)]; [left | right].
    + split; [done |]. rewrite view_cons. now apply Forall_app.
    + exists (e :: d1), e1, d2. repeat split; auto. rewrite view_cons. now apply Forall_app.
Qed.

(** The entries with the key, as a segment of the data. *)
Definition at_key (k : K) (p : K * V -> bool) (kv : K * V) : bool := keq kv.1 k && p kv.

Lemma not_at_key k p v l :
  Forall (fun e => comp e.1 k = true) l -> Forall (fun kv => at_key k p kv = false) (view v l).
Proof using All.
  intros Hl. apply view_Forall. eapply Forall_weaken; [exact Hl |]. intros e He. unfold at_key.
  now rewrite (comp_not_keq (reveal e).1 k).
Qed.

Lemma not_at_key' k p v l :
  Forall (fun e => comp k e.1 = true) l -> Forall (fun kv => at_key k p kv = false) (view v l).
Proof using All.
  intros Hl. apply view_Forall. eapply Forall_weaken; [exact Hl |]. intros e He. unfold at_key.
  now rewrite (comp_not_keq' k (reveal e).1).
Qed.

Lemma same_at_key k p v l :
  Forall (fun e => keq e.1 k = true) l -> Forall (fun kv => p kv = false) (view v l) ->
  Forall (fun kv => at_key k p kv = false) (view v l).
Proof.
  intros Hl Hp. eapply Forall_weaken; [exact Hp |]. intros kv Hkv. unfold at_key. rewrite Hkv. apply andb_false_r.
Qed.

(** With snapshots the first visible match is marked. *)
Lemma mark_first_writes g w r v k p er :
  group_ok g -> written_to g w r v -> v + 1 < NEVER ->
  writes g w (remove_first (at_key k p))
    (with_data (mark_segment p true v (v + 1) (lower_bound k (data g)) (upper_bound k (data g)) (data g)).1 0 er
      {| data := data g; writer := writer g; gc_insert_counter := gc_insert_counter g;
         gc_erase_counter := gc_erase_counter g; ring := r ++ [(w, v + 1)] |}).
Proof using All.
  intros Hok Hw Hv. pose proof Hok as (Hs & _). pose proof (written_version _ _ _ _ Hok Hw) as Hver.
  destruct (bounds_split k (data g) Hs) as (l1 & l2 & l3 & Hd & L & U & F1 & F2 & F3).
  assert (Hm : (mark_segment p true v (v + 1) (lower_bound k (data g)) (upper_bound k (data g)) (data g)).1
               = l1 ++ (mark p true v (v + 1) l2).1 ++ l3).
  { unfold mark_segment. rewrite L, U, Hd, segment_middle, take_app_length, (app_assoc l1 l2 l3), drop_app_length.
    now destruct (mark _ _ _ _ _). }
  rewrite Hm. destruct (mark_first p v (v + 1) l2) as [[-> Hn]|(d1 & e & d2 & El & -> & Hn & Hvis & Hp)].
  - rewrite <- Hd. pose proof (segment_writes g w r v p (data g) [] [] 0 er Hok Hw Hv) as Hseg.
    cbn [fmap list_fmap app] in Hseg. rewrite app_nil_r in Hseg. eapply writes_at; [exact Hver | | now apply Hseg].
    cbn beta. rewrite !app_nil_r, Hd, !view_app. symmetry. apply remove_first_none.
    apply Forall_app. split; [now apply not_at_key |]. apply Forall_app.
    split; [now apply same_at_key | now apply not_at_key'].
  - rewrite El in Hd, F2. apply Forall_app in F2 as [F2 [Fe F2']%Forall_app]. apply Forall_cons_iff in Fe as [Fe _].
    rewrite <- !app_assoc, (app_assoc l1 d1). rewrite <- !app_assoc, (app_assoc l1 d1) in Hd.
    eapply writes_at; [exact Hver | | now apply segment_writes]. cbn beta. rewrite Hd, !view_app.
    rewrite remove_first_app by (apply Forall_app; split; [now apply not_at_key | now apply same_at_key]).
    f_equal. rewrite (view_cons v e []), Hvis. cbn [app view List.filter fmap list_fmap remove_first].
    rewrite Hp. unfold at_key. change (reveal e).1 with e.1. now rewrite Fe, Hp.
Qed.

(** Alone, the first match is erased, which must be visible. *)
Lemma drop_first_writes g w v k p l1 e l3 :
  group_ok g -> written_to g w [] v -> v + 1 < NEVER -> data g = l1 ++ [e] ++ l3 ->
  Forall (fun kv => at_key k p kv = false) (view v l1) -> at_key k p (reveal e) = true -> removed_at e.2 = NEVER ->
  writes g w (remove_first (at_key k p))
    (with_data (l1 ++ l3) 0 0
      {| data := data g; writer := writer g; gc_insert_counter := gc_insert_counter g;
         gc_erase_counter := gc_erase_counter g; ring := [] ++ [(w, v + 1)] |}).
Proof.
  intros Hok Hw Hv Hd Hn Hp Hlive. pose proof (written_version _ _ _ _ Hok Hw) as Hver.
  pose proof Hw as (_ & _ & Hset). rewrite Hd in Hset. apply Forall_app in Hset as [_ [He _]%Forall_app].
  apply Forall_cons_iff in He as [He _].
  assert (Hvis : valid_at v e.2 = true) by (rewrite (settled_valid v v) by (done || lia); now apply Z.eqb_eq).
  eapply writes_at; [exact Hver | | eapply dropped_writes; eauto]. cbn beta.
  rewrite Hd, !view_app, remove_first_app by done. f_equal.
  rewrite (view_cons v e []), Hvis. cbn [app view List.filter fmap list_fmap remove_first]. now rewrite Hp.
Qed.

(** [erase(key, true)]: when the writer is alone, the first entry that is not
    below the key must be visible and have the key. *)
Lemma erase_first_spec g w r v k :
  group_ok g -> written_to g w r v -> v + 1 < NEVER ->
  (r = [] -> exists e, data g !! lower_bound k (data g) = Some e /\ keq e.1 k = true /\ removed_at e.2 = NEVER) ->
  runs (erase w k true g) (writes g w (remove_first (fun kv => keq kv.1 k))).
Proof using All.
  intros Hok Hw Hv Halone. unfold erase. rewrite (next_version_spec g w r v) by done. cbn [mbind option_bind].
  rewrite bumped_readonly by done. cbn [mbind option_bind data].
  assert (Hext : forall l, remove_first (at_key k (fun _ => true)) l = remove_first (fun kv => keq kv.1 k) l).
  { intros l. unfold at_key. induction l as [|kv l IH]; [done |]. cbn. rewrite andb_true_r. now rewrite IH. }
  case_bool_decide as Hr.
  - pose proof (fun er => mark_first_writes g w r v k (fun _ => true) er Hok Hw Hv) as Hm.
    destruct (mark_segment _ _ _ _ _ _ _) as [d n]. cbn [fst] in Hm. apply runs_ret.
    eapply writes_ext; [exact Hext | apply Hm].
  - assert (r = []) as -> by (destruct r; [done | destruct Hr; done]).
    destruct (Halone eq_refl) as (e & He & Hk & Hlive). rewrite He. cbn [mbind option_bind]. apply runs_ret.
    pose proof Hok as (Hs & _). destruct (bounds_split k (data g) Hs) as (l1 & l2 & l3 & Hd & L & _ & F1 & _).
    rewrite delete_take_drop. eapply writes_ext; [exact Hext |].
    eapply (drop_first_writes g w v k (fun _ => true) _ e); eauto.
    + symmetry. now apply take_drop_middle.
    + rewrite L, Hd, take_app_length. now apply not_at_key.
    + unfold at_key. change (reveal e).1 with e.1. now rewrite Hk.
Qed.

Lemma drop_value_first eqV x (l : list (K * versioned_value V)) :
  drop_value eqV x true l = l /\ Forall (fun e => eqV x (val e.2) = false) l
  \/ exists l1 e l2, l = l1 ++ [e] ++ l2 /\ drop_value eqV x true l = l1 ++ l2
       /\ Forall (fun e => eqV x (val e.2) = false) l1 /\ eqV x (val e.2) = true.
Proof.
  induction l as [|e l IH]; [left; split; [done | constructor] |]. cbn [drop_value].
  destruct (eqV x (val e.2)) eqn:E; [right; exists [], e, l; repeat split; auto; constructor |].
  destruct IH as [[-> IH]|(l1 & e1 & l2 & -> & -> & I1 & I2)]; [left; auto |].
  right. exists (e :: l1), e1, l2. repeat split; auto.
Qed.

(** [erase(key, value, true)]: when the writer is alone, no removed entry may
    have the key and the value. *)
Lemma erase_value_first_spec eqV g w r v k x :
  group_ok g -> written_to g w r v -> v + 1 < NEVER ->
  (r = [] -> Forall (fun e => keq e.1 k = true -> eqV x (val e.2) = true -> removed_at e.2 = NEVER) (data g)) ->
  runs (erase_value eqV w k x true g) (writes g w (remove_first (at_key k (fun kv => eqV x kv.2)))).
Proof using All.
  intros Hok Hw Hv Halone. unfold erase_value. rewrite (next_version_spec g w r v) by done. cbn [mbind option_bind].
  rewrite bumped_readonly by done. cbn [mbind option_bind data].
  case_bool_decide as Hr.
  - pose proof (fun er => mark_first_writes g w r v k (fun kv => eqV x kv.2) er Hok Hw Hv) as Hm.
    destruct (mark_segment _ _ _ _ _ _ _) as [d n]. cbn [fst] in Hm. apply runs_ret. apply Hm.
  - assert (r = []) as -> by (destruct r; [done | destruct Hr; done]). specialize (Halone eq_refl). apply runs_ret.
    pose proof Hok as (Hs & _). pose proof (written_version _ _ _ _ Hok Hw) as Hver.
    destruct (bounds_split k (data g) Hs) as (l1 & l2 & l3 & Hd & L & U & F1 & F2 & F3).
    rewrite L, U, Hd, segment_middle, take_app_length, (app_assoc l1 l2 l3), drop_app_length, <- app_assoc.
    set (p := fun kv : K * V => eqV x kv.2).
    destruct (drop_value_first eqV x l2) as [[-> Hn]|(d1 & e & d2 & El & -> & Hn & Hp)].
    + rewrite <- Hd. pose proof (segment_writes g w [] v p (data g) [] [] 0 0 Hok Hw Hv) as Hseg.
      cbn [fmap list_fmap app] in Hseg. rewrite app_nil_r in Hseg. eapply writes_at; [exact Hver | | now apply Hseg].
      cbn beta. rewrite !app_nil_r, Hd, !view_app. symmetry. apply remove_first_none.
      apply Forall_app. split; [now apply not_at_key |]. apply Forall_app.
      split; [apply same_at_key; [done | now apply view_Forall] | now apply not_at_key'].
    + rewrite El in Hd, F2. apply Forall_app in F2 as [F2 [Fe _]%Forall_app]. apply Forall_cons_iff in Fe as [Fe _].
      rewrite <- !app_assoc, (app_assoc l1 d1) in Hd. rewrite <- app_assoc, (app_assoc l1 d1 (d2 ++ l3)).
      assert (Hdd : l1 ++ (d1 ++ [e] ++ d2) ++ l3 = data g) by (rewrite Hd, <- !app_assoc; reflexivity).
      rewrite El, Hdd. eapply (drop_first_writes g w v k p _ e); eauto.
      * rewrite view_app. apply Forall_app. split; [now apply not_at_key |].
        apply same_at_key; [done | now apply view_Forall].
      * unfold at_key, p. change (reveal e).1 with e.1. change (reveal e).2 with (val e.2). now rewrite Fe, Hp.
      * rewrite Hd in Halone. apply Forall_app in Halone as [_ [Ha _]%Forall_app].
        apply Forall_cons_iff in Ha as [Ha _]. now apply Ha.
Qed.
End Operations.


(** ** Snapshots and garbage collection *)
Section Members.
Context {K : Type} `{KeyOrderLaws K} {V : Type}.
Implicit Types (d : list (K * versioned_value V)) (g : group K V).

Lemma put_left_ver id v src (l : list (Z * Z)) i :
  src ∈ l.*1 -> id ∉ l.*1 ->
  ring_ver i (put_left src (id, v) l) = if decide (i = id) then Some v else ring_ver i l.
Proof.
  induction l as [|[j u] l IH]; cbn; [now intros ?%not_elem_of_nil |].
  rewrite elem_of_cons, not_elem_of_cons. intros Hs [Hj Hl]. destruct (Z.eqb_spec j src) as [->|Hne]; cbn.
  - destruct (decide (i = id)) as [->|Hi]; [now rewrite Z.eqb_refl |]. destruct (Z.eqb_spec id i); [congruence | done].
  - destruct Hs as [->|Hs]; [done |]. rewrite IH by done. destruct (decide (i = id)) as [->|]; [|done].
    destruct (Z.eqb_spec j id); [congruence | done].
Qed.

Lemma put_left_perm src m (l : list (Z * Z)) : src ∈ l.*1 -> put_left src m l ≡ₚ m :: l.
Proof.
  induction l as [|e l IH]; cbn; [now intros ?%not_elem_of_nil |]. rewrite elem_of_cons. intros Hs.
  destruct (Z.eqb_spec e.1 src); [done |]. destruct Hs as [->|Hs]; [done |]. rewrite IH by done. apply Permutation_swap.
Qed.

Lemma put_left_sorted id v src (l : list (Z * Z)) :
  ring_ver src l = Some v -> StronglySorted (fun a b => a.2 <= b.2) l ->
  StronglySorted (fun a b => a.2 <= b.2) (put_left src (id, v) l).
Proof.
  induction l as [|[j u] l IH]; cbn; [done |]. intros Hv [Hs Hm]%StronglySorted_inv.
  destruct (Z.eqb_spec j src) as [->|Hne]; cbn.
  - injection Hv as ->. constructor; [now constructor |]. constructor; [cbn; lia | exact Hm].
  - constructor; [now apply IH |]. assert (Hin : src ∈ l.*1).
    { destruct (decide (src ∈ l.*1)); [done |]. apply ring_ver_None in n. congruence. }
    rewrite (put_left_perm src (id, v) l Hin). constructor; [|exact Hm]. apply ring_ver_elem in Hv.
    eapply Forall_forall in Hm; [|exact Hv]. exact Hm.
Qed.

Lemma put_left_snoc src m x (r : list (Z * Z)) :
  src ∈ (r ++ [x]).*1 -> exists r', put_left src m (r ++ [x]) = r' ++ [x].
Proof.
  induction r as [|e r IH]; cbn.
  - rewrite list_elem_of_singleton. intros ->. rewrite Z.eqb_refl. now exists [m].
  - rewrite elem_of_cons. intros Hs. destruct (Z.eqb_spec e.1 src); [now exists (m :: e :: r) |].
    destruct Hs as [->|Hs]; [done |]. destruct (IH Hs) as [r' ->]. now exists (e :: r').
Qed.

(** A new snapshot sees what its source sees. *)
Lemma snapshot_spec g id src :
  group_ok g -> src ∈ (ring g).*1 -> id ∉ (ring g).*1 ->
  runs (make_me_snapshot_of id src g) (fun g' =>
    group_ok g' /\ data g' = data g /\ writer g' = writer g /\ id ∈ (ring g').*1
    /\ forall i, view_of g' i = if decide (i = id) then view_of g src else view_of g i).
Proof.
  intros (Hd & Hnd & Hne & Hb & Hs & Hw) Hsrc Hid. unfold make_me_snapshot_of.
  destruct (ring_ver_is_Some src (ring g) Hsrc) as [v Hv]. unfold version at 1. rewrite Hv. cbn. apply runs_ret.
  split; [|cbn; repeat split].
  - split; [done |]. cbn. pose proof (put_left_perm src (id, v) (ring g) Hsrc) as Hp.
    split; [rewrite Hp; cbn; now apply list.NoDup_cons |].
    split; [intros E; rewrite E in Hp; now apply Permutation_nil_cons in Hp |].
    split; [rewrite Hp; constructor; [|done]; apply ring_ver_elem in Hv; rewrite Forall_forall in Hb; exact (Hb _ Hv) |].
    split; [now apply put_left_sorted |]. intros w Hwr. destruct (Hw w Hwr) as (r & u & _ & Hr & Hset).
    rewrite Hr in Hsrc. destruct (put_left_snoc src (id, v) (w, u) r Hsrc) as [r' Hr'].
    exists r', u. repeat split; [done | cbn; now rewrite Hr | done].
  - rewrite (put_left_perm src (id, v) (ring g) Hsrc). cbn. left.
  - intros i. unfold view_of, version. cbn [ring data]. rewrite put_left_ver by done.
    destruct (decide (i = id)); [now rewrite Hv | done].
Qed.

Lemma gc_bounds_spec (l : list (Z * Z)) ver :
  Forall (fun m => 0 <= m.2 < NEVER) l ->
  (gc_bounds l ver).2 = NEVER /\ (gc_bounds l ver).1 <= ver
  /\ Forall (fun m => (gc_bounds l ver).1 <= m.2) l.
Proof.
  unfold gc_bounds. revert ver. induction l as [|m l IH]; intros ver Hb; cbn [fold_left fst snd].
  - split; [done |]. split; [cbn; lia | constructor].
  - apply Forall_cons_iff in Hb as [Hm Hb]. destruct (Z.ltb_spec NEVER m.2); [lia |].
    destruct (IH (if m.2 <? ver then m.2 else ver) Hb) as (I1 & I2 & I3). split; [done |].
    destruct (Z.ltb_spec m.2 ver); (split; [lia |]; constructor; [lia | done]).
Qed.

Lemma gc_view b v d :
  b.2 = NEVER -> b.1 <= v < NEVER ->
  view v (List.filter (fun e => negb (collectable b e.2)) d) = view v d.
Proof.
  intros Hb2 Hb1. induction d as [|e d IH]; [done |]. cbn [List.filter].
  destruct (collectable b e.2) eqn:E; cbn [negb]; rewrite !view_cons, IH; [|done].
  replace (valid_at v e.2) with false; [done |]. symmetry. unfold collectable, valid_at in *.
  rewrite Hb2 in E. destruct (Z.leb_spec (created_at e.2) v); [|done]. cbn.
  destruct (Z.ltb_spec NEVER (created_at e.2)); [lia |]. cbn in E. apply andb_prop in E as [E1 E2].
  apply negb_true_iff in E1. rewrite E1. cbn. destruct (Z.ltb_spec v (removed_at e.2)); [lia | done].
Qed.

(** Garbage collection is invisible. *)
Lemma gc_spec g id :
  group_ok g -> id ∈ (ring g).*1 ->
  runs (gc_run id g) (fun g' => group_ok g' /\ ring g' = ring g /\ writer g' = writer g
    /\ forall i, view_of g' i = view_of g i).
Proof.
  intros (Hd & Hnd & Hne & Hb & Hs & Hw) Hid. unfold gc_run.
  destruct (ring_ver_is_Some id (ring g) Hid) as [v Hv]. unfold version at 1. rewrite Hv. cbn [mbind option_bind].
  apply runs_ret. destruct (gc_bounds_spec (ring g) v Hb) as (G1 & G2 & G3).
  split; [|split; [done |]; split; [done |]].
  - split; [now apply mm_sorted_filter |]. cbn. repeat (split; [done |]). intros w Hwr.
    destruct (Hw w Hwr) as (r & u & H1 & H2 & H3). exists r, u. repeat split; [done | done |].
    now apply Forall_filter.
  - intros i. unfold view_of, version. cbn [ring data]. destruct (ring_ver i (ring g)) as [u|] eqn:E; [|done].
    cbn [mbind option_bind]. apply ring_ver_elem in E. rewrite gc_view; [done | done |].
    eapply Forall_forall in G3; [|exact E]. eapply Forall_forall in Hb; [|exact E]. cbn in *. lia.
Qed.

Lemma ring_ver_filter id (l : list (Z * Z)) i :
  ring_ver i (List.filter (fun m => negb (m.1 =? id)) l) =
  if decide (i = id) then None else ring_ver i l.
Proof.
  induction l as [|[j u] l IH]; cbn; [now destruct (decide _) |].
  destruct (Z.eqb_spec j id) as [->|Hj]; cbn; rewrite IH.
  - destruct (decide (i = id)); [done |]. destruct (Z.eqb_spec id i); [congruence | done].
  - destruct (decide (i = id)) as [->|]; [|done]. destruct (Z.eqb_spec j id); [done | done].
Qed.

(** The other members of a destroyed map see what they saw. *)
Lemma destroy_spec g id :
  group_ok g -> id ∈ (ring g).*1 -> (1 < length (ring g))%nat ->
  runs (destroy_me id g) (fun o => exists g', o = Some g' /\ group_ok g'
    /\ forall i, view_of g' i = if decide (i = id) then None else view_of g i).
Proof.
  intros (Hd & Hnd & Hne & Hb & Hs & Hw) Hid Hlen. unfold destroy_me.
  set (g0 := {| data := data g; writer := _ |}).
  assert (Hsub : ring g0 `sublist_of` ring g) by apply bfilter_sublist.
  assert (Hne0 : ring g0 <> []).
  { intros E. destruct (ring g) as [|m1 [|m2 l]] eqn:Er; [done | cbn in Hlen; lia |].
    cbn in Hnd. apply list.NoDup_cons in Hnd as [Hm _]. rewrite not_elem_of_cons in Hm.
    cbn in E. destruct (Z.eqb_spec m1.1 id), (Z.eqb_spec m2.1 id); cbn in E; try done.
    destruct Hm. congruence. }
  assert (Hok : group_ok g0).
  { split; [done |]. split; [eapply sublist_NoDup; [exact Hnd | now apply fmap_sublist] |]. split; [done |].
    split; [eapply Forall_sub; eauto |]. split; [eapply StronglySorted_sub; eauto |].
    intros w. cbn. unfold writable. case_bool_decide as Hwi; [done |]. intros Hwr.
    destruct (Hw w Hwr) as (r & u & H1 & H2 & H3).
    exists (List.filter (fun m => negb (m.1 =? id)) r), u.
    split; [cbn; unfold writable; now rewrite bool_decide_false |]. split; [|done]. cbn.
    rewrite H2, List.filter_app. cbn. destruct (Z.eqb_spec w id); [congruence | done]. }
  assert (Hv : forall i, view_of g0 i = if decide (i = id) then None else view_of g i).
  { intros i. unfold view_of, version. cbn [ring data g0]. rewrite ring_ver_filter. now destruct (decide _). }
  destruct (ring g0) as [|m l] eqn:Er; [done |].
  destruct (_ && _); [|apply runs_ret; eauto].
  eapply runs_bind; [apply gc_spec; [done | rewrite Er; left] |].
  intros g' (I1 & _ & _ & I2). apply runs_ret. exists g'. split; [done |]. split; [done |].
  intros i. now rewrite I2.
Qed.
End Members.


(** ** Enumerating a range *)
Section Ranges.
Context {K : Type} `{KeyOrderLaws K} {V : Type}.
Implicit Types (l d : list (K * versioned_value V)) (g : group K V).

Lemma prefetch_spec v l :
  match prefetch v l with
  | (Some kv, l') => view v l = kv :: view v l' /\ (length l' < length l)%nat
  | (None, l') => view v l = [] /\ l' = []
  end.
Proof.
  induction l as [|e l IH]; [done |]. cbn [prefetch]. rewrite view_cons.
  destruct (valid_at v e.2); [split; [done | cbn; lia] |].
  destruct (prefetch v l) as [[kv|] l']; cbn [app length]; [|done]. destruct IH. split; [done | lia].
Qed.

(** A fresh range yields the entries visible to its snapshot, in order. *)
Lemma drain_spec fuel v l all n :
  (length l <= fuel)%nat ->
  drain fuel {| r_version := v; r_all := all; r_next := l; cached_next_ := None; count_ := n |} = Some (view v l).
Proof.
  revert l. induction fuel as [|fuel IH]; intros l Hl; cbn [drain]; unfold has_next, prefetch_next;
    cbn [cached_next_ r_version r_next r_all count_]; pose proof (prefetch_spec v l) as Hp.
  - destruct l; [|cbn in Hl; lia]. done.
  - destruct (prefetch v l) as [[kv|] l']; cbn -[drain view].
    + destruct Hp as [-> Hlt]. rewrite IH by lia. done.
    + destruct Hp as [-> _]. done.
Qed.

(** The query enumerates the entries of [id]'s view that satisfy [q]. *)
Definition enumerates g (id : Z) (q : K * V -> bool) (reverse : bool)
    (o : option (snapshot_range K V * group K V)) : Prop :=
  runs o (fun '(r, g') => group_ok g' /\
    exists kvs, view_of g id = Some kvs /\
      drain (length (r_all r)) r =
      Some (let sel := List.filter q kvs in if reverse then rev sel else sel)).

Lemma view_rev v d : view v (rev d) = rev (view v d).
Proof.
  induction d as [|e d IH]; [done |]. cbn [rev]. rewrite view_app, IH, (view_cons _ e d), rev_app_distr.
  f_equal. rewrite view_cons. cbn. now destruct (valid_at v e.2).
Qed.

Lemma range_between_spec g id tmp lo hi reverse q :
  group_ok g -> id ∈ (ring g).*1 -> tmp ∉ (ring g).*1 ->
  segment lo hi (data g) = List.filter (fun e => q (reveal e)) (data g) ->
  enumerates g id q reverse (range_between id tmp lo hi reverse g).
Proof.
  intros Hok Hid Htmp Hseg. unfold enumerates, range_between.
  eapply runs_bind; [now apply (snapshot_spec g tmp id) |].
  intros g' (Hok' & Hd & Hw & Hin & Hv). specialize (Hv tmp). rewrite decide_True in Hv by done.
  destruct (ring_ver_is_Some tmp (ring g') Hin) as [v Ev]. unfold version. rewrite Ev. cbn [mbind option_bind].
  apply runs_ret. split; [done |]. exists (view v (data g)). split.
  - rewrite <- Hv. unfold view_of, version. now rewrite Ev, Hd.
  - unfold new_range. cbn [r_all]. rewrite drain_spec by done. rewrite Hd, Hseg, <- view_bfilter. f_equal.
    destruct reverse; [apply view_rev | done].
Qed.

Lemma segment_all {A} (l : list A) : segment 0 (length l) l = l.
Proof. unfold segment. now rewrite firstn_all. Qed.

(** The five queries, forwards and in reverse. *)
Lemma queries_spec g id tmp reverse low high :
  group_ok g -> id ∈ (ring g).*1 -> tmp ∉ (ring g).*1 ->
  enumerates g id (fun _ => true) reverse (all id tmp reverse g)
  /\ enumerates g id (fun kv => keq kv.1 low) reverse (query id tmp low reverse g)
  /\ enumerates g id (fun kv => comp kv.1 low) reverse (query_lt id tmp low reverse g)
  /\ enumerates g id (fun kv => comp low kv.1) reverse (query_gt id tmp low reverse g)
  /\ (comp low high = true ->
      enumerates g id (fun kv => comp low kv.1 && comp kv.1 high) reverse (query_in id tmp low high reverse g)).
Proof using All.
  intros Hok Hid Htmp. pose proof Hok as (Hs & _).
  repeat split; [| | | | intros Hlh]; apply range_between_spec; try done.
  - rewrite segment_all. symmetry. apply filter_all. now apply Forall_true.
  - now apply equal_range_filter.
  - now apply below_filter.
  - unfold segment. rewrite firstn_all. now apply above_filter.
  - now apply between_filter.
Qed.

(** *** Copies *)
Lemma mm_insert_high k (x : V) (l : list (K * V)) :
  Forall (fun e => comp k e.1 = false) l -> mm_insert k x l = l ++ [(k, x)].
Proof. induction 1 as [|e l He _ IH]; [done |]. cbn. now rewrite He, IH. Qed.

Lemma insert_sorted_items (items l : list (K * V)) :
  mm_sorted (l ++ items) -> fold_left (fun m kv => mm_insert kv.1 kv.2 m) items l = l ++ items.
Proof.
  revert l. induction items as [|[k x] items IH]; intros l Hs; cbn [fold_left fst snd]; [now rewrite app_nil_r |].
  assert (Hl : Forall (fun e => comp k e.1 = false) l).
  { apply Forall_forall. intros e He. apply mm_sorted_app in Hs as (_ & _ & Hs).
    exact (Hs e (k, x) He ltac:(now left)). }
  rewrite mm_insert_high by done. rewrite IH; now rewrite <- app_assoc.
Qed.

Lemma view_sorted v d : mm_sorted d -> mm_sorted (view v d).
Proof.
  intros Hs. unfold view. change (fmap reveal) with (fmap (M := list) (prod_map (@Datatypes.id K) (@val V))).
  apply (mm_sorted_fmap val). now apply mm_sorted_filter.
Qed.
End Ranges.


(** ** The contract

    Every member of a group is an independent sorted multimap: writing changes the
    writer's only, a snapshot is a copy, and destroying a member or collecting
    garbage changes no other. *)
Section Contract.
Context {K : Type} `{KeyOrderLaws K} {V : Type} (eqV : V -> V -> bool).
Implicit Types (g : group K V).

(** [EraseRange] erases a range whose iterators are at the positions [lo] and [hi]
    of the shared data, which are [a] and [b] among the entries the writer sees. *)
Inductive snap_op :=
  | Insert (w : Z) (k : K) (x : V)
  | InsertItems (w : Z) (items : list (K * V))
  | Erase (w : Z) (k : K)
  | EraseFirst (w : Z) (k : K)
  | EraseValue (w : Z) (k : K) (x : V)
  | EraseFirstValue (w : Z) (k : K) (x : V)
  | EraseRange (w : Z) (lo hi : nat) (a b : nat)
  | Snapshot (id src : Z)
  | Destroy (id : Z)
  | Collect (id : Z).

Definition exec_op (o : snap_op) g : option (group K V) :=
  match o with
  | Insert w k x => insert w k x g
  | InsertItems w items => insert_items w items g
  | Erase w k => erase w k false g
  | EraseFirst w k => erase w k true g
  | EraseValue w k x => erase_value eqV w k x false g
  | EraseFirstValue w k x => erase_value eqV w k x true g
  | EraseRange w lo hi _ _ => erase_range w lo hi g
  | Snapshot id src => make_me_snapshot_of id src g
  | Destroy id => r ← destroy_me id g; r
  | Collect id => gc_run id g
  end.

(** The contents of the members, by address. *)
Abbreviation contents := (Z -> option (list (K * V))).

Definition spec_op (o : snap_op) (c : contents) : contents :=
  match o with
  | Insert w k x => fun i => if decide (i = w) then mm_insert k x <$> c i else c i
  | InsertItems w items => fun i =>
      if decide (i = w)
      then (fun l => fold_left (fun l kv => mm_insert kv.1 kv.2 l) items l) <$> c i else c i
  | Erase w k => fun i =>
      if decide (i = w) then List.filter (fun kv => negb (keq kv.1 k)) <$> c i else c i
  | EraseValue w k x => fun i =>
      if decide (i = w) then List.filter (fun kv => negb (keq kv.1 k && eqV x kv.2)) <$> c i else c i
  | EraseFirst w k => fun i =>
      if decide (i = w) then remove_first (fun kv => keq kv.1 k) <$> c i else c i
  | EraseFirstValue w k x => fun i =>
      if decide (i = w) then remove_first (at_key k (fun kv => eqV x kv.2)) <$> c i else c i
  | EraseRange w _ _ a b => fun i =>
      if decide (i = w) then (fun l => take a l ++ drop b l) <$> c i else c i
  | Snapshot id src => fun i => if decide (i = id) then c src else c i
  | Destroy id => fun i => if decide (i = id) then None else c i
  | Collect _ => c
  end.

(** The writer may write, below the last version. *)
Definition may_write g (w v : Z) : Prop := writer g = Some w /\ version w g = Some v /\ v + 1 < NEVER.

(** Only the writer writes; a snapshot has a new address; a destroyed map has
    company; a range that is erased holds a snapshot.  When the writer has no
    snapshots and erases one entry only, the code takes the first entry without
    looking whether it is visible: it has to be. *)
Definition legal (o : snap_op) g : Prop :=
  match o with
  | Insert w _ _ | InsertItems w _ | Erase w _ | EraseValue w _ _ => exists v, may_write g w v
  | EraseFirst w k => (exists v, may_write g w v) /\ (length (ring g) = 1%nat ->
      exists e, data g !! lower_bound k (data g) = Some e /\ keq e.1 k = true /\ removed_at e.2 = NEVER)
  | EraseFirstValue w k x => (exists v, may_write g w v) /\ (length (ring g) = 1%nat ->
      Forall (fun e => keq e.1 k = true -> eqV x (val e.2) = true -> removed_at e.2 = NEVER) (data g))
  | EraseRange w lo hi a b => exists v, may_write g w v /\ (1 < length (ring g))%nat /\ (lo <= hi)%nat
      /\ a = length (view v (take lo (data g))) /\ b = length (view v (take hi (data g)))
  | Snapshot id src => src ∈ (ring g).*1 /\ id ∉ (ring g).*1
  | Destroy id => id ∈ (ring g).*1 /\ (1 < length (ring g))%nat
  | Collect id => id ∈ (ring g).*1
  end.

Lemma writer_position g w v :
  group_ok g -> may_write g w v -> exists r, written_to g w r v /\ v + 1 < NEVER /\ (r = [] <-> length (ring g) = 1%nat).
Proof.
  intros Hok (Hw & Hv & Hb). pose proof Hok as (_ & _ & _ & _ & _ & Hwr). destruct (Hwr w Hw) as (r & u & Hu).
  exists r. rewrite (written_version g w r u Hok Hu) in Hv. injection Hv as ->. split; [done |]. split; [done |].
  destruct Hu as (_ & -> & _). rewrite length_app. cbn. destruct r; cbn; split; (done || lia).
Qed.

Lemma range_positions v lo hi (d : list (K * versioned_value V)) :
  let a := length (view v (take lo d)) in let b := length (view v (take hi d)) in
  view v (take lo d) ++ view v (drop hi d) = take a (view v d) ++ drop b (view v d).
Proof.
  pose proof (view_app v (take lo d) (drop lo d)) as E1. pose proof (view_app v (take hi d) (drop hi d)) as E2.
  rewrite take_drop in E1, E2. cbv zeta. f_equal.
  - now rewrite E1, take_app_length.
  - now rewrite E2, drop_app_length.
Qed.

Lemma exec_op_spec o g :
  group_ok g -> legal o g ->
  runs (exec_op o g) (fun g' => group_ok g' /\ forall i, view_of g' i = spec_op o (view_of g) i).
Proof using All.
  intros Hok. destruct o as [w k x|w items|w k|w k|w k x|w k x|w lo hi a b|id src|id|id]; cbn -[view].
  1-3, 5: intros (v & Hv); destruct (writer_position g w v Hok Hv) as (r & Hr & Hb & Hl).
  5, 6: intros ((v & Hv) & Ha); destruct (writer_position g w v Hok Hv) as (r & Hr & Hb & Hl); rewrite <- Hl in Ha.
  - exact (insert_spec g w r v k x Hok Hr Hb).
  - exact (insert_items_spec g w r v items Hok Hr Hb).
  - exact (erase_spec g w r v k Hok Hr Hb).
  - exact (erase_value_spec eqV g w r v k x Hok Hr Hb).
  - exact (erase_first_spec g w r v k Hok Hr Hb Ha).
  - exact (erase_value_first_spec eqV g w r v k x Hok Hr Hb Ha).
  - intros (v & Hv & Hsnap & Hlh & -> & ->). destruct (writer_position g w v Hok Hv) as (r & Hr & Hb & Hl).
    eapply runs_mono; [apply (erase_range_spec g w r v lo hi Hok Hr Hb Hlh); intros E; apply Hl in E; lia |].
    intros g'. apply (writes_at g w v); [now apply Hv |]. apply range_positions.
  - intros [Hs Hi]. eapply runs_mono; [now apply snapshot_spec |]. intros g' (A & _ & _ & _ & B). auto.
  - intros [Hi Hl]. eapply runs_bind; [now apply destroy_spec |]. intros o (g' & -> & A & B). now apply runs_ret.
  - intros Hi. eapply runs_mono; [now apply gc_spec |]. intros g' (A & _ & _ & B). auto.
Qed.

(** A history of legal operations. *)
Inductive history : group K V -> list snap_op -> group K V -> Prop :=
  | history_nil g : history g [] g
  | history_cons g o g1 os g2 :
      legal o g -> exec_op o g = Some g1 -> history g1 os g2 -> history g (o :: os) g2.

Lemma new_map_ok w : group_ok (new_map (K := K) (V := V) w).
Proof.
  split; [constructor |]. split; [apply NoDup_singleton |]. split; [done |].
  split; [constructor; [rewrite never_eq; cbn; lia | constructor] |]. split; [repeat constructor |].
  intros w' [= <-]. now exists [], 0.
Qed.

(** A copy sees what its source sees and changes no member of the source's group:
    it joins that group, or is the writer of a group of its own. *)
Definition copied g (id src : Z) (r : option (group K V) * group K V) : Prop :=
  let '(copy, g') := r in
  group_ok g' /\
  match copy with
  | None => readonly src g = true /\ forall i, view_of g' i = if decide (i = id) then view_of g src else view_of g i
  | Some c =>
      writable src g = true /\ (forall i, view_of g' i = view_of g i)
      /\ group_ok c /\ writer c = Some id
      /\ forall i, view_of c i = if decide (i = id) then view_of g src else None
  end.

Lemma copy_fresh_spec id (items : list (K * V)) :
  mm_sorted items ->
  runs (insert_items id items (new_map id)) (fun c => group_ok c /\ writer c = Some id
    /\ forall i, view_of c i = if decide (i = id) then Some items else None).
Proof using All.
  intros Hs. assert (Hw : written_to (new_map (K := K) (V := V) id) id [] 0) by done.
  assert (Hb : 0 + 1 < NEVER) by now rewrite never_eq.
  destruct (insert_items_spec (new_map id) id [] 0 items (new_map_ok id) Hw Hb) as (c & E & Hok & Hv).
  exists c. split; [exact E |]. split; [exact Hok |]. split.
  - unfold insert_items in E. rewrite (next_version_spec (new_map id) id [] 0 (new_map_ok id) Hw Hb) in E.
    cbn [mbind option_bind] in E. now injection E as <-.
  - intros i. rewrite Hv. unfold view_of, version. cbn -[fold_left view]. destruct (Z.eqb_spec id i) as [->|Hne].
    + rewrite !decide_True by done. cbn -[fold_left]. f_equal. now apply (insert_sorted_items items []).
    + now rewrite !decide_False by congruence.
Qed.

Lemma copy_spec g id src tmp :
  group_ok g -> src ∈ (ring g).*1 -> id ∉ (ring g).*1 -> tmp ∉ (ring g).*1 ->
  runs (copy_map id src tmp g) (copied g id src).
Proof using All.
  intros Hok Hsrc Hid Htmp. unfold copy_map. destruct (readonly src g) eqn:Hro.
  { eapply runs_bind; [now apply (snapshot_spec g id src) |]. intros g' (A & _ & _ & _ & B). now apply runs_ret. }
  unfold all, range_between. destruct (snapshot_spec g tmp src Hok Hsrc Htmp) as (g' & Eg & Hok' & Hd & _ & Hin & Hv).
  rewrite Eg. cbn [mbind option_bind]. destruct (ring_ver_is_Some tmp (ring g') Hin) as [v Ev].
  unfold version. rewrite Ev. cbn [mbind option_bind]. unfold new_range. cbn [r_all]. rewrite drain_spec by done.
  cbn [mbind option_bind]. rewrite <- Hd, segment_all. pose proof Hok' as (Hs & _).
  assert (Hview : view_of g src = Some (view v (data g'))).
  { specialize (Hv tmp). rewrite decide_True in Hv by done. rewrite <- Hv. unfold view_of, version. now rewrite Ev. }
  eapply runs_bind; [apply copy_fresh_spec, view_sorted, Hs |]. intros c (C1 & C2 & C3).
  assert (Hlen : (1 < length (ring g'))%nat).
  { unfold make_me_snapshot_of in Eg. destruct (version src g); [|discriminate]. injection Eg as <-. cbn.
    rewrite (put_left_perm src _ (ring g) Hsrc). destruct Hok as (_ & _ & Hne & _). destruct (ring g); [done | cbn; lia]. }
  eapply runs_bind; [now apply destroy_spec |]. intros o (g2 & -> & Hok2 & Hv2). cbn [mbind option_bind].
  apply runs_ret. split; [done |]. split; [unfold readonly in Hro; now apply negb_false_iff |]. split.
  - intros i. rewrite Hv2, Hv. destruct (decide (i = tmp)) as [->|]; [|done].
    unfold view_of, version. now rewrite (proj2 (ring_ver_None tmp (ring g)) Htmp).
  - repeat (split; [done |]). intros i. now rewrite C3, Hview.
Qed.

Lemma history_spec g os g' :
  group_ok g -> history g os g' ->
  group_ok g'
  /\ (forall i, view_of g' i = fold_left (fun c o => spec_op o c) os (view_of g) i)
  /\ (forall o, legal o g' -> is_Some (exec_op o g')).
Proof using All.
  intros Hok Hh. induction Hh as [g|g o g1 os g2 Hl He Hh IH].
  - split; [done |]. split; [done |]. intros o Hl. destruct (exec_op_spec o g Hok Hl) as (g' & -> & _). eauto.
  - destruct (exec_op_spec o g Hok Hl) as (g1' & E & Hok1 & Hv). rewrite He in E. injection E as <-.
    destruct (IH Hok1) as (I1 & I2 & I3). split; [done |]. split; [|done]. intros i. rewrite I2. cbn [fold_left].
    clear -Hv. revert i. assert (Hc : forall i, view_of g1 i = spec_op o (view_of g) i) by done.
    revert Hc. generalize (view_of g1) (spec_op o (view_of g)). induction os as [|o' os IHo]; intros c c' Hc i; [apply Hc |].
    cbn [fold_left]. apply IHo. intros j. destruct o'; cbn; rewrite ?Hc; try done; destruct (decide _); now rewrite ?Hc.
Qed.

(** C23. Refinement: along any history of insertions, erasures (by key, by key and
    value, of the first match only, or of a range), snapshots, destructions and
    collections of a group, every operation succeeds and every member's content is
    the one of the abstract specification, in which members are independent sorted
    multimaps; in particular a snapshot never changes.  A copy of a member, by
    construction or by assignment to a destroyed one, sees what its source sees and
    changes no member.  The operations are those allowed by [legal]: only the writer
    writes, and an erasure of the first match of a writer without snapshots finds a
    visible entry; without that the code erases another one ([erase_first_misses]). *)
Theorem snapshot_map_refines g os g' :
  group_ok g -> history g os g' ->
  group_ok g'
  /\ (forall i, view_of g' i = fold_left (fun c o => spec_op o c) os (view_of g) i)
  /\ (forall o, legal o g' -> is_Some (exec_op o g'))
  /\ (forall id src tmp, src ∈ (ring g').*1 -> id ∉ (ring g').*1 -> tmp ∉ (ring g').*1 ->
        runs (copy_map id src tmp g') (copied g' id src)).
Proof using All.
  intros Hok Hh. destruct (history_spec g os g' Hok Hh) as (H1 & H2 & H3).
  repeat (split; [done |]). intros id src tmp. now apply copy_spec.
Qed.

(** A range over any member (all, by key, below, above or strictly between two
    keys, forwards or in reverse) enumerates exactly the entries of the member's
    content with that property, in key order or in reverse. *)
Theorem snapshot_queries_exact g id tmp reverse low high :
  group_ok g -> id ∈ (ring g).*1 -> tmp ∉ (ring g).*1 ->
  enumerates g id (fun _ => true) reverse (all id tmp reverse g)
  /\ enumerates g id (fun kv => keq kv.1 low) reverse (query id tmp low reverse g)
  /\ enumerates g id (fun kv => comp kv.1 low) reverse (query_lt id tmp low reverse g)
  /\ enumerates g id (fun kv => comp low kv.1) reverse (query_gt id tmp low reverse g)
  /\ (comp low high = true ->
      enumerates g id (fun kv => comp low kv.1 && comp kv.1 high) reverse (query_in id tmp low high reverse g)).
Proof using H0. now apply queries_spec. Qed.

(** Erasing only the first match does not hide the value when the writer has no
    snapshots and the first entry with the key was already removed (for a snapshot
    since destroyed): that dead entry is erased and the content is unchanged. *)
Theorem erase_first_misses g w v k e :
  group_ok g -> written_to g w [] v -> v + 1 < NEVER ->
  data g !! lower_bound k (data g) = Some e -> removed_at e.2 <> NEVER ->
  runs (erase w k true g) (fun g' => view_of g' w = view_of g w).
Proof using H0.
  intros Hok Hw Hv He Hdead. unfold erase. rewrite (next_version_spec g w [] v) by done. cbn [mbind option_bind].
  rewrite bumped_readonly by done. cbn [mbind option_bind data]. rewrite bool_decide_false by tauto.
  rewrite He. cbn [mbind option_bind]. apply runs_ret.
  pose proof Hok as (Hs & _). pose proof Hw as (_ & _ & Hset).
  assert (Hx : valid_at v e.2 = false).
  { assert (He' : settled v e.2) by (eapply Forall_lookup_1 in Hset; eauto).
    rewrite (settled_valid v v) by (done || lia). now apply Z.eqb_neq. }
  pose proof (view_delete v _ _ _ He Hx) as Hview.
  eapply (writes_intro g w [] v _ 0 0 (fun l => l)) in Hok as [_ Hv'].
  - rewrite Hv'. rewrite decide_True by done. now destruct (view_of g w).
  - done.
  - done.
  - eapply mm_sorted_sub; [apply sublist_delete | done].
  - apply Forall_delete. eapply settled_mono; [|exact Hset]. lia.
  - rewrite <- Hview. apply view_later; [now apply Forall_delete | lia].
  - done.
Qed.
End Contract.


(** ** Examples *)
#[local] Instance Z_order : KeyOrder Z := Z.ltb.
#[local] Instance Z_order_laws : KeyOrderLaws Z.
Proof. split; unfold comp, Z_order; intros *; lia. Qed.

Definition history1 : list (snap_op (K := Z) (V := Z)) :=
  [Insert 1 5 50; Snapshot 2 1; Erase 1 5; Insert 1 5 51; Destroy 2; Collect 1].

(** One of two equal entries goes, then those between two positions. *)
Definition history3 : list (snap_op (K := Z) (V := Z)) :=
  [InsertItems 1 [(5, 50); (5, 51); (6, 60); (7, 70)]; EraseFirst 1 5; Snapshot 2 1; EraseRange 1 1 2 1 2;
   EraseFirstValue 1 5 51].

Definition exec_history (os : list (snap_op (K := Z) (V := Z))) (g : group Z Z) : option (group Z Z) :=
  fold_left (fun o op => g ← o; exec_op Z.eqb op g) os (Some g).

(** The state before the snapshot is destroyed, and at the end. *)
Definition group4 : group Z Z := default (new_map 1) (exec_history (take 4 history1) (new_map 1)).
Definition group6 : group Z Z := default (new_map 1) (exec_history history1 (new_map 1)).

Ltac may_write_now := eexists; split; [reflexivity | split; [vm_compute; reflexivity | vm_compute; reflexivity]].
Ltac legal_now :=
  cbn; first
    [ may_write_now
    | split; [may_write_now | intros E; vm_compute in E; discriminate E]
    | split; [may_write_now | intros _; eexists; split; [vm_compute; reflexivity | split; vm_compute; reflexivity]]
    | split; apply (bool_decide_unpack _); vm_compute; exact I
    | split; [apply (bool_decide_unpack _); vm_compute; exact I | vm_compute; lia]
    | apply (bool_decide_unpack _); vm_compute; exact I ].

Ltac history_now := eapply history_cons; [legal_now | vm_compute; reflexivity |].

Lemma history1_runs : history Z.eqb (new_map 1) history1 group6.
Proof. unfold history1. do 6 history_now. vm_compute. apply history_nil. Qed.

Definition group5 : group Z Z := default (new_map 1) (exec_history history3 (new_map 1)).

Lemma history3_runs : history Z.eqb (new_map 1) history3 group5.
Proof.
  unfold history3. do 3 history_now. eapply history_cons; [|vm_compute; reflexivity |].
  - exists 2. split; [split; [reflexivity | split; vm_compute; reflexivity] |]. split_and!; vm_compute; lia || reflexivity.
  - history_now. vm_compute. apply history_nil.
Qed.

Lemma snapshot_map_refines_witness :
  group_ok group6 /\ view_of group6 1 = Some [(5, 51)] /\ view_of group4 2 = Some [(5, 50)]
  /\ view_of group5 1 = Some [(7, 70)] /\ view_of group5 2 = Some [(5, 51); (6, 60); (7, 70)]
  /\ runs (copy_map 9 1 8 group5) (copied group5 9 1).
Proof.
  destruct (snapshot_map_refines Z.eqb (new_map 1) history1 group6 (new_map_ok 1) history1_runs) as (H1 & H2 & _).
  destruct (snapshot_map_refines Z.eqb (new_map 1) history3 group5 (new_map_ok 1) history3_runs) as (_ & H3 & _ & H4).
  split; [exact H1 |]. split; [rewrite H2; vm_compute; reflexivity |]. split; [vm_compute; reflexivity |].
  split; [rewrite H3; vm_compute; reflexivity |]. split; [rewrite H3; vm_compute; reflexivity |].
  apply H4; apply (bool_decide_unpack _); vm_compute; exact I.
Defined.

(** Key 5 is removed under a snapshot and inserted again when it is gone. *)
Definition history2 : list (snap_op (K := Z) (V := Z)) :=
  [Insert 1 5 50; Snapshot 2 1; Erase 1 5; Destroy 2; Insert 1 5 51].
Definition reinserted : group Z Z := default (new_map 1) (exec_history history2 (new_map 1)).

Lemma reinserted_ok : group_ok reinserted.
Proof.
  assert (Hh : history Z.eqb (new_map 1) history2 reinserted).
  { unfold history2. do 5 history_now. vm_compute. apply history_nil. }
  exact (proj1 (history_spec Z.eqb _ _ _ (new_map_ok 1) Hh)).
Qed.

Lemma group4_ok : group_ok group4.
Proof.
  assert (Hh : history Z.eqb (new_map 1) (take 4 history1) group4).
  { unfold history1. do 4 history_now. vm_compute. apply history_nil. }
  exact (proj1 (history_spec Z.eqb _ _ _ (new_map_ok 1) Hh)).
Qed.

Lemma snapshot_queries_exact_witness :
  enumerates group4 2 (fun kv => keq kv.1 5) false (query 2 7 5 false group4)
  /\ view_of group4 2 = Some [(5, 50)].
Proof.
  split; [|vm_compute; reflexivity].
  refine (proj1 (proj2 (snapshot_queries_exact group4 2 7 false 5 6 group4_ok _ _)));
    apply (bool_decide_unpack _); vm_compute; exact I.
Defined.

Lemma erase_first_misses_witness :
  runs (erase 1 5 true reinserted) (fun g' => view_of g' 1 = Some [(5, 51)]).
Proof.
  change (Some [(5, 51)]) with (view_of reinserted 1).
  eapply (erase_first_misses reinserted 1 3 5 _ reinserted_ok).
  - split; [reflexivity |]. split; [reflexivity |].
    change (data reinserted) with [(5, {| created_at := 1; removed_at := 2; val := 50 |});
      (5, {| created_at := 3; removed_at := NEVER; val := 51 |})].
    repeat constructor; cbn; unfold settled; cbn; rewrite ?never_eq; lia.
  - vm_compute. reflexivity.
  - vm_compute. reflexivity.
  - vm_compute. discriminate.
Defined.
End SnapshotMap.
