(* ===== verification/Bytes.v ===== *)
(** * Bytes

    The little-endian memory image of an integer, as [memcpy] of an integer
    variable to and from a character buffer produces it, and reads and writes at
    an offset of a buffer.  A byte is an integer in [0, 256). *)

From Stdlib Require Import ZArith Lia.
From stdpp Require Import base list option numbers.
From S2P Require Import Prelude.
Local Open Scope Z_scope.

Definition is_byte (b : Z) : Prop := 0 <= b < 256.

Fixpoint le_bytes (n : nat) (z : Z) : list Z :=
  match n with
  | O => []
  | S n => z mod 256 :: le_bytes n (z / 256)
  end.

Fixpoint le_int (l : list Z) : Z :=
  match l with
  | [] => 0
  | b :: l => b + 256 * le_int l
  end.

Lemma length_le_bytes n z : length (le_bytes n z) = n.
Proof. revert z. induction n as [|n IH]; intros z; cbn; [done | now rewrite IH]. Qed.

Lemma le_bytes_are_bytes n z : Forall is_byte (le_bytes n z).
Proof.
  revert z. induction n as [|n IH]; intros z; cbn; constructor; [|auto].
  unfold is_byte. apply Z.mod_pos_bound. lia.
Qed.

Lemma le_int_bytes n z : le_int (le_bytes n z) = z mod 256 ^ Z.of_nat n.
Proof.
  revert z. induction n as [|n IH]; intros z; cbn [le_bytes le_int]; [now rewrite Z.mod_1_r |].
  rewrite IH, Nat2Z.inj_succ, Z.pow_succ_r by lia.
  rewrite Z.rem_mul_r by lia. lia.
Qed.

Lemma le_int_bound l : Forall is_byte l -> 0 <= le_int l < 256 ^ Z.of_nat (length l).
Proof.
  induction 1 as [|b l Hb Hl IH]; cbn [le_int length]; [cbn; lia |].
  rewrite Nat2Z.inj_succ, Z.pow_succ_r by lia. unfold is_byte in Hb. lia.
Qed.

(** Reading back a 32-bit or a 64-bit integer. *)
Lemma le_signed n w z :
  (0 < w) -> 256 ^ Z.of_nat n = 2 ^ w -> - 2 ^ (w - 1) <= z < 2 ^ (w - 1) ->
  swrap w (le_int (le_bytes n z)) = z.
Proof.
  intros Hw Hn Hz. rewrite le_int_bytes, Hn. unfold swrap, wrap. rewrite Z.mod_mod by lia.
  exact (swrap_id w z Hw Hz).
Qed.

Lemma le_unsigned n w z : 256 ^ Z.of_nat n = 2 ^ w -> 0 <= z < 2 ^ w -> le_int (le_bytes n z) = z.
Proof. intros Hn Hz. rewrite le_int_bytes, Hn. now apply Z.mod_small. Qed.

(** ** Buffers *)

(** [len] bytes from offset [pos]; reading beyond the buffer is [None]. *)
Definition read_at (pos len : nat) (buf : list Z) : option (list Z) :=
  if decide (pos + len <= length buf)%nat then Some (take len (drop pos buf)) else None.

Definition write_at (pos : nat) (bytes buf : list Z) : option (list Z) :=
  if decide (pos + length bytes <= length buf)%nat
  then Some (take pos buf ++ bytes ++ drop (pos + length bytes) buf) else None.

Lemma write_at_length pos bytes buf buf' : write_at pos bytes buf = Some buf' -> length buf' = length buf.
Proof.
  unfold write_at. case_decide; [|done]. intros [= <-]. rewrite !length_app, length_take, length_drop. lia.
Qed.

Lemma write_at_bytes pos bytes buf buf' :
  Forall is_byte bytes -> Forall is_byte buf -> write_at pos bytes buf = Some buf' -> Forall is_byte buf'.
Proof.
  unfold write_at. case_decide; [|done]. intros Hb Hf [= <-].
  rewrite !Forall_app. auto using Forall_take, Forall_drop.
Qed.

Lemma read_at_length pos len buf bytes : read_at pos len buf = Some bytes -> length bytes = len.
Proof. unfold read_at. case_decide; [|done]. intros [= <-]. rewrite length_take, length_drop. lia. Qed.

Lemma read_at_bytes pos len buf bytes :
  Forall is_byte buf -> read_at pos len buf = Some bytes -> Forall is_byte bytes.
Proof. unfold read_at. case_decide; [|done]. intros Hf [= <-]. auto using Forall_take, Forall_drop. Qed.

(** Reading what was written, and reading elsewhere. *)
Lemma read_write_same pos bytes buf buf' :
  write_at pos bytes buf = Some buf' -> read_at pos (length bytes) buf' = Some bytes.
Proof.
  intros Hw. pose proof (write_at_length _ _ _ _ Hw) as Hl. unfold write_at in Hw. case_decide; [|done].
  injection Hw as <-. unfold read_at. rewrite decide_True by lia. f_equal.
  rewrite drop_app_le, (drop_ge (take pos buf)) by (rewrite length_take; lia).
  cbn. now rewrite take_app_length.
Qed.

Lemma read_write_other pos bytes buf buf' p len :
  write_at pos bytes buf = Some buf' -> (p + len <= pos \/ pos + length bytes <= p)%nat ->
  read_at p len buf' = read_at p len buf.
Proof.
  intros Hw Hdis. pose proof (write_at_length _ _ _ _ Hw) as Hl. unfold write_at in Hw. case_decide; [|done].
  injection Hw as <-. unfold read_at. rewrite Hl. case_decide; [|done]. f_equal.
  destruct Hdis as [Hd|Hd].
  - rewrite !take_drop_commute. f_equal. rewrite take_app_le by (rewrite length_take; lia).
    rewrite take_take. f_equal. lia.
  - rewrite app_assoc, drop_app_ge by (rewrite length_app, length_take; lia).
    rewrite length_app, length_take, drop_drop. f_equal. f_equal. lia.
Qed.

Lemma read_at_middle (a b c : list Z) : read_at (length a) (length b) (a ++ b ++ c) = Some b.
Proof.
  unfold read_at. rewrite decide_True by (rewrite !length_app; lia).
  now rewrite drop_app_length, take_app_length.
Qed.

Lemma write_at_middle (a b b' c : list Z) :
  length b' = length b -> write_at (length a) b' (a ++ b ++ c) = Some (a ++ b' ++ c).
Proof.
  intros Hl. unfold write_at. rewrite decide_True by (rewrite !length_app; lia).
  rewrite take_app_length. do 3 f_equal. rewrite Hl, <- length_app, app_assoc. apply drop_app_length.
Qed.

Lemma read_at_in_range pos len buf :
  (pos + len <= length buf)%nat -> read_at pos len buf = Some (take len (drop pos buf)).
Proof. intros H. unfold read_at. now rewrite decide_True. Qed.

Lemma write_at_in_range pos bytes buf :
  (pos + length bytes <= length buf)%nat -> is_Some (write_at pos bytes buf).
Proof. intros H. unfold write_at. rewrite decide_True by done. eauto. Qed.
