(* ===== verification/MemSchema.v ===== *)
(** * Values and schemas of the in-memory database

    memdb/value.h, memdb/value.cc and memdb/schema.h, memdb/schema.cc.  A value is
    one of the four column types or unknown; a [double] is its 64-bit pattern and
    a string its bytes.  The schema lays the columns out in a row: the fixed-size
    columns one after the other in the fixed part, the variable-size columns by
    their rank in the variable part.  A failed [verify] is [None]; the byte sizes,
    which are far below 2^31, are exact. *)

From Stdlib Require Import ZArith Lia.
From stdpp Require Import base list option numbers strings gmap sets.
From S2P Require Import Prelude ALock Bytes.
Local Open Scope Z_scope.

(** ** Values *)
Inductive kind := UNKNOWN | I32 | I64 | DOUBLE | STR.
#[export] Instance kind_eq : EqDecision kind.
Proof. solve_decision. Defined.

Inductive value :=
  | VUnknown
  | VI32 (v : Z)
  | VI64 (v : Z)
  | VDouble (bits : Z)
  | VStr (s : list Z).

Definition get_kind (v : value) : kind :=
  match v with
  | VUnknown => UNKNOWN | VI32 _ => I32 | VI64 _ => I64 | VDouble _ => DOUBLE | VStr _ => STR
  end.

(** The values a C++ object can hold. *)
Definition value_ok (v : value) : Prop :=
  match v with
  | VUnknown => True
  | VI32 z => - 2 ^ 31 <= z < 2 ^ 31
  | VI64 z => - 2 ^ 63 <= z < 2 ^ 63
  | VDouble b => 0 <= b < 2 ^ 64
  | VStr s => Forall is_byte s
  end.

Definition get_i32 (v : value) : option Z := match v with VI32 z => Some z | _ => None end.
Definition get_i64 (v : value) : option Z :=
  match v with VI64 z => Some z | VI32 z => Some z | _ => None end.
Definition get_double (v : value) : option Z := match v with VDouble b => Some b | _ => None end.
Definition get_str (v : value) : option (list Z) := match v with VStr s => Some s | _ => None end.

(** The comparisons of IEEE doubles on their bit patterns: a pattern that is no
    number is not comparable, the others are ordered by sign and magnitude. *)
Definition is_nan (b : Z) : bool := 2047 * 2 ^ 52 <? b mod 2 ^ 63.
Definition magnitude (b : Z) : Z := if 2 ^ 63 <=? b then - (b mod 2 ^ 63) else b mod 2 ^ 63.
Definition double_lt (a b : Z) : bool := negb (is_nan a) && negb (is_nan b) && (magnitude a <? magnitude b).
Definition double_eq (a b : Z) : bool := negb (is_nan a) && negb (is_nan b) && (magnitude a =? magnitude b).

(** The lexicographic order of byte strings: [memcmp], then the lengths. *)
Fixpoint str_lt (a b : list Z) : bool :=
  match a, b with
  | _, [] => false
  | [], _ :: _ => true
  | x :: a, y :: b => (x <? y) || ((x =? y) && str_lt a b)
  end.

(** -1, 0 or 1; values of different kinds are not compared. *)
Definition three_way (lt eq : bool) : Z := if lt then -1 else if eq then 0 else 1.

Definition compare (a b : value) : option Z :=
  match a, b with
  | VUnknown, VUnknown => Some 0
  | VI32 x, VI32 y => Some (three_way (x <? y) (x =? y))
  | VI64 x, VI64 y => Some (three_way (x <? y) (x =? y))
  | VDouble x, VDouble y => Some (three_way (double_lt x y) (double_eq x y))
  | VStr x, VStr y => Some (three_way (str_lt x y) (bool_decide (x = y)))
  | _, _ => None
  end.

(** The memory image of a value. *)
Definition write_binary (v : value) : option (list Z) :=
  match v with
  | VI32 z => Some (le_bytes 4 z)
  | VI64 z => Some (le_bytes 8 z)
  | VDouble b => Some (le_bytes 8 b)
  | VStr s => Some s
  | VUnknown => None
  end.

Definition size_of (k : kind) : Z :=
  match k with I32 => 4 | I64 => 8 | DOUBLE => 8 | _ => 0 end.

(** ** Schemas *)
Record column_info := {
  col_id : Z;
  name : string;
  indexed : bool;
  type : kind;
  place : Z }.    (* the union of fixed_size_offst and var_size_idx *)

Record schema := {
  col_name_to_id_ : gmap string Z;
  col_info_ : list column_info;
  key_cols_id_ : list Z;
  var_size_cols_ : Z;
  fixed_part_size_ : Z;
  hidden_fixed_ : Z;
  hidden_var_ : Z;
  frozen_ : bool }.

Definition new_schema : schema :=
  {| col_name_to_id_ := ∅; col_info_ := []; key_cols_id_ := []; var_size_cols_ := 0;
     fixed_part_size_ := 0; hidden_fixed_ := 0; hidden_var_ := 0; frozen_ := false |}.

Definition is_str (k : kind) : bool := bool_decide (k = STR).

(** The new column's id, or -1 if the name is taken. *)
Definition do_add_column (nm : string) (ty : kind) (key : bool) (s : schema) : option (Z * schema) :=
  let this_column_id := Z.of_nat (size (col_name_to_id_ s)) in
  match col_name_to_id_ s !! nm with
  | Some _ => Some (-1, s)
  | None =>
      _ ← verify (negb (bool_decide (ty = UNKNOWN)));
      let info := {| col_id := this_column_id; name := nm; indexed := key; type := ty;
                     place := if is_str ty then var_size_cols_ s else fixed_part_size_ s |} in
      Some (this_column_id,
            {| col_name_to_id_ := <[nm := this_column_id]> (col_name_to_id_ s);
               col_info_ := col_info_ s ++ [info];
               key_cols_id_ := if key then key_cols_id_ s ++ [this_column_id] else key_cols_id_ s;
               var_size_cols_ := if is_str ty then var_size_cols_ s + 1 else var_size_cols_ s;
               fixed_part_size_ := fixed_part_size_ s + size_of ty;
               hidden_fixed_ := hidden_fixed_ s; hidden_var_ := hidden_var_ s;
               frozen_ := frozen_ s |})
  end.

Definition add_column (nm : string) (ty : kind) (key : bool) (s : schema) : option (Z * schema) :=
  _ ← verify (negb (frozen_ s) && (hidden_fixed_ s =? 0) && (hidden_var_ s =? 0));
  do_add_column nm ty key s.

Definition add_key_column (nm : string) (ty : kind) (s : schema) : option (Z * schema) :=
  add_column nm ty true s.

Definition set_hidden (hf hv : Z) (s : schema) : schema :=
  {| col_name_to_id_ := col_name_to_id_ s; col_info_ := col_info_ s; key_cols_id_ := key_cols_id_ s;
     var_size_cols_ := var_size_cols_ s; fixed_part_size_ := fixed_part_size_ s;
     hidden_fixed_ := hf; hidden_var_ := hv; frozen_ := frozen_ s |}.

(** The counters are advanced even when the name is taken. *)
Definition add_hidden_column (nm : string) (ty : kind) (s : schema) : option (Z * schema) :=
  _ ← verify (negb (frozen_ s));
  '(ret, s) ← do_add_column nm ty false s;
  Some (ret, if is_str ty then set_hidden (hidden_fixed_ s) (hidden_var_ s + 1) s
             else set_hidden (hidden_fixed_ s + 1) (hidden_var_ s) s).

Definition get_column_id (nm : string) (s : schema) : Z := default (-1) (col_name_to_id_ s !! nm).

(** [&col_info_[column_id]]; out of range is undefined. *)
Definition get_column_info (column_id : Z) (s : schema) : option column_info :=
  if column_id <? 0 then None else col_info_ s !! Z.to_nat column_id.

Definition columns_count (s : schema) : Z :=
  Z.of_nat (length (col_info_ s)) - hidden_fixed_ s - hidden_var_ s.

Definition freeze (s : schema) : schema :=
  {| col_name_to_id_ := col_name_to_id_ s; col_info_ := col_info_ s; key_cols_id_ := key_cols_id_ s;
     var_size_cols_ := var_size_cols_ s; fixed_part_size_ := fixed_part_size_ s;
     hidden_fixed_ := hidden_fixed_ s; hidden_var_ := hidden_var_ s; frozen_ := true |}.

(** *** Schemas with secondary indices *)
Record indexed_schema := {
  base : schema;
  idx_col_ : Z;
  all_idx_ : list (list Z);
  idx_name_ : gmap string Z }.

Definition new_indexed_schema : indexed_schema :=
  {| base := new_schema; idx_col_ := -1; all_idx_ := []; idx_name_ := ∅ |}.

Definition index_sanity_check (idx : list Z) (s : schema) : option unit :=
  _ ← verify (bool_decide (NoDup idx));
  verify (forallb (fun c => (0 <=? c) && (c <? columns_count s)) idx).

(** Marks a column as part of an index. *)
Definition mark_indexed (c : Z) (l : list column_info) : list column_info :=
  alter (fun i => {| col_id := col_id i; name := name i; indexed := true; type := type i;
                     place := place i |}) (Z.to_nat c) l.

Definition set_col_info (l : list column_info) (s : schema) : schema :=
  {| col_name_to_id_ := col_name_to_id_ s; col_info_ := l; key_cols_id_ := key_cols_id_ s;
     var_size_cols_ := var_size_cols_ s; fixed_part_size_ := fixed_part_size_ s;
     hidden_fixed_ := hidden_fixed_ s; hidden_var_ := hidden_var_ s; frozen_ := frozen_ s |}.

Definition add_index (nm : string) (idx : list Z) (s : indexed_schema) : option (Z * indexed_schema) :=
  _ ← index_sanity_check idx (base s);
  let this_idx_id := Z.of_nat (length (all_idx_ s)) in
  match idx_name_ s !! nm with
  | Some _ => Some (-1, s)
  | None =>
      Some (this_idx_id,
            {| base := set_col_info (fold_left (fun l c => mark_indexed c l) idx (col_info_ (base s))) (base s);
               idx_col_ := idx_col_ s; all_idx_ := all_idx_ s ++ [idx];
               idx_name_ := <[nm := this_idx_id]> (idx_name_ s) |})
  end.

Definition add_index_by_column_names (nm : string) (cols : list string) (s : indexed_schema)
  : option (Z * indexed_schema) :=
  idx ← mapM (fun c => let i := get_column_id c (base s) in _ ← verify (0 <=? i); Some i) cols;
  add_index nm idx s.

(** [IndexedSchema::freeze] adds the hidden column of the master index. *)
Definition freeze_indexed (s : indexed_schema) : option indexed_schema :=
  if frozen_ (base s)
  then Some {| base := freeze (base s); idx_col_ := idx_col_ s; all_idx_ := all_idx_ s; idx_name_ := idx_name_ s |}
  else
    '(c, b) ← add_hidden_column ".index" I64 (base s);
    _ ← verify (0 <=? c);
    Some {| base := freeze b; idx_col_ := c; all_idx_ := all_idx_ s; idx_name_ := idx_name_ s |}.

(** ** The layout *)
Definition fixed_size (l : list column_info) : Z := foldr (fun c z => size_of (type c) + z) 0 l.
Definition str_count (l : list column_info) : Z := Z.of_nat (length (List.filter (fun c => is_str (type c)) l)).

Definition column_ok (s : schema) (i : nat) (c : column_info) : Prop :=
  col_id c = Z.of_nat i /\ type c <> UNKNOWN
  /\ place c = (if is_str (type c) then str_count (take i (col_info_ s)) else fixed_size (take i (col_info_ s)))
  /\ col_name_to_id_ s !! name c = Some (Z.of_nat i).

Definition schema_ok (s : schema) : Prop :=
  (forall i c, col_info_ s !! i = Some c -> column_ok s i c)
  /\ size (col_name_to_id_ s) = length (col_info_ s)
  /\ var_size_cols_ s = str_count (col_info_ s)
  /\ fixed_part_size_ s = fixed_size (col_info_ s)
  /\ Forall (fun k => exists c, get_column_info k s = Some c /\ indexed c = true) (key_cols_id_ s).

Lemma fixed_size_cons c l : fixed_size (c :: l) = size_of (type c) + fixed_size l.
Proof. reflexivity. Qed.

Lemma fixed_size_app l k : fixed_size (l ++ k) = fixed_size l + fixed_size k.
Proof. induction l as [|c l IH]; [done |]. cbn [app]. rewrite !fixed_size_cons. lia. Qed.

Lemma str_count_cons c l : str_count (c :: l) = Z.b2z (is_str (type c)) + str_count l.
Proof. unfold str_count. cbn [List.filter]. destruct (is_str (type c)); cbn [Z.b2z length]; lia. Qed.

Lemma str_count_app l k : str_count (l ++ k) = str_count l + str_count k.
Proof. unfold str_count. rewrite List.filter_app, length_app. lia. Qed.

Lemma size_of_nonneg k : 0 <= size_of k.
Proof. destruct k; cbn; lia. Qed.

Lemma fixed_size_nonneg l : 0 <= fixed_size l.
Proof. induction l as [|c l IH]; [done |]. pose proof (size_of_nonneg (type c)). rewrite fixed_size_cons. lia. Qed.

Lemma new_schema_ok : schema_ok new_schema.
Proof.
  split; [intros i c; cbn; now rewrite lookup_nil |]. split; [apply map_size_empty |].
  split; [done |]. split; [done | constructor].
Qed.

Lemma get_info_app k s s' c l :
  col_info_ s' = col_info_ s ++ l -> get_column_info k s = Some c -> get_column_info k s' = Some c.
Proof.
  unfold get_column_info. intros ->. destruct (k <? 0); [done |]. intros Hc. now apply lookup_app_l_Some.
Qed.

(** Adding a column keeps the layout, and fails only by its own checks. *)
Lemma do_add_column_ok nm ty key s :
  schema_ok s -> ty <> UNKNOWN ->
  runs (do_add_column nm ty key s) (fun '(ret, s') => schema_ok s' /\
    ((ret = -1 /\ s' = s /\ is_Some (col_name_to_id_ s !! nm)) \/
     (col_name_to_id_ s !! nm = None /\ ret = Z.of_nat (length (col_info_ s))
      /\ exists c, col_info_ s' = col_info_ s ++ [c] /\ type c = ty /\ name c = nm /\ indexed c = key))).
Proof.
  intros Hok Hty. unfold do_add_column.
  destruct (col_name_to_id_ s !! nm) as [i|] eqn:E; [apply runs_ret; eauto 6 |].
  rewrite bool_decide_eq_false_2 by done. cbn. apply runs_ret. destruct Hok as (HC & HS & HV & HF & HK).
  rewrite HS. set (c := {| col_id := _ |}). split; [|right; split; [done |]; split; [done |]; now exists c].
  split; [|split; [|split; [|split]]].
  - intros i c'. cbn. intros [Hc'|[Hi Hc']]%lookup_app_Some.
    + destruct (HC i c' Hc') as (C1 & C2 & C3 & C4). pose proof (lookup_lt_Some _ _ _ Hc').
      split; [done |]. split; [done |]. cbn [col_info_]. rewrite take_app_le by lia. split; [done |].
      cbn. rewrite lookup_insert_ne; [done | congruence].
    + apply list_lookup_singleton_Some in Hc' as [Hz <-]. assert (i = length (col_info_ s)) as -> by lia.
      split; [done |]. split; [done |]. cbn. rewrite take_app_length, HV, HF. split; [done |].
      now rewrite lookup_insert_eq.
  - cbn. rewrite map_size_insert_None, length_app, HS by done. cbn. lia.
  - cbn [var_size_cols_ col_info_]. rewrite str_count_app, str_count_cons, HV.
    change (type c) with ty. change (str_count []) with 0. destruct (is_str ty); cbn [Z.b2z]; lia.
  - cbn [fixed_part_size_ col_info_]. rewrite fixed_size_app, fixed_size_cons, HF.
    change (type c) with ty. change (fixed_size []) with 0. lia.
  - assert (HK' : Forall (fun k => exists c', get_column_info k {| col_name_to_id_ := <[nm := Z.of_nat (length (col_info_ s))]> (col_name_to_id_ s);
      col_info_ := col_info_ s ++ [c]; key_cols_id_ := []; var_size_cols_ := 0; fixed_part_size_ := 0;
      hidden_fixed_ := 0; hidden_var_ := 0; frozen_ := false |} = Some c' /\ indexed c' = true) (key_cols_id_ s)).
    { eapply Forall_weaken; [exact HK |]. intros k (c' & Hc' & Hi). exists c'. split; [|done].
      eapply get_info_app; [reflexivity | exact Hc']. }
    cbn [key_cols_id_]. destruct key; [|exact HK']. apply Forall_app. split; [exact HK' |].
    constructor; [|constructor]. exists c. split; [|done]. unfold get_column_info. cbn [col_info_].
    destruct (Z.ltb_spec (Z.of_nat (length (col_info_ s))) 0); [lia |]. rewrite Nat2Z.id.
    now apply list_lookup_middle.
Qed.

(** Two fixed-size columns do not overlap, and every one is inside the fixed part. *)
Lemma column_inside s i c :
  schema_ok s -> col_info_ s !! i = Some c -> is_str (type c) = false ->
  0 <= place c /\ place c + size_of (type c) <= fixed_part_size_ s.
Proof.
  intros (HC & _ & _ & HF & _) Hc Hs. destruct (HC i c Hc) as (_ & _ & Hp & _). rewrite Hs in Hp.
  rewrite HF, <- (take_drop_middle _ _ _ Hc) at 1. rewrite fixed_size_app, fixed_size_cons, Hp.
  pose proof (fixed_size_nonneg (take i (col_info_ s))). pose proof (fixed_size_nonneg (drop (S i) (col_info_ s))). lia.
Qed.

Lemma columns_apart s i j ci cj :
  schema_ok s -> col_info_ s !! i = Some ci -> col_info_ s !! j = Some cj -> (i < j)%nat ->
  is_str (type ci) = false -> is_str (type cj) = false ->
  place ci + size_of (type ci) <= place cj.
Proof.
  intros (HC & _) Hi Hj Hij Hsi Hsj. destruct (HC i ci Hi) as (_ & _ & Hpi & _).
  destruct (HC j cj Hj) as (_ & _ & Hpj & _). rewrite Hsi in Hpi. rewrite Hsj in Hpj.
  assert (E : take j (col_info_ s) = take i (col_info_ s) ++ ci :: drop (S i) (take j (col_info_ s))).
  { rewrite <- (take_drop_middle (take j (col_info_ s)) i ci) at 1.
    - rewrite take_take. do 2 f_equal. lia.
    - rewrite lookup_take_lt by done. exact Hi. }
  rewrite Hpi, Hpj, E, fixed_size_app, fixed_size_cons. pose proof (fixed_size_nonneg (drop (S i) (take j (col_info_ s)))). lia.
Qed.

(** The variable-size columns have the ranks 0, 1, ... in column order. *)
Lemma str_rank s i c :
  schema_ok s -> col_info_ s !! i = Some c -> is_str (type c) = true ->
  0 <= place c < var_size_cols_ s.
Proof.
  intros (HC & _ & HV & _) Hc Hs. destruct (HC i c Hc) as (_ & _ & Hp & _). rewrite Hs in Hp.
  rewrite HV, <- (take_drop_middle _ _ _ Hc) at 1. rewrite str_count_app, str_count_cons, Hp, Hs.
  unfold str_count. cbn [Z.b2z]. lia.
Qed.

Lemma str_ranks_apart s i j ci cj :
  schema_ok s -> col_info_ s !! i = Some ci -> col_info_ s !! j = Some cj -> (i < j)%nat ->
  is_str (type ci) = true -> is_str (type cj) = true -> place ci < place cj.
Proof.
  intros (HC & _) Hi Hj Hij Hsi Hsj. destruct (HC i ci Hi) as (_ & _ & Hpi & _).
  destruct (HC j cj Hj) as (_ & _ & Hpj & _). rewrite Hsi in Hpi. rewrite Hsj in Hpj.
  assert (E : take j (col_info_ s) = take i (col_info_ s) ++ ci :: drop (S i) (take j (col_info_ s))).
  { rewrite <- (take_drop_middle (take j (col_info_ s)) i ci) at 1.
    - rewrite take_take. do 2 f_equal. lia.
    - rewrite lookup_take_lt by done. exact Hi. }
  rewrite Hpi, Hpj, E, str_count_app, str_count_cons, Hsi.
  unfold str_count. cbn [Z.b2z]. lia.
Qed.

(** Every way to build a schema keeps it well formed. *)
Lemma do_add_keeps nm ty key s ret s' :
  schema_ok s -> do_add_column nm ty key s = Some (ret, s') -> schema_ok s'.
Proof.
  intros Hs E. destruct (decide (ty = UNKNOWN)) as [->|Hty].
  - unfold do_add_column in E. destruct (col_name_to_id_ s !! nm); [now injection E as <- <- | discriminate].
  - destruct (do_add_column_ok nm ty key s Hs Hty) as ([r' s''] & E' & Hok & _).
    rewrite E in E'. injection E' as <- <-. done.
Qed.

Lemma add_column_ok nm ty key s ret s' :
  schema_ok s -> add_column nm ty key s = Some (ret, s') -> schema_ok s'.
Proof.
  intros Hs. unfold add_column. destruct (_ && _); [|discriminate]. cbn. now apply do_add_keeps.
Qed.

Lemma add_hidden_ok nm ty s ret s' :
  schema_ok s -> add_hidden_column nm ty s = Some (ret, s') -> schema_ok s'.
Proof.
  intros Hs. unfold add_hidden_column. destruct (negb (frozen_ s)); [|discriminate]. cbn [verify mbind option_bind].
  destruct (do_add_column nm ty false s) as [[r1 s1]|] eqn:E; [|discriminate]. cbn [mbind option_bind].
  intros [= <- <-]. apply do_add_keeps in E; [|done]. destruct E as (H1 & H2 & H3 & H4 & H5).
  now destruct (is_str ty).
Qed.

Lemma freeze_ok s : schema_ok s -> schema_ok (freeze s).
Proof. intros (H1 & H2 & H3 & H4 & H5). now split. Qed.

(** Adds columns in sequence. *)
Fixpoint add_columns (l : list (string * kind * bool)) (s : schema) : option schema :=
  match l with
  | [] => Some s
  | (nm, ty, key) :: l => '(_, s) ← add_column nm ty key s; add_columns l s
  end.

Lemma add_columns_ok l s s' : schema_ok s -> add_columns l s = Some s' -> schema_ok s'.
Proof.
  revert s. induction l as [|[[nm ty] key] l IH]; intros s Hs; cbn [add_columns]; [now intros [= <-] |].
  destruct (add_column nm ty key s) as [[r1 s1]|] eqn:E; [|discriminate]. cbn [mbind option_bind].
  apply IH. eapply add_column_ok; eauto.
Qed.
