(* ===== verification/PieceExec.v ===== *)
(** * Pieces of a transaction and their execution

    [TxnWorkspace] and [SimpleCommand] (deptran/txn_chopper.h and .cc) and the execution
    of the pieces of a transaction on a site, which [RccDTxn] (deptran/rcc/dtxn.cc) and
    [TxChronos] (deptran/chronos/tx.cc) have in the same text up to the test for
    conflicts: a piece runs when its inputs are there, its outputs become inputs of other
    pieces, and the loop goes on until no piece is ready.

    A workspace is a value: the pieces of a site are unmarshalled one by one, each with a
    map of its own behind [values_].  The output of a piece, a [std::map], is the list of
    its entries in key order. *)

From Stdlib Require Import ZArith Lia.
From stdpp Require Import base list option gmap sets relations.
From S2P Require Import Prelude ALock MemSchema.
Local Open Scope Z_scope.

Abbreviation output_map := (list (Z * value)).

Record TxnWorkspace := {
  keys_ : gset Z;
  values_ : gmap Z value;
  input_var_ready_ : gmap Z Z;
  piece_input_ready_ : Z }.

Definition TxnWorkspace_init : TxnWorkspace :=
  {| keys_ := ∅; values_ := ∅; input_var_ready_ := ∅; piece_input_ready_ := 0 |}.

(** [map::insert] of a range keeps the values that are there. *)
Definition insert_all (m : output_map) (vs : gmap Z value) : gmap Z value :=
  vs ∪ list_to_map m.

Definition Aggregate (ws rhs : TxnWorkspace) : TxnWorkspace :=
  {| keys_ := keys_ ws ∪ keys_ rhs; values_ := values_ ws ∪ values_ rhs;
     input_var_ready_ := input_var_ready_ ws; piece_input_ready_ := piece_input_ready_ ws |}.

Definition ws_insert (m : output_map) (ws : TxnWorkspace) : TxnWorkspace :=
  {| keys_ := keys_ ws ∪ list_to_set m.*1; values_ := insert_all m (values_ ws);
     input_var_ready_ := input_var_ready_ ws; piece_input_ready_ := piece_input_ready_ ws |}.

(** [count(k)] checks that a key has a value. *)
Definition ws_count (k : Z) (ws : TxnWorkspace) : option bool :=
  let r1 := bool_decide (k ∈ keys_ ws) in
  _ ← verify (implb r1 (bool_decide (is_Some (values_ ws !! k))));
  Some r1.

Record SimpleCommand := {
  inn_id_ : Z;
  type_ : Z;
  root_id_ : Z;
  root_type_ : Z;
  partition_id_ : Z;
  touchColsCnt_ : Z;
  input : TxnWorkspace;
  local_executed_ : bool;
  waiting_var_par_map : gmap Z (list Z) }.

Definition set_input (ws : TxnWorkspace) (c : SimpleCommand) : SimpleCommand :=
  {| inn_id_ := inn_id_ c; type_ := type_ c; root_id_ := root_id_ c; root_type_ := root_type_ c;
     partition_id_ := partition_id_ c; touchColsCnt_ := touchColsCnt_ c; input := ws;
     local_executed_ := local_executed_ c; waiting_var_par_map := waiting_var_par_map c |}.
Definition set_local_executed (b : bool) (c : SimpleCommand) : SimpleCommand :=
  {| inn_id_ := inn_id_ c; type_ := type_ c; root_id_ := root_id_ c; root_type_ := root_type_ c;
     partition_id_ := partition_id_ c; touchColsCnt_ := touchColsCnt_ c; input := input c;
     local_executed_ := b; waiting_var_par_map := waiting_var_par_map c |}.

Definition input_ready (c : SimpleCommand) : bool := negb (piece_input_ready_ (input c) =? 0).

(** ** [MergeCheckReadyPieces]

    The body of the two loops: the variable for one piece.  [input_var_ready_[varid]] is 0
    where the map has no entry. *)
Definition merge_var (varid : Z) (x : value) (c : SimpleCommand) : SimpleCommand * bool :=
  let ws := input c in
  if (piece_input_ready_ ws =? 0) && bool_decide (varid ∈ keys_ ws)
     && (default 0 (input_var_ready_ ws !! varid) =? 0) then
    let vars := <[varid := 1]> (input_var_ready_ ws) in
    let ready := forallb (fun re => negb (re.2 =? 0)) (map_to_list vars) in
    (set_input {| keys_ := keys_ ws; values_ := <[varid := x]> (values_ ws);
                  input_var_ready_ := vars; piece_input_ready_ := if ready then 1 else 0 |} c, ready)
  else (c, false).

Definition merge_pieces (varid : Z) (x : value) (ps : list SimpleCommand) : list SimpleCommand * bool :=
  let rs := merge_var varid x <$> ps in (rs.*1, existsb snd rs).

Fixpoint MergeCheckReadyPieces (output : output_map) (ps : list SimpleCommand) :
    list SimpleCommand * bool :=
  match output with
  | [] => (ps, false)
  | (varid, x) :: output =>
      let '(ps, r1) := merge_pieces varid x ps in
      let '(ps, r2) := MergeCheckReadyPieces output ps in
      (ps, r1 || r2)
  end.

(** The partitions that wait for a variable of the output; the first piece has the map. *)
Definition GetOutputsTargets (output : output_map) (ps : list SimpleCommand) : option (gset Z) :=
  match output with
  | [] => Some ∅
  | _ =>
      c0 ← head ps;
      Some (⋃ ((fun pair => list_to_set (default [] (waiting_var_par_map c0 !! pair.1))) <$> output))
  end.

(** ** [RecursiveExecuteReadyPieces] *)
Section Run.
(** The state that the stored procedures act on, the procedure of a piece, and the test
    that lets a piece run in spite of the pieces pending before it. *)
Context {E : Type} (exec : SimpleCommand -> E -> option (E * output_map)) (allowed : Z -> bool).

Record run := {
  pieces_ : list SimpleCommand;
  env : E;
  n_executed_pieces : Z;
  ret : gmap Z (gmap Z value);
  outputs : gmap Z output_map }.

(** [ret[tar].insert(piece_output.begin(), piece_output.end())] for every target. *)
Definition add_targets (targets : gset Z) (output : output_map) (ret : gmap Z (gmap Z value)) :
    gmap Z (gmap Z value) :=
  fold_right (fun tar ret => <[tar := insert_all output (default ∅ (ret !! tar))]> ret) ret
    (elements targets).

Definition can_run (c : SimpleCommand) : bool :=
  allowed (inn_id_ c) && input_ready c && negb (local_executed_ c).

(** The body of the [for] loop, for the piece at [i]; the answer says whether a piece of
    this partition became ready. *)
Definition exec_piece (my_par : Z) (i : nat) (r : run) : option (run * bool) :=
  c ← pieces_ r !! i;
  if can_run c then
    '(env', piece_output) ← exec c (env r);
    let ps := <[i := set_local_executed true c]> (pieces_ r) in
    targets ← GetOutputsTargets piece_output ps;
    let '(ps, more) :=
      if bool_decide (my_par ∈ targets) then MergeCheckReadyPieces piece_output ps else (ps, false) in
    Some ({| pieces_ := ps; env := env'; n_executed_pieces := n_executed_pieces r + 1;
             ret := add_targets targets piece_output (ret r);
             outputs := <[inn_id_ c := piece_output]> (outputs r) |}, more)
  else Some (r, false).

Fixpoint exec_pass (my_par : Z) (js : list nat) (r : run) : option (run * bool) :=
  match js with
  | [] => Some (r, false)
  | i :: js =>
      '(r, m1) ← exec_piece my_par i r;
      '(r, m2) ← exec_pass my_par js r;
      Some (r, m1 || m2)
  end.

(** [do { ... } while (need_check)]: a pass that asks for another one has made a piece
    ready that was not. *)
Fixpoint exec_loop (fuel : nat) (my_par : Z) (r : run) : option run :=
  match fuel with
  | O => None
  | S fuel =>
      '(r, need_check) ← exec_pass my_par (seq 0 (length (pieces_ r))) r;
      if (need_check : bool) then exec_loop fuel my_par r else Some r
  end.

Definition RecursiveExecuteReadyPieces (my_par : Z) (r : run) : option run :=
  exec_loop (S (length (pieces_ r))) my_par
    {| pieces_ := pieces_ r; env := env r; n_executed_pieces := n_executed_pieces r; ret := ∅;
       outputs := outputs r |}.

(** A relation that every procedure respects holds between the state before and after. *)
Section Env.
Context (R : relation E) `{!PreOrder R}.
Hypothesis exec_R : forall c e e' out, exec c e = Some (e', out) -> R e e'.

Lemma exec_piece_env my_par i r r' more : exec_piece my_par i r = Some (r', more) -> R (env r) (env r').
Proof using Type*.
  unfold exec_piece. destruct (pieces_ r !! i) as [c|]; [|discriminate]. cbn [mbind option_bind].
  destruct (can_run c); [|now intros [= <- <-]].
  destruct (exec c (env r)) as [[e' out]|] eqn:Ex; [|discriminate]. cbn [mbind option_bind].
  destruct (GetOutputsTargets _ _) as [tg|]; [|discriminate]. cbn [mbind option_bind].
  destruct (if bool_decide _ then _ else _) as [ps m]. intros [= <- <-]. cbn. eauto.
Qed.

Lemma exec_pass_env my_par js : forall r r' more,
  exec_pass my_par js r = Some (r', more) -> R (env r) (env r').
Proof using Type*.
  induction js as [|i js IH]; intros r r' more; cbn [exec_pass]; [now intros [= <- <-]|].
  destruct (exec_piece my_par i r) as [[r1 m1]|] eqn:Hp; [|discriminate]. cbn [mbind option_bind].
  destruct (exec_pass my_par js r1) as [[r2 m2]|] eqn:Hq; [|discriminate]. intros [= <- <-].
  etransitivity; [eapply exec_piece_env, Hp | eapply IH, Hq].
Qed.

Lemma run_env my_par r r' : RecursiveExecuteReadyPieces my_par r = Some r' -> R (env r) (env r').
Proof using Type*.
  unfold RecursiveExecuteReadyPieces.
  set (r0 := {| pieces_ := pieces_ r; env := env r; n_executed_pieces := n_executed_pieces r; ret := ∅;
                outputs := outputs r |}).
  change (env r) with (env r0). generalize (S (length (pieces_ r))) r0. intros n.
  induction n as [|n IH]; intros r1; cbn [exec_loop]; [discriminate|].
  destruct (exec_pass my_par _ r1) as [[r2 m]|] eqn:Hp; [|discriminate]. cbn [mbind option_bind].
  apply exec_pass_env in Hp. destruct m; [|now intros [= <-]]. intros H%IH. etransitivity; eauto.
Qed.
End Env.

(** ** What the loop computes

    The specification runs any piece that may run, one at a time. *)
Definition waiting (ps : list SimpleCommand) : nat :=
  length (List.filter (fun c => negb (input_ready c)) ps).
Definition executed (ps : list SimpleCommand) : nat :=
  length (List.filter local_executed_ ps).

(** A piece is ready when it has a value for every variable it takes; until then it knows
    of each variable whether it has arrived. *)
Definition inputs_there (c : SimpleCommand) : Prop :=
  forall k, k ∈ keys_ (input c) -> is_Some (values_ (input c) !! k).
Definition piece_wf (c : SimpleCommand) : Prop :=
  if input_ready c then inputs_there c
  else dom (input_var_ready_ (input c)) = keys_ (input c)
    /\ forall k x, input_var_ready_ (input c) !! k = Some x -> x <> 0 -> is_Some (values_ (input c) !! k).

Inductive piece_step (my_par : Z) : run -> run -> Prop :=
  | run_piece i c r r' more :
      pieces_ r !! i = Some c -> can_run c = true -> inputs_there c ->
      exec_piece my_par i r = Some (r', more) -> piece_step my_par r r'.

(** No piece may run. *)
Definition quiet (r : run) : Prop := forall c, c ∈ pieces_ r -> can_run c = false.

(** *** Merging *)

(** A piece after some of its variables arrived. *)
Definition same_piece (c c' : SimpleCommand) : Prop :=
  inn_id_ c' = inn_id_ c /\ type_ c' = type_ c /\ root_id_ c' = root_id_ c
  /\ root_type_ c' = root_type_ c /\ partition_id_ c' = partition_id_ c
  /\ touchColsCnt_ c' = touchColsCnt_ c /\ waiting_var_par_map c' = waiting_var_par_map c
  /\ keys_ (input c') = keys_ (input c) /\ (input_ready c = true -> input c' = input c).
Definition merged (c c' : SimpleCommand) : Prop :=
  same_piece c c' /\ local_executed_ c' = local_executed_ c.

#[local] Instance merged_preorder : PreOrder merged.
Proof.
  split.
  - intros c. unfold merged, same_piece. tauto.
  - unfold merged, same_piece, input_ready. intros a b c [(? & ? & ? & ? & ? & ? & ? & ? & Ha) ?]
      [(? & ? & ? & ? & ? & ? & ? & ? & Hb) ?].
    split_and!; try congruence. intros Hr. rewrite Hb, Ha; auto. now rewrite Ha.
Qed.

Lemma merge_var_merged varid x c : merged c (merge_var varid x c).1.
Proof.
  unfold merge_var. destruct (_ && _) eqn:Em; [|reflexivity]. cbn.
  unfold merged, same_piece, input_ready. cbn. apply andb_prop in Em as [[Em _]%andb_prop _].
  rewrite Em. intuition discriminate.
Qed.

Lemma merge_var_ready varid x c :
  (merge_var varid x c).2 = true <-> input_ready c = false /\ input_ready (merge_var varid x c).1 = true.
Proof.
  unfold merge_var, input_ready. destruct (_ && _) eqn:Em; cbn.
  - apply andb_prop in Em as [[Em _]%andb_prop _]. rewrite Em. cbn.
    destruct (forallb _ _); cbn; intuition discriminate.
  - intuition (try discriminate). congruence.
Qed.

(** The number of pieces that wait goes down exactly if one became ready. *)
Lemma merge_list_waiting varid x ps :
  (waiting (merge_pieces varid x ps).1 <= waiting ps)%nat
  /\ ((merge_pieces varid x ps).2 = true -> (waiting (merge_pieces varid x ps).1 < waiting ps)%nat)
  /\ Forall2 merged ps (merge_pieces varid x ps).1.
Proof.
  unfold merge_pieces, waiting. cbn [fst snd].
  induction ps as [|c ps (IH1 & IH2 & IH3)]; cbn; [repeat split; [lia | discriminate | constructor] |].
  pose proof (merge_var_merged varid x c) as Hm. pose proof (merge_var_ready varid x c) as Hr.
  destruct (merge_var varid x c) as [c' b] eqn:Em. cbn [fst snd] in *.
  assert (Hc : (input_ready c = true -> input_ready c' = true)).
  { intros H. destruct Hm as [(_ & _ & _ & _ & _ & _ & _ & _ & Hi) _]. unfold input_ready in *. now rewrite Hi. }
  repeat split.
  - destruct (input_ready c), (input_ready c'); cbn; lia.
  - intros Hb. destruct b; cbn in Hb.
    + apply proj1 in Hr. destruct (Hr eq_refl) as [-> ->]. cbn. lia.
    + specialize (IH2 Hb). destruct (input_ready c), (input_ready c'); cbn; lia.
  - constructor; auto.
Qed.
Definition merge_result (more : bool) (ps ps' : list SimpleCommand) : Prop :=
  (waiting ps' <= waiting ps)%nat /\ (more = true -> (waiting ps' < waiting ps)%nat)
  /\ Forall2 (fun c c' => merged c c' /\ (more = false -> input_ready c' = input_ready c)) ps ps'.

Lemma merge_result_refl ps : merge_result false ps ps.
Proof.
  split_and!; [lia | discriminate |]. induction ps; constructor; [split; [reflexivity | auto] | auto].
Qed.

Lemma merge_result_trans m1 m2 ps1 ps2 ps3 :
  merge_result m1 ps1 ps2 -> merge_result m2 ps2 ps3 -> merge_result (m1 || m2) ps1 ps3.
Proof.
  intros (H1 & H2 & H3) (H4 & H5 & H6). split_and!.
  - lia.
  - intros [->| ->]%orb_prop; [specialize (H2 eq_refl) | specialize (H5 eq_refl)]; lia.
  - clear H1 H2 H4 H5. revert ps3 H6. induction H3 as [|c c' ps ps' [Hm Hr] _ IH]; intros ps3 H6;
      inversion_clear H6 as [|? c'' ? ? [Hm' Hr']]; [constructor |]. constructor; [|now apply IH].
    split; [now transitivity c' |]. intros [-> ->]%orb_false_elim. rewrite Hr' by auto. auto.
Qed.

Lemma merge_pieces_result varid x ps :
  merge_result (merge_pieces varid x ps).2 ps (merge_pieces varid x ps).1.
Proof.
  destruct (merge_list_waiting varid x ps) as (H1 & H2 & H3). split_and!; [exact H1 | exact H2 |].
  clear H1 H2 H3. unfold merge_pieces. cbn [fst snd].
  induction ps as [|c ps IH]; cbn; constructor.
  - split; [apply merge_var_merged |]. intros [Hb _]%orb_false_elim.
    pose proof (merge_var_ready varid x c) as Hr. pose proof (merge_var_merged varid x c) as [(_ & _ & _ & _ & _ & _ & _ & _ & Hi) _].
    destruct (input_ready c) eqn:Ec; [unfold input_ready in *; rewrite Hi; auto |].
    destruct (input_ready (merge_var varid x c).1) eqn:Ec'; [|reflexivity].
    rewrite (proj2 Hr) in Hb; [discriminate | auto].
  - eapply Forall2_impl; [exact IH |]. intros c1 c2 [Hm Hr]. split; [exact Hm |].
    intros [_ Hb]%orb_false_elim. auto.
Qed.

Lemma merge_check_result output ps :
  merge_result (MergeCheckReadyPieces output ps).2 ps (MergeCheckReadyPieces output ps).1.
Proof.
  revert ps. induction output as [|[varid x] output IH]; intros ps; cbn [MergeCheckReadyPieces].
  - apply merge_result_refl.
  - pose proof (merge_pieces_result varid x ps) as H1.
    destruct (merge_pieces varid x ps) as [ps1 m1]. cbn [fst snd] in H1.
    specialize (IH ps1). destruct (MergeCheckReadyPieces output ps1) as [ps2 m2]. cbn [fst snd] in *.
    eapply merge_result_trans; eauto.
Qed.


(** *** The loop *)

Lemma merge_var_wf varid x c : piece_wf c -> piece_wf (merge_var varid x c).1.
Proof.
  intros Hw. unfold merge_var. destruct (_ && _) eqn:Em; [|exact Hw].
  apply andb_prop in Em as [[Em Hk]%andb_prop _]. apply bool_decide_eq_true in Hk. cbn [fst].
  assert (Hn : input_ready c = false) by (unfold input_ready; now rewrite Em).
  unfold piece_wf in Hw. rewrite Hn in Hw. destruct Hw as [Hd Hv]. unfold piece_wf.
  assert (Hd' : dom (<[varid := 1]> (input_var_ready_ (input c))) = keys_ (input c))
    by (rewrite dom_insert_L; set_solver).
  assert (Hv' : forall k y, <[varid := 1]> (input_var_ready_ (input c)) !! k = Some y -> y <> 0 ->
    is_Some (<[varid := x]> (values_ (input c)) !! k)).
  { intros k y. destruct (decide (k = varid)) as [->|Hne]; [rewrite !lookup_insert_eq; eauto |].
    rewrite !lookup_insert_ne by auto. apply Hv. }
  unfold input_ready. cbn. destruct (forallb _ _) eqn:Ef; cbn; [|auto].
  intros k Hk'. cbn in *. rewrite <- Hd' in Hk'. apply elem_of_dom in Hk' as [y Hy].
  apply (Hv' k y Hy). rewrite forallb_forall in Ef.
  specialize (Ef (k, y)). cbn in Ef. intros ->. discriminate Ef.
  apply list_elem_of_In, elem_of_map_to_list, Hy.
Qed.

Lemma merge_check_wf output ps :
  Forall piece_wf ps -> Forall piece_wf (MergeCheckReadyPieces output ps).1.
Proof.
  revert ps. induction output as [|[varid x] output IH]; intros ps Hw; cbn [MergeCheckReadyPieces]; [exact Hw |].
  specialize (IH (merge_pieces varid x ps).1). destruct (merge_pieces varid x ps) as [ps1 m1] eqn:E1.
  cbn [fst] in IH. destruct (MergeCheckReadyPieces output ps1) as [ps2 m2]. cbn [fst] in *. apply IH.
  injection E1 as <- _. rewrite <- list_fmap_compose. apply Forall_fmap.
  eapply Forall_impl; [exact Hw |]. intros c. apply merge_var_wf.
Qed.

Lemma exec_piece_wf my_par i r r' more :
  Forall piece_wf (pieces_ r) -> exec_piece my_par i r = Some (r', more) -> Forall piece_wf (pieces_ r').
Proof.
  intros Hw. unfold exec_piece. destruct (pieces_ r !! i) as [c|] eqn:Ec; [|discriminate]. cbn.
  destruct (can_run c); [|now intros [= <- <-]].
  destruct (exec c (env r)) as [[e' out]|]; [|discriminate]. cbn.
  set (ps := <[i := set_local_executed true c]> (pieces_ r)).
  assert (Hps : Forall piece_wf ps).
  { apply Forall_insert; [exact Hw |]. eapply Forall_lookup_1 in Hw; [|exact Ec]. exact Hw. }
  destruct (GetOutputsTargets out ps) as [t|]; [|discriminate]. cbn.
  pose proof (merge_check_wf out ps Hps) as Hm. case_bool_decide.
  - destruct (MergeCheckReadyPieces out ps) as [ps' m]. now intros [= <- <-].
  - now intros [= <- <-].
Qed.

Record advance (my_par : Z) (more : bool) (r r' : run) : Prop := {
  a_wf : Forall piece_wf (pieces_ r) -> Forall piece_wf (pieces_ r');
  a_steps : Forall piece_wf (pieces_ r) -> rtc (piece_step my_par) r r';
  a_length : length (pieces_ r') = length (pieces_ r);
  a_waiting : (waiting (pieces_ r') <= waiting (pieces_ r))%nat;
  a_more : more = true -> (waiting (pieces_ r') < waiting (pieces_ r))%nat;
  a_count : n_executed_pieces r' - n_executed_pieces r
    = Z.of_nat (executed (pieces_ r')) - Z.of_nat (executed (pieces_ r));
  a_new : more = false -> forall j c', pieces_ r' !! j = Some c' -> can_run c' = true ->
    exists c, pieces_ r !! j = Some c /\ can_run c = true }.

Lemma advance_refl my_par r : advance my_par false r r.
Proof. split; [auto | intros; apply rtc_refl | lia | lia | discriminate | lia | eauto]. Qed.

Lemma advance_trans my_par m1 m2 r1 r2 r3 :
  advance my_par m1 r1 r2 -> advance my_par m2 r2 r3 -> advance my_par (m1 || m2) r1 r3.
Proof.
  intros [] []. split.
  - auto.
  - intros Hw. transitivity r2; auto.
  - congruence.
  - lia.
  - intros [->| ->]%orb_prop; [specialize (a_more0 eq_refl) | specialize (a_more1 eq_refl)]; lia.
  - lia.
  - intros [-> ->]%orb_false_elim j c' Hc Hr. destruct (a_new1 eq_refl j c' Hc Hr) as (c & Hc1 & Hr1). eauto.
Qed.

Lemma executed_insert ps i c :
  ps !! i = Some c -> local_executed_ c = false ->
  executed (<[i := set_local_executed true c]> ps) = S (executed ps).
Proof.
  unfold executed. revert i. induction ps as [|c0 ps IH]; intros [|i] Hi Hc; cbn in *; try discriminate.
  - injection Hi as ->. now rewrite Hc.
  - destruct (local_executed_ c0); cbn; rewrite IH by auto; reflexivity.
Qed.

Lemma waiting_insert ps i c :
  ps !! i = Some c -> waiting (<[i := set_local_executed true c]> ps) = waiting ps.
Proof.
  unfold waiting. revert i. induction ps as [|c0 ps IH]; intros [|i] Hi; cbn in *; try discriminate.
  - injection Hi as ->. change (input_ready (set_local_executed true c)) with (input_ready c).
    now destruct (input_ready c).
  - destruct (negb (input_ready c0)); cbn; rewrite IH by auto; reflexivity.
Qed.

Lemma executed_merged more ps ps' : merge_result more ps ps' -> executed ps' = executed ps.
Proof.
  intros (_ & _ & H). unfold executed. induction H as [|c c' ps ps' [[_ He] _] _ IH]; cbn; [reflexivity |].
  rewrite He. destruct (local_executed_ c); cbn; now rewrite IH.
Qed.

Lemma merged_can_run c c' :
  merged c c' -> input_ready c' = input_ready c -> can_run c' = can_run c.
Proof. intros [(Hi & _) He] Hr. unfold can_run. now rewrite Hi, He, Hr. Qed.

Lemma targets_some output ps i c : ps !! i = Some c -> is_Some (GetOutputsTargets output ps).
Proof.
  unfold GetOutputsTargets. destruct output; [eauto |]. destruct ps; [discriminate |]. cbn. eauto.
Qed.


Section Total.
(** The stored procedures return. *)
Hypothesis exec_total : forall c e, is_Some (exec c e).

Lemma exec_piece_can my_par i r c :
  pieces_ r !! i = Some c -> can_run c = true ->
  runs (exec_piece my_par i r) (fun '(r', more) => advance my_par more r r'
    /\ (more = false -> forall c', pieces_ r' !! i = Some c' -> can_run c' = false)).
Proof using exec_total.
  intros Hc Er. destruct (exec_piece my_par i r) as [[r' more]|] eqn:Ex.
  2: { exfalso. revert Ex. unfold exec_piece. rewrite Hc. cbn. rewrite Er.
       destruct (exec_total c (env r)) as [[e' out] ->]. cbn.
       destruct (targets_some out (<[i := set_local_executed true c]> (pieces_ r)) i
         (set_local_executed true c)) as [t ->]; [apply list_lookup_insert_eq; eauto using lookup_lt_Some |].
       cbn. now destruct (if bool_decide _ then _ else _). }
  apply runs_ret. pose proof (fun Hi => run_piece my_par i c r r' more Hc Er Hi Ex) as Hstep.
  pose proof (fun Hw => exec_piece_wf my_par i r r' more Hw Ex) as Hwf.
  revert Ex. unfold exec_piece. rewrite Hc. cbn. rewrite Er.
  destruct (exec c (env r)) as [[e' out]|]; [|discriminate]. cbn.
  set (ps := <[i := set_local_executed true c]> (pieces_ r)).
  destruct (GetOutputsTargets out ps) as [t|]; [|discriminate]. cbn.
  destruct (if bool_decide (my_par ∈ t) then MergeCheckReadyPieces out ps else (ps, false)) as [ps' m] eqn:Em.
  assert (Hm : merge_result m ps ps').
  { case_bool_decide; [|injection Em as <- <-; apply merge_result_refl].
    pose proof (merge_check_result out ps) as Hr. rewrite Em in Hr. exact Hr. }
  intros [= <- <-]. clear Em. pose proof Er as Er'. unfold can_run in Er'.
  apply andb_prop in Er' as [[Ea Ei]%andb_prop Ee%negb_true_iff].
  pose proof (executed_merged _ _ _ Hm) as He. destruct Hm as (H1 & H2 & H3).
  pose proof (executed_insert _ _ _ Hc Ee) as He'. pose proof (waiting_insert _ _ _ Hc) as Hw.
  fold ps in He', Hw. split; [split; cbn [pieces_ n_executed_pieces]|].
  - exact Hwf.
  - intros Hall. apply rtc_once, Hstep. eapply Forall_lookup_1 in Hall; [|exact Hc].
    unfold piece_wf in Hall. now rewrite Ei in Hall.
  - rewrite <- (Forall2_length _ _ _ H3). apply length_insert.
  - lia.
  - intros Hmore. specialize (H2 Hmore). lia.
  - lia.
  - intros Hmore j c' Hc' Hr'. destruct (Forall2_lookup_r _ _ _ _ _ H3 Hc') as (cj & Hcj & Hmj & Hij).
    rewrite (merged_can_run cj c') in Hr' by auto. unfold ps in Hcj.
    destruct (decide (i = j)) as [<-|Hne]; [exists c; auto |].
    rewrite list_lookup_insert_ne in Hcj by auto. eauto.
  - cbn [pieces_]. intros Hmore c' Hc'. destruct (Forall2_lookup_r _ _ _ _ _ H3 Hc') as (cj & Hcj & Hmj & Hij).
    rewrite (merged_can_run cj c') by auto. unfold ps in Hcj.
    rewrite list_lookup_insert_eq in Hcj by eauto using lookup_lt_Some. injection Hcj as <-.
    unfold can_run. cbn. now rewrite andb_false_r.
Qed.

Lemma exec_piece_ok my_par i r :
  (i < length (pieces_ r))%nat ->
  runs (exec_piece my_par i r) (fun '(r', more) => advance my_par more r r'
    /\ (more = false -> forall c', pieces_ r' !! i = Some c' -> can_run c' = false)).
Proof using exec_total.
  intros Hi. apply lookup_lt_is_Some in Hi as [c Hc].
  destruct (can_run c) eqn:Er; [now apply (exec_piece_can my_par i r c) |].
  unfold exec_piece. rewrite Hc. cbn. rewrite Er. apply runs_ret. split; [apply advance_refl |].
  intros _ c' Hc'. congruence.
Qed.

Lemma exec_pass_ok my_par js r :
  Forall (fun i => (i < length (pieces_ r))%nat) js ->
  runs (exec_pass my_par js r) (fun '(r', more) => advance my_par more r r'
    /\ (more = false -> forall i c', i ∈ js -> pieces_ r' !! i = Some c' -> can_run c' = false)).
Proof using exec_total.
  revert r. induction js as [|i js IH]; intros r Hjs; cbn [exec_pass].
  - apply runs_ret. split; [apply advance_refl | set_solver].
  - apply Forall_cons in Hjs as [Hi Hjs]. destruct (exec_piece_ok my_par i r Hi) as ([r1 m1] & -> & A1 & Q1).
    cbn. destruct (IH r1) as ([r2 m2] & -> & A2 & Q2).
    { eapply Forall_impl; [exact Hjs |]. intros j Hj. now rewrite (a_length _ _ _ _ A1). }
    cbn. apply runs_ret. split; [now apply (advance_trans my_par m1 m2 r r1 r2) |].
    intros [-> ->]%orb_false_elim j c' [->|Hj]%elem_of_cons Hc'; [|now apply (Q2 eq_refl j)].
    destruct (can_run c') eqn:Er; [|reflexivity].
    destruct (a_new _ _ _ _ A2 eq_refl i c' Hc' Er) as (c1 & Hc1 & Hr1).
    rewrite (Q1 eq_refl c1 Hc1) in Hr1. discriminate.
Qed.

Lemma exec_loop_ok fuel my_par r :
  Forall piece_wf (pieces_ r) -> (waiting (pieces_ r) < fuel)%nat ->
  runs (exec_loop fuel my_par r) (fun r' => rtc (piece_step my_par) r r' /\ quiet r'
    /\ Forall piece_wf (pieces_ r')
    /\ length (pieces_ r') = length (pieces_ r)
    /\ n_executed_pieces r' - n_executed_pieces r
       = Z.of_nat (executed (pieces_ r')) - Z.of_nat (executed (pieces_ r))).
Proof using exec_total.
  revert r. induction fuel as [|fuel IH]; intros r Hw Hf; [lia |]. cbn [exec_loop].
  destruct (exec_pass_ok my_par (seq 0 (length (pieces_ r))) r) as ([r1 m] & -> & A & Q).
  { apply Forall_forall. intros i Hi%elem_of_seq. lia. }
  cbn. destruct m.
  - destruct (IH r1) as (r2 & -> & H1 & H2 & H3 & H4 & H5);
      [exact (a_wf _ _ _ _ A Hw) | pose proof (a_more _ _ _ _ A eq_refl); lia |].
    apply runs_ret. destruct A. split_and!; [transitivity r1; auto | exact H2 | exact H3 | congruence | lia].
  - apply runs_ret. destruct A. split_and!; auto. intros c [i Hi]%list_elem_of_lookup.
    apply (Q eq_refl i); [|exact Hi]. apply elem_of_seq. apply lookup_lt_Some in Hi. lia.
Qed.

(** C17. [RecursiveExecuteReadyPieces] terminates, and it runs the pieces of the transaction one
    after the other, each at most once and only when every variable it takes has arrived, until
    no piece that is ready is left; the counter grows by the number of pieces it ran. *)
Theorem ready_pieces_run my_par r :
  Forall piece_wf (pieces_ r) ->
  runs (RecursiveExecuteReadyPieces my_par r) (fun r' =>
    rtc (piece_step my_par) {| pieces_ := pieces_ r; env := env r; n_executed_pieces := n_executed_pieces r;
                               ret := ∅; outputs := outputs r |} r'
    /\ quiet r' /\ Forall piece_wf (pieces_ r') /\ length (pieces_ r') = length (pieces_ r)
    /\ n_executed_pieces r' - n_executed_pieces r
       = Z.of_nat (executed (pieces_ r')) - Z.of_nat (executed (pieces_ r))).
Proof using exec_total.
  intros Hw. unfold RecursiveExecuteReadyPieces. eapply runs_mono; [apply exec_loop_ok |]; cbn; auto.
  unfold waiting. pose proof (List.filter_length_le (fun c => negb (input_ready c)) (pieces_ r)). lia.
Qed.
End Total.
End Run.

(** ** Two states side by side

    When the procedures act on a state that determines another one, on which other
    procedures act in the same way, the loop does the same on both. *)
Section Project.
Context {E F : Type} (execE : SimpleCommand -> E -> option (E * output_map)).
Context (execF : SimpleCommand -> F -> option (F * output_map)) (allowed : Z -> bool) (proj : E -> F).
Hypothesis exec_proj : forall c e, execF c (proj e) = (fun p => (proj p.1, p.2)) <$> execE c e.

Definition proj_run (r : run (E := E)) : run (E := F) :=
  {| pieces_ := pieces_ r; env := proj (env r); n_executed_pieces := n_executed_pieces r;
     ret := ret r; outputs := outputs r |}.

Lemma exec_piece_proj my_par i r :
  exec_piece execF allowed my_par i (proj_run r)
  = (fun p => (proj_run p.1, p.2)) <$> exec_piece execE allowed my_par i r.
Proof using exec_proj.
  unfold exec_piece. cbn [proj_run pieces_ env]. destruct (pieces_ r !! i) as [c|]; [cbn [mbind option_bind] | done].
  destruct (can_run allowed c); [|done]. rewrite exec_proj.
  destruct (execE c (env r)) as [[e out]|]; [cbn [mbind option_bind fmap option_fmap option_map fst snd] | done].
  destruct (GetOutputsTargets out _) as [tg|]; [cbn [mbind option_bind] | done].
  destruct (if bool_decide _ then _ else _) as [ps more]. done.
Qed.

Lemma exec_pass_proj my_par js : forall r,
  exec_pass execF allowed my_par js (proj_run r)
  = (fun p => (proj_run p.1, p.2)) <$> exec_pass execE allowed my_par js r.
Proof using exec_proj.
  induction js as [|i js IH]; intros r; cbn [exec_pass]; [done |]. rewrite exec_piece_proj.
  destruct (exec_piece execE allowed my_par i r) as [[r1 m1]|]; [cbn -[exec_pass] | done]. rewrite IH.
  now destruct (exec_pass execE allowed my_par js r1) as [[r2 m2]|].
Qed.

Lemma run_proj my_par r :
  RecursiveExecuteReadyPieces execF allowed my_par (proj_run r)
  = proj_run <$> RecursiveExecuteReadyPieces execE allowed my_par r.
Proof using exec_proj.
  unfold RecursiveExecuteReadyPieces. cbn [proj_run pieces_ env n_executed_pieces outputs].
  change {| pieces_ := pieces_ r; env := proj (env r); n_executed_pieces := n_executed_pieces r; ret := ∅;
            outputs := outputs r |}
    with (proj_run {| pieces_ := pieces_ r; env := env r; n_executed_pieces := n_executed_pieces r; ret := ∅;
                      outputs := outputs r |}).
  generalize (S (length (pieces_ r))). intros n.
  generalize {| pieces_ := pieces_ r; env := env r; n_executed_pieces := n_executed_pieces r; ret := ∅;
                outputs := outputs r |}.
  induction n as [|n IH]; intros r0; cbn [exec_loop]; [done |]. cbn [proj_run pieces_]. rewrite exec_pass_proj.
  destruct (exec_pass execE allowed my_par _ r0) as [[r1 m]|]; [cbn -[exec_loop] | done]. destruct m; [apply IH | done].
Qed.
End Project.
