(* ===== verification/MemRow.v ===== *)
(** * Rows of the in-memory database

    memdb/row.h and memdb/row.cc, class [Row]: the fixed-size columns in one
    buffer, the variable-size ones dense (one buffer and the table of their ends)
    or sparse (one string each).  A read or write outside a buffer is [None].

    The update of an indexed column takes the row out of its table and puts it
    back; at this level [update] reports whether it did ([re_insert]), and
    MemTable.v performs it. *)

From Stdlib Require Import ZArith Lia Bool.
From stdpp Require Import base list option numbers strings gmap sets.
From S2P Require Import Prelude ALock Bytes MemSchema.
Local Open Scope Z_scope.

(** ** Data *)
Inductive var_part :=
  | Dense (part : list Z) (idx : list Z)    (* dense_var_part_, dense_var_idx_ *)
  | Sparse (vars : list (list Z)).          (* sparse_var_ *)

Record row := { fixed_part_ : list Z; var_ : var_part; rdonly_ : bool }.

Definition set_fixed (f : list Z) (r : row) : row :=
  {| fixed_part_ := f; var_ := var_ r; rdonly_ := rdonly_ r |}.
Definition set_var (v : var_part) (r : row) : row :=
  {| fixed_part_ := fixed_part_ r; var_ := v; rdonly_ := rdonly_ r |}.
Definition make_readonly (r : row) : row :=
  {| fixed_part_ := fixed_part_ r; var_ := var_ r; rdonly_ := true |}.

(** ** Creation *)

(** The first pass writes a fixed-size value at [fixed_pos]. *)
Definition write_fixed (v : value) (st : list Z * Z) : option (list Z * Z) :=
  let '(buf, pos) := st in
  match v with
  | VStr _ => Some (buf, pos)
  | VUnknown => None
  | _ => b ← write_binary v; buf ← write_at (Z.to_nat pos) b buf; Some (buf, pos + size_of (get_kind v))
  end.

Fixpoint write_all_fixed (vs : list value) (st : list Z * Z) : option (list Z * Z) :=
  match vs with
  | [] => Some st
  | v :: vs => st ← write_fixed v st; write_all_fixed vs st
  end.

(** The hidden columns advance the position without a write. *)
Fixpoint skip_hidden (cols : list column_info) (pos : Z) : option Z :=
  match cols with
  | [] => Some pos
  | c :: cols =>
      _ ← verify (negb (bool_decide (type c = UNKNOWN)));
      skip_hidden cols (pos + size_of (type c))
  end.

(** The second pass: the strings, and the end of each. *)
Fixpoint write_vars (vs : list value) (part : list Z) (idx : list Z) : list Z * list Z :=
  match vs with
  | [] => (part, idx)
  | VStr s :: vs =>
      let part := part ++ s in write_vars vs part (idx ++ [Z.of_nat (length part)])
  | _ :: vs => write_vars vs part idx
  end.

(** A hidden variable-size column is empty: it repeats the end of the one before,
    and there must be one. *)
Fixpoint hide_vars (cols : list column_info) (idx : list Z) : option (list Z) :=
  match cols with
  | [] => Some idx
  | c :: cols =>
      if is_str (type c) then e ← list.last idx; hide_vars cols (idx ++ [e])
      else hide_vars cols idx
  end.

Definition create_raw (s : schema) (values : list value) : option row :=
  let buf := replicate (Z.to_nat (fixed_part_size_ s)) 0 in
  let hidden := drop (length values) (col_info_ s) in
  '(buf, pos) ← write_all_fixed values (buf, 0);
  pos ← skip_hidden hidden pos;
  _ ← verify (pos =? fixed_part_size_ s);
  if 0 <? var_size_cols_ s then
    let '(part, idx) := write_vars values [] [] in
    idx ← hide_vars hidden idx;
    _ ← verify (Z.of_nat (length idx) =? var_size_cols_ s);
    Some {| fixed_part_ := buf; var_ := Dense part idx; rdonly_ := false |}
  else Some {| fixed_part_ := buf; var_ := Dense [] []; rdonly_ := false |}.

(** [Row::create] from a sequence of values, in column order. *)
Definition create (s : schema) (values : list value) : option row :=
  _ ← verify (Z.of_nat (length values) =? columns_count s);
  create_raw s values.

(** [Row::create] from a map of column names to values. *)
Fixpoint fill_values (s : schema) (pairs : list (string * value)) (ptrs : list (option value))
  : option (list (option value)) :=
  match pairs with
  | [] => Some ptrs
  | (nm, v) :: pairs =>
      let c := get_column_id nm s in
      _ ← verify (0 <=? c);
      _ ← ptrs !! Z.to_nat c;
      fill_values s pairs (<[Z.to_nat c := Some v]> ptrs)
  end.

Definition create_by_name (s : schema) (pairs : list (string * value)) : option row :=
  _ ← verify (Z.of_nat (length pairs) =? columns_count s);
  ptrs ← fill_values s pairs (replicate (length pairs) None);
  values ← mapM (fun p => p) ptrs;
  create_raw s values.

(** ** Access *)

(** The bounds of the [i]-th variable-size column of a dense row. *)
Definition dense_start (idx : list Z) (i : Z) : option Z :=
  if i =? 0 then Some 0 else idx !! Z.to_nat (i - 1).

Definition get_blob (s : schema) (column_id : Z) (r : row) : option (list Z) :=
  info ← get_column_info column_id s;
  match type info with
  | I32 | I64 | DOUBLE => read_at (Z.to_nat (place info)) (Z.to_nat (size_of (type info))) (fixed_part_ r)
  | STR =>
      match var_ r with
      | Dense part idx =>
          start ← dense_start idx (place info);
          stop ← idx !! Z.to_nat (place info);
          read_at (Z.to_nat start) (Z.to_nat (stop - start)) part
      | Sparse vars => vars !! Z.to_nat (place info)
      end
  | UNKNOWN => None
  end.

(** The value a blob holds. *)
Definition decode (k : kind) (b : list Z) : option value :=
  match k with
  | I32 => Some (VI32 (swrap 32 (le_int b)))
  | I64 => Some (VI64 (swrap 64 (le_int b)))
  | DOUBLE => Some (VDouble (le_int b))
  | STR => Some (VStr b)
  | UNKNOWN => None
  end.

Definition get_column (s : schema) (column_id : Z) (r : row) : option value :=
  info ← get_column_info column_id s;
  b ← get_blob s column_id r;
  decode (type info) b.

Definition get_key (s : schema) (r : row) : option (list (list Z)) :=
  mapM (fun k => get_blob s k r) (key_cols_id_ s).

(** ** Conversion and copy *)
Fixpoint split_dense (idx : list Z) (start : Z) (part : list Z) : option (list (list Z)) :=
  match idx with
  | [] => Some []
  | stop :: idx =>
      v ← read_at (Z.to_nat start) (Z.to_nat (stop - start)) part;
      vs ← split_dense idx stop part;
      Some (v :: vs)
  end.

Definition make_sparse (s : schema) (r : row) : option row :=
  match var_ r with
  | Sparse _ => Some r
  | Dense part idx =>
      if var_size_cols_ s =? 0 then Some (set_var (Sparse []) r)
      else vs ← split_dense idx 0 part; Some (set_var (Sparse vs) r)
  end.

(** The visible variable-size columns. *)
Definition visible_strs (s : schema) : list column_info :=
  List.filter (fun c => is_str (type c)) (take (Z.to_nat (columns_count s)) (col_info_ s)).

(** [copy_into]: a dense and writable copy. *)
Definition copy (s : schema) (r : row) : option row :=
  f ← read_at 0 (Z.to_nat (fixed_part_size_ s)) (fixed_part_ r);
  blobs ← mapM (fun c => get_blob s (col_id c) r) (visible_strs s);
  let '(part, idx) := write_vars (VStr <$> blobs) [] [] in
  Some {| fixed_part_ := f; var_ := Dense part idx; rdonly_ := false |}.

(** ** Updates *)

(** What an update did: nothing, or a new row, which was taken out of its table
    and put back if [re_insert]. *)
Inductive update_result := NotUpdated | Updated (re_insert : bool) (r : row).

Definition update_fixed (info : column_info) (bytes : list Z) (r : row) : option update_result :=
  _ ← verify (negb (rdonly_ r));
  old ← read_at (Z.to_nat (place info)) (length bytes) (fixed_part_ r);
  if decide (old = bytes) then Some NotUpdated
  else
    f ← write_at (Z.to_nat (place info)) bytes (fixed_part_ r);
    Some (Updated (indexed info) (set_fixed f r)).

(** [memcpy] into the variable part, or conversion to sparse. *)
Definition store_str (s : schema) (info : column_info) (v : list Z) (r : row) : option row :=
  match var_ r with
  | Dense part idx =>
      start ← dense_start idx (place info);
      stop ← idx !! Z.to_nat (place info);
      if stop - start =? Z.of_nat (length v) then
        part ← write_at (Z.to_nat start) v part;
        Some (set_var (Dense part idx) r)
      else
        r ← make_sparse s r;
        match var_ r with
        | Sparse vars =>
            _ ← vars !! Z.to_nat (place info);
            Some (set_var (Sparse (<[Z.to_nat (place info) := v]> vars)) r)
        | Dense _ _ => None
        end
  | Sparse vars =>
      _ ← vars !! Z.to_nat (place info);
      Some (set_var (Sparse (<[Z.to_nat (place info) := v]> vars)) r)
  end.

Definition update_str (s : schema) (column_id : Z) (v : list Z) (r : row) : option update_result :=
  _ ← verify (negb (rdonly_ r));
  info ← get_column_info column_id s;
  _ ← verify (is_str (type info));
  old ← get_blob s column_id r;
  if decide (old = v) then Some NotUpdated
  else r' ← store_str s info v r; Some (Updated (indexed info) r').

(** [update] of a column with a value, by the kind of the value. *)
Definition update (s : schema) (column_id : Z) (v : value) (r : row) : option update_result :=
  match v with
  | VStr b => update_str s column_id b r
  | VUnknown => None
  | _ =>
      info ← get_column_info column_id s;
      _ ← verify (bool_decide (type info = get_kind v));
      b ← write_binary v;
      update_fixed info b r
  end.

(** ** The variable part *)

(** The ends of consecutive strings that start at [acc]. *)
Fixpoint stops (acc : Z) (ss : list (list Z)) : list Z :=
  match ss with
  | [] => []
  | v :: ss => let e := acc + Z.of_nat (length v) in e :: stops e ss
  end.

(** The strings a row holds, in the order of their ranks. *)
Definition holds (vp : var_part) (ss : list (list Z)) : Prop :=
  match vp with
  | Dense part idx => part = concat ss /\ idx = stops 0 ss
  | Sparse vars => vars = ss
  end.

Lemma stops_app acc ss v :
  stops acc (ss ++ [v]) = stops acc ss ++ [acc + Z.of_nat (length (concat (ss ++ [v])))].
Proof.
  revert acc. induction ss as [|u ss IH]; intros acc; cbn; [now rewrite app_nil_r |].
  rewrite IH, length_app. do 3 f_equal. lia.
Qed.

Lemma stops_length acc ss : length (stops acc ss) = length ss.
Proof. revert acc. induction ss as [|v ss IH]; intros acc; cbn; [done | now rewrite IH]. Qed.

Lemma stops_lookup acc ss i v :
  ss !! i = Some v ->
  stops acc ss !! i = Some (acc + Z.of_nat (length (concat (take i ss)) + length v)).
Proof.
  revert acc i. induction ss as [|u ss IH]; intros acc [|i]; cbn; try done.
  - intros [= ->]. done.
  - intros Hv. rewrite (IH _ _ Hv), length_app. f_equal. lia.
Qed.

Lemma dense_start_spec ss i v :
  ss !! i = Some v -> dense_start (stops 0 ss) (Z.of_nat i) = Some (Z.of_nat (length (concat (take i ss)))).
Proof.
  intros Hv. unfold dense_start. destruct (Z.eqb_spec (Z.of_nat i) 0) as [E|E].
  - assert (i = O) as -> by lia. reflexivity.
  - destruct i as [|i]; [lia |]. replace (Z.to_nat (Z.of_nat (S i) - 1)) with i by lia.
    destruct (lookup_lt_is_Some_2 ss i) as [u Hu]; [apply lookup_lt_Some in Hv; lia |].
    rewrite (stops_lookup 0 ss i u Hu), (take_S_r ss i u Hu), concat_app, length_app. cbn. rewrite app_nil_r.
    done.
Qed.

Lemma concat_middle (ss : list (list Z)) i v :
  ss !! i = Some v -> concat ss = concat (take i ss) ++ v ++ concat (drop (S i) ss).
Proof.
  intros Hv. rewrite <- (take_drop_middle ss i v Hv) at 1. rewrite concat_app. reflexivity.
Qed.

(** Reading the [i]-th string of either representation. *)
Definition get_var (vp : var_part) (p : Z) : option (list Z) :=
  match vp with
  | Dense part idx =>
      start ← dense_start idx p;
      stop ← idx !! Z.to_nat p;
      read_at (Z.to_nat start) (Z.to_nat (stop - start)) part
  | Sparse vars => vars !! Z.to_nat p
  end.

Lemma get_var_spec vp ss i v : holds vp ss -> ss !! i = Some v -> get_var vp (Z.of_nat i) = Some v.
Proof.
  destruct vp as [part idx|vars]; cbn; [|now intros -> Hv; rewrite Nat2Z.id].
  intros [-> ->] Hv. rewrite (dense_start_spec ss i v Hv), Nat2Z.id, (stops_lookup 0 ss i v Hv). cbn.
  rewrite Nat2Z.id. replace (Z.to_nat (_ - _)) with (length v) by lia.
  rewrite (concat_middle ss i v Hv). apply read_at_middle.
Qed.

Lemma split_dense_spec pre ss post :
  split_dense (stops (Z.of_nat (length pre)) ss) (Z.of_nat (length pre)) (pre ++ concat ss ++ post) = Some ss.
Proof.
  revert pre. induction ss as [|v ss IH]; intros pre; cbn; [done |].
  rewrite Nat2Z.id. replace (Z.to_nat (_ - _)) with (length v) by lia.
  rewrite <- !app_assoc, read_at_middle. cbn. rewrite app_assoc, <- Nat2Z.inj_add, <- length_app, IH. reflexivity.
Qed.

Lemma make_sparse_spec s r ss :
  holds (var_ r) ss -> Z.of_nat (length ss) = var_size_cols_ s ->
  make_sparse s r = Some (set_var (Sparse ss) r).
Proof.
  unfold make_sparse. intros Hh Hl. destruct (var_ r) as [part idx|vars] eqn:E; cbn in Hh.
  - destruct Hh as [-> ->]. destruct (Z.eqb_spec (var_size_cols_ s) 0) as [E0|_].
    + destruct ss; [done | cbn in Hl; lia].
    + pose proof (split_dense_spec [] ss []) as Hs. cbn in Hs. rewrite app_nil_r in Hs.
      change (Z.of_nat 0) with 0 in Hs. now rewrite Hs.
  - subst vars. unfold set_var. rewrite <- E. now destruct r.
Qed.

Lemma stops_insert acc ss i v v' :
  ss !! i = Some v -> length v' = length v -> stops acc (<[i := v']> ss) = stops acc ss.
Proof.
  revert acc i. induction ss as [|u ss IH]; intros acc [|i]; cbn; try done.
  - intros [= ->] ->. done.
  - intros Hv Hl. f_equal. now apply IH.
Qed.

Lemma concat_insert (ss : list (list Z)) i v v' :
  ss !! i = Some v -> concat (<[i := v']> ss) = concat (take i ss) ++ v' ++ concat (drop (S i) ss).
Proof.
  intros Hv. rewrite insert_take_drop by (eapply lookup_lt_Some; eauto). now rewrite concat_app.
Qed.

Lemma store_str_spec s info r ss i v v' :
  holds (var_ r) ss -> Z.of_nat (length ss) = var_size_cols_ s -> place info = Z.of_nat i ->
  ss !! i = Some v ->
  runs (store_str s info v' r) (fun r' => holds (var_ r') (<[i := v']> ss)
    /\ fixed_part_ r' = fixed_part_ r /\ rdonly_ r' = rdonly_ r).
Proof.
  intros Hh Hl Hp Hv. unfold store_str. rewrite Hp, !Nat2Z.id.
  destruct (var_ r) as [part idx|vars] eqn:E.
  - pose proof Hh as [-> ->]. rewrite (dense_start_spec ss i v Hv), (stops_lookup 0 ss i v Hv).
    cbn [mbind option_bind]. destruct (Z.eqb_spec (0 + Z.of_nat (length (concat (take i ss)) + length v)
      - Z.of_nat (length (concat (take i ss)))) (Z.of_nat (length v'))) as [El|El].
    + assert (Hlen : length v' = length v) by lia.
      rewrite Nat2Z.id, (concat_middle ss i v Hv), write_at_middle by done. apply runs_ret. cbn.
      rewrite stops_insert with (v := v), concat_insert with (v := v) by done. done.
    + rewrite <- E in Hh. rewrite (make_sparse_spec s r ss Hh Hl). cbn. rewrite Hv. cbn. now apply runs_ret.
  - cbn in Hh. subst vars. rewrite Hv. cbn. now apply runs_ret.
Qed.

(** The second pass of [create]. *)
Lemma write_vars_spec vs ss :
  write_vars vs (concat ss) (stops 0 ss) = (concat (ss ++ omap get_str vs), stops 0 (ss ++ omap get_str vs)).
Proof.
  revert ss. induction vs as [|v vs IH]; intros ss; cbn; [now rewrite app_nil_r |].
  destruct v; cbn; try apply IH. rewrite (cons_middle s), app_assoc, <- IH.
  rewrite stops_app, Z.add_0_l, concat_app. cbn. now rewrite app_nil_r.
Qed.

(** ** Well-formed rows *)
Section Rows.
Context (s : schema) (Hs : schema_ok s).

Definition row_ok (r : row) : Prop :=
  length (fixed_part_ r) = Z.to_nat (fixed_part_size_ s) /\ Forall is_byte (fixed_part_ r)
  /\ exists ss, holds (var_ r) ss /\ Z.of_nat (length ss) = var_size_cols_ s /\ Forall (Forall is_byte) ss.

Lemma column_info_at i c : col_info_ s !! i = Some c -> get_column_info (Z.of_nat i) s = Some c.
Proof using All.
  intros Hc. unfold get_column_info. destruct (Z.ltb_spec (Z.of_nat i) 0); [lia |]. now rewrite Nat2Z.id.
Qed.

Lemma is_str_spec k : is_str k = true <-> k = STR.
Proof. unfold is_str. apply bool_decide_eq_true. Qed.

(** The blob of a column. *)
Lemma blob_fixed i c r :
  col_info_ s !! i = Some c -> is_str (type c) = false ->
  get_blob s (Z.of_nat i) r = read_at (Z.to_nat (place c)) (Z.to_nat (size_of (type c))) (fixed_part_ r).
Proof using All.
  intros Hc Hns. unfold get_blob. rewrite (column_info_at i c Hc). cbn [mbind option_bind].
  pose proof Hs as (HC & _). destruct (HC i c Hc) as (_ & Hu & _). destruct (type c) eqn:E; try done.
Qed.

Lemma blob_str i c r :
  col_info_ s !! i = Some c -> is_str (type c) = true -> get_blob s (Z.of_nat i) r = get_var (var_ r) (place c).
Proof using All.
  intros Hc Hst%is_str_spec. unfold get_blob. rewrite (column_info_at i c Hc). cbn [mbind option_bind].
  rewrite Hst. reflexivity.
Qed.

Lemma rank_of i c ss :
  col_info_ s !! i = Some c -> is_str (type c) = true -> Z.of_nat (length ss) = var_size_cols_ s ->
  exists n (v : list Z), place c = Z.of_nat n /\ ss !! n = Some v.
Proof using All.
  intros Hc Hst Hl. pose proof (str_rank s i c Hs Hc Hst). exists (Z.to_nat (place c)).
  destruct (lookup_lt_is_Some_2 ss (Z.to_nat (place c))) as [v Hv]; [lia |]. exists v. split; [lia | done].
Qed.

(** Reading a column of a well-formed row gives a value of its type. *)
Lemma blob_ok i c r :
  row_ok r -> col_info_ s !! i = Some c ->
  exists b, get_blob s (Z.of_nat i) r = Some b /\ Forall is_byte b
    /\ (is_str (type c) = false -> length b = Z.to_nat (size_of (type c))).
Proof using All.
  intros (Hl & Hb & ss & Hh & Hn & Hss) Hc. destruct (is_str (type c)) eqn:Est.
  - destruct (rank_of i c ss Hc Est Hn) as (n & v & Hp & Hv). exists v.
    rewrite (blob_str i c r Hc Est), Hp, (get_var_spec _ _ _ _ Hh Hv).
    split; [done |]. split; [|done]. eapply Forall_lookup_1 in Hss; eauto.
  - destruct (column_inside s i c Hs Hc Est) as [P1 P2]. rewrite (blob_fixed i c r Hc Est).
    pose proof (size_of_nonneg (type c)). rewrite read_at_in_range by lia.
    eexists. split; [reflexivity |].
    split; [auto using Forall_take, Forall_drop |]. intros _. rewrite length_take, length_drop. lia.
Qed.

Lemma decode_ok k b :
  k <> UNKNOWN -> Forall is_byte b -> (is_str k = false -> length b = Z.to_nat (size_of k)) ->
  exists v, decode k b = Some v /\ get_kind v = k /\ value_ok v.
Proof using Type.
  intros Hk Hb Hl. pose proof (le_int_bound b Hb) as Hi.
  destruct k; cbn; try done; eexists; (split; [reflexivity |]; split; [reflexivity |]); cbn; try done.
  - unfold swrap, wrap. pose proof (Z.mod_pos_bound (le_int b) (2 ^ 32)).
    destruct (Z.ltb_spec (le_int b mod 2 ^ 32) (2 ^ (32 - 1))); lia.
  - unfold swrap, wrap. pose proof (Z.mod_pos_bound (le_int b) (2 ^ 64)).
    destruct (Z.ltb_spec (le_int b mod 2 ^ 64) (2 ^ (64 - 1))); lia.
  - rewrite (Hl eq_refl) in Hi. exact Hi.
Qed.

(** A value is what its memory image decodes to. *)
Lemma decode_encode v b :
  value_ok v -> write_binary v = Some b -> decode (get_kind v) b = Some v.
Proof using Type.
  destruct v; cbn -[le_bytes]; intros Hv; [discriminate | | | |]; intros E; apply (inj Some) in E; subst b.
  - do 2 f_equal. now apply le_signed.
  - do 2 f_equal. now apply le_signed.
  - do 2 f_equal. now apply (le_unsigned 8 64).
  - done.
Qed.

Lemma encode_spec v :
  get_kind v <> UNKNOWN -> value_ok v ->
  exists b, write_binary v = Some b /\ Forall is_byte b
    /\ (is_str (get_kind v) = false -> length b = Z.to_nat (size_of (get_kind v))).
Proof using Type.
  destruct v; cbn -[le_bytes]; intros Hk Hv; try done; eexists; (split; [reflexivity |]);
    (split; [done || apply le_bytes_are_bytes |]); intros Hs'; try done; apply length_le_bytes.
Qed.

Lemma column_of_blob i c r b :
  col_info_ s !! i = Some c -> get_blob s (Z.of_nat i) r = Some b ->
  get_column s (Z.of_nat i) r = decode (type c) b.
Proof using All. intros Hc Hb. unfold get_column. now rewrite (column_info_at i c Hc), Hb. Qed.

(** *** Updates *)

(** The effect of an update of column [i] with [v]. *)
Definition updated (i : nat) (c : column_info) (v : value) (r : row) (u : update_result) : Prop :=
  match u with
  | NotUpdated => get_column s (Z.of_nat i) r = Some v
  | Updated re r' =>
      re = indexed c /\ row_ok r' /\ rdonly_ r' = false
      /\ get_column s (Z.of_nat i) r' = Some v
      /\ forall j cj, j <> i -> col_info_ s !! j = Some cj -> get_blob s (Z.of_nat j) r' = get_blob s (Z.of_nat j) r
  end.

Lemma update_fixed_spec i c v b r :
  row_ok r -> rdonly_ r = false -> col_info_ s !! i = Some c -> get_kind v = type c ->
  is_str (type c) = false -> value_ok v -> write_binary v = Some b ->
  length b = Z.to_nat (size_of (type c)) -> Forall is_byte b ->
  runs (update_fixed c b r) (updated i c v r).
Proof using All.
  intros (Hl & Hf & ss & Hh & Hn & Hss) Hro Hc Hk Hns Hv Hb Hlen Hbb. unfold update_fixed.
  rewrite Hro. cbn [negb verify mbind option_bind].
  destruct (column_inside s i c Hs Hc Hns) as [P1 P2]. pose proof (size_of_nonneg (type c)) as Hsz.
  pose proof (decode_encode v b Hv Hb) as Hdec. rewrite Hk in Hdec.
  rewrite Hlen. destruct (read_at (Z.to_nat (place c)) _ (fixed_part_ r)) as [old|] eqn:Eold.
  2:{ rewrite read_at_in_range in Eold by lia. discriminate. }
  cbn [mbind option_bind]. rewrite <- (blob_fixed i c r Hc Hns) in Eold. destruct (decide (old = b)) as [->|Hne].
  { apply runs_ret. cbn. now rewrite (column_of_blob i c r b Hc Eold). }
  destruct (write_at_in_range (Z.to_nat (place c)) b (fixed_part_ r)) as [f Ef]; [lia |].
  rewrite Ef. cbn [mbind option_bind]. apply runs_ret. cbn [updated]. split; [done |].
  split; [|split; [exact Hro |]; split].
  - split; [cbn; now rewrite (write_at_length _ _ _ _ Ef) |].
    split; [cbn; now apply (write_at_bytes _ _ _ _ Hbb Hf Ef) |]. exists ss. done.
  - rewrite (column_of_blob i c _ b Hc); [done |]. rewrite (blob_fixed i c _ Hc Hns). cbn [fixed_part_ set_fixed].
    rewrite <- Hlen. now apply read_write_same with (1 := Ef).
  - intros j cj Hj Hcj. destruct (is_str (type cj)) eqn:Est; [now rewrite !(blob_str j cj _ Hcj Est) |].
    rewrite !(blob_fixed j cj _ Hcj Est). cbn [fixed_part_ set_fixed].
    apply read_write_other with (1 := Ef). rewrite Hlen.
    destruct (column_inside s j cj Hs Hcj Est) as [Q1 Q2]. pose proof (size_of_nonneg (type cj)).
    destruct (decide (i < j)%nat) as [Hij|Hij].
    + pose proof (columns_apart s i j c cj Hs Hc Hcj Hij Hns Est). lia.
    + pose proof (columns_apart s j i cj c Hs Hcj Hc ltac:(lia) Est Hns). lia.
Qed.

Lemma update_str_spec i c v r :
  row_ok r -> rdonly_ r = false -> col_info_ s !! i = Some c -> type c = STR -> Forall is_byte v ->
  runs (update_str s (Z.of_nat i) v r) (updated i c (VStr v) r).
Proof using All.
  intros (Hl & Hf & ss & Hh & Hn & Hss) Hro Hc Hty Hv. unfold update_str. rewrite Hro.
  assert (Hst : is_str (type c) = true) by now apply is_str_spec.
  rewrite (column_info_at i c Hc). cbn [negb verify mbind option_bind]. rewrite Hst. cbn [verify mbind option_bind].
  destruct (rank_of i c ss Hc Hst Hn) as (n & old & Hp & Hold).
  assert (Eold : get_blob s (Z.of_nat i) r = Some old)
    by (rewrite (blob_str i c r Hc Hst), Hp; now apply (get_var_spec _ ss)).
  rewrite Eold. cbn [mbind option_bind]. destruct (decide (old = v)) as [->|Hne].
  { apply runs_ret. cbn. rewrite (column_of_blob i c r v Hc Eold), Hty. done. }
  eapply runs_bind; [now apply (store_str_spec s c r ss n old v) |]. intros r' (H1 & H2 & H3).
  apply runs_ret. cbn [updated]. split; [done |].
  pose proof (lookup_lt_Some _ _ _ Hold) as Hlt.
  split; [|split; [congruence |]; split].
  - split; [now rewrite H2 |]. split; [now rewrite H2 |]. exists (<[n := v]> ss).
    split; [done |]. split; [now rewrite length_insert |]. now apply Forall_insert.
  - rewrite (column_of_blob i c _ v Hc), Hty; [done |]. rewrite (blob_str i c _ Hc Hst), Hp.
    apply (get_var_spec _ (<[n := v]> ss)); [done |]. now apply list_lookup_insert_eq.
  - intros j cj Hj Hcj. destruct (is_str (type cj)) eqn:Est;
      [|rewrite !(blob_fixed j cj _ Hcj Est); now rewrite H2].
    destruct (rank_of j cj ss Hcj Est Hn) as (m & u & Hpm & Hu). rewrite !(blob_str j cj _ Hcj Est), Hpm.
    assert (n <> m).
    { intros ->. destruct (decide (i < j)%nat) as [Hij|Hij].
      - pose proof (str_ranks_apart s i j c cj Hs Hc Hcj Hij Hst Est). lia.
      - pose proof (str_ranks_apart s j i cj c Hs Hcj Hc ltac:(lia) Est Hst). lia. }
    rewrite (get_var_spec _ ss m u Hh Hu). apply (get_var_spec _ (<[n := v]> ss)); [done |].
    now rewrite list_lookup_insert_ne.
Qed.

Lemma update_spec i c v r :
  row_ok r -> rdonly_ r = false -> col_info_ s !! i = Some c -> get_kind v = type c -> value_ok v ->
  runs (update s (Z.of_nat i) v r) (updated i c v r).
Proof using All.
  intros Hr Hro Hc Hk Hv. pose proof Hs as (HC & _). destruct (HC i c Hc) as (_ & Hu & _).
  destruct (encode_spec v) as (b & Hb & Hbb & Hlen); [congruence | done |].
  destruct (is_str (type c)) eqn:Est.
  - apply is_str_spec in Est as Est'. rewrite Est' in Hk. destruct v; try discriminate. cbn. now apply update_str_spec.
  - assert (E : update s (Z.of_nat i) v r = update_fixed c b r).
    { unfold update. rewrite (column_info_at i c Hc), Hb. destruct v; cbn in Hk; try congruence;
        cbn [mbind option_bind get_kind]; rewrite <- ?Hk, ?bool_decide_true by done; try reflexivity.
      rewrite <- Hk in Est. discriminate. }
    rewrite E. apply update_fixed_spec; auto. rewrite <- Hk. apply Hlen. now rewrite Hk.
Qed.


(** *** Creation *)

(** The values fit the first columns. *)
Definition fits (vs : list value) : Prop :=
  forall i v, vs !! i = Some v ->
    value_ok v /\ exists c, col_info_ s !! i = Some c /\ get_kind v = type c.

Definition blank (n : Z) : list Z := replicate (Z.to_nat n) 0.

Lemma write_all_snoc vs v st :
  write_all_fixed (vs ++ [v]) st = write_all_fixed vs st ≫= write_fixed v.
Proof using Type.
  revert st. induction vs as [|u vs IH]; intros st; cbn; [now destruct (write_fixed v st) |].
  destruct (write_fixed u st); cbn; [apply IH | done].
Qed.

(** After the first pass over [vs]: the columns written so far hold their values
    and the rest of the buffer is zero. *)
Definition written (vs : list value) (st : list Z * Z) : Prop :=
  let '(buf, pos) := st in
  length buf = Z.to_nat (fixed_part_size_ s) /\ Forall is_byte buf
  /\ pos = fixed_size (take (length vs) (col_info_ s))
  /\ (forall i v c, vs !! i = Some v -> col_info_ s !! i = Some c -> is_str (type c) = false ->
        read_at (Z.to_nat (place c)) (Z.to_nat (size_of (type c))) buf = write_binary v)
  /\ (forall p len, pos <= Z.of_nat p -> (p + len <= length buf)%nat -> read_at p len buf = Some (replicate len 0)).

Lemma written_nil : written [] (blank (fixed_part_size_ s), 0).
Proof using Type.
  unfold written, blank. rewrite length_replicate. split; [done |].
  split; [apply Forall_replicate; unfold is_byte; lia |]. split; [done |]. split; [done |].
  intros p len _ Hl. rewrite read_at_in_range by (rewrite length_replicate; lia).
  rewrite drop_replicate, take_replicate. do 2 f_equal. lia.
Qed.

Lemma fits_snoc vs v : fits (vs ++ [v]) -> fits vs /\ value_ok v
  /\ exists c, col_info_ s !! length vs = Some c /\ get_kind v = type c.
Proof using Type.
  intros Hf. split; [intros i u Hu; apply Hf; now apply lookup_app_l_Some |].
  apply Hf. now apply list_lookup_middle.
Qed.

Lemma written_snoc vs v st :
  fits (vs ++ [v]) -> written vs st -> runs (write_fixed v st) (written (vs ++ [v])).
Proof using All.
  intros (Hf & Hv & c & Hc & Hk)%fits_snoc Hw. destruct st as [buf pos].
  destruct Hw as (W1 & W2 & W3 & W4 & W5). pose proof Hs as (HC & _).
  destruct (HC _ c Hc) as (_ & Hu & Hp & _).
  assert (Hpos : fixed_size (take (length (vs ++ [v])) (col_info_ s)) = pos + size_of (type c)).
  { rewrite length_app. cbn. rewrite Nat.add_1_r, (take_S_r _ _ _ Hc), fixed_size_app, fixed_size_cons, W3.
    change (fixed_size []) with 0. lia. }
  destruct (encode_spec v) as (b & Hb & Hbb & Hlen); [congruence | done |]. rewrite Hk in Hlen.
  destruct (is_str (type c)) eqn:Est.
  - assert (E : exists str, v = VStr str).
    { apply is_str_spec in Est. rewrite Est in Hk. destruct v; try discriminate. eauto. }
    destruct E as [str ->]. apply runs_ret. split; [done |]. split; [done |].
    apply is_str_spec in Est as Est'. rewrite Hpos, Est'. cbn [size_of]. rewrite Z.add_0_r.
    split; [done |]. split; [|done]. intros i u c' [Hu'|[Hi Hu']]%lookup_app_Some Hc' Hns; [eauto |].
    apply list_lookup_singleton_Some in Hu' as [Hz <-]. replace i with (length vs) in Hc' by lia.
    rewrite Hc in Hc'. injection Hc' as <-. congruence.
  - specialize (Hlen eq_refl). destruct (column_inside s _ c Hs Hc Est) as [P1 P2]. rewrite <- W3 in Hp.
    destruct (write_at_in_range (Z.to_nat pos) b buf) as [buf' Eb]; [pose proof (size_of_nonneg (type c)); lia |].
    assert (E : write_fixed v (buf, pos) = Some (buf', pos + size_of (type c))).
    { unfold write_fixed. rewrite Hb. cbn [mbind option_bind]. rewrite Eb. cbn [mbind option_bind].
      rewrite <- Hk. destruct v; try reflexivity; cbn in Hk; rewrite <- Hk in Est; done. }
    rewrite E. apply runs_ret. pose proof (write_at_length _ _ _ _ Eb) as Hl'. pose proof (size_of_nonneg (type c)).
    assert (0 <= pos) by lia.
    split; [congruence |]. split; [now apply (write_at_bytes _ _ _ _ Hbb W2 Eb) |].
    split; [now rewrite Hpos |]. split.
    + intros i u c' [Hu'|[Hi Hu']]%lookup_app_Some Hc' Hns.
      * rewrite (read_write_other _ _ _ _ _ _ Eb); [eauto |]. left.
        pose proof (columns_apart s i (length vs) c' c Hs Hc' Hc (lookup_lt_Some _ _ _ Hu') Hns Est).
        destruct (column_inside s _ c' Hs Hc' Hns). pose proof (size_of_nonneg (type c')). lia.
      * apply list_lookup_singleton_Some in Hu' as [Hz <-]. replace i with (length vs) in Hc' by lia.
        rewrite Hc in Hc'. injection Hc' as <-. rewrite Hp, Hb, <- Hlen.
        apply (read_write_same _ _ _ _ Eb).
    + intros p len Hpp Hpl. rewrite (read_write_other _ _ _ _ _ _ Eb) by (right; lia). apply W5; lia.
Qed.

Lemma write_all_spec vs :
  fits vs -> runs (write_all_fixed vs (blank (fixed_part_size_ s), 0)) (written vs).
Proof using All.
  induction vs as [|v vs IH] using rev_ind; intros Hf; [apply runs_ret, written_nil |].
  rewrite write_all_snoc. eapply runs_bind; [apply IH; now apply fits_snoc in Hf |].
  intros st Hst. now apply written_snoc.
Qed.

Lemma skip_hidden_spec n :
  skip_hidden (drop n (col_info_ s)) (fixed_size (take n (col_info_ s))) = Some (fixed_part_size_ s).
Proof using All.
  pose proof Hs as (HC & _ & _ & -> & _).
  assert (G : forall l pos, Forall (fun c => type c <> UNKNOWN) l -> skip_hidden l pos = Some (pos + fixed_size l)).
  { induction l as [|c l IH]; intros pos Hl; cbn [skip_hidden]; [f_equal; change (fixed_size []) with 0; lia |].
    apply Forall_cons_iff in Hl as [Hc Hl]. rewrite bool_decide_false by done. cbn [negb verify mbind option_bind].
    rewrite IH, fixed_size_cons by done. f_equal. lia. }
  rewrite G; [now rewrite <- fixed_size_app, take_drop |].
  apply Forall_drop, Forall_lookup. intros i c Hc. now destruct (HC i c Hc) as (_ & Hu & _).
Qed.


Lemma get_str_kind v c : get_kind v = type c -> length (option_list (get_str v)) = Z.to_nat (Z.b2z (is_str (type c))).
Proof using Type. intros <-. now destruct v. Qed.

Lemma omap_app_str (vs : list value) v : omap get_str (vs ++ [v]) = omap get_str vs ++ option_list (get_str v).
Proof using Type. rewrite omap_app. cbn. now destruct (get_str v). Qed.

Lemma strs_length vs :
  fits vs -> Z.of_nat (length (omap get_str vs)) = str_count (take (length vs) (col_info_ s)).
Proof using Type.
  induction vs as [|v vs IH] using rev_ind; intros Hf; [done |].
  apply fits_snoc in Hf as (Hf & _ & c & Hc & Hk). rewrite omap_app_str, !length_app. cbn [length].
  rewrite Nat.add_1_r, (take_S_r _ _ _ Hc), str_count_app, str_count_cons, (get_str_kind v c Hk), Nat2Z.inj_add, IH by done.
  change (str_count []) with 0. destruct (is_str (type c)); cbn; lia.
Qed.

Lemma strs_lookup vs i b c :
  fits vs -> vs !! i = Some (VStr b) -> col_info_ s !! i = Some c ->
  omap get_str vs !! Z.to_nat (place c) = Some b.
Proof using All.
  intros Hf Hv Hc. pose proof Hs as (HC & _). destruct (HC i c Hc) as (_ & _ & Hp & _).
  destruct (Hf i _ Hv) as (_ & c' & Hc' & Hk). rewrite Hc in Hc'. injection Hc' as <-. cbn in Hk.
  rewrite <- Hk in Hp.
  change (is_str STR) with true in Hp. cbv iota in Hp. pose proof (lookup_lt_Some _ _ _ Hv) as Hlt.
  assert (Hft : fits (take i vs)) by (intros j u Hu; apply Hf; eapply lookup_take_Some; eauto).
  pose proof (strs_length (take i vs) Hft) as Hlen. rewrite length_take, Nat.min_l in Hlen by lia.
  rewrite <- (take_drop_middle vs i _ Hv), omap_app.
  change (omap get_str (VStr b :: drop (S i) vs)) with (b :: omap get_str (drop (S i) vs)).
  rewrite Hp, <- Hlen, Nat2Z.id. now apply list_lookup_middle.
Qed.

Lemma strs_bytes vs : fits vs -> Forall (Forall is_byte) (omap get_str vs).
Proof using Type.
  intros Hf. apply Forall_forall. intros b Hb. apply list_elem_of_omap in Hb as (v & Hv & Eb).
  apply list_elem_of_lookup in Hv as [i Hi]. destruct (Hf i v Hi) as (Hok & _). destruct v; try discriminate.
  cbn in Eb. injection Eb as <-. exact Hok.
Qed.

Lemma hide_vars_none cols idx :
  Forall (fun c => is_str (type c) = false) cols -> hide_vars cols idx = Some idx.
Proof using Type. induction 1 as [|c cols Hc Hl IH]; cbn; [done |]. now rewrite Hc. Qed.

Lemma str_count_none cols : Forall (fun c => is_str (type c) = false) cols -> str_count cols = 0.
Proof using Type. intros Hf. unfold str_count. now rewrite filter_none. Qed.

(** The values given to [create] are exactly the visible columns, and no hidden
    column is a string. *)
Definition creatable (vs : list value) : Prop :=
  fits vs /\ Z.of_nat (length vs) = columns_count s
  /\ Forall (fun c => is_str (type c) = false) (drop (length vs) (col_info_ s)).

Lemma create_spec vs :
  creatable vs ->
  runs (create s vs) (fun r => row_ok r /\ rdonly_ r = false
    /\ (forall i v, vs !! i = Some v -> get_column s (Z.of_nat i) r = Some v)
    /\ (forall i c, (length vs <= i)%nat -> col_info_ s !! i = Some c ->
          get_blob s (Z.of_nat i) r = Some (blank (size_of (type c))))).
Proof using All.
  intros (Hf & Hn & Hh). unfold create, create_raw. rewrite Hn, Z.eqb_refl. cbn [verify mbind option_bind].
  destruct (write_all_spec vs Hf) as ([buf pos] & E & W1 & W2 & W3 & W4 & W5). unfold blank in E. rewrite E.
  cbn [mbind option_bind]. rewrite W3, skip_hidden_spec. cbn [mbind option_bind]. rewrite Z.eqb_refl.
  cbn [verify mbind option_bind]. set (ss := omap get_str vs).
  assert (Hvar : var_size_cols_ s = Z.of_nat (length ss)).
  { pose proof Hs as (_ & _ & -> & _). unfold ss. rewrite (strs_length vs Hf).
    rewrite <- (take_drop (length vs) (col_info_ s)) at 1. rewrite str_count_app, (str_count_none _ Hh). lia. }
  apply runs_mono with (P := fun r => fixed_part_ r = buf /\ holds (var_ r) ss /\ rdonly_ r = false).
  - destruct (Z.ltb_spec 0 (var_size_cols_ s)) as [Hpos|Hzero].
    + change (write_vars vs [] []) with (write_vars vs (concat []) (stops 0 [])). rewrite write_vars_spec. cbn [app].
      fold ss. rewrite (hide_vars_none _ _ Hh). cbn [mbind option_bind].
      rewrite stops_length, Hvar, Z.eqb_refl. cbn. now apply runs_ret.
    + apply runs_ret. destruct ss; [done | cbn in Hvar; lia].
  - intros r (<- & Hvars & Hro). split; [|split; [done |]; split].
    + split; [done |]. split; [done |]. exists ss. split; [done |]. split; [done |]. now apply strs_bytes.
    + intros i v Hv. destruct (Hf i v Hv) as (Hok & c & Hc & Hk). pose proof Hs as (HC & _).
      destruct (HC i c Hc) as (_ & Hu & _). destruct (encode_spec v) as (b & Hb & _); [congruence | done |].
      rewrite (column_of_blob i c r b Hc); [rewrite <- Hk; now apply decode_encode |].
      destruct (is_str (type c)) eqn:Est.
      * rewrite (blob_str i c r Hc Est). apply is_str_spec in Est as Est'. rewrite Est' in Hk.
        destruct v; try discriminate. injection Hb as <-.
        pose proof (str_rank s i c Hs Hc Est). replace (place c) with (Z.of_nat (Z.to_nat (place c))) by lia.
        apply (get_var_spec _ ss); [done |]. now apply strs_lookup with (i := i).
      * rewrite (blob_fixed i c r Hc Est), <- Hb. now apply W4 with (i := i).
    + intros i c Hi Hc. assert (Est : is_str (type c) = false).
      { eapply (Forall_lookup_1 _ _ (i - length vs)%nat c) in Hh; [exact Hh |].
        rewrite lookup_drop, <- Hc. f_equal. lia. }
      rewrite (blob_fixed i c r Hc Est). destruct (column_inside s i c Hs Hc Est) as [P1 P2].
      pose proof (size_of_nonneg (type c)). apply W5; [|lia]. rewrite W3.
      pose proof Hs as (HC & _). destruct (HC i c Hc) as (_ & _ & Hp & _). rewrite Est in Hp.
      rewrite Z2Nat.id, Hp by lia. rewrite <- (take_drop (length vs) (take i (col_info_ s))), take_take, Nat.min_l by lia.
      rewrite fixed_size_app. pose proof (fixed_size_nonneg (drop (length vs) (take i (col_info_ s)))). lia.
Qed.


(** *** Conversion and copy *)

(** Rows with the same fixed part and the same strings have the same columns. *)
Lemma same_blobs r r' ss :
  fixed_part_ r' = fixed_part_ r -> holds (var_ r) ss -> holds (var_ r') ss ->
  Z.of_nat (length ss) = var_size_cols_ s ->
  forall i c, col_info_ s !! i = Some c -> get_blob s (Z.of_nat i) r' = get_blob s (Z.of_nat i) r.
Proof using All.
  intros Hf H1 H2 Hn i c Hc. destruct (is_str (type c)) eqn:Est.
  - destruct (rank_of i c ss Hc Est Hn) as (n & v & Hp & Hv). rewrite !(blob_str i c _ Hc Est), Hp.
    now rewrite (get_var_spec _ ss n v H1 Hv), (get_var_spec _ ss n v H2 Hv).
  - rewrite !(blob_fixed i c _ Hc Est). now rewrite Hf.
Qed.

Lemma make_sparse_ok r :
  row_ok r ->
  runs (make_sparse s r) (fun r' => row_ok r' /\ rdonly_ r' = rdonly_ r
    /\ forall i c, col_info_ s !! i = Some c -> get_blob s (Z.of_nat i) r' = get_blob s (Z.of_nat i) r).
Proof using All.
  intros (Hl & Hb & ss & Hh & Hn & Hss). rewrite (make_sparse_spec s r ss Hh Hn). apply runs_ret.
  split; [|split; [done |]].
  - split; [done |]. split; [done |]. now exists ss.
  - apply (same_blobs r _ ss); done.
Qed.

Lemma filter_position {A} (f : A -> bool) (l : list A) k x :
  List.filter f l !! k = Some x ->
  exists i, l !! i = Some x /\ f x = true /\ length (List.filter f (take i l)) = k.
Proof using Type.
  revert k. induction l as [|y l IH]; intros k; cbn; [now rewrite lookup_nil |].
  destruct (f y) eqn:E.
  - destruct k as [|k]; cbn; [intros [= ->]; now exists O |]. intros (i & H1 & H2 & H3)%IH.
    exists (S i). cbn. rewrite E. cbn. auto.
  - intros (i & H1 & H2 & H3)%IH. exists (S i). cbn. now rewrite E.
Qed.

Lemma visible_strs_all :
  Forall (fun c => is_str (type c) = false) (drop (Z.to_nat (columns_count s)) (col_info_ s)) ->
  visible_strs s = List.filter (fun c => is_str (type c)) (col_info_ s).
Proof using Type.
  intros Hh. unfold visible_strs.
  rewrite <- (take_drop (Z.to_nat (columns_count s)) (col_info_ s)) at 2.
  rewrite List.filter_app, (filter_none _ (drop _ _) Hh). now rewrite app_nil_r.
Qed.

Lemma copy_blobs r ss :
  holds (var_ r) ss -> Z.of_nat (length ss) = var_size_cols_ s ->
  mapM (fun c => get_blob s (col_id c) r) (List.filter (fun c => is_str (type c)) (col_info_ s)) = Some ss.
Proof using All.
  intros Hh Hn. apply mapM_Some. pose proof Hs as (HC & _ & HV & _).
  apply Forall2_same_length_lookup_2; [rewrite HV in Hn; unfold str_count in Hn; lia |].
  intros k c v Hc Hv. destruct (filter_position _ _ _ _ Hc) as (i & Hi & Hst & Hk).
  destruct (HC i c Hi) as (Hid & _ & Hp & _). rewrite Hid, (blob_str i c r Hi Hst), Hp, Hst.
  unfold str_count. rewrite Hk. now apply get_var_spec with (ss := ss).
Qed.

Lemma copy_ok r :
  row_ok r ->
  Forall (fun c => is_str (type c) = false) (drop (Z.to_nat (columns_count s)) (col_info_ s)) ->
  runs (copy s r) (fun r' => row_ok r' /\ rdonly_ r' = false
    /\ forall i c, col_info_ s !! i = Some c -> get_blob s (Z.of_nat i) r' = get_blob s (Z.of_nat i) r).
Proof using All.
  intros (Hl & Hb & ss & Hh & Hn & Hss) Hhid. unfold copy.
  rewrite read_at_in_range by lia. rewrite drop_0, <- Hl, firstn_all. cbn [mbind option_bind].
  rewrite (visible_strs_all Hhid), (copy_blobs r ss Hh Hn). cbn [mbind option_bind].
  assert (E : write_vars (VStr <$> ss) [] [] = (concat ss, stops 0 ss)).
  { change (write_vars (VStr <$> ss) [] []) with (write_vars (VStr <$> ss) (concat []) (stops 0 [])).
    rewrite write_vars_spec. cbn [app]. replace (omap get_str (VStr <$> ss)) with ss; [done |].
    clear. induction ss as [|v ss IH]; cbn; [done |]. now rewrite <- IH at 1. }
  rewrite E. apply runs_ret. split; [|split; [done |]].
  - split; [done |]. split; [done |]. exists ss. split; [done |]. now split.
  - apply (same_blobs r _ ss); done.
Qed.

End Rows.

(** ** The theorems *)

(** Round trip: a row created from values of the types of the visible columns
    is well formed, every column reads back the value it was given, and the
    hidden columns are zero. *)
Theorem create_get_column s vs :
  schema_ok s -> creatable s vs ->
  runs (create s vs) (fun r => row_ok s r /\ rdonly_ r = false
    /\ (forall i v, vs !! i = Some v -> get_column s (Z.of_nat i) r = Some v)
    /\ (forall i c, (length vs <= i)%nat -> col_info_ s !! i = Some c ->
          get_blob s (Z.of_nat i) r = Some (blank (size_of (type c))))).
Proof. intros. now apply create_spec. Qed.

(** C29. Typing: in a well-formed row, dense or sparse, every column of the schema can
    be read, and the value read has the column's type and the range of that type. *)
Theorem row_type_safe s r i c :
  schema_ok s -> row_ok s r -> col_info_ s !! i = Some c ->
  exists v, get_column s (Z.of_nat i) r = Some v /\ get_kind v = type c /\ value_ok v.
Proof.
  intros Hs Hr Hc. destruct (blob_ok s Hs i c r Hr Hc) as (b & Hb & Hbb & Hl).
  rewrite (column_of_blob s Hs i c r b Hc Hb). pose proof Hs as (HC & _). destruct (HC i c Hc) as (_ & Hu & _).
  now apply decode_ok.
Qed.

(** Updating a column of a writable row with a value of its type, in place or by
    the conversion to a sparse row, makes the column read that value and leaves
    every other column as it was; the row asks to be inserted again exactly when
    the column changed and is indexed, and it stays well formed. *)
Theorem update_get_column s i c v r :
  schema_ok s -> row_ok s r -> rdonly_ r = false -> col_info_ s !! i = Some c ->
  get_kind v = type c -> value_ok v ->
  runs (update s (Z.of_nat i) v r) (updated s i c v r).
Proof. intros. now apply update_spec. Qed.

(** The two representations are equivalent: a sparse conversion and a copy of a
    well-formed row, whose schema hides no string, are well formed and have the
    same columns. *)
Theorem sparse_and_copy_same s r :
  schema_ok s -> row_ok s r ->
  Forall (fun c => is_str (type c) = false) (drop (Z.to_nat (columns_count s)) (col_info_ s)) ->
  let same r' := row_ok s r' /\
    forall i c, col_info_ s !! i = Some c -> get_column s (Z.of_nat i) r' = get_column s (Z.of_nat i) r in
  runs (make_sparse s r) same /\ runs (copy s r) same.
Proof.
  intros Hs Hr Hh same.
  assert (G : forall r', row_ok s r' -> (forall i c, col_info_ s !! i = Some c ->
    get_blob s (Z.of_nat i) r' = get_blob s (Z.of_nat i) r) -> same r').
  { intros r' Hr' Hb. split; [done |]. intros i c Hc. unfold get_column. now rewrite (Hb i c Hc). }
  split; (eapply runs_mono; [eauto using make_sparse_ok, copy_ok |]); intros r' (H1 & _ & H2); auto.
Qed.

(** *** An account table: an id, a name, a balance and a note. *)
Definition account_schema : schema :=
  freeze (default new_schema
    (s ← add_columns [("id", I32, true); ("name", STR, false); ("balance", I64, false);
                      ("note", STR, false)]%string new_schema;
     '(_, s) ← add_hidden_column ".index" I64 s;
     Some s)).

Lemma account_schema_ok : schema_ok account_schema.
Proof.
  unfold account_schema. apply freeze_ok.
  destruct (add_columns _ new_schema) as [s|] eqn:E; [|vm_compute in E; discriminate]. cbn [mbind option_bind].
  apply add_columns_ok in E; [|apply new_schema_ok].
  destruct (add_hidden_column ".index" I64 s) as [[i s']|] eqn:E'; [|apply new_schema_ok].
  eapply add_hidden_ok; eauto.
Qed.

Definition alice : list value :=
  [VI32 7; VStr [97; 108]; VI64 (-5); VStr []].
Definition alice_row : row := default {| fixed_part_ := []; var_ := Sparse []; rdonly_ := false |} (create account_schema alice).

Lemma alice_creatable : creatable account_schema alice.
Proof.
  split; [|split; [reflexivity |]].
  - intros i v Hv. do 4 (destruct i as [|i]; [injection Hv as <-; split; [cbn; repeat constructor; cbn; lia |];
      eexists; split; [vm_compute; reflexivity | reflexivity] |]). discriminate Hv.
  - vm_compute. repeat constructor.
Qed.

Lemma alice_row_ok : row_ok account_schema alice_row.
Proof.
  destruct (create_spec account_schema account_schema_ok alice alice_creatable) as (r & E & Hr & _).
  replace alice_row with r; [done |]. unfold alice_row. now rewrite E.
Qed.

Lemma create_get_column_witness :
  runs (create account_schema alice) (fun r => row_ok account_schema r
    /\ get_column account_schema 1 r = Some (VStr [97; 108])).
Proof.
  eapply runs_mono; [apply (create_get_column account_schema alice account_schema_ok alice_creatable) |].
  intros r (H1 & _ & H3 & _). split; [exact H1 |]. exact (H3 1%nat _ eq_refl).
Defined.

Lemma row_type_safe_witness :
  exists v, get_column account_schema 2 alice_row = Some v /\ get_kind v = I64 /\ value_ok v.
Proof.
  exact (row_type_safe account_schema alice_row 2 _ account_schema_ok alice_row_ok eq_refl).
Defined.

Lemma update_get_column_witness :
  runs (update account_schema 3 (VStr [33; 33]) alice_row) (fun u =>
    exists r', u = Updated false r' /\ get_column account_schema 3 r' = Some (VStr [33; 33])).
Proof.
  eapply runs_mono; [refine (update_get_column account_schema 3 _ (VStr [33; 33]) alice_row
    account_schema_ok alice_row_ok eq_refl eq_refl eq_refl _); repeat constructor; lia |].
  intros [|re r'] H; [vm_compute in H; discriminate |]. destruct H as (-> & _ & _ & H & _).
  exists r'. split; [reflexivity | exact H].
Defined.

Lemma sparse_and_copy_same_witness :
  runs (make_sparse account_schema alice_row) (fun r' => row_ok account_schema r')
  /\ runs (copy account_schema alice_row) (fun r' => row_ok account_schema r').
Proof.
  destruct (sparse_and_copy_same account_schema alice_row account_schema_ok alice_row_ok) as [H1 H2];
    [vm_compute; repeat constructor |].
  split; (eapply runs_mono; [eassumption |]); intros r' [H _]; exact H.
Defined.
