(* ===== verification/MemKey.v ===== *)
(** * Keys of sorted tables

    [SortedMultiKey::compare] (memdb/table.cc): the key columns are compared in
    order, each by the type of the column.  On key columns that are no doubles
    the order is a strict weak order, as the multimap of a sorted table requires;
    a double that is no number is equivalent to every other. *)

From Stdlib Require Import ZArith Lia Bool.
From stdpp Require Import base list option numbers.
From S2P Require Import Prelude PamOrder Bytes MemSchema.
Local Open Scope Z_scope.

(** Whether the blob [a] of a column of type [k] is below [b]. *)
Definition col_lt (k : kind) (a b : list Z) : bool :=
  match k with
  | I32 => swrap 32 (le_int a) <? swrap 32 (le_int b)
  | I64 => swrap 64 (le_int a) <? swrap 64 (le_int b)
  | DOUBLE => double_lt (le_int a) (le_int b)
  | STR => str_lt a b
  | UNKNOWN => false
  end.

(** The blob of the first key column. *)
Definition first_blob (a : list (list Z)) : list Z := default [] (head a).

(** [compare]: -1, 0 or 1, for key columns of the types [ts]. *)
Fixpoint key_compare (ts : list kind) (a b : list (list Z)) : Z :=
  match ts with
  | [] => 0
  | k :: ts =>
      if col_lt k (first_blob a) (first_blob b) then -1
      else if col_lt k (first_blob b) (first_blob a) then 1
      else key_compare ts (tail a) (tail b)
  end.

Definition smk_lt (ts : list kind) (a b : list (list Z)) : bool := key_compare ts a b =? -1.

(** The string comparison of the source: the common prefix, then the lengths. *)
Fixpoint memcmp (a b : list Z) : Z :=
  match a, b with
  | x :: a, y :: b => if x <? y then -1 else if y <? x then 1 else memcmp a b
  | _, _ => 0
  end.

Lemma str_lt_memcmp a b :
  str_lt a b = (memcmp a b =? -1) || ((memcmp a b =? 0) && (Z.of_nat (length a) <? Z.of_nat (length b))).
Proof.
  revert b. induction a as [|x a IH]; intros [|y b]; cbn [str_lt memcmp length]; try solve [lia | done].
  rewrite IH. destruct (Z.ltb_spec x y), (Z.ltb_spec y x), (Z.eqb_spec x y); cbn [orb andb]; try solve [lia | done].
  replace (Z.of_nat (S (length a)) <? Z.of_nat (S (length b))) with (Z.of_nat (length a) <? Z.of_nat (length b))
    by (destruct (Z.ltb_spec (Z.of_nat (length a)) (Z.of_nat (length b))),
          (Z.ltb_spec (Z.of_nat (S (length a))) (Z.of_nat (S (length b)))); lia || done).
  reflexivity.
Qed.

(** ** The order of a column *)
Definition orderable (k : kind) : bool := bool_decide (k <> DOUBLE).

Lemma str_lt_irrefl a : str_lt a a = false.
Proof. induction a as [|x a IH]; cbn; [done |]. now rewrite Z.ltb_irrefl, Z.eqb_refl, IH. Qed.

Lemma str_lt_trans a b c : str_lt a b = true -> str_lt b c = true -> str_lt a c = true.
Proof.
  revert b c. induction a as [|x a IH]; intros [|y b] [|z c]; cbn; try done.
  rewrite !orb_true_iff, !andb_true_iff, !Z.ltb_lt, !Z.eqb_eq.
  intros [H1|[-> H1]] [H2|[-> H2]]; [left; lia | left; lia | left; lia | right; eauto].
Qed.

Lemma str_lt_cotrans a b c : str_lt a c = true -> str_lt a b = true \/ str_lt b c = true.
Proof.
  revert b c. induction a as [|x a IH]; intros [|y b] [|z c]; cbn; try tauto; try (intros; discriminate).
  rewrite !orb_true_iff, !andb_true_iff, !Z.ltb_lt, !Z.eqb_eq. intros [H1|[-> H1]].
  - destruct (Z.lt_trichotomy x y) as [|[->|]]; [tauto | tauto | right; left; lia].
  - destruct (Z.lt_trichotomy z y) as [|[->|]]; [tauto | destruct (IH b c H1); tauto | right; left; lia].
Qed.

Lemma col_order_laws k : orderable k = true -> @KeyOrderLaws (list Z) (col_lt k).
Proof.
  intros Hk. split; unfold comp; destruct k; cbn; intros *;
    rewrite ?Z.ltb_lt, ?Z.ltb_irrefl; try lia; try done; eauto using str_lt_irrefl, str_lt_trans, str_lt_cotrans.
Qed.

(** ** The order of keys *)
Definition key_order (ts : list kind) : KeyOrder (list (list Z)) := smk_lt ts.

Lemma key_compare_anti ts a b :
  Forall (fun k => orderable k = true) ts -> key_compare ts b a = - key_compare ts a b.
Proof.
  intros Hts. revert a b. induction Hts as [|k ts Hk Hts IH]; intros a b; cbn; [done |].
  pose proof (col_order_laws k Hk) as HL. pose proof (@comp_asym _ (col_lt k) HL (first_blob a) (first_blob b)) as Ha.
  unfold comp in Ha. destruct (col_lt k (first_blob a) (first_blob b)); [now rewrite Ha |].
  destruct (col_lt k (first_blob b) (first_blob a)); [done | apply IH].
Qed.

Lemma key_order_laws ts :
  Forall (fun k => orderable k = true) ts -> @KeyOrderLaws (list (list Z)) (key_order ts).
Proof.
  intros Hts. split; unfold comp, key_order, smk_lt.
  - induction Hts as [|k ts Hk Hts IH]; intros a; cbn; [done |].
    pose proof (col_order_laws k Hk) as HL. pose proof (@comp_irrefl _ (col_lt k) HL (first_blob a)) as Hi.
    unfold comp in Hi. rewrite Hi. apply IH.
  - induction Hts as [|k ts Hk Hts IH]; intros a b c; cbn; [done |].
    pose proof (col_order_laws k Hk) as HL.
    destruct (@key_cases _ (col_lt k) HL (first_blob a) (first_blob b)) as [[(A1 & A2 & A3)|(A1 & A2 & A3)]|(A1 & A2 & A3)];
    destruct (@key_cases _ (col_lt k) HL (first_blob b) (first_blob c)) as [[(B1 & B2 & B3)|(B1 & B2 & B3)]|(B1 & B2 & B3)];
    unfold comp in *; rewrite ?A1, ?A2, ?B1, ?B2; try done; intros H1 H2.
    + pose proof (@comp_trans _ (col_lt k) HL _ _ _ A1 B1) as E. unfold comp in E. now rewrite E.
    + pose proof (@comp_keq_r _ (col_lt k) HL _ _ _ A1 B3) as E. unfold comp in E. now rewrite E.
    + pose proof (@comp_keq_l _ (col_lt k) HL _ _ _ A3 B1) as E. unfold comp in E. now rewrite E.
    + pose proof (@keq_trans _ (col_lt k) HL _ _ _ A3 B3) as E.
      apply (@keq_spec _ (col_lt k)) in E as [E1 E2]. unfold comp in E1, E2. rewrite E1, E2. eauto.
  - induction Hts as [|k ts Hk Hts IH]; intros a b c; cbn; [done |].
    pose proof (col_order_laws k Hk) as HL.
    destruct (@key_cases _ (col_lt k) HL (first_blob a) (first_blob b)) as [[(A1 & A2 & A3)|(A1 & A2 & A3)]|(A1 & A2 & A3)];
    destruct (@key_cases _ (col_lt k) HL (first_blob b) (first_blob c)) as [[(B1 & B2 & B3)|(B1 & B2 & B3)]|(B1 & B2 & B3)];
    unfold comp in *; rewrite ?A1, ?A2, ?B1, ?B2; try (intros; tauto).
    + pose proof (@comp_trans _ (col_lt k) HL _ _ _ B2 A2) as E. unfold comp in E. rewrite E.
      pose proof (@comp_asym _ (col_lt k) HL _ _ E) as E'. unfold comp in E'. now rewrite E'.
    + rewrite (@keq_sym _ (col_lt k)) in B3.
      pose proof (@comp_keq_l _ (col_lt k) HL _ _ _ B3 A2) as E. unfold comp in E. rewrite E.
      pose proof (@comp_asym _ (col_lt k) HL _ _ E) as E'. unfold comp in E'. now rewrite E'.
    + rewrite (@keq_sym _ (col_lt k)) in A3.
      pose proof (@comp_keq_r _ (col_lt k) HL _ _ _ B2 A3) as E. unfold comp in E. rewrite E.
      pose proof (@comp_asym _ (col_lt k) HL _ _ E) as E'. unfold comp in E'. now rewrite E'.
    + pose proof (@keq_trans _ (col_lt k) HL _ _ _ A3 B3) as E.
      apply (@keq_spec _ (col_lt k)) in E as [E1 E2]. unfold comp in E1, E2. rewrite E1, E2. eauto.
Qed.
