(* ===== verification/MemTable.v ===== *)
(** * Sorted tables

    memdb/table.h and memdb/table.cc, class [SortedTable]: a multimap from keys to
    rows.  The keys are not copies: a [MultiBlob] points into the memory of the
    row, so that a write to the row can change the key of an entry or leave it
    dangling.  Rows are addresses of a heap, a blob is a location in a row, and an
    operation that searches the multimap reads the keys through the heap; it is
    [None] when some entry's key cannot be read any more.  (Which keys a search
    compares depends on the shape of the library's tree: a table with a dangling
    key has no defined searches.)

    [update_column] is [Row::update] with the part that MemRow.v leaves to the
    table: a row whose indexed column changes is removed and inserted again.
    Reference counts are not modelled. *)

From Stdlib Require Import ZArith Lia Bool Sorting.Sorted.
From stdpp Require Import base list option numbers strings gmap sets.
From S2P Require Import Prelude PamOrder ALock Multimap Bytes MemSchema MemRow MemKey.
Local Open Scope Z_scope.

(** ** Blobs *)
Inductive region := RFixed | RDense | RSparse (i : nat).

Record blob := { b_row : Z; b_region : region; b_off : nat; b_len : nat }.

(** The memory a blob refers to, if the row still has it. *)
Definition deref_in (b : blob) (r : row) : option (list Z) :=
  match b_region b, var_ r with
  | RFixed, _ => read_at (b_off b) (b_len b) (fixed_part_ r)
  | RDense, Dense part _ => read_at (b_off b) (b_len b) part
  | RSparse i, Sparse vars => v ← vars !! i; read_at (b_off b) (b_len b) v
  | _, _ => None
  end.

(** [Row::get_blob], as a pointer. *)
Definition blob_of (s : schema) (a : Z) (r : row) (column_id : Z) : option blob :=
  info ← get_column_info column_id s;
  match type info with
  | I32 | I64 | DOUBLE =>
      Some {| b_row := a; b_region := RFixed; b_off := Z.to_nat (place info);
              b_len := Z.to_nat (size_of (type info)) |}
  | STR =>
      match var_ r with
      | Dense part idx =>
          start ← dense_start idx (place info);
          stop ← idx !! Z.to_nat (place info);
          Some {| b_row := a; b_region := RDense; b_off := Z.to_nat start; b_len := Z.to_nat (stop - start) |}
      | Sparse vars =>
          v ← vars !! Z.to_nat (place info);
          Some {| b_row := a; b_region := RSparse (Z.to_nat (place info)); b_off := 0; b_len := length v |}
      end
  | UNKNOWN => None
  end.

Definition key_blobs (s : schema) (a : Z) (r : row) : option (list blob) :=
  mapM (blob_of s a r) (key_cols_id_ s).

(** ** Tables *)

(** A row of the heap, and whether [tbl_] is set. *)
Record hrow := { h_row : row; in_table : bool }.

Abbreviation entry := (list blob * Z)%type.

Record table := { heap : gmap Z hrow; rows_ : list entry }.

Section Table.
Context (s : schema).

(** The types of the key columns. *)
Definition key_types : list kind :=
  (fun k => match get_column_info k s with Some c => type c | None => UNKNOWN end) <$> key_cols_id_ s.

#[local] Instance table_order : KeyOrder (list (list Z)) := key_order key_types.

Definition deref (t : table) (b : blob) : option (list Z) :=
  h ← heap t !! b_row b; deref_in b (h_row h).

(** The multimap with the keys read. *)
Definition load (t : table) (e : entry) : option (list (list Z) * entry) :=
  k ← mapM (deref t) e.1; Some (k, e).
Definition load_all (t : table) : option (list (list (list Z) * entry)) := mapM (load t) (rows_ t).

Definition set_rows (l : list entry) (t : table) : table := {| heap := heap t; rows_ := l |}.
Definition set_hrow (a : Z) (h : hrow) (t : table) : table :=
  {| heap := <[a := h]> (heap t); rows_ := rows_ t |}.

(** [set_table(tbl)]: a row is in one table. *)
Definition set_table (a : Z) (on : bool) (t : table) : option table :=
  h ← heap t !! a;
  _ ← verify (negb (on && in_table h));
  Some (set_hrow a {| h_row := h_row h; in_table := on |} t).

Definition insert (a : Z) (t : table) : option table :=
  h ← heap t !! a;
  key ← key_blobs s a (h_row h);
  t ← set_table a true t;
  k ← mapM (deref t) key;
  l ← load_all t;
  Some (set_rows ((mm_insert k (key, a) l).*2) t).

(** The first entry of the row in a range. *)
Fixpoint find_entry (a : Z) (l : list (list (list Z) * entry)) : option nat :=
  match l with
  | [] => None
  | (_, (_, a')) :: l => if a' =? a then Some O else S <$> find_entry a l
  end.

Definition remove_row (a : Z) (t : table) : option table :=
  h ← heap t !! a;
  key ← key_blobs s a (h_row h);
  k ← mapM (deref t) key;
  l ← load_all t;
  let lo := lower_bound k l in
  match find_entry a (segment lo (upper_bound k l) l) with
  | None => Some t
  | Some i => t ← set_table a false t; Some (set_rows (delete (lo + i)%nat (rows_ t)) t)
  end.

(** The removal of all rows with a key; their [tbl_] stays set. *)
Definition remove_key (k : list (list Z)) (t : table) : option table :=
  l ← load_all t;
  Some (set_rows (erase_segment (lower_bound k l) (upper_bound k l) (rows_ t)) t).

Definition clear (t : table) : table := set_rows [] t.

(** Queries: the rows between two bounds, in order or in reverse. *)
Inductive order := ORD_ASC | ORD_DESC | ORD_ANY.

Definition cursor (o : order) (l : list entry) : list Z :=
  match o with ORD_DESC => rev l.*2 | _ => l.*2 end.

Definition query (k : list (list Z)) (t : table) : option (list Z) :=
  l ← load_all t; Some (cursor ORD_ASC (equal_range k l).*2).
Definition query_lt (k : list (list Z)) (o : order) (t : table) : option (list Z) :=
  l ← load_all t; Some (cursor o (take (lower_bound k l) l).*2).
Definition query_gt (k : list (list Z)) (o : order) (t : table) : option (list Z) :=
  l ← load_all t; Some (cursor o (drop (upper_bound k l) l).*2).
Definition query_in (low high : list (list Z)) (o : order) (t : table) : option (list Z) :=
  _ ← verify (smk_lt key_types low high);
  l ← load_all t; Some (cursor o (segment (upper_bound low l) (lower_bound high l) l).*2).
Definition all (o : order) (t : table) : list Z := cursor o (rows_ t).

(** [Row::update] of a row of the heap. *)
Definition update_column (a : Z) (column_id : Z) (v : value) (t : table) : option table :=
  h ← heap t !! a;
  u ← update s column_id v (h_row h);
  match u with
  | NotUpdated => Some t
  | Updated re_insert r' =>
      if (re_insert : bool) && in_table h then
        t ← remove_row a t;
        h ← heap t !! a;
        insert a (set_hrow a {| h_row := r'; in_table := in_table h |} t)
      else Some (set_hrow a {| h_row := r'; in_table := in_table h |} t)
  end.
End Table.

(** ** Keys through the heap *)
Section Theory.
Context (s : schema) (Hs : schema_ok s).
Context (Hts : Forall (fun k => orderable k = true) (key_types s)).

#[local] Hint Extern 0 (KeyOrder (list (list Z))) => exact (table_order s) : typeclass_instances.
#[local] Instance smk_laws : @KeyOrderLaws (list (list Z)) (table_order s) := key_order_laws (key_types s) Hts.

Lemma key_column k : k ∈ key_cols_id_ s ->
  exists i c, k = Z.of_nat i /\ col_info_ s !! i = Some c /\ indexed c = true.
Proof using Hs.
  intros Hk. pose proof Hs as (_ & _ & _ & _ & HK). rewrite Forall_forall in HK.
  destruct (HK k Hk) as (c & Hc & Hi). unfold get_column_info in Hc. destruct (Z.ltb_spec k 0); [done |].
  exists (Z.to_nat k), c. split; [lia | done].
Qed.

(** The pointer to a column reads the column. *)
Lemma blob_of_spec a r i c :
  row_ok s r -> col_info_ s !! i = Some c ->
  exists b, blob_of s a r (Z.of_nat i) = Some b /\ b_row b = a /\ deref_in b r = get_blob s (Z.of_nat i) r.
Proof using Hs.
  intros (Hl & Hb & ss & Hh & Hn & Hss) Hc. unfold blob_of, get_blob.
  rewrite (column_info_at s Hs i c Hc). cbn [mbind option_bind].
  pose proof Hs as (HC & _). destruct (HC i c Hc) as (_ & Hu & _).
  destruct (type c) eqn:E; [done | eexists; split; [reflexivity | done].. |].
  assert (Est : is_str (type c) = true) by (now rewrite E). destruct (rank_of s Hs i c ss Hc Est Hn) as (n & v & Hp & Hv).
  rewrite Hp. destruct (var_ r) as [part idx|vars] eqn:Ev.
  - destruct Hh as [-> ->]. rewrite (dense_start_spec ss n v Hv), Nat2Z.id, (stops_lookup 0 ss n v Hv).
    cbn [mbind option_bind]. eexists. split; [reflexivity |]. split; [done |]. unfold deref_in. cbn. now rewrite Ev.
  - cbn in Hh. subst vars. rewrite Nat2Z.id, Hv. cbn [mbind option_bind]. eexists. split; [reflexivity |].
    split; [done |]. unfold deref_in. cbn. rewrite Ev, Hv. cbn. rewrite read_at_in_range by lia. now rewrite firstn_all.
Qed.

Definition key_of (r : row) : list (list Z) := default [] (get_key s r).

Lemma key_blobs_spec a r :
  row_ok s r ->
  exists bs, key_blobs s a r = Some bs /\ Forall (fun b => b_row b = a) bs
    /\ mapM (fun b => deref_in b r) bs = Some (key_of r) /\ get_key s r = Some (key_of r).
Proof using Hs.
  intros Hr. unfold key_blobs, key_of, get_key.
  assert (G : forall ks, Forall (fun k => k ∈ key_cols_id_ s) ks ->
    exists bs kb, mapM (blob_of s a r) ks = Some bs /\ Forall (fun b => b_row b = a) bs
      /\ mapM (fun b => deref_in b r) bs = Some kb /\ mapM (fun k => get_blob s k r) ks = Some kb).
  { induction ks as [|k ks IH]; intros Hk; [now exists [], [] |]. apply Forall_cons_iff in Hk as [Hk Hks].
    destruct (IH Hks) as (bs & kb & I1 & I2 & I3 & I4). destruct (key_column k Hk) as (i & c & -> & Hc & _).
    destruct (blob_of_spec a r i c Hr Hc) as (b & Hb & Hba & Hd).
    destruct (blob_ok s Hs i c r Hr Hc) as (v & Hv & _). rewrite Hv in Hd. exists (b :: bs), (v :: kb). cbn.
    rewrite Hb, Hd, Hv, I1, I3, I4. cbn. auto. }
  destruct (G (key_cols_id_ s)) as (bs & kb & H1 & H2 & H3 & H4); [now apply Forall_forall |].
  rewrite H4. eauto.
Qed.

(** ** Well-formed tables *)
Definition key_at (t : table) (a : Z) : list (list Z) :=
  match heap t !! a with Some h => key_of (h_row h) | None => [] end.

Definition loaded (t : table) : list (list (list Z) * entry) := (fun e => (key_at t e.2, e)) <$> rows_ t.

(** The keys and the rows of the table, in key order. *)
Definition contents (t : table) : list (list (list Z) * Z) := (fun e => (key_at t e.2, e.2)) <$> rows_ t.

(** The key of an entry points to the key columns of its row. *)
Definition entry_ok (t : table) (e : entry) : Prop :=
  exists h, heap t !! e.2 = Some h /\ in_table h = true /\ key_blobs s e.2 (h_row h) = Some e.1.

Definition rows_ok (t : table) : Prop := forall a h, heap t !! a = Some h -> row_ok s (h_row h).

Definition table_ok (t : table) : Prop :=
  rows_ok t /\ Forall (entry_ok t) (rows_ t) /\ NoDup ((rows_ t).*2) /\ mm_sorted (loaded t).

Lemma deref_key t a h bs :
  heap t !! a = Some h -> row_ok s (h_row h) -> key_blobs s a (h_row h) = Some bs ->
  mapM (deref t) bs = Some (key_at t a).
Proof using Hs.
  intros Ha Hr Hbs. destruct (key_blobs_spec a (h_row h) Hr) as (bs' & E & H2 & H3 & _).
  rewrite Hbs in E. injection E as <-. unfold key_at. rewrite Ha, <- H3. clear H3 Hbs.
  induction H2 as [|b bs Hb Hbs IH]; [done |]. cbn. rewrite IH. f_equal. unfold deref. now rewrite Hb, Ha.
Qed.

Lemma load_entry t e : rows_ok t -> entry_ok t e -> load t e = Some (key_at t e.2, e).
Proof using Hs.
  intros HR (h & Ha & _ & Hk). unfold load. now rewrite (deref_key t e.2 h e.1 Ha (HR _ _ Ha) Hk).
Qed.

Lemma load_all_spec t : table_ok t -> load_all t = Some (loaded t).
Proof using Hs.
  intros (HR & HE & _). unfold load_all, loaded. induction HE as [|e l He Hl IH]; [done |].
  cbn [mapM fmap list_fmap]. rewrite (load_entry t e HR He). cbn [mbind option_bind]. now rewrite IH.
Qed.

Lemma contents_loaded t : contents t = prod_map Datatypes.id snd <$> loaded t.
Proof using Type. unfold contents, loaded. now rewrite <- list_fmap_compose. Qed.

Lemma loaded_snd t : (loaded t).*2 = rows_ t.
Proof using Type. unfold loaded. rewrite <- list_fmap_compose. apply list_fmap_id. Qed.

Lemma elem_of_loaded t x : table_ok t -> x ∈ loaded t -> x.1 = key_at t x.2.2 /\ entry_ok t x.2.
Proof using Type.
  intros (_ & HE & _) (e & -> & He)%list_elem_of_fmap. cbn. rewrite Forall_forall in HE. auto.
Qed.

(** A table from a sorted list of entries with their keys. *)
Lemma table_ok_of t l :
  rows_ok t -> rows_ t = l.*2 -> Forall (fun x => x.1 = key_at t x.2.2 /\ entry_ok t x.2) l ->
  NoDup ((l.*2).*2) -> mm_sorted l -> table_ok t /\ loaded t = l.
Proof using Type.
  intros HR Hl HE HN HS.
  assert (E : loaded t = l).
  { unfold loaded. rewrite Hl, <- list_fmap_compose. apply fmap_id_Forall. eapply Forall_weaken; [exact HE |].
    intros [k e] [Hk _]. cbn in *. now subst k. }
  split; [|done]. split; [done |]. rewrite Hl. split; [|split; [done | now rewrite E]].
  apply Forall_fmap. eapply Forall_weaken; [exact HE |]. intros x [_ H]. exact H.
Qed.

(** Only the rows matter for the keys, and [tbl_] for the entries. *)
Lemma key_at_same t t' a : h_row <$> heap t' !! a = h_row <$> heap t !! a -> key_at t' a = key_at t a.
Proof using Type.
  unfold key_at. destruct (heap t' !! a), (heap t !! a); cbn; intros [=]; congruence.
Qed.

Lemma entry_ok_same t t' e :
  heap t' !! e.2 = heap t !! e.2 -> entry_ok t e -> entry_ok t' e.
Proof using Type. unfold entry_ok. now intros ->. Qed.

(** ** Insertion *)
Definition marked (on : bool) (h : hrow) : hrow := {| h_row := h_row h; in_table := on |}.

Lemma rows_ok_set a h t : rows_ok t -> row_ok s (h_row h) -> rows_ok (set_hrow a h t).
Proof using Type.
  intros HR Hr b h' Hb. cbn in Hb. destruct (decide (b = a)) as [->|Hne].
  - rewrite lookup_insert_eq in Hb. now injection Hb as <-.
  - rewrite lookup_insert_ne in Hb by done. exact (HR b h' Hb).
Qed.

Lemma key_at_mark a on h t b : heap t !! a = Some h -> key_at (set_hrow a (marked on h) t) b = key_at t b.
Proof using Type.
  intros Ha. apply key_at_same. cbn. destruct (decide (b = a)) as [->|Hne].
  - now rewrite lookup_insert_eq, Ha.
  - now rewrite lookup_insert_ne.
Qed.

Lemma entry_ok_other a h t e : e.2 <> a -> entry_ok t e -> entry_ok (set_hrow a h t) e.
Proof using Type. intros Hne. apply entry_ok_same. cbn. now rewrite lookup_insert_ne. Qed.

(** A write to a row that has no entry. *)
Lemma set_hrow_ok a h t :
  table_ok t -> row_ok s (h_row h) -> a ∉ (rows_ t).*2 ->
  table_ok (set_hrow a h t) /\ loaded (set_hrow a h t) = loaded t.
Proof using Type.
  intros Ht Hr Ha. pose proof Ht as (HR & HE & HN & HS). apply table_ok_of; cbn.
  - now apply rows_ok_set.
  - now rewrite loaded_snd.
  - apply Forall_forall. intros x Hx. destruct (elem_of_loaded t x Ht Hx) as [Hk He].
    assert (x.2.2 <> a).
    { intros <-. apply Ha. rewrite <- loaded_snd. do 2 apply list_elem_of_fmap_2. done. }
    split; [|now apply entry_ok_other]. rewrite Hk. symmetry. apply key_at_same. cbn. now rewrite lookup_insert_ne.
  - now rewrite loaded_snd.
  - done.
Qed.

Lemma not_in_table t a h : table_ok t -> heap t !! a = Some h -> in_table h = false -> a ∉ (rows_ t).*2.
Proof using Type.
  intros (_ & HE & _) Ha Hf (e & -> & He)%list_elem_of_fmap. rewrite Forall_forall in HE.
  destruct (HE e He) as (h' & Hh & Hi & _). congruence.
Qed.

Lemma set_table_spec a on h t :
  heap t !! a = Some h -> on && in_table h = false -> set_table a on t = Some (set_hrow a (marked on h) t).
Proof using Type. intros Ha Hf. unfold set_table. rewrite Ha. cbn. now rewrite Hf. Qed.

Definition inserted (a : Z) (h : hrow) (t t' : table) : Prop :=
  table_ok t' /\ heap t' = <[a := marked true h]> (heap t)
  /\ contents t' = mm_insert (key_of (h_row h)) a (contents t).

Lemma table_insert_spec a h t :
  table_ok t -> heap t !! a = Some h -> in_table h = false -> runs (insert s a t) (inserted a h t).
Proof using All.
  intros Ht Ha Hf. pose proof Ht as (HR & HE & HN & HS). pose proof (HR a h Ha) as Hr.
  pose proof (not_in_table t a h Ht Ha Hf) as Hout.
  destruct (key_blobs_spec a (h_row h) Hr) as (bs & Hbs & _). unfold insert. rewrite Ha. cbn [mbind option_bind].
  rewrite Hbs. cbn [mbind option_bind]. rewrite (set_table_spec a true h t Ha) by now rewrite Hf.
  cbn [mbind option_bind]. set (t1 := set_hrow a (marked true h) t).
  destruct (set_hrow_ok a (marked true h) t Ht Hr Hout) as [Ht1 El]. fold t1 in Ht1, El.
  assert (Ha1 : heap t1 !! a = Some (marked true h)) by (unfold t1; cbn; now rewrite lookup_insert_eq).
  rewrite (deref_key t1 a (marked true h) bs Ha1 Hr Hbs). cbn [mbind option_bind].
  rewrite (load_all_spec t1 Ht1). cbn [mbind option_bind]. apply runs_ret.
  assert (Ek : key_at t1 a = key_of (h_row h)) by (unfold key_at; now rewrite Ha1).
  set (l := mm_insert (key_at t1 a) (bs, a) (loaded t1)).
  assert (G : table_ok (set_rows l.*2 t1) /\ loaded (set_rows l.*2 t1) = l).
  { apply table_ok_of.
    - apply Ht1.
    - done.
    - apply Forall_forall. intros x [->|Hx]%elem_mm_insert; cbn.
      + split; [done |]. exists (marked true h). auto.
      + exact (elem_of_loaded t1 x Ht1 Hx).
    - assert (P : l ≡ₚ (key_at t1 a, (bs, a)) :: loaded t1) by apply mm_insert_perm.
      rewrite P, !fmap_cons, loaded_snd. cbn [snd]. apply list.NoDup_cons. auto.
    - apply mm_insert_sorted, Ht1. }
  destruct G as [G1 G2]. split; [done |]. split; [done |].
  rewrite !contents_loaded, G2. unfold l. rewrite mm_insert_fmap, El, Ek. reflexivity.
Qed.


(** ** Removal *)
Lemma find_entry_spec a l i :
  find_entry a l = Some i -> exists x, l !! i = Some x /\ x.2.2 = a.
Proof using Type.
  revert i. induction l as [|[k [e a']] l IH]; intros i; cbn [find_entry]; [done |].
  destruct (Z.eqb_spec a' a) as [->|_]; [intros [= <-]; cbn; eauto |].
  destruct (find_entry a l) as [j|] eqn:E; [|done]. intros [= <-]. exact (IH j eq_refl).
Qed.

Lemma find_entry_none a l x : find_entry a l = None -> x ∈ l -> x.2.2 <> a.
Proof using Type.
  induction l as [|[k [e a']] l IH]; cbn [find_entry]; [now intros _ Hx%elem_of_nil |].
  destruct (Z.eqb_spec a' a) as [|Hne]; [done |]. destruct (find_entry a l) eqn:E; [done |].
  intros _ [->|Hx]%elem_of_cons; [done | auto].
Qed.

(** The other entries of a row. *)
Definition is_not {A} (a : Z) (x : A * Z) : bool := negb (x.2 =? a).

Lemma delete_unique {A} (a : Z) (l : list (A * Z)) n x :
  NoDup l.*2 -> l !! n = Some x -> x.2 = a -> delete n l = List.filter (is_not a) l.
Proof using Type.
  revert n. induction l as [|y l IH]; intros [|n]; try done.
  - intros [Hn _]%list.NoDup_cons Hx <-. injection Hx as ->. cbn. unfold is_not at 1. rewrite Z.eqb_refl. cbn.
    symmetry. apply filter_all, Forall_forall. intros z Hz. unfold is_not.
    destruct (Z.eqb_spec z.2 x.2) as [E|]; [|done]. destruct Hn. rewrite <- E. now apply list_elem_of_fmap_2.
  - intros [Hn HN]%list.NoDup_cons Hx Ea. change (delete (S n) (y :: l)) with (y :: delete n l).
    rewrite (IH n HN Hx Ea). cbn [List.filter]. unfold is_not at 2.
    destruct (Z.eqb_spec y.2 a) as [E|]; [|done]. destruct Hn. rewrite E, <- Ea.
    apply list_elem_of_fmap_2. eapply list_elem_of_lookup_2, Hx.
Qed.

Lemma filter_fmap {A B} (f : A -> B) (g : B -> bool) (l : list A) :
  List.filter g (f <$> l) = f <$> List.filter (fun x => g (f x)) l.
Proof using Type. induction l as [|x l IH]; [done |]. cbn. rewrite IH. now destruct (g (f x)). Qed.

(** The table without some of its entries. *)
Lemma restrict_ok t (f : list (list Z) * entry -> bool) :
  table_ok t ->
  let t' := set_rows (List.filter f (loaded t)).*2 t in
  table_ok t' /\ loaded t' = List.filter f (loaded t).
Proof using Type.
  intros Ht t'. pose proof Ht as (HR & HE & HN & HS). apply table_ok_of; [done | done | | |].
  - apply Forall_filter, Forall_forall. intros x Hx. exact (elem_of_loaded t x Ht Hx).
  - rewrite <- loaded_snd in HN. eapply sublist_NoDup; [exact HN |]. apply fmap_sublist, fmap_sublist, bfilter_sublist.
  - now apply mm_sorted_filter.
Qed.


Lemma segment_lookup {A} lo hi (l : list A) i x : segment lo hi l !! i = Some x -> l !! (lo + i)%nat = Some x.
Proof using Type. unfold segment. rewrite lookup_drop. intros [H _]%lookup_take_Some. exact H. Qed.

Lemma row_entry t a : a ∈ (rows_ t).*2 -> exists x, x ∈ loaded t /\ x.2.2 = a /\ x.1 = key_at t a.
Proof using Type.
  intros (e & -> & He)%list_elem_of_fmap. exists (key_at t e.2, e). split; [|done].
  apply list_elem_of_fmap. eauto.
Qed.

Lemma find_row t a :
  table_ok t -> a ∈ (rows_ t).*2 ->
  let k := key_at t a in
  exists i x, find_entry a (segment (lower_bound k (loaded t)) (upper_bound k (loaded t)) (loaded t)) = Some i
    /\ rows_ t !! (lower_bound k (loaded t) + i)%nat = Some x /\ x.2 = a.
Proof using All.
  intros Ht Ha k. destruct (row_entry t a Ha) as (x & Hx & Ex & Kx).
  destruct (find_entry a _) as [i|] eqn:E.
  - destruct (find_entry_spec _ _ _ E) as (y & Hy%segment_lookup & Ey). exists i, y.2. split; [done |].
    split; [|done]. now rewrite <- loaded_snd, list_lookup_fmap, Hy.
  - destruct (find_entry_none _ _ x E); [|done]. change (x ∈ equal_range k (loaded t)).
    rewrite equal_range_filter by apply Ht. apply list_elem_of_In, filter_In. split; [now apply list_elem_of_In |].
    rewrite Kx. unfold k. apply keq_refl.
Qed.

Definition removed (a : Z) (h : hrow) (t t' : table) : Prop :=
  table_ok t' /\ heap t' = <[a := marked false h]> (heap t)
  /\ contents t' = List.filter (is_not a) (contents t).

Lemma contents_filter t t' (f : list (list Z) * Z -> bool) :
  loaded t' = List.filter (fun x => f (x.1, x.2.2)) (loaded t) -> contents t' = List.filter f (contents t).
Proof using Type. rewrite !contents_loaded, filter_fmap. now intros ->. Qed.

Lemma remove_row_spec a h t :
  table_ok t -> heap t !! a = Some h -> a ∈ (rows_ t).*2 -> runs (remove_row s a t) (removed a h t).
Proof using All.
  intros Ht Ha Hin. pose proof Ht as (HR & HE & HN & HS). pose proof (HR a h Ha) as Hr.
  destruct (key_blobs_spec a (h_row h) Hr) as (bs & Hbs & _).
  destruct (find_row t a Ht Hin) as (i & x & Hi & Hx & Ex).
  unfold remove_row. rewrite Ha. cbn [mbind option_bind]. rewrite Hbs. cbn [mbind option_bind].
  rewrite (deref_key t a h bs Ha Hr Hbs). cbn [mbind option_bind]. rewrite (load_all_spec t Ht). cbn [mbind option_bind].
  rewrite Hi, (set_table_spec a false h t Ha) by done. cbn [mbind option_bind]. apply runs_ret.
  change (rows_ (set_hrow a (marked false h) t)) with (rows_ t). rewrite (delete_unique a _ _ x HN Hx Ex).
  rewrite <- (loaded_snd t), filter_fmap. destruct (restrict_ok t (fun y => is_not a y.2) Ht) as [Ht' El].
  set (t' := set_rows _ t) in Ht', El. set (t'' := set_rows _ _). change t'' with (set_hrow a (marked false h) t').
  destruct (set_hrow_ok a (marked false h) t' Ht' Hr) as [Ht'' El''].
  { unfold t'. cbn [rows_ set_rows]. rewrite <- filter_fmap. intros (e & -> & He)%list_elem_of_fmap.
    apply list_elem_of_In, filter_In in He as [_ He]. unfold is_not in He. now rewrite Z.eqb_refl in He. }
  split; [done |]. split; [done |]. apply contents_filter. now rewrite El'', El.
Qed.

(** A row that is in no table. *)
Lemma remove_absent a h t :
  table_ok t -> heap t !! a = Some h -> a ∉ (rows_ t).*2 -> remove_row s a t = Some t.
Proof using All.
  intros Ht Ha Hout. pose proof Ht as (HR & _). pose proof (HR a h Ha) as Hr.
  destruct (key_blobs_spec a (h_row h) Hr) as (bs & Hbs & _). unfold remove_row. rewrite Ha. cbn [mbind option_bind].
  rewrite Hbs. cbn [mbind option_bind]. rewrite (deref_key t a h bs Ha Hr Hbs). cbn [mbind option_bind].
  rewrite (load_all_spec t Ht). cbn [mbind option_bind].
  destruct (find_entry a _) as [i|] eqn:E; [|done].
  destruct (find_entry_spec _ _ _ E) as (y & Hy%segment_lookup & <-). destruct Hout.
  rewrite <- loaded_snd. apply list_elem_of_fmap_2, list_elem_of_fmap_2. eapply list_elem_of_lookup_2, Hy.
Qed.

Lemma remove_key_spec k t :
  table_ok t ->
  runs (remove_key s k t) (fun t' => table_ok t' /\ heap t' = heap t
    /\ contents t' = List.filter (fun x => negb (keq x.1 k)) (contents t)).
Proof using All.
  intros Ht. unfold remove_key. rewrite (load_all_spec t Ht). cbn [mbind option_bind]. apply runs_ret.
  destruct (restrict_ok t (fun x => negb (keq x.1 k)) Ht) as [Ht' El].
  rewrite <- erase_range_filter in Ht', El by apply Ht. unfold erase_segment in *.
  rewrite fmap_app, fmap_take, fmap_drop, loaded_snd in Ht', El. split; [done |]. split; [done |].
  apply contents_filter. rewrite El. change (take ?a ?l ++ drop ?b ?l) with (erase_segment a b l).
  apply erase_range_filter, Ht.
Qed.


(** ** Queries *)
Definition ordered (o : order) (l : list Z) : list Z := match o with ORD_DESC => rev l | _ => l end.

(** The rows whose keys satisfy [f], in key order. *)
Definition select (f : list (list Z) -> bool) (t : table) : list Z :=
  (List.filter (fun x => f x.1) (contents t)).*2.

Lemma cursor_select o f t : cursor o (List.filter (fun x => f x.1) (loaded t)).*2 = ordered o (select f t).
Proof using Type.
  unfold cursor, select, ordered. rewrite contents_loaded, filter_fmap, <- !list_fmap_compose. reflexivity.
Qed.

Lemma query_spec k t : table_ok t -> query s k t = Some (select (fun k' => keq k' k) t).
Proof using All.
  intros Ht. unfold query. rewrite (load_all_spec t Ht). cbn [mbind option_bind].
  rewrite equal_range_filter by apply Ht. f_equal. exact (cursor_select ORD_ASC (fun k' => keq k' k) t).
Qed.

Lemma query_lt_spec k o t : table_ok t -> query_lt s k o t = Some (ordered o (select (fun k' => comp k' k) t)).
Proof using All.
  intros Ht. unfold query_lt. rewrite (load_all_spec t Ht). cbn [mbind option_bind].
  rewrite below_filter by apply Ht. f_equal. exact (cursor_select o (fun k' => comp k' k) t).
Qed.

Lemma query_gt_spec k o t : table_ok t -> query_gt s k o t = Some (ordered o (select (fun k' => comp k k') t)).
Proof using All.
  intros Ht. unfold query_gt. rewrite (load_all_spec t Ht). cbn [mbind option_bind].
  rewrite above_filter by apply Ht. f_equal. exact (cursor_select o (fun k' => comp k k') t).
Qed.

Lemma query_in_spec low high o t :
  table_ok t ->
  query_in s low high o t =
  if comp low high then Some (ordered o (select (fun k => comp low k && comp k high) t)) else None.
Proof using All.
  intros Ht. unfold query_in. change (smk_lt (key_types s) low high) with (comp low high).
  destruct (comp low high) eqn:E; cbn [verify mbind option_bind]; [|done]. rewrite (load_all_spec t Ht).
  cbn [mbind option_bind]. rewrite between_filter by (done || apply Ht).
  f_equal. exact (cursor_select o (fun k => comp low k && comp k high) t).
Qed.

Lemma all_spec o t : all o t = ordered o (contents t).*2.
Proof using Type. unfold all, cursor, ordered, contents. now rewrite <- list_fmap_compose. Qed.

(** ** Updates *)

(** A write of the column keeps the memory of the other strings in place. *)
Definition in_place (i : nat) (v : value) (r : row) : Prop :=
  match v, var_ r with
  | VStr b, Dense _ _ => length <$> get_blob s (Z.of_nat i) r = Some (length b)
  | _, _ => True
  end.

Definition same_layout (r r' : row) : Prop :=
  match var_ r, var_ r' with
  | Dense _ idx, Dense _ idx' => idx' = idx
  | Sparse _, Sparse _ => True
  | _, _ => False
  end.

Lemma same_layout_var r r' : var_ r' = var_ r -> same_layout r r'.
Proof using Type. unfold same_layout. intros ->. now destruct (var_ r). Qed.

Lemma store_in_place i c b r r' :
  row_ok s r -> col_info_ s !! i = Some c -> is_str (type c) = true -> in_place i (VStr b) r ->
  store_str s c b r = Some r' -> same_layout r r'.
Proof using Hs.
  intros (_ & _ & ss & Hh & Hn & _) Hc Hst Hin. destruct (rank_of s Hs i c ss Hc Hst Hn) as (n & v & Hp & Hv).
  unfold in_place, store_str, same_layout in *. rewrite (blob_str s Hs i c r Hc Hst), Hp in Hin.
  rewrite (get_var_spec _ ss n v Hh Hv) in Hin. rewrite Hp, Nat2Z.id. destruct (var_ r) as [part idx|vars] eqn:E.
  - destruct Hh as [-> ->]. rewrite (dense_start_spec ss n v Hv), (stops_lookup 0 ss n v Hv).
    cbn [mbind option_bind] in *. injection Hin as Hin.
    destruct (Z.eqb_spec (0 + Z.of_nat (length (concat (take n ss)) + length v)
      - Z.of_nat (length (concat (take n ss)))) (Z.of_nat (length b))) as [El|El]; [|lia].
    destruct (write_at _ _ _); [|done]. now intros [= <-].
  - cbn in Hh. subst vars. rewrite Hv. now intros [= <-].
Qed.

Lemma update_layout i c v r re r' :
  row_ok s r -> col_info_ s !! i = Some c -> get_kind v = type c -> in_place i v r ->
  update s (Z.of_nat i) v r = Some (Updated re r') -> same_layout r r'.
Proof using Hs.
  intros Hr Hc Hk Hin. destruct (get_str v) as [b|] eqn:Ev.
  - destruct v; try done. injection Ev as ->. unfold update, update_str.
    rewrite (column_info_at s Hs i c Hc). destruct (rdonly_ r); [done |]. cbn [negb verify mbind option_bind].
    assert (Est : is_str (type c) = true) by now rewrite <- Hk. rewrite Est. cbn [verify mbind option_bind].
    destruct (get_blob s (Z.of_nat i) r); cbn [mbind option_bind]; [|done]. case_decide; [done |].
    destruct (store_str s c b r) as [r1|] eqn:E; [|done]. intros [= _ <-]. now apply (store_in_place i c b).
  - assert (G : forall b, update_fixed c b r = Some (Updated re r') -> same_layout r r').
    { intros b. unfold update_fixed. destruct (rdonly_ r); [done |]. cbn [negb verify mbind option_bind].
      destruct (read_at _ _ _); [|done]. cbn [mbind option_bind]. case_decide; [done |].
      destruct (write_at _ _ _); [|done]. cbn [mbind option_bind]. intros [= _ <-]. now apply same_layout_var. }
    unfold update. rewrite (column_info_at s Hs i c Hc). cbn [mbind option_bind].
    destruct v; try done; rewrite bool_decide_true by congruence; cbn [verify mbind option_bind];
      (destruct (write_binary _) as [b|]; [|done]); cbn [mbind option_bind]; apply G.
Qed.

(** Equal strings in the same layout are at the same place. *)
Lemma blob_of_kept a r r' i c :
  row_ok s r -> row_ok s r' -> col_info_ s !! i = Some c ->
  get_blob s (Z.of_nat i) r' = get_blob s (Z.of_nat i) r -> is_str (type c) = false \/ same_layout r r' ->
  blob_of s a r' (Z.of_nat i) = blob_of s a r (Z.of_nat i).
Proof using Hs.
  intros (_ & _ & ss & Hh & Hn & _) (_ & _ & ss' & Hh' & Hn' & _) Hc Hb Hl. unfold blob_of.
  rewrite (column_info_at s Hs i c Hc). cbn [mbind option_bind].
  destruct (type c) eqn:E; try done. destruct Hl as [Hl|Hl]; [done |].
  assert (Hst : is_str (type c) = true) by now rewrite E. rewrite !(blob_str s Hs i c _ Hc Hst) in Hb.
  destruct (rank_of s Hs i c ss Hc Hst Hn) as (n & v & Hp & Hv).
  destruct (rank_of s Hs i c ss' Hc Hst Hn') as (n' & v' & Hp' & Hv'). assert (n' = n) as -> by lia.
  rewrite Hp, (get_var_spec _ ss n v Hh Hv), (get_var_spec _ ss' n v' Hh' Hv') in Hb. injection Hb as ->.
  unfold same_layout in Hl. rewrite Hp, Nat2Z.id.
  destruct (var_ r) as [part idx|vars], (var_ r') as [part' idx'|vars']; try done; [now subst |].
  cbn in Hh, Hh'. subst. now rewrite Hv, Hv'.
Qed.


Lemma mapM_ext_Forall {A B} (f g : A -> option B) (l : list A) : Forall (fun x => f x = g x) l -> mapM f l = mapM g l.
Proof using Type. induction 1 as [|x l Hx Hl IH]; [done |]. cbn. now rewrite Hx, IH. Qed.

(** The key stays in place. *)
Definition key_kept (i : nat) (v : value) (r : row) : Prop :=
  Forall (fun k => is_str k = false) (key_types s) \/ in_place i v r.

Lemma key_type k i c :
  k ∈ key_cols_id_ s -> k = Z.of_nat i -> col_info_ s !! i = Some c -> type c ∈ key_types s.
Proof using Hs.
  intros Hk -> Hc. unfold key_types. apply list_elem_of_fmap. exists (Z.of_nat i). split; [|done].
  now rewrite (column_info_at s Hs i c Hc).
Qed.

Lemma key_kept_spec a i c v r re r' :
  row_ok s r -> col_info_ s !! i = Some c -> get_kind v = type c -> indexed c = false -> key_kept i v r ->
  update s (Z.of_nat i) v r = Some (Updated re r') -> updated s i c v r (Updated re r') ->
  key_of r' = key_of r /\ key_blobs s a r' = key_blobs s a r.
Proof using Hs.
  intros Hr Hc Hk Hni Hkept Hu (_ & Hr' & _ & _ & Hoth).
  assert (Hb : forall k, k ∈ key_cols_id_ s -> get_blob s k r' = get_blob s k r /\ blob_of s a r' k = blob_of s a r k).
  { intros k Hin. destruct (key_column k Hin) as (j & cj & E & Hcj & Hij). rewrite E.
    assert (Hji : j <> i) by congruence. pose proof (Hoth j cj Hji Hcj) as Hbj.
    split; [done |]. apply (blob_of_kept a r r' j cj Hr Hr' Hcj Hbj).
    destruct Hkept as [Hns|Hin_place]; [left | right; exact (update_layout i c v r re r' Hr Hc Hk Hin_place Hu)].
    rewrite Forall_forall in Hns. apply Hns. now apply (key_type k j). }
  unfold key_of, get_key, key_blobs.
  split; [f_equal |]; apply mapM_ext_Forall, Forall_forall; intros k Hin; now apply Hb.
Qed.

(** A write that leaves the key of the row in place. *)
Lemma write_kept a h h' t :
  table_ok t -> heap t !! a = Some h -> row_ok s (h_row h') -> in_table h' = in_table h ->
  key_of (h_row h') = key_of (h_row h) -> key_blobs s a (h_row h') = key_blobs s a (h_row h) ->
  table_ok (set_hrow a h' t) /\ loaded (set_hrow a h' t) = loaded t.
Proof using Type.
  intros Ht Ha Hr Ei Ek Eb. pose proof Ht as (HR & HE & HN & HS).
  assert (K : forall b, key_at (set_hrow a h' t) b = key_at t b).
  { intros b. unfold key_at. cbn. destruct (decide (b = a)) as [->|Hne].
    - now rewrite lookup_insert_eq, Ha.
    - now rewrite lookup_insert_ne. }
  apply table_ok_of; cbn.
  - now apply rows_ok_set.
  - now rewrite loaded_snd.
  - apply Forall_forall. intros x Hx. destruct (elem_of_loaded t x Ht Hx) as [Hk He]. rewrite K. split; [done |].
    destruct (decide (x.2.2 = a)) as [Ex|Hne]; [|now apply entry_ok_other].
    destruct He as (h0 & Hh0 & Hi & Hb). unfold entry_ok. cbn. rewrite Ex in *. rewrite Ha in Hh0. injection Hh0 as <-.
    exists h'. rewrite lookup_insert_eq. split; [done |]. split; [congruence |]. now rewrite Eb.
  - now rewrite loaded_snd.
  - done.
Qed.

Definition column_updated (a : Z) (i : nat) (c : column_info) (v : value) (h : hrow) (t t' : table) : Prop :=
  table_ok t' /\ exists h', heap t' = <[a := h']> (heap t) /\ in_table h' = in_table h
    /\ rdonly_ (h_row h') = false /\ get_column s (Z.of_nat i) (h_row h') = Some v
    /\ (forall j cj, j <> i -> col_info_ s !! j = Some cj ->
          get_blob s (Z.of_nat j) (h_row h') = get_blob s (Z.of_nat j) (h_row h))
    /\ (t' = t \/ contents t' =
          if indexed c && in_table h then mm_insert (key_of (h_row h')) a (List.filter (is_not a) (contents t))
          else contents t).

Lemma update_reinsert a h r' t :
  table_ok t -> heap t !! a = Some h -> a ∈ (rows_ t).*2 -> row_ok s r' ->
  runs (t ← remove_row s a t; h ← heap t !! a;
        insert s a (set_hrow a {| h_row := r'; in_table := in_table h |} t)) (fun t' => table_ok t'
    /\ heap t' = <[a := {| h_row := r'; in_table := true |}]> (heap t)
    /\ contents t' = mm_insert (key_of r') a (List.filter (is_not a) (contents t))).
Proof using All.
  intros Ht Ha Hin Hr'. eapply runs_bind; [now apply (remove_row_spec a h) |]. intros t1 (Ht1 & Hh1 & Hc1).
  assert (Ha1 : heap t1 !! a = Some (marked false h)) by now rewrite Hh1, lookup_insert_eq.
  rewrite Ha1. cbn [mbind option_bind in_table marked].
  set (h2 := {| h_row := r'; in_table := false |}).
  destruct (set_hrow_ok a h2 t1 Ht1 Hr') as [Ht2 El]; [now apply (not_in_table t1 a (marked false h)) |].
  eapply runs_mono; [apply (table_insert_spec a h2 _ Ht2); [cbn; now rewrite lookup_insert_eq | done] |].
  intros t' (Ht' & Hh' & Hc'). split; [done |]. split.
  - rewrite Hh'. cbn. now rewrite insert_insert_eq, Hh1, insert_insert_eq.
  - rewrite Hc'. cbn [h_row]. now rewrite (contents_loaded (set_hrow a h2 t1)), El, <- contents_loaded, Hc1.
Qed.

Lemma update_column_spec a i c v h t :
  table_ok t -> heap t !! a = Some h -> (in_table h = true -> a ∈ (rows_ t).*2) ->
  rdonly_ (h_row h) = false -> col_info_ s !! i = Some c -> get_kind v = type c -> value_ok v ->
  indexed c = true \/ key_kept i v (h_row h) ->
  runs (update_column s a (Z.of_nat i) v t) (column_updated a i c v h t).
Proof using All.
  intros Ht Ha Hin Hro Hc Hk Hv Hsafe. pose proof Ht as (HR & _). pose proof (HR a h Ha) as Hr.
  unfold update_column. rewrite Ha. cbn [mbind option_bind].
  destruct (update_spec s Hs i c v (h_row h) Hr Hro Hc Hk Hv) as (u & Eu & Hu). rewrite Eu. cbn [mbind option_bind].
  destruct u as [|re r'].
  { apply runs_ret. split; [done |]. exists h. rewrite insert_id by done. auto 10. }
  pose proof Hu as (-> & Hr' & Hro' & Hcol & Hoth). destruct (indexed c && in_table h) eqn:Ere.
  - apply andb_true_iff in Ere as [Eix Eit]. eapply runs_mono; [apply (update_reinsert a h r' t); auto |].
    intros t' (Ht' & Hh' & Hc'). split; [done |]. exists {| h_row := r'; in_table := true |}. rewrite Eix, Eit. auto 10.
  - apply runs_ret. set (h' := {| h_row := r'; in_table := in_table h |}).
    assert (G : table_ok (set_hrow a h' t) /\ loaded (set_hrow a h' t) = loaded t).
    { destruct (in_table h) eqn:Eit.
      - rewrite andb_true_r in Ere. destruct Hsafe as [|Hsafe]; [congruence |].
        destruct (key_kept_spec a i c v (h_row h) _ r' Hr Hc Hk Ere Hsafe Eu Hu) as [Ek Eb].
        apply (write_kept a h h' t); auto.
      - apply set_hrow_ok; auto. now apply (not_in_table t a h). }
    destruct G as [G1 G2]. split; [done |]. exists h'. rewrite Ere.
    repeat (split; [done |]). right. now rewrite !contents_loaded, G2.
Qed.


(** ** Keys that are freed *)

(** A string of another length turns a dense row into a sparse one. *)
Lemma store_moves i c b r r' part idx :
  row_ok s r -> col_info_ s !! i = Some c -> is_str (type c) = true -> var_ r = Dense part idx ->
  length <$> get_blob s (Z.of_nat i) r <> Some (length b) ->
  store_str s c b r = Some r' -> exists vars, var_ r' = Sparse vars.
Proof using Hs.
  intros (_ & _ & ss & Hh & Hn & _) Hc Hst Ev Hlen. destruct (rank_of s Hs i c ss Hc Hst Hn) as (n & v & Hp & Hv).
  rewrite (blob_str s Hs i c r Hc Hst), Hp, (get_var_spec _ ss n v Hh Hv) in Hlen.
  pose proof (make_sparse_spec s r ss Hh Hn) as Hm. unfold store_str. rewrite Ev in *. destruct Hh as [-> ->].
  rewrite Hp, Nat2Z.id, (dense_start_spec ss n v Hv), (stops_lookup 0 ss n v Hv). cbn [mbind option_bind].
  destruct (Z.eqb_spec (0 + Z.of_nat (length (concat (take n ss)) + length v)
    - Z.of_nat (length (concat (take n ss)))) (Z.of_nat (length b))) as [El|El].
  - destruct Hlen. cbn. f_equal. lia.
  - rewrite Hm. cbn [mbind option_bind var_ set_var]. rewrite Hv. cbn [mbind option_bind]. intros [= <-]. cbn. eauto.
Qed.

(** The key of a dense row points into its variable part. *)
Lemma key_in_var_part a r bs part idx :
  key_blobs s a r = Some bs -> var_ r = Dense part idx -> STR ∈ key_types s ->
  exists b, b ∈ bs /\ b_row b = a /\ b_region b = RDense.
Proof using Type.
  intros Hbs Ev (k & Ek & Hk)%list_elem_of_fmap. apply mapM_Some in Hbs.
  apply list_elem_of_lookup in Hk as [n Hn]. destruct (Forall2_lookup_l _ _ _ n k Hbs Hn) as (b & Hb & Eb).
  exists b. split; [now apply list_elem_of_lookup_2 in Hb |]. unfold blob_of in Eb.
  destruct (get_column_info k s) as [info|]; [|done]. cbn [mbind option_bind] in Eb. rewrite <- Ek, Ev in Eb.
  destruct (dense_start idx (place info)); [|done]. cbn [mbind option_bind] in Eb.
  destruct (idx !! _); [|done]. injection Eb as <-. done.
Qed.

Lemma mapM_one_none {A B} (f : A -> option B) l x : x ∈ l -> f x = None -> mapM f l = None.
Proof using Type.
  intros Hx Hf. destruct (mapM f l) as [k|] eqn:E; [|done]. apply mapM_Some in E.
  apply list_elem_of_lookup in Hx as [n Hn]. destruct (Forall2_lookup_l _ _ _ n x E Hn) as (y & _ & Hy). congruence.
Qed.

Definition stranded (a : Z) (t : table) : Prop :=
  exists e, e ∈ rows_ t /\ e.2 = a /\ mapM (deref t) e.1 = None.

Lemma update_strands a i c b h t part idx :
  table_ok t -> heap t !! a = Some h -> a ∈ (rows_ t).*2 -> rdonly_ (h_row h) = false ->
  col_info_ s !! i = Some c -> type c = STR -> indexed c = false -> Forall is_byte b ->
  var_ (h_row h) = Dense part idx -> length <$> get_blob s (Z.of_nat i) (h_row h) <> Some (length b) ->
  STR ∈ key_types s ->
  runs (update_column s a (Z.of_nat i) (VStr b) t) (stranded a).
Proof using Hs.
  intros Ht Ha Hin Hro Hc Hty Hni Hb Ev Hlen Hkey. pose proof Ht as (HR & HE & _). pose proof (HR a h Ha) as Hr.
  assert (Hst : is_str (type c) = true) by now apply is_str_spec.
  destruct (update_spec s Hs i c (VStr b) (h_row h) Hr Hro Hc (eq_sym Hty) Hb) as (u & Eu & Hu).
  unfold update_column. rewrite Ha. cbn [mbind option_bind]. rewrite Eu. cbn [mbind option_bind].
  assert (exists re r', u = Updated re r' /\ exists vars, var_ r' = Sparse vars) as (re & r' & -> & vars & Ev').
  { unfold update, update_str in Eu. rewrite Hro, (column_info_at s Hs i c Hc) in Eu. cbn [negb verify mbind option_bind] in Eu.
    rewrite Hst in Eu. cbn [verify mbind option_bind] in Eu.
    destruct (get_blob s (Z.of_nat i) (h_row h)) as [old|] eqn:Eo; [|done]. cbn [mbind option_bind] in Eu.
    case_decide as E; [subst; now destruct Hlen |].
    destruct (store_str s c b (h_row h)) as [r'|] eqn:Es; [|done]. injection Eu as <-. exists (indexed c), r'.
    split; [done |]. apply (store_moves i c b (h_row h) r' part idx); auto. now rewrite Eo. }
  destruct Hu as (-> & _). rewrite Hni. cbn [andb]. apply runs_ret.
  apply list_elem_of_fmap in Hin as (e & -> & He). exists e. split; [done |]. split; [done |].
  rewrite Forall_forall in HE. destruct (HE e He) as (h0 & Hh0 & _ & Hk). rewrite Ha in Hh0. injection Hh0 as <-.
  destruct (key_in_var_part _ _ _ part idx Hk Ev Hkey) as (bl & Hbl & Hrow & Hreg).
  apply (mapM_one_none _ _ bl Hbl). unfold deref. cbn. rewrite Hrow, lookup_insert_eq. cbn.
  unfold deref_in. now rewrite Hreg, Ev'.
Qed.

End Theory.

(** ** The properties *)

(** C24. On a well-formed table every change does what the multimap promises: a
    row that is in no table is inserted behind the entries with its key, a row of
    the table is removed and no other entry with it, the removal of a row that is
    not there changes nothing, the removal of a key removes exactly the entries
    with that key, and [clear] removes all; the table stays sorted and every
    entry's key keeps pointing to the key columns of its row. *)
Theorem sorted_table_changes s t a h k :
  schema_ok s -> Forall (fun k => orderable k = true) (key_types s) -> table_ok s t -> heap t !! a = Some h ->
  (in_table h = false -> runs (insert s a t) (inserted s a h t))
  /\ (a ∈ (rows_ t).*2 -> runs (remove_row s a t) (removed s a h t))
  /\ (a ∉ (rows_ t).*2 -> remove_row s a t = Some t)
  /\ runs (remove_key s k t) (fun t' => table_ok s t' /\ heap t' = heap t
       /\ contents s t' = List.filter (fun x => negb (@keq _ (table_order s) x.1 k)) (contents s t))
  /\ table_ok s (clear t) /\ contents s (clear t) = [].
Proof.
  intros Hs Hts Ht Ha. split; [now apply table_insert_spec |]. split; [now apply remove_row_spec |].
  split; [now apply (remove_absent s Hs Hts a h) |]. split; [now apply remove_key_spec |].
  pose proof Ht as (HR & _). split; [|done]. split; [exact HR |]. split; [constructor |]. split; constructor.
Qed.

(** C25. On a well-formed table the searches are exact: [query], [query_lt], [query_gt] and [query_in]
    return the rows whose keys are equal to, below, above or strictly between the
    given keys, in key order or in reverse, [all] returns every row, and
    [query_in] fails exactly when its bounds are not in order. *)
Theorem sorted_table_queries_exact s t k low high o :
  schema_ok s -> Forall (fun k => orderable k = true) (key_types s) -> table_ok s t ->
  let lt := smk_lt (key_types s) in
  let rows f := (List.filter (fun x => f x.1) (contents s t)).*2 in
  query s k t = Some (rows (fun x => negb (lt x k) && negb (lt k x)))
  /\ query_lt s k o t = Some (ordered o (rows (fun x => lt x k)))
  /\ query_gt s k o t = Some (ordered o (rows (fun x => lt k x)))
  /\ query_in s low high o t = (if lt low high then Some (ordered o (rows (fun x => lt low x && lt x high))) else None)
  /\ all o t = ordered o ((contents s t).*2).
Proof.
  intros Hs Hts Ht lt rows. split; [now apply query_spec |]. split; [now apply query_lt_spec |].
  split; [now apply query_gt_spec |]. split; [now apply query_in_spec | apply all_spec].
Qed.

(** An update of a row of a well-formed table changes that column only and
    leaves the table well formed: a row whose indexed column changed is found
    under its new key.  For a column that is not indexed this needs the key to
    stay where it is: the key has no strings, or the write happens in place. *)
Theorem sorted_table_update s t a i c v h :
  schema_ok s -> Forall (fun k => orderable k = true) (key_types s) ->
  table_ok s t -> heap t !! a = Some h -> (in_table h = true -> a ∈ (rows_ t).*2) ->
  rdonly_ (h_row h) = false -> col_info_ s !! i = Some c -> get_kind v = type c -> value_ok v ->
  indexed c = true \/ key_kept s i v (h_row h) ->
  runs (update_column s a (Z.of_nat i) v t) (column_updated s a i c v h t).
Proof. intros. now apply update_column_spec. Qed.

(** Otherwise the key is freed under the table: when a column that is not
    indexed of a dense row of the table receives a string of another length, the
    row gives up its variable part, and the key of the table's entry, which has a
    string column, points into the freed memory. *)
Theorem update_frees_key s t a i c b h part idx :
  schema_ok s -> table_ok s t -> heap t !! a = Some h -> a ∈ (rows_ t).*2 -> rdonly_ (h_row h) = false ->
  col_info_ s !! i = Some c -> type c = STR -> indexed c = false -> Forall is_byte b ->
  var_ (h_row h) = Dense part idx -> length <$> get_blob s (Z.of_nat i) (h_row h) <> Some (length b) ->
  STR ∈ key_types s ->
  runs (update_column s a (Z.of_nat i) (VStr b) t) (stranded a).
Proof. intros. eapply update_strands; eauto. Qed.

(** *** A table of users: a name, which is the key, an age and a note. *)
Definition user_schema : schema :=
  freeze (default new_schema (add_columns [("name", STR, true); ("age", I32, false); ("note", STR, false)]%string new_schema)).

Lemma user_schema_ok : schema_ok user_schema.
Proof.
  unfold user_schema. apply freeze_ok. destruct (add_columns _ new_schema) as [s|] eqn:E; [|apply new_schema_ok].
  apply add_columns_ok in E; [done | apply new_schema_ok].
Qed.

Lemma user_keys_orderable : Forall (fun k => orderable k = true) (key_types user_schema).
Proof. vm_compute. repeat constructor. Qed.

Definition user (name note : list Z) : hrow :=
  {| h_row := default {| fixed_part_ := []; var_ := Sparse []; rdonly_ := false |}
       (create user_schema [VStr name; VI32 30; VStr note]); in_table := false |}.

Lemma user_ok name note : Forall is_byte name -> Forall is_byte note -> row_ok user_schema (h_row (user name note)).
Proof.
  intros H1 H2.
  destruct (create_spec user_schema user_schema_ok [VStr name; VI32 30; VStr note]) as (r & E & Hr & _).
  - split; [|split; [reflexivity | vm_compute; repeat constructor]].
    intros i v Hv. do 3 (destruct i as [|i]; [injection Hv as <-; split; [cbn; auto; lia |];
      eexists; split; [vm_compute; reflexivity | reflexivity] |]). discriminate Hv.
  - unfold user. now rewrite E.
Qed.

Definition bob := user [98] [1; 2].
Definition ann := user [97] [].
Definition no_users : table := {| heap := <[1 := bob]> (<[2 := ann]> ∅); rows_ := [] |}.
Definition users : table := default no_users (t ← insert user_schema 1 no_users; insert user_schema 2 t).

Lemma no_users_ok : table_ok user_schema no_users.
Proof.
  split; [|split; [constructor |]; split; constructor].
  intros a h Ha. change (heap no_users) with (<[1 := bob]> (<[2 := ann]> (∅ : gmap Z hrow))) in Ha.
  apply lookup_insert_Some in Ha as [[_ <-]|[_ Ha]]; [|apply lookup_insert_Some in Ha as [[_ <-]|[_ Ha]]; [|done]];
    apply user_ok; repeat constructor; lia.
Qed.

Lemma users_ok : table_ok user_schema users.
Proof.
  destruct (table_insert_spec user_schema user_schema_ok user_keys_orderable 1 bob no_users no_users_ok eq_refl eq_refl)
    as (t1 & E1 & H1 & Hh1 & _).
  assert (Ha : heap t1 !! 2 = Some ann) by now rewrite Hh1.
  destruct (table_insert_spec user_schema user_schema_ok user_keys_orderable 2 ann t1 H1 Ha eq_refl) as (t2 & E2 & H2 & _).
  unfold users. rewrite E1. cbn [mbind option_bind]. now rewrite E2.
Qed.

Lemma sorted_table_changes_witness :
  runs (insert user_schema 2 no_users) (fun t => contents user_schema t = [([[97]], 2)])
  /\ runs (remove_row user_schema 1 users) (fun t => contents user_schema t = [([[97]], 2)]).
Proof.
  destruct (sorted_table_changes user_schema no_users 2 ann [] user_schema_ok user_keys_orderable no_users_ok eq_refl) as (H1 & _).
  destruct (sorted_table_changes user_schema users 1 (marked true bob) [] user_schema_ok user_keys_orderable users_ok)
    as (_ & H2 & _); [vm_compute; reflexivity |].
  split; [eapply runs_mono; [apply H1; reflexivity |] | eapply runs_mono; [apply H2; vm_compute; repeat constructor |]];
    intros t (_ & _ & ->); vm_compute; reflexivity.
Defined.

Lemma sorted_table_queries_exact_witness :
  query user_schema [[98]] users = Some [1] /\ query_lt user_schema [[98]] ORD_ASC users = Some [2]
  /\ all ORD_DESC users = [1; 2].
Proof.
  destruct (sorted_table_queries_exact user_schema users [[98]] [[97]] [[98]] ORD_ASC user_schema_ok
    user_keys_orderable users_ok) as (H1 & H2 & _).
  destruct (sorted_table_queries_exact user_schema users [[98]] [[97]] [[98]] ORD_DESC user_schema_ok
    user_keys_orderable users_ok) as (_ & _ & _ & _ & H3).
  rewrite H1, H2, H3. vm_compute. auto.
Defined.

Lemma sorted_table_update_witness :
  runs (update_column user_schema 2 0 (VStr [99]) users) (fun t => query user_schema [[99]] t = Some [2])
  /\ runs (update_column user_schema 1 2 (VStr [3; 4]) users) (fun t => table_ok user_schema t).
Proof.
  split.
  - destruct (sorted_table_update user_schema users 2 0
      {| col_id := 0; name := "name"; type := STR; indexed := true; place := 0 |} (VStr [99]) (marked true ann) user_schema_ok
      user_keys_orderable users_ok) as (t & E & H);
      [vm_compute; reflexivity | intros _; vm_compute; repeat constructor | reflexivity | vm_compute; reflexivity
      | reflexivity | cbn; repeat constructor; lia | left; reflexivity |].
    exists t. split; [exact E |]. vm_compute in E. injection E as <-. vm_compute. reflexivity.
  - destruct (sorted_table_update user_schema users 1 2
      {| col_id := 2; name := "note"; type := STR; indexed := false; place := 1 |} (VStr [3; 4]) (marked true bob) user_schema_ok
      user_keys_orderable users_ok) as (t & E & H);
      [vm_compute; reflexivity | intros _; vm_compute; repeat constructor | reflexivity | vm_compute; reflexivity
      | reflexivity | cbn; repeat constructor; lia | right; right; vm_compute; reflexivity |].
    exists t. split; [exact E | apply H].
Defined.

Lemma update_frees_key_witness :
  runs (update_column user_schema 1 2 (VStr [3]) users) (stranded 1).
Proof.
  refine (update_frees_key user_schema users 1 2 {| col_id := 2; name := "note"; type := STR; indexed := false; place := 1 |} [3]
    (marked true bob) _ _ user_schema_ok users_ok _ _ _ _ _ _ _ _ _ _);
    try (vm_compute; reflexivity); [vm_compute; repeat constructor | repeat constructor; lia | vm_compute; discriminate
      | vm_compute; repeat constructor].
Defined.
