(* ===== verification/MvRow.v ===== *)
(** * Multi-version rows

    memdb/row_mv.h and memdb/row_mv.cc, class [ChronosRow]: a row that keeps, for
    every column, the versions older than the current one, and the versions of the
    prepared reads and writes.  [version_t] is an unsigned 64-bit integer while the
    arguments are signed ones, so that a comparison converts the signed operand.
    The recursive mutex makes every operation atomic.  [Row::update] is that of
    MemRow.v; the re-insertion into a table is the business of MemTable.v.  A
    [std::map] is the list of its entries in key order. *)

From Stdlib Require Import ZArith Lia Bool Sorting.Sorted.
From stdpp Require Import base list option numbers gmap sets sorting.
From S2P Require Import Prelude ALock Bytes MemSchema MemRow.
Local Open Scope Z_scope.

Record mv_row := {
  base : row;
  wver_ : list Z;
  rver_ : list Z;
  prepared_rver_ : list (list Z);
  prepared_wver_ : list (list Z);
  old_values_ : list (list (Z * value)) }.   (* by column *)

(** Reading a vector at a column index. *)
Definition at_col {A} (column_id : Z) (l : list A) : option A :=
  if column_id <? 0 then None else l !! Z.to_nat column_id.
Definition set_col {A} (column_id : Z) (x : A) (l : list A) : list A := <[Z.to_nat column_id := x]> l.

(** [init_ver] of a row that has no versions yet. *)
Definition init_ver (n_columns : nat) (r : row) : mv_row :=
  {| base := r; wver_ := replicate n_columns 0; rver_ := replicate n_columns 0;
     prepared_rver_ := replicate n_columns []; prepared_wver_ := replicate n_columns [];
     old_values_ := replicate n_columns [] |}.

Definition create_mv (s : schema) (values : list value) : option mv_row :=
  r ← create s values; Some (init_ver (Z.to_nat (columns_count s)) r).

Definition with_rver (l : list (list Z)) (r : mv_row) : mv_row :=
  {| base := base r; wver_ := wver_ r; rver_ := rver_ r; prepared_rver_ := l;
     prepared_wver_ := prepared_wver_ r; old_values_ := old_values_ r |}.
Definition with_wver (l : list (list Z)) (r : mv_row) : mv_row :=
  {| base := base r; wver_ := wver_ r; rver_ := rver_ r; prepared_rver_ := prepared_rver_ r;
     prepared_wver_ := l; old_values_ := old_values_ r |}.

(** ** Prepared versions *)
Definition back (l : list Z) : Z := default 0 (list.last l).
Definition front (l : list Z) : Z := default 0 (head l).

Definition max_prepared_rver (column_id : Z) (r : mv_row) : option Z :=
  l ← at_col column_id (prepared_wver_ r); Some (back l).
Definition min_prepared_rver (column_id : Z) (r : mv_row) : option Z :=
  l ← at_col column_id (prepared_wver_ r); Some (front l).
Definition min_prepared_wver (column_id : Z) (r : mv_row) : option Z :=
  l ← at_col column_id (prepared_rver_ r); Some (front l).
Definition max_prepared_wver (column_id : Z) (r : mv_row) : option Z :=
  l ← at_col column_id (prepared_rver_ r); Some (back l).

(** [std::list::sort] and [std::list::remove]. *)
Definition sort (l : list Z) : list Z := merge_sort Z.le l.
Definition list_remove (ver : Z) (l : list Z) : list Z := List.filter (fun v => negb (v =? ver)) l.

Definition insert_prepared_wver (column_id ver : Z) (r : mv_row) : option mv_row :=
  w ← at_col column_id (prepared_wver_ r);
  l ← at_col column_id (prepared_rver_ r);
  Some (with_rver (set_col column_id (sort l) (prepared_rver_ r))
         (with_wver (set_col column_id (w ++ [ver]) (prepared_wver_ r)) r)).
Definition remove_prepared_wver (column_id ver : Z) (r : mv_row) : option mv_row :=
  w ← at_col column_id (prepared_wver_ r);
  Some (with_wver (set_col column_id (list_remove ver w) (prepared_wver_ r)) r).
Definition insert_prepared_rver (column_id ver : Z) (r : mv_row) : option mv_row :=
  l ← at_col column_id (prepared_rver_ r);
  Some (with_rver (set_col column_id (sort (l ++ [ver])) (prepared_rver_ r)) r).
Definition remove_prepared_rver (column_id ver : Z) (r : mv_row) : option mv_row :=
  l ← at_col column_id (prepared_rver_ r);
  Some (with_rver (set_col column_id (list_remove ver l) (prepared_rver_ r)) r).

Definition get_column_rver (column_id : Z) (r : mv_row) : option Z := at_col column_id (rver_ r).
Definition get_column_wver (column_id : Z) (r : mv_row) : option Z := at_col column_id (wver_ r).

Definition set_column_rver (column_id ver : Z) (r : mv_row) : option mv_row :=
  _ ← at_col column_id (rver_ r);
  Some {| base := base r; wver_ := wver_ r; rver_ := set_col column_id ver (rver_ r);
          prepared_rver_ := prepared_rver_ r; prepared_wver_ := prepared_wver_ r; old_values_ := old_values_ r |}.
Definition set_column_wver (column_id ver : Z) (r : mv_row) : option mv_row :=
  _ ← at_col column_id (wver_ r);
  Some {| base := base r; wver_ := set_col column_id ver (wver_ r); rver_ := rver_ r;
          prepared_rver_ := prepared_rver_ r; prepared_wver_ := prepared_wver_ r; old_values_ := old_values_ r |}.

(** ** Versions of the values *)
Definition getCurrentVersion (column_id : Z) (r : mv_row) : option Z := at_col column_id (wver_ r).

(** [std::map::insert] does not overwrite. *)
Fixpoint map_add (k : Z) (x : value) (l : list (Z * value)) : list (Z * value) :=
  match l with
  | [] => [(k, x)]
  | (k', x') :: l' =>
      if k <? k' then (k, x) :: l else if k =? k' then l else (k', x') :: map_add k x l'
  end.

Definition put_old (column_id : Z) (l : list (Z * value)) (r : mv_row) : mv_row :=
  {| base := base r; wver_ := wver_ r; rver_ := rver_ r; prepared_rver_ := prepared_rver_ r;
     prepared_wver_ := prepared_wver_ r; old_values_ := set_col column_id l (old_values_ r) |}.
Definition put_current (column_id : Z) (b : row) (ver : Z) (r : mv_row) : mv_row :=
  {| base := b; wver_ := set_col column_id ver (wver_ r); rver_ := rver_ r; prepared_rver_ := prepared_rver_ r;
     prepared_wver_ := prepared_wver_ r; old_values_ := old_values_ r |}.

Definition updated_row (r : row) (u : update_result) : row :=
  match u with NotUpdated => r | Updated _ r' => r' end.

(** [update_with_ver], through [update_internal]. *)
Definition update_internal (s : schema) (column_id : Z) (v : value) (ver : Z) (r : mv_row) : option mv_row :=
  currentValue ← get_column s column_id (base r);
  currentVersionNumber ← getCurrentVersion column_id r;
  old ← at_col column_id (old_values_ r);
  if currentVersionNumber <? wrap 64 ver then
    let r := put_old column_id (map_add (swrap 64 currentVersionNumber) currentValue old) r in
    u ← update s column_id v (base r);
    Some (put_current column_id (updated_row (base r) u) (wrap 64 ver) r)
  else Some (put_old column_id (map_add ver v old) r).

(** The search from the newest version; running past the oldest is [None]. *)
Fixpoint find_version (ver : Z) (l : list (Z * value)) : option (Z * value) :=
  match l with
  | [] => None
  | e :: l => if ver <? e.1 then find_version ver l else Some e
  end.

(** The value and its version ([v.ver_]). *)
Definition get_column_by_ver (s : schema) (column_id ver : Z) (r : mv_row) : option (value * Z) :=
  cv ← getCurrentVersion column_id r;
  let current_ver := swrap 64 cv in
  if current_ver <=? ver then v ← get_column s column_id (base r); Some (v, wrap 64 current_ver)
  else
    old ← at_col column_id (old_values_ r);
    e ← find_version ver (rev old);
    Some (e.2, wrap 64 e.1).

(** [copy_into]: the old versions stay behind. *)
Definition copy_mv (s : schema) (r : mv_row) : option mv_row :=
  b ← copy s (base r);
  _ ← verify (bool_decide (rver_ r <> []));
  Some {| base := b; wver_ := wver_ r; rver_ := rver_ r; prepared_rver_ := prepared_rver_ r;
          prepared_wver_ := prepared_wver_ r;
          old_values_ := replicate (length (wver_ r)) [] |}.

(** ** The old versions of a column *)
Lemma map_add_new k x l :
  StronglySorted Z.lt l.*1 -> k ∉ l.*1 -> map_add k x l = map_put k x l.
Proof.
  induction l as [|[k' x'] l IH]; [done |]. cbn [map_add map_put fmap list_fmap]. intros [Hs _]%StronglySorted_inv Hk.
  apply not_elem_of_cons in Hk as [Hne Hk]. cbn in Hne. destruct (Z.eqb_spec k k'); [done |]. now rewrite IH.
Qed.

Lemma map_add_old k x l : StronglySorted Z.lt l.*1 -> k ∈ l.*1 -> map_add k x l = l.
Proof.
  induction l as [|[k' x'] l IH]; [now intros _ Hk%elem_of_nil |]. cbn [map_add fmap list_fmap].
  intros [Hs Hlt]%StronglySorted_inv Hk. cbn in Hlt. destruct (Z.eqb_spec k k') as [->|Hne].
  - now rewrite Z.ltb_irrefl.
  - apply elem_of_cons in Hk as [Hk|Hk]; [done |]. rewrite Forall_forall in Hlt. specialize (Hlt k Hk).
    destruct (Z.ltb_spec k k'); [lia |]. now rewrite IH.
Qed.

Lemma map_add_sorted k x l : StronglySorted Z.lt l.*1 -> StronglySorted Z.lt (map_add k x l).*1.
Proof.
  intros Hs. destruct (decide (k ∈ l.*1)); [now rewrite map_add_old |].
  rewrite map_add_new by done. now apply map_put_sorted.
Qed.

Lemma sorted_snoc_max (l : list Z) k x : StronglySorted Z.lt (l ++ [k]) -> x ∈ l -> x < k.
Proof.
  induction l as [|y l IH]; [now intros _ Hx%elem_of_nil |]. cbn.
  intros [Hs Hy]%StronglySorted_inv [->|Hx]%elem_of_cons; [|auto].
  rewrite Forall_forall in Hy. apply Hy. set_solver.
Qed.

Lemma find_version_spec ver l :
  StronglySorted Z.lt l.*1 ->
  match find_version ver (rev l) with
  | Some e => e ∈ l /\ e.1 <= ver /\ forall e', e' ∈ l -> e'.1 <= ver -> e'.1 <= e.1
  | None => forall e', e' ∈ l -> ver < e'.1
  end.
Proof.
  induction l as [|e l IH] using rev_ind; intros Hs; [now intros e' He%elem_of_nil |].
  rewrite rev_app_distr. cbn [rev app find_version]. rewrite fmap_app in Hs.
  assert (Hmax : forall e', e' ∈ l -> e'.1 < e.1).
  { intros e' He. apply (sorted_snoc_max l.*1); [done | now apply list_elem_of_fmap_2]. }
  destruct (Z.ltb_spec ver e.1) as [Hlt|Hge].
  - assert (Hs' : StronglySorted Z.lt l.*1) by (eapply StronglySorted_sub; [|exact Hs]; now apply sublist_inserts_r).
    specialize (IH Hs'). destruct (find_version ver (rev l)) as [x|].
    + destruct IH as (H1 & H2 & H3). split; [set_solver |]. split; [done |].
      intros e' [He| ->%list_elem_of_singleton]%elem_of_app; [auto | lia].
    + intros e' [He| ->%list_elem_of_singleton]%elem_of_app; [auto | lia].
  - split; [set_solver |]. split; [done |]. intros e' [He| ->%list_elem_of_singleton]%elem_of_app; [|lia].
    specialize (Hmax e' He). lia.
Qed.

(** ** The versions a column holds *)
Section Versions.
Context (s : schema) (Hs : schema_ok s).

(** The column [i] of [r] holds the versions [M]. *)
Definition holds_versions (i : nat) (r : mv_row) (M : gmap Z value) : Prop :=
  exists cv cur old,
    wver_ r !! i = Some cv /\ get_column s (Z.of_nat i) (base r) = Some cur /\ old_values_ r !! i = Some old
    /\ 0 <= cv < 2 ^ 63 /\ StronglySorted Z.lt old.*1 /\ Forall (fun e => 0 <= e.1 < cv) old
    /\ forall k x, M !! k = Some x <-> (k, x) = (cv, cur) \/ (k, x) ∈ old.

(** The newest version that a read at [ver] may see. *)
Definition newest (M : gmap Z value) (ver : Z) (x : value) (k : Z) : Prop :=
  M !! k = Some x /\ k <= ver /\ forall k', is_Some (M !! k') -> k' <= ver -> k' <= k.

Lemma at_col_nat {A} (i : nat) (l : list A) : at_col (Z.of_nat i) l = l !! i.
Proof using Type. unfold at_col. destruct (Z.ltb_spec (Z.of_nat i) 0); [lia |]. now rewrite Nat2Z.id. Qed.

Lemma read_spec i r M ver :
  holds_versions i r M -> 0 <= ver < 2 ^ 63 -> (exists k, is_Some (M !! k) /\ k <= ver) ->
  exists x k, get_column_by_ver s (Z.of_nat i) ver r = Some (x, k) /\ newest M ver x k.
Proof using Type.
  intros (cv & cur & old & Hw & Hc & Ho & Hcv & Hso & Hlt & HM) Hver (k0 & [x0 H0] & Hk0).
  unfold get_column_by_ver, getCurrentVersion. rewrite !at_col_nat, Hw. cbn [mbind option_bind].
  rewrite (swrap_id 64 cv) by lia. destruct (Z.leb_spec cv ver) as [Hle|Hgt].
  - rewrite Hc. cbn [mbind option_bind]. rewrite wrap_small by lia. exists cur, cv. split; [done |].
    split; [apply HM; auto |]. split; [done |]. intros k' [x' [[= -> ->]|He]%HM] _; [lia |].
    rewrite Forall_forall in Hlt. specialize (Hlt _ He). cbn in Hlt. lia.
  - rewrite Ho. cbn [mbind option_bind]. pose proof (find_version_spec ver old Hso) as Hf.
    destruct (find_version ver (rev old)) as [[k x]|].
    + destruct Hf as (H1 & H2 & H3). cbn in *. rewrite Forall_forall in Hlt. pose proof (Hlt _ H1) as Hb. cbn in Hb.
      rewrite wrap_small by lia. exists x, k. split; [done |]. split; [apply HM; auto |]. split; [done |].
      intros k' [x' [[= -> ->]|He]%HM] Hk'; [lia |]. exact (H3 _ He Hk').
    + apply HM in H0 as [[= -> ->]|He]; [lia |]. specialize (Hf _ He). cbn in Hf. lia.
Qed.

(** A fresh row holds its values at version 0. *)
Lemma fresh_versions i b n x :
  (i < n)%nat -> get_column s (Z.of_nat i) b = Some x -> holds_versions i (init_ver n b) {[0 := x]}.
Proof using Type.
  intros Hi Hx. exists 0, x, []. cbn. rewrite !lookup_replicate_2 by done.
  split; [done |]. split; [done |]. split; [done |]. split; [lia |]. split; [constructor |]. split; [constructor |].
  intros k v. rewrite lookup_singleton_Some. split; [intros [<- <-]; auto | intros [[= -> ->]|H%elem_of_nil]; done].
Qed.

Definition mv_ok (r : mv_row) : Prop := row_ok s (base r) /\ rdonly_ (base r) = false.

Lemma update_row i c v r :
  mv_ok r -> col_info_ s !! i = Some c -> get_kind v = type c -> value_ok v ->
  runs (update s (Z.of_nat i) v (base r)) (fun u => let b := updated_row (base r) u in
    row_ok s b /\ rdonly_ b = false /\ get_column s (Z.of_nat i) b = Some v
    /\ forall j cj, j <> i -> col_info_ s !! j = Some cj -> get_column s (Z.of_nat j) b = get_column s (Z.of_nat j) (base r)).
Proof using Hs.
  intros [Hr Hro] Hc Hk Hv. eapply runs_mono; [now apply (update_spec s Hs i c v) |].
  intros [|re b] Hu; cbn [updated_row updated] in *; [auto 10 |]. destruct Hu as (_ & H1 & H2 & H3 & H4).
  split; [done |]. split; [done |]. split; [done |]. intros j cj Hj Hcj. unfold get_column. now rewrite (H4 j cj).
Qed.

Lemma set_col_same {A} (i : nat) (x : A) l y : l !! i = Some y -> set_col (Z.of_nat i) x l !! i = Some x.
Proof using Type.
  intros Hl. unfold set_col. rewrite Nat2Z.id. apply list_lookup_insert_eq. eapply lookup_lt_Some, Hl.
Qed.

Lemma set_col_other {A} (i j : nat) (x : A) l : j <> i -> set_col (Z.of_nat i) x l !! j = l !! j.
Proof using Type. intros. unfold set_col. rewrite Nat2Z.id. now apply list_lookup_insert_ne. Qed.

(** Columns that a write does not touch. *)
Lemma holds_other j r r' M :
  wver_ r' !! j = wver_ r !! j -> get_column s (Z.of_nat j) (base r') = get_column s (Z.of_nat j) (base r) ->
  old_values_ r' !! j = old_values_ r !! j -> holds_versions j r M -> holds_versions j r' M.
Proof using Type. unfold holds_versions. now intros -> -> ->. Qed.

Definition wrote (i : nat) (v : value) (ver : Z) (M : gmap Z value) (r r' : mv_row) : Prop :=
  mv_ok r' /\ holds_versions i r' (<[ver := v]> M)
  /\ forall j cj M', j <> i -> col_info_ s !! j = Some cj -> holds_versions j r M' -> holds_versions j r' M'.

(** A version newer than the current one: the current one becomes old. *)
Lemma write_newer i c v ver r M cv cur old :
  mv_ok r -> col_info_ s !! i = Some c -> get_kind v = type c -> value_ok v -> cv < ver < 2 ^ 63 ->
  wver_ r !! i = Some cv -> old_values_ r !! i = Some old ->
  0 <= cv -> StronglySorted Z.lt old.*1 -> Forall (fun e => 0 <= e.1 < cv) old ->
  (forall k x, M !! k = Some x <-> (k, x) = (cv, cur) \/ (k, x) ∈ old) ->
  let r1 := put_old (Z.of_nat i) (map_add cv cur old) r in
  runs (u ← update s (Z.of_nat i) v (base r1);
        Some (put_current (Z.of_nat i) (updated_row (base r1) u) ver r1)) (wrote i v ver M r).
Proof using Hs.
  intros Hr Hc Hk Hv Hver Hw Ho Hcv Hso Hlt HM r1. eapply runs_bind; [now apply (update_row i c v r) |].
  intros u (U1 & U2 & U3 & U4). apply runs_ret. rewrite Forall_forall in Hlt.
  assert (Hnew : cv ∉ old.*1) by (intros (e & -> & He)%list_elem_of_fmap; specialize (Hlt e He); lia).
  split; [done |]. split.
  - exists ver, v, (map_add cv cur old). cbn.
    rewrite (set_col_same i _ _ cv Hw), (set_col_same i _ _ old Ho). rewrite map_add_new by done.
    repeat (split; [done || lia |]). split; [now apply map_put_sorted |]. split.
    + apply Forall_forall. intros e [->|[He _]]%elem_of_map_put; [cbn; lia | | done]. specialize (Hlt e He). lia.
    + intros k x. rewrite lookup_insert_Some, HM, elem_of_map_put by done. cbn. split.
      * intros [[-> ->]|[Hne [[= -> ->]|He]]]; [auto | auto |]. right. right. split; [done |].
        specialize (Hlt _ He). cbn in Hlt. lia.
      * intros [[= -> ->]|[[= -> ->]|[He _]]]; [auto | |].
        -- right. split; [lia | auto].
        -- right. specialize (Hlt _ He). cbn in Hlt. split; [lia | auto].
  - intros j cj M' Hj Hcj. apply holds_other; cbn; rewrite ?set_col_other by done; [done | | done].
    now apply (U4 j cj).
Qed.

(** An older version goes to the old ones. *)
Lemma write_older i v ver r M cv cur old :
  mv_ok r -> 0 <= ver < cv -> cv < 2 ^ 63 -> M !! ver = None ->
  wver_ r !! i = Some cv -> get_column s (Z.of_nat i) (base r) = Some cur -> old_values_ r !! i = Some old ->
  StronglySorted Z.lt old.*1 -> Forall (fun e => 0 <= e.1 < cv) old ->
  (forall k x, M !! k = Some x <-> (k, x) = (cv, cur) \/ (k, x) ∈ old) ->
  wrote i v ver M r (put_old (Z.of_nat i) (map_add ver v old) r).
Proof using Type.
  intros Hr Hver Hcv Hfresh Hw Hc Ho Hso Hlt HM. rewrite Forall_forall in Hlt.
  assert (Hold : forall e, e ∈ old -> e.1 <> ver).
  { intros [k x] He Ek. cbn in Ek. subst k. assert (M !! ver = Some x) by (apply HM; auto). congruence. }
  assert (Hnew : ver ∉ old.*1) by (intros (e & -> & He)%list_elem_of_fmap; now destruct (Hold e He)).
  split; [done |]. split.
  - exists cv, cur, (map_add ver v old). cbn. rewrite (set_col_same i _ _ old Ho), map_add_new by done.
    repeat (split; [done || lia |]). split; [now apply map_put_sorted |]. split.
    + apply Forall_forall. intros e [->|[He _]]%elem_of_map_put; [cbn; lia | | done]. specialize (Hlt e He). lia.
    + intros k x. rewrite lookup_insert_Some, HM, elem_of_map_put by done. cbn. split.
      * intros [[-> ->]|[Hne [[= -> ->]|He]]]; auto.
      * intros [[= -> ->]|[[= -> ->]|[He Hne]]]; [|auto |]; right; (split; [|auto]); [lia | done].
  - intros j cj M' Hj Hcj. apply holds_other; cbn; now rewrite ?set_col_other.
Qed.

Lemma write_spec i c v ver r M :
  mv_ok r -> col_info_ s !! i = Some c -> get_kind v = type c -> value_ok v ->
  0 <= ver < 2 ^ 63 -> M !! ver = None -> holds_versions i r M ->
  runs (update_internal s (Z.of_nat i) v ver r) (wrote i v ver M r).
Proof using Hs.
  intros Hr Hc Hk Hv Hver Hfresh (cv & cur & old & Hw & Hcur & Ho & Hcv & Hso & Hlt & HM).
  unfold update_internal, getCurrentVersion. rewrite !at_col_nat, Hcur, Hw, Ho. cbn [mbind option_bind].
  rewrite (wrap_small 64 ver) by lia. rewrite (swrap_id 64 cv) by lia.
  assert (ver <> cv) by (intros ->; assert (M !! cv = Some cur) by (apply HM; auto); congruence).
  destruct (Z.ltb_spec cv ver).
  - apply (write_newer i c v ver r M cv cur old); auto; lia.
  - apply runs_ret. apply (write_older i v ver r M cv cur old); auto; lia.
Qed.

(** ** Histories of writes *)
Record write := { w_col : nat; w_ver : Z; w_val : value }.

Fixpoint apply_writes (ws : list write) (r : mv_row) : option mv_row :=
  match ws with
  | [] => Some r
  | w :: ws => r ← update_internal s (Z.of_nat (w_col w)) (w_val w) (w_ver w) r; apply_writes ws r
  end.

(** The versions of a column after the writes. *)
Definition all_versions (i : nat) (M : gmap Z value) (ws : list write) : gmap Z value :=
  fold_left (fun M w => if decide (w_col w = i) then <[w_ver w := w_val w]> M else M) ws M.

Definition write_ok (n : nat) (w : write) : Prop :=
  (w_col w < n)%nat /\ 0 < w_ver w < 2 ^ 63 /\ value_ok (w_val w)
  /\ exists c, col_info_ s !! w_col w = Some c /\ get_kind (w_val w) = type c.

Definition holds_all (n : nat) (Ms : nat -> gmap Z value) (r : mv_row) : Prop :=
  mv_ok r /\ forall i c, (i < n)%nat -> col_info_ s !! i = Some c -> holds_versions i r (Ms i).

Lemma history_versions n ws Ms r :
  holds_all n Ms r -> Forall (write_ok n) ws -> NoDup ((fun w => (w_col w, w_ver w)) <$> ws) ->
  Forall (fun w => Ms (w_col w) !! w_ver w = None) ws ->
  runs (apply_writes ws r) (holds_all n (fun i => all_versions i (Ms i) ws)).
Proof using Hs.
  revert Ms r. induction ws as [|w ws IH]; intros Ms r Hr Hok HN Hf; [now apply runs_ret |]. cbn [apply_writes].
  apply Forall_cons_iff in Hok as [(Hn & Hver & Hv & c & Hc & Hk) Hok]. apply Forall_cons_iff in Hf as [Hfw Hf].
  rewrite fmap_cons in HN. apply list.NoDup_cons in HN as [Hnew HN]. destruct Hr as [Hmv Hr].
  eapply runs_bind; [eapply (write_spec (w_col w) c (w_val w) (w_ver w) r (Ms (w_col w))); eauto; lia |].
  intros r' (R1 & R2 & R3).
  set (Ms' := fun i => if decide (w_col w = i) then <[w_ver w := w_val w]> (Ms i) else Ms i).
  refine (IH Ms' r' _ Hok HN _).
  - split; [done |]. intros i ci Hi Hci. unfold Ms'. destruct (decide (w_col w = i)) as [<-|Hne]; [done |].
    apply (R3 i ci); eauto.
  - apply Forall_forall. intros w' Hw'. rewrite Forall_forall in Hf. unfold Ms'.
    destruct (decide (w_col w = w_col w')) as [E|_]; [|auto]. rewrite lookup_insert_ne; [auto |].
    intros Ev. apply Hnew. apply list_elem_of_fmap. exists w'. now rewrite E, Ev.
Qed.

Lemma all_versions_has i M ws k : is_Some (M !! k) -> is_Some (all_versions i M ws !! k).
Proof using Type.
  revert M. induction ws as [|w ws IH]; intros M HM; [done |]. cbn. apply IH.
  destruct (decide (w_col w = i)); [|done]. rewrite lookup_insert_is_Some'. auto.
Qed.


(** ** Two writes with one version *)

(** The newest version is the current one. *)
Lemma newest_current i r M ver v :
  holds_versions i r (<[ver := v]> M) -> (forall k, is_Some (M !! k) -> k < ver) ->
  exists old, wver_ r !! i = Some ver /\ get_column s (Z.of_nat i) (base r) = Some v /\ old_values_ r !! i = Some old
    /\ 0 <= ver < 2 ^ 63 /\ StronglySorted Z.lt old.*1 /\ Forall (fun e => 0 <= e.1 < ver) old.
Proof using Type.
  intros (cv & cur & old & Hw & Hcur & Ho & Hcv & Hso & Hlt & HM) Hmax. rewrite Forall_forall in Hlt.
  assert (E : cv = ver /\ cur = v).
  { assert (Hc : <[ver := v]> M !! cv = Some cur) by (apply HM; auto).
    apply lookup_insert_Some in Hc as [[-> ->]|[Hne Hc]]; [done |]. specialize (Hmax cv (mk_is_Some _ _ Hc)).
    assert (Hv : <[ver := v]> M !! ver = Some v) by apply lookup_insert_eq.
    apply HM in Hv as [[= <- <-]|Hv]; [lia |]. specialize (Hlt _ Hv). cbn in Hlt. lia. }
  destruct E as [-> ->]. exists old. rewrite Forall_forall. auto 10.
Qed.

Lemma second_write i c v1 v2 v3 ver ver' r M :
  mv_ok r -> col_info_ s !! i = Some c -> get_kind v1 = type c -> value_ok v1 -> get_kind v3 = type c -> value_ok v3 ->
  holds_versions i r M -> (forall k, is_Some (M !! k) -> k < ver) -> 0 <= ver -> ver < ver' < 2 ^ 63 ->
  runs (r1 ← update_internal s (Z.of_nat i) v1 ver r; update_internal s (Z.of_nat i) v2 ver r1) (fun r2 =>
    get_column_by_ver s (Z.of_nat i) ver r2 = Some (v1, ver)
    /\ runs (update_internal s (Z.of_nat i) v3 ver' r2) (fun r3 =>
         get_column_by_ver s (Z.of_nat i) ver r3 = Some (v2, ver))).
Proof using Hs.
  intros Hr Hc Hk1 Hv1 Hk3 Hv3 Hh Hmax Hver Hver'.
  assert (Hnew : M !! ver = None) by (destruct (M !! ver) eqn:E; [specialize (Hmax ver ltac:(eauto)); lia | done]).
  eapply runs_bind; [eapply (write_spec i c v1 ver r M); eauto; lia |]. intros r1 (R1 & R2 & _).
  destruct (newest_current i r1 M ver v1 R2 Hmax) as (old & Hw & Hcur & Ho & Hb & Hso & Hlt). rewrite Forall_forall in Hlt.
  assert (Hout : ver ∉ old.*1) by (intros (e & -> & He)%list_elem_of_fmap; specialize (Hlt e He); lia).
  unfold update_internal at 1, getCurrentVersion. rewrite !at_col_nat, Hcur, Hw, Ho. cbn [mbind option_bind].
  rewrite wrap_small by lia. rewrite Z.ltb_irrefl. apply runs_ret. set (l := map_add ver v2 old). set (r2 := put_old _ l r1).
  assert (Hw2 : wver_ r2 !! i = Some ver) by done. assert (Hcur2 : get_column s (Z.of_nat i) (base r2) = Some v1) by done.
  assert (Ho2 : old_values_ r2 !! i = Some l) by (unfold r2; cbn; now apply (set_col_same i _ _ old)).
  assert (Hl : map_add ver v1 l = l).
  { apply map_add_old; unfold l; [now apply map_add_sorted |]. rewrite map_add_new by done.
    apply (list_elem_of_fmap_2 fst _ (ver, v2)), elem_of_map_put; auto. }
  split; [unfold get_column_by_ver, getCurrentVersion; rewrite !at_col_nat, Hw2; cbn [mbind option_bind];
    rewrite swrap_id, Z.leb_refl, Hcur2 by lia; cbn [mbind option_bind]; now rewrite wrap_small by lia |].
  unfold update_internal, getCurrentVersion. rewrite !at_col_nat, Hcur2, Hw2, Ho2. cbn [mbind option_bind].
  rewrite wrap_small, swrap_id, Hl by lia. destruct (Z.ltb_spec ver ver'); [|lia].
  eapply runs_bind; [apply (update_row i c v3 r2); auto |]. intros u _. apply runs_ret.
  set (r3 := put_current _ _ _ _).
  assert (Hw3 : wver_ r3 !! i = Some ver') by exact (set_col_same i _ _ ver Hw2).
  assert (Ho3 : old_values_ r3 !! i = Some l) by exact (set_col_same i _ _ l Ho2).
  unfold get_column_by_ver, getCurrentVersion. rewrite !at_col_nat, Hw3, Ho3. cbn [mbind option_bind].
  rewrite swrap_id by lia. destruct (Z.leb_spec ver' ver); [lia |].
  assert (Hsl : StronglySorted Z.lt l.*1) by now apply map_add_sorted.
  assert (Hin : forall e, e ∈ l <-> e = (ver, v2) \/ (e ∈ old /\ e.1 <> ver)).
  { intros e. unfold l. rewrite map_add_new by done. now apply elem_of_map_put. }
  pose proof (find_version_spec ver l Hsl) as Hf. assert (Hme : (ver, v2) ∈ l) by (apply Hin; auto).
  destruct (find_version ver (rev l)) as [[k x]|]; [|specialize (Hf _ Hme); cbn in Hf; lia].
  destruct Hf as (F1 & F2 & F3). cbn in *. specialize (F3 _ Hme ltac:(cbn; lia)). cbn in F3.
  apply Hin in F1 as [[= -> ->]|[_ Hne]]; [|cbn in Hne; lia]. now rewrite wrap_small by lia.
Qed.

End Versions.

(** ** The properties *)

(** C28. Reads of a version: after any sequence of writes to the visible columns of
    a writable row with fresh versions, in any order, with positive versions that are
    distinct for each column, a read at a version returns the value of the newest
    version of the column that is not above it, with that version; version 0 is the
    value the row was created with.  For a repeated version this fails
    ([same_version_rewrites_past]). *)
Theorem mv_reads_newest s b n ws :
  schema_ok s -> row_ok s b -> rdonly_ b = false ->
  Forall (write_ok s n) ws -> NoDup ((fun w => (w_col w, w_ver w)) <$> ws) ->
  runs (apply_writes s ws (init_ver n b)) (fun r => forall i c x ver,
    (i < n)%nat -> col_info_ s !! i = Some c -> get_column s (Z.of_nat i) b = Some x -> 0 <= ver < 2 ^ 63 ->
    exists v k, get_column_by_ver s (Z.of_nat i) ver r = Some (v, k)
      /\ newest (all_versions i {[0 := x]} ws) ver v k).
Proof.
  intros Hs Hb Hro Hws HN.
  set (Ms := fun i : nat => match get_column s (Z.of_nat i) b with Some x => {[0 := x]} | None => (∅ : gmap Z value) end).
  eapply runs_mono; [apply (history_versions s Hs n ws Ms (init_ver n b)); auto |].
  - split; [done |]. intros i c Hi Hc. unfold Ms. destruct (blob_ok s Hs i c b Hb Hc) as (bs & Hbs & Hbb & Hl).
    pose proof Hs as (HC & _). destruct (HC i c Hc) as (_ & Hu & _).
    destruct (decode_ok (type c) bs) as (x & Hx & _); [done.. |].
    rewrite (column_of_blob s Hs i c b bs Hc Hbs), Hx. apply fresh_versions; [done |].
    now rewrite (column_of_blob s Hs i c b bs Hc Hbs).
  - eapply Forall_weaken; [exact Hws |]. intros w (_ & Hver & _). unfold Ms.
    destruct (get_column s (Z.of_nat (w_col w)) b); [|done]. apply lookup_singleton_None. lia.
  - intros r [_ Hr] i c x ver Hi Hc Hx Hver. specialize (Hr i c Hi Hc). unfold Ms in Hr. rewrite Hx in Hr.
    apply (read_spec s i r _ ver Hr Hver). exists 0. split; [|lia]. apply all_versions_has. now rewrite lookup_singleton_eq.
Qed.

(** A second write with the version of the newest one is not seen by reads of
    that version, until a later write makes it the past: then the same read
    returns the second value instead of the first. *)
Theorem same_version_rewrites_past s i c v1 v2 v3 ver ver' r M :
  schema_ok s -> mv_ok s r -> col_info_ s !! i = Some c ->
  get_kind v1 = type c -> value_ok v1 -> get_kind v3 = type c -> value_ok v3 ->
  holds_versions s i r M -> (forall k, is_Some (M !! k) -> k < ver) -> 0 <= ver -> ver < ver' < 2 ^ 63 ->
  runs (r1 ← update_internal s (Z.of_nat i) v1 ver r; update_internal s (Z.of_nat i) v2 ver r1) (fun r2 =>
    get_column_by_ver s (Z.of_nat i) ver r2 = Some (v1, ver)
    /\ runs (update_internal s (Z.of_nat i) v3 ver' r2) (fun r3 =>
         get_column_by_ver s (Z.of_nat i) ver r3 = Some (v2, ver))).
Proof. intros. eapply second_write; eauto. Qed.

(** A prepared write is not seen by [max_prepared_wver], which looks at the
    prepared reads. *)
Lemma prepared_write_unseen (i : nat) ver r w l :
  prepared_wver_ r !! i = Some w -> prepared_rver_ r !! i = Some l -> StronglySorted Z.le l ->
  runs (insert_prepared_wver (Z.of_nat i) ver r) (fun r' =>
    max_prepared_wver (Z.of_nat i) r' = max_prepared_wver (Z.of_nat i) r
    /\ max_prepared_rver (Z.of_nat i) r' = Some ver).
Proof.
  intros Hw Hl Hs. unfold insert_prepared_wver. rewrite !at_col_nat, Hw, Hl. cbn [mbind option_bind]. apply runs_ret.
  unfold max_prepared_wver, max_prepared_rver. cbn [prepared_rver_ prepared_wver_ with_rver with_wver].
  rewrite !at_col_nat, (set_col_same i _ _ l Hl), (set_col_same i _ _ w Hw), Hl. cbn [mbind option_bind].
  split; [|unfold back; now rewrite last_snoc]. do 2 f_equal. unfold sort.
  apply (StronglySorted_unique Z.le); [|done | apply merge_sort_Permutation].
  apply StronglySorted_merge_sort; apply _.
Qed.

(** A copy does not have the old versions: reading one fails. *)
Lemma copy_loses_versions s (i : nat) ver r r' cv :
  copy_mv s r = Some r' -> wver_ r !! i = Some cv -> 0 <= ver < cv -> cv < 2 ^ 63 ->
  get_column_by_ver s (Z.of_nat i) ver r' = None.
Proof.
  intros Hc Hw Hver Hcv. unfold copy_mv in Hc. destruct (copy s (base r)) as [b|]; [|done]. cbn [mbind option_bind] in Hc.
  destruct (verify _); [|done]. cbn [mbind option_bind] in Hc. injection Hc as <-.
  unfold get_column_by_ver, getCurrentVersion. cbn [wver_ old_values_]. rewrite !at_col_nat, Hw. cbn [mbind option_bind].
  rewrite swrap_id by lia. destruct (Z.leb_spec cv ver); [lia |].
  rewrite lookup_replicate_2 by (eapply lookup_lt_Some, Hw). reflexivity.
Qed.

(** *** Witnesses: the account of MemRow.v, its balance written out of order. *)
Definition balance_writes : list write :=
  [{| w_col := 2; w_ver := 20; w_val := VI64 200 |}; {| w_col := 2; w_ver := 10; w_val := VI64 100 |};
   {| w_col := 1; w_ver := 10; w_val := VStr [98] |}].

Lemma mv_reads_newest_witness :
  runs (apply_writes account_schema balance_writes (init_ver 4 alice_row)) (fun r =>
    get_column_by_ver account_schema 2 15 r = Some (VI64 100, 10)).
Proof.
  destruct (mv_reads_newest account_schema alice_row 4 balance_writes account_schema_ok alice_row_ok eq_refl)
    as (r & E & H).
  - repeat constructor; cbn; try lia; try done; eexists; (split; [vm_compute; reflexivity | reflexivity]).
  - cbn. repeat (apply list.NoDup_cons; split; [rewrite ?not_elem_of_cons; repeat split; (discriminate || apply not_elem_of_nil) |]).
    apply list.NoDup_nil. exact I.
  - exists r. split; [exact E |]. destruct (H 2%nat _ (VI64 (-5)) 15 ltac:(lia) eq_refl eq_refl ltac:(lia)) as (v & k & Hr & Hn).
    replace (get_column_by_ver account_schema 2 15 r) with (Some (v, k)) by (symmetry; exact Hr).
    vm_compute in E. injection E as <-. vm_compute in Hr. injection Hr as <- <-. reflexivity.
Defined.

Lemma same_version_rewrites_past_witness :
  runs (r1 ← update_internal account_schema 2 (VI64 1) 5 (init_ver 4 alice_row);
        update_internal account_schema 2 (VI64 2) 5 r1) (fun r2 =>
    get_column_by_ver account_schema 2 5 r2 = Some (VI64 1, 5)
    /\ runs (update_internal account_schema 2 (VI64 3) 9 r2) (fun r3 =>
         get_column_by_ver account_schema 2 5 r3 = Some (VI64 2, 5))).
Proof.
  refine (same_version_rewrites_past account_schema 2 _ (VI64 1) (VI64 2) (VI64 3) 5 9 (init_ver 4 alice_row)
    {[0 := VI64 (-5)]} account_schema_ok _ _ _ _ _ _ _ _ _ _);
    [split; [exact alice_row_ok | reflexivity] | vm_compute; reflexivity | reflexivity | cbn; lia | reflexivity | cbn; lia
    | apply fresh_versions; [lia | vm_compute; reflexivity] | | lia | lia].
  intros k [x Hx]. apply lookup_singleton_Some in Hx as [<- _]. lia.
Defined.
