(* ===== verification/Txn2PL.v ===== *)
(** * Transactions on tables

    memdb/txn_2pl.h and memdb/txn_2pl.cc, class [Txn2PL], on one sorted table
    (MemTable.v): a transaction stages the updates, insertions and removals it
    makes, reads its own writes, and installs all of them at commit.  [updates_] is
    a multimap by the address of the row, [inserts_] a multiset in the order of the
    rows' keys, [removes_] an unordered set, whose order of iteration is the
    parameter [iter].  The columns of a row that is in no table are written
    directly.  The assertions of the file are compiled out; reference counts are
    not modelled.  [Txn2PL] takes no locks itself: the schedulers do. *)

From Stdlib Require Import ZArith Lia Bool Sorting.Sorted.
From stdpp Require Import base list option numbers strings gmap sets.
From S2P Require Import Prelude PamOrder ALock Multimap Bytes MemSchema MemRow MemKey MemTable.
Local Open Scope Z_scope.

Inductive symbol := NONE | TXN_ABORT | TXN_COMMIT.

Record txn := {
  outcome_ : symbol;
  reads_ : list (Z * Z);
  updates_ : list (Z * (Z * value));
  inserts_ : list Z;
  removes_ : list Z }.

Definition start : txn :=
  {| outcome_ := NONE; reads_ := []; updates_ := []; inserts_ := []; removes_ := [] |}.

Definition active (x : txn) : bool := match outcome_ x with NONE => true | _ => false end.

(** The order of row addresses. *)
#[local] Instance address_order : KeyOrder Z := Z.ltb.

Definition with_updates (l : list (Z * (Z * value))) (x : txn) : txn :=
  {| outcome_ := outcome_ x; reads_ := reads_ x; updates_ := l; inserts_ := inserts_ x; removes_ := removes_ x |}.
Definition with_reads (l : list (Z * Z)) (x : txn) : txn :=
  {| outcome_ := outcome_ x; reads_ := l; updates_ := updates_ x; inserts_ := inserts_ x; removes_ := removes_ x |}.
Definition with_rows (ins rem : list Z) (x : txn) : txn :=
  {| outcome_ := outcome_ x; reads_ := reads_ x; updates_ := updates_ x; inserts_ := ins; removes_ := rem |}.

(** The entries of [updates_] for a column, and the change of the first of them. *)
Definition is_update (a col : Z) (e : Z * (Z * value)) : bool := (e.1 =? a) && (e.2.1 =? col).

Fixpoint staged (a col : Z) (l : list (Z * (Z * value))) : option value :=
  match l with
  | [] => None
  | e :: l => if is_update a col e then Some e.2.2 else staged a col l
  end.

Fixpoint restage (a col : Z) (v : value) (l : list (Z * (Z * value))) : list (Z * (Z * value)) :=
  match l with
  | [] => []
  | e :: l => if is_update a col e then (a, (col, v)) :: l else e :: restage a col v l
  end.

(** [release_resource] *)
Definition release_resource (x : txn) : txn :=
  {| outcome_ := outcome_ x; reads_ := reads_ x; updates_ := []; inserts_ := []; removes_ := [] |}.
Definition set_outcome (o : symbol) (x : txn) : txn :=
  {| outcome_ := o; reads_ := reads_ x; updates_ := updates_ x; inserts_ := inserts_ x; removes_ := removes_ x |}.

Definition abort (x : txn) : option txn :=
  _ ← verify (active x);
  Some (release_resource (set_outcome TXN_ABORT x)).

Section Txn.
Context (s : schema) (iter : list Z -> list Z).

Definition read_column (a col : Z) (t : table) (x : txn) : option (value * txn) :=
  _ ← verify (active x);
  h ← heap t !! a;
  if negb (in_table h) then v ← get_column s col (h_row h); Some (v, x)
  else
    match staged a col (updates_ x) with
    | Some v => Some (v, x)
    | None =>
        v ← get_column s col (h_row h);
        Some (v, with_reads (mm_insert a col (reads_ x)) x)
    end.

Definition write_column (a col : Z) (v : value) (t : table) (x : txn) : option (table * txn) :=
  _ ← verify (active x);
  h ← heap t !! a;
  if negb (in_table h) then t ← update_column s a col v t; Some (t, x)
  else
    match staged a col (updates_ x) with
    | Some _ => Some (t, with_updates (restage a col v (updates_ x)) x)
    | None => Some (t, with_updates (mm_insert a (col, v) (updates_ x)) x)
    end.

(** A multiset of rows in the order of their keys. *)
#[local] Instance row_order : KeyOrder (list (list Z)) := table_order s.

Definition load_row (t : table) (a : Z) : option (list (list Z) * Z) :=
  h ← heap t !! a; k ← get_key s (h_row h); Some (k, a).

Definition insert_row (a : Z) (t : table) (x : txn) : option txn :=
  _ ← verify (active x);
  h ← heap t !! a;
  _ ← verify (negb (in_table h));
  k ← get_key s (h_row h);
  l ← mapM (load_row t) (inserts_ x);
  Some (with_rows (mm_insert k a l).*2 (List.filter (fun b => negb (b =? a)) (removes_ x)) x).

Fixpoint find_address (a : Z) (l : list Z) : option nat :=
  match l with
  | [] => None
  | b :: l => if b =? a then Some O else S <$> find_address a l
  end.

Definition remove_row (a : Z) (t : table) (x : txn) : option txn :=
  _ ← verify (active x);
  h ← heap t !! a;
  k ← get_key s (h_row h);
  l ← mapM (load_row t) (inserts_ x);
  let lo := lower_bound k l in
  let x' :=
    match find_address a (segment lo (upper_bound k l) l).*2 with
    | None => with_rows (inserts_ x) (if decide (a ∈ removes_ x) then removes_ x else a :: removes_ x) x
    | Some i => with_rows (delete (lo + i)%nat (inserts_ x)) (removes_ x) x
    end in
  Some (with_updates (List.filter (fun e => negb (e.1 =? a)) (updates_ x')) x').

(** The three loops of [commit]. *)
Fixpoint insert_all (l : list Z) (t : table) : option table :=
  match l with
  | [] => Some t
  | a :: l => t ← insert s a t; insert_all l t
  end.

Fixpoint update_all (l : list (Z * (Z * value))) (t : table) : option table :=
  match l with
  | [] => Some t
  | (a, (col, v)) :: l =>
      h ← heap t !! a;
      _ ← verify (in_table h);
      t ← update_column s a col v t; update_all l t
  end.

Fixpoint remove_all (l : list Z) (t : table) : option table :=
  match l with
  | [] => Some t
  | a :: l => t ← MemTable.remove_row s a t; remove_all l t
  end.

Definition commit (t : table) (x : txn) : option (table * txn) :=
  _ ← verify (active x);
  t ← insert_all (inserts_ x) t;
  t ← update_all (updates_ x) t;
  t ← remove_all (iter (removes_ x)) t;
  Some (t, release_resource (set_outcome TXN_COMMIT x)).
End Txn.

(** ** Staged updates *)
Lemma staged_spec a col l v : staged a col l = Some v -> (a, (col, v)) ∈ l.
Proof.
  induction l as [|[a' [col' v']] l IH]; cbn [staged]; [done |]. unfold is_update; cbn.
  destruct (Z.eqb_spec a' a) as [->|_], (Z.eqb_spec col' col) as [->|_]; cbn; intros E;
    [injection E as -> | ..]; set_solver.
Qed.

Lemma staged_none a col l v : staged a col l = None -> (a, (col, v)) ∉ l.
Proof.
  induction l as [|[a' [col' v']] l IH]; cbn [staged]; [set_solver |]. unfold is_update; cbn.
  destruct (Z.eqb_spec a' a) as [->|Ha], (Z.eqb_spec col' col) as [->|Hc]; cbn; intros E; [done | ..];
    apply not_elem_of_cons; (split; [congruence | auto]).
Qed.

Definition cell (e : Z * (Z * value)) : Z * Z := (e.1, e.2.1).

Lemma staged_cell a col l : staged a col l = None <-> (a, col) ∉ cell <$> l.
Proof.
  split.
  - intros E ([a' [col' v']] & Ec & He)%list_elem_of_fmap. injection Ec as -> ->. now apply (staged_none a' col' l v').
  - intros Hn. destruct (staged a col l) as [v|] eqn:E; [|done]. destruct Hn. apply list_elem_of_fmap.
    exists (a, (col, v)). split; [done | now apply staged_spec].
Qed.

Lemma staged_insert a col v l b j :
  staged a col l = None ->
  staged b j (mm_insert a (col, v) l) = if (a =? b) && (col =? j) then Some v else staged b j l.
Proof.
  induction l as [|e l IH]; cbn [mm_insert staged]; intros E.
  - unfold is_update. cbn. now rewrite !(Z.eqb_sym _ b), !(Z.eqb_sym _ j).
  - destruct (is_update a col e) eqn:Ee; [done |]. destruct (comp a e.1); cbn [staged].
    + unfold is_update at 1. cbn. destruct (Z.eqb_spec a b), (Z.eqb_spec col j); subst; cbn; reflexivity.
    + rewrite IH by done. destruct (is_update b j e) eqn:Eb; [|done].
      destruct (Z.eqb_spec a b) as [->|_], (Z.eqb_spec col j) as [->|_]; cbn; congruence.
Qed.

Lemma staged_restage a col v l b j :
  is_Some (staged a col l) ->
  staged b j (restage a col v l) = if (a =? b) && (col =? j) then Some v else staged b j l.
Proof.
  induction l as [|e l IH]; cbn [restage staged]; intros E; [now destruct E |].
  destruct (is_update a col e) eqn:Ee; cbn [staged].
  - unfold is_update in *. cbn. apply andb_true_iff in Ee as [E1%Z.eqb_eq E2%Z.eqb_eq]. rewrite E1, E2.
    destruct (Z.eqb_spec a b), (Z.eqb_spec col j); cbn; reflexivity.
  - rewrite IH by done. destruct (is_update b j e) eqn:Eb; [|done].
    destruct (Z.eqb_spec a b) as [->|_], (Z.eqb_spec col j) as [->|_]; cbn; congruence.
Qed.

Lemma cell_restage a col v l : cell <$> restage a col v l = cell <$> l.
Proof.
  induction l as [|e l IH]; [done |]. cbn [restage]. destruct (is_update a col e) eqn:E; rewrite !fmap_cons.
  - f_equal. unfold is_update in E. apply andb_true_iff in E as [E1%Z.eqb_eq E2%Z.eqb_eq]. unfold cell. cbn. congruence.
  - now rewrite IH.
Qed.

(** ** Well-formed transactions *)
Section Theory.
Context (s : schema) (Hs : schema_ok s) (Hts : Forall (fun k => orderable k = true) (key_types s)).

(** Every row that points to the table is in it. *)
Definition tbl_ok (t : table) : Prop :=
  table_ok s t /\ forall a h, heap t !! a = Some h -> in_table h = true -> a ∈ (rows_ t).*2.

(** A write that does not move the key: the column is indexed, the value or the
    key has no strings. *)
Definition safe_col (c : column_info) : Prop :=
  indexed c = true \/ type c <> STR \/ Forall (fun k => is_str k = false) (key_types s).

Definition value_for (col : Z) (v : value) : Prop :=
  exists i c, col = Z.of_nat i /\ col_info_ s !! i = Some c /\ get_kind v = type c /\ value_ok v /\ safe_col c.

Definition writable (t : table) (a : Z) : Prop :=
  exists h, heap t !! a = Some h /\ rdonly_ (h_row h) = false.
Definition member (t : table) (a : Z) (on : bool) : Prop :=
  exists h, heap t !! a = Some h /\ in_table h = on.

Definition update_ok (t : table) (e : Z * (Z * value)) : Prop :=
  value_for e.2.1 e.2.2 /\ writable t e.1 /\ member t e.1 true.

(** The staged rows with their keys. *)
Definition keyed (t : table) (l : list Z) : list (list (list Z) * Z) := (fun a => (key_at s t a, a)) <$> l.

Definition txn_ok (t : table) (x : txn) : Prop :=
  active x = true /\ tbl_ok t
  /\ Forall (update_ok t) (updates_ x) /\ NoDup (cell <$> updates_ x)
  /\ Forall (fun a => member t a false) (inserts_ x) /\ NoDup (inserts_ x)
  /\ Forall (fun a => member t a true) (removes_ x) /\ NoDup (removes_ x)
  /\ @mm_sorted _ (table_order s) _ (keyed t (inserts_ x)).

Lemma safe_kept i c v r :
  get_kind v = type c -> safe_col c -> indexed c = true \/ key_kept s i v r.
Proof using Type.
  intros Hk [H|[H|H]]; [auto | | right; left; done]. right. right. unfold in_place.
  destruct v; cbn in Hk; try done.
Qed.

(** An update of a row of the heap. *)
Definition cell_updated (a : Z) (col : Z) (v : value) (t t' : table) : Prop :=
  tbl_ok t' /\ (forall b, b ∈ (rows_ t').*2 <-> b ∈ (rows_ t).*2)
  /\ (forall b, b <> a \/ col ∉ key_cols_id_ s -> key_at s t' b = key_at s t b)
  /\ forall b h, heap t !! b = Some h -> exists h', heap t' !! b = Some h' /\ in_table h' = in_table h
       /\ (rdonly_ (h_row h) = false -> rdonly_ (h_row h') = false)
       /\ forall j c, col_info_ s !! j = Some c ->
            get_column s (Z.of_nat j) (h_row h') =
            if (a =? b) && (col =? Z.of_nat j) then Some v else get_column s (Z.of_nat j) (h_row h).

Lemma rows_contents t b : b ∈ (rows_ t).*2 <-> b ∈ (contents s t).*2.
Proof using Type. unfold contents. rewrite <- list_fmap_compose. reflexivity. Qed.

Lemma rows_moved a k l b : a ∈ l.*2 ->
  b ∈ (@mm_insert _ (table_order s) _ k a (List.filter (is_not a) l)).*2 <-> b ∈ l.*2.
Proof using Type.
  intros Ha. rewrite (@mm_insert_perm _ (table_order s)), fmap_cons. cbn [snd]. rewrite elem_of_cons. split.
  - intros [->|(e & -> & He)%list_elem_of_fmap]; [done |]. apply list_elem_of_fmap. exists e. split; [done |].
    apply list_elem_of_In, filter_In in He as [He _]. now apply list_elem_of_In.
  - intros (e & -> & He)%list_elem_of_fmap. destruct (decide (e.2 = a)) as [|Hne]; [auto |]. right.
    apply list_elem_of_fmap. exists e. split; [done |]. apply list_elem_of_In, filter_In.
    split; [now apply list_elem_of_In |]. unfold is_not. now apply negb_true_iff, Z.eqb_neq.
Qed.

Lemma same_key r r' : (forall k, k ∈ key_cols_id_ s -> get_blob s k r' = get_blob s k r) -> key_of s r' = key_of s r.
Proof using Type.
  intros H. unfold key_of, get_key. f_equal. apply mapM_ext_Forall, Forall_forall. exact H.
Qed.

Lemma update_cell a col v t :
  tbl_ok t -> value_for col v -> writable t a ->
  runs (update_column s a col v t) (cell_updated a col v t).
Proof using All.
  intros [Ht Hat] (i & c & -> & Hc & Hk & Hv & Hsafe) (h & Ha & Hro).
  eapply runs_mono; [apply (update_column_spec s Hs Hts a i c v h t); eauto using safe_kept |].
  intros t' (Ht' & h' & Hh' & Hin & Hro' & Hcol & Hoth & Hcon).
  assert (Hrows : forall b, b ∈ (rows_ t').*2 <-> b ∈ (rows_ t).*2).
  { intros b. destruct Hcon as [->|Hcon]; [done |]. rewrite (rows_contents t'), Hcon.
    destruct (indexed c && in_table h) eqn:E; [|now rewrite rows_contents].
    apply andb_true_iff in E as [_ E]. rewrite (rows_contents t). apply rows_moved. rewrite <- rows_contents. eauto. }
  split; [|split; [done |]; split].
  - split; [done |]. intros b hb Hb Hi. rewrite Hrows. rewrite Hh' in Hb. destruct (decide (b = a)) as [->|Hne].
    + rewrite lookup_insert_eq in Hb. injection Hb as <-. apply (Hat a h); congruence.
    + rewrite lookup_insert_ne in Hb by done. eauto.
  - intros b Hb. unfold key_at. rewrite Hh'. destruct (decide (b = a)) as [->|Hne]; [|now rewrite lookup_insert_ne].
    rewrite lookup_insert_eq, Ha. apply same_key. intros k Hkin. destruct (key_column s Hs k Hkin) as (j & cj & -> & Hcj & _).
    apply (Hoth j cj); [|done]. intros ->. destruct Hb; [done | tauto].
  - intros b hb Hb. rewrite Hh'. destruct (decide (b = a)) as [->|Hne].
    + rewrite lookup_insert_eq, Z.eqb_refl. assert (hb = h) as -> by congruence. exists h'.
      split; [done |]. split; [done |]. split; [done |]. intros j cj Hj.
      destruct (Z.eqb_spec (Z.of_nat i) (Z.of_nat j)) as [E|E]; cbn [andb].
      * assert (j = i) as -> by lia. done.
      * unfold get_column. rewrite (Hoth j cj); [done | lia | done].
    + rewrite lookup_insert_ne by done. exists hb. destruct (Z.eqb_spec a b); [congruence |]. auto.
Qed.

(** ** The loops of commit *)
Definition columns_after (us : list (Z * (Z * value))) (t t' : table) : Prop :=
  forall b h, heap t !! b = Some h -> exists h', heap t' !! b = Some h' /\ in_table h' = in_table h
    /\ forall j c, col_info_ s !! j = Some c ->
         get_column s (Z.of_nat j) (h_row h') =
         match staged b (Z.of_nat j) us with Some v => Some v | None => get_column s (Z.of_nat j) (h_row h) end.

Lemma update_ok_after a col v t t' e :
  cell_updated a col v t t' -> update_ok t e -> update_ok t' e.
Proof using Type.
  intros (_ & _ & _ & H) (Hv & (h & Hh & Hro) & (h2 & Hh2 & Hi)). destruct (H _ _ Hh) as (h' & Hh' & Hin & Hro' & _).
  assert (h2 = h) as -> by congruence. split; [done |]. split; exists h'; split; auto. congruence.
Qed.

Lemma update_all_spec us t :
  tbl_ok t -> Forall (update_ok t) us -> NoDup (cell <$> us) ->
  runs (update_all s us t) (fun t' => tbl_ok t' /\ (forall b, b ∈ (rows_ t').*2 <-> b ∈ (rows_ t).*2)
    /\ columns_after us t t').
Proof using All.
  revert t. induction us as [|[a [col v]] us IH]; intros t Ht Hus HN; cbn [update_all].
  { apply runs_ret. split; [done |]. split; [done |]. intros b h Hb. exists h. auto. }
  apply Forall_cons_iff in Hus as [Hu Hus]. rewrite fmap_cons in HN. apply list.NoDup_cons in HN as [Hnew HN].
  pose proof Hu as (Hv & Hw & (h & Ha & Hi)). cbn in Hv, Hw, Ha. rewrite Ha. cbn [mbind option_bind]. rewrite Hi.
  cbn [verify mbind option_bind]. eapply runs_bind; [apply (update_cell a col v t Ht Hv Hw) |].
  intros t1 Ht1. pose proof Ht1 as (T1 & R1 & _ & C1).
  eapply runs_mono; [apply (IH t1 T1); [|done] |].
  { eapply Forall_weaken; [exact Hus |]. intros e. now apply (update_ok_after a col v t). }
  intros t' (T' & R' & C'). split; [done |]. split; [intros b; now rewrite R', R1 |].
  intros b hb Hb. destruct (C1 b hb Hb) as (h1 & Hh1 & I1 & _ & G1). destruct (C' b h1 Hh1) as (h' & Hh' & I' & G').
  exists h'. split; [done |]. split; [congruence |]. intros j c Hc. rewrite (G' j c Hc), (G1 j c Hc).
  cbn [staged]. unfold is_update. cbn [fst snd].
  destruct (Z.eqb_spec a b) as [->|_], (Z.eqb_spec col (Z.of_nat j)) as [->|_]; cbn [andb]; try done.
  now rewrite (proj2 (staged_cell b (Z.of_nat j) us) Hnew).
Qed.

(** Insertions and removals change only where the rows are. *)
Definition moved (xs : list Z) (on : bool) (t t' : table) : Prop :=
  forall b h, heap t !! b = Some h -> heap t' !! b = Some (if decide (b ∈ xs) then marked on h else h).

Lemma moved_cons a xs on h t t1 t' :
  heap t !! a = Some h -> heap t1 = <[a := marked on h]> (heap t) -> moved xs on t1 t' -> moved (a :: xs) on t t'.
Proof using All.
  intros Ha E H b hb Hb. destruct (decide (b = a)) as [->|Hne].
  - assert (hb = h) as -> by congruence. rewrite (H a (marked on h)) by (rewrite E; apply lookup_insert_eq).
    rewrite (decide_True (P := a ∈ a :: xs)) by set_solver. now destruct (decide (a ∈ xs)).
  - rewrite (H b hb) by (rewrite E; now rewrite lookup_insert_ne). f_equal.
    destruct (decide (b ∈ xs)), (decide (b ∈ a :: xs)) as [Hb'|Hb']; set_solver.
Qed.

Lemma member_other a h b on t t1 :
  heap t1 = <[a := h]> (heap t) -> a <> b -> member t b on -> member t1 b on.
Proof using Type. intros E Hne (hb & Hb & Hi). exists hb. split; [|done]. rewrite E. now rewrite lookup_insert_ne. Qed.

Lemma insert_all_spec xs t :
  tbl_ok t -> Forall (fun a => member t a false) xs -> NoDup xs ->
  runs (insert_all s xs t) (fun t' => tbl_ok t' /\ moved xs true t t'
    /\ forall b, b ∈ (rows_ t').*2 <-> b ∈ (rows_ t).*2 \/ b ∈ xs).
Proof using All.
  revert t. induction xs as [|a xs IH]; intros t [Ht Hat] Hxs HN; cbn [insert_all].
  { apply runs_ret. split; [done |]. split; [|set_solver]. intros b h Hb.
    rewrite decide_False by set_solver. done. }
  apply Forall_cons_iff in Hxs as [(h & Ha & Hi) Hxs]. apply list.NoDup_cons in HN as [Hnew HN].
  eapply runs_bind; [apply (table_insert_spec s Hs Hts a h t Ht Ha Hi) |]. intros t1 (T1 & H1 & C1).
  assert (R1 : forall b, b ∈ (rows_ t1).*2 <-> b = a \/ b ∈ (rows_ t).*2).
  { intros b. rewrite (rows_contents t1), C1, (@mm_insert_perm _ (table_order s)), fmap_cons, elem_of_cons.
    now rewrite (rows_contents t). }
  eapply runs_mono; [apply (IH t1); [|clear IH|done] |].
  - split; [done |]. intros b hb Hb Hib. rewrite R1. rewrite H1 in Hb. destruct (decide (b = a)); [auto |].
    rewrite lookup_insert_ne in Hb by done. eauto.
  - rewrite Forall_forall in Hxs |- *. intros b Hb. eapply member_other; [exact H1 | | auto]. congruence.
  - intros t' (T' & M' & R'). split; [done |]. split; [now apply (moved_cons a xs true h t t1) |].
    intros b. rewrite R', R1. set_solver.
Qed.

Lemma remove_all_spec xs t :
  tbl_ok t -> Forall (fun a => member t a true) xs -> NoDup xs ->
  runs (remove_all s xs t) (fun t' => tbl_ok t' /\ moved xs false t t'
    /\ forall b, b ∈ (rows_ t').*2 <-> b ∈ (rows_ t).*2 /\ b ∉ xs).
Proof using All.
  revert t. induction xs as [|a xs IH]; intros t [Ht Hat] Hxs HN; cbn [remove_all].
  { apply runs_ret. split; [done |]. split; [|set_solver]. intros b h Hb.
    rewrite decide_False by set_solver. done. }
  apply Forall_cons_iff in Hxs as [(h & Ha & Hi) Hxs]. apply list.NoDup_cons in HN as [Hnew HN].
  eapply runs_bind; [apply (remove_row_spec s Hs Hts a h t Ht Ha); eauto |]. intros t1 (T1 & H1 & C1).
  assert (R1 : forall b, b ∈ (rows_ t1).*2 <-> b ∈ (rows_ t).*2 /\ b <> a).
  { intros b. rewrite (rows_contents t1), C1, (rows_contents t). split.
    - intros (e & -> & He)%list_elem_of_fmap. apply list_elem_of_In, filter_In in He as [He Hne].
      unfold is_not in Hne. apply negb_true_iff, Z.eqb_neq in Hne. split; [|done].
      now apply list_elem_of_fmap_2, list_elem_of_In.
    - intros [(e & -> & He)%list_elem_of_fmap Hne]. apply list_elem_of_fmap_2, list_elem_of_In, filter_In.
      split; [now apply list_elem_of_In |]. unfold is_not. now apply negb_true_iff, Z.eqb_neq. }
  eapply runs_mono; [apply (IH t1); [|clear IH|done] |].
  - split; [done |]. intros b hb Hb Hib. rewrite R1. rewrite H1 in Hb. destruct (decide (b = a)) as [->|Hne].
    + rewrite lookup_insert_eq in Hb. injection Hb as <-. done.
    + rewrite lookup_insert_ne in Hb by done. eauto.
  - rewrite Forall_forall in Hxs |- *. intros b Hb. eapply member_other; [exact H1 | | auto]. congruence.
  - intros t' (T' & M' & R'). split; [done |]. split; [now apply (moved_cons a xs false h t t1) |].
    intros b. rewrite R', R1. set_solver.
Qed.


(** ** What a transaction sees *)
Definition sees (t : table) (x : txn) (a col : Z) : option value := fst <$> read_column s a col t x.

Lemma sees_spec t x a col h :
  active x = true -> heap t !! a = Some h ->
  sees t x a col =
  match (if in_table h then staged a col (updates_ x) else None) with
  | Some v => Some v
  | None => get_column s col (h_row h)
  end.
Proof using Type.
  intros Hx Ha. unfold sees, read_column. rewrite Hx, Ha. cbn [verify mbind option_bind].
  destruct (in_table h); cbn [negb].
  - destruct (staged a col (updates_ x)); [done |]. now destruct (get_column s col (h_row h)).
  - now destruct (get_column s col (h_row h)).
Qed.

Lemma sees_same t x x' a col :
  outcome_ x' = outcome_ x -> updates_ x' = updates_ x -> sees t x' a col = sees t x a col.
Proof using Type.
  intros E1 E2. unfold sees, read_column, active. rewrite E1, E2. destruct (outcome_ x); [|done..].
  cbn [verify mbind option_bind]. destruct (heap t !! a) as [h|]; [|done]. cbn [mbind option_bind].
  destruct (in_table h); cbn [negb]; destruct (get_column s col (h_row h)), (staged a col (updates_ x)); done.
Qed.

Lemma member_unique t a on on' : member t a on -> member t a on' -> on = on'.
Proof using Type. intros (h & Hh & <-) (h' & Hh' & <-). congruence. Qed.

Lemma update_ok_moved xs t t' e :
  moved xs true t t' -> (forall a, a ∈ xs -> member t a false) -> update_ok t e -> update_ok t' e.
Proof using Type.
  intros Hm Hxs (Hv & (h & Hh & Hro) & Hmem). assert (Hout : e.1 ∉ xs).
  { intros Hin. pose proof (member_unique _ _ _ _ Hmem (Hxs _ Hin)). done. }
  destruct Hmem as (h' & Hh' & Hi). assert (h' = h) as -> by congruence.
  specialize (Hm _ _ Hh). rewrite decide_False in Hm by done. split; [done |]. split; exists h; auto.
Qed.

Definition committed (t : table) (x : txn) (r : table * txn) : Prop :=
  tbl_ok r.1 /\ outcome_ r.2 = TXN_COMMIT
  /\ (forall b, b ∈ (rows_ r.1).*2 <-> (b ∈ (rows_ t).*2 \/ b ∈ inserts_ x) /\ b ∉ removes_ x)
  /\ forall b h j c, heap t !! b = Some h -> col_info_ s !! j = Some c ->
       exists h', heap r.1 !! b = Some h' /\ get_column s (Z.of_nat j) (h_row h') = sees t x b (Z.of_nat j).

Lemma commit_spec iter t x :
  (forall l, iter l ≡ₚ l) -> txn_ok t x -> runs (commit s iter t x) (committed t x).
Proof using All.
  intros Hiter (Hx & Ht & Hu & HNu & Hi & HNi & Hr & HNr & _). unfold commit. rewrite Hx. cbn [verify mbind option_bind].
  rewrite Forall_forall in Hi. rewrite Forall_forall in Hu. rewrite Forall_forall in Hr.
  eapply runs_bind; [apply (insert_all_spec (inserts_ x) t Ht); [now apply Forall_forall | done] |].
  intros t1 (T1 & M1 & R1). eapply runs_bind; [apply (update_all_spec (updates_ x) t1 T1); [|done] |].
  { apply Forall_forall. intros e He. apply (update_ok_moved (inserts_ x) t); auto. }
  intros t2 (T2 & R2 & C2). eapply runs_bind.
  { apply (remove_all_spec (iter (removes_ x)) t2 T2); [|now rewrite Hiter]. apply Forall_forall. intros a Ha.
    rewrite Hiter in Ha. pose proof (Hr a Ha) as Hm. destruct Hm as (h & Hh & Hin). pose proof (M1 a h Hh) as H1.
    rewrite decide_False in H1. 2:{ intros Hins. now pose proof (member_unique _ _ _ _ (Hr a Ha) (Hi a Hins)). }
    destruct (C2 a h H1) as (h2 & Hh2 & Hin2 & _). exists h2. split; [done | congruence]. }
  intros t3 (T3 & M3 & R3). apply runs_ret. split; [done |]. split; [done |]. cbn [fst snd]. split.
  - intros b. rewrite R3, R2, R1, Hiter. done.
  - intros b h j c Hb Hc. pose proof (M1 b h Hb) as H1. destruct (C2 b _ H1) as (h2 & Hh2 & Hin2 & G2).
    pose proof (M3 b h2 Hh2) as H3. eexists. split; [exact H3 |].
    transitivity (get_column s (Z.of_nat j) (h_row h2)); [now destruct (decide (b ∈ iter (removes_ x))) |].
    rewrite (G2 j c Hc), (sees_spec t x b (Z.of_nat j) h Hx Hb).
    assert (Er : h_row (if decide (b ∈ inserts_ x) then marked true h else h) = h_row h)
      by now destruct (decide (b ∈ inserts_ x)).
    rewrite Er. destruct (in_table h) eqn:Ein; [done |].
    destruct (staged b (Z.of_nat j) (updates_ x)) as [v|] eqn:Es; [|done].
    apply staged_spec in Es. destruct (Hu _ Es) as (_ & _ & Hm). cbn in Hm.
    assert (Hm' : member t b false) by (exists h; auto). now pose proof (member_unique _ _ _ _ Hm Hm').
Qed.

(** ** The operations *)
Definition wrote (a col : Z) (v : value) (t : table) (x : txn) (r : table * txn) : Prop :=
  txn_ok r.1 r.2 /\ forall b h j c, heap t !! b = Some h -> col_info_ s !! j = Some c ->
    sees r.1 r.2 b (Z.of_nat j) = if (a =? b) && (col =? Z.of_nat j) then Some v else sees t x b (Z.of_nat j).

Lemma txn_ok_updates t x l :
  txn_ok t x -> Forall (update_ok t) l -> NoDup (cell <$> l) -> txn_ok t (with_updates l x).
Proof using Type. intros (H1 & H2 & _ & _ & H3) Hl HN. unfold txn_ok. cbn. auto. Qed.

Lemma sees_staged t x a col v l :
  active x = true -> (forall b j, staged b j l = if (a =? b) && (col =? j) then Some v else staged b j (updates_ x)) ->
  member t a true ->
  forall b h j, heap t !! b = Some h ->
    sees t (with_updates l x) b j = if (a =? b) && (col =? j) then Some v else sees t x b j.
Proof using Type.
  intros Hx Hl (ha & Ha & Hi) b h j Hb. rewrite (sees_spec t x b j h Hx Hb), (sees_spec t (with_updates l x) b j h Hx Hb).
  cbn [updates_ with_updates]. rewrite Hl. destruct (Z.eqb_spec a b) as [<-|Hne]; cbn [andb]; [|done].
  assert (h = ha) as -> by congruence. rewrite Hi. now destruct (col =? j).
Qed.

Lemma restage_ok t a col v l :
  update_ok t (a, (col, v)) -> Forall (update_ok t) l -> Forall (update_ok t) (restage a col v l).
Proof using Type.
  intros Hv. induction 1 as [|e l He Hl IH]; cbn [restage]; [constructor |].
  destruct (is_update a col e); constructor; auto.
Qed.

(** A write to a row that is in no table changes the row at once. *)
Lemma write_private a col v t x t' :
  txn_ok t x -> member t a false -> (a ∈ inserts_ x -> col ∉ key_cols_id_ s) ->
  cell_updated a col v t t' -> wrote a col v t x (t', x).
Proof using Type.
  intros (Hx & Ht & Hu & HNu & Hi & HNi & Hr & HNr & Hsort) Hma Hkey Hc. pose proof Hc as (T' & _ & K' & C').
  assert (Hmem : forall b on, member t b on -> member t' b on).
  { intros b on (h & Hh & <-). destruct (C' b h Hh) as (h' & Hh' & Hin & _). exists h'. auto. }
  split; [cbn [fst snd]; repeat (split; [assumption |]) |].
  - split; [eapply Forall_weaken; [exact Hu | intros e; now apply (update_ok_after a col v t)] |].
    split; [done |]. split; [eapply Forall_weaken; [exact Hi | auto] |]. split; [done |].
    split; [eapply Forall_weaken; [exact Hr | auto] |]. split; [done |].
    replace (keyed t' (inserts_ x)) with (keyed t (inserts_ x)); [done |].
    apply list_fmap_ext. intros i b Hb. f_equal. symmetry. apply K'. destruct (decide (b = a)) as [->|]; [|auto].
    right. apply Hkey. now apply list_elem_of_lookup_2 in Hb.
  - intros b h j c Hb Hj. cbn [fst snd]. destruct (C' b h Hb) as (h' & Hh' & Hin & _ & G).
    rewrite (sees_spec t x b _ h Hx Hb), (sees_spec t' x b _ h' Hx Hh'), Hin, (G j c Hj).
    destruct (Z.eqb_spec a b) as [<-|Hne]; cbn [andb]; [|done].
    destruct Hma as (ha & Ha & Hf). assert (h = ha) as -> by congruence. now rewrite Hf.
Qed.

Lemma write_column_spec a col v t x :
  txn_ok t x -> value_for col v -> writable t a -> (a ∈ inserts_ x -> col ∉ key_cols_id_ s) ->
  runs (write_column s a col v t x) (wrote a col v t x).
Proof using All.
  intros Hok Hv Hw Hkey. pose proof Hok as (Hx & Ht & Hu & HNu & _). unfold write_column. rewrite Hx.
  pose proof Hw as (h & Ha & Hro). rewrite Ha. cbn [verify mbind option_bind]. destruct (in_table h) eqn:Ein; cbn [negb].
  - assert (Hm : member t a true) by (exists h; auto). assert (Hue : update_ok t (a, (col, v))) by (split; auto).
    destruct (staged a col (updates_ x)) as [v0|] eqn:Es; apply runs_ret; (split; cbn [fst snd];
      [apply txn_ok_updates; [done | |] | intros b hb j c Hb _; apply (sees_staged t x a col v _ Hx) with (h := hb); auto;
         intros b' j']).
    + now apply restage_ok.
    + now rewrite cell_restage.
    + apply staged_restage. eauto.
    + apply Forall_forall. intros e He. rewrite (@mm_insert_perm _ address_order) in He. apply elem_of_cons in He as [->|He]; [done |].
      rewrite Forall_forall in Hu. auto.
    + rewrite (@mm_insert_perm _ address_order), fmap_cons. apply list.NoDup_cons. split; [|done]. now apply staged_cell.
    + now apply staged_insert.
  - eapply runs_bind; [apply (update_cell a col v t Ht Hv Hw) |]. intros t' Hc. apply runs_ret.
    apply write_private; auto. exists h. auto.
Qed.


Lemma load_rows t l on :
  rows_ok s t -> Forall (fun a => member t a on) l -> mapM (load_row s t) l = Some (keyed t l).
Proof using Hs.
  intros HR. induction 1 as [|a l (h & Ha & _) Hl IH]; [done |].
  destruct (key_blobs_spec s Hs a (h_row h) (HR a h Ha)) as (_ & _ & _ & _ & Hk).
  change (keyed t (a :: l)) with ((key_at s t a, a) :: keyed t l). cbn [mapM]. rewrite IH.
  assert (E : load_row s t a = Some (key_at s t a, a)).
  { unfold load_row, key_at. rewrite Ha. cbn [mbind option_bind]. now rewrite Hk. }
  now rewrite E.
Qed.

Lemma keyed_snd t l : (keyed t l).*2 = l.
Proof using Type. unfold keyed. rewrite <- list_fmap_compose. apply list_fmap_id. Qed.

Lemma keyed_of t (l : list (list (list Z) * Z)) :
  (forall e, e ∈ l -> e.1 = key_at s t e.2) -> keyed t l.*2 = l.
Proof using Type.
  intros H. unfold keyed. rewrite <- list_fmap_compose. apply fmap_id_Forall, Forall_forall. intros [k a] He.
  specialize (H _ He). cbn in *. now subst k.
Qed.

Lemma elem_keyed t l e : e ∈ keyed t l -> e.1 = key_at s t e.2 /\ e.2 ∈ l.
Proof using Type. intros (a & -> & Ha)%list_elem_of_fmap. done. Qed.

Lemma insert_row_spec a t x :
  txn_ok t x -> member t a false -> a ∉ inserts_ x ->
  runs (insert_row s a t x) (fun x' => txn_ok t x' /\ inserts_ x' ≡ₚ a :: inserts_ x
    /\ removes_ x' = removes_ x /\ forall b col, sees t x' b col = sees t x b col).
Proof using All.
  intros (Hx & Ht & Hu & HNu & Hi & HNi & Hr & HNr & Hsort) Hm Hnew. pose proof Hm as (h & Ha & Hf).
  unfold insert_row. rewrite Hx, Ha. cbn [verify mbind option_bind]. rewrite Hf. cbn [negb verify mbind option_bind].
  pose proof Ht as [(HR & _) _]. destruct (key_blobs_spec s Hs a (h_row h) (HR a h Ha)) as (_ & _ & _ & _ & Hk).
  rewrite Hk, (load_rows t _ false HR Hi). cbn [mbind option_bind]. apply runs_ret.
  set (l := @mm_insert _ (row_order s) _ _ a _).
  assert (P : l ≡ₚ (key_of s (h_row h), a) :: keyed t (inserts_ x)) by apply mm_insert_perm.
  assert (El : keyed t l.*2 = l).
  { apply keyed_of. intros e He. rewrite P in He. apply elem_of_cons in He as [->|He]; [|now apply elem_keyed in He].
    unfold key_at. cbn. now rewrite Ha. }
  assert (Pi : l.*2 ≡ₚ a :: inserts_ x) by (rewrite P, fmap_cons, keyed_snd; done).
  assert (Er : List.filter (fun b => negb (b =? a)) (removes_ x) = removes_ x).
  { apply filter_all, Forall_forall. intros b Hb. apply negb_true_iff, Z.eqb_neq. intros ->.
    rewrite Forall_forall in Hr. now pose proof (member_unique _ _ _ _ (Hr _ Hb) Hm). }
  rewrite Er. split; [|split; [done |]; split; [done |]].
  - split; [done |]. split; [done |]. split; [done |]. split; [done |]. cbn [inserts_ removes_ with_rows].
    split; [rewrite Pi; now constructor |]. split; [rewrite Pi; now apply list.NoDup_cons |]. split; [done |].
    split; [done |]. rewrite El. unfold l. apply (mm_insert_sorted (H0 := smk_laws s Hts)). exact Hsort.
  - intros b col. now apply sees_same.
Qed.

(** The position of a staged row. *)
Lemma find_address_spec a l :
  match find_address a l with Some i => l !! i = Some a | None => a ∉ l end.
Proof using Type.
  induction l as [|b l IH]; cbn [find_address]; [apply not_elem_of_nil |].
  destruct (Z.eqb_spec b a) as [->|Hne]; [done |]. destruct (find_address a l) as [i|]; cbn; [done |].
  apply not_elem_of_cons. split; congruence.
Qed.

Definition dropped (a : Z) (t : table) (x x' : txn) : Prop :=
  inserts_ x' = List.filter (fun b => negb (b =? a)) (inserts_ x)
  /\ (a ∈ inserts_ x -> removes_ x' = removes_ x)
  /\ (a ∉ inserts_ x -> forall b, b ∈ removes_ x' <-> b = a \/ b ∈ removes_ x).

Lemma filter_address {A} (a : Z) (l : list (A * Z)) :
  (List.filter (is_not a) l).*2 = List.filter (fun b => negb (b =? a)) l.*2.
Proof using Type. rewrite filter_fmap. reflexivity. Qed.

Lemma drop_staged a t x h :
  txn_ok t x -> heap t !! a = Some h ->
  let k := key_of s (h_row h) in
  let l := keyed t (inserts_ x) in
  let lo := @lower_bound _ (row_order s) _ k l in
  match find_address a (segment lo (@upper_bound _ (row_order s) _ k l) l).*2 with
  | Some i => a ∈ inserts_ x /\ delete (lo + i)%nat (inserts_ x) = List.filter (fun b => negb (b =? a)) (inserts_ x)
  | None => a ∉ inserts_ x
  end.
Proof using All.
  intros (Hx & Ht & Hu & HNu & Hi & HNi & Hr & HNr & Hsort) Ha k l lo.
  pose proof (find_address_spec a (segment lo (@upper_bound _ (row_order s) _ k l) l).*2) as Hf.
  destruct (find_address a _) as [i|].
  - rewrite list_lookup_fmap in Hf. destruct (segment lo _ l !! i) as [[k' a']|] eqn:E; [|done]. injection Hf as ->.
    apply segment_lookup in E.
    assert (HNl : NoDup l.*2) by (unfold l; now rewrite keyed_snd).
    split; [rewrite <- (keyed_snd t); apply (list_elem_of_fmap_2 snd _ (k', a)); eapply list_elem_of_lookup_2, E |].
    rewrite <- (keyed_snd t (inserts_ x)). fold l. rewrite <- filter_address.
    rewrite <- (delete_unique a l (lo + i) (k', a) HNl E eq_refl). symmetry. apply list_fmap_delete.
  - intros Hin. apply Hf. apply list_elem_of_fmap. exists (key_at s t a, a). split; [done |].
    change (segment _ _ l) with (@equal_range _ (row_order s) _ k l).
    rewrite (equal_range_filter (H0 := smk_laws s Hts)) by exact Hsort. apply list_elem_of_In, filter_In. split.
    + apply list_elem_of_In, list_elem_of_fmap. eauto.
    + cbn. unfold k, key_at. rewrite Ha. apply (keq_refl (H0 := smk_laws s Hts)).
Qed.


Lemma staged_drop a l b col : b <> a -> staged b col (List.filter (fun e => negb (e.1 =? a)) l) = staged b col l.
Proof using Type.
  intros Hne. induction l as [|e l IH]; [done |]. cbn [List.filter staged].
  destruct (Z.eqb_spec e.1 a) as [E|_]; cbn [negb staged]; rewrite IH; [|done].
  unfold is_update. destruct (Z.eqb_spec e.1 b); [congruence | done].
Qed.

Lemma filter_keyed t a l : keyed t (List.filter (fun b => negb (b =? a)) l) = List.filter (is_not a) (keyed t l).
Proof using Type. unfold keyed. rewrite filter_fmap. reflexivity. Qed.

Lemma txn_ok_drop a t x x' :
  txn_ok t x -> dropped a t x x' -> (a ∉ inserts_ x -> member t a true) -> NoDup (removes_ x') ->
  outcome_ x' = outcome_ x -> updates_ x' = updates_ x ->
  txn_ok t (with_updates (List.filter (fun e => negb (e.1 =? a)) (updates_ x')) x').
Proof using Type.
  intros (Hx & Ht & Hu & HNu & Hi & HNi & Hr & HNr & Hsort) (D1 & D2 & D3) Hm HN' Eo Eu. unfold txn_ok, active.
  cbn [outcome_ updates_ inserts_ removes_ with_updates]. rewrite Eo, Eu, D1.
  split; [exact Hx |]. split; [done |]. split; [now apply Forall_filter |].
  split; [eapply sublist_NoDup; [exact HNu | apply fmap_sublist, bfilter_sublist] |].
  split; [now apply Forall_filter |]. split; [eapply sublist_NoDup; [exact HNi | apply bfilter_sublist] |].
  split; [|split; [done |]].
  - destruct (decide (a ∈ inserts_ x)) as [Hin|Hout]; [now rewrite (D2 Hin) |].
    rewrite Forall_forall in Hr |- *. intros b [->|Hb]%D3; auto.
  - rewrite filter_keyed. eapply mm_sorted_sub; [apply bfilter_sublist | exact Hsort].
Qed.

Lemma remove_row_txn_spec a t x h :
  txn_ok t x -> heap t !! a = Some h -> (a ∉ inserts_ x -> member t a true) ->
  runs (remove_row s a t x) (fun x' => txn_ok t x' /\ dropped a t x x'
    /\ forall b col, b <> a -> sees t x' b col = sees t x b col).
Proof using All.
  intros Hok Ha Hm. pose proof Hok as (Hx & Ht & Hu & HNu & Hi & HNi & Hr & HNr & Hsort). unfold remove_row. rewrite Hx, Ha.
  pose proof Ht as [(HR & _) _]. destruct (key_blobs_spec s Hs a (h_row h) (HR a h Ha)) as (_ & _ & _ & _ & Hk).
  cbn [verify mbind option_bind]. rewrite Hk, (load_rows t _ false HR Hi). cbn [mbind option_bind]. apply runs_ret.
  pose proof (drop_staged a t x h Hok Ha) as Hd. cbv zeta in Hd.
  set (x1 := match find_address a _ with None => _ | Some _ => _ end).
  assert (D : dropped a t x x1 /\ NoDup (removes_ x1) /\ outcome_ x1 = outcome_ x /\ updates_ x1 = updates_ x).
  { unfold x1. destruct (find_address a _) as [i|].
    - destruct Hd as [Hin Hdel]. split; [|done]. split; [exact Hdel |]. split; [done | tauto].
    - assert (Hf : List.filter (fun b => negb (b =? a)) (inserts_ x) = inserts_ x).
      { apply filter_all, Forall_forall. intros b Hb. apply negb_true_iff, Z.eqb_neq. congruence. }
      destruct (decide (a ∈ removes_ x)) as [Hin|Hout]; (split; [split; [now rewrite Hf |]; split; [tauto |] |]).
      + intros _ b. cbn. split; [auto | intros [->|]; auto].
      + done.
      + intros _ b. cbn. apply elem_of_cons.
      + cbn. split; [now apply list.NoDup_cons | done]. }
  destruct D as (D & HN' & Eo & Eu). split; [now apply (txn_ok_drop a t x x1) |]. split; [exact D |].
  intros b col Hb. unfold sees, read_column, active. cbn [outcome_ updates_ with_updates]. rewrite Eo, Eu.
  destruct (outcome_ x); [|done..]. cbn [verify mbind option_bind]. destruct (heap t !! b) as [hb|]; [|done].
  cbn [mbind option_bind]. rewrite (staged_drop a _ b col Hb).
  destruct (in_table hb); cbn [negb]; destruct (get_column s col (h_row hb)), (staged b col (updates_ x)); done.
Qed.

End Theory.

(** ** The properties *)

(** A transaction reads its own writes: after a write of a column the
    transaction sees the value in that column and what it saw before in every
    other; the table itself changes only for a row that is in no table. *)
Theorem txn_reads_own_writes s a col v t x :
  schema_ok s -> Forall (fun k => orderable k = true) (key_types s) -> txn_ok s t x ->
  value_for s col v -> writable t a -> (a ∈ inserts_ x -> col ∉ key_cols_id_ s) ->
  runs (write_column s a col v t x) (wrote s a col v t x).
Proof. intros. now apply write_column_spec. Qed.

(** Insertions and removals are staged: an inserted row joins the staged rows,
    a removed row leaves them or is marked for removal, the transaction stays
    well formed and sees the other rows as before. *)
Theorem txn_stages_rows s a h t x :
  schema_ok s -> Forall (fun k => orderable k = true) (key_types s) -> txn_ok s t x -> heap t !! a = Some h ->
  (in_table h = false -> a ∉ inserts_ x ->
   runs (insert_row s a t x) (fun x' => txn_ok s t x' /\ inserts_ x' ≡ₚ a :: inserts_ x
     /\ removes_ x' = removes_ x /\ forall b col, sees s t x' b col = sees s t x b col))
  /\ (in_table h = true \/ a ∈ inserts_ x ->
      runs (remove_row s a t x) (fun x' => txn_ok s t x' /\ dropped a t x x'
        /\ forall b col, b <> a -> sees s t x' b col = sees s t x b col)).
Proof.
  intros Hs Hts Hok Ha. split.
  - intros Hf Hn. apply insert_row_spec; auto. exists h. auto.
  - intros Hm. apply (remove_row_txn_spec s Hs Hts a t x h); auto. intros Hn. exists h. split; [done |]. tauto.
Qed.

(** C26. Commit installs exactly what the transaction saw: in the table afterwards
    are the rows of before and the inserted ones without the removed ones, every
    column of every row has the value the transaction saw in it, and the table is
    well formed, whatever the order in which the removals are made.  The
    transactions are those of [txn_ok], which excludes staged writes to an unindexed
    string column of a table with a string key: they can free a key in use. *)
Theorem commit_installs_all s iter t x :
  schema_ok s -> Forall (fun k => orderable k = true) (key_types s) -> (forall l, iter l ≡ₚ l) ->
  txn_ok s t x -> runs (commit s iter t x) (committed s t x).
Proof. intros. now apply commit_spec. Qed.

(** *** Witnesses on the table of users *)
Lemma no_update_ok t : tbl_ok user_schema t -> txn_ok user_schema t start.
Proof. intros Ht. split; [done |]. split; [done |]. repeat split; constructor. Qed.

Lemma users_tbl_ok : tbl_ok user_schema users.
Proof.
  split; [exact users_ok |]. intros a h Ha _.
  assert (E : heap users = <[2 := marked true ann]> (<[1 := marked true bob]> (heap no_users))) by (vm_compute; reflexivity).
  rewrite E in Ha. apply lookup_insert_Some in Ha as [[<- _]|[_ Ha]]; [vm_compute; repeat constructor |].
  apply lookup_insert_Some in Ha as [[<- _]|[_ Ha]]; [vm_compute; repeat constructor |].
  change (heap no_users) with (<[1 := bob]> (<[2 := ann]> (∅ : gmap Z hrow))) in Ha.
  apply lookup_insert_Some in Ha as [[<- _]|[_ Ha]]; [vm_compute; repeat constructor |].
  apply lookup_insert_Some in Ha as [[<- _]|[_ Ha]]; [vm_compute; repeat constructor | done].
Qed.

Lemma age_value v : - 2 ^ 31 <= v < 2 ^ 31 -> value_for user_schema 1 (VI32 v).
Proof.
  intros Hv. exists 1%nat, {| col_id := 1; name := "age"%string; type := I32; indexed := false; place := 0 |}.
  split; [reflexivity |]. split; [vm_compute; reflexivity |]. split; [reflexivity |].
  split; [cbn; lia | right; left; discriminate].
Qed.

Definition older : txn := {| outcome_ := NONE; reads_ := []; updates_ := [(1, (1, VI32 31))]; inserts_ := []; removes_ := [2] |}.

Lemma older_ok : txn_ok user_schema users older.
Proof.
  split; [done |]. split; [exact users_tbl_ok |]. split; [|split; [|split; [constructor |]; split; [constructor |]; split;
    [|split; [|constructor]]]].
  - constructor; [|constructor]. split; [apply age_value; lia |].
    split; exists (marked true bob); (split; [vm_compute; reflexivity | reflexivity]).
  - apply NoDup_singleton.
  - constructor; [|constructor]. exists (marked true ann). split; [vm_compute; reflexivity | reflexivity].
  - apply NoDup_singleton.
Qed.

Lemma txn_reads_own_writes_witness :
  runs (write_column user_schema 1 1 (VI32 31) users start) (fun r =>
    sees user_schema r.1 r.2 1 1 = Some (VI32 31) /\ sees user_schema r.1 r.2 2 1 = Some (VI32 30)).
Proof.
  eapply runs_mono.
  - apply (txn_reads_own_writes user_schema 1 1 (VI32 31) users start user_schema_ok user_keys_orderable);
      [exact (no_update_ok users users_tbl_ok) | apply age_value; lia | | intros H; now apply elem_of_nil in H].
    exists (marked true bob). split; [vm_compute; reflexivity | reflexivity].
  - intros r [_ H]. split.
    + exact (H 1 (marked true bob) 1%nat _ ltac:(vm_compute; reflexivity) eq_refl).
    + etransitivity; [exact (H 2 (marked true ann) 1%nat _ ltac:(vm_compute; reflexivity) eq_refl) |]. vm_compute. reflexivity.
Defined.

Lemma txn_stages_rows_witness :
  runs (insert_row user_schema 2 no_users start) (fun x => inserts_ x ≡ₚ [2])
  /\ runs (remove_row user_schema 1 users start) (fun x => inserts_ x = []).
Proof.
  assert (Ht : tbl_ok user_schema no_users).
  { split; [exact no_users_ok |]. intros a h Ha Hi. exfalso.
    change (heap no_users) with (<[1 := bob]> (<[2 := ann]> (∅ : gmap Z hrow))) in Ha.
    apply lookup_insert_Some in Ha as [[_ <-]|[_ Ha]]; [discriminate Hi |].
    apply lookup_insert_Some in Ha as [[_ <-]|[_ Ha]]; [discriminate Hi | discriminate Ha]. }
  destruct (txn_stages_rows user_schema 2 ann no_users start user_schema_ok user_keys_orderable (no_update_ok _ Ht) eq_refl) as [H1 _].
  destruct (txn_stages_rows user_schema 1 (marked true bob) users start user_schema_ok user_keys_orderable
    (no_update_ok _ users_tbl_ok)) as [_ H2]; [vm_compute; reflexivity |].
  split.
  - eapply runs_mono; [apply H1; [reflexivity | apply not_elem_of_nil] |]. intros x (_ & H & _). exact H.
  - eapply runs_mono; [apply H2; left; reflexivity |]. intros x (_ & (H & _) & _). exact H.
Defined.

Lemma commit_installs_all_witness :
  runs (commit user_schema (fun l => l) users older) (fun r => (forall b, b ∈ (rows_ r.1).*2 -> b ∈ [1; 2]) /\
    exists h, heap r.1 !! 1 = Some h /\ get_column user_schema 1 (h_row h) = Some (VI32 31)).
Proof.
  eapply runs_mono.
  - apply (commit_installs_all user_schema (fun l => l) users older user_schema_ok user_keys_orderable);
      [reflexivity | exact older_ok].
  - intros r (_ & _ & Hrows & Hcol). split.
    + intros b Hb. apply Hrows in Hb as [[Hb|Hb%elem_of_nil] _]; [|done]. vm_compute in Hb. set_solver.
    + destruct (Hcol 1 (marked true bob) 1%nat _ ltac:(vm_compute; reflexivity) eq_refl) as (h & Hh & Hc).
      exists h. split; [exact Hh |]. exact Hc.
Defined.
