(* ===== verification/TxnQuery.v ===== *)
(** * Queries of a transaction

    memdb/txn.h, class [MergedCursor], and the queries of memdb/txn_2pl.cc: a query
    of a transaction enumerates the rows of the table that the transaction has not
    removed together with the rows it has staged.  The merge compares the addresses
    of the rows, not their keys: it returns every row once, but in key order only
    when addresses and keys agree. *)

From Stdlib Require Import ZArith Lia Bool Sorting.Sorted.
From stdpp Require Import base list option numbers strings gmap sets sorting.
From S2P Require Import Prelude PamOrder ALock Multimap Bytes MemSchema MemRow MemKey MemTable Txn2PL.
Local Open Scope Z_scope.

(** ** The merged cursor *)
Record merged := {
  m_cursor : list Z;              (* the rows of the table still to come *)
  m_inserts : list Z;             (* the staged rows still to come *)
  m_removes : list Z;
  cached_next_ : option Z;        (* and whether [cached_] is set *)
  next_candidate_ : option Z }.

Definition MergedCursor (cursor inserts removes : list Z) : merged :=
  {| m_cursor := cursor; m_inserts := inserts; m_removes := removes; cached_next_ := None; next_candidate_ := None |}.

(** The loop over the table's cursor. *)
Fixpoint skip_removed (removes cursor : list Z) : option Z * list Z :=
  match cursor with
  | [] => (None, [])
  | a :: cursor => if decide (a ∈ removes) then skip_removed removes cursor else (Some a, cursor)
  end.

Definition prefetch_next (m : merged) : bool * merged :=
  let '(candidate, cursor) :=
    match next_candidate_ m with
    | Some a => (Some a, m_cursor m)
    | None => skip_removed (m_removes m) (m_cursor m)
    end in
  let state cached ins cand :=
    {| m_cursor := cursor; m_inserts := ins; m_removes := m_removes m; cached_next_ := cached; next_candidate_ := cand |} in
  match candidate, m_inserts m with
  | None, [] => (false, state None [] None)
  | None, b :: ins => (true, state (Some b) ins None)
  | Some a, [] => (true, state (Some a) [] None)
  | Some a, b :: ins => if a <? b then (true, state (Some a) (b :: ins) None) else (true, state (Some b) ins (Some a))
  end.

Definition has_next (m : merged) : bool * merged :=
  match cached_next_ m with Some _ => (true, m) | None => prefetch_next m end.

Definition clear_cached (m : merged) : merged :=
  {| m_cursor := m_cursor m; m_inserts := m_inserts m; m_removes := m_removes m; cached_next_ := None;
     next_candidate_ := next_candidate_ m |}.

Definition next (m : merged) : option (Z * merged) :=
  let '(ok, m) := match cached_next_ m with Some _ => (true, m) | None => prefetch_next m end in
  _ ← verify ok;
  a ← cached_next_ m;
  Some (a, clear_cached m).

(** [while (rs.has_next()) rs.next()] *)
Fixpoint drain (fuel : nat) (m : merged) : option (list Z) :=
  match fuel with
  | O => None
  | S fuel =>
      let '(more, m) := has_next m in
      if (more : bool) then '(a, m) ← next m; l ← drain fuel m; Some (a :: l) else Some []
  end.

(** ** Queries *)
Section Query.
Context (s : schema).

#[local] Instance staged_order : KeyOrder (list (list Z)) := table_order s.

Definition in_order {A} (o : order) (l : list A) : list A := match o with ORD_DESC => rev l | _ => l end.

(** The cursor over the staged rows between two positions. *)
Definition merged_cursor (o : order) (cursor : list Z) (ins : list (list (list Z) * Z)) (x : txn) : merged :=
  MergedCursor cursor (in_order o ins.*2) (removes_ x).

Definition load_inserts (t : table) (x : txn) : option (list (list (list Z) * Z)) :=
  mapM (load_row s t) (inserts_ x).

Definition do_query (k : list (list Z)) (t : table) (x : txn) : option merged :=
  ins ← load_inserts t x;
  cursor ← query s k t;
  Some (merged_cursor ORD_ASC cursor (segment (lower_bound k ins) (upper_bound k ins) ins) x).

Definition do_query_lt (k : list (list Z)) (o : order) (t : table) (x : txn) : option merged :=
  cursor ← query_lt s k o t;
  ins ← load_inserts t x;
  Some (merged_cursor o cursor (take (lower_bound k ins) ins) x).

Definition do_query_gt (k : list (list Z)) (o : order) (t : table) (x : txn) : option merged :=
  cursor ← query_gt s k o t;
  ins ← load_inserts t x;
  Some (merged_cursor o cursor (drop (upper_bound k ins) ins) x).

Definition do_query_in (low high : list (list Z)) (o : order) (t : table) (x : txn) : option merged :=
  cursor ← query_in s low high o t;
  ins ← load_inserts t x;
  Some (merged_cursor o cursor (segment (upper_bound low ins) (lower_bound high ins) ins) x).

Definition do_all (o : order) (t : table) (x : txn) : option merged :=
  ins ← load_inserts t x;
  Some (merged_cursor o (all o t) ins x).
End Query.

(** ** What the cursor enumerates *)
Definition kept (removes cursor : list Z) : list Z := List.filter (fun a => bool_decide (a ∉ removes)) cursor.

Lemma skip_removed_spec removes cursor :
  match skip_removed removes cursor with
  | (None, l) => kept removes cursor = [] /\ l = []
  | (Some a, l) => kept removes cursor = a :: kept removes l
  end.
Proof.
  induction cursor as [|a l IH]; cbn [skip_removed]; [done |]. unfold kept. cbn [List.filter].
  destruct (decide (a ∈ removes)) as [Hin|Hout].
  - rewrite bool_decide_false by tauto. exact IH.
  - now rewrite bool_decide_true.
Qed.

(** The rows of the table that are still to come. *)
Definition pending (m : merged) : list Z :=
  match next_candidate_ m with Some a => [a] | None => [] end ++ kept (m_removes m) (m_cursor m).

(** The reference: the merge of the two lists by address. *)
Definition remaining (m : merged) : list Z :=
  match cached_next_ m with Some a => [a] | None => [] end ++ list_merge Z.lt (pending m) (m_inserts m).

Lemma list_merge_nil_r (l : list Z) : list_merge Z.lt l [] = l.
Proof. now destruct l. Qed.

Lemma merged_prefetch_spec m :
  cached_next_ m = None ->
  let '(ok, m') := prefetch_next m in
  remaining m' = remaining m
  /\ match remaining m with [] => ok = false | a :: _ => ok = true /\ cached_next_ m' = Some a end.
Proof.
  intros Hc. unfold prefetch_next.
  set (p := match next_candidate_ m with Some a => (Some a, m_cursor m) | None => skip_removed (m_removes m) (m_cursor m) end).
  assert (Hp : pending m = match p with (None, _) => [] | (Some a, l) => a :: kept (m_removes m) l end
    /\ (p.1 = None -> p.2 = [])).
  { unfold pending, p. destruct (next_candidate_ m); [done |].
    pose proof (skip_removed_spec (m_removes m) (m_cursor m)) as H.
    destruct (skip_removed _ _) as [[a|] l]; [done |]. destruct H as [H ->]. done. }
  destruct p as [[a|] l], Hp as [Hp Hl]; unfold remaining; rewrite Hc, Hp; cbn [app];
    destruct (m_inserts m) as [|b ins] eqn:Ei; unfold pending; cbn [next_candidate_ m_cursor m_removes m_inserts cached_next_ app].
  - rewrite !list_merge_nil_r. split; [reflexivity | split; reflexivity].
  - rewrite list_merge_cons. destruct (Z.ltb_spec a b) as [H|H]; unfold pending; cbn.
    + destruct (decide (a < b)); [split; [reflexivity | split; reflexivity] | lia].
    + destruct (decide (a < b)); [lia | split; [reflexivity | split; reflexivity]].
  - cbn in Hl. rewrite Hl by done. split; [reflexivity | split; reflexivity].
  - cbn in Hl. rewrite Hl by done. split; [now destruct ins | split; reflexivity].
Qed.

Lemma merged_drain_spec fuel m : (length (remaining m) < fuel)%nat -> drain fuel m = Some (remaining m).
Proof.
  revert m. induction fuel as [|fuel IH]; intros m Hf; [lia |]. cbn [drain].
  assert (Hn : let '(ok, m') := has_next m in remaining m' = remaining m
    /\ match remaining m with [] => ok = false | a :: _ => ok = true /\ cached_next_ m' = Some a end).
  { unfold has_next. destruct (cached_next_ m) as [a|] eqn:E; [|now apply merged_prefetch_spec].
    split; [done |]. unfold remaining. rewrite E. cbn. auto. }
  destruct (has_next m) as [ok m']. destruct Hn as [Hr Hok]. destruct (remaining m) as [|a l] eqn:E; [now subst |].
  destruct Hok as [-> Hc]. unfold next. rewrite Hc. cbn [verify mbind option_bind]. rewrite Hc. cbn [mbind option_bind].
  assert (El : remaining (clear_cached m') = l).
  { unfold remaining in Hr. rewrite Hc in Hr. injection Hr as Hr. exact Hr. }
  rewrite IH, El; [done |]. rewrite El. cbn in Hf. lia.
Qed.

(** ** Completeness *)
Section Theory.
Context (s : schema) (Hs : schema_ok s) (Hts : Forall (fun k => orderable k = true) (key_types s)).

#[local] Hint Extern 0 (KeyOrder (list (list Z))) => exact (table_order s) : typeclass_instances.
#[local] Instance staged_laws : @KeyOrderLaws (list (list Z)) (table_order s) := key_order_laws (key_types s) Hts.

(** The staged rows whose keys satisfy [f]. *)
Definition select_staged (f : list (list Z) -> bool) (t : table) (x : txn) : list Z :=
  (List.filter (fun e => f e.1) (keyed s t (inserts_ x))).*2.

(** The rows a query has to return: the rows of the table that satisfy [f] and are
    not removed, and the staged ones. *)
Definition matching (f : list (list Z) -> bool) (t : table) (x : txn) : list Z :=
  kept (removes_ x) (select s f t) ++ select_staged f t x.

Definition enumerates (f : list (list Z) -> bool) (t : table) (x : txn) (m : merged) : Prop :=
  exists l, l ≡ₚ matching f t x /\ forall fuel, (length l < fuel)%nat -> drain fuel m = Some l.

Lemma in_order_perm {A} o (l : list A) : in_order o l ≡ₚ l.
Proof using Type. destruct o; [done | symmetry; apply Permutation_rev | done]. Qed.

Lemma ordered_perm o l : ordered o l ≡ₚ l.
Proof using Type. destruct o; [done | symmetry; apply Permutation_rev | done]. Qed.

Lemma kept_perm removes l l' : l ≡ₚ l' -> kept removes l ≡ₚ kept removes l'.
Proof using Type.
  induction 1 as [|a l l' _ IH|a b l|l1 l2 l3 _ IH1 _ IH2]; unfold kept in *; cbn [List.filter]; [done | | |].
  - destruct (bool_decide (a ∉ removes)); [now rewrite IH | done].
  - destruct (bool_decide (a ∉ removes)), (bool_decide (b ∉ removes)); try done. apply Permutation_swap.
  - now transitivity (List.filter (fun a => bool_decide (a ∉ removes)) l2).
Qed.

Lemma merged_enumerates f o cursor ins t x :
  cursor ≡ₚ select s f t -> ins = List.filter (fun e => f e.1) (keyed s t (inserts_ x)) ->
  enumerates f t x (merged_cursor o cursor ins x).
Proof using Type.
  intros Hc ->. set (m := merged_cursor _ _ _ _). exists (remaining m). split.
  - unfold remaining, m, merged_cursor, pending. cbn. rewrite (merge_Permutation Z.lt). unfold matching, select_staged.
    rewrite in_order_perm. apply Permutation_app_tail, kept_perm, Hc.
  - intros fuel Hf. now apply merged_drain_spec.
Qed.

Lemma load_inserts_spec t x : txn_ok s t x -> load_inserts s t x = Some (keyed s t (inserts_ x)).
Proof using Hs.
  intros (_ & [(HR & _) _] & _ & _ & Hi & _). unfold load_inserts. now apply (load_rows s Hs t _ false).
Qed.

Lemma do_query_spec k t x :
  txn_ok s t x -> runs (do_query s k t x) (enumerates (fun k' => keq k' k) t x).
Proof using All.
  intros Hok. pose proof Hok as (_ & [Ht _] & _ & _ & _ & _ & _ & _ & Hsort). unfold do_query.
  rewrite (load_inserts_spec t x Hok), (query_spec s Hs Hts k t Ht). cbn [mbind option_bind]. apply runs_ret.
  apply merged_enumerates; [done |]. now apply equal_range_filter.
Qed.

Lemma do_query_lt_spec k o t x :
  txn_ok s t x -> runs (do_query_lt s k o t x) (enumerates (fun k' => comp k' k) t x).
Proof using All.
  intros Hok. pose proof Hok as (_ & [Ht _] & _ & _ & _ & _ & _ & _ & Hsort). unfold do_query_lt.
  rewrite (query_lt_spec s Hs Hts k o t Ht), (load_inserts_spec t x Hok). cbn [mbind option_bind]. apply runs_ret.
  apply merged_enumerates; [apply ordered_perm |]. now apply below_filter.
Qed.

Lemma do_query_gt_spec k o t x :
  txn_ok s t x -> runs (do_query_gt s k o t x) (enumerates (fun k' => comp k k') t x).
Proof using All.
  intros Hok. pose proof Hok as (_ & [Ht _] & _ & _ & _ & _ & _ & _ & Hsort). unfold do_query_gt.
  rewrite (query_gt_spec s Hs Hts k o t Ht), (load_inserts_spec t x Hok). cbn [mbind option_bind]. apply runs_ret.
  apply merged_enumerates; [apply ordered_perm |]. now apply above_filter.
Qed.

Lemma do_query_in_spec low high o t x :
  txn_ok s t x -> comp low high = true ->
  runs (do_query_in s low high o t x) (enumerates (fun k => comp low k && comp k high) t x).
Proof using All.
  intros Hok Hlh. pose proof Hok as (_ & [Ht _] & _ & _ & _ & _ & _ & _ & Hsort). unfold do_query_in.
  rewrite (query_in_spec s Hs Hts low high o t Ht), Hlh, (load_inserts_spec t x Hok). cbn [mbind option_bind].
  apply runs_ret. apply merged_enumerates; [apply ordered_perm |]. now apply between_filter.
Qed.

Lemma do_all_spec o t x : txn_ok s t x -> runs (do_all s o t x) (enumerates (fun _ => true) t x).
Proof using Hs.
  intros Hok. unfold do_all. rewrite (load_inserts_spec t x Hok). cbn [mbind option_bind]. apply runs_ret.
  apply merged_enumerates.
  - rewrite (all_spec s), ordered_perm. unfold select. rewrite filter_all; [done | now apply Forall_true].
  - symmetry. apply filter_all. now apply Forall_true.
Qed.
End Theory.

(** ** The properties *)

(** C27. The queries of a transaction are complete: they enumerate, each once, the
    rows of the table with a matching key that the transaction has not removed and
    the staged rows with a matching key. *)
Theorem txn_queries_complete s t x k low high o :
  schema_ok s -> Forall (fun k => orderable k = true) (key_types s) -> txn_ok s t x ->
  let lt := smk_lt (key_types s) in
  runs (do_query s k t x) (enumerates s (fun k' => negb (lt k' k) && negb (lt k k')) t x)
  /\ runs (do_query_lt s k o t x) (enumerates s (fun k' => lt k' k) t x)
  /\ runs (do_query_gt s k o t x) (enumerates s (fun k' => lt k k') t x)
  /\ (lt low high = true -> runs (do_query_in s low high o t x) (enumerates s (fun k' => lt low k' && lt k' high) t x))
  /\ runs (do_all s o t x) (enumerates s (fun _ => true) t x).
Proof.
  intros Hs Hts Hok lt. split; [now apply do_query_spec |]. split; [now apply do_query_lt_spec |].
  split; [now apply do_query_gt_spec |]. split; [now apply do_query_in_spec | now apply do_all_spec].
Qed.

(** But the order is that of the addresses: with one row in the table and one
    staged row at a greater address but with a smaller key, the ascending
    enumeration returns the staged row last, which is not the order of the keys. *)
Theorem txn_query_unordered s t x a b :
  schema_ok s -> txn_ok s t x -> (rows_ t).*2 = [a] -> inserts_ x = [b] -> removes_ x = [] -> a < b ->
  smk_lt (key_types s) (key_at s t b) (key_at s t a) = true ->
  runs (do_all s ORD_ASC t x) (fun m => drain 3 m = Some [a; b])
  /\ (@mm_sorted _ (table_order s) _ (keyed s t [a; b]) -> False).
Proof.
  intros Hs Hok Hrows Hins Hrem Hab Hkey. split.
  2:{ intros [_ Hle]%StronglySorted_inv. apply Forall_cons_iff in Hle as [Hle _]. unfold mm_le in Hle. cbn [fst] in Hle.
      change (comp (key_at s t b) (key_at s t a)) with (smk_lt (key_types s) (key_at s t b) (key_at s t a)) in Hle. congruence. }
  unfold do_all. rewrite (load_inserts_spec s Hs t x Hok). cbn [mbind option_bind].
  apply runs_ret. unfold merged_cursor, all, cursor. rewrite Hrows, Hins, Hrem. set (m := MergedCursor _ _ _).
  assert (E : remaining m = [a; b]).
  { unfold remaining, pending, m, MergedCursor, kept. cbn -[list_merge]. rewrite bool_decide_true by apply not_elem_of_nil.
    rewrite list_merge_cons. now rewrite decide_True. }
  rewrite <- E. apply merged_drain_spec. rewrite E. cbn. lia.
Qed.

(** *** Witnesses: Bob is in the table, Ann is staged. *)
Definition bob_only : table := default no_users (insert user_schema 1 no_users).
Definition ann_staged : txn :=
  {| outcome_ := NONE; reads_ := []; updates_ := []; inserts_ := [2]; removes_ := [] |}.

Lemma bob_heap : heap bob_only = <[1 := marked true bob]> (heap no_users).
Proof. vm_compute. reflexivity. Qed.

Lemma ann_staged_ok : txn_ok user_schema bob_only ann_staged.
Proof.
  assert (Ht : table_ok user_schema bob_only).
  { destruct (table_insert_spec user_schema user_schema_ok user_keys_orderable 1 bob no_users no_users_ok eq_refl eq_refl)
      as (t1 & E1 & H1 & _). unfold bob_only. now rewrite E1. }
  split; [done |]. split; [|split; [constructor |]; split; [constructor |]; split; [|split; [apply NoDup_singleton |];
    split; [constructor |]; split; [constructor |]; repeat constructor]].
  - split; [exact Ht |]. intros a h Ha Hi. rewrite bob_heap in Ha.
    apply lookup_insert_Some in Ha as [[<- _]|[Hne Ha]]; [vm_compute; repeat constructor |].
    change (heap no_users) with (<[1 := bob]> (<[2 := ann]> (∅ : gmap Z hrow))) in Ha.
    apply lookup_insert_Some in Ha as [[E _]|[_ Ha]]; [now destruct Hne |].
    apply lookup_insert_Some in Ha as [[_ <-]|[_ Ha]]; [discriminate Hi | discriminate Ha].
  - constructor; [|constructor]. exists ann. split; [vm_compute; reflexivity | reflexivity].
Qed.

Lemma txn_queries_complete_witness :
  runs (do_query_lt user_schema [[98]] ORD_ASC bob_only ann_staged) (fun m => drain 3 m = Some [2]).
Proof.
  destruct (txn_queries_complete user_schema bob_only ann_staged [[98]] [[97]] [[98]] ORD_ASC user_schema_ok
    user_keys_orderable ann_staged_ok) as (_ & H & _).
  eapply runs_mono; [exact H |]. intros m (l & Hl & Hd). change (l ≡ₚ [2]) in Hl. apply Permutation_singleton_r in Hl. subst l.
  apply Hd. cbn. lia.
Defined.

Lemma txn_query_unordered_witness :
  runs (do_all user_schema ORD_ASC bob_only ann_staged) (fun m => drain 3 m = Some [1; 2]).
Proof.
  refine (proj1 (txn_query_unordered user_schema bob_only ann_staged 1 2 user_schema_ok ann_staged_ok _ _ _ _ _));
    try reflexivity; vm_compute; reflexivity.
Defined.
