(* ===== verification/DepGraph.v ===== *)
(** * The dependency graph of the transaction protocols

    [rococo::Vertex] and [rococo::Graph] (deptran/rcc/graph.h): transactions by
    identifier, each with the set of the transactions it depends on (its
    parents), a mark for traversals and, once computed, its strongly connected
    component.  A [V*] of the graph is the identifier of the vertex;
    dereferencing the pointer of a vertex that is gone, and a failed [verify],
    are [None].  [parents_] is an ordered set: the list of its elements in
    increasing order.  The members of the class whose bodies are [verify(0)] or
    refer to fields that no longer exist (Aggregate, TraverseDescendant, SortVV,
    QuickSortVV) cannot be called and are not modelled, nor is the marshalling. *)

From Stdlib Require Import ZArith Lia Sorting.Sorted.
From stdpp Require Import base list option gmap sets relations.
From S2P Require Import Prelude ALock.
Local Open Scope Z_scope.

Module DepGraph.

Record Vertex := { parents_ : list Z; walked_ : bool; scc_ : option (list Z) }.

Abbreviation graph := (gmap Z Vertex).

Definition new_vertex : Vertex := {| parents_ := []; walked_ := false; scc_ := None |}.

(** [Vertex(Vertex &v)] copies the parents only. *)
Definition copy_vertex (v : Vertex) : Vertex :=
  {| parents_ := parents_ v; walked_ := false; scc_ := None |}.

(** [parents_.insert(id)] *)
Fixpoint set_put (k : Z) (l : list Z) : list Z :=
  match l with
  | [] => [k]
  | k' :: l' => if k <? k' then k :: l else if k =? k' then l else k' :: set_put k l'
  end.

Definition AddV (id : Z) (v : Vertex) (g : graph) : graph := <[id := v]> g.
Definition FindV (id : Z) (g : graph) : option Vertex := g !! id.
Definition CreateV (id : Z) (g : graph) : graph := AddV id new_vertex g.
Definition CreateV_copy (id : Z) (av : Vertex) (g : graph) : graph := AddV id (copy_vertex av) g.

Definition Remove (id : Z) (g : graph) : option graph :=
  _ ← FindV id g; Some (delete id g).

Definition FindOrCreateV (id : Z) (g : graph) : graph :=
  match FindV id g with None => CreateV id g | Some _ => g end.
Definition FindOrCreateV_copy (id : Z) (av : Vertex) (g : graph) : graph :=
  match FindV id g with None => CreateV_copy id av g | Some _ => g end.

Definition graph_size (g : graph) : Z := Z.of_nat (size g).

Definition AddParentEdge (id rhs : Z) (g : graph) : option graph :=
  v ← g !! id;
  Some (<[id := {| parents_ := set_put rhs (parents_ v); walked_ := walked_ v; scc_ := scc_ v |}]> g).

(** The edges of the graph: [x] depends on [y]. *)
Definition dep (g : graph) (x y : Z) : Prop :=
  exists vx, g !! x = Some vx /\ y ∈ parents_ vx /\ is_Some (g !! y).

(** ** [StrongConnectPred]

    [S] is the stack, its back first; the two maps are keyed by vertex. *)
Record tarjan := { indexes : gmap Z Z; lowlinks : gmap Z Z; index : Z; stack : list Z }.

Definition low (s : tarjan) (v : Z) : Z := default 0 (lowlinks s !! v).
Definition idx (s : tarjan) (v : Z) : Z := default 0 (indexes s !! v).
Definition set_low (v m : Z) (s : tarjan) : tarjan :=
  {| indexes := indexes s; lowlinks := <[v := m]> (lowlinks s); index := index s; stack := stack s |}.

(** [a < b ? a : b] *)
Definition min_of (a b : Z) : Z := if a <? b then a else b.

(** The scan of the stack for [w]. *)
Fixpoint scan (v w : Z) (l : list Z) (s : tarjan) : tarjan :=
  match l with
  | [] => s
  | t :: l =>
      scan v w l (if t =? w then set_low v (min_of (low s v) (idx s w)) s else s)
  end.

(** [do { w = S.back(); S.pop_back(); ret.push_back(w); } while (w != v)] *)
Fixpoint pop_scc (v : Z) (l : list Z) : option (list Z * list Z) :=
  match l with
  | [] => None
  | w :: l =>
      if w =? v then Some ([w], l)
      else '(ret, l) ← pop_scc v l; Some (w :: ret, l)
  end.

Section Strong.
Context (g : graph).

(** The loop over the parents; [rec] is the recursive call. *)
Fixpoint visit_parents (rec : Z -> tarjan -> option (list Z * tarjan)) (v : Z) (ps : list Z)
    (s : tarjan) : option tarjan :=
  match ps with
  | [] => Some s
  | p :: ps =>
      s ← match FindV p g with
          | None => Some s
          | Some w =>
              match scc_ w with
              | Some _ => Some s
              | None =>
                  match indexes s !! p with
                  | None =>
                      '(_, s) ← rec p s; Some (set_low v (min_of (low s v) (low s p)) s)
                  | Some _ => Some (scan v p (rev (stack s)) s)
                  end
              end
          end;
      visit_parents rec v ps s
  end.

Definition enter (v : Z) (s : tarjan) : tarjan :=
  {| indexes := <[v := index s]> (indexes s); lowlinks := <[v := index s]> (lowlinks s);
     index := swrap 32 (index s + 1); stack := v :: stack s |}.

(** Every call enters a vertex that had no index, so that the number of vertices
    bounds the depth. *)
Fixpoint StrongConnectPred (fuel : nat) (v : Z) (s : tarjan) : option (list Z * tarjan) :=
  match fuel with
  | O => None
  | S fuel =>
      vx ← g !! v;
      s ← visit_parents (StrongConnectPred fuel) v (parents_ vx) (enter v s);
      if low s v =? idx s v then
        '(ret, rest) ← pop_scc v (stack s);
        Some (ret, {| indexes := indexes s; lowlinks := lowlinks s; index := index s; stack := rest |})
      else Some ([], s)
  end.

Definition tarjan_init : tarjan := {| indexes := ∅; lowlinks := ∅; index := 0; stack := [] |}.
End Strong.

(** Sets the component of the vertices of [l]. *)
Fixpoint set_scc (l ptr : list Z) (g : graph) : option graph :=
  match l with
  | [] => Some g
  | v :: l =>
      vx ← g !! v;
      _ ← verify (bool_decide (scc_ vx = None));
      set_scc l ptr (<[v := {| parents_ := parents_ vx; walked_ := walked_ vx; scc_ := Some ptr |}]> g)
  end.

Definition FindSccPred (v : Z) (g : graph) : option (list Z * graph) :=
  vx ← g !! v;
  match scc_ vx with
  | Some l => Some (l, g)
  | None =>
      '(ptr, _) ← StrongConnectPred g (size g) v tarjan_init;
      g ← set_scc ptr ptr g;
      Some (ptr, g)
  end.


(** ** [TraversePred] *)

Inductive SearchHint := Exit | Ok | Skip.
#[export] Instance SearchHint_eq : EqDecision SearchHint.
Proof. solve_decision. Defined.

Definition set_walked (b : bool) (v : Vertex) : Vertex :=
  {| parents_ := parents_ v; walked_ := b; scc_ := scc_ v |}.

(** The graph, the vertices walked and the vertices [func] was called on. *)
Record walk := { w_graph : graph; w_walked : list Z; w_called : list Z }.

Definition mark (v : Z) (vx : Vertex) (w : walk) : walk :=
  {| w_graph := <[v := set_walked true vx]> (w_graph w); w_walked := w_walked w ++ [v];
     w_called := w_called w |}.
Definition called (p : Z) (w : walk) : walk :=
  {| w_graph := w_graph w; w_walked := w_walked w; w_called := w_called w ++ [p] |}.

Section Traverse.
Context (func : Z -> SearchHint).

(** The loop over the parents; [rec] is the recursive call. *)
Fixpoint traverse_parents (rec : Z -> Z -> walk -> option (SearchHint * walk)) (depth : Z)
    (ps : list Z) (ret : SearchHint) (w : walk) : option (SearchHint * walk) :=
  match ps with
  | [] => Some (ret, w)
  | p :: ps =>
      match FindV p (w_graph w) with
      | None => traverse_parents rec depth ps ret w
      | Some _ =>
          let w := called p w in
          match func p with
          | Exit => Some (Exit, w)
          | Skip => traverse_parents rec depth ps Skip w
          | Ok =>
              if (depth <? 0) || (0 <? depth) then
                '(ret, w) ← rec p (swrap 64 (depth - 1)) w;
                if bool_decide (ret = Exit) then Some (Exit, w)
                else traverse_parents rec depth ps ret w
              else traverse_parents rec depth ps Ok w
          end
      end
  end.

(** Every call that does not return at once marks a vertex, so that one more than
    the number of vertices bounds the depth. *)
Fixpoint traverse (fuel : nat) (v depth : Z) (w : walk) : option (SearchHint * walk) :=
  match fuel with
  | O => None
  | S fuel =>
      vx ← w_graph w !! v;
      if walked_ vx then Some (Ok, w)
      else traverse_parents (traverse fuel) depth (parents_ vx) Ok (mark v vx w)
  end.

(** The outermost call resets the marks. *)
Definition unmark (g : graph) (v : Z) : graph := alter (set_walked false) v g.

Definition TraversePred (v depth : Z) (g : graph) : option (SearchHint * graph * list Z) :=
  '(ret, w) ← traverse (S (size g)) v depth {| w_graph := g; w_walked := []; w_called := [] |};
  Some (ret, fold_left unmark (w_walked w) (w_graph w), w_called w).
End Traverse.

End DepGraph.
