(* ===== verification/DepScc.v ===== *)
(** * Strongly connected components of the dependency graph

    Correctness of [Graph::StrongConnectPred] and [Graph::FindSccPred]
    (DepGraph.v): the search terminates within the number of vertices, and the
    component it returns is the set of the vertices that reach the vertex and
    are reached from it. *)

From Stdlib Require Import ZArith Lia Sorting.Sorted.
From stdpp Require Import base list option gmap sets relations.
From S2P Require Import Prelude ALock DepGraph.
Local Open Scope Z_scope.

Module DepScc.
Import DepGraph.

Section Tarjan.
Context (g : graph).

(** The edges the search follows: to parents that exist and whose component is
    not known yet. *)
Definition edge (x y : Z) : Prop :=
  exists vx vy, g !! x = Some vx /\ y ∈ parents_ vx /\ g !! y = Some vy /\ scc_ vy = None.
Abbreviation reaches := (rtc edge).

Definition visited (s : tarjan) (x : Z) : Prop := is_Some (indexes s !! x).
Definition deeper (s : tarjan) (a b : Z) : Prop := idx s b < idx s a.

(** The invariant of the search; [G] are the vertices whose calls are active. *)
Record inv (G : list Z) (s : tarjan) : Prop := {
  i_stack : forall x, x ∈ stack s -> visited s x;
  i_sorted : StronglySorted (deeper s) (stack s);
  i_bound : forall x i, indexes s !! x = Some i -> 0 <= i < index s;
  i_vertex : forall x, visited s x -> exists vx, g !! x = Some vx /\ scc_ vx = None;
  i_count : index s = Z.of_nat (size (indexes s));
  i_active : forall x, x ∈ G -> x ∈ stack s;
  i_done : forall x y, visited s x -> x ∉ stack s -> edge x y -> visited s y /\ y ∉ stack s;
  i_left : forall x y, x ∈ stack s -> x ∉ G -> edge x y -> visited s y;
  i_forward : forall x y, x ∈ stack s -> y ∈ stack s -> idx s x <= idx s y -> reaches x y;
  i_back : forall x, x ∈ stack s -> exists h, h ∈ G /\ idx s h <= idx s x /\ reaches x h }.

(** A state that differs in the low links only. *)
Definition same_search (s s' : tarjan) : Prop :=
  indexes s' = indexes s /\ index s' = index s /\ stack s' = stack s.

Lemma inv_same G s s' : same_search s s' -> inv G s -> inv G s'.
Proof.
  intros (E1 & E2 & E3) [H1 H2 H3 H4 H5 H6 H7 H8 H9 H10].
  split; unfold visited, deeper, idx in *; rewrite ?E1, ?E2, ?E3; auto.
Qed.

Lemma idx_visited s x : visited s x -> indexes s !! x = Some (idx s x).
Proof. intros [i Hi]. unfold idx. now rewrite Hi. Qed.

Lemma stack_nodup G s : inv G s -> NoDup (stack s).
Proof.
  intros Hi. pose proof (i_sorted _ _ Hi) as Hs. induction Hs as [|x l Hs IH Hx]; constructor; auto.
  intros Hin. rewrite Forall_forall in Hx. specialize (Hx x Hin). unfold deeper in Hx. lia.
Qed.

(** ** The scan and the pop *)

Lemma scan_spec v w l s :
  let s' := scan v w l s in
  same_search s s'
  /\ (forall x, x <> v -> lowlinks s' !! x = lowlinks s !! x)
  /\ low s' v = (if bool_decide (w ∈ l) then Z.min (low s v) (idx s w) else low s v).
Proof.
  revert s. induction l as [|t l IH]; intros s; cbn.
  - split_and!; auto. split_and!; reflexivity.
  - set (s1 := if t =? w then set_low v (min_of (low s v) (idx s w)) s else s).
    assert (H1 : same_search s s1 /\ (forall x, x <> v -> lowlinks s1 !! x = lowlinks s !! x)
      /\ low s1 v = (if t =? w then Z.min (low s v) (idx s w) else low s v)).
    { unfold s1. destruct (t =? w); [|split_and!; auto; split_and!; reflexivity].
      split_and!; [split_and!; reflexivity | |].
      - intros x Hx. cbn. now rewrite lookup_insert_ne by auto.
      - unfold low at 1. cbn. rewrite lookup_insert_eq. cbn. unfold min_of.
        destruct (Z.ltb_spec (low s v) (idx s w)); lia. }
    destruct H1 as ((E1 & E2 & E3) & Hx & Hl). destruct (IH s1) as ((F1 & F2 & F3) & Fx & Fl).
    split_and!; [split_and!; congruence | intros x Hne; rewrite Fx, Hx by auto; reflexivity |].
    rewrite Fl, Hl. assert (Ei : idx s1 w = idx s w) by (unfold idx; now rewrite E1). rewrite Ei.
    destruct (Z.eqb_spec t w) as [->|Hne].
    + rewrite (bool_decide_true (w ∈ w :: l)) by set_solver. case_bool_decide; lia.
    + rewrite (bool_decide_ext (w ∈ t :: l) (w ∈ l)) by set_solver. reflexivity.
Qed.

Lemma pop_scc_spec v P rest :
  v ∉ P -> pop_scc v (P ++ v :: rest) = Some (P ++ [v], rest).
Proof.
  induction P as [|x P IH]; intros Hv; cbn.
  - now rewrite Z.eqb_refl.
  - destruct (Z.eqb_spec x v) as [->|]; [set_solver |]. rewrite IH by set_solver. reflexivity.
Qed.

(** ** Entering a vertex *)

Lemma idx_enter_other v s x : x <> v -> idx (enter v s) x = idx s x.
Proof. intros Hx. unfold idx. cbn. now rewrite lookup_insert_ne by auto. Qed.
Lemma idx_enter_self v s : idx (enter v s) v = index s.
Proof. unfold idx. cbn. now rewrite lookup_insert_eq. Qed.
Lemma visited_enter v s x : visited (enter v s) x <-> x = v \/ visited s x.
Proof.
  unfold visited. cbn. destruct (decide (x = v)) as [->|Hne].
  - rewrite lookup_insert_eq. split; eauto.
  - rewrite lookup_insert_ne by auto. tauto.
Qed.

Lemma idx_bound G s x : inv G s -> visited s x -> 0 <= idx s x < index s.
Proof. intros Hi Hx. apply (i_bound _ _ Hi x). now apply idx_visited. Qed.

Lemma inv_enter G s v vx :
  inv G s -> ~ visited s v -> g !! v = Some vx -> scc_ vx = None ->
  (forall h, h ∈ G -> reaches h v) -> index s + 1 < 2 ^ 31 ->
  inv (v :: G) (enter v s) /\ index (enter v s) = index s + 1.
Proof.
  intros Hi Hv Hgv Hsv Hreach Hb.
  assert (Hnv : forall x, x ∈ stack s -> x <> v) by (intros x Hx ->; now apply Hv, (i_stack _ _ Hi)).
  assert (Hidx : forall x, x ∈ stack s -> idx (enter v s) x = idx s x /\ idx s x < index s).
  { intros x Hx. split; [now apply idx_enter_other, Hnv |].
    apply (idx_bound G); auto. now apply (i_stack _ _ Hi). }
  assert (H0 : 0 <= index s) by (rewrite (i_count _ _ Hi); lia).
  assert (Ex : index (enter v s) = index s + 1) by (cbn; apply swrap_small; lia).
  split; [|exact Ex]. split.
  - intros x Hx. apply visited_enter. cbn in Hx. apply elem_of_cons in Hx as [->|Hx]; auto.
    right. now apply (i_stack _ _ Hi).
  - cbn. constructor.
    + pose proof (i_sorted _ _ Hi) as Hs. assert (Hall : forall x, x ∈ stack s -> x <> v) by auto. clear - Hs Hall.
      induction Hs as [|x l Hs IH Hx]; constructor; [apply IH; set_solver |].
      rewrite Forall_forall in *. intros y Hy. unfold deeper. rewrite !idx_enter_other by set_solver. now apply Hx.
    + apply Forall_forall. intros x Hx. unfold deeper. rewrite idx_enter_self. destruct (Hidx x Hx). lia.
  - intros x i. rewrite Ex. cbn. destruct (decide (x = v)) as [->|Hne].
    + rewrite lookup_insert_eq. intros [= <-]. lia.
    + rewrite lookup_insert_ne by auto. intros Hx. pose proof (i_bound _ _ Hi x i Hx). lia.
  - intros x [->|Hx]%visited_enter; [eauto | now apply (i_vertex _ _ Hi)].
  - rewrite Ex. cbn. rewrite map_size_insert_None.
    + rewrite (i_count _ _ Hi). lia.
    + apply eq_None_not_Some. exact Hv.
  - intros x [->|Hx]%elem_of_cons; cbn; [set_solver |]. apply elem_of_cons. right. now apply (i_active _ _ Hi).
  - intros x y Hx Hn He. cbn in Hn. rewrite not_elem_of_cons in Hn. destruct Hn as [Hne Hn].
    apply visited_enter in Hx as [->|Hx]; [congruence |].
    destruct (i_done _ _ Hi x y Hx Hn He) as [Hy Hys]. rewrite visited_enter. cbn. split; [auto |].
    rewrite not_elem_of_cons. split; [|exact Hys]. intros ->. contradiction.
  - intros x y Hx Hn He. cbn in Hx. rewrite not_elem_of_cons in Hn. destruct Hn as [Hne Hn].
    apply elem_of_cons in Hx as [->|Hx]; [congruence |]. apply visited_enter. right.
    now apply (i_left _ _ Hi x y).
  - intros x y Hx Hy Hle. cbn in Hx, Hy. rewrite elem_of_cons in Hx, Hy.
    destruct Hx as [->|Hx], Hy as [->|Hy].
    + apply rtc_refl.
    + destruct (Hidx y Hy) as [E1 E2]. rewrite idx_enter_self in Hle. lia.
    + destruct (i_back _ _ Hi x Hx) as (h & Hh & _ & Hxh). transitivity h; auto.
    + apply (i_forward _ _ Hi); auto. rewrite (proj1 (Hidx x Hx)), (proj1 (Hidx y Hy)) in Hle. exact Hle.
  - intros x Hx. cbn in Hx. apply elem_of_cons in Hx as [->|Hx].
    + exists v. split_and!; [set_solver | lia | apply rtc_refl].
    + destruct (i_back _ _ Hi x Hx) as (h & Hh & Hle & Hxh). exists h. split_and!; [set_solver | | exact Hxh].
      rewrite (proj1 (Hidx x Hx)), (proj1 (Hidx h (i_active _ _ Hi h Hh))). exact Hle.
Qed.

(** ** What a call promises *)

Definition is_scc (v : Z) (l : list Z) : Prop :=
  NoDup l /\ forall z, z ∈ l <-> reaches v z /\ reaches z v.

(** The vertices [P] that the call left on the stack are new; [low s' v] bounds
    the indices of the older stack vertices they have edges to.  Either the call
    found the component of [v] and left nothing, or [v] reaches an older one. *)
Record post (G : list Z) (s : tarjan) (v : Z) (s' : tarjan) (ret : list Z) : Prop := {
  p_inv : inv G s';
  p_ext : indexes s ⊆ indexes s';
  p_self : visited s' v;
  p_new : index s <= idx s' v;
  p_low : forall x, visited s x -> lowlinks s' !! x = lowlinks s !! x;
  p_stack : exists P, stack s' = P ++ stack s
    /\ (forall x, x ∈ P -> ~ visited s x)
    /\ (forall x y, x ∈ P -> y ∈ stack s -> edge x y -> low s' v <= idx s' y)
    /\ ((P = [] /\ low s' v = idx s' v /\ is_scc v ret)
        \/ (v ∈ P /\ low s' v < idx s' v
            /\ exists y, y ∈ stack s' /\ idx s' y = low s' v /\ reaches v y)) }.

(** The invariant of the loop over the parents of [v], entered from [s0]; [seen]
    are the parents handled so far. *)
Record loop (G : list Z) (s0 : tarjan) (v : Z) (seen : list Z) (s : tarjan) : Prop := {
  l_inv : inv (v :: G) s;
  l_ext : indexes (enter v s0) ⊆ indexes s;
  l_low : forall x, visited s0 x -> lowlinks s !! x = lowlinks s0 !! x;
  l_stack : exists P, stack s = P ++ v :: stack s0
    /\ (forall x, x ∈ P -> ~ visited s0 x)
    /\ (forall x y, x ∈ P -> y ∈ stack s0 -> edge x y -> low s v <= idx s y);
  l_le : low s v <= idx s v;
  l_reach : exists y, y ∈ stack s /\ idx s y = low s v /\ reaches v y;
  l_seen : forall c, c ∈ seen -> edge v c -> visited s c /\ (c ∈ stack s0 -> low s v <= idx s c) }.

Lemma idx_ext s s' x : indexes s ⊆ indexes s' -> visited s x -> idx s' x = idx s x.
Proof.
  intros Hs [i Hi]. unfold idx. rewrite Hi. now rewrite (lookup_weaken _ _ _ _ Hi Hs).
Qed.
Lemma visited_ext s s' x : indexes s ⊆ indexes s' -> visited s x -> visited s' x.
Proof. intros Hs [i Hi]. exists i. now apply (lookup_weaken _ _ _ _ Hi Hs). Qed.

Lemma loop_skip G s0 v seen s p : ~ edge v p -> loop G s0 v seen s -> loop G s0 v (p :: seen) s.
Proof.
  intros Hp [H1 H2 H3 H4 H5 H6 H7]. split; auto.
  intros c [->|Hc]%elem_of_cons He; [contradiction | auto].
Qed.

(** Lowering [low v] to the index of a stack vertex that [v] reaches. *)
Lemma loop_lower G s0 v seen s s' :
  loop G s0 v seen s -> ~ visited s0 v -> same_search s s' ->
  (forall x, x <> v -> lowlinks s' !! x = lowlinks s !! x) ->
  low s' v <= low s v -> (low s' v = low s v \/ exists y, y ∈ stack s /\ idx s y = low s' v /\ reaches v y) ->
  loop G s0 v seen s'.
Proof.
  intros [H1 H2 H3 H4 H5 H6 H7] Hv Hsame Hlow Hle Hy. pose proof Hsame as (E1 & E2 & E3).
  assert (Ei : forall x, idx s' x = idx s x) by (intros x; unfold idx; now rewrite E1). split.
  - exact (inv_same _ _ _ Hsame H1).
  - now rewrite E1.
  - intros x Hx. rewrite Hlow; [auto |]. intros ->. contradiction.
  - destruct H4 as (P & Es & Hn & Hb). exists P. rewrite E3. split_and!; auto.
    intros x y Hx Hys He. rewrite Ei. specialize (Hb x y Hx Hys He). lia.
  - rewrite Ei. lia.
  - destruct Hy as [E|(y & Hys & Hyi & Hyr)].
    + destruct H6 as (y & Hys & Hyi & Hyr). exists y. rewrite E3, Ei, E. auto.
    + exists y. rewrite E3, Ei. auto.
  - intros c Hc He. destruct (H7 c Hc He) as [Hvis Hb]. unfold visited in *. rewrite E1, Ei.
    split; [exact Hvis |]. intros Hs. specialize (Hb Hs). lia.
Qed.

(** A parent that has an index already. *)
Lemma loop_scan G s0 v seen s p :
  loop G s0 v seen s -> ~ visited s0 v -> edge v p -> visited s p ->
  loop G s0 v (p :: seen) (scan v p (rev (stack s)) s).
Proof.
  intros Hl Hv He Hp. destruct (scan_spec v p (rev (stack s)) s) as (Hsame & Hlow & Hm).
  rewrite (bool_decide_ext (p ∈ rev (stack s)) (p ∈ stack s)) in Hm
    by (rewrite !list_elem_of_In, <- in_rev; reflexivity).
  set (s' := scan v p (rev (stack s)) s) in *.
  assert (Hl' : loop G s0 v seen s').
  { apply (loop_lower G s0 v seen s s' Hl Hv Hsame Hlow); rewrite Hm; case_bool_decide as Hin; try lia.
    destruct (Z.min_spec (low s v) (idx s p)) as [[_ ->]|[_ ->]]; [auto |].
    right. exists p. split_and!; auto. now apply rtc_once. }
  destruct Hl' as [H1 H2 H3 H4 H5 H6 H7]. split; auto.
  intros c [->|Hc]%elem_of_cons Hec; [|auto]. pose proof Hsame as (E1 & _ & E3). split.
  - unfold visited. rewrite E1. exact Hp.
  - intros Hs. rewrite Hm. assert (Hin : p ∈ stack s).
    { destruct (l_stack _ _ _ _ _ Hl) as (P & -> & _). set_solver. }
    rewrite bool_decide_true by exact Hin. unfold idx at 2. rewrite E1. fold (idx s p). lia.
Qed.

(** A parent that was entered and left by the recursive call. *)
Lemma loop_rec G s0 v seen s p s1 ret :
  loop G s0 v seen s -> ~ visited s0 v -> edge v p -> ~ visited s p ->
  post (v :: G) s p s1 ret ->
  loop G s0 v (p :: seen) (set_low v (min_of (low s1 v) (low s1 p)) s1).
Proof.
  intros Hl Hv He Hp Hpost. pose proof Hl as [H1 H2 H3 H4 H5 H6 H7].
  pose proof Hpost as [Q1 Q2 Q3 Qn Q4 (P1 & Q5 & Q6 & Q7 & Q8)].
  assert (Hvis : forall x, x ∈ stack s0 -> visited s x).
  { intros x Hx. apply (i_stack _ _ H1). destruct H4 as (P & -> & _). set_solver. }
  assert (Hvv : visited s v) by (apply (i_stack _ _ H1); destruct H4 as (P & -> & _); set_solver).
  assert (Hlv : low s1 v = low s v) by (unfold low; now rewrite Q4).
  assert (Hs0 : forall x, visited s0 x -> visited s x).
  { intros x Hx. apply (visited_ext (enter v s0)); [exact H2 |]. apply visited_enter. auto. }
  set (s2 := set_low v (min_of (low s1 v) (low s1 p)) s1).
  assert (Hm : low s2 v = Z.min (low s v) (low s1 p)).
  { unfold low at 1. cbn. rewrite lookup_insert_eq. cbn. unfold min_of. rewrite Hlv.
    destruct (Z.ltb_spec (low s v) (low s1 p)); lia. }
  assert (Ei : forall x, visited s x -> idx s2 x = idx s x) by (intros x Hx; now apply idx_ext).
  assert (Hst : stack s2 = P1 ++ stack s) by exact Q5.
  split.
  - apply (inv_same _ s1); [split_and!; reflexivity | exact Q1].
  - etrans; [exact H2 | exact Q2].
  - intros x Hx. cbn. rewrite lookup_insert_ne by (intros ->; contradiction). rewrite Q4 by auto. auto.
  - destruct H4 as (P & Es & Hn & Hb). exists (P1 ++ P). rewrite Hst, Es, <- app_assoc. split_and!; auto.
    + intros x [Hx|Hx]%elem_of_app; [|auto]. intros Hx0. now apply (Q6 x), Hs0.
    + intros x y Hx Hy Hxy. rewrite Hm, Ei by auto. apply elem_of_app in Hx as [Hx|Hx].
      * assert (Hys : y ∈ stack s) by (rewrite Es; set_solver). specialize (Q7 x y Hx Hys Hxy).
        rewrite (idx_ext s s1 y Q2) in Q7 by auto. lia.
      * specialize (Hb x y Hx Hy Hxy). lia.
  - rewrite Hm, Ei by assumption. lia.
  - rewrite Hm, Hst. destruct (Z.min_spec (low s v) (low s1 p)) as [[_ ->]|[Hle ->]].
    + destruct H6 as (y & Hy & Hyi & Hyr). exists y. rewrite Ei by (now apply (i_stack _ _ H1)). set_solver.
    + destruct Q8 as [(-> & E & _)|(Hp1 & _ & y & Hy & Hyi & Hyr)].
      * pose proof (idx_bound _ _ _ H1 Hvv). lia.
      * exists y. rewrite <- Q5. split_and!; auto. transitivity p; [now apply rtc_once | exact Hyr].
  - intros c [->|Hc]%elem_of_cons Hec.
    + split; [exact Q3 |]. intros Hs. destruct Hp. auto.
    + destruct (H7 c Hc Hec) as [Hcv Hcb]. split; [now apply (visited_ext s) |].
      intros Hs. rewrite Hm, Ei by auto. specialize (Hcb Hs). lia.
Qed.

(** ** Leaving a vertex *)

Lemma done_closed G s x y :
  inv G s -> visited s x -> x ∉ stack s -> reaches x y -> visited s y /\ y ∉ stack s.
Proof.
  intros Hi Hx Hn Hr. induction Hr as [x|x x1 y He Hr IH]; [auto |].
  destruct (i_done _ _ Hi x x1 Hx Hn He). auto.
Qed.

Lemma loop_grows G s0 v seen s : loop G s0 v seen s -> ~ visited s0 v -> indexes s0 ⊆ indexes s.
Proof.
  intros Hl Hv. etrans; [|exact (l_ext _ _ _ _ _ Hl)]. cbn. apply insert_subseteq. now apply eq_None_not_Some.
Qed.

Lemma loop_idx_v G s0 v seen s : loop G s0 v seen s -> idx s v = index s0.
Proof.
  intros Hl. unfold idx.
  erewrite (lookup_weaken (indexes (enter v s0))); [reflexivity | | exact (l_ext _ _ _ _ _ Hl)].
  cbn. apply lookup_insert_eq.
Qed.

Lemma loop_old G s0 v seen s y :
  inv G s0 -> loop G s0 v seen s -> ~ visited s0 v -> y ∈ stack s0 ->
  idx s y = idx s0 y /\ idx s y < idx s v.
Proof.
  intros Hi0 Hl Hv Hy. assert (Hvis : visited s0 y) by (now apply (i_stack _ _ Hi0)).
  rewrite (loop_idx_v _ _ _ _ _ Hl), (idx_ext s0 s y (loop_grows _ _ _ _ _ Hl Hv) Hvis).
  split; [reflexivity |]. now apply (idx_bound G s0 y Hi0).
Qed.

Section Leave.
Variables (G : list Z) (s0 s : tarjan) (v : Z) (vx : Vertex) (P : list Z).
Hypothesis (Hi0 : inv G s0) (Hv : ~ visited s0 v) (Hvx : g !! v = Some vx).
Hypothesis (Hl : loop G s0 v (rev (parents_ vx)) s).
Hypothesis (Hst : stack s = P ++ v :: stack s0) (HP : forall x, x ∈ P -> ~ visited s0 x).
Hypothesis (HPlow : forall x y, x ∈ P -> y ∈ stack s0 -> edge x y -> low s v <= idx s y).

Let C := P ++ [v].

Lemma leave_stack : stack s = C ++ stack s0.
Proof using All. unfold C. rewrite Hst, <- app_assoc. reflexivity. Qed.

Lemma leave_nodup : NoDup C /\ (forall x, x ∈ C -> x ∉ stack s0).
Proof using All.
  pose proof (stack_nodup _ _ (l_inv _ _ _ _ _ Hl)) as Hnd. rewrite leave_stack in Hnd.
  apply list.NoDup_app in Hnd. tauto.
Qed.

Lemma leave_ext : indexes s0 ⊆ indexes s.
Proof using All. exact (loop_grows _ _ _ _ _ Hl Hv). Qed.
Lemma leave_idx_v : idx s v = index s0.
Proof using All. exact (loop_idx_v _ _ _ _ _ Hl). Qed.
Lemma leave_old y : y ∈ stack s0 -> idx s y = idx s0 y /\ idx s y < idx s v.
Proof using All. exact (loop_old _ _ _ _ _ y Hi0 Hl Hv). Qed.

Lemma leave_deep x : x ∈ C -> idx s v <= idx s x.
Proof using All.
  intros Hx. unfold C in Hx. apply elem_of_app in Hx as [Hx| ->%list_elem_of_singleton]; [|lia].
  pose proof (i_sorted _ _ (l_inv _ _ _ _ _ Hl)) as Hs. rewrite Hst in Hs. clear - Hs Hx.
  induction P as [|a Q IH]; [set_solver |]. cbn in Hs. apply StronglySorted_inv in Hs as [Hs Ha].
  apply elem_of_cons in Hx as [->|Hx]; [|auto]. rewrite Forall_forall in Ha.
  specialize (Ha v ltac:(set_solver)). unfold deeper in Ha. lia.
Qed.

Lemma leave_not_active x : x ∈ C -> x ∈ v :: G -> x = v.
Proof using All.
  intros Hx [->|Hg]%elem_of_cons; [reflexivity |]. destruct (proj2 leave_nodup x Hx). now apply (i_active _ _ Hi0).
Qed.

(** Every edge out of the new vertices leads to a visited one. *)
Lemma leave_edges x y : x ∈ C -> edge x y -> visited s y.
Proof using All.
  intros Hx He. destruct (decide (x = v)) as [->|Hne].
  - apply (l_seen _ _ _ _ _ Hl); [|exact He]. destruct He as (vx' & vy & E & Hin & _).
    rewrite Hvx in E. injection E as <-. rewrite list_elem_of_In, <- in_rev, <- list_elem_of_In. exact Hin.
  - apply (i_left _ _ (l_inv _ _ _ _ _ Hl) x y); [rewrite leave_stack; set_solver | | exact He].
    intros Hg. now apply Hne, leave_not_active.
Qed.

Lemma leave_low x y : x ∈ C -> y ∈ stack s0 -> edge x y -> low s v <= idx s y.
Proof using All.
  intros Hx Hy He. unfold C in Hx. apply elem_of_app in Hx as [Hx| ->%list_elem_of_singleton]; [eauto |].
  apply (l_seen _ _ _ _ _ Hl); auto. destruct He as (vx' & vy & E & Hin & _).
  rewrite Hvx in E. injection E as <-. rewrite list_elem_of_In, <- in_rev, <- list_elem_of_In. exact Hin.
Qed.

(** *** The component is complete *)
Section Found.
Hypothesis (Heq : low s v = idx s v).

Lemma found_edges x y : x ∈ C -> edge x y -> y ∈ C \/ (visited s y /\ y ∉ stack s).
Proof using All.
  intros Hx He. pose proof (leave_edges x y Hx He) as Hy.
  destruct (decide (y ∈ stack s)) as [Hys|Hys]; [|auto]. left. rewrite leave_stack in Hys.
  apply elem_of_app in Hys as [?|Hys]; [assumption |].
  pose proof (leave_low x y Hx Hys He). destruct (leave_old y Hys). lia.
Qed.

Lemma found_paths x y : x ∈ C -> reaches x y -> y ∈ C \/ (visited s y /\ y ∉ stack s).
Proof using All.
  intros Hx Hr. induction Hr as [x|x x1 y He Hr IH]; [auto |].
  destruct (found_edges x x1 Hx He) as [Hx1|[Hx1 Hn1]]; [auto |]. right.
  exact (done_closed _ _ _ _ (l_inv _ _ _ _ _ Hl) Hx1 Hn1 Hr).
Qed.

Lemma v_in_C : v ∈ C.
Proof using All. unfold C. set_solver. Qed.
Lemma C_in_stack x : x ∈ C -> x ∈ stack s.
Proof using All. intros Hx. rewrite leave_stack. set_solver. Qed.

Lemma found_scc : is_scc v C.
Proof using All.
  pose proof (l_inv _ _ _ _ _ Hl) as Hi. split; [apply leave_nodup |]. intros z. split.
  - intros Hz. split.
    + apply (i_forward _ _ Hi); auto using C_in_stack, v_in_C, leave_deep.
    + destruct (i_back _ _ Hi z (C_in_stack z Hz)) as (h & Hh & _ & Hzh).
      destruct (found_paths z h Hz Hzh) as [HhC|[_ Hn]].
      * now rewrite (leave_not_active h HhC Hh) in Hzh.
      * destruct Hn. now apply (i_active _ _ Hi).
  - intros [Hvz Hzv]. destruct (found_paths v z v_in_C Hvz) as [|[Hz Hn]]; [assumption |].
    destruct (done_closed _ _ _ _ Hi Hz Hn Hzv) as [_ Hnv]. destruct Hnv. apply C_in_stack, v_in_C.
Qed.

Definition popped : tarjan :=
  {| indexes := indexes s; lowlinks := lowlinks s; index := index s; stack := stack s0 |}.

Lemma found_inv : inv G popped.
Proof using All.
  pose proof (l_inv _ _ _ _ _ Hl) as Hi.
  assert (Hsub : forall x, x ∈ stack s0 -> x ∈ stack s) by (intros x Hx; rewrite leave_stack; set_solver).
  split; cbn.
  - intros x Hx. apply (i_stack _ _ Hi). auto.
  - pose proof (i_sorted _ _ Hi) as Hs. rewrite leave_stack in Hs.
    apply (StronglySorted_sub _ (stack s0) (C ++ stack s0)); [|exact Hs]. apply sublist_inserts_l. reflexivity.
  - apply (i_bound _ _ Hi).
  - apply (i_vertex _ _ Hi).
  - apply (i_count _ _ Hi).
  - apply (i_active _ _ Hi0).
  - intros x y Hx Hn He. destruct (decide (x ∈ stack s)) as [Hxs|Hxs].
    + rewrite leave_stack in Hxs. apply elem_of_app in Hxs as [Hxs|?]; [|contradiction].
      destruct (found_edges x y Hxs He) as [Hy|[Hy Hyn]].
      * split; [apply (i_stack _ _ Hi), C_in_stack, Hy | now apply leave_nodup].
      * split; [exact Hy |]. intros Hy0. apply Hyn. auto.
    + destruct (i_done _ _ Hi x y Hx Hxs He) as [Hy Hyn]. split; [exact Hy |]. intros Hy0. apply Hyn. auto.
  - intros x y Hx Hn He. apply (i_left _ _ Hi x y); auto. intros [->|?]%elem_of_cons; [|contradiction].
    apply Hv. now apply (i_stack _ _ Hi0).
  - intros x y Hx Hy Hle. apply (i_forward _ _ Hi); auto.
  - intros x Hx. destruct (i_back _ _ Hi0 x Hx) as (h & Hh & Hle & Hxh). exists h. split_and!; auto.
    change (idx s h <= idx s x). rewrite (proj1 (leave_old x Hx)).
    now rewrite (proj1 (leave_old h (i_active _ _ Hi0 h Hh))).
Qed.

Lemma found_post : post G s0 v popped C.
Proof using All.
  split.
  - exact found_inv.
  - exact leave_ext.
  - apply (i_stack _ _ (l_inv _ _ _ _ _ Hl)), C_in_stack, v_in_C.
  - change (index s0 <= idx s v). rewrite leave_idx_v. lia.
  - apply (l_low _ _ _ _ _ Hl).
  - exists []. split_and!; [reflexivity | set_solver | set_solver |]. left.
    split_and!; [reflexivity | exact Heq | exact found_scc].
Qed.
End Found.

(** *** An older vertex is reached *)
Lemma older_post ret : low s v < idx s v -> post G s0 v s ret.
Proof using All.
  intros Hlt. pose proof (l_inv _ _ _ _ _ Hl) as Hi. split.
  - split; try apply Hi.
    + intros x Hx. rewrite leave_stack. apply elem_of_app. right. now apply (i_active _ _ Hi0).
    + intros x y Hx Hn He. destruct (decide (x = v)) as [->|Hne].
      * apply (leave_edges v y); auto. unfold C. set_solver.
      * apply (i_left _ _ Hi x y); auto. rewrite not_elem_of_cons. auto.
    + intros x Hx. destruct (i_back _ _ Hi x Hx) as (h & Hh & Hle & Hxh).
      apply elem_of_cons in Hh as [->|Hh]; [|eauto].
      destruct (l_reach _ _ _ _ _ Hl) as (y & Hy & Hyi & Hyr). rewrite leave_stack in Hy.
      apply elem_of_app in Hy as [Hy|Hy]; [pose proof (leave_deep y Hy); lia |].
      destruct (i_back _ _ Hi0 y Hy) as (h & Hh & Hhle & Hyh). exists h. split_and!; auto.
      * rewrite (proj1 (leave_old h (i_active _ _ Hi0 h Hh))). pose proof (leave_old y Hy). lia.
      * transitivity v; [exact Hxh |]. transitivity y; auto.
  - exact leave_ext.
  - apply (i_stack _ _ Hi). rewrite leave_stack. unfold C. set_solver.
  - rewrite leave_idx_v. lia.
  - apply (l_low _ _ _ _ _ Hl).
  - exists C. split_and!; [exact leave_stack | | exact leave_low |].
    + intros x Hx. unfold C in Hx. apply elem_of_app in Hx as [Hx| ->%list_elem_of_singleton]; auto.
    + right. split_and!; [unfold C; set_solver | exact Hlt | exact (l_reach _ _ _ _ _ Hl)].
Qed.
End Leave.

(** ** Termination and the main induction *)

Definition unvisited (s : tarjan) : nat := size (dom g ∖ dom (indexes s)).

Lemma unvisited_enter s v vx : ~ visited s v -> g !! v = Some vx -> (unvisited (enter v s) < unvisited s)%nat.
Proof.
  intros Hv Hg. unfold unvisited. apply subset_size. cbn. rewrite dom_insert_L. split; [set_solver |].
  intros Hsub. assert (Hin : v ∈ dom g ∖ dom (indexes s)).
  { apply elem_of_difference. split; [apply elem_of_dom; eauto | now rewrite elem_of_dom]. }
  apply Hsub in Hin. set_solver.
Qed.

Lemma unvisited_ext s s' : indexes s ⊆ indexes s' -> (unvisited s' <= unvisited s)%nat.
Proof.
  intros Hs. unfold unvisited. apply subseteq_size. apply subseteq_dom in Hs. set_solver.
Qed.

(** What a call needs: a vertex without index that the active ones reach. *)
Definition callable (G : list Z) (s : tarjan) (v : Z) : Prop :=
  inv G s /\ ~ visited s v /\ (exists vx, g !! v = Some vx /\ scc_ vx = None)
  /\ (forall h, h ∈ G -> reaches h v).

Hypothesis Hsize : Z.of_nat (size g) < 2 ^ 31.

Lemma index_room G s v : inv G s -> ~ visited s v -> is_Some (g !! v) -> index s + 1 < 2 ^ 31.
Proof.
  intros Hi Hv Hg. rewrite (i_count _ _ Hi). rewrite <- size_dom.
  assert (size (dom (indexes s)) < size (dom g))%nat; [|rewrite (size_dom g) in *; lia].
  apply subset_size. split.
  - intros x Hx. apply elem_of_dom in Hx. destruct (i_vertex _ _ Hi x Hx) as (? & Hx' & _).
    apply elem_of_dom. eauto.
  - intros Hsub. apply Hv, elem_of_dom, Hsub, elem_of_dom, Hg.
Qed.

Section Loop.
Variables (rec : Z -> tarjan -> option (list Z * tarjan)) (fuel : nat).
Hypothesis Hrec : forall G s v, callable G s v -> (unvisited s <= fuel)%nat ->
  runs (rec v s) (fun '(ret, s') => post G s v s' ret).

Lemma visit_parents_ok G s0 v vx ps seen s :
  inv G s0 -> g !! v = Some vx -> ~ visited s0 v -> (forall p, p ∈ ps -> p ∈ parents_ vx) ->
  loop G s0 v seen s -> (unvisited s <= fuel)%nat ->
  runs (visit_parents g rec v ps s) (fun s' => loop G s0 v (rev ps ++ seen) s').
Proof using Hrec Hsize.
  intros Hi0 Hvx Hv. revert seen s. induction ps as [|p ps IH]; intros seen s Hps Hl Hf; cbn [visit_parents].
  - now apply runs_ret.
  - cbn [rev]. rewrite <- app_assoc. cbn [app].
    assert (Hskip : ~ edge v p -> runs (visit_parents g rec v ps s) (loop G s0 v (rev ps ++ p :: seen))).
    { intros Hn. apply IH; [set_solver | now apply loop_skip | exact Hf]. }
    unfold FindV. destruct (g !! p) as [w|] eqn:Ew.
    2: { cbn [mbind option_bind]. apply Hskip. intros (? & ? & _ & _ & E & _). congruence. }
    destruct (scc_ w) eqn:Es.
    { cbn [mbind option_bind]. apply Hskip. intros (? & ? & _ & _ & E & E'). congruence. }
    assert (He : edge v p) by (exists vx, w; split_and!; auto; set_solver).
    destruct (indexes s !! p) as [i|] eqn:Ei.
    + cbn [mbind option_bind].
      assert (Hl' := loop_scan G s0 v seen s p Hl Hv He (mk_is_Some _ _ Ei)).
      apply IH; [set_solver | exact Hl' |].
      unfold unvisited. destruct (scan_spec v p (rev (stack s)) s) as ((E1 & _) & _). now rewrite E1.
    + pose proof (l_inv _ _ _ _ _ Hl) as Hi.
      assert (Hp : ~ visited s p) by (unfold visited; rewrite Ei; apply is_Some_None).
      destruct (Hrec (v :: G) s p) as ([ret s1] & -> & Hpost); [|exact Hf|].
      { split_and!; eauto. intros h Hh. transitivity v; [|now apply rtc_once].
        destruct (l_stack _ _ _ _ _ Hl) as (P & Est & HP & HPl).
        apply (i_forward _ _ Hi); [now apply (i_active _ _ Hi) | rewrite Est; set_solver |].
        apply elem_of_cons in Hh as [->|Hh]; [lia |].
        destruct (loop_old _ _ _ _ _ h Hi0 Hl Hv (i_active _ _ Hi0 h Hh)). lia. }
      cbn [mbind option_bind]. apply IH; [set_solver | |].
      * eapply loop_rec; eauto.
      * etrans; [|exact Hf]. change (unvisited s1 <= unvisited s)%nat. apply unvisited_ext, (p_ext _ _ _ _ _ Hpost).
Qed.
End Loop.

(** Entering a vertex starts the loop. *)
Lemma loop_start G s v :
  callable G s v -> loop G s v [] (enter v s).
Proof using Hsize.
  intros (Hi & Hv & (vx & Hvx & Hs) & Hr).
  destruct (inv_enter G s v vx Hi Hv Hvx Hs Hr (index_room _ _ _ Hi Hv (mk_is_Some _ _ Hvx))) as [Hi' _].
  assert (El : low (enter v s) v = index s) by (unfold low; cbn; now rewrite lookup_insert_eq). split; auto.
  - intros x Hx. cbn. rewrite lookup_insert_ne; [reflexivity |]. intros ->. contradiction.
  - exists []. split_and!; [reflexivity | set_solver | set_solver].
  - rewrite El, idx_enter_self. lia.
  - exists v. rewrite El, idx_enter_self. split_and!; [cbn; set_solver | reflexivity | apply rtc_refl].
  - set_solver.
Qed.

Lemma strong_ok fuel : forall G s v,
  callable G s v -> (unvisited s <= fuel)%nat ->
  runs (StrongConnectPred g fuel v s) (fun '(ret, s') => post G s v s' ret).
Proof using Hsize.
  induction fuel as [|fuel IH]; intros G s v Hc Hf; pose proof Hc as (Hi & Hv & (vx & Hvx & Hs) & Hr).
  - pose proof (unvisited_enter s v vx Hv Hvx). lia.
  - cbn [StrongConnectPred]. rewrite Hvx. cbn [mbind option_bind].
    eapply runs_bind.
    { apply (visit_parents_ok _ fuel IH G s v vx (parents_ vx) [] (enter v s)); auto using loop_start.
      pose proof (unvisited_enter s v vx Hv Hvx). lia. }
    intros s1 Hl. cbn beta in Hl. rewrite app_nil_r in Hl.
    destruct (l_stack _ _ _ _ _ Hl) as (P & Est & HP & HPl).
    destruct (Z.eqb_spec (low s1 v) (idx s1 v)) as [Heq|Hne].
    + rewrite Est, pop_scc_spec.
      * cbn [mbind option_bind]. apply runs_ret. apply (found_post G s s1 v vx P); auto.
      * pose proof (stack_nodup _ _ (l_inv _ _ _ _ _ Hl)) as Hnd. rewrite Est in Hnd.
        apply list.NoDup_app in Hnd as (_ & Hd & _). intros Hin. apply (Hd v Hin). set_solver.
    + apply runs_ret. apply (older_post G s s1 v vx P); auto. pose proof (l_le _ _ _ _ _ Hl). lia.
Qed.

Lemma inv_start : inv [] tarjan_init.
Proof.
  assert (Hno : forall x, ~ visited tarjan_init x).
  { intros x. unfold visited. cbn. rewrite lookup_empty. apply is_Some_None. }
  split; try (intros x Hx; cbn in Hx; set_solver);
    try (intros x y Hx; cbn in Hx; set_solver); try (intros x; intros; now destruct (Hno x)).
  - constructor.
  - reflexivity.
Qed.

(** The search from a fresh state returns the component of its vertex. *)
Lemma strong_start v vx :
  g !! v = Some vx -> scc_ vx = None ->
  runs (StrongConnectPred g (size g) v tarjan_init) (fun '(ret, _) => is_scc v ret).
Proof using Hsize.
  intros Hvx Hs. eapply runs_mono; [apply (strong_ok (size g) [] tarjan_init v) |].
  - split_and!; [apply inv_start | unfold visited; cbn; rewrite lookup_empty; apply is_Some_None | eauto | set_solver].
  - unfold unvisited. cbn. rewrite dom_empty_L, difference_empty_L, size_dom. lia.
  - intros [ret s'] [Hi _ _ _ _ (P & Est & _ & _ & [(_ & _ & Hscc)|(Hv & Hlt & y & Hy & Hyi & _)])]; [exact Hscc |].
    destruct (i_back _ _ Hi y Hy) as (h & Hh & _). set_solver.
Qed.
End Tarjan.

(** ** [FindSccPred] *)

Definition component (g : graph) (v : Z) (l : list Z) : Prop :=
  NoDup l /\ forall z, z ∈ l <-> rtc (dep g) v z /\ rtc (dep g) z v.

(** The components recorded in the graph are right, and recorded at all their
    members. *)
Definition scc_wf (g : graph) : Prop :=
  forall x vx l, g !! x = Some vx -> scc_ vx = Some l ->
    component g x l /\ forall z, z ∈ l -> exists vz, g !! z = Some vz /\ scc_ vz = Some l.

Lemma rtc_weaken (R R' : relation Z) x y : (forall a b, R a b -> R' a b) -> rtc R x y -> rtc R' x y.
Proof. intros HR. induction 1; [apply rtc_refl |]. eapply rtc_l; eauto. Qed.

Lemma edge_dep g x y : edge g x y -> dep g x y.
Proof. intros (vx & vy & E & Hin & Ey & _). exists vx. eauto. Qed.

(** The search does not lose the component by skipping vertices whose component
    is known. *)
Lemma cycle_edges g v x z :
  scc_wf g -> (exists vx, g !! v = Some vx /\ scc_ vx = None) ->
  rtc (dep g) v x -> rtc (dep g) x z -> rtc (dep g) z v -> rtc (edge g) x z.
Proof.
  intros Hwf (vx & Hvx & Hs) Hvx' Hxz Hzv. revert Hvx'. induction Hxz as [x|x x1 z Hd Hr IH]; intros Hv.
  - apply rtc_refl.
  - assert (Hv1 : rtc (dep g) v x1) by (eapply rtc_r; eauto).
    assert (H1v : rtc (dep g) x1 v) by (etransitivity; eauto).
    eapply rtc_l; [|now apply IH]. destruct Hd as (wx & Ex & Hin & [w1 E1]).
    exists wx, w1. split_and!; auto. destruct (scc_ w1) as [l|] eqn:Es; [|reflexivity].
    destruct (Hwf x1 w1 l E1 Es) as [[_ Hl] Hm]. destruct (Hm v) as (v2 & E2 & Es2); [now apply Hl |].
    congruence.
Qed.

Lemma scc_component g v vx l :
  scc_wf g -> g !! v = Some vx -> scc_ vx = None -> is_scc g v l -> component g v l.
Proof.
  intros Hwf Hvx Hs [Hnd Hl]. split; [exact Hnd |]. intros z. rewrite Hl. split.
  - intros [H1 H2]. split; (eapply (rtc_weaken (edge g)); [apply edge_dep | assumption]).
  - intros [H1 H2]. split.
    + apply (cycle_edges g v v z); eauto. apply rtc_refl.
    + apply (cycle_edges g v z v); eauto. apply rtc_refl.
Qed.

(** The members have no component yet. *)
Lemma scc_members g v vx l :
  g !! v = Some vx -> scc_ vx = None -> is_scc g v l ->
  forall z, z ∈ l -> exists vz, g !! z = Some vz /\ scc_ vz = None.
Proof.
  intros Hvx Hs [_ Hl] z Hz. apply Hl in Hz as [Hz _].
  apply rtc_inv_r in Hz as [<-|(y & _ & (_ & w & _ & _ & Hw & Hws))]; eauto.
Qed.

Definition with_scc (l : list Z) (v : Vertex) : Vertex :=
  {| parents_ := parents_ v; walked_ := walked_ v; scc_ := Some l |}.

Lemma set_scc_ok l ptr g :
  NoDup l -> (forall z, z ∈ l -> exists vz, g !! z = Some vz /\ scc_ vz = None) ->
  runs (set_scc l ptr g) (fun g' =>
    forall x, g' !! x = if bool_decide (x ∈ l) then with_scc ptr <$> g !! x else g !! x).
Proof.
  revert g. induction l as [|v l IH]; intros g Hnd Hm; cbn [set_scc].
  - apply runs_ret. intros x. now rewrite bool_decide_false by set_solver.
  - apply list.NoDup_cons in Hnd as [Hv Hnd]. destruct (Hm v ltac:(set_solver)) as (vx & Hvx & Hs).
    rewrite Hvx. cbn [mbind option_bind]. rewrite bool_decide_true by exact Hs. cbn [verify mbind option_bind].
    change {| parents_ := parents_ vx; walked_ := walked_ vx; scc_ := Some ptr |} with (with_scc ptr vx).
    eapply runs_mono; [apply IH; [exact Hnd |] |].
    + intros z Hz. rewrite lookup_insert_ne by (intros ->; contradiction). apply Hm. set_solver.
    + intros g' Hg' x. rewrite Hg'. destruct (decide (x = v)) as [->|Hne].
      * rewrite bool_decide_false, bool_decide_true, lookup_insert_eq, Hvx by set_solver. reflexivity.
      * rewrite lookup_insert_ne by auto. rewrite (bool_decide_ext (x ∈ v :: l) (x ∈ l)) by set_solver. reflexivity.
Qed.

Lemma dep_same g g' x y :
  (forall x, parents_ <$> g' !! x = parents_ <$> g !! x) -> dep g x y -> dep g' x y.
Proof.
  intros Hp (vx & Ex & Hin & [vy Ey]). pose proof (Hp x) as Hx. pose proof (Hp y) as Hy.
  rewrite Ex in Hx. rewrite Ey in Hy. cbn in Hx, Hy.
  destruct (g' !! x) as [vx'|] eqn:Ex'; [|discriminate Hx]. destruct (g' !! y) as [vy'|] eqn:Ey'; [|discriminate Hy].
  injection Hx as Hx. exists vx'. rewrite Hx. eauto.
Qed.

Lemma component_same g g' v l :
  (forall x, parents_ <$> g' !! x = parents_ <$> g !! x) -> component g v l -> component g' v l.
Proof.
  intros Hp [Hnd Hl]. split; [exact Hnd |]. intros z. rewrite Hl.
  assert (Hpath : forall a b, rtc (dep g) a b <-> rtc (dep g') a b).
  { intros a b. split; apply rtc_weaken; intros c d; apply dep_same; auto. }
  now rewrite !Hpath.
Qed.

Lemma find_scc_ok g v :
  scc_wf g -> is_Some (g !! v) -> Z.of_nat (size g) < 2 ^ 31 ->
  exists l g', FindSccPred v g = Some (l, g')
    /\ component g v l
    /\ (forall x, parents_ <$> g' !! x = parents_ <$> g !! x)
    /\ scc_wf g'
    /\ forall z, z ∈ l -> FindSccPred z g' = Some (l, g').
Proof.
  intros Hwf [vx Hvx] Hsize. unfold FindSccPred at 1. rewrite Hvx. cbn [mbind option_bind].
  destruct (scc_ vx) as [l|] eqn:Hs.
  - destruct (Hwf v vx l Hvx Hs) as [Hc Hm]. exists l, g. split_and!; auto.
    intros z Hz. destruct (Hm z Hz) as (vz & Ez & Esz). unfold FindSccPred. now rewrite Ez; cbn; rewrite Esz.
  - destruct (strong_start g Hsize v vx Hvx Hs) as ([l s'] & -> & Hscc). cbn [mbind option_bind].
    pose proof (scc_members g v vx l Hvx Hs Hscc) as Hm. pose proof (scc_component g v vx l Hwf Hvx Hs Hscc) as Hc.
    destruct (set_scc_ok l l g (proj1 Hc) Hm) as (g' & -> & Hg'). cbn [mbind option_bind].
    assert (Hp : forall x, parents_ <$> g' !! x = parents_ <$> g !! x).
    { intros x. rewrite Hg'. case_bool_decide; [|reflexivity]. now destruct (g !! x). }
    assert (Hin : forall z, z ∈ l -> exists vz, g' !! z = Some vz /\ scc_ vz = Some l).
    { intros z Hz. destruct (Hm z Hz) as (vz & Ez & _). exists (with_scc l vz).
      rewrite Hg', bool_decide_true, Ez by exact Hz. auto. }
    exists l, g'. split_and!; auto.
    + intros x wx lx Hx Hsx. destruct (decide (x ∈ l)) as [Hxl|Hxl].
      * destruct (Hin x Hxl) as (wx' & E & Es). assert (lx = l) as -> by congruence. split; [|exact Hin].
        apply (component_same g); auto. destruct Hc as [Hnd Hl]. split; [exact Hnd |].
        apply Hl in Hxl as [H1 H2]. intros z. rewrite Hl. split; intros [? ?]; split; etransitivity; eauto.
      * rewrite Hg', bool_decide_false in Hx by exact Hxl. destruct (Hwf x wx lx Hx Hsx) as [Hcx Hmx].
        split; [now apply (component_same g) |]. intros z Hz. destruct (Hmx z Hz) as (vz & Ez & Esz).
        exists vz. split; [|exact Esz]. rewrite Hg', bool_decide_false; [exact Ez |]. intros Hzl.
        destruct (Hm z Hzl) as (vz' & Ez' & Esz'). congruence.
    + intros z Hz. destruct (Hin z Hz) as (vz & Ez & Esz). unfold FindSccPred. now rewrite Ez; cbn; rewrite Esz.
Qed.

(** C31. [FindSccPred] terminates on every vertex of the graph and returns its
    strongly connected component: the vertices that it depends on, directly or
    through others, and that depend on it.  It only records components, those
    it records are right, and a later call returns them. *)
Theorem find_scc_correct g v :
  scc_wf g -> is_Some (g !! v) -> Z.of_nat (size g) < 2 ^ 31 ->
  exists l g', FindSccPred v g = Some (l, g')
    /\ component g v l
    /\ (forall x, parents_ <$> g' !! x = parents_ <$> g !! x)
    /\ scc_wf g'
    /\ forall z, z ∈ l -> FindSccPred z g' = Some (l, g').
Proof. apply find_scc_ok. Qed.


(** Transactions 1 and 2 depend on each other and on 3. *)
Definition example_graph : graph :=
  {[1 := {| parents_ := [2; 3]; walked_ := false; scc_ := None |};
    2 := {| parents_ := [1]; walked_ := false; scc_ := None |};
    3 := new_vertex]}.

Lemma find_scc_correct_witness :
  FindSccPred 1 example_graph <> None
  /\ exists l g', FindSccPred 1 example_graph = Some (l, g')
    /\ component example_graph 1 l
    /\ (forall x, parents_ <$> g' !! x = parents_ <$> example_graph !! x)
    /\ scc_wf g'
    /\ forall z, z ∈ l -> FindSccPred z g' = Some (l, g').
Proof.
  split; [vm_compute; discriminate |]. apply (find_scc_correct example_graph 1).
  - intros x vx l Hx Hs. exfalso. unfold example_graph in Hx.
    repeat (apply lookup_insert_Some in Hx as [[<- <-]|[_ Hx]]; [discriminate Hs |]).
    apply lookup_singleton_Some in Hx as [<- <-]. discriminate Hs.
  - eexists. vm_compute. reflexivity.
  - vm_compute. reflexivity.
Defined.

End DepScc.
