(* ===== verification/DepTraverse.v ===== *)
(** * Traversal of the dependency graph

    Correctness of [Graph::TraversePred] (DepGraph.v) without a depth limit, as
    the schedulers call it: it asks [func] about the vertices it can reach
    through vertices answered [Ok], stops exactly if one of them is answered
    [Exit], terminates on cyclic graphs, and leaves the graph as it was. *)

From Stdlib Require Import ZArith Lia.
From stdpp Require Import base list option gmap sets relations.
From S2P Require Import Prelude ALock DepGraph.
Local Open Scope Z_scope.

Module DepTraverse.
Import DepGraph.

Section Traverse.
Context (func : Z -> SearchHint) (g : graph).

Definition ok_step (x y : Z) : Prop := dep g x y /\ func y = Ok.
(** The vertices that [func] is asked about in a search from [v]. *)
Definition asked (v y : Z) : Prop := exists x, rtc ok_step v x /\ dep g x y.

(** The graph of a walk is [g] with the marks of the walked vertices. *)
Definition marked (w : walk) : Prop :=
  forall x, w_graph w !! x = set_walked (bool_decide (x ∈ w_walked w)) <$> g !! x.

Definition handled (w : walk) (y : Z) : Prop :=
  y ∈ w_called w /\ func y <> Exit /\ (func y = Ok -> y ∈ w_walked w).
Definition expanded (w : walk) (x : Z) : Prop := forall y, dep g x y -> handled w y.

(** From [w] to [w'], a search below [v] walked and called only what it may; if it
    was not stopped, the vertices it walked, but for those in [except], are
    expanded. *)
Record extends (v : Z) (except : list Z) (w w' : walk) (ret : SearchHint) : Prop := {
  e_marked : marked w';
  e_walked : exists N, w_walked w' = w_walked w ++ N /\ forall x, x ∈ N -> rtc ok_step v x;
  e_called : exists L, w_called w' = w_called w ++ L /\ (forall y, y ∈ L -> asked v y)
    /\ (ret = Exit -> exists y, y ∈ L /\ func y = Exit)
    /\ (ret <> Exit -> forall y, y ∈ L -> func y <> Exit);
  e_expanded : ret <> Exit ->
    forall x, x ∈ w_walked w' -> x ∉ w_walked w -> x ∉ except -> expanded w' x }.

Lemma handled_mono v ex w w' ret y : extends v ex w w' ret -> handled w y -> handled w' y.
Proof.
  intros [_ (N & EN & _) (L & EL & _) _] (H1 & H2 & H3). unfold handled. rewrite EN, EL.
  split_and!; [set_solver | exact H2 |]. intros Ho. apply elem_of_app. auto.
Qed.

Lemma extends_refl v ex w ret : marked w -> ret <> Exit -> extends v ex w w ret.
Proof.
  intros Hm Hr. split; auto.
  - exists []. rewrite app_nil_r. set_solver.
  - exists []. rewrite app_nil_r. split_and!; [reflexivity | set_solver | congruence | set_solver].
  - intros _ x Hx Hn. contradiction.
Qed.

Lemma extends_trans v ex w1 w2 w3 r2 r3 :
  r2 <> Exit -> extends v ex w1 w2 r2 -> extends v ex w2 w3 r3 -> extends v ex w1 w3 r3.
Proof.
  intros Hr2 H12 H23. pose proof H12 as [_ (N1 & E1 & HN1) (L1 & F1 & HL1 & _ & HE1) X1].
  pose proof H23 as [M3 (N2 & E2 & HN2) (L2 & F2 & HL2 & HX2 & HE2) X2]. split; auto.
  - exists (N1 ++ N2). rewrite E2, E1, <- app_assoc. split; [reflexivity |]. set_solver.
  - exists (L1 ++ L2). rewrite F2, F1, <- app_assoc. split_and!; [reflexivity | set_solver | |].
    + intros Hr. destruct (HX2 Hr) as (y & Hy & Hf). exists y. set_solver.
    + intros Hr y [Hy|Hy]%elem_of_app; auto.
  - intros Hr x Hx Hn He. destruct (decide (x ∈ w_walked w2)) as [Hx2|Hx2].
    + intros y Hy. eapply handled_mono; [exact H23 |]. now apply (X1 Hr2 x).
    + now apply X2.
Qed.

Lemma extends_mono v u ex w w' ret :
  rtc ok_step v u -> extends u [] w w' ret -> extends v ex w w' ret.
Proof.
  intros Hvu [M (N & E & HN) (L & F & HL & HX & HE) X]. split; auto.
  - exists N. split; [exact E |]. intros x Hx. transitivity u; auto.
  - exists L. split_and!; auto. intros y Hy. destruct (HL y Hy) as (x & Hx & Hd).
    exists x. split; [transitivity u; auto | exact Hd].
  - intros Hr x Hx Hn _. apply X; auto. set_solver.
Qed.

(** Asking [func] about a parent. *)
Lemma extends_called v ex w p :
  marked w -> asked v p ->
  extends v ex w (called p w) (if bool_decide (func p = Exit) then Exit else Ok).
Proof.
  intros Hm Ha. split.
  - exact Hm.
  - exists []. cbn. rewrite app_nil_r. set_solver.
  - exists [p]. cbn. split_and!; [reflexivity | | |].
    + intros y ->%list_elem_of_singleton. exact Ha.
    + case_bool_decide; [|discriminate]. intros _. exists p. set_solver.
    + case_bool_decide; [congruence |]. intros _ y ->%list_elem_of_singleton. assumption.
  - intros _ x Hx Hn. contradiction.
Qed.

(** ** The loop *)

Definition unwalked (w : walk) : nat := size (dom g ∖ list_to_set (w_walked w)).

Lemma unwalked_mono v ex w w' ret : extends v ex w w' ret -> (unwalked w' <= unwalked w)%nat.
Proof.
  intros [_ (N & E & _) _ _]. unfold unwalked. apply subseteq_size. rewrite E, list_to_set_app_L. set_solver.
Qed.

Section Loop.
Variables (rec : Z -> Z -> walk -> option (SearchHint * walk)) (fuel : nat).
Hypothesis Hrec : forall v depth w,
  marked w -> is_Some (g !! v) -> (unwalked w < fuel)%nat ->
  depth < 0 -> - 2 ^ 63 <= depth - Z.of_nat fuel ->
  runs (rec v depth w) (fun '(ret, w') =>
    extends v [] w w' ret /\ (ret <> Exit -> v ∈ w_walked w')).

Lemma traverse_parents_ok v vx depth ps ret w :
  g !! v = Some vx -> (forall p, p ∈ ps -> p ∈ parents_ vx) ->
  marked w -> (unwalked w < fuel)%nat -> depth < 0 -> - 2 ^ 63 <= depth - 1 - Z.of_nat fuel ->
  ret <> Exit ->
  runs (traverse_parents func rec depth ps ret w) (fun '(ret', w') =>
    extends v [] w w' ret' /\ (ret' <> Exit -> forall p, p ∈ ps -> dep g v p -> handled w' p)).
Proof using Hrec.
  intros Hvx. revert ret w. induction ps as [|p ps IH]; intros ret w Hps Hm Hf Hd Hb Hret; cbn [traverse_parents].
  - apply runs_ret. split; [now apply extends_refl | set_solver].
  - assert (Hps' : forall q, q ∈ ps -> q ∈ parents_ vx) by set_solver.
    unfold FindV. destruct (w_graph w !! p) as [wp|] eqn:Ep.
    2: { rewrite Hm in Ep. apply fmap_None in Ep. eapply runs_mono; [now apply IH |].
         intros [ret' w'] [He Hh]. split; [exact He |]. intros Hr q [->|Hq]%elem_of_cons Hdq; [|auto].
         destruct Hdq as (? & _ & _ & [? E]). congruence. }
    assert (Hgp : is_Some (g !! p)).
    { rewrite Hm in Ep. apply fmap_Some in Ep as (? & E & _). eauto. }
    assert (Hdep : dep g v p) by (exists vx; set_solver).
    assert (Hask : asked v p) by (exists v; split; [apply rtc_refl | exact Hdep]).
    pose proof (extends_called v [] w p Hm Hask) as Hc.
    assert (Hnext : forall r1 w1 r, extends v [] w w1 r1 -> r1 <> Exit -> r <> Exit -> handled w1 p ->
      runs (traverse_parents func rec depth ps r w1) (fun '(ret', w') =>
        extends v [] w w' ret' /\ (ret' <> Exit -> forall q, q ∈ p :: ps -> dep g v q -> handled w' q))).
    { intros r1 w1 r He Hr1 Hr Hh. eapply runs_mono.
      - apply IH; auto; [exact (e_marked _ _ _ _ _ He) |].
        pose proof (unwalked_mono _ _ _ _ _ He). lia.
      - intros [ret' w'] [He' Hh']. split; [exact (extends_trans v [] w w1 w' r1 ret' Hr1 He He') |].
        intros Hr' q [->|Hq]%elem_of_cons Hdq; [|auto]. eapply handled_mono; eauto. }
    destruct (func p) eqn:Ef.
    + apply runs_ret. rewrite bool_decide_true in Hc by reflexivity. split; [exact Hc | congruence].
    + rewrite bool_decide_false in Hc by discriminate.
      destruct (Z.ltb_spec depth 0); [|lia]. cbn [orb].
      rewrite swrap_id by lia.
      destruct (Hrec p (depth - 1) (called p w)) as ([r1 w1] & -> & He & Hw); auto; try lia.
      cbn [mbind option_bind].
      assert (He' : extends v [] w w1 r1).
      { eapply (extends_trans v [] w (called p w) w1 Ok r1); [discriminate | exact Hc |].
        apply (extends_mono v p); [|exact He]. apply rtc_once. now split. }
      case_bool_decide as Hx.
      * apply runs_ret. subst r1. split; [exact He' | congruence].
      * apply (Hnext r1); auto. split_and!; [| congruence | auto].
        destruct (e_called _ _ _ _ _ He) as (L & -> & _). cbn. set_solver.
    + rewrite bool_decide_false in Hc by discriminate. apply (Hnext Ok); auto; try discriminate.
      split_and!; [cbn; set_solver | congruence | congruence].
Qed.
End Loop.

(** ** The recursion *)

Lemma marked_mark v vx w :
  marked w -> g !! v = Some vx -> marked (mark v (set_walked false vx) w).
Proof.
  intros Hm Hvx x. cbn. destruct (decide (x = v)) as [->|Hne].
  - rewrite lookup_insert_eq, Hvx, bool_decide_true by set_solver. reflexivity.
  - rewrite lookup_insert_ne, Hm by auto. f_equal. f_equal. apply bool_decide_ext. set_solver.
Qed.

Lemma unwalked_mark v vx w :
  g !! v = Some vx -> v ∉ w_walked w -> (unwalked (mark v (set_walked false vx) w) < unwalked w)%nat.
Proof.
  intros Hvx Hv. unfold unwalked. apply subset_size. cbn. rewrite list_to_set_app_L. split; [set_solver |].
  intros Hsub. assert (Hin : v ∈ dom g ∖ list_to_set (w_walked w)).
  { apply elem_of_difference. rewrite elem_of_dom, elem_of_list_to_set. eauto. }
  apply Hsub in Hin. set_solver.
Qed.

Lemma traverse_ok fuel : forall v depth w,
  marked w -> is_Some (g !! v) -> (unwalked w < fuel)%nat ->
  depth < 0 -> - 2 ^ 63 <= depth - Z.of_nat fuel ->
  runs (traverse func fuel v depth w) (fun '(ret, w') =>
    extends v [] w w' ret /\ (ret <> Exit -> v ∈ w_walked w')).
Proof.
  induction fuel as [|fuel IH]; intros v depth w Hm [vx Hvx] Hf Hd Hb; [lia |]. cbn [traverse].
  rewrite (Hm v), Hvx. cbn [fmap option_fmap option_map mbind option_bind set_walked walked_].
  destruct (decide (v ∈ w_walked w)) as [Hv|Hv].
  - rewrite bool_decide_true by exact Hv. apply runs_ret. split; [now apply extends_refl | auto].
  - rewrite bool_decide_false by exact Hv. cbn [parents_].
    change {| parents_ := parents_ vx; walked_ := false; scc_ := scc_ vx |} with (set_walked false vx).
    set (w1 := mark v (set_walked false vx) w).
    assert (Hm1 : marked w1) by (now apply marked_mark).
    pose proof (unwalked_mark v vx w Hvx Hv) as Hu. fold w1 in Hu.
    eapply runs_mono; [eapply (traverse_parents_ok _ fuel IH v vx depth (parents_ vx) Ok w1); auto; try lia |].
    intros [ret w'] [[M (N & E & HN) (L & F & HL & HX & HE) X] Hh].
    assert (EN : w_walked w' = w_walked w ++ v :: N) by (rewrite E; cbn; now rewrite <- app_assoc).
    split; [split; auto |].
    + exists (v :: N). split; [exact EN |]. intros x [->|Hx]%elem_of_cons; [apply rtc_refl | auto].
    + exists L. auto.
    + intros Hr x Hx Hn _. destruct (decide (x = v)) as [->|Hne].
      * intros y Hy. apply Hh; auto. destruct Hy as (vx' & E' & Hin & _). congruence.
      * apply X; auto; [|set_solver]. cbn. rewrite elem_of_app, list_elem_of_singleton. tauto.
    + intros _. rewrite EN. set_solver.
Qed.
End Traverse.

(** ** The outermost call *)

Definition unwalked_graph (g : graph) : Prop := forall x vx, g !! x = Some vx -> walked_ vx = false.

Lemma unmark_all l g x :
  fold_left unmark l g !! x = if bool_decide (x ∈ l) then set_walked false <$> g !! x else g !! x.
Proof.
  revert g. induction l as [|v l IH]; intros g; cbn.
  - now rewrite bool_decide_false by set_solver.
  - rewrite IH. unfold unmark. destruct (decide (x = v)) as [->|Hne].
    + rewrite lookup_alter_eq, (bool_decide_true (v ∈ v :: l)) by set_solver.
      case_bool_decide; [|reflexivity]. now destruct (g !! v).
    + rewrite lookup_alter_ne by auto. rewrite (bool_decide_ext (x ∈ v :: l) (x ∈ l)) by set_solver.
      reflexivity.
Qed.

Lemma set_walked_same v : walked_ v = false -> set_walked false v = v.
Proof. destruct v; cbn. now intros ->. Qed.

Lemma unmarked_back g w :
  unwalked_graph g -> marked g w -> fold_left unmark (w_walked w) (w_graph w) = g.
Proof.
  intros Hg Hm. apply map_eq. intros x. rewrite unmark_all, (Hm x).
  destruct (g !! x) as [vx|] eqn:Ex; cbn; [|now destruct (bool_decide _)].
  rewrite <- (set_walked_same vx) at 3 by eauto. case_bool_decide; reflexivity.
Qed.

(** [TraversePred] without a depth limit terminates on every graph, cycles
    included, and leaves it unchanged, marks included.  It asks [func] only about
    vertices that are parents of ones it reached through [Ok] answers; it reports
    [Exit] exactly if one of these is answered [Exit], and otherwise has asked
    about all of them. *)
Theorem traverse_exact (func : Z -> SearchHint) g v :
  unwalked_graph g -> is_Some (g !! v) -> Z.of_nat (size g) < 2 ^ 62 ->
  exists ret log, TraversePred func v (-1) g = Some (ret, g, log)
    /\ (ret = Exit <-> exists y, asked func g v y /\ func y = Exit)
    /\ (forall y, y ∈ log -> asked func g v y)
    /\ (ret <> Exit -> forall y, asked func g v y -> y ∈ log)
    /\ (ret = Exit -> exists y, y ∈ log /\ func y = Exit).
Proof.
  intros Hg Hv Hsize. unfold TraversePred.
  set (w0 := {| w_graph := g; w_walked := []; w_called := [] |}).
  assert (Hm0 : marked g w0).
  { intros x. cbn. destruct (g !! x) as [vx|] eqn:Ex; [|reflexivity].
    rewrite bool_decide_false by set_solver. cbn. now rewrite set_walked_same by eauto. }
  destruct (traverse_ok func g (S (size g)) v (-1) w0 Hm0 Hv) as ([ret w] & -> & He & Hw); try lia.
  { unfold unwalked. cbn. rewrite difference_empty_L, size_dom. lia. }
  cbn [mbind option_bind]. rewrite (unmarked_back g w Hg (e_marked _ _ _ _ _ _ _ He)).
  destruct He as [_ (N & EN & HN) (L & EL & HL & HX & HE) X]. cbn in EN, EL.
  assert (Hall : ret <> Exit -> forall y, asked func g v y -> y ∈ w_called w /\ func y <> Exit).
  { intros Hr. assert (Hclosed : forall x, rtc (ok_step func g) v x -> x ∈ w_walked w).
    { intros x Hx. revert x Hx. apply rtc_ind_r; [auto |]. intros x y _ [Hd Ho] Hx.
      destruct (X Hr x Hx ltac:(set_solver) ltac:(set_solver) y Hd) as (_ & _ & H3). auto. }
    intros y (x & Hx & Hd). specialize (Hclosed x Hx).
    destruct (X Hr x Hclosed ltac:(set_solver) ltac:(set_solver) y Hd) as (H1 & H2 & _). auto. }
  exists ret, (w_called w). split_and!; [reflexivity | | rewrite EL; exact HL | |].
  - split.
    + intros Hr. destruct (HX Hr) as (y & Hy & Hf). eauto.
    + intros (y & Ha & Hf). destruct (decide (ret = Exit)) as [|Hr]; [assumption |].
      now destruct (Hall Hr y Ha).
  - intros Hr y Ha. now apply Hall.
  - intros Hr. rewrite EL. exact (HX Hr).
Qed.

(** A cycle of two transactions above a third. *)
Definition traverse_graph : graph :=
  {[1 := {| parents_ := [2; 3]; walked_ := false; scc_ := None |};
    2 := {| parents_ := [1]; walked_ := false; scc_ := None |};
    3 := new_vertex]}.

Lemma traverse_exact_witness :
  exists ret log, TraversePred (fun x => if x =? 3 then Exit else Ok) 1 (-1) traverse_graph
                  = Some (ret, traverse_graph, log)
    /\ (ret = Exit <-> exists y, asked (fun x => if x =? 3 then Exit else Ok) traverse_graph 1 y
                                 /\ (if y =? 3 then Exit else Ok) = Exit)
    /\ (forall y, y ∈ log -> asked (fun x => if x =? 3 then Exit else Ok) traverse_graph 1 y)
    /\ (ret <> Exit -> forall y, asked (fun x => if x =? 3 then Exit else Ok) traverse_graph 1 y -> y ∈ log)
    /\ (ret = Exit -> exists y, y ∈ log /\ (if y =? 3 then Exit else Ok) = Exit).
Proof.
  apply (traverse_exact (fun x => if x =? 3 then Exit else Ok) traverse_graph 1).
  - intros x vx Hx. unfold traverse_graph in Hx.
    repeat (apply lookup_insert_Some in Hx as [[<- <-]|[_ Hx]]; [reflexivity |]).
    apply lookup_singleton_Some in Hx as [<- <-]. reflexivity.
  - eexists. vm_compute. reflexivity.
  - vm_compute. reflexivity.
Defined.
End DepTraverse.
