(* ===== verification/RccTxn.v ===== *)
(** * Transactions of the dependency-tracking protocol

    [RccDTxn] (deptran/rcc/dtxn.h and .cc): a vertex of the dependency graph together with
    the pieces of the transaction on this site.  A stored procedure is a program that reads
    and writes columns and inserts rows through the transaction, which in the dispatch phase
    traces the dependencies between transactions and in the commit phase acts on the
    database and hands every change to the analytical side.

    A [RccDTxn*] is the identifier of the transaction.  A row is named by the query that
    finds it; the entry [last_] of a column is a cell of the map [last_].  Epochs are left
    out: [EpochMgr::AddToEpoch] returns at once, so that no transaction is ever removed. *)

From Stdlib Require Import ZArith Lia.
From stdpp Require Import base list option gmap sets relations.
From coqutil Require Import Datatypes.RecordSetters.
From S2P Require Import Prelude ALock MemSchema PieceExec DepGraph.
Import DoubleBraceUpdate.
Local Open Scope Z_scope.

#[global] Arguments constant {E} newValue _ /.

Module Rcc.
Import DepGraph.

Definition TXN_UKN : Z := 0.
Definition TXN_STD : Z := 1.
Definition TXN_PAC : Z := 2.
Definition TXN_CMT : Z := 8.
Definition TXN_DCD : Z := 16.
Definition TXN_ABT : Z := 64.

Definition TXN_BYPASS : Z := 1.
Definition TXN_INSTANT : Z := 2.
Definition TXN_DEFERRED : Z := 4.

Definition PHASE_RCC_DISPATCH : Z := 1.
Definition PHASE_RCC_COMMIT : Z := 2.

Definition TPCC_PAYMENT_5 : Z := 205.

Inductive defer_t := DF_REAL | DF_NO | DF_FAKE.
#[export] Instance defer_t_eq : EqDecision defer_t.
Proof. solve_decision. Defined.

Inductive InvolveEnum := INV_UNKNOWN | INVOLVED | FOREIGN.
#[export] Instance InvolveEnum_eq : EqDecision InvolveEnum.
Proof. solve_decision. Defined.

(** ** Stored procedures *)

(** What a procedure does with its transaction; [Done] has the output of the piece, and
    [Broken] is a check of the procedure that fails. *)
Inductive prog :=
  | Done (output : output_map)
  | Read (row col hint : Z) (k : value -> prog)
  | Write (row col : Z) (x : value) (hint : Z) (k : prog)
  | Insert (tbl : Z) (vals : list value) (k : prog)
  | Broken.

(** A change sent to the analytical side: [TransferUpdate], with the values of the key
    columns of the row. *)
Inductive update_op := UPDATE | INSERT.
Record cdc_update := {
  u_op : update_op; u_tbl : Z; u_col : Z; u_key : list value; u_value : value; u_txn : Z }.

(** What the procedures of one transaction act on: the columns and their [last_] entries,
    the inserted rows, the changes sent, and the parents of the transaction. *)
Record tenv := {
  cells : gmap (Z * Z) value;
  last_ : gmap (Z * Z) Z;
  rows : list (Z * list value);
  transferred : list cdc_update;
  tparents : list Z }.

Section Access.
(** The columns of the key of a row and its table; whether this site reports the changes
    ([site % N_REP_PER_SHARD == 0]). *)
Context (key_columns : Z -> list Z) (table_of : Z -> Z) (reports : bool).
Context (tid phase : Z).

(** Without [DEBUG_CODE]; [external_refs_] is read by the destructor only. *)
Definition TraceDep (row col : Z) (e : tenv) : tenv :=
  match last_ e !! (row, col) with
  | Some p =>
      if p =? tid then e
      else e {{ tparents := set_put p (tparents e); last_ := <[(row, col) := tid]> (last_ e) }}
  | None => e {{ last_ := <[(row, col) := tid]> (last_ e) }}
  end.

Definition traced (hint : Z) : bool := (hint =? TXN_INSTANT) || (hint =? TXN_DEFERRED).
Definition immediate (hint : Z) : bool := (hint =? TXN_BYPASS) || (hint =? TXN_INSTANT).

(** The value of a deferred read stays as the caller declared it. *)
Definition ReadColumn (row col hint : Z) (e : tenv) : option (tenv * value) :=
  if phase =? PHASE_RCC_DISPATCH then
    x ← (if immediate hint then cells e !! (row, col) else Some VUnknown);
    Some (if traced hint then TraceDep row col e else e, x)
  else if phase =? PHASE_RCC_COMMIT then
    x ← cells e !! (row, col); Some (e, x)
  else None.

Definition write_column (row col : Z) (x : value) (e : tenv) : option tenv :=
  _ ← cells e !! (row, col); Some (e {{ cells := <[(row, col) := x]> (cells e) }}).

Definition transfer (u : cdc_update) (e : tenv) : tenv :=
  e {{ transferred := transferred e ++ [u] }}.

Definition WriteColumn (row col : Z) (x : value) (hint : Z) (e : tenv) : option tenv :=
  e ← (if reports && (phase =? PHASE_RCC_COMMIT) then
         key ← mapM (fun k => cells e !! (row, k)) (key_columns row);
         Some (transfer {| u_op := UPDATE; u_tbl := table_of row; u_col := col; u_key := key;
                           u_value := x; u_txn := tid |} e)
       else Some e);
  if phase =? PHASE_RCC_DISPATCH then
    e ← (if immediate hint then e ← write_column row col x e; Some (TraceDep row col e) else Some e);
    Some (if traced hint then TraceDep row col e else e)
  else if phase =? PHASE_RCC_COMMIT then
    if (hint =? TXN_BYPASS) || (hint =? TXN_DEFERRED) then write_column row col x e else None
  else None.

Definition InsertRow (tbl : Z) (vals : list value) (e : tenv) : tenv :=
  let e :=
    if reports && (phase =? PHASE_RCC_COMMIT) then
      foldl (fun e kx => transfer {| u_op := INSERT; u_tbl := tbl; u_col := Z.of_nat kx.1; u_key := [];
                                     u_value := kx.2; u_txn := tid |} e)
        e (imap (fun k x => (k, x)) vals)
    else e in
  e {{ rows := rows e ++ [(tbl, vals)] }}.

Fixpoint run_prog (p : prog) (e : tenv) : option (tenv * output_map) :=
  match p with
  | Done out => Some (e, out)
  | Read row col hint k => '(e, x) ← ReadColumn row col hint e; run_prog (k x) e
  | Write row col x hint k => e ← WriteColumn row col x hint e; run_prog k e
  | Insert tbl vals k => run_prog k (InsertRow tbl vals e)
  | Broken => None
  end.

(** [TxnRegistry]: the procedure of a piece and its kind. *)
Context (txn_reg : Z -> Z -> option (defer_t * (TxnWorkspace -> prog))).

Definition ExecSimpleCmd (c : SimpleCommand) (e : tenv) : option (tenv * output_map) :=
  '(defer, handler) ← txn_reg (root_type_ c) (type_ c);
  if bool_decide (defer = DF_FAKE) then Some (e, []) else run_prog (handler (input c)) e.

(** [DispatchExec] after the loop: the pieces that wait for inputs are run for their
    dependencies only. *)
Fixpoint check_pending (ps : list SimpleCommand) (e : tenv) (all_pie_checked : bool) :
    option (tenv * bool) :=
  match ps with
  | [] => Some (e, all_pie_checked)
  | c :: ps =>
      if local_executed_ c then check_pending ps e all_pie_checked
      else
        '(_, handler) ← txn_reg (root_type_ c) (type_ c);
        '(e, _) ← run_prog (handler (input c)) e;
        _ ← verify (type_ c =? TPCC_PAYMENT_5);
        check_pending ps e false
  end.
End Access.

(** ** The transaction *)

Record RccDTxn := {
  tid_ : Z;
  vtx : Vertex;
  status_ : Z;
  max_seen_ballot_ : Z;
  max_accepted_ballot_ : Z;
  dreqs_ : list SimpleCommand;
  output_ : gmap Z output_map;
  ptr_output_repy_ : bool;
  finish_reply_callback_ : option Z;
  commit_request_received_ : bool;
  debug_replied : bool;
  piggybackedShard : gset Z;
  touchColsCnt : Z;
  all_touched_shards_ : list Z;
  fast_path_ : bool;
  involve_flag_ : InvolveEnum;
  to_checks_ : gset Z;
  root_type : Z;
  partition_ : list Z;
  all_pieces_ : list SimpleCommand;
  fully_dispatched : bool;
  executed_ : bool;
  during_asking : bool;
  inquire_acked_ : bool;
  callbacks_for_inquire_ : list Z;
  inquiretimer_ : Z;
  n_executed : Z;
  n_local_pieces : Z;
  phase_ : Z;
  committed_ : bool }.

Definition new_dtxn (tid : Z) : RccDTxn :=
  {| tid_ := tid; vtx := new_vertex; status_ := TXN_UKN; max_seen_ballot_ := 0;
     max_accepted_ballot_ := 0; dreqs_ := []; output_ := ∅; ptr_output_repy_ := false;
     finish_reply_callback_ := None; commit_request_received_ := false; debug_replied := false;
     piggybackedShard := ∅; touchColsCnt := 0; all_touched_shards_ := []; fast_path_ := true;
     involve_flag_ := INV_UNKNOWN; to_checks_ := ∅; root_type := 0; partition_ := [];
     all_pieces_ := []; fully_dispatched := false; executed_ := false; during_asking := false;
     inquire_acked_ := false; callbacks_for_inquire_ := []; inquiretimer_ := 0; n_executed := 0;
     n_local_pieces := 0; phase_ := 0; committed_ := false |}.

Definition tx_parents (t : RccDTxn) : list Z := parents_ (vtx t).
Definition set_parents (ps : list Z) (t : RccDTxn) : RccDTxn :=
  t {{ vtx := {| parents_ := ps; walked_ := walked_ (vtx t); scc_ := scc_ (vtx t) |} }}.
Definition set_union (l l' : list Z) : list Z := fold_left (fun l k => set_put k l) l' l.

(** [RccDTxn(RccDTxn &rhs)] *)
Definition copy_dtxn (rhs : RccDTxn) : RccDTxn :=
  (new_dtxn (tid_ rhs)) {{ vtx := copy_vertex (vtx rhs); partition_ := partition_ rhs;
                           status_ := status_ rhs }}.

Definition union_status (s : Z) (t : RccDTxn) : RccDTxn := t {{ status_ := Z.lor (status_ t) s }}.

(** What a graph in a message keeps of a transaction. *)
Definition marshalled (t : RccDTxn) : RccDTxn :=
  union_status (status_ t)
    ((set_parents (tx_parents t) (new_dtxn (tid_ t))) {{ partition_ := partition_ t }}).

Definition UpdateStatus (s : Z) (t : RccDTxn) : RccDTxn :=
  if status_ t <? s then t {{ status_ := s }} else t.

Definition IsAborted (t : RccDTxn) : bool := negb (Z.land (status_ t) TXN_ABT =? 0).
Definition IsCommitting (t : RccDTxn) : bool := negb (Z.land (status_ t) TXN_CMT =? 0).
Definition IsDecided (t : RccDTxn) : bool := negb (Z.land (status_ t) TXN_DCD =? 0).
Definition IsExecuted (t : RccDTxn) : bool := executed_ t.

(** The flag is kept once the transaction is committing. *)
Definition Involve (par : Z) (t : RccDTxn) : RccDTxn * bool :=
  match involve_flag_ t with
  | INVOLVED => (t, true)
  | FOREIGN => (t, false)
  | INV_UNKNOWN =>
      let found := bool_decide (par ∈ partition_ t) in
      (if IsCommitting t then t {{ involve_flag_ := if found then INVOLVED else FOREIGN }} else t, found)
  end.

(** [checkInquire]: a timer of 100 milliseconds. *)
Definition checkInquire (now : Z) (t : RccDTxn) : RccDTxn * bool :=
  if inquiretimer_ t =? 0 then (t {{ inquiretimer_ := now }}, false)
  else (t, 100 <? now - inquiretimer_ t).

Section Pieces.
Context (key_columns : Z -> list Z) (table_of : Z -> Z) (reports : bool).
Context (txn_reg : Z -> Z -> option (defer_t * (TxnWorkspace -> prog))).

(** [RecursiveExecuteReadyPieces] of the transaction in its phase; no piece waits for the
    pieces of other transactions. *)
Definition run_ready (my_par : Z) (t : RccDTxn) (e : tenv) :
    option (RccDTxn * tenv * gmap Z (gmap Z value)) :=
  r ← RecursiveExecuteReadyPieces
        (ExecSimpleCmd key_columns table_of reports (tid_ t) (phase_ t) txn_reg) (fun _ => true) my_par
        {| pieces_ := dreqs_ t; env := e {{ tparents := tx_parents t }};
           n_executed_pieces := n_executed t; ret := ∅; outputs := output_ t |};
  Some ((set_parents (tparents (env r)) t) {{ dreqs_ := pieces_ r; n_executed := n_executed_pieces r;
                                              output_ := outputs r }}, env r, ret r).

Definition CommitExecAllRdy (my_par : Z) (t : RccDTxn) (e : tenv) :
    option (RccDTxn * tenv * gmap Z (gmap Z value)) :=
  let t := t {{ phase_ := PHASE_RCC_COMMIT; dreqs_ := set_local_executed false <$> dreqs_ t;
                n_executed := 0 }} in
  '(t, e, output_to_send) ← run_ready my_par t e;
  Some (t {{ committed_ := true }}, e, output_to_send).

Definition DispatchExec (my_par : Z) (t : RccDTxn) (e : tenv) : option (RccDTxn * tenv * bool) :=
  '(t, e, _) ← run_ready my_par (t {{ phase_ := PHASE_RCC_DISPATCH }}) e;
  '(e, all_pie_checked) ←
    check_pending key_columns table_of reports (tid_ t) (phase_ t) txn_reg (dreqs_ t)
      (e {{ tparents := tx_parents t }}) true;
  Some (set_parents (tparents e) t, e, all_pie_checked).

(** [TraceDepUnkKey]: the last of the transactions whose keys are not known. *)
Definition TraceDepUnkKey (unk_key_txns : list Z) (t : RccDTxn) : RccDTxn :=
  match last unk_key_txns with
  | Some p => if p =? tid_ t then t else set_parents (set_put p (tx_parents t)) t
  | None => t
  end.
End Pieces.

Inductive event :=
  | FinishReply (tid req r : Z)
  | CommitReply (tid req r : Z)
  | SendOutput (target_par tid : Z) (vars : gmap Z value)
  | SendInquire (par tid : Z)
  | InquireReply (req : Z) (g : gmap Z RccDTxn).

Definition SUCCESS : Z := 0.
Definition REJECT : Z := -10.

(** [ReplyFinishOk]; the callback of a transaction that nobody committed is [verify(0)]. *)
Definition ReplyFinishOk (t : RccDTxn) : option (RccDTxn * list event) :=
  let r := if committed_ t then SUCCESS else REJECT in
  if commit_request_received_ t && negb (debug_replied t) then
    _ ← verify (ptr_output_repy_ t);
    req ← finish_reply_callback_ t;
    Some (t {{ debug_replied := true }}, [FinishReply (tid_ t) req r])
  else Some (t, []).


(** ** Dependencies

    What a procedure traces in the dispatch phase. *)
Section Trace.
Context (tid : Z).

(** The columns a procedure reads or writes with a hint that is traced, in order; a write
    takes effect for the reads after it. *)
Fixpoint accesses (p : prog) (m : gmap (Z * Z) value) : list (Z * Z) :=
  match p with
  | Done _ => []
  | Read row col hint k =>
      (if traced hint then [(row, col)] else [])
      ++ accesses (k (if immediate hint then default VUnknown (m !! (row, col)) else VUnknown)) m
  | Write row col x hint k =>
      (if immediate hint || traced hint then [(row, col)] else [])
      ++ accesses k (if immediate hint then <[(row, col) := x]> m else m)
  | Insert _ _ k => accesses k m
  | Broken => []
  end.

(** The environment [e'] comes from [e] by tracing [l]. *)
Record traces (l : list (Z * Z)) (e e' : tenv) : Prop := {
  tr_last : forall c, last_ e' !! c = if bool_decide (c ∈ l) then Some tid else last_ e !! c;
  tr_parents : forall q, q ∈ tparents e' <->
    q ∈ tparents e \/ (q <> tid /\ exists c, c ∈ l /\ last_ e !! c = Some q) }.

Lemma traces_nil e e' : last_ e' = last_ e -> tparents e' = tparents e -> traces [] e e'.
Proof.
  intros H1 H2. split; [intros c; rewrite H1; now rewrite bool_decide_false by set_solver |].
  intros q. rewrite H2. set_solver.
Qed.

Lemma traces_app l1 l2 e1 e2 e3 : traces l1 e1 e2 -> traces l2 e2 e3 -> traces (l1 ++ l2) e1 e3.
Proof.
  intros [L1 P1] [L2 P2]. split.
  - intros c. rewrite L2, L1. repeat case_bool_decide; set_solver.
  - intros q. rewrite P2, P1. split.
    + intros [[H|H]|[Hq (c & Hc & Hl)]]; [auto | set_solver |]. rewrite L1 in Hl.
      case_bool_decide; [congruence|]. right. split; [exact Hq|]. exists c. set_solver.
    + intros [H|[Hq (c & Hc & Hl)]]; [auto|]. apply elem_of_app in Hc as [Hc|Hc]; [set_solver|].
      destruct (decide (c ∈ l1)); [set_solver|]. right. split; [exact Hq|]. exists c.
      split; [exact Hc|]. rewrite L1. now rewrite bool_decide_false.
Qed.

Lemma set_put_elem k x l : x ∈ set_put k l <-> x = k \/ x ∈ l.
Proof.
  induction l as [|y l IH]; cbn; [set_solver|].
  destruct (k <? y); [set_solver|]. destruct (Z.eqb_spec k y) as [->|]; [set_solver|].
  rewrite !elem_of_cons, IH. tauto.
Qed.

Lemma trace_dep row col e :
  traces [(row, col)] e (TraceDep tid row col e) /\ cells (TraceDep tid row col e) = cells e.
Proof.
  unfold TraceDep. destruct e as [ce la ro tr tp]. cbn.
  destruct (la !! (row, col)) as [p|] eqn:Hl; [destruct (Z.eqb_spec p tid) as [->|Hp]|]; cbn; (split; [|done]).
  all: split; cbn; intros c; rewrite ?lookup_insert, ?set_put_elem; repeat case_bool_decide;
    repeat case_decide; set_solver.
Qed.
End Trace.


Section Dispatched.
Context (key_columns : Z -> list Z) (table_of : Z -> Z) (reports : bool) (tid : Z).

#[local] Notation run_prog := (run_prog key_columns table_of reports tid).

Lemma maybe_trace (b : bool) row col e :
  let e' := if b then TraceDep tid row col e else e in
  traces tid (if b then [(row, col)] else []) e e' /\ cells e' = cells e.
Proof. destruct b; [apply trace_dep | split; [now apply traces_nil | done]]. Qed.

Lemma read_traces row col hint e e' x :
  ReadColumn tid PHASE_RCC_DISPATCH row col hint e = Some (e', x) ->
  traces tid (if traced hint then [(row, col)] else []) e e' /\ cells e' = cells e
  /\ x = if immediate hint then default VUnknown (cells e !! (row, col)) else VUnknown.
Proof.
  unfold ReadColumn. cbn [Z.eqb PHASE_RCC_DISPATCH Pos.eqb].
  destruct (immediate hint); [destruct (cells e !! (row, col)) as [y|] eqn:Hc; [|discriminate]|];
    cbn; intros [= <- <-]; (split; [apply maybe_trace | split; [apply maybe_trace | done]]).
Qed.

Definition same_trace (e e' : tenv) : Prop := last_ e' = last_ e /\ tparents e' = tparents e.
#[export] Instance same_trace_preorder : PreOrder same_trace.
Proof. split; [done | intros a b c [? ?] [? ?]; split; congruence]. Qed.

Lemma write_column_same row col x e e' :
  write_column row col x e = Some e' -> same_trace e e' /\ cells e' = <[(row, col) := x]> (cells e).
Proof.
  unfold write_column. destruct (_ !! _); [|discriminate]. cbn [mbind option_bind]. intros [= <-]. now destruct e.
Qed.

Lemma write_traces row col x hint e e' :
  WriteColumn key_columns table_of reports tid PHASE_RCC_DISPATCH row col x hint e = Some e' ->
  traces tid (if immediate hint || traced hint then [(row, col)] else []) e e'
  /\ cells e' = if immediate hint then <[(row, col) := x]> (cells e) else cells e.
Proof.
  unfold WriteColumn. cbn [Z.eqb PHASE_RCC_DISPATCH PHASE_RCC_COMMIT Pos.eqb].
  rewrite andb_false_r. cbn [mbind option_bind].
  destruct (immediate hint) eqn:Hi; cbn [orb].
  - destruct (write_column row col x e) as [e1|] eqn:Hw; [|discriminate]. cbn [mbind option_bind].
    apply write_column_same in Hw as [[Hl Hp] Hc]. intros [= <-].
    destruct (trace_dep tid row col e1) as [T1 C1].
    destruct (maybe_trace (traced hint) row col (TraceDep tid row col e1)) as [T2 C2]. cbv zeta in *.
    split; [|now rewrite C2, C1].
    pose proof (traces_app tid _ _ _ _ _ T1 T2) as T.
    destruct T as [L P]. split.
    + intros c. rewrite L, Hl. destruct (traced hint); repeat case_bool_decide; set_solver.
    + intros q. rewrite P, Hl, Hp. destruct (traced hint); set_solver.
  - cbn [mbind option_bind]. intros [= <-]. apply maybe_trace.
Qed.

(** A procedure that is dispatched traces the columns it accesses. *)
Lemma run_prog_traces p : forall e e' out,
  run_prog PHASE_RCC_DISPATCH p e = Some (e', out) -> traces tid (accesses p (cells e)) e e'.
Proof.
  induction p as [o|row col hint k IH|row col x hint k IH|tbl vals k IH|]; [| | | |discriminate]; intros e e' out; cbn [Rcc.run_prog accesses].
  - intros [= <- <-]. now apply traces_nil.
  - destruct (ReadColumn _ _ _ _ _ _) as [[e1 y]|] eqn:Hr; [|discriminate]. cbn [mbind option_bind]. intros Hk.
    apply read_traces in Hr as (T & C & ->). eapply traces_app; [exact T|]. apply IH in Hk. now rewrite C in Hk.
  - destruct (WriteColumn _ _ _ _ _ _ _ _ _ _) as [e1|] eqn:Hw; [|discriminate]. cbn [mbind option_bind]. intros Hk.
    apply write_traces in Hw as [T C]. eapply traces_app; [exact T|]. apply IH in Hk. now rewrite C in Hk.
  - unfold InsertRow. cbn [Z.eqb PHASE_RCC_DISPATCH PHASE_RCC_COMMIT Pos.eqb]. rewrite andb_false_r. cbv zeta.
    intros Hk. apply IH in Hk. destruct e. destruct Hk as [L P]. split; [exact L | exact P].
Qed.

(** In the commit phase nothing is traced. *)
Lemma transfer_trace u e : same_trace e (transfer u e).
Proof. now destruct e. Qed.

Lemma write_commit row col x hint e e' :
  WriteColumn key_columns table_of reports tid PHASE_RCC_COMMIT row col x hint e = Some e' -> same_trace e e'.
Proof.
  unfold WriteColumn. cbn [Z.eqb PHASE_RCC_DISPATCH PHASE_RCC_COMMIT Pos.eqb].
  destruct reports; cbn [andb].
  - destruct (mapM _ _) as [key|]; [|discriminate]. cbn [mbind option_bind].
    destruct (_ || _); [|discriminate]. intros [H _]%write_column_same. etransitivity; [apply transfer_trace | exact H].
  - cbn [mbind option_bind]. destruct (_ || _); [|discriminate]. now intros [H _]%write_column_same.
Qed.

Lemma run_prog_commit p : forall e e' out,
  run_prog PHASE_RCC_COMMIT p e = Some (e', out) -> same_trace e e'.
Proof.
  induction p as [o|row col hint k IH|row col x hint k IH|tbl vals k IH|]; [| | | |discriminate]; intros e e' out; cbn [Rcc.run_prog].
  - now intros [= <- <-].
  - unfold ReadColumn. cbn [Z.eqb PHASE_RCC_DISPATCH PHASE_RCC_COMMIT Pos.eqb].
    destruct (_ !! _); [|discriminate]. cbn [mbind option_bind]. apply IH.
  - destruct (WriteColumn _ _ _ _ _ _ _ _ _ _) as [e1|] eqn:Hw; [|discriminate]. cbn [mbind option_bind].
    intros Hk. etransitivity; [eapply write_commit, Hw | eapply IH, Hk].
  - intros Hk%IH. etransitivity; [|exact Hk]. unfold InsertRow.
    cbn [Z.eqb PHASE_RCC_DISPATCH PHASE_RCC_COMMIT Pos.eqb]. destruct reports; cbn [andb].
    + assert (Hf : forall l e0, same_trace e0 (foldl (fun e kx => transfer {| u_op := INSERT; u_tbl := tbl;
        u_col := Z.of_nat kx.1; u_key := []; u_value := kx.2; u_txn := tid |} e) e0 l)).
      { induction l as [|kx l IHl]; intros e0; cbn [foldl]; [done|]. etransitivity; [apply transfer_trace | apply IHl]. }
      specialize (Hf (imap (fun k x => (k, x)) vals) e). destruct (foldl _ _ _). exact Hf.
    + now destruct e.
Qed.
End Dispatched.


(** ** A sequence of dispatches *)
Section Dispatches.
Context (key_columns : Z -> list Z) (table_of : Z -> Z) (reports : bool).
Context (txn_reg : Z -> Z -> option (defer_t * (TxnWorkspace -> prog))) (my_par : Z).

#[local] Notation DispatchExec := (DispatchExec key_columns table_of reports txn_reg my_par).

(** The columns that a piece accesses in a state, in order. *)
Definition cmd_accesses (c : SimpleCommand) (e : tenv) : list (Z * Z) :=
  match txn_reg (root_type_ c) (type_ c) with
  | Some (defer, handler) => if bool_decide (defer = DF_FAKE) then [] else accesses (handler (input c)) (cells e)
  | None => []
  end.

(** The run of a piece with the log of the accesses. *)
Definition logged (tid phase : Z) (c : SimpleCommand) (s : tenv * list (Z * Z)) :
    option ((tenv * list (Z * Z)) * output_map) :=
  '(e, out) ← ExecSimpleCmd key_columns table_of reports tid phase txn_reg c s.1;
  Some ((e, s.2 ++ cmd_accesses c s.1), out).

(** The accesses of the pieces that wait for inputs. *)
Fixpoint pending_accesses (tid : Z) (ps : list SimpleCommand) (e : tenv) : list (Z * Z) :=
  match ps with
  | [] => []
  | c :: ps =>
      if local_executed_ c then pending_accesses tid ps e
      else match txn_reg (root_type_ c) (type_ c) with
           | Some (_, handler) =>
               accesses (handler (input c)) (cells e)
               ++ match run_prog key_columns table_of reports tid PHASE_RCC_DISPATCH (handler (input c)) e with
                  | Some (e, _) => pending_accesses tid ps e
                  | None => []
                  end
           | None => []
           end
  end.

Definition with_parents (ps : list Z) (e : tenv) : tenv := e {{ tparents := ps }}.

(** All columns that the dispatch of a transaction accesses: what its pieces read and write,
    whatever the dispatch records of it. *)
Definition DispatchAccesses (t : RccDTxn) (e : tenv) : list (Z * Z) :=
  match RecursiveExecuteReadyPieces (logged (tid_ t) PHASE_RCC_DISPATCH) (fun _ => true) my_par
          {| pieces_ := dreqs_ t; env := (with_parents (tx_parents t) e, []);
             n_executed_pieces := n_executed t; ret := ∅; outputs := output_ t |} with
  | Some r => (env r).2 ++ pending_accesses (tid_ t) (pieces_ r) (env r).1
  | None => []
  end.

(** The log grows by the columns that were traced. *)
Definition logs (tid : Z) (s s' : tenv * list (Z * Z)) : Prop :=
  exists l, s'.2 = s.2 ++ l /\ traces tid l s.1 s'.1.
#[local] Instance logs_preorder tid : PreOrder (logs tid).
Proof.
  split; [intros s; exists []; rewrite app_nil_r; split; [done | now apply traces_nil] |].
  intros s1 s2 s3 (l1 & E1 & T1) (l2 & E2 & T2). exists (l1 ++ l2). rewrite E2, E1, app_assoc.
  split; [done | eapply traces_app; eauto].
Qed.

Lemma exec_traces tid c e e' out :
  ExecSimpleCmd key_columns table_of reports tid PHASE_RCC_DISPATCH txn_reg c e = Some (e', out) ->
  traces tid (cmd_accesses c e) e e'.
Proof.
  unfold ExecSimpleCmd, cmd_accesses. destruct (txn_reg _ _) as [[d h]|]; [|discriminate]. cbn [mbind option_bind].
  case_bool_decide; [intros [= <- <-]; now apply traces_nil|]. intros Hr. eapply run_prog_traces, Hr.
Qed.

Lemma pending_traces tid ps : forall e b e' b',
  check_pending key_columns table_of reports tid PHASE_RCC_DISPATCH txn_reg ps e b = Some (e', b') ->
  traces tid (pending_accesses tid ps e) e e'.
Proof.
  induction ps as [|c ps IH]; intros e b e' b'; cbn [check_pending pending_accesses];
    [intros [= <- <-]; now apply traces_nil|].
  destruct (local_executed_ c); [apply IH|].
  destruct (txn_reg _ _) as [[d h]|]; [|discriminate]. cbn [mbind option_bind].
  destruct (run_prog _ _ _ _ _ _ _) as [[e1 o]|] eqn:Hr; [|discriminate]. cbn [mbind option_bind].
  destruct (verify _); [|discriminate]. cbn [mbind option_bind]. intros H%IH.
  eapply traces_app; [eapply run_prog_traces, Hr | exact H].
Qed.

(** The dispatch traces exactly the columns that it accesses. *)
Lemma dispatch_traces t e t' e' b :
  DispatchExec t e = Some (t', e', b) ->
  tid_ t' = tid_ t /\ traces (tid_ t) (DispatchAccesses t e) (with_parents (tx_parents t) e) e'
  /\ tx_parents t' = tparents e'.
Proof.
  unfold Rcc.DispatchExec, run_ready, DispatchAccesses.
  set (r0 := {| pieces_ := dreqs_ t; env := (with_parents (tx_parents t) e, []);
                n_executed_pieces := n_executed t; ret := ∅; outputs := output_ t |}).
  pose proof (run_proj (logged (tid_ t) PHASE_RCC_DISPATCH)
    (ExecSimpleCmd key_columns table_of reports (tid_ t) PHASE_RCC_DISPATCH txn_reg) (fun _ => true) fst) as Hproj.
  specialize (Hproj (fun c s => ltac:(unfold logged; now destruct (ExecSimpleCmd _ _ _ _ _ _ _ _) as [[]|])) my_par r0).
  replace (RecursiveExecuteReadyPieces (ExecSimpleCmd key_columns table_of reports (tid_ (t {{ phase_ := PHASE_RCC_DISPATCH }}))
             (phase_ (t {{ phase_ := PHASE_RCC_DISPATCH }})) txn_reg) (fun _ => true) my_par _)
    with (RecursiveExecuteReadyPieces (ExecSimpleCmd key_columns table_of reports (tid_ t) PHASE_RCC_DISPATCH txn_reg)
            (fun _ => true) my_par (proj_run fst r0)) by (now destruct t).
  rewrite Hproj. destruct (RecursiveExecuteReadyPieces (logged _ _) _ _ r0) as [r|] eqn:Hr; [|discriminate].
  cbn [fmap option_fmap option_map mbind option_bind].
  apply (run_env _ _ (logs (tid_ t))) in Hr.
  2:{ intros c s s' out. unfold logged. intros ([e1 o] & He & [= <- <-])%bind_Some.
      exists (cmd_accesses c s.1). split; [done | now apply exec_traces in He]. }
  destruct Hr as (l & El & Tl). cbn [r0 env fst snd app] in El, Tl.
  intros ([e1 b1] & Hp & [= <- <- <-])%bind_Some.
  assert (Tp : traces (tid_ t) (pending_accesses (tid_ t) (pieces_ r) (env r).1) (env r).1 e1).
  { destruct t. cbn in Hp. apply pending_traces in Hp. destruct (env r) as [er lr]. cbn in *.
    destruct er. exact Hp. }
  destruct t. split; [done |]. split; [|done]. rewrite El. eapply traces_app; eauto.
Qed.

(** The dispatches of transactions one after the other, with the transactions they leave and
    the columns they access. *)
Inductive dispatches : tenv -> list (RccDTxn * list (Z * Z)) -> tenv -> Prop :=
  | dispatches_nil e : dispatches e [] e
  | dispatches_cons t e t' e1 b ts e2 :
      DispatchExec t e = Some (t', e1, b) -> dispatches e1 ts e2 ->
      dispatches e ((t', DispatchAccesses t e) :: ts) e2.

Definition depends (ts : list (RccDTxn * list (Z * Z))) (x y : Z) : Prop :=
  exists t l, (t, l) ∈ ts /\ tid_ t = x /\ y ∈ tx_parents t.

Lemma depends_sub ts ts' x y : ts ⊆ ts' -> rtc (depends ts) x y -> rtc (depends ts') x y.
Proof.
  intros Hs R. eapply (rtc_subrel (depends ts)); [|exact R].
  intros u w (t0 & l0 & ? & ? & ?). exists t0, l0. split; [now apply Hs | auto].
Qed.

(** One dispatch: the transaction that has the column depends on the one that had it. *)
Lemma dispatch_links t e t' e1 b c q :
  DispatchExec t e = Some (t', e1, b) -> last_ e !! c = Some q ->
  exists q1, last_ e1 !! c = Some q1 /\ rtc (depends [(t', DispatchAccesses t e)]) q1 q
    /\ (c ∈ DispatchAccesses t e -> q1 = tid_ t').
Proof.
  intros Hd Hq. destruct (dispatch_traces _ _ _ _ _ Hd) as (Ht & [L P] & Hpar).
  assert (Hl : last_ (with_parents (tx_parents t) e) = last_ e) by (now destruct e). rewrite Hl in *.
  rewrite L. case_bool_decide as Hc.
  - exists (tid_ t). split; [done|]. split; [|auto]. destruct (decide (q = tid_ t)) as [->|Hne]; [apply rtc_refl|].
    apply rtc_once. exists t', (DispatchAccesses t e). split; [left|]. split; [exact Ht|]. rewrite Hpar. apply P. right.
    split; [exact Hne|]. exists c. auto.
  - exists q. split; [exact Hq |]. split; [apply rtc_refl | done].
Qed.

(** The transactions that access a column the site has are linked to the one that had it first. *)
Lemma dispatches_links e ts e' : dispatches e ts e' -> forall c q, last_ e !! c = Some q ->
  forall j t l, ts !! j = Some (t, l) -> c ∈ l -> rtc (depends ts) (tid_ t) q.
Proof.
  induction 1 as [e|t0 e t' e1 b ts e2 Hd D IH]; intros c q Hq j t l Hj Hc; [done|].
  destruct (dispatch_links _ _ _ _ _ c q Hd Hq) as (q1 & Hq1 & R1 & Hown).
  apply (depends_sub _ ((t', DispatchAccesses t0 e) :: ts)) in R1; [|set_solver].
  destruct j as [|j]; cbn in Hj.
  - injection Hj as <- <-. now rewrite <- (Hown Hc).
  - etransitivity; [|exact R1]. eapply depends_sub; [|eapply IH; eauto]. set_solver.
Qed.

(** The transaction that has a column at the end is linked to the one that had it first. *)
Lemma dispatches_last e ts e' : dispatches e ts e' -> forall c q, last_ e !! c = Some q ->
  exists q', last_ e' !! c = Some q' /\ rtc (depends ts) q' q.
Proof.
  induction 1 as [e|t0 e t' e1 b ts e2 Hd D IH]; intros c q Hq; [exists q; split; [done | apply rtc_refl] |].
  destruct (dispatch_links _ _ _ _ _ c q Hd Hq) as (q1 & Hq1 & R1 & _). destruct (IH c q1 Hq1) as (q' & Hq' & R2).
  exists q'. split; [exact Hq' |]. etransitivity; [eapply depends_sub, R2 | eapply depends_sub, R1]; set_solver.
Qed.

Lemma accessed_last t e t' e1 b c :
  DispatchExec t e = Some (t', e1, b) -> c ∈ DispatchAccesses t e -> last_ e1 !! c = Some (tid_ t').
Proof.
  intros Hd Hc. destruct (dispatch_traces _ _ _ _ _ Hd) as (-> & [L _] & _). rewrite L. now rewrite bool_decide_true.
Qed.

Lemma dispatches_accessed e ts e' : dispatches e ts e' -> forall c j t l,
  ts !! j = Some (t, l) -> c ∈ l -> exists q, last_ e' !! c = Some q /\ rtc (depends ts) q (tid_ t).
Proof.
  induction 1 as [e|t0 e t' e1 b ts e2 Hd D IH]; intros c j t l Hj Hc; [done |].
  destruct j as [|j]; cbn in Hj.
  - injection Hj as <- <-.
    destruct (dispatches_last _ _ _ D c (tid_ t')) as (q & Hq & R); [exact (accessed_last _ _ _ _ _ c Hd Hc) |].
    exists q. split; [exact Hq | eapply depends_sub, R; set_solver].
  - destruct (IH c j t l Hj Hc) as (q & Hq & R). exists q. split; [exact Hq | eapply depends_sub, R; set_solver].
Qed.

(** C16. The dispatch orders the transactions that access a column on a site: when two
    transactions access the same column, with a hint that is traced, the one that is dispatched
    later depends on the earlier one through a path of parents; and the transaction that the
    column records at the end depends on both, so that later accesses are linked to them too. *)
Theorem conflicts_linked e ts e' c i j ti li tj lj :
  dispatches e ts e' -> ts !! i = Some (ti, li) -> ts !! j = Some (tj, lj) -> (i < j)%nat -> c ∈ li -> c ∈ lj ->
  rtc (depends ts) (tid_ tj) (tid_ ti)
  /\ exists q, last_ e' !! c = Some q /\ rtc (depends ts) q (tid_ tj).
Proof.
  intros D Hi Hj Hij Hci Hcj. split; [|eapply dispatches_accessed; eauto].
  revert i j Hi Hj Hij. induction D as [e|t e t' e1 b ts e2 Hd D IH]; intros i j Hi Hj Hij; [done|].
  destruct j as [|j]; [lia|]. cbn in Hj. destruct i as [|i]; cbn in Hi.
  - injection Hi as <- <-. pose proof (accessed_last _ _ _ _ _ c Hd Hci) as Hl.
    eapply depends_sub; [|eapply dispatches_links; eauto]. set_solver.
  - eapply depends_sub; [|eapply (IH i j); eauto; lia]. set_solver.
Qed.
End Dispatches.

End Rcc.
