(* ===== verification/RccGraph.v ===== *)
(** * The dependency graph of a site and the graphs in messages

    [RccGraph] (deptran/rcc/dep_graph.h and .cc): transactions by identifier.  The graph of
    a scheduler and the graphs that go into messages differ in how a vertex is created for
    a transaction of another graph, which is the parameter [create] of [Aggregate].
    [RebuildEdgePointer] has no statement left, and [vertex_index] is an [unordered_map]:
    each of its loops changes one vertex per step, so that their order has no effect. *)

From Stdlib Require Import ZArith Lia.
From stdpp Require Import base list option gmap sets relations.
From coqutil Require Import Datatypes.RecordSetters.
From S2P Require Import Prelude ALock MemSchema PieceExec DepGraph RccTxn.
Import DoubleBraceUpdate.
Local Open Scope Z_scope.

Module RccGraph.
Import DepGraph Rcc.

Abbreviation rgraph := (gmap Z RccDTxn).

(** [RccSched::CreateV(rhs)]: a new transaction with the partitions and the status. *)
Definition sched_CreateV (rhs : RccDTxn) : RccDTxn :=
  (new_dtxn (tid_ rhs)) {{ partition_ := partition_ rhs; status_ := status_ rhs }}.

Definition UpgradeStatus (v s : Z) (g : rgraph) : option rgraph :=
  t ← g !! v; Some (<[v := union_status s t]> g).

(** The parents of [lhs] after it has met [rhs]. *)
Definition join_parents (lhs rhs : RccDTxn) : RccDTxn :=
  let status1 := status_ lhs in
  let status2 := status_ rhs in
  if (max_seen_ballot_ lhs =? 0) && (status1 <=? TXN_STD) && (status2 <=? TXN_STD) then
    set_parents (set_union (tx_parents lhs) (tx_parents rhs)) lhs
  else if TXN_CMT <=? status2 then
    if status1 <? status2 then set_parents (tx_parents rhs) lhs else lhs
  else if (TXN_PAC <=? status2) && (status1 <=? status2)
          && (max_seen_ballot_ lhs <=? max_accepted_ballot_ rhs) then
    (set_parents (tx_parents rhs) lhs) {{ max_seen_ballot_ := max_accepted_ballot_ rhs }}
  else lhs.

Definition join_dtxn (lhs rhs : RccDTxn) : RccDTxn :=
  let lhs := lhs {{ fast_path_ := fast_path_ lhs && fast_path_ rhs }} in
  let lhs := join_parents lhs rhs in
  lhs {{ partition_ := set_union (partition_ lhs) (partition_ rhs);
         status_ := Z.lor (status_ lhs) (status_ rhs);
         piggybackedShard := piggybackedShard lhs ∪ piggybackedShard rhs }}.

Definition AggregateVertex (create : RccDTxn -> RccDTxn) (rhs : RccDTxn) (g : rgraph) : rgraph :=
  <[tid_ rhs := join_dtxn (default (create rhs) (g !! tid_ rhs)) rhs]> g.

Definition Aggregate (create : RccDTxn -> RccDTxn) (graph g : rgraph) : option rgraph :=
  foldr (fun pair r =>
           g ← r;
           _ ← verify (pair.1 =? tid_ pair.2);
           Some (AggregateVertex create pair.2 g))
    (Some g) (map_to_list graph).

(** ** The part of the graph that goes into a message *)

Definition shards : Z := 1024.

(** The loop over the parents of a transaction, whose copy is [new_v]; [rec] is the
    recursive call.  Every [break] leaves the loop. *)
Fixpoint add_parents (rec : Z -> rgraph * rgraph -> option (rgraph * rgraph)) (new_v : Z)
    (ps : list Z) (s : rgraph * rgraph) : option (rgraph * rgraph) :=
  match ps with
  | [] => Some s
  | p :: ps =>
      let '(g, ng) := s in
      match g !! p, ng !! p with
      | None, _ => Some s
      | Some _, Some _ => Some s
      | Some parent_v, None =>
          let ng := <[p := (new_dtxn p) {{ partition_ := partition_ parent_v }}]> ng in
          nv ← ng !! new_v;
          let ng := <[new_v := set_parents (set_put p (tx_parents nv)) nv]> ng in
          _ ← verify (negb (bool_decide (partition_ parent_v = [])));
          _ ← verify (forallb (fun k => k <? shards) (partition_ parent_v));
          if forallb (fun k => bool_decide (k ∈ piggybackedShard parent_v)) (partition_ parent_v) then
            Some (g, ng)
          else
            let g := <[p := parent_v {{ piggybackedShard := piggybackedShard parent_v
                                          ∪ list_to_set (partition_ parent_v) }}]> g in
            s ← rec p (g, ng);
            add_parents rec new_v ps s
      end
  end.

(** A call adds a vertex of the first graph to the second one, so that one more than the
    number of vertices bounds the depth. *)
Fixpoint AddParentsToMap (fuel : nat) (v : Z) (s : rgraph * rgraph) : option (rgraph * rgraph) :=
  match fuel with
  | O => None
  | S fuel =>
      t ← s.1 !! v;
      add_parents (AddParentsToMap fuel) v (tx_parents t) s
  end.

Definition SelectGraphCmtUkn (v : Z) (g ng : rgraph) : option (rgraph * rgraph) :=
  t ← g !! v;
  let s := status_ t in
  let new_v := union_status (if TXN_DCD <=? s then TXN_CMT else s) (default (new_dtxn v) (ng !! v)) in
  AddParentsToMap (S (size g)) v (g, <[v := new_v {{ partition_ := partition_ t }}]> ng).

(** [quick] leaves an empty graph where the transaction has no parents; the last answer is
    [empty_]. *)
Definition MinItfrGraph (v : Z) (quick : bool) (g ng : rgraph) : option (rgraph * rgraph * bool) :=
  t ← g !! v;
  if bool_decide (tx_parents t = []) && quick then Some (g, ng, true)
  else '(g, ng) ← SelectGraphCmtUkn v g ng; Some (g, ng, false).

(** ** Aggregation *)

(** The index of a graph is right. *)
Definition keyed (g : rgraph) : Prop := map_Forall (fun x t => tid_ t = x) g.

(** [Aggregate] joins the graphs vertex by vertex. *)
Lemma aggregate_lookup create graph g :
  keyed graph ->
  exists g', Aggregate create graph g = Some g'
    /\ forall x, g' !! x = match graph !! x with
                           | Some rhs => Some (join_dtxn (default (create rhs) (g !! x)) rhs)
                           | None => g !! x
                           end.
Proof.
  intros Hk. unfold Aggregate.
  assert (H : forall l, NoDup l.*1 -> (forall p, p ∈ l -> tid_ p.2 = p.1) ->
    exists g', foldr (fun pair r => g ← r; _ ← verify (pair.1 =? tid_ pair.2);
                        Some (AggregateVertex create pair.2 g)) (Some g) l = Some g'
      /\ forall x, g' !! x = match (list_to_map l : rgraph) !! x with
                           | Some rhs => Some (join_dtxn (default (create rhs) (g !! x)) rhs)
                           | None => g !! x
                           end).
  { induction l as [|[k t] l IH]; intros Hn Hl; cbn [foldr].
    - exists g. split; [done|]. intros x. cbn [list_to_map fmap]; change (list_to_map []) with (∅ : rgraph); now rewrite lookup_empty.
    - apply NoDup_cons in Hn as [Hk' Hn].
      destruct IH as (g1 & -> & H1); [exact Hn | intros p Hp; apply Hl; now right |].
      pose proof (Hl (k, t) ltac:(left)) as Ht. cbn in Ht |- *. subst k. rewrite Z.eqb_refl. cbn.
      eexists. split; [reflexivity|]. intros x. unfold AggregateVertex.
      destruct (decide (x = tid_ t)) as [->|Hx].
      + rewrite !lookup_insert_eq. rewrite H1. now rewrite not_elem_of_list_to_map_1 by exact Hk'.
      + rewrite !lookup_insert_ne by congruence. apply H1. }
  destruct (H (map_to_list graph)) as (g' & Hg & Hx).
  - apply NoDup_fst_map_to_list.
  - intros [x t] Hp%elem_of_map_to_list. exact (Hk x t Hp).
  - exists g'. split; [exact Hg|]. intros x. rewrite Hx. now rewrite list_to_map_to_list.
Qed.

Lemma aggregate_keyed create graph g g' :
  (forall t, tid_ (create t) = tid_ t) -> keyed graph -> keyed g ->
  Aggregate create graph g = Some g' -> keyed g'.
Proof.
  intros Hc Hk Hg Ha. destruct (aggregate_lookup create graph g Hk) as (g1 & H1 & Hl).
  rewrite Ha in H1. injection H1 as <-. intros x t. rewrite Hl.
  destruct (graph !! x) as [rhs|] eqn:Hr; [|apply Hg].
  intros [= <-].
  assert (Hj : forall lhs, tid_ (join_dtxn lhs rhs) = tid_ lhs)
    by (intros; unfold join_dtxn, join_parents, set_parents; repeat case_match; reflexivity).
  rewrite Hj. destruct (g !! x) as [lhs|] eqn:Hx; cbn; [now apply Hg | rewrite Hc; now apply Hk].
Qed.

(** The graph that commits a transaction fixes its parents wherever it is not committed. *)
Lemma join_commit lhs rhs :
  TXN_CMT <= status_ rhs -> status_ lhs < status_ rhs ->
  tx_parents (join_dtxn lhs rhs) = tx_parents rhs.
Proof.
  destruct lhs. intros H1 H2. unfold join_dtxn, join_parents, TXN_STD, TXN_CMT in *. cbn in *.
  rewrite (proj2 (Z.leb_gt (status_ rhs) 1)) by lia. rewrite andb_false_r.
  rewrite (proj2 (Z.leb_le 8 (status_ rhs))) by lia.
  now rewrite (proj2 (Z.ltb_lt _ _) H2).
Qed.

(** A second copy of the graph changes no parents. *)
Lemma join_commit_again lhs rhs :
  TXN_CMT <= status_ rhs -> status_ rhs <= status_ lhs ->
  tx_parents (join_dtxn lhs rhs) = tx_parents lhs.
Proof.
  destruct lhs. intros H1 H2. unfold join_dtxn, join_parents, TXN_STD, TXN_CMT in *. cbn in *.
  rewrite (proj2 (Z.leb_gt (status_ rhs) 1)) by lia. rewrite andb_false_r.
  rewrite (proj2 (Z.leb_le 8 (status_ rhs))) by lia.
  now rewrite (proj2 (Z.ltb_ge _ _) H2).
Qed.

(** Of pre-accepted copies the later one counts. *)
Lemma join_preaccepted lhs rhs :
  status_ lhs <= status_ rhs -> status_ rhs = TXN_PAC ->
  max_seen_ballot_ lhs <= max_accepted_ballot_ rhs ->
  tx_parents (join_dtxn lhs rhs) = tx_parents rhs
  /\ max_seen_ballot_ (join_dtxn lhs rhs) = max_accepted_ballot_ rhs.
Proof.
  destruct lhs. intros H1 H2 H3. unfold join_dtxn, join_parents, TXN_STD, TXN_CMT, TXN_PAC in *.
  cbn in *. rewrite H2 in *. rewrite andb_false_r. cbn.
  rewrite (proj2 (Z.leb_le _ _) H1).
  now rewrite (proj2 (Z.leb_le _ _) H3).
Qed.

Lemma join_status lhs rhs : status_ (join_dtxn lhs rhs) = Z.lor (status_ lhs) (status_ rhs).
Proof. destruct lhs. unfold join_dtxn, join_parents, set_parents. cbn. repeat case_match; reflexivity. Qed.


(** ** The graph of a message *)

(** What the traversal leaves alone. *)
Definition unshard (t : RccDTxn) : RccDTxn := t {{ piggybackedShard := ∅ }}.
Definition parent_in (g : rgraph) (x y : Z) : Prop := exists t, g !! x = Some t /\ y ∈ tx_parents t.
Definition in_shards (t : RccDTxn) : Prop :=
  partition_ t <> [] /\ Forall (fun k => k < shards) (partition_ t).

Section Message.
Context (g0 : rgraph) (v st : Z).

(** A graph that is part of the graph [g0], with the transaction [v] and ancestors of it. *)
Record sent (s : rgraph * rgraph) : Prop := {
  sent_same : unshard <$> s.1 = unshard <$> g0;
  sent_root : exists t, s.2 !! v = Some t /\ status_ t = st;
  sent_vertex : forall x nt, s.2 !! x = Some nt ->
    tid_ nt = x /\ rtc (parent_in g0) v x /\ (x <> v -> status_ nt = TXN_UKN)
    /\ exists t, g0 !! x = Some t /\ partition_ nt = partition_ t
       /\ forall y, y ∈ tx_parents nt -> y ∈ tx_parents t /\ is_Some (s.2 !! y) }.

Lemma sent_lookup s x t :
  sent s -> s.1 !! x = Some t ->
  exists t0, g0 !! x = Some t0 /\ partition_ t0 = partition_ t /\ tx_parents t0 = tx_parents t.
Proof.
  intros [Hs _ _] Hx. assert (H : (unshard <$> g0) !! x = Some (unshard t)) by (rewrite <- Hs, lookup_fmap, Hx; done).
  rewrite lookup_fmap in H. destruct (g0 !! x) as [t0|]; [|discriminate]. exists t0.
  apply (inj Some) in H.
  pose proof (f_equal partition_ H) as H1. pose proof (f_equal tx_parents H) as H2.
  destruct t0, t. auto.
Qed.

(** A parent joins the graph of the message. *)
Lemma sent_parent g ng x nv p pv :
  sent (g, ng) -> ng !! x = Some nv -> parent_in g0 x p -> g !! p = Some pv -> ng !! p = None ->
  let ng' := <[p := (new_dtxn p) {{ partition_ := partition_ pv }}]> ng in
  sent (g, <[x := set_parents (set_put p (tx_parents nv)) nv]> ng').
Proof.
  intros S Hx Hp Hpv Hnp ng'. destruct (sent_lookup _ _ _ S Hpv) as (t0 & Ht0 & Hpart & _).
  destruct S as [S1 (tr & Hr & Hst) S3]. cbn [fst snd] in *.
  assert (Hxp : x <> p) by congruence. assert (Hvp : v <> p) by congruence.
  assert (Hmono : forall y, is_Some (ng !! y) -> is_Some (<[x := set_parents (set_put p (tx_parents nv)) nv]> ng' !! y)).
  { intros y Hy. unfold ng'. rewrite !lookup_insert. repeat case_decide; eauto. }
  assert (Hp' : is_Some (<[x := set_parents (set_put p (tx_parents nv)) nv]> ng' !! p))
    by (unfold ng'; rewrite lookup_insert_ne, lookup_insert_eq by done; eauto).
  destruct (S3 x nv Hx) as (T1 & T2 & T3 & t & T4 & T5 & T6).
  split; cbn [fst snd]; [exact S1 | |].
  - unfold ng'. destruct (decide (x = v)) as [->|Hxv].
    + rewrite lookup_insert_eq. eexists. split; [reflexivity|]. rewrite Hx in Hr. injection Hr as <-.
      destruct nv. exact Hst.
    + rewrite !lookup_insert_ne by congruence. eauto.
  - intros y nt. unfold ng'. rewrite lookup_insert. case_decide as Hy.
    + subst y. intros [= <-].
      assert (E : tid_ (set_parents (set_put p (tx_parents nv)) nv) = tid_ nv
                  /\ status_ (set_parents (set_put p (tx_parents nv)) nv) = status_ nv
                  /\ partition_ (set_parents (set_put p (tx_parents nv)) nv) = partition_ nv
                  /\ tx_parents (set_parents (set_put p (tx_parents nv)) nv) = set_put p (tx_parents nv))
        by (now destruct nv).
      destruct E as (-> & -> & -> & ->). split_and!; auto. exists t. split_and!; auto.
      intros z [->|Hz]%set_put_elem.
      * split; [|exact Hp']. destruct Hp as (t' & Ht' & Hin). congruence.
      * destruct (T6 z Hz) as [Z1 Z2]. split; [exact Z1 | now apply Hmono].
    + rewrite lookup_insert. case_decide as Hy'.
      * subst y. intros [= <-]. cbn. split_and!; auto.
        -- eapply rtc_r; eauto.
        -- exists t0. split_and!; auto. intros z Hz. cbn in Hz. set_solver.
      * intros Hnt. destruct (S3 y nt Hnt) as (U1 & U2 & U3 & t' & U4 & U5 & U6).
        split_and!; auto. exists t'. split_and!; auto.
        intros z Hz. destruct (U6 z Hz). split; [done | now apply Hmono].
Qed.

Lemma sent_shards g ng p pv B :
  sent (g, ng) -> g !! p = Some pv -> sent (<[p := pv {{ piggybackedShard := B }}]> g, ng).
Proof.
  intros [S1 S2 S3] Hp. split; auto. cbn [fst snd] in *. rewrite <- S1. rewrite fmap_insert.
  replace (unshard (pv {{ piggybackedShard := B }})) with (unshard pv) by (now destruct pv).
  apply insert_id. rewrite lookup_fmap. now rewrite Hp.
Qed.

Hypothesis shards_ok : map_Forall (fun _ t => in_shards t) g0.

(** The vertices that are not in the message yet. *)
Definition unsent (s : rgraph * rgraph) : nat := size (dom g0 ∖ dom s.2).

Lemma sent_dom s : sent s -> dom s.2 ⊆ dom g0.
Proof.
  intros [_ _ S3] x Hx. apply elem_of_dom in Hx as [nt Hnt]. apply elem_of_dom.
  destruct (S3 x nt Hnt) as (_ & _ & _ & t & Ht & _). eauto.
Qed.

Lemma unsent_mono s s' : dom s.2 ⊆ dom s'.2 -> (unsent s' <= unsent s)%nat.
Proof. intros H. unfold unsent. apply subseteq_size. set_solver. Qed.

Lemma unsent_less s s' p :
  dom s.2 ⊆ dom s'.2 -> p ∈ dom g0 -> p ∉ dom s.2 -> p ∈ dom s'.2 -> (unsent s' < unsent s)%nat.
Proof. intros H1 H2 H3 H4. unfold unsent. apply subset_size. set_solver. Qed.

Lemma add_parents_ok fuel rec x ps s :
  (forall p s, sent s -> is_Some (s.2 !! p) -> (unsent s < fuel)%nat ->
     runs (rec p s) (fun s' => sent s' /\ dom s.2 ⊆ dom s'.2)) ->
  (forall p, p ∈ ps -> parent_in g0 x p) ->
  sent s -> is_Some (s.2 !! x) -> (unsent s <= fuel)%nat ->
  runs (add_parents rec x ps s) (fun s' => sent s' /\ dom s.2 ⊆ dom s'.2).
Proof using shards_ok.
  intros Hrec. revert s. induction ps as [|p ps IH]; intros [g ng] Hps S [nv Hx] Hf; cbn [add_parents].
  - apply runs_ret. auto.
  - destruct (g !! p) as [pv|] eqn:Hp; [|apply runs_ret; auto].
    destruct (ng !! p) as [np|] eqn:Hnp; [apply runs_ret; auto|].
    pose proof (sent_parent _ _ x nv p pv S Hx (Hps p ltac:(left)) Hp Hnp) as S'. cbv zeta in S'.
    assert (Hxp : x <> p) by (cbn in Hx; congruence).
    rewrite lookup_insert_ne by congruence. cbn [fst snd] in Hx. rewrite Hx. cbn [mbind option_bind].
    destruct (sent_lookup _ _ _ S Hp) as (t0 & Ht0 & Hpart & _).
    destruct (shards_ok p t0 Ht0) as [Hne Hlt]. rewrite Hpart in Hne, Hlt.
    rewrite bool_decide_eq_false_2 by exact Hne. cbn [mbind option_bind verify negb].
    assert (Hall : forallb (fun k => k <? shards) (partition_ pv) = true).
    { apply forallb_forall. intros k Hk. rewrite Forall_forall in Hlt. apply Z.ltb_lt, Hlt. now apply list_elem_of_In. }
    rewrite Hall. cbn [mbind option_bind verify].
    assert (Hd : dom ng ⊆ dom (<[x := set_parents (set_put p (tx_parents nv)) nv]>
                    (<[p := (new_dtxn p) {{ partition_ := partition_ pv }}]> ng))) by set_solver.
    clear Hall. destruct (forallb _ (partition_ pv)) eqn:Hskip; [apply runs_ret; auto|].
    pose proof (sent_shards _ _ p pv (piggybackedShard pv ∪ list_to_set (partition_ pv)) S' Hp) as S2.
    eapply runs_bind.
    + apply Hrec; [exact S2 | cbn; rewrite lookup_insert_ne, lookup_insert_eq by done; eauto |].
      eapply Nat.lt_le_trans; [|exact Hf]. apply (unsent_less _ _ p); cbn [snd]; [exact Hd | | |].
      * apply elem_of_dom; eauto.
      * now apply not_elem_of_dom.
      * set_solver.
    + intros [g2 ng2] [S3 Hd3]. cbn [snd] in Hd3.
      eapply runs_mono; [apply IH|].
      * intros q Hq. apply Hps. now right.
      * exact S3.
      * apply elem_of_dom. cbn [snd]. apply Hd3. set_solver.
      * transitivity (unsent (g, ng)); [|exact Hf]. apply unsent_mono. cbn [snd]. set_solver.
      * intros s' [H1 H2]. split; [exact H1|]. cbn [snd] in *. set_solver.
Qed.

Lemma AddParentsToMap_ok fuel : forall x s,
  sent s -> is_Some (s.2 !! x) -> (unsent s < fuel)%nat ->
  runs (AddParentsToMap fuel x s) (fun s' => sent s' /\ dom s.2 ⊆ dom s'.2).
Proof using shards_ok.
  induction fuel as [|fuel IH]; intros x s S Hx Hf; [lia|]. cbn [AddParentsToMap].
  assert (Hd : is_Some (s.1 !! x)).
  { assert (H : is_Some (g0 !! x)) by (apply elem_of_dom, (sent_dom _ S), elem_of_dom, Hx).
    destruct S as [S1 _ _]. apply elem_of_dom. apply elem_of_dom in H.
    rewrite <- (dom_fmap_L unshard s.1), S1, dom_fmap_L. exact H. }
  destruct Hd as [t Ht]. rewrite Ht. cbn.
  destruct (sent_lookup _ _ _ S Ht) as (t0 & Ht0 & _ & Hpar).
  apply (add_parents_ok fuel); [exact IH | | exact S | exact Hx | lia].
  intros p Hp. exists t0. split; [exact Ht0 | now rewrite Hpar].
Qed.
End Message.


(** The graph that a site puts into a message is part of its own graph: it has the
    transaction with its status, or committing if it is decided, ancestors of the transaction
    with an unknown status, all of them with the partitions the site knows, and only edges of
    the graph of the site, which changes in its marks for what was sent and in nothing else. *)
Theorem message_is_part g v t quick :
  g !! v = Some t -> map_Forall (fun _ t => in_shards t) g ->
  runs (MinItfrGraph v quick g ∅) (fun '(g', ng, empty) =>
    unshard <$> g' = unshard <$> g
    /\ if empty : bool then ng = ∅ /\ tx_parents t = []
       else sent g v (if TXN_DCD <=? status_ t then TXN_CMT else status_ t) (g', ng)).
Proof.
  intros Ht Hs. unfold MinItfrGraph. rewrite Ht. cbn [mbind option_bind].
  destruct (bool_decide_reflect (tx_parents t = [])) as [He|He], quick;
    cbn [andb]; try (apply runs_ret; now auto).
  all: unfold SelectGraphCmtUkn; rewrite Ht; cbn [mbind option_bind].
  all: eapply runs_bind;
    [apply (AddParentsToMap_ok g v (if TXN_DCD <=? status_ t then TXN_CMT else status_ t) Hs)
    | intros [g' ng] [S _]; apply runs_ret; split; [exact (sent_same _ _ _ _ S) | exact S]].
  all: try (cbn [snd]; rewrite lookup_insert_eq; eauto).
  all: try (unfold unsent; cbn [snd]; rewrite Nat.lt_succ_r, <- (size_dom g); apply subseteq_size; set_solver).
  all: split; cbn [fst snd]; [reflexivity | rewrite lookup_insert_eq; eexists; split; [reflexivity|] |].
  all: try (rewrite lookup_empty; cbn; rewrite ?Z.lor_0_l; reflexivity).
  all: intros x nt; rewrite lookup_insert; case_decide as Hx; [subst x; intros [= <-]; cbn | now rewrite lookup_empty].
  all: split_and!; [done | apply rtc_refl | done |].
  all: exists t; split_and!; [exact Ht | done |]; intros y; cbn; set_solver.
Qed.

(** A transaction of partition 0 after a transaction of partitions 0 and 1. *)
Definition message_graph : rgraph :=
  <[1 := (new_dtxn 1) {{ partition_ := [0; 1]; status_ := TXN_PAC }}]>
  (<[2 := set_parents [1] ((new_dtxn 2) {{ partition_ := [0]; status_ := TXN_PAC }})]> ∅).

Lemma message_is_part_witness :
  runs (MinItfrGraph 2 false message_graph ∅) (fun '(g', ng, empty) =>
    unshard <$> g' = unshard <$> message_graph
    /\ if empty : bool then ng = ∅ /\ [1] = []
       else sent message_graph 2 TXN_PAC (g', ng)).
Proof.
  eapply runs_mono; [apply (message_is_part message_graph 2 (set_parents [1] ((new_dtxn 2) {{ partition_ := [0]; status_ := TXN_PAC }}))
           false) | intros [[g' ng] e] H; exact H]; [reflexivity|].
  apply map_Forall_insert_2; [|apply map_Forall_insert_2; [|apply map_Forall_empty]];
    (split; [discriminate | repeat constructor]).
Defined.

(** A parent whose ancestors were sent before ends the loop over the parents: the graph of
    the message has it as the only parent, and the parents with larger identifiers are lost. *)
Theorem message_drops_parents g v t p ps pv :
  g !! v = Some t -> tx_parents t = p :: ps -> v <> p -> g !! p = Some pv -> in_shards pv ->
  list_to_set (partition_ pv) ⊆ piggybackedShard pv ->
  exists ng, MinItfrGraph v false g ∅ = Some (g, ng, false) /\ (tx_parents <$> ng !! v) = Some [p].
Proof.
  intros Ht Hps Hvp Hp [Hne Hlt] Hsub. unfold MinItfrGraph. rewrite Ht. cbn [mbind option_bind].
  rewrite andb_false_r. unfold SelectGraphCmtUkn. rewrite Ht. cbn [mbind option_bind].
  cbn [AddParentsToMap fst]. rewrite Ht. cbn [mbind option_bind]. rewrite Hps. cbn [add_parents].
  rewrite Hp, lookup_insert_ne, lookup_empty by done.
  rewrite lookup_insert_ne, lookup_insert_eq by done. cbn [mbind option_bind].
  rewrite bool_decide_eq_false_2 by exact Hne. cbn [mbind option_bind verify negb].
  replace (forallb (fun k => k <? shards) (partition_ pv)) with true.
  2: { symmetry. apply forallb_forall. intros k Hk. rewrite Forall_forall in Hlt.
       apply Z.ltb_lt, Hlt. now apply list_elem_of_In. }
  cbn [mbind option_bind verify].
  replace (forallb (fun k => bool_decide (k ∈ piggybackedShard pv)) (partition_ pv)) with true.
  2: { symmetry. apply forallb_forall. intros k Hk. apply bool_decide_eq_true_2, Hsub.
       apply elem_of_list_to_set. now apply list_elem_of_In. }
  eexists. split; [reflexivity|]. rewrite lookup_insert_eq. reflexivity.
Qed.

(** Transactions 1 and 2 touch one partition; 3 conflicts with both.  The ancestors of 1 went
    into a message before. *)
Definition dropping_graph : rgraph :=
  <[1 := (new_dtxn 1) {{ partition_ := [0]; piggybackedShard := {[ 0 ]} }}]>
  (<[2 := (new_dtxn 2) {{ partition_ := [0] }}]>
  (<[3 := set_parents [1; 2] ((new_dtxn 3) {{ partition_ := [0]; status_ := TXN_PAC }})]> ∅)).

Lemma message_drops_parents_witness :
  exists ng, MinItfrGraph 3 false dropping_graph ∅ = Some (dropping_graph, ng, false)
    /\ (tx_parents <$> ng !! 3) = Some [1].
Proof.
  apply (message_drops_parents dropping_graph 3
           (set_parents [1; 2] ((new_dtxn 3) {{ partition_ := [0]; status_ := TXN_PAC }})) 1 [2]
           ((new_dtxn 1) {{ partition_ := [0]; piggybackedShard := {[ 0 ]} }}));
    [reflexivity | reflexivity | lia | reflexivity | split; [discriminate | repeat constructor] |].
  cbn. set_solver.
Defined.

End RccGraph.
