(* ===== verification/RccSched.v ===== *)
(** * The scheduler of the dependency-tracking protocol

    [RccSched] (deptran/rcc/sched.h and .cc): the transactions of a site, which are the
    vertices of its dependency graph, the transactions that wait, and the loop that decides
    and executes them.  A lock guards every handler, so that a handler is a function of the
    state.  The waitlist is a [std::set] of pointers: [addr] has their addresses, and the
    loop goes through it in the order of the addresses while it grows and shrinks.  The
    clock stands still within a handler. *)

From Stdlib Require Import ZArith Lia.
From stdpp Require Import base list option gmap sets relations sorting.
From coqutil Require Import Datatypes.RecordSetters.
From S2P Require Import Prelude ALock MemSchema PieceExec DepGraph RccTxn RccGraph.
Import DoubleBraceUpdate.
Local Open Scope Z_scope.

Module RccSched.
Import DepGraph Rcc RccGraph.

(** An entry of the order that the analytical side gets: [TransferOrder]. *)
Record order := {
  o_txn : Z; o_parents : list Z; o_type : Z; o_cols : list (Z * Z); o_shards : list Z }.

Record sched := {
  dtxns_ : rgraph;
  waitlist_ : gset Z;
  key_not_known_txns_ : list Z;
  db_ : tenv;
  orders_ : list order;
  events_ : list event }.

Definition emit (es : list event) (s : sched) : sched := s {{ events_ := events_ s ++ es }}.
Definition put (v : Z) (t : RccDTxn) (s : sched) : sched := s {{ dtxns_ := <[v := t]> (dtxns_ s) }}.

(** The vertices of the graph, and the graph with other vertices. *)
Definition vertices (g : rgraph) : graph := vtx <$> g.
Definition with_vertices (vg : graph) (g : rgraph) : rgraph :=
  map_imap (fun x t => Some (t {{ vtx := default (vtx t) (vg !! x) }})) g.

Section Sched.
Context (key_columns : Z -> list Z) (table_of : Z -> Z) (reports : bool).
Context (txn_reg : Z -> Z -> option (defer_t * (TxnWorkspace -> prog))).
Context (my_par : Z) (addr : Z -> Z) (now : Z).

Definition GetOrCreateDTxn (tid : Z) (s : sched) : sched * RccDTxn :=
  let t := default (new_dtxn tid) (dtxns_ s !! tid) in
  let t := t {{ partition_ := set_put my_par (partition_ t) }} in
  (put tid t s, t).

(** [Involve] of the transaction [v]. *)
Definition involves (v : Z) (s : sched) : option (sched * bool) :=
  t ← dtxns_ s !! v;
  let '(t, b) := Involve my_par t in Some (put v t s, b).

(** ** Ancestors

    A callback of [TraversePred] answers for a vertex and changes it.  What it changes has
    no part in its later answers (lemmas [cmt_answer_stable] and [fns_answer_stable]), so
    that the changes may be made when the traversal is over. *)
Definition cmt_answer (t : RccDTxn) : SearchHint :=
  if IsExecuted t || IsAborted t then Skip
  else if bool_decide (involve_flag_ t <> INVOLVED) then
    if (checkInquire now t).2 then Skip else Exit
  else if TXN_CMT <=? status_ t then Ok
  else Exit.

Definition add_check (v : Z) (t : RccDTxn) : RccDTxn := t {{ to_checks_ := {[v]} ∪ to_checks_ t }}.

Definition cmt_effect (v : Z) (t : RccDTxn) : RccDTxn :=
  if IsExecuted t || IsAborted t then t
  else if bool_decide (involve_flag_ t <> INVOLVED) then
    let '(t, b) := checkInquire now t in if b then t else add_check v t
  else if TXN_CMT <=? status_ t then t
  else add_check v t.

Definition ask (answer : RccDTxn -> SearchHint) (g : rgraph) (x : Z) : SearchHint :=
  match g !! x with Some t => answer t | None => Skip end.

(** [TraversePred] with a callback. *)
Definition traverse_with (answer : RccDTxn -> SearchHint) (effect : RccDTxn -> RccDTxn)
    (v : Z) (g : rgraph) : option (rgraph * bool) :=
  '(_, vg, called) ← TraversePred (ask answer g) v (-1) (vertices g);
  Some (foldl (fun g x => alter effect x g) (with_vertices vg g) called,
        forallb (fun x => negb (bool_decide (ask answer g x = Exit))) called).

Definition AllAncCmt (v : Z) (s : sched) : option (sched * bool) :=
  '(g, r) ← traverse_with cmt_answer (cmt_effect v) v (dtxns_ s);
  Some (s {{ dtxns_ := g }}, r).

Definition fns_answer (scc : list Z) (t : RccDTxn) : SearchHint :=
  if IsExecuted t then Skip
  else if bool_decide (involve_flag_ t <> INVOLVED) then
    if (checkInquire now t).2 then Skip else Exit
  else if TXN_DCD <=? status_ t then Ok
  else if bool_decide (tid_ t ∈ scc) then Ok
  else Exit.

Definition fns_effect (scc : list Z) (scc0 : Z) (t : RccDTxn) : RccDTxn :=
  if IsExecuted t then t
  else if bool_decide (involve_flag_ t <> INVOLVED) then
    let '(t, b) := checkInquire now t in if b then t {{ executed_ := true }} else t
  else if TXN_DCD <=? status_ t then t
  else if bool_decide (tid_ t ∈ scc) then t
  else add_check scc0 t.

Definition AllAncFns (scc : list Z) (s : sched) : option (sched * bool) :=
  scc0 ← head scc;
  '(g, r) ← traverse_with (fns_answer scc) (fns_effect scc scc0) scc0 (dtxns_ s);
  Some (s {{ dtxns_ := g }}, r).

Definition FindScc (v : Z) (s : sched) : option (sched * list Z) :=
  '(scc, vg) ← FindSccPred v (vertices (dtxns_ s));
  Some (s {{ dtxns_ := with_vertices vg (dtxns_ s) }}, scc).

(** ** Deciding and executing *)

Fixpoint Decide (scc : list Z) (s : sched) : option sched :=
  match scc with
  | [] => Some s
  | v :: scc => g ← UpgradeStatus v TXN_DCD (dtxns_ s); Decide scc (s {{ dtxns_ := g }})
  end.

(** [std::all_of] stops at the first transaction that is not dispatched. *)
Fixpoint FullyDispatched (scc : list Z) (s : sched) : option (sched * bool) :=
  match scc with
  | [] => Some (s, true)
  | v :: scc =>
      '(s, b) ← involves v s;
      t ← dtxns_ s !! v;
      if negb b || fully_dispatched t then FullyDispatched scc s else Some (s, false)
  end.

Definition outputs_to_send (tid : Z) (out : gmap Z (gmap Z value)) : list event :=
  (fun par => SendOutput par tid (default ∅ (out !! par)))
    <$> filter (fun par => par <> my_par) (merge_sort Z.le (elements (dom out))).

Definition TryExecReadyPieces (v : Z) (is_spec : bool) (s : sched) : option sched :=
  t ← dtxns_ s !! v;
  _ ← verify (IsDecided t);
  '(s, b) ← involves v s;
  if (b : bool) then
    t ← dtxns_ s !! v;
    '(t, e, out) ← CommitExecAllRdy key_columns table_of reports txn_reg my_par t (db_ s);
    let s := emit (outputs_to_send v out) (put v t s) {{ db_ := e }} in
    if is_spec then Some s
    else if n_local_pieces t =? n_executed t then
      '(t, es) ← ReplyFinishOk (t {{ executed_ := true }});
      Some (emit es (put v t s))
    else Some s
  else Some s.

(** [key_not_known_txns_.erase(it)] *)
Fixpoint erase_first (v : Z) (l : list Z) : list Z :=
  match l with
  | [] => []
  | x :: l => if x =? v then l else x :: erase_first v l
  end.

Fixpoint ExecuteScc (scc : list Z) (is_spec : bool) (s : sched) : option (sched * bool) :=
  match scc with
  | [] => Some (s, negb is_spec)
  | v :: scc =>
      s ← TryExecReadyPieces v is_spec s;
      t ← dtxns_ s !! v;
      if IsExecuted t then
        _ ← verify (n_executed t =? n_local_pieces t);
        ExecuteScc scc is_spec (s {{ key_not_known_txns_ := erase_first v (key_not_known_txns_ s) }})
      else if bool_decide (involve_flag_ t <> INVOLVED) then
        ExecuteScc scc is_spec (put v (t {{ executed_ := true }}) s)
      else ExecuteScc scc true s
  end.

(** ** Inquiries *)

Definition InquireAboutIfNeeded (v : Z) (s : sched) : option sched :=
  t ← dtxns_ s !! v;
  if (status_ t <=? TXN_STD) && negb (during_asking t) then
    '(s, b) ← involves v s;
    if (b : bool) then Some s
    else
      t ← dtxns_ s !! v;
      par ← head (partition_ t);
      Some (emit [SendInquire par v] (put v (t {{ during_asking := true }}) s))
  else Some s.

(** The graph that answers an inquiry: copies of the component once it is decided. *)
Definition InquiredGraph (v : Z) (s : sched) : option (sched * rgraph) :=
  t ← dtxns_ s !! v;
  if IsDecided t then
    '(s, scc) ← FindScc v s;
    ts ← mapM (fun x => dtxns_ s !! x) scc;
    Some (s, list_to_map ((fun t => (tid_ t, copy_dtxn t)) <$> ts))
  else
    '(g, ng, _) ← MinItfrGraph v false (dtxns_ s) ∅;
    Some (s {{ dtxns_ := g }}, ng).

Fixpoint answer_all (v : Z) (reqs : list Z) (s : sched) : option sched :=
  match reqs with
  | [] => Some s
  | req :: reqs =>
      '(s, g) ← InquiredGraph v s;
      answer_all v reqs (emit [InquireReply req g] s)
  end.

Definition AnswerIfInquired (v : Z) (s : sched) : option sched :=
  t ← dtxns_ s !! v;
  if TXN_CMT <=? status_ t then
    s ← answer_all v (callbacks_for_inquire_ t) s;
    t ← dtxns_ s !! v;
    Some (put v (t {{ callbacks_for_inquire_ := [] }}) s)
  else Some s.

(** ** [CheckWaitlist] *)

(** The first element of the set after the address [a]. *)
Definition nearer (a : option Z) (x : Z) (best : option Z) : option Z :=
  if from_option (fun a => a <? addr x) true a then
    match best with
    | Some y => if addr y <? addr x then best else Some x
    | None => Some x
    end
  else best.
Definition next_after (a : option Z) (w : gset Z) : option Z :=
  foldr (nearer a) None (elements w).

(** One round of the loop.  The arguments of [Log_debug] call [Involve]. *)
Definition try_execute (v : Z) (s : sched) : option sched :=
  t ← dtxns_ s !! v;
  if (TXN_CMT <=? status_ t) && negb (IsExecuted t) then
    '(s, all_cmt) ← AllAncCmt v s;
    s ← (if (all_cmt : bool) then
           '(s, scc) ← FindScc v s;
           s ← Decide scc s;
           '(s, all_fns) ← AllAncFns scc s;
           if (all_fns : bool) then
             '(s, dispatched) ← FullyDispatched scc s;
             if (dispatched : bool) then fst <$> ExecuteScc scc false s else Some s
           else Some s
         else Some s);
    AnswerIfInquired v s
  else Some s.

(** The checks that wait for a transaction that is over go into the waitlist. *)
Definition adjust (v : Z) (s : sched) : option sched :=
  t ← dtxns_ s !! v;
  '(s, gone) ← (if IsExecuted t || IsAborted t then Some (s, true)
                else '(s, b) ← involves v s; Some (s, negb b));
  if (gone : bool) then
    t ← dtxns_ s !! v;
    Some (put v (t {{ to_checks_ := ∅ }}) s
            {{ waitlist_ := (waitlist_ s ∪ to_checks_ t) ∖ {[v]} }})
  else Some s.

Definition check_one (v : Z) (s : sched) : option sched :=
  '(s, _) ← involves v s;
  s ← InquireAboutIfNeeded v s;
  s ← try_execute v s;
  adjust v s.

(** The addresses grow, so that one more than the number of transactions bounds the rounds. *)
Fixpoint check_from (fuel : nat) (it : option Z) (s : sched) : option sched :=
  match it with
  | None => Some s
  | Some v =>
      match fuel with
      | O => None
      | S fuel => s ← check_one v s; check_from fuel (next_after (Some (addr v)) (waitlist_ s)) s
      end
  end.

Definition CheckWaitlist (s : sched) : option sched :=
  check_from (S (size (dtxns_ s))) (next_after None (waitlist_ s)) s.

Definition TriggerCheckAfterAggregation (graph : rgraph) (s : sched) : option sched :=
  _ ← verify (bool_decide (dom graph ⊆ dom (dtxns_ s)));
  let s := s {{ waitlist_ := waitlist_ s ∪ dom graph }} in
  if bool_decide (graph = ∅) then Some s else CheckWaitlist s.

Definition InquireAck (v : Z) (graph : rgraph) (s : sched) : option sched :=
  t ← dtxns_ s !! v;
  let s := put v (t {{ inquire_acked_ := true }}) s in
  g ← Aggregate sched_CreateV graph (dtxns_ s);
  s ← TriggerCheckAfterAggregation graph (s {{ dtxns_ := g }});
  t ← dtxns_ s !! v;
  _ ← verify (TXN_CMT <=? status_ t);
  Some s.
End Sched.
End RccSched.
