(* ===== verification/RccSafety.v ===== *)
(** * What the scheduler keeps

    Every step of the loop over the waitlist keeps the transactions and their parents,
    raises statuses to decided and no further, and answers a request to commit at most
    once; the loop ends.  The proofs go through a relation [evolves] between the states
    before and after, a preorder that each operation of RccSched.v respects. *)

From Stdlib Require Import ZArith Lia.
From stdpp Require Import base list option gmap sets relations sorting.
From coqutil Require Import Datatypes.RecordSetters.
From S2P Require Import Prelude ALock MemSchema PieceExec DepGraph DepScc DepTraverse RccTxn RccGraph RccSched.
Import DoubleBraceUpdate.
Local Open Scope Z_scope.

Module RccSafety.
Import DepGraph DepTraverse Rcc RccGraph RccSched.

(** ** The relation *)

(** What no step of the loop changes of a transaction, and how its status grows. *)
Record kept (t t' : RccDTxn) : Prop := {
  k_tid : tid_ t' = tid_ t;
  k_parents : tx_parents t' = tx_parents t;
  k_partition : partition_ t' = partition_ t;
  k_ptr : ptr_output_repy_ t' = ptr_output_repy_ t;
  k_commit : commit_request_received_ t' = commit_request_received_ t;
  k_callback : finish_reply_callback_ t' = finish_reply_callback_ t;
  k_local : n_local_pieces t' = n_local_pieces t;
  k_ballot : max_seen_ballot_ t' = max_seen_ballot_ t;
  k_status : status_ t' = status_ t \/ status_ t' = Z.lor (status_ t) TXN_DCD;
  k_executed : executed_ t = true -> executed_ t' = true }.

#[export] Instance kept_preorder : PreOrder kept.
Proof.
  split; [intros t; split; auto|].
  intros a b c [] []. split; try congruence; [|auto].
  destruct k_status0 as [Ha|Ha], k_status1 as [Hb|Hb]; rewrite Hb, Ha; auto.
  right. now rewrite <- Z.lor_assoc, Z.lor_diag.
Qed.

Definition reply_of (x : Z) (ev : event) : bool :=
  match ev with
  | FinishReply tid _ _ | CommitReply tid _ _ => tid =? x
  | _ => false
  end.
Definition replies (x : Z) (es : list event) : nat := length (List.filter (reply_of x) es).
#[global] Arguments replies : simpl never.

Lemma replies_app x es es' : replies x (es ++ es') = (replies x es + replies x es')%nat.
Proof. unfold replies. now rewrite List.filter_app, length_app. Qed.

Definition only_success (ev : event) : Prop :=
  match ev with FinishReply _ _ r | CommitReply _ _ r => r = SUCCESS | _ => True end.

(** A transaction is answered when its flag is raised. *)
Definition answered (x : Z) (t t' : RccDTxn) (es : list event) : Prop :=
  (debug_replied t' = debug_replied t /\ replies x es = 0%nat)
  \/ (debug_replied t = false /\ debug_replied t' = true /\ commit_request_received_ t = true
      /\ executed_ t' = true /\ replies x es = 1%nat).

(** The waitlist and the checks name transactions of the site. *)
Definition wl_ok (s : sched) : Prop :=
  waitlist_ s ⊆ dom (dtxns_ s) /\ map_Forall (fun _ t => to_checks_ t ⊆ dom (dtxns_ s)) (dtxns_ s).

Definition index_ok (s : sched) : Prop := keyed (dtxns_ s).

Record evolves (s s' : sched) : Prop := {
  ev_dom : dom (dtxns_ s') = dom (dtxns_ s);
  ev_kept : forall x t t', dtxns_ s !! x = Some t -> dtxns_ s' !! x = Some t' -> kept t t';
  ev_events : exists es, events_ s' = events_ s ++ es /\ Forall only_success es
    /\ (forall x, x ∉ dom (dtxns_ s) -> replies x es = 0%nat)
    /\ (forall x t t', dtxns_ s !! x = Some t -> dtxns_ s' !! x = Some t' -> answered x t t' es);
  ev_orders : orders_ s' = orders_ s;
  ev_wl : wl_ok s -> wl_ok s' }.

#[export] Instance evolves_preorder : PreOrder evolves.
Proof.
  split.
  - intros s. split; auto.
    + intros x t t' H1 H2. rewrite H1 in H2. injection H2 as <-. reflexivity.
    + exists []. rewrite app_nil_r. split_and!; auto. intros x t t' H1 H2. rewrite H1 in H2. injection H2 as <-.
      left. auto.
  - intros a b c [D1 K1 (e1 & E1 & F1 & N1 & A1) O1 W1] [D2 K2 (e2 & E2 & F2 & N2 & A2) O2 W2].
    assert (Hmid : forall x t, dtxns_ a !! x = Some t -> exists t1, dtxns_ b !! x = Some t1).
    { intros x t Hx. assert (H : x ∈ dom (dtxns_ b)) by (rewrite D1; apply elem_of_dom; eauto).
      apply elem_of_dom in H as [t1 H]. eauto. }
    split; [congruence | | | congruence | auto].
    + intros x t t' H1 H2. destruct (Hmid x t H1) as [t1 Ht]. etransitivity; eauto.
    + exists (e1 ++ e2). split_and!.
      * rewrite E2, E1. now rewrite app_assoc.
      * apply Forall_app. auto.
      * intros x Hx. rewrite replies_app, (N1 x Hx), (N2 x); [done | congruence].
      * intros x t t' H1 H2. destruct (Hmid x t H1) as [t1 Ht].
        pose proof (K1 x t t1 H1 Ht) as K. pose proof (K2 x t1 t' Ht H2) as K'.
        destruct (A1 x t t1 H1 Ht) as [(?&?)|(?&?&?&?&?)], (A2 x t1 t' Ht H2) as [(?&?)|(?&?&?&?&?)];
          unfold answered; rewrite replies_app.
        -- left. split; [congruence | lia].
        -- right. split_and!; [congruence | auto | rewrite <- (k_commit _ _ K); auto | auto | lia].
        -- right. split_and!; [auto | congruence | auto | apply (k_executed _ _ K'); auto | lia].
        -- congruence.
Qed.

(** ** Steps *)

Lemma no_replies x es : Forall (fun ev => reply_of x ev = false) es -> replies x es = 0%nat.
Proof. unfold replies. induction 1 as [|ev es Hev _ IH]; cbn; [done | now rewrite Hev]. Qed.

(** The transactions change one by one, nobody is answered. *)
Lemma evolves_quiet s s' es :
  dom (dtxns_ s') = dom (dtxns_ s) ->
  (forall x t t', dtxns_ s !! x = Some t -> dtxns_ s' !! x = Some t' ->
     kept t t' /\ debug_replied t' = debug_replied t) ->
  events_ s' = events_ s ++ es -> (forall x, Forall (fun ev => reply_of x ev = false) es) ->
  orders_ s' = orders_ s -> (wl_ok s -> wl_ok s') -> evolves s s'.
Proof.
  intros Hd Hk He Hr Ho Hw.
  assert (Hz : forall x, replies x es = 0%nat) by (intros x; apply no_replies, Hr).
  split; auto.
  - intros x t t' H1 H2. now destruct (Hk x t t' H1 H2).
  - exists es. split_and!; auto.
    + apply Forall_forall. intros ev Hev. destruct ev; try exact I;
        (pose proof (Hr tid) as H; rewrite Forall_forall in H; specialize (H _ Hev); cbn in H;
         now rewrite Z.eqb_refl in H).
    + intros x t t' H1 H2. left. destruct (Hk x t t' H1 H2). auto.
Qed.

Lemma evolves_put v t t' s :
  dtxns_ s !! v = Some t -> kept t t' -> debug_replied t' = debug_replied t ->
  (forall x, x ∈ to_checks_ t' -> x ∈ to_checks_ t \/ x ∈ dom (dtxns_ s)) ->
  evolves s (put v t' s).
Proof.
  intros Hv K Hr Hc. destruct s as [g w kn db od ev]. cbn in *.
  assert (Hd : dom (<[v := t']> g) = dom g) by (apply dom_insert_lookup_L; eauto).
  apply (evolves_quiet _ _ []); cbn; rewrite ?app_nil_r; auto.
  - intros x u u'. rewrite lookup_insert. case_decide; [subst x; rewrite Hv; intros [= <-] [= <-]; auto|].
    intros H1 H2. rewrite H1 in H2. injection H2 as <-. split; [reflexivity | done].
  - intros [W1 W2]. split; cbn in *; rewrite Hd; [exact W1|].
    intros x u. rewrite lookup_insert. case_decide; [subst; intros [= <-]|apply W2].
    intros y Hy. destruct (Hc y Hy); [now apply (W2 x t) | auto].
Qed.

Lemma evolves_waitlist w s : w ⊆ dom (dtxns_ s) -> evolves s (s {{ waitlist_ := w }}).
Proof.
  intros Hw. destruct s as [g w0 kn db od ev]. cbn in *. apply (evolves_quiet _ _ []); cbn; rewrite ?app_nil_r; auto.
  - intros x t t' H1 H2. rewrite H1 in H2. injection H2 as <-. split; [reflexivity | done].
  - intros [_ W2]. split; cbn; auto.
Qed.

(** Changes of the database and of the transactions whose keys are not known. *)
Lemma evolves_rest e l s : evolves s (s {{ db_ := e; key_not_known_txns_ := l }}).
Proof.
  destruct s as [g w0 kn db od ev]. apply (evolves_quiet _ _ []); cbn; rewrite ?app_nil_r; auto.
  intros x t t' H1 H2. rewrite H1 in H2. injection H2 as <-. split; [reflexivity | done].
Qed.

Lemma evolves_emit es s : (forall x, Forall (fun ev => reply_of x ev = false) es) -> evolves s (emit es s).
Proof.
  intros Hr. destruct s as [g w0 kn db od ev]. apply (evolves_quiet _ _ es); cbn; auto.
  intros x t t' H1 H2. rewrite H1 in H2. injection H2 as <-. split; [reflexivity | done].
Qed.

Lemma evolves_graph g s :
  dom g = dom (dtxns_ s) ->
  (forall x t t', dtxns_ s !! x = Some t -> g !! x = Some t' ->
     kept t t' /\ debug_replied t' = debug_replied t
     /\ forall y, y ∈ to_checks_ t' -> y ∈ to_checks_ t \/ y ∈ dom (dtxns_ s)) ->
  evolves s (s {{ dtxns_ := g }}).
Proof.
  intros Hd Hk. destruct s as [g0 w0 kn db od ev]. cbn in *.
  apply (evolves_quiet _ _ []); cbn; rewrite ?app_nil_r; auto.
  - intros x t t' H1 H2. destruct (Hk x t t' H1 H2) as (? & ? & _). auto.
  - intros [W1 W2]. split; cbn in *; rewrite Hd; [exact W1|]. intros x t' Ht'.
    assert (Hx : x ∈ dom g0) by (rewrite <- Hd; apply elem_of_dom; eauto). apply elem_of_dom in Hx as [t Ht].
    destruct (Hk x t t' Ht Ht') as (_ & _ & Hc). intros y Hy. destruct (Hc y Hy); [now apply (W2 x t) | auto].
Qed.

(** ** The operations *)

(** A change of one transaction that answers nobody; [D] has the transactions of the site. *)
Record calm (D : gset Z) (t t' : RccDTxn) : Prop := {
  c_kept : kept t t';
  c_replied : debug_replied t' = debug_replied t;
  c_checks : forall y, y ∈ to_checks_ t' -> y ∈ to_checks_ t \/ y ∈ D }.

#[export] Instance calm_preorder D : PreOrder (calm D).
Proof.
  split; [intros t; split; auto; reflexivity|]. intros a b c [K1 R1 C1] [K2 R2 C2].
  split; [etransitivity; eauto | congruence |]. intros y Hy. destruct (C2 y Hy); auto.
Qed.

(** Solves [calm] and [kept] for updates of fields that they do not mention. *)
Ltac calm_fields t :=
  destruct t; split; [split; cbn; auto | reflexivity | cbn; auto].

Lemma evolves_calm g s :
  dom g = dom (dtxns_ s) ->
  (forall x t t', dtxns_ s !! x = Some t -> g !! x = Some t' -> calm (dom (dtxns_ s)) t t') ->
  evolves s (s {{ dtxns_ := g }}).
Proof.
  intros Hd Hc. apply evolves_graph; [exact Hd|]. intros x t t' H1 H2. now destruct (Hc x t t' H1 H2).
Qed.

Lemma evolves_put_calm v t t' s :
  dtxns_ s !! v = Some t -> calm (dom (dtxns_ s)) t t' -> evolves s (put v t' s).
Proof. intros Hv [K R C]. eapply evolves_put; eauto. Qed.

Lemma involve_calm D par t : calm D t (Involve par t).1.
Proof.
  unfold Involve. destruct (involve_flag_ t); [| reflexivity | reflexivity]. cbn [fst].
  destruct (IsCommitting t); [calm_fields t | reflexivity].
Qed.

Lemma checkInquire_calm D now t : calm D t (checkInquire now t).1.
Proof. unfold checkInquire. destruct (_ =? _); [calm_fields t | reflexivity]. Qed.

Lemma add_check_calm (D : gset Z) v t : v ∈ D -> calm D t (add_check v t).
Proof. intros Hv. destruct t; split; [split; cbn; auto | reflexivity | cbn; set_solver]. Qed.

(** *** Traversals *)

Definition same_parents (g g' : graph) : Prop := forall x, parents_ <$> g' !! x = parents_ <$> g !! x.
#[export] Instance same_parents_preorder : PreOrder same_parents.
Proof. split; [done | intros a b c H1 H2 x; now rewrite H2, H1]. Qed.

Lemma same_parents_put g v vx vx' :
  g !! v = Some vx -> parents_ vx' = parents_ vx -> same_parents g (<[v := vx']> g).
Proof. intros Hv Hp x. rewrite lookup_insert. case_decide; [subst; rewrite Hv; cbn; congruence | done]. Qed.

Lemma traverse_edges func fuel : forall v depth w ret w',
  traverse func fuel v depth w = Some (ret, w') -> same_parents (w_graph w) (w_graph w').
Proof.
  induction fuel as [|fuel IH]; intros v depth w ret w'; cbn [traverse]; [discriminate|].
  destruct (w_graph w !! v) as [vx|] eqn:Hv; [|discriminate]. cbn [mbind option_bind].
  destruct (walked_ vx); [now intros [= <- <-]|].
  assert (Hm : same_parents (w_graph w) (w_graph (mark v vx w))) by (eapply same_parents_put; eauto).
  intros H. etransitivity; [exact Hm|]. clear Hm Hv. revert H. generalize (mark v vx w), Ok.
  induction (parents_ vx) as [|p ps IHp]; intros w1 r1; cbn [traverse_parents]; [now intros [= <- <-]|].
  destruct (FindV p (w_graph w1)) eqn:Hf; [|apply IHp].
  change (w_graph w1) with (w_graph (called p w1)). destruct (func p).
  - now intros [= <- <-].
  - destruct (_ || _); [|apply IHp].
    destruct (traverse func fuel p _ _) as [[r2 w2]|] eqn:Ht; [|discriminate]. cbn [mbind option_bind].
    apply IH in Ht. case_bool_decide; [now intros [= <- <-]|]. intros Hr%IHp. etransitivity; eauto.
  - apply IHp.
Qed.

Lemma traverse_pred_edges func v depth g ret g' log :
  TraversePred func v depth g = Some (ret, g', log) -> same_parents g g'.
Proof.
  unfold TraversePred. destruct (traverse _ _ _ _ _) as [[r w]|] eqn:Ht; [|discriminate].
  cbn [mbind option_bind]. intros [= <- <- <-]. apply traverse_edges in Ht. cbn in Ht.
  etransitivity; [exact Ht|]. intros x. rewrite unmark_all. case_bool_decide; [|done].
  now destruct (w_graph w !! x).
Qed.

Lemma set_scc_edges l ptr : forall g g', set_scc l ptr g = Some g' -> same_parents g g'.
Proof.
  induction l as [|v l IH]; intros g g'; cbn [set_scc]; [now intros [= <-]|].
  destruct (g !! v) as [vx|] eqn:Hv; [|discriminate]. cbn [mbind option_bind].
  destruct (verify _); [|discriminate]. cbn [mbind option_bind]. intros H%IH.
  etransitivity; [|exact H]. eapply same_parents_put; [exact Hv | done].
Qed.

Lemma find_scc_edges v g l g' : FindSccPred v g = Some (l, g') -> same_parents g g'.
Proof.
  unfold FindSccPred. destruct (g !! v) as [vx|]; [|discriminate]. cbn [mbind option_bind].
  destruct (scc_ vx); [now intros [= <- <-]|].
  destruct (StrongConnectPred _ _ _ _) as [[ptr st]|]; [|discriminate]. cbn [mbind option_bind].
  destruct (set_scc ptr ptr g) as [g1|] eqn:Hs; [|discriminate]. intros [= <- <-]. eapply set_scc_edges, Hs.
Qed.

Lemma with_vertices_lookup vg g x :
  with_vertices vg g !! x = (fun t => t {{ vtx := default (vtx t) (vg !! x) }}) <$> g !! x.
Proof. unfold with_vertices. rewrite map_lookup_imap. now destruct (g !! x). Qed.

Lemma with_vertices_dom vg g : dom (with_vertices vg g) = dom g.
Proof.
  apply set_eq. intros x. rewrite !elem_of_dom, with_vertices_lookup. destruct (g !! x); cbn; [|done].
  split; eauto.
Qed.

Lemma with_vertices_calm D vg g x t t' :
  same_parents (vertices g) vg -> g !! x = Some t -> with_vertices vg g !! x = Some t' -> calm D t t'.
Proof.
  intros Hs Hx. rewrite with_vertices_lookup, Hx. intros [= <-].
  specialize (Hs x). unfold vertices in Hs. rewrite lookup_fmap, Hx in Hs.
  destruct (vg !! x) as [vx|]; [|discriminate]. injection Hs as Hs. calm_fields t.
Qed.

Lemma alter_all_calm D effect (l : list Z) : forall g,
  (forall t, calm D t (effect t)) ->
  dom (foldl (fun g x => alter effect x g) g l) = dom (g : rgraph)
  /\ forall x t t', g !! x = Some t -> foldl (fun g x => alter effect x g) g l !! x = Some t' -> calm D t t'.
Proof.
  induction l as [|v l IH]; intros g He; cbn [foldl].
  - split; [done|]. intros x t t' H1 H2. rewrite H1 in H2. injection H2 as <-. reflexivity.
  - destruct (IH (alter effect v g) He) as [Hd Hc]. split; [rewrite Hd; apply dom_alter_L|].
    intros x t t' H1 H2. destruct (decide (x = v)) as [->|Hne].
    + etransitivity; [apply He | eapply Hc; [|exact H2]]. now rewrite lookup_alter_eq, H1.
    + eapply Hc; [|exact H2]. now rewrite lookup_alter_ne by auto.
Qed.

Lemma traverse_with_calm D answer effect v g g' b :
  (forall t, calm D t (effect t)) -> traverse_with answer effect v g = Some (g', b) ->
  dom g' = dom g /\ forall x t t', g !! x = Some t -> g' !! x = Some t' -> calm D t t'.
Proof.
  intros He. unfold traverse_with. destruct (TraversePred _ _ _ _) as [[[r vg] log]|] eqn:Ht; [|discriminate].
  cbn [mbind option_bind]. intros [= <- <-]. apply traverse_pred_edges in Ht.
  destruct (alter_all_calm D effect log (with_vertices vg g) He) as [Hd Hc].
  split; [rewrite Hd; apply with_vertices_dom|]. intros x t t' H1 H2.
  assert (H3 : exists t1, with_vertices vg g !! x = Some t1) by (rewrite with_vertices_lookup, H1; eauto).
  destruct H3 as [t1 H3]. etransitivity; [eapply with_vertices_calm; eauto | eapply Hc; eauto].
Qed.


Section Ops.
Context (key_columns : Z -> list Z) (table_of : Z -> Z) (reports : bool).
Context (txn_reg : Z -> Z -> option (defer_t * (TxnWorkspace -> prog))).
Context (my_par : Z) (addr : Z -> Z) (now : Z).

#[local] Notation TryExecReadyPieces := (TryExecReadyPieces key_columns table_of reports txn_reg my_par).
#[local] Notation ExecuteScc := (ExecuteScc key_columns table_of reports txn_reg my_par).
#[local] Notation try_execute := (try_execute key_columns table_of reports txn_reg my_par now).
#[local] Notation check_one := (check_one key_columns table_of reports txn_reg my_par now).

Lemma involves_evolves v s s' b : involves my_par v s = Some (s', b) -> evolves s s'.
Proof.
  unfold involves. destruct (dtxns_ s !! v) as [t|] eqn:Hv; [|discriminate]. cbn [mbind option_bind].
  pose proof (involve_calm (dom (dtxns_ s)) my_par t) as Hc. destruct (Involve my_par t) as [t' b'].
  intros [= <- <-]. eapply evolves_put_calm; eauto.
Qed.

Lemma cmt_effect_calm (D : gset Z) v t : v ∈ D -> calm D t (cmt_effect now v t).
Proof.
  intros Hv. unfold cmt_effect. destruct (_ || _); [reflexivity|]. case_bool_decide.
  - pose proof (checkInquire_calm D now t) as Hc. destruct (checkInquire now t) as [t' [|]]; [exact Hc|].
    etransitivity; [exact Hc | now apply add_check_calm].
  - destruct (_ <=? _); [reflexivity | now apply add_check_calm].
Qed.

Lemma fns_effect_calm (D : gset Z) scc v t : v ∈ D -> calm D t (fns_effect now scc v t).
Proof.
  intros Hv. unfold fns_effect. destruct (IsExecuted t); [reflexivity|]. case_bool_decide.
  - pose proof (checkInquire_calm D now t) as Hc. destruct (checkInquire now t) as [t' [|]]; [|exact Hc].
    etransitivity; [exact Hc | calm_fields t'].
  - destruct (_ <=? _); [reflexivity|]. case_bool_decide; [reflexivity | now apply add_check_calm].
Qed.

Lemma traverse_with_dom answer effect v g g' b :
  traverse_with answer effect v g = Some (g', b) -> v ∈ dom g.
Proof.
  unfold traverse_with, TraversePred. cbn [traverse w_graph].
  destruct (vertices g !! v) as [vx|] eqn:Hv; [|discriminate]. intros _.
  unfold vertices in Hv. rewrite lookup_fmap in Hv. apply elem_of_dom. destruct (g !! v); [eauto | discriminate].
Qed.

Lemma AllAncCmt_evolves v s s' b : AllAncCmt now v s = Some (s', b) -> evolves s s'.
Proof.
  unfold AllAncCmt. destruct (traverse_with _ _ _ _) as [[g r]|] eqn:Ht; [|discriminate]. cbn [mbind option_bind].
  intros [= <- <-]. pose proof (traverse_with_dom _ _ _ _ _ _ Ht) as Hv.
  destruct (traverse_with_calm (dom (dtxns_ s)) _ _ _ _ _ _ (fun t => cmt_effect_calm _ v t Hv) Ht) as [Hd Hc].
  now apply evolves_calm.
Qed.

Lemma AllAncFns_evolves scc s s' b : AllAncFns now scc s = Some (s', b) -> evolves s s'.
Proof.
  unfold AllAncFns. destruct (head scc) as [v|]; [|discriminate]. cbn [mbind option_bind].
  destruct (traverse_with _ _ _ _) as [[g r]|] eqn:Ht; [|discriminate]. cbn [mbind option_bind].
  intros [= <- <-]. pose proof (traverse_with_dom _ _ _ _ _ _ Ht) as Hv.
  destruct (traverse_with_calm (dom (dtxns_ s)) _ _ _ _ _ _ (fun t => fns_effect_calm _ scc v t Hv) Ht) as [Hd Hc].
  now apply evolves_calm.
Qed.

Lemma FindScc_evolves v s s' scc : FindScc v s = Some (s', scc) -> evolves s s'.
Proof.
  unfold FindScc. destruct (FindSccPred _ _) as [[l vg]|] eqn:Hf; [|discriminate]. cbn [mbind option_bind].
  intros [= <- <-]. apply find_scc_edges in Hf. apply evolves_calm; [apply with_vertices_dom|].
  intros x t t' H1 H2. eapply with_vertices_calm; eauto.
Qed.

Lemma union_dcd_calm D t : calm D t (union_status TXN_DCD t).
Proof. calm_fields t. Qed.

Lemma Decide_evolves scc : forall s s', Decide scc s = Some s' -> evolves s s'.
Proof.
  induction scc as [|v scc IH]; intros s s'; cbn [Decide]; [now intros [= <-]|].
  unfold UpgradeStatus. destruct (dtxns_ s !! v) as [t|] eqn:Hv; [|discriminate]. cbn [mbind option_bind].
  intros H%IH. etransitivity; [|exact H]. apply (evolves_put_calm v t (union_status TXN_DCD t)); [exact Hv|].
  apply union_dcd_calm.
Qed.

Lemma FullyDispatched_evolves scc : forall s s' b, FullyDispatched my_par scc s = Some (s', b) -> evolves s s'.
Proof.
  induction scc as [|v scc IH]; intros s s' b; cbn [FullyDispatched]; [now intros [= <- <-]|].
  destruct (involves my_par v s) as [[s1 b1]|] eqn:Hi; [|discriminate]. cbn [mbind option_bind].
  apply involves_evolves in Hi. destruct (dtxns_ s1 !! v); [|discriminate]. cbn [mbind option_bind].
  destruct (_ || _); [intros H%IH; etransitivity; eauto | now intros [= <- <-]].
Qed.

(** The pieces run; the parents stay, as nothing is traced in the commit phase. *)
Lemma commit_exec_calm D t e t' e' out :
  CommitExecAllRdy key_columns table_of reports txn_reg my_par t e = Some (t', e', out) ->
  calm D t t' /\ committed_ t' = true.
Proof.
  unfold CommitExecAllRdy, run_ready.
  destruct (RecursiveExecuteReadyPieces _ _ _ _) as [r|] eqn:Hr; [|discriminate]. cbn [mbind option_bind].
  intros [= <- <- <-].
  assert (Hp : same_trace (e {{ tparents := tx_parents t }}) (env r)).
  { destruct t. eapply (run_env _ _ same_trace) in Hr; [exact Hr|]. intros c e0 e1 o.
    unfold ExecSimpleCmd. destruct (txn_reg _ _) as [[d h]|]; [|discriminate]. cbn [mbind option_bind].
    case_bool_decide; [now intros [= <- <-] | apply run_prog_commit]. }
  destruct Hp as [_ Hp]. destruct t, e. cbn in *. split; [|done]. split; [split; cbn; auto | done | cbn; auto].
Qed.

Lemma outputs_no_replies x tid out :
  Forall (fun ev => reply_of x ev = false) (outputs_to_send my_par tid out).
Proof. apply Forall_fmap, Forall_forall. now intros. Qed.

Lemma reply_evolves v t t' es s :
  dtxns_ s !! v = Some t -> tid_ t = v -> committed_ t = true ->
  ReplyFinishOk (t {{ executed_ := true }}) = Some (t', es) -> evolves s (emit es (put v t' s)).
Proof.
  intros Hv Ht Hc. unfold ReplyFinishOk.
  destruct (commit_request_received_ (t {{ executed_ := true }}) && _) eqn:Hb.
  - apply andb_prop in Hb as [Hb1 Hb2]. destruct t. cbn in *. subst. cbn. destruct ptr_output_repy_0; [|discriminate].
    cbn. destruct finish_reply_callback_0 as [req|]; [|discriminate]. cbn. intros [= <- <-].
    set (t := {| tid_ := v |}) in *. destruct debug_replied0; [discriminate|].
    destruct s as [g w kn db od ev]. cbn in *.
    assert (Hd : forall u, dom (<[v := u]> g) = dom g) by (intros u; apply dom_insert_lookup_L; eauto).
    split; cbn; rewrite ?Hd; auto.
    + intros x u u'. rewrite lookup_insert. case_decide; [subst x; rewrite Hv; intros [= <-] [= <-]; split; cbn; auto|].
      intros H1 H2. rewrite H1 in H2. injection H2 as <-. reflexivity.
    + exists [FinishReply v req SUCCESS]. split_and!; [done | repeat constructor | |].
      * intros x Hx. apply no_replies. constructor; [|constructor]. cbn. apply Z.eqb_neq. intros ->. apply Hx.
        apply elem_of_dom. eauto.
      * intros x u u'. rewrite lookup_insert. case_decide.
        -- subst x. rewrite Hv. intros [= <-] [= <-]. right. unfold replies. cbn.
           rewrite Z.eqb_refl. auto.
        -- intros H1 H2. rewrite H1 in H2. injection H2 as <-. left. split; [done|].
           apply no_replies. constructor; [|constructor]. cbn. now apply Z.eqb_neq.
    + intros [W1 W2]. split; cbn in *; rewrite Hd; [exact W1|].
      intros x u. rewrite lookup_insert. case_decide; [subst x; intros [= <-]; cbn; exact (W2 v t Hv) | apply W2].
  - intros [= <- <-]. etransitivity; [|apply evolves_emit; intros; constructor].
    eapply evolves_put_calm; [exact Hv|]. calm_fields t.
Qed.

Lemma TryExec_evolves v is_spec s s' :
  index_ok s -> TryExecReadyPieces v is_spec s = Some s' -> evolves s s'.
Proof.
  intros Hk. unfold RccSched.TryExecReadyPieces. destruct (dtxns_ s !! v) as [t|] eqn:Hv; [|discriminate].
  cbn [mbind option_bind]. destruct (verify _); [|discriminate]. cbn [mbind option_bind].
  destruct (involves my_par v s) as [[s1 b]|] eqn:Hi; [|discriminate]. cbn [mbind option_bind].
  apply involves_evolves in Hi. destruct b; [|now intros [= <-]].
  destruct (dtxns_ s1 !! v) as [t1|] eqn:Hv1; [|discriminate]. cbn [mbind option_bind].
  assert (Ht1 : tid_ t1 = v).
  { pose proof (ev_kept _ _ Hi v t t1 Hv Hv1) as K. rewrite (k_tid _ _ K). exact (Hk v t Hv). }
  destruct (CommitExecAllRdy _ _ _ _ _ _ _) as [[[t2 e2] out]|] eqn:Hc; [|discriminate]. cbn [mbind option_bind].
  destruct (commit_exec_calm (dom (dtxns_ s1)) _ _ _ _ _ Hc) as [Hcalm Hcm].
  set (s2 := emit (outputs_to_send my_par v out) (put v t2 s1) {{ db_ := e2 }}).
  assert (E2 : evolves s1 s2).
  { etransitivity; [eapply evolves_put_calm; eauto|].
    etransitivity; [apply (evolves_rest e2 (key_not_known_txns_ s1))|].
    replace s2 with (emit (outputs_to_send my_par v out)
                       ((put v t2 s1) {{ db_ := e2; key_not_known_txns_ := key_not_known_txns_ s1 }}))
      by (now destruct s1).
    apply evolves_emit. intros. apply outputs_no_replies. }
  assert (Hv2 : dtxns_ s2 !! v = Some t2) by (destruct s1; cbn; apply lookup_insert_eq).
  clearbody s2. destruct is_spec; [intros [= <-]; etransitivity; eauto|].
  destruct (_ =? _); [|intros [= <-]; etransitivity; eauto].
  destruct (ReplyFinishOk _) as [[t3 es]|] eqn:Hr; [|discriminate]. cbn [mbind option_bind]. intros [= <-].
  etransitivity; [exact Hi|]. etransitivity; [exact E2|]. eapply reply_evolves; eauto.
  rewrite (k_tid _ _ (c_kept _ _ _ Hcalm)). exact Ht1.
Qed.
Lemma index_evolves s s' : evolves s s' -> index_ok s -> index_ok s'.
Proof.
  intros E Hk x t' Ht'. assert (Hx : x ∈ dom (dtxns_ s)) by (rewrite <- (ev_dom _ _ E); apply elem_of_dom; eauto).
  apply elem_of_dom in Hx as [t Ht]. rewrite (k_tid _ _ (ev_kept _ _ E x t t' Ht Ht')). exact (Hk x t Ht).
Qed.

Lemma ExecuteScc_evolves scc : forall is_spec s s' b,
  index_ok s -> ExecuteScc scc is_spec s = Some (s', b) -> evolves s s'.
Proof.
  induction scc as [|v scc IH]; intros is_spec s s' b Hk; cbn [RccSched.ExecuteScc]; [now intros [= <- <-]|].
  destruct (TryExecReadyPieces v is_spec s) as [s1|] eqn:Ht; [|discriminate]. cbn [mbind option_bind].
  apply TryExec_evolves in Ht; [|exact Hk]. pose proof (index_evolves _ _ Ht Hk) as Hk1.
  destruct (dtxns_ s1 !! v) as [t|] eqn:Hv; [|discriminate]. cbn [mbind option_bind].
  destruct (IsExecuted t); [|case_bool_decide].
  - destruct (verify _); [|discriminate]. cbn [mbind option_bind]. intros H.
    assert (E : evolves s1 (s1 {{ key_not_known_txns_ := erase_first v (key_not_known_txns_ s1) }})).
    { replace (s1 {{ key_not_known_txns_ := erase_first v (key_not_known_txns_ s1) }})
        with (s1 {{ db_ := db_ s1; key_not_known_txns_ := erase_first v (key_not_known_txns_ s1) }})
        by (now destruct s1). apply evolves_rest. }
    apply IH in H; [|now apply (index_evolves _ _ E)]. etransitivity; [exact Ht|]. etransitivity; eauto.
  - intros Hx. assert (E : evolves s1 (put v (t {{ executed_ := true }}) s1))
      by (eapply evolves_put_calm; [exact Hv | calm_fields t]).
    apply IH in Hx; [|now apply (index_evolves _ _ E)]. etransitivity; [exact Ht|]. etransitivity; eauto.
  - intros Hx%IH; [etransitivity; eauto | exact Hk1].
Qed.

Lemma InquireAbout_evolves v s s' : InquireAboutIfNeeded my_par v s = Some s' -> evolves s s'.
Proof.
  unfold InquireAboutIfNeeded. destruct (dtxns_ s !! v) as [t|] eqn:Hv; [|discriminate]. cbn [mbind option_bind].
  destruct (_ && _); [|now intros [= <-]].
  destruct (involves my_par v s) as [[s1 b]|] eqn:Hi; [|discriminate]. cbn [mbind option_bind].
  apply involves_evolves in Hi. destruct b; [now intros [= <-]|].
  destruct (dtxns_ s1 !! v) as [t1|] eqn:Hv1; [|discriminate]. cbn [mbind option_bind].
  destruct (head _) as [par|]; [|discriminate]. cbn [mbind option_bind]. intros [= <-].
  etransitivity; [exact Hi|]. etransitivity; [apply (evolves_put_calm v t1 (t1 {{ during_asking := true }})); [exact Hv1 | calm_fields t1]|].
  apply evolves_emit. intros x. repeat constructor.
Qed.

(** The graph for a message leaves the transactions alone but for their marks. *)
Lemma add_parents_unshard rec v ps : forall s s',
  (forall p s s', rec p s = Some s' -> unshard <$> s'.1 = unshard <$> s.1) ->
  add_parents rec v ps s = Some s' -> unshard <$> s'.1 = unshard <$> s.1.
Proof.
  induction ps as [|p ps IH]; intros [g ng] s' Hr; cbn [add_parents]; [now intros [= <-]|].
  destruct (g !! p) as [pv|] eqn:Hp; [|now intros [= <-]]. destruct (ng !! p); [now intros [= <-]|].
  intros (nv & _ & (? & _ & (? & _ & H)%bind_Some)%bind_Some)%bind_Some. revert H.
  destruct (forallb _ _); [now intros [= <-]|]. intros (s1 & H1 & H2)%bind_Some.
  rewrite (IH _ _ Hr H2), (Hr _ _ _ H1). cbn [fst]. rewrite fmap_insert.
  apply insert_id. rewrite lookup_fmap, Hp. cbn. now destruct pv.
Qed.

Lemma AddParentsToMap_unshard fuel : forall v s s',
  AddParentsToMap fuel v s = Some s' -> unshard <$> s'.1 = unshard <$> s.1.
Proof.
  induction fuel as [|fuel IH]; intros v s s'; cbn [AddParentsToMap]; [discriminate|].
  destruct (s.1 !! v) as [t|]; [|discriminate]. cbn [mbind option_bind]. now apply add_parents_unshard.
Qed.

Lemma MinItfrGraph_unshard v quick g ng g' ng' b :
  MinItfrGraph v quick g ng = Some (g', ng', b) -> unshard <$> g' = unshard <$> g.
Proof.
  unfold MinItfrGraph, SelectGraphCmtUkn. destruct (g !! v) as [t|]; [|discriminate]. cbn [mbind option_bind].
  destruct (_ && quick); [now intros [= <- <- <-]|].
  destruct (AddParentsToMap _ _ _) as [[g1 ng1]|] eqn:Ha; [|discriminate]. cbn [mbind option_bind].
  intros [= <- <- <-]. now apply AddParentsToMap_unshard in Ha.
Qed.

Lemma unshard_calm D (g g' : rgraph) x t t' :
  unshard <$> g' = unshard <$> g -> g !! x = Some t -> g' !! x = Some t' -> calm D t t'.
Proof.
  intros Hu Hx Hx'. assert (H : unshard t' = unshard t).
  { apply (inj Some). change (Some (unshard t')) with (unshard <$> Some t').
    rewrite <- Hx', <- lookup_fmap, Hu, lookup_fmap, Hx. done. }
  assert (Ht : t' = t {{ piggybackedShard := piggybackedShard t' }}).
  { transitivity ((unshard t') {{ piggybackedShard := piggybackedShard t' }}); [now destruct t'|].
    rewrite H. now destruct t. }
  rewrite Ht. generalize (piggybackedShard t'). intros B. calm_fields t.
Qed.
Lemma InquiredGraph_evolves v s s' g : InquiredGraph v s = Some (s', g) -> evolves s s'.
Proof.
  unfold InquiredGraph. destruct (dtxns_ s !! v) as [t|]; [|discriminate]. cbn [mbind option_bind].
  destruct (IsDecided t).
  - intros ([s1 scc] & Hf & (ts & _ & [= <- <-])%bind_Some)%bind_Some. eapply FindScc_evolves, Hf.
  - intros ([[g1 ng] b] & Hm & [= <- <-])%bind_Some. apply MinItfrGraph_unshard in Hm.
    apply evolves_calm; [|intros x u u'; now apply unshard_calm].
    rewrite <- (dom_fmap_L unshard g1), Hm. apply dom_fmap_L.
Qed.

Lemma answer_all_evolves v reqs : forall s s', answer_all v reqs s = Some s' -> evolves s s'.
Proof.
  induction reqs as [|req reqs IH]; intros s s'; cbn [answer_all]; [now intros [= <-]|].
  intros ([s1 g] & H1 & H2)%bind_Some. apply InquiredGraph_evolves in H1. apply IH in H2.
  etransitivity; [exact H1|]. etransitivity; [|exact H2]. apply evolves_emit. intros x. repeat constructor.
Qed.

Lemma AnswerIfInquired_evolves v s s' : AnswerIfInquired v s = Some s' -> evolves s s'.
Proof.
  unfold AnswerIfInquired. intros (t & Hv & H)%bind_Some. revert H.
  destruct (_ <=? _); [|now intros [= <-]]. intros (s1 & H1 & (t1 & Hv1 & <-%(inj Some))%bind_Some)%bind_Some.
  apply answer_all_evolves in H1. etransitivity; [exact H1|].
  apply (evolves_put_calm v t1 (t1 {{ callbacks_for_inquire_ := [] }})); [exact Hv1 | calm_fields t1].
Qed.

Lemma try_execute_evolves v s s' : index_ok s -> try_execute v s = Some s' -> evolves s s'.
Proof.
  intros Hk. unfold RccSched.try_execute. intros (t & Hv & H)%bind_Some. revert H.
  destruct (_ && _); [|now intros [= <-]]. intros ([s1 all_cmt] & H1 & (s2 & H2 & H3)%bind_Some)%bind_Some.
  apply AllAncCmt_evolves in H1. apply AnswerIfInquired_evolves in H3.
  etransitivity; [exact H1|]. etransitivity; [|exact H3]. pose proof (index_evolves _ _ H1 Hk) as Hk1.
  revert H2. destruct all_cmt; [|now intros [= <-]].
  intros ([s3 scc] & F & (s4 & Dc & ([s5 fns] & A & H)%bind_Some)%bind_Some)%bind_Some.
  apply FindScc_evolves in F. apply Decide_evolves in Dc. apply AllAncFns_evolves in A.
  assert (E : evolves s1 s5) by (etransitivity; [exact F|]; etransitivity; eauto). clear F Dc A.
  etransitivity; [exact E|]. pose proof (index_evolves _ _ E Hk1) as Hk5.
  revert H. destruct fns; [|now intros [= <-]]. intros ([s6 d] & Hd & H)%bind_Some.
  apply FullyDispatched_evolves in Hd. etransitivity; [exact Hd|]. pose proof (index_evolves _ _ Hd Hk5) as Hk6.
  revert H. destruct d; [|now intros [= <-]]. intros ([s7 b7] & He & ->)%fmap_Some.
  eapply ExecuteScc_evolves; eauto.
Qed.

Lemma adjust_evolves v s s' : adjust my_par v s = Some s' -> wl_ok s -> evolves s s'.
Proof.
  unfold adjust. intros (t & Hv & ([s1 gone] & H1 & H2)%bind_Some)%bind_Some Hw.
  assert (E1 : evolves s s1).
  { revert H1. destruct (_ || _); [now intros [= <- <-]|].
    intros ([s2 b] & Hi & [= <- <-])%bind_Some. eapply involves_evolves, Hi. }
  etransitivity; [exact E1|]. apply (ev_wl _ _ E1) in Hw as [W1 W2].
  destruct gone; [|now injection H2 as <-].
  apply bind_Some in H2 as (t1 & Hv1 & <-%(inj Some)).
  set (s2 := s1 {{ waitlist_ := (waitlist_ s1 ∪ to_checks_ t1) ∖ {[v]} }}).
  assert (E2 : evolves s1 s2).
  { apply evolves_waitlist. specialize (W2 v t1 Hv1). cbn in W2. set_solver. }
  etransitivity; [exact E2|].
  apply (evolves_put_calm v t1 (t1 {{ to_checks_ := ∅ }})); [now destruct s1|].
  destruct t1; split; [split; cbn; auto | done | cbn; set_solver].
Qed.

Lemma check_one_evolves v s s' : index_ok s -> wl_ok s -> check_one v s = Some s' -> evolves s s'.
Proof.
  intros Hk Hw. unfold RccSched.check_one.
  intros ([s1 b] & H1 & (s2 & H2 & (s3 & H3 & H4)%bind_Some)%bind_Some)%bind_Some.
  apply involves_evolves in H1. apply InquireAbout_evolves in H2.
  assert (E : evolves s s2) by (etransitivity; eauto).
  apply try_execute_evolves in H3; [|now apply (index_evolves _ _ E)].
  assert (E' : evolves s s3) by (etransitivity; eauto).
  etransitivity; [exact E'|]. eapply adjust_evolves; [exact H4 | now apply (ev_wl _ _ E')].
Qed.

(** ** The loop ends *)

Lemma next_after_spec a (w : gset Z) :
  match next_after addr a w with
  | Some v => v ∈ w /\ from_option (fun a => a < addr v) True a
  | None => forall v, v ∈ w -> ~ from_option (fun a => a < addr v) True a
  end.
Proof.
  unfold next_after.
  assert (H : forall l, match foldr (nearer addr a) None l with
    | Some v => v ∈ l /\ from_option (fun a => a < addr v) True a
    | None => forall v, v ∈ l -> ~ from_option (fun a => a < addr v) True a
    end).
  { induction l as [|x l IH]; cbn [foldr]; [set_solver|]. unfold nearer at 1.
    destruct (from_option (fun a => a <? addr x) true a) eqn:Hx.
    - assert (Hx' : from_option (fun a => a < addr x) True a) by (destruct a; cbn in *; [now apply Z.ltb_lt | done]).
      destruct (foldr _ _ l) as [y|]; [destruct (addr y <? addr x)|]; set_solver.
    - assert (Hx' : ~ from_option (fun a => a < addr x) True a)
        by (destruct a; cbn in *; [intros H; apply Z.ltb_lt in H; congruence | discriminate]).
      destruct (foldr _ _ l) as [y|]; [set_solver|]. intros v [->|Hv]%elem_of_cons; auto. }
  specialize (H (elements w)). destruct (foldr _ _ _) as [v|].
  - now rewrite elem_of_elements in H.
  - intros v Hv. apply H. now apply elem_of_elements.
Qed.
#[local] Notation CheckWaitlist := (CheckWaitlist key_columns table_of reports txn_reg my_par addr now).
#[local] Notation check_from := (check_from key_columns table_of reports txn_reg my_par addr now).

(** Rounds of the loop, from an address on: the transactions it looks at. *)
Inductive rounds : option Z -> sched -> list Z -> sched -> Prop :=
  | rounds_nil a s : rounds a s [] s
  | rounds_cons a s v s1 vs s2 :
      next_after addr a (waitlist_ s) = Some v -> check_one v s = Some s1 ->
      rounds (Some (addr v)) s1 vs s2 -> rounds a s (v :: vs) s2.

(** The address after the rounds. *)
Definition reached (a : option Z) (vs : list Z) : option Z :=
  match last vs with Some v => Some (addr v) | None => a end.

Lemma reached_cons a v vs : reached a (v :: vs) = reached (Some (addr v)) vs.
Proof.
  unfold reached. destruct vs as [|x vs]; [done|]. rewrite last_cons_cons.
  destruct (last (x :: vs)) eqn:El; [done|]. apply last_None in El. discriminate.
Qed.

(** The transactions with larger addresses. *)
Definition above (a : option Z) (x : Z) : bool := from_option (fun a => a <? addr x) true a.
Definition ahead (a : option Z) (g : rgraph) : nat := length (List.filter (above a) (elements (dom g))).

Lemma filter_less {A} (P Q : A -> bool) (l : list A) v :
  (forall x, Q x = true -> P x = true) -> v ∈ l -> P v = true -> Q v = false ->
  (length (List.filter Q l) < length (List.filter P l))%nat.
Proof.
  intros Hpq Hv HP HQ. induction l as [|x l IH]; [set_solver|]. cbn.
  assert (Hle : forall l, (length (List.filter Q l) <= length (List.filter P l))%nat).
  { induction l0 as [|y l0 IHl]; cbn; [lia|]. destruct (Q y) eqn:Hq; [rewrite (Hpq y Hq); cbn; lia|].
    destruct (P y); cbn; lia. }
  apply elem_of_cons in Hv as [<-|Hv].
  - rewrite HP, HQ. cbn. specialize (Hle l). lia.
  - specialize (IH Hv). destruct (Q x) eqn:Hq; [rewrite (Hpq x Hq); cbn; lia|]. destruct (P x); cbn; lia.
Qed.

Lemma ahead_less a v g :
  v ∈ dom g -> from_option (fun a => a < addr v) True a -> (ahead (Some (addr v)) g < ahead a g)%nat.
Proof.
  intros Hv Ha. apply (filter_less _ _ _ v).
  - intros x. unfold above. cbn. destruct a as [a|]; cbn in *; [|done]. rewrite !Z.ltb_lt. lia.
  - now apply elem_of_elements.
  - unfold above. destruct a; cbn in *; [now apply Z.ltb_lt | done].
  - unfold above. cbn. now rewrite Z.ltb_irrefl.
Qed.

Lemma check_from_rounds fuel : forall a s,
  index_ok s -> wl_ok s -> (ahead a (dtxns_ s) < fuel)%nat ->
  exists vs s', rounds a s vs s' /\ evolves s s'
    /\ (length vs <= ahead a (dtxns_ s))%nat
    /\ ((check_from fuel (next_after addr a (waitlist_ s)) s = Some s'
         /\ next_after addr (reached a vs) (waitlist_ s') = None)
        \/ (check_from fuel (next_after addr a (waitlist_ s)) s = None
            /\ exists v, next_after addr (reached a vs) (waitlist_ s') = Some v /\ check_one v s' = None)).
Proof.
  induction fuel as [|fuel IH]; intros a s Hk Hw Hf; [lia|].
  pose proof (next_after_spec a (waitlist_ s)) as Hn.
  destruct (next_after addr a (waitlist_ s)) as [v|] eqn:Ha; cbn [RccSched.check_from].
  - destruct Hn as [Hv Hlt]. assert (Hd : v ∈ dom (dtxns_ s)) by (now apply Hw).
    pose proof (ahead_less a v _ Hd Hlt) as Hl.
    destruct (check_one v s) as [s1|] eqn:Hc; cbn [mbind option_bind].
    + pose proof (check_one_evolves v s s1 Hk Hw Hc) as E.
      assert (Heq : ahead (Some (addr v)) (dtxns_ s1) = ahead (Some (addr v)) (dtxns_ s))
        by (unfold ahead; now rewrite (ev_dom _ _ E)).
      destruct (IH (Some (addr v)) s1) as (vs & s' & R & E' & Hlen & Hres);
        [now apply (index_evolves _ _ E) | now apply (ev_wl _ _ E) | lia |].
      exists (v :: vs), s'. rewrite reached_cons. split_and!; [econstructor; eauto | etransitivity; eauto | cbn; lia |].
      exact Hres.
    + exists [], s. split_and!; [constructor | reflexivity | cbn; lia | right]. eauto.
  - exists [], s. split_and!; [constructor | reflexivity | cbn; lia | left]. auto.
Qed.

Lemma rounds_sorted a s vs s' :
  rounds a s vs s' -> Sorted (fun x y => addr x < addr y) vs
  /\ forall v, head vs = Some v -> from_option (fun a => a < addr v) True a.
Proof.
  induction 1 as [a s|a s v s1 vs s2 Hn Hc R [IH1 IH2]]; [split; [constructor | discriminate]|].
  pose proof (next_after_spec a (waitlist_ s)) as Hs. rewrite Hn in Hs. split.
  - constructor; [exact IH1|]. destruct vs as [|x vs]; constructor. now apply IH2.
  - intros v' [= <-]. apply Hs.
Qed.

(** C14. [CheckWaitlist] ends, although its rounds add to the waitlist: it looks at transactions
    of increasing addresses, at no more than the site has, and no round but one whose checks fail
    stops it before it is through with the waitlist.  Its rounds keep the transactions, their
    parents and partitions, change a status to decided and no further, and send only positive
    replies, one for each transaction whose flag they raise. *)
Theorem check_waitlist_ends s :
  index_ok s -> wl_ok s ->
  exists vs s', rounds None s vs s' /\ evolves s s' /\ Sorted (fun x y => addr x < addr y) vs
    /\ (length vs <= size (dtxns_ s))%nat
    /\ ((CheckWaitlist s = Some s' /\ next_after addr (reached None vs) (waitlist_ s') = None)
        \/ (CheckWaitlist s = None
            /\ exists v, next_after addr (reached None vs) (waitlist_ s') = Some v /\ check_one v s' = None)).
Proof.
  intros Hk Hw. assert (Hsz : (ahead None (dtxns_ s) <= size (dtxns_ s))%nat).
  { unfold ahead. rewrite <- size_dom. unfold size, set_size. cbn. apply List.filter_length_le. }
  destruct (check_from_rounds (S (size (dtxns_ s))) None s Hk Hw) as (vs & s' & R & E & Hl & Hres); [lia|].
  exists vs, s'. split_and!; [exact R | exact E | now apply (rounds_sorted _ _ _ _ R) | lia | exact Hres].
Qed.
End Ops.


(** ** Ancestors *)
Section Ancestors.
Context (now : Z).

(** The answers do not depend on what the callback did before. *)
Lemma cmt_answer_stable v t : cmt_answer now t <> Exit -> cmt_answer now (cmt_effect now v t) = cmt_answer now t.
Proof.
  unfold cmt_answer, cmt_effect. destruct (_ || _) eqn:H1; [now rewrite H1|].
  case_bool_decide as H2; [|destruct (_ <=? _) eqn:H3; [|done]].
  - unfold checkInquire. destruct (inquiretimer_ t =? 0) eqn:H4; [done|].
    destruct (100 <? _) eqn:H5; [|done]. intros _.
    rewrite H1. rewrite bool_decide_eq_true_2 by exact H2. rewrite H4. cbn. now rewrite H5.
  - intros _. rewrite H1. rewrite bool_decide_eq_false_2 by congruence. now rewrite H3.
Qed.

Lemma fns_answer_stable scc v t :
  fns_answer now scc t <> Exit -> fns_answer now scc (fns_effect now scc v t) <> Exit.
Proof.
  unfold fns_answer, fns_effect. destruct (IsExecuted t) eqn:H1; [now rewrite H1|].
  case_bool_decide as H2; [|destruct (_ <=? _) eqn:H3; [|case_bool_decide as H4; [|done]]].
  - unfold checkInquire. destruct (inquiretimer_ t =? 0) eqn:H4; [done|].
    destruct (100 <? _) eqn:H5; [|done]. intros _. now destruct t.
  - intros _. rewrite H1, bool_decide_eq_false_2, H3 by congruence. done.
  - intros _. rewrite H1, bool_decide_eq_false_2, H3, bool_decide_eq_true_2 by (assumption || congruence). done.
Qed.

(** An ancestor that does not hold a transaction back. *)
Definition settled (t : RccDTxn) : Prop :=
  IsExecuted t = true \/ IsAborted t = true
  \/ (involve_flag_ t <> INVOLVED /\ inquiretimer_ t <> 0 /\ 100 < now - inquiretimer_ t)
  \/ (involve_flag_ t = INVOLVED /\ TXN_CMT <= status_ t).

Lemma cmt_answer_settled t : cmt_answer now t <> Exit <-> settled t.
Proof.
  unfold cmt_answer, settled. destruct (IsExecuted t), (IsAborted t); cbn [orb]; try (split; auto; fail).
  case_bool_decide as H2.
  - unfold checkInquire. destruct (Z.eqb_spec (inquiretimer_ t) 0) as [H3|H3]; cbn [snd].
    + split; [done|]. intros [?|[?|[(_ & ? & _)|[? _]]]]; congruence.
    + destruct (Z.ltb_spec 100 (now - inquiretimer_ t)); [split; auto; intros _; right; right; left; auto|].
      split; [done|]. intros [?|[?|[(_ & _ & ?)|[? _]]]]; [congruence | congruence | lia | congruence].
  - destruct (Z.leb_spec TXN_CMT (status_ t)); [split; auto; intros _; right; right; right; auto|].
    split; [done|]. intros [?|[?|[(? & _)|[_ ?]]]]; [congruence | congruence | congruence | lia].
Qed.

(** The ancestors of [v] that are reached through ancestors with a property. *)
Definition through (P : Z -> RccDTxn -> Prop) (g : rgraph) (v y : Z) : Prop :=
  exists x, rtc (fun a b => dep (vertices g) a b /\ exists t, g !! b = Some t /\ P b t) v x /\ dep (vertices g) x y.

(** Committed at this site, and neither executed nor aborted. *)
Definition committed_here (_ : Z) (t : RccDTxn) : Prop :=
  IsExecuted t = false /\ IsAborted t = false /\ involve_flag_ t = INVOLVED /\ TXN_CMT <= status_ t.

Definition ancestor (g : rgraph) (v y : Z) : Prop := through committed_here g v y.

Lemma cmt_answer_ok x t : cmt_answer now t = Ok <-> committed_here x t.
Proof.
  unfold cmt_answer, committed_here. destruct (IsExecuted t), (IsAborted t); cbn [orb];
    try (split; [discriminate | intros (? & ? & _); discriminate]).
  case_bool_decide as H2.
  - split; [now destruct (checkInquire now t).2 | intros (_ & _ & H & _); contradiction].
  - assert (Hi : involve_flag_ t = INVOLVED) by (destruct (decide (involve_flag_ t = INVOLVED)); tauto).
    destruct (Z.leb_spec TXN_CMT (status_ t)); split; auto; [discriminate | intros (_ & _ & _ & ?); lia].
Qed.

Lemma asked_through P g vg func v y :
  (forall a b, dep vg a b <-> dep (vertices g) a b) ->
  (forall b t, g !! b = Some t -> func b = Ok <-> P b t) ->
  asked func vg v y <-> through P g v y.
Proof.
  intros Hd Hf. unfold asked, through.
  assert (Hstep : forall a b, ok_step func vg a b <-> dep (vertices g) a b /\ exists t, g !! b = Some t /\ P b t).
  { intros a b. unfold ok_step. rewrite Hd. split; [intros [H1 H2] | intros [H1 (t & Ht & HP)]].
    - split; [exact H1 |]. destruct H1 as (_ & _ & _ & [vb Hb]). unfold vertices in Hb. rewrite lookup_fmap in Hb.
      destruct (g !! b) as [t|] eqn:Eb; [|discriminate]. exists t. split; [done |]. now apply (Hf b t Eb).
    - split; [exact H1 |]. now apply (Hf b t Ht). }
  split; intros (x & Hx & Hy); exists x; (split; [|now apply Hd]); revert Hx;
    apply DepScc.rtc_weaken; intros a b; apply Hstep.
Qed.

Lemma ancestor_asked g v y : asked (ask (cmt_answer now) g) (vertices g) v y <-> ancestor g v y.
Proof.
  apply asked_through; [done |]. intros b t Hb. unfold ask. rewrite Hb. apply cmt_answer_ok.
Qed.

Lemma with_same_vertices g : with_vertices (vertices g) g = g.
Proof.
  apply map_eq. intros x. rewrite with_vertices_lookup. unfold vertices. rewrite lookup_fmap.
  destruct (g !! x) as [t|]; [|done]. cbn. now destruct t.
Qed.

Lemma asked_in_graph func g v y : asked func g v y -> is_Some (g !! y).
Proof. intros (x & _ & (vx & _ & _ & Hy)). exact Hy. Qed.

Lemma alter_all_kept effect (l : list Z) (P : RccDTxn -> Prop) : forall (g : rgraph) x t,
  (forall t, P t -> P (effect t)) -> g !! x = Some t -> (x ∈ l -> P (effect t)) ->
  x ∈ l -> exists t', foldl (fun g x => alter effect x g) g l !! x = Some t' /\ P t'.
Proof.
  induction l as [|z l IH]; intros g x t HP Hx Hin Hl; [set_solver|]. cbn [foldl].
  assert (Hkeep : forall (l : list Z) (g : rgraph) t, g !! x = Some t -> P t ->
            exists t', foldl (fun g x => alter effect x g) g l !! x = Some t' /\ P t').
  { induction l0 as [|z0 l0 IH0]; intros g0 t0 H0 HP0; cbn [foldl]; [eauto|].
    destruct (decide (x = z0)) as [->|Hne].
    - apply (IH0 _ (effect t0)); [now rewrite lookup_alter_eq, H0 | auto].
    - apply (IH0 _ t0); [now rewrite lookup_alter_ne by auto | auto]. }
  destruct (decide (x = z)) as [->|Hne].
  - apply (Hkeep l _ (effect t)); [now rewrite lookup_alter_eq, Hx | auto].
  - apply (IH _ x t HP); [now rewrite lookup_alter_ne by auto | intros _; apply Hin; set_solver | set_solver].
Qed.

(** [AllAncCmt] returns, and finds a transaction ready exactly if every ancestor that it can
    reach through committed ancestors of the site is executed, aborted or committed, or not known
    to involve the site for more than 100 milliseconds.  If it finds one that is not, it has
    entered the transaction among the checks of such an ancestor. *)
Theorem ancestors_checked v s :
  unwalked_graph (vertices (dtxns_ s)) -> is_Some (dtxns_ s !! v) -> Z.of_nat (size (dtxns_ s)) < 2 ^ 62 ->
  exists s' b, AllAncCmt now v s = Some (s', b)
    /\ (b = true <-> forall y t, ancestor (dtxns_ s) v y -> dtxns_ s !! y = Some t -> settled t)
    /\ (b = false -> exists y t t', ancestor (dtxns_ s) v y /\ dtxns_ s !! y = Some t /\ ~ settled t
                                  /\ dtxns_ s' !! y = Some t' /\ v ∈ to_checks_ t').
Proof.
  intros Hu Hv Hsz. unfold AllAncCmt, traverse_with.
  destruct (traverse_exact (ask (cmt_answer now) (dtxns_ s)) (vertices (dtxns_ s)) v Hu) as (ret & log & -> & Hret & Hlog & _ & Hstop).
  { unfold vertices. rewrite lookup_fmap. destruct Hv as [t ->]. eauto. }
  { unfold vertices. now rewrite map_size_fmap. }
  cbn [mbind option_bind]. rewrite with_same_vertices. eexists _, _. split; [reflexivity|].
  set (b := forallb _ log).
  assert (Hb : b = false -> exists y, y ∈ log /\ ask (cmt_answer now) (dtxns_ s) y = Exit).
  { intros H. destruct (decide (Exists (fun y => ask (cmt_answer now) (dtxns_ s) y = Exit) log)) as [He|He].
    - now apply Exists_exists in He.
    - exfalso. assert (b = true); [|congruence]. apply forallb_forall. intros y Hy.
      apply negb_true_iff, bool_decide_eq_false. intros Hx. apply He, Exists_exists. exists y.
      split; [now apply list_elem_of_In | exact Hx]. }
  assert (Hask : forall y t, dtxns_ s !! y = Some t -> ask (cmt_answer now) (dtxns_ s) y = cmt_answer now t)
    by (intros y t Hy; unfold ask; now rewrite Hy).
  split; [split|].
  - intros Ht y t Ha%ancestor_asked Hy. apply cmt_answer_settled. rewrite <- (Hask y t Hy). intros Hx.
    assert (Hr : ret = Exit) by (apply Hret; eauto). destruct (Hstop Hr) as (y' & Hy' & Hx'). apply (proj1 (forallb_forall _ _)) with (x := y') in Ht; [|now apply list_elem_of_In].
    apply negb_true_iff, bool_decide_eq_false in Ht. contradiction.
  - intros Hs. destruct b eqn:E; [done|]. destruct (Hb eq_refl) as (y & Hy & Hx). apply Hlog in Hy.
    pose proof (asked_in_graph _ _ _ _ Hy) as [vy Hvy]. unfold vertices in Hvy. rewrite lookup_fmap in Hvy.
    destruct (dtxns_ s !! y) as [t|] eqn:Ht; [|discriminate]. exfalso.
    apply (proj2 (cmt_answer_settled t) (Hs y t (proj1 (ancestor_asked _ _ _) Hy) Ht)). now rewrite <- (Hask y t Ht).
  - intros E. destruct (Hb E) as (y & Hy & Hx). pose proof (Hlog y Hy) as Ha.
    pose proof (asked_in_graph _ _ _ _ Ha) as [vy Hvy]. unfold vertices in Hvy. rewrite lookup_fmap in Hvy.
    destruct (dtxns_ s !! y) as [t|] eqn:Ht; [|discriminate]. rewrite (Hask y t Ht) in Hx.
    destruct (alter_all_kept (cmt_effect now v) log (fun t => v ∈ to_checks_ t) (dtxns_ s) y t) as (t' & H1 & H2);
      [ | exact Ht | | exact Hy |].
    + intros u Hin. unfold cmt_effect. destruct (_ || _); [done|]. case_bool_decide.
      * unfold checkInquire. destruct (_ =? _); [destruct u; cbn in *; set_solver|].
        destruct (_ <? _); [done | destruct u; cbn in *; set_solver].
      * destruct (_ <=? _); [done | destruct u; cbn in *; set_solver].
    + intros _. revert Hx. unfold cmt_answer, cmt_effect. destruct (_ || _); [done|]. case_bool_decide.
      * unfold checkInquire. destruct (_ =? _); [intros _; destruct t; cbn; set_solver|].
        cbn [snd]. destruct (_ <? _); [done | intros _; destruct t; cbn; set_solver].
      * destruct (_ <=? _); [done | intros _; destruct t; cbn; set_solver].
    + exists y, t, t'. split_and!; [now apply ancestor_asked | exact Ht | | now destruct s | exact H2].
      intros Hset. now apply cmt_answer_settled in Hset.
Qed.
End Ancestors.


(** ** When the database changes *)
Section Order.
Context (key_columns : Z -> list Z) (table_of : Z -> Z) (reports : bool).
Context (txn_reg : Z -> Z -> option (defer_t * (TxnWorkspace -> prog))).
Context (my_par now : Z).

#[local] Notation try_execute := (try_execute key_columns table_of reports txn_reg my_par now).

Lemma inquired_db v s s' g : InquiredGraph v s = Some (s', g) -> db_ s' = db_ s.
Proof.
  unfold InquiredGraph, FindScc. intros (t & _ & H)%bind_Some. revert H. destruct (IsDecided t).
  - intros ([s1 scc] & ([l vg] & _ & [= <- <-])%bind_Some & (ts & _ & [= <- <-])%bind_Some)%bind_Some. now destruct s.
  - intros ([[g1 ng] b] & _ & [= <- <-])%bind_Some. now destruct s.
Qed.

Lemma answer_db v s s' : AnswerIfInquired v s = Some s' -> db_ s' = db_ s.
Proof.
  unfold AnswerIfInquired. intros (t & _ & H)%bind_Some. revert H. destruct (_ <=? _); [|now intros [= <-]].
  intros (s1 & H1 & (t1 & _ & [= <-])%bind_Some)%bind_Some. cbn.
  assert (H : forall reqs s s', answer_all v reqs s = Some s' -> db_ s' = db_ s).
  { induction reqs as [|r reqs IH]; intros s0 s0'; cbn [answer_all]; [now intros [= <-]|].
    intros ([s2 g] & H2%inquired_db & H3%IH)%bind_Some. rewrite H3. destruct s2. exact H2. }
  apply H in H1. destruct s1. exact H1.
Qed.

(** *** The guards of a round *)

Lemma alter_all_id (effect : RccDTxn -> RccDTxn) (l : list Z) (g : rgraph) :
  (forall x t, x ∈ l -> g !! x = Some t -> effect t = t) -> foldl (fun g x => alter effect x g) g l = g.
Proof.
  induction l as [|x l IH]; intros He; cbn [foldl]; [done |].
  assert (Hx : alter effect x g = g).
  { apply map_eq. intros y. destruct (decide (x = y)) as [<-|Hne]; [|now rewrite lookup_alter_ne].
    rewrite lookup_alter_eq. destruct (g !! x) as [t|] eqn:Ex; [|done]. cbn. now rewrite (He x t) by set_solver. }
  rewrite Hx. apply IH. intros y t Hy. apply He. set_solver.
Qed.

Lemma no_exit answer (g : rgraph) (log : list Z) x t :
  forallb (fun x => negb (bool_decide (ask answer g x = Exit))) log = true -> x ∈ log -> g !! x = Some t ->
  answer t <> Exit.
Proof.
  intros Hb Hx Ht. apply (proj1 (forallb_forall _ _)) with (x := x) in Hb; [|now apply list_elem_of_In].
  apply negb_true_iff, bool_decide_eq_false in Hb. unfold ask in Hb. now rewrite Ht in Hb.
Qed.

(** When no ancestor holds the transaction back, the question changes nothing. *)
Lemma all_cmt_same v s s1 :
  unwalked_graph (vertices (dtxns_ s)) -> is_Some (dtxns_ s !! v) -> Z.of_nat (size (dtxns_ s)) < 2 ^ 62 ->
  AllAncCmt now v s = Some (s1, true) -> dtxns_ s1 = dtxns_ s /\ db_ s1 = db_ s.
Proof.
  intros Hu Hv Hsz. unfold AllAncCmt, traverse_with.
  destruct (traverse_exact (ask (cmt_answer now) (dtxns_ s)) (vertices (dtxns_ s)) v Hu) as (ret & log & -> & _).
  { unfold vertices. rewrite lookup_fmap. destruct Hv as [t ->]. eauto. }
  { unfold vertices. now rewrite map_size_fmap. }
  cbn [mbind option_bind]. rewrite with_same_vertices. intros [= <- Hb].
  rewrite alter_all_id; [now destruct s |]. intros x t Hx Ht. pose proof (no_exit _ _ _ _ _ Hb Hx Ht) as Hne.
  revert Hne. unfold cmt_answer, cmt_effect. destruct (_ || _); [done |].
  case_bool_decide; [|now destruct (_ <=? _)].
  unfold checkInquire. destruct (_ =? _); [done |]. cbn [snd]. now destruct (_ <? _).
Qed.

(** What finding and deciding a component leaves of a transaction. *)
Record decides (scc : list Z) (g g' : rgraph) : Prop := {
  d_tx : forall x t, g !! x = Some t -> exists t', g' !! x = Some t'
    /\ tid_ t' = tid_ t /\ tx_parents t' = tx_parents t /\ walked_ (vtx t') = walked_ (vtx t)
    /\ executed_ t' = executed_ t /\ involve_flag_ t' = involve_flag_ t /\ inquiretimer_ t' = inquiretimer_ t
    /\ fully_dispatched t' = fully_dispatched t /\ partition_ t' = partition_ t
    /\ (x ∉ scc -> status_ t' = status_ t);
  d_dom : dom g' = dom g }.

#[local] Instance decides_preorder scc : PreOrder (decides scc).
Proof.
  split; [intros g; split; [intros x t Hx; exists t; auto 12 | done] |].
  intros a b c [X1 D1] [X2 D2]. split; [|congruence]. intros x t Hx.
  destruct (X1 x t Hx) as (t1 & Hx1 & ? & ? & ? & ? & ? & ? & ? & ? & Hs1).
  destruct (X2 x t1 Hx1) as (t2 & Hx2 & ? & ? & ? & ? & ? & ? & ? & ? & Hs2).
  exists t2. split_and!; try congruence. intros Hn. now rewrite Hs2, Hs1.
Qed.

Lemma set_scc_walked l ptr : forall g g', set_scc l ptr g = Some g' -> forall x, walked_ <$> g' !! x = walked_ <$> g !! x.
Proof.
  induction l as [|v l IH]; intros g g'; cbn [set_scc]; [now intros [= <-] |].
  destruct (g !! v) as [vx|] eqn:Hv; [|discriminate]. cbn [mbind option_bind].
  destruct (verify _); [|discriminate]. cbn [mbind option_bind]. intros H x. rewrite (IH _ _ H x).
  rewrite lookup_insert. case_decide; [subst; now rewrite Hv | done].
Qed.

Lemma find_scc_walked v g l g' : FindSccPred v g = Some (l, g') -> forall x, walked_ <$> g' !! x = walked_ <$> g !! x.
Proof.
  unfold FindSccPred. destruct (g !! v) as [vx|]; [|discriminate]. cbn [mbind option_bind].
  destruct (scc_ vx); [now intros [= <- <-] |].
  destruct (StrongConnectPred _ _ _ _) as [[ptr st]|]; [|discriminate]. cbn [mbind option_bind].
  destruct (set_scc ptr ptr g) as [g1|] eqn:Hs; [|discriminate]. intros [= <- <-]. eapply set_scc_walked, Hs.
Qed.

Lemma find_decides v s s1 scc X :
  FindScc v s = Some (s1, scc) -> decides X (dtxns_ s) (dtxns_ s1) /\ db_ s1 = db_ s.
Proof.
  unfold FindScc. destruct (FindSccPred _ _) as [[l vg]|] eqn:Hf; [|discriminate]. cbn [mbind option_bind].
  intros [= <- <-]. pose proof (find_scc_edges _ _ _ _ Hf) as Hp. pose proof (find_scc_walked _ _ _ _ Hf) as Hw.
  split; [|now destruct s]. split; [|now destruct s; apply with_vertices_dom].
  intros x t Hx. specialize (Hp x). specialize (Hw x).
  assert (Hg : vertices (dtxns_ s) !! x = Some (vtx t)) by (unfold vertices; now rewrite lookup_fmap, Hx).
  rewrite Hg in Hp, Hw. destruct (vg !! x) as [vx|] eqn:Hvx; [|discriminate]. injection Hp as Hp. injection Hw as Hw.
  exists (t {{ vtx := vx }}). split; [|destruct t; cbn in *; auto 12].
  cbn [dtxns_]. rewrite with_vertices_lookup, Hx. cbn [fmap option_fmap option_map]. now rewrite Hvx.
Qed.

Lemma decide_decides scc : forall s s1 X,
  (forall x, x ∈ scc -> x ∈ X) -> Decide scc s = Some s1 -> decides X (dtxns_ s) (dtxns_ s1) /\ db_ s1 = db_ s.
Proof.
  induction scc as [|v scc IH]; intros s s1 X Hin; cbn [Decide]; [now intros [= <-] |].
  unfold UpgradeStatus. destruct (dtxns_ s !! v) as [t|] eqn:Hv; [|discriminate]. cbn [mbind option_bind].
  intros H. apply (IH _ _ X) in H as [Hd Hdb]; [|set_solver]. split; [|rewrite Hdb; now destruct s].
  etransitivity; [|exact Hd]. replace (dtxns_ (s {{ dtxns_ := <[v := union_status TXN_DCD t]> (dtxns_ s) }}))
    with (<[v := union_status TXN_DCD t]> (dtxns_ s)) by now destruct s.
  split; [|apply dom_insert_lookup_L; eauto]. intros x u Hx. rewrite lookup_insert. case_decide as E.
  - subst x. rewrite Hv in Hx. injection Hx as <-. exists (union_status TXN_DCD t). split; [done |].
    destruct t; cbn. split_and!; try done. intros Hn. destruct Hn. apply Hin. left.
  - exists u. auto 12.
Qed.

Lemma decides_dep scc g g' a b : decides scc g g' -> dep (vertices g') a b <-> dep (vertices g) a b.
Proof.
  intros [X D]. unfold dep, vertices. setoid_rewrite lookup_fmap. split.
  - intros (va & Ha & Hb & [vb Hvb]). destruct (g' !! a) as [ta'|] eqn:Ea; [|discriminate]. injection Ha as <-.
    destruct (g' !! b) as [tb'|] eqn:Eb; [|discriminate].
    assert (Ia : a ∈ dom g) by (rewrite <- D; apply elem_of_dom; eauto).
    assert (Ib : b ∈ dom g) by (rewrite <- D; apply elem_of_dom; eauto).
    apply elem_of_dom in Ia as [ta Ta], Ib as [tb Tb]. destruct (X a ta Ta) as (ta1 & E1 & _ & E2 & _).
    rewrite E1 in Ea. injection Ea as ->. exists (vtx ta). rewrite Ta, Tb. cbn. unfold tx_parents in E2.
    rewrite <- E2. eauto.
  - intros (va & Ha & Hb & [vb Hvb]). destruct (g !! a) as [ta|] eqn:Ta; [|discriminate]. injection Ha as <-.
    destruct (g !! b) as [tb|] eqn:Tb; [|discriminate].
    destruct (X a ta Ta) as (ta' & Ea & _ & E2 & _), (X b tb Tb) as (tb' & Eb & _).
    exists (vtx ta'). rewrite Ea, Eb. cbn. unfold tx_parents in E2. rewrite E2. eauto.
Qed.

(** Decided at this site and not executed; the component counts as decided. *)
Definition decided_here (scc : list Z) (x : Z) (t : RccDTxn) : Prop :=
  IsExecuted t = false /\ involve_flag_ t = INVOLVED /\ (TXN_DCD <= status_ t \/ x ∈ scc).

(** An ancestor that does not hold the component back. *)
Definition finished (scc : list Z) (x : Z) (t : RccDTxn) : Prop :=
  IsExecuted t = true \/ decided_here scc x t
  \/ (involve_flag_ t <> INVOLVED /\ inquiretimer_ t <> 0 /\ 100 < now - inquiretimer_ t).

Lemma fns_answer_ok scc x t : tid_ t = x -> fns_answer now scc t = Ok <-> decided_here scc x t.
Proof.
  intros <-. unfold fns_answer, decided_here. destruct (IsExecuted t); [split; [discriminate | now intros [? _]] |].
  case_bool_decide as H2.
  - split; [now destruct (checkInquire now t).2 | intros (_ & H & _); contradiction].
  - assert (Hi : involve_flag_ t = INVOLVED) by (destruct (decide (involve_flag_ t = INVOLVED)); tauto).
    destruct (Z.leb_spec TXN_DCD (status_ t)); [split; auto |].
    case_bool_decide; split; auto; [discriminate | intros (_ & _ & [?|?]); [lia | contradiction]].
Qed.

Lemma fns_answer_finished scc x t : tid_ t = x -> fns_answer now scc t <> Exit -> finished scc x t.
Proof.
  intros Hx Hne. destruct (fns_answer now scc t) eqn:E; [contradiction | |].
  - right. left. now apply fns_answer_ok.
  - unfold finished. revert E. unfold fns_answer. destruct (IsExecuted t); [auto |]. case_bool_decide as H2.
    + unfold checkInquire. destruct (Z.eqb_spec (inquiretimer_ t) 0); [discriminate |]. cbn [snd].
      destruct (Z.ltb_spec 100 (now - inquiretimer_ t)); [auto | discriminate].
    + destruct (_ <=? _); [discriminate |]. now case_bool_decide.
Qed.

(** The fields of the questions are those before the component was decided. *)
Lemma decided_same scc g g' x t t' :
  decides scc g g' -> keyed g -> g !! x = Some t -> g' !! x = Some t' ->
  tid_ t' = x /\ (decided_here scc x t' <-> decided_here scc x t) /\ (finished scc x t' <-> finished scc x t).
Proof.
  intros [X _] Hk Hx Hx'. destruct (X x t Hx) as (t1 & E & E1 & _ & _ & E2 & E3 & E4 & _ & _ & E5).
  rewrite Hx' in E. injection E as <-. split; [rewrite E1; exact (Hk x t Hx) |].
  assert (Hd : decided_here scc x t' <-> decided_here scc x t).
  { unfold decided_here, IsExecuted. rewrite E2, E3. destruct (decide (x ∈ scc)) as [Hin|Hout]; [tauto |].
    now rewrite E5. }
  split; [exact Hd |]. unfold finished. rewrite Hd. unfold IsExecuted. now rewrite E2, E3, E4.
Qed.

(** All ancestors of the first member that are reached through decided ones are finished. *)
Lemma all_fns_true scc g s s1 :
  decides scc g (dtxns_ s) -> keyed g -> unwalked_graph (vertices g) -> Z.of_nat (size g) < 2 ^ 62 ->
  AllAncFns now scc s = Some (s1, true) ->
  db_ s1 = db_ s /\ exists x0, head scc = Some x0
    /\ forall y t, through (decided_here scc) g x0 y -> g !! y = Some t -> finished scc y t.
Proof.
  intros Hd Hk Hu Hsz. unfold AllAncFns. destruct (head scc) as [x0|] eqn:E0; [cbn [mbind option_bind] | discriminate].
  unfold traverse_with. intros ([g1 r] & H & [= <- ->])%bind_Some. split; [now destruct s |]. exists x0. split; [done |].
  pose proof (d_dom _ _ _ Hd) as Hdom. revert H. intros H.
  assert (Hu' : unwalked_graph (vertices (dtxns_ s))).
  { intros x vx. unfold vertices. rewrite lookup_fmap. destruct (dtxns_ s !! x) as [t'|] eqn:Ex; [|discriminate].
    intros [= <-]. assert (Ix : x ∈ dom g) by (rewrite <- Hdom; apply elem_of_dom; eauto).
    apply elem_of_dom in Ix as [t Tx]. destruct (d_tx _ _ _ Hd x t Tx) as (t1 & E & _ & _ & Ew & _).
    rewrite Ex in E. injection E as ->. rewrite Ew. apply (Hu x). unfold vertices. now rewrite lookup_fmap, Tx. }
  assert (Hin : is_Some (vertices (dtxns_ s) !! x0)).
  { apply (traverse_with_dom (fns_answer now scc) (fns_effect now scc x0) x0 (dtxns_ s) g1 true) in H.
    unfold vertices. rewrite lookup_fmap. apply elem_of_dom in H as [t ->]. eauto. }
  assert (Hsz' : Z.of_nat (size (vertices (dtxns_ s))) < 2 ^ 62).
  { unfold vertices. rewrite map_size_fmap, <- (size_dom (D := gset Z)), Hdom, size_dom. exact Hsz. }
  destruct (traverse_exact (ask (fns_answer now scc) (dtxns_ s)) _ x0 Hu' Hin Hsz') as (ret & log & E & Hret & _ & Hall & Hex).
  rewrite E in H. cbn [mbind option_bind] in H. injection H as _ Hb.
  assert (Hne : ret <> Exit).
  { intros Hx. destruct (Hex Hx) as (y & Hy & Hy'). apply (proj1 (forallb_forall _ _)) with (x := y) in Hb;
      [|now apply list_elem_of_In]. apply negb_true_iff, bool_decide_eq_false in Hb. contradiction. }
  intros y t Hy Ht. assert (Hask : asked (ask (fns_answer now scc) (dtxns_ s)) (vertices (dtxns_ s)) x0 y).
  { apply (asked_through (decided_here scc) g); [intros a b; exact (decides_dep scc g (dtxns_ s) a b Hd) | | exact Hy].
    intros b u Hb'. destruct (d_tx _ _ _ Hd b u Hb') as (u' & Eu & _). unfold ask. rewrite Eu.
    destruct (decided_same scc g _ b u u' Hd Hk Hb' Eu) as (Hid & Hdec & _). rewrite (fns_answer_ok scc b u' Hid). exact Hdec. }
  destruct (d_tx _ _ _ Hd y t Ht) as (t' & Et & _).
  destruct (decided_same scc g _ y t t' Hd Hk Ht Et) as (Hid & _ & Hfin). apply Hfin, (fns_answer_finished scc y t' Hid).
  eapply no_exit; [exact Hb | exact (Hall Hne y Hask) | exact Et].
Qed.

Lemma involves_spec x s s1 b :
  involves my_par x s = Some (s1, b) ->
  exists t, dtxns_ s !! x = Some t /\ dtxns_ s1 = <[x := (Involve my_par t).1]> (dtxns_ s)
    /\ b = (Involve my_par t).2 /\ db_ s1 = db_ s.
Proof.
  unfold involves. intros (t & Hx & H)%bind_Some. exists t. destruct (Involve my_par t) as [t1 b1]. injection H as <- <-.
  now destruct s.
Qed.

(** Nothing that [Involve] depends on, and no [fully_dispatched], changes. *)
Record dispatch_same (g g' : rgraph) : Prop :=
  { ds_tx : forall x t, g !! x = Some t -> exists t', g' !! x = Some t'
      /\ fully_dispatched t' = fully_dispatched t /\ (Involve my_par t').2 = (Involve my_par t).2 }.

Lemma involve_twice t : (Involve my_par (Involve my_par t).1).2 = (Involve my_par t).2.
Proof.
  unfold Involve. destruct (involve_flag_ t) eqn:E; cbn [fst snd]; rewrite ?E; [|done..].
  destruct (IsCommitting t) eqn:Ec; cbn [fst]; [|now rewrite E, Ec].
  destruct t. cbn. now case_bool_decide.
Qed.

Lemma involves_same x s s1 b : involves my_par x s = Some (s1, b) -> dispatch_same (dtxns_ s) (dtxns_ s1).
Proof.
  intros (t & Hx & -> & _)%involves_spec. split. intros y u Hy. rewrite lookup_insert. case_decide as E.
  - subst y. rewrite Hx in Hy. injection Hy as <-. eexists. split; [done |]. split; [|apply involve_twice].
    unfold Involve. destruct (involve_flag_ t); try reflexivity. cbn [fst]. destruct (IsCommitting t); [destruct t |]; reflexivity.
  - eauto.
Qed.

Lemma fully_dispatched_db scc : forall s s1 b, FullyDispatched my_par scc s = Some (s1, b) -> db_ s1 = db_ s.
Proof.
  induction scc as [|v scc IH]; intros s s1 b; cbn [FullyDispatched]; [now intros [= <- <-] |].
  intros ([s2 b2] & (t & _ & _ & _ & Hdb)%involves_spec & (t2 & _ & H)%bind_Some)%bind_Some. revert H.
  destruct (_ || _); [intros H%IH; congruence | now intros [= <- <-]].
Qed.

Lemma fns_db scc s s1 b : AllAncFns now scc s = Some (s1, b) -> db_ s1 = db_ s.
Proof.
  unfold AllAncFns. intros (x0 & _ & ([g r] & _ & [= <- <-])%bind_Some)%bind_Some. now destruct s.
Qed.

Lemma dispatch_same_trans g1 g2 g3 : dispatch_same g1 g2 -> dispatch_same g2 g3 -> dispatch_same g1 g3.
Proof.
  intros [X1] [X2]. split. intros x t Hx. destruct (X1 x t Hx) as (t1 & H1 & ? & ?).
  destruct (X2 x t1 H1) as (t2 & H2 & ? & ?). exists t2. split_and!; congruence.
Qed.

Lemma decides_dispatch scc g g' : decides scc g g' -> dispatch_same g g'.
Proof.
  intros [X _]. split. intros x t Hx. destruct (X x t Hx) as (t' & Hx' & _ & _ & _ & _ & E1 & _ & E2 & E3 & _).
  exists t'. split_and!; [done | done |]. unfold Involve. rewrite E1. destruct (involve_flag_ t); try reflexivity.
  cbn [snd]. now rewrite E3.
Qed.

Lemma fns_dispatch scc s s1 b :
  AllAncFns now scc s = Some (s1, b) -> dispatch_same (dtxns_ s) (dtxns_ s1).
Proof.
  unfold AllAncFns. intros (x0 & _ & ([g r] & H & [= <- <-])%bind_Some)%bind_Some. cbn [dtxns_]. revert H.
  unfold traverse_with. intros ([[ret vg] log] & _ & [= <- _])%bind_Some.
  assert (He : forall u, fully_dispatched (fns_effect now scc x0 u) = fully_dispatched u
                         /\ (Involve my_par (fns_effect now scc x0 u)).2 = (Involve my_par u).2).
  { intros u. unfold fns_effect, checkInquire, Involve, IsCommitting.
    destruct (IsExecuted u); [done |]. case_bool_decide; [destruct (_ =? _); [|destruct (_ <? _)] | destruct (_ <=? _); [done |]; case_bool_decide; [done |]];
      destruct u as [? ? ? ? ? ? ? ? ? ? ? ? ? ? ? [] ? ? ? ? ? ? ? ? ? ? ? ? ? ?]; done. }
  assert (Hall : forall (l : list Z) (g : rgraph), dispatch_same g (foldl (fun g x => alter (fns_effect now scc x0) x g) g l)).
  { induction l as [|z l IH]; intros g0; cbn [foldl]; [split; eauto |]. eapply dispatch_same_trans; [|apply IH].
    split. intros x t Hx. destruct (decide (x = z)) as [->|Hz].
    - rewrite lookup_alter_eq, Hx. exists (fns_effect now scc x0 t). destruct (He t). auto.
    - rewrite lookup_alter_ne by auto. eauto. }
  eapply dispatch_same_trans; [|apply Hall]. split. intros x t Hx. rewrite with_vertices_lookup, Hx.
  eexists. split; [reflexivity |]. unfold Involve.
  destruct t as [? ? ? ? ? ? ? ? ? ? ? ? ? ? ? [] ? ? ? ? ? ? ? ? ? ? ? ? ? ?]; done.
Qed.

Lemma fully_dispatched_true scc : forall s s1,
  FullyDispatched my_par scc s = Some (s1, true) ->
  db_ s1 = db_ s /\ forall x t, x ∈ scc -> dtxns_ s !! x = Some t -> (Involve my_par t).2 = true -> fully_dispatched t = true.
Proof.
  induction scc as [|v scc IH]; intros s s1; cbn [FullyDispatched]; [intros [= <-]; split; [done | set_solver] |].
  intros ([s2 b] & Hi & (t2 & Ht2 & H)%bind_Some)%bind_Some. pose proof (involves_same _ _ _ _ Hi) as [Hs].
  pose proof (involves_spec _ _ _ _ Hi) as (t & Ht & _ & -> & Hdb). revert H.
  destruct (negb (Involve my_par t).2 || fully_dispatched t2) eqn:E; [|discriminate]. intros H.
  apply IH in H as [Hdb' Hall]. split; [congruence |]. intros x u Hx Hu Hinv. apply elem_of_cons in Hx as [->|Hx].
  - rewrite Ht in Hu. injection Hu as <-. destruct (Hs v t Ht) as (t2' & Ht2' & Hf & _). rewrite Ht2 in Ht2'. injection Ht2' as <-.
    rewrite Hinv in E. cbn in E. congruence.
  - destruct (Hs x u Hu) as (u' & Hu' & Hf & Hv). rewrite <- Hf. exact (Hall x u' Hx Hu' (eq_trans Hv Hinv)).
Qed.

(** C13. A round of the loop at [v] that touches the database executes the strongly connected
    component of [v], and has made sure that [v] is committed and not executed; that no ancestor of
    [v], reached through ancestors that are committed at the site, holds it back: each is executed,
    aborted or committed, or was not known to involve the site for more than 100 milliseconds; that
    no ancestor of the component, reached through ancestors that are decided, holds it back: each
    is executed, decided or in the component, or again not known to involve the site; and that every
    member of the component that involves the site is fully dispatched. *)
Theorem executes_in_order v s s' :
  unwalked_graph (vertices (dtxns_ s)) -> DepScc.scc_wf (vertices (dtxns_ s)) -> index_ok s ->
  Z.of_nat (size (dtxns_ s)) < 2 ^ 31 ->
  try_execute v s = Some s' -> db_ s' <> db_ s ->
  exists scc s1 s2 b,
    DepScc.component (vertices (dtxns_ s)) v scc
    /\ (ExecuteScc key_columns table_of reports txn_reg my_par scc false s1 = Some (s2, b)
        /\ db_ s1 = db_ s /\ db_ s' = db_ s2)
    /\ (exists t, dtxns_ s !! v = Some t /\ TXN_CMT <= status_ t /\ executed_ t = false)
    /\ (forall y t, ancestor (dtxns_ s) v y -> dtxns_ s !! y = Some t -> settled now t)
    /\ (exists x0, x0 ∈ scc /\ forall y t,
          through (decided_here scc) (dtxns_ s) x0 y -> dtxns_ s !! y = Some t -> finished scc y t)
    /\ (forall x t, x ∈ scc -> dtxns_ s !! x = Some t -> (Involve my_par t).2 = true -> fully_dispatched t = true).
Proof.
  intros Hu Hwf Hk Hsz. unfold RccSched.try_execute. intros (t & Hv & H)%bind_Some Hne. revert H.
  destruct ((TXN_CMT <=? status_ t) && negb (IsExecuted t)) eqn:Hc; [|intros [= <-]; congruence].
  apply andb_prop in Hc as [Hc1%Z.leb_le Hc2%negb_true_iff].
  intros ([s1 b1] & H1 & (s2 & H2 & H3%answer_db)%bind_Some)%bind_Some.
  assert (Hsz' : Z.of_nat (size (dtxns_ s)) < 2 ^ 62) by lia.
  destruct (ancestors_checked now v s Hu ltac:(eauto) Hsz') as (s1' & b' & H1' & Hb & _).
  rewrite H1 in H1'. injection H1' as <- <-.
  destruct b1; [|injection H2 as <-; rewrite H3 in Hne; unfold AllAncCmt in H1;
                 apply bind_Some in H1 as ([g r] & _ & [= <- _]); now destruct s].
  destruct (all_cmt_same v s s1 Hu ltac:(eauto) Hsz' H1) as [Eg Edb].
  apply bind_Some in H2 as ([s3 scc] & F & (s4 & Dc & ([s5 fns] & A & H)%bind_Some)%bind_Some).
  destruct (find_decides v s1 s3 scc scc F) as [D1 Db1], (decide_decides scc s3 s4 scc ltac:(auto) Dc) as [D2 Db2].
  assert (D : decides scc (dtxns_ s) (dtxns_ s4)) by (rewrite <- Eg; etransitivity; eauto).
  assert (Hcomp : DepScc.component (vertices (dtxns_ s)) v scc).
  { unfold FindScc in F. rewrite Eg in F.
    destruct (DepScc.find_scc_ok (vertices (dtxns_ s)) v Hwf) as (l & vg & E & Hl & _).
    - unfold vertices. rewrite lookup_fmap, Hv. eauto.
    - unfold vertices. now rewrite map_size_fmap.
    - rewrite E in F. injection F as _ <-. exact Hl. }
  pose proof (fns_db _ _ _ _ A) as Db3.
  destruct fns; [|injection H as <-; exfalso; apply Hne; congruence].
  apply bind_Some in H as ([s6 d] & Hd & H). pose proof (fully_dispatched_db _ _ _ _ Hd) as Db4.
  destruct d; [|injection H as <-; exfalso; apply Hne; congruence].
  apply fmap_Some in H as ([s7 b7] & He & ->).
  destruct (all_fns_true scc (dtxns_ s) s4 s5 D Hk Hu Hsz' A) as (_ & x0 & Hx0 & Hfns).
  exists scc, s6, s7, b7. split_and!; [exact Hcomp | exact He | congruence | exact H3 | eauto | now apply Hb | |].
  - exists x0. split; [|exact Hfns]. destruct scc; [discriminate |]. injection Hx0 as ->. left.
  - intros x u Hx Hxu Hinv. destruct (dispatch_same_trans _ _ _ (decides_dispatch _ _ _ D) (fns_dispatch _ _ _ _ A)) as [X].
    destruct (X x u Hxu) as (u' & Hu' & <- & Hi).
    exact (proj2 (fully_dispatched_true scc s5 s6 Hd) x u' Hx Hu' (eq_trans Hi Hinv)).
Qed.
End Order.

End RccSafety.
