(* ===== verification/BrqSched.v ===== *)
(** * The scheduler of the transaction protocol

    [BrqSched] (deptran/brq/sched.h and .cc): the handlers of pre-accept, accept, commit,
    inquiry and output messages, on top of [RccSched].  The tables of columns that the
    pieces touch ([touch_col_map] in sched.h) are a parameter, a column being a number; the
    name of the table that [GetTouchedTblCols] returns is not used by its callers.  A
    request to commit or to inquire is the identifier that its reply carries. *)

From Stdlib Require Import ZArith Lia.
From stdpp Require Import base list option gmap sets relations.
From coqutil Require Import Datatypes.RecordSetters.
From S2P Require Import Prelude ALock MemSchema PieceExec DepGraph RccTxn RccGraph RccSched.
Import DoubleBraceUpdate.
Local Open Scope Z_scope.

Module BrqSched.
Import DepGraph Rcc RccGraph RccSched.

Definition N_REP_PER_SHARD : Z := 3.

(** ** The columns that a transaction touches *)
Section Touched.
Context (touch_col_map : Z -> list Z).

(** [while (id >= base) id /= 10]; a 32-bit number has at most ten digits. *)
Fixpoint shorten (fuel : nat) (base id : Z) : Z :=
  match fuel with
  | O => id
  | S fuel => if base <=? id then shorten fuel base (id / 10) else id
  end.

Definition normalized (inn_id : Z) (isQuery : bool) : Z :=
  let base := if isQuery then 1000 else 100 in
  if 10 * base <=? inn_id then shorten 10 base inn_id * 1000 else inn_id.

(** A [set<pair<string, int>>] with one pair per name. *)
Fixpoint bump (col : Z) (cols : list (Z * Z)) : list (Z * Z) :=
  match cols with
  | [] => [(col, 1)]
  | (c, n) :: cols' =>
      if col <? c then (col, 1) :: cols
      else if col =? c then (c, n + 1) :: cols'
      else (c, n) :: bump col cols'
  end.

Definition GetTouchedTblCols (inn_id par : Z) (isQuery : bool) (cols : gmap Z (list (Z * Z))) :
    gmap Z (list (Z * Z)) :=
  match touch_col_map (normalized inn_id isQuery) with
  | [] => cols
  | touch_cols => <[par := fold_left (fun l c => bump c l) touch_cols (default [] (cols !! par))]> cols
  end.
End Touched.

Section Brq.
Context (key_columns : Z -> list Z) (table_of : Z -> Z) (touch_col_map : Z -> list Z).
Context (txn_reg : Z -> Z -> option (defer_t * (TxnWorkspace -> prog))).
Context (my_par site_id : Z) (addr : Z -> Z) (now : Z).

Definition reports : bool := site_id mod N_REP_PER_SHARD =? 0.

#[local] Notation GetOrCreateDTxn := (GetOrCreateDTxn my_par).
#[local] Notation CheckWaitlist := (CheckWaitlist key_columns table_of reports txn_reg my_par addr now).
#[local] Notation TriggerCheckAfterAggregation :=
  (TriggerCheckAfterAggregation key_columns table_of reports txn_reg my_par addr now).

(** The pieces of a message become the pieces of the transaction on this site. *)
Definition add_dreqs (cmds : list SimpleCommand) (t : RccDTxn) : RccDTxn :=
  t {{ dreqs_ := dreqs_ t ++ cmds; n_local_pieces := n_local_pieces t + Z.of_nat (length cmds) }}.

(** The dispatch of a transaction that is not committed, the first time. *)
Definition dispatch (cmds : list SimpleCommand) (t : RccDTxn) (s : sched) : option (RccDTxn * sched) :=
  if status_ t <? TXN_CMT then
    if phase_ t <? PHASE_RCC_DISPATCH then
      let t := add_dreqs cmds (t {{ phase_ := PHASE_RCC_DISPATCH }}) in
      let t := TraceDepUnkKey (key_not_known_txns_ s) t in
      '(t, e, _) ← DispatchExec key_columns table_of reports txn_reg my_par t (db_ s);
      Some (t, s {{ db_ := e }})
    else Some (t, s)
  else Some (if bool_decide (dreqs_ t = []) then add_dreqs cmds t else t, s).

Definition OnPreAcceptWoGraph (txn_id : Z) (cmds : list SimpleCommand) (s : sched) :
    option (sched * Z * rgraph) :=
  _ ← verify (0 <? txn_id);
  c0 ← head cmds;
  _ ← verify (root_id_ c0 =? txn_id);
  let '(s, t) := GetOrCreateDTxn txn_id s in
  let t := t {{ root_type := root_type_ c0; all_pieces_ := all_pieces_ t ++ cmds;
                touchColsCnt := touchColsCnt_ c0 }} in
  let t := UpdateStatus TXN_PAC t {{ involve_flag_ := INVOLVED }} in
  if 0 <? max_seen_ballot_ t then Some (put txn_id t s, REJECT, ∅)
  else
    '(t, s) ← dispatch cmds t s;
    _ ← verify (negb (fully_dispatched t));
    let t := t {{ fully_dispatched := true }} in
    '(g, res_graph, _) ← MinItfrGraph txn_id false (<[txn_id := t]> (dtxns_ s)) ∅;
    let w := if TXN_CMT <=? status_ t then {[txn_id]} ∪ waitlist_ s else waitlist_ s in
    Some (s {{ dtxns_ := g; waitlist_ := w }}, SUCCESS, res_graph).

(** The first replica of a shard hands the order of the transaction to the analytical side. *)
Definition TransferOrder (txn_id : Z) (s : sched) : option sched :=
  if reports then
    t ← dtxns_ s !! txn_id;
    let touched := fold_left
      (fun cols p => GetTouchedTblCols touch_col_map (inn_id_ p) (partition_id_ p) false cols)
      (all_pieces_ t) ∅ in
    let t := t {{ all_touched_shards_ := all_touched_shards_ t ++ partition_ t }} in
    Some (put txn_id t s
      {{ orders_ := orders_ s
           ++ [{| o_txn := txn_id; o_parents := tx_parents t; o_type := root_type t;
                  o_cols := default [] (touched !! (site_id / N_REP_PER_SHARD));
                  o_shards := all_touched_shards_ t |}] }})
  else Some s.

Definition OnAccept (txn_id ballot : Z) (graph : rgraph) (s : sched) : option (sched * Z) :=
  let '(s, t) := GetOrCreateDTxn txn_id s in
  _ ← verify (negb (ballot <? max_seen_ballot_ t));
  let t := t {{ max_accepted_ballot_ := ballot; max_seen_ballot_ := ballot }} in
  s ← TransferOrder txn_id (put txn_id t s);
  g ← Aggregate sched_CreateV graph (dtxns_ s);
  Some (s {{ dtxns_ := g }}, SUCCESS).

Definition OnSendOutput (txn_id : Z) (vars : output_map) (s : sched) : option sched :=
  let '(s, t) := GetOrCreateDTxn txn_id s in
  if IsExecuted t then Some s
  else
    let '(ps, more_to_run) := MergeCheckReadyPieces vars (dreqs_ t) in
    let s := put txn_id (t {{ dreqs_ := ps }}) s in
    if more_to_run then CheckWaitlist (s {{ waitlist_ := {[txn_id]} ∪ waitlist_ s }})
    else Some s.

(** The path without a graph: the transaction has no conflicts. *)
Definition commit_alone (txn_id : Z) (s : sched) : option sched :=
  t ← dtxns_ s !! txn_id;
  _ ← verify (fully_dispatched t);
  g ← UpgradeStatus txn_id TXN_DCD (dtxns_ s);
  s ← TryExecReadyPieces key_columns table_of reports txn_reg my_par txn_id false (s {{ dtxns_ := g }});
  t ← dtxns_ s !! txn_id;
  let s := if IsExecuted t
           then s {{ key_not_known_txns_ := erase_first txn_id (key_not_known_txns_ s) }} else s in
  if bool_decide (to_checks_ t = ∅) then Some s
  else CheckWaitlist (s {{ waitlist_ := waitlist_ s ∪ to_checks_ t }}).

Definition OnCommit (req cmd_id : Z) (graph : option rgraph) (s : sched) : option sched :=
  let '(s, t) := GetOrCreateDTxn cmd_id s in
  _ ← verify (negb (ptr_output_repy_ t));
  s ← TransferOrder cmd_id (put cmd_id (t {{ ptr_output_repy_ := true }}) s);
  t ← dtxns_ s !! cmd_id;
  if IsExecuted t then Some (emit [CommitReply cmd_id req SUCCESS] s)
  else
    _ ← verify (negb (IsAborted t));
    let s := put cmd_id (t {{ commit_request_received_ := true; finish_reply_callback_ := Some req }}) s in
    match graph with
    | None => commit_alone cmd_id s
    | Some graph =>
        g ← Aggregate sched_CreateV graph (dtxns_ s);
        TriggerCheckAfterAggregation graph (s {{ dtxns_ := g }})
    end.

Definition OnInquire (req cmd_id : Z) (s : sched) : option sched :=
  let '(s, _) := GetOrCreateDTxn cmd_id s in
  '(s, b) ← involves my_par cmd_id s;
  _ ← verify (b : bool);
  t ← dtxns_ s !! cmd_id;
  if TXN_CMT <=? status_ t then
    '(s, g) ← InquiredGraph cmd_id s;
    Some (emit [InquireReply req g] s)
  else
    let t := t {{ callbacks_for_inquire_ := callbacks_for_inquire_ t ++ [req] }} in
    Some (put cmd_id t s {{ waitlist_ := {[cmd_id]} ∪ waitlist_ s }}).

(** ** A site as a state machine *)
Inductive msg :=
  | MPreAccept (txn_id : Z) (cmds : list SimpleCommand)
  | MAccept (txn_id ballot : Z) (graph : rgraph)
  | MCommit (req txn_id : Z) (graph : option rgraph)
  | MSendOutput (txn_id : Z) (vars : output_map)
  | MInquire (req txn_id : Z)
  | MInquireAck (txn_id : Z) (graph : rgraph).

Definition handle (m : msg) (s : sched) : option sched :=
  match m with
  | MPreAccept txn_id cmds => r ← OnPreAcceptWoGraph txn_id cmds s; Some r.1.1
  | MAccept txn_id ballot graph => r ← OnAccept txn_id ballot graph s; Some r.1
  | MCommit req txn_id graph => OnCommit req txn_id graph s
  | MSendOutput txn_id vars => OnSendOutput txn_id vars s
  | MInquire req txn_id => OnInquire req txn_id s
  | MInquireAck txn_id graph =>
      InquireAck key_columns table_of reports txn_reg my_par addr now txn_id graph s
  end.
End Brq.

Definition sched_init (cells : gmap (Z * Z) value) : sched :=
  {| dtxns_ := ∅; waitlist_ := ∅; key_not_known_txns_ := [];
     db_ := {| cells := cells; last_ := ∅; rows := []; transferred := []; tparents := [] |};
     orders_ := []; events_ := [] |}.
End BrqSched.
