(* ===== verification/BrqSafety.v ===== *)
(** * What a site promises to the coordinators

    Invariants of a site that handles messages in any order (BrqSched.v): a request to
    commit is answered at most once, positively, and only when the transaction has been
    executed; and the graph that commits a transaction fixes its parents. *)

From Stdlib Require Import ZArith Lia.
From stdpp Require Import base list option gmap sets relations sorting.
From coqutil Require Import Datatypes.RecordSetters.
From S2P Require Import Prelude ALock MemSchema PieceExec DepGraph RccTxn RccGraph RccSched RccSafety BrqSched.
Import DoubleBraceUpdate.
Local Open Scope Z_scope.

Module BrqSafety.
Import DepGraph Rcc RccGraph RccSched RccSafety BrqSched.

(** ** The invariant *)

(** A transaction that was answered [n] times. *)
Record reply_ok (t : RccDTxn) (n : nat) : Prop := {
  r_commit : commit_request_received_ t = true -> ptr_output_repy_ t = true;
  r_flag : debug_replied t = true -> commit_request_received_ t = true /\ n = 1%nat;
  r_count : n = 0%nat
    \/ (n = 1%nat /\ ptr_output_repy_ t = true /\ executed_ t = true
        /\ (debug_replied t = true \/ commit_request_received_ t = false)) }.

Record site_ok (s : sched) : Prop := {
  so_index : index_ok s;
  so_wl : wl_ok s;
  so_success : Forall only_success (events_ s);
  so_none : forall x, x ∉ dom (dtxns_ s) -> replies x (events_ s) = 0%nat;
  so_txn : forall x t, dtxns_ s !! x = Some t -> reply_ok t (replies x (events_ s)) }.

Lemma site_ok_evolves s s' : evolves s s' -> site_ok s -> site_ok s'.
Proof.
  intros E [Hi Hw Hs Hn Ht]. destruct (ev_events _ _ E) as (es & He & Hes & Hn' & Ha).
  split.
  - now apply (index_evolves s).
  - now apply (ev_wl _ _ E).
  - rewrite He. now apply Forall_app.
  - intros x. rewrite (ev_dom _ _ E), He, replies_app. intros Hx. now rewrite (Hn x Hx), (Hn' x Hx).
  - intros x t' Ht'. assert (Hx : x ∈ dom (dtxns_ s)) by (rewrite <- (ev_dom _ _ E); apply elem_of_dom; eauto).
    apply elem_of_dom in Hx as [t Hx]. pose proof (ev_kept _ _ E x t t' Hx Ht') as K.
    destruct (Ht x t Hx) as [R1 R2 R3]. rewrite He, replies_app.
    destruct K. destruct (Ha x t t' Hx Ht') as [(A1 & A2)|(A1 & A2 & A3 & A4 & A5)].
    + rewrite A2, Nat.add_0_r. split; rewrite ?k_commit0, ?k_ptr0, ?A1; [exact R1 | exact R2 |].
      destruct R3 as [?|(? & ? & ? & ?)]; [now left | right; auto].
    + assert (Hz : replies x (events_ s) = 0%nat).
      { destruct R3 as [?|(_ & _ & _ & [H|H])]; [done | congruence | congruence]. }
      rewrite Hz, A5. split; rewrite ?k_commit0, ?k_ptr0; [exact R1 | auto |]. right. rewrite A2, A4. auto.
Qed.

(** A change that leaves the answers alone; new transactions are blank. *)
Record steady (t t' : RccDTxn) : Prop := {
  s_tid : tid_ t' = tid_ t;
  s_ptr : ptr_output_repy_ t' = ptr_output_repy_ t;
  s_commit : commit_request_received_ t' = commit_request_received_ t;
  s_replied : debug_replied t' = debug_replied t;
  s_executed : executed_ t = true -> executed_ t' = true;
  s_checks : to_checks_ t' = to_checks_ t }.
#[export] Instance steady_preorder : PreOrder steady.
Proof. split; [intros t; split; auto | intros a b c [] []; split; try congruence; auto]. Qed.

Record grows (s s' : sched) : Prop := {
  g_dom : dom (dtxns_ s) ⊆ dom (dtxns_ s');
  g_txn : forall x t', dtxns_ s' !! x = Some t' -> steady (default (new_dtxn x) (dtxns_ s !! x)) t';
  g_events : events_ s' = events_ s;
  g_wl : waitlist_ s' ⊆ waitlist_ s ∪ dom (dtxns_ s') }.
#[export] Instance grows_preorder : PreOrder grows.
Proof.
  split.
  - intros s. split; [done | | done | set_solver]. intros x t' Hx. rewrite Hx. reflexivity.
  - intros a b c [D1 T1 E1 W1] [D2 T2 E2 W2]. split; [set_solver | | congruence | set_solver].
    intros x t' Hx. specialize (T2 x t' Hx). destruct (dtxns_ b !! x) as [t|] eqn:Hb; cbn in T2.
    + etransitivity; eauto.
    + assert (Ha : dtxns_ a !! x = None).
      { apply not_elem_of_dom. intros H. apply D1, elem_of_dom in H as [? ?]. congruence. }
      now rewrite Ha.
Qed.

Lemma site_ok_grows s s' : grows s s' -> site_ok s -> site_ok s'.
Proof.
  intros [D T E W] [Hi [Hw1 Hw2] Hs Hn Ht]. split.
  - intros x t' Hx. specialize (T x t' Hx). rewrite (s_tid _ _ T).
    destruct (dtxns_ s !! x) as [t|] eqn:Hb; [exact (Hi x t Hb) | done].
  - split; [set_solver|]. intros x t' Hx. specialize (T x t' Hx). rewrite (s_checks _ _ T).
    destruct (dtxns_ s !! x) as [t|] eqn:Hb; cbn; [specialize (Hw2 x t Hb); set_solver | set_solver].
  - now rewrite E.
  - intros x Hx. rewrite E. apply Hn. set_solver.
  - intros x t' Hx. rewrite E. destruct (T x t' Hx).
    destruct (dtxns_ s !! x) as [t|] eqn:Hb; cbn in *.
    + destruct (Ht x t Hb) as [R1 R2 R3]. split; rewrite ?s_commit0, ?s_ptr0, ?s_replied0;
        [exact R1 | exact R2 |]. destruct R3 as [?|(? & ? & ? & ?)]; [now left | right; auto].
    + rewrite (Hn x) by (now apply not_elem_of_dom). split; rewrite ?s_commit0, ?s_ptr0, ?s_replied0; try discriminate.
      auto.
Qed.

(** Solves [steady] for updates of fields that it does not mention. *)
Ltac steady_fields t := destruct t; split; cbn; auto.

Lemma grows_put v t' s : steady (default (new_dtxn v) (dtxns_ s !! v)) t' -> grows s (put v t' s).
Proof.
  intros Hs. destruct s as [g w kn db od ev]. cbn in *. split; cbn; [set_solver | | done | set_solver].
  intros x u. rewrite lookup_insert. case_decide; [subst x; now intros [= <-]|]. intros Hx. now rewrite Hx.
Qed.

Lemma grows_graph (g : rgraph) s :
  (forall x, is_Some (dtxns_ s !! x) -> is_Some (g !! x)) ->
  (forall x t', g !! x = Some t' -> steady (default (new_dtxn x) (dtxns_ s !! x)) t') ->
  grows s (s {{ dtxns_ := g }}).
Proof.
  intros Hd Ht. destruct s as [g0 w kn db od ev]. cbn in *. split; cbn; auto; [|set_solver].
  intros x. rewrite !elem_of_dom. apply Hd.
Qed.

Lemma grows_rest e od s : grows s (s {{ db_ := e; orders_ := od }}).
Proof. destruct s. split; cbn; [done | | done | set_solver]. intros x t' H. now rewrite H. Qed.

Lemma grows_waitlist w s : w ⊆ waitlist_ s ∪ dom (dtxns_ s) -> grows s (s {{ waitlist_ := w }}).
Proof. intros Hw. destruct s. split; cbn in *; [done | | done | set_solver]. intros x t' H. now rewrite H. Qed.

(** ** The parts of the handlers *)

Lemma aggregate_some create graph g g' :
  Aggregate create graph g = Some g' ->
  keyed graph /\ forall x, g' !! x = match graph !! x with
                           | Some rhs => Some (join_dtxn (default (create rhs) (g !! x)) rhs)
                           | None => g !! x
                           end.
Proof.
  intros Ha. assert (Hk : keyed graph).
  { assert (H : forall l r, foldr (fun pair r => g ← r; _ ← verify (pair.1 =? tid_ pair.2);
                    Some (AggregateVertex create pair.2 g)) (Some g) l = Some r ->
                  forall p, p ∈ l -> tid_ p.2 = p.1).
    { induction l as [|q l IH]; intros r; cbn [foldr]; [set_solver|].
      intros (r1 & H1 & (u & Hu & _)%bind_Some)%bind_Some p [->|Hp]%elem_of_cons; [|eapply IH; eauto].
      unfold verify in Hu. destruct (Z.eqb_spec q.1 (tid_ q.2)); [congruence | discriminate]. }
    intros x t Hx. apply (H _ _ Ha (x, t)). now apply elem_of_map_to_list. }
  split; [exact Hk|]. destruct (aggregate_lookup create graph g Hk) as (g1 & H1 & H2).
  rewrite Ha in H1. injection H1 as ->. exact H2.
Qed.

Lemma join_steady lhs rhs : steady lhs (join_dtxn lhs rhs).
Proof.
  assert (Hp : forall t, steady t (join_parents t rhs)).
  { intros t. unfold join_parents, set_parents. destruct (_ && _); [steady_fields t|].
    destruct (_ <=? _); [destruct (_ <? _); [steady_fields t | reflexivity]|].
    destruct (_ && _); [steady_fields t | reflexivity]. }
  unfold join_dtxn.
  transitivity (join_parents (lhs {{ fast_path_ := fast_path_ lhs && fast_path_ rhs }}) rhs).
  { etransitivity; [|apply Hp]. clear Hp. steady_fields lhs. }
  generalize (join_parents (lhs {{ fast_path_ := fast_path_ lhs && fast_path_ rhs }}) rhs). intros t.
  steady_fields t.
Qed.

Lemma aggregate_grows graph s g :
  Aggregate sched_CreateV graph (dtxns_ s) = Some g -> grows s (s {{ dtxns_ := g }}).
Proof.
  intros [Hk Hl]%aggregate_some. apply grows_graph.
  - intros x [t Ht]. rewrite Hl, Ht. destruct (graph !! x); eauto.
  - intros x t'. rewrite Hl. destruct (graph !! x) as [rhs|] eqn:Hr; [|now intros ->].
    intros <-%(inj Some). destruct (dtxns_ s !! x) as [t|]; cbn [default from_option id]; [apply join_steady|].
    transitivity (sched_CreateV rhs); [|apply join_steady]. rewrite <- (Hk x rhs Hr). split; done.
Qed.

Section Site.
Context (key_columns : Z -> list Z) (table_of : Z -> Z) (touch_col_map : Z -> list Z).
Context (txn_reg : Z -> Z -> option (defer_t * (TxnWorkspace -> prog))).
Context (my_par site_id : Z) (addr : Z -> Z).

#[local] Notation GetOrCreateDTxn := (GetOrCreateDTxn my_par).
#[local] Notation CheckWaitlist :=
  (CheckWaitlist key_columns table_of (reports site_id) txn_reg my_par addr).
#[local] Notation TriggerCheck :=
  (TriggerCheckAfterAggregation key_columns table_of (reports site_id) txn_reg my_par addr).
#[local] Notation handle := (handle key_columns table_of touch_col_map txn_reg my_par site_id addr).

Lemma get_or_create_grows v s s' t :
  GetOrCreateDTxn v s = (s', t) -> grows s s' /\ dtxns_ s' !! v = Some t.
Proof.
  unfold RccSched.GetOrCreateDTxn. intros [= <- <-].
  split; [apply grows_put | destruct s; apply lookup_insert_eq].
  generalize (default (new_dtxn v) (dtxns_ s !! v)). intros t. steady_fields t.
Qed.

Lemma check_waitlist_ok now s s' : site_ok s -> CheckWaitlist now s = Some s' -> site_ok s' /\ evolves s s'.
Proof.
  intros Hs Hc. destruct (check_from_rounds key_columns table_of (reports site_id) txn_reg my_par addr now
    (S (size (dtxns_ s))) None s (so_index _ Hs) (so_wl _ Hs)) as (vs & s1 & _ & E & _ & [[H _]|[H _]]).
  - unfold ahead. rewrite <- size_dom. unfold size, set_size. cbn. apply Nat.lt_succ_r, List.filter_length_le.
  - unfold RccSched.CheckWaitlist in Hc. rewrite Hc in H. injection H as ->.
    split; [now apply (site_ok_evolves s) | exact E].
  - unfold RccSched.CheckWaitlist in Hc. congruence.
Qed.

Lemma trigger_ok now graph s s' :
  site_ok s -> TriggerCheck now graph s = Some s' ->
  site_ok s' /\ evolves (s {{ waitlist_ := waitlist_ s ∪ dom graph }}) s'.
Proof.
  intros Hs. unfold TriggerCheckAfterAggregation. intros (u & Hu & H)%bind_Some.
  assert (Hd : dom graph ⊆ dom (dtxns_ s)).
  { unfold verify in Hu. destruct (bool_decide (dom graph ⊆ _)) eqn:E; [|discriminate].
    now apply bool_decide_eq_true in E. }
  assert (Hs' : site_ok (s {{ waitlist_ := waitlist_ s ∪ dom graph }})).
  { eapply site_ok_grows; [apply grows_waitlist; set_solver | exact Hs]. }
  case_bool_decide; [injection H as <-; split; [exact Hs' | reflexivity]|]. eapply check_waitlist_ok; eauto.
Qed.

Lemma dispatch_steady cmds t s t' s' :
  dispatch key_columns table_of txn_reg my_par site_id cmds t s = Some (t', s') ->
  steady t t' /\ exists e, s' = s {{ db_ := e }}.
Proof.
  unfold dispatch. destruct (_ <? _); [destruct (_ <? _)|].
  - intros ([[t1 e1] b] & Hd & [= <- <-])%bind_Some. split; [|now eexists].
    unfold DispatchExec, run_ready in Hd. revert Hd.
    set (t0 := TraceDepUnkKey _ _). assert (H0 : steady t t0).
    { unfold t0, TraceDepUnkKey, add_dreqs, set_parents.
      destruct (last _) as [p|]; [destruct (_ =? _)|]; steady_fields t. }
    clearbody t0. intros ([[t2 e2] o] & (r & Hr & [= <- <- <-])%bind_Some & ([e3 b3] & Hp & [= <- <- <-])%bind_Some)%bind_Some.
    etransitivity; [exact H0|]. clear. destruct t0. split; cbn; auto.
  - intros [= <- <-]. split; [reflexivity|]. exists (db_ s). now destruct s.
  - intros [= <- <-]. split; [|exists (db_ s); now destruct s].
    case_bool_decide; [unfold add_dreqs; steady_fields t | reflexivity].
Qed.

Lemma preaccept_grows v cmds s r :
  OnPreAcceptWoGraph key_columns table_of txn_reg my_par site_id v cmds s = Some r -> grows s r.1.1.
Proof.
  unfold OnPreAcceptWoGraph.
  intros (? & _ & (c0 & _ & (? & _ & H)%bind_Some)%bind_Some)%bind_Some. revert H.
  destruct (GetOrCreateDTxn v s) as [s1 t] eqn:Hg. apply get_or_create_grows in Hg as [G1 Hv].
  set (t1 := UpdateStatus _ _). assert (H1 : steady t t1).
  { unfold t1, UpdateStatus. destruct (_ <? _); steady_fields t. }
  clearbody t1. destruct (0 <? _).
  - intros [= <-]. etransitivity; [exact G1|]. apply grows_put. now rewrite Hv.
  - intros ([t2 s2] & Hd & (? & _ & ([[g ng] e] & Hm & [= <-])%bind_Some)%bind_Some)%bind_Some. cbn [fst].
    apply dispatch_steady in Hd as [H2 [e2 ->]]. apply MinItfrGraph_unshard in Hm.
    assert (H3 : steady t (t2 {{ fully_dispatched := true }})).
    { etransitivity; [exact H1|]. etransitivity; [exact H2|]. clear. steady_fields t2. }
    set (t3 := t2 {{ fully_dispatched := true }}) in *. clearbody t3.
    assert (Hdom : dom g = dom (<[v := t3]> (dtxns_ s1))).
    { transitivity (dom (unshard <$> g)); [now rewrite dom_fmap_L|]. rewrite Hm, dom_fmap_L. now destruct s1. }
    etransitivity; [exact G1|]. destruct s1 as [g1 w1 kn db od ev]. cbn in *. split; cbn; auto.
    + rewrite Hdom. set_solver.
    + clear x. intros x t' Hx. assert (Hx' : x ∈ dom (<[v := t3]> g1))
        by (rewrite <- Hdom; apply elem_of_dom; eauto).
      apply elem_of_dom in Hx' as [u Hu].
      pose proof (unshard_calm ∅ _ _ x u t' Hm Hu Hx) as [K R C].
      assert (Hu' : steady u t').
      { split; [apply K | apply K | apply K | exact R | apply K |].
        assert (E : (unshard <$> g) !! x = (unshard <$> <[v := t3]> g1) !! x) by (now rewrite Hm).
        rewrite !lookup_fmap, Hx, Hu in E. cbn in E. apply (inj Some) in E. apply (f_equal to_checks_) in E.
        destruct u, t'. exact E. }
      etransitivity; [|exact Hu']. revert Hu. rewrite lookup_insert. case_decide.
      * subst x. intros <-%(inj Some). now rewrite Hv.
      * intros ->. reflexivity.
    + destruct (_ <=? _); [|set_solver]. rewrite Hdom. set_solver.
Qed.
Lemma transfer_order_grows v s s' :
  TransferOrder touch_col_map site_id v s = Some s' ->
  grows s s' /\ forall x, (fun t => (status_ t, executed_ t)) <$> dtxns_ s' !! x
                        = (fun t => (status_ t, executed_ t)) <$> dtxns_ s !! x.
Proof.
  unfold TransferOrder. destruct (reports site_id); [|now intros [= <-]].
  intros (t & Hv & <-%(inj Some))%bind_Some.
  set (t1 := t {{ all_touched_shards_ := all_touched_shards_ t ++ partition_ t }}).
  assert (H1 : steady t t1 /\ status_ t1 = status_ t /\ executed_ t1 = executed_ t)
    by (unfold t1; split; [steady_fields t | now destruct t]).
  destruct H1 as (H1 & Hst & Hex). clearbody t1. split.
  - etransitivity; [|apply grows_put]; [apply (grows_rest (db_ s)) |].
    destruct s; cbn in *. now rewrite Hv.
  - destruct s as [g w kn db od ev]. cbn in *.
    intros x; rewrite lookup_insert; (case_decide; [subst x; rewrite Hv; cbn; congruence | done]).
Qed.

Lemma accept_grows v ballot graph s r :
  OnAccept touch_col_map my_par site_id v ballot graph s = Some r -> grows s r.1.
Proof.
  unfold OnAccept. destruct (GetOrCreateDTxn v s) as [s1 t] eqn:Hg. apply get_or_create_grows in Hg as [G1 Hv].
  intros (? & _ & (s2 & H2 & (g & Ha & <-%(inj Some))%bind_Some)%bind_Some)%bind_Some. cbn [fst].
  apply transfer_order_grows in H2 as [G2 _]. apply aggregate_grows in Ha.
  etransitivity; [exact G1|]. etransitivity; [|exact Ha]. etransitivity; [|exact G2].
  apply grows_put. rewrite Hv. cbn [default from_option id]. clear. steady_fields t.
Qed.

Lemma output_ok now v vars s s' :
  site_ok s ->
  OnSendOutput key_columns table_of txn_reg my_par site_id addr now v vars s = Some s' -> site_ok s'.
Proof.
  intros Hs. unfold OnSendOutput. destruct (GetOrCreateDTxn v s) as [s1 t] eqn:Hg.
  apply get_or_create_grows in Hg as [G1 Hv]. apply (site_ok_grows _ _ G1) in Hs.
  destruct (IsExecuted t); [now intros [= <-]|]. destruct (MergeCheckReadyPieces vars _) as [ps more].
  set (t1 := t {{ dreqs_ := ps }}). assert (H1 : steady t t1) by (unfold t1; steady_fields t). clearbody t1.
  assert (G2 : grows s1 (put v t1 s1)) by (apply grows_put; now rewrite Hv).
  apply (site_ok_grows _ _ G2) in Hs. destruct more; [|now intros [= <-]].
  intros H. eapply check_waitlist_ok; [|exact H]. eapply site_ok_grows; [apply grows_waitlist | exact Hs].
  destruct s1; cbn. set_solver.
Qed.

Lemma put_ok v t t' s :
  site_ok s -> dtxns_ s !! v = Some t -> tid_ t' = tid_ t -> to_checks_ t' = to_checks_ t ->
  reply_ok t' (replies v (events_ s)) -> site_ok (put v t' s).
Proof.
  intros [Hi [W1 W2] Hs Hn Ht] Hv Htid Hk Hr. destruct s as [g w kn db od ev]. cbn in *.
  assert (Hd : dom (<[v := t']> g) = dom g) by (apply dom_insert_lookup_L; eauto).
  split; cbn; auto.
  - intros x u. cbn. rewrite lookup_insert. case_decide; [subst x; intros <-%(inj Some); rewrite Htid; exact (Hi v t Hv) | apply Hi].
  - split; cbn; rewrite Hd; [exact W1|]. intros x u. rewrite lookup_insert.
    case_decide; [subst x; intros <-%(inj Some); rewrite Hk; exact (W2 v t Hv) | apply W2].
  - intros x. rewrite Hd. apply Hn.
  - intros x u. rewrite lookup_insert. case_decide; [subst x; intros <-%(inj Some); exact Hr | apply Ht].
Qed.

(** Before the first request to commit nobody was answered. *)
Lemma not_asked v t s :
  site_ok s -> dtxns_ s !! v = Some t -> ptr_output_repy_ t = false ->
  replies v (events_ s) = 0%nat /\ commit_request_received_ t = false /\ debug_replied t = false.
Proof.
  intros Hs Hv Hp. destruct (so_txn _ Hs v t Hv) as [R1 R2 R3].
  assert (Hc : commit_request_received_ t = false) by (destruct (commit_request_received_ t); [rewrite R1 in Hp; auto | done]).
  assert (Hd : debug_replied t = false) by (destruct (debug_replied t); [destruct R2; congruence | done]).
  destruct R3 as [?|(_ & ? & _)]; [auto | congruence].
Qed.

Lemma commit_reply_ok v req s t :
  site_ok s -> dtxns_ s !! v = Some t -> executed_ t = true -> ptr_output_repy_ t = true ->
  commit_request_received_ t = false -> replies v (events_ s) = 0%nat ->
  site_ok (emit [CommitReply v req SUCCESS] s).
Proof.
  intros [Hi [W1 W2] Hs Hn Ht] Hv Hx Hp Hc Hz. destruct s as [g w kn db od ev]. cbn in *.
  assert (Hone : forall x, replies x [CommitReply v req SUCCESS] = if x =? v then 1%nat else 0%nat).
  { intros x. unfold replies. cbn. rewrite (Z.eqb_sym v x). now destruct (x =? v). }
  split; cbn; auto; [now split | | |].
  - apply Forall_app. split; [exact Hs | repeat constructor].
  - intros x Hx'. rewrite replies_app, Hn, Hone by exact Hx'. destruct (Z.eqb_spec x v); [|done].
    subst x. destruct Hx'. apply elem_of_dom. eauto.
  - intros x u Hu. rewrite replies_app, Hone. destruct (Z.eqb_spec x v) as [->|Hne].
    + rewrite Hv in Hu. injection Hu as <-. rewrite Hz. destruct (Ht v t Hv) as [R1 R2 R3].
      split; [congruence | intros H; destruct (R2 H); congruence | right; auto].
    + rewrite Nat.add_0_r. now apply Ht.
Qed.

Lemma commit_alone_ok now v s s' :
  site_ok s -> commit_alone key_columns table_of txn_reg my_par site_id addr now v s = Some s' -> site_ok s'.
Proof.
  intros Hs. unfold commit_alone, UpgradeStatus.
  intros (t & Hv & (? & _ & (g & (t0 & Hv0 & <-%(inj Some))%bind_Some & (s1 & Ht & (t1 & Hv1 & H)%bind_Some)%bind_Some)%bind_Some)%bind_Some)%bind_Some.
  assert (E0 : evolves s (put v (union_status TXN_DCD t0) s)) by (eapply evolves_put_calm; [exact Hv0 | apply union_dcd_calm]).
  apply (site_ok_evolves _ _ E0) in Hs. apply TryExec_evolves in Ht; [|apply Hs].
  apply (site_ok_evolves _ _ Ht) in Hs. revert H.
  set (s2 := if IsExecuted t1 then _ else _).
  assert (E2 : evolves s1 s2 /\ dtxns_ s2 = dtxns_ s1 /\ waitlist_ s2 = waitlist_ s1).
  { unfold s2. destruct (IsExecuted t1); [|split; [reflexivity | done]].
    split; [|now destruct s1].
    replace (s1 {{ key_not_known_txns_ := erase_first v (key_not_known_txns_ s1) }})
      with (s1 {{ db_ := db_ s1; key_not_known_txns_ := erase_first v (key_not_known_txns_ s1) }})
      by (now destruct s1). apply evolves_rest. }
  destruct E2 as (E2 & Hg2 & _). clearbody s2. apply (site_ok_evolves _ _ E2) in Hs.
  case_bool_decide; [now intros <-%(inj Some)|]. intros Hc. eapply check_waitlist_ok; [|exact Hc].
  eapply site_ok_grows; [apply grows_waitlist | exact Hs].
  destruct (so_wl _ Hs) as [_ W2]. specialize (W2 v t1). rewrite Hg2 in *. specialize (W2 Hv1). cbn in W2. set_solver.
Qed.

(** A request to commit up to the point where the transaction may execute. *)
Lemma commit_prefix now req v graph s s' :
  site_ok s ->
  OnCommit key_columns table_of touch_col_map txn_reg my_par site_id addr now req v graph s = Some s' ->
  let t0 := default (new_dtxn v) (dtxns_ s !! v) in
  (executed_ t0 = true /\ site_ok s')
  \/ exists s1 t, executed_ t0 = false /\ site_ok s1 /\ dtxns_ s1 !! v = Some t /\ status_ t = status_ t0
     /\ match graph with
        | None => commit_alone key_columns table_of txn_reg my_par site_id addr now v s1 = Some s'
        | Some graph => exists g, Aggregate sched_CreateV graph (dtxns_ s1) = Some g
                                  /\ TriggerCheck now graph (s1 {{ dtxns_ := g }}) = Some s'
        end.
Proof.
  intros Hs. unfold OnCommit. destruct (GetOrCreateDTxn v s) as [s1 t] eqn:Hg. cbv zeta.
  assert (Hsame : status_ t = status_ (default (new_dtxn v) (dtxns_ s !! v))
                  /\ executed_ t = executed_ (default (new_dtxn v) (dtxns_ s !! v))).
  { unfold RccSched.GetOrCreateDTxn in Hg. injection Hg as _ <-. now destruct (default (new_dtxn v) (dtxns_ s !! v)). }
  destruct Hsame as [<- <-]. apply get_or_create_grows in Hg as [G1 Hv]. apply (site_ok_grows _ _ G1) in Hs.
  intros (? & Hp & (s2 & Ht & (t2 & Hv2 & H)%bind_Some)%bind_Some)%bind_Some.
  assert (Hp' : ptr_output_repy_ t = false) by (unfold verify in Hp; now destruct (ptr_output_repy_ t)). clear Hp.
  destruct (not_asked v t s1 Hs Hv Hp') as (Hz & Hc & Hd).
  set (t1 := t {{ ptr_output_repy_ := true }}) in *.
  assert (Et : tid_ t1 = tid_ t /\ to_checks_ t1 = to_checks_ t /\ ptr_output_repy_ t1 = true
    /\ debug_replied t1 = false /\ commit_request_received_ t1 = false /\ status_ t1 = status_ t
    /\ executed_ t1 = executed_ t) by (unfold t1; now destruct t).
  destruct Et as (E1 & E2 & E3 & E4 & E5 & E6 & E7). clearbody t1.
  assert (Hs1 : site_ok (put v t1 s1)).
  { eapply put_ok; eauto. rewrite Hz. split; [congruence | congruence | now left]. }
  apply transfer_order_grows in Ht as [G2 Hsame]. apply (site_ok_grows _ _ G2) in Hs1.
  pose proof (g_txn _ _ G2 v t2 Hv2) as S2. specialize (Hsame v). rewrite Hv2 in Hsame.
  replace (dtxns_ (put v t1 s1) !! v) with (Some t1) in S2, Hsame by (destruct s1; symmetry; apply lookup_insert_eq).
  cbn in S2. injection Hsame as Hst Hex.
  assert (Hz2 : replies v (events_ s2) = 0%nat) by (rewrite (g_events _ _ G2); destruct s1; exact Hz).
  destruct S2. revert H. unfold IsExecuted. rewrite Hex, E7. destruct (executed_ t) eqn:Hx.
  - intros <-%(inj Some). left. split; [done|]. eapply commit_reply_ok; eauto; congruence.
  - intros (? & _ & H)%bind_Some. right.
    set (t3 := t2 {{ commit_request_received_ := true; finish_reply_callback_ := Some req }}) in *.
    assert (H3 : tid_ t3 = tid_ t2 /\ to_checks_ t3 = to_checks_ t2 /\ ptr_output_repy_ t3 = ptr_output_repy_ t2
      /\ debug_replied t3 = debug_replied t2 /\ commit_request_received_ t3 = true /\ status_ t3 = status_ t2)
      by (unfold t3; now destruct t2).
    destruct H3 as (F1 & F2 & F3 & F4 & F5 & F6). clearbody t3. exists (put v t3 s2), t3. split_and!.
    + done.
    + eapply put_ok; eauto. rewrite Hz2. split; [congruence | congruence | now left].
    + destruct s2. apply lookup_insert_eq.
    + congruence.
    + destruct graph as [graph|]; [|exact H]. apply bind_Some in H as (g & Ha & Htr). eauto.
Qed.

Lemma commit_ok now req v graph s s' :
  site_ok s ->
  OnCommit key_columns table_of touch_col_map txn_reg my_par site_id addr now req v graph s = Some s' -> site_ok s'.
Proof.
  intros Hs H. destruct (commit_prefix _ _ _ _ _ _ Hs H) as [[_ ?]|(s1 & t & _ & Hs1 & Hv & _ & Hrest)]; [done|].
  destruct graph as [graph|].
  - destruct Hrest as (g & Ha & Htr). apply aggregate_grows in Ha. apply (site_ok_grows _ _ Ha) in Hs1.
    apply (trigger_ok _ _ _ _ Hs1) in Htr as [? _]. assumption.
  - eapply commit_alone_ok; eauto.
Qed.

Lemma inquire_ok req v s s' :
  site_ok s -> OnInquire my_par req v s = Some s' -> site_ok s'.
Proof.
  intros Hs. unfold OnInquire. destruct (GetOrCreateDTxn v s) as [s1 t] eqn:Hg.
  apply get_or_create_grows in Hg as [G1 Hv]. apply (site_ok_grows _ _ G1) in Hs.
  intros ([s2 b] & Hi & (? & _ & (t2 & Hv2 & H)%bind_Some)%bind_Some)%bind_Some.
  apply involves_evolves in Hi. apply (site_ok_evolves _ _ Hi) in Hs. revert H.
  destruct (_ <=? _).
  - intros ([s3 g] & H3 & <-%(inj Some))%bind_Some. apply InquiredGraph_evolves in H3.
    apply (site_ok_evolves _ _ H3) in Hs. eapply site_ok_evolves; [|exact Hs]. apply evolves_emit.
    intros y. repeat constructor.
  - intros <-%(inj Some).
    set (t3 := t2 {{ callbacks_for_inquire_ := callbacks_for_inquire_ t2 ++ [req] }}).
    assert (H3 : steady t2 t3) by (unfold t3; steady_fields t2). clearbody t3.
    eapply site_ok_grows; [|exact Hs].
    etransitivity; [apply (grows_waitlist ({[v]} ∪ waitlist_ s2))|apply grows_put].
    + assert (v ∈ dom (dtxns_ s2)) by (apply elem_of_dom; eauto). set_solver.
    + destruct s2; cbn in *. now rewrite Hv2.
Qed.

Lemma inquire_ack_ok now v graph s s' :
  site_ok s ->
  InquireAck key_columns table_of (reports site_id) txn_reg my_par addr now v graph s = Some s' -> site_ok s'.
Proof.
  intros Hs. unfold InquireAck. intros (t & Hv & (g & Ha & (s2 & Ht & (t2 & _ & (? & _ & <-%(inj Some))%bind_Some)%bind_Some)%bind_Some)%bind_Some)%bind_Some.
  set (t1 := t {{ inquire_acked_ := true }}) in *.
  assert (H1 : steady t t1) by (unfold t1; steady_fields t). clearbody t1.
  assert (G : grows s (put v t1 s)) by (apply grows_put; now rewrite Hv).
  apply (site_ok_grows _ _ G) in Hs. apply aggregate_grows in Ha. apply (site_ok_grows _ _ Ha) in Hs.
  apply (trigger_ok _ _ _ _ Hs) in Ht as [? _]. assumption.
Qed.

Lemma handle_ok now m s s' : site_ok s -> handle now m s = Some s' -> site_ok s'.
Proof.
  intros Hs. destruct m; cbn [BrqSched.handle].
  - intros (r & H & <-%(inj Some))%bind_Some. apply preaccept_grows in H. now apply (site_ok_grows s).
  - intros (r & H & <-%(inj Some))%bind_Some. apply accept_grows in H. now apply (site_ok_grows s).
  - now apply commit_ok.
  - now apply output_ok.
  - now apply inquire_ok.
  - now apply inquire_ack_ok.
Qed.

(** A run of the site: the messages with the times at which they are handled. *)
Fixpoint run_site (ms : list (Z * msg)) (s : sched) : option sched :=
  match ms with
  | [] => Some s
  | (now, m) :: ms => s ← handle now m s; run_site ms s
  end.

Lemma init_ok m : site_ok (sched_init m).
Proof. split; cbn; try done. Qed.

(** C12. Whatever messages a site handles, and in whatever order, it answers the requests to
    commit a transaction at most once, with success, and only when the transaction counts as
    executed on the site. *)
Theorem commit_answered_once m ms s x :
  run_site ms (sched_init m) = Some s ->
  Forall only_success (events_ s)
  /\ (replies x (events_ s) = 0%nat
      \/ (replies x (events_ s) = 1%nat
          /\ exists t, dtxns_ s !! x = Some t /\ executed_ t = true /\ ptr_output_repy_ t = true)).
Proof.
  assert (H : forall ms s0, site_ok s0 -> run_site ms s0 = Some s -> site_ok s).
  { induction ms0 as [|[now msg] ms0 IH]; intros s0 Hs; cbn [run_site]; [now intros <-%(inj Some)|].
    intros (s1 & H1 & H2)%bind_Some. apply (IH s1); [now apply (handle_ok now msg s0) | exact H2]. }
  intros Hr. pose proof (H ms _ (init_ok m) Hr) as Hs. split; [apply Hs|].
  destruct (dtxns_ s !! x) as [t|] eqn:Hx.
  - destruct (r_count _ _ (so_txn _ Hs x t Hx)) as [?|(? & ? & ? & _)]; [now left | right; eauto 6].
  - left. apply (so_none _ Hs). now apply not_elem_of_dom.
Qed.

(** C15. The graph that commits a transaction fixes its parents: on every site that has the
    transaction in a lower status and has not executed it, whatever parents the site had found
    itself, the transaction has the parents of the graph afterwards, so that all sites agree. *)
Theorem commit_fixes_parents now req v graph rhs s s' :
  site_ok s -> graph !! v = Some rhs -> TXN_CMT <= status_ rhs ->
  status_ (default (new_dtxn v) (dtxns_ s !! v)) < status_ rhs ->
  executed_ (default (new_dtxn v) (dtxns_ s !! v)) = false ->
  handle now (MCommit req v (Some graph)) s = Some s' ->
  exists t', dtxns_ s' !! v = Some t' /\ tx_parents t' = tx_parents rhs.
Proof.
  intros Hs Hr Hcmt Hlow Hx H. cbn [BrqSched.handle] in H.
  destruct (commit_prefix _ _ _ _ _ _ Hs H) as [[? _]|(s1 & t & _ & Hs1 & Hv & Hst & g & Ha & Htr)];
    [congruence|].
  pose proof (aggregate_grows _ _ _ Ha) as G. apply (site_ok_grows _ _ G) in Hs1.
  apply (trigger_ok _ _ _ _ Hs1) in Htr as [_ E]. apply aggregate_some in Ha as [_ Hl].
  specialize (Hl v). rewrite Hr, Hv in Hl. cbn [default from_option id] in Hl.
  assert (Hd : v ∈ dom (dtxns_ s')).
  { rewrite (ev_dom _ _ E). destruct s1; cbn. apply elem_of_dom. eauto. }
  apply elem_of_dom in Hd as [t' Ht']. exists t'. split; [exact Ht'|].
  rewrite (k_parents _ _ (ev_kept _ _ E v (join_dtxn t rhs) t' ltac:(destruct s1; exact Hl) Ht')).
  apply join_commit; [exact Hcmt | rewrite Hst; exact Hlow].
Qed.
End Site.

End BrqSafety.
