(* ===== verification/BrqCoord.v ===== *)
(** * The coordinator of the transaction protocol

    [BrqCoord] (deptran/brq/coord.h and .cc) for one transaction: pre-accept on all
    replicas of all its partitions, the fast path when every partition is unanimous, accept
    and commit, with the graphs that it collects, and the broadcasts of [BrqCommo]
    (deptran/brq/commo.cc).  A broadcast to a partition is one entry of [sent]; what a
    message keeps of a graph is [marshalled] of its vertices.  The sizes of the partitions
    come from the configuration, the commands from [TxnCommand::GetAllCmds].  The phase
    counter is not wrapped, and [Restart], which is for aborted transactions, is a failure. *)

From Stdlib Require Import ZArith Lia.
From stdpp Require Import base list option gmap sets relations sorting.
From coqutil Require Import Datatypes.RecordSetters.
From S2P Require Import Prelude ALock MemSchema PieceExec DepGraph RccTxn RccGraph.
Import DoubleBraceUpdate.
Local Open Scope Z_scope.

Module BrqCoord.
Import DepGraph Rcc RccGraph.

Definition INIT_END : Z := 0.
Definition DISPATCH : Z := 1.
Definition PRE_ACCEPT : Z := 3.
Definition ACCEPT : Z := 4.
Definition COMMIT : Z := 5.
Definition n_phase : Z := 6.

Inductive cmsg :=
  | PreAcceptMsg (par : Z) (cmds : list SimpleCommand)
  | AcceptMsg (par ballot : Z) (graph : rgraph)
  | CommitMsg (par : Z) (graph : option rgraph).

Record coord := {
  cphase_ : Z;
  partition_ids_ : list Z;
  n_fast_accept_oks_ : gmap Z Z;
  n_accept_oks_ : gmap Z Z;
  n_fast_accept_graphs_ : gmap Z (list rgraph);
  fast_accept_graph_check_caches_ : gmap Z Z;
  n_commit_oks_ : gmap Z Z;
  cfast_path_ : bool;
  fast_commit_ : bool;
  ccommitted_ : bool;
  aborted_ : bool;
  graph_ : rgraph;
  sent : list cmsg;
  reply : option Z }.

(** The coordinator after [Reset], at the start of a transaction. *)
Definition coord_init : coord :=
  {| cphase_ := INIT_END; partition_ids_ := []; n_fast_accept_oks_ := ∅; n_accept_oks_ := ∅;
     n_fast_accept_graphs_ := ∅; fast_accept_graph_check_caches_ := ∅; n_commit_oks_ := ∅;
     cfast_path_ := false; fast_commit_ := false; ccommitted_ := false; aborted_ := false;
     graph_ := ∅; sent := []; reply := None |}.

(** The value of a [std::map] at a key that may be missing. *)
Definition count_of (m : gmap Z Z) (k : Z) : Z := default 0 (m !! k).
Definition bump_count (k : Z) (m : gmap Z Z) : gmap Z Z := <[k := count_of m k + 1]> m.
Definition keys_of {A} (m : gmap Z A) : list Z := merge_sort Z.le (elements (dom m)).

Definition marshal_graph (g : rgraph) : rgraph := marshalled <$> g.

Section Coord.
Context (cmd_id ballot : Z) (par_size : Z -> Z) (cmds_by_par : list (Z * list SimpleCommand)).

Definition GetFastQuorum (par : Z) : Z := par_size par.
Definition GetSlowQuorum (par : Z) : Z := Z.quot (par_size par) 2 + 1.

Definition graphs_of (par : Z) (c : coord) : list rgraph := default [] (n_fast_accept_graphs_ c !! par).

(** The parents of the transaction in a reply. *)
Definition parents_in (g : rgraph) : option (list Z) := tx_parents <$> g !! cmd_id.

(** The loop over the replies after the first; it stops at a difference. *)
Fixpoint same_parent_sets (parent_set : list Z) (gs : list rgraph) : option bool :=
  match gs with
  | [] => Some true
  | g :: gs =>
      pp_set ← parents_in g;
      if bool_decide (parent_set <> pp_set) then Some false else same_parent_sets parent_set gs
  end.

(** 1: a fast quorum of the same; 2: not possible; 3: too few replies. *)
Definition FastQuorumGraphCheck (par : Z) (c : coord) : option (coord * Z) :=
  let vec_graph := graphs_of par c in
  if Z.of_nat (length vec_graph) <? GetFastQuorum par then Some (c, 3)
  else
    let cached := count_of (fast_accept_graph_check_caches_ c) par in
    if 0 <? cached then Some (c, cached)
    else
      _ ← verify (Z.of_nat (length vec_graph) =? GetFastQuorum par);
      g0 ← head vec_graph;
      parent_set ← parents_in g0;
      same ← same_parent_sets parent_set (tail vec_graph);
      let res := if (same : bool) then 1 else 2 in
      Some (c {{ fast_accept_graph_check_caches_ := <[par := res]> (fast_accept_graph_check_caches_ c) }}, res).

(** The loop of [FastpathPossible] runs through all partitions. *)
Fixpoint fastpath_possible (pars : list Z) (c : coord) (possible : bool) : option (coord * bool) :=
  match pars with
  | [] => Some (c, possible)
  | par :: pars =>
      '(c, r) ← FastQuorumGraphCheck par c;
      fastpath_possible pars c (if r =? 2 then false else possible)
  end.
Definition FastpathPossible (c : coord) : option (coord * bool) := fastpath_possible (partition_ids_ c) c true.

Fixpoint all_fast_quorums (pars : list Z) (c : coord) : option (coord * bool) :=
  match pars with
  | [] => Some (c, true)
  | par :: pars =>
      '(c, r) ← FastQuorumGraphCheck par c;
      if r =? 1 then all_fast_quorums pars c
      else if (r =? 2) || (r =? 3) then Some (c, false) else None
  end.
Definition AllFastQuorumsReached (c : coord) : option (coord * bool) := all_fast_quorums (partition_ids_ c) c.

Definition AcceptQuorumReached (c : coord) : bool :=
  forallb (fun par => negb (count_of (n_accept_oks_ c) par <? GetSlowQuorum par)) (partition_ids_ c).
Definition PreAcceptAllSlowQuorumsReached (c : coord) : bool :=
  forallb (fun par => GetSlowQuorum par <=? count_of (n_fast_accept_oks_ c) par) (partition_ids_ c).

(** [graph_.Aggregate(0, g)]: a vertex that the coordinator does not have is copied. *)
Definition aggregate (g : rgraph) (c : coord) : option coord :=
  g' ← Aggregate copy_dtxn g (graph_ c); Some (c {{ graph_ := g' }}).

Fixpoint aggregate_all (gs : list rgraph) (c : coord) : option coord :=
  match gs with [] => Some c | g :: gs => c ← aggregate g c; aggregate_all gs c end.

Fixpoint choose (pars : list Z) (c : coord) : option coord :=
  match pars with
  | [] => Some c
  | par :: pars =>
      c ← (if cfast_path_ c then g ← head (graphs_of par c); aggregate g c
           else aggregate_all (graphs_of par c) c);
      choose pars c
  end.
Definition ChooseGraph (c : coord) : option coord := choose (keys_of (n_fast_accept_graphs_ c)) c.

(** [BrqCommo::IsGraphOrphan] *)
Definition IsGraphOrphan (g : rgraph) : option bool :=
  if (size g =? 1)%nat then _ ← g !! cmd_id; Some true else Some false.

Definition broadcast (f : Z -> cmsg) (pars : list Z) (c : coord) : coord :=
  c {{ sent := sent c ++ (f <$> pars) }}.

(** A graph that holds other transactions would go to [OnPreAccept], which fails. *)
Definition PreAccept (c : coord) : option coord :=
  let dtxn := default (new_dtxn cmd_id) (graph_ c !! cmd_id) in
  _ ← verify (length (partition_ids_ c) =? length (partition_ dtxn))%nat;
  let pars := cmds_by_par.*1 in
  let c := c {{ graph_ := <[cmd_id := dtxn]> (graph_ c); partition_ids_ := pars;
                n_commit_oks_ := foldr (fun par m => <[par := 0]> m) (n_commit_oks_ c) pars }} in
  skip_graph ← IsGraphOrphan (graph_ c);
  _ ← verify (skip_graph : bool);
  Some (c {{ sent := sent c ++ ((fun pc => PreAcceptMsg pc.1 pc.2) <$> cmds_by_par) }}).

(** The transaction in the graph, committing; the partitions of the replies are all there. *)
Definition commit_graph (c : coord) : option coord :=
  dtxn ← graph_ c !! cmd_id;
  _ ← verify (length (partition_ids_ c) =? length (partition_ dtxn))%nat;
  g ← UpgradeStatus cmd_id TXN_CMT (graph_ c);
  Some (c {{ graph_ := g }}).

Definition clear_fast_path (c : coord) : coord :=
  c {{ graph_ := alter (fun t => t {{ fast_path_ := false }}) cmd_id (graph_ c) }}.

Definition Accept (c : coord) : option coord :=
  _ ← verify (negb (cfast_path_ c));
  c ← ChooseGraph c;
  c ← commit_graph (clear_fast_path c);
  Some (broadcast (fun par => AcceptMsg par ballot (marshal_graph (graph_ c))) (partition_ids_ c) c).

(** [End] *)
Definition End_ (c : coord) : option coord :=
  if ccommitted_ c then Some (c {{ reply := Some SUCCESS }})
  else if aborted_ c then Some (c {{ reply := Some REJECT }})
  else None.

Definition send_commit (c : coord) : option coord :=
  c ← commit_graph c;
  let c := if cfast_path_ c then c else clear_fast_path c in
  skip_graph ← IsGraphOrphan (graph_ c);
  let g := if (skip_graph : bool) then None else Some (marshal_graph (graph_ c)) in
  Some (broadcast (fun par => CommitMsg par g) (partition_ids_ c) c).

(** The last step of [GotoNextPhase]; [Restart] belongs to aborted transactions, which the
    servers never answer, and is a failure here. *)
Definition finish (c : coord) : option coord :=
  let c := c {{ cphase_ := cphase_ c + 1 }} in
  _ ← verify (xorb (ccommitted_ c) (aborted_ c));
  _ ← verify (ccommitted_ c);
  End_ c.

Definition Commit (c : coord) : option coord :=
  c ← send_commit c;
  if fast_commit_ c then finish (c {{ ccommitted_ := true }}) else Some c.

Definition GotoNextPhase (c : coord) : option coord :=
  let p := cphase_ c mod n_phase in
  if p =? INIT_END then PreAccept (c {{ cphase_ := cphase_ c + 3 }})
  else if p =? DISPATCH then PreAccept (c {{ cphase_ := cphase_ c + 2 }})
  else if p =? PRE_ACCEPT then
    if cfast_path_ c then Commit (c {{ cphase_ := cphase_ c + 2 }})
    else Accept (c {{ cphase_ := cphase_ c + 1 }})
  else if p =? ACCEPT then Commit (c {{ cphase_ := cphase_ c + 1 }})
  else if p =? COMMIT then finish c
  else None.

Definition PreAcceptAck (phase par res : Z) (graph : rgraph) (c : coord) : option coord :=
  if negb (phase =? cphase_ c) then Some c
  else
    let c := c {{ n_fast_accept_graphs_ := <[par := graphs_of par c ++ [graph]]> (n_fast_accept_graphs_ c) }} in
    _ ← verify (res =? SUCCESS);
    let c := c {{ n_fast_accept_oks_ := bump_count par (n_fast_accept_oks_ c) }} in
    '(c, possible) ← FastpathPossible c;
    if (possible : bool) then
      '(c, reached) ← AllFastQuorumsReached c;
      if (reached : bool) then c ← ChooseGraph (c {{ cfast_path_ := true }}); GotoNextPhase c
      else Some c
    else if PreAcceptAllSlowQuorumsReached c then
      _ ← verify (negb (cfast_path_ c)); GotoNextPhase c
    else Some c.

Definition AcceptAck (phase par res : Z) (c : coord) : option coord :=
  if negb (cphase_ c =? phase) then Some c
  else
    _ ← verify (res =? SUCCESS);
    let c := c {{ n_accept_oks_ := bump_count par (n_accept_oks_ c) }} in
    if AcceptQuorumReached c then GotoNextPhase c else Some c.

Definition CommitAck (phase par res : Z) (c : coord) : option coord :=
  if negb (phase =? cphase_ c) || fast_commit_ c then Some c
  else
    c ← (if res =? SUCCESS then Some (c {{ ccommitted_ := true }})
         else if res =? REJECT then Some (c {{ aborted_ := true }}) else None);
    let c := c {{ n_commit_oks_ := bump_count par (n_commit_oks_ c) }} in
    if 1 <? count_of (n_commit_oks_ c) par then Some c
    else if existsb (fun p => p.2 =? 0) (map_to_list (n_commit_oks_ c)) then Some c
    else GotoNextPhase c.

(** ** The coordinator as a state machine *)
Inductive ack :=
  | APreAccept (phase par res : Z) (graph : rgraph)
  | AAccept (phase par res : Z)
  | ACommit (phase par res : Z).

Definition on_ack (a : ack) (c : coord) : option coord :=
  match a with
  | APreAccept phase par res graph => PreAcceptAck phase par res graph c
  | AAccept phase par res => AcceptAck phase par res c
  | ACommit phase par res => CommitAck phase par res c
  end.

Fixpoint run_coord (acks : list ack) (c : coord) : option coord :=
  match acks with [] => Some c | a :: acks => c ← on_ack a c; run_coord acks c end.
End Coord.

(** ** What the coordinator knows *)
Section Known.
Context (cmd_id ballot : Z) (par_size : Z -> Z) (cmds_by_par : list (Z * list SimpleCommand)).

#[local] Notation FastQuorumGraphCheck := (FastQuorumGraphCheck cmd_id par_size).
#[local] Notation GotoNextPhase := (GotoNextPhase cmd_id ballot cmds_by_par).
#[local] Notation on_ack := (on_ack cmd_id ballot par_size cmds_by_par).
#[local] Notation run_coord := (run_coord cmd_id ballot par_size cmds_by_par).

(** As many replies of a partition as it has replicas report the same parents. *)
Definition unanimous (par : Z) (gs : list rgraph) : Prop :=
  par_size par <= Z.of_nat (length gs)
  /\ exists ps, forall g, g ∈ take (Z.to_nat (par_size par)) gs -> parents_in cmd_id g = Some ps.

Lemma unanimous_app par gs gs' : unanimous par gs -> unanimous par (gs ++ gs').
Proof.
  intros [Hl (ps & Hg)]. split; [rewrite length_app; lia|]. exists ps. intros g.
  rewrite take_app_le by lia. apply Hg.
Qed.

Record coord_inv (c : coord) : Prop := {
  ci_cache : forall par, count_of (fast_accept_graph_check_caches_ c) par = 1 -> unanimous par (graphs_of par c);
  ci_fast : cfast_path_ c = true -> forall par, par ∈ partition_ids_ c -> unanimous par (graphs_of par c);
  ci_slow_commit : fast_commit_ c = false;
  ci_keys : forall par, par ∈ partition_ids_ c -> is_Some (n_commit_oks_ c !! par);
  ci_oks : forall par, 0 <= count_of (n_commit_oks_ c) par;
  ci_reply : forall r, reply c = Some r ->
    r = SUCCESS /\ COMMIT < cphase_ c /\ forall par, par ∈ partition_ids_ c -> 0 < count_of (n_commit_oks_ c) par }.

(** What the steps of the first phases leave alone. *)
Definition same_counts (c c' : coord) : Prop :=
  cfast_path_ c' = cfast_path_ c /\ partition_ids_ c' = partition_ids_ c /\ n_commit_oks_ c' = n_commit_oks_ c
  /\ n_fast_accept_graphs_ c' = n_fast_accept_graphs_ c
  /\ fast_commit_ c' = fast_commit_ c /\ reply c' = reply c /\ cphase_ c' = cphase_ c.

#[local] Instance same_counts_preorder : PreOrder same_counts.
Proof.
  split; [intros c; unfold same_counts; auto 10|].
  intros a b c (?&?&?&?&?&?&?) (?&?&?&?&?&?&?). unfold same_counts. split_and!; congruence.
Qed.

Lemma same_parent_sets_all ps gs : same_parent_sets cmd_id ps gs = Some true -> forall g, g ∈ gs -> parents_in cmd_id g = Some ps.
Proof.
  induction gs as [|g0 gs IH]; cbn [same_parent_sets]; [set_solver|].
  intros (pp & Hp & H)%bind_Some. revert H. case_bool_decide as Hne; [discriminate|]. subst pp.
  intros H g [->|Hg]%elem_of_cons; [exact Hp | now apply IH].
Qed.

Lemma check_inv par c c' r :
  coord_inv c -> FastQuorumGraphCheck par c = Some (c', r) ->
  coord_inv c' /\ same_counts c c' /\ (r = 1 -> unanimous par (graphs_of par c')).
Proof.
  intros Hi. unfold BrqCoord.FastQuorumGraphCheck.
  destruct (Z.ltb_spec (Z.of_nat (length (graphs_of par c))) (GetFastQuorum par_size par)) as [Hlt|Hge].
  { intros [= <- <-]. split_and!; [exact Hi | reflexivity | discriminate]. }
  destruct (Z.ltb_spec 0 (count_of (fast_accept_graph_check_caches_ c) par)) as [Hc|Hc].
  { intros [= <- <-]. split_and!; [exact Hi | reflexivity | apply Hi]. }
  intros (? & Hv & (g0 & H0 & (ps & Hps & (same & Hs & [= <- <-])%bind_Some)%bind_Some)%bind_Some)%bind_Some.
  unfold verify in Hv. destruct (Z.eqb_spec (Z.of_nat (length (graphs_of par c))) (GetFastQuorum par_size par)) as [He|]; [|discriminate].
  unfold GetFastQuorum in *.
  assert (Hu : same = true -> unanimous par (graphs_of par c)).
  { intros ->. split; [lia|]. exists ps. intros g Hg. rewrite take_ge in Hg by lia.
    destruct (graphs_of par c) as [|g1 gs]; [discriminate|]. injection H0 as ->.
    apply elem_of_cons in Hg as [->|Hg]; [exact Hps | now apply (same_parent_sets_all ps gs)]. }
  destruct c as [ph pi fo ao gr ca co fp fc cm ab ga se re]. destruct Hi as [I1 I2 I3 I4 I5 I6]. cbn in *.
  split_and!; [split; cbn; auto | unfold same_counts; cbn; auto 10 |].
  - intros p. unfold count_of. rewrite lookup_insert. case_decide; [subst p; cbn; destruct same; [auto | discriminate] | apply I1].
  - destruct same; [auto | discriminate].
Qed.

Lemma possible_inv pars : forall c b c' b',
  coord_inv c -> fastpath_possible cmd_id par_size pars c b = Some (c', b') -> coord_inv c' /\ same_counts c c'.
Proof.
  induction pars as [|par pars IH]; intros c b c' b' Hi; cbn [fastpath_possible].
  - intros [= <- <-]. split; [exact Hi | reflexivity].
  - intros ([c1 r] & H1 & H2)%bind_Some. apply check_inv in H1 as (I1 & S1 & _); [|exact Hi].
    apply IH in H2 as [I2 S2]; [|exact I1]. split; [exact I2 | etransitivity; eauto].
Qed.

Lemma graphs_same c c' par : same_counts c c' -> graphs_of par c' = graphs_of par c.
Proof. intros (_ & _ & _ & Hg & _). unfold graphs_of. now rewrite Hg. Qed.

Lemma reached_inv pars : forall c c' b,
  coord_inv c -> all_fast_quorums cmd_id par_size pars c = Some (c', b) ->
  coord_inv c' /\ same_counts c c' /\ (b = true -> forall par, par ∈ pars -> unanimous par (graphs_of par c')).
Proof.
  induction pars as [|par pars IH]; intros c c' b Hi; cbn [all_fast_quorums].
  - intros [= <- <-]. split_and!; [exact Hi | reflexivity | set_solver].
  - intros ([c1 r] & H1 & H)%bind_Some. apply check_inv in H1 as (I1 & S1 & U1); [|exact Hi].
    revert H. destruct (Z.eqb_spec r 1) as [->|_].
    + intros H. apply IH in H as (I2 & S2 & U2); [|exact I1]. split_and!; [exact I2 | etransitivity; eauto |].
      intros Hb p [->|Hp]%elem_of_cons; [rewrite (graphs_same _ _ par S2); auto | auto].
    + destruct (_ || _); [|discriminate]. intros [= <- <-]. split_and!; [exact I1 | exact S1 | discriminate].
Qed.

(** The steps that only change the graph and the messages. *)
Definition same_state (c c' : coord) : Prop :=
  same_counts c c' /\ fast_accept_graph_check_caches_ c' = fast_accept_graph_check_caches_ c.

Lemma coord_inv_same c c' : same_state c c' -> coord_inv c -> coord_inv c'.
Proof.
  intros [(F1 & F2 & F3 & F4 & F5 & F6 & F7) F8] [I1 I2 I3 I4 I5 I6].
  split; unfold graphs_of in *; rewrite ?F1, ?F2, ?F3, ?F4, ?F5, ?F6, ?F7, ?F8; auto.
Qed.

#[local] Instance same_state_preorder : PreOrder same_state.
Proof.
  split; [intros c; split; reflexivity|]. intros a b c [? ?] [? ?]. split; [etransitivity; eauto | congruence].
Qed.

Ltac same_fields c := destruct c; repeat split; reflexivity.

Lemma aggregate_same g c c' : aggregate g c = Some c' -> same_state c c'.
Proof. unfold aggregate. intros (g' & _ & [= <-])%bind_Some. same_fields c. Qed.

Lemma choose_same pars : forall c c', choose pars c = Some c' -> same_state c c'.
Proof.
  induction pars as [|par pars IH]; intros c c'; cbn [choose]; [now intros [= <-]|].
  intros (c1 & H1 & H2%IH)%bind_Some. etransitivity; [|exact H2]. revert H1. destruct (cfast_path_ c).
  - intros (g & _ & H%aggregate_same)%bind_Some. exact H.
  - generalize (graphs_of par c). intros gs. revert c. induction gs as [|g gs IHg]; intros c; cbn [aggregate_all]; [now intros [= <-]|].
    intros (c2 & H3%aggregate_same & H4%IHg)%bind_Some. etransitivity; eauto.
Qed.

Lemma commit_graph_same c c' : commit_graph cmd_id c = Some c' -> same_state c c'.
Proof. unfold commit_graph. intros (t & _ & (? & _ & (g & _ & [= <-])%bind_Some)%bind_Some)%bind_Some. same_fields c. Qed.

Lemma send_commit_same c c' : send_commit cmd_id c = Some c' -> same_state c c'.
Proof.
  unfold send_commit. intros (c1 & H1%commit_graph_same & (b & _ & [= <-])%bind_Some)%bind_Some.
  etransitivity; [exact H1|]. destruct (cfast_path_ c1); same_fields c1.
Qed.
Lemma inv_phase p c : coord_inv c -> cphase_ c <= COMMIT -> coord_inv (c {{ cphase_ := p }}).
Proof.
  intros [I1 I2 I3 I4 I5 I6] Hp. destruct c as [ph pi fo ao gr ca co fp fc cm ab ga se re]. cbn in *.
  split; cbn; auto. intros r Hr. destruct (I6 r Hr) as (_ & ? & _). lia.
Qed.

Lemma commit_inv c c' : coord_inv c -> Commit cmd_id c = Some c' -> coord_inv c'.
Proof.
  intros Hi. unfold Commit. intros (c1 & H1%send_commit_same & H)%bind_Some. apply (coord_inv_same _ _ H1) in Hi.
  revert H. rewrite (ci_slow_commit _ Hi). now intros [= <-].
Qed.

Lemma accept_inv c c' : coord_inv c -> Accept cmd_id ballot c = Some c' -> coord_inv c'.
Proof.
  intros Hi. unfold Accept, ChooseGraph.
  intros (? & _ & (c1 & H1%choose_same & (c2 & H2%commit_graph_same & [= <-])%bind_Some)%bind_Some)%bind_Some.
  eapply coord_inv_same; [|exact Hi]. etransitivity; [exact H1|].
  transitivity (clear_fast_path cmd_id c1); [same_fields c1|]. etransitivity; [exact H2|]. same_fields c2.
Qed.

Lemma push_inv par graph c :
  coord_inv c ->
  coord_inv (c {{ n_fast_accept_graphs_ := <[par := graphs_of par c ++ [graph]]> (n_fast_accept_graphs_ c) }}).
Proof.
  intros [I1 I2 I3 I4 I5 I6]. destruct c as [ph pi fo ao gr ca co fp fc cm ab ga se re]. cbn in *.
  assert (H : forall p, unanimous p (default [] (gr !! p)) ->
    unanimous p (default [] (<[par := default [] (gr !! par) ++ [graph]]> gr !! p))).
  { intros p Hp. rewrite lookup_insert. case_decide; [subst p; cbn; now apply unanimous_app | exact Hp]. }
  split; cbn; auto.
Qed.

Lemma preaccept_ack_inv par res graph c c' :
  coord_inv c -> PreAcceptAck cmd_id ballot par_size cmds_by_par PRE_ACCEPT par res graph c = Some c' -> coord_inv c'.
Proof.
  intros Hi. unfold PreAcceptAck. destruct (Z.eqb_spec PRE_ACCEPT (cphase_ c)) as [Hp|_]; cbn [negb]; [|now intros [= <-]].
  intros (? & _ & ([c1 pos] & H1 & H)%bind_Some)%bind_Some.
  set (c0 := _ {{ n_fast_accept_oks_ := _ }}) in H1.
  assert (I0 : coord_inv c0 /\ cphase_ c0 = PRE_ACCEPT).
  { split; [|now destruct c]. eapply coord_inv_same; [|apply (push_inv par graph), Hi]. unfold c0. same_fields c. }
  destruct I0 as [I0 P0]. clearbody c0. apply possible_inv in H1 as [I1 S1]; [|exact I0].
  assert (P1 : cphase_ c1 = PRE_ACCEPT) by (destruct S1 as (_ & _ & _ & _ & _ & _ & ->); exact P0).
  revert H. destruct pos.
  - intros ([c2 re] & H2 & H)%bind_Some. apply reached_inv in H2 as (I2 & S2 & U2); [|exact I1].
    assert (P2 : cphase_ c2 = PRE_ACCEPT) by (destruct S2 as (_ & _ & _ & _ & _ & _ & ->); exact P1).
    revert H. destruct re; [|now intros [= <-]]. intros (c3 & H3 & H)%bind_Some.
    assert (I2' : coord_inv (c2 {{ cfast_path_ := true }})).
    { destruct S2 as (_ & S2 & _). rewrite <- S2 in U2. clear - I2 U2. destruct I2 as [J1 J2 J3 J4 J5 J6].
      destruct c2; cbn in *; split; cbn; auto. }
    apply choose_same in H3. pose proof (coord_inv_same _ _ H3 I2') as I3.
    assert (P3 : cphase_ c3 = PRE_ACCEPT /\ cfast_path_ c3 = true).
    { destruct H3 as [(-> & _ & _ & _ & _ & _ & ->) _]. destruct c2; auto. }
    destruct P3 as [P3 F3]. revert H. unfold BrqCoord.GotoNextPhase. rewrite P3, F3. cbn.
    apply commit_inv. apply inv_phase; [exact I3 | rewrite P3; unfold COMMIT, PRE_ACCEPT; lia].
  - destruct (PreAcceptAllSlowQuorumsReached _ _); [|now intros [= <-]]. intros (? & Hf & H)%bind_Some.
    assert (F1 : cfast_path_ c1 = false) by (unfold verify in Hf; now destruct (cfast_path_ c1)).
    revert H. unfold BrqCoord.GotoNextPhase. rewrite P1, F1. cbn. apply accept_inv.
    apply inv_phase; [exact I1 | rewrite P1; unfold COMMIT, PRE_ACCEPT; lia].
Qed.

Lemma accept_ack_inv par res c c' :
  coord_inv c -> AcceptAck cmd_id ballot par_size cmds_by_par ACCEPT par res c = Some c' -> coord_inv c'.
Proof.
  intros Hi. unfold AcceptAck. destruct (Z.eqb_spec (cphase_ c) ACCEPT) as [Hp|_]; cbn [negb]; [|now intros [= <-]].
  intros (? & _ & H)%bind_Some. revert H.
  set (c0 := c {{ n_accept_oks_ := _ }}). assert (I0 : coord_inv c0 /\ cphase_ c0 = ACCEPT).
  { split; [|now destruct c]. eapply coord_inv_same; [|exact Hi]. unfold c0. same_fields c. }
  destruct I0 as [I0 P0]. clearbody c0. destruct (AcceptQuorumReached _ _); [|now intros [= <-]].
  unfold BrqCoord.GotoNextPhase. rewrite P0. cbn. apply commit_inv. apply inv_phase; [exact I0 | rewrite P0; unfold COMMIT, ACCEPT; lia].
Qed.

Lemma count_bump k par m : count_of (bump_count par m) k = count_of m k + (if par =? k then 1 else 0).
Proof.
  unfold bump_count, count_of. rewrite lookup_insert. destruct (Z.eqb_spec par k) as [->|]; case_decide; cbn; [done | done | done | lia].
Qed.

Lemma coord_commit_ack_inv par res c c' :
  coord_inv c -> CommitAck cmd_id ballot cmds_by_par COMMIT par res c = Some c' -> coord_inv c'.
Proof.
  intros Hi. unfold CommitAck. rewrite (ci_slow_commit _ Hi), orb_false_r.
  destruct (Z.eqb_spec COMMIT (cphase_ c)) as [Hp|_]; cbn [negb]; [|now intros [= <-]].
  intros (c1 & H1 & H)%bind_Some.
  assert (I1 : coord_inv c1 /\ cphase_ c1 = COMMIT).
  { revert H1. destruct (res =? SUCCESS); [|destruct (res =? REJECT); [|discriminate]]; intros [= <-];
      (split; [|now destruct c]); (eapply coord_inv_same; [|exact Hi]); same_fields c. }
  destruct I1 as [I1 P1]. clear H1. revert H.
  set (c2 := c1 {{ n_commit_oks_ := _ }}).
  assert (I2 : coord_inv c2 /\ cphase_ c2 = COMMIT).
  { split; [|now destruct c1]. destruct I1 as [J1 J2 J3 J4 J5 J6]. unfold c2.
    destruct c1 as [ph pi fo ao gr ca co fp fc cm ab ga se re]. cbn in *. split; cbn; auto.
    - intros p Hp'. unfold bump_count. rewrite lookup_insert. case_decide; eauto.
    - intros p. rewrite count_bump. specialize (J5 p). destruct (_ =? _); lia.
    - intros r Hr. destruct (J6 r Hr) as (? & ? & J). split_and!; auto. intros p Hp'. rewrite count_bump.
      specialize (J p Hp'). destruct (_ =? _); lia. }
  destruct I2 as [I2 P2]. clearbody c2. destruct (1 <? _); [now intros [= <-]|].
  destruct (existsb _ _) eqn:He; [now intros [= <-]|].
  unfold BrqCoord.GotoNextPhase. rewrite P2. cbn. unfold finish, End_.
  intros (? & _ & (? & Hc & H)%bind_Some)%bind_Some.
  assert (Hpos : forall p, p ∈ partition_ids_ c2 -> 0 < count_of (n_commit_oks_ c2) p).
  { intros p Hp'. destruct (ci_keys _ I2 p Hp') as [n Hn]. pose proof (ci_oks _ I2 p) as Ho.
    unfold count_of in *. rewrite Hn in *. cbn in *. assert (n <> 0); [|lia]. intros ->.
    assert (Hx : existsb (fun p => p.2 =? 0) (map_to_list (n_commit_oks_ c2)) = true); [|congruence].
    apply existsb_exists. exists (p, 0). split; [apply list_elem_of_In, elem_of_map_to_list, Hn | done]. }
  destruct I2 as [J1 J2 J3 J4 J5 J6].
  destruct c2 as [ph pi fo ao gr ca co fp fc cm ab ga se re]. cbn in *. destruct cm; [|discriminate].
  injection H as <-. split; cbn; auto. intros r [= <-]. split_and!; [done | unfold COMMIT in *; lia | exact Hpos].
Qed.

(** The phase that an acknowledgement carries is the one of its broadcast. *)
Definition proper (a : ack) : Prop :=
  match a with
  | APreAccept phase _ _ _ => phase = PRE_ACCEPT
  | AAccept phase _ _ => phase = ACCEPT
  | ACommit phase _ _ => phase = COMMIT
  end.

Lemma start_inv c : GotoNextPhase coord_init = Some c -> coord_inv c.
Proof.
  unfold BrqCoord.GotoNextPhase. cbn [coord_init cphase_]. cbn. unfold PreAccept. cbn.
  intros (? & _ & (b & _ & H)%bind_Some)%bind_Some. revert H. destruct b; [|discriminate]. cbn. intros [= <-].
  assert (Hoks : forall l p, (p ∈ l -> is_Some (foldr (fun par m => <[par := 0]> m) (∅ : gmap Z Z) l !! p))
    /\ count_of (foldr (fun par m => <[par := 0]> m) (∅ : gmap Z Z) l) p = 0).
  { induction l as [|y l IH]; intros p; cbn; [split; [set_solver | done]|]. unfold count_of. rewrite lookup_insert.
    case_decide; [split; [eauto | done]|]. destruct (IH p) as [IH1 IH2]. split; [set_solver | exact IH2]. }
  split; cbn; try done.
  - intros par Hp. now apply Hoks.
  - intros par. now rewrite (proj2 (Hoks _ par)).
Qed.

Lemma run_inv acks : forall c c', Forall proper acks -> coord_inv c -> run_coord acks c = Some c' -> coord_inv c'.
Proof.
  induction acks as [|a acks IH]; intros c c' Hp Hi; cbn [BrqCoord.run_coord]; [now intros [= <-]|].
  inversion_clear Hp as [|? ? Ha Hp']. intros (c1 & H1 & H2)%bind_Some. apply (IH c1); [exact Hp' | | exact H2].
  revert H1. destruct a; cbn in Ha; subst phase; cbn [BrqCoord.on_ack];
    [apply preaccept_ack_inv | apply accept_ack_inv | apply coord_commit_ack_inv]; exact Hi.
Qed.

(** C19. A coordinator takes the fast path only if in every partition of the transaction all the
    replicas have answered with the same parents, and it reports the transaction committed only
    when a replica of every partition has acknowledged the commit. *)
Theorem fast_path_unanimous acks c0 c :
  GotoNextPhase coord_init = Some c0 -> Forall proper acks -> run_coord acks c0 = Some c ->
  (cfast_path_ c = true -> forall par, par ∈ partition_ids_ c -> unanimous par (graphs_of par c))
  /\ (forall r, reply c = Some r ->
        r = SUCCESS /\ forall par, par ∈ partition_ids_ c -> 0 < count_of (n_commit_oks_ c) par).
Proof.
  intros H0%start_inv Hp Hr. pose proof (run_inv _ _ _ Hp H0 Hr) as [I1 I2 I3 I4 I5 I6].
  split; [exact I2|]. intros r H. destruct (I6 r H) as (? & _ & ?). auto.
Qed.
(** ** The graph of the fast path *)

(** A reply to a pre-accept: its vertices are under their identifiers, and the transaction is
    pre-accepted; ballots do not travel. *)
Definition pre_accepted (g : rgraph) : Prop :=
  keyed g /\ exists t, g !! cmd_id = Some t /\ status_ t = TXN_PAC /\ max_accepted_ballot_ t = 0.

(** The transaction in the graph of the coordinator, before it is committed. *)
Definition open_graph (g : rgraph) : Prop :=
  exists t, g !! cmd_id = Some t /\ (status_ t = TXN_UKN \/ status_ t = TXN_PAC) /\ max_seen_ballot_ t = 0.

Lemma aggregate_open g c :
  pre_accepted g -> open_graph (graph_ c) ->
  exists c', aggregate g c = Some c' /\ same_state c c' /\ open_graph (graph_ c')
    /\ parents_in cmd_id (graph_ c') = parents_in cmd_id g.
Proof.
  intros (Hk & t & Ht & Hst & Hb) (u & Hu & Hsu & Hbu). unfold aggregate.
  destruct (aggregate_lookup copy_dtxn g (graph_ c) Hk) as (g' & Ha & Hl). rewrite Ha. cbn [mbind option_bind].
  eexists. split; [reflexivity|]. split; [same_fields c|].
  specialize (Hl cmd_id). rewrite Ht, Hu in Hl. cbn [default from_option id] in Hl.
  destruct (join_preaccepted u t) as [Hp Hm];
    [rewrite Hst; destruct Hsu as [-> | ->]; unfold TXN_UKN, TXN_PAC; lia | exact Hst | lia |].
  split.
  - exists (join_dtxn u t). split; [destruct c; exact Hl|]. rewrite join_status, Hst, Hm.
    split; [right; destruct Hsu as [-> | ->]; reflexivity | exact Hb].
  - unfold parents_in. destruct c; cbn. rewrite Hl, Ht. change (Some (tx_parents (join_dtxn u t)) = Some (tx_parents t)).
    now rewrite Hp.
Qed.

Lemma choose_open pars : forall c,
  cfast_path_ c = true -> open_graph (graph_ c) ->
  (forall q, q ∈ pars -> exists g, head (graphs_of q c) = Some g /\ pre_accepted g) ->
  exists c', choose pars c = Some c' /\ same_state c c' /\ open_graph (graph_ c')
    /\ forall par g, last pars = Some par -> head (graphs_of par c) = Some g ->
         parents_in cmd_id (graph_ c') = parents_in cmd_id g.
Proof.
  induction pars as [|q pars IH]; intros c Hf Ho Hg; cbn [choose].
  - exists c. split_and!; [done | reflexivity | exact Ho | discriminate].
  - destruct (Hg q ltac:(left)) as (g & Hgq & Hpre). rewrite Hf, Hgq. cbn [mbind option_bind].
    destruct (aggregate_open g c Hpre Ho) as (c1 & -> & S1 & O1 & P1). cbn [mbind option_bind].
    assert (Hsame : forall p, graphs_of p c1 = graphs_of p c) by (intros p; apply graphs_same, S1).
    destruct (IH c1) as (c2 & Hc2 & S2 & O2 & P2).
    + destruct S1 as [[-> _] _]. exact Hf.
    + exact O1.
    + intros p Hp. rewrite Hsame. apply Hg. now right.
    + exists c2. split_and!; [exact Hc2 | etransitivity; eauto | exact O2 |].
      intros par g' Hlast Hh. destruct pars as [|p pars].
      * injection Hlast as <-. injection Hc2 as <-. congruence.
      * apply (P2 par); [exact Hlast | now rewrite Hsame].
Qed.

(** C20. On the fast path, when the first reply of every partition has the transaction
    pre-accepted and the graph of the coordinator is open, the graph that is committed has
    exactly the parents that the last partition found, the one with the largest identifier:
    the parents that only the other partitions found are lost. *)
Theorem last_partition_wins pars par c g :
  cfast_path_ c = true -> keys_of (n_fast_accept_graphs_ c) = pars ++ [par] ->
  (forall q, q ∈ pars ++ [par] -> exists g, head (graphs_of q c) = Some g /\ pre_accepted g) ->
  open_graph (graph_ c) -> head (graphs_of par c) = Some g ->
  exists c', ChooseGraph c = Some c' /\ parents_in cmd_id (graph_ c') = parents_in cmd_id g.
Proof.
  intros Hf Hk Hg Ho Hp. unfold ChooseGraph. rewrite Hk.
  destruct (choose_open (pars ++ [par]) c Hf Ho Hg) as (c' & Hc & _ & _ & Hlast). exists c'. split; [exact Hc|].
  apply (Hlast par); [apply last_snoc | exact Hp].
Qed.
End Known.

End BrqCoord.
