(* ===== verification/BrqRuns.v ===== *)
(** * Runs of the transaction protocol

    Sites (BrqSched.v) and coordinators (BrqCoord.v) together, on small concrete inputs.
    Transaction 1 adds one to a column of partition 0; transaction 2 doubles the column and
    writes a column of partition 1.  The other transactions have a piece that waits for a
    variable of another partition. *)

From Stdlib Require Import ZArith Lia Sorting.Sorted.
From stdpp Require Import base list option gmap sets relations.
From coqutil Require Import Datatypes.RecordSetters.
From S2P Require Import Prelude ALock MemSchema PieceExec DepGraph DepScc DepTraverse.
From S2P Require Import RccTxn RccGraph RccSched RccSafety BrqSched BrqSafety BrqCoord.
Import DoubleBraceUpdate.
Local Open Scope Z_scope.

Module BrqRuns.
Import DepGraph DepTraverse Rcc RccGraph RccSched RccSafety BrqSched BrqSafety BrqCoord.

(** ** The transactions *)

Definition workspace (vars : list Z) (ready : Z) : TxnWorkspace :=
  {| keys_ := list_to_set vars; values_ := ∅;
     input_var_ready_ := list_to_map ((fun k => (k, 0)) <$> vars); piece_input_ready_ := ready |}.

Definition command (tid type par : Z) (vars : list Z) (ready : Z) : SimpleCommand :=
  {| inn_id_ := type; type_ := type; root_id_ := tid; root_type_ := 1; partition_id_ := par;
     touchColsCnt_ := 0; input := workspace vars ready; local_executed_ := false;
     waiting_var_par_map := ∅ |}.

Definition on_i32 (f : Z -> Z) (x : value) : value := match x with VI32 n => VI32 (f n) | _ => x end.

(** A piece that applies a function to the column 0 of a row. *)
Definition apply_piece (row : Z) (f : Z -> Z) : prog :=
  Read row 0 TXN_DEFERRED (fun x => Write row 0 (on_i32 f x) TXN_DEFERRED (Done [])).

Definition ADD : Z := 11.
Definition DOUBLE : Z := 12.
Definition OTHER : Z := 13.

Definition procedures (_ type : Z) : option (defer_t * (TxnWorkspace -> prog)) :=
  if type =? ADD then Some (DF_REAL, fun _ => apply_piece 1 (fun n => n + 1))
  else if type =? DOUBLE then Some (DF_REAL, fun _ => apply_piece 1 (fun n => n * 2))
  else if type =? OTHER then Some (DF_REAL, fun _ => apply_piece 2 (fun n => n + 1))
  else if type =? TPCC_PAYMENT_5 then Some (DF_REAL, fun _ => apply_piece 1 (fun n => 0))
  else None.

Definition columns : gmap (Z * Z) value := {[ (1, 0) := VI32 0; (2, 0) := VI32 0 ]}.

(** A site of a partition; its messages with the times. *)
Definition site (par site_id : Z) (ms : list (Z * msg)) : option sched :=
  run_site (fun _ => []) (fun row => row) (fun _ => []) procedures par site_id (fun x => x) ms (sched_init columns).

Definition cell (s : sched) : option value := cells (db_ s) !! (1, 0).
Definition executed_on (s : sched) (x : Z) : option bool := executed_ <$> dtxns_ s !! x.

(** The graph in the reply of a site to a pre-accept after other messages. *)
Definition reply_graph (par : Z) (ms : list (Z * msg)) (tid : Z) (cmds : list SimpleCommand) : option rgraph :=
  s ← site par 0 ms;
  r ← OnPreAcceptWoGraph (fun _ => []) (fun row => row) procedures par 0 tid cmds s;
  Some (marshal_graph r.2).

(** What a coordinator sends to the sites of a partition when the replicas have replied. *)
Definition commit_sent (par : Z) (c : coord) : option (option rgraph) :=
  last (omap (fun m => match m with CommitMsg p g => if p =? par then Some g else None | _ => None end) (sent c)).

Definition coordinate (tid : Z) (par_size : Z -> Z) (cmds : list (Z * list SimpleCommand)) (acks : list ack) :
    option coord :=
  c ← GotoNextPhase tid 0 cmds coord_init; run_coord tid 0 par_size cmds acks c.

(** ** Replicas *)

Definition txn1 : list SimpleCommand := [command 1 ADD 0 [] 1].
Definition txn2 : list SimpleCommand := [command 2 DOUBLE 0 [] 1].
Definition txn2' : list SimpleCommand := [command 2 OTHER 1 [] 1].

Definition graph1 : option rgraph := reply_graph 0 [] 1 txn1.
Definition graph2 : option rgraph := reply_graph 0 [(0, MPreAccept 1 txn1)] 2 txn2.
Definition graph2' : option rgraph := reply_graph 1 [] 2 txn2'.

(** Two replicas of partition 0, one of partition 1. *)
Definition replicas (par : Z) : Z := if par =? 0 then 2 else 1.

Definition coord1 : option coord :=
  g ← graph1; coordinate 1 replicas [(0, txn1)] [APreAccept 3 0 SUCCESS g; APreAccept 3 0 SUCCESS g].
Definition coord2 : option coord :=
  g ← graph2; g' ← graph2';
  coordinate 2 replicas [(0, txn2); (1, txn2')]
    [APreAccept 3 0 SUCCESS g; APreAccept 3 0 SUCCESS g; APreAccept 3 1 SUCCESS g'].

(** A replica of partition 0 that gets the commits in one order or the other. *)
Definition replica (second_first : bool) : option sched :=
  c1 ← coord1; g1 ← commit_sent 0 c1;
  c2 ← coord2; g2 ← commit_sent 0 c2;
  let commits := [(1, MCommit 1 1 g1); (2, MCommit 2 2 g2)] in
  site 0 0 ([(0, MPreAccept 1 txn1); (0, MPreAccept 2 txn2)] ++ if second_first then rev commits else commits).

(** Both replicas of a partition pre-accept two conflicting transactions in the same order,
    and both transactions take the fast path.  Partition 1, which the second transaction also
    writes, has no conflict, and its empty set of parents is the one that is committed: the
    replicas execute the transactions in the order in which the commits arrive, answer both
    requests, and end with different values. *)
Theorem replicas_diverge :
  graph2 ≫= parents_in 2 = Some [1] /\ graph2' ≫= parents_in 2 = Some []
  /\ (cfast_path_ <$> coord2) = Some true
  /\ replica false ≫= cell = Some (VI32 2) /\ replica true ≫= cell = Some (VI32 1)
  /\ forall b, (s ← replica b; executed_on s 1) = Some true /\ (s ← replica b; executed_on s 2) = Some true
               /\ ((fun s => (replies 1 (events_ s), replies 2 (events_ s))) <$> replica b) = Some (1%nat, 1%nat).
Proof. split_and!; [vm_compute; reflexivity ..|]. intros []; split_and!; vm_compute; reflexivity. Qed.

(** ** The order of execution *)

(** Transaction 3 has a piece that waits for a variable of another partition; transaction 4
    doubles the same column. *)
Definition txn3 : list SimpleCommand := [command 3 TPCC_PAYMENT_5 0 [5] 0].
Definition txn4 : list SimpleCommand := [command 4 DOUBLE 0 [] 1].

Definition of_par0 (tid : Z) : RccDTxn := (new_dtxn tid) {{ partition_ := [0] }}.
Definition graph4 : rgraph :=
  marshal_graph {[ 3 := of_par0 3; 4 := union_status TXN_CMT (union_status TXN_PAC (set_parents [3] (of_par0 4))) ]}.

Definition waiting_parent : option sched :=
  site 0 0 [(0, MPreAccept 3 txn3); (0, MPreAccept 4 txn4); (1, MCommit 3 3 None); (2, MCommit 4 4 (Some graph4))].

(** A transaction whose parent is decided but still waits for an input is executed and
    answered before its parent. *)
Theorem child_before_parent :
  (s ← waiting_parent; tx_parents <$> dtxns_ s !! 4) = Some [3]
  /\ (s ← waiting_parent; executed_on s 4) = Some true /\ (s ← waiting_parent; executed_on s 3) = Some false
  /\ ((fun s => (replies 4 (events_ s), replies 3 (events_ s))) <$> waiting_parent) = Some (1%nat, 0%nat).
Proof. split_and!; vm_compute; reflexivity. Qed.

(** Transaction 5 adds one to the column, and has a second piece, on another row, that waits. *)
Definition txn5 : list SimpleCommand := [command 5 ADD 0 [] 1; command 5 TPCC_PAYMENT_5 0 [5] 0].
Definition procedures5 (root type : Z) : option (defer_t * (TxnWorkspace -> prog)) :=
  if type =? TPCC_PAYMENT_5 then Some (DF_REAL, fun _ => apply_piece 2 (fun n => n + 1)) else procedures root type.

Definition two_attempts (ms : list (Z * msg)) : option sched :=
  run_site (fun _ => []) (fun row => row) (fun _ => []) procedures5 0 0 (fun x => x)
    ([(0, MPreAccept 5 txn5); (1, MCommit 5 5 None)] ++ ms) (sched_init columns).

(** A piece that has run is run again on every further attempt to execute its transaction:
    the column that one transaction increments once has two after the input of the other piece
    has arrived, and the analytical side gets both changes. *)
Theorem pieces_run_twice :
  two_attempts [] ≫= cell = Some (VI32 1)
  /\ two_attempts [(2, MSendOutput 5 [(5, VI32 0)])] ≫= cell = Some (VI32 2)
  /\ ((fun s => (fun u => (u_txn u, u_tbl u, u_value u)) <$> transferred (db_ s))
        <$> two_attempts [(2, MSendOutput 5 [(5, VI32 0)])])
     = Some [(5, 1, VI32 1); (5, 1, VI32 2); (5, 2, VI32 1)].
Proof. split_and!; vm_compute; reflexivity. Qed.

(** Transaction 4 is committed after 3, of which this replica has not heard; another message
    comes after more than 100 milliseconds, and then the messages of transaction 3. *)
Definition txn3' : list SimpleCommand := [command 3 ADD 0 [] 1].
Definition late_replica : option sched :=
  site 0 0 [(1, MPreAccept 4 txn4); (2, MCommit 4 4 (Some graph4));
            (300, MCommit 6 6 (Some (marshal_graph {[ 4 := of_par0 4; 6 := union_status TXN_CMT (of_par0 6) ]})));
            (400, MPreAccept 3 txn3'); (401, MCommit 3 3 None)].

(** The site has then given up on transaction 3: it answers its commit without executing it. *)
Theorem late_transaction_skipped :
  (s ← late_replica; executed_on s 3) = Some true
  /\ ((fun s => (fun u => u_txn u) <$> transferred (db_ s)) <$> late_replica) = Some [4]
  /\ ((fun s => replies 3 (events_ s)) <$> late_replica) = Some 1%nat.
Proof. split_and!; vm_compute; reflexivity. Qed.


(** ** The theorems on these runs *)

Definition site_after (ms : list (Z * msg)) : sched := default (sched_init ∅) (site 0 0 ms).
Definition two_preaccepted : sched := site_after [(0, MPreAccept 1 txn1); (0, MPreAccept 2 txn2)].

Lemma two_preaccepted_ok : site_ok two_preaccepted.
Proof.
  unfold two_preaccepted, site_after, site. cbn [run_site].
  destruct (handle _ _ _ _ _ _ _ _ (MPreAccept 1 txn1) _) as [s1|] eqn:H1; [|apply init_ok].
  apply handle_ok in H1; [|apply init_ok]. cbn [mbind option_bind].
  destruct (handle _ _ _ _ _ _ _ _ (MPreAccept 2 txn2) s1) as [s2|] eqn:H2; [|apply init_ok].
  now apply handle_ok in H2.
Qed.

Definition demo_exec (c : SimpleCommand) (e : list Z) : option (list Z * output_map) :=
  Some (e ++ [inn_id_ c], if inn_id_ c =? 1 then [(5, VI32 7)] else []).
Definition demo_piece (id : Z) (vars : list Z) (ready : Z) : SimpleCommand :=
  {| inn_id_ := id; type_ := id; root_id_ := 1; root_type_ := 1; partition_id_ := 0; touchColsCnt_ := 0;
     input := workspace vars ready; local_executed_ := false; waiting_var_par_map := {[ 5 := [0] ]} |}.
(** The second piece comes first and takes what the first one computes. *)
Definition demo_run : PieceExec.run :=
  {| pieces_ := [demo_piece 2 [5] 0; demo_piece 1 [] 1]; env := ([] : list Z); n_executed_pieces := 0;
     ret := ∅; outputs := ∅ |}.

Lemma ready_pieces_run_witness :
  runs (RecursiveExecuteReadyPieces demo_exec (fun _ => true) 0 demo_run) (fun r' =>
    rtc (piece_step demo_exec (fun _ => true) 0) demo_run r' /\ quiet (fun _ => true) r' /\ Forall piece_wf (pieces_ r')
    /\ length (pieces_ r') = 2%nat
    /\ n_executed_pieces r' - 0 = Z.of_nat (executed (pieces_ r')) - 0).
Proof.
  apply (ready_pieces_run demo_exec (fun _ => true)).
  - intros c e. eexists. reflexivity.
  - constructor; [|constructor; [|constructor]].
    + split; [vm_compute; reflexivity|]. intros k x H Hx. change (({[ 5 := 0 ]} : gmap Z Z) !! k = Some x) in H.
      apply lookup_singleton_Some in H as [_ <-]. done.
    + intros k Hk. change (k ∈ (∅ : gset Z)) in Hk. set_solver.
Defined.

#[local] Notation demo_dispatch := (DispatchExec (fun _ => []) (fun row => row) true procedures 0).
#[local] Notation demo_accesses := (DispatchAccesses (fun _ => []) (fun row => row) true procedures 0).

Definition env0 : tenv := db_ (site_after []).
Definition start1 : RccDTxn := add_dreqs txn1 (new_dtxn 1).
Definition start2 : RccDTxn := add_dreqs txn2 (new_dtxn 2).
Definition dispatch1 : RccDTxn * tenv * bool := default (new_dtxn 0, env0, false) (demo_dispatch start1 env0).
Definition env1 : tenv := dispatch1.1.2.
Definition dispatch2 : RccDTxn * tenv * bool := default (new_dtxn 0, env1, false) (demo_dispatch start2 env1).
Definition dispatched12 : list (RccDTxn * list (Z * Z)) :=
  [(dispatch1.1.1, demo_accesses start1 env0); (dispatch2.1.1, demo_accesses start2 env1)].

Lemma conflicts_linked_witness :
  tx_parents dispatch2.1.1 = [1] /\ rtc (depends dispatched12) 2 1.
Proof.
  split; [vm_compute; reflexivity |].
  refine (proj1 (conflicts_linked (fun _ => []) (fun row => row) true procedures 0 env0 dispatched12 dispatch2.1.2
    (1, 0) 0 1 dispatch1.1.1 (demo_accesses start1 env0) dispatch2.1.1 (demo_accesses start2 env1) _ eq_refl eq_refl _ _ _)).
  - apply (dispatches_cons _ _ _ _ _ start1 env0 dispatch1.1.1 env1 dispatch1.2); [vm_compute; reflexivity |].
    apply (dispatches_cons _ _ _ _ _ start2 env1 dispatch2.1.1 dispatch2.1.2 dispatch2.2); [vm_compute; reflexivity |].
    constructor.
  - lia.
  - apply (bool_decide_unpack _). vm_compute. exact I.
  - apply (bool_decide_unpack _). vm_compute. exact I.
Defined.

(** The site has pre-accepted transactions 1 and 2; both wait. *)
Definition both_wait : sched := two_preaccepted {{ waitlist_ := {[ 1; 2 ]} }}.

Lemma both_wait_ok : index_ok both_wait /\ wl_ok both_wait.
Proof.
  destruct two_preaccepted_ok as [Hi [_ Hw] _ _ _]. unfold both_wait, index_ok, wl_ok in *. split; [exact Hi|].
  split; [|exact Hw]. vm_compute. intros x Hx. exact Hx.
Qed.

Lemma check_waitlist_ends_witness :
  exists vs s', rounds (fun _ => []) (fun row => row) true procedures 0 (fun x => x) 9 None both_wait vs s'
    /\ evolves both_wait s' /\ Sorted (fun x y => x < y) vs /\ (length vs <= size (dtxns_ both_wait))%nat
    /\ ((CheckWaitlist (fun _ => []) (fun row => row) true procedures 0 (fun x => x) 9 both_wait = Some s'
         /\ next_after (fun x => x) (reached (fun x => x) None vs) (waitlist_ s') = None)
        \/ (CheckWaitlist (fun _ => []) (fun row => row) true procedures 0 (fun x => x) 9 both_wait = None
            /\ exists v, next_after (fun x => x) (reached (fun x => x) None vs) (waitlist_ s') = Some v
                         /\ check_one (fun _ => []) (fun row => row) true procedures 0 9 v s' = None)).
Proof.
  apply (check_waitlist_ends (fun _ => []) (fun row => row) true procedures 0 (fun x => x) 9 both_wait);
    apply both_wait_ok.
Defined.

#[local] Notation demo_handle := (handle (fun _ => []) (fun row => row) (fun _ => []) procedures 0 0 (fun x => x)).

Definition both_done : sched :=
  site_after [(0, MPreAccept 1 txn1); (0, MPreAccept 2 txn2); (1, MCommit 1 1 None)].

Lemma commit_answered_once_witness :
  Forall only_success (events_ both_done)
  /\ (replies 1 (events_ both_done) = 0%nat
      \/ (replies 1 (events_ both_done) = 1%nat
          /\ exists t, dtxns_ both_done !! 1 = Some t /\ executed_ t = true /\ ptr_output_repy_ t = true)).
Proof.
  apply (commit_answered_once (fun _ => []) (fun row => row) (fun _ => []) procedures 0 0 (fun x => x) columns
           [(0, MPreAccept 1 txn1); (0, MPreAccept 2 txn2); (1, MCommit 1 1 None)]).
  vm_compute. reflexivity.
Defined.

(** The commit of transaction 2 without parents, on a site that found transaction 1. *)
Definition commit2 : rgraph :=
  marshal_graph {[ 1 := of_par0 1; 2 := union_status TXN_CMT (union_status TXN_PAC (of_par0 2)) ]}.
Definition committed2 : sched := default both_done (demo_handle 2 (MCommit 2 2 (Some commit2)) two_preaccepted).

Lemma commit_fixes_parents_witness :
  (tx_parents <$> dtxns_ two_preaccepted !! 2) = Some [1]
  /\ exists t', dtxns_ committed2 !! 2 = Some t' /\ tx_parents t' = [].
Proof.
  split; [vm_compute; reflexivity|].
  apply (commit_fixes_parents (fun _ => []) (fun row => row) (fun _ => []) procedures 0 0 (fun x => x) 2 2 2 commit2
           (marshalled (union_status TXN_CMT (union_status TXN_PAC (of_par0 2)))) two_preaccepted committed2);
    [apply two_preaccepted_ok | vm_compute; reflexivity | vm_compute; discriminate | vm_compute; reflexivity
    | vm_compute; reflexivity | vm_compute; reflexivity].
Defined.

(** Transaction 2 with its parent committed on the site. *)
Definition ready2 : sched :=
  site_after [(0, MPreAccept 1 txn1); (0, MPreAccept 2 txn2);
              (1, MAccept 2 0 (marshal_graph {[ 2 := union_status TXN_CMT (union_status TXN_PAC (set_parents [1] (of_par0 2))) ]}));
              (1, MCommit 1 1 None)].
Definition executed2 : sched :=
  default both_done (try_execute (fun _ => []) (fun row => row) true procedures 0 9 2 ready2).

Lemma all_unwalked (g : graph) :
  forallb (fun p => negb (walked_ p.2)) (map_to_list g) = true -> unwalked_graph g.
Proof.
  intros Hall x vx Hx. apply (negb_true_iff (walked_ vx)), (proj1 (forallb_forall _ _) Hall (x, vx)).
  apply list_elem_of_In, elem_of_map_to_list, Hx.
Qed.

Lemma no_sccs (g : graph) :
  forallb (fun p => match scc_ p.2 with None => true | Some _ => false end) (map_to_list g) = true -> DepScc.scc_wf g.
Proof.
  intros Hall x vx l Hx Hl. exfalso. apply (proj1 (forallb_forall _ _)) with (x := (x, vx)) in Hall;
    [|now apply list_elem_of_In, elem_of_map_to_list]. cbn in Hall. now rewrite Hl in Hall.
Qed.

Lemma executes_in_order_witness :
  db_ executed2 <> db_ ready2
  /\ exists scc, DepScc.component (vertices (dtxns_ ready2)) 2 scc
      /\ (forall y t, ancestor (dtxns_ ready2) 2 y -> dtxns_ ready2 !! y = Some t -> settled 9 t)
      /\ (forall x t, x ∈ scc -> dtxns_ ready2 !! x = Some t -> (Involve 0 t).2 = true -> fully_dispatched t = true).
Proof.
  assert (Hne : db_ executed2 <> db_ ready2).
  { intros H. apply (f_equal transferred) in H. apply (f_equal length) in H. vm_compute in H. discriminate. }
  split; [exact Hne|].
  destruct (executes_in_order (fun _ => []) (fun row => row) true procedures 0 9 2 ready2 executed2)
    as (scc & s1 & s2 & b & H1 & _ & _ & H2 & _ & H3); [ | | | | | exact Hne | exists scc; split; auto].
  - apply all_unwalked. vm_compute. reflexivity.
  - apply no_sccs. vm_compute. reflexivity.
  - apply (bool_decide_unpack _). vm_compute. exact I.
  - vm_compute. reflexivity.
  - vm_compute. reflexivity.
Defined.


Definition started2 : coord :=
  default coord_init (GotoNextPhase 2 0 [(0, txn2); (1, txn2')] coord_init).
Definition acks2 : list ack :=
  [APreAccept 3 0 SUCCESS (default ∅ graph2); APreAccept 3 0 SUCCESS (default ∅ graph2);
   APreAccept 3 1 SUCCESS (default ∅ graph2')].

Lemma fast_path_unanimous_witness :
  (cfast_path_ (default coord_init coord2) = true ->
     forall par, par ∈ partition_ids_ (default coord_init coord2) ->
       unanimous 2 replicas par (graphs_of par (default coord_init coord2)))
  /\ (forall r, reply (default coord_init coord2) = Some r ->
        r = SUCCESS /\ forall par, par ∈ partition_ids_ (default coord_init coord2) ->
          0 < count_of (n_commit_oks_ (default coord_init coord2)) par).
Proof.
  apply (fast_path_unanimous 2 0 replicas [(0, txn2); (1, txn2')] acks2 started2);
    [vm_compute; reflexivity | repeat constructor | vm_compute; reflexivity].
Defined.

(** The coordinator of transaction 2 when it has all the replies. *)
Definition before_choice : coord :=
  started2 {{ cfast_path_ := true;
              n_fast_accept_graphs_ := {[ 0 := [default ∅ graph2; default ∅ graph2]; 1 := [default ∅ graph2'] ]} }}.

Lemma reply_pre_accepted :
  pre_accepted 2 (default ∅ graph2) /\ pre_accepted 2 (default ∅ graph2').
Proof.
  assert (Hk : forall g : rgraph, forallb (fun p => tid_ p.2 =? p.1) (map_to_list g) = true -> keyed g).
  { intros g Hg x t Hx. apply Z.eqb_eq, (proj1 (forallb_forall _ _) Hg (x, t)).
    apply list_elem_of_In, elem_of_map_to_list, Hx. }
  split; (split; [apply Hk; vm_compute; reflexivity | eexists; split_and!; vm_compute; reflexivity]).
Qed.

Lemma last_partition_wins_witness :
  parents_in 2 (default ∅ graph2) = Some [1]
  /\ exists c', ChooseGraph before_choice = Some c' /\ parents_in 2 (graph_ c') = Some [].
Proof.
  split; [vm_compute; reflexivity|].
  apply (last_partition_wins 2 [0] 1 before_choice (default ∅ graph2'));
    [reflexivity | vm_compute; reflexivity | | | vm_compute; reflexivity].
  - destruct reply_pre_accepted as [H1 H2].
    intros q Hq. apply elem_of_cons in Hq as [->|Hq]; [|apply list_elem_of_singleton in Hq as ->];
      eexists; (split; [vm_compute; reflexivity | first [exact H1 | exact H2]]).
  - eexists. split_and!; [vm_compute; reflexivity | left; vm_compute; reflexivity | vm_compute; reflexivity].
Defined.

End BrqRuns.
