(* ===== verification/CdcClient.v ===== *)
(** * The client of the analytical server

    [CdcClient] (deptran/cdc_client.h and .cpp): it collects the orders of a site and, per
    column, the changes, and writes them to streams of the analytical server in batches.
    The streams are the lists of the requests written to them.  A column of a table is a
    pair of numbers: the key of its buffer, the name of the table followed by the number of
    the column, determines both, as no table name ends in a digit.  The times stamped into
    the orders are left out. *)

From Stdlib Require Import ZArith Lia.
From stdpp Require Import base list option gmap sets.
From coqutil Require Import Datatypes.RecordSetters.
From S2P Require Import Prelude ALock MemSchema PieceExec DepGraph RccTxn RccSched.
Import DoubleBraceUpdate.
Local Open Scope Z_scope.

Module CdcClient.
Import Rcc RccSched.

Record update_req := { req_col : Z; req_updates : list cdc_update }.

Record cdc := {
  order_buffer_ : list order;
  order_stream_ : list (list order);
  col_update_buffers_ : gmap (Z * Z) (list cdc_update);
  col_update_streams_ : gmap (Z * Z) (list update_req) }.

Definition cdc_init : cdc :=
  {| order_buffer_ := []; order_stream_ := []; col_update_buffers_ := ∅; col_update_streams_ := ∅ |}.

(** The table of names in the header: undefined for a column that is not in it. *)
Section Client.
Context (col_id_2_string : Z -> Z -> option Z).

Definition TransferOrder (od : order) (c : cdc) : cdc :=
  let buffer := order_buffer_ c ++ [od] in
  if 100 <=? Z.of_nat (length buffer) then
    c {{ order_buffer_ := []; order_stream_ := order_stream_ c ++ [buffer] }}
  else c {{ order_buffer_ := buffer }}.

Definition column (u : cdc_update) : Z * Z := (u_tbl u, u_col u).
Definition buffer_of (k : Z * Z) (c : cdc) : list cdc_update := default [] (col_update_buffers_ c !! k).
Definition stream_of (k : Z * Z) (c : cdc) : list update_req := default [] (col_update_streams_ c !! k).

Definition TransferUpdate (u : cdc_update) (c : cdc) : option cdc :=
  let k := column u in
  let buffer := buffer_of k c ++ [u] in
  if 100 <? Z.of_nat (length buffer) then
    name ← col_id_2_string (u_tbl u) (u_col u);
    Some (c {{ col_update_buffers_ := <[k := []]> (col_update_buffers_ c);
               col_update_streams_ := <[k := stream_of k c ++ [{| req_col := name; req_updates := buffer |}]]>
                                        (col_update_streams_ c) }})
  else Some (c {{ col_update_buffers_ := <[k := buffer]> (col_update_buffers_ c) }}).

Inductive transfer := TOrder (od : order) | TUpdate (u : cdc_update).

Fixpoint transfer_all (ts : list transfer) (c : cdc) : option cdc :=
  match ts with
  | [] => Some c
  | TOrder od :: ts => transfer_all ts (TransferOrder od c)
  | TUpdate u :: ts => c ← TransferUpdate u c; transfer_all ts c
  end.

(** ** What arrives *)

Definition orders_of (ts : list transfer) : list order :=
  omap (fun t => match t with TOrder od => Some od | _ => None end) ts.
Definition updates_of (k : Z * Z) (ts : list transfer) : list cdc_update :=
  omap (fun t => match t with TUpdate u => if bool_decide (column u = k) then Some u else None | _ => None end) ts.

(** What was written and what is still in the buffers, when [os] and [us] were handed over. *)
Record delivered (os : list order) (us : Z * Z -> list cdc_update) (c : cdc) : Prop := {
  d_orders : concat (order_stream_ c) ++ order_buffer_ c = os;
  d_order_batches : Forall (fun b => length b = 100%nat) (order_stream_ c);
  d_order_rest : (length (order_buffer_ c) < 100)%nat;
  d_updates : forall k, concat (req_updates <$> stream_of k c) ++ buffer_of k c = us k;
  d_update_batches : forall k, Forall (fun r => length (req_updates r) = 101%nat
                                  /\ col_id_2_string k.1 k.2 = Some (req_col r)) (stream_of k c);
  d_update_rest : forall k, (length (buffer_of k c) <= 100)%nat }.

Lemma order_delivered od os us c : delivered os us c -> delivered (os ++ [od]) us (TransferOrder od c).
Proof.
  intros [D1 D2 D3 D4 D5 D6]. unfold TransferOrder. destruct c as [ob st ub us0]. cbn in *. rewrite length_app. cbn.
  destruct (Z.leb_spec 100 (Z.of_nat (length ob + 1))) as [Hf|Hf]; split; cbn; auto.
  - rewrite concat_app. cbn. rewrite !app_nil_r, app_assoc. now rewrite D1.
  - apply Forall_app. split; [exact D2|]. constructor; [|constructor]. rewrite length_app. cbn. lia.
  - lia.
  - rewrite app_assoc. now rewrite D1.
  - rewrite length_app. cbn. lia.
Qed.

Lemma update_delivered u os us c :
  is_Some (col_id_2_string (u_tbl u) (u_col u)) -> delivered os us c ->
  runs (TransferUpdate u c)
    (delivered os (fun k => us k ++ if bool_decide (column u = k) then [u] else [])).
Proof.
  intros [name Hn] [D1 D2 D3 D4 D5 D6]. unfold TransferUpdate.
  destruct c as [ob st ub us0]. unfold buffer_of, stream_of in *. cbn [order_buffer_ order_stream_ col_update_buffers_ col_update_streams_] in *.
  specialize (D4 (column u)) as D4u. specialize (D5 (column u)) as D5u. specialize (D6 (column u)) as D6u.
  rewrite length_app. cbn [length].
  destruct (Z.ltb_spec 100 (Z.of_nat (length (default [] (ub !! column u)) + 1))) as [Hf|Hf].
  - rewrite Hn. cbn [mbind option_bind]. apply runs_ret. split; cbn; auto; intros k; unfold buffer_of, stream_of; cbn;
      rewrite ?lookup_insert; case_decide as Hk; try (subst k; rewrite ?bool_decide_true by done);
      try rewrite bool_decide_false by done; rewrite ?app_nil_r; auto.
    + cbn. rewrite fmap_app, concat_app. cbn. rewrite !app_nil_r, app_assoc. now rewrite D4u.
    + cbn. apply Forall_app. split; [exact D5u|]. constructor; [|constructor]. cbn. rewrite length_app. cbn. split; [lia | exact Hn].
    + cbn. lia.
  - apply runs_ret. split; cbn; auto; intros k; unfold buffer_of, stream_of; cbn;
      rewrite ?lookup_insert; try (case_decide as Hk; [subst k; rewrite ?bool_decide_true by done
        | try rewrite bool_decide_false by done; rewrite ?app_nil_r; auto]); auto.
    + cbn. rewrite app_assoc. now rewrite D4u.
    + cbn. rewrite length_app. cbn. lia.
Qed.

(** C22. When every updated column has a name, the client writes every order and, per column, every change to the stream in the sequence
    in which it got them, in batches of 100 orders and of 101 changes of one column, except
    for the last ones, fewer than a batch, which stay in its buffers. *)
Theorem transfers_in_sequence ts :
  (forall u, TUpdate u ∈ ts -> is_Some (col_id_2_string (u_tbl u) (u_col u))) ->
  runs (transfer_all ts cdc_init) (delivered (orders_of ts) (fun k => updates_of k ts)).
Proof.
  assert (H : forall ts c os us, (forall u, TUpdate u ∈ ts -> is_Some (col_id_2_string (u_tbl u) (u_col u))) ->
    delivered os us c ->
    runs (transfer_all ts c) (delivered (os ++ orders_of ts) (fun k => us k ++ updates_of k ts))).
  { induction ts0 as [|[od|u] ts0 IH]; intros c os us Hc D; cbn [transfer_all].
    - apply runs_ret. destruct D. split; auto; [now rewrite app_nil_r | intros k; rewrite app_nil_r; auto].
    - specialize (IH (TransferOrder od c) (os ++ [od]) us ltac:(set_solver) (order_delivered _ _ _ _ D)).
      eapply runs_mono; [exact IH|]. intros c' [D1 D2 D3 D4 D5 D6]. split; auto. rewrite D1. now rewrite <- app_assoc.
    - eapply runs_bind; [apply update_delivered; [apply Hc; left | exact D]|]. intros c1 D'.
      eapply runs_mono; [apply IH; [set_solver | exact D']|]. intros c' [D1 D2 D3 D4 D5 D6]. split; auto.
      intros k. rewrite D4. rewrite <- app_assoc. f_equal. unfold updates_of. cbn. now case_bool_decide. }
  intros Hc. apply (H ts cdc_init [] (fun _ => []) Hc). split; cbn; auto; try lia.
  intros k. unfold buffer_of. cbn. rewrite lookup_empty. cbn. lia.
Qed.
End Client.

Definition one_update : cdc_update :=
  {| u_op := UPDATE; u_tbl := 1; u_col := 0; u_key := []; u_value := VI32 0; u_txn := 1 |}.

Lemma transfers_in_sequence_witness :
  runs (transfer_all (fun _ _ => Some 7) (replicate 102 (TUpdate one_update)) cdc_init) (fun c =>
    length (stream_of (1, 0) c) = 1%nat /\ length (buffer_of (1, 0) c) = 1%nat)
  /\ runs (transfer_all (fun _ _ => Some 7) (replicate 102 (TUpdate one_update)) cdc_init)
       (delivered (fun _ _ => Some 7) (orders_of (replicate 102 (TUpdate one_update)))
          (fun k => updates_of k (replicate 102 (TUpdate one_update)))).
Proof.
  split; [eexists; split; [vm_compute; reflexivity | vm_compute; auto]|].
  apply (transfers_in_sequence (fun _ _ => Some 7)). eauto.
Defined.
End CdcClient.
