(* ===== verification/Sharding.v ===== *)
(** * Partitions of keys

    [Sharding] (deptran/sharding.h and .cc): the partition that holds the row of a key.
    The populated tables and the schemas are not modelled.

    A key is the list of its values.  The keys that [dist_mapping] and [stock_mapping] put
    in place of the original ones are those of the maps [dist2sid_] and [stock2sid_]; a key
    that is not there gets an empty one. *)

From Stdlib Require Import ZArith Lia.
From stdpp Require Import base list option strings.
From S2P Require Import Prelude ALock MemSchema.
Local Open Scope Z_scope.

Module Sharding.

Inductive method_t := MODULUS | INT_MODULUS.

Abbreviation MultiValue := (list value).

Record tb_info_t := {
  tb_name : string;
  sharding_method : method_t;
  par_ids : list Z }.

Definition TPCC_REAL_DIST_PART : Z := 4.
Definition TPCC_TB_STOCK : string := "stock".
Definition TPCC_TB_ITEM : string := "item".
Definition TPCC_TB_HISTORY : string := "history".

Definition u32 : Z -> Z := wrap 32.

(** [(long long) floor(d)] of a double given by its bits; the conversion of a number that
    does not fit is not defined. *)
Definition floor_i64 (bits : Z) : option Z :=
  let e := (bits / 2 ^ 52) mod 2 ^ 11 in
  let frac := bits mod 2 ^ 52 in
  if e =? 2047 then None
  else
    let m := if e =? 0 then frac else 2 ^ 52 + frac in
    let k := (if e =? 0 then 1 else e) - 1075 in
    let s := if 2 ^ 63 <=? bits then -1 else 1 in
    let z := if 0 <=? k then s * m * 2 ^ k else (s * m) / 2 ^ (- k) in
    if (- 2 ^ 63 <=? z) && (z <? 2 ^ 63) then Some z else None.

(** One round of the loop over the key, the same in both methods up to the sum of the
    characters of a string, which is not used: the case of a string has no [break] and
    runs into the one that fails.  The remainder of an [i32] is taken of the number as an
    unsigned one, that of an [i64] keeps the sign. *)
Definition add_value (n : Z) (x : value) (index : Z) : option Z :=
  buf ← match x with
        | VI32 v => Some (u32 v mod n)
        | VI64 v => Some (Z.rem v n)
        | VDouble b => v ← floor_i64 b; Some (Z.rem v n)
        | VStr _ | VUnknown => None
        end;
  Some (u32 (index + u32 (if 0 <? buf then buf else - buf)) mod n).

Fixpoint modulus_from (n : Z) (key : MultiValue) (index : Z) : option Z :=
  match key with
  | [] => Some (index mod n)
  | x :: key => index ← add_value n x index; modulus_from n key index
  end.

(** Without partitions the remainder is not defined. *)
Definition modulus (key : MultiValue) (num_partitions : Z) : option Z :=
  _ ← verify (negb (num_partitions =? 0)); modulus_from num_partitions key 0.
Definition int_modulus (key : MultiValue) (num_partitions : Z) : option Z :=
  _ ← verify (negb (num_partitions =? 0)); modulus_from num_partitions key 0.

Record Sharding := {
  tb_infos_ : list (string * tb_info_t);
  dist2sid_ : list (MultiValue * MultiValue);
  stock2sid_ : list (MultiValue * MultiValue);
  benchmark : Z;
  num_groups : Z }.

#[export] Instance value_eq : EqDecision value.
Proof. solve_decision. Defined.

Definition find_key {K V} `{!EqDecision K} (k : K) (m : list (K * V)) : option V :=
  snd <$> List.find (fun kv => bool_decide (kv.1 = k)) m.

Definition dist_mapping (s : Sharding) (mv : MultiValue) : MultiValue := default [] (find_key mv (dist2sid_ s)).
Definition stock_mapping (s : Sharding) (mv : MultiValue) : MultiValue := default [] (find_key mv (stock2sid_ s)).

Definition PartitionFromKey (s : Sharding) (key : MultiValue) (tb : tb_info_t) : option Z :=
  let key_buf :=
    if negb (benchmark s =? TPCC_REAL_DIST_PART) then key
    else if bool_decide (tb_name tb = TPCC_TB_STOCK) || bool_decide (tb_name tb = TPCC_TB_ITEM)
    then stock_mapping s key
    else if negb (bool_decide (tb_name tb = TPCC_TB_HISTORY)) then dist_mapping s key else key in
  match sharding_method tb with
  | MODULUS => modulus key_buf (num_groups s)
  | INT_MODULUS => int_modulus key_buf (num_groups s)
  end.

(** The status, and the partition where one was found; the caller's variable stays as it
    is where none was. *)
Definition GetPartition (s : Sharding) (tb : string) (key : MultiValue) (par_id : Z) : option (Z * Z) :=
  match find_key tb (tb_infos_ s) with
  | None => Some (-1, par_id)
  | Some info =>
      if bool_decide (par_ids info = []) then Some (-2, par_id)
      else par_id ← PartitionFromKey s key info; Some (0, par_id)
  end.

Definition GetTablePartitions (s : Sharding) (tb : string) (pars : list Z) : Z * list Z :=
  match find_key tb (tb_infos_ s) with
  | None => (-1, pars)
  | Some info => if bool_decide (par_ids info = []) then (-2, pars) else (0, par_ids info)
  end.

(** ** The partition of an integer key *)

(** What a part of the key counts for. *)
Definition weight (n : Z) (x : value) : Z :=
  match x with VI32 v => u32 v mod n | VI64 v => Z.abs v mod n | _ => 0 end.
Definition integer (x : value) : Prop := match x with VI32 _ | VI64 _ => True | _ => False end.

Lemma u32_small z : 0 <= z < 2 ^ 32 -> u32 z = z.
Proof. apply (wrap_small 32). Qed.

Lemma u32_range z : 0 <= u32 z < 2 ^ 32.
Proof. now apply (wrap_bound 32). Qed.

Lemma abs_rem v n : 0 < n -> Z.abs (Z.rem v n) = Z.abs v mod n.
Proof.
  intros Hn. rewrite <- (Z.rem_mod_nonneg (Z.abs v) n), <- Z.rem_abs by lia. now rewrite (Z.abs_eq n) by lia.
Qed.

Lemma add_value_integer n x index :
  0 < n <= 2 ^ 31 -> 0 <= index < n -> integer x ->
  add_value n x index = Some ((index + weight n x) mod n).
Proof.
  intros Hn Hi Hx.
  assert (Hw : 0 <= weight n x < n).
  { destruct x; try easy; cbn; [pose proof (u32_range v); apply Z.mod_pos_bound; lia|].
    apply Z.mod_pos_bound; lia. }
  assert (Hsum : forall buf, Z.abs buf = weight n x ->
    u32 (index + u32 (if 0 <? buf then buf else - buf)) mod n = (index + weight n x) mod n).
  { intros buf Hb. assert ((if 0 <? buf then buf else - buf) = weight n x) as -> by
      (destruct (Z.ltb_spec 0 buf); lia).
    now rewrite (u32_small (weight n x)), u32_small by lia. }
  unfold add_value. destruct x as [|v|v|b|s]; try easy; cbn [mbind option_bind]; f_equal; apply Hsum; cbn.
  - rewrite Z.abs_eq; [done|]. apply Z.mod_pos_bound; lia.
  - apply abs_rem; lia.
Qed.

Definition weights (n : Z) (key : MultiValue) : Z := foldr Z.add 0 (weight n <$> key).

Lemma modulus_from_integer n key : 0 < n <= 2 ^ 31 -> Forall integer key -> forall index,
  0 <= index < n -> modulus_from n key index = Some ((index + weights n key) mod n).
Proof.
  intros Hn. induction 1 as [|x key Hx _ IH]; intros index Hi; cbn [modulus_from].
  - unfold weights. cbn. now rewrite Z.add_0_r.
  - rewrite add_value_integer by done. cbn [mbind option_bind].
    rewrite IH by (apply Z.mod_pos_bound; lia). unfold weights. cbn. f_equal.
    rewrite Zplus_mod_idemp_l. f_equal. lia.
Qed.

(** A key of integers has a partition, whatever the method: the sum of its parts, each
    without its sign where it is an [i64] and as an unsigned number where it is an [i32],
    modulo the number of partitions.  A string, or a value that is not set, in a key makes
    the server fail, however the table is sharded. *)
Theorem partition_of_key (n : Z) (key : MultiValue) :
  0 < n <= 2 ^ 31 ->
  (Forall integer key ->
   modulus key n = Some (weights n key mod n) /\ int_modulus key n = Some (weights n key mod n)
   /\ 0 <= weights n key mod n < n)
  /\ forall key1 key2 x,
    key = key1 ++ x :: key2 -> get_kind x = STR \/ get_kind x = UNKNOWN ->
    modulus key n = None /\ int_modulus key n = None.
Proof.
  intros Hn. unfold modulus, int_modulus. rewrite (proj2 (Z.eqb_neq n 0)) by lia. cbn [negb verify mbind option_bind].
  split.
  - intros Hk. rewrite modulus_from_integer by (done || lia).
    split_and!; try done; apply Z.mod_pos_bound; lia.
  - intros key1 key2 x -> Hx.
    assert (Hf : forall index, modulus_from n (key1 ++ x :: key2) index = None).
    { induction key1 as [|y key1 IH]; intros index; cbn; [now destruct x; destruct Hx|].
      destruct (add_value n y index); [apply IH | done]. }
    now split.
Qed.

Lemma partition_of_key_witness :
  modulus [VI32 7; VI64 (-2)] 3 = Some 0 /\ int_modulus [VI32 7; VStr [65]] 3 = None.
Proof.
  destruct (partition_of_key 3 [VI32 7; VI64 (-2)] ltac:(lia)) as [H _].
  destruct (partition_of_key 3 [VI32 7; VStr [65]] ltac:(lia)) as [_ H'].
  split; [apply H; repeat constructor | apply (H' [VI32 7] [] (VStr [65])); auto].
Defined.

(** The same negative number has one partition as an [i32] and another as an [i64]. *)
Example partition_of_width :
  modulus [VI32 (-1)] 3 = Some 0 /\ modulus [VI64 (-1)] 3 = Some 1.
Proof. split; reflexivity. Qed.

(** The doubles -0.5 and 2.75. *)
Example floor_of_doubles :
  floor_i64 13826050856027422720 = Some (-1) /\ floor_i64 4613374868287651840 = Some 2.
Proof. split; vm_compute; reflexivity. Qed.

End Sharding.
