(* ===== verification/TxnChopper.v ===== *)
(** * Transactions cut into pieces

    [TxnCommand] (deptran/txn_chopper.h and .cc) and the part of [TpccTxn] that the
    workloads share (bench/tpcc/chopper.cc): the coordinator finds which pieces of a
    transaction have their inputs, makes a command of every piece and sends each to its
    partition; the pieces that wait for the output of others are sent with the rest, and
    with the partitions that wait for every variable.

    The workspaces [ws_], [ws_init_] and those of the pieces, once asked for, share one map
    of values: the field [values].  What is kept of each is its set of keys. *)

From Stdlib Require Import ZArith Lia.
From stdpp Require Import base list option gmap sets strings sorting.
From coqutil Require Import Datatypes.RecordSetters.
From S2P Require Import Prelude ALock MemSchema PieceExec RccTxn Sharding.
Import DoubleBraceUpdate.
Local Open Scope Z_scope.

Module TxnChopper.
#[local] Existing Instance Sharding.value_eq.

Definition WAITING : Z := -1.
Definition DISPATCHABLE : Z := 0.
Definition DISPATCHED : Z := 1.
Definition OUTPUT_READY : Z := 2.

Record TxnCommand := {
  id_ : Z;
  ttype_ : Z;
  values : gmap Z value;
  ws_keys : gset Z;
  ws_init_keys : gset Z;
  inputs_ : gmap Z (gset Z);
  status_ : list (Z * Z);
  outputs_ : gmap Z output_map;
  cmds_ : gmap Z SimpleCommand;
  partition_ids_ : gset Z;
  n_pieces_all_ : Z;
  n_pieces_dispatchable_ : Z;
  n_pieces_dispatch_acked_ : Z;
  n_pieces_dispatched_ : Z;
  n_try_ : Z }.

(** [m[k] = x] of a map kept in key order. *)
Fixpoint put {A} (k : Z) (x : A) (m : list (Z * A)) : list (Z * A) :=
  match m with
  | [] => [(k, x)]
  | (k', y) :: m' =>
      if k <? k' then (k, x) :: m else if k =? k' then (k, x) :: m' else (k', y) :: put k x m'
  end.

Definition sorted_elements (s : gset Z) : list Z := merge_sort Z.le (elements s).

Definition ws_ (t : TxnCommand) : TxnWorkspace :=
  {| keys_ := ws_keys t; values_ := values t; input_var_ready_ := ∅; piece_input_ready_ := 0 |}.

(** [GetWorkspace(pi).keys_ = keys] *)
Definition set_keys (pi : Z) (keys : list Z) (t : TxnCommand) : option TxnCommand :=
  _ ← verify (negb (pi =? 0));
  Some (t {{ inputs_ := <[pi := list_to_set keys]> (inputs_ t) }}).

(** [inputs_[pi]] *)
Definition piece_input (pi : Z) (t : TxnCommand) : TxnWorkspace :=
  match inputs_ t !! pi with
  | Some keys =>
      {| keys_ := keys; values_ := values t; input_var_ready_ := ∅; piece_input_ready_ := 0 |}
  | None => TxnWorkspace_init
  end.

Section Chopper.
(** [TxnRegistry]: the variables a piece takes, in key order, and the table and variables
    that give its partition.  The partitions of the keys. *)
Context (input_vars_ : Z -> list Z) (sharding_input_ : Z -> option (string * list Z)).
Context (sss_ : Sharding.Sharding).

(** ** [CheckReady] and [PrepareAllCmds] *)

Fixpoint all_found (vars : list Z) (t : TxnCommand) : option bool :=
  match vars with
  | [] => Some true
  | var :: vars => c ← ws_count var (ws_ t); if (c : bool) then all_found vars t else Some false
  end.

Fixpoint check_status (st : list (Z * Z)) (t : TxnCommand) : option (list (Z * Z) * TxnCommand * bool) :=
  match st with
  | [] => Some ([], t, false)
  | (pi, status) :: st =>
      f ← (if status =? WAITING then all_found (input_vars_ pi) t else Some false);
      if (f : bool) then
        t ← set_keys pi (input_vars_ pi) t;
        '(st, t, _) ← check_status st (t {{ n_pieces_dispatchable_ := n_pieces_dispatchable_ t + 1 }});
        Some ((pi, DISPATCHABLE) :: st, t, true)
      else
        '(st, t, ret) ← check_status st t; Some ((pi, status) :: st, t, ret)
  end.

Definition CheckReady (t : TxnCommand) : option (TxnCommand * bool) :=
  '(st, t, ret) ← check_status (status_ t) t; Some (t {{ status_ := st }}, ret).

Fixpoint prepare (st : list (Z * Z)) (t : TxnCommand) : option TxnCommand :=
  match st with
  | [] => Some t
  | (pi, status) :: st =>
      t ← (if status =? WAITING then set_keys pi (input_vars_ pi) t else Some t); prepare st t
  end.
Definition PrepareAllCmds (t : TxnCommand) : option TxnCommand := prepare (status_ t) t.

(** ** [GetAllCmds] *)

Fixpoint shard_values (vars : list Z) (t : TxnCommand) : option (list value) :=
  match vars with
  | [] => Some []
  | var :: vars =>
      c ← ws_count var (ws_ t); _ ← verify (c : bool);
      x ← values t !! var; xs ← shard_values vars t; Some (x :: xs)
  end.

Definition GetPiecePartitionId (pi : Z) (t : TxnCommand) : option Z :=
  '(tb, vars) ← sharding_input_ pi;
  mv ← shard_values vars t;
  '(_, partition_id) ← Sharding.GetPartition sss_ tb mv 0;
  Some partition_id.

(** The flags of the variables of a piece that waits. *)
Definition var_flags (ws : TxnWorkspace) : gmap Z Z :=
  map_imap (fun k _ => Some (if decide (is_Some (values_ ws !! k)) then 1 else 0)) (gset_to_gmap tt (keys_ ws)).
Definition missing (ws : TxnWorkspace) : gset Z := keys_ ws ∖ dom (values_ ws).

(** The command of a piece, with the variables it waits for. *)
Definition make_cmd (pi status : Z) (t : TxnCommand) : option (SimpleCommand * gset Z) :=
  par ← GetPiecePartitionId pi t;
  let ws := piece_input pi t in
  let cmd ready vars :=
    {| inn_id_ := pi; type_ := pi; root_id_ := id_ t; root_type_ := ttype_ t; partition_id_ := par;
       touchColsCnt_ := 0;
       input := {| keys_ := keys_ ws; values_ := values_ ws; input_var_ready_ := vars;
                   piece_input_ready_ := ready |};
       local_executed_ := false; waiting_var_par_map := ∅ |} in
  if status =? DISPATCHABLE then Some (cmd 1 (input_var_ready_ ws), ∅)
  else _ ← verify (status =? WAITING); Some (cmd 0 (var_flags ws), missing ws).

(** [waiting_var_par_map[k].push_back(partition_id_)] for every variable that is missing. *)
Definition add_waiting (par : Z) (ks : gset Z) (w : gmap Z (list Z)) : gmap Z (list Z) :=
  fold_right (fun k w => <[k := default [] (w !! k) ++ [par]]> w) w (elements ks).

Record gathered := {
  g_cmds : list SimpleCommand;
  g_waiting : gmap Z (list Z);
  g_not_used : nat }.

Fixpoint gather (st : list (Z * Z)) (t : TxnCommand) (g : gathered) :
    option (list (Z * Z) * TxnCommand * gathered) :=
  match st with
  | [] => Some ([], t, g)
  | (pi, status) :: st =>
      if status =? OUTPUT_READY then
        '(st, t, g) ← gather st t (g {{ g_not_used := S (g_not_used g) }});
        Some ((pi, status) :: st, t, g)
      else
        '(cmd, ks) ← make_cmd pi status t;
        _ ← verify (0 <? ttype_ t);
        let par := partition_id_ cmd in
        let t := t {{ cmds_ := <[pi := cmd]> (cmds_ t); partition_ids_ := {[par]} ∪ partition_ids_ t;
                      n_pieces_dispatched_ := n_pieces_dispatched_ t + 1 }} in
        let g := g {{ g_cmds := g_cmds g ++ [cmd]; g_waiting := add_waiting par ks (g_waiting g) }} in
        '(st, t, g) ← gather st t g;
        Some ((pi, DISPATCHED) :: st, t, g)
  end.

Definition set_waiting (w : gmap Z (list Z)) (c : SimpleCommand) : SimpleCommand :=
  {| inn_id_ := inn_id_ c; type_ := type_ c; root_id_ := root_id_ c; root_type_ := root_type_ c;
     partition_id_ := partition_id_ c; touchColsCnt_ := touchColsCnt_ c; input := input c;
     local_executed_ := local_executed_ c; waiting_var_par_map := w |}.

(** The commands by partition. *)
Definition by_partition (cs : list SimpleCommand) : list (Z * list SimpleCommand) :=
  (fun par => (par, filter (fun c => partition_id_ c = par) cs))
    <$> sorted_elements (list_to_set (partition_id_ <$> cs)).

Definition GetAllCmds (t : TxnCommand) : option (TxnCommand * list (Z * list SimpleCommand)) :=
  _ ← verify (n_pieces_dispatched_ t <? n_pieces_dispatchable_ t);
  _ ← verify (n_pieces_dispatched_ t <? n_pieces_all_ t);
  '(st, t, g) ← gather (status_ t) t {| g_cmds := []; g_waiting := ∅; g_not_used := 0 |};
  _ ← verify (size (cmds_ t) + g_not_used g =? length st)%nat;
  let cs := set_waiting (g_waiting g) <$> g_cmds g in
  _ ← verify (negb (bool_decide (cs = [])));
  Some (t {{ status_ := st; cmds_ := foldr (fun c m => <[inn_id_ c := c]> m) (cmds_ t) cs }}, by_partition cs).

(** ** The outputs of the pieces *)

(** [ws_.insert(output)] writes to the map of all workspaces. *)
Definition insert_output (output : output_map) (t : TxnCommand) : TxnCommand :=
  t {{ ws_keys := ws_keys t ∪ list_to_set output.*1; values := insert_all output (values t) }}.

(** [Merge] of the output of a piece; [start_callback] of the transactions that only check
    which pieces became ready. *)
Definition Merge (inn_id : Z) (output : output_map) (t : TxnCommand) : option TxnCommand :=
  _ ← verify (bool_decide (outputs_ t !! inn_id = None));
  let t := t {{ n_pieces_dispatch_acked_ := n_pieces_dispatch_acked_ t + 1 }} in
  _ ← verify (n_pieces_dispatchable_ t <=? n_pieces_all_ t);
  _ ← verify (n_pieces_dispatched_ t <=? n_pieces_dispatchable_ t);
  _ ← verify (n_pieces_dispatch_acked_ t <=? n_pieces_dispatched_ t);
  _ ← cmds_ t !! inn_id;
  let t := t {{ outputs_ := <[inn_id := output]> (outputs_ t) }} in
  '(t, _) ← CheckReady (insert_output output t);
  Some t.

Definition OutputReady (t : TxnCommand) : bool := n_pieces_all_ t =? n_pieces_dispatch_acked_ t.

Definition HasMoreSubCmdReadyNotOut (t : TxnCommand) : option bool :=
  _ ← verify (n_pieces_dispatchable_ t <=? n_pieces_all_ t);
  _ ← verify (n_pieces_dispatched_ t <=? n_pieces_dispatchable_ t);
  _ ← verify (n_pieces_dispatch_acked_ t <=? n_pieces_dispatched_ t);
  if n_pieces_dispatchable_ t =? n_pieces_dispatched_ t then
    _ ← verify ((n_pieces_all_ t =? n_pieces_dispatched_ t)
                || (n_pieces_dispatch_acked_ t <? n_pieces_dispatched_ t));
    Some false
  else
    _ ← verify (n_pieces_dispatched_ t <? n_pieces_dispatchable_ t); Some true.

Definition Reset (t : TxnCommand) : TxnCommand :=
  t {{ n_pieces_dispatchable_ := 0; n_pieces_dispatch_acked_ := 0; n_pieces_dispatched_ := 0;
       outputs_ := ∅ }}.
End Chopper.

(** ** The commands in a message

    The stream of a command at the grain of its fields, in every mode but TAPIR. *)
Definition EMPTY_VALUE : value := VI32 (4294962943 - 2 ^ 32).

Record wire_ws := {
  w_ready : Z;
  w_vars : gmap Z Z;
  w_items : list (Z * value) }.

Definition marshal_item (ws : TxnWorkspace) (k : Z) : option (Z * value) :=
  x ← (if piece_input_ready_ ws =? 0 then
         r ← input_var_ready_ ws !! k;
         if r =? 1 then values_ ws !! k else Some EMPTY_VALUE
       else values_ ws !! k);
  Some (k, x).

Definition marshal_ws (ws : TxnWorkspace) : option wire_ws :=
  items ← mapM (marshal_item ws) (sorted_elements (keys_ ws));
  Some {| w_ready := piece_input_ready_ ws; w_vars := input_var_ready_ ws; w_items := items |}.

Fixpoint unmarshal_items (items : list (Z * value)) (ws : TxnWorkspace) : option TxnWorkspace :=
  match items with
  | [] => Some ws
  | (k, x) :: items =>
      let waits := piece_input_ready_ ws =? 0 in
      let r := default 0 (input_var_ready_ ws !! k) in
      _ ← verify (negb (waits && (r =? 0)) || bool_decide (x = EMPTY_VALUE));
      unmarshal_items items
        {| keys_ := {[k]} ∪ keys_ ws; values_ := <[k := x]> (values_ ws);
           input_var_ready_ := if waits then <[k := r]> (input_var_ready_ ws) else input_var_ready_ ws;
           piece_input_ready_ := piece_input_ready_ ws |}
  end.

Definition unmarshal_ws (w : wire_ws) : option TxnWorkspace :=
  unmarshal_items (w_items w)
    {| keys_ := ∅; values_ := ∅; input_var_ready_ := w_vars w; piece_input_ready_ := w_ready w |}.

(** A command that is sent and received. *)
Definition transmit (c : SimpleCommand) : option SimpleCommand :=
  _ ← verify (size (keys_ (input c)) <? 10000)%nat;
  w ← marshal_ws (input c);
  ws ← unmarshal_ws w;
  Some (set_local_executed false (set_input ws c)).

(** ** A command survives the message *)

Definition is_ready (ws : TxnWorkspace) (k : Z) : bool :=
  negb (piece_input_ready_ ws =? 0) || bool_decide (input_var_ready_ ws !! k = Some 1).

(** What the message has for a variable. *)
Definition sent_value (ws : TxnWorkspace) (k : Z) : value :=
  if is_ready ws k then default EMPTY_VALUE (values_ ws !! k) else EMPTY_VALUE.

(** A command as [GetAllCmds] makes it: the flags of a piece that waits are 0 or 1. *)
Definition cmd_ok (c : SimpleCommand) : Prop :=
  piece_wf c /\ (size (keys_ (input c)) < 10000)%nat
  /\ (input_ready c = false -> forall k x, input_var_ready_ (input c) !! k = Some x -> x = 0 \/ x = 1).

Lemma elem_sorted k s : k ∈ sorted_elements s <-> k ∈ s.
Proof. unfold sorted_elements. rewrite merge_sort_Permutation. apply elem_of_elements. Qed.

Lemma marshal_item_ok c k : cmd_ok c -> k ∈ keys_ (input c) ->
  marshal_item (input c) k = Some (k, sent_value (input c) k).
Proof.
  intros (Hw & _ & H01) Hk. unfold marshal_item, sent_value, is_ready, piece_wf, input_ready in *.
  destruct (piece_input_ready_ (input c) =? 0) eqn:E; cbn [negb orb] in *.
  - destruct Hw as [Hd Hv]. specialize (H01 eq_refl).
    assert (is_Some (input_var_ready_ (input c) !! k)) as [r Hr] by (apply elem_of_dom; now rewrite Hd).
    rewrite Hr. cbn [mbind option_bind].
    destruct (H01 _ _ Hr) as [-> | ->]; [now rewrite bool_decide_false by congruence|].
    rewrite bool_decide_true by done. cbn. destruct (Hv _ _ Hr ltac:(lia)) as [x ->]. done.
  - destruct (Hw k Hk) as [x ->]. done.
Qed.

Lemma marshal_ws_ok c : cmd_ok c -> marshal_ws (input c) = Some
  {| w_ready := piece_input_ready_ (input c); w_vars := input_var_ready_ (input c);
     w_items := (fun k => (k, sent_value (input c) k)) <$> sorted_elements (keys_ (input c)) |}.
Proof.
  intros Hc. unfold marshal_ws.
  assert (H : forall ks, (forall k, k ∈ ks -> k ∈ keys_ (input c)) ->
    mapM (marshal_item (input c)) ks = Some ((fun k => (k, sent_value (input c) k)) <$> ks)).
  { induction ks as [|k ks IH]; intros Hks; [done|]. cbn.
    rewrite marshal_item_ok by (done || set_solver). cbn. rewrite IH by set_solver. done. }
  rewrite H by (intros k; apply elem_sorted). done.
Qed.

Lemma unmarshal_ok c ks : cmd_ok c -> (forall k, k ∈ ks -> k ∈ keys_ (input c)) -> forall ws,
  piece_input_ready_ ws = piece_input_ready_ (input c) ->
  input_var_ready_ ws = input_var_ready_ (input c) ->
  exists vs, unmarshal_items ((fun k => (k, sent_value (input c) k)) <$> ks) ws
    = Some {| keys_ := list_to_set ks ∪ keys_ ws; values_ := vs;
              input_var_ready_ := input_var_ready_ ws; piece_input_ready_ := piece_input_ready_ ws |}
  /\ forall k, vs !! k = if decide (k ∈ ks) then Some (sent_value (input c) k) else values_ ws !! k.
Proof.
  intros (Hw & _ & H01). induction ks as [|k ks IH]; intros Hks ws Hr Hv; cbn [fmap list_fmap unmarshal_items].
  - exists (values_ ws). split; [|intros k; now rewrite decide_False by set_solver].
    destruct ws as [a b cc d]. do 2 f_equal. cbn. set_solver.
  - assert (Hkk := Hks k ltac:(set_solver)).
    assert (Hflag : piece_input_ready_ (input c) = 0 -> is_Some (input_var_ready_ (input c) !! k)).
    { intros Hz. unfold piece_wf, input_ready in Hw. rewrite Hz in Hw. cbn in Hw. destruct Hw as [Hd _].
      apply elem_of_dom. now rewrite Hd. }
    rewrite Hr, Hv.
    assert (Hok : negb ((piece_input_ready_ (input c) =? 0) && (default 0 (input_var_ready_ (input c) !! k) =? 0))
                  || bool_decide (sent_value (input c) k = EMPTY_VALUE) = true).
    { unfold sent_value, is_ready. destruct (Z.eqb_spec (piece_input_ready_ (input c)) 0) as [Hz|]; [|done].
      destruct (Hflag Hz) as [r ->]. cbn. destruct (Z.eqb_spec r 0) as [->|]; [|done]. cbn.
      now rewrite bool_decide_true. }
    rewrite Hok. cbn [verify mbind option_bind].
    assert (Hvars : (if piece_input_ready_ (input c) =? 0
             then <[k:=default 0 (input_var_ready_ (input c) !! k)]> (input_var_ready_ (input c))
             else input_var_ready_ (input c)) = input_var_ready_ (input c)).
    { destruct (Z.eqb_spec (piece_input_ready_ (input c)) 0) as [Hz|]; [|done].
      destruct (Hflag Hz) as [r Hrr]. rewrite Hrr. now apply insert_id. }
    rewrite Hvars.
    destruct (IH ltac:(set_solver)
      {| keys_ := {[k]} ∪ keys_ ws; values_ := <[k := sent_value (input c) k]> (values_ ws);
         input_var_ready_ := input_var_ready_ (input c); piece_input_ready_ := piece_input_ready_ (input c) |}
      eq_refl eq_refl) as (vs & Hun & Hvs).
    exists vs. split.
    + rewrite Hun. cbn. do 2 f_equal. set_solver.
    + intros k'. rewrite Hvs. cbn. destruct (decide (k' ∈ ks)) as [Hin|Hin].
      * rewrite decide_True by (now right). done.
      * destruct (decide (k' = k)) as [->|Hne].
        -- now rewrite lookup_insert_eq, decide_True by (now left).
        -- rewrite lookup_insert_ne, decide_False; [done | | done]. rewrite elem_of_cons. tauto.
Qed.

(** The piece that the site gets. *)
Definition received (c : SimpleCommand) (vs : gmap Z value) : SimpleCommand :=
  set_local_executed false
    (set_input {| keys_ := keys_ (input c); values_ := vs; input_var_ready_ := input_var_ready_ (input c);
                  piece_input_ready_ := piece_input_ready_ (input c) |} c).

(** It has a value for every variable: the magic one where the variable has not arrived. *)
Lemma transmit_ok c : cmd_ok c -> exists vs,
  transmit c = Some (received c vs) /\ piece_wf (received c vs)
  /\ forall k, vs !! k = if decide (k ∈ keys_ (input c)) then Some (sent_value (input c) k) else None.
Proof.
  intros Hc. pose proof Hc as (Hw & Hs & _).
  destruct (unmarshal_ok c (sorted_elements (keys_ (input c))) Hc (fun k => proj1 (elem_sorted k _))
    {| keys_ := ∅; values_ := ∅; input_var_ready_ := input_var_ready_ (input c);
       piece_input_ready_ := piece_input_ready_ (input c) |} eq_refl eq_refl) as (vs & Hun & Hvs).
  cbn [keys_ values_ input_var_ready_ piece_input_ready_] in Hun, Hvs.
  assert (Hv : forall k, vs !! k = if decide (k ∈ keys_ (input c)) then Some (sent_value (input c) k) else None).
  { intros k. rewrite Hvs. destruct (decide (k ∈ keys_ (input c))) as [H|H].
    - now rewrite decide_True by (now apply elem_sorted).
    - rewrite decide_False by (now rewrite elem_sorted). apply lookup_empty. }
  exists vs. split_and!; [| |exact Hv].
  - unfold transmit. rewrite (proj2 (Nat.ltb_lt _ _) Hs). cbn [verify mbind option_bind].
    rewrite marshal_ws_ok by done. cbn [mbind option_bind]. unfold unmarshal_ws. cbn [w_items w_vars w_ready].
    rewrite Hun. cbn [mbind option_bind]. unfold received. do 4 f_equal.
    apply set_eq. intros k. rewrite elem_of_union, elem_of_list_to_set, elem_sorted. set_solver.
  - unfold piece_wf, input_ready, inputs_there in *. cbn.
    destruct (negb _).
    + intros k Hk. rewrite Hv, decide_True by done. eauto.
    + destruct Hw as [Hd Hwv]. split; [done|]. intros k x Hx _.
      rewrite Hv, decide_True; [eauto|]. rewrite <- Hd. eapply elem_of_dom_2, Hx.
Qed.

(** ** Every piece is sent, once, to its partition *)
Section Sent.
Context (input_vars_ : Z -> list Z) (sharding_input_ : Z -> option (string * list Z)).
Context (sss_ : Sharding.Sharding).

#[local] Abbreviation GetPiecePartitionId := (GetPiecePartitionId sharding_input_ sss_).
#[local] Abbreviation make_cmd := (make_cmd sharding_input_ sss_).
#[local] Abbreviation gather := (gather sharding_input_ sss_).

(** What the commands are made from. *)
Definition same_inputs (t t' : TxnCommand) : Prop :=
  id_ t' = id_ t /\ ttype_ t' = ttype_ t /\ values t' = values t /\ ws_keys t' = ws_keys t
  /\ inputs_ t' = inputs_ t.

#[local] Instance same_inputs_preorder : PreOrder same_inputs.
Proof. split; unfold same_inputs; [done | intros ???; intuition congruence]. Qed.

Lemma shard_values_same t t' vars : values t' = values t -> ws_keys t' = ws_keys t ->
  shard_values vars t' = shard_values vars t.
Proof.
  intros Hv Hk. induction vars as [|v vars IH]; [done|]. cbn. rewrite IH. unfold ws_. now rewrite Hv, Hk.
Qed.

Lemma partition_same t t' pi : values t' = values t -> ws_keys t' = ws_keys t ->
  GetPiecePartitionId pi t' = GetPiecePartitionId pi t.
Proof.
  intros Hv Hk. unfold TxnChopper.GetPiecePartitionId. destruct (sharding_input_ pi) as [[tb vars]|]; [|done].
  cbn. now rewrite (shard_values_same t t').
Qed.

Lemma make_cmd_same t t' pi s : same_inputs t t' -> make_cmd pi s t' = make_cmd pi s t.
Proof.
  intros (H1 & H2 & H3 & H4 & H5). unfold TxnChopper.make_cmd.
  rewrite (partition_same t t') by done. unfold piece_input. now rewrite H1, H2, H3, H5.
Qed.

Definition active (p : Z * Z) : Prop := p.2 <> OUTPUT_READY.
#[local] Instance active_dec p : Decision (active p).
Proof. unfold active. apply _. Defined.

Definition wait_all (w : gmap Z (list Z)) (ms : list (SimpleCommand * gset Z)) : gmap Z (list Z) :=
  foldl (fun w m => add_waiting (partition_id_ m.1) m.2 w) w ms.

Lemma make_cmd_id t pi s c ks : make_cmd pi s t = Some (c, ks) -> inn_id_ c = pi.
Proof.
  unfold TxnChopper.make_cmd. destruct (GetPiecePartitionId pi t); [|done]. cbn [mbind option_bind].
  destruct (s =? DISPATCHABLE); [now intros [= <- _]|]. destruct (verify _); [|done]. now intros [= <- _].
Qed.

(** The loop makes the command of every piece that is not finished. *)
Lemma gather_run st : forall t g ms,
  0 < ttype_ t ->
  Forall2 (fun p m => make_cmd p.1 p.2 t = Some m) (filter active st) ms ->
  exists st' t', gather st t g = Some (st', t',
    {| g_cmds := g_cmds g ++ ms.*1; g_waiting := wait_all (g_waiting g) ms;
       g_not_used := (g_not_used g + (length st - length (filter active st)))%nat |})
  /\ length st' = length st /\ same_inputs t t'
  /\ dom (cmds_ t') = dom (cmds_ t) ∪ list_to_set (filter active st).*1.
Proof.
  induction st as [|[pi s] st IH]; intros t g ms Ht; cbn [TxnChopper.gather].
  - intros ->%Forall2_nil_inv_l. exists [], t. destruct g. cbn. rewrite app_nil_r, Nat.add_0_r. split_and!; try done. set_solver.
  - destruct (Z.eqb_spec s OUTPUT_READY) as [->|Hs].
    + rewrite filter_cons_False by (unfold active; cbn; tauto). intros Hm.
      destruct (IH t (g {{ g_not_used := S (g_not_used g) }}) ms Ht Hm) as (st' & t' & Hg & Hl & Hsame & Hd).
      rewrite Hg. cbn. exists ((pi, OUTPUT_READY) :: st'), t'. split_and!; try done; [|cbn; lia].
      do 3 f_equal. pose proof (length_filter active st). lia.
    + rewrite filter_cons_True by (unfold active; cbn; done). intros ([c ks] & ms' & Hc & Hm & ->)%Forall2_cons_inv_l. cbn [fst snd] in Hc. rewrite Hc.
      cbn [mbind option_bind].
      rewrite (proj2 (Z.ltb_lt 0 (ttype_ t)) Ht). cbn [verify mbind option_bind].
      set (t1 := t {{ cmds_ := <[pi := c]> (cmds_ t); partition_ids_ := {[partition_id_ c]} ∪ partition_ids_ t;
                      n_pieces_dispatched_ := n_pieces_dispatched_ t + 1 }}).
      assert (Hsame : same_inputs t t1) by (unfold same_inputs; now destruct t).
      assert (Hm1 : Forall2 (fun p m => make_cmd p.1 p.2 t1 = Some m) (filter active st) ms').
      { eapply Forall2_impl; [exact Hm|]. intros p m <-. now apply make_cmd_same. }
      destruct (IH t1 (g {{ g_cmds := g_cmds g ++ [c];
                            g_waiting := add_waiting (partition_id_ c) ks (g_waiting g) }}) ms'
        ltac:(unfold t1; now destruct t) Hm1) as (st' & t' & Hg & Hl & Hsame' & Hd).
      rewrite Hg. cbn [mbind option_bind]. exists ((pi, DISPATCHED) :: st'), t'. split_and!.
      * do 2 f_equal. destruct g. cbn. f_equal. now rewrite <- app_assoc.
      * cbn. lia.
      * now transitivity t1.
      * rewrite Hd. assert (Hdt : dom (cmds_ t1) = {[pi]} ∪ dom (cmds_ t)) by (unfold t1; destruct t; cbn; set_solver).
        rewrite Hdt. cbn. set_solver.
Qed.

(** The partitions that wait. *)
Lemma add_waiting_spec par ks w k p :
  p ∈ default [] (add_waiting par ks w !! k) <-> p ∈ default [] (w !! k) \/ (k ∈ ks /\ p = par).
Proof.
  unfold add_waiting. rewrite <- (elem_of_elements ks). generalize (elements ks). intros l. revert p.
  induction l as [|k' l IH]; intros p; cbn; [set_solver|].
  destruct (decide (k' = k)) as [->|Hne].
  - rewrite lookup_insert_eq. cbn. rewrite elem_of_app, IH. set_solver.
  - rewrite lookup_insert_ne, IH by done. set_solver.
Qed.

Lemma wait_all_spec ms : forall w k p,
  p ∈ default [] (wait_all w ms !! k)
  <-> p ∈ default [] (w !! k) \/ exists m, m ∈ ms /\ k ∈ m.2 /\ p = partition_id_ m.1.
Proof.
  induction ms as [|m ms IH]; intros w k p; cbn; [set_solver|].
  rewrite IH, add_waiting_spec. set_solver.
Qed.

(** The commands by partition are the commands. *)
Lemma concat_by (pars : list Z) : NoDup pars -> forall cs : list SimpleCommand,
  (forall c, c ∈ cs -> partition_id_ c ∈ pars) ->
  concat ((fun par => filter (fun c => partition_id_ c = par) cs) <$> pars) ≡ₚ cs.
Proof.
  induction 1 as [|par pars Hn _ IH]; intros cs Hcs; cbn.
  - destruct cs as [|c cs]; [done|]. specialize (Hcs c ltac:(now left)). set_solver.
  - etransitivity; [|apply (filter_app_complement (fun c => partition_id_ c = par))]. apply Permutation_app_head.
    rewrite <- (IH (filter (fun c => ~ partition_id_ c = par) cs)).
    + match goal with |- ?a ≡ₚ ?b => enough (a = b) as -> by done end. f_equal. apply list_fmap_ext. intros i q Hq. rewrite list_filter_filter.
      apply list_filter_iff. intros c. apply list_elem_of_lookup_2 in Hq. split; [|tauto].
      intros Hc. split; [done|]. intros Hc'. congruence.
    + intros c [Hp Hc]%list_elem_of_filter. specialize (Hcs c Hc). set_solver.
Qed.

Lemma by_partition_ok cs :
  NoDup (by_partition cs).*1 /\ concat (by_partition cs).*2 ≡ₚ cs
  /\ forall par l c, (par, l) ∈ by_partition cs -> c ∈ l -> c ∈ cs /\ partition_id_ c = par.
Proof.
  unfold by_partition. rewrite <- !list_fmap_compose.
  assert (Hnd : NoDup (sorted_elements (list_to_set (partition_id_ <$> cs)))).
  { unfold sorted_elements. rewrite merge_sort_Permutation. apply NoDup_elements. }
  split_and!.
  - erewrite list_fmap_ext; [rewrite list_fmap_id; exact Hnd|]. done.
  - etransitivity; [|apply (concat_by _ Hnd)]; [done|].
    intros c Hc. apply elem_sorted, elem_of_list_to_set, list_elem_of_fmap. eauto.
  - intros par l c (p & [= -> ->] & _)%list_elem_of_fmap [? ?]%list_elem_of_filter. done.
Qed.

Lemma NoDup_fmap_fst_inj {A} (l : list (Z * A)) : NoDup l.*1 -> forall k x y, (k, x) ∈ l -> (k, y) ∈ l -> x = y.
Proof.
  induction l as [|[k' z] l IH]; cbn; [set_solver|]. intros [Hn Hl]%NoDup_cons k x y Hx Hy.
  assert (Hno : forall w, (k', w) ∉ l) by (intros w Hw; apply Hn, list_elem_of_fmap; now exists (k', w)).
  apply elem_of_cons in Hx as [Hx|Hx], Hy as [Hy|Hy]; [congruence | | | eauto];
    simplify_eq; now destruct (Hno _ ltac:(eassumption)).
Qed.

(** *** The invariant of a transaction that was not dispatched *)
Record chop_ok (t : TxnCommand) : Prop := {
  ok_nodup : NoDup (status_ t).*1;
  ok_nonzero : 0 ∉ (status_ t).*1;
  ok_keys : ws_keys t ⊆ dom (values t);
  ok_status : forall pi s, (pi, s) ∈ status_ t ->
    s = WAITING \/ s = OUTPUT_READY
    \/ (s = DISPATCHABLE /\ exists ks, inputs_ t !! pi = Some ks /\ ks ⊆ dom (values t)) }.

Lemma all_found_ok vars t : ws_keys t ⊆ dom (values t) ->
  all_found vars t = Some (bool_decide (list_to_set vars ⊆ ws_keys t)).
Proof.
  intros Hk. induction vars as [|v vars IH]; cbn; [now rewrite bool_decide_true by set_solver|].
  unfold ws_count. cbn. destruct (decide (v ∈ ws_keys t)) as [Hv|Hv].
  - rewrite (bool_decide_true (v ∈ _)) by done. cbn.
    rewrite bool_decide_true by (apply elem_of_dom; set_solver). cbn. rewrite IH. f_equal.
    apply bool_decide_ext. set_solver.
  - rewrite (bool_decide_false (v ∈ _)) by done. cbn. f_equal. symmetry. apply bool_decide_false. set_solver.
Qed.

(** What the loop of [CheckReady] leaves alone, and what it does to a piece. *)
Lemma statuses_checked st : forall t,
  NoDup st.*1 -> 0 ∉ st.*1 -> ws_keys t ⊆ dom (values t) ->
  exists st' t' r, check_status input_vars_ st t = Some (st', t', r)
  /\ st'.*1 = st.*1 /\ values t' = values t /\ ws_keys t' = ws_keys t /\ ttype_ t' = ttype_ t
  /\ (forall pi, pi ∉ st.*1 -> inputs_ t' !! pi = inputs_ t !! pi)
  /\ forall pi s', (pi, s') ∈ st' -> exists s, (pi, s) ∈ st
    /\ if bool_decide (s = WAITING /\ list_to_set (input_vars_ pi) ⊆ ws_keys t)
       then s' = DISPATCHABLE /\ inputs_ t' !! pi = Some (list_to_set (input_vars_ pi))
       else s' = s /\ inputs_ t' !! pi = inputs_ t !! pi.
Proof.
  induction st as [|[pi s] st IH]; intros t Hnd H0 Hk; cbn [check_status].
  - exists [], t, false. split_and!; try done. set_solver.
  - cbn in Hnd, H0. apply NoDup_cons in Hnd as [Hpi Hnd].
    assert (Hf : (if s =? WAITING then all_found (input_vars_ pi) t else Some false)
      = Some (bool_decide (s = WAITING /\ list_to_set (input_vars_ pi) ⊆ ws_keys t))).
    { destruct (Z.eqb_spec s WAITING) as [->|Hs].
      - rewrite all_found_ok by done. f_equal. apply bool_decide_ext. tauto.
      - f_equal. symmetry. apply bool_decide_false. tauto. }
    rewrite Hf. cbn [mbind option_bind]. case_bool_decide as Hd.
    + unfold set_keys. assert (pi =? 0 = false) as -> by (apply Z.eqb_neq; set_solver). cbn [negb verify mbind option_bind].
      match goal with |- context [check_status _ st ?x] => set (t1 := x) end.
      assert (Hv1 : values t1 = values t /\ ws_keys t1 = ws_keys t /\ ttype_ t1 = ttype_ t
        /\ inputs_ t1 = <[pi := list_to_set (input_vars_ pi)]> (inputs_ t)) by (unfold t1; now destruct t).
      clearbody t1. destruct Hv1 as (Hv & Hw & Hty & Hi).
      destruct (IH t1 Hnd ltac:(set_solver) ltac:(now rewrite Hw, Hv)) as (st' & t' & r & -> & Hst & Hv' & Hw' & Hty' & Ho & Hp).
      cbn [mbind option_bind]. exists ((pi, DISPATCHABLE) :: st'), t', true. split_and!; try (cbn; congruence).
      * intros q Hq. rewrite Ho, Hi, lookup_insert_ne by set_solver. done.
      * intros q s' [[= -> ->]|Hin]%elem_of_cons.
        -- exists s. split; [now left|]. rewrite bool_decide_true by done. split; [done|].
           now rewrite Ho, Hi, lookup_insert_eq.
        -- destruct (Hp _ _ Hin) as (s0 & Hs0 & Hc). exists s0. split; [now right|]. rewrite Hw in Hc.
           case_bool_decide; [done|]. destruct Hc as [-> ->]. split; [done|]. rewrite Hi, lookup_insert_ne; [done|].
           intros ->. apply Hpi. apply list_elem_of_fmap. now exists (q, s0).
    + destruct (IH t Hnd ltac:(set_solver) Hk) as (st' & t' & r & -> & Hst & Hv' & Hw' & Hty' & Ho & Hp).
      cbn [mbind option_bind]. exists ((pi, s) :: st'), t', r. split_and!; try (cbn; congruence).
      * intros q Hq. apply Ho. set_solver.
      * intros q s' [[= -> ->]|Hin]%elem_of_cons.
        -- exists s. split; [now left|]. rewrite bool_decide_false by done. split; [done|]. now apply Ho.
        -- destruct (Hp _ _ Hin) as (s0 & Hs0 & Hc). exists s0. split; [now right|]. done.
Qed.

(** [CheckReady] succeeds and keeps the invariant; the pieces that wait are afterwards
    those without their inputs. *)
Lemma check_ready_ok t : chop_ok t -> exists t' r, CheckReady input_vars_ t = Some (t', r)
  /\ chop_ok t' /\ (status_ t').*1 = (status_ t).*1 /\ values t' = values t /\ ws_keys t' = ws_keys t
  /\ ttype_ t' = ttype_ t
  /\ forall pi s', (pi, s') ∈ status_ t' -> exists s, (pi, s) ∈ status_ t
    /\ s' = if bool_decide (s = WAITING /\ list_to_set (input_vars_ pi) ⊆ ws_keys t) then DISPATCHABLE else s.
Proof.
  intros [Hnd H0 Hk Hs]. unfold CheckReady.
  destruct (statuses_checked (status_ t) t Hnd H0 Hk) as (st' & t' & r & -> & Hst & Hv & Hw & Hty & Ho & Hp).
  cbn [mbind option_bind]. eexists _, r. split; [reflexivity|].
  assert (Hf : forall u, status_ (u {{ status_ := st' }}) = st' /\ values (u {{ status_ := st' }}) = values u
    /\ ws_keys (u {{ status_ := st' }}) = ws_keys u /\ inputs_ (u {{ status_ := st' }}) = inputs_ u
    /\ ttype_ (u {{ status_ := st' }}) = ttype_ u) by now intros [].
  destruct (Hf t') as (F1 & F2 & F3 & F4 & F5). rewrite F1, F2, F3, F5. split_and!; try done; [split|].
  - now rewrite F1, Hst.
  - now rewrite F1, Hst.
  - now rewrite F2, F3, Hv, Hw.
  - intros pi s'. rewrite F1, F2, F4, Hv. intros (s & Hin & Hc)%Hp. case_bool_decide as Hd.
    + destruct Hc as [-> ->]. right; right. split; [done|]. eexists. split; [done|]. set_solver.
    + destruct Hc as [-> ->]. eauto.
  - intros pi s' (s & Hin & Hc)%Hp. exists s. split; [done|]. case_bool_decide; tauto.
Qed.

Lemma prepare_ok st : forall t, 0 ∉ st.*1 -> exists t', prepare input_vars_ st t = Some t'
  /\ t' = t {{ inputs_ := inputs_ t' }}
  /\ forall pi, inputs_ t' !! pi = if bool_decide ((pi, WAITING) ∈ st) then Some (list_to_set (input_vars_ pi))
                                   else inputs_ t !! pi.
Proof.
  induction st as [|[pi s] st IH]; intros t H0; cbn [prepare].
  - exists t. split_and!; [done | now destruct t | intros pi; now rewrite bool_decide_false by set_solver].
  - cbn in H0. destruct (Z.eqb_spec s WAITING) as [->|Hs].
    + unfold set_keys. assert (pi =? 0 = false) as -> by (apply Z.eqb_neq; set_solver).
      cbn [negb verify mbind option_bind].
      destruct (IH (t {{ inputs_ := <[pi := list_to_set (input_vars_ pi)]> (inputs_ t) }}) ltac:(set_solver))
        as (t' & -> & Ht & Hi).
      exists t'. split_and!; [done | rewrite Ht at 1; now destruct t |].
      intros q. rewrite Hi. destruct t as [? ? ? ? ? inp]. cbn. case_bool_decide as H1.
      * now rewrite bool_decide_true by (now right).
      * destruct (decide (q = pi)) as [->|Hq].
        -- now rewrite lookup_insert_eq, bool_decide_true by (now left).
        -- rewrite lookup_insert_ne by done. rewrite bool_decide_false; [done|].
           intros [[= ->]|?]%elem_of_cons; done.
    + cbn [mbind option_bind]. destruct (IH t ltac:(set_solver)) as (t' & -> & Ht & Hi).
      exists t'. split_and!; [done | done |]. intros q. rewrite Hi.
      assert (Hiff : (q, WAITING) ∈ st <-> (q, WAITING) ∈ (pi, s) :: st) by
        (rewrite elem_of_cons; split; [now right | intros [[= _ Hw]|]; [congruence | done]]).
      now rewrite (bool_decide_ext _ _ Hiff).
Qed.

Lemma var_flags_lookup ws k :
  var_flags ws !! k = if decide (k ∈ keys_ ws) then Some (if decide (is_Some (values_ ws !! k)) then 1 else 0) else None.
Proof.
  unfold var_flags. rewrite map_lookup_imap, lookup_gset_to_gmap. unfold guard.
  destruct (decide (k ∈ keys_ ws)); cbn; reflexivity.
Qed.

Lemma var_flags_dom ws : dom (var_flags ws) = keys_ ws.
Proof.
  apply set_eq. intros k. rewrite elem_of_dom, var_flags_lookup.
  destruct (decide (k ∈ keys_ ws)); split; eauto; done || now intros [? ?].
Qed.

(** The command of a piece that may be dispatched, or that waits. *)
Lemma make_cmd_ok t pi s par :
  GetPiecePartitionId pi t = Some par -> (size (keys_ (piece_input pi t)) < 10000)%nat ->
  s = WAITING \/ (s = DISPATCHABLE /\ keys_ (piece_input pi t) ⊆ dom (values_ (piece_input pi t))) ->
  exists c ks, make_cmd pi s t = Some (c, ks) /\ cmd_ok c /\ partition_id_ c = par
    /\ keys_ (input c) = keys_ (piece_input pi t) /\ values_ (input c) = values_ (piece_input pi t)
    /\ input_ready c = bool_decide (s = DISPATCHABLE)
    /\ (forall k, k ∈ keys_ (input c) -> values_ (input c) !! k = None -> k ∈ ks)
    /\ forall k x, k ∈ keys_ (input c) -> values_ (input c) !! k = Some x -> sent_value (input c) k = x.
Proof.
  intros Hp Hs Hst. unfold TxnChopper.make_cmd. rewrite Hp. cbn [mbind option_bind].
  destruct Hst as [->|[-> Hd]]; cbn [Z.eqb WAITING DISPATCHABLE verify mbind option_bind];
    eexists _, _; split; try reflexivity; set (ws := piece_input pi t) in *; clearbody ws.
  - unfold cmd_ok, piece_wf, input_ready, sent_value, is_ready. cbn. split_and!; try done.
    + apply var_flags_dom.
    + intros k x. rewrite var_flags_lookup. destruct (decide (k ∈ _)); [|done].
      destruct (decide _); [done|]. intros [= <-]. done.
    + intros _ k x. rewrite var_flags_lookup. destruct (decide (k ∈ _)); [|done].
      destruct (decide _); intros [= <-]; auto.
    + intros k Hk Hn. unfold missing. rewrite elem_of_difference, elem_of_dom, Hn. split; [done|]. now intros [? ?].
    + intros k x Hk Hx. rewrite var_flags_lookup, decide_True by done.
      rewrite decide_True by eauto. cbn. now rewrite Hx.
  - unfold cmd_ok, piece_wf, input_ready, inputs_there, sent_value, is_ready. cbn. split_and!; try done.
    + intros k Hk. apply elem_of_dom. set_solver.
    + intros k Hk Hn. exfalso. apply Hd in Hk. apply elem_of_dom in Hk as [? ?]. congruence.
    + intros k x Hk Hx. now rewrite Hx.
Qed.

(** The variables of a piece once all are prepared. *)
Definition taken (t : TxnCommand) (p : Z * Z) : gset Z :=
  if p.2 =? WAITING then list_to_set (input_vars_ p.1) else default ∅ (inputs_ t !! p.1).

(** A transaction that can be dispatched for the first time. *)
Record dispatchable (t : TxnCommand) : Prop := {
  di_type : 0 < ttype_ t;
  di_cmds : cmds_ t = ∅;
  di_some : exists p, p ∈ status_ t /\ active p;
  di_counts : n_pieces_dispatched_ t < n_pieces_dispatchable_ t /\ n_pieces_dispatched_ t < n_pieces_all_ t;
  di_pieces : forall p, p ∈ status_ t -> active p ->
    is_Some (GetPiecePartitionId p.1 t) /\ (size (taken t p) < 10000)%nat }.

(** What is known of the command [c] of the piece [p]. *)
Definition command_of (t : TxnCommand) (p : Z * Z) (c : SimpleCommand) : Prop :=
  inn_id_ c = p.1 /\ cmd_ok c /\ GetPiecePartitionId p.1 t = Some (partition_id_ c)
  /\ keys_ (input c) = taken t p /\ input_ready c = bool_decide (p.2 = DISPATCHABLE)
  /\ forall k x, k ∈ keys_ (input c) -> values t !! k = Some x -> sent_value (input c) k = x.

Lemma command_made t t1 p :
  chop_ok t -> dispatchable t -> prepare input_vars_ (status_ t) t = Some t1 ->
  t1 = t {{ inputs_ := inputs_ t1 }} ->
  (forall pi, inputs_ t1 !! pi = if bool_decide ((pi, WAITING) ∈ status_ t)
     then Some (list_to_set (input_vars_ pi)) else inputs_ t !! pi) ->
  p ∈ status_ t -> active p ->
  exists m, make_cmd p.1 p.2 t1 = Some m /\ command_of t p m.1
    /\ forall k, k ∈ keys_ (input m.1) -> values t !! k = None -> k ∈ m.2.
Proof.
  intros Hok Hd Hp Ht1 Hi Hin Ha. destruct p as [pi s]. cbn [fst snd].
  destruct (di_pieces _ Hd _ Hin Ha) as [[par Hpar] Hsz]. cbn [fst] in Hpar.
  assert (Hv : values t1 = values t) by (rewrite Ht1; now destruct t).
  assert (Hw : ws_keys t1 = ws_keys t) by (rewrite Ht1; now destruct t).
  assert (Hpi : piece_input pi t1 = {| keys_ := taken t (pi, s); values_ := values t;
      input_var_ready_ := ∅; piece_input_ready_ := 0 |}
    /\ (s = WAITING \/ (s = DISPATCHABLE /\ taken t (pi, s) ⊆ dom (values t)))).
  { unfold piece_input, taken. rewrite Hi, Hv. cbn [fst snd].
    destruct (ok_status _ Hok _ _ Hin) as [->|[->|[-> (ks & Hks & Hsub)]]].
    - rewrite bool_decide_true by done. auto.
    - now destruct Ha.
    - rewrite bool_decide_false; [rewrite Hks; cbn; auto|].
      intros H. pose proof (NoDup_fmap_fst_inj _ (ok_nodup _ Hok) _ _ _ Hin H) as [=]. }
  destruct Hpi as [Hpi Hst].
  destruct (make_cmd_ok t1 pi s par) as (c & ks & Hm & Hc & Hcp & Hk & Hvs & Hr & Hmiss & Hsent);
    rewrite ?Hpi; cbn [keys_ values_]; try done.
  { now rewrite (partition_same t t1). }
  rewrite Hpi in Hk, Hvs. cbn [keys_ values_] in Hk, Hvs. rewrite Hvs in Hmiss, Hsent.
  exists (c, ks). cbn [fst snd]. unfold command_of. cbn [fst snd].
  rewrite Hcp, Hpar. split_and!; auto. now apply make_cmd_id in Hm.
Qed.

Lemma Forall2_exists_r {A B} (P : A -> B -> Prop) l k y :
  Forall2 P l k -> y ∈ k -> exists x, x ∈ l /\ P x y.
Proof.
  induction 1 as [|a b l k Hab _ IH]; [set_solver|]. intros [->|Hy]%elem_of_cons.
  - exists a. split; [now left | done].
  - destruct (IH Hy) as (x & ? & ?). exists x. split; [now right | done].
Qed.

(** The commands of all pieces, in the order of the pieces. *)
Lemma commands_made t t1 ps :
  (forall p, p ∈ ps -> exists m, make_cmd p.1 p.2 t1 = Some m /\ command_of t p m.1
     /\ forall k, k ∈ keys_ (input m.1) -> values t !! k = None -> k ∈ m.2) ->
  exists ms, Forall2 (fun p m => make_cmd p.1 p.2 t1 = Some m) ps ms
    /\ Forall2 (fun p m => command_of t p m.1) ps ms
    /\ forall m k, m ∈ ms -> k ∈ keys_ (input m.1) -> values t !! k = None -> k ∈ m.2.
Proof.
  induction ps as [|p ps IH]; intros H; [exists []; split_and!; try constructor; set_solver|].
  destruct (H p ltac:(now left)) as (m & Hm & Hc & Hk).
  destruct IH as (ms & Hms & Hcs & Hks); [intros q Hq; apply H; now right|].
  exists (m :: ms). split_and!; [now constructor | now constructor |].
  intros m' k [->|Hm']%elem_of_cons; eauto.
Qed.

Lemma get_all_cmds t t1 ms :
  dispatchable t -> NoDup (status_ t).*1 -> t1 = t {{ inputs_ := inputs_ t1 }} ->
  Forall2 (fun p m => make_cmd p.1 p.2 t1 = Some m) (filter active (status_ t)) ms ->
  exists t2, GetAllCmds sharding_input_ sss_ t1
    = Some (t2, by_partition (set_waiting (wait_all ∅ ms) <$> ms.*1)).
Proof.
  intros Hd Hnd Ht1 Hms. unfold GetAllCmds. destruct (di_counts _ Hd) as [Hc1 Hc2].
  assert (F : n_pieces_dispatched_ t1 = n_pieces_dispatched_ t /\ n_pieces_dispatchable_ t1 = n_pieces_dispatchable_ t
    /\ n_pieces_all_ t1 = n_pieces_all_ t /\ status_ t1 = status_ t /\ ttype_ t1 = ttype_ t /\ cmds_ t1 = cmds_ t)
    by (rewrite Ht1; now destruct t).
  destruct F as (-> & -> & -> & -> & Hty & Hcm). clear Ht1.
  rewrite (proj2 (Z.ltb_lt _ _) Hc1), (proj2 (Z.ltb_lt _ _) Hc2). cbn [verify mbind option_bind].
  destruct (gather_run (status_ t) t1 {| g_cmds := []; g_waiting := ∅; g_not_used := 0 |} ms)
    as (st' & t' & -> & Hl & Hsame & Hdom); [rewrite Hty; apply Hd | done |].
  cbn [mbind option_bind g_cmds g_waiting g_not_used app].
  assert (Hsz : size (cmds_ t') = length (filter active (status_ t))).
  { rewrite <- size_dom, Hdom, Hcm, (di_cmds _ Hd), dom_empty_L, union_empty_l_L.
    rewrite size_list_to_set, length_fmap; [done|].
    eapply sublist_NoDup; [exact Hnd|]. apply fmap_sublist, sublist_filter. }
  pose proof (length_filter active (status_ t)) as Hle.
  assert (size (cmds_ t') + (0 + (length (status_ t) - length (filter active (status_ t)))) =? length st' = true)%nat
    as -> by (apply Nat.eqb_eq; lia).
  cbn [verify mbind option_bind].
  rewrite bool_decide_false; [cbn [negb verify mbind option_bind]; eauto|].
  intros ->%fmap_nil_inv%fmap_nil_inv. apply Forall2_nil_inv_r in Hms.
  destruct (di_some _ Hd) as (p & Hp & Ha).
  assert (p ∈ filter active (status_ t)) by now apply list_elem_of_filter. rewrite Hms in *. set_solver.
Qed.

(** C18. Once its pieces are prepared a transaction is cut into commands, one for every piece
    that has to run, each under the partition its input names.  Every command can be sent;
    the piece that arrives is well formed, which is what the loop over the pieces of a site
    needs, it is ready exactly if it was dispatchable, and has the value of every variable
    that is known.  For a variable that is not, every command of the transaction says that
    the partition of the piece waits for it. *)
Theorem pieces_sent t :
  chop_ok t -> dispatchable t ->
  exists t1 t2 cmds, PrepareAllCmds input_vars_ t = Some t1 /\ GetAllCmds sharding_input_ sss_ t1 = Some (t2, cmds)
  /\ NoDup cmds.*1 /\ inn_id_ <$> concat cmds.*2 ≡ₚ (filter active (status_ t)).*1
  /\ forall par cs c, (par, cs) ∈ cmds -> c ∈ cs ->
     GetPiecePartitionId (inn_id_ c) t = Some par /\ partition_id_ c = par
     /\ exists c', transmit c = Some c' /\ piece_wf c' /\ inn_id_ c' = inn_id_ c
       /\ (input_ready c' = true <-> (inn_id_ c, DISPATCHABLE) ∈ status_ t)
       /\ (forall k x, k ∈ keys_ (input c') -> values t !! k = Some x -> values_ (input c') !! k = Some x)
       /\ forall k, k ∈ keys_ (input c') -> values t !! k = None ->
          forall par' cs' d, (par', cs') ∈ cmds -> d ∈ cs' -> par ∈ default [] (waiting_var_par_map d !! k).
Proof.
  intros Hok Hd.
  destruct (prepare_ok (status_ t) t (ok_nonzero _ Hok)) as (t1 & Hp & Ht1 & Hi).
  destruct (commands_made t t1 (filter active (status_ t))) as (ms & Hms & Hcs & Hks).
  { intros p [Ha Hin]%list_elem_of_filter. eapply command_made; eauto. }
  destruct (get_all_cmds t t1 ms Hd (ok_nodup _ Hok) Ht1 Hms) as (t2 & Hg).
  set (cmds := set_waiting (wait_all ∅ ms) <$> ms.*1) in *.
  destruct (by_partition_ok cmds) as (Hnd & Hperm & Hby).
  exists t1, t2, (by_partition cmds). split_and!; [done | done | done | |].
  - rewrite Hperm. unfold cmds. rewrite <- !list_fmap_compose.
    match goal with |- ?a ≡ₚ ?b => enough (a = b) as -> by done end.
    clear -Hcs. induction Hcs as [|p m ps ms (Hid & _) _ IH]; [done|]. cbn. f_equal; [exact Hid | exact IH].
  - intros par cs c Hin Hc. destruct (Hby _ _ _ Hin Hc) as [Hcc <-].
    apply list_elem_of_fmap in Hcc as (c0 & -> & (m & -> & Hm)%list_elem_of_fmap).
    destruct (Forall2_exists_r _ _ _ _ Hcs Hm) as (p & Hpin & Hid & Hcok & Hpar & Hkeys & Hr & Hsent).
    apply list_elem_of_filter in Hpin as [Ha Hpin]. cbn [inn_id_ partition_id_ set_waiting].
    split_and!; [now rewrite Hid | done |].
    destruct (transmit_ok (set_waiting (wait_all ∅ ms) m.1) Hcok) as (vs & Htr & Hwf & Hvs).
    cbn [input set_waiting] in Hvs.
    exists (received (set_waiting (wait_all ∅ ms) m.1) vs). split_and!; [done | done | done | | |].
    + change (input_ready (received _ _)) with (input_ready m.1). rewrite Hr, Hid. destruct p as [pi s]. cbn [fst snd].
      rewrite bool_decide_eq_true. split; [now intros -> |].
      intros H. apply (NoDup_fmap_fst_inj _ (ok_nodup _ Hok) _ _ _ Hpin H).
    + cbn. intros k x Hk Hx. rewrite Hvs, decide_True by done. f_equal. now apply Hsent.
    + cbn. intros k Hk Hn par' cs' d Hin' Hd'. destruct (Hby _ _ _ Hin' Hd') as [Hdd _].
      apply list_elem_of_fmap in Hdd as (d0 & -> & _). cbn. apply wait_all_spec. right. exists m. auto.
Qed.
End Sent.

End TxnChopper.
