(* ===== verification/ChPayment.v ===== *)
(** * The payment transaction

    [ChbenchmarkTxn::PaymentInit] and [PaymentRetry] (bench/chBenchmark/payment.cc), the
    registered inputs and partitions of its pieces, and the procedures of the pieces that
    read the warehouse and the district, add to the district's total, find a customer by
    name and write the history.  The piece that updates the customer, which formats
    numbers as text, is not modelled.

    The rows are named by a function of the table and the key; the customers of a name come
    from an index that the loading of the tables fills. *)

From Stdlib Require Import ZArith Lia.
From stdpp Require Import base list option gmap sets strings.
From coqutil Require Import Datatypes.RecordSetters.
From S2P Require Import Prelude ALock MemSchema PieceExec RccTxn Sharding TxnChopper.
Import DoubleBraceUpdate.
Local Open Scope Z_scope.

Module ChPayment.
Import TxnChopper.

Definition PAYMENT : Z := 20.
Definition PAYMENT_0 : Z := 200.
Definition PAYMENT_1 : Z := 201.
Definition PAYMENT_2 : Z := 202.
Definition PAYMENT_3 : Z := 203.
Definition PAYMENT_4 : Z := 204.
Definition PAYMENT_5 : Z := 205.

Definition VAR_W_ID : Z := 1001.
Definition VAR_H_AMOUNT : Z := 1002.
Definition VAR_D_ID : Z := 1003.
Definition VAR_C_LAST : Z := 1004.
Definition VAR_C_W_ID : Z := 1005.
Definition VAR_C_D_ID : Z := 1006.
Definition VAR_C_ID : Z := 1007.
Definition VAR_H_KEY : Z := 1008.
Definition VAR_W_NAME : Z := 1009.
Definition VAR_D_NAME : Z := 1010.
Definition COL_DISTRICT_D_YTD : Z := 9.

(** ** The pieces and their inputs *)

(** [INPUT_PIE], in key order. *)
Definition input_vars (pi : Z) : list Z :=
  if pi =? PAYMENT_0 then [VAR_W_ID; VAR_H_AMOUNT; VAR_D_ID; VAR_C_W_ID; VAR_C_D_ID; VAR_H_KEY]
  else if pi =? PAYMENT_1 then [VAR_W_ID; VAR_D_ID]
  else if pi =? PAYMENT_2 then [VAR_W_ID; VAR_H_AMOUNT; VAR_D_ID]
  else if pi =? PAYMENT_3 then [VAR_C_LAST; VAR_C_W_ID; VAR_C_D_ID]
  else if pi =? PAYMENT_4 then [VAR_W_ID; VAR_H_AMOUNT; VAR_D_ID; VAR_C_W_ID; VAR_C_D_ID; VAR_C_ID]
  else if pi =? PAYMENT_5 then
    [VAR_W_ID; VAR_H_AMOUNT; VAR_D_ID; VAR_C_W_ID; VAR_C_D_ID; VAR_C_ID; VAR_H_KEY; VAR_W_NAME; VAR_D_NAME]
  else [].

(** [SHARD_PIE] *)
Definition sharding_input (pi : Z) : option (string * list Z) :=
  if pi =? PAYMENT_0 then Some ("warehouse", [VAR_W_ID])
  else if (pi =? PAYMENT_1) || (pi =? PAYMENT_2) then Some ("district", [VAR_W_ID])
  else if (pi =? PAYMENT_3) || (pi =? PAYMENT_4) then Some ("customer", [VAR_C_W_ID])
  else if pi =? PAYMENT_5 then Some (Sharding.TPCC_TB_HISTORY, [VAR_H_KEY])
  else None.

Definition set_status (pi s : Z) (t : TxnCommand) : TxnCommand := t {{ status_ := put pi s (status_ t) }}.

(** Without the name of the customer the piece that looks it up counts as finished. *)
Definition PaymentRetry (t : TxnCommand) : option TxnCommand :=
  let t := foldl (fun t pi => set_status pi WAITING t) t
             [PAYMENT_0; PAYMENT_1; PAYMENT_2; PAYMENT_3; PAYMENT_4; PAYMENT_5] in
  let t := t {{ n_pieces_dispatchable_ := 0; n_pieces_dispatch_acked_ := 0; n_pieces_dispatched_ := 0 }} in
  c ← ws_count VAR_C_LAST (ws_ t);
  let t :=
    if (c : bool) then t
    else (set_status PAYMENT_3 OUTPUT_READY t) {{ n_pieces_dispatchable_ := 1;
           n_pieces_dispatched_ := 1; n_pieces_dispatch_acked_ := 1 }} in
  '(t, _) ← CheckReady input_vars t;
  Some t.

Definition PaymentInit (t : TxnCommand) : option TxnCommand := PaymentRetry (t {{ n_pieces_all_ := 6 }}).

(** [Init] of a payment with the workspace of its request. *)
Definition Init (id : Z) (req_input : TxnWorkspace) : option TxnCommand :=
  t ← PaymentInit {| id_ := id; ttype_ := PAYMENT; values := values_ req_input; ws_keys := keys_ req_input;
        ws_init_keys := keys_ req_input; inputs_ := ∅; status_ := []; outputs_ := ∅; cmds_ := ∅;
        partition_ids_ := ∅; n_pieces_all_ := 0; n_pieces_dispatchable_ := 0;
        n_pieces_dispatch_acked_ := 0; n_pieces_dispatched_ := 0; n_try_ := 1 |};
  _ ← verify (0 <? n_pieces_dispatchable_ t);
  Some t.

Definition ResetTxn (t : TxnCommand) : option TxnCommand :=
  let t := (Reset t) {{ ws_keys := ws_init_keys t; partition_ids_ := ∅; n_try_ := n_try_ t + 1;
                        n_pieces_dispatchable_ := 0; n_pieces_dispatch_acked_ := 0;
                        n_pieces_dispatched_ := 0 }} in
  t ← PaymentRetry t;
  _ ← verify (0 <? n_pieces_dispatchable_ t);
  Some t.

(** ** The procedures *)
Section Pieces.
Context (row_of : string -> list value -> Z) (table_id : string -> Z).
(** The customers with a name, a district and a warehouse, and the date as text. *)
Context (c_last2id : value -> value -> value -> list Z) (date : list Z).

Definition arg (ws : TxnWorkspace) (k : Z) : value := default VUnknown (values_ ws !! k).

(** Reads of columns into the output. *)
Fixpoint read_all (row : Z) (cols : list (Z * Z)) (out : output_map) : Rcc.prog :=
  match cols with
  | [] => Rcc.Done out
  | (col, var) :: cols => Rcc.Read row col Rcc.TXN_BYPASS (fun x => read_all row cols (out ++ [(var, x)]))
  end.

Definition checked (n : nat) (ws : TxnWorkspace) (p : Rcc.prog) : Rcc.prog :=
  if (size (keys_ ws) <? n)%nat then Rcc.Broken else p.

Definition piece_0 (ws : TxnWorkspace) : Rcc.prog :=
  checked 6 ws (read_all (row_of "warehouse" [arg ws VAR_W_ID])
    [(1, VAR_W_NAME); (2, 1018); (3, 1019); (4, 1020); (5, 1021); (6, 1022)] []).

Definition piece_1 (ws : TxnWorkspace) : Rcc.prog :=
  checked 2 ws (read_all (row_of "district" [arg ws VAR_D_ID; arg ws VAR_W_ID])
    [(2, VAR_D_NAME); (3, 1030); (4, 1031); (5, 1032); (6, 1033); (7, 1034)] []).

(** The sum goes to a variable that is not used: what was read is written. *)
Definition piece_2 (ws : TxnWorkspace) : Rcc.prog :=
  let row := row_of "district" [arg ws VAR_D_ID; arg ws VAR_W_ID] in
  checked 3 ws (Rcc.Read row COL_DISTRICT_D_YTD Rcc.TXN_INSTANT (fun buf_temp =>
    match get_double buf_temp, get_double (arg ws VAR_H_AMOUNT) with
    | Some _, Some _ => Rcc.Write row COL_DISTRICT_D_YTD buf_temp Rcc.TXN_DEFERRED (Rcc.Done [])
    | _, _ => Rcc.Broken
    end)).

(** The loop over the customers of a name: [it_mid] moves at every second one. *)
Fixpoint mid_loop (n i : nat) (mid : option nat) (inc : bool) : option nat :=
  match n with
  | O => mid
  | S n =>
      match mid with
      | Some m => if inc then mid_loop n (S i) (Some (S m)) false else mid_loop n (S i) (Some m) true
      | None => mid_loop n (S i) (Some i) inc
      end
  end.
Definition middle (l : list Z) : option Z := i ← mid_loop (length l) 0 None false; l !! i.

Definition piece_3 (ws : TxnWorkspace) : Rcc.prog :=
  checked 3 ws
    match middle (c_last2id (arg ws VAR_C_LAST) (arg ws VAR_C_D_ID) (arg ws VAR_C_W_ID)) with
    | Some c_id => Rcc.Done [(VAR_C_ID, VI32 c_id)]
    | None => Rcc.Broken
    end.

Definition piece_5 (ws : TxnWorkspace) : Rcc.prog :=
  checked 9 ws
    match get_str (arg ws VAR_W_NAME), get_str (arg ws VAR_D_NAME) with
    | Some w_name, Some d_name =>
        Rcc.Insert (table_id Sharding.TPCC_TB_HISTORY)
          [arg ws VAR_H_KEY; arg ws VAR_C_ID; arg ws VAR_C_D_ID; arg ws VAR_C_W_ID; arg ws VAR_D_ID;
           arg ws VAR_W_ID; VStr date; arg ws VAR_H_AMOUNT; VStr (w_name ++ [32; 32; 32; 32] ++ d_name)]
          (Rcc.Done [])
    | _, _ => Rcc.Broken
    end.

(** ** What they do *)

(** The customer looked up by name is the one in the middle. *)
Lemma mid_loop_spec n : forall i m inc,
  mid_loop n i (Some m) inc = Some (m + (n + if inc then 1 else 0) / 2)%nat.
Proof.
  induction n as [|n IH]; intros i m [|]; cbn [mid_loop]; rewrite ?IH; f_equal.
  - change ((0 + 1) / 2)%nat with 0%nat. lia.
  - change ((0 + 0) / 2)%nat with 0%nat. lia.
  - replace (S n + 1)%nat with (n + 1 * 2)%nat by lia. rewrite Nat.div_add by lia. rewrite Nat.add_0_r. lia.
  - replace (S n + 0)%nat with (n + 1)%nat by lia. done.
Qed.

Lemma middle_spec l : middle l = l !! ((length l - 1) / 2)%nat.
Proof.
  unfold middle. destruct l as [|x l]; [done|]. cbn [length mid_loop]. rewrite mid_loop_spec. cbn [mbind option_bind].
  f_equal. rewrite Nat.add_0_r. cbn. now rewrite Nat.sub_0_r.
Qed.

(** The piece of a payment that should add the amount to the total of the district
    leaves every column as it was when it commits, and where the site reports its changes
    it reports the old total as an update. *)
Theorem district_total_lost key_columns table_of reports tid ws (e : Rcc.tenv) ytd amount key :
  let row := row_of "district" [arg ws VAR_D_ID; arg ws VAR_W_ID] in
  (3 <= size (keys_ ws))%nat ->
  Rcc.cells e !! (row, COL_DISTRICT_D_YTD) = Some (VDouble ytd) ->
  arg ws VAR_H_AMOUNT = VDouble amount ->
  mapM (fun k => Rcc.cells e !! (row, k)) (key_columns row) = Some key ->
  exists e', Rcc.run_prog key_columns table_of reports tid Rcc.PHASE_RCC_COMMIT (piece_2 ws) e = Some (e', [])
    /\ Rcc.cells e' = Rcc.cells e
    /\ Rcc.transferred e' = Rcc.transferred e ++
         (if reports then [{| Rcc.u_op := Rcc.UPDATE; Rcc.u_tbl := table_of row; Rcc.u_col := COL_DISTRICT_D_YTD;
                              Rcc.u_key := key; Rcc.u_value := VDouble ytd; Rcc.u_txn := tid |}] else []).
Proof.
  intros row Hs Hc Ha Hk. unfold piece_2, checked. rewrite (proj2 (Nat.ltb_ge _ _) Hs). fold row.
  cbn [Rcc.run_prog]. unfold Rcc.ReadColumn. cbn [Z.eqb Rcc.PHASE_RCC_COMMIT Rcc.PHASE_RCC_DISPATCH Pos.eqb].
  rewrite Hc. cbn [mbind option_bind get_double]. rewrite Ha. cbn [get_double Rcc.run_prog].
  unfold Rcc.WriteColumn. cbn [Z.eqb Rcc.PHASE_RCC_COMMIT Rcc.PHASE_RCC_DISPATCH Rcc.TXN_DEFERRED Rcc.TXN_BYPASS Pos.eqb orb].
  destruct reports; cbn [andb].
  - rewrite Hk. cbn [mbind option_bind]. unfold Rcc.write_column, Rcc.transfer. destruct e as [ce la ro tr pa]. cbn in *.
    rewrite Hc. cbn. eexists. split; [reflexivity|]. cbn. split; [now apply insert_id | done].
  - cbn [mbind option_bind]. unfold Rcc.write_column. rewrite Hc. cbn [mbind option_bind].
    eexists. split; [reflexivity|]. destruct e as [ce la ro tr pa]. cbn in *.
    split; [now apply insert_id | now rewrite app_nil_r].
Qed.
End Pieces.

(** ** A payment by name over three partitions *)
Definition example_sharding : Sharding.Sharding :=
  let info name := {| Sharding.tb_name := name; Sharding.sharding_method := Sharding.MODULUS;
                      Sharding.par_ids := [0; 1; 2] |} in
  {| Sharding.tb_infos_ := (fun name => (name, info name)) <$> ["warehouse"; "district"; "customer"; "history"];
     Sharding.dist2sid_ := []; Sharding.stock2sid_ := []; Sharding.benchmark := 1; Sharding.num_groups := 3 |}.

Definition example_input : TxnWorkspace :=
  let m := [(VAR_W_ID, VI32 1); (VAR_H_AMOUNT, VDouble 0); (VAR_D_ID, VI32 3); (VAR_C_LAST, VStr [66; 65; 82]);
            (VAR_C_W_ID, VI32 2); (VAR_C_D_ID, VI32 4); (VAR_H_KEY, VI32 6)] in
  {| keys_ := list_to_set m.*1; values_ := list_to_map m; input_var_ready_ := ∅; piece_input_ready_ := 0 |}.

Definition example_payment : TxnCommand :=
  default {| id_ := 0; ttype_ := 0; values := ∅; ws_keys := ∅; ws_init_keys := ∅; inputs_ := ∅; status_ := [];
             outputs_ := ∅; cmds_ := ∅; partition_ids_ := ∅; n_pieces_all_ := 0; n_pieces_dispatchable_ := 0;
             n_pieces_dispatch_acked_ := 0; n_pieces_dispatched_ := 0; n_try_ := 0 |} (Init 77 example_input).

(** The customer's number and the two names are not known. *)
Example example_status : status_ example_payment
  = [(PAYMENT_0, DISPATCHABLE); (PAYMENT_1, DISPATCHABLE); (PAYMENT_2, DISPATCHABLE);
     (PAYMENT_3, DISPATCHABLE); (PAYMENT_4, WAITING); (PAYMENT_5, WAITING)].
Proof. vm_compute. reflexivity. Qed.

Lemma example_chop_ok : chop_ok example_payment.
Proof.
  split.
  - rewrite example_status. apply (bool_decide_unpack _). vm_compute. exact I.
  - rewrite example_status. apply (bool_decide_unpack _). vm_compute. exact I.
  - apply (bool_decide_unpack _). vm_compute. exact I.
  - intros pi s H. rewrite example_status in H.
    assert (Hd : Forall (fun p => p.2 = WAITING \/ (p.2 = DISPATCHABLE
      /\ is_Some (inputs_ example_payment !! p.1)
      /\ default ∅ (inputs_ example_payment !! p.1) ⊆ dom (values example_payment)))
      [(PAYMENT_0, DISPATCHABLE); (PAYMENT_1, DISPATCHABLE); (PAYMENT_2, DISPATCHABLE);
       (PAYMENT_3, DISPATCHABLE); (PAYMENT_4, WAITING); (PAYMENT_5, WAITING)]).
    { apply (bool_decide_unpack _). vm_compute. exact I. }
    rewrite Forall_forall in Hd. destruct (Hd _ H) as [Hw|(Hs & [ks Hk] & Hsub)]; [now left|].
    right; right. split; [done|]. cbn [fst] in *. rewrite Hk in *. eauto.
Qed.

Lemma example_dispatchable : dispatchable input_vars sharding_input example_sharding example_payment.
Proof.
  split.
  - vm_compute. reflexivity.
  - vm_compute. reflexivity.
  - rewrite example_status. exists (PAYMENT_0, DISPATCHABLE). split; [now left | done].
  - vm_compute. split; reflexivity.
  - intros p H Ha. rewrite example_status in H.
    assert (Hd : Forall (fun p => is_Some (GetPiecePartitionId sharding_input example_sharding p.1 example_payment)
      /\ (size (taken input_vars example_payment p) < 10000)%nat)
      [(PAYMENT_0, DISPATCHABLE); (PAYMENT_1, DISPATCHABLE); (PAYMENT_2, DISPATCHABLE);
       (PAYMENT_3, DISPATCHABLE); (PAYMENT_4, WAITING); (PAYMENT_5, WAITING)]).
    { apply (bool_decide_unpack _). vm_compute. exact I. }
    rewrite Forall_forall in Hd. now apply Hd.
Qed.

Lemma pieces_sent_witness :
  (chop_ok example_payment /\ dispatchable input_vars sharding_input example_sharding example_payment)
  /\ exists t1 t2 cmds, PrepareAllCmds input_vars example_payment = Some t1
      /\ GetAllCmds sharding_input example_sharding t1 = Some (t2, cmds).
Proof.
  split; [split; [exact example_chop_ok | exact example_dispatchable]|].
  destruct (pieces_sent input_vars sharding_input example_sharding example_payment
    example_chop_ok example_dispatchable) as (t1 & t2 & cmds & H1 & H2 & _).
  eauto.
Defined.

(** Which pieces go where, and who waits for what. *)
Definition summary (cmds : list (Z * list SimpleCommand)) : list (Z * list (Z * bool)) * list (list Z) :=
  let waits := match cmds with (_, c :: _) :: _ => waiting_var_par_map c | _ => ∅ end in
  (map (fun pc => (pc.1, map (fun c => (inn_id_ c, input_ready c)) pc.2)) cmds,
   map (fun k => default [] (waits !! k)) [VAR_C_ID; VAR_W_NAME; VAR_D_NAME; VAR_W_ID]).

Example example_commands :
  (t ← PrepareAllCmds input_vars example_payment;
   r ← GetAllCmds sharding_input example_sharding t; Some (summary r.2))
  = Some ([(0, [(PAYMENT_5, false)]); (1, [(PAYMENT_0, true); (PAYMENT_1, true); (PAYMENT_2, true)]);
           (2, [(PAYMENT_3, true); (PAYMENT_4, false)])], [[2; 0]; [0]; [0]; []]).
Proof. vm_compute. reflexivity. Qed.

Lemma district_total_lost_witness :
  let ws := {| keys_ := {[VAR_W_ID; VAR_H_AMOUNT; VAR_D_ID]}; values_ := {[VAR_H_AMOUNT := VDouble 5]};
               input_var_ready_ := ∅; piece_input_ready_ := 1 |} in
  let e := {| Rcc.cells := {[(7, COL_DISTRICT_D_YTD) := VDouble 3; (7, 0) := VI32 4]}; Rcc.last_ := ∅; Rcc.rows := [];
              Rcc.transferred := []; Rcc.tparents := [] |} in
  exists e', Rcc.run_prog (fun _ => [0]) (fun _ => 1) true 9 Rcc.PHASE_RCC_COMMIT (piece_2 (fun _ _ => 7) ws) e
    = Some (e', []) /\ Rcc.cells e' = Rcc.cells e.
Proof.
  intros ws e.
  destruct (district_total_lost (fun _ _ => 7) (fun _ => [0]) (fun _ => 1) true 9 ws e 3 5 [VI32 4])
    as (e' & H1 & H2 & _); [vm_compute; lia | vm_compute; reflexivity.. |].
  eauto.
Defined.

End ChPayment.
