(* ===== verification/SlogOrder.v ===== *)
(** * The order of transactions in Slog

    [AuxiliaryRaftImpl] (deptran/slog/auxiliary_raft.h and .cc), which puts the transactions
    of several regions into one sequence, and [SlogRegionManager] (deptran/slog/manager.h and
    .cc), which merges the part of that sequence that concerns its region with the
    transactions of the region alone and hands the result to the sites in batches.

    A lock guards every handler, so that a handler is a function of the state to a state and
    the messages it sends; the answer of a follower or a backup is a message that names the
    position it acknowledges.  A [std::map] from partitions to commands is the list of its
    entries in key order.  The parallel vectors of a batch are one list of records.  The
    fields of a command that only the dropped report to the analytical side reads ([isQuery],
    [txn_type]) are left out, and so are the times of the log and the acknowledgements
    [defer->reply()]. *)

From Stdlib Require Import ZArith Lia.
From stdpp Require Import base list option gmap sets.
From coqutil Require Import Datatypes.RecordSetters.
From S2P Require Import Prelude ALock MemSchema PieceExec.
Import DoubleBraceUpdate.
Local Open Scope Z_scope.

#[global] Arguments constant {E} newValue _ /.

Module SlogOrder.

Abbreviation cmd_map := (list (Z * list SimpleCommand)).

Definition N_REP_PER_SHARD : Z := 3.

(** [cmds.count(par) != 0] and [cmds.at(par)]. *)
Definition cmds_at (par : Z) (m : cmd_map) : option (list SimpleCommand) :=
  snd <$> find (fun kv => kv.1 =? par) m.

(** [cmds.begin()->second.at(0)]. *)
Definition first_cmd (m : cmd_map) : option SimpleCommand :=
  '(_, cs) ← head m; head cs.

(** The transaction of a map of commands. *)
Definition txn_of (m : cmd_map) : option Z := root_id_ <$> first_cmd m.

(** [SlogSendOrderedCRT], sent to a region manager. *)
Record ordered_crt := {
  oc_cmds : cmd_map;
  oc_index : nat;
  oc_coord : Z;
  oc_touched : list Z;
  oc_barriers : list nat }.

(** ** The global log *)
Record raft_entry := {
  re_cmds : cmd_map;
  re_coord : Z;
  re_committed : bool;
  re_sent : bool }.

Record raft := {
  rlog : list raft_entry;
  next_send_index_ : nat;
  global_log_barrier_indices_ : list nat;
  next_send_global_barrier_ : nat }.

Definition raft_init : raft :=
  {| rlog := []; next_send_index_ := 0; global_log_barrier_indices_ := [];
     next_send_global_barrier_ := 0 |}.

Section Raft.
(** [n_shard_per_region_], the followers and the sites in [slog_rpc_region_managers_]. *)
Context (shards_per_region : Z) (followers : list Z) (managers : list Z).

Definition sites_per_region : Z := shards_per_region * N_REP_PER_SHARD.
Definition region_of_par (par : Z) : Z := par / shards_per_region.

Definition insert_barrier (index : nat) (r : raft) : raft :=
  r {{ global_log_barrier_indices_ := global_log_barrier_indices_ r ++ [index] }}.

(** The answer has the position of the entry, which every follower is asked to append. *)
Definition SlogRaftSubmit (cmds : cmd_map) (handler_site : Z) (r : raft) :
    raft * list (Z * cmd_map * nat) :=
  let index := length (rlog r) in
  let r := r {{ rlog := rlog r ++ [{| re_cmds := cmds; re_coord := handler_site;
                                      re_committed := false; re_sent := false |}] }} in
  let r := if Nat.eqb (index mod 100) 0 then insert_barrier index r else r in
  (r, (fun f => (f, cmds, index)) <$> followers).

(** The part of the commands for a region, the empty map of a skip message when there is
    none. *)
Definition region_cmds (rid : Z) (m : cmd_map) : cmd_map :=
  List.filter (fun kv => region_of_par kv.1 =? rid) m.

(** Only the first site of a region is its manager. *)
Definition is_manager (site : Z) : bool := site mod sites_per_region =? 0.

Definition SendToAllPars (log_index : nat) (r : raft) : option (raft * list (Z * ordered_crt)) :=
  e ← rlog r !! log_index;
  _ ← first_cmd (re_cmds e);
  let all_touched_pars := (re_cmds e).*1 in
  let barriers := drop (next_send_global_barrier_ r) (global_log_barrier_indices_ r) in
  let r := r {{ next_send_global_barrier_ :=
                  Nat.max (next_send_global_barrier_ r) (length (global_log_barrier_indices_ r)) }} in
  Some (r, (fun site => (site,
              {| oc_cmds := region_cmds (site / sites_per_region) (re_cmds e); oc_index := log_index;
                 oc_coord := re_coord e; oc_touched := all_touched_pars; oc_barriers := barriers |}))
             <$> List.filter is_manager managers).

(** The loop of [RaftAppendAck] over the positions from [next_send_index_] on. *)
Fixpoint send_committed (js : list nat) (r : raft) : option (raft * list (Z * ordered_crt)) :=
  match js with
  | [] => Some (r, [])
  | i :: js =>
      e ← rlog r !! i;
      if re_committed e then
        _ ← verify (negb (re_sent e));
        '(r, o1) ← SendToAllPars i r;
        let r := r {{ rlog := <[i := e {{ re_sent := true }}]> (rlog r);
                      next_send_index_ := S (next_send_index_ r) }} in
        '(r, o2) ← send_committed js r;
        Some (r, o1 ++ o2)
      else Some (r, [])
  end.

Definition RaftAppendAck (index : nat) (r : raft) : option (raft * list (Z * ordered_crt)) :=
  e ← rlog r !! index;
  if re_committed e then Some (r, [])
  else
    let r := r {{ rlog := <[index := e {{ re_committed := true }}]> (rlog r) }} in
    send_committed (seq (next_send_index_ r) (length (rlog r) - next_send_index_ r)) r.

(** On a follower. *)
Definition RaftAppendEntries (cmds : cmd_map) (r : raft) : raft :=
  r {{ rlog := rlog r ++ [{| re_cmds := cmds; re_coord := 0; re_committed := false; re_sent := false |}] }}.

(** ** The region manager *)
Record log_entry := {
  le_cmds : cmd_map;
  le_coord : Z;
  le_committed : bool;
  touched_pars_all_ : list Z }.

Record manager := {
  mlog : list log_entry;
  next_commit_index_ : nat;
  mnext_send_index_ : nat;
  global_log_ : list (option log_entry);
  global_next_insert_index_ : nat;
  barrier_global_indices_ : gset Z;
  barrier_local_indices_ : list nat;
  next_send_barrier_local_ : nat }.

Definition manager_init : manager :=
  {| mlog := []; next_commit_index_ := 0; mnext_send_index_ := 0; global_log_ := [];
     global_next_insert_index_ := 0; barrier_global_indices_ := ∅; barrier_local_indices_ := [];
     next_send_barrier_local_ := 0 |}.

(** A request to the backup: the commands, the coordinator and the position it acknowledges. *)
Abbreviation replicate_req := (cmd_map * Z * nat)%type.

Definition InsertLocalLog (global_index : Z) (cmds : cmd_map) (handler_site : Z) (touched : list Z)
    (m : manager) : manager * replicate_req :=
  let index := length (mlog m) in
  let m := m {{ mlog := mlog m ++ [{| le_cmds := cmds; le_coord := handler_site;
                                      le_committed := false; touched_pars_all_ := touched |}] }} in
  let m := if bool_decide (global_index ∈ barrier_global_indices_ m)
           then m {{ barrier_local_indices_ := barrier_local_indices_ m ++ [index] }} else m in
  (m, (cmds, handler_site, index)).

(** The index -1, as the unsigned number it becomes. *)
Definition SendRmIRT (cmds : cmd_map) (handler_site : Z) (m : manager) : manager * replicate_req :=
  InsertLocalLog (wrap 64 (-1)) cmds handler_site cmds.*1 m.

(** On the backup. *)
Definition RmReplicate (cmds : cmd_map) (m : manager) : manager :=
  m {{ mlog := mlog m ++ [{| le_cmds := cmds; le_coord := 0; le_committed := false;
                             touched_pars_all_ := [] |}] }}.

(** The loop that moves [next_commit_index_] over the committed entries. *)
Fixpoint count_committed (es : list log_entry) : nat :=
  match es with
  | e :: es => if le_committed e then S (count_committed es) else O
  | [] => O
  end.

Definition ReplicateACK (index : nat) (m : manager) : option manager :=
  e ← mlog m !! index;
  let m := m {{ mlog := <[index := e {{ le_committed := true }}]> (mlog m) }} in
  Some (m {{ next_commit_index_ :=
               (next_commit_index_ m + count_committed (drop (next_commit_index_ m) (mlog m)))%nat }}).

(** The loop of [SlogSendOrderedCRT]: the entry of the global log at a position is inserted
    with the partitions that the message just received touches. *)
Fixpoint insert_ordered (touched : list Z) (js : list nat) (m : manager) :
    option (manager * list replicate_req) :=
  match js with
  | [] => Some (m, [])
  | i :: js =>
      g ← global_log_ m !! i;
      match g with
      | None => Some (m, [])
      | Some e =>
          let '(m, o1) :=
            match le_cmds e with
            | [] => (m, [])
            | _ => let '(m, req) := InsertLocalLog (Z.of_nat i) (le_cmds e) (le_coord e) touched m in
                   (m, [req])
            end in
          let m := m {{ global_log_ := <[i := Some (e {{ le_committed := true }})]> (global_log_ m);
                        global_next_insert_index_ := S (global_next_insert_index_ m) }} in
          '(m, o2) ← insert_ordered touched js m;
          Some (m, o1 ++ o2)
      end
  end.

Definition SlogSendOrderedCRT (c : ordered_crt) (m : manager) : option (manager * list replicate_req) :=
  let grown := global_log_ m ++ replicate (S (oc_index c) - length (global_log_ m)) None in
  let m := m {{ global_log_ := grown;
                barrier_global_indices_ :=
                  list_to_set (Z.of_nat <$> oc_barriers c) ∪ barrier_global_indices_ m }} in
  g ← global_log_ m !! oc_index c;
  _ ← verify (bool_decide (g = @None log_entry));
  let e := {| le_cmds := oc_cmds c; le_coord := oc_coord c; le_committed := false;
              touched_pars_all_ := oc_touched c |} in
  let m := m {{ global_log_ := <[oc_index c := Some e]> (global_log_ m) }} in
  insert_ordered (oc_touched c)
    (seq (global_next_insert_index_ m) (length (global_log_ m) - global_next_insert_index_ m)) m.

(** ** Batches *)
Record batch_txn := { bt_id : Z; bt_cmds : list SimpleCommand; bt_coord : Z; bt_touched : list Z }.
Record batch := { b_start : nat; b_txns : list batch_txn; b_barriers : list nat }.

(** The entry of the log as the partition gets it. *)
Definition batch_entry (par : Z) (e : log_entry) : option batch_txn :=
  txn_id ← txn_of (le_cmds e);
  Some {| bt_id := txn_id; bt_cmds := default [] (cmds_at par (le_cmds e)); bt_coord := le_coord e;
          bt_touched := touched_pars_all_ e |}.

(** [rpc_par_proxies_[par]]: the sites of a partition. *)
Context (proxies : Z -> list Z).

(** One round of the loop over the partitions of the region; the first partition takes all
    the barriers. *)
Definition send_batch_to (par : Z) (m : manager) : option (manager * list (Z * batch)) :=
  txns ← mapM (batch_entry par)
           (drop (mnext_send_index_ m) (take (next_commit_index_ m) (mlog m)));
  let barriers := drop (next_send_barrier_local_ m) (barrier_local_indices_ m) in
  let m := m {{ next_send_barrier_local_ :=
                  Nat.max (next_send_barrier_local_ m) (length (barrier_local_indices_ m)) }} in
  Some (m, (fun site => (site, {| b_start := mnext_send_index_ m; b_txns := txns;
                                  b_barriers := barriers |})) <$> proxies par).

Fixpoint send_batches (pars : list Z) (m : manager) : option (manager * list (Z * batch)) :=
  match pars with
  | [] => Some (m, [])
  | par :: pars =>
      '(m, o1) ← send_batch_to par m;
      '(m, o2) ← send_batches pars m;
      Some (m, o1 ++ o2)
  end.

Definition region_pars (rid : Z) : list Z :=
  (fun k => rid * shards_per_region + Z.of_nat k) <$> seq 0 (Z.to_nat shards_per_region).

(** The body of the loop of the thread. *)
Definition CheckAndSendBacth (rid : Z) (m : manager) : option (manager * list (Z * batch)) :=
  if Nat.ltb (mnext_send_index_ m) (next_commit_index_ m) then
    '(m, o) ← send_batches (region_pars rid) m;
    Some (m {{ mnext_send_index_ := next_commit_index_ m }}, o)
  else Some (m, []).
End Raft.
End SlogOrder.
