(* ===== verification/SlogSched.v ===== *)
(** * The sites of Slog

    [TxSlog] (deptran/slog/tx.h and .cc) and [SchedulerSlog] (deptran/slog/scheduler.h and
    .cc): a site has a queue of transactions, filled by the batches of its region manager,
    and runs their pieces in the order of the queue, except that a piece may overtake pieces
    it does not conflict with.

    A [TxSlog*] is the identifier of the transaction.  A callback is a value of [reply_t]
    that says which lambda was assigned.  [n_local_pieces_] is not initialised by the
    constructor and [None] until it is assigned; [next_execute_index_] is not initialised
    either and an argument of [sched_init].  The versions and locks that [WriteColumn] takes
    are never looked at by Slog and left out; so is [NotifyQueueIndex], whose call of
    [TransferOrder] is commented out.  The handlers of an older protocol in the same class
    ([OnSubmitDistributed], [OnInsertDistributed], [OnReplicateLocal], [OnSendBatchRemote],
    [CheckExecutableTxns]) are not called by any sender. *)

From Stdlib Require Import ZArith Lia.
From stdpp Require Import base list option gmap sets relations sorting.
From coqutil Require Import Datatypes.RecordSetters.
From S2P Require Import Prelude ALock MemSchema PieceExec RccTxn SlogOrder.
Import DoubleBraceUpdate.
Local Open Scope Z_scope.

Module SlogSched.
Import SlogOrder.

(** ** Conflicts of pieces

    The static sets of pairs are filled by the constructors of the two classes of pieces,
    with the same pairs; the benchmark decides which class is constructed. *)
Inductive benchmark :=
  TPCA | CH_BENCHMARK | TPCC | TPCC_DIST_PART | TPCC_REAL_DIST_PART | RW_BENCHMARK | MICRO_BENCH | RETWIS.
#[export] Instance benchmark_eq : EqDecision benchmark.
Proof. solve_decision. Defined.

Definition between (lo z hi : Z) : bool := (lo <=? z) && (z <? hi).

Definition fixed_conflicts : list (Z * Z) :=
  [(1004, 1000); (1004, 1004); (1004, 400); (204, 1002); (204, 203); (204, 204); (204, 301); (204, 302);
   (204, 403); (205, 205); (301, 204); (301, 403); (302, 1003); (302, 401); (303, 402); (401, 1003);
   (401, 302); (401, 401); (402, 303); (402, 402); (402, 501); (403, 1002); (403, 203); (403, 204);
   (403, 301); (403, 302); (403, 403); (501, 402)].

Definition inserted_conflicts (p q : Z) : bool :=
  between 18000 p 19000 && (between 1000 q 2000 || existsb (Z.eqb q) [303; 402; 501])
  || between 52000 p 53000 && between 17000 q 18000
  || existsb (Z.eqb p) [303; 402; 501] && between 18000 q 19000
  || existsb (fun pq => (pq.1 =? p) && (pq.2 =? q)) fixed_conflicts.

(** [TpccPiece::conflicts_] in a process that runs the benchmark: the constructor of
    [TpccPiece], or of a class derived from it, has filled it. *)
Definition TpccPiece_conflicts (b : benchmark) (p q : Z) : bool :=
  match b with
  | TPCC | TPCC_DIST_PART | TPCC_REAL_DIST_PART => inserted_conflicts p q
  | _ => false
  end.
Definition ChbenchmarkPiece_conflicts (b : benchmark) (p q : Z) : bool :=
  match b with CH_BENCHMARK => inserted_conflicts p q | _ => false end.

Definition check_piece_conflict (b : benchmark) (pending_pie_id type_to_check : Z) : bool :=
  if bool_decide (b = TPCC) || bool_decide (b = CH_BENCHMARK)
  then TpccPiece_conflicts b pending_pie_id type_to_check else false.

(** ** Access to the database *)
Section Access.
Import Rcc.
Context (key_columns : Z -> list Z) (table_of : Z -> Z) (reports : bool) (tid : Z).

(** The value of a deferred read stays as the caller declared it. *)
Definition ReadColumn (row col hint : Z) (e : tenv) : option (tenv * value) :=
  if immediate hint then x ← cells e !! (row, col); Some (e, x) else Some (e, VUnknown).

(** A change is reported whatever the hint; a deferred write is only prepared. *)
Definition WriteColumn (row col : Z) (x : value) (hint : Z) (e : tenv) : option tenv :=
  e ← (if reports then
         key ← mapM (fun k => cells e !! (row, k)) (key_columns row);
         Some (transfer {| u_op := UPDATE; u_tbl := table_of row; u_col := col; u_key := key;
                           u_value := x; u_txn := tid |} e)
       else Some e);
  if immediate hint then write_column row col x e else Some e.

(** [InsertRow] is inherited; the phase of the transaction stays 0. *)
Fixpoint run_prog (p : prog) (e : tenv) : option (tenv * output_map) :=
  match p with
  | Done out => Some (e, out)
  | Read row col hint k => '(e, x) ← ReadColumn row col hint e; run_prog (k x) e
  | Write row col x hint k => e ← WriteColumn row col x hint e; run_prog k e
  | Insert tbl vals k => run_prog k (InsertRow reports tid 0 tbl vals e)
  | Broken => None
  end.

Context (txn_reg : Z -> Z -> option (defer_t * (TxnWorkspace -> prog))).

(** The database of the site and the [dreqs_] of its transactions. *)
Record slog_env := { se_db : tenv; se_dreqs : gmap Z (list SimpleCommand) }.

Definition DispatchExecute (c : SimpleCommand) (e : slog_env) : option (slog_env * output_map) :=
  let dreqs := default [] (se_dreqs e !! tid) in
  if existsb (fun d => inn_id_ d =? inn_id_ c) dreqs then Some (e, [])
  else
    '(defer, handler) ← txn_reg (root_type_ c) (type_ c);
    let e := if bool_decide (defer = DF_NO) then e
             else e {{ se_dreqs := <[tid := dreqs ++ [c]]> (se_dreqs e) }} in
    '(db, out) ← run_prog (handler (input c)) (se_db e);
    Some (e {{ se_db := db }}, out).
End Access.

(** ** Transactions *)

(** The lambda assigned to [reply_callback]: none, that of the coordinator, the empty one of
    a replica of the coordinator, or that which sends the output. *)
Inductive reply_t := Unassigned | ToClient | Nothing | ToCoord.
#[export] Instance reply_t_eq : EqDecision reply_t.
Proof. solve_decision. Defined.

Record txn := {
  tpieces : list SimpleCommand;
  n_local_pieces_ : option Z;
  n_executed_pieces : Z;
  dist_output_ : gmap Z output_map;
  par_output_received_ : gmap Z bool;
  coord_site_ : Z;
  relevant_ : bool;
  executed_ : bool;
  all_touched_shards_ : list Z;
  reply_callback : reply_t }.

Definition new_txn : txn :=
  {| tpieces := []; n_local_pieces_ := None; n_executed_pieces := 0; dist_output_ := ∅;
     par_output_received_ := ∅; coord_site_ := 0; relevant_ := false; executed_ := false;
     all_touched_shards_ := []; reply_callback := Unassigned |}.

Inductive event :=
  | ReplyClient (tid : Z)
  | SendTxnOutput (site par tid : Z) (out : gmap Z output_map)
  | SendDependentValues (par tid : Z) (vars : gmap Z value)
  | SendToRegionManager (site : Z) (cmds : cmd_map) (handler : Z)
  | SendToRaft (cmds : cmd_map) (handler : Z).

Section Sched.
(** The conflict test, the procedures, the place of the site. *)
Context {E : Type} (conflict : Z -> Z -> bool)
  (exec : Z -> SimpleCommand -> E -> option (E * output_map)).
Context (site_id partition_id : Z) (shards_per_region : Z).

Record sched := {
  dtxns_ : gmap Z txn;
  db_ : E;
  txn_log_ : list Z;
  txn_queue_ : list (option Z);
  next_execute_index_ : nat;
  next_notify_index_ : nat;
  pending_dep_values_ : list (Z * output_map);
  barrier_indices_ : list nat;
  events_ : list event }.

Definition sched_init (db : E) (next_execute : nat) : sched :=
  {| dtxns_ := ∅; db_ := db; txn_log_ := []; txn_queue_ := []; next_execute_index_ := next_execute;
     next_notify_index_ := 0; pending_dep_values_ := []; barrier_indices_ := []; events_ := [] |}.

Definition put (tid : Z) (t : txn) (s : sched) : sched := s {{ dtxns_ := <[tid := t]> (dtxns_ s) }}.
Definition emit (es : list event) (s : sched) : sched := s {{ events_ := events_ s ++ es }}.

(** *** Execution *)

Definition can_exe_wo_conflict (pending : gset Z) (to_check : Z) : bool :=
  forallb (fun p => negb (conflict p to_check)) (elements pending).

(** [RecursiveExecuteReadyPieces]: the loop over the pieces, and then the pieces that are
    left join the pending ones. *)
Definition unexecuted (ps : list SimpleCommand) : gset Z :=
  list_to_set (inn_id_ <$> List.filter (fun c => negb (local_executed_ c)) ps).

Definition run_ready (tid : Z) (pending : gset Z) (t : txn) (db : E) :
    option (txn * E * gmap Z (gmap Z value) * gset Z) :=
  r ← RecursiveExecuteReadyPieces (exec tid) (can_exe_wo_conflict pending) partition_id
        {| pieces_ := tpieces t; env := db; PieceExec.n_executed_pieces := n_executed_pieces t;
           ret := ∅; outputs := dist_output_ t |};
  Some (t {{ tpieces := pieces_ r; n_executed_pieces := PieceExec.n_executed_pieces r;
             dist_output_ := outputs r }}, env r, ret r, pending ∪ unexecuted (pieces_ r)).

Definition all_received (t : txn) : bool :=
  forallb snd (map_to_list (par_output_received_ t)).

(** [reply_callback()]. *)
Definition call_reply (tid : Z) (t : txn) : option (list event) :=
  match reply_callback t with
  | Unassigned => None
  | ToClient => Some (if all_received t then [ReplyClient tid] else [])
  | Nothing => Some []
  | ToCoord =>
      n ← n_local_pieces_ t;
      Some (if negb (n =? 0) && negb (bool_decide (dist_output_ t = ∅))
            then [SendTxnOutput (coord_site_ t) partition_id tid (dist_output_ t)] else [])
  end.

(** The answer says whether the transaction is finished; the last components are what its
    pieces send to other partitions and the pieces that are pending now. *)
Definition TryExecute (tid : Z) (pending : gset Z) (s : sched) :
    option (sched * bool * gmap Z (gmap Z value) * gset Z) :=
  t ← dtxns_ s !! tid;
  '(t, db, dependent_vars, pending) ← run_ready tid pending t (db_ s);
  n ← n_local_pieces_ t;
  let finished := n =? n_executed_pieces t in
  '(t, es) ← (if finished then
                let t := t {{ executed_ := true }} in
                let t := if bool_decide (dist_output_ t = ∅) then t
                         else t {{ par_output_received_ := <[partition_id := true]> (par_output_received_ t) }} in
                es ← call_reply tid t; Some (t, es)
              else Some (t, []));
  Some (emit es (put tid t (s {{ db_ := db }})), finished, dependent_vars, pending).

(** What is sent to the other partitions, in their order. *)
Definition dependent_values (tid : Z) (out : gmap Z (gmap Z value)) : list event :=
  (fun par => SendDependentValues par tid (default ∅ (out !! par)))
    <$> List.filter (fun par => negb (par =? partition_id)) (merge_sort Z.le (elements (dom out))).

Definition max_pending_txns_ : Z := 5.

(** The loop over the queue from [next_execute_index_] on. *)
Fixpoint exec_queue (js : list nat) (found_pending : Z) (pending : gset Z) (s : sched) : option sched :=
  match js with
  | [] => Some s
  | i :: js =>
      q ← txn_queue_ s !! i;
      match q with
      | None => Some s
      | Some tid =>
          t ← dtxns_ s !! tid;
          if executed_ t then
            exec_queue js found_pending pending
              (if found_pending =? 0 then s {{ next_execute_index_ := S (next_execute_index_ s) }} else s)
          else
            '(s, finished, dependent_vars, pending) ← TryExecute tid pending s;
            let s := emit (dependent_values tid dependent_vars) s in
            if (finished : bool) then
              exec_queue js found_pending pending
                (if found_pending =? 0 then s {{ next_execute_index_ := S (next_execute_index_ s) }} else s)
            else if max_pending_txns_ <? found_pending + 1 then Some s
            else exec_queue js (found_pending + 1) pending s
      end
  end.

Definition ExecTxnQueue (s : sched) : option sched :=
  exec_queue (seq (next_execute_index_ s) (length (txn_queue_ s) - next_execute_index_ s)) 0 ∅ s.

(** *** Handlers *)

Definition OnSubmitTxn (cmds : cmd_map) (is_irt : bool) (s : sched) : option sched :=
  tid ← txn_of cmds;
  let t := default new_txn (dtxns_ s !! tid) in
  let t :=
    match cmds_at partition_id cmds with
    | Some cs => t {{ relevant_ := true; tpieces := cs; n_local_pieces_ := Some (Z.of_nat (length cs)) }}
    | None => t {{ relevant_ := false }}
    end in
  let t := t {{ coord_site_ := site_id; n_executed_pieces := 0; dist_output_ := ∅;
                par_output_received_ :=
                  foldl (fun m kv => <[kv.1 := false]> m) (par_output_received_ t) cmds;
                reply_callback := ToClient }} in
  let s := put tid t (s {{ txn_log_ := txn_log_ s ++ [tid] }}) in
  let rid := partition_id / shards_per_region in
  Some (emit [if is_irt then SendToRegionManager (rid * shards_per_region * N_REP_PER_SHARD) cmds site_id
              else SendToRaft cmds site_id] s).

(** A transaction of a batch, at its position of the queue. *)
Definition insert_batch_txn (i : nat) (b : batch_txn) (s : sched) : option sched :=
  s ← match dtxns_ s !! bt_id b with
      | Some t =>
          _ ← verify (bt_coord b =? site_id);
          _ ← verify (coord_site_ t =? site_id);
          Some (put (bt_id b) (t {{ all_touched_shards_ := bt_touched b }}) s)
      | None =>
          Some (put (bt_id b)
            {| tpieces := bt_cmds b; n_local_pieces_ := Some (Z.of_nat (length (bt_cmds b)));
               n_executed_pieces := 0; dist_output_ := ∅; par_output_received_ := ∅;
               coord_site_ := bt_coord b; relevant_ := true; executed_ := false;
               all_touched_shards_ := bt_touched b;
               reply_callback := if bt_coord b / N_REP_PER_SHARD =? site_id / N_REP_PER_SHARD
                                 then Nothing else ToCoord |} s)
      end;
  q ← txn_queue_ s !! i;
  _ ← verify (bool_decide (q = @None Z));
  Some (s {{ txn_queue_ := <[i := Some (bt_id b)]> (txn_queue_ s) }}).

Fixpoint insert_batch (i : nat) (bs : list batch_txn) (s : sched) : option sched :=
  match bs with
  | [] => Some s
  | b :: bs => s ← insert_batch_txn i b s; insert_batch (S i) bs s
  end.

(** The first entry that was not received ends the loop. *)
Fixpoint count_received (q : list (option Z)) : nat :=
  match q with Some _ :: q => S (count_received q) | _ => O end.

(** [MergeCheckReadyPieces] of a transaction. *)
Definition merge_values (tid : Z) (vars : output_map) (s : sched) : option (sched * bool) :=
  t ← dtxns_ s !! tid;
  let '(ps, more) := MergeCheckReadyPieces vars (tpieces t) in
  Some (put tid (t {{ tpieces := ps }}) s, more).

Fixpoint check_pending (vs : list (Z * output_map)) (s : sched) : option (sched * list (Z * output_map) * bool) :=
  match vs with
  | [] => Some (s, [], false)
  | (tid, vars) :: vs =>
      if bool_decide (is_Some (dtxns_ s !! tid)) then
        '(s, m1) ← merge_values tid vars s;
        '(s, rest, m2) ← check_pending vs s;
        Some (s, rest, m1 || m2)
      else
        '(s, rest, m2) ← check_pending vs s;
        Some (s, (tid, vars) :: rest, m2)
  end.

Definition CheckPendingDeps (s : sched) : option sched :=
  '(s, rest, need_check) ← check_pending (pending_dep_values_ s) s;
  let s := s {{ pending_dep_values_ := rest }} in
  if (need_check : bool) then ExecTxnQueue s else Some s.

Definition OnSendBatch (b : batch) (s : sched) : option sched :=
  let s := s {{ barrier_indices_ := barrier_indices_ s ++ b_barriers b;
                txn_queue_ := txn_queue_ s
                  ++ replicate (b_start b + length (b_txns b) - length (txn_queue_ s)) None }} in
  s ← insert_batch (b_start b) (b_txns b) s;
  let s := if site_id mod N_REP_PER_SHARD =? 0
           then s {{ next_notify_index_ :=
                       (next_notify_index_ s + count_received (drop (next_notify_index_ s) (txn_queue_ s)))%nat }}
           else s in
  s ← ExecTxnQueue s;
  CheckPendingDeps s.

(** The output itself is not looked at. *)
Definition OnSendTxnOutput (tid par : Z) (s : sched) : option sched :=
  t ← dtxns_ s !! tid;
  r ← par_output_received_ t !! par;
  if (r : bool) then Some s
  else
    let t := t {{ par_output_received_ := <[par := true]> (par_output_received_ t) }} in
    es ← call_reply tid t;
    Some (emit es (put tid t s)).

Definition OnSendDepValues (tid : Z) (vars : output_map) (s : sched) : option sched :=
  if bool_decide (is_Some (dtxns_ s !! tid)) then
    '(s, more_to_run) ← merge_values tid vars s;
    if (more_to_run : bool) then ExecTxnQueue s else Some s
  else Some (s {{ pending_dep_values_ := pending_dep_values_ s ++ [(tid, vars)] }}).
End Sched.
End SlogSched.
