(* ===== verification/SlogExec.v ===== *)
(** * Execution of the queue of a Slog site

    What [ExecTxnQueue] (deptran/slog/scheduler.cc) does, against a specification that runs
    one piece at a time: a piece may run when its inputs are there and no piece before it in
    the queue that is not executed conflicts with it. *)

From Stdlib Require Import ZArith Lia.
From stdpp Require Import base list option gmap sets relations sorting.
From coqutil Require Import Datatypes.RecordSetters.
From S2P Require Import Prelude ALock MemSchema PieceExec RccTxn SlogOrder SlogSched.
Import DoubleBraceUpdate.
Local Open Scope Z_scope.

Module SlogExec.
Import SlogOrder SlogSched.

Section Exec.
Context {E : Type} (conflict : Z -> Z -> bool)
  (exec : Z -> SimpleCommand -> E -> option (E * output_map)).
Context (site_id partition_id shards_per_region : Z).

Abbreviation pieces_map := (gmap Z (list SimpleCommand)).

(** The database and the pieces of the transactions of a site. *)
Definition view (s : @sched E) : E * pieces_map := (db_ s, tpieces <$> dtxns_ s).

(** ** The specification *)

(** No piece before position [j] of the queue that is not executed conflicts with [c]. *)
Definition overtakes (q : list (option Z)) (j : nat) (c : SimpleCommand) (P : pieces_map) : Prop :=
  forall k, (k < j)%nat -> exists tid ps, q !! k = Some (Some tid) /\ P !! tid = Some ps
    /\ forall p, p ∈ ps -> local_executed_ p = false -> conflict (inn_id_ p) (inn_id_ c) = false.

Inductive queue_step (q : list (option Z)) : E * pieces_map -> E * pieces_map -> Prop :=
  | run_next j tid i c ps ps' tg P db db' out :
      q !! j = Some (Some tid) -> P !! tid = Some ps -> ps !! i = Some c ->
      input_ready c = true -> local_executed_ c = false -> inputs_there c ->
      overtakes q j c P ->
      exec tid c db = Some (db', out) ->
      GetOutputsTargets out (<[i := set_local_executed true c]> ps) = Some tg ->
      ps' = (if bool_decide (partition_id ∈ tg)
             then (MergeCheckReadyPieces out (<[i := set_local_executed true c]> ps)).1
             else <[i := set_local_executed true c]> ps) ->
      queue_step q (db, P) (db', <[tid := ps']> P).

(** ** Pieces over time *)

Definition later (ps ps' : list SimpleCommand) : Prop :=
  Forall2 (fun c c' => inn_id_ c' = inn_id_ c
                       /\ (local_executed_ c = true -> local_executed_ c' = true)) ps ps'.

#[local] Instance later_preorder : PreOrder later.
Proof.
  split.
  - intros ps. unfold later. induction ps; constructor; auto.
  - intros a b c Hab. revert c. induction Hab as [|x y a b [] _ IH]; intros c Hbc;
      inversion_clear Hbc as [|? z ? ? []]; constructor; [split; [congruence | auto] | now apply IH].
Qed.

Lemma later_insert ps i c : ps !! i = Some c -> later ps (<[i := set_local_executed true c]> ps).
Proof.
  unfold later. revert i. induction ps as [|x ps IH]; intros [|i] Hi; cbn in *; try discriminate.
  - injection Hi as ->. constructor; [auto |]. apply (reflexivity (R := later)).
  - constructor; [auto |]. now apply IH.
Qed.

Lemma later_merge out ps : later ps (MergeCheckReadyPieces out ps).1.
Proof.
  destruct (merge_check_result (exec 0) (fun _ => true) out ps) as (_ & _ & H). unfold later.
  eapply Forall2_impl; [exact H |]. intros c c' [[(Hi & _) He] _]. split; [exact Hi | congruence].
Qed.

Lemma later_unexecuted ps ps' : later ps ps' -> unexecuted ps' ⊆ unexecuted ps.
Proof.
  unfold unexecuted. induction 1 as [|c c' ps ps' [Hi He] _ IH]; cbn; [done |].
  destruct (local_executed_ c), (local_executed_ c'); cbn; rewrite ?Hi; try set_solver.
Qed.

Lemma elem_of_unexecuted x ps :
  x ∈ unexecuted ps <-> exists p, p ∈ ps /\ local_executed_ p = false /\ inn_id_ p = x.
Proof.
  unfold unexecuted. rewrite elem_of_list_to_set, list_elem_of_fmap. split.
  - intros (p & -> & Hp). rewrite list_elem_of_In, filter_In, negb_true_iff in Hp. destruct Hp as [Hp He].
    apply list_elem_of_In in Hp. eauto.
  - intros (p & Hp & He & <-). exists p. split; [reflexivity |].
    rewrite list_elem_of_In, filter_In, negb_true_iff. split; [now apply list_elem_of_In | exact He].
Qed.

Lemma executed_le ps : (executed ps <= length ps)%nat.
Proof. apply List.filter_length_le. Qed.

Lemma executed_all ps :
  executed ps = length ps <-> Forall (fun c => local_executed_ c = true) ps.
Proof.
  unfold executed. split.
  - induction ps as [|c ps IH]; [constructor |]. cbn. destruct (local_executed_ c) eqn:Ec; cbn.
    + intros [= H]. constructor; auto.
    + pose proof (executed_le ps). unfold executed in *. lia.
  - induction 1 as [|c ps Hc _ IH]; cbn; [reflexivity |]. rewrite Hc. cbn. now rewrite IH.
Qed.

Lemma unexecuted_none ps : Forall (fun c => local_executed_ c = true) ps -> unexecuted ps = ∅.
Proof.
  intros H. apply set_eq. intros x. rewrite elem_of_unexecuted, Forall_forall in *. split; [|set_solver].
  intros (p & Hp & He & _). rewrite H in He by exact Hp. discriminate.
Qed.
(** ** One transaction *)

(** The pieces before position [j] that are not executed are among the pending ones. *)
Definition clear (q : list (option Z)) (j : nat) (pending : gset Z) (P : pieces_map) : Prop :=
  forall k, (k < j)%nat -> exists tid ps,
    q !! k = Some (Some tid) /\ P !! tid = Some ps /\ unexecuted ps ⊆ pending.

Lemma clear_later q j pending P tid ps ps' :
  clear q j pending P -> P !! tid = Some ps -> later ps ps' -> clear q j pending (<[tid := ps']> P).
Proof.
  intros Hc Hp Hl k Hk. destruct (Hc k Hk) as (tid' & ps1 & Hq & Hp1 & Hs).
  destruct (decide (tid' = tid)) as [->|Hne].
  - exists tid, ps'. rewrite lookup_insert_eq. rewrite Hp in Hp1. injection Hp1 as <-.
    split_and!; auto. transitivity (unexecuted ps); [now apply later_unexecuted | exact Hs].
  - exists tid', ps1. rewrite lookup_insert_ne by auto. auto.
Qed.

Lemma allowed_no_conflict pending c p :
  can_exe_wo_conflict conflict pending c = true -> p ∈ pending -> conflict p c = false.
Proof.
  unfold can_exe_wo_conflict. rewrite forallb_forall. intros H Hp. apply negb_true_iff, H.
  now apply list_elem_of_In, elem_of_elements.
Qed.

Lemma blocked_by_conflict pending c :
  can_exe_wo_conflict conflict pending c = false -> exists p, p ∈ pending /\ conflict p c = true.
Proof.
  unfold can_exe_wo_conflict. intros H. apply not_true_iff_false in H. rewrite forallb_forall in H.
  destruct (List.existsb (fun p => conflict p c) (elements pending)) eqn:Ex.
  - apply List.existsb_exists in Ex as (p & Hp & Hc). exists p.
    split; [now apply elem_of_elements, list_elem_of_In | exact Hc].
  - exfalso. apply H. intros p Hp. destruct (conflict p c) eqn:Ec; [|reflexivity].
    assert (List.existsb (fun p => conflict p c) (elements pending) = true) by
      (apply List.existsb_exists; eauto). congruence.
Qed.

(** What the run of one piece does. *)
Lemma exec_piece_inv tid allowed i c r r' more :
  pieces_ r !! i = Some c -> can_run allowed c = true ->
  exec_piece (exec tid) allowed partition_id i r = Some (r', more) ->
  exists out tg, let ps := <[i := set_local_executed true c]> (pieces_ r) in
    exec tid c (env r) = Some (env r', out) /\ GetOutputsTargets out ps = Some tg
    /\ pieces_ r' = (if bool_decide (partition_id ∈ tg) then (MergeCheckReadyPieces out ps).1 else ps)
    /\ outputs r' = <[inn_id_ c := out]> (outputs r)
    /\ PieceExec.n_executed_pieces r' = PieceExec.n_executed_pieces r + 1.
Proof.
  intros Hc Hr. unfold exec_piece. rewrite Hc. cbn [mbind option_bind]. rewrite Hr.
  destruct (exec tid c (env r)) as [[e' out]|]; [|discriminate]. cbn [mbind option_bind].
  destruct (GetOutputsTargets out _) as [tg|] eqn:Et; [|discriminate]. cbn [mbind option_bind].
  intros H. exists out, tg. revert H. case_bool_decide.
  - destruct (MergeCheckReadyPieces out _) as [ps' m]. intros [= <- <-]. cbn. auto.
  - intros [= <- <-]. cbn. auto.
Qed.

Lemma piece_steps_lift q j tid pending r r' P :
  q !! j = Some (Some tid) ->
  rtc (piece_step (exec tid) (can_exe_wo_conflict conflict pending) partition_id) r r' ->
  P !! tid = Some (pieces_ r) -> clear q j pending P ->
  rtc (queue_step q) (env r, P) (env r', <[tid := pieces_ r']> P)
  /\ later (pieces_ r) (pieces_ r')
  /\ (r' = r \/ outputs r' <> ∅ /\ PieceExec.n_executed_pieces r < PieceExec.n_executed_pieces r').
Proof.
  intros Hj Hs. revert P. induction Hs as [r|r r1 r' Hs Hs' IH]; intros P HP Hc.
  - rewrite insert_id by exact HP. split_and!; [apply rtc_refl | reflexivity | auto].
  - inversion_clear Hs as [i c ? ? more Hi Hr Hin Hx].
    destruct (exec_piece_inv _ _ _ _ _ _ _ Hi Hr Hx) as (out & tg & Hx' & Ht & Hps & Ho & Hn).
    assert (Hl : later (pieces_ r) (pieces_ r1)).
    { etransitivity; [exact (later_insert _ _ _ Hi) |]. rewrite Hps. case_bool_decide; [apply later_merge | reflexivity]. }
    destruct (IH (<[tid := pieces_ r1]> P)) as (H1 & H2 & H3);
      [apply lookup_insert_eq | eapply clear_later; eauto |].
    split_and!.
    + eapply rtc_l; [|rewrite insert_insert_eq in H1; exact H1].
      unfold can_run in Hr. apply andb_prop in Hr as [[Ha Hr]%andb_prop He%negb_true_iff].
      apply (run_next q j tid i c (pieces_ r) (pieces_ r1) tg P _ _ out); auto.
      intros k Hk. destruct (Hc k Hk) as (tid' & ps' & Hq & Hp & Hsub). exists tid', ps'. split_and!; auto.
      intros p Hp' Hp2. eapply allowed_no_conflict; [exact Ha |]. apply Hsub, elem_of_unexecuted. eauto.
    + etransitivity; eauto.
    + right. destruct H3 as [->|[H3 Hlt]]; [|split; [exact H3 | lia]].
      split; [|lia]. rewrite Ho. apply insert_non_empty.
Qed.

(** What holds of a transaction that a site knows. *)
Record tx_wf (t : txn) : Prop := {
  w_local : n_local_pieces_ t = Some (Z.of_nat (length (tpieces t)));
  w_count : n_executed_pieces t = Z.of_nat (executed (tpieces t));
  w_pieces : Forall piece_wf (tpieces t);
  w_executed : executed_ t = true -> Forall (fun c => local_executed_ c = true) (tpieces t);
  w_output : dist_output_ t = ∅ <-> n_executed_pieces t = 0;
  w_reply : reply_callback t <> Unassigned }.
(** What an attempt to execute [t] leaves as it was, and the mark of the own partition. *)
Record tried (t t' : txn) : Prop := {
  a_coord : coord_site_ t' = coord_site_ t;
  a_reply : reply_callback t' = reply_callback t;
  a_local : n_local_pieces_ t' = n_local_pieces_ t;
  a_later : later (tpieces t) (tpieces t');
  a_received : par_output_received_ t' =
    if executed_ t' && negb (bool_decide (tpieces t' = []))
    then <[partition_id := true]> (par_output_received_ t) else par_output_received_ t }.

(** A piece that could run runs only if it does not conflict with the pending ones. *)
Definition stuck (pending : gset Z) (ps : list SimpleCommand) : Prop :=
  forall c, c ∈ ps -> input_ready c = true -> local_executed_ c = false ->
    exists p, p ∈ pending /\ conflict p (inn_id_ c) = true.

Lemma later_length ps ps' : later ps ps' -> length ps' = length ps.
Proof. intros H. symmetry. apply (Forall2_length _ _ _ H). Qed.

Lemma quiet_stuck pending (r : @run E) :
  quiet (can_exe_wo_conflict conflict pending) r -> stuck pending (pieces_ r).
Proof.
  intros Hq c Hc Hr He. specialize (Hq c Hc). unfold can_run in Hq. rewrite Hr, He in Hq.
  cbn in Hq. rewrite !andb_true_r in Hq. now apply blocked_by_conflict.
Qed.

Section Total.
Hypothesis exec_total : forall tid c e, is_Some (exec tid c e).

Lemma run_ready_ok q j tid t pending P db :
  q !! j = Some (Some tid) -> tx_wf t -> P !! tid = Some (tpieces t) -> clear q j pending P ->
  runs (run_ready conflict exec partition_id tid pending t db) (fun '(t', db', _, pending') =>
    exists ps n out, t' = t {{ tpieces := ps; n_executed_pieces := n; dist_output_ := out }}
    /\ rtc (queue_step q) (db, P) (db', <[tid := ps]> P) /\ later (tpieces t) ps
    /\ Forall piece_wf ps /\ n = Z.of_nat (executed ps) /\ (out = ∅ <-> n = 0)
    /\ stuck pending ps /\ pending' = pending ∪ unexecuted ps).
Proof using exec_total.
  intros Hj W HP Hc. unfold run_ready, RecursiveExecuteReadyPieces.
  set (r0 := {| pieces_ := tpieces t; env := db; PieceExec.n_executed_pieces := n_executed_pieces t;
                ret := ∅; outputs := dist_output_ t |}).
  destruct (exec_loop_ok (exec tid) (can_exe_wo_conflict conflict pending) (exec_total tid)
              (S (length (tpieces t))) partition_id r0) as (r & Hx & Hs & Hq & Hw & Hlen & Hn).
  { exact (w_pieces _ W). }
  { cbn. unfold waiting. pose proof (List.filter_length_le (fun c => negb (input_ready c)) (tpieces t)). lia. }
  cbn in Hx |- *. unfold r0 in Hx. cbn in Hx. rewrite Hx. cbn. apply runs_ret.
  destruct (piece_steps_lift q j tid pending r0 r P Hj Hs HP Hc) as (H1 & H2 & H3).
  exists (pieces_ r), (PieceExec.n_executed_pieces r), (outputs r).
  assert (Hn' : PieceExec.n_executed_pieces r = Z.of_nat (executed (pieces_ r))).
  { unfold r0 in Hn. cbn [pieces_ PieceExec.n_executed_pieces] in Hn. rewrite (w_count _ W) in Hn. lia. }
  split_and!; auto.
  - destruct H3 as [->|[H3 Hlt]]; [apply (w_output _ W) |]. unfold r0 in Hlt. cbn in Hlt.
    pose proof (w_count _ W). split; [now intros | intros; lia].
  - now apply quiet_stuck.
Qed.
(** The events of an attempt. *)
Definition tried_events (tid : Z) (t : txn) : option (list event) :=
  if executed_ t then call_reply partition_id tid t else Some [].

Lemma call_reply_some tid t : tx_wf t -> is_Some (call_reply partition_id tid t).
Proof.
  intros W. unfold call_reply. rewrite (w_local _ W). destruct (reply_callback t) eqn:Er; cbn; eauto.
  now destruct (w_reply _ W).
Qed.

Lemma try_execute_ok q j tid t pending s :
  q !! j = Some (Some tid) -> dtxns_ s !! tid = Some t -> tx_wf t -> executed_ t = false ->
  clear q j pending (tpieces <$> dtxns_ s) ->
  runs (TryExecute conflict exec partition_id tid pending s) (fun '(s', finished, _, pending') =>
    exists t' es db', s' = emit es (put tid t' (s {{ db_ := db' }}))
    /\ tx_wf t' /\ tried t t' /\ finished = executed_ t' /\ tried_events tid t' = Some es
    /\ rtc (queue_step q) (view s) (view s')
    /\ stuck pending (tpieces t') /\ pending' = pending ∪ unexecuted (tpieces t')).
Proof using exec_total.
  intros Hj Ht W Hne Hc. unfold TryExecute. rewrite Ht. cbn [mbind option_bind].
  eapply runs_bind; [apply (run_ready_ok q j tid t pending (tpieces <$> dtxns_ s) (db_ s) Hj W); auto |].
  { now rewrite lookup_fmap, Ht. }
  intros [[[t1 db'] dv] pending'] (ps & n & out & -> & Hs & Hl & Hw & Hn & Ho & Hst & ->).
  assert (Hn1 : n_local_pieces_ (t {{ tpieces := ps; n_executed_pieces := n; dist_output_ := out }})
                = Some (Z.of_nat (length ps))).
  { transitivity (n_local_pieces_ t); [now destruct t |]. now rewrite (w_local _ W), (later_length _ _ Hl). }
  assert (Hv : forall t' es, tpieces t' = ps ->
    rtc (queue_step q) (view s) (view (emit es (put tid t' (s {{ db_ := db' }}))))).
  { intros t' es Hp. unfold view. cbn. rewrite fmap_insert, Hp. exact Hs. }
  rewrite Hn1. cbn [mbind option_bind].
  change (n_executed_pieces (t {{ tpieces := ps; n_executed_pieces := n; dist_output_ := out }})) with n.
  destruct (Z.eqb_spec (Z.of_nat (length ps)) n) as [Hf|Hf].
  - cbv zeta. set (t1 := t {{ tpieces := ps; n_executed_pieces := n; dist_output_ := out }} {{ executed_ := true }}).
    set (t2 := if bool_decide (dist_output_ t1 = ∅) then t1
               else t1 {{ par_output_received_ := <[partition_id := true]> (par_output_received_ t1) }}).
    assert (Eb : bool_decide (dist_output_ t1 = ∅) = bool_decide (ps = [])).
    { apply bool_decide_ext. transitivity (out = ∅); [now destruct t |]. rewrite Ho, <- Hf.
      destruct ps; cbn; [tauto | split; [lia | discriminate]]. }
    assert (Hall : Forall (fun c => local_executed_ c = true) ps) by (apply executed_all; lia).
    assert (Hp2 : tpieces t2 = ps) by (unfold t2; now destruct (bool_decide _)).
    assert (Hx2 : executed_ t2 = true) by (unfold t2; now destruct (bool_decide _)).
    assert (Hr2 : reply_callback t2 = reply_callback t) by (unfold t2; now destruct (bool_decide _), t).
    assert (Hl2 : n_local_pieces_ t2 = n_local_pieces_ t) by (unfold t2; now destruct (bool_decide _), t).
    assert (Hc2 : coord_site_ t2 = coord_site_ t) by (unfold t2; now destruct (bool_decide _), t).
    assert (Hm2 : par_output_received_ t2 = if negb (bool_decide (ps = []))
      then <[partition_id := true]> (par_output_received_ t) else par_output_received_ t)
      by (unfold t2; rewrite Eb; destruct (bool_decide (ps = [])); unfold t1; destruct t; reflexivity).
    assert (W2 : tx_wf t2).
    { assert (Hn2 : n_executed_pieces t2 = n) by (unfold t2; now destruct (bool_decide _), t).
      assert (Ho2 : dist_output_ t2 = out) by (unfold t2; now destruct (bool_decide _), t).
      split; rewrite ?Hp2, ?Hr2, ?Hl2, ?Hn2, ?Ho2; [rewrite (w_local _ W), (later_length _ _ Hl); reflexivity | auto .. | apply (w_reply _ W)]. }
    destruct (call_reply_some tid t2 W2) as [es Hes]. rewrite Hes. cbn [mbind option_bind].
    apply runs_ret. exists t2, es, db'. split_and!; auto.
    + split; rewrite ?Hp2, ?Hx2; auto.
    + unfold tried_events. now rewrite Hx2.
    + now rewrite Hp2.
    + now rewrite Hp2.
  - apply runs_ret. set (t1 := t {{ tpieces := ps; n_executed_pieces := n; dist_output_ := out }}).
    assert (Hx1 : executed_ t1 = false) by (now destruct t).
    exists t1, [], db'. split_and!; auto.
    + split; auto; [intros H; congruence |]. pose proof (w_reply _ W). now destruct t.
    + split; try now destruct t. rewrite Hx1. now destruct t.
    + unfold tried_events. now rewrite Hx1.
Qed.
End Total.
(** ** The scan of the queue *)

Definition entry (q : list (option Z)) (D : gmap Z txn) (k : nat) (tid : Z) (t : txn) : Prop :=
  q !! k = Some (Some tid) /\ D !! tid = Some t.

(** The transactions before position [j] that are not executed. *)
Definition unfinished (D : gmap Z txn) (o : option Z) : bool :=
  match o with
  | Some tid => match D !! tid with Some t => negb (executed_ t) | None => false end
  | None => false
  end.
Definition unfinished_before (q : list (option Z)) (D : gmap Z txn) (j : nat) : nat :=
  length (List.filter (unfinished D) (take j q)).

(** A piece of the transaction at [j] that could run waits for a conflicting piece of an
    earlier transaction. *)
Definition held_back (q : list (option Z)) (D : gmap Z txn) (j : nat) : Prop :=
  forall tid t c, entry q D j tid t -> c ∈ tpieces t -> input_ready c = true -> local_executed_ c = false ->
  exists k tid' t' p, (k < j)%nat /\ entry q D k tid' t' /\ p ∈ tpieces t' /\ local_executed_ p = false
    /\ conflict (inn_id_ p) (inn_id_ c) = true.

Record queue_ok (q : list (option Z)) (D : gmap Z txn) : Prop := {
  q_txns : forall tid t, D !! tid = Some t -> tx_wf t;
  q_known : forall k tid, q !! k = Some (Some tid) -> is_Some (D !! tid);
  q_once : forall k k' tid, q !! k = Some (Some tid) -> q !! k' = Some (Some tid) -> k = k' }.

Definition all_done (q : list (option Z)) (D : gmap Z txn) (n : nat) : Prop :=
  forall k, (k < n)%nat -> exists tid t, entry q D k tid t /\ executed_ t = true.

(** The state of the loop at position [i]. *)
Record scan (q : list (option Z)) (D : gmap Z txn) (next i : nat) (found : Z) (pending : gset Z) : Prop := {
  s_ok : queue_ok q D;
  s_clear : clear q i pending (tpieces <$> D);
  s_pending : forall x, x ∈ pending -> exists k tid t, (k < i)%nat /\ entry q D k tid t /\ x ∈ unexecuted (tpieces t);
  s_held : forall j, (j < i)%nat -> held_back q D j;
  s_found : found = Z.of_nat (unfinished_before q D i);
  s_done : all_done q D next;
  s_next : (next <= i)%nat;
  s_zero : found = 0 -> next = i;
  s_first : found <> 0 -> (next < i)%nat /\ exists tid t, entry q D next tid t /\ executed_ t = false }.

Lemma unfinished_before_S q D i o :
  q !! i = Some o -> unfinished_before q D (S i) = (unfinished_before q D i + if unfinished D o then 1 else 0)%nat.
Proof.
  intros H. unfold unfinished_before. rewrite (take_S_r q i o H), List.filter_app, length_app. cbn.
  now destruct (unfinished D o).
Qed.

Lemma unfinished_before_put q D i tid t' :
  (forall k, (k < i)%nat -> q !! k <> Some (Some tid)) ->
  unfinished_before q (<[tid := t']> D) i = unfinished_before q D i.
Proof.
  intros H. unfold unfinished_before. f_equal. apply filter_ext_Forall, Forall_forall. intros o Ho.
  apply list_elem_of_lookup in Ho as [k Hk]. assert (Hlt : (k < i)%nat) by (apply lookup_lt_Some in Hk; rewrite length_take in Hk; lia).
  rewrite lookup_take_lt in Hk by exact Hlt. destruct o as [tid'|]; [|reflexivity]. cbn.
  rewrite lookup_insert_ne; [reflexivity |]. intros ->. now apply (H k).
Qed.

Lemma stuck_held q D i tid t pending :
  entry q D i tid t -> stuck pending (tpieces t) ->
  (forall x, x ∈ pending -> exists k tid t, (k < i)%nat /\ entry q D k tid t /\ x ∈ unexecuted (tpieces t)) ->
  held_back q D i.
Proof.
  intros [Hq Ht] Hst Hp tid1 t1 c [Hq1 Ht1] Hc Hr He. rewrite Hq in Hq1. injection Hq1 as <-.
  rewrite Ht in Ht1. injection Ht1 as <-. destruct (Hst c Hc Hr He) as (x & Hx & Hcf).
  destruct (Hp x Hx) as (k & tid' & t' & Hk & Hent & (p & Hp1 & Hp2 & <-)%elem_of_unexecuted).
  exists k, tid', t', p. auto.
Qed.

Lemma scan_skip q D next i found pending tid t :
  scan q D next i found pending -> entry q D i tid t -> executed_ t = true ->
  scan q D (if found =? 0 then S next else next) (S i) found pending.
Proof.
  intros [] [Hq Ht] He.
  assert (Hu : unexecuted (tpieces t) = ∅) by (apply unexecuted_none, (w_executed _ (q_txns _ _ s_ok0 _ _ Ht) He)).
  assert (Hf : found = Z.of_nat (unfinished_before q D (S i))).
  { rewrite (unfinished_before_S _ _ _ _ Hq). cbn. rewrite Ht, He. cbn. lia. }
  split; auto.
  - intros k Hk. destruct (decide (k = i)) as [->|Hne]; [|apply s_clear0; lia].
    exists tid, (tpieces t). rewrite lookup_fmap, Ht. split_and!; auto. rewrite Hu. set_solver.
  - intros x Hx. destruct (s_pending0 x Hx) as (k & tid' & t' & Hk & H). exists k, tid', t'. split; [lia | exact H].
  - intros j Hj. destruct (decide (j = i)) as [->|Hne]; [|apply s_held0; lia].
    intros tid1 t1 c [Hq1 Ht1] Hc _ Hx. rewrite Hq in Hq1. injection Hq1 as <-. rewrite Ht in Ht1. injection Ht1 as <-.
    pose proof (w_executed _ (q_txns _ _ s_ok0 _ _ Ht) He) as Hall. rewrite Forall_forall in Hall.
    rewrite Hall in Hx by exact Hc. discriminate.
  - destruct (Z.eqb_spec found 0) as [H0|H0]; [|exact s_done0]. specialize (s_zero0 H0) as ->.
    intros k Hk. destruct (decide (k = i)) as [->|Hne]; [exists tid, t; split; [split|]; auto | apply s_done0; lia].
  - destruct (Z.eqb_spec found 0) as [H0|H0]; [specialize (s_zero0 H0); lia | lia].
  - intros H0. rewrite H0. cbn. now rewrite s_zero0.
  - intros H0. destruct (Z.eqb_spec found 0); [done |]. destruct (s_first0 H0). split; [lia | auto].
Qed.
Lemma entry_put q D i tid t' k tid1 t1 :
  (forall k, q !! k = Some (Some tid) -> k = i) -> k <> i ->
  entry q (<[tid := t']> D) k tid1 t1 <-> entry q D k tid1 t1.
Proof.
  intros Hi Hk. unfold entry. split; intros [Hq Ht]; split; auto;
    (assert (tid1 <> tid) by (intros ->; now apply Hk, Hi)); [rewrite lookup_insert_ne in Ht by auto | rewrite lookup_insert_ne by auto]; exact Ht.
Qed.

Lemma queue_ok_put q D tid t' : queue_ok q D -> tx_wf t' -> queue_ok q (<[tid := t']> D).
Proof.
  intros [K1 K2 K3] W. split; [|intros k tid1 Hq |exact K3].
  - intros tid1 t1. destruct (decide (tid1 = tid)) as [->|Hne];
      [rewrite lookup_insert_eq; now intros [= <-] | rewrite lookup_insert_ne by auto; apply K1].
  - apply lookup_insert_is_Some'. right. now apply (K2 k).
Qed.

Lemma scan_try q D next i found pending tid t t' :
  scan q D next i found pending -> entry q D i tid t -> executed_ t = false ->
  tx_wf t' -> tried t t' -> stuck pending (tpieces t') ->
  scan q (<[tid := t']> D) (if executed_ t' && (found =? 0) then S next else next) (S i)
    (if executed_ t' then found else found + 1) (pending ∪ unexecuted (tpieces t')).
Proof.
  intros [] [Hq Ht] He W [] Hst. pose proof (q_once _ _ s_ok0) as Honce.
  assert (Hi : forall k, q !! k = Some (Some tid) -> k = i) by (intros k Hk; eapply Honce; eauto).
  pose proof (fun k tid1 t1 => entry_put q D i tid t' k tid1 t1 Hi) as Hput.
  assert (Hself : entry q (<[tid := t']> D) i tid t') by (split; [exact Hq | apply lookup_insert_eq]).
  assert (Hf : unfinished_before q (<[tid := t']> D) (S i)
               = (unfinished_before q D i + if executed_ t' then 0 else 1)%nat).
  { rewrite (unfinished_before_S _ _ _ _ Hq), unfinished_before_put.
    - cbn. rewrite lookup_insert_eq. now destruct (executed_ t').
    - intros k Hk Hq'. specialize (Hi k Hq'). lia. }
  assert (Hdone : all_done q (<[tid := t']> D) next).
  { intros k Hk. destruct (s_done0 k Hk) as (tid1 & t1 & Hent & H1). exists tid1, t1. rewrite Hput by lia. auto. }
  assert (Hpend : forall x, x ∈ pending -> exists k tid1 t1, (k < i)%nat /\ entry q (<[tid := t']> D) k tid1 t1
                    /\ x ∈ unexecuted (tpieces t1)).
  { intros x Hx. destruct (s_pending0 x Hx) as (k & tid1 & t1 & Hk & Hent & Hu). exists k, tid1, t1.
    rewrite Hput by lia. auto. }
  split.
  - now apply queue_ok_put.
  - rewrite fmap_insert. intros k Hk. destruct (decide (k = i)) as [->|Hne].
    + exists tid, (tpieces t'). rewrite lookup_insert_eq. split_and!; auto. set_solver.
    + destruct (clear_later q i pending (tpieces <$> D) tid (tpieces t) (tpieces t') s_clear0) with (k := k)
        as (tid1 & ps1 & H1 & H2 & H3); [now rewrite lookup_fmap, Ht | exact a_later0 | lia |].
      exists tid1, ps1. split_and!; auto. set_solver.
  - intros x [Hx|Hx]%elem_of_union.
    + destruct (Hpend x Hx) as (k & tid1 & t1 & Hk & H). exists k, tid1, t1. split; [lia | exact H].
    + exists i, tid, t'. auto.
  - intros j Hj. destruct (decide (j = i)) as [->|Hne]; [exact (stuck_held _ _ _ _ _ _ Hself Hst Hpend) |].
    intros tid1 t1 c Hent. rewrite Hput in Hent by lia. intros Hc Hr Hx.
    destruct (s_held0 j ltac:(lia) tid1 t1 c Hent Hc Hr Hx) as (k & tid2 & t2 & p & Hk & Hent2 & H).
    exists k, tid2, t2, p. rewrite Hput by lia. auto.
  - destruct (executed_ t'); lia.
  - destruct (executed_ t') eqn:Ex, (Z.eqb_spec found 0) as [H0|H0]; cbn; auto.
    specialize (s_zero0 H0) as ->. intros k Hk. destruct (decide (k = i)) as [->|Hne]; [eauto | apply Hdone; lia].
  - destruct (executed_ t'), (Z.eqb_spec found 0) as [H0|H0]; cbn; lia.
  - destruct (executed_ t'); [|lia]. intros H0. rewrite H0. cbn. now rewrite s_zero0.
  - assert (Hfirst : found <> 0 -> (next < S i)%nat /\ exists tid1 t1, entry q (<[tid := t']> D) next tid1 t1
                       /\ executed_ t1 = false).
    { intros H0. destruct (s_first0 H0) as (Hlt & tid1 & t1 & Hent & H1). split; [lia |]. exists tid1, t1.
      rewrite Hput by lia. auto. }
    destruct (executed_ t') eqn:Ex; cbn.
    + intros H0. destruct (Z.eqb_spec found 0); [done | auto].
    + intros _. destruct (Z.eq_dec found 0) as [H0|H0]; [|auto]. rewrite (s_zero0 H0). split; [lia | eauto].
Qed.
(** The attempts that a scan makes, with what they send. *)
Inductive attempt : gmap Z txn * list event -> gmap Z txn * list event -> Prop :=
  | attempted D evs tid t t' es dv :
      D !! tid = Some t -> executed_ t = false -> tx_wf t -> tx_wf t' -> tried t t' ->
      tried_events tid t' = Some es ->
      attempt (D, evs) (<[tid := t']> D, evs ++ es ++ dependent_values partition_id tid dv).

(** What a scan from [s] to [s'] has done. *)
Record scanned (s s' : @sched E) : Prop := {
  n_queue : txn_queue_ s' = txn_queue_ s;
  n_log : txn_log_ s' = txn_log_ s;
  n_notify : next_notify_index_ s' = next_notify_index_ s;
  n_pending : pending_dep_values_ s' = pending_dep_values_ s;
  n_barriers : barrier_indices_ s' = barrier_indices_ s;
  n_steps : rtc (queue_step (txn_queue_ s)) (view s) (view s');
  n_attempts : rtc attempt (dtxns_ s, events_ s) (dtxns_ s', events_ s') }.

(** The state after a scan: the index is that of the first transaction that is not executed,
    and the pieces that the scan came to and that are ready are held back by conflicts. *)
Record rested (s : @sched E) : Prop := {
  r_ok : queue_ok (txn_queue_ s) (dtxns_ s);
  r_done : all_done (txn_queue_ s) (dtxns_ s) (next_execute_index_ s);
  r_next : (next_execute_index_ s <= length (txn_queue_ s))%nat;
  r_first : forall tid t, entry (txn_queue_ s) (dtxns_ s) (next_execute_index_ s) tid t -> executed_ t = false;
  r_held : forall j, (forall k, (k <= j)%nat -> exists tid, txn_queue_ s !! k = Some (Some tid)) ->
    Z.of_nat (unfinished_before (txn_queue_ s) (dtxns_ s) j) <= max_pending_txns_ ->
    held_back (txn_queue_ s) (dtxns_ s) j }.

Lemma scanned_refl s : scanned s s.
Proof. split; auto using rtc_refl. Qed.

Lemma scanned_trans s1 s2 s3 : scanned s1 s2 -> scanned s2 s3 -> scanned s1 s3.
Proof.
  intros [] []. split; try congruence; [|etransitivity; eauto].
  rewrite n_queue0 in n_steps1. etransitivity; eauto.
Qed.

(** A scan that stopped at [i]: at the end, at a transaction that was not received, or at
    the bound of unfinished transactions. *)
Lemma scan_rested s i found pending :
  scan (txn_queue_ s) (dtxns_ s) (next_execute_index_ s) i found pending ->
  (i <= length (txn_queue_ s))%nat ->
  (forall tid, txn_queue_ s !! i <> Some (Some tid)) \/ max_pending_txns_ < found ->
  rested s.
Proof.
  intros [] Hi Hstop. split; auto.
  - lia.
  - intros tid t Hent. destruct (Z.eq_dec found 0) as [H0|H0].
    + rewrite (s_zero0 H0) in Hent. destruct Hstop as [Hn|Hlt]; [|unfold max_pending_txns_ in Hlt; lia].
      destruct Hent as [Hq _]. now destruct (Hn tid).
    + destruct (s_first0 H0) as (_ & tid1 & t1 & [Hq1 Ht1] & H1). destruct Hent as [Hq Ht]. congruence.
  - intros j Hj Hb. destruct (decide (j < i)%nat) as [Hlt|Hge]; [now apply s_held0 |]. exfalso.
    destruct Hstop as [Hn|Hlt].
    + destruct (Hj i ltac:(lia)) as [tid Hq]. now apply (Hn tid).
    + assert (Hmono : (unfinished_before (txn_queue_ s) (dtxns_ s) i <= unfinished_before (txn_queue_ s) (dtxns_ s) j)%nat).
      { unfold unfinished_before. replace (take i (txn_queue_ s)) with (take i (take j (txn_queue_ s)))
          by (rewrite take_take; f_equal; lia).
        rewrite <- (take_drop i (take j (txn_queue_ s))) at 2. rewrite List.filter_app, length_app. lia. }
      lia.
Qed.

Lemma scan_eq q D next next' i found found' pending pending' :
  scan q D next i found pending -> next = next' -> found = found' -> pending = pending' ->
  scan q D next' i found' pending'.
Proof. intros H -> -> ->. exact H. Qed.

Section Scan.
Hypothesis exec_total : forall tid c e, is_Some (exec tid c e).

Lemma exec_queue_ok n : forall i found pending s,
  scan (txn_queue_ s) (dtxns_ s) (next_execute_index_ s) i found pending ->
  (i + n = length (txn_queue_ s))%nat -> 
  runs (exec_queue conflict exec partition_id (seq i n) found pending s)
    (fun s' => scanned s s' /\ rested s').
Proof using exec_total.
  induction n as [|n IH]; intros i found pending s Hs Hn; cbn [seq exec_queue].
  - apply runs_ret. split; [apply scanned_refl |]. apply (scan_rested s i found pending Hs); [lia |].
    left. intros tid Hq. apply lookup_lt_Some in Hq. lia.
  - destruct (lookup_lt_is_Some_2 (txn_queue_ s) i ltac:(lia)) as [[tid|] Hq]; rewrite Hq; cbn [mbind option_bind].
    2: { apply runs_ret. split; [apply scanned_refl |]. apply (scan_rested s i found pending Hs); [lia |].
         left. intros tid. congruence. }
    destruct (q_known _ _ (s_ok _ _ _ _ _ _ Hs) _ _ Hq) as [t Ht]. rewrite Ht. cbn [mbind option_bind].
    pose proof (q_txns _ _ (s_ok _ _ _ _ _ _ Hs) _ _ Ht) as W.
    assert (Hent : entry (txn_queue_ s) (dtxns_ s) i tid t) by (split; auto).
    destruct (executed_ t) eqn:Ex.
    + pose proof (scan_skip _ _ _ _ _ _ _ _ Hs Hent Ex) as Hs'.
      set (s1 := if found =? 0 then _ else s).
      assert (Hq1 : txn_queue_ s1 = txn_queue_ s) by (unfold s1; now destruct (found =? 0)).
      destruct (IH (S i) found pending s1) as (s' & Hx & Hsc & Hr).
      * unfold s1. destruct (found =? 0); exact Hs'.
      * rewrite Hq1. lia.
      * exists s'. split; [exact Hx |]. split; [|exact Hr]. eapply scanned_trans; [|exact Hsc].
        unfold s1. destruct (found =? 0); split; auto using rtc_refl.
    + eapply runs_bind; [apply (try_execute_ok exec_total (txn_queue_ s) i tid t pending s); auto; apply (s_clear _ _ _ _ _ _ Hs) |].
      intros [[[s1 finished] dv] pending'] (t' & es & db' & -> & W' & Htr & -> & Hes & Hst & Hstuck & ->).
      pose proof (scan_try _ _ _ _ _ _ _ _ _ Hs Hent Ex W' Htr Hstuck) as Hs'.
      set (s1 := emit es (put tid t' (s {{ db_ := db' }}))) in *.
      set (s2 := emit (dependent_values partition_id tid dv) s1).
      assert (H12 : scanned s s2).
      { split; auto. cbn. apply rtc_once. rewrite <- app_assoc. now apply (attempted _ _ tid t t' es dv). }
      destruct (executed_ t') eqn:Ex'.
      * set (s3 := if found =? 0 then s2 {{ next_execute_index_ := S (next_execute_index_ s2) }} else s2).
        assert (Hq3 : txn_queue_ s3 = txn_queue_ s) by (unfold s3; now destruct (found =? 0)).
        destruct (IH (S i) found (pending ∪ unexecuted (tpieces t')) s3) as (s' & Hx & Hsc & Hr).
        -- unfold s3. cbn [andb] in Hs'. destruct (found =? 0); exact Hs'.
        -- rewrite Hq3. lia.
        -- exists s'. split; [exact Hx |]. split; [|exact Hr]. eapply scanned_trans; [exact H12 |].
           eapply scanned_trans; [|exact Hsc]. unfold s3. destruct (found =? 0); split; auto using rtc_refl.
      * destruct (Z.ltb_spec max_pending_txns_ (found + 1)) as [Hb|Hb].
        -- apply runs_ret. split; [exact H12 |]. apply (scan_rested s2 (S i) _ _ Hs'); [change (txn_queue_ s2) with (txn_queue_ s); lia | auto].
        -- destruct (IH (S i) (found + 1) (pending ∪ unexecuted (tpieces t')) s2) as (s' & Hx & Hsc & Hr);
             [exact Hs' | change (txn_queue_ s2) with (txn_queue_ s); lia |].
           exists s'. split; [exact Hx |]. split; [eapply scanned_trans; eauto | exact Hr].
Qed.
End Scan.
(** ** The scheduler between handlers *)
Record sched_ok (s : @sched E) : Prop := {
  o_queue : queue_ok (txn_queue_ s) (dtxns_ s);
  o_done : all_done (txn_queue_ s) (dtxns_ s) (next_execute_index_ s);
  o_next : (next_execute_index_ s <= length (txn_queue_ s))%nat }.

Lemma rested_ok s : rested s -> sched_ok s.
Proof. intros []. now split. Qed.

Lemma scan_start s :
  sched_ok s -> scan (txn_queue_ s) (dtxns_ s) (next_execute_index_ s) (next_execute_index_ s) 0 ∅.
Proof.
  intros [Hq Hd Hn].
  assert (Hall : forall k, (k < next_execute_index_ s)%nat -> exists tid t, entry (txn_queue_ s) (dtxns_ s) k tid t
    /\ executed_ t = true /\ Forall (fun c => local_executed_ c = true) (tpieces t)).
  { intros k Hk. destruct (Hd k Hk) as (tid & t & [H1 H2] & He). exists tid, t. split_and!; auto; [now split |].
    apply (w_executed _ (q_txns _ _ Hq _ _ H2) He). }
  split; auto; try lia.
  - intros k Hk. destruct (Hall k Hk) as (tid & t & [H1 H2] & _ & Hx). exists tid, (tpieces t).
    rewrite lookup_fmap, H2. split_and!; auto. now rewrite unexecuted_none.
  - intros x []%not_elem_of_empty.
  - intros j Hj tid t c [Hq1 Ht1] Hc _ Hx. destruct (Hall j Hj) as (tid' & t' & [H1 H2] & _ & Hxx).
    rewrite Hq1 in H1. injection H1 as <-. rewrite Ht1 in H2. injection H2 as <-.
    rewrite Forall_forall in Hxx. rewrite Hxx in Hx by exact Hc. discriminate.
  - unfold unfinished_before. rewrite filter_none; [reflexivity |]. apply Forall_forall. intros o Ho.
    apply list_elem_of_lookup in Ho as [k Hk]. assert (Hlt : (k < next_execute_index_ s)%nat)
      by (apply lookup_lt_Some in Hk; rewrite length_take in Hk; lia).
    rewrite lookup_take_lt in Hk by exact Hlt. destruct (Hall k Hlt) as (tid & t & [H1 H2] & He & _).
    rewrite Hk in H1. injection H1 as ->. cbn. now rewrite H2, He.
Qed.

Section Queue.
Hypothesis exec_total : forall tid c e, is_Some (exec tid c e).

Lemma exec_txn_queue_ok s :
  sched_ok s -> runs (ExecTxnQueue conflict exec partition_id s) (fun s' => scanned s s' /\ rested s').
Proof using exec_total.
  intros Hs. unfold ExecTxnQueue. apply (exec_queue_ok exec_total); [now apply scan_start |].
  pose proof (o_next _ Hs). lia.
Qed.

(** C7. [ExecTxnQueue] returns and runs pieces one at a time, each with all its inputs and only
    when no piece of an earlier transaction of the queue that is not executed conflicts with
    it.  Afterwards [next_execute_index_] is the position of the first transaction that is not
    executed, and every piece that is ready, of a transaction with at most five unfinished
    ones before it, is held back by a conflicting piece of an earlier transaction. *)
Theorem queue_runs_in_order s :
  sched_ok s ->
  runs (ExecTxnQueue conflict exec partition_id s) (fun s' =>
    rtc (queue_step (txn_queue_ s)) (view s) (view s') /\ txn_queue_ s' = txn_queue_ s /\ rested s').
Proof using exec_total.
  intros Hs. eapply runs_mono; [now apply exec_txn_queue_ok |]. intros s' [[] Hr]. auto.
Qed.
End Queue.
End Exec.
End SlogExec.
