(* ===== verification/SlogSite.v ===== *)
(** * The handlers of a Slog site

    What every handler of [SchedulerSlog] (deptran/slog/scheduler.cc) keeps: the queue and
    the transactions fit together, no check fails, and a coordinator answers its client once
    and only when the outputs of all partitions are there. *)

From Stdlib Require Import ZArith Lia.
From stdpp Require Import base list option gmap sets relations sorting.
From coqutil Require Import Datatypes.RecordSetters.
From S2P Require Import Prelude ALock MemSchema PieceExec RccTxn SlogOrder SlogSched SlogExec.
Import DoubleBraceUpdate.
Local Open Scope Z_scope.

Module SlogSite.
Import SlogOrder SlogSched SlogExec.

(** ** Answers to clients *)
Definition is_reply (tid : Z) (e : event) : bool :=
  match e with ReplyClient tid' => tid' =? tid | _ => false end.
Definition replies (tid : Z) (evs : list event) : nat := length (List.filter (is_reply tid) evs).

Lemma site_replies_app tid e1 e2 : replies tid (e1 ++ e2) = (replies tid e1 + replies tid e2)%nat.
Proof. unfold replies. now rewrite List.filter_app, length_app. Qed.

(** The client of a transaction has its answer when all outputs are there. *)
Definition answered (t : txn) : bool := bool_decide (reply_callback t = ToClient) && all_received t.
Definition b2n (b : bool) : nat := if b then 1 else 0.

Lemma call_reply_replies par tid t es tid' :
  call_reply par tid t = Some es -> replies tid' es = b2n ((tid =? tid') && answered t).
Proof.
  unfold call_reply, answered. destruct (reply_callback t); cbn.
  - discriminate.
  - intros [= <-]. destruct (all_received t), (tid =? tid') eqn:E; cbn; rewrite ?E; reflexivity.
  - intros [= <-]. now rewrite andb_false_r.
  - destruct (n_local_pieces_ t) as [n|]; [|discriminate]. cbn. intros [= <-]. rewrite andb_false_r.
    now destruct (_ && _).
Qed.

Lemma dependent_replies par tid dv tid' : replies tid' (dependent_values par tid dv) = 0%nat.
Proof.
  unfold dependent_values, replies. rewrite filter_none; [reflexivity |]. apply Forall_fmap, Forall_true. reflexivity.
Qed.

Lemma all_received_false t par : par_output_received_ t !! par = Some false -> all_received t = false.
Proof.
  intros H. unfold all_received. apply not_true_iff_false. rewrite forallb_forall. intros Hall.
  specialize (Hall (par, false)). discriminate Hall. apply list_elem_of_In, elem_of_map_to_list, H.
Qed.

(** A transaction, as far as executions leave it alone. *)
Abbreviation tx_ident := (Z * reply_t * list Z * gset Z)%type.

Section Site.
Context {E : Type} (conflict : Z -> Z -> bool)
  (exec : Z -> SimpleCommand -> E -> option (E * output_map)).
Context (site_id partition_id shards_per_region : Z).

(** A transaction and the answers to its client. *)
Definition reply_ok (evs : list event) (tid : Z) (o : option txn) : Prop :=
  match o with
  | Some t => replies tid evs = b2n (answered t)
      /\ (reply_callback t = ToClient ->
            par_output_received_ t !! partition_id = Some (executed_ t) /\ tpieces t <> [])
  | None => replies tid evs = 0%nat
  end.

Definition replies_ok (D : gmap Z txn) (evs : list event) : Prop := forall tid, reply_ok evs tid (D !! tid).

Lemma attempt_replies D evs D' evs' :
  attempt partition_id (D, evs) (D', evs') -> replies_ok D evs -> replies_ok D' evs'.
Proof.
  intros Ha Hr. inversion_clear Ha as [? ? tid t t' es dv Ht He W W' Htr Hes]. intros tid'.
  pose proof (Hr tid) as Hr0. rewrite Ht in Hr0. destruct Hr0 as [Hn0 Hc0]. destruct Htr as [_ A2 _ A4 A5].
  assert (Hfalse : answered t = false).
  { unfold answered. destruct (bool_decide (reply_callback t = ToClient)) eqn:Hb; [|reflexivity].
    apply bool_decide_eq_true in Hb. destruct (Hc0 Hb) as [Hp _]. rewrite He in Hp.
    now rewrite (all_received_false _ _ Hp). }
  assert (Hes' : replies tid' es = b2n ((tid =? tid') && (executed_ t' && answered t'))).
  { unfold tried_events in Hes. destruct (executed_ t'); cbn.
    - now apply (call_reply_replies partition_id).
    - injection Hes as <-. now rewrite andb_false_r. }
  assert (Hne : tpieces t <> [] -> tpieces t' <> []).
  { intros Hn Hn'. apply Hn. rewrite Hn' in A4. now inversion A4. }
  destruct (decide (tid' = tid)) as [->|Hd].
  - rewrite lookup_insert_eq. cbn. rewrite !site_replies_app, dependent_replies, Hes', Hn0, Hfalse, Z.eqb_refl. cbn.
    rewrite Nat.add_0_r. split.
    + destruct (executed_ t') eqn:Ex; [reflexivity |]. cbn. unfold answered, all_received in *.
      rewrite A5, A2. cbn. now rewrite Hfalse.
    + rewrite A2. intros Hb. destruct (Hc0 Hb) as [Hp Hn]. split; [|now apply Hne]. rewrite A5.
      rewrite bool_decide_false by now apply Hne. cbn. rewrite andb_true_r.
      destruct (executed_ t'); [apply lookup_insert_eq | congruence].
  - rewrite lookup_insert_ne by auto. specialize (Hr tid'). revert Hr. unfold reply_ok.
    rewrite !site_replies_app, dependent_replies, Hes'. destruct (Z.eqb_spec tid tid'); [congruence |]. cbn.
    now rewrite !Nat.add_0_r.
Qed.

Lemma attempts_replies x y :
  rtc (attempt partition_id) x y -> replies_ok x.1 x.2 -> replies_ok y.1 y.2.
Proof.
  induction 1 as [x|[D evs] [D1 evs1] y Ha _ IH]; [auto |]. intros H. apply IH. cbn in *.
  eapply attempt_replies; eauto.
Qed.

(** ** What the execution keeps of a transaction

    Its coordinator, its callback, the numbers of its pieces and, at the coordinator, the
    partitions whose outputs it waits for. *)
Definition ident (t : txn) : tx_ident :=
  (coord_site_ t, reply_callback t, inn_id_ <$> tpieces t,
   if bool_decide (reply_callback t = ToClient) then dom (par_output_received_ t) else ∅).
Definition idents (s : @sched E) : gmap Z tx_ident := ident <$> dtxns_ s.

Lemma later_ids ps ps' : later ps ps' -> inn_id_ <$> ps' = inn_id_ <$> ps.
Proof. induction 1 as [|c c' ps ps' [Hi _] _ IH]; cbn; [reflexivity |]. now rewrite Hi, <- IH. Qed.

Lemma attempts_idents x y :
  rtc (attempt partition_id) x y -> replies_ok x.1 x.2 -> ident <$> y.1 = ident <$> x.1.
Proof.
  induction 1 as [x|[D evs] [D1 evs1] y Ha _ IH]; [auto |]. intros Hr.
  rewrite IH by (eapply attempt_replies; eauto). cbn.
  inversion_clear Ha as [? ? tid t t' es dv Ht He W W' Htr Hes]. rewrite fmap_insert. apply insert_id.
  rewrite lookup_fmap, Ht. cbn. unfold ident. destruct Htr as [A1 A2 _ A4 A5]. rewrite A1, A2, (later_ids _ _ A4).
  do 2 f_equal. destruct (bool_decide (reply_callback t = ToClient)) eqn:Eb; [|reflexivity].
  apply bool_decide_eq_true in Eb. specialize (Hr tid). cbn in Hr. rewrite Ht in Hr. destruct Hr as [_ Hr].
  destruct (Hr Eb) as [Hp _]. rewrite A5. destruct (_ && _); [|reflexivity].
  rewrite dom_insert_L. apply elem_of_dom_2 in Hp. set_solver.
Qed.

(** The events of an execution: an output goes to the coordinator of a transaction with
    pieces on this site. *)
Definition sound_event (m : gmap Z tx_ident) (e : event) : Prop :=
  match e with
  | SendTxnOutput coord par tid _ =>
      par = partition_id /\ exists ids ps, m !! tid = Some (coord, ToCoord, ids, ps) /\ ids <> []
  | SendToRegionManager _ _ _ | SendToRaft _ _ => False
  | _ => True
  end.

Lemma call_reply_sound (D : gmap Z txn) tid t es :
  D !! tid = Some t -> tx_wf t -> call_reply partition_id tid t = Some es ->
  Forall (sound_event (ident <$> D)) es.
Proof.
  intros Ht W. unfold call_reply. destruct (reply_callback t) eqn:Er; cbn.
  - discriminate.
  - intros [= <-]. destruct (all_received t); repeat constructor.
  - intros [= <-]. constructor.
  - rewrite (w_local _ W). cbn. intros [= <-]. destruct (_ && _) eqn:Eb; [|constructor].
    constructor; [|constructor]. split; [reflexivity |]. rewrite lookup_fmap, Ht. cbn. unfold ident. rewrite Er. cbn.
    eexists _, _. split; [reflexivity |]. apply andb_prop in Eb as [Eb _]. destruct (tpieces t); [discriminate Eb | discriminate].
Qed.

Lemma attempts_sound x y :
  rtc (attempt partition_id) x y -> replies_ok x.1 x.2 ->
  exists new, y.2 = x.2 ++ new /\ Forall (sound_event (ident <$> x.1)) new.
Proof.
  induction 1 as [x|[D evs] [D1 evs1] y Ha Hys IH]; intros Hr.
  - exists []. rewrite app_nil_r. split; [reflexivity | constructor].
  - cbn in Hr. pose proof (attempt_replies _ _ _ _ Ha Hr) as Hr1. destruct (IH Hr1) as (new & Hy & Hn). cbn in *.
    pose proof (attempts_idents (D, evs) (D1, evs1) (rtc_once _ _ Ha) Hr) as Hid. cbn in Hid.
    inversion Ha as [D0 evs0 tid t t' es dv Ht He W W' Htr Hes]; subst.
    exists (es ++ dependent_values partition_id tid dv ++ new). rewrite Hy, Hid in *. split; [now rewrite <- !app_assoc |].
    apply Forall_app. split; [|apply Forall_app; split; [|exact Hn]].
    + unfold tried_events in Hes. destruct (executed_ t'); [|injection Hes as <-; constructor].
      rewrite <- Hid. eapply call_reply_sound; eauto. apply lookup_insert_eq.
    + apply Forall_fmap, Forall_true. intros; exact I.
Qed.

(** The handler appended events that are sound. *)
Definition emits (s s' : @sched E) : Prop :=
  exists new, events_ s' = events_ s ++ new /\ Forall (sound_event (idents s')) new.

Lemma emits_refl s s' : events_ s' = events_ s -> emits s s'.
Proof. intros H. exists []. rewrite app_nil_r. split; [exact H | constructor]. Qed.

Lemma emits_trans s1 s2 s3 : idents s3 = idents s2 -> emits s1 s2 -> emits s2 s3 -> emits s1 s3.
Proof.
  intros Hi (n1 & H1 & H2) (n2 & H3 & H4). exists (n1 ++ n2). rewrite H3, H1, app_assoc. split; [reflexivity |].
  apply Forall_app. split; [now rewrite Hi | exact H4].
Qed.

Record site_inv (s : @sched E) : Prop := {
  i_ok : sched_ok s;
  i_replies : replies_ok (dtxns_ s) (events_ s) }.

Definition kept (s s' : @sched E) : Prop := txn_queue_ s' = txn_queue_ s /\ idents s' = idents s.

Lemma site_init_inv db : site_inv (sched_init db 0).
Proof.
  split; [split; cbn; [split; cbn | |] |].
  - intros tid t. now rewrite lookup_empty.
  - intros k tid. now rewrite lookup_nil.
  - intros k k' tid. now rewrite lookup_nil.
  - intros k Hk. lia.
  - lia.
  - intros tid. cbn. now rewrite lookup_empty.
Qed.

Section Handlers.
Hypothesis exec_total : forall tid c e, is_Some (exec tid c e).

Lemma exec_inv s :
  site_inv s -> runs (ExecTxnQueue conflict exec partition_id s) (fun s' =>
    site_inv s' /\ kept s s' /\ pending_dep_values_ s' = pending_dep_values_ s /\ emits s s').
Proof using exec_total.
  intros [Hok Hr]. eapply runs_mono; [now apply (exec_txn_queue_ok conflict exec partition_id exec_total) |].
  intros s' [[] Hrest]. pose proof (attempts_idents _ _ n_attempts0 Hr) as Hid.
  destruct (attempts_sound _ _ n_attempts0 Hr) as (new & Hnew & Hs). split_and!; auto.
  - split; [now apply rested_ok with (conflict := conflict) |]. apply (attempts_replies _ _ n_attempts0 Hr).
  - now split.
  - exists new. split; [exact Hnew |]. unfold idents. cbn in Hid. now rewrite Hid.
Qed.
End Handlers.
(** A transaction that only got other pieces, with the same numbers and marks. *)
Lemma merged_wf out t :
  tx_wf t -> let t' := t {{ tpieces := (MergeCheckReadyPieces out (tpieces t)).1 }} in tx_wf t'.
Proof using exec.
  intros W t'. pose proof (merge_check_result (exec 0) (fun _ => true) out (tpieces t)) as Hm.
  pose proof (merge_check_wf (exec 0) (fun _ => true) out (tpieces t) (w_pieces _ W)) as Hw.
  pose proof (executed_merged _ _ _ Hm) as He. pose proof (later_length _ _ (later_merge exec out (tpieces t))) as Hl.
  set (ps := (MergeCheckReadyPieces out (tpieces t)).1) in *.
  assert (H : n_local_pieces_ t' = n_local_pieces_ t /\ n_executed_pieces t' = n_executed_pieces t
    /\ executed_ t' = executed_ t /\ dist_output_ t' = dist_output_ t /\ reply_callback t' = reply_callback t
    /\ tpieces t' = ps) by (unfold t'; now destruct t).
  destruct H as (H1 & H2 & H3 & H4 & H5 & H6). clearbody t' ps. destruct W.
  split; rewrite ?H1, ?H2, ?H3, ?H4, ?H5, ?H6; auto.
  - now rewrite w_local, Hl.
  - now rewrite He.
  - intros Hx. apply executed_all. rewrite He, Hl. now apply executed_all, w_executed.
Qed.

Lemma put_same_inv tid t t' s :
  site_inv s -> dtxns_ s !! tid = Some t -> tx_wf t' -> ident t' = ident t ->
  executed_ t' = executed_ t -> par_output_received_ t' = par_output_received_ t ->
  site_inv (put tid t' s) /\ kept s (put tid t' s).
Proof.
  intros [[Hq Hd Hn] Hr] Ht W Hi He Hp. pose proof Hi as Hi'. injection Hi as H1 H2 H3 H4.
  split; [split; [split |] | split; [reflexivity |]].
  - now apply queue_ok_put.
  - intros k Hk. destruct (Hd k Hk) as (tid1 & t1 & [Hq1 Ht1] & Hx). cbn.
    destruct (decide (tid1 = tid)) as [->|Hne].
    + exists tid, t'. rewrite Ht in Ht1. injection Ht1 as <-. split; [split; [exact Hq1 | apply lookup_insert_eq] | congruence].
    + exists tid1, t1. split; [split; [exact Hq1 | now rewrite lookup_insert_ne] | exact Hx].
  - exact Hn.
  - intros tid1. cbn. destruct (decide (tid1 = tid)) as [->|Hne]; [|rewrite lookup_insert_ne by auto; apply Hr].
    rewrite lookup_insert_eq. specialize (Hr tid). rewrite Ht in Hr. cbn in *. destruct Hr as [Hr1 Hr2].
    unfold answered, all_received in *. rewrite H2, Hp, He. split; [exact Hr1 |]. intros Hc.
    destruct (Hr2 Hc) as [Hr3 Hr4]. split; [exact Hr3 |]. intros Hn'. apply Hr4. rewrite Hn' in H3. cbn in H3.
    now destruct (tpieces t).
  - unfold idents. cbn. rewrite fmap_insert. apply insert_id. rewrite lookup_fmap, Ht. cbn. now rewrite Hi'.
Qed.

Lemma merge_inv tid vars s :
  site_inv s -> is_Some (dtxns_ s !! tid) ->
  runs (merge_values tid vars s) (fun '(s', _) =>
    site_inv s' /\ kept s s' /\ pending_dep_values_ s' = pending_dep_values_ s /\ events_ s' = events_ s).
Proof using exec.
  intros Hs [t Ht]. unfold merge_values. rewrite Ht. cbn [mbind option_bind].
  pose proof (merged_wf vars t (q_txns _ _ (o_queue _ (i_ok _ Hs)) _ _ Ht)) as W. cbv zeta in W.
  pose proof (later_ids _ _ (later_merge exec vars (tpieces t))) as Hids.
  destruct (MergeCheckReadyPieces vars (tpieces t)) as [ps more]. cbn [fst] in *. apply runs_ret.
  set (t' := t {{ tpieces := ps }}) in *.
  destruct (put_same_inv tid t t' s Hs Ht W) as [H1 H2]; try now destruct t.
  transitivity (coord_site_ t, reply_callback t, inn_id_ <$> ps,
    if bool_decide (reply_callback t = ToClient) then dom (par_output_received_ t) else ∅);
    [now destruct t | unfold ident; now rewrite Hids].
Qed.

Lemma kept_trans s1 s2 s3 : kept s1 s2 -> kept s2 s3 -> kept s1 s3.
Proof. intros [] []. split; congruence. Qed.

Lemma check_pending_inv vs : forall s,
  site_inv s ->
  runs (check_pending vs s) (fun '(s', rest, _) => site_inv s' /\ kept s s' /\ events_ s' = events_ s
    /\ rest = List.filter (fun v => negb (bool_decide (is_Some (idents s !! v.1)))) vs).
Proof using exec.
  induction vs as [|[tid vars] vs IH]; intros s Hs; cbn [check_pending].
  - apply runs_ret. split_and!; [exact Hs | split; reflexivity | reflexivity | reflexivity].
  - assert (Hb : bool_decide (is_Some (idents s !! tid)) = bool_decide (is_Some (dtxns_ s !! tid))).
    { apply bool_decide_ext. unfold idents. rewrite lookup_fmap. apply fmap_is_Some. }
    cbn [List.filter fst]. rewrite Hb. destruct (decide (is_Some (dtxns_ s !! tid))) as [Hd|Hd].
    + rewrite bool_decide_true by exact Hd. cbn [negb]. eapply runs_bind; [apply (merge_inv tid vars s Hs Hd) |].
      intros [s1 m1] (H1 & H2 & _ & He). eapply runs_bind; [apply (IH s1 H1) |]. intros [[s2 rest] m2] (H3 & H4 & H5 & ->).
      apply runs_ret. split_and!; [exact H3 | eapply kept_trans; eauto | congruence |]. destruct H2 as [_ ->]. reflexivity.
    + rewrite bool_decide_false by exact Hd. cbn [negb]. eapply runs_bind; [apply (IH s Hs) |].
      intros [[s2 rest] m2] (H3 & H4 & H5 & ->). apply runs_ret. auto.
Qed.

Lemma set_pending_inv rest s : site_inv s -> site_inv (s {{ pending_dep_values_ := rest }}).
Proof. intros [[] ?]. split; [split |]; auto. Qed.
(** ** Handlers *)

(** Commands as they arrive. *)
Definition fresh_cmds (cs : list SimpleCommand) : Prop :=
  Forall (fun c => piece_wf c /\ local_executed_ c = false) cs.

Lemma fresh_executed cs : fresh_cmds cs -> executed cs = 0%nat.
Proof. unfold executed. induction 1 as [|c cs [_ Hc] _ IH]; cbn; [reflexivity |]. now rewrite Hc. Qed.

Lemma fresh_pieces cs : fresh_cmds cs -> Forall piece_wf cs.
Proof. intros H. eapply Forall_impl; [exact H |]. now intros c []. Qed.

Section Handlers2.
Hypothesis exec_total : forall tid c e, is_Some (exec tid c e).

Lemma check_deps_inv s :
  site_inv s -> runs (CheckPendingDeps conflict exec partition_id s) (fun s' => site_inv s' /\ kept s s' /\ emits s s'
    /\ pending_dep_values_ s' = List.filter (fun v => negb (bool_decide (is_Some (idents s !! v.1)))) (pending_dep_values_ s)).
Proof using exec_total.
  intros Hs. unfold CheckPendingDeps. eapply runs_bind; [apply (check_pending_inv _ s Hs) |].
  intros [[s1 rest] need] (H1 & H2 & Hev & ->). pose proof (set_pending_inv
    (List.filter (fun v => negb (bool_decide (is_Some (idents s !! v.1)))) (pending_dep_values_ s)) s1 H1) as H3.
  destruct need; [|apply runs_ret; split_and!; auto; now apply emits_refl].
  eapply runs_mono; [apply (exec_inv exec_total _ H3) |]. intros s' (H4 & H5 & H6 & H7). split_and!; auto.
  - eapply kept_trans; [exact H2 | exact H5].
  - destruct H7 as (new & H7 & H8). exists new. split; [|exact H8]. rewrite H7, <- Hev. reflexivity.
Qed.

Lemma dep_values_inv tid vars s :
  site_inv s -> runs (OnSendDepValues conflict exec partition_id tid vars s) (fun s' => site_inv s' /\ kept s s' /\ emits s s').
Proof using exec_total.
  intros Hs. unfold OnSendDepValues. case_bool_decide as Hd.
  - eapply runs_bind; [apply (merge_inv tid vars s Hs Hd) |]. intros [s1 more] (H1 & H2 & _ & Hev).
    destruct more; [|apply runs_ret; split_and!; auto; now apply emits_refl].
    eapply runs_mono; [apply (exec_inv exec_total _ H1) |]. intros s' (H3 & H4 & _ & H5). split_and!; auto.
    + eapply kept_trans; eauto.
    + destruct H5 as (new & H5 & H6). exists new. split; [congruence | exact H6].
  - apply runs_ret. split_and!; [now apply set_pending_inv | split; reflexivity | now apply emits_refl].
Qed.

Lemma txn_output_inv tid par t s :
  site_inv s -> dtxns_ s !! tid = Some t -> reply_callback t = ToClient ->
  is_Some (par_output_received_ t !! par) -> par <> partition_id ->
  runs (OnSendTxnOutput partition_id tid par s) (fun s' => site_inv s' /\ kept s s' /\ emits s s').
Proof.
  intros Hs Ht Hc [r Hr] Hp. unfold OnSendTxnOutput. rewrite Ht. cbn [mbind option_bind]. rewrite Hr. cbn [mbind option_bind].
  destruct r; [apply runs_ret; split_and!; [exact Hs | split; reflexivity | now apply emits_refl] |].
  set (t' := t {{ par_output_received_ := <[par := true]> (par_output_received_ t) }}).
  assert (Hdom : dom (<[par := true]> (par_output_received_ t)) = dom (par_output_received_ t))
    by (rewrite dom_insert_L; apply elem_of_dom_2 in Hr; set_solver).
  assert (Hid : ident t' = ident t) by (unfold ident, t'; cbn; rewrite Hdom; now destruct t).
  assert (Hi : ident t' = ident t /\ executed_ t' = executed_ t /\ tpieces t' = tpieces t
    /\ n_local_pieces_ t' = n_local_pieces_ t /\ n_executed_pieces t' = n_executed_pieces t
    /\ dist_output_ t' = dist_output_ t /\ reply_callback t' = ToClient
    /\ par_output_received_ t' = <[par := true]> (par_output_received_ t)) by (split; [exact Hid|]; rewrite <- Hc; unfold t'; now destruct t).
  destruct Hi as (Hi & Hx & Hps & H4 & H5 & H6 & H7 & H8). clearbody t'.
  destruct Hs as [[Hq Hd Hn] Hrep]. pose proof (q_txns _ _ Hq _ _ Ht) as W.
  assert (W' : tx_wf t').
  { destruct W. split; rewrite ?Hps, ?H4, ?H5, ?H6, ?Hx; auto. rewrite H7. discriminate. }
  destruct (call_reply_some partition_id tid t' W') as [es Hes]. rewrite Hes. cbn [mbind option_bind]. apply runs_ret.
  split; [split; [split |] | split; [split; [reflexivity |] |]].
  - now apply queue_ok_put.
  - intros k Hk. destruct (Hd k Hk) as (tid1 & t1 & [Hq1 Ht1] & Hx1). cbn.
    destruct (decide (tid1 = tid)) as [->|Hne].
    + exists tid, t'. rewrite Ht in Ht1. injection Ht1 as <-. split; [split; [exact Hq1 | apply lookup_insert_eq] | congruence].
    + exists tid1, t1. split; [split; [exact Hq1 | now rewrite lookup_insert_ne] | exact Hx1].
  - exact Hn.
  - intros tid1. change (reply_ok (events_ s ++ es) tid1 (<[tid := t']> (dtxns_ s) !! tid1)).
    pose proof (call_reply_replies _ _ _ _ tid1 Hes) as Hn1.
    destruct (decide (tid1 = tid)) as [->|Hne].
    + rewrite lookup_insert_eq. specialize (Hrep tid). rewrite Ht in Hrep. cbn [reply_ok] in *. destruct Hrep as [Hr1 Hr2].
      destruct (Hr2 Hc) as [Hr3 Hr4]. rewrite site_replies_app, Hn1, Z.eqb_refl. cbn [andb].
      assert (answered t = false) as Ha by (unfold answered; now rewrite (all_received_false t par), andb_false_r).
      rewrite Hr1, Ha. split; [reflexivity |]. intros _. rewrite H8, lookup_insert_ne, Hx, Hps by auto. auto.
    + rewrite lookup_insert_ne by auto. specialize (Hrep tid1). revert Hrep. unfold reply_ok. rewrite site_replies_app, Hn1.
      destruct (Z.eqb_spec tid tid1); [congruence |]. cbn. now rewrite Nat.add_0_r.
  - unfold idents. cbn. rewrite fmap_insert. apply insert_id. now rewrite lookup_fmap, Ht, Hi.
  - exists es. split; [reflexivity |]. eapply call_reply_sound; eauto. apply lookup_insert_eq.
Qed.
End Handlers2.
(** A transaction that was unknown. *)
Lemma put_new_inv tid t evs s :
  site_inv s -> dtxns_ s !! tid = None -> tx_wf t -> executed_ t = false ->
  (reply_callback t = ToClient -> par_output_received_ t !! partition_id = Some false /\ tpieces t <> []) ->
  (forall tid', replies tid' evs = 0%nat) ->
  site_inv (emit evs (put tid t s)).
Proof.
  intros [[Hq Hd Hn] Hr] Ht W Hx Hc Hevs. split; [split |].
  - now apply queue_ok_put.
  - intros k Hk. destruct (Hd k Hk) as (tid1 & t1 & [Hq1 Ht1] & Hx1). exists tid1, t1. split; [|exact Hx1].
    split; [exact Hq1 |]. cbn. rewrite lookup_insert_ne; congruence.
  - exact Hn.
  - intros tid1. change (reply_ok (events_ s ++ evs) tid1 (<[tid := t]> (dtxns_ s) !! tid1)).
    assert (Hs : replies tid1 (events_ s ++ evs) = replies tid1 (events_ s)) by (rewrite site_replies_app, Hevs; lia).
    destruct (decide (tid1 = tid)) as [->|Hne].
    + rewrite lookup_insert_eq. specialize (Hr tid). rewrite Ht in Hr. cbn [reply_ok] in *. rewrite Hs, Hr, Hx.
      split; [|exact Hc]. unfold answered. destruct (bool_decide (reply_callback t = ToClient)) eqn:Eb; [|reflexivity].
      apply bool_decide_eq_true in Eb. destruct (Hc Eb) as [Hp _]. now rewrite (all_received_false _ _ Hp).
    + rewrite lookup_insert_ne by auto. specialize (Hr tid1). revert Hr. unfold reply_ok. now rewrite Hs.
Qed.

Lemma fold_false_lookup (cmds : cmd_map) (m : gmap Z bool) par cs :
  cmds_at par cmds = Some cs -> foldl (fun m kv => <[kv.1 := false]> m) m cmds !! par = Some false.
Proof.
  unfold cmds_at.
  assert (Hk : forall l (m : gmap Z bool), m !! par = Some false ->
    foldl (fun m (kv : Z * list SimpleCommand) => <[kv.1 := false]> m) m l !! par = Some false).
  { induction l as [|[k x] l IH]; intros m0 Hm; cbn; [exact Hm |]. apply IH.
    destruct (decide (k = par)) as [->|Hne]; [apply lookup_insert_eq | now rewrite lookup_insert_ne]. }
  revert m. induction cmds as [|[k x] l IH]; intros m; cbn; [discriminate |].
  destruct (Z.eqb_spec k par) as [->|Hne]; [intros _; apply Hk, lookup_insert_eq | apply IH].
Qed.

Lemma fold_false_dom (cmds : cmd_map) (m : gmap Z bool) :
  dom (foldl (fun m kv => <[kv.1 := false]> m) m cmds) = list_to_set cmds.*1 ∪ dom m.
Proof.
  revert m. induction cmds as [|[k x] l IH]; intros m; cbn; [set_solver |]. rewrite IH, dom_insert_L. set_solver.
Qed.

Definition submit_event (cmds : cmd_map) (is_irt : bool) : event :=
  if is_irt then SendToRegionManager (partition_id / shards_per_region * shards_per_region * N_REP_PER_SHARD) cmds site_id
  else SendToRaft cmds site_id.

Lemma submit_inv cmds is_irt tid cs s :
  site_inv s -> txn_of cmds = Some tid -> dtxns_ s !! tid = None ->
  cmds_at partition_id cmds = Some cs -> cs <> [] -> fresh_cmds cs ->
  runs (OnSubmitTxn site_id partition_id shards_per_region cmds is_irt s) (fun s' => site_inv s'
    /\ txn_queue_ s' = txn_queue_ s /\ events_ s' = events_ s ++ [submit_event cmds is_irt]
    /\ idents s' = <[tid := (site_id, ToClient, inn_id_ <$> cs, list_to_set cmds.*1)]> (idents s)).
Proof.
  intros Hs Ht Hnew Hat Hne Hf. unfold OnSubmitTxn. rewrite Ht. cbn [mbind option_bind]. rewrite Hnew, Hat. cbv zeta.
  match goal with |- runs (Some (emit _ (put _ ?x _))) _ => set (t := x) end. apply runs_ret.
  assert (H : n_local_pieces_ t = Some (Z.of_nat (length cs)) /\ n_executed_pieces t = 0 /\ tpieces t = cs
    /\ executed_ t = false /\ dist_output_ t = ∅ /\ reply_callback t = ToClient /\ coord_site_ t = site_id
    /\ par_output_received_ t = foldl (fun m kv => <[kv.1 := false]> m) ∅ cmds) by (unfold t; cbn; auto 10).
  destruct H as (H1 & H2 & H3 & H4 & H5 & H6 & H7 & H8). clearbody t. fold (submit_event cmds is_irt).
  set (s0 := s {{ txn_log_ := txn_log_ s ++ [tid] }}).
  assert (Hs0 : site_inv s0) by (destruct Hs as [[] ?]; split; [split |]; auto).
  split_and!; [|reflexivity .. |].
  - apply (put_new_inv tid t [submit_event cmds is_irt] s0 Hs0 Hnew).
    + split; rewrite ?H1, ?H2, ?H3, ?H4, ?H5, ?H6; auto; try discriminate; try tauto.
      * now rewrite (fresh_executed _ Hf).
      * now apply fresh_pieces.
    + exact H4.
    + intros _. rewrite H8, H3. split; [now apply (fold_false_lookup cmds ∅ partition_id cs) | exact Hne].
    + intros tid'. unfold submit_event. now destruct is_irt.
  - unfold idents. cbn. rewrite fmap_insert. unfold ident. rewrite H3, H6, H7, H8. do 2 f_equal.
    rewrite fold_false_dom. set_solver.
Qed.

(** *** Batches *)

Fixpoint fill (i : nat) (ids : list Z) (q : list (option Z)) : list (option Z) :=
  match ids with [] => q | x :: ids => fill (S i) ids (<[i := Some x]> q) end.

Lemma fill_length i ids q : length (fill i ids q) = length q.
Proof. revert i q. induction ids as [|x ids IH]; intros i q; cbn; [reflexivity |]. now rewrite IH, length_insert. Qed.

Lemma fill_lookup ids : forall i q k, (i + length ids <= length q)%nat ->
  fill i ids q !! k = if decide (i <= k < i + length ids)%nat then Some <$> ids !! (k - i)%nat else q !! k.
Proof.
  induction ids as [|x ids IH]; intros i q k Hi; cbn [fill length] in *.
  - rewrite decide_False by lia. reflexivity.
  - rewrite IH by (rewrite length_insert; lia). destruct (decide (S i <= k < S i + length ids)%nat) as [Hk|Hk].
    + rewrite decide_True by lia. replace (k - i)%nat with (S (k - S i)) by lia. reflexivity.
    + destruct (decide (k = i)) as [->|Hne].
      * rewrite list_lookup_insert_eq by lia. rewrite decide_True by lia. now rewrite Nat.sub_diag.
      * rewrite list_lookup_insert_ne by auto. rewrite decide_False by lia. reflexivity.
Qed.

(** How a site knows a transaction of a batch. *)
Definition batch_ident (b : batch_txn) : tx_ident :=
  (bt_coord b, if bt_coord b / N_REP_PER_SHARD =? site_id / N_REP_PER_SHARD then Nothing else ToCoord,
   inn_id_ <$> bt_cmds b, ∅).
Definition add_ident (m : gmap Z tx_ident) (b : batch_txn) : gmap Z tx_ident :=
  if decide (is_Some (m !! bt_id b)) then m else <[bt_id b := batch_ident b]> m.

(** A transaction of a batch that the site can take. *)
Definition takes (m : gmap Z tx_ident) (b : batch_txn) : Prop :=
  match m !! bt_id b with
  | Some (coord, _, _, _) => bt_coord b = site_id /\ coord = site_id
  | None => fresh_cmds (bt_cmds b)
  end.
Lemma idents_lookup s tid : idents s !! tid = ident <$> dtxns_ s !! tid.
Proof. apply lookup_fmap. Qed.

(** An entry of the queue is filled with a known transaction that is not in it. *)
Lemma queue_insert_inv s i tid :
  site_inv s -> is_Some (dtxns_ s !! tid) -> txn_queue_ s !! i = Some None ->
  (forall k, txn_queue_ s !! k <> Some (Some tid)) ->
  site_inv (s {{ txn_queue_ := <[i := Some tid]> (txn_queue_ s) }}).
Proof.
  intros [[[K1 K2 K3] Hd Hn] Hr] Hk Hi Hnew. pose proof (lookup_lt_Some _ _ _ Hi) as Hlt.
  assert (Hlk : forall k x, <[i := Some tid]> (txn_queue_ s) !! k = Some x ->
    (k = i /\ x = Some tid) \/ (k <> i /\ txn_queue_ s !! k = Some x)).
  { intros k x. destruct (decide (k = i)) as [->|Hne]; [rewrite list_lookup_insert_eq by auto; intros [= <-]; auto |].
    rewrite list_lookup_insert_ne by auto. auto. }
  split; [split; [split |..] | exact Hr]; cbn.
  - exact K1.
  - intros k tid1 [[-> [= ->]]|[_ H]]%Hlk; [exact Hk | now apply (K2 k)].
  - intros k k' tid1 [[-> [= ->]]|[Hk1 H]]%Hlk [[-> H']|[Hk2 H']]%Hlk; auto.
    + now destruct (Hnew k').
    + injection H' as ->. now destruct (Hnew k).
    + eapply K3; eauto.
  - intros k Hk'. destruct (Hd k Hk') as (tid1 & t1 & [Hq1 Ht1] & Hx). exists tid1, t1. split; [|exact Hx].
    split; [|exact Ht1]. rewrite list_lookup_insert_ne; [exact Hq1 |]. intros <-. congruence.
  - rewrite length_insert. exact Hn.
Qed.

Lemma insert_txn_inv i b s :
  site_inv s -> takes (idents s) b -> txn_queue_ s !! i = Some None ->
  (forall k, txn_queue_ s !! k <> Some (Some (bt_id b))) ->
  runs (insert_batch_txn site_id i b s) (fun s' => site_inv s' /\ events_ s' = events_ s /\ idents s' = add_ident (idents s) b
    /\ txn_queue_ s' = <[i := Some (bt_id b)]> (txn_queue_ s)).
Proof.
  intros Hs Ht Hi Hnew. unfold insert_batch_txn, add_ident, takes in *. rewrite idents_lookup in *.
  destruct (dtxns_ s !! bt_id b) as [t|] eqn:Eb; cbn [fmap option_fmap option_map] in *.
  - destruct Ht as [Hc1 Hc2]. rewrite Hc1, Hc2, Z.eqb_refl.
    set (t' := t {{ all_touched_shards_ := bt_touched b }}). cbn [verify mbind option_bind].
    change (txn_queue_ (put (bt_id b) t' s)) with (txn_queue_ s). rewrite Hi. cbn [mbind option_bind].
    rewrite bool_decide_true by reflexivity. cbn [verify mbind option_bind]. apply runs_ret.
    assert (Hw : tx_wf t') by (destruct (q_txns _ _ (o_queue _ (i_ok _ Hs)) _ _ Eb); split; destruct t; auto).
    destruct (put_same_inv (bt_id b) t t' s Hs Eb Hw) as [H1 [H2 H3]]; try now destruct t.
    rewrite decide_True by eauto. split_and!; auto.
    apply (queue_insert_inv (put (bt_id b) t' s) i (bt_id b) H1); auto. cbn. rewrite lookup_insert_eq. eauto.
  - match goal with |- context [put _ ?x s] => set (t' := x) end. cbn [mbind option_bind].
    change (txn_queue_ (put (bt_id b) t' s)) with (txn_queue_ s). rewrite Hi. cbn [mbind option_bind].
    rewrite bool_decide_true by reflexivity. cbn [verify mbind option_bind]. apply runs_ret.
    assert (Hw : tx_wf t').
    { split; [reflexivity | | now apply fresh_pieces | discriminate | easy | now cbn; destruct (_ =? _)].
      change (0 = Z.of_nat (executed (bt_cmds b))). now rewrite (fresh_executed _ Ht). }
    assert (H1 : site_inv (emit [] (put (bt_id b) t' s))).
    { apply put_new_inv; auto. cbn. now destruct (_ =? _). }
    assert (H2 : site_inv (put (bt_id b) t' s)).
    { destruct H1 as [[] H1]. split; [split |]; auto. cbn in H1. now rewrite app_nil_r in H1. }
    rewrite decide_False by (intros [? ?]; discriminate). split_and!.
    + apply (queue_insert_inv (put (bt_id b) t' s) i (bt_id b) H2); auto. cbn. rewrite lookup_insert_eq. eauto.
    + reflexivity.
    + unfold idents. cbn. rewrite fmap_insert. do 2 f_equal. unfold ident, batch_ident, t'. cbn.
      now destruct (_ =? _).
    + reflexivity.
Qed.

(** The transactions of a batch are new in the queue and fit one after the other. *)
Lemma insert_batch_inv bs : forall i s,
  site_inv s -> NoDup (bt_id <$> bs) -> Forall (takes (idents s)) bs ->
  (forall k, (k < length bs)%nat -> txn_queue_ s !! (i + k)%nat = Some None) ->
  (forall b k, b ∈ bs -> txn_queue_ s !! k <> Some (Some (bt_id b))) ->
  runs (insert_batch site_id i bs s) (fun s' => site_inv s' /\ events_ s' = events_ s /\ idents s' = foldl add_ident (idents s) bs
    /\ txn_queue_ s' = fill i (bt_id <$> bs) (txn_queue_ s)).
Proof.
  induction bs as [|b bs IH]; intros i s Hs Hd Ht Hf Hn; cbn [insert_batch].
  - apply runs_ret. auto.
  - apply NoDup_cons in Hd as [Hb Hd]. apply Forall_cons in Ht as [Ht1 Ht].
    assert (Hi : txn_queue_ s !! i = Some None) by (rewrite <- (Nat.add_0_r i); apply Hf; cbn; lia).
    eapply runs_bind; [apply (insert_txn_inv i b s Hs Ht1 Hi); intros k; apply Hn; left |].
    intros s1 (H1 & Hev & H2 & H3). pose proof (lookup_lt_Some _ _ _ Hi) as Hlt.
    eapply runs_mono; [apply (IH (S i) s1 H1 Hd) |].
    + apply Forall_forall. intros b' Hin. rewrite Forall_forall in Ht. pose proof (Ht b' Hin) as Hb'. rewrite H2. unfold takes, add_ident in *.
      destruct (decide (is_Some (idents s !! bt_id b))); [exact Hb' |]. rewrite lookup_insert_ne; [exact Hb' |].
      intros Heq. apply Hb. rewrite Heq. now apply list_elem_of_fmap_2.
    + intros k Hk. rewrite H3, list_lookup_insert_ne by lia. replace (S i + k)%nat with (i + S k)%nat by lia.
      apply Hf. cbn. lia.
    + intros b' k Hin. rewrite H3. destruct (decide (k = i)) as [->|Hne].
      * rewrite list_lookup_insert_eq by auto. intros [= Heq]. apply Hb. rewrite Heq. now apply list_elem_of_fmap_2.
      * rewrite list_lookup_insert_ne by auto. apply Hn. now right.
    + intros s' (H4 & Hev' & H5 & H6). rewrite H5, H6, H2, H3, Hev'. auto.
Qed.
(** The queue as long as the batch needs it. *)
Definition grown (b : batch) (q : list (option Z)) : list (option Z) :=
  q ++ replicate (b_start b + length (b_txns b) - length q) None.

Lemma grown_lookup b q k :
  grown b q !! k = match q !! k with
                   | Some o => Some o
                   | None => if decide (k < b_start b + length (b_txns b))%nat then Some None else None
                   end.
Proof.
  unfold grown. destruct (q !! k) eqn:Ek.
  - now apply lookup_app_l_Some.
  - apply lookup_ge_None in Ek. rewrite lookup_app_r by exact Ek.
    destruct (decide _); [apply lookup_replicate_2; lia | apply lookup_ge_None; rewrite length_replicate; lia].
Qed.

Lemma grown_length b q : (b_start b + length (b_txns b) <= length (grown b q))%nat.
Proof. unfold grown. rewrite length_app, length_replicate. lia. Qed.

Lemma grow_inv b s :
  site_inv s -> site_inv (s {{ barrier_indices_ := barrier_indices_ s ++ b_barriers b;
                               txn_queue_ := grown b (txn_queue_ s) }}).
Proof.
  intros [[[K1 K2 K3] Hd Hn] Hr].
  assert (Hlk : forall k tid, grown b (txn_queue_ s) !! k = Some (Some tid) -> txn_queue_ s !! k = Some (Some tid)).
  { intros k tid. rewrite grown_lookup. destruct (txn_queue_ s !! k); [auto |]. now destruct (decide _). }
  split; [split; [split |..] | exact Hr]; cbn.
  - exact K1.
  - intros k tid H%Hlk. now apply (K2 k).
  - intros k k' tid H1%Hlk H2%Hlk. eauto.
  - intros k Hk. destruct (Hd k Hk) as (tid & t & [Hq Ht] & Hx). exists tid, t. split; [split; [|exact Ht] | exact Hx].
    now rewrite grown_lookup, Hq.
  - change (next_execute_index_ s <= length (grown b (txn_queue_ s)))%nat. unfold grown. rewrite length_app. lia.
Qed.

(** A batch that the site can take. *)
Record takes_batch (b : batch) (q : list (option Z)) (m : gmap Z tx_ident) : Prop := {
  tb_new : NoDup (bt_id <$> b_txns b);
  tb_takes : Forall (takes m) (b_txns b);
  tb_free : forall k, (b_start b <= k < b_start b + length (b_txns b))%nat -> q !! k = None \/ q !! k = Some None;
  tb_once : forall x k, x ∈ b_txns b -> q !! k <> Some (Some (bt_id x)) }.

Section Handlers3.
Hypothesis exec_total : forall tid c e, is_Some (exec tid c e).

Lemma batch_inv b s :
  site_inv s -> takes_batch b (txn_queue_ s) (idents s) ->
  runs (OnSendBatch conflict exec site_id partition_id b s) (fun s' => site_inv s'
    /\ idents s' = foldl add_ident (idents s) (b_txns b)
    /\ txn_queue_ s' = fill (b_start b) (bt_id <$> b_txns b) (grown b (txn_queue_ s))
    /\ emits s s'
    /\ Forall (fun v => idents s' !! v.1 = None) (pending_dep_values_ s')).
Proof using exec_total.
  intros Hs [T1 T2 T3 T4]. unfold OnSendBatch. cbv zeta. fold (grown b (txn_queue_ s)).
  pose proof (grow_inv b s Hs) as H0. set (s0 := s {{ barrier_indices_ := barrier_indices_ s ++ b_barriers b;
                                                    txn_queue_ := grown b (txn_queue_ s) }}) in *.
  assert (Hi0 : idents s0 = idents s) by reflexivity.
  assert (Hq0 : txn_queue_ s0 = grown b (txn_queue_ s)) by reflexivity.
  eapply runs_bind; [apply (insert_batch_inv (b_txns b) (b_start b) s0 H0 T1) |].
  - now rewrite Hi0.
  - intros k Hk. rewrite Hq0, grown_lookup. destruct (T3 (b_start b + k)%nat ltac:(lia)) as [-> | ->]; [|reflexivity].
    rewrite decide_True by lia. reflexivity.
  - intros x k Hx. rewrite Hq0, grown_lookup. specialize (T4 x k Hx). destruct (txn_queue_ s !! k); [exact T4 |].
    now destruct (decide _).
  - intros s1 (H1 & Hev & H2 & H3).
    set (s2 := if site_id mod N_REP_PER_SHARD =? 0 then _ else s1).
    assert (H4 : site_inv s2 /\ kept s1 s2 /\ events_ s2 = events_ s1).
    { unfold s2. destruct (_ =? 0); [|split_and!; [exact H1 | split; reflexivity | reflexivity]].
      destruct H1 as [[] ?]. split_and!; [split; [split |]; auto | split; reflexivity | reflexivity]. }
    destruct H4 as (H4 & [H5 H6] & Hev2). eapply runs_bind; [apply (exec_inv exec_total s2 H4) |].
    intros s3 (H7 & [H8 H9] & _ & Em3). eapply runs_mono; [apply (check_deps_inv exec_total s3 H7) |].
    intros s' (H10 & [H11 H12] & Em' & H13). split_and!; [exact H10 | congruence | congruence | |].
    { pose proof (emits_trans _ _ _ H12 Em3 Em') as (new & Hn1 & Hn2). exists new. split; [|exact Hn2].
      rewrite Hn1, Hev2, Hev. reflexivity. }
    rewrite H13, H12. apply Forall_forall. intros v Hv%list_elem_of_In. apply filter_In in Hv as [_ Hv].
    apply negb_true_iff, bool_decide_eq_false in Hv. now destruct (idents s3 !! v.1); [destruct Hv; eauto |].
Qed.
End Handlers3.
End Site.
End SlogSite.
