(* ===== verification/SlogProgress.v ===== *)
(** * Progress of a Slog site

    What no handler of [SchedulerSlog] (deptran/slog/scheduler.cc) takes back: a transaction
    that is executed stays so, an output is only sent for one that is, and only an output
    that arrives marks another partition. *)

From Stdlib Require Import ZArith Lia.
From stdpp Require Import base list option gmap sets relations sorting.
From coqutil Require Import Datatypes.RecordSetters.
From S2P Require Import Prelude ALock MemSchema PieceExec RccTxn SlogOrder SlogSched SlogSite.
Import DoubleBraceUpdate.
Local Open Scope Z_scope.

Module SlogProgress.
Import SlogOrder SlogSched SlogSite.

Definition done (D : gmap Z txn) (tid : Z) : Prop := exists t, D !! tid = Some t /\ executed_ t = true.
Definition marked (D : gmap Z txn) (tid par : Z) : Prop :=
  exists t, D !! tid = Some t /\ par_output_received_ t !! par = Some true.

Section Progress.
Context {E : Type} (conflict : Z -> Z -> bool)
  (exec : Z -> SimpleCommand -> E -> option (E * output_map)).
Context (site_id partition_id shards_per_region : Z).

Definition outputs_of (evs : list event) (tid : Z) : Prop :=
  exists site par out, SendTxnOutput site par tid out ∈ evs.

Record progress (s s' : @sched E) : Prop := {
  g_events : exists new, events_ s' = events_ s ++ new
    /\ forall tid, outputs_of new tid -> done (dtxns_ s') tid;
  g_done : forall tid, done (dtxns_ s) tid -> done (dtxns_ s') tid;
  g_marked : forall tid par, par <> partition_id -> marked (dtxns_ s') tid par -> marked (dtxns_ s) tid par }.

#[local] Instance progress_preorder : PreOrder progress.
Proof.
  split.
  - intros s. split; auto. exists []. rewrite app_nil_r. split; [reflexivity |].
    now intros tid (? & ? & ? & []%not_elem_of_nil).
  - intros s1 s2 s3 [(n1 & E1 & O1) D1 M1] [(n2 & E2 & O2) D2 M2]. split; auto.
    exists (n1 ++ n2). rewrite E2, E1, app_assoc. split; [reflexivity |].
    intros tid (site & par & out & [H|H]%elem_of_app); [apply D2, O1 | apply O2]; now exists site, par, out.
Qed.

(** The same transactions and events. *)
Lemma progress_same s s' : dtxns_ s' = dtxns_ s -> events_ s' = events_ s -> progress s s'.
Proof.
  intros HD HE. split; rewrite ?HD; auto. exists []. rewrite HE, app_nil_r. split; [reflexivity |].
  now intros tid (? & ? & ? & []%not_elem_of_nil).
Qed.

(** One transaction changes. *)
Definition newer (o : option txn) (t : txn) : Prop :=
  (forall t0, o = Some t0 -> executed_ t0 = true -> executed_ t = true)
  /\ forall par, par <> partition_id -> par_output_received_ t !! par = Some true ->
       exists t0, o = Some t0 /\ par_output_received_ t0 !! par = Some true.

Lemma progress_put tid t es s s' :
  dtxns_ s' = <[tid := t]> (dtxns_ s) -> events_ s' = events_ s ++ es -> newer (dtxns_ s !! tid) t ->
  (forall tid', outputs_of es tid' -> tid' = tid /\ executed_ t = true) -> progress s s'.
Proof.
  intros HD HE [N1 N2] Ho. split; rewrite ?HD.
  - exists es. split; [exact HE |]. intros tid' [-> Hx]%Ho. exists t. now rewrite lookup_insert_eq.
  - intros tid' (t0 & Ht & Hx). destruct (decide (tid' = tid)) as [->|Hne].
    + exists t. rewrite lookup_insert_eq. eauto.
    + exists t0. rewrite lookup_insert_ne by auto. auto.
  - intros tid' par Hp (t0 & Ht & Hx). destruct (decide (tid' = tid)) as [->|Hne].
    + rewrite lookup_insert_eq in Ht. injection Ht as <-. now apply N2.
    + rewrite lookup_insert_ne in Ht by auto. exists t0. auto.
Qed.

Lemma no_outputs_nil tid : ~ outputs_of [] tid.
Proof. now intros (? & ? & ? & []%not_elem_of_nil). Qed.

Lemma call_reply_outputs tid t es tid' :
  call_reply partition_id tid t = Some es -> outputs_of es tid' -> tid' = tid.
Proof.
  unfold call_reply. destruct (reply_callback t); cbn; intros He (site & par & out & Hin).
  - discriminate.
  - injection He as <-. destruct (all_received t); [|now apply not_elem_of_nil in Hin]. now apply list_elem_of_singleton in Hin.
  - injection He as <-. now apply not_elem_of_nil in Hin.
  - destruct (n_local_pieces_ t); [|discriminate]. cbn in He. injection He as <-.
    destruct (_ && _); [|now apply not_elem_of_nil in Hin]. apply list_elem_of_singleton in Hin. congruence.
Qed.

Lemma dependent_outputs tid dv tid' : ~ outputs_of (dependent_values partition_id tid dv) tid'.
Proof. intros (site & par & out & Hin). apply list_elem_of_fmap in Hin as (x & Hx & _). discriminate. Qed.

Lemma try_progress tid pending s s' finished dv pending' :
  TryExecute conflict exec partition_id tid pending s = Some (s', finished, dv, pending') -> progress s s'.
Proof.
  unfold TryExecute. intros H. apply bind_Some in H as (t & Ht & H).
  apply bind_Some in H as ([[[t1 db] dv1] p1] & Hr & H). apply bind_Some in H as (n & Hn & H).
  assert (Ht1 : executed_ t1 = executed_ t /\ par_output_received_ t1 = par_output_received_ t).
  { unfold run_ready in Hr. apply bind_Some in Hr as (r & _ & Hr). injection Hr as <- _ _ _. now destruct t. }
  destruct Ht1 as [Hx1 Hm1]. apply bind_Some in H as ([t2 es] & Hc & H). injection H as <- _ _ _.
  apply (progress_put tid t2 es); try reflexivity; rewrite ?Ht.
  - destruct (n =? n_executed_pieces t1).
    + cbv zeta in Hc. set (t3 := if bool_decide _ then _ else _) in Hc. apply bind_Some in Hc as (es' & _ & Hc).
      injection Hc as <- _.
      assert (H3 : executed_ t3 = true /\ (par_output_received_ t3 = par_output_received_ t
        \/ par_output_received_ t3 = <[partition_id := true]> (par_output_received_ t))).
      { unfold t3. rewrite <- Hm1. destruct (bool_decide _); destruct t1; auto. }
      destruct H3 as [H3 H4]. split; [auto |]. intros par Hp. destruct H4 as [->| ->]; [eauto |].
      rewrite lookup_insert_ne by auto. eauto.
    + injection Hc as <- <-. split; [intros t0 [= <-]; congruence |]. intros par _ Hp. exists t. now rewrite <- Hm1.
  - destruct (n =? n_executed_pieces t1).
    + cbv zeta in Hc. set (t3 := if bool_decide _ then _ else _) in Hc. apply bind_Some in Hc as (es' & He & Hc).
      injection Hc as <- <-. intros tid' Ho. split; [eapply call_reply_outputs; eauto |].
      unfold t3. destruct (bool_decide _); now destruct t1.
    + injection Hc as <- <-. now intros tid' []%no_outputs_nil.
Qed.

Lemma emit_progress tid dv s : progress s (emit (dependent_values partition_id tid dv) s).
Proof.
  split; auto. eexists. split; [reflexivity |]. now intros tid' []%dependent_outputs.
Qed.

Lemma advance_progress (b : bool) s : progress s (if b then s {{ next_execute_index_ := S (next_execute_index_ s) }} else s).
Proof. destruct b; [now apply progress_same | reflexivity]. Qed.

Lemma exec_queue_progress js : forall found pending s s',
  exec_queue conflict exec partition_id js found pending s = Some s' -> progress s s'.
Proof.
  induction js as [|i js IH]; intros found pending s s'; cbn [exec_queue]; [intros [= <-]; reflexivity |].
  intros (q & _ & H)%bind_Some. destruct q as [tid|]; [|injection H as <-; reflexivity].
  apply bind_Some in H as (t & _ & H). destruct (executed_ t).
  - etransitivity; [apply (advance_progress (found =? 0)) | exact (IH _ _ _ _ H)].
  - apply bind_Some in H as ([[[s1 fin] dv] p1] & Ht & H). apply try_progress in Ht.
    etransitivity; [exact Ht |]. etransitivity; [apply (emit_progress tid dv) |]. destruct fin.
    + etransitivity; [apply (advance_progress (found =? 0)) | exact (IH _ _ _ _ H)].
    + destruct (max_pending_txns_ <? found + 1); [injection H as <-; reflexivity | exact (IH _ _ _ _ H)].
Qed.

Lemma exec_progress s s' : ExecTxnQueue conflict exec partition_id s = Some s' -> progress s s'.
Proof. apply exec_queue_progress. Qed.

Lemma merge_progress tid vars s s' more : merge_values tid vars s = Some (s', more) -> progress s s'.
Proof.
  unfold merge_values. intros (t & Ht & H)%bind_Some. destruct (MergeCheckReadyPieces _ _) as [ps m]. injection H as <- _.
  apply (progress_put tid (t {{ tpieces := ps }}) []); rewrite ?Ht, ?app_nil_r; try reflexivity.
  - split; [intros t0 [= <-]; now destruct t |]. intros par _ Hp. exists t. split; [reflexivity |]. now destruct t.
  - now intros tid' []%no_outputs_nil.
Qed.

Lemma pending_progress vs : forall s s' rest b, check_pending vs s = Some (s', rest, b) -> progress s s'.
Proof.
  induction vs as [|[tid vars] vs IH]; intros s s' rest b; cbn [check_pending]; [intros [= <- _ _]; reflexivity |].
  case_bool_decide.
  - intros ([s1 m1] & H1 & H2)%bind_Some. apply bind_Some in H2 as ([[s2 r2] m2] & H2 & [= <- _ _]).
    etransitivity; [eapply merge_progress, H1 | eapply IH, H2].
  - intros ([[s2 r2] m2] & H2 & [= <- _ _])%bind_Some. eapply IH, H2.
Qed.

Lemma check_progress s s' : CheckPendingDeps conflict exec partition_id s = Some s' -> progress s s'.
Proof.
  unfold CheckPendingDeps. intros ([[s1 rest] need] & H1 & H2)%bind_Some. apply pending_progress in H1.
  etransitivity; [exact H1 |]. etransitivity; [now apply (progress_same s1 (s1 {{ pending_dep_values_ := rest }})) |].
  destruct need; [now apply exec_progress | injection H2 as <-; reflexivity].
Qed.

Lemma insert_progress i b s s' : insert_batch_txn site_id i b s = Some s' -> progress s s'.
Proof.
  unfold insert_batch_txn. intros (s1 & H1 & H)%bind_Some. apply bind_Some in H as (q & _ & H).
  apply bind_Some in H as (u & _ & [= <-]).
  enough (progress s s1) by (etransitivity; [eassumption | now apply progress_same]).
  destruct (dtxns_ s !! bt_id b) as [t|] eqn:Et.
  - apply bind_Some in H1 as (? & _ & H1). apply bind_Some in H1 as (? & _ & [= <-]).
    apply (progress_put (bt_id b) (t {{ all_touched_shards_ := bt_touched b }}) []); rewrite ?Et, ?app_nil_r; try reflexivity.
    + split; [intros t0 [= <-]; now destruct t |]. intros par _ Hp. exists t. split; [reflexivity |]. now destruct t.
    + now intros tid' []%no_outputs_nil.
  - injection H1 as <-. eapply (progress_put (bt_id b) _ []); rewrite ?Et, ?app_nil_r; try reflexivity.
    + split; [discriminate |]. cbn. intros par _. now rewrite lookup_empty.
    + now intros tid' []%no_outputs_nil.
Qed.

Lemma insert_batch_progress bs : forall i s s', insert_batch site_id i bs s = Some s' -> progress s s'.
Proof.
  induction bs as [|b bs IH]; intros i s s'; cbn [insert_batch]; [intros [= <-]; reflexivity |].
  intros (s1 & H1 & H2)%bind_Some. etransitivity; [eapply insert_progress, H1 | eapply IH, H2].
Qed.

Lemma batch_progress b s s' :
  OnSendBatch conflict exec site_id partition_id b s = Some s' -> progress s s'.
Proof.
  unfold OnSendBatch. cbv zeta. intros (s1 & H1 & H)%bind_Some. apply insert_batch_progress in H1.
  apply bind_Some in H as (s2 & H2 & H3). apply exec_progress in H2. apply check_progress in H3.
  etransitivity; [|etransitivity; [exact H1 | etransitivity; [|etransitivity; [exact H2 | exact H3]]]].
  - now apply progress_same.
  - destruct (_ =? 0); [now apply progress_same | reflexivity].
Qed.

Lemma deps_progress tid vars s s' :
  OnSendDepValues conflict exec partition_id tid vars s = Some s' -> progress s s'.
Proof.
  unfold OnSendDepValues. case_bool_decide.
  - intros ([s1 more] & H1 & H2)%bind_Some. apply merge_progress in H1. etransitivity; [exact H1 |].
    destruct more; [now apply exec_progress | injection H2 as <-; reflexivity].
  - intros [= <-]. now apply progress_same.
Qed.

(** A submission answers nobody and marks nothing. *)
Lemma fold_false_true (cmds : cmd_map) (m : gmap Z bool) par :
  foldl (fun m kv => <[kv.1 := false]> m) m cmds !! par = Some true -> m !! par = Some true.
Proof.
  revert m. induction cmds as [|[k x] l IH]; intros m; cbn; [auto |]. intros H%IH.
  destruct (decide (k = par)) as [->|Hne]; [rewrite lookup_insert_eq in H; discriminate | now rewrite lookup_insert_ne in H].
Qed.

Lemma submit_progress cmds irt s s' :
  OnSubmitTxn site_id partition_id shards_per_region cmds irt s = Some s' -> progress s s'.
Proof.
  unfold OnSubmitTxn. cbv zeta. intros (tid & _ & H)%bind_Some. injection H as <-.
  eapply (progress_put tid); try reflexivity.
  - split.
    + intros t0 Ht0. rewrite Ht0. cbn [default]. destruct (cmds_at partition_id cmds); now destruct t0.
    + intros par _. cbn. intros Hp%fold_false_true. destruct (dtxns_ s !! tid) as [t0|]; cbn [default] in Hp.
      * exists t0. split; [reflexivity |]. destruct (cmds_at partition_id cmds); now destruct t0.
      * exfalso. destruct (cmds_at partition_id cmds); cbn in Hp; now rewrite lookup_empty in Hp.
  - intros tid' (st & par & out & Hin%list_elem_of_singleton). destruct irt; discriminate.
Qed.

(** An output that arrives marks its partition. *)
Lemma output_progress tid par (s s' : @sched E) :
  OnSendTxnOutput partition_id tid par s = Some s' ->
  (exists new, events_ s' = events_ s ++ new /\ (forall tid', outputs_of new tid' -> tid' = tid))
  /\ (forall tid', done (dtxns_ s) tid' -> done (dtxns_ s') tid')
  /\ forall tid' par', marked (dtxns_ s') tid' par' -> marked (dtxns_ s) tid' par' \/ tid' = tid /\ par' = par.
Proof.
  unfold OnSendTxnOutput. intros (t & Ht & H)%bind_Some. apply bind_Some in H as (r & Hr & H).
  destruct r.
  - injection H as <-. split_and!; auto. exists []. rewrite app_nil_r. split; [reflexivity |].
    now intros tid' []%no_outputs_nil.
  - cbv zeta in H. set (t' := t {{ par_output_received_ := _ }}) in H. apply bind_Some in H as (es & He & [= <-]). split_and!.
    + exists es. split; [reflexivity |]. intros tid'. now apply (call_reply_outputs tid t').
    + intros tid' (t0 & Ht0 & Hx). unfold done. cbn. destruct (decide (tid' = tid)) as [->|Hne].
      * exists t'. rewrite lookup_insert_eq. split; [reflexivity |]. rewrite Ht in Ht0. injection Ht0 as <-. now destruct t.
      * exists t0. now rewrite lookup_insert_ne.
    + intros tid' par' (t0 & Ht0 & Hx). cbn in Ht0. destruct (decide (tid' = tid)) as [->|Hne].
      * rewrite lookup_insert_eq in Ht0. injection Ht0 as <-.
        change (<[par := true]> (par_output_received_ t) !! par' = Some true) in Hx.
        destruct (decide (par' = par)) as [->|Hp]; [auto |]. rewrite lookup_insert_ne in Hx by auto. left. exists t. auto.
      * rewrite lookup_insert_ne in Ht0 by auto. left. exists t0. auto.
Qed.
End Progress.
End SlogProgress.
