(* ===== verification/SlogSystem.v ===== *)
(** * A Slog deployment

    The global log, the region managers and the sites (deptran/slog) connected by a network
    that delivers every message once and in any order (slog/commo.cc has the senders).  The
    sites are numbered as the sources assume: a partition has [N_REP_PER_SHARD] consecutive
    sites, a region [shards] consecutive partitions, and the first site of a region is its
    manager.  [next_execute_index_], which the sources do not initialise, starts at 0. *)

From Stdlib Require Import ZArith Lia.
From stdpp Require Import base list option gmap sets relations sorting.
From coqutil Require Import Datatypes.RecordSetters.
From S2P Require Import Prelude ALock MemSchema PieceExec RccTxn SlogOrder SlogSched SlogExec SlogSite.
Import DoubleBraceUpdate.
Local Open Scope Z_scope.

Module SlogSystem.
Import SlogOrder SlogSched SlogExec SlogSite.

Inductive msg :=
  | MRaftSubmit (cmds : cmd_map) (handler : Z)
  | MAppend (follower : Z) (cmds : cmd_map) (index : nat)
  | MAppendAck (index : nat)
  | MOrdered (site : Z) (c : ordered_crt)
  | MIRT (site : Z) (cmds : cmd_map) (handler : Z)
  | MReplicate (rid : Z) (cmds : cmd_map) (index : nat)
  | MReplicateAck (rid : Z) (index : nat)
  | MBatch (site : Z) (b : batch)
  | MOutput (site par tid : Z)
  | MDeps (site tid : Z) (vars : output_map).

(** A transaction that was submitted: its coordinator, its commands, and whether it stays in
    one region. *)
Record gtxn := { g_coord : Z; g_cmds : cmd_map; g_irt : bool }.

Section System.
Context {E : Type} (conflict : Z -> Z -> bool)
  (exec : Z -> Z -> SimpleCommand -> E -> option (E * output_map)).
Context (shards regions : Z) (followers : list Z).

(** The transactions submitted so far are kept for the statements only. *)
Record world := {
  w_txns : gmap Z gtxn;
  w_raft : raft;
  w_followers : gmap Z raft;
  w_mgrs : gmap Z manager;
  w_backups : gmap Z manager;
  w_sites : gmap Z (@sched E);
  w_net : list msg }.

Definition per_region : Z := shards * N_REP_PER_SHARD.
Definition n_sites : Z := per_region * regions.
Definition all_sites : list Z := Z.of_nat <$> seq 0 (Z.to_nat n_sites).
Definition all_regions : list Z := Z.of_nat <$> seq 0 (Z.to_nat regions).
Definition par_of (site : Z) : Z := site / N_REP_PER_SHARD.
Definition region_of (site : Z) : Z := site / per_region.

(** [rpc_par_proxies_[par]] *)
Definition proxies (par : Z) : list Z :=
  if (0 <=? par) && (par <? shards * regions)
  then [par * N_REP_PER_SHARD; par * N_REP_PER_SHARD + 1; par * N_REP_PER_SHARD + 2] else [].

Definition init (db : Z -> E) : world :=
  {| w_txns := ∅; w_raft := raft_init;
     w_followers := list_to_map ((fun f => (f, raft_init)) <$> followers);
     w_mgrs := list_to_map ((fun r => (r, manager_init)) <$> all_regions);
     w_backups := list_to_map ((fun r => (r, manager_init)) <$> all_regions);
     w_sites := list_to_map ((fun s => (s, sched_init (db s) 0)) <$> all_sites);
     w_net := [] |}.

(** A [std::map] of values, in key order. *)
Definition key_le (x y : Z * value) : Prop := x.1 <= y.1.
#[local] Instance key_le_dec : RelDecision key_le.
Proof. intros x y. unfold key_le. apply _. Defined.
Definition in_key_order (vars : gmap Z value) : output_map := merge_sort key_le (map_to_list vars).

(** The messages of an event. *)
Definition event_msgs (e : event) : list msg :=
  match e with
  | ReplyClient _ => []
  | SendTxnOutput site par tid _ => [MOutput site par tid]
  | SendDependentValues par tid vars => (fun site => MDeps site tid (in_key_order vars)) <$> proxies par
  | SendToRegionManager site cmds handler => [MIRT site cmds handler]
  | SendToRaft cmds handler => [MRaftSubmit cmds handler]
  end.
Definition new_msgs (s s' : @sched E) : list msg :=
  concat (event_msgs <$> drop (length (events_ s)) (events_ s')).

(** A handler of a region manager, with what it asks the backup to append. *)
Definition at_manager (rid : Z) (h : manager -> option (manager * list (cmd_map * Z * nat))) (w : world) :
    option (world * list msg) :=
  m ← w_mgrs w !! rid;
  '(m', reqs) ← h m;
  Some (w {{ w_mgrs := <[rid := m']> (w_mgrs w) }}, (fun r => MReplicate rid r.1.1 r.2) <$> (reqs : list (cmd_map * Z * nat))).

(** A handler of a site. *)
Definition at_site (site : Z) (h : @sched E -> option (@sched E)) (w : world) : option (world * list msg) :=
  s ← w_sites w !! site;
  s' ← h s;
  Some (w {{ w_sites := <[site := s']> (w_sites w) }}, new_msgs s s').

Definition handle (m : msg) (w : world) : option (world * list msg) :=
  match m with
  | MRaftSubmit cmds handler =>
      let '(r, apps) := SlogRaftSubmit followers cmds handler (w_raft w) in
      Some (w {{ w_raft := r }}, (fun a : Z * cmd_map * nat => MAppend a.1.1 a.1.2 a.2) <$> apps)
  | MAppend f cmds index =>
      r ← w_followers w !! f;
      Some (w {{ w_followers := <[f := RaftAppendEntries cmds r]> (w_followers w) }}, [MAppendAck index])
  | MAppendAck index =>
      '(r, out) ← RaftAppendAck shards all_sites index (w_raft w);
      Some (w {{ w_raft := r }}, (fun o => MOrdered o.1 o.2) <$> (out : list (Z * ordered_crt)))
  | MOrdered site c => at_manager (region_of site) (SlogSendOrderedCRT c) w
  | MIRT site cmds handler =>
      at_manager (region_of site) (fun m => let '(m, r) := SendRmIRT cmds handler m in Some (m, [r])) w
  | MReplicate rid cmds index =>
      m ← w_backups w !! rid;
      Some (w {{ w_backups := <[rid := RmReplicate cmds m]> (w_backups w) }}, [MReplicateAck rid index])
  | MReplicateAck rid index => at_manager rid (fun m => m ← ReplicateACK index m; Some (m, [])) w
  | MBatch site b => at_site site (OnSendBatch conflict (exec site) site (par_of site) b) w
  | MOutput site par tid => at_site site (OnSendTxnOutput (par_of site) tid par) w
  | MDeps site tid vars => at_site site (OnSendDepValues conflict (exec site) (par_of site) tid vars) w
  end.

(** The commands of a transaction as the coordinator of the client sends them. *)
Record valid_cmds (tid : Z) (cmds : cmd_map) : Prop := {
  v_id : txn_of cmds = Some tid;
  v_keys : NoDup cmds.*1;
  v_cmds : forall par cs, (par, cs) ∈ cmds ->
    cs <> [] /\ fresh_cmds cs /\ Forall (fun c => root_id_ c = tid) cs /\ 0 <= par < shards * regions }.

(** A submission to [site]: a new transaction that touches the partition of the site and, if
    it is one of a region, only partitions of that region. *)
Record valid_submit (w : world) (site tid : Z) (cmds : cmd_map) (irt : bool) : Prop := {
  vs_new : w_txns w !! tid = None;
  vs_cmds : valid_cmds tid cmds;
  vs_site : 0 <= site < n_sites;
  vs_home : is_Some (cmds_at (par_of site) cmds);
  vs_region : irt = true -> Forall (fun par => par / shards = region_of site) cmds.*1 }.

Inductive step : world -> world -> Prop :=
  | submit w site tid cmds irt w' out :
      valid_submit w site tid cmds irt ->
      at_site site (OnSubmitTxn site (par_of site) shards cmds irt) w = Some (w', out) ->
      step w (w' {{ w_txns := <[tid := {| g_coord := site; g_cmds := cmds; g_irt := irt |}]> (w_txns w);
                    w_net := w_net w ++ out }})
  | deliver w l1 m l2 w' out :
      w_net w = l1 ++ m :: l2 -> handle m w = Some (w', out) ->
      step w (w' {{ w_net := l1 ++ l2 ++ out }})
  | tick w rid m m' out :
      w_mgrs w !! rid = Some m -> CheckAndSendBacth shards proxies rid m = Some (m', out) ->
      step w (w {{ w_mgrs := <[rid := m']> (w_mgrs w);
                   w_net := w_net w ++ ((fun o => MBatch o.1 o.2) <$> out) }}).
End System.
End SlogSystem.
