(* ===== verification/SlogLogs.v ===== *)
(** * The logs of Slog

    What the handlers of the global log and of a region manager (SlogOrder.v) do to their
    logs, as lists of commands with their coordinators. *)

From Stdlib Require Import ZArith Lia.
From stdpp Require Import base list option gmap sets.
From coqutil Require Import Datatypes.RecordSetters.
From S2P Require Import Prelude ALock MemSchema PieceExec SlogOrder.
Import DoubleBraceUpdate.
Local Open Scope Z_scope.

Module SlogLogs.
Import SlogOrder.

Abbreviation content := (cmd_map * Z)%type.

(** ** The global log *)
Definition contents (r : raft) : list content := (fun e => (re_cmds e, re_coord e)) <$> rlog r.

Record raft_ok (r : raft) : Prop := {
  rk_next : (next_send_index_ r <= length (rlog r))%nat;
  rk_sent : forall g e, rlog r !! g = Some e -> re_sent e = bool_decide (g < next_send_index_ r)%nat;
  rk_cmds : forall g e, rlog r !! g = Some e -> is_Some (first_cmd (re_cmds e)) }.

Section Raft.
Context (shards : Z) (managers : list Z).
Hypothesis managers_once : NoDup managers.

Abbreviation per_region := (sites_per_region shards).

(** What is sent for the positions from [n] to [n']. *)
Record sends (C : list content) (n n' : nat) (out : list (Z * ordered_crt)) : Prop := {
  sd_once : NoDup ((fun o => (o.1, oc_index o.2)) <$> out);
  sd_each : forall site c, (site, c) ∈ out -> site ∈ managers /\ is_manager shards site = true
    /\ (n <= oc_index c < n')%nat
    /\ exists cmds, C !! oc_index c = Some (cmds, oc_coord c)
         /\ oc_cmds c = region_cmds shards (site / per_region) cmds }.

Lemma sends_nil C n : sends C n n [].
Proof. split; [constructor | intros site c []%not_elem_of_nil]. Qed.

Lemma send_one_ok i r e :
  rlog r !! i = Some e -> is_Some (first_cmd (re_cmds e)) ->
  runs (SendToAllPars shards managers i r) (fun '(r', out) =>
    rlog r' = rlog r /\ next_send_index_ r' = next_send_index_ r /\ sends (contents r) i (S i) out).
Proof using managers_once.
  intros He [c0 Hc]. unfold SendToAllPars. rewrite He. cbn [mbind option_bind]. rewrite Hc. cbn [mbind option_bind].
  apply runs_ret. split_and!; [reflexivity | reflexivity |]. split.
  - rewrite <- list_fmap_compose. apply NoDup_fmap_2; [intros x y [= H]; exact H |].
    apply NoDup_ListNoDup, List.NoDup_filter, NoDup_ListNoDup, managers_once.
  - intros site c. rewrite list_elem_of_fmap. intros (s0 & [= -> ->] & Hs).
    apply list_elem_of_In, filter_In in Hs as [Hs Hm]. apply list_elem_of_In in Hs. cbn.
    split_and!; [exact Hs | exact Hm | lia | lia |]. exists (re_cmds e). unfold contents. now rewrite list_lookup_fmap, He.
Qed.

Lemma sends_app C n1 n2 n3 o1 o2 :
  (n1 <= n2 <= n3)%nat -> sends C n1 n2 o1 -> sends C n2 n3 o2 -> sends C n1 n3 (o1 ++ o2).
Proof.
  intros Hn [H1 H2] [H3 H4]. split.
  - rewrite fmap_app. apply NoDup_app. split_and!; auto. intros x Hx Hy.
    apply list_elem_of_fmap in Hx as ([s1 c1] & -> & Hx). apply list_elem_of_fmap in Hy as ([s2 c2] & [= _ Hi] & Hy).
    destruct (H2 _ _ Hx) as (_ & _ & ? & _). destruct (H4 _ _ Hy) as (_ & _ & ? & _). cbn in Hi. lia.
  - intros site c [Hx|Hx]%elem_of_app.
    + destruct (H2 _ _ Hx) as (? & ? & ? & ?). split_and!; auto; lia.
    + destruct (H4 _ _ Hx) as (? & ? & ? & ?). split_and!; auto; lia.
Qed.

Lemma send_committed_ok k : forall i r,
  raft_ok r -> i = next_send_index_ r -> (i + k = length (rlog r))%nat ->
  runs (send_committed shards managers (seq i k) r) (fun '(r', out) =>
    raft_ok r' /\ contents r' = contents r /\ (i <= next_send_index_ r')%nat
    /\ sends (contents r) i (next_send_index_ r') out).
Proof using managers_once.
  induction k as [|k IH]; intros i r Hr Hi Hk; cbn [seq send_committed].
  - apply runs_ret. subst i. split_and!; auto using sends_nil.
  - destruct (lookup_lt_is_Some_2 (rlog r) i ltac:(lia)) as [e He]. rewrite He. cbn [mbind option_bind].
    destruct (re_committed e); [|apply runs_ret; subst i; split_and!; auto using sends_nil].
    pose proof (rk_sent _ Hr _ _ He) as Hsent. rewrite bool_decide_false in Hsent by lia. rewrite Hsent.
    cbn [negb verify mbind option_bind].
    eapply runs_bind; [apply (send_one_ok i r e He (rk_cmds _ Hr _ _ He)) |].
    intros [r1 o1] (H1 & H2 & H3). cbv zeta.
    set (r2 := r1 {{ rlog := <[i := e {{ re_sent := true }}]> (rlog r1); next_send_index_ := S (next_send_index_ r1) }}).
    assert (Hl2 : rlog r2 = <[i := e {{ re_sent := true }}]> (rlog r)) by (unfold r2; cbn; now rewrite H1).
    assert (Hn2 : next_send_index_ r2 = S i) by (unfold r2; cbn; lia).
    assert (Hc2 : contents r2 = contents r).
    { unfold contents. rewrite Hl2, list_fmap_insert. apply list_insert_id. now rewrite list_lookup_fmap, He; destruct e. }
    clearbody r2. destruct (IH (S i) r2) as ([r3 o2] & Hx & H4 & H5 & H6 & H7).
    + destruct Hr as [K1 K2 K3]. split; rewrite ?Hl2, ?Hn2.
      * rewrite length_insert. lia.
      * intros g e' Hg. destruct (decide (g = i)) as [->|Hne].
        -- rewrite list_lookup_insert_eq in Hg by lia. injection Hg as <-. rewrite bool_decide_true by lia. now destruct e.
        -- rewrite list_lookup_insert_ne in Hg by auto. rewrite (K2 g e' Hg). apply bool_decide_ext. lia.
      * intros g e' Hg. destruct (decide (g = i)) as [->|Hne].
        -- rewrite list_lookup_insert_eq in Hg by lia. injection Hg as <-. pose proof (K3 _ _ He). now destruct e.
        -- rewrite list_lookup_insert_ne in Hg by auto. now apply (K3 g).
    + lia.
    + rewrite Hl2, length_insert. lia.
    + rewrite Hx. cbn [mbind option_bind]. apply runs_ret. rewrite Hc2 in *. split_and!; auto; [lia |].
      eapply sends_app; [|exact H3 | exact H7]. lia.
Qed.

Lemma append_ack_ok i r :
  raft_ok r -> (i < length (rlog r))%nat ->
  runs (RaftAppendAck shards managers i r) (fun '(r', out) =>
    raft_ok r' /\ contents r' = contents r /\ (next_send_index_ r <= next_send_index_ r')%nat
    /\ sends (contents r) (next_send_index_ r) (next_send_index_ r') out).
Proof using managers_once.
  intros Hr Hi. unfold RaftAppendAck. destruct (lookup_lt_is_Some_2 _ _ Hi) as [e He]. rewrite He. cbn [mbind option_bind].
  destruct (re_committed e); [apply runs_ret; split_and!; auto using sends_nil |]. cbv zeta.
  set (r1 := r {{ rlog := <[i := e {{ re_committed := true }}]> (rlog r) }}).
  assert (Hl : rlog r1 = <[i := e {{ re_committed := true }}]> (rlog r)) by reflexivity.
  assert (Hn : next_send_index_ r1 = next_send_index_ r) by reflexivity.
  assert (Hc : contents r1 = contents r).
  { unfold contents. rewrite Hl, list_fmap_insert. apply list_insert_id. now rewrite list_lookup_fmap, He; destruct e. }
  clearbody r1. rewrite <- Hn, <- Hc. rewrite Hn. destruct Hr as [K1 K2 K3]. apply send_committed_ok.
  - split; rewrite Hl, ?Hn, ?length_insert; auto; intros g e' Hg; (destruct (decide (g = i)) as [->|Hne];
      [rewrite list_lookup_insert_eq in Hg by lia; injection Hg as <- | rewrite list_lookup_insert_ne in Hg by auto]).
    + pose proof (K2 _ _ He). now destruct e.
    + now apply K2.
    + pose proof (K3 _ _ He). now destruct e.
    + now apply (K3 g).
  - now rewrite Hn.
  - rewrite Hl, length_insert. lia.
Qed.

Lemma raft_submit_ok followers cmds handler r :
  raft_ok r -> is_Some (first_cmd cmds) ->
  let '(r', apps) := SlogRaftSubmit followers cmds handler r in
  raft_ok r' /\ contents r' = contents r ++ [(cmds, handler)]
  /\ next_send_index_ r' = next_send_index_ r
  /\ apps = (fun f => (f, cmds, length (contents r))) <$> followers.
Proof.
  intros [K1 K2 K3] Hc. unfold SlogRaftSubmit. cbv zeta.
  set (r1 := if Nat.eqb _ 0 then _ else _).
  assert (H : rlog r1 = rlog r ++ [{| re_cmds := cmds; re_coord := handler; re_committed := false; re_sent := false |}]
    /\ next_send_index_ r1 = next_send_index_ r) by (unfold r1; now destruct (Nat.eqb _ 0)).
  destruct H as [H1 H2]. clearbody r1. unfold contents. rewrite H1, H2, fmap_app, length_fmap. split_and!; auto.
  split; rewrite ?H1, ?H2, ?length_app; [cbn; lia | |]; intros g e [Hg|[Hg Hg']]%lookup_app_Some; eauto.
  - cbn in Hg'. apply list_lookup_singleton_Some in Hg' as [Hg' <-]. cbn. rewrite bool_decide_false by lia. reflexivity.
  - apply list_lookup_singleton_Some in Hg' as [Hg' <-]. exact Hc.
Qed.
End Raft.

(** ** The log of a region *)
Definition entry_content (e : log_entry) : content := (le_cmds e, le_coord e).
Definition mcontents (m : manager) : list content := entry_content <$> mlog m.
Definition gcontents (m : manager) : list (option content) := (fun o : option log_entry => entry_content <$> o) <$> global_log_ m.

(** What the position [g] of the global log adds to the log of the region. *)
Definition inserted (gs : list (option content)) (g : nat) : option content :=
  x ← mjoin (gs !! g); if decide (x.1 = []) then None else Some x.

(** The fields that a handler leaves alone. *)
Definition same_marks (m m' : manager) : Prop :=
  mnext_send_index_ m' = mnext_send_index_ m /\ next_commit_index_ m' = next_commit_index_ m.

Lemma insert_local_ok gi cmds coord touched m :
  let '(m', req) := InsertLocalLog gi cmds coord touched m in
  mcontents m' = mcontents m ++ [(cmds, coord)] /\ req = (cmds, coord, length (mcontents m))
  /\ global_log_ m' = global_log_ m /\ global_next_insert_index_ m' = global_next_insert_index_ m
  /\ same_marks m m'.
Proof.
  unfold InsertLocalLog, mcontents, same_marks. cbv zeta.
  destruct (bool_decide _); cbn; rewrite fmap_app, length_fmap; auto 10.
Qed.

Definition reqs_below (n : nat) (reqs : list (cmd_map * Z * nat)) : Prop := Forall (fun r => (r.2 < n)%nat) reqs.

Lemma insert_ordered_ok touched k : forall i m,
  i = global_next_insert_index_ m -> (i + k = length (global_log_ m))%nat ->
  runs (insert_ordered touched (seq i k) m) (fun '(m', reqs) => exists n,
    global_next_insert_index_ m' = (i + n)%nat /\ (n <= k)%nat
    /\ gcontents m' = gcontents m /\ same_marks m m'
    /\ (forall g, (i <= g < i + n)%nat -> exists x, gcontents m !! g = Some (Some x))
    /\ mcontents m' = mcontents m ++ omap (inserted (gcontents m)) (seq i n)
    /\ reqs_below (length (mcontents m')) reqs).
Proof.
  induction k as [|k IH]; intros i m Hi Hk; cbn [seq insert_ordered].
  - apply runs_ret. exists 0%nat. rewrite Hi. cbn. rewrite app_nil_r.
    split_and!; [lia | lia | reflexivity | now split | intros g Hg; lia | reflexivity | constructor].
  - destruct (lookup_lt_is_Some_2 (global_log_ m) i ltac:(lia)) as [g Hg]. rewrite Hg. cbn [mbind option_bind].
    assert (Hgc : gcontents m !! i = Some (entry_content <$> g)) by (unfold gcontents; now rewrite list_lookup_fmap, Hg).
    destruct g as [e|].
    2: { apply runs_ret. exists 0%nat. rewrite Hi. cbn. rewrite app_nil_r.
         split_and!; [lia | lia | reflexivity | now split | intros g Hg'; lia | reflexivity | constructor]. }
    set (ins := match le_cmds e with [] => (m, []) | _ => _ end).
    assert (Hins : mcontents ins.1 = mcontents m ++ omap (inserted (gcontents m)) [i] /\ same_marks m ins.1
      /\ global_log_ ins.1 = global_log_ m /\ global_next_insert_index_ ins.1 = i
      /\ reqs_below (length (mcontents ins.1)) ins.2).
    { unfold ins. cbn [omap list_omap]. unfold inserted at 1. rewrite Hgc.
      cbn [fmap option_fmap option_map mjoin option_join mbind option_bind entry_content fst]. destruct (le_cmds e) as [|kv cmds] eqn:Ec.
      - cbn. rewrite app_nil_r. split_and!; auto; [now split | constructor].
      - rewrite decide_False by discriminate.
        pose proof (insert_local_ok (Z.of_nat i) (kv :: cmds) (le_coord e) touched m) as Hl.
        destruct (InsertLocalLog _ _ _ _ _) as [m1 req]. destruct Hl as (H1 & -> & H2 & H3 & H4). cbn [fst snd].
        unfold entry_content. rewrite Ec, H1, H2, H3. split_and!; auto. repeat constructor. cbn.
        rewrite length_app. cbn. lia. }
    destruct ins as [m1 o1]. cbn in Hins. destruct Hins as (H1 & [H2 H2'] & H3 & H4 & H5). cbv zeta.
    set (m2 := m1 {{ global_log_ := <[i := Some (e {{ le_committed := true }})]> (global_log_ m1);
                     global_next_insert_index_ := S (global_next_insert_index_ m1) }}).
    assert (Hm2 : mcontents m2 = mcontents m1 /\ same_marks m1 m2 /\ global_next_insert_index_ m2 = S i
      /\ global_log_ m2 = <[i := Some (e {{ le_committed := true }})]> (global_log_ m)).
    { unfold m2. cbn. rewrite H3, H4. split_and!; auto. now split. }
    destruct Hm2 as (M1 & [M2 M2'] & M3 & M4). clearbody m2.
    assert (M5 : gcontents m2 = gcontents m).
    { unfold gcontents. rewrite M4, list_fmap_insert. apply list_insert_id. rewrite list_lookup_fmap, Hg. now destruct e. }
    eapply runs_bind; [apply (IH (S i) m2) |].
    { now rewrite M3. }
    { rewrite M4, length_insert. lia. }
    intros [m3 o2] (n & N1 & N2 & N3 & [N4 N4'] & N5 & N6 & N7). apply runs_ret. exists (S n).
    rewrite M5 in *. split_and!; [lia | lia | exact N3 | split; congruence | | |].
    + intros g Hg'. destruct (decide (g = i)) as [->|Hne]; [eauto | apply N5; lia].
    + rewrite N6, M1, H1, <- app_assoc. f_equal. cbn. now destruct (inserted _ i).
    + apply Forall_app. split; [|exact N7]. eapply Forall_impl; [exact H5 |]. intros x Hx. cbn in *.
      rewrite N6, length_app, M1. lia.
Qed.
(** The global log of a region with an entry at a position. *)
Definition filled (i : nat) (x : content) (gs : list (option content)) : list (option content) :=
  <[i := Some x]> (gs ++ replicate (S i - length gs) None).

Lemma filled_length i x gs : length (filled i x gs) = Nat.max (S i) (length gs).
Proof. unfold filled. rewrite length_insert, length_app, length_replicate. lia. Qed.

Lemma filled_lookup i x gs g y :
  filled i x gs !! g = Some (Some y) <-> (g = i /\ y = x) \/ (g <> i /\ gs !! g = Some (Some y)).
Proof.
  unfold filled. destruct (decide (g = i)) as [->|Hne].
  - rewrite list_lookup_insert_eq by (rewrite length_app, length_replicate; lia). naive_solver.
  - rewrite list_lookup_insert_ne by auto. rewrite lookup_app. destruct (gs !! g); [naive_solver |].
    destruct (replicate _ _ !! _) eqn:Er; [|naive_solver].
    apply lookup_replicate in Er as [-> _]. naive_solver.
Qed.

Lemma send_ordered_ok c m :
  (global_next_insert_index_ m <= length (gcontents m))%nat ->
  (forall x, gcontents m !! oc_index c <> Some (Some x)) ->
  runs (SlogSendOrderedCRT c m) (fun '(m', reqs) => exists n,
    let gs := filled (oc_index c) (oc_cmds c, oc_coord c) (gcontents m) in
    let i := global_next_insert_index_ m in
    gcontents m' = gs /\ same_marks m m'
    /\ global_next_insert_index_ m' = (i + n)%nat /\ (i + n <= length gs)%nat
    /\ (forall g, (i <= g < i + n)%nat -> exists x, gs !! g = Some (Some x))
    /\ mcontents m' = mcontents m ++ omap (inserted gs) (seq i n)
    /\ reqs_below (length (mcontents m')) reqs).
Proof.
  intros Hn Hfree. unfold SlogSendOrderedCRT. cbv zeta.
  set (m1 := m {{ global_log_ := _; barrier_global_indices_ := _ }}).
  assert (Hl1 : global_log_ m1 = global_log_ m ++ replicate (S (oc_index c) - length (global_log_ m)) None) by reflexivity.
  assert (H1 : mcontents m1 = mcontents m /\ same_marks m m1
               /\ global_next_insert_index_ m1 = global_next_insert_index_ m) by (split_and!; [reflexivity | now split | reflexivity]).
  destruct H1 as (H1 & [H2 H2'] & H3). clearbody m1.
  destruct (lookup_lt_is_Some_2 (global_log_ m1) (oc_index c)) as [g Hg];
    [rewrite Hl1, length_app, length_replicate; lia |].
  rewrite Hg. cbn [mbind option_bind].
  assert (g = None) as ->.
  { rewrite Hl1 in Hg. destruct g as [e|]; [|reflexivity]. exfalso. apply lookup_app_Some in Hg as [Hg|[_ Hg]].
    - apply (Hfree (entry_content e)). unfold gcontents. now rewrite list_lookup_fmap, Hg.
    - now apply lookup_replicate in Hg. }
  rewrite bool_decide_true by reflexivity. cbn [verify mbind option_bind].
  set (e := {| le_cmds := oc_cmds c; le_coord := oc_coord c; le_committed := false; touched_pars_all_ := oc_touched c |}).
  set (m2 := m1 {{ global_log_ := <[oc_index c := Some e]> (global_log_ m1) }}).
  assert (M1 : mcontents m2 = mcontents m /\ same_marks m m2
    /\ global_next_insert_index_ m2 = global_next_insert_index_ m
    /\ global_log_ m2 = <[oc_index c := Some e]> (global_log_ m1)).
  { unfold m2. split_and!; [exact H1 | split; [exact H2 | exact H2'] | exact H3 | reflexivity]. }
  destruct M1 as (M1 & [M2 M2'] & M3 & M4). clearbody m2.
  assert (M5 : gcontents m2 = filled (oc_index c) (oc_cmds c, oc_coord c) (gcontents m)).
  { unfold gcontents, filled. rewrite M4, Hl1, list_fmap_insert, fmap_app, fmap_replicate, length_fmap. reflexivity. }
  assert (Hlen : length (global_log_ m2) = length (gcontents m2)) by (unfold gcontents; now rewrite length_fmap).
  eapply runs_mono; [apply (insert_ordered_ok (oc_touched c) _ _ m2 eq_refl) |].
  { rewrite Hlen, M5, filled_length, M3. lia. }
  intros [m' reqs] (n & N1 & N2 & N3 & [N4 N4'] & N5 & N6 & N7). exists n. cbv zeta.
  rewrite Hlen in N2. rewrite M5 in N2, N3, N5, N6. rewrite M3 in N1, N2, N5, N6. rewrite M1 in N6.
  split_and!; auto; [split; congruence |]. rewrite filled_length in *. lia.
Qed.

Lemma count_committed_le es : (count_committed es <= length es)%nat.
Proof. induction es as [|e es IH]; cbn; [lia |]. destruct (le_committed e); lia. Qed.

Lemma replicate_ack_ok i m :
  (i < length (mcontents m))%nat -> (next_commit_index_ m <= length (mcontents m))%nat ->
  runs (ReplicateACK i m) (fun m' => mcontents m' = mcontents m /\ gcontents m' = gcontents m
    /\ global_next_insert_index_ m' = global_next_insert_index_ m /\ mnext_send_index_ m' = mnext_send_index_ m
    /\ (next_commit_index_ m <= next_commit_index_ m' <= length (mcontents m))%nat).
Proof.
  unfold mcontents. rewrite length_fmap. intros Hi Hc. unfold ReplicateACK.
  destruct (lookup_lt_is_Some_2 _ _ Hi) as [e He]. rewrite He. cbn [mbind option_bind]. apply runs_ret.
  assert (Hl : mcontents (m {{ mlog := <[i := e {{ le_committed := true }}]> (mlog m) }}) = mcontents m).
  { unfold mcontents. cbn. rewrite list_fmap_insert. apply list_insert_id. rewrite list_lookup_fmap, He. now destruct e. }
  set (log := <[i := e {{ le_committed := true }}]> (mlog m)) in *.
  split_and!; [exact Hl | reflexivity | reflexivity | reflexivity |..].
  - change (next_commit_index_ m <= next_commit_index_ m + count_committed (drop (next_commit_index_ m) log))%nat. lia.
  - change (next_commit_index_ m + count_committed (drop (next_commit_index_ m) log) <= length (mlog m))%nat.
    pose proof (count_committed_le (drop (next_commit_index_ m) log)) as H.
    unfold log in H at 2. rewrite length_drop, length_insert in H. lia.
Qed.

(** ** Batches *)

(** The transaction of a batch for a partition, from an entry of the log. *)
Definition from_entry (par : Z) (x : content) (b : batch_txn) : Prop :=
  txn_of x.1 = Some (bt_id b) /\ bt_cmds b = default [] (cmds_at par x.1) /\ bt_coord b = x.2.

Record carries (L : list content) (n n' : nat) (par : Z) (b : batch) : Prop := {
  cy_start : b_start b = n;
  cy_length : (n + length (b_txns b) = n')%nat;
  cy_each : forall k x, b_txns b !! k = Some x -> exists y, L !! (n + k)%nat = Some y /\ from_entry par y x }.

Section Batches.
Context (shards : Z) (proxies : Z -> list Z).

Lemma send_batch_ok par m :
  (mnext_send_index_ m <= next_commit_index_ m <= length (mcontents m))%nat ->
  Forall (fun x => is_Some (txn_of x.1)) (mcontents m) ->
  runs (send_batch_to proxies par m) (fun '(m', out) =>
    mlog m' = mlog m /\ global_log_ m' = global_log_ m /\ same_marks m m'
    /\ global_next_insert_index_ m' = global_next_insert_index_ m /\ out.*1 = proxies par
    /\ Forall (fun o => carries (mcontents m) (mnext_send_index_ m) (next_commit_index_ m) par o.2) out).
Proof.
  intros Hn Hid. unfold send_batch_to. set (es := drop _ (take _ _)).
  assert (Hes : forall k e, es !! k = Some e -> mlog m !! (mnext_send_index_ m + k)%nat = Some e).
  { intros k e. unfold es. rewrite lookup_drop. intros H. now apply lookup_take_Some in H as [H _]. }
  assert (Hb : is_Some (mapM (batch_entry par) es)).
  { apply mapM_is_Some_2, Forall_lookup. intros k e He%Hes. rewrite Forall_lookup in Hid.
    destruct (Hid (mnext_send_index_ m + k)%nat (entry_content e)) as [tid Ht];
      [unfold mcontents; now rewrite list_lookup_fmap, He |].
    unfold batch_entry. change (txn_of (le_cmds e) = Some tid) in Ht. cbv beta delta [compose]. rewrite Ht. cbn. eauto. }
  destruct Hb as [txns Hb]. rewrite Hb. cbn [mbind option_bind]. apply mapM_Some in Hb. apply runs_ret.
  split_and!; [reflexivity | reflexivity | now split | reflexivity | |].
  - rewrite <- list_fmap_compose. now apply list_fmap_id.
  - apply Forall_fmap, Forall_true. intros site. split.
    + reflexivity.
    + cbn [b_txns snd compose]. rewrite <- (Forall2_length _ _ _ Hb). unfold es.
      unfold mcontents in Hn. rewrite length_fmap in Hn. rewrite length_drop, length_take. lia.
    + cbn [b_txns snd compose]. intros k x Hx. destruct (Forall2_lookup_r _ _ _ _ _ Hb Hx) as (e & He & Hx').
      exists (entry_content e). split; [unfold mcontents; now rewrite list_lookup_fmap, (Hes _ _ He) |].
      unfold batch_entry in Hx'. unfold from_entry, entry_content. cbn.
      destruct (txn_of (le_cmds e)); [|discriminate]. cbn in Hx'. injection Hx' as <-. auto.
Qed.

Lemma send_batches_ok pars : forall m,
  (mnext_send_index_ m <= next_commit_index_ m <= length (mcontents m))%nat ->
  Forall (fun x => is_Some (txn_of x.1)) (mcontents m) ->
  runs (send_batches proxies pars m) (fun '(m', out) =>
    mlog m' = mlog m /\ global_log_ m' = global_log_ m /\ same_marks m m'
    /\ global_next_insert_index_ m' = global_next_insert_index_ m /\ out.*1 = concat (proxies <$> pars)
    /\ Forall (fun o => exists par, par ∈ pars /\ o.1 ∈ proxies par
          /\ carries (mcontents m) (mnext_send_index_ m) (next_commit_index_ m) par o.2) out).
Proof.
  induction pars as [|par pars IH]; intros m Hn Hid; cbn [send_batches].
  - apply runs_ret. split_and!; try reflexivity; [now split | constructor].
  - eapply runs_bind; [now apply (send_batch_ok par m) |].
    intros [m1 o1] (H1 & H2 & [H3 H3'] & H4 & H5 & H6).
    assert (Hm : mcontents m1 = mcontents m) by (unfold mcontents; now rewrite H1).
    eapply runs_bind; [apply (IH m1); rewrite Hm, ?H3, ?H3'; auto |].
    intros [m2 o2] (K1 & K2 & [K3 K3'] & K4 & K5 & K6). apply runs_ret. rewrite Hm, H3, H3' in K6.
    split_and!; try congruence.
    + split; congruence.
    + cbn. now rewrite fmap_app, H5, K5.
    + apply Forall_app. split.
      * apply Forall_forall. intros o Ho. exists par. split; [left |].
        split; [rewrite <- H5; now apply list_elem_of_fmap_2 |]. rewrite Forall_forall in H6. now apply H6.
      * eapply Forall_impl; [exact K6 |]. intros o (par' & Hp & Hx). exists par'. split; [now right | exact Hx].
Qed.

Lemma send_all_ok rid m :
  (mnext_send_index_ m <= next_commit_index_ m <= length (mcontents m))%nat ->
  Forall (fun x => is_Some (txn_of x.1)) (mcontents m) ->
  runs (CheckAndSendBacth shards proxies rid m) (fun '(m', out) =>
    mcontents m' = mcontents m /\ gcontents m' = gcontents m
    /\ mnext_send_index_ m' = next_commit_index_ m /\ next_commit_index_ m' = next_commit_index_ m
    /\ global_next_insert_index_ m' = global_next_insert_index_ m
    /\ (out = [] \/ out.*1 = concat (proxies <$> region_pars shards rid))
    /\ Forall (fun o => exists par, par ∈ region_pars shards rid /\ o.1 ∈ proxies par
          /\ carries (mcontents m) (mnext_send_index_ m) (next_commit_index_ m) par o.2) out).
Proof.
  intros Hn Hid. unfold CheckAndSendBacth. destruct (Nat.ltb_spec (mnext_send_index_ m) (next_commit_index_ m)).
  - eapply runs_bind; [now apply (send_batches_ok (region_pars shards rid) m) |].
    intros [m1 out] (H1 & H2 & [H3 H3'] & H4 & H5 & H6). apply runs_ret.
    split_and!; [change (mcontents m1 = mcontents m); unfold mcontents; now rewrite H1
                | change (gcontents m1 = gcontents m); unfold gcontents; now rewrite H2 | exact H3' | exact H3'
                | exact H4 | now right | exact H6].
  - apply runs_ret. split_and!; auto; lia.
Qed.
End Batches.
End SlogLogs.
