(* ===== verification/SlogInv.v ===== *)
(** * What a Slog deployment keeps

    The invariant of the worlds of SlogSystem.v, component by component: the global log, the
    logs of the regions, the queues of the sites, and the messages between them. *)

From Stdlib Require Import ZArith Lia.
From stdpp Require Import base list option gmap sets relations sorting.
From coqutil Require Import Datatypes.RecordSetters.
From S2P Require Import Prelude ALock MemSchema PieceExec RccTxn SlogOrder SlogSched SlogExec SlogSite SlogSystem SlogLogs.
Import DoubleBraceUpdate.
Local Open Scope Z_scope.

Module SlogInv.
Import SlogOrder SlogSched SlogExec SlogSite SlogSystem SlogLogs.

(** ** Lists *)
Lemma filter_split {A} (f : A -> bool) l : l ≡ₚ List.filter f l ++ List.filter (fun x => negb (f x)) l.
Proof.
  induction l as [|x l IH]; cbn; [reflexivity |]. destruct (f x); cbn.
  - now rewrite <- IH.
  - rewrite <- Permutation_middle. now rewrite <- IH.
Qed.

Lemma elem_of_filter_b {A} (f : A -> bool) l x : x ∈ List.filter f l <-> x ∈ l /\ f x = true.
Proof. now rewrite !list_elem_of_In, filter_In. Qed.

Lemma omap_ext_in {A B} (f g : A -> option B) (l : list A) : (forall x, x ∈ l -> f x = g x) -> omap f l = omap g l.
Proof.
  induction l as [|x l IH]; intros H; cbn; [reflexivity |]. rewrite (H x) by left.
  rewrite IH; [reflexivity |]. intros y Hy. apply H. now right.
Qed.

Lemma filter_ext_in' {A} (f g : A -> bool) l : (forall x, x ∈ l -> f x = g x) -> List.filter f l = List.filter g l.
Proof. intros H. apply List.filter_ext_in. intros x Hx. apply H. now apply list_elem_of_In. Qed.

Lemma omap_none {A B} (f : A -> option B) (l : list A) : Forall (fun x => f x = None) l -> omap f l = [].
Proof. induction 1 as [|x l Hx _ IH]; cbn; [reflexivity |]. now rewrite Hx. Qed.

Lemma prefix_lookup {A} (l l' : list A) k x : l `prefix_of` l' -> l !! k = Some x -> l' !! k = Some x.
Proof. intros H Hk. eapply prefix_lookup_Some; eauto. Qed.

(** ** Maps of commands *)
Lemma cmds_at_elem par cmds cs : cmds_at par cmds = Some cs -> (par, cs) ∈ cmds.
Proof.
  unfold cmds_at. destruct (find _ cmds) as [[k x]|] eqn:Ef; [|discriminate]. cbn. intros [= <-].
  apply find_some in Ef as [Hin Hk]. apply list_elem_of_In. cbn in Hk. apply Z.eqb_eq in Hk. now subst.
Qed.

Section Cmds.
Context (shards regions : Z).

Lemma region_cmds_elem rid cmds kv :
  kv ∈ region_cmds shards rid cmds <-> kv ∈ cmds /\ kv.1 / shards = rid.
Proof. unfold region_cmds, region_of_par. now rewrite elem_of_filter_b, Z.eqb_eq. Qed.

Lemma cmds_at_region rid cmds par :
  par / shards = rid -> cmds_at par (region_cmds shards rid cmds) = cmds_at par cmds.
Proof.
  intros Hp. unfold cmds_at, region_cmds, region_of_par. f_equal. induction cmds as [|[k x] l IH]; cbn; [reflexivity |].
  destruct (Z.eqb_spec k par) as [->|Hne].
  - rewrite Hp, Z.eqb_refl. cbn. now rewrite Z.eqb_refl.
  - destruct (_ =? rid); cbn; [|exact IH]. destruct (Z.eqb_spec k par); [done | exact IH].
Qed.

Lemma region_cmds_all rid cmds :
  Forall (fun par => par / shards = rid) cmds.*1 -> region_cmds shards rid cmds = cmds.
Proof.
  unfold region_cmds, region_of_par. intros H. apply forallb_filter_id. apply forallb_forall. intros kv Hin.
  rewrite Forall_fmap, Forall_forall in H. apply Z.eqb_eq, H. now apply list_elem_of_In.
Qed.

Lemma valid_region_id tid cmds rid :
  valid_cmds shards regions tid cmds -> region_cmds shards rid cmds <> [] ->
  txn_of (region_cmds shards rid cmds) = Some tid.
Proof.
  intros V Hne. destruct (region_cmds shards rid cmds) as [|[par cs] l] eqn:Er; [done |].
  assert (Hin : (par, cs) ∈ cmds) by (apply (region_cmds_elem rid); rewrite Er; left).
  destruct (v_cmds _ _ _ _ V par cs Hin) as (Hcs & _ & Hid & _). unfold txn_of, first_cmd. cbn.
  destruct cs as [|c cs]; [done |]. cbn. now apply Forall_cons in Hid as [-> _].
Qed.

Lemma valid_at_fresh tid cmds par :
  valid_cmds shards regions tid cmds -> fresh_cmds (default [] (cmds_at par cmds)).
Proof.
  intros V. destruct (cmds_at par cmds) as [cs|] eqn:Ea; [|constructor]. cbn.
  apply cmds_at_elem in Ea. now destruct (v_cmds _ _ _ _ V par cs Ea) as (_ & Hf & _).
Qed.

Lemma valid_first tid cmds : valid_cmds shards regions tid cmds -> is_Some (first_cmd cmds).
Proof. intros V. pose proof (v_id _ _ _ _ V) as H. unfold txn_of in H. destruct (first_cmd cmds); [eauto | discriminate]. Qed.
End Cmds.

(** ** Places *)
Section Places.
Context (shards regions : Z) (shards_pos : 0 < shards).

Lemma region_of_par_of site : region_of shards site = par_of site / shards.
Proof using shards_pos.
  unfold region_of, par_of, per_region, N_REP_PER_SHARD. rewrite Z.div_div by lia. f_equal. lia.
Qed.

Lemma region_of_range site : 0 <= site < n_sites shards regions -> 0 <= region_of shards site < regions.
Proof using shards_pos.
  unfold n_sites, region_of, per_region, N_REP_PER_SHARD. intros H. split; [apply Z.div_pos; lia |].
  apply Z.div_lt_upper_bound; lia.
Qed.

Lemma par_of_range site : 0 <= site < n_sites shards regions -> 0 <= par_of site < shards * regions.
Proof using shards_pos.
  unfold n_sites, par_of, per_region, N_REP_PER_SHARD. intros H. split; [apply Z.div_pos; lia |].
  apply Z.div_lt_upper_bound; lia.
Qed.

Lemma region_first rid : region_of shards (rid * shards * N_REP_PER_SHARD) = rid.
Proof using shards_pos.
  unfold region_of, per_region, N_REP_PER_SHARD. rewrite <- Z.mul_assoc. apply Z.div_mul. lia.
Qed.

Lemma manager_site site : is_manager shards site = true -> site = region_of shards site * per_region shards.
Proof using shards_pos.
  unfold is_manager, region_of, per_region, sites_per_region. intros H%Z.eqb_eq.
  pose proof (Z.div_mod site (shards * N_REP_PER_SHARD)). unfold N_REP_PER_SHARD in *. lia.
Qed.

Lemma elem_all_sites site : site ∈ all_sites shards regions <-> 0 <= site < n_sites shards regions.
Proof.
  unfold all_sites. rewrite list_elem_of_fmap. split.
  - intros (k & -> & Hk%elem_of_seq). lia.
  - intros H. exists (Z.to_nat site). split; [lia |]. apply elem_of_seq. lia.
Qed.

Lemma all_sites_once : NoDup (all_sites shards regions).
Proof. apply NoDup_fmap_2; [intros x y; lia | apply NoDup_seq]. Qed.

Lemma proxies_elem par site :
  site ∈ proxies shards regions par -> par_of site = par /\ 0 <= site < n_sites shards regions.
Proof using shards_pos.
  unfold proxies. destruct (Z.leb_spec 0 par); cbn; [|intros []%not_elem_of_nil].
  destruct (Z.ltb_spec par (shards * regions)); [|intros []%not_elem_of_nil].
  unfold n_sites, per_region, par_of, N_REP_PER_SHARD. intros Hs.
  assert (Hc : exists d, 0 <= d < 3 /\ site = par * 3 + d).
  { rewrite !elem_of_cons in Hs. destruct Hs as [->|[->|[->|[]%not_elem_of_nil]]];
      [exists 0 | exists 1 | exists 2]; lia. }
  destruct Hc as (d & Hd & ->). split; [|nia].
  rewrite Z.div_add_l by lia. rewrite (Z.div_small d 3) by lia. lia.
Qed.

Lemma region_pars_elem rid par : par ∈ region_pars shards rid -> par / shards = rid.
Proof using shards_pos.
  unfold region_pars. rewrite list_elem_of_fmap. intros (k & -> & Hk%elem_of_seq).
  rewrite Z.div_add_l by lia. rewrite (Z.div_small (Z.of_nat k)) by lia. lia.
Qed.

Lemma proxies_once par : NoDup (proxies shards regions par).
Proof.
  unfold proxies. destruct (_ && _); [|constructor].
  rewrite !NoDup_cons, !not_elem_of_cons. split_and!; try lia; try apply not_elem_of_nil. constructor.
Qed.

Lemma concat_proxies_once pars : NoDup pars -> NoDup (concat (proxies shards regions <$> pars)).
Proof using shards_pos.
  induction 1 as [|par pars Hp _ IH]; cbn; [constructor |]. apply NoDup_app. split_and!; [apply proxies_once | | exact IH].
  intros site H1 H2. apply Hp. apply list_elem_of_In, in_concat in H2 as (l & Hl & H2).
  apply list_elem_of_In, list_elem_of_fmap in Hl as (par' & -> & Hl). apply list_elem_of_In in H2.
  destruct (proxies_elem _ _ H1) as [<- _]. destruct (proxies_elem _ _ H2) as [-> _]. exact Hl.
Qed.

Lemma region_proxies_once rid : NoDup (concat (proxies shards regions <$> region_pars shards rid)).
Proof using shards_pos.
  apply concat_proxies_once. unfold region_pars. apply NoDup_fmap_2; [intros x y; lia | apply NoDup_seq].
Qed.
End Places.

(** ** The logs *)
Section Logs.
Context (shards regions : Z) (shards_pos : 0 < shards).

Abbreviation txns := (gmap Z gtxn).

(** The identifier of an entry of a log. *)
Definition cid (x : content) : option Z := txn_of x.1.

(** A transaction that was submitted. *)
Record gtxn_ok (tid : Z) (g : gtxn) : Prop := {
  gk_cmds : valid_cmds shards regions tid (g_cmds g);
  gk_site : 0 <= g_coord g < n_sites shards regions;
  gk_home : is_Some (cmds_at (par_of (g_coord g)) (g_cmds g));
  gk_region : g_irt g = true -> Forall (fun par => par / shards = region_of shards (g_coord g)) (g_cmds g).*1 }.
Definition txns_ok (G : txns) : Prop := forall tid g, G !! tid = Some g -> gtxn_ok tid g.

Definition registered (G : txns) (irt : bool) (x : content) : Prop :=
  exists tid, cid x = Some tid /\ G !! tid = Some {| g_coord := x.2; g_cmds := x.1; g_irt := irt |}.

Lemma registered_mono G G' irt x : G ⊆ G' -> registered G irt x -> registered G' irt x.
Proof. intros HG (tid & H1 & H2). exists tid. split; [exact H1 | now apply (lookup_weaken _ _ _ _ H2 HG)]. Qed.

(** The global log, with the entries on their way to it and the positions to be
    acknowledged. *)
Record raft_inv (G : txns) (r : raft) (subs : list content) (acks : list nat) : Prop := {
  ri_ok : raft_ok r;
  ri_reg : Forall (registered G false) (subs ++ contents r);
  ri_once : NoDup (cid <$> subs ++ contents r);
  ri_acks : Forall (fun i => (i < length (contents r))%nat) acks }.

(** What the region gets of an entry of the global log. *)
Definition region_part (rid : Z) (x : content) : content := (region_cmds shards rid x.1, x.2).
Definition part (rid : Z) (C : list content) (g : nat) : option content :=
  x ← C !! g; if decide (region_cmds shards rid x.1 = []) then None else Some (region_part rid x).

Definition is_crt (G : txns) (x : content) : bool :=
  match cid x with
  | Some tid => match G !! tid with Some g => negb (g_irt g) | None => false end
  | None => false
  end.
Abbreviation crts G := (List.filter (is_crt G)).
Abbreviation irts G := (List.filter (fun x => negb (is_crt G x))).

(** An entry of the log of a region. *)
Definition local_entry (G : txns) (rid : Z) (x : content) : Prop :=
  exists tid g, cid x = Some tid /\ G !! tid = Some g /\ x.2 = g_coord g /\ x.1 = region_cmds shards rid (g_cmds g).

(** The log of a region: its transactions of several regions are those of the first
    positions of the global log, in order. *)
Record mgr_inv (G : txns) (C : list content) (n : nat) (rid : Z) (m : manager)
    (ords : list ordered_crt) (subs : list content) (reps : list nat) : Prop := {
  mi_glog : forall g y, gcontents m !! g = Some (Some y) ->
    (g < n)%nat /\ exists x, C !! g = Some x /\ y = region_part rid x;
  mi_ords : Forall (fun c => (oc_index c < n)%nat
    /\ (exists x, C !! oc_index c = Some x /\ (oc_cmds c, oc_coord c) = region_part rid x)
    /\ forall y, gcontents m !! oc_index c <> Some (Some y)) ords;
  mi_ords_once : NoDup (oc_index <$> ords);
  mi_next : (global_next_insert_index_ m <= length (gcontents m))%nat;
  mi_filled : forall g, (g < global_next_insert_index_ m)%nat -> exists y, gcontents m !! g = Some (Some y);
  mi_crts : crts G (mcontents m) = omap (part rid C) (seq 0 (global_next_insert_index_ m));
  mi_irts : Forall (fun x => registered G true x /\ region_of shards x.2 = rid) (subs ++ irts G (mcontents m));
  mi_irts_once : NoDup (cid <$> subs ++ irts G (mcontents m));
  mi_send : (mnext_send_index_ m <= next_commit_index_ m <= length (mcontents m))%nat;
  mi_reps : Forall (fun i => (i < length (mcontents m))%nat) reps }.

(** Entries of the global log. *)
Lemma part_spec G C rid g x y :
  txns_ok G -> Forall (registered G false) C -> C !! g = Some x -> part rid C g = Some y ->
  y = region_part rid x /\ cid y = cid x /\ is_crt G y = true /\ local_entry G rid y.
Proof.
  intros HG HC Hx. unfold part. rewrite Hx. cbn. case_decide as Hr; [discriminate |]. intros [= <-].
  rewrite Forall_lookup in HC. destruct (HC g x Hx) as (tid & Hc & Ht).
  pose proof (gk_cmds _ _ (HG _ _ Ht)) as V. cbn in V.
  assert (Hid : cid (region_part rid x) = Some tid) by exact (valid_region_id shards regions tid x.1 rid V Hr).
  split_and!; auto.
  - congruence.
  - unfold is_crt. rewrite Hid, Ht. reflexivity.
  - eexists tid, _. split_and!; eauto.
Qed.

Lemma part_inv rid C g y : part rid C g = Some y -> exists x, C !! g = Some x.
Proof. unfold part. destruct (C !! g); [eauto | discriminate]. Qed.

Lemma parts_once G C rid k n :
  txns_ok G -> Forall (registered G false) C -> NoDup (cid <$> C) ->
  NoDup (cid <$> omap (part rid C) (seq k n)).
Proof.
  intros HG HC Hd. revert k. induction n as [|n IH]; intros k; [constructor |]. cbn [seq omap list_omap].
  destruct (part rid C k) as [y|] eqn:Ep; [|apply IH]. cbn. apply NoDup_cons. split; [|apply IH].
  rewrite list_elem_of_fmap. intros (y' & Hy & (g & Hg & Hp)%list_elem_of_omap). apply elem_of_seq in Hg.
  destruct (part_inv _ _ _ _ Ep) as [x Hx]. destruct (part_inv _ _ _ _ Hp) as [x' Hx'].
  destruct (part_spec G C rid k x y HG HC Hx Ep) as (_ & H1 & _).
  destruct (part_spec G C rid g x' y' HG HC Hx' Hp) as (_ & H2 & _).
  assert (k = g); [|lia]. rewrite NoDup_alt in Hd. apply (Hd k g (cid x)); rewrite list_lookup_fmap.
  - now rewrite Hx.
  - rewrite Hx'. cbn. congruence.
Qed.

Lemma registered_irt_entry G rid x :
  txns_ok G -> registered G true x -> region_of shards x.2 = rid -> local_entry G rid x.
Proof.
  intros HG (tid & Hc & Ht) Hr. eexists tid, _. split_and!; eauto. cbn.
  symmetry. apply region_cmds_all. rewrite <- Hr. now apply (gk_region _ _ (HG _ _ Ht)).
Qed.

Section Region.
Context (G : txns) (C : list content) (n : nat) (rid : Z) (m : manager).
Context (ords : list ordered_crt) (subs : list content) (reps : list nat).
Hypothesis HG : txns_ok G.
Hypothesis HC : Forall (registered G false) C.
Hypothesis Hd : NoDup (cid <$> C).
Hypothesis M : mgr_inv G C n rid m ords subs reps.

Lemma mgr_entry x : x ∈ mcontents m -> local_entry G rid x.
Proof using HG HC M.
  intros Hx. destruct (is_crt G x) eqn:Ec.
  - assert (Hin : x ∈ crts G (mcontents m)) by now apply elem_of_filter_b.
    rewrite (mi_crts _ _ _ _ _ _ _ _ M) in Hin. apply list_elem_of_omap in Hin as (g & _ & Hp).
    destruct (part_inv _ _ _ _ Hp) as [x' Hx']. now destruct (part_spec G C rid g x' x HG HC Hx' Hp).
  - assert (Hin : x ∈ irts G (mcontents m)) by (apply elem_of_filter_b; split; [exact Hx | now rewrite Ec]).
    pose proof (mi_irts _ _ _ _ _ _ _ _ M) as Hi. apply Forall_app in Hi as [_ Hi]. rewrite Forall_forall in Hi.
    destruct (Hi x Hin). now apply registered_irt_entry.
Qed.

Lemma mgr_ids_once : NoDup (cid <$> mcontents m).
Proof using HG HC Hd M.
  rewrite (filter_split (is_crt G)), fmap_app. apply NoDup_app. split_and!.
  - rewrite (mi_crts _ _ _ _ _ _ _ _ M). now apply (parts_once G).
  - intros i H1 H2. apply list_elem_of_fmap in H1 as (x & -> & [_ Hx]%elem_of_filter_b).
    apply list_elem_of_fmap in H2 as (y & Heq & [_ Hy]%elem_of_filter_b). unfold is_crt in Hx, Hy.
    rewrite Heq in Hx. destruct (cid y); [|discriminate]. destruct (G !! z); [|discriminate].
    destruct (negb (g_irt g)); discriminate.
  - pose proof (mi_irts_once _ _ _ _ _ _ _ _ M) as Hi. rewrite fmap_app in Hi. now apply NoDup_app in Hi as (_ & _ & Hi).
Qed.

Lemma mgr_ids : Forall (fun x => is_Some (txn_of x.1)) (mcontents m).
Proof using HG HC M.
  apply Forall_forall. intros x (tid & g & Hc & _)%mgr_entry. unfold cid in Hc. eauto.
Qed.
End Region.

(** *** Handlers of a region manager *)

Lemma inserted_part C rid gs g y x :
  gs !! g = Some (Some y) -> C !! g = Some x -> y = region_part rid x -> inserted gs g = part rid C g.
Proof. intros Hy Hx ->. unfold inserted, part. now rewrite Hy, Hx. Qed.

Lemma parts_crts G C rid l :
  txns_ok G -> Forall (registered G false) C ->
  crts G (omap (part rid C) l) = omap (part rid C) l /\ irts G (omap (part rid C) l) = [].
Proof.
  intros HG HC.
  assert (Hall : forall y, y ∈ omap (part rid C) l -> is_crt G y = true).
  { intros y (g & _ & Hp)%list_elem_of_omap. destruct (part_inv _ _ _ _ Hp) as [x Hx].
    now destruct (part_spec G C rid g x y HG HC Hx Hp) as (_ & _ & ? & _). }
  split; [apply forallb_filter_id, forallb_forall; intros y Hy; now apply Hall, list_elem_of_In |].
  apply filter_none, Forall_forall. intros y Hy. now rewrite Hall.
Qed.

Section Handlers.
Context (G : txns) (C : list content) (n : nat) (rid : Z) (m : manager).
Hypothesis HG : txns_ok G.
Hypothesis HC : Forall (registered G false) C.

Lemma mgr_ordered c ords subs reps :
  mgr_inv G C n rid m (c :: ords) subs reps ->
  runs (SlogSendOrderedCRT c m) (fun '(m', reqs) =>
    mgr_inv G C n rid m' ords subs ((snd <$> reqs) ++ reps)
    /\ mcontents m `prefix_of` mcontents m' /\ mnext_send_index_ m' = mnext_send_index_ m).
Proof using HG HC.
  intros [M1 M2 M3 M4 M5 M6 M7 M8 M9 M10]. apply Forall_cons in M2 as [(Hc1 & (x & Hc2 & Hc3) & Hc4) M2].
  cbn in M3. apply NoDup_cons in M3 as [M3 M3']. eapply runs_mono; [now apply send_ordered_ok |].
  intros [m' reqs] (k & K1 & [K2 K2'] & K3 & K4 & K5 & K6 & K7). cbv zeta in *. rewrite <- K1 in *.
  assert (Hgl : forall g y, gcontents m' !! g = Some (Some y) -> (g < n)%nat /\ exists x, C !! g = Some x /\ y = region_part rid x).
  { intros g y. rewrite K1, filled_lookup. intros [[-> ->]|[_ Hy]]; [|now apply M1]. split; [exact Hc1 | eauto]. }
  set (i := global_next_insert_index_ m) in *.
  assert (Hnew : omap (inserted (gcontents m')) (seq i k) = omap (part rid C) (seq i k)).
  { apply omap_ext_in. intros g Hg%elem_of_seq. destruct (K5 g ltac:(lia)) as [y Hy]. destruct (Hgl g y Hy) as (_ & x' & Hx' & Hy').
    exact (inserted_part C rid _ g y x' Hy Hx' Hy'). }
  rewrite Hnew in K6. destruct (parts_crts G C rid (seq i k) HG HC) as [Hp1 Hp2].
  assert (Hcrt : crts G (mcontents m') = crts G (mcontents m) ++ omap (part rid C) (seq i k))
    by now rewrite K6, List.filter_app, Hp1.
  assert (Hirt : irts G (mcontents m') = irts G (mcontents m)) by now rewrite K6, List.filter_app, Hp2, app_nil_r.
  split_and!; [split; auto | rewrite K6; apply prefix_app_r; reflexivity | exact K2].
  - apply Forall_forall. intros c' Hc'. rewrite Forall_forall in M2. destruct (M2 c' Hc') as (H1 & H2 & H3).
    split_and!; auto. intros y. rewrite K1, filled_lookup. intros [[Heq _]|[_ Hy]]; [|now apply (H3 y)].
    apply M3. rewrite <- Heq. now apply list_elem_of_fmap_2.
  - rewrite K3. exact K4.
  - intros g Hg. rewrite K3 in Hg. destruct (decide (g < i)%nat) as [Hlt|Hge].
    + destruct (M5 g Hlt) as [y Hy]. destruct (decide (g = oc_index c)) as [->|Hne]; [now destruct (Hc4 y) |].
      exists y. rewrite K1, filled_lookup. auto.
    + apply K5. lia.
  - rewrite Hcrt, M6, K3, seq_app, omap_app. reflexivity.
  - now rewrite Hirt.
  - now rewrite Hirt.
  - rewrite K2, K2', K6, length_app. lia.
  - apply Forall_app. split; [now apply Forall_fmap |]. eapply Forall_impl; [exact M10 |]. cbn. intros j Hj.
    rewrite K6, length_app. lia.
Qed.

Lemma registered_not_crt x : registered G true x -> is_crt G x = false.
Proof. intros (tid & Hc & Ht). unfold is_crt. now rewrite Hc, Ht. Qed.

Lemma mgr_irt cmds handler ords subs reps :
  mgr_inv G C n rid m ords ((cmds, handler) :: subs) reps ->
  let '(m', req) := SendRmIRT cmds handler m in
  mgr_inv G C n rid m' ords subs (req.2 :: reps)
  /\ mcontents m `prefix_of` mcontents m' /\ mnext_send_index_ m' = mnext_send_index_ m.
Proof.
  intros [M1 M2 M3 M4 M5 M6 M7 M8 M9 M10]. unfold SendRmIRT.
  pose proof (insert_local_ok (wrap 64 (-1)) cmds handler cmds.*1 m) as Hl.
  destruct (InsertLocalLog _ _ _ _ _) as [m' req]. destruct Hl as (H1 & -> & H2 & H3 & [H4 H4']).
  assert (Hg : gcontents m' = gcontents m) by (unfold gcontents; now rewrite H2).
  cbn in M7, M8. apply Forall_cons in M7 as [[Hx Hr] M7].
  pose proof (registered_not_crt _ Hx) as Hnc.
  assert (Hcrt : crts G (mcontents m') = crts G (mcontents m)) by (rewrite H1, List.filter_app; cbn; now rewrite Hnc, app_nil_r).
  assert (Hirt : subs ++ irts G (mcontents m') ≡ₚ (cmds, handler) :: subs ++ irts G (mcontents m)).
  { rewrite H1, List.filter_app. cbn. rewrite Hnc. cbn. rewrite app_assoc. symmetry. apply Permutation_cons_append. }
  split_and!; [split; rewrite ?Hg, ?H3, ?Hcrt; auto | rewrite H1; apply prefix_app_r; reflexivity | exact H4].
  - rewrite Hirt. constructor; [split |]; auto.
  - rewrite Hirt. exact M8.
  - rewrite H4, H4', H1, length_app. lia.
  - rewrite H1, length_app. constructor; cbn; [lia |]. eapply Forall_impl; [exact M10 |]. cbn. lia.
Qed.

Lemma mgr_ack i ords subs reps :
  mgr_inv G C n rid m ords subs (i :: reps) ->
  runs (ReplicateACK i m) (fun m' => mgr_inv G C n rid m' ords subs reps
    /\ mcontents m' = mcontents m /\ mnext_send_index_ m' = mnext_send_index_ m).
Proof.
  intros [M1 M2 M3 M4 M5 M6 M7 M8 M9 M10]. apply Forall_cons in M10 as [Hi M10].
  eapply runs_mono; [apply (replicate_ack_ok i m Hi); lia |]. intros m' (H1 & H2 & H3 & H4 & H5).
  split_and!; auto. split; rewrite ?H1, ?H2, ?H3, ?H4; auto. lia.
Qed.

Lemma mgr_tick proxies ords subs reps :
  mgr_inv G C n rid m ords subs reps ->
  runs (CheckAndSendBacth shards proxies rid m) (fun '(m', out) => mgr_inv G C n rid m' ords subs reps
    /\ mcontents m' = mcontents m /\ mnext_send_index_ m' = next_commit_index_ m
    /\ (out = [] \/ out.*1 = concat (proxies <$> region_pars shards rid))
    /\ Forall (fun o => exists par, par ∈ region_pars shards rid /\ o.1 ∈ proxies par
          /\ carries (mcontents m) (mnext_send_index_ m) (next_commit_index_ m) par o.2) out).
Proof using HG HC.
  intros M. pose proof (mgr_ids G C n rid m ords subs reps HG HC M) as Hids. destruct M as [M1 M2 M3 M4 M5 M6 M7 M8 M9 M10].
  eapply runs_mono; [now apply (send_all_ok shards proxies rid m) |]. intros [m' out] (H1 & H2 & H3 & H4 & H5 & H6 & H7).
  split_and!; auto. split; rewrite ?H1, ?H2, ?H3, ?H4, ?H5; auto. lia.
Qed.
End Handlers.

(** *** More transactions, a longer global log, new messages *)

Lemma is_crt_mono G G' x : G ⊆ G' -> (exists tid, cid x = Some tid /\ is_Some (G !! tid)) -> is_crt G' x = is_crt G x.
Proof.
  intros HG (tid & Hc & g & Hg). unfold is_crt. rewrite Hc, Hg. now rewrite (lookup_weaken _ _ _ _ Hg HG).
Qed.

Lemma mgr_mono G G' C C' n n' rid m ords subs reps :
  txns_ok G -> Forall (registered G false) C ->
  G ⊆ G' -> C `prefix_of` C' -> (n <= n')%nat ->
  mgr_inv G C n rid m ords subs reps -> mgr_inv G' C' n' rid m ords subs reps.
Proof.
  intros HG HC HGG HCC Hn M. pose proof (mgr_entry G C n rid m ords subs reps HG HC M) as He.
  assert (Heq : forall x, x ∈ mcontents m -> is_crt G' x = is_crt G x).
  { intros x (tid & g & H1 & H2 & _)%He. apply is_crt_mono; eauto. }
  assert (Hc : crts G' (mcontents m) = crts G (mcontents m)) by now apply filter_ext_in'.
  assert (Hi : irts G' (mcontents m) = irts G (mcontents m)).
  { apply filter_ext_in'. intros x Hx. now rewrite Heq. }
  destruct M as [M1 M2 M3 M4 M5 M6 M7 M8 M9 M10]. split; rewrite ?Hc, ?Hi; auto.
  - intros g y Hy. destruct (M1 g y Hy) as (H1 & x & H2 & H3). split; [lia |]. exists x. split; [|exact H3].
    eapply prefix_lookup; eauto.
  - eapply Forall_impl; [exact M2 |]. intros c (H1 & (x & H2 & H3) & H4). split_and!; [lia | | exact H4].
    exists x. split; [eapply prefix_lookup; eauto | exact H3].
  - rewrite M6. apply omap_ext_in. intros g Hg%elem_of_seq. destruct (M5 g ltac:(lia)) as [y Hy].
    destruct (M1 g y Hy) as (_ & x & Hx & _). unfold part. now rewrite Hx, (prefix_lookup _ _ _ _ HCC Hx).
  - eapply Forall_impl; [exact M7 |]. intros x [H1 H2]. split; [eapply registered_mono; eauto | exact H2].
Qed.

Definition ords_of (rid : Z) (out : list (Z * ordered_crt)) : list ordered_crt :=
  omap (fun o => if region_of shards o.1 =? rid then Some o.2 else None) out.

Lemma ords_of_elem rid out c : c ∈ ords_of rid out <-> exists site, region_of shards site = rid /\ (site, c) ∈ out.
Proof.
  unfold ords_of. rewrite list_elem_of_omap. split.
  - intros ([site c'] & Hin & Hs). cbn in Hs. destruct (Z.eqb_spec (region_of shards site) rid) as [Hr|]; [|discriminate].
    injection Hs as ->. eauto.
  - intros (site & Hr & Hin). exists (site, c). split; [exact Hin |]. cbn. now rewrite Hr, Z.eqb_refl.
Qed.

Lemma ords_of_once rid out :
  NoDup ((fun o => (o.1, oc_index o.2)) <$> out) -> Forall (fun o => is_manager shards o.1 = true) out ->
  NoDup (oc_index <$> ords_of rid out).
Proof using shards_pos.
  unfold ords_of. induction out as [|[site c] out IH]; cbn; intros Hd Hm; [constructor |].
  apply NoDup_cons in Hd as [Hd1 Hd]. apply Forall_cons in Hm as [Hm1 Hm].
  destruct (Z.eqb_spec (region_of shards site) rid) as [Hr|Hr]; [|now apply IH]. cbn. apply NoDup_cons.
  split; [|now apply IH]. rewrite list_elem_of_fmap. intros (c' & Hi & Hc'). change (c' ∈ ords_of rid out) in Hc'.
  apply ords_of_elem in Hc' as (site' & Hr' & Hin). apply Hd1. rewrite Forall_forall in Hm.
  pose proof (Hm _ Hin) as Hm2. cbn in Hm1, Hm2. apply (manager_site shards shards_pos) in Hm1, Hm2.
  assert (site' = site) as -> by congruence.
  apply list_elem_of_fmap. exists (site, c'). cbn. split; [congruence | exact Hin].
Qed.

Lemma mgr_new_ords G C n n' rid m ords subs reps managers out :
  sends shards managers C n n' out -> (n <= n')%nat ->
  mgr_inv G C n rid m ords subs reps -> mgr_inv G C n' rid m (ords_of rid out ++ ords) subs reps.
Proof using shards_pos.
  intros [S1 S2] Hn [M1 M2 M3 M4 M5 M6 M7 M8 M9 M10].
  assert (Hin : forall c, c ∈ ords_of rid out -> (n <= oc_index c < n')%nat
    /\ exists x, C !! oc_index c = Some x /\ (oc_cmds c, oc_coord c) = region_part rid x).
  { intros c (site & Hr & Hin)%ords_of_elem. destruct (S2 _ _ Hin) as (_ & _ & H1 & cmds & H2 & H3).
    split; [exact H1 |]. exists (cmds, oc_coord c). split; [exact H2 |]. unfold region_part. cbn. rewrite H3.
    rewrite <- Hr. reflexivity. }
  split; auto.
  - intros g y Hy. destruct (M1 g y Hy) as (H1 & H2). split; [lia | exact H2].
  - apply Forall_app. split.
    + apply Forall_forall. intros c Hc. destruct (Hin c Hc) as (H1 & H2). split_and!; [lia | exact H2 |].
      intros y Hy. destruct (M1 _ _ Hy). lia.
    + eapply Forall_impl; [exact M2 |]. intros c (H1 & H2 & H3). split_and!; [lia | exact H2 | exact H3].
  - rewrite fmap_app. apply NoDup_app. split_and!; [|intros i H1 H2 | exact M3].
    + apply ords_of_once; [exact S1 |]. apply Forall_forall. intros [site c] Hc. now destruct (S2 _ _ Hc) as (_ & ? & _).
    + apply list_elem_of_fmap in H1 as (c & -> & H1). apply list_elem_of_fmap in H2 as (c' & Heq & H2).
      destruct (Hin c H1) as [H3 _]. rewrite Forall_forall in M2. destruct (M2 c' H2) as (H4 & _). lia.
Qed.

Lemma mgr_new_sub G C n rid m ords subs reps x :
  mgr_inv G C n rid m ords subs reps -> registered G true x -> region_of shards x.2 = rid ->
  cid x ∉ cid <$> subs ++ irts G (mcontents m) ->
  mgr_inv G C n rid m ords (x :: subs) reps.
Proof. intros [M1 M2 M3 M4 M5 M6 M7 M8 M9 M10] Hx Hr Hnew. split; auto; cbn; constructor; auto. Qed.

(** *** Handlers of the global log *)

Lemma raft_mono G G' r subs acks : G ⊆ G' -> raft_inv G r subs acks -> raft_inv G' r subs acks.
Proof.
  intros HG [H1 H2 H3 H4]. split; auto. eapply Forall_impl; [exact H2 |]. intros x. now apply registered_mono.
Qed.

Lemma raft_submit G r followers cmds handler subs acks :
  txns_ok G -> raft_inv G r ((cmds, handler) :: subs) acks ->
  let '(r', apps) := SlogRaftSubmit followers cmds handler r in
  raft_inv G r' subs ((snd <$> apps) ++ acks) /\ contents r' = contents r ++ [(cmds, handler)]
  /\ next_send_index_ r' = next_send_index_ r /\ apps.*1.*1 = followers.
Proof.
  intros HG [R1 R2 R3 R4]. cbn in R2, R3. pose proof R2 as R2'. apply Forall_cons in R2' as [Hx _].
  assert (Hf : is_Some (first_cmd cmds)).
  { destruct Hx as (tid & _ & Ht). exact (valid_first shards regions tid cmds (gk_cmds _ _ (HG _ _ Ht))). }
  pose proof (raft_submit_ok followers cmds handler r R1 Hf) as Hs. destruct (SlogRaftSubmit _ _ _ _) as [r' apps].
  destruct Hs as (H1 & H2 & H3 & ->). split_and!; auto.
  - assert (Hp : subs ++ contents r' ≡ₚ (cmds, handler) :: subs ++ contents r).
    { rewrite H2, app_assoc. symmetry. apply Permutation_cons_append. }
    split; [exact H1 | now rewrite Hp | now rewrite Hp |]. rewrite H2, length_app. cbn [length].
    apply Forall_app. split; [|eapply Forall_impl; [exact R4 |]; cbn; lia].
    rewrite <- list_fmap_compose. apply Forall_fmap, Forall_true. intros f. cbn. lia.
  - rewrite <- !list_fmap_compose. now apply list_fmap_id.
Qed.

Lemma raft_ack G r i subs acks :
  raft_inv G r subs (i :: acks) ->
  runs (RaftAppendAck shards (all_sites shards regions) i r) (fun '(r', out) => raft_inv G r' subs acks
    /\ contents r' = contents r /\ (next_send_index_ r <= next_send_index_ r')%nat
    /\ sends shards (all_sites shards regions) (contents r) (next_send_index_ r) (next_send_index_ r') out).
Proof.
  intros [R1 R2 R3 R4]. apply Forall_cons in R4 as [Hi R4]. unfold contents in Hi. rewrite length_fmap in Hi.
  eapply runs_mono; [apply (append_ack_ok shards (all_sites shards regions) (all_sites_once shards regions) i r R1 Hi) |].
  intros [r' out] (H1 & H2 & H3 & H4). split_and!; auto. split; rewrite ?H2; auto.
Qed.
End Logs.
End SlogInv.
