(* ===== verification/SlogQueues.v ===== *)
(** * The queues of a Slog deployment

    A site of a deployment (SlogSystem.v) and the log of its region: the queue of the site
    is a part of the log, the batches on their way to it fill other positions, and the site
    knows its transactions as they were submitted. *)

From Stdlib Require Import ZArith Lia.
From stdpp Require Import base list option gmap sets relations sorting.
From coqutil Require Import Datatypes.RecordSetters.
From S2P Require Import Prelude ALock MemSchema PieceExec RccTxn SlogOrder SlogSched SlogExec SlogSite SlogSystem SlogLogs SlogInv.
Import DoubleBraceUpdate.
Local Open Scope Z_scope.

Module SlogQueues.
Import SlogOrder SlogSched SlogExec SlogSite SlogSystem SlogLogs SlogInv.

(** ** Transactions of a batch *)
Lemma add_idents_lookup site bs : forall (m : gmap Z tx_ident) tid i,
  foldl (add_ident site) m bs !! tid = Some i ->
  m !! tid = Some i \/ m !! tid = None /\ exists b, b ∈ bs /\ bt_id b = tid /\ i = batch_ident site b.
Proof.
  induction bs as [|b bs IH]; intros m tid i; cbn; [auto |]. intros H.
  destruct (IH _ _ _ H) as [H1|(H1 & b' & Hb & H2)].
  - unfold add_ident in H1. destruct (decide (is_Some (m !! bt_id b))) as [|Hn]; [auto |].
    destruct (decide (bt_id b = tid)) as [<-|Hne].
    + rewrite lookup_insert_eq in H1. injection H1 as <-. right.
      split; [now apply eq_None_not_Some |]. exists b. split_and!; auto. left.
    + rewrite lookup_insert_ne in H1 by exact Hne. auto.
  - right. split; [|exists b'; split; [now right | exact H2]].
    unfold add_ident in H1. destruct (decide _); [exact H1 |]. now apply lookup_insert_None in H1.
Qed.

Lemma add_idents_mono site bs : forall (m : gmap Z tx_ident) tid,
  is_Some (m !! tid) \/ (exists b, b ∈ bs /\ bt_id b = tid) -> is_Some (foldl (add_ident site) m bs !! tid).
Proof.
  induction bs as [|b bs IH]; intros m tid; cbn.
  - intros [H|(b & []%not_elem_of_nil & _)]. exact H.
  - intros H. apply IH. unfold add_ident. destruct H as [H|(b' & [->|Hb]%elem_of_cons & Ht)].
    + left. destruct (decide _); [exact H |]. apply lookup_insert_is_Some'. now right.
    + left. subst tid. destruct (decide _) as [Hs|]; [exact Hs |]. rewrite lookup_insert_eq. eauto.
    + right. eauto.
Qed.

Section Queues.
Context {E : Type} (conflict : Z -> Z -> bool)
  (exec : Z -> Z -> SimpleCommand -> E -> option (E * output_map)).
Context (shards regions : Z) (shards_pos : 0 < shards).

(** What a site does when a transaction is finished. *)
Definition role (site coord : Z) : reply_t :=
  if decide (coord = site) then ToClient
  else if coord / N_REP_PER_SHARD =? site / N_REP_PER_SHARD then Nothing else ToCoord.

(** A transaction as a site has to know it. *)
Definition known_as (site : Z) (g : gtxn) : tx_ident :=
  (g_coord g, role site (g_coord g), inn_id_ <$> default [] (cmds_at (par_of site) (g_cmds g)),
   if decide (g_coord g = site) then list_to_set (g_cmds g).*1 else ∅).

(** The positions of a batch. *)
Definition positions (b : batch) : list nat := seq (b_start b) (length (b_txns b)).

Record batch_ok (L : list content) (sent : nat) (site : Z) (q : list (option Z)) (b : batch) : Prop := {
  bo_carries : exists n, (n <= sent)%nat /\ carries L (b_start b) n (par_of site) b;
  bo_free : forall k tid, k ∈ positions b -> q !! k <> Some (Some tid) }.

Record site_ok (G : gmap Z gtxn) (L : list content) (sent : nat) (site : Z) (s : @sched E)
    (bs : list batch) : Prop := {
  so_inv : site_inv (par_of site) s;
  so_idents : forall tid i, idents s !! tid = Some i -> exists g, G !! tid = Some g /\ i = known_as site g
    /\ (g_coord g <> site -> exists k, txn_queue_ s !! k = Some (Some tid));
  so_own : forall tid g, G !! tid = Some g -> g_coord g = site -> is_Some (idents s !! tid);
  so_queue : forall k tid, txn_queue_ s !! k = Some (Some tid) ->
    (k < sent)%nat /\ exists x, L !! k = Some x /\ cid x = Some tid;
  so_batches : Forall (batch_ok L sent site (txn_queue_ s)) bs;
  so_once : NoDup (concat (positions <$> bs)) }.

Lemma carries_prefix L L' n n' par b : L `prefix_of` L' -> carries L n n' par b -> carries L' n n' par b.
Proof.
  intros HL [C1 C2 C3]. split; auto. intros k x Hx. destruct (C3 k x Hx) as (y & Hy & Hf).
  exists y. split; [eapply prefix_lookup; eauto | exact Hf].
Qed.

Lemma batch_ok_mono L L' sent sent' site q b :
  L `prefix_of` L' -> (sent <= sent')%nat -> batch_ok L sent site q b -> batch_ok L' sent' site q b.
Proof.
  intros HL Hs [(n & Hn & Hc) H2]. split; [|exact H2]. exists n. split; [lia | eapply carries_prefix; eauto].
Qed.

Lemma site_mono G G' L L' sent sent' site s bs :
  G ⊆ G' -> (forall tid g, G' !! tid = Some g -> g_coord g = site -> is_Some (G !! tid)) ->
  L `prefix_of` L' -> (sent <= sent')%nat ->
  site_ok G L sent site s bs -> site_ok G' L' sent' site s bs.
Proof.
  intros HG Hown HL Hs [S1 S2 S3 S4 S5 S6]. split; auto.
  - intros tid i Hi. destruct (S2 tid i Hi) as (g & Hg & H). exists g. split; [now apply (lookup_weaken _ _ _ _ Hg HG) | exact H].
  - intros tid g Hg Hc. destruct (Hown tid g Hg Hc) as [g' Hg'].
    pose proof (lookup_weaken _ _ _ _ Hg' HG) as Heq. rewrite Hg in Heq. injection Heq as <-. now apply (S3 tid g).
  - intros k tid Hk. destruct (S4 k tid Hk) as (H1 & x & H2 & H3). split; [lia |]. exists x.
    split; [eapply prefix_lookup; eauto | exact H3].
  - eapply Forall_impl; [exact S5 |]. intros b. now apply batch_ok_mono.
Qed.

(** ** A batch *)
Section Batch.
Context (G : gmap Z gtxn) (L : list content) (sent : nat) (site : Z) (s : @sched E) (b : batch) (bs : list batch).
Hypothesis HG : txns_ok shards regions G.
Hypothesis HL : forall x, x ∈ L -> local_entry shards G (region_of shards site) x.
Hypothesis Hd : NoDup (cid <$> L).
Hypothesis S : site_ok G L sent site s (b :: bs).

Lemma log_once k k' x x' : L !! k = Some x -> L !! k' = Some x' -> cid x = cid x' -> k = k'.
Proof using Hd.
  intros H1 H2 H3. rewrite NoDup_alt in Hd. apply (Hd k k' (cid x)); rewrite list_lookup_fmap; [now rewrite H1 |].
  rewrite H2. cbn. now rewrite H3.
Qed.

(** A transaction of the batch. *)
Lemma batch_txn_spec k x :
  b_txns b !! k = Some x -> exists y g, L !! (b_start b + k)%nat = Some y /\ cid y = Some (bt_id x)
    /\ G !! bt_id x = Some g /\ bt_coord x = g_coord g
    /\ bt_cmds x = default [] (cmds_at (par_of site) (g_cmds g)) /\ (b_start b + k < sent)%nat.
Proof using HL S shards_pos.
  intros Hx. pose proof (so_batches _ _ _ _ _ _ S) as Hb. apply Forall_cons in Hb as [[(n & Hn & [_ C2 C3]) _] _].
  destruct (C3 k x Hx) as (y & Hy & H1 & H2 & H3). apply lookup_lt_Some in Hx.
  destruct (HL y) as (tid & g & Hc & Hg & Hco & Hcm); [now apply list_elem_of_lookup_2 in Hy |].
  unfold cid in Hc. rewrite H1 in Hc. injection Hc as <-.
  exists y, g. split_and!; auto; [congruence | | lia].
  rewrite H2, Hcm, cmds_at_region; [reflexivity |]. symmetry. now apply region_of_par_of.
Qed.

Lemma batch_txn_free k x k' : b_txns b !! k = Some x -> txn_queue_ s !! k' <> Some (Some (bt_id x)).
Proof using HL Hd S shards_pos.
  intros Hx Hq. destruct (batch_txn_spec k x Hx) as (y & g & Hy & Hc & _).
  destruct (so_queue _ _ _ _ _ _ S _ _ Hq) as (_ & y' & Hy' & Hc').
  assert (k' = (b_start b + k)%nat) as -> by (eapply log_once; eauto; congruence).
  pose proof (so_batches _ _ _ _ _ _ S) as Hb. apply Forall_cons in Hb as [[_ Hf] _].
  apply (Hf (b_start b + k)%nat (bt_id x)); [|exact Hq]. apply lookup_lt_Some in Hx. apply elem_of_seq. lia.
Qed.

Lemma batch_takes : takes_batch site b (txn_queue_ s) (idents s).
Proof using HG HL Hd S shards_pos.
  split.
  - apply NoDup_alt. intros i j tid Hi Hj. rewrite list_lookup_fmap in Hi, Hj.
    destruct (b_txns b !! i) as [x|] eqn:Ei; [|discriminate]. destruct (b_txns b !! j) as [x'|] eqn:Ej; [|discriminate].
    cbn in Hi, Hj. destruct (batch_txn_spec i x Ei) as (y & _ & Hy & Hc & _).
    destruct (batch_txn_spec j x' Ej) as (y' & _ & Hy' & Hc' & _).
    enough (b_start b + i = b_start b + j)%nat by lia. eapply log_once; eauto. congruence.
  - apply Forall_lookup. intros k x Hx. destruct (batch_txn_spec k x Hx) as (y & g & Hy & Hc & Hg & Hco & Hcm & _).
    unfold takes. destruct (idents s !! bt_id x) as [i|] eqn:Ei.
    + destruct (so_idents _ _ _ _ _ _ S _ _ Ei) as (g' & Hg' & -> & Hq). rewrite Hg in Hg'. injection Hg' as <-.
      cbn. destruct (decide (g_coord g = site)) as [Heq|Hne]; [split; congruence |].
      destruct (Hq Hne) as [k' Hk']. now destruct (batch_txn_free k x k' Hx).
    + rewrite Hcm. exact (valid_at_fresh shards regions _ _ _ (gk_cmds _ _ _ _ (HG _ _ Hg))).
  - intros k Hk. pose proof (so_batches _ _ _ _ _ _ S) as Hb. apply Forall_cons in Hb as [[_ Hf] _].
    destruct (txn_queue_ s !! k) as [[tid|]|] eqn:Ek; auto. exfalso. apply (Hf k tid); [|exact Ek].
    apply elem_of_seq. lia.
  - intros x k [j Hj]%list_elem_of_lookup. now apply (batch_txn_free j).
Qed.

Lemma batch_ident_known k x :
  b_txns b !! k = Some x -> idents s !! bt_id x = None ->
  exists g, G !! bt_id x = Some g /\ batch_ident site x = known_as site g.
Proof using HL S shards_pos.
  intros Hx Hn. destruct (batch_txn_spec k x Hx) as (y & g & Hy & Hc & Hg & Hco & Hcm & _).
  exists g. split; [exact Hg |]. unfold batch_ident, known_as, role. rewrite Hco, Hcm.
  destruct (decide (g_coord g = site)) as [Heq|Hne]; [|reflexivity].
  destruct (so_own _ _ _ _ _ _ S _ _ Hg Heq) as [i Hi]. congruence.
Qed.

Section Run.
Hypothesis exec_total : forall tid c e, is_Some (exec site tid c e).

Lemma site_batch :
  runs (OnSendBatch conflict (exec site) site (par_of site) b s) (fun s' =>
    site_ok G L sent site s' bs /\ emits (par_of site) s s').
Proof using HG HL Hd S shards_pos exec_total.
  eapply runs_mono; [apply (batch_inv conflict (exec site) site (par_of site) exec_total b s (so_inv _ _ _ _ _ _ S) batch_takes) |].
  intros s' (H1 & H2 & H3 & H4 & _). split; [|exact H4]. pose proof batch_takes as [T1 T2 T3 T4].
  assert (Hq : forall k, txn_queue_ s' !! k =
    if decide (b_start b <= k < b_start b + length (b_txns b))%nat then Some <$> (bt_id <$> b_txns b) !! (k - b_start b)%nat
    else grown b (txn_queue_ s) !! k).
  { intros k. rewrite H3, fill_lookup; rewrite length_fmap; [reflexivity |]. apply grown_length. }
  assert (Hold : forall k tid, txn_queue_ s !! k = Some (Some tid) -> txn_queue_ s' !! k = Some (Some tid)).
  { intros k tid Hk. rewrite Hq, decide_False, grown_lookup, Hk; [reflexivity |].
    intros Hr. destruct (T3 k Hr); congruence. }
  assert (Hnew : forall k tid, txn_queue_ s' !! k = Some (Some tid) ->
    txn_queue_ s !! k = Some (Some tid)
    \/ exists j x, k = (b_start b + j)%nat /\ b_txns b !! j = Some x /\ bt_id x = tid).
  { intros k tid. rewrite Hq. destruct (decide _) as [Hk|Hk].
    - rewrite list_lookup_fmap. destruct (b_txns b !! (k - b_start b)%nat) as [x|] eqn:Ex; [|discriminate].
      cbn. intros [= <-]. right. exists (k - b_start b)%nat, x. split_and!; auto. lia.
    - rewrite grown_lookup. destruct (txn_queue_ s !! k) as [o|]; [auto |]. destruct (decide _); discriminate. }
  pose proof (so_batches _ _ _ _ _ _ S) as Hb. apply Forall_cons in Hb as [_ Hb].
  pose proof (so_once _ _ _ _ _ _ S) as Ho. cbn in Ho. apply NoDup_app in Ho as (_ & Hdis & Ho).
  split; auto.
  - intros tid i Hi. rewrite H2 in Hi. apply add_idents_lookup in Hi as [Hi|(Hi & x & Hx & <- & ->)].
    + destruct (so_idents _ _ _ _ _ _ S _ _ Hi) as (g & Hg & -> & Hk). exists g. split_and!; auto.
      intros Hne. destruct (Hk Hne) as [k Hk']. eauto.
    + apply list_elem_of_lookup in Hx as [j Hj]. destruct (batch_ident_known j x Hj Hi) as (g & Hg & ->).
      exists g. split_and!; auto. intros _. exists (b_start b + j)%nat. pose proof (lookup_lt_Some _ _ _ Hj).
      rewrite Hq, decide_True by lia. replace (b_start b + j - b_start b)%nat with j by lia.
      now rewrite list_lookup_fmap, Hj.
  - intros tid g Hg Hc. rewrite H2. apply add_idents_mono. left. now apply (so_own _ _ _ _ _ _ S _ _ Hg).
  - intros k tid [Hk|(j & x & -> & Hj & <-)]%Hnew; [now apply (so_queue _ _ _ _ _ _ S) |].
    destruct (batch_txn_spec j x Hj) as (y & g & Hy & Hc & _ & _ & _ & Hlt). eauto.
  - apply Forall_forall. intros b' Hb'. rewrite Forall_forall in Hb. destruct (Hb b' Hb') as [B1 B2]. split; [exact B1 |].
    intros k tid Hk [Hk'|(j & x & -> & Hj & _)]%Hnew; [now apply (B2 k tid) |].
    apply (Hdis (b_start b + j)%nat).
    + apply lookup_lt_Some in Hj. apply elem_of_seq. lia.
    + apply list_elem_of_In, in_concat. exists (positions b'). split; [|now apply list_elem_of_In].
      now apply list_elem_of_In, list_elem_of_fmap_2.
Qed.
End Run.
End Batch.

(** ** The other handlers *)
Lemma site_kept G L sent site s s' bs :
  site_ok G L sent site s bs -> site_inv (par_of site) s' -> kept s s' -> site_ok G L sent site s' bs.
Proof.
  intros [S1 S2 S3 S4 S5 S6] H [Hq Hi]. split; rewrite ?Hq, ?Hi; auto.
Qed.

Section Others.
Context (G : gmap Z gtxn) (L : list content) (sent : nat) (site : Z) (s : @sched E) (bs : list batch).
Hypothesis exec_total : forall tid c e, is_Some (exec site tid c e).
Hypothesis S : site_ok G L sent site s bs.

Lemma site_deps tid vars :
  runs (OnSendDepValues conflict (exec site) (par_of site) tid vars s) (fun s' =>
    site_ok G L sent site s' bs /\ emits (par_of site) s s').
Proof using S exec_total.
  eapply runs_mono; [apply (dep_values_inv conflict (exec site) (par_of site) exec_total tid vars s (so_inv _ _ _ _ _ _ S)) |].
  intros s' (H1 & H2 & H3). split; [eapply site_kept; eauto | exact H3].
Qed.

Lemma site_output tid par g :
  G !! tid = Some g -> g_coord g = site -> par ∈ (g_cmds g).*1 -> par <> par_of site ->
  runs (OnSendTxnOutput (par_of site) tid par s) (fun s' =>
    site_ok G L sent site s' bs /\ emits (par_of site) s s').
Proof using S exec_total conflict.
  intros Hg Hc Hp Hne. destruct (so_own _ _ _ _ _ _ S _ _ Hg Hc) as [i Hi].
  destruct (so_idents _ _ _ _ _ _ S _ _ Hi) as (g' & Hg' & -> & _). rewrite Hg in Hg'. injection Hg' as <-.
  unfold known_as, role in Hi. rewrite !decide_True in Hi by exact Hc. rewrite idents_lookup in Hi.
  destruct (dtxns_ s !! tid) as [t|] eqn:Et; [|discriminate]. cbn in Hi. unfold ident in Hi. injection Hi as H1 H2 H3 H4.
  rewrite H2, bool_decide_true in H4 by reflexivity.
  eapply runs_mono; [apply (txn_output_inv conflict (exec site) (par_of site) exec_total tid par t s (so_inv _ _ _ _ _ _ S) Et H2) |].
  - apply elem_of_dom. rewrite H4. now apply elem_of_list_to_set.
  - exact Hne.
  - intros s' (K1 & K2 & K3). split; [eapply site_kept; eauto | exact K3].
Qed.

Lemma site_submit cmds irt tid :
  txns_ok shards regions G -> G !! tid = None ->
  let g := {| g_coord := site; g_cmds := cmds; g_irt := irt |} in gtxn_ok shards regions tid g ->
  runs (OnSubmitTxn site (par_of site) shards cmds irt s) (fun s' =>
    site_ok (<[tid := g]> G) L sent site s' bs
    /\ events_ s' = events_ s ++ [submit_event site (par_of site) shards cmds irt]).
Proof using S conflict exec.
  intros HG Hnew g Hg. assert (Hni : idents s !! tid = None).
  { destruct (idents s !! tid) as [i|] eqn:Ei; [|reflexivity].
    destruct (so_idents _ _ _ _ _ _ S _ _ Ei) as (g' & Hg' & _). congruence. }
  destruct Hg as [V Hsite [cs Hcs] Hr]. unfold g in V, Hcs. cbn [g_coord g_cmds] in V, Hcs. pose proof (cmds_at_elem _ _ _ Hcs) as Hin.
  destruct (v_cmds _ _ _ _ V _ _ Hin) as (Hne & Hf & _).
  eapply runs_mono; [apply (submit_inv conflict (exec site) site (par_of site) shards cmds irt tid cs s
    (so_inv _ _ _ _ _ _ S) (v_id _ _ _ _ V)) |]; auto.
  { rewrite idents_lookup in Hni. now destruct (dtxns_ s !! tid). }
  intros s' (H1 & H2 & H3 & H4). split; [|exact H3]. destruct S as [S1 S2 S3 S4 S5 S6].
  split; rewrite ?H2, ?H4; auto.
  - intros tid' i. destruct (decide (tid' = tid)) as [->|Hne'].
    + rewrite lookup_insert_eq. intros [= <-]. exists g. rewrite lookup_insert_eq. split_and!; [reflexivity | | now intros []].
      unfold known_as, role, g. cbn [g_coord g_cmds]. rewrite !decide_True by reflexivity. rewrite Hcs. reflexivity.
    + rewrite !lookup_insert_ne by auto. apply S2.
  - intros tid' g'. destruct (decide (tid' = tid)) as [->|Hne']; [rewrite !lookup_insert_eq; eauto |].
    rewrite !lookup_insert_ne by auto. apply S3.
Qed.
End Others.

(** ** The messages of a site *)

(** A message that a site sends while it executes. *)
Definition run_msg (G : gmap Z gtxn) (m : msg) : Prop :=
  match m with
  | MOutput site par tid => exists g, G !! tid = Some g /\ g_coord g = site /\ par ∈ (g_cmds g).*1 /\ par <> par_of site
  | MDeps site _ _ => 0 <= site < n_sites shards regions
  | _ => False
  end.

Lemma event_run_msg G L sent site s bs e :
  site_ok G L sent site s bs -> sound_event (par_of site) (idents s) e ->
  Forall (run_msg G) (event_msgs shards regions e).
Proof using shards_pos.
  intros S He. destruct e as [tid|coord par tid out|par tid vars|r cmds h|cmds h]; cbn in *; try easy; try constructor; try constructor.
  - destruct He as [-> (ids & ps & Hi & Hne)]. destruct (so_idents _ _ _ _ _ _ S _ _ Hi) as (g & Hg & Heq & _).
    unfold known_as, role in Heq. injection Heq as H1 H2 H3 H4. exists g. split_and!; auto.
    + destruct (cmds_at (par_of site) (g_cmds g)) as [cs|] eqn:Ec; [|now subst ids].
      apply cmds_at_elem in Ec. change (par_of site) with (par_of site, cs).1. now apply list_elem_of_fmap_2.
    + intros Heq. destruct (decide (g_coord g = site)); [discriminate |]. rewrite <- H1 in H2. unfold par_of in Heq.
      rewrite <- Heq, Z.eqb_refl in H2. discriminate.
  - apply Forall_fmap, Forall_forall. intros st Hs. apply (proxies_elem shards regions shards_pos) in Hs as [_ Hs]. exact Hs.
Qed.

Lemma new_run_msgs G L sent site s s' bs :
  site_ok G L sent site s' bs -> emits (par_of site) s s' -> Forall (run_msg G) (new_msgs shards regions s s').
Proof using shards_pos.
  intros S (new & Hn & Hs). unfold new_msgs. rewrite Hn, drop_app_length. apply Forall_concat, Forall_fmap.
  eapply Forall_impl; [exact Hs |]. intros e. now apply (event_run_msg G L sent site s' bs).
Qed.
End Queues.
End SlogQueues.
