(* ===== verification/SlogWorld.v ===== *)
(** * Runs of a Slog deployment

    Every reachable world of SlogSystem.v has the invariant of SlogInv.v and SlogQueues.v:
    no handler fails, the sites agree on the order of the transactions, and a client is
    answered once, when all partitions have executed. *)

From Stdlib Require Import ZArith Lia.
From stdpp Require Import base list option gmap sets relations sorting.
From coqutil Require Import Datatypes.RecordSetters.
From S2P Require Import Prelude ALock MemSchema PieceExec RccTxn SlogOrder SlogSched SlogExec SlogSite SlogSystem SlogLogs SlogInv SlogQueues SlogProgress.
Import DoubleBraceUpdate.
Local Open Scope Z_scope.

Module SlogWorld.
Import SlogOrder SlogSched SlogExec SlogSite SlogSystem SlogLogs SlogInv SlogQueues SlogProgress.

(** ** Lists that lose elements *)
Definition loses {A} (l l' : list A) : Prop := exists gone, l ≡ₚ l' ++ gone.

Lemma loses_omap {A B} (f : A -> option B) (l l' : list A) : loses l l' -> loses (omap f l) (omap f l').
Proof. intros [gone H]. exists (omap f gone). now rewrite H, omap_app. Qed.

Lemma loses_fmap {A B} (f : A -> B) (l l' : list A) : loses l l' -> loses (f <$> l) (f <$> l').
Proof. intros [gone H]. exists (f <$> gone). now rewrite H, fmap_app. Qed.

Lemma loses_app {A} (l l' k : list A) : loses l l' -> loses (l ++ k) (l' ++ k).
Proof. intros [gone H]. exists gone. rewrite H. solve_Permutation. Qed.

Lemma loses_Forall {A} (P : A -> Prop) l l' : loses l l' -> Forall P l -> Forall P l'.
Proof. intros [gone H]. rewrite H. now intros [? _]%Forall_app. Qed.

Lemma loses_NoDup {A} (l l' : list A) : loses l l' -> NoDup l -> NoDup l'.
Proof. intros [gone H]. rewrite H. now intros [? _]%NoDup_app. Qed.

Lemma concat_perm {A} (l l' : list (list A)) : l ≡ₚ l' -> concat l ≡ₚ concat l'.
Proof.
  induction 1 as [|x l l' _ IH|x y l|l1 l2 l3 _ IH1 _ IH2]; cbn; [reflexivity | now rewrite IH | | now rewrite IH1].
  solve_Permutation.
Qed.

Lemma loses_concat {A} (l l' : list (list A)) : loses l l' -> loses (concat l) (concat l').
Proof. intros [gone H]. exists (concat gone). now rewrite (concat_perm _ _ H), concat_app. Qed.

Lemma loses_perm {A} (l l' : list A) : l ≡ₚ l' -> loses l l'.
Proof. intros H. exists []. now rewrite app_nil_r. Qed.

Lemma omap_fmap {A B C} (f : B -> option C) (g : A -> B) (l : list A) : omap f (g <$> l) = omap (fun x => f (g x)) l.
Proof. induction l as [|x l IH]; cbn; [reflexivity |]. destruct (f (g x)); now rewrite IH. Qed.

Lemma omap_nothing {A B} (l : list A) : omap (fun _ => @None B) l = [].
Proof. now apply omap_none, Forall_true. Qed.

Section World.
Context {E : Type} (conflict : Z -> Z -> bool)
  (exec : Z -> Z -> SimpleCommand -> E -> option (E * output_map)).
Context (shards regions : Z) (followers : list Z).
Context (shards_pos : 0 < shards).

Abbreviation world := (@world E).

(** ** Messages by their receiver *)
Definition sub_of (m : msg) : option content := match m with MRaftSubmit cmds h => Some (cmds, h) | _ => None end.
Definition ack_of (m : msg) : option nat := match m with MAppend _ _ i | MAppendAck i => Some i | _ => None end.
Definition ord_at (rid : Z) (m : msg) : option ordered_crt :=
  match m with MOrdered site c => if region_of shards site =? rid then Some c else None | _ => None end.
Definition irt_at (rid : Z) (m : msg) : option content :=
  match m with MIRT site cmds h => if region_of shards site =? rid then Some (cmds, h) else None | _ => None end.
Definition rep_at (rid : Z) (m : msg) : option nat :=
  match m with MReplicate r _ i | MReplicateAck r i => if r =? rid then Some i else None | _ => None end.
Definition batch_at (site : Z) (m : msg) : option batch :=
  match m with MBatch s b => if s =? site then Some b else None | _ => None end.

(** A partition has executed a transaction. *)
Definition partition_done (W : gmap Z (@sched E)) (par tid : Z) : Prop :=
  exists site s, W !! site = Some s /\ par_of site = par /\ done (dtxns_ s) tid.

Definition msg_ok (G : gmap Z gtxn) (W : gmap Z (@sched E)) (m : msg) : Prop :=
  match m with
  | MRaftSubmit _ _ | MAppendAck _ => True
  | MAppend f _ _ => f ∈ followers
  | MOrdered site _ | MIRT site _ _ => 0 <= region_of shards site < regions
  | MReplicate rid _ _ | MReplicateAck rid _ => 0 <= rid < regions
  | MBatch site _ => 0 <= site < n_sites shards regions
  | MOutput _ par tid => run_msg shards regions G m /\ partition_done W par tid
  | MDeps _ _ _ => run_msg shards regions G m
  end.

(** ** The invariant *)
Record winv (net : list msg) (w : world) : Prop := {
  wi_txns : txns_ok shards regions (w_txns w);
  wi_followers : forall f, f ∈ followers -> is_Some (w_followers w !! f);
  wi_regions : forall rid, is_Some (w_mgrs w !! rid) <-> 0 <= rid < regions;
  wi_backups : forall rid, 0 <= rid < regions -> is_Some (w_backups w !! rid);
  wi_range : forall site, is_Some (w_sites w !! site) <-> 0 <= site < n_sites shards regions;
  wi_net : Forall (msg_ok (w_txns w) (w_sites w)) net;
  wi_raft : raft_inv (w_txns w) (w_raft w) (omap sub_of net) (omap ack_of net);
  wi_mgrs : forall rid m, w_mgrs w !! rid = Some m ->
    mgr_inv shards (w_txns w) (contents (w_raft w)) (next_send_index_ (w_raft w)) rid m
      (omap (ord_at rid) net) (omap (irt_at rid) net) (omap (rep_at rid) net);
  wi_sites : forall site s m, w_sites w !! site = Some s -> w_mgrs w !! region_of shards site = Some m ->
    site_ok (w_txns w) (mcontents m) (mnext_send_index_ m) site s (omap (batch_at site) net);
  wi_marks : forall site s tid par, w_sites w !! site = Some s -> par <> par_of site ->
    marked (dtxns_ s) tid par -> partition_done (w_sites w) par tid }.

Lemma raft_loses G r subs subs' acks acks' :
  loses subs subs' -> loses acks acks' -> raft_inv G r subs acks -> raft_inv G r subs' acks'.
Proof.
  intros H1 H2 [R1 R2 R3 R4]. split; auto; [eapply loses_Forall; [apply loses_app, H1 | exact R2]
    | eapply loses_NoDup; [apply loses_fmap, loses_app, H1 | exact R3] | eapply loses_Forall; eauto].
Qed.

Lemma mgr_loses G C n rid m ords ords' subs subs' reps reps' :
  loses ords ords' -> loses subs subs' -> loses reps reps' ->
  mgr_inv shards G C n rid m ords subs reps -> mgr_inv shards G C n rid m ords' subs' reps'.
Proof.
  intros H1 H2 H3 [M1 M2 M3 M4 M5 M6 M7 M8 M9 M10]. split; auto.
  - eapply loses_Forall; eauto.
  - eapply loses_NoDup; [apply loses_fmap, H1 | exact M3].
  - eapply loses_Forall; [apply loses_app, H2 | exact M7].
  - eapply loses_NoDup; [apply loses_fmap, loses_app, H2 | exact M8].
  - eapply loses_Forall; eauto.
Qed.

Lemma site_loses G L sent site (s : @sched E) bs bs' :
  loses bs bs' -> site_ok G L sent site s bs -> site_ok G L sent site s bs'.
Proof.
  intros H [S1 S2 S3 S4 S5 S6]. split; auto; [eapply loses_Forall; eauto |].
  eapply loses_NoDup; [apply loses_concat, loses_fmap, H | exact S6].
Qed.

Lemma winv_loses net net' w : loses net net' -> winv net w -> winv net' w.
Proof.
  intros H [W1 W2 W3 W4 W5 W6 W7 W8 W9 W10]. split; auto.
  - eapply loses_Forall; eauto.
  - eapply raft_loses; [..|exact W7]; now apply loses_omap.
  - intros rid m Hm. eapply mgr_loses; [..|exact (W8 rid m Hm)]; now apply loses_omap.
  - intros site s m Hs Hm. eapply site_loses; [|exact (W9 site s m Hs Hm)]. now apply loses_omap.
Qed.

Lemma winv_tail m net w : winv (m :: net) w -> winv net w.
Proof. apply winv_loses. exists [m]. apply Permutation_cons_append. Qed.

(** What the logs need. *)
Lemma winv_log net w :
  winv net w -> Forall (registered (w_txns w) false) (contents (w_raft w)) /\ NoDup (cid <$> contents (w_raft w)).
Proof.
  intros W. destruct (wi_raft _ _ W) as [_ R2 R3 _]. apply Forall_app in R2 as [_ R2]. rewrite fmap_app in R3.
  now apply NoDup_app in R3 as (_ & _ & R3).
Qed.

(** ** A step of a region manager *)

(** Messages that concern no log and no queue. *)
Definition plain (m : msg) : Prop :=
  match m with MOutput _ _ _ | MDeps _ _ _ => True | _ => False end.

Lemma insert_is_Some {A} (m : gmap Z A) k x y i :
  m !! k = Some y -> is_Some (<[k := x]> m !! i) <-> is_Some (m !! i).
Proof.
  intros Hk. destruct (decide (i = k)) as [->|Hne].
  - rewrite lookup_insert_eq, Hk. split; eauto.
  - now rewrite lookup_insert_ne.
Qed.

Lemma reps_proj rid rid' (reqs : list (cmd_map * Z * nat)) :
  omap (rep_at rid') ((fun r => MReplicate rid r.1.1 r.2) <$> reqs) = if rid =? rid' then snd <$> reqs else [].
Proof.
  rewrite omap_fmap. cbn. destruct (rid =? rid'); [|apply omap_nothing]. now rewrite list_fmap_alt.
Qed.

Lemma winv_mgr net w rid m m' (reqs : list (cmd_map * Z * nat)) :
  winv net w -> w_mgrs w !! rid = Some m ->
  mgr_inv shards (w_txns w) (contents (w_raft w)) (next_send_index_ (w_raft w)) rid m'
    (omap (ord_at rid) net) (omap (irt_at rid) net) ((snd <$> reqs) ++ omap (rep_at rid) net) ->
  mcontents m `prefix_of` mcontents m' -> mnext_send_index_ m' = mnext_send_index_ m ->
  winv (((fun r => MReplicate rid r.1.1 r.2) <$> reqs) ++ net) (w {{ w_mgrs := <[rid := m']> (w_mgrs w) }}).
Proof.
  intros [W1 W2 W3 W4 W5 W6 W7 W8 W9 W10] Hm HM HL Hn. split.
  - exact W1.
  - exact W2.
  - intros rid'. rewrite <- W3. apply (insert_is_Some _ _ _ _ _ Hm).
  - exact W4.
  - exact W5.
  - apply Forall_app. split; [|exact W6]. apply Forall_fmap, Forall_true. intros r. cbn. apply W3. eauto.
  - rewrite !omap_app, !omap_fmap. cbn [sub_of ack_of]. rewrite !omap_nothing. exact W7.
  - intros rid' m1 Hm1. rewrite !omap_app, reps_proj, !omap_fmap. cbn [ord_at irt_at]. rewrite !omap_nothing.
    change (<[rid := m']> (w_mgrs w) !! rid' = Some m1) in Hm1. destruct (decide (rid' = rid)) as [->|Hne].
    + rewrite lookup_insert_eq in Hm1. injection Hm1 as <-. rewrite Z.eqb_refl. exact HM.
    + rewrite lookup_insert_ne in Hm1 by auto. destruct (Z.eqb_spec rid rid'); [congruence |]. now apply W8.
  - intros site s m1 Hs Hm1. rewrite !omap_app, !omap_fmap. cbn [batch_at]. rewrite !omap_nothing.
    change (<[rid := m']> (w_mgrs w) !! region_of shards site = Some m1) in Hm1.
    destruct (decide (region_of shards site = rid)) as [Heq|Hne].
    + rewrite Heq, lookup_insert_eq in Hm1. injection Hm1 as <-. rewrite Hn. rewrite <- Heq in Hm.
      eapply site_mono; [reflexivity | | exact HL | reflexivity | exact (W9 site s m Hs Hm)]. eauto.
    + rewrite lookup_insert_ne in Hm1 by auto. now apply (W9 site s m1).
  - exact W10.
Qed.

(** ** A step of a site *)
Lemma partition_done_mono (W : gmap Z (@sched E)) site s s' par tid :
  W !! site = Some s -> (forall tid, done (dtxns_ s) tid -> done (dtxns_ s') tid) ->
  partition_done W par tid -> partition_done (<[site := s']> W) par tid.
Proof.
  intros Hs Hd (site' & s1 & Hs1 & Hp & Hx). destruct (decide (site' = site)) as [->|Hne].
  - exists site, s'. rewrite lookup_insert_eq. rewrite Hs in Hs1. injection Hs1 as <-. auto.
  - exists site', s1. rewrite lookup_insert_ne by auto. auto.
Qed.

Lemma msg_ok_mono G G' W W' m :
  G ⊆ G' -> (forall par tid, partition_done W par tid -> partition_done W' par tid) ->
  msg_ok G W m -> msg_ok G' W' m.
Proof.
  intros HG HW. destruct m; cbn; auto. intros [(g & Hg & Hr) Hd]. split; [|now apply HW]. exists g.
  split; [now apply (lookup_weaken _ _ _ _ Hg HG) | exact Hr].
Qed.

Lemma plain_none {B} (f : msg -> option B) out :
  (forall m, plain m -> f m = None) -> Forall plain out -> omap f out = [].
Proof. intros Hf Ho. apply omap_none. eapply Forall_impl; eauto. Qed.

Lemma winv_site net w site s s' m out :
  winv net w -> w_sites w !! site = Some s -> w_mgrs w !! region_of shards site = Some m ->
  site_ok (w_txns w) (mcontents m) (mnext_send_index_ m) site s' (omap (batch_at site) net) ->
  (forall tid, done (dtxns_ s) tid -> done (dtxns_ s') tid) ->
  (forall tid par, par <> par_of site -> marked (dtxns_ s') tid par ->
     marked (dtxns_ s) tid par \/ partition_done (w_sites w) par tid) ->
  Forall plain out -> Forall (msg_ok (w_txns w) (<[site := s']> (w_sites w))) out ->
  winv (out ++ net) (w {{ w_sites := <[site := s']> (w_sites w) }}).
Proof.
  intros [W1 W2 W3 W4 W5 W6 W7 W8 W9 W10] Hs Hm HS Hd Hk Hp Ho.
  assert (Hpd : forall par tid, partition_done (w_sites w) par tid -> partition_done (<[site := s']> (w_sites w)) par tid).
  { intros par tid. now apply (partition_done_mono _ _ s). }
  assert (Hpn : forall B (f : msg -> option B), (forall m, plain m -> f m = None) -> omap f (out ++ net) = omap f net).
  { intros B f Hf. now rewrite omap_app, (plain_none f out Hf Hp). }
  split.
  - exact W1.
  - exact W2.
  - exact W3.
  - exact W4.
  - intros site'. rewrite <- W5. apply (insert_is_Some _ _ _ _ _ Hs).
  - apply Forall_app. split; [exact Ho |]. eapply Forall_impl; [exact W6 |]. intros m0. now apply msg_ok_mono.
  - rewrite !Hpn by now intros []. exact W7.
  - intros rid m1 Hm1. rewrite !Hpn by now intros []. now apply W8.
  - intros site' s1 m1 Hs1 Hm1. rewrite !Hpn by now intros [].
    change (<[site := s']> (w_sites w) !! site' = Some s1) in Hs1. destruct (decide (site' = site)) as [->|Hne].
    + rewrite lookup_insert_eq in Hs1. injection Hs1 as <-. change (w_mgrs w !! region_of shards site = Some m1) in Hm1.
      rewrite Hm in Hm1. injection Hm1 as <-. exact HS.
    + rewrite lookup_insert_ne in Hs1 by auto. now apply (W9 site' s1 m1).
  - intros site' s1 tid par Hs1 Hne Hmk. change (<[site := s']> (w_sites w) !! site' = Some s1) in Hs1.
    apply Hpd. destruct (decide (site' = site)) as [->|Hne'].
    + rewrite lookup_insert_eq in Hs1. injection Hs1 as <-. destruct (Hk tid par Hne Hmk) as [H|H]; [|exact H].
      now apply (W10 site s tid par).
    + rewrite lookup_insert_ne in Hs1 by auto. now apply (W10 site' s1 tid par).
Qed.

(** What an execution of a site sends. *)
Lemma run_msgs_ok G W site (s s' : @sched E) L sent bs :
  site_ok G L sent site s' bs -> emits (par_of site) s s' ->
  (exists new, events_ s' = events_ s ++ new /\ forall tid, outputs_of new tid -> done (dtxns_ s') tid) ->
  W !! site = Some s' ->
  Forall plain (new_msgs shards regions s s') /\ Forall (msg_ok G W) (new_msgs shards regions s s').
Proof using shards_pos.
  intros S Hem (new & Hn & Hdone) HW. pose proof (new_run_msgs shards regions shards_pos G L sent site s s' bs S Hem) as Hr.
  destruct Hem as (new' & Hn' & Hsound). rewrite Hn in Hn'. apply app_inv_head in Hn' as <-.
  unfold new_msgs in *. rewrite Hn, drop_app_length in *. split.
  - eapply Forall_impl; [exact Hr |]. now intros [].
  - rewrite Forall_forall in Hr. rewrite Forall_forall in Hsound. apply Forall_forall. intros m Hm. pose proof (Hr m Hm) as Hrm.
    destruct m; try easy. split; [exact Hrm |].
    apply list_elem_of_In, in_concat in Hm as (l & Hl & Hm). apply list_elem_of_In, list_elem_of_fmap in Hl as (e & -> & He).
    apply list_elem_of_In in Hm. pose proof (Hsound e He) as Hse.
    destruct e as [|coord p t o|p t v| |]; cbn in Hm; try (apply list_elem_of_singleton in Hm; try discriminate); try easy.
    + injection Hm as -> -> ->. destruct Hse as [-> _]. exists site, s'. split_and!; auto. apply Hdone. now exists coord, (par_of site), o.
    + apply list_elem_of_fmap in Hm as (x & Hx & _). discriminate.
Qed.

(** ** Handlers *)
Lemma handle_submit cmds h net w :
  winv (MRaftSubmit cmds h :: net) w ->
  runs (handle conflict exec shards regions followers (MRaftSubmit cmds h) w) (fun '(w', out) => winv (out ++ net) w').
Proof.
  intros W. destruct (winv_log _ _ W) as [HC _]. cbn [handle].
  pose proof (raft_submit shards regions (w_txns w) (w_raft w) followers cmds h _ _
    (wi_txns _ _ W) (wi_raft _ _ W)) as Hr.
  apply winv_tail in W. destruct (SlogRaftSubmit followers cmds h (w_raft w)) as [r apps].
  destruct Hr as (R1 & R2 & R3 & R4). apply runs_ret. destruct W as [W1 W2 W3 W4 W5 W6 W7 W8 W9 W10].
  assert (Hn : forall B (f : msg -> option B), (forall x y z, f (MAppend x y z) = None) ->
    omap f (((fun a : Z * cmd_map * nat => MAppend a.1.1 a.1.2 a.2) <$> apps) ++ net) = omap f net).
  { intros B f Hf. rewrite omap_app, omap_none; [reflexivity |]. apply Forall_fmap, Forall_true. intros x. apply Hf. }
  split; auto.
  - apply Forall_app. split; [|exact W6]. apply Forall_fmap, Forall_forall. intros [[f c] i] Ha. cbn.
    rewrite <- R4. change f with (f, c, i).1.1. now do 2 apply list_elem_of_fmap_2.
  - rewrite Hn by reflexivity. rewrite omap_app, omap_fmap. cbn [ack_of]. rewrite <- list_fmap_alt. exact R1.
  - intros rid m Hm. rewrite !Hn by reflexivity. change (w_raft _) with r. rewrite R2, R3.
    eapply mgr_mono; [exact W1 | exact HC | reflexivity | apply prefix_app_r; reflexivity | reflexivity |]. now apply W8.
  - intros site s m Hs Hm. rewrite Hn by reflexivity. now apply (W9 site s m).
Qed.

Lemma handle_append f cmds i net w :
  winv (MAppend f cmds i :: net) w ->
  runs (handle conflict exec shards regions followers (MAppend f cmds i) w) (fun '(w', out) => winv (out ++ net) w').
Proof.
  intros [W1 W2 W3 W4 W5 W6 W7 W8 W9 W10]. apply Forall_cons in W6 as [Hf W6]. cbn in Hf.
  destruct (W2 f Hf) as [r Hr]. cbn [handle]. rewrite Hr. cbn [mbind option_bind]. apply runs_ret. split; auto.
  - intros f' Hf'. apply (insert_is_Some _ _ _ _ _ Hr). now apply W2.
  - now constructor.
Qed.

Lemma handle_append_ack i net w :
  winv (MAppendAck i :: net) w ->
  runs (handle conflict exec shards regions followers (MAppendAck i) w) (fun '(w', out) => winv (out ++ net) w').
Proof using shards_pos.
  intros W. cbn [handle].
  eapply runs_bind; [exact (raft_ack shards regions (w_txns w) (w_raft w) i _ _ (wi_raft _ _ W)) |].
  apply winv_tail in W. intros [r out] (R1 & R2 & R3 & R4). apply runs_ret.
  assert (Hn : forall B (f : msg -> option B), (forall x y, f (MOrdered x y) = None) ->
    omap f (((fun o => MOrdered o.1 o.2) <$> out) ++ net) = omap f net).
  { intros B f Hf. rewrite omap_app, omap_none; [reflexivity |]. apply Forall_fmap, Forall_true. intros x. apply Hf. }
  destruct W as [W1 W2 W3 W4 W5 W6 W7 W8 W9 W10]. split; auto.
  - apply Forall_app. split; [|exact W6]. apply Forall_fmap, Forall_forall. intros [site c] Ho. cbn.
    destruct (sd_each _ _ _ _ _ _ R4 _ _ Ho) as (Hs & _). apply (region_of_range shards regions shards_pos).
    now apply elem_all_sites.
  - rewrite !Hn by reflexivity. exact R1.
  - intros rid m Hm. rewrite omap_app, omap_fmap, !Hn by reflexivity. change (w_raft _) with r. rewrite R2.
    change (mgr_inv shards (w_txns w) (contents (w_raft w)) (next_send_index_ r) rid m
      (ords_of shards rid out ++ omap (ord_at rid) net) (omap (irt_at rid) net) (omap (rep_at rid) net)).
    eapply mgr_new_ords; [exact shards_pos | exact R4 | exact R3 | now apply W8].
  - intros site s m Hs Hm. rewrite Hn by reflexivity. now apply (W9 site s m).
Qed.

Lemma handle_ordered site c net w :
  winv (MOrdered site c :: net) w ->
  runs (handle conflict exec shards regions followers (MOrdered site c) w) (fun '(w', out) => winv (out ++ net) w').
Proof.
  intros W. destruct (winv_log _ _ W) as [HC _]. pose proof (wi_net _ _ W) as Hn. apply Forall_cons in Hn as [Hr _]. cbn in Hr.
  set (rid := region_of shards site) in *. apply (wi_regions _ _ W) in Hr as [m Hm].
  pose proof (wi_mgrs _ _ W rid m Hm) as M. cbn in M. fold rid in M. rewrite Z.eqb_refl in M.
  cbn [handle]. fold rid. unfold at_manager. rewrite Hm. cbn [mbind option_bind].
  eapply runs_bind; [exact (mgr_ordered shards regions (w_txns w) _ _ rid m (wi_txns _ _ W) HC c _ _ _ M) |].
  intros [m' reqs] (H1 & H2 & H3). apply runs_ret. apply winv_tail in W. now apply (winv_mgr net w rid m m' reqs).
Qed.

Lemma handle_irt site cmds h net w :
  winv (MIRT site cmds h :: net) w ->
  runs (handle conflict exec shards regions followers (MIRT site cmds h) w) (fun '(w', out) => winv (out ++ net) w').
Proof.
  intros W. pose proof (wi_net _ _ W) as Hn. apply Forall_cons in Hn as [Hr _]. cbn in Hr.
  set (rid := region_of shards site) in *. apply (wi_regions _ _ W) in Hr as [m Hm].
  pose proof (wi_mgrs _ _ W rid m Hm) as M. cbn in M. fold rid in M. rewrite Z.eqb_refl in M.
  cbn [handle]. fold rid. unfold at_manager. rewrite Hm. cbn [mbind option_bind].
  pose proof (mgr_irt shards (w_txns w) _ _ rid m cmds h _ _ _ M) as H. destruct (SendRmIRT cmds h m) as [m' req].
  destruct H as (H1 & H2 & H3). cbn [mbind option_bind]. apply runs_ret. apply winv_tail in W.
  now apply (winv_mgr net w rid m m' [req]).
Qed.

Lemma handle_replicate rid cmds i net w :
  winv (MReplicate rid cmds i :: net) w ->
  runs (handle conflict exec shards regions followers (MReplicate rid cmds i) w) (fun '(w', out) => winv (out ++ net) w').
Proof.
  intros [W1 W2 W3 W4 W5 W6 W7 W8 W9 W10]. apply Forall_cons in W6 as [Hf W6]. cbn in Hf.
  destruct (W4 rid Hf) as [b Hb]. cbn [handle]. rewrite Hb. cbn [mbind option_bind]. apply runs_ret. split; auto.
  - intros rid' Hr'. apply (insert_is_Some _ _ _ _ _ Hb). now apply W4.
  - now constructor.
Qed.

Lemma handle_replicate_ack rid i net w :
  winv (MReplicateAck rid i :: net) w ->
  runs (handle conflict exec shards regions followers (MReplicateAck rid i) w) (fun '(w', out) => winv (out ++ net) w').
Proof.
  intros W. pose proof (wi_net _ _ W) as Hn. apply Forall_cons in Hn as [Hr _]. cbn in Hr.
  apply (wi_regions _ _ W) in Hr as [m Hm]. pose proof (wi_mgrs _ _ W rid m Hm) as M. cbn in M. rewrite Z.eqb_refl in M.
  cbn [handle]. unfold at_manager. rewrite Hm. cbn [mbind option_bind].
  destruct (mgr_ack shards (w_txns w) _ _ rid m i _ _ _ M) as (m' & Ha & H1 & H2 & H3). rewrite Ha. cbn [mbind option_bind].
  apply runs_ret. apply winv_tail in W. apply (winv_mgr net w rid m m' []); auto. now rewrite H2.
Qed.

Section Total.
Hypothesis exec_total : forall site tid c e, is_Some (exec site tid c e).

Lemma site_of net w site :
  winv net w -> 0 <= site < n_sites shards regions ->
  exists s m, w_sites w !! site = Some s /\ w_mgrs w !! region_of shards site = Some m
    /\ site_ok (w_txns w) (mcontents m) (mnext_send_index_ m) site s (omap (batch_at site) net).
Proof using shards_pos.
  intros W Hs. pose proof Hs as Hr. apply (region_of_range shards regions shards_pos) in Hr.
  apply (wi_regions _ _ W) in Hr as [m Hm]. apply (wi_range _ _ W) in Hs as [s Hs'].
  exists s, m. split_and!; auto. now apply (wi_sites _ _ W).
Qed.

(** A handler of a site that keeps the site and takes nothing back. *)
Lemma site_step net w site s m h :
  winv net w -> w_sites w !! site = Some s -> w_mgrs w !! region_of shards site = Some m ->
  runs (h s) (fun s' => site_ok (w_txns w) (mcontents m) (mnext_send_index_ m) site s' (omap (batch_at site) net)
    /\ emits (par_of site) s s') ->
  (forall s', h s = Some s' -> progress (par_of site) s s') ->
  runs (at_site shards regions site h w) (fun '(w', out) => winv (out ++ net) w').
Proof using shards_pos.
  intros W Hs Hm (s' & Hh & S' & Hem) Hp. unfold at_site. rewrite Hs. cbn [mbind option_bind]. rewrite Hh.
  cbn [mbind option_bind]. apply runs_ret. destruct (Hp s' Hh) as [P1 P2 P3].
  destruct (run_msgs_ok (w_txns w) (<[site := s']> (w_sites w)) site s s' _ _ _ S' Hem P1) as [O1 O2]; [apply lookup_insert_eq |].
  apply (winv_site net w site s s' m); auto.
Qed.

Lemma handle_batch site b net w :
  winv (MBatch site b :: net) w ->
  runs (handle conflict exec shards regions followers (MBatch site b) w) (fun '(w', out) => winv (out ++ net) w').
Proof using exec_total shards_pos.
  intros W. pose proof (wi_net _ _ W) as Hn. apply Forall_cons in Hn as [Hr _]. cbn in Hr.
  destruct (site_of _ w site W Hr) as (s & m & Hs & Hm & S). cbn in S. rewrite Z.eqb_refl in S. cbn [handle].
  destruct (winv_log _ _ W) as [HC Hd]. pose proof (wi_mgrs _ _ W _ m Hm) as M.
  apply (site_step net w site s m); auto; [now apply winv_tail in W | |intros s'; apply batch_progress].
  apply (site_batch conflict exec shards regions shards_pos (w_txns w)); auto.
  - apply (wi_txns _ _ W).
  - intros x. apply (mgr_entry shards regions _ _ _ _ _ _ _ _ (wi_txns _ _ W) HC M).
  - apply (mgr_ids_once shards regions _ _ _ _ _ _ _ _ (wi_txns _ _ W) HC Hd M).
Qed.

Lemma handle_deps site tid vars net w :
  winv (MDeps site tid vars :: net) w ->
  runs (handle conflict exec shards regions followers (MDeps site tid vars) w) (fun '(w', out) => winv (out ++ net) w').
Proof using exec_total shards_pos.
  intros W. pose proof (wi_net _ _ W) as Hn. apply Forall_cons in Hn as [Hr _]. cbn in Hr. apply winv_tail in W.
  destruct (site_of _ w site W Hr) as (s & m & Hs & Hm & S). cbn [handle].
  apply (site_step net w site s m); auto; [|intros s'; apply deps_progress]. now apply (site_deps conflict exec).
Qed.

Lemma handle_output site par tid net w :
  winv (MOutput site par tid :: net) w ->
  runs (handle conflict exec shards regions followers (MOutput site par tid) w) (fun '(w', out) => winv (out ++ net) w').
Proof using exec_total shards_pos.
  intros W. pose proof (wi_net _ _ W) as Hn. apply Forall_cons in Hn as [[(g & Hg & Hc & Hp & Hne) Hdone] _].
  apply winv_tail in W. pose proof (gk_site _ _ _ _ (wi_txns _ _ W _ _ Hg)) as Hr. rewrite Hc in Hr.
  destruct (site_of _ w site W Hr) as (s & m & Hs & Hm & S). cbn [handle]. unfold at_site. rewrite Hs. cbn [mbind option_bind].
  destruct (site_output conflict exec (w_txns w) _ _ site s _ (exec_total site) S tid par g Hg Hc Hp Hne) as (s' & Hh & S' & Hem).
  rewrite Hh. cbn [mbind option_bind]. apply runs_ret. apply output_progress in Hh as ((new & Hev & Ho) & P2 & P3).
  assert (P1 : exists new, events_ s' = events_ s ++ new /\ forall tid, outputs_of new tid -> done (dtxns_ s') tid).
  { exists new. split; [exact Hev |]. intros tid' Hout. pose proof (Ho tid' Hout) as ->. exfalso.
    destruct Hem as (new' & Hev' & Hsound). rewrite Hev in Hev'. apply app_inv_head in Hev' as <-.
    destruct Hout as (c & p & o & Hin). rewrite Forall_forall in Hsound.
    destruct (Hsound _ Hin) as [-> (ids & ps & Hi & _)]. destruct (so_idents _ _ _ _ _ _ S' _ _ Hi) as (g' & Hg' & Heq & _).
    rewrite Hg in Hg'. injection Hg' as <-. unfold known_as, role in Heq. rewrite !decide_True in Heq by exact Hc. discriminate. }
  destruct (run_msgs_ok (w_txns w) (<[site := s']> (w_sites w)) site s s' _ _ _ S' Hem P1) as [O1 O2]; [apply lookup_insert_eq |].
  apply (winv_site net w site s s' m); auto. intros tid' par' _ Hmk. destruct (P3 _ _ Hmk) as [H|[-> ->]]; auto.
Qed.

Lemma msg_handled m net w :
  winv (m :: net) w ->
  runs (handle conflict exec shards regions followers m w) (fun '(w', out) => winv (out ++ net) w').
Proof using exec_total shards_pos.
  destruct m; auto using handle_submit, handle_append, handle_append_ack, handle_ordered, handle_irt, handle_replicate,
    handle_replicate_ack, handle_batch, handle_output, handle_deps.
Qed.
End Total.

(** ** Submissions *)
Lemma valid_gtxn (w : world) site tid cmds irt :
  valid_submit shards regions w site tid cmds irt ->
  gtxn_ok shards regions tid {| g_coord := site; g_cmds := cmds; g_irt := irt |}.
Proof. intros [V1 V2 V3 V4 V5]. now split. Qed.

(** The entries of the logs are registered, so that a new transaction is in none. *)
Lemma new_not_registered (G : gmap Z gtxn) irt (l : list content) x tid :
  Forall (registered G irt) l -> G !! tid = None -> cid x = Some tid -> cid x ∉ cid <$> l.
Proof.
  intros Hl Hn Hc Hin. apply list_elem_of_fmap in Hin as (y & Hy & Hin). rewrite Forall_forall in Hl.
  destruct (Hl y Hin) as (tid' & Hc' & Hg). rewrite Hc, Hc' in Hy. injection Hy as ->. congruence.
Qed.

Lemma txns_ok_insert G tid g :
  txns_ok shards regions G -> gtxn_ok shards regions tid g -> txns_ok shards regions (<[tid := g]> G).
Proof.
  intros HG Hg tid' g'. destruct (decide (tid' = tid)) as [->|Hne]; [rewrite lookup_insert_eq; now intros [= <-] |].
  rewrite lookup_insert_ne by auto. apply HG.
Qed.

Definition submit_msg (site : Z) (cmds : cmd_map) (irt : bool) : msg :=
  if irt then MIRT (par_of site / shards * shards * N_REP_PER_SHARD) cmds site else MRaftSubmit cmds site.

Lemma submit_msg_cases site cmds irt :
  irt = true /\ submit_msg site cmds irt = MIRT (par_of site / shards * shards * N_REP_PER_SHARD) cmds site
  \/ irt = false /\ submit_msg site cmds irt = MRaftSubmit cmds site.
Proof. destruct irt; auto. Qed.

Section Submit.
Context (w : world) (net : list msg) (site tid : Z) (cmds : cmd_map) (irt : bool).
Hypothesis W : winv net w.
Hypothesis V : valid_submit shards regions w site tid cmds irt.

Let g := {| g_coord := site; g_cmds := cmds; g_irt := irt |}.
Let G' := <[tid := g]> (w_txns w).

Lemma grows : w_txns w ⊆ G'.
Proof using V. apply insert_subseteq, (vs_new _ _ _ _ _ _ _ V). Qed.

Lemma submit_registered : registered G' irt (cmds, site).
Proof using V.
  exists tid. split; [exact (v_id _ _ _ _ (vs_cmds _ _ _ _ _ _ _ V)) | apply lookup_insert_eq].
Qed.

Lemma submit_raft :
  raft_inv G' (w_raft w) (omap sub_of (submit_msg site cmds irt :: net)) (omap ack_of (submit_msg site cmds irt :: net)).
Proof using W V.
  pose proof (raft_mono _ _ _ _ _ grows (wi_raft _ _ W)) as R. pose proof submit_registered as Hx.
  destruct (submit_msg_cases site cmds irt) as [[Hi ->]|[Hi ->]]; cbn; [exact R |]. rewrite Hi in Hx. destruct R as [R1 R2 R3 R4]. split; auto; cbn; constructor; auto.
  pose proof (wi_raft _ _ W) as [_ R2' _ _].
  apply (new_not_registered (w_txns w) false _ (cmds, site) tid R2' (vs_new _ _ _ _ _ _ _ V)).
  exact (v_id _ _ _ _ (vs_cmds _ _ _ _ _ _ _ V)).
Qed.

Lemma submit_mgr rid m : w_mgrs w !! rid = Some m ->
  mgr_inv shards G' (contents (w_raft w)) (next_send_index_ (w_raft w)) rid m
    (omap (ord_at rid) (submit_msg site cmds irt :: net)) (omap (irt_at rid) (submit_msg site cmds irt :: net))
    (omap (rep_at rid) (submit_msg site cmds irt :: net)).
Proof using W V shards_pos.
  intros Hm. destruct (winv_log _ _ W) as [HC _]. pose proof (wi_mgrs _ _ W rid m Hm) as M0.
  assert (M : mgr_inv shards G' (contents (w_raft w)) (next_send_index_ (w_raft w)) rid m
    (omap (ord_at rid) net) (omap (irt_at rid) net) (omap (rep_at rid) net)).
  { eapply mgr_mono; [exact (wi_txns _ _ W) | exact HC | exact grows | reflexivity | reflexivity | exact M0]. }
  pose proof submit_registered as Hx. destruct (submit_msg_cases site cmds irt) as [[Hi ->]|[Hi ->]]; [|exact M].
  cbn. rewrite Hi in Hx.
  rewrite (region_first shards shards_pos). destruct (Z.eqb_spec (par_of site / shards) rid) as [Hr|]; [|exact M].
  assert (Hid : cid (cmds, site) = Some tid) by exact (v_id _ _ _ _ (vs_cmds _ _ _ _ _ _ _ V)).
  apply mgr_new_sub; auto.
  - cbn. now rewrite (region_of_par_of shards shards_pos).
  - assert (Hf : List.filter (fun x => negb (is_crt G' x)) (mcontents m)
                 = List.filter (fun x => negb (is_crt (w_txns w) x)) (mcontents m)).
    { apply filter_ext_in'. intros x Hin. f_equal. apply is_crt_mono; [exact grows |].
      destruct (mgr_entry shards regions _ _ _ _ _ _ _ _ (wi_txns _ _ W) HC M0 x Hin) as (tid' & g' & H1 & H2 & _). eauto. }
    rewrite Hf. apply (new_not_registered (w_txns w) true _ _ tid); [|exact (vs_new _ _ _ _ _ _ _ V) | exact Hid].
    eapply Forall_impl; [exact (mi_irts _ _ _ _ _ _ _ _ _ M0) |]. now intros x [? _].
Qed.

Lemma submit_others site' s m :
  site' <> site -> w_sites w !! site' = Some s -> w_mgrs w !! region_of shards site' = Some m ->
  site_ok G' (mcontents m) (mnext_send_index_ m) site' s (omap (batch_at site') net).
Proof using W V.
  intros Hne Hs Hm. eapply site_mono; [exact grows | | reflexivity | reflexivity | exact (wi_sites _ _ W site' s m Hs Hm)].
  intros tid' g'. unfold G'. destruct (decide (tid' = tid)) as [->|Hn].
  - rewrite lookup_insert_eq. intros [= <-]. cbn. congruence.
  - rewrite lookup_insert_ne by auto. eauto.
Qed.

Lemma world_submit_ok :
  runs (at_site shards regions site (OnSubmitTxn site (par_of site) shards cmds irt) w) (fun '(w', out) =>
    winv (out ++ net) (w' {{ w_txns := G' }})).
Proof using W V shards_pos conflict exec.
  destruct (site_of net w site W (vs_site _ _ _ _ _ _ _ V)) as (s & m & Hs & Hm & S).
  pose proof (valid_gtxn _ _ _ _ _ V) as Hg. unfold at_site. rewrite Hs. cbn [mbind option_bind].
  destruct (site_submit conflict exec shards regions (w_txns w) _ _ site s _ S cmds irt tid (wi_txns _ _ W)
    (vs_new _ _ _ _ _ _ _ V) Hg) as (s' & Hh & S' & Hev).
  rewrite Hh. cbn [mbind option_bind]. apply runs_ret. apply submit_progress in Hh as [_ P2 P3].
  assert (Hout : new_msgs shards regions s s' = [submit_msg site cmds irt]).
  { unfold new_msgs. rewrite Hev, drop_app_length. unfold submit_event.
    destruct (submit_msg_cases site cmds irt) as [[Hi ->]|[Hi ->]]; now rewrite Hi. }
  rewrite Hout. cbn [app].
  assert (Hpd : forall par tid, partition_done (w_sites w) par tid -> partition_done (<[site := s']> (w_sites w)) par tid).
  { intros par tid'. now apply (partition_done_mono _ _ s). }
  pose proof W as [W1 W2 W3 W4 W5 W6 W7 W8 W9 W10]. split.
  - now apply txns_ok_insert.
  - exact W2.
  - exact W3.
  - exact W4.
  - intros site'. rewrite <- W5. apply (insert_is_Some _ _ _ _ _ Hs).
  - constructor.
    + destruct (submit_msg_cases site cmds irt) as [[_ ->]|[_ ->]]; [|exact I]. cbn. rewrite (region_first shards shards_pos).
      rewrite <- (region_of_par_of shards shards_pos). apply (region_of_range shards regions shards_pos).
      exact (vs_site _ _ _ _ _ _ _ V).
    + eapply Forall_impl; [exact W6 |]. intros m0. apply msg_ok_mono; [exact grows | exact Hpd].
  - exact submit_raft.
  - intros rid m1 Hm1. now apply submit_mgr.
  - intros site' s1 m1 Hs1 Hm1. change (<[site := s']> (w_sites w) !! site' = Some s1) in Hs1.
    change (w_mgrs w !! region_of shards site' = Some m1) in Hm1.
    assert (Hb : omap (batch_at site') (submit_msg site cmds irt :: net) = omap (batch_at site') net)
      by now destruct (submit_msg_cases site cmds irt) as [[_ ->]|[_ ->]].
    rewrite Hb. destruct (decide (site' = site)) as [->|Hne].
    + rewrite lookup_insert_eq in Hs1. injection Hs1 as <-. rewrite Hm in Hm1. injection Hm1 as <-. exact S'.
    + rewrite lookup_insert_ne in Hs1 by auto. now apply submit_others.
  - intros site' s1 tid' par Hs1 Hne Hmk. change (<[site := s']> (w_sites w) !! site' = Some s1) in Hs1. apply Hpd.
    destruct (decide (site' = site)) as [->|Hn].
    + rewrite lookup_insert_eq in Hs1. injection Hs1 as <-. apply (W10 site s tid' par Hs Hne). now apply P3.
    + rewrite lookup_insert_ne in Hs1 by auto. now apply (W10 site' s1 tid' par).
Qed.
End Submit.

(** ** Batches leave *)
Lemma batches_at site (out : list (Z * batch)) :
  omap (batch_at site) ((fun o => MBatch o.1 o.2) <$> out) = omap (fun o => if o.1 =? site then Some o.2 else None) out.
Proof. now rewrite omap_fmap. Qed.

Lemma one_batch site (out : list (Z * batch)) :
  NoDup out.*1 -> let l := omap (fun o => if o.1 =? site then Some o.2 else None) out in
  l = [] \/ exists b, l = [b] /\ (site, b) ∈ out.
Proof.
  cbn. induction out as [|[st b] out IH]; cbn; intros Hd; [auto |]. apply NoDup_cons in Hd as [Hn Hd].
  destruct (Z.eqb_spec st site) as [->|Hne].
  - right. exists b. split; [|left]. f_equal. apply omap_none, Forall_forall. intros [st' b'] Hin. cbn.
    destruct (Z.eqb_spec st' site) as [->|]; [|reflexivity]. destruct Hn. change site with (site, b').1. now apply list_elem_of_fmap_2.
  - destruct (IH Hd) as [->|(b' & -> & Hin)]; [auto |]. right. exists b'. split; [reflexivity | now right].
Qed.

Lemma tick_ok net w rid m :
  winv net w -> w_mgrs w !! rid = Some m ->
  runs (CheckAndSendBacth shards (proxies shards regions) rid m) (fun '(m', out) =>
    winv (((fun o => MBatch o.1 o.2) <$> out) ++ net) (w {{ w_mgrs := <[rid := m']> (w_mgrs w) }})).
Proof using shards_pos.
  intros W Hm. destruct (winv_log _ _ W) as [HC _]. pose proof (wi_mgrs _ _ W rid m Hm) as M.
  eapply runs_mono; [exact (mgr_tick shards regions (w_txns w) _ _ rid m (wi_txns _ _ W) HC _ _ _ _ M) |].
  intros [m' out] (M' & H1 & H2 & H3 & H4). destruct W as [W1 W2 W3 W4 W5 W6 W7 W8 W9 W10].
  assert (Hd : NoDup out.*1).
  { destruct H3 as [->| ->]; [constructor | now apply region_proxies_once]. }
  assert (Hin : forall site b, (site, b) ∈ out -> region_of shards site = rid /\ 0 <= site < n_sites shards regions
    /\ carries (mcontents m) (mnext_send_index_ m) (next_commit_index_ m) (par_of site) b).
  { intros site b Hin. rewrite Forall_forall in H4. destruct (H4 _ Hin) as (par & Hp & Hx & Hc). cbn in Hx, Hc.
    apply (proxies_elem shards regions shards_pos) in Hx as [<- Hx]. split_and!; auto; try lia.
    rewrite (region_of_par_of shards shards_pos). now apply region_pars_elem. }
  assert (Hn : forall B (f : msg -> option B), (forall x y, f (MBatch x y) = None) ->
    omap f (((fun o => MBatch o.1 o.2) <$> out) ++ net) = omap f net).
  { intros B f Hf. rewrite omap_app, omap_none; [reflexivity |]. apply Forall_fmap, Forall_true. intros x. apply Hf. }
  split.
  - exact W1.
  - exact W2.
  - intros rid'. rewrite <- W3. apply (insert_is_Some _ _ _ _ _ Hm).
  - exact W4.
  - exact W5.
  - apply Forall_app. split; [|exact W6]. apply Forall_fmap, Forall_forall. intros [site b] Ho. now destruct (Hin _ _ Ho).
  - rewrite !Hn by reflexivity. exact W7.
  - intros rid' m1 Hm1. rewrite !Hn by reflexivity. change (<[rid := m']> (w_mgrs w) !! rid' = Some m1) in Hm1.
    destruct (decide (rid' = rid)) as [->|Hne]; [rewrite lookup_insert_eq in Hm1; now injection Hm1 as <- |].
    rewrite lookup_insert_ne in Hm1 by auto. now apply W8.
  - intros site s m1 Hs Hm1. change (<[rid := m']> (w_mgrs w) !! region_of shards site = Some m1) in Hm1.
    rewrite omap_app, batches_at. pose proof (one_batch site out Hd) as Hone. cbv zeta in Hone.
    destruct (decide (region_of shards site = rid)) as [Heq|Hne].
    + rewrite Heq, lookup_insert_eq in Hm1. injection Hm1 as <-. rewrite <- Heq in Hm. rewrite H1, H2.
      pose proof (mi_send _ _ _ _ _ _ _ _ _ M) as Hsend.
      pose proof (W9 site s m Hs Hm) as S.
      assert (S' : site_ok (w_txns w) (mcontents m) (next_commit_index_ m) site s (omap (batch_at site) net)).
      { eapply site_mono; [reflexivity | eauto | reflexivity | | exact S]. lia. }
      destruct Hone as [->|(b & -> & Hb)]; [exact S' |]. destruct (Hin _ _ Hb) as (_ & _ & Hc).
      destruct S' as [S1 S2 S3 S4 S5 S6]. pose proof (cy_start _ _ _ _ _ Hc) as Hst. split; auto; cbn.
      * constructor; [|exact S5]. split; [exists (next_commit_index_ m); split; [lia | now rewrite Hst] |].
        intros k tid Hk Hq. apply elem_of_seq in Hk. destruct (so_queue _ _ _ _ _ _ S _ _ Hq). lia.
      * apply NoDup_app. split_and!; [apply NoDup_seq | | exact S6]. intros k Hk Hk'. apply elem_of_seq in Hk.
        apply list_elem_of_In, in_concat in Hk' as (l & Hl & Hk'). apply list_elem_of_In, list_elem_of_fmap in Hl as (b' & -> & Hb').
        apply list_elem_of_In, elem_of_seq in Hk'. pose proof (so_batches _ _ _ _ _ _ S) as Hbs. rewrite Forall_forall in Hbs.
        destruct (bo_carries _ _ _ _ _ (Hbs b' Hb')) as (n' & Hn' & [_ C2 _]). lia.
    + rewrite lookup_insert_ne in Hm1 by auto. destruct Hone as [->|(b & _ & Hb)]; [now apply (W9 site s m1) |].
      now destruct (Hin _ _ Hb).
  - exact W10.
Qed.

(** ** Runs *)
Lemma list_to_map_const {A} (x : Z -> A) (l : list Z) i :
  (list_to_map ((fun k => (k, x k)) <$> l) : gmap Z A) !! i = if decide (i ∈ l) then Some (x i) else None.
Proof.
  induction l as [|k l IH]; cbn; [now rewrite decide_False by apply not_elem_of_nil |].
  destruct (decide (i = k)) as [->|Hne].
  - rewrite lookup_insert_eq, decide_True; [reflexivity | left].
  - rewrite lookup_insert_ne by auto. rewrite IH. apply decide_ext. rewrite elem_of_cons. naive_solver.
Qed.

Lemma world_init_inv db : winv [] (init shards regions followers db).
Proof.
  assert (Hreg : forall rid, rid ∈ all_regions regions <-> 0 <= rid < regions).
  { intros rid. unfold all_regions. rewrite list_elem_of_fmap. split; [intros (k & -> & Hk%elem_of_seq); lia |].
    intros H. exists (Z.to_nat rid). split; [lia |]. apply elem_of_seq. lia. }
  assert (Hmap : forall (l : list Z) (m : manager) i,
    (list_to_map ((fun r => (r, m)) <$> l) : gmap Z manager) !! i = if decide (i ∈ l) then Some m else None).
  { intros l m i. exact (list_to_map_const (fun _ => m) l i). }
  split; cbn [init w_txns w_followers w_mgrs w_backups w_sites w_raft].
  - intros tid g. cbn. now rewrite lookup_empty.
  - intros f Hf. rewrite (list_to_map_const (fun _ => raft_init)), decide_True by exact Hf. eauto.
  - intros rid. rewrite Hmap, <- Hreg. destruct (decide _); split; eauto; [now intros [] | done].
  - intros rid Hr. rewrite Hmap, decide_True by now apply Hreg. eauto.
  - intros site. rewrite (list_to_map_const (fun s => sched_init (db s) 0)), <- elem_all_sites.
    destruct (decide _); split; eauto; [now intros [] | done].
  - constructor.
  - split; [split | | |]; cbn; [lia | intros g e; now rewrite lookup_nil .. | constructor | constructor | constructor].
  - intros rid m. rewrite Hmap. destruct (decide _); [|discriminate]. intros [= <-].
    split; [intros g y H; discriminate H | apply Forall_nil_2 | constructor | cbn; lia
      | cbn; intros g Hg; lia | reflexivity | apply Forall_nil_2 | constructor | cbn; lia | apply Forall_nil_2].
  - intros site s m. rewrite (list_to_map_const (fun s => sched_init (db s) 0)). destruct (decide _); [|discriminate]. intros [= <-] Hm.
    split; [apply site_init_inv | | | | constructor | constructor]; unfold idents; cbn.
    + intros tid i. now rewrite fmap_empty, lookup_empty.
    + intros tid g. now rewrite lookup_empty.
    + intros k tid. now rewrite lookup_nil.
  - intros site s tid par. rewrite (list_to_map_const (fun s => sched_init (db s) 0)). destruct (decide _); [|discriminate].
    intros [= <-] _ (t & Ht & _). cbn in Ht. now rewrite lookup_empty in Ht.
Qed.

Hypothesis exec_total : forall site tid c e, is_Some (exec site tid c e).

Lemma step_inv w w' : step conflict exec shards regions followers w w' -> winv (w_net w) w -> winv (w_net w') w'.
Proof using exec_total shards_pos.
  intros Hst W. destruct Hst as [w site tid cmds irt w' out V H|w l1 m l2 w' out Hn H|w rid m m' out Hm H].
  - destruct (world_submit_ok w (w_net w) site tid cmds irt W V) as ([w1 out1] & Hx & W1). rewrite H in Hx. injection Hx as <- <-.
    apply (winv_loses (out ++ w_net w)); [apply loses_perm, Permutation_app_comm |].
    destruct W1 as [P1 P2 P3 P4 P5 P6 P7 P8 P9 P10]. split; auto.
  - apply (winv_loses _ (m :: l1 ++ l2)) in W; [|apply loses_perm; rewrite Hn; symmetry; apply Permutation_middle].
    destruct (msg_handled exec_total m _ w W) as ([w1 out1] & Hx & W1). rewrite H in Hx. injection Hx as <- <-.
    apply (winv_loses (out ++ l1 ++ l2)); [apply loses_perm; cbn; solve_Permutation |].
    destruct W1 as [P1 P2 P3 P4 P5 P6 P7 P8 P9 P10]. split; auto.
  - destruct (tick_ok (w_net w) w rid m W Hm) as ([m1 out1] & Hx & W1). rewrite H in Hx. injection Hx as <- <-.
    apply (winv_loses (((fun o => MBatch o.1 o.2) <$> out) ++ w_net w)); [apply loses_perm, Permutation_app_comm |].
    destruct W1 as [P1 P2 P3 P4 P5 P6 P7 P8 P9 P10]. split; auto.
Qed.

Lemma runs_inv db w :
  rtc (step conflict exec shards regions followers) (init shards regions followers db) w -> winv (w_net w) w.
Proof using exec_total shards_pos.
  intros H. assert (W : winv (w_net (init shards regions followers db)) (init shards regions followers db)) by apply world_init_inv.
  induction H as [|w1 w2 w3 Hs _ IH]; [exact W |]. apply IH. eapply step_inv; eauto.
Qed.
End World.
End SlogWorld.
