(* ===== verification/SlogRuns.v ===== *)
(** * The order of transactions in a Slog deployment

    Consequences of the invariant of SlogWorld.v, and a small deployment on which the
    definitions are evaluated. *)

From Stdlib Require Import ZArith Lia.
From stdpp Require Import base list option gmap sets relations sorting.
From coqutil Require Import Datatypes.RecordSetters.
From S2P Require Import Prelude ALock MemSchema PieceExec RccTxn SlogOrder SlogSched SlogExec SlogSite SlogSystem SlogLogs SlogInv SlogQueues SlogProgress SlogWorld.
Import DoubleBraceUpdate.
Local Open Scope Z_scope.

Module SlogRuns.
Import SlogOrder SlogSched SlogExec SlogSite SlogSystem SlogLogs SlogInv SlogQueues SlogProgress SlogWorld.

(** ** Order of a part of a list *)
Lemma omap_cons_inv {A B} (f : A -> option B) (l : list A) a x b :
  omap f l = a ++ x :: b -> exists l1 g l2, l = l1 ++ g :: l2 /\ f g = Some x /\ omap f l2 = b.
Proof.
  revert a. induction l as [|y l IH]; intros a; cbn; [destruct a; discriminate |].
  destruct (f y) as [z|] eqn:Ef.
  - destruct a as [|z' a]; cbn; intros [= -> H].
    + exists [], y, l. auto.
    + destruct (IH a H) as (l1 & g & l2 & -> & Hg & Hb). exists (y :: l1), g, l2. auto.
  - intros H. destruct (IH a H) as (l1 & g & l2 & -> & Hg & Hb). exists (y :: l1), g, l2. auto.
Qed.

Lemma lookup_two {A} (l : list A) i j x y :
  l !! i = Some x -> l !! j = Some y -> (i < j)%nat -> exists a b c, l = a ++ x :: b ++ y :: c.
Proof.
  intros Hi Hj Hlt. exists (take i l). apply list_elem_of_split_length in Hi as (a & r & -> & ->).
  rewrite take_app_length. assert (Hr : r !! (j - S (length a))%nat = Some y).
  { rewrite lookup_app_r in Hj by lia. destruct (j - length a)%nat as [|k] eqn:Ek; [lia |]. cbn in Hj.
    now replace (j - S (length a))%nat with k by lia. }
  apply list_elem_of_split_length in Hr as (b & c & -> & _). exists b, c. reflexivity.
Qed.

Lemma seq_two n l1 g l2 h l3 : seq 0 n = l1 ++ g :: l2 ++ h :: l3 -> (g < h)%nat.
Proof.
  intros H. assert (Hg : seq 0 n !! length l1 = Some g) by (rewrite H; now apply list_lookup_middle).
  assert (Hh : seq 0 n !! (length l1 + S (length l2))%nat = Some h).
  { rewrite H, lookup_app_r by lia. replace (length l1 + S (length l2) - length l1)%nat with (S (length l2)) by lia.
    cbn. now apply list_lookup_middle. }
  apply lookup_seq in Hg as [-> _]. apply lookup_seq in Hh as [-> _]. lia.
Qed.

Section Runs.
Context {E : Type} (conflict : Z -> Z -> bool)
  (exec : Z -> Z -> SimpleCommand -> E -> option (E * output_map)).
Context (shards regions : Z) (followers : list Z) (shards_pos : 0 < shards).

Abbreviation reachable db w :=
  (rtc (step conflict exec shards regions followers) (init shards regions followers db) w).

(** Two transactions of several regions are in the log of a region in the order of the
    global log. *)
Lemma crt_order G C n rid m ords subs reps i j x y :
  txns_ok shards regions G -> Forall (registered G false) C ->
  mgr_inv shards G C n rid m ords subs reps ->
  mcontents m !! i = Some x -> mcontents m !! j = Some y -> (i < j)%nat ->
  is_crt G x = true -> is_crt G y = true ->
  exists g h x' y', (g < h)%nat /\ C !! g = Some x' /\ C !! h = Some y' /\ cid x' = cid x /\ cid y' = cid y.
Proof.
  intros HG HC M Hi Hj Hlt Hx Hy. destruct (lookup_two _ _ _ _ _ Hi Hj Hlt) as (a & b & c & Heq).
  pose proof (mi_crts _ _ _ _ _ _ _ _ _ M) as Hc. rewrite Heq, !List.filter_app in Hc. cbn in Hc.
  rewrite Hx, List.filter_app in Hc. cbn in Hc. rewrite Hy in Hc. symmetry in Hc.
  apply omap_cons_inv in Hc as (l1 & g & l2 & Hs & Hg & Hc). apply omap_cons_inv in Hc as (l3 & h & l4 & -> & Hh & _).
  destruct (part_inv _ _ _ _ _ Hg) as [x' Hx']. destruct (part_inv _ _ _ _ _ Hh) as [y' Hy'].
  destruct (part_spec shards regions G C rid g x' x HG HC Hx' Hg) as (_ & H1 & _).
  destruct (part_spec shards regions G C rid h y' y HG HC Hy' Hh) as (_ & H2 & _).
  exists g, h, x', y'. split_and!; auto. now apply (seq_two _ _ _ _ _ _ Hs).
Qed.

(** A transaction of one region is in the log of that region only. *)
Lemma irt_home G C n rid m ords subs reps i x :
  mgr_inv shards G C n rid m ords subs reps -> mcontents m !! i = Some x -> is_crt G x = false ->
  exists tid g, cid x = Some tid /\ G !! tid = Some g /\ region_of shards (g_coord g) = rid.
Proof.
  intros M Hi Hx. pose proof (mi_irts _ _ _ _ _ _ _ _ _ M) as H. apply Forall_app in H as [_ H].
  rewrite Forall_forall in H. destruct (H x) as [(tid & Hc & Hg) Hr].
  - apply elem_of_filter_b. split; [now apply list_elem_of_lookup_2 in Hi | now rewrite Hx].
  - eexists tid, _. split_and!; eauto.
Qed.

Lemma is_crt_cid G x y : cid x = cid y -> is_crt G x = is_crt G y.
Proof. unfold is_crt. now intros ->. Qed.

(** The queue of a site and the log of its region. *)
Lemma queue_in_log net (w : @world E) site s k tid :
  winv shards regions followers net w -> w_sites w !! site = Some s -> txn_queue_ s !! k = Some (Some tid) ->
  exists m x, w_mgrs w !! region_of shards site = Some m /\ mcontents m !! k = Some x /\ cid x = Some tid.
Proof using shards_pos.
  intros W Hs Hk. assert (Hr : 0 <= site < n_sites shards regions) by (apply (wi_range _ _ _ _ _ W); eauto).
  destruct (site_of shards regions followers shards_pos net w site W Hr) as (s' & m & Hs' & Hm & S).
  rewrite Hs in Hs'. injection Hs' as <-. destruct (so_queue _ _ _ _ _ _ S k tid Hk) as (_ & x & Hx & Hc). eauto.
Qed.

Section Claims.
Hypothesis exec_total : forall site tid c e, is_Some (exec site tid c e).

Lemma order_agrees net (w : @world E) site1 s1 site2 s2 a b i1 j1 i2 j2 :
  winv shards regions followers net w ->
  w_sites w !! site1 = Some s1 -> w_sites w !! site2 = Some s2 ->
  txn_queue_ s1 !! i1 = Some (Some a) -> txn_queue_ s1 !! j1 = Some (Some b) ->
  txn_queue_ s2 !! i2 = Some (Some a) -> txn_queue_ s2 !! j2 = Some (Some b) ->
  (i1 < j1)%nat -> (i2 < j2)%nat.
Proof using shards_pos.
  intros W Hs1 Hs2 Ha1 Hb1 Ha2 Hb2 Hlt. destruct (winv_log _ _ _ _ _ W) as [HC Hd]. pose proof (wi_txns _ _ _ _ _ W) as HG.
  destruct (queue_in_log _ _ _ _ _ _ W Hs1 Ha1) as (m1 & xa1 & Hm1 & Hxa1 & Hca1).
  destruct (queue_in_log _ _ _ _ _ _ W Hs1 Hb1) as (m1' & xb1 & Hm1' & Hxb1 & Hcb1).
  rewrite Hm1 in Hm1'. injection Hm1' as <-.
  destruct (queue_in_log _ _ _ _ _ _ W Hs2 Ha2) as (m2 & xa2 & Hm2 & Hxa2 & Hca2).
  destruct (queue_in_log _ _ _ _ _ _ W Hs2 Hb2) as (m2' & xb2 & Hm2' & Hxb2 & Hcb2).
  rewrite Hm2 in Hm2'. injection Hm2' as <-.
  pose proof (wi_mgrs _ _ _ _ _ W _ _ Hm1) as M1. pose proof (wi_mgrs _ _ _ _ _ W _ _ Hm2) as M2.
  pose proof (mgr_ids_once shards regions _ _ _ _ _ _ _ _ HG HC Hd M1) as Hd1.
  destruct (decide (region_of shards site1 = region_of shards site2)) as [Heq|Hne].
  - rewrite Heq, Hm2 in Hm1. injection Hm1 as <-.
    assert (i1 = i2) as -> by (eapply log_once; eauto; congruence).
    assert (j1 = j2) as -> by (eapply log_once; eauto; congruence). exact Hlt.
  - assert (Hca : is_crt (w_txns w) xa1 = true /\ is_crt (w_txns w) xb1 = true).
    { assert (Hone : forall i j x y, mcontents m1 !! i = Some x -> mcontents m2 !! j = Some y -> cid x = cid y ->
        is_crt (w_txns w) x = true).
      { intros i j x y Hx Hy Hc. destruct (is_crt (w_txns w) x) eqn:Ex; [reflexivity |]. exfalso. apply Hne.
        destruct (irt_home _ _ _ _ _ _ _ _ _ _ M1 Hx Ex) as (t1 & g1 & Hc1 & Hg1 & <-).
        rewrite (is_crt_cid _ _ _ Hc) in Ex.
        destruct (irt_home _ _ _ _ _ _ _ _ _ _ M2 Hy Ex) as (t2 & g2 & Hc2 & Hg2 & <-). congruence. }
      split; [apply (Hone i1 i2 _ xa2) | apply (Hone j1 j2 _ xb2)]; auto; congruence. }
    destruct Hca as [Hka Hkb].
    destruct (crt_order _ _ _ _ _ _ _ _ _ _ _ _ HG HC M1 Hxa1 Hxb1 Hlt Hka Hkb) as (g & h & x & y & Hgh & Hg & Hh & Hcx & Hcy).
    assert (Hka2 : is_crt (w_txns w) xa2 = true) by (rewrite (is_crt_cid _ xa2 xa1); congruence).
    assert (Hkb2 : is_crt (w_txns w) xb2 = true) by (rewrite (is_crt_cid _ xb2 xb1); congruence).
    destruct (Nat.lt_trichotomy i2 j2) as [H|[H|H]]; [exact H | exfalso ..].
    + subst j2. assert (i1 = j1); [|lia]. eapply (log_once (mcontents m1) Hd1); eauto. congruence.
    + destruct (crt_order _ _ _ _ _ _ _ _ _ _ _ _ HG HC M2 Hxb2 Hxa2 H Hkb2 Hka2) as (g' & h' & x' & y' & Hgh' & Hg' & Hh' & Hcx' & Hcy').
      assert (g' = h) by (eapply (log_once (contents (w_raft w)) Hd); eauto; congruence).
      assert (h' = g) by (eapply (log_once (contents (w_raft w)) Hd); eauto; congruence). lia.
Qed.

(** C4. Whatever messages are delivered, in whatever order, two transactions that are in the
    queues of two sites, of the same partition, of the same region or of different regions,
    are in both queues in the same order. *)
Theorem slog_order_agrees db w site1 s1 site2 s2 a b i1 j1 i2 j2 :
  reachable db w ->
  w_sites w !! site1 = Some s1 -> w_sites w !! site2 = Some s2 ->
  txn_queue_ s1 !! i1 = Some (Some a) -> txn_queue_ s1 !! j1 = Some (Some b) ->
  txn_queue_ s2 !! i2 = Some (Some a) -> txn_queue_ s2 !! j2 = Some (Some b) ->
  (i1 < j1)%nat -> (i2 < j2)%nat.
Proof using shards_pos exec_total.
  intros Hr. apply order_agrees with (net := w_net w). eapply runs_inv; eauto.
Qed.

(** C6. In every reachable world every message can be delivered, every valid submission is
    taken and every region manager can send its batches: no check of the global log, of a
    region manager or of a site fails, no position is out of range and no entry of a log or
    a queue is filled twice. *)
Theorem slog_never_aborts db w :
  reachable db w ->
  (forall m, m ∈ w_net w -> is_Some (handle conflict exec shards regions followers m w))
  /\ (forall site tid cmds irt, valid_submit shards regions w site tid cmds irt ->
        is_Some (at_site shards regions site (OnSubmitTxn site (par_of site) shards cmds irt) w))
  /\ (forall rid m, w_mgrs w !! rid = Some m ->
        is_Some (CheckAndSendBacth shards (proxies shards regions) rid m)).
Proof using shards_pos exec_total.
  intros Hr. apply runs_inv in Hr as W; auto. split_and!.
  - intros m (l1 & l2 & Hn)%list_elem_of_split.
    apply (winv_loses _ _ _ _ (m :: l1 ++ l2)) in W; [|apply loses_perm; rewrite Hn; symmetry; apply Permutation_middle].
    destruct (msg_handled conflict exec shards regions followers shards_pos exec_total m _ w W) as (x & Hx & _). eauto.
  - intros site tid cmds irt V.
    destruct (world_submit_ok conflict exec shards regions followers shards_pos w _ site tid cmds irt W V) as (x & Hx & _). eauto.
  - intros rid m Hm. destruct (tick_ok shards regions followers shards_pos _ w rid m W Hm) as (x & Hx & _). eauto.
Qed.

(** The pieces of a transaction ran on a site. *)
Definition ran_on (s : @sched E) (tid : Z) (cs : list SimpleCommand) : Prop :=
  exists t, dtxns_ s !! tid = Some t /\ inn_id_ <$> tpieces t = inn_id_ <$> cs
    /\ Forall (fun c => local_executed_ c = true) (tpieces t).

(** C5. A site answers the client of a transaction at most once, and only if it was submitted
    there; by then every partition that the transaction touches has a site on which all the
    pieces for that partition were executed. *)
Theorem slog_answers_client db w site s tid :
  reachable db w -> w_sites w !! site = Some s ->
  (replies tid (events_ s) <= 1)%nat
  /\ (replies tid (events_ s) = 1%nat -> exists g, w_txns w !! tid = Some g /\ g_coord g = site
      /\ forall par, par ∈ (g_cmds g).*1 -> exists site' s', w_sites w !! site' = Some s' /\ par_of site' = par
           /\ ran_on s' tid (default [] (cmds_at par (g_cmds g)))).
Proof using shards_pos exec_total.
  intros Hr Hs. apply runs_inv in Hr as W; auto.
  assert (Hsite : forall site s, w_sites w !! site = Some s -> exists m,
    site_ok (w_txns w) (mcontents m) (mnext_send_index_ m) site s (omap (batch_at site) (w_net w))).
  { intros st x Hx. destruct (site_of shards regions followers shards_pos _ w st W) as (x' & m & Hx' & _ & S); [apply (wi_range _ _ _ _ _ W); eauto |].
    rewrite Hx in Hx'. injection Hx' as <-. eauto. }
  destruct (Hsite _ _ Hs) as [m S]. pose proof (i_replies _ _ (so_inv _ _ _ _ _ _ S) tid) as Hrep. unfold reply_ok in Hrep.
  destruct (dtxns_ s !! tid) as [t|] eqn:Et; [|rewrite Hrep; split; [lia | discriminate]].
  destruct Hrep as [Hn Hc]. rewrite Hn. destruct (answered t) eqn:Ea; cbn; [|split; [lia | discriminate]]. split; [lia |].
  intros _. unfold answered in Ea. apply andb_prop in Ea as [Ec%bool_decide_eq_true Ea].
  destruct (so_idents _ _ _ _ _ _ S tid (ident t)) as (g & Hg & Hk & _); [now rewrite idents_lookup, Et |].
  unfold ident, known_as in Hk. rewrite Ec in Hk. injection Hk as K1 K2 K3 K4.
  assert (Hco : g_coord g = site).
  { unfold role in K2. destruct (decide (g_coord g = site)); [assumption |]. destruct (_ =? _); discriminate. }
  rewrite decide_True in K4 by exact Hco. exists g. split_and!; auto. intros par Hp.
  assert (Hmk : par_output_received_ t !! par = Some true).
  { assert (Hin : par ∈ dom (par_output_received_ t)) by (rewrite K4; now apply elem_of_list_to_set).
    apply elem_of_dom in Hin as [v Hv]. unfold all_received in Ea. rewrite forallb_forall in Ea.
    specialize (Ea (par, v)). cbn in Ea. rewrite Hv. f_equal. apply Ea. now apply list_elem_of_In, elem_of_map_to_list. }
  assert (Hd : partition_done (w_sites w) par tid).
  { destruct (decide (par = par_of site)) as [->|Hne].
    - destruct (Hc Ec) as [Hx _]. rewrite Hmk in Hx. injection Hx as Hx. exists site, s. split_and!; auto. exists t. auto.
    - apply (wi_marks _ _ _ _ _ W site s tid par Hs Hne). exists t. auto. }
  destruct Hd as (site' & s' & Hs' & Hpar & t' & Ht' & Hx'). exists site', s'. split_and!; auto.
  destruct (Hsite _ _ Hs') as [m' S']. exists t'. split_and!; auto.
  - destruct (so_idents _ _ _ _ _ _ S' tid (ident t')) as (g' & Hg' & Hk' & _); [now rewrite idents_lookup, Ht' |].
    rewrite Hg in Hg'. injection Hg' as <-. unfold ident, known_as in Hk'. injection Hk' as _ _ K3' _. now rewrite <- Hpar.
  - apply (w_executed _ (q_txns _ _ (o_queue _ (i_ok _ _ (so_inv _ _ _ _ _ _ S'))) _ _ Ht') Hx').
Qed.
End Claims.

(** ** Execution of a deployment *)
Definition deliver_first (w : @world E) : option (@world E) :=
  match w_net w with
  | m :: l => '(w', out) ← handle conflict exec shards regions followers m w; Some (w' {{ w_net := l ++ out }})
  | [] => Some w
  end.
Fixpoint deliver_all (n : nat) (w : @world E) : option (@world E) :=
  match n with O => Some w | S n => w ← deliver_first w; deliver_all n w end.
Definition send_batch (rid : Z) (w : @world E) : option (@world E) :=
  m ← w_mgrs w !! rid;
  '(m', out) ← CheckAndSendBacth shards (proxies shards regions) rid m;
  Some (w {{ w_mgrs := <[rid := m']> (w_mgrs w);
             w_net := w_net w ++ ((fun o => MBatch o.1 o.2) <$> (out : list (Z * batch))) }}).

Lemma deliver_all_reachable n : forall w w',
  deliver_all n w = Some w' -> rtc (step conflict exec shards regions followers) w w'.
Proof.
  induction n as [|n IH]; intros w w'; cbn [deliver_all]; [intros [= <-]; constructor |].
  intros (w1 & H1 & H2)%bind_Some. etransitivity; [|exact (IH _ _ H2)]. unfold deliver_first in H1.
  destruct (w_net w) as [|m l] eqn:En; [injection H1 as <-; constructor |].
  apply bind_Some in H1 as ([w2 out] & H1 & [= <-]). apply rtc_once. exact (deliver conflict exec shards regions followers w [] m l w2 out En H1).
Qed.

Lemma send_batch_reachable rid w w' :
  send_batch rid w = Some w' -> rtc (step conflict exec shards regions followers) w w'.
Proof.
  intros (m & Hm & H)%bind_Some. apply bind_Some in H as ([m' out] & H & [= <-]). apply rtc_once.
  exact (tick conflict exec shards regions followers w rid m m' out Hm H).
Qed.
End Runs.

(** ** A deployment of two regions with one partition each

    Two transactions of both regions, submitted in the first and in the second region. *)
Definition piece (tid type : Z) : SimpleCommand :=
  {| inn_id_ := type; type_ := type; root_id_ := tid; root_type_ := 1; partition_id_ := 0; touchColsCnt_ := 0;
     input := {| keys_ := ∅; values_ := ∅; input_var_ready_ := ∅; piece_input_ready_ := 1 |};
     local_executed_ := false; waiting_var_par_map := ∅ |}.
Definition both (tid : Z) : cmd_map := [(0, [piece tid 204]); (1, [piece tid 403])].
Definition count_pieces (_ _ : Z) (_ : SimpleCommand) (n : Z) : option (Z * output_map) := Some (n + 1, []).

Definition submit_both (site tid : Z) (w : @world Z) : option (@world Z) :=
  '(w', out) ← at_site 1 2 site (OnSubmitTxn site (par_of site) 1 (both tid) false) w;
  Some (w' {{ w_txns := <[tid := {| g_coord := site; g_cmds := both tid; g_irt := false |}]> (w_txns w);
              w_net := w_net w ++ out }}).
Definition start : @world Z := init 1 2 [7] (fun _ => 0).
Definition deliver_n : nat -> @world Z -> option (@world Z) := deliver_all inserted_conflicts count_pieces 1 2 [7].
Definition two_regions : option (@world Z) :=
  w ← submit_both 0 1 start;
  w ← submit_both 3 2 w;
  w ← deliver_n 30 w;
  w ← send_batch 1 2 0 w;
  w ← send_batch 1 2 1 w;
  deliver_n 30 w.

Lemma both_valid tid : valid_cmds 1 2 tid (both tid).
Proof.
  split.
  - reflexivity.
  - cbn. rewrite !NoDup_cons, not_elem_of_cons. split_and!; [lia | apply not_elem_of_nil | apply not_elem_of_nil | constructor].
  - intros par cs. unfold both. rewrite !elem_of_cons. intros [[= -> ->]|[[= -> ->]|[]%not_elem_of_nil]];
      (split_and!; [discriminate | repeat constructor; intros k []%not_elem_of_empty | repeat constructor | lia | lia]).
Qed.

Lemma submit_both_step site tid w w' :
  0 <= site < 6 -> w_txns w !! tid = None -> submit_both site tid w = Some w' ->
  step inserted_conflicts count_pieces 1 2 [7] w w'.
Proof.
  intros Hs Hn. unfold submit_both. intros ([w1 out] & H & [= <-])%bind_Some.
  apply (submit inserted_conflicts count_pieces 1 2 [7] w site tid (both tid) false w1 out); [|exact H].
  split; [exact Hn | apply both_valid | exact Hs | | discriminate]. unfold par_of, N_REP_PER_SHARD.
  assert (site / 3 = 0 \/ site / 3 = 1) as [-> | ->] by (pose proof (Z.div_pos site 3); pose proof (Z.div_lt_upper_bound site 3 2); lia);
    cbn; eauto.
Qed.

Lemma two_regions_reachable w :
  two_regions = Some w -> rtc (step inserted_conflicts count_pieces 1 2 [7]) start w.
Proof.
  unfold two_regions. intros (w1 & H1 & H)%bind_Some. apply bind_Some in H as (w2 & H2 & H).
  apply bind_Some in H as (w3 & H3 & H). apply bind_Some in H as (w4 & H4 & H). apply bind_Some in H as (w5 & H5 & H6).
  eapply rtc_l; [apply (submit_both_step 0 1 start w1 ltac:(lia) eq_refl H1) |].
  assert (Hn : w_txns w1 !! 2 = None).
  { unfold submit_both in H1. apply bind_Some in H1 as ([wx out] & _ & [= <-]). reflexivity. }
  eapply rtc_l; [apply (submit_both_step 3 2 _ _ ltac:(lia) Hn H2) |].
  etransitivity; [eapply deliver_all_reachable, H3 |]. etransitivity; [eapply send_batch_reachable, H4 |].
  etransitivity; [eapply send_batch_reachable, H5 |]. eapply deliver_all_reachable, H6.
Qed.

Definition queue_of (site : Z) (w : @world Z) : option (list (option Z)) := txn_queue_ <$> w_sites w !! site.
Definition answers (site tid : Z) (w : @world Z) : option nat := (fun s => replies tid (events_ s)) <$> w_sites w !! site.

Example two_regions_run :
  (w ← two_regions; Some (queue_of 0 w, queue_of 3 w, queue_of 5 w, answers 0 1 w, answers 3 2 w, w_net w))
  = Some (Some [Some 1; Some 2], Some [Some 1; Some 2], Some [Some 1; Some 2], Some 1%nat, Some 1%nat, []).
Proof. vm_compute. reflexivity. Qed.

(** What the run says about its last world. *)
Lemma two_regions_facts : exists w s0 s3,
  two_regions = Some w /\ w_sites w !! 0 = Some s0 /\ w_sites w !! 3 = Some s3
  /\ txn_queue_ s0 = [Some 1; Some 2] /\ txn_queue_ s3 = [Some 1; Some 2] /\ replies 1 (events_ s0) = 1%nat.
Proof.
  pose proof two_regions_run as H. destruct two_regions as [w|]; [|discriminate]. cbn [mbind option_bind] in H.
  injection H as H0 H3 _ Ha _ _. unfold queue_of, answers in *. exists w.
  destruct (w_sites w !! 0) as [s0|]; [|discriminate]. destruct (w_sites w !! 3) as [s3|]; [|discriminate].
  injection H0 as H0. injection H3 as H3. injection Ha as Ha. exists s0, s3. auto 10.
Qed.

Lemma count_total (site tid : Z) (c : SimpleCommand) (e : Z) : is_Some (count_pieces site tid c e).
Proof. eexists. reflexivity. Qed.

Lemma slog_order_agrees_witness : exists w s0 s3, two_regions = Some w
  /\ txn_queue_ s0 !! 0%nat = Some (Some 1) /\ txn_queue_ s3 !! 0%nat = Some (Some 1)
  /\ w_sites w !! 0 = Some s0 /\ w_sites w !! 3 = Some s3 /\ (0 < 1)%nat.
Proof.
  destruct two_regions_facts as (w & s0 & s3 & Hw & H0 & H3 & Hq0 & Hq3 & _). exists w, s0, s3.
  split_and!; [exact Hw | now rewrite Hq0 | now rewrite Hq3 | exact H0 | exact H3 |].
  apply (slog_order_agrees inserted_conflicts count_pieces 1 2 [7] ltac:(lia) count_total (fun _ => 0) w
    0 s0 3 s3 1 2 0%nat 1%nat 0%nat 1%nat (two_regions_reachable w Hw) H0 H3);
    rewrite ?Hq0, ?Hq3; try reflexivity. lia.
Defined.

Lemma slog_never_aborts_witness : exists w, two_regions = Some w
  /\ forall rid m, w_mgrs w !! rid = Some m -> is_Some (CheckAndSendBacth 1 (proxies 1 2) rid m).
Proof.
  destruct two_regions_facts as (w & _ & _ & Hw & _). exists w. split; [exact Hw |].
  exact (proj2 (proj2 (slog_never_aborts inserted_conflicts count_pieces 1 2 [7] ltac:(lia) count_total (fun _ => 0) w
    (two_regions_reachable w Hw)))).
Defined.

Lemma slog_answers_client_witness : exists w s0 g, two_regions = Some w /\ w_sites w !! 0 = Some s0
  /\ replies 1 (events_ s0) = 1%nat /\ w_txns w !! 1 = Some g /\ g_coord g = 0.
Proof.
  destruct two_regions_facts as (w & s0 & s3 & Hw & H0 & _ & _ & _ & Ha).
  destruct (slog_answers_client inserted_conflicts count_pieces 1 2 [7] ltac:(lia) count_total (fun _ => 0) w 0 s0 1
    (two_regions_reachable w Hw) H0) as [_ H]. destruct (H Ha) as (g & Hg & Hc & _). exists w, s0, g. auto.
Defined.

(** ** A queue of two transactions that conflict *)
Definition batch_of (tid : Z) : batch_txn :=
  {| bt_id := tid; bt_cmds := [piece tid 204]; bt_coord := 3; bt_touched := [] |}.
Definition queued : option (@sched Z) :=
  insert_batch 0 0 [batch_of 1; batch_of 2] ((sched_init 0 0) {{ txn_queue_ := [None; None] }}).

Lemma queued_ok : exists s, queued = Some s /\ sched_ok s /\ txn_queue_ s = [Some 1; Some 2].
Proof.
  assert (H : runs queued (fun s => site_inv 0 s /\ txn_queue_ s = [Some 1; Some 2])).
  { eapply runs_mono; [apply (insert_batch_inv 0 0 [batch_of 1; batch_of 2] 0
      ((sched_init 0 0) {{ txn_queue_ := [None; None] }})) | intros s (H1 & _ & _ & H2); split; [exact H1 | exact H2]].
    - pose proof (site_init_inv 0 (0 : Z)) as [[[] ? ?] ?]. split; [split; [split |..] |]; auto; cbn.
      + intros k tid Hk. destruct k as [|[|k]]; discriminate.
      + intros k k' tid Hk. destruct k as [|[|k]]; discriminate.
      + intros k Hk. lia.
      + lia.
    - cbn. rewrite !NoDup_cons, not_elem_of_cons. split_and!; [lia | apply not_elem_of_nil | apply not_elem_of_nil | constructor].
    - repeat constructor; cbn; intros k []%not_elem_of_empty.
    - intros [|[|k]] Hk; [reflexivity | reflexivity | cbn in Hk; lia].
    - intros b [|[|k]] _; discriminate. }
  destruct H as (s & Hs & [Hok _] & Hq). eauto.
Qed.

Lemma queue_runs_in_order_witness : exists s, queued = Some s
  /\ runs (ExecTxnQueue inserted_conflicts (count_pieces 0) 0 s) (fun s' =>
       rtc (queue_step inserted_conflicts (count_pieces 0) 0 (txn_queue_ s)) (view s) (view s')
       /\ txn_queue_ s' = txn_queue_ s /\ rested inserted_conflicts s').
Proof.
  destruct queued_ok as (s & Hs & Hok & _). exists s. split; [exact Hs |].
  exact (queue_runs_in_order inserted_conflicts (count_pieces 0) 0 (count_total 0) s Hok).
Defined.

(** ** Conflicts that are not found

    The first transaction of the queue has a piece 204 that waits for a variable, the second
    one a piece 204 that is ready.  The pieces conflict; in the CH benchmark the set of
    conflicts that is looked up is empty, and the second piece overtakes the first. *)
Definition waiting_piece (tid type : Z) : SimpleCommand :=
  {| inn_id_ := type; type_ := type; root_id_ := tid; root_type_ := 1; partition_id_ := 0; touchColsCnt_ := 0;
     input := {| keys_ := {[ 5 ]}; values_ := ∅; input_var_ready_ := {[ 5 := 0 ]}; piece_input_ready_ := 0 |};
     local_executed_ := false; waiting_var_par_map := ∅ |}.
Definition executed_after (b : benchmark) : option (list (option bool)) :=
  s ← insert_batch 0 0 [(batch_of 1) {{ bt_cmds := [waiting_piece 1 204] }}; batch_of 2]
        ((sched_init 0 0) {{ txn_queue_ := [None; None] }});
  s ← ExecTxnQueue (check_piece_conflict b) (count_pieces 0) 0 s;
  Some ((fun tid => executed_ <$> dtxns_ s !! tid) <$> [1; 2]).

Example ch_pieces_overtake :
  ChbenchmarkPiece_conflicts CH_BENCHMARK 204 204 = true
  /\ executed_after CH_BENCHMARK = Some [Some false; Some true]
  /\ executed_after TPCC = Some [Some false; Some false].
Proof. split_and!; vm_compute; reflexivity. Qed.

(** ** Partitions of another transaction

    The message of position 1 overtakes that of position 0; both are inserted into the log
    with the partitions of the message of position 0. *)
Definition ordered (i : nat) (touched : list Z) : ordered_crt :=
  {| oc_cmds := [(0, [piece (Z.of_nat i) 204])]; oc_index := i; oc_coord := 0; oc_touched := touched; oc_barriers := [] |}.

Example touched_of_other :
  ('(m, _) ← SlogSendOrderedCRT (ordered 1 [0; 1]) manager_init;
   '(m, _) ← SlogSendOrderedCRT (ordered 0 [0; 2]) m;
   Some (touched_pars_all_ <$> mlog (m : manager))) = Some [[0; 2]; [0; 2]].
Proof. vm_compute. reflexivity. Qed.

(** ** Barriers of the first partition

    A region of two partitions: the batch of the second one carries no barrier. *)
Example barriers_to_first :
  (let m := manager_init {{ mlog := [{| le_cmds := both 1; le_coord := 0; le_committed := true; touched_pars_all_ := [0; 1] |}];
                            next_commit_index_ := 1%nat; barrier_local_indices_ := [0%nat] }} in
   '(_, out) ← CheckAndSendBacth 2 (fun par => [par]) 0 m;
   Some ((fun o => (o.1, b_barriers o.2)) <$> (out : list (Z * batch)))) = Some [(0, [0%nat]); (1, [])].
Proof. vm_compute. reflexivity. Qed.

(** ** Deferred writes

    The change is reported to the analytical side, the column keeps its value. *)
Example deferred_write_lost :
  (e ← SlogSched.WriteColumn (fun _ => [0]) (fun _ => 3) true 9 1 2 (VI32 7) Rcc.TXN_DEFERRED
         {| Rcc.cells := {[ (1, 0) := VI32 1; (1, 2) := VI32 5 ]}; Rcc.last_ := ∅; Rcc.rows := []; Rcc.transferred := [];
            Rcc.tparents := [] |};
   Some (Rcc.cells e !! (1, 2), Rcc.u_value <$> Rcc.transferred e)) = Some (Some (VI32 5), [VI32 7]).
Proof. vm_compute. reflexivity. Qed.
End SlogRuns.
