(* ===== verification/ChrTs.v ===== *)
(** * Timestamps of DAST

    [chr_ts_t] (deptran/chronos/types.h), the clock of a site
    ([SchedulerChronos::GenerateChrTs], deptran/chronos/scheduler.cc) and the timestamps a
    region manager anticipates ([DastManager::CalculateAnticipatedTs],
    deptran/chronos/manager.cc).

    The fields of a timestamp are unbounded integers: they count microseconds and sites and
    stay far below the bounds of their types.  The physical clock is an argument.  A
    [std::set] or [std::map] of timestamps is the sorted list of its entries. *)

From Stdlib Require Import ZArith Lia Sorting.Sorted.
From stdpp Require Import base list option sets.
From coqutil Require Import Datatypes.RecordSetters.
From S2P Require Import Prelude.
Import DoubleBraceUpdate.
Local Open Scope Z_scope.

Module ChrTs.

(** ** Timestamps *)
Record chr_ts := { timestamp_ : Z; stretch_counter_ : Z; site_id_ : Z }.
#[export] Instance chr_ts_eq : EqDecision chr_ts.
Proof. solve_decision. Defined.

Definition zero_ts : chr_ts := {| timestamp_ := 0; stretch_counter_ := 0; site_id_ := 0 |}.

Definition ltb (a b : chr_ts) : bool :=
  if timestamp_ a <? timestamp_ b then true
  else if timestamp_ b <? timestamp_ a then false
  else if stretch_counter_ a <? stretch_counter_ b then true
  else if stretch_counter_ b <? stretch_counter_ a then false
  else site_id_ a <? site_id_ b.

Definition eqb (a b : chr_ts) : bool :=
  (timestamp_ a =? timestamp_ b) && (stretch_counter_ a =? stretch_counter_ b) && (site_id_ a =? site_id_ b).
Definition leb (a b : chr_ts) : bool := ltb a b || eqb a b.
Definition gtb (a b : chr_ts) : bool := negb (ltb a b) && negb (eqb a b).

Definition lt (a b : chr_ts) : Prop :=
  timestamp_ a < timestamp_ b
  \/ timestamp_ a = timestamp_ b /\ (stretch_counter_ a < stretch_counter_ b
     \/ stretch_counter_ a = stretch_counter_ b /\ site_id_ a < site_id_ b).

Lemma ltb_spec a b : BoolSpec (lt a b) (~ lt a b) (ltb a b).
Proof.
  unfold ltb, lt. destruct (Z.ltb_spec (timestamp_ a) (timestamp_ b)); [constructor; auto |].
  destruct (Z.ltb_spec (timestamp_ b) (timestamp_ a)); [constructor; lia |].
  destruct (Z.ltb_spec (stretch_counter_ a) (stretch_counter_ b)); [constructor; lia |].
  destruct (Z.ltb_spec (stretch_counter_ b) (stretch_counter_ a)); [constructor; lia |].
  destruct (Z.ltb_spec (site_id_ a) (site_id_ b)); constructor; lia.
Qed.

Lemma eqb_spec a b : BoolSpec (a = b) (a <> b) (eqb a b).
Proof.
  unfold eqb. destruct a as [t c s], b as [t' c' s']. cbn.
  destruct (Z.eqb_spec t t'), (Z.eqb_spec c c'), (Z.eqb_spec s s'); constructor; congruence.
Qed.

Lemma lt_trans a b c : lt a b -> lt b c -> lt a c.
Proof. unfold lt. lia. Qed.
Lemma lt_irrefl a : ~ lt a a.
Proof. unfold lt. lia. Qed.
Lemma lt_total a b : lt a b \/ a = b \/ lt b a.
Proof.
  destruct a as [t c s], b as [t' c' s']. unfold lt. cbn.
  destruct (Z.lt_trichotomy t t') as [?|[->|?]]; [lia | | lia].
  destruct (Z.lt_trichotomy c c') as [?|[->|?]]; [lia | | lia].
  destruct (Z.lt_trichotomy s s') as [?|[->|?]]; auto; lia.
Qed.

Lemma gtb_spec a b : BoolSpec (lt b a) (~ lt b a) (gtb a b).
Proof.
  unfold gtb. destruct (ltb_spec a b) as [H|H]; cbn.
  - constructor. intros H'. apply (lt_irrefl a). now apply (lt_trans a b a).
  - destruct (eqb_spec a b) as [->|He]; constructor; [apply lt_irrefl |].
    destruct (lt_total a b) as [?|[?|?]]; [contradiction | contradiction | assumption].
Qed.

(** ** Sorted containers *)
Section Sorted.
Context {A : Type}.

Fixpoint ts_find (ts : chr_ts) (m : list (chr_ts * A)) : option A :=
  match m with
  | [] => None
  | (k, x) :: m => if eqb k ts then Some x else ts_find ts m
  end.

(** [m[ts] = x]. *)
Fixpoint ts_put (ts : chr_ts) (x : A) (m : list (chr_ts * A)) : list (chr_ts * A) :=
  match m with
  | [] => [(ts, x)]
  | (k, y) :: m' =>
      if ltb ts k then (ts, x) :: m
      else if eqb k ts then (ts, x) :: m'
      else (k, y) :: ts_put ts x m'
  end.

Definition ts_erase (ts : chr_ts) (m : list (chr_ts * A)) : list (chr_ts * A) :=
  List.filter (fun kv => negb (eqb kv.1 ts)) m.

Definition sorted (m : list (chr_ts * A)) : Prop := StronglySorted (fun x y => lt x.1 y.1) m.

Lemma ts_find_put ts x m ts' :
  sorted m -> ts_find ts' (ts_put ts x m) = if eqb ts ts' then Some x else ts_find ts' m.
Proof.
  induction m as [|[k y] m IH]; intros Hs; cbn [ts_put ts_find]; [reflexivity |].
  apply StronglySorted_inv in Hs as [Hs Hk]. destruct (ltb_spec ts k) as [Hl|Hl].
  - cbn. destruct (eqb_spec ts ts') as [->|Hne]; reflexivity.
  - destruct (eqb_spec k ts) as [->|Hne]; cbn.
    + now destruct (eqb_spec ts ts').
    + rewrite IH by exact Hs. destruct (eqb_spec ts ts') as [->|Hne']; [|reflexivity].
      now destruct (eqb_spec k ts').
Qed.

Lemma ts_put_keys ts x m kv : kv ∈ ts_put ts x m -> kv = (ts, x) \/ kv ∈ m.
Proof.
  induction m as [|[k y] m IH]; cbn [ts_put]; [rewrite list_elem_of_singleton; auto |].
  destruct (ltb ts k); [rewrite elem_of_cons; tauto |].
  destruct (eqb k ts); rewrite !elem_of_cons; [tauto |]. intros [->|H]; [auto |]. destruct (IH H); auto.
Qed.

Lemma ts_put_sorted ts x m : sorted m -> sorted (ts_put ts x m).
Proof.
  induction m as [|[k y] m IH]; intros Hs; cbn [ts_put]; [repeat constructor |].
  apply StronglySorted_inv in Hs as [Hs Hk]. destruct (ltb_spec ts k) as [Hl|Hl].
  - constructor; [constructor; auto |]. constructor; [exact Hl |]. eapply Forall_impl; [exact Hk |].
    intros z Hz. now apply (lt_trans ts k).
  - destruct (eqb_spec k ts) as [->|Hne]; [now constructor |]. constructor; [now apply IH |].
    apply Forall_forall. intros z [->|Hz]%ts_put_keys.
    + destruct (lt_total ts k) as [?|[?|?]]; [contradiction | congruence | assumption].
    + rewrite Forall_forall in Hk. now apply Hk.
Qed.

Lemma ts_erase_sorted ts m : sorted m -> sorted (ts_erase ts m).
Proof.
  intros Hs. unfold ts_erase. induction Hs as [|kv m Hs IH Hk]; cbn; [constructor |].
  destruct (negb _); [|exact IH]. constructor; [exact IH |]. apply Forall_forall. intros z Hz.
  apply list_elem_of_In, filter_In in Hz as [Hz _]. rewrite Forall_forall in Hk. now apply Hk, list_elem_of_In.
Qed.

Lemma ts_find_erase ts m ts' : ts_find ts' (ts_erase ts m) = if eqb ts ts' then None else ts_find ts' m.
Proof.
  unfold ts_erase. induction m as [|[k y] m IH]; cbn; [now destruct (eqb ts ts') |].
  destruct (eqb_spec k ts) as [->|Hne]; cbn.
  - rewrite IH. now destruct (eqb_spec ts ts').
  - rewrite IH. destruct (eqb_spec k ts') as [->|]; [|reflexivity]. destruct (eqb_spec ts ts'); [congruence | reflexivity].
Qed.

Lemma ts_erase_keys ts m kv : kv ∈ ts_erase ts m -> kv ∈ m.
Proof. unfold ts_erase. rewrite !list_elem_of_In, filter_In. tauto. Qed.

Lemma ts_find_elem ts x m : ts_find ts m = Some x -> (ts, x) ∈ m.
Proof.
  induction m as [|[k y] m IH]; cbn; [discriminate |]. destruct (eqb_spec k ts) as [->|Hne].
  - intros [= ->]. now left.
  - right. now apply IH.
Qed.
End Sorted.

(** A set of timestamps. *)
Definition tsset := list (chr_ts * unit).
Definition ts_mem (ts : chr_ts) (m : tsset) : bool := bool_decide (is_Some (ts_find ts m)).
Definition ts_add (ts : chr_ts) (m : tsset) : tsset := ts_put ts tt m.

(** ** The clock of a site

    [reads_] counts the readings of the physical clock, the sequence [clock_at]. *)
Record clock := {
  last_clock_ : chr_ts;
  clock_offset_ : Z;
  dist_txn_tss_ : tsset;
  reads_ : nat }.

Section Clock.
Context (clock_at : nat -> Z) (site : Z).

(** Below the lowest timestamp that is pending. *)
Definition stretch (tss : tsset) (ret : chr_ts) : chr_ts :=
  match tss with
  | (low_dist_ts, _) :: _ =>
      if negb (ltb ret low_dist_ts) then ret {{ timestamp_ := timestamp_ low_dist_ts - 1 }} else ret
  | [] => ret
  end.

Definition GenerateChrTs (for_local : bool) (c : clock) : clock * chr_ts :=
  let ts := clock_at (reads_ c) + clock_offset_ c in
  let c := c {{ reads_ := S (reads_ c) }} in
  let ret := {| timestamp_ := ts; stretch_counter_ := ts; site_id_ := site |} in
  if negb for_local then
    (c, if ltb ret (last_clock_ c) then ret {{ timestamp_ := timestamp_ (last_clock_ c) + 1 }} else ret)
  else
    let ret := stretch (dist_txn_tss_ c) ret in
    let ret := if negb (gtb ret (last_clock_ c))
               then (last_clock_ c) {{ stretch_counter_ := stretch_counter_ (last_clock_ c) + 1 }}
               else ret in
    (c {{ last_clock_ := ret }}, ret).

(** The clock is before every transaction that is not decided. *)
Record clock_ok (c : clock) : Prop := {
  k_sorted : sorted (dist_txn_tss_ c);
  k_counter : forall p, p ∈ dist_txn_tss_ c -> stretch_counter_ p.1 = 0;
  k_gap : forall p, p ∈ dist_txn_tss_ c -> timestamp_ (last_clock_ c) < timestamp_ p.1;
  k_offset : 0 <= clock_offset_ c }.

Lemma clock_ok_erase c ts :
  clock_ok c -> clock_ok (c {{ dist_txn_tss_ := ts_erase ts (dist_txn_tss_ c) }}).
Proof.
  intros [K1 K2 K3 K4]. split; [now apply ts_erase_sorted | | | exact K4].
  - intros p H%ts_erase_keys. now apply K2.
  - intros p H%ts_erase_keys. now apply K3.
Qed.

Lemma clock_ok_add c ts :
  clock_ok c -> stretch_counter_ ts = 0 -> timestamp_ (last_clock_ c) < timestamp_ ts ->
  clock_ok (c {{ dist_txn_tss_ := ts_add ts (dist_txn_tss_ c) }}).
Proof.
  intros [K1 K2 K3 K4] H0 Hl. split; [now apply ts_put_sorted | | | exact K4].
  - intros p [->|H]%ts_put_keys; [exact H0 | now apply K2].
  - intros p [->|H]%ts_put_keys; [exact Hl | now apply K3].
Qed.

(** The reading of the physical clock. *)
Definition reading (c : clock) : chr_ts :=
  let ts := clock_at (reads_ c) + clock_offset_ c in
  {| timestamp_ := ts; stretch_counter_ := ts; site_id_ := site |}.

Lemma generate_cases c :
  let ts := stretch (dist_txn_tss_ c) (reading c) in
  (GenerateChrTs true c).2 =
    (if gtb ts (last_clock_ c) then ts
     else {| timestamp_ := timestamp_ (last_clock_ c); stretch_counter_ := stretch_counter_ (last_clock_ c) + 1;
             site_id_ := site_id_ (last_clock_ c) |}).
Proof.
  destruct c as [[lt lc ls] off tss n]. unfold GenerateChrTs, reading. cbn -[gtb stretch].
  now destruct (gtb _ _).
Qed.

Lemma last_increases c : lt (last_clock_ c) (GenerateChrTs true c).2.
Proof.
  rewrite generate_cases. destruct (gtb_spec (stretch (dist_txn_tss_ c) (reading c)) (last_clock_ c)) as [H|H];
    [exact H |]. unfold lt. cbn. lia.
Qed.

Section Window.
Hypothesis clock_positive : forall n, 0 < clock_at n.

(** What the clock needs of the pending transactions: they are sorted, and their
    timestamps are not stretched. *)
Record pending_ok (c : clock) : Prop := {
  pd_sorted : sorted (dist_txn_tss_ c);
  pd_counter : forall p, p ∈ dist_txn_tss_ c -> stretch_counter_ p.1 = 0;
  pd_offset : 0 <= clock_offset_ c }.

(** The clock does not pass a pending transaction that is still ahead of it. *)
Lemma generate_ahead c p :
  pending_ok c -> p ∈ dist_txn_tss_ c -> timestamp_ (last_clock_ c) < timestamp_ p.1 ->
  timestamp_ (GenerateChrTs true c).2 < timestamp_ p.1.
Proof using clock_positive.
  intros [Hs Hc Ho] Hp Hg. pose proof (clock_positive (reads_ c)) as Hnow. rewrite generate_cases. cbv zeta.
  destruct (gtb _ (last_clock_ c)); cbn -[stretch]; [|exact Hg].
  destruct (dist_txn_tss_ c) as [|[low u] m]; [now apply not_elem_of_nil in Hp |].
  assert (Hlow : timestamp_ low <= timestamp_ p.1).
  { apply StronglySorted_inv in Hs as [_ Hs]. apply elem_of_cons in Hp as [->|Hp]; [cbn; lia |].
    rewrite Forall_forall in Hs. specialize (Hs p Hp). unfold lt in Hs. cbn in Hs. lia. }
  specialize (Hc (low, u) ltac:(now left)). cbn in Hc. unfold stretch.
  destruct (ltb_spec (reading c) low) as [Hl|Hl]; unfold lt, reading, constant in *; cbn in *; unfold constant; lia.
Qed.

Lemma generate_below c p :
  clock_ok c -> p ∈ dist_txn_tss_ c -> timestamp_ (GenerateChrTs true c).2 < timestamp_ p.1.
Proof using clock_positive.
  intros [Hs Hc Hg Ho] Hp. apply generate_ahead; [now split | exact Hp | now apply Hg].
Qed.

Lemma generate_ok c : clock_ok c -> clock_ok (GenerateChrTs true c).1.
Proof using clock_positive.
  intros H. pose proof (fun p => generate_below c p H) as Hb. destruct H. split; auto.
Qed.

Lemma generate_remote_ok c : clock_ok c -> clock_ok (GenerateChrTs false c).1.
Proof. intros []. split; auto. Qed.
End Window.
End Clock.

(** ** Anticipated timestamps *)
Definition estimated_rtt : Z := 90 * 1000.

(** The greatest timestamp the manager gave is the last argument. *)
Definition CalculateAnticipatedTs (mgr_siteid : Z) (src_ts recv_ts max_future_ts : chr_ts) : chr_ts :=
  let ret := {| timestamp_ := Z.max (timestamp_ src_ts) (timestamp_ recv_ts) + estimated_rtt;
                stretch_counter_ := 0; site_id_ := mgr_siteid |} in
  if negb (gtb ret max_future_ts) then max_future_ts {{ timestamp_ := timestamp_ max_future_ts + 1 }} else ret.

Lemma anticipated_above mgr src recv mx :
  let ts := CalculateAnticipatedTs mgr src recv mx in
  lt mx ts /\ Z.max (timestamp_ src) (timestamp_ recv) + estimated_rtt <= timestamp_ ts
  /\ (stretch_counter_ mx = 0 -> stretch_counter_ ts = 0).
Proof.
  destruct mx as [mt mc ms]. unfold CalculateAnticipatedTs. cbn -[gtb estimated_rtt]. destruct (gtb_spec {| timestamp_ :=
    Z.max (timestamp_ src) (timestamp_ recv) + estimated_rtt; stretch_counter_ := 0; site_id_ := mgr |} {| timestamp_ := mt; stretch_counter_ := mc; site_id_ := ms |}) as [H|H];
    cbn -[estimated_rtt]; [split_and!; auto; lia |].
  unfold lt, constant in *. cbn -[estimated_rtt] in *. unfold constant. lia.
Qed.
End ChrTs.
