(* ===== verification/ChrSched.v ===== *)
(** * The scheduler of a DAST site

    [SchedulerChronos] (deptran/chronos/scheduler.h and .cc) and [TxChronos]
    (deptran/chronos/tx.h and .cc): transactions of one region (IRT) and of several (CRT),
    executed in the order of their timestamps.

    The lock [mtx_] guards every handler, so that a handler is a function of the state of the
    site, and a message, a reply or the answer to the client is an event.  [None] is a failed
    [verify], an exception or the use of a field that nothing has set.  A function that a
    handler assigns to a transaction ([execute_callback_], [send_output_to_handler_],
    [send_output_client]) is named by the handler.  The loop over the pieces and the test for
    conflicts have the text of the Slog transactions, so their definitions are shared
    (PieceExec.v, SlogSched.v).

    Left out: the handlers [OnProposeRemote] and [OnProposeLocal] and their acknowledgements,
    with [remote_prepared_callback_], which no live code calls, and the times of
    [LAT_BREAKDOWN]. *)

From Stdlib Require Import ZArith Lia.
From stdpp Require Import base list option gmap sets sorting.
From coqutil Require Import Datatypes.RecordSetters.
From S2P Require Import Prelude ALock MemSchema PieceExec RccTxn SlogOrder SlogSched ChrTs.
Import DoubleBraceUpdate.
Local Open Scope Z_scope.

Module ChrSched.
Import ChrTs.

Abbreviation cmd_map := (list (Z * list SimpleCommand)).

(** ** Transactions *)
Inductive DistPartStatus :=
  | P_NOT_RECEIVED | P_REMOTE_SENT | P_REMOTE_PREPARED | P_LOCAL_NOT_SENT | P_LOCAL_SENT
  | P_LOCAL_PREPARED | P_OUTPUT_RECEIVED | P_ABORTED.
#[export] Instance status_eq : EqDecision DistPartStatus.
Proof. solve_decision. Defined.

Definition status_num (p : DistPartStatus) : Z :=
  match p with
  | P_NOT_RECEIVED => 0 | P_REMOTE_SENT => 1 | P_REMOTE_PREPARED => 2 | P_LOCAL_NOT_SENT => 3
  | P_LOCAL_SENT => 4 | P_LOCAL_PREPARED => 5 | P_OUTPUT_RECEIVED => 6 | P_ABORTED => -1
  end.

Inductive TxnPhase :=
  | PHASE_EMPTY | DIST_REMOTE_SENT | DIST_REMOTE_PREPARED | LOCAL_NOT_STORED | LOCAL_CAN_EXE
  | DIST_CAN_EXE | OUTPUT_SENT.
#[export] Instance phase_eq : EqDecision TxnPhase.
Proof. solve_decision. Defined.

Definition phase_num (p : TxnPhase) : Z :=
  match p with
  | PHASE_EMPTY => 0 | DIST_REMOTE_SENT => 1 | DIST_REMOTE_PREPARED => 2 | LOCAL_NOT_STORED => 3
  | LOCAL_CAN_EXE => 4 | DIST_CAN_EXE => 5 | OUTPUT_SENT => 6
  end.
Definition PHASE_CAN_EXE : Z := 4.

(** The handler that assigned [execute_callback_]. *)
Inductive execute_t := NotAssigned | ByHandleIRT | ByPrepareIRT | BySubmitCRT | ByPrepareCRT.
#[export] Instance execute_t_eq : EqDecision execute_t.
Proof. solve_decision. Defined.

(** [siteid_t x = -1]. *)
Definition NO_SITE : Z := 65535.

Record txn := {
  ts_ : chr_ts;
  commit_ts_ : chr_ts;
  input_ready_ : Z;
  dist_partition_status_ : gmap Z DistPartStatus;
  dist_shard_mgr_acked_ : gmap Z bool;
  dist_partition_acks_ : gmap Z (gset Z);
  anticipated_ts_ : gmap Z chr_ts;
  tpieces : list SimpleCommand;
  n_local_pieces_ : option Z;
  n_executed_pieces : Z;
  chr_phase_ : TxnPhase;
  handler_site_ : Z;
  region_handler_ : Z;
  is_irt_ : option bool;
  dist_output_ : option (gmap Z output_map);
  exe_tried_ : bool;
  execute_callback_ : execute_t;
  send_output_to_handler_ : bool;
  send_output_client : bool }.

Definition new_txn : txn :=
  {| ts_ := zero_ts; commit_ts_ := zero_ts; input_ready_ := 1; dist_partition_status_ := ∅;
     dist_shard_mgr_acked_ := ∅; dist_partition_acks_ := ∅; anticipated_ts_ := ∅; tpieces := [];
     n_local_pieces_ := None; n_executed_pieces := 0; chr_phase_ := PHASE_EMPTY; handler_site_ := NO_SITE;
     region_handler_ := NO_SITE; is_irt_ := None; dist_output_ := None; exe_tried_ := false;
     execute_callback_ := NotAssigned; send_output_to_handler_ := false; send_output_client := false |}.

Definition AllPiecesInputReady (t : txn) : bool := 0 <? input_ready_ t.

(** ** Messages *)
Record ChrTxnInfo := { i_txn_id : Z; i_ts : chr_ts; i_region_leader : Z }.

Record StoreLocalReq := {
  sl_txn_ts : chr_ts; sl_my_txns : list ChrTxnInfo; sl_delivered_ts : chr_ts }.
Record StoreLocalRes := {
  sr_my_ts : chr_ts; sr_my_pending_txns : list ChrTxnInfo; sr_delivered_ts : chr_ts }.
Record PrepareCRTReq := {
  pc_anticipated_ts : chr_ts; pc_shard_leader : Z; pc_coord_site : Z; pc_input_ready : Z }.
Record RemotePreparedReq := {
  rp_txn_id : Z; rp_site_id : Z; rp_partition_id : Z; rp_shard_manager : Z; rp_anticipated_ts : chr_ts }.
Record NotiCRTReq := { nc_txn_id : Z; nc_anticipated_ts : chr_ts; nc_touched_sites : gset Z }.
(** [DastNotiCommitReq] and [DastNotiManagerWaitReq]. *)
Record NotiReq := {
  nw_txn_id : Z; nw_original_ts : chr_ts; nw_need_input_wait : Z; nw_new_ts : chr_ts;
  nw_touched_sites : gset Z }.
Record IRSyncReq := {
  sy_site : Z; sy_txn_ts : chr_ts; sy_my_txns : list ChrTxnInfo; sy_delivered_ts : chr_ts }.

Inductive event :=
  | ReplyClient (tid : Z) (out : gmap Z output_map)
  | ReplyStoreLocal (tid site : Z) (res : StoreLocalRes)
  | ReplyDistExe (tid : Z) (is_region_leader : Z) (out : gmap Z output_map)
  | SendPrepareIRT (site : Z) (cmds : list SimpleCommand) (req : StoreLocalReq)
  | SendOutput (par tid : Z) (vars : gmap Z value)
  | SendPrepareRemote (region : Z) (cmds : cmd_map) (par_input_ready : gmap Z Z) (src_ts : chr_ts)
  | SendRemotePrepared (site : Z) (req : RemotePreparedReq)
  | SendDistExe (par tid : Z) (decision_ts : chr_ts)
  | SendNotiWait (region : Z) (req : NotiReq)
  | SendIRSync (site : Z) (req : IRSyncReq).

(** Keys of a map, in their order. *)
Definition keys {A} (m : gmap Z A) : list Z := merge_sort Z.le (elements (dom m)).

(** ** Access to the database *)
Section Access.
Import Rcc.
Context (reports : bool) (tid : Z).

(** The value of a deferred read stays as the caller declared it. *)
Definition ReadColumn (row col hint : Z) (e : tenv) : option (tenv * value) :=
  if (hint =? TXN_INSTANT) || (hint =? TXN_BYPASS) then x ← cells e !! (row, col); Some (e, x)
  else Some (e, VUnknown).

Definition WriteColumn (row col : Z) (x : value) (hint : Z) (e : tenv) : option tenv :=
  if hint =? TXN_INSTANT then write_column row col x e else Some e.

(** [InsertRow] is inherited; the phase of the transaction stays 0. *)
Fixpoint run_prog (p : prog) (e : tenv) : option (tenv * output_map) :=
  match p with
  | Done out => Some (e, out)
  | Read row col hint k => '(e, x) ← ReadColumn row col hint e; run_prog (k x) e
  | Write row col x hint k => e ← WriteColumn row col x hint e; run_prog k e
  | Insert tbl vals k => run_prog k (InsertRow reports tid 0 tbl vals e)
  | Broken => None
  end.

Definition DispatchExecute (txn_reg : Z -> Z -> option (defer_t * (TxnWorkspace -> prog))) (c : SimpleCommand)
    (e : tenv) : option (tenv * output_map) :=
  '(defer, handler) ← txn_reg (root_type_ c) (type_ c);
  if bool_decide (defer = DF_FAKE) then Some (e, []) else run_prog (handler (input c)) e.
End Access.

Section Sched.
(** The conflict test, the procedures, the physical clock, the place of the site and the
    configuration. *)
Context {E : Type} (conflict : Z -> Z -> bool)
  (exec : Z -> SimpleCommand -> E -> option (E * output_map)) (clock_at : nat -> Z).
Context (site_id partition_id my_rid n_replicas shards_per_region : Z)
  (SitesByPartitionId : Z -> list Z) (partition_of_site : Z -> Z).

Record site := {
  dtxns_ : gmap Z txn;
  db_ : E;
  ready_txns_ : list (chr_ts * Z);
  my_txns_ : list (chr_ts * Z);
  clk : clock;
  ir_site_max_ts : gmap Z chr_ts;
  ir_site_notified_ts : gmap Z chr_ts;
  ir_site_wait_ts_ : list (chr_ts * gset Z);
  ir_synced : gmap Z bool;
  new_input_ : bool;
  distributed_txns_by_me_ : gset Z;
  events_ : list event }.

(** The sites of the region but this one start with no timestamp; nothing sets the offset. *)
Definition site_init (db : E) (offset : Z) (region_sites : list Z) : site :=
  let others := List.filter (fun s => negb (s =? site_id)) region_sites in
  {| dtxns_ := ∅; db_ := db; ready_txns_ := []; my_txns_ := [];
     clk := {| last_clock_ := zero_ts; clock_offset_ := offset; dist_txn_tss_ := []; reads_ := 0 |};
     ir_site_max_ts := list_to_map ((fun s => (s, zero_ts)) <$> others); ir_site_notified_ts := ∅;
     ir_site_wait_ts_ := []; ir_synced := list_to_map ((fun s => (s, false)) <$> others);
     new_input_ := false; distributed_txns_by_me_ := ∅; events_ := [] |}.

Definition put (tid : Z) (t : txn) (s : site) : site := s {{ dtxns_ := <[tid := t]> (dtxns_ s) }}.
Definition emit (es : list event) (s : site) : site := s {{ events_ := events_ s ++ es }}.
Definition set_tss (tss : tsset) (s : site) : site := s {{ clk := (clk s) {{ dist_txn_tss_ := tss }} }}.
Definition tss_add (ts : chr_ts) (s : site) : site := set_tss (ts_add ts (dist_txn_tss_ (clk s))) s.
Definition tss_erase (ts : chr_ts) (s : site) : site := set_tss (ts_erase ts (dist_txn_tss_ (clk s))) s.
Definition ready_put (ts : chr_ts) (tid : Z) (s : site) : site :=
  s {{ ready_txns_ := ts_put ts tid (ready_txns_ s) }}.
Definition ready_erase (ts : chr_ts) (s : site) : site := s {{ ready_txns_ := ts_erase ts (ready_txns_ s) }}.
Definition ready_count (ts : chr_ts) (s : site) : bool := bool_decide (is_Some (ts_find ts (ready_txns_ s))).

Definition generate (for_local : bool) (s : site) : site * chr_ts :=
  let '(c, ts) := GenerateChrTs clock_at site_id for_local (clk s) in (s {{ clk := c }}, ts).

Definition CreateDTxn (tid : Z) (s : site) : option txn :=
  _ ← verify (bool_decide (dtxns_ s !! tid = None)); Some new_txn.
Definition GetOrCreateDTxn (tid : Z) (s : site) : txn := default new_txn (dtxns_ s !! tid).

(** ** Execution *)

(** [RecursiveExecuteReadyPieces]: the loop over the pieces, and then the pieces that are left
    join the pending ones. *)
Definition run_ready (tid : Z) (pending : gset Z) (t : txn) (db : E) :
    option (txn * E * gmap Z (gmap Z value) * gset Z) :=
  out ← dist_output_ t;
  r ← RecursiveExecuteReadyPieces (exec tid) (SlogSched.can_exe_wo_conflict conflict pending) partition_id
        {| pieces_ := tpieces t; env := db; PieceExec.n_executed_pieces := n_executed_pieces t;
           ret := ∅; outputs := out |};
  Some (t {{ exe_tried_ := true; tpieces := pieces_ r; n_executed_pieces := PieceExec.n_executed_pieces r;
             dist_output_ := Some (outputs r) }}, env r, ret r, pending ∪ SlogSched.unexecuted (pieces_ r)).

(** What is sent to the other partitions, in their order. *)
Definition output_events (tid : Z) (out : gmap Z (gmap Z value)) : list event :=
  (fun par => SendOutput par tid (default ∅ (out !! par)))
    <$> List.filter (fun par => negb (par =? partition_id)) (keys out).

Definition all_output_received (t : txn) : bool :=
  forallb (fun p => negb (status_num p.2 <? status_num P_OUTPUT_RECEIVED)) (map_to_list (dist_partition_status_ t)).

Definition CheckSendOutputToClient (tid : Z) (t : txn) : option (txn * list event) :=
  if bool_decide (chr_phase_ t = OUTPUT_SENT) then Some (t, [])
  else if all_output_received t then
    _ ← verify (send_output_client t);
    out ← dist_output_ t;
    Some (t {{ chr_phase_ := OUTPUT_SENT }}, [ReplyClient tid out])
  else Some (t, []).

(** What [execute_callback_] does once all pieces are executed. *)
Definition finish (tid : Z) (t : txn) (s : site) : option site :=
  out ← dist_output_ t;
  match execute_callback_ t with
  | ByHandleIRT => Some (emit [ReplyClient tid out] (put tid t s))
  | ByPrepareCRT =>
      Some (emit (if send_output_to_handler_ t then [ReplyDistExe tid 1 out] else []) (put tid t s))
  | BySubmitCRT =>
      _ ← verify (bool_decide (tid ∈ distributed_txns_by_me_ s));
      let s := s {{ distributed_txns_by_me_ := distributed_txns_by_me_ s ∖ {[tid]} }} in
      let t := t {{ dist_partition_status_ := <[partition_id := P_OUTPUT_RECEIVED]> (dist_partition_status_ t) }} in
      '(t, es) ← CheckSendOutputToClient tid t;
      Some (emit es (put tid t (tss_erase (ts_ t) s)))
  | ByPrepareIRT | NotAssigned => Some (put tid t s)
  end.

(** [execute_callback_(pending_pieces)]: whether the transaction is finished, and the pieces
    that are pending now.  A coordinator without pieces has nothing to run. *)
Definition execute (tid : Z) (pending : gset Z) (s : site) : option (site * bool * gset Z) :=
  t ← dtxns_ s !! tid;
  if bool_decide (execute_callback_ t = NotAssigned) then Some (s, false, pending)
  else
    '(t, db, out, pending) ←
      (if bool_decide (execute_callback_ t = BySubmitCRT) && bool_decide (tpieces t = [])
       then Some (t, db_ s, ∅, pending) else run_ready tid pending t (db_ s));
    let s := emit (output_events tid out) (put tid t (s {{ db_ := db }})) in
    n ← n_local_pieces_ t;
    if n =? n_executed_pieces t then s ← finish tid t s; Some (s, true, pending)
    else Some (s, false, pending).

Definition max_pending_txns_ : Z := 5.

(** Every site of the region has been heard of after [commit_ts_]. *)
Definition stable (t : txn) (s : site) : bool :=
  forallb (fun c => gtb c.2 (commit_ts_ t)) (map_to_list (ir_site_max_ts s)).

(** The loop over [ready_txns_]; the list has the entries from the iterator on. *)
Fixpoint check_executable (q : list (chr_ts * Z)) (found_pending : Z) (pending : gset Z) (s : site) :
    option site :=
  match q with
  | [] => Some s
  | (ts, tid) :: q =>
      t ← dtxns_ s !! tid;
      if negb (stable t s) then Some s
      else if phase_num (chr_phase_ t) <? PHASE_CAN_EXE then Some s
      else if region_handler_ t =? site_id then
        '(s, finished, pending) ← (if negb (exe_tried_ t) then execute tid pending s
                                   else if new_input_ s then execute tid pending s
                                   else Some (s, false, pending));
        if (finished : bool) then
          check_executable q found_pending pending ((ready_erase ts s) {{ new_input_ := true }})
        else if max_pending_txns_ <? found_pending + 1 then Some s
        else check_executable q (found_pending + 1) pending s
      else
        '(s, _, pending) ← execute tid pending s;
        check_executable q found_pending pending (ready_erase ts s)
  end.

Definition CheckExecutableTxns (s : site) : option site :=
  s ← check_executable (ready_txns_ s) 0 ∅ s;
  Some (s {{ new_input_ := false }}).

(** ** What sites of a region tell each other *)

(** [ir_site_notified_ts[target_site]] makes an entry. *)
Definition CollectNotifyTxns (target_site target_par : Z) (s : site) : option (site * list ChrTxnInfo) :=
  let notified := default zero_ts (ir_site_notified_ts s !! target_site) in
  infos ← mapM (fun '(ts, tid) =>
             t ← dtxns_ s !! tid;
             irt ← is_irt_ t;
             Some (if irt && bool_decide (is_Some (dist_partition_acks_ t !! target_par))
                   then [{| i_txn_id := tid; i_ts := ts; i_region_leader := site_id |}] else []))
           (List.filter (fun kv => ltb notified kv.1) (my_txns_ s));
  Some (s {{ ir_site_notified_ts := <[target_site := notified]> (ir_site_notified_ts s);
             ir_synced := <[target_site := true]> (ir_synced s) }}, concat infos).

(** The sites that no longer wait for [remote_site]. *)
Fixpoint unblock (remote_site : Z) (remote_ts : chr_ts) (m : list (chr_ts * gset Z)) (tss : tsset) :
    list (chr_ts * gset Z) * tsset :=
  match m with
  | [] => ([], tss)
  | (ts, sites) :: m' =>
      if ltb remote_ts ts then (m, tss)
      else
        let sites := sites ∖ {[remote_site]} in
        if bool_decide (sites = ∅) then unblock remote_site remote_ts m' (ts_erase ts tss)
        else let '(m', tss) := unblock remote_site remote_ts m' tss in ((ts, sites) :: m', tss)
  end.

Definition notified_txn (remote_site : Z) (info : ChrTxnInfo) (s : site) : site :=
  if bool_decide (is_Some (dtxns_ s !! i_txn_id info)) then s
  else ready_put (i_ts info) (i_txn_id info) (put (i_txn_id info)
         (new_txn {{ ts_ := i_ts info; handler_site_ := remote_site;
                     region_handler_ := i_region_leader info; chr_phase_ := LOCAL_CAN_EXE }}) s).

Definition HandlePiggyInfo (remote_site : Z) (remote_ts : chr_ts) (noti_txns : list ChrTxnInfo)
    (remote_delivered_ts : chr_ts) (s : site) : site :=
  let s := foldl (fun s info => notified_txn remote_site info s) s noti_txns in
  let notified := default zero_ts (ir_site_notified_ts s !! remote_site) in
  let s := s {{ ir_site_notified_ts :=
                  <[remote_site := if ltb notified remote_delivered_ts then remote_delivered_ts else notified]>
                    (ir_site_notified_ts s) }} in
  let max_ts := default zero_ts (ir_site_max_ts s !! remote_site) in
  if ltb max_ts remote_ts then
    let '(s, my_ts) := generate false s in
    let s := if timestamp_ my_ts <? timestamp_ remote_ts
             then s {{ clk := (clk s) {{ clock_offset_ :=
                         clock_offset_ (clk s) + (timestamp_ remote_ts - timestamp_ my_ts) }} }} else s in
    let '(m, tss) := unblock remote_site remote_ts (ir_site_wait_ts_ s) (dist_txn_tss_ (clk s)) in
    set_tss tss (s {{ ir_site_max_ts := <[remote_site := remote_ts]> (ir_site_max_ts s); ir_site_wait_ts_ := m }})
  else s {{ ir_site_max_ts := <[remote_site := max_ts]> (ir_site_max_ts s) }}.

Definition OnIRSync (req : IRSyncReq) (s : site) : option site :=
  CheckExecutableTxns (HandlePiggyInfo (sy_site req) (sy_txn_ts req) (sy_my_txns req) (sy_delivered_ts req) s).

(** One round of [IRSyncLoop]. *)
Definition sync_site (target_site : Z) (synced : bool) (s : site) : option site :=
  s ← (if negb synced then
         '(s, txns) ← CollectNotifyTxns target_site (target_site / SlogOrder.N_REP_PER_SHARD) s;
         let delivered := default zero_ts (ir_site_max_ts s !! target_site) in
         let s := s {{ ir_site_max_ts := <[target_site := delivered]> (ir_site_max_ts s) }} in
         let '(s, ts) := generate true s in
         Some (emit [SendIRSync target_site {| sy_site := site_id; sy_txn_ts := ts; sy_my_txns := txns;
                                               sy_delivered_ts := delivered |}] s)
       else Some s);
  Some (s {{ ir_synced := <[target_site := false]> (ir_synced s) }}).

Fixpoint sync_sites (ts : list Z) (s : site) : option site :=
  match ts with
  | [] => Some s
  | t :: ts => b ← ir_synced s !! t; s ← sync_site t b s; sync_sites ts s
  end.
Definition IRSyncLoop (s : site) : option site := sync_sites (keys (ir_synced s)) s.

(** ** Transactions of the region *)

(** The [while] loop of [HandleIRT]: another timestamp as long as a decided CRT has this one. *)
Fixpoint irt_ts (fuel : nat) (s : site) : option (site * chr_ts) :=
  match fuel with
  | O => None
  | S fuel =>
      let '(s, ts) := generate true s in
      match ts_find ts (ready_txns_ s) with
      | None => Some (s, ts)
      | Some tid =>
          prev_txn ← dtxns_ s !! tid;
          _ ← verify (bool_decide (chr_phase_ prev_txn = DIST_CAN_EXE));
          irt_ts fuel s
      end
  end.

(** The requests to the sites of a partition. *)
Fixpoint prepare_irt_sites (ts : chr_ts) (par : Z) (cmds : list SimpleCommand) (sites : list Z) (s : site) :
    option site :=
  match sites with
  | [] => Some s
  | target :: sites =>
      s ← (if target =? site_id then Some s
           else '(s, infos) ← CollectNotifyTxns target par s;
                Some (emit [SendPrepareIRT target cmds {| sl_txn_ts := ts; sl_my_txns := infos;
                                                          sl_delivered_ts := zero_ts |}] s));
      prepare_irt_sites ts par cmds sites s
  end.

Fixpoint prepare_irt (tid : Z) (ts : chr_ts) (cmds_by_par : cmd_map) (s : site) : option site :=
  match cmds_by_par with
  | [] => Some s
  | (par, cmds) :: rest =>
      t ← dtxns_ s !! tid;
      let s := put tid (t {{ dist_partition_acks_ := <[par := ∅]> (dist_partition_acks_ t) }}) s in
      s ← prepare_irt_sites ts par cmds (SitesByPartitionId par) s;
      prepare_irt tid ts rest s
  end.

Definition HandleIRT (cmds_by_par : cmd_map) (s : site) : option site :=
  tid ← SlogOrder.txn_of cmds_by_par;
  '(s, ts) ← irt_ts (S (length (ready_txns_ s))) s;
  t ← CreateDTxn tid s;
  ps ← SlogOrder.cmds_at partition_id cmds_by_par;
  let t := t {{ chr_phase_ := LOCAL_NOT_STORED; ts_ := ts; handler_site_ := site_id;
                region_handler_ := site_id; tpieces := ps; n_local_pieces_ := Some (Z.of_nat (length ps));
                n_executed_pieces := 0; dist_output_ := Some ∅; is_irt_ := Some true;
                execute_callback_ := ByHandleIRT }} in
  let s := ready_put ts tid (put tid t s) in
  prepare_irt tid ts cmds_by_par (s {{ my_txns_ := ts_put ts tid (my_txns_ s) }}).

(** A transaction of several regions is submitted to [OnSubmitCRT]. *)
Definition OnSubmitTxn (cmds_by_par : cmd_map) (is_irt : bool) (s : site) : option site :=
  if is_irt then HandleIRT cmds_by_par s else Some s.

Definition all_par_majority_acks (t : txn) : bool :=
  forallb (fun p => negb (Z.of_nat (size p.2) <? (n_replicas - 1) / 2)) (map_to_list (dist_partition_acks_ t)).

Definition PrepareIRTACK (tid target_par target_site : Z) (res : StoreLocalRes) (s : site) : option site :=
  _ ← dtxns_ s !! tid;
  let s := HandlePiggyInfo target_site (sr_my_ts res) (sr_my_pending_txns res) (sr_delivered_ts res) s in
  t ← dtxns_ s !! tid;
  if bool_decide (chr_phase_ t = LOCAL_CAN_EXE) then Some s
  else
    let acks := default ∅ (dist_partition_acks_ t !! target_par) in
    let t := t {{ dist_partition_acks_ := <[target_par := {[target_site]} ∪ acks]> (dist_partition_acks_ t) }} in
    if all_par_majority_acks t then
      CheckExecutableTxns (put tid (t {{ chr_phase_ := LOCAL_CAN_EXE }}) s)
    else Some (put tid t s).

Definition sites_for_same_par (a b : Z) : bool := a / n_replicas =? b / n_replicas.

Definition OnPrepareIRT (cmds : list SimpleCommand) (req : StoreLocalReq) (s : site) : option site :=
  let ts := sl_txn_ts req in
  let src_site := site_id_ ts in
  c ← head cmds;
  let tid := root_id_ c in
  let src_par := partition_of_site src_site in
  _ ← verify (match ts_find ts (ready_txns_ s) with Some tid' => tid' =? tid | None => true end);
  let t := GetOrCreateDTxn tid s in
  let t := t {{ ts_ := ts; handler_site_ := src_site;
                region_handler_ := if sites_for_same_par site_id src_site then src_site else site_id;
                chr_phase_ := LOCAL_CAN_EXE; tpieces := cmds; n_local_pieces_ := Some (Z.of_nat (length cmds));
                n_executed_pieces := 0; dist_output_ := Some ∅; is_irt_ := Some true;
                execute_callback_ := ByPrepareIRT }} in
  let s := ready_put ts tid (put tid t s) in
  let s := HandlePiggyInfo src_site ts (sl_my_txns req) (sl_delivered_ts req) s in
  s ← CheckExecutableTxns s;
  let '(s, my_ts) := generate true s in
  '(s, infos) ← CollectNotifyTxns src_site src_par s;
  Some (emit [ReplyStoreLocal tid src_site {| sr_my_ts := my_ts; sr_my_pending_txns := infos;
                                              sr_delivered_ts := ts |}] s).

(** ** Transactions of several regions *)

(** The coordinator.  The timestamps of the regions are compared from the default on. *)
Definition max_anticipated (t : txn) : chr_ts :=
  foldl (fun m p => if gtb p.2 m then p.2 else m) zero_ts (map_to_list (anticipated_ts_ t)).

Definition can_move_forward (t : txn) : bool :=
  forallb (fun p => negb (status_num p.2 <? status_num P_REMOTE_PREPARED)) (map_to_list (dist_partition_status_ t)).

(** What the manager of region [r] is told. *)
Definition noti_wait (tid : Z) (t : txn) (max_ts : chr_ts) (r : Z) : event :=
  let original := default zero_ts (anticipated_ts_ t !! r) in
  if negb (AllPiecesInputReady t) && (r =? my_rid) then
    SendNotiWait r {| nw_txn_id := tid; nw_original_ts := original; nw_need_input_wait := 1; nw_new_ts := max_ts;
                      nw_touched_sites := list_to_set (SitesByPartitionId partition_id) |}
  else
    SendNotiWait r {| nw_txn_id := tid; nw_original_ts := original; nw_need_input_wait := 0; nw_new_ts := zero_ts;
                      nw_touched_sites := ∅ |}.

(** [anticipated_ts_[r]] makes an entry. *)
Definition touch_anticipated (regions : list Z) (m : gmap Z chr_ts) : gmap Z chr_ts :=
  foldl (fun m r => <[r := default zero_ts (m !! r)]> m) m regions.

Definition CheckRemotePrepared (tid : Z) (s : site) : option site :=
  t ← dtxns_ s !! tid;
  if can_move_forward t then
    let max_ts := max_anticipated t in
    let s := tss_erase (ts_ t) s in
    let t := t {{ ts_ := max_ts }} in
    let s := if AllPiecesInputReady t then s else tss_add max_ts s in
    let '(s, _) := generate true s in
    _ ← verify (negb (ready_count max_ts s));
    let s := ready_put max_ts tid s in
    _ ← verify (bool_decide (chr_phase_ t = DIST_REMOTE_SENT));
    let pars := keys (dist_partition_status_ t) in
    let touched_regions : gset Z := list_to_set ((fun p => p / shards_per_region) <$> pars) in
    let regions := merge_sort Z.le (elements touched_regions) in
    let s := emit (((fun p => SendDistExe p tid max_ts) <$> pars) ++ (noti_wait tid t max_ts <$> regions)) s in
    let t := t {{ chr_phase_ := DIST_CAN_EXE;
                  anticipated_ts_ := touch_anticipated regions (anticipated_ts_ t) }} in
    CheckExecutableTxns (put tid t s)
  else Some s.

(** The partition [par] of a transaction is prepared when a majority of its replicas and its
    leader have answered. *)
Definition check_prepared (tid par : Z) (s : site) : option site :=
  t ← dtxns_ s !! tid;
  if bool_decide (default P_NOT_RECEIVED (dist_partition_status_ t !! par) = P_REMOTE_SENT)
     && negb (Z.of_nat (size (default ∅ (dist_partition_acks_ t !! par))) <? (n_replicas + 1) / 2)
     && default false (dist_shard_mgr_acked_ t !! par) then
    CheckRemotePrepared tid
      (put tid (t {{ dist_partition_status_ := <[par := P_REMOTE_PREPARED]> (dist_partition_status_ t) }}) s)
  else Some s.

Definition OnRemotePrepared (req : RemotePreparedReq) (s : site) : option site :=
  let par := rp_partition_id req in
  let tid := rp_txn_id req in
  let t := GetOrCreateDTxn tid s in
  acks ← dist_partition_acks_ t !! par;
  let t := t {{ dist_partition_acks_ := <[par := {[rp_site_id req]} ∪ acks]> (dist_partition_acks_ t);
                anticipated_ts_ := <[par / shards_per_region := rp_anticipated_ts req]> (anticipated_ts_ t) }} in
  let t := if rp_shard_manager req =? rp_site_id req
           then t {{ dist_shard_mgr_acked_ := <[par := true]> (dist_shard_mgr_acked_ t) }} else t in
  check_prepared tid par (put tid t s).

(** *** [OnSubmitCRT] *)

Abbreviation region_cmds := (list (Z * cmd_map)).

Definition pars_of (rcmds : region_cmds) : cmd_map := concat (snd <$> rcmds).
Definition waits_for_input (rcmds : region_cmds) : bool :=
  existsb (fun kv => existsb (fun c => (inn_id_ c =? 204) && (piece_input_ready_ (input c) =? 0)) kv.2)
    (pars_of rcmds).

(** The pieces of this partition in the region that the coordinator computes. *)
Definition own_pieces (rcmds : region_cmds) : list SimpleCommand :=
  let rid := partition_id / (n_replicas * shards_per_region) in
  default [] (m ← snd <$> find (fun kv => kv.1 =? rid) rcmds; SlogOrder.cmds_at partition_id m).

Definition OnSubmitCRT (rcmds : region_cmds) (s : site) : option site :=
  '(_, m) ← head rcmds;
  tid ← SlogOrder.txn_of m;
  _ ← verify (negb (bool_decide (tid ∈ distributed_txns_by_me_ s)));
  let s := s {{ distributed_txns_by_me_ := {[tid]} ∪ distributed_txns_by_me_ s }} in
  let t := GetOrCreateDTxn tid s in
  let pars := (pars_of rcmds).*1 in
  let ready := foldl (fun m p => <[p := 1]> m) (∅ : gmap Z Z) pars in
  let wait := waits_for_input rcmds in
  let t := if wait then t {{ input_ready_ := 0 }} else t in
  let ready := if wait then <[partition_id := 0]> ready else ready in
  let '(s, src_ts) := generate true s in
  let t := t {{ handler_site_ := site_id; region_handler_ := site_id; is_irt_ := Some false;
                dist_partition_status_ := foldl (fun m p => <[p := P_REMOTE_SENT]> m) (dist_partition_status_ t) pars;
                dist_partition_acks_ := foldl (fun m p => <[p := ∅]> m) (dist_partition_acks_ t) pars;
                dist_shard_mgr_acked_ := foldl (fun m p => <[p := false]> m) (dist_shard_mgr_acked_ t) pars;
                chr_phase_ := DIST_REMOTE_SENT; send_output_client := true;
                tpieces := own_pieces rcmds; n_local_pieces_ := Some (Z.of_nat (length (own_pieces rcmds)));
                n_executed_pieces := 0; dist_output_ := Some ∅; execute_callback_ := BySubmitCRT }} in
  Some (emit ((fun r => SendPrepareRemote r.1 r.2 ready src_ts) <$> rcmds) (put tid t s)).

(** *** Participants *)

Definition OnPrepareCRT (cmds : list SimpleCommand) (req : PrepareCRTReq) (s : site) : option site :=
  c ← head cmds;
  let tid := root_id_ c in
  let ts := pc_anticipated_ts req in
  _ ← verify (negb (ts_mem ts (dist_txn_tss_ (clk s))));
  _ ← verify (negb (ready_count ts s));
  match dtxns_ s !! tid with
  | Some t =>
      if bool_decide (chr_phase_ t = DIST_REMOTE_SENT) then
        let acks := default ∅ (dist_partition_acks_ t !! partition_id) in
        let t := t {{ dist_shard_mgr_acked_ := <[partition_id := true]> (dist_shard_mgr_acked_ t);
                      dist_partition_acks_ := <[partition_id := {[site_id]} ∪ acks]> (dist_partition_acks_ t);
                      anticipated_ts_ := <[partition_id / shards_per_region := ts]> (anticipated_ts_ t);
                      ts_ := ts }} in
        check_prepared tid partition_id (tss_add ts (put tid t s))
      else Some (if input_ready_ t =? 1 then put tid (t {{ input_ready_ := pc_input_ready req }}) s else s)
  | None =>
      let t := new_txn {{ ts_ := ts; handler_site_ := pc_coord_site req; region_handler_ := pc_shard_leader req;
                          tpieces := cmds; n_local_pieces_ := Some (Z.of_nat (length cmds));
                          dist_output_ := Some ∅; input_ready_ := pc_input_ready req; is_irt_ := Some false;
                          execute_callback_ := ByPrepareCRT }} in
      let s := ready_put ts tid (put tid t (tss_add ts s)) in
      Some (emit [SendRemotePrepared (pc_coord_site req)
                    {| rp_txn_id := tid; rp_site_id := site_id; rp_partition_id := partition_id;
                       rp_shard_manager := pc_shard_leader req; rp_anticipated_ts := ts |}] s)
  end.

(** A transaction that is not known is created, and nobody is answered. *)
Definition OnDistExe (tid : Z) (decision_ts : chr_ts) (s : site) : option site :=
  match dtxns_ s !! tid with
  | Some t =>
      let s := ready_erase (ts_ t) (tss_erase (ts_ t) s) in
      _ ← verify (negb (ready_count decision_ts s));
      let s := ready_put decision_ts tid s in
      let leader := region_handler_ t =? site_id in
      let t := t {{ chr_phase_ := DIST_CAN_EXE; ts_ := decision_ts;
                    send_output_to_handler_ := leader || send_output_to_handler_ t }} in
      let s := if AllPiecesInputReady t then s else tss_add decision_ts s in
      CheckExecutableTxns (emit (if leader then [] else [ReplyDistExe tid 0 ∅]) (put tid t s))
  | None => Some (put tid new_txn s)
  end.

Definition DistExeAck (tid par : Z) (output : gmap Z output_map) (is_region_leader : Z) (s : site) : option site :=
  if is_region_leader =? 0 then Some s
  else
    let t := GetOrCreateDTxn tid s in
    out ← dist_output_ t;
    _ ← verify (bool_decide (dom output ## dom out));
    let t := t {{ dist_output_ := Some (out ∪ output);
                  dist_partition_status_ := <[par := P_OUTPUT_RECEIVED]> (dist_partition_status_ t) }} in
    '(t, es) ← CheckSendOutputToClient tid t;
    Some (emit es (put tid t s)).

Definition OnSendOutput (tid : Z) (vars : output_map) (s : site) : option site :=
  match dtxns_ s !! tid with
  | None => Some s
  | Some t =>
      let t := t {{ input_ready_ := 2 }} in
      irt ← is_irt_ t;
      let s :=
        if (irt : bool) then s
        else emit [SendNotiWait my_rid {| nw_txn_id := tid; nw_original_ts := ts_ t; nw_need_input_wait := 0;
                                          nw_new_ts := zero_ts; nw_touched_sites := ∅ |}]
               (if AllPiecesInputReady t || (phase_num DIST_CAN_EXE <? phase_num (chr_phase_ t))
                then tss_erase (ts_ t) s else s) in
      let '(ps, more_to_run) := MergeCheckReadyPieces vars (tpieces t) in
      let s := (put tid (t {{ tpieces := ps }}) s) {{ new_input_ := true }} in
      if more_to_run && (phase_num LOCAL_CAN_EXE <=? phase_num (chr_phase_ t))
      then CheckExecutableTxns s else Some s
  end.

(** *** Sites that the transaction does not touch *)

Definition wait_for (ts : chr_ts) (sites : gset Z) (s : site) : site :=
  s {{ ir_site_wait_ts_ := ts_put ts (default ∅ (ts_find ts (ir_site_wait_ts_ s)) ∪ sites) (ir_site_wait_ts_ s) }}.

Definition OnNotiCRT (req : NotiCRTReq) (s : site) : option site :=
  _ ← verify (bool_decide (dtxns_ s !! nc_txn_id req = None));
  Some (wait_for (nc_anticipated_ts req) (nc_touched_sites req) (tss_add (nc_anticipated_ts req) s)).

Definition OnNotiCommit (req : NotiReq) (s : site) : site :=
  let s := tss_erase (nw_original_ts req) s in
  let s := s {{ ir_site_wait_ts_ := ts_erase (nw_original_ts req) (ir_site_wait_ts_ s) }} in
  if nw_need_input_wait req =? 1
  then wait_for (nw_new_ts req) (nw_touched_sites req) (tss_add (nw_new_ts req) s) else s.
End Sched.
End ChrSched.
