(* ===== verification/ChrCrt.v ===== *)
(** * Decisions on transactions of several regions

    What the coordinator of a CRT has heard when it decides the timestamp
    (deptran/chronos/scheduler.cc): [OnRemotePrepared] and [OnPrepareCRT] collect the answers
    of the partitions, [CheckRemotePrepared] sends the decision. *)

From Stdlib Require Import ZArith Lia.
From stdpp Require Import base list option gmap sets relations sorting.
From coqutil Require Import Datatypes.RecordSetters.
From S2P Require Import Prelude ALock MemSchema PieceExec SlogOrder SlogSched ChrTs ChrSched.
Import DoubleBraceUpdate.
Local Open Scope Z_scope.

Module ChrCrt.
Import ChrTs ChrSched.

Section Crt.
Context {E : Type} (conflict : Z -> Z -> bool)
  (exec : Z -> SimpleCommand -> E -> option (E * output_map)) (clock_at : nat -> Z).
Context (site_id partition_id my_rid n_replicas shards_per_region : Z)
  (SitesByPartitionId : Z -> list Z) (partition_of_site : Z -> Z).

Abbreviation CheckExecutableTxns := (CheckExecutableTxns conflict exec site_id partition_id).

(** ** Steps of a site

    [anticipated tid r] is the timestamp that the manager of region [r] gives the transaction;
    every site it prepares reports that one.  The identifiers of submitted transactions are
    new to the site, the acknowledgement of an IRT names an IRT, and the acknowledgement of
    an execution answers a decision. *)
Context (anticipated : Z -> Z -> chr_ts).

Inductive step (s : @site E) : @site E -> Prop :=
  | do_submit_irt cmds s' :
      HandleIRT clock_at site_id partition_id SitesByPartitionId cmds s = Some s' -> step s s'
  | do_submit_crt rcmds s' :
      (forall r m tid, head rcmds = Some (r, m) -> SlogOrder.txn_of m = Some tid -> dtxns_ s !! tid = None) ->
      OnSubmitCRT clock_at site_id partition_id n_replicas shards_per_region rcmds s = Some s' -> step s s'
  | do_irt_ack tid par site res s' :
      (forall t, dtxns_ s !! tid = Some t -> is_irt_ t = Some true) ->
      PrepareIRTACK conflict exec clock_at site_id partition_id n_replicas tid par site res s = Some s' -> step s s'
  | do_prepare_irt cmds req s' :
      OnPrepareIRT conflict exec clock_at site_id partition_id n_replicas partition_of_site cmds req s = Some s' -> step s s'
  | do_remote_prepared req s' :
      rp_anticipated_ts req = anticipated (rp_txn_id req) (rp_partition_id req / shards_per_region) ->
      OnRemotePrepared conflict exec clock_at site_id partition_id my_rid n_replicas shards_per_region
        SitesByPartitionId req s = Some s' -> step s s'
  | do_prepare_crt c cmds req s' :
      pc_anticipated_ts req = anticipated (root_id_ c) (partition_id / shards_per_region) ->
      OnPrepareCRT conflict exec clock_at site_id partition_id my_rid n_replicas shards_per_region
        SitesByPartitionId (c :: cmds) req s = Some s' -> step s s'
  | do_dist_exe tid ts s' :
      OnDistExe conflict exec site_id partition_id tid ts s = Some s' -> step s s'
  | do_dist_exe_ack tid par ts out leader s' :
      SendDistExe par tid ts ∈ events_ s ->
      DistExeAck tid par out leader s = Some s' -> step s s'
  | do_send_output tid vars s' :
      OnSendOutput conflict exec site_id partition_id my_rid tid vars s = Some s' -> step s s'
  | do_noti_crt req s' : OnNotiCRT req s = Some s' -> step s s'
  | do_noti_commit req : step s (OnNotiCommit req s)
  | do_ir_sync req s' :
      OnIRSync conflict exec clock_at site_id partition_id req s = Some s' -> step s s'
  | do_sync_round s' : IRSyncLoop clock_at site_id s = Some s' -> step s s'.

(** ** What a decision needs *)

Definition answered (t : txn) (par : Z) : Prop :=
  (n_replicas + 1) / 2 <= Z.of_nat (size (default ∅ (dist_partition_acks_ t !! par)))
  /\ dist_shard_mgr_acked_ t !! par = Some true.

(** The transaction is not decided: a partition is prepared only with the answers. *)
Record collecting (tid : Z) (t : txn) : Prop := {
  c_crt : is_irt_ t = Some false;
  c_status : forall par p, dist_partition_status_ t !! par = Some p ->
    p = P_REMOTE_SENT \/ p = P_REMOTE_PREPARED /\ answered t par;
  c_anticipated : forall r ts, anticipated_ts_ t !! r = Some ts -> ts = anticipated tid r;
  c_reported : forall par, default ∅ (dist_partition_acks_ t !! par) <> ∅ ->
    is_Some (anticipated_ts_ t !! (par / shards_per_region)) }.

Record crt_inv (s : @site E) : Prop := {
  v_open : forall tid t, dtxns_ s !! tid = Some t -> chr_phase_ t = DIST_REMOTE_SENT -> collecting tid t;
  v_decided : forall par tid ts, SendDistExe par tid ts ∈ events_ s ->
    exists t, dtxns_ s !! tid = Some t /\ chr_phase_ t <> DIST_REMOTE_SENT /\ answered t par
      /\ ~ lt ts (anticipated tid (par / shards_per_region));
  v_once : forall par par' tid ts ts',
    SendDistExe par tid ts ∈ events_ s -> SendDistExe par' tid ts' ∈ events_ s -> ts = ts' }.

(** ** Steps that decide nothing *)

Definition is_decision (e : event) : bool := match e with SendDistExe _ _ _ => true | _ => false end.
Definition no_decision (es : list event) : Prop := Forall (fun e => is_decision e = false) es.

Definition kept (t t' : txn) : Prop :=
  (chr_phase_ t <> DIST_REMOTE_SENT -> chr_phase_ t' <> DIST_REMOTE_SENT)
  /\ forall par, answered t par -> answered t' par.

Definition all_collecting (s : @site E) : Prop :=
  forall tid t, dtxns_ s !! tid = Some t -> chr_phase_ t = DIST_REMOTE_SENT -> collecting tid t.

Record mild (s s' : @site E) : Prop := {
  m_events : exists es, events_ s' = events_ s ++ es /\ no_decision es;
  m_open : all_collecting s -> all_collecting s';
  m_kept : forall tid t, dtxns_ s !! tid = Some t -> exists t', dtxns_ s' !! tid = Some t' /\ kept t t' }.

Lemma kept_txn_refl t : kept t t.
Proof. split; auto. Qed.
Lemma kept_txn_trans t1 t2 t3 : kept t1 t2 -> kept t2 t3 -> kept t1 t3.
Proof. intros [] []. split; auto. Qed.

#[local] Instance mild_preorder : PreOrder mild.
Proof.
  split.
  - intros s. split; [exists []; rewrite app_nil_r; split; [done | constructor] | auto |].
    intros tid t Ht. exists t. split; [exact Ht | apply kept_txn_refl].
  - intros s1 s2 s3 [(es & He & Hn) Ho Hk] [(es' & He' & Hn') Ho' Hk']. split; [|auto |].
    + exists (es ++ es'). rewrite He', He, app_assoc. split; [done | now apply Forall_app].
    + intros tid t Ht. destruct (Hk _ _ Ht) as (t1 & Ht1 & K1). destruct (Hk' _ _ Ht1) as (t2 & Ht2 & K2).
      exists t2. split; [exact Ht2 | eapply kept_txn_trans; eauto].
Qed.

Lemma mild_frame s s' : dtxns_ s' = dtxns_ s -> events_ s' = events_ s -> mild s s'.
Proof.
  intros Hd He. split; [exists []; rewrite app_nil_r; split; [done | constructor] | |].
  - unfold all_collecting. now rewrite Hd.
  - intros tid t Ht. exists t. rewrite Hd. split; [exact Ht | apply kept_txn_refl].
Qed.

Lemma mild_emit es s : no_decision es -> mild s (emit es s).
Proof.
  intros H. split; [eauto | auto |]. intros tid t Ht. exists t. split; [exact Ht | apply kept_txn_refl].
Qed.

Lemma mild_ext es s s' :
  dtxns_ s' = dtxns_ s -> events_ s' = events_ s ++ es -> no_decision es -> mild s s'.
Proof. intros Hd He Hn. transitivity (emit es s); [now apply mild_emit | now apply mild_frame]. Qed.

Lemma mild_put tid t t' s :
  dtxns_ s !! tid = Some t -> kept t t' ->
  (chr_phase_ t' = DIST_REMOTE_SENT -> collecting tid t -> collecting tid t') ->
  mild s (put tid t' s).
Proof.
  intros Ht Hk Hc. split; [exists []; rewrite app_nil_r; split; [done | constructor] | |].
  - intros Ho tid1 t1. cbn. destruct (decide (tid1 = tid)) as [->|Hne];
      [rewrite lookup_insert_eq | rewrite lookup_insert_ne by auto; apply Ho].
    intros [= <-] Hp. apply Hc; [exact Hp |]. apply Ho; [exact Ht |].
    destruct (decide (chr_phase_ t = DIST_REMOTE_SENT)) as [|Hn]; [assumption |]. now destruct (proj1 Hk Hn).
  - intros tid1 t1 Ht1. cbn. destruct (decide (tid1 = tid)) as [->|Hne];
      [rewrite lookup_insert_eq | rewrite lookup_insert_ne by auto; exists t1; split; [exact Ht1 | apply kept_txn_refl]].
    exists t'. split; [reflexivity |]. rewrite Ht in Ht1. injection Ht1 as <-. exact Hk.
Qed.

Lemma mild_new tid t' s :
  dtxns_ s !! tid = None -> (chr_phase_ t' = DIST_REMOTE_SENT -> collecting tid t') -> mild s (put tid t' s).
Proof.
  intros Ht Hc. split; [exists []; rewrite app_nil_r; split; [done | constructor] | |].
  - intros Ho tid1 t1. cbn. destruct (decide (tid1 = tid)) as [->|Hne];
      [rewrite lookup_insert_eq | rewrite lookup_insert_ne by auto; apply Ho]. now intros [= <-].
  - intros tid1 t1 Ht1. cbn. exists t1. rewrite lookup_insert_ne by congruence. split; [exact Ht1 | apply kept_txn_refl].
Qed.

(** What [GetOrCreateDTxn] gives. *)
Lemma mild_get_put tid t' s :
  kept (GetOrCreateDTxn tid s) t' ->
  (chr_phase_ t' = DIST_REMOTE_SENT -> collecting tid (GetOrCreateDTxn tid s) -> collecting tid t') ->
  mild s (put tid t' s).
Proof.
  unfold GetOrCreateDTxn. destruct (dtxns_ s !! tid) as [t|] eqn:Ht; cbn; intros Hk Hc.
  - eapply mild_put; eauto.
  - apply mild_new; [exact Ht |]. intros Hp. now destruct (proj1 Hk ltac:(discriminate)).
Qed.

Lemma inv_mild s s' : mild s s' -> crt_inv s -> crt_inv s'.
Proof.
  intros [(es & He & Hn) Ho Hk] [V1 V2 V3].
  assert (Hd : forall par tid ts, SendDistExe par tid ts ∈ events_ s' -> SendDistExe par tid ts ∈ events_ s).
  { intros par tid ts. rewrite He, elem_of_app. intros [H|H]; [exact H |]. unfold no_decision in Hn.
    rewrite Forall_forall in Hn. now apply Hn in H. }
  split; [now apply Ho | | eauto].
  intros par tid ts (t & Ht & Hp & Ha & Hl)%Hd%V2. destruct (Hk _ _ Ht) as (t' & Ht' & [K1 K2]).
  exists t'. split_and!; auto.
Qed.

(** ** The handlers *)

(** A change that leaves the answers. *)
Lemma kept_answers t t' :
  dist_partition_acks_ t' = dist_partition_acks_ t -> dist_shard_mgr_acked_ t' = dist_shard_mgr_acked_ t ->
  (chr_phase_ t <> DIST_REMOTE_SENT -> chr_phase_ t' <> DIST_REMOTE_SENT) -> kept t t'.
Proof. intros Ha Hm Hp. split; [exact Hp |]. intros par. unfold answered. now rewrite Ha, Hm. Qed.

Lemma mild_put_decided tid t t' s :
  dtxns_ s !! tid = Some t -> dist_partition_acks_ t' = dist_partition_acks_ t ->
  dist_shard_mgr_acked_ t' = dist_shard_mgr_acked_ t -> chr_phase_ t' <> DIST_REMOTE_SENT -> mild s (put tid t' s).
Proof. intros Ht Ha Hm Hp. apply (mild_put tid t); [exact Ht | now apply kept_answers | done]. Qed.

(** Pieces and outputs of a transaction. *)
Lemma run_ready_same tid pending t db t' db' out pending' :
  run_ready conflict exec partition_id tid pending t db = Some (t', db', out, pending') ->
  chr_phase_ t' = chr_phase_ t /\ dist_partition_acks_ t' = dist_partition_acks_ t
  /\ dist_shard_mgr_acked_ t' = dist_shard_mgr_acked_ t.
Proof.
  unfold run_ready. destruct (dist_output_ t) as [o|]; [|discriminate]. cbn [mbind option_bind].
  destruct (RecursiveExecuteReadyPieces _ _ _ _) as [r|]; [|discriminate]. cbn [mbind option_bind].
  intros [= <- _ _ _]. now destruct t.
Qed.

Lemma check_send_same tid t t' es :
  CheckSendOutputToClient tid t = Some (t', es) -> chr_phase_ t <> DIST_REMOTE_SENT ->
  chr_phase_ t' <> DIST_REMOTE_SENT /\ dist_partition_acks_ t' = dist_partition_acks_ t
  /\ dist_shard_mgr_acked_ t' = dist_shard_mgr_acked_ t /\ no_decision es.
Proof.
  unfold CheckSendOutputToClient. intros H Hp. revert H. case_bool_decide; [intros [= <- <-]; repeat split; auto; constructor |].
  destruct (all_output_received t); [|intros [= <- <-]; repeat split; auto; constructor].
  destruct (send_output_client t); [|discriminate]. destruct (dist_output_ t) as [o|]; [|discriminate].
  intros [= <- <-]. split_and!; [now destruct t | now destruct t | now destruct t | now repeat constructor].
Qed.

Lemma output_events_quiet tid out : no_decision (output_events partition_id tid out).
Proof. unfold no_decision, output_events. apply Forall_fmap, Forall_true. reflexivity. Qed.

Lemma finish_mild tid t0 t s s' :
  dtxns_ s !! tid = Some t0 -> chr_phase_ t <> DIST_REMOTE_SENT ->
  dist_partition_acks_ t = dist_partition_acks_ t0 -> dist_shard_mgr_acked_ t = dist_shard_mgr_acked_ t0 ->
  finish partition_id tid t s = Some s' -> mild s s'.
Proof.
  intros Ht Hp Ha Hm. unfold finish. destruct (dist_output_ t) as [o|]; [|discriminate]. cbn [mbind option_bind].
  assert (Hput : mild s (put tid t s)) by (eapply mild_put_decided; eauto).
  destruct (execute_callback_ t).
  - now intros [= <-].
  - intros [= <-]. etransitivity; [exact Hput |]. apply mild_emit. now repeat constructor.
  - now intros [= <-].
  - unfold verify. case_bool_decide; [|discriminate]. cbn [mbind option_bind]. cbv zeta.
    set (t1 := t {{ dist_partition_status_ := _ }}).
    assert (H1 : chr_phase_ t1 = chr_phase_ t /\ dist_partition_acks_ t1 = dist_partition_acks_ t
                 /\ dist_shard_mgr_acked_ t1 = dist_shard_mgr_acked_ t) by (unfold t1; now destruct t).
    destruct H1 as (H1 & H2 & H3). clearbody t1.
    destruct (CheckSendOutputToClient tid t1) as [[t2 es]|] eqn:Hc; [|discriminate]. cbn [mbind option_bind].
    intros [= <-]. apply check_send_same in Hc as (H4 & H5 & H6 & H7); [|congruence].
    etransitivity; [|apply mild_emit, H7]. etransitivity; [|apply (mild_put_decided tid t0); [exact Ht | congruence | congruence | exact H4]].
    now apply mild_frame.
  - intros [= <-]. etransitivity; [exact Hput |]. apply mild_emit. destruct (send_output_to_handler_ t); now repeat constructor.
Qed.

Lemma execute_mild tid t pending s s' f pending' :
  dtxns_ s !! tid = Some t -> chr_phase_ t <> DIST_REMOTE_SENT ->
  execute conflict exec partition_id tid pending s = Some (s', f, pending') -> mild s s'.
Proof.
  intros Ht Hp. unfold execute. rewrite Ht. cbn [mbind option_bind].
  case_bool_decide; [now intros [= <- <- <-] |].
  destruct (if _ && _ then _ else _) as [[[[t1 db] out] pd]|] eqn:Hr; [|discriminate]. cbn [mbind option_bind].
  assert (H1 : chr_phase_ t1 = chr_phase_ t /\ dist_partition_acks_ t1 = dist_partition_acks_ t
               /\ dist_shard_mgr_acked_ t1 = dist_shard_mgr_acked_ t).
  { destruct (_ && _); [now injection Hr as <- _ _ _ | eapply run_ready_same, Hr]. }
  destruct H1 as (H1 & H2 & H3). set (s1 := emit _ _).
  assert (Hs1 : mild s s1).
  { unfold s1. etransitivity; [|apply mild_emit, output_events_quiet].
    etransitivity; [|apply (mild_put_decided tid t); [exact Ht | congruence | congruence | congruence]]. now apply mild_frame. }
  assert (Ht1 : dtxns_ s1 !! tid = Some t1) by (unfold s1; cbn; apply lookup_insert_eq).
  clearbody s1. destruct (n_local_pieces_ t1) as [n|]; [|discriminate]. cbn [mbind option_bind].
  destruct (n =? n_executed_pieces t1); [|now intros [= <- <- <-]].
  destruct (finish partition_id tid t1 s1) as [s2|] eqn:Hf; [|discriminate]. intros [= <- <- <-].
  etransitivity; [exact Hs1 |]. eapply (finish_mild tid t1 t1); [exact Ht1 | congruence | done | done | exact Hf].
Qed.

Lemma check_executable_mild q : forall found pending s s',
  check_executable conflict exec site_id partition_id q found pending s = Some s' -> mild s s'.
Proof.
  induction q as [|[ts tid] q IH]; intros found pending s s'; cbn [check_executable]; [now intros [= <-] |].
  destruct (dtxns_ s !! tid) as [t|] eqn:Ht; [|discriminate]. cbn [mbind option_bind].
  destruct (negb (stable t s)); [now intros [= <-] |].
  destruct (Z.ltb_spec (phase_num (chr_phase_ t)) PHASE_CAN_EXE) as [Hp|Hp]; [now intros [= <-] |].
  assert (Hn : chr_phase_ t <> DIST_REMOTE_SENT) by (intros Hx; rewrite Hx in Hp; now cbv in Hp).
  assert (Hex : forall s' f pd, execute conflict exec partition_id tid pending s = Some (s', f, pd) -> mild s s')
    by (intros; eapply execute_mild; eauto).
  destruct (region_handler_ t =? site_id).
  - destruct (if negb _ then _ else _) as [[[s1 f] pd]|] eqn:Hx; [|discriminate]. cbn [mbind option_bind].
    assert (Hs1 : mild s s1).
    { destruct (negb (exe_tried_ t)); [eapply Hex, Hx |]. destruct (new_input_ s); [eapply Hex, Hx |].
      now injection Hx as <- _ _. }
    destruct f.
    + intros H%IH. etransitivity; [exact Hs1 |]. etransitivity; [|exact H]. now apply mild_frame.
    + destruct (max_pending_txns_ <? found + 1); [now intros [= <-] |]. intros H%IH. now transitivity s1.
  - destruct (execute _ _ _ _ _ _) as [[[s1 f] pd]|] eqn:Hx; [|discriminate]. cbn [mbind option_bind].
    intros H%IH. etransitivity; [eapply Hex; reflexivity |]. etransitivity; [|exact H]. now apply mild_frame.
Qed.

Lemma check_txns_mild s s' : CheckExecutableTxns s = Some s' -> mild s s'.
Proof.
  unfold ChrSched.CheckExecutableTxns.
  destruct (check_executable _ _ _ _ _ _ _ _) as [s1|] eqn:H; [|discriminate]. cbn [mbind option_bind].
  intros [= <-]. etransitivity; [eapply check_executable_mild, H |]. now apply mild_frame.
Qed.

Implicit Types s : @site E.

Lemma generate_frame b s s' ts :
  generate clock_at site_id b s = (s', ts) -> dtxns_ s' = dtxns_ s /\ events_ s' = events_ s.
Proof. unfold generate. destruct (GenerateChrTs _ _ _ _) as [c ts']. now intros [= <- _]. Qed.

Lemma generate_mild b s s' ts : generate clock_at site_id b s = (s', ts) -> mild s s'.
Proof. intros [Hd He]%generate_frame. now apply mild_frame. Qed.

Lemma collect_frame site par s s' infos :
  CollectNotifyTxns site_id site par s = Some (s', infos) -> dtxns_ s' = dtxns_ s /\ events_ s' = events_ s.
Proof. unfold CollectNotifyTxns. destruct (mapM _ _) as [xs|]; [|discriminate]. now intros [= <- _]. Qed.

Lemma collect_mild site par s s' infos :
  CollectNotifyTxns site_id site par s = Some (s', infos) -> mild s s'.
Proof. intros [Hd He]%collect_frame. now apply mild_frame. Qed.

Lemma notified_mild site infos : forall s,
  mild s (foldl (fun s info => notified_txn site info s) s infos).
Proof.
  induction infos as [|info infos IH]; intros s; cbn; [done |]. etransitivity; [|apply IH].
  unfold notified_txn. case_bool_decide as Hk; [done |].
  match goal with |- context [put _ ?t s] => transitivity (put (i_txn_id info) t s); [apply mild_new |] end.
  - now apply eq_None_not_Some.
  - intros Hp. cbv in Hp. discriminate Hp.
  - now apply mild_frame.
Qed.

Lemma piggy_mild site ts infos delivered s :
  mild s (HandlePiggyInfo clock_at site_id site ts infos delivered s).
Proof.
  unfold HandlePiggyInfo. cbv zeta. etransitivity; [apply (notified_mild site infos) |].
  set (s1 := foldl _ _ _). clearbody s1. destruct (ltb _ _); [|now apply mild_frame].
  destruct (generate _ _ _ _) as [s2 my] eqn:Hg. apply generate_frame in Hg as [Hd He].
  destruct (unblock _ _ _ _) as [m tss]. apply mild_frame; cbn; destruct (_ <? _); cbn; assumption.
Qed.

Lemma sync_mild ts : forall s s', sync_sites clock_at site_id ts s = Some s' -> mild s s'.
Proof.
  induction ts as [|t ts IH]; intros s s'; cbn [sync_sites]; [now intros [= <-] |].
  destruct (ir_synced s !! t) as [b|]; [|discriminate]. cbn [mbind option_bind].
  destruct (sync_site _ _ _ _ _) as [s1|] eqn:Hs; [|discriminate]. cbn [mbind option_bind].
  intros H%IH. etransitivity; [|exact H]. revert Hs. unfold sync_site. destruct b; cbn [negb mbind option_bind].
  - intros [= <-]. now apply mild_frame.
  - destruct (CollectNotifyTxns _ _ _ _) as [[s2 infos]|] eqn:Hc; [|discriminate]. cbn [mbind option_bind].
    destruct (generate _ _ _ _) as [s3 ts1] eqn:Hg. cbn [mbind option_bind]. intros [= <-].
    apply collect_frame in Hc as [Hd1 He1]. apply generate_frame in Hg as [Hd2 He2]. cbn in Hd2, He2.
    assert (He : events_ s3 = events_ s) by (rewrite <- He1; exact He2).
    eapply mild_ext; [cbn; etransitivity; [exact Hd2 | exact Hd1] | cbn; rewrite He; reflexivity |].
    now repeat constructor.
Qed.

(** *** Submission of an IRT *)
Lemma irt_ts_frame fuel : forall s s' ts,
  irt_ts clock_at site_id fuel s = Some (s', ts) -> dtxns_ s' = dtxns_ s /\ events_ s' = events_ s.
Proof.
  induction fuel as [|fuel IH]; intros s s' ts; cbn [irt_ts]; [discriminate |].
  destruct (generate _ _ _ _) as [s1 ts1] eqn:Hg. apply generate_frame in Hg as [Hd He].
  destruct (ts_find _ _) as [tid|]; [|now intros [= <- _]].
  destruct (dtxns_ s1 !! tid) as [t|]; [|discriminate]. cbn [mbind option_bind].
  unfold verify. case_bool_decide; [|discriminate]. cbn [mbind option_bind]. intros [H1 H2]%IH. split; congruence.
Qed.

(** The requests and the entries for the acknowledgements. *)
Definition extended (s s' : @site E) : Prop :=
  exists es, events_ s' = events_ s ++ es /\ no_decision es.

#[local] Instance extended_preorder : PreOrder extended.
Proof.
  split.
  - intros s. exists []. rewrite app_nil_r. split; [done | constructor].
  - intros s1 s2 s3 (es & He & Hn) (es' & He' & Hn'). exists (es ++ es'). rewrite He', He, app_assoc.
    split; [done | now apply Forall_app].
Qed.

Lemma prepare_sites_frame ts par cmds sites : forall s s',
  prepare_irt_sites site_id ts par cmds sites s = Some s' -> dtxns_ s' = dtxns_ s /\ extended s s'.
Proof.
  induction sites as [|target sites IH]; intros s s'; cbn [prepare_irt_sites]; [now intros [= <-] |].
  destruct (target =? site_id); cbn [mbind option_bind]; [apply IH |].
  destruct (CollectNotifyTxns _ _ _ _) as [[s1 infos]|] eqn:Hc; [|discriminate]. cbn [mbind option_bind].
  apply collect_frame in Hc as [Hd He]. intros [H1 H2]%IH. split; [transitivity (dtxns_ s1); [exact H1 | exact Hd] |].
  etransitivity; [|exact H2]. eexists. cbn. rewrite He. split; [reflexivity | now repeat constructor].
Qed.

Lemma prepare_irt_frame tid ts cmds : forall s s' t,
  prepare_irt site_id SitesByPartitionId tid ts cmds s = Some s' -> dtxns_ s !! tid = Some t ->
  extended s s' /\ exists t', dtxns_ s' = <[tid := t']> (dtxns_ s) /\ chr_phase_ t' = chr_phase_ t.
Proof.
  induction cmds as [|[par cs] cmds IH]; intros s s' t; cbn [prepare_irt].
  - intros [= <-] Ht. split; [reflexivity |]. exists t. now rewrite insert_id.
  - intros H Ht. rewrite Ht in H. cbn [mbind option_bind] in H. revert H.
    set (t1 := t {{ dist_partition_acks_ := _ }}).
    assert (Hp : chr_phase_ t1 = chr_phase_ t) by (unfold t1; now destruct t). clearbody t1.
    destruct (prepare_irt_sites _ _ _ _ _ _) as [s1|] eqn:Hs; [|discriminate]. cbn [mbind option_bind].
    apply prepare_sites_frame in Hs as [Hd He]. cbn in Hd.
    intros [H1 (t' & H2 & H3)]%(fun H => IH _ _ t1 H ltac:(rewrite Hd; apply lookup_insert_eq)).
    split; [etransitivity; [|exact H1]; destruct He as (es & He & Hn); exists es; auto |].
    exists t'. rewrite H2, Hd, insert_insert_eq. split; [reflexivity | congruence].
Qed.

Lemma handle_irt_mild cmds s s' :
  HandleIRT clock_at site_id partition_id SitesByPartitionId cmds s = Some s' -> mild s s'.
Proof.
  unfold HandleIRT. destruct (SlogOrder.txn_of cmds) as [tid|]; [|discriminate]. cbn [mbind option_bind].
  destruct (irt_ts _ _ _ _) as [[s1 ts]|] eqn:Hts; [|discriminate]. cbn [mbind option_bind].
  apply irt_ts_frame in Hts as [Hd He]. unfold CreateDTxn, verify. case_bool_decide as Hn; [|discriminate].
  cbn [mbind option_bind]. destruct (SlogOrder.cmds_at _ _) as [ps|]; [|discriminate]. cbn [mbind option_bind].
  cbv zeta. match goal with |- context [put tid ?t s1] => set (t0 := t) end.
  assert (Hp0 : chr_phase_ t0 = LOCAL_NOT_STORED) by reflexivity. clearbody t0.
  intros H. apply (prepare_irt_frame _ _ _ _ _ t0) in H; [|cbn; apply lookup_insert_eq].
  destruct H as [(es & He' & Hes) (t' & Hd' & Hp)]. cbn in He', Hd'.
  etransitivity; [apply mild_frame; [exact Hd | exact He] |].
  etransitivity; [apply (mild_new tid t'); [exact Hn | congruence] |].
  etransitivity; [apply (mild_emit es), Hes |]. apply mild_frame; [|exact He'].
  now rewrite Hd', insert_insert_eq.
Qed.

(** *** Acknowledgements *)

Lemma notified_known site infos : forall s tid t, dtxns_ s !! tid = Some t ->
  dtxns_ (foldl (fun s info => notified_txn site info s) s infos) !! tid = Some t.
Proof.
  induction infos as [|info infos IH]; intros s tid t Ht; cbn; [exact Ht |]. apply IH.
  unfold notified_txn. case_bool_decide as Hk; [exact Ht |]. cbn. rewrite lookup_insert_ne; [exact Ht |].
  intros Hx. apply Hk. rewrite Hx. eauto.
Qed.

Lemma piggy_known site ts infos delivered s tid t : dtxns_ s !! tid = Some t ->
  dtxns_ (HandlePiggyInfo clock_at site_id site ts infos delivered s) !! tid = Some t.
Proof.
  intros Ht. apply (notified_known site infos) in Ht. revert Ht. unfold HandlePiggyInfo. cbv zeta.
  set (s1 := foldl _ _ _). clearbody s1. intros Ht. destruct (ltb _ _); [|exact Ht].
  destruct (generate _ _ _ _) as [s2 my] eqn:Hg. apply generate_frame in Hg as [Hd He].
  destruct (unblock _ _ _ _) as [m tss]. change (dtxns_ s2 = dtxns_ s1) in Hd. rewrite <- Hd in Ht.
  destruct (_ <? _); exact Ht.
Qed.

(** More acknowledgements. *)
Lemma answered_grow t t' par x :
  dist_partition_acks_ t' = <[par := {[x]} ∪ default ∅ (dist_partition_acks_ t !! par)]> (dist_partition_acks_ t) ->
  (forall p, dist_shard_mgr_acked_ t !! p = Some true -> dist_shard_mgr_acked_ t' !! p = Some true) ->
  forall p, answered t p -> answered t' p.
Proof.
  intros Ha Hm p [H1 H2]. split; [|auto]. rewrite Ha. destruct (decide (p = par)) as [->|Hne].
  - rewrite lookup_insert_eq. cbn. set (old := default ∅ _) in *.
    assert (size old <= size (({[x]} : gset Z) ∪ old))%nat by (apply subseteq_size; set_solver). lia.
  - now rewrite lookup_insert_ne.
Qed.

Lemma irt_ack_mild tid par site res s s' :
  (forall t, dtxns_ s !! tid = Some t -> is_irt_ t = Some true) ->
  PrepareIRTACK conflict exec clock_at site_id partition_id n_replicas tid par site res s = Some s' -> mild s s'.
Proof.
  intros Hirt. unfold PrepareIRTACK. destruct (dtxns_ s !! tid) as [t|] eqn:Ht; [|discriminate].
  specialize (Hirt t eq_refl). cbn [mbind option_bind]. cbv zeta.
  pose proof (piggy_mild site (sr_my_ts res) (sr_my_pending_txns res) (sr_delivered_ts res) s) as Hm.
  apply (piggy_known site (sr_my_ts res) (sr_my_pending_txns res) (sr_delivered_ts res)) in Ht.
  set (s1 := HandlePiggyInfo _ _ _ _ _ _ _) in *. clearbody s1. rewrite Ht. cbn [mbind option_bind].
  case_bool_decide as Hp; [now intros [= <-] |].
  set (t1 := t {{ dist_partition_acks_ := _ }}).
  assert (H1 : is_irt_ t1 = is_irt_ t /\ chr_phase_ t1 = chr_phase_ t
    /\ dist_partition_acks_ t1 = <[par := {[site]} ∪ default ∅ (dist_partition_acks_ t !! par)]> (dist_partition_acks_ t)
    /\ dist_shard_mgr_acked_ t1 = dist_shard_mgr_acked_ t) by (unfold t1; now destruct t).
  destruct H1 as (H1 & H2 & H3 & H4). clearbody t1.
  assert (Hk : kept t t1).
  { split; [congruence |]. apply (answered_grow _ _ par site H3). now rewrite H4. }
  destruct (all_par_majority_acks n_replicas t1).
  - intros H%check_txns_mild. etransitivity; [exact Hm |]. etransitivity; [|exact H].
    apply (mild_put tid t); [exact Ht | | intros Hx; now destruct t1].
    eapply kept_txn_trans; [exact Hk |]. apply kept_answers; [now destruct t1 | now destruct t1 |]. now destruct t1.
  - intros [= <-]. etransitivity; [exact Hm |]. apply (mild_put tid t); [exact Ht | exact Hk |].
    intros _ Hc. destruct Hc. congruence.
Qed.

Lemma prepare_irt_mild cmds req s s' :
  OnPrepareIRT conflict exec clock_at site_id partition_id n_replicas partition_of_site cmds req s = Some s' ->
  mild s s'.
Proof.
  unfold OnPrepareIRT. destruct (head cmds) as [c|]; [|discriminate]. cbn [mbind option_bind].
  destruct (verify _); [|discriminate]. cbn [mbind option_bind]. cbv zeta.
  match goal with |- context [put (root_id_ c) ?t s] => set (t1 := t) end.
  assert (H1 : dist_partition_acks_ t1 = dist_partition_acks_ (GetOrCreateDTxn (root_id_ c) s)
    /\ dist_shard_mgr_acked_ t1 = dist_shard_mgr_acked_ (GetOrCreateDTxn (root_id_ c) s)
    /\ chr_phase_ t1 = LOCAL_CAN_EXE) by (unfold t1; now destruct (GetOrCreateDTxn (root_id_ c) s)).
  destruct H1 as (H1 & H2 & H3). clearbody t1.
  match goal with |- context [ready_put ?a ?b ?c] => set (s1 := ready_put a b c) end.
  assert (M1 : mild s s1).
  { etransitivity; [apply (mild_get_put (root_id_ c) t1); [|congruence] | now apply mild_frame].
    apply kept_answers; congruence. }
  clearbody s1. pose proof (piggy_mild (site_id_ (sl_txn_ts req)) (sl_txn_ts req) (sl_my_txns req)
    (sl_delivered_ts req) s1) as M2. set (s2 := HandlePiggyInfo _ _ _ _ _ _ s1) in *. clearbody s2.
  destruct (CheckExecutableTxns s2) as [s3|] eqn:Hx; [|discriminate]. apply check_txns_mild in Hx.
  cbn [mbind option_bind]. destruct (generate _ _ _ _) as [s4 my] eqn:Hg. apply generate_mild in Hg.
  destruct (CollectNotifyTxns _ _ _ _) as [[s5 infos]|] eqn:Hc; [|discriminate]. cbn [mbind option_bind].
  apply collect_mild in Hc. intros [= <-]. transitivity s1; [exact M1 |]. transitivity s2; [exact M2 |].
  transitivity s3; [exact Hx |]. transitivity s4; [exact Hg |]. transitivity s5; [exact Hc |].
  apply mild_emit. now repeat constructor.
Qed.

(** *** The decision *)

Lemma max_fold_above l : forall m,
  ~ lt (foldl (fun m p => if gtb p.2 m then p.2 else m) m l) m
  /\ forall p : Z * chr_ts, p ∈ l -> ~ lt (foldl (fun m p => if gtb p.2 m then p.2 else m) m l) p.2.
Proof.
  assert (Htr : forall a b c, ~ lt a b -> ~ lt b c -> ~ lt a c) by (unfold lt; lia).
  induction l as [|q l IH]; intros m; cbn.
  - split; [apply lt_irrefl | intros p []%not_elem_of_nil].
  - set (m' := if gtb q.2 m then q.2 else m). destruct (IH m') as [H1 H2].
    assert (Hm : ~ lt m' m /\ ~ lt m' q.2).
    { unfold m'. destruct (gtb_spec q.2 m) as [Hg|Hg]; split; unfold lt in *; lia. }
    split; [now apply (Htr _ m') |]. intros p [->|Hp]%elem_of_cons; [now apply (Htr _ m') | now apply H2].
Qed.

Lemma max_anticipated_above t r ts :
  anticipated_ts_ t !! r = Some ts -> ~ lt (max_anticipated t) ts.
Proof.
  intros Hr. apply (proj2 (max_fold_above (map_to_list (anticipated_ts_ t)) zero_ts) (r, ts)).
  now apply elem_of_map_to_list.
Qed.

Lemma elem_of_keys {A} (m : gmap Z A) k : k ∈ keys m <-> is_Some (m !! k).
Proof. unfold keys. now rewrite merge_sort_Permutation, elem_of_elements, elem_of_dom. Qed.

Hypothesis replicas_positive : 0 < n_replicas.

(** All partitions of a transaction that is not decided have answered. *)
Lemma forward_answered tid t :
  collecting tid t -> can_move_forward t = true ->
  forall par, par ∈ keys (dist_partition_status_ t) ->
    answered t par /\ ~ lt (max_anticipated t) (anticipated tid (par / shards_per_region)).
Proof using replicas_positive.
  intros Hc Hf par [p Hp]%elem_of_keys. unfold can_move_forward in Hf. rewrite forallb_forall in Hf.
  specialize (Hf (par, p)). rewrite <- list_elem_of_In, elem_of_map_to_list in Hf. specialize (Hf Hp).
  destruct (c_status _ _ Hc _ _ Hp) as [->|[-> Ha]]; [discriminate |]. split; [exact Ha |].
  destruct (c_reported _ _ Hc par) as [ts Hts].
  - intros He. destruct Ha as [Ha _]. rewrite He, size_empty in Ha.
    assert (1 <= (n_replicas + 1) / 2) by (apply Z.div_le_lower_bound; lia). lia.
  - rewrite <- (c_anticipated _ _ Hc _ _ Hts). now apply (max_anticipated_above _ (par / shards_per_region)).
Qed.

(** The state that the decision leaves before the scan. *)
Lemma decide_inv tid t t' es max_ts s s' :
  crt_inv s -> dtxns_ s !! tid = Some t -> chr_phase_ t = DIST_REMOTE_SENT -> can_move_forward t = true ->
  max_ts = max_anticipated t ->
  chr_phase_ t' = DIST_CAN_EXE -> dist_partition_acks_ t' = dist_partition_acks_ t ->
  dist_shard_mgr_acked_ t' = dist_shard_mgr_acked_ t -> no_decision es ->
  dtxns_ s' = <[tid := t']> (dtxns_ s) ->
  events_ s' = events_ s ++ ((fun p => SendDistExe p tid max_ts) <$> keys (dist_partition_status_ t)) ++ es ->
  crt_inv s'.
Proof using replicas_positive.
  intros [V1 V2 V3] Ht Hp Hf -> Hp' Ha Hm Hes Hd He.
  assert (Hcase : forall par tid' ts, SendDistExe par tid' ts ∈ events_ s' ->
    (tid' <> tid /\ SendDistExe par tid' ts ∈ events_ s)
    \/ (tid' = tid /\ ts = max_anticipated t /\ par ∈ keys (dist_partition_status_ t))).
  { intros par tid' ts. rewrite He, !elem_of_app. intros [H|[H|H]].
    - left. split; [|exact H]. intros ->. destruct (V2 _ _ _ H) as (t1 & Ht1 & Hn & _). congruence.
    - apply list_elem_of_fmap in H as (p & [= -> -> ->] & H). auto.
    - unfold no_decision in Hes. rewrite Forall_forall in Hes. now apply Hes in H. }
  assert (Hans : forall par, answered t par -> answered t' par) by (intros par; unfold answered; now rewrite Ha, Hm).
  split.
  - intros tid1 t1. rewrite Hd. destruct (decide (tid1 = tid)) as [->|Hne];
      [rewrite lookup_insert_eq; intros [= <-]; congruence | rewrite lookup_insert_ne by auto; apply V1].
  - intros par tid1 ts [[Hne H]|(-> & -> & H)]%Hcase.
    + rewrite Hd, lookup_insert_ne by auto. now apply V2.
    + exists t'. rewrite Hd, lookup_insert_eq.
      destruct (forward_answered tid t (V1 _ _ Ht Hp) Hf par H) as [H1 H2]. split_and!; auto; congruence.
  - intros par par' tid1 ts ts' [[Hne H]|(-> & -> & H)]%Hcase [[Hne' H']|(? & ? & H')]%Hcase; try congruence; eauto.
Qed.

Lemma check_remote_inv tid s s' :
  crt_inv s ->
  CheckRemotePrepared conflict exec clock_at site_id partition_id my_rid shards_per_region SitesByPartitionId tid s = Some s' ->
  crt_inv s'.
Proof using replicas_positive.
  intros V. unfold CheckRemotePrepared. destruct (dtxns_ s !! tid) as [t|] eqn:Ht; [|discriminate].
  cbn [mbind option_bind]. destruct (can_move_forward t) eqn:Hf; [|now intros [= <-]]. cbv zeta.
  set (t1 := t {{ ts_ := max_anticipated t }}).
  assert (H1 : chr_phase_ t1 = chr_phase_ t /\ dist_partition_status_ t1 = dist_partition_status_ t
    /\ dist_partition_acks_ t1 = dist_partition_acks_ t /\ dist_shard_mgr_acked_ t1 = dist_shard_mgr_acked_ t)
    by (unfold t1; now destruct t).
  destruct H1 as (H1 & H2 & H3 & H4). clearbody t1.
  set (s1 := if AllPiecesInputReady t1 then _ else _).
  assert (Hs1 : dtxns_ s1 = dtxns_ s /\ events_ s1 = events_ s) by (unfold s1; now destruct (AllPiecesInputReady t1)).
  clearbody s1. destruct (generate _ _ _ _) as [s2 cur] eqn:Hg. apply generate_frame in Hg as [Hd He].
  destruct Hs1 as [Hd1 He1]. unfold verify at 1. destruct (negb _); [|discriminate]. cbn [mbind option_bind].
  unfold verify. case_bool_decide as Hp; [|discriminate]. cbn [mbind option_bind].
  match goal with |- context [t1 {{ chr_phase_ := DIST_CAN_EXE; anticipated_ts_ := ?a }}] =>
    set (t2 := t1 {{ chr_phase_ := DIST_CAN_EXE; anticipated_ts_ := a }}) end.
  assert (H5 : chr_phase_ t2 = DIST_CAN_EXE /\ dist_partition_acks_ t2 = dist_partition_acks_ t1
    /\ dist_shard_mgr_acked_ t2 = dist_shard_mgr_acked_ t1) by (unfold t2; now destruct t1).
  destruct H5 as (H5 & H6 & H7). clearbody t2. intros H%check_txns_mild. apply (inv_mild _ _ H).
  eapply (decide_inv tid t t2); [exact V | exact Ht | congruence | exact Hf | reflexivity | exact H5 | congruence | congruence
    | | |].
  3: { cbn. rewrite H2. f_equal. change (events_ s2 = events_ s). congruence. }
  - apply Forall_fmap, Forall_true. intros r. unfold noti_wait. cbn. now destruct (_ && _).
  - change (<[tid := t2]> (dtxns_ s2) = <[tid := t2]> (dtxns_ s)). congruence.
Qed.

Lemma check_prepared_inv tid par s s' :
  crt_inv s ->
  check_prepared conflict exec clock_at site_id partition_id my_rid n_replicas shards_per_region SitesByPartitionId tid par s = Some s' ->
  crt_inv s'.
Proof using replicas_positive.
  intros V. unfold check_prepared. destruct (dtxns_ s !! tid) as [t|] eqn:Ht; [|discriminate]. cbn [mbind option_bind].
  destruct (_ && _ && _) eqn:Hc; [|now intros [= <-]]. apply check_remote_inv.
  apply andb_prop in Hc as [[Hs Ha]%andb_prop Hm]. apply bool_decide_eq_true in Hs. apply negb_true_iff, Z.ltb_ge in Ha.
  set (t1 := t {{ dist_partition_status_ := _ }}).
  assert (H1 : chr_phase_ t1 = chr_phase_ t /\ is_irt_ t1 = is_irt_ t
    /\ dist_partition_status_ t1 = <[par := P_REMOTE_PREPARED]> (dist_partition_status_ t)
    /\ dist_partition_acks_ t1 = dist_partition_acks_ t /\ dist_shard_mgr_acked_ t1 = dist_shard_mgr_acked_ t
    /\ anticipated_ts_ t1 = anticipated_ts_ t) by (unfold t1; now destruct t).
  destruct H1 as (H1 & H2 & H3 & H4 & H5 & H6). clearbody t1.
  assert (Hans : forall p, answered t p -> answered t1 p) by (intros p; unfold answered; now rewrite H4, H5).
  apply (inv_mild s); [|exact V]. apply (mild_put tid t); [exact Ht | apply kept_answers; congruence |].
  intros _ [C0 C1 C2 C3]. split; [congruence | | now rewrite H6 | now rewrite H4, H6].
  intros p st. rewrite H3. destruct (decide (p = par)) as [->|Hne];
    [rewrite lookup_insert_eq | rewrite lookup_insert_ne by auto; intros [?|[? ?]]%C1; auto].
  intros [= <-]. right. split; [reflexivity |]. apply Hans. split; [exact Ha |].
  destruct (dist_shard_mgr_acked_ t !! par) as [b|]; cbn in Hm; [now subst b | discriminate].
Qed.

(** *** Answers of the participants *)

(** [x] of partition [par] has answered with [ts]. *)
Lemma answer_mild tid t t' par x ts s :
  dtxns_ s !! tid = Some t -> ts = anticipated tid (par / shards_per_region) ->
  is_irt_ t' = is_irt_ t -> chr_phase_ t' = chr_phase_ t -> dist_partition_status_ t' = dist_partition_status_ t ->
  dist_partition_acks_ t' = <[par := {[x]} ∪ default ∅ (dist_partition_acks_ t !! par)]> (dist_partition_acks_ t) ->
  (forall p, dist_shard_mgr_acked_ t !! p = Some true -> dist_shard_mgr_acked_ t' !! p = Some true) ->
  anticipated_ts_ t' = <[par / shards_per_region := ts]> (anticipated_ts_ t) ->
  mild s (put tid t' s).
Proof.
  intros Ht Hts H1 H2 H3 H4 H5 H6. pose proof (answered_grow t t' par x H4 H5) as Hans.
  apply (mild_put tid t); [exact Ht | split; [congruence | exact Hans] |].
  intros _ [C0 C1 C2 C3]. split; [congruence | | |].
  - intros p st. rewrite H3. intros [?|[? ?]]%C1; auto.
  - intros r ts'. rewrite H6. destruct (decide (r = par / shards_per_region)) as [->|Hne];
      [rewrite lookup_insert_eq; congruence | rewrite lookup_insert_ne by auto; apply C2].
  - intros p. rewrite H4, H6. intros Hp. destruct (decide (p / shards_per_region = par / shards_per_region)) as [->|Hne];
      [rewrite lookup_insert_eq; eauto |].
    rewrite lookup_insert_ne by auto. apply C3. rewrite lookup_insert_ne in Hp; [exact Hp | congruence].
Qed.

Lemma remote_prepared_inv req s s' :
  rp_anticipated_ts req = anticipated (rp_txn_id req) (rp_partition_id req / shards_per_region) ->
  crt_inv s ->
  OnRemotePrepared conflict exec clock_at site_id partition_id my_rid n_replicas shards_per_region
    SitesByPartitionId req s = Some s' -> crt_inv s'.
Proof using All.
  intros Hts V. unfold OnRemotePrepared. cbv zeta.
  destruct (dtxns_ s !! rp_txn_id req) as [t|] eqn:Ht.
  2: { replace (GetOrCreateDTxn (rp_txn_id req) s) with new_txn by (unfold GetOrCreateDTxn; now rewrite Ht).
       change (dist_partition_acks_ new_txn) with (∅ : gmap Z (gset Z)). rewrite lookup_empty. discriminate. }
  replace (GetOrCreateDTxn (rp_txn_id req) s) with t by (unfold GetOrCreateDTxn; now rewrite Ht).
  destruct (dist_partition_acks_ t !! rp_partition_id req) as [acks|] eqn:Ha; [|discriminate].
  cbn [mbind option_bind]. apply check_prepared_inv.
  apply (inv_mild s); [|exact V].
  apply (answer_mild _ t _ (rp_partition_id req) (rp_site_id req) (rp_anticipated_ts req)); [exact Ht | exact Hts | | | | | |];
    try (destruct (_ =? _); now destruct t).
  - rewrite Ha. destruct (_ =? _); now destruct t.
  - intros p Hp. destruct (_ =? _); [|now destruct t]. destruct t. cbn in *.
    destruct (decide (p = rp_partition_id req)) as [->|Hne];
      [apply lookup_insert_eq | rewrite lookup_insert_ne by auto; exact Hp].
Qed.

Lemma prepare_crt_inv c cmds req s s' :
  pc_anticipated_ts req = anticipated (root_id_ c) (partition_id / shards_per_region) ->
  crt_inv s ->
  OnPrepareCRT conflict exec clock_at site_id partition_id my_rid n_replicas shards_per_region
    SitesByPartitionId (c :: cmds) req s = Some s' -> crt_inv s'.
Proof using All.
  intros Hts V. unfold OnPrepareCRT. cbn [head mbind option_bind].
  destruct (verify (negb (ts_mem _ _))); [|discriminate]. cbn [mbind option_bind].
  destruct (verify (negb (ready_count _ _))); [|discriminate]. cbn [mbind option_bind].
  destruct (dtxns_ s !! root_id_ c) as [t|] eqn:Ht.
  - case_bool_decide as Hp.
    + apply check_prepared_inv. eapply inv_mild; [|exact V].
      match goal with |- mild s (tss_add _ ?p) => transitivity p; [|now apply mild_frame] end.
      apply (answer_mild _ t _ partition_id site_id (pc_anticipated_ts req)); [exact Ht | exact Hts | | | | | |];
        try now destruct t.
      intros p H. destruct t. cbn in *. destruct (decide (p = partition_id)) as [->|Hne];
        [apply lookup_insert_eq | rewrite lookup_insert_ne by auto; exact H].
    + intros [= <-]. destruct (input_ready_ t =? 1); [|exact V]. apply (inv_mild s); [|exact V].
      apply (mild_put_decided _ t); [exact Ht | now destruct t | now destruct t |]. now destruct t.
  - intros [= <-]. apply (inv_mild s); [|exact V]. etransitivity; [|apply mild_emit; now repeat constructor].
    match goal with |- mild s (ready_put _ _ (put ?i ?t ?s')) => set (t0 := t); transitivity (put i t0 s') end;
      [|now apply mild_frame].
    assert (Hp : chr_phase_ t0 = PHASE_EMPTY) by reflexivity. clearbody t0.
    transitivity (tss_add (pc_anticipated_ts req) s); [now apply mild_frame |].
    apply mild_new; [exact Ht | congruence].
Qed.

Lemma dist_exe_mild tid ts s s' :
  OnDistExe conflict exec site_id partition_id tid ts s = Some s' -> mild s s'.
Proof.
  unfold OnDistExe. destruct (dtxns_ s !! tid) as [t|] eqn:Ht.
  - cbv zeta. unfold verify. destruct (negb _); [|discriminate]. cbn [mbind option_bind].
    match goal with |- context [put tid ?t ?s] => set (t1 := t) end.
    assert (H1 : dist_partition_acks_ t1 = dist_partition_acks_ t /\ dist_shard_mgr_acked_ t1 = dist_shard_mgr_acked_ t
      /\ chr_phase_ t1 = DIST_CAN_EXE) by (unfold t1; now destruct t).
    destruct H1 as (H1 & H2 & H3). clearbody t1.
    set (s1 := if AllPiecesInputReady t1 then _ else _).
    assert (Hs1 : dtxns_ s1 = dtxns_ s /\ events_ s1 = events_ s) by (unfold s1; now destruct (AllPiecesInputReady t1)).
    clearbody s1. destruct Hs1 as [Hd He]. intros H%check_txns_mild.
    transitivity s1; [now apply mild_frame |]. etransitivity; [|exact H].
    etransitivity; [|apply mild_emit; destruct (_ =? _); now repeat constructor].
    apply (mild_put_decided tid t); congruence.
  - intros [= <-]. apply mild_new; [exact Ht | discriminate].
Qed.

Lemma dist_exe_ack_mild tid par ts out leader s s' :
  crt_inv s -> SendDistExe par tid ts ∈ events_ s -> DistExeAck tid par out leader s = Some s' -> mild s s'.
Proof.
  intros V He. destruct (v_decided _ V _ _ _ He) as (t & Ht & Hp & _). unfold DistExeAck.
  replace (GetOrCreateDTxn tid s) with t by (unfold GetOrCreateDTxn; now rewrite Ht). destruct (leader =? 0); [now intros [= <-] |].
  destruct (dist_output_ t) as [o|]; [|discriminate]. cbn [mbind option_bind].
  unfold verify. case_bool_decide; [|discriminate]. cbn [mbind option_bind].
  set (t1 := t {{ dist_output_ := _; dist_partition_status_ := _ }}).
  assert (H1 : dist_partition_acks_ t1 = dist_partition_acks_ t /\ dist_shard_mgr_acked_ t1 = dist_shard_mgr_acked_ t
    /\ chr_phase_ t1 = chr_phase_ t) by (unfold t1; now destruct t).
  destruct H1 as (H1 & H2 & H3). clearbody t1.
  destruct (CheckSendOutputToClient tid t1) as [[t2 es]|] eqn:Hc; [|discriminate]. cbn [mbind option_bind].
  apply check_send_same in Hc as (H4 & H5 & H6 & H7); [|congruence]. intros [= <-].
  etransitivity; [|apply mild_emit, H7]. apply (mild_put_decided tid t); congruence.
Qed.

Lemma send_output_mild tid vars s s' :
  OnSendOutput conflict exec site_id partition_id my_rid tid vars s = Some s' -> mild s s'.
Proof.
  unfold OnSendOutput. destruct (dtxns_ s !! tid) as [t|] eqn:Ht; [|now intros [= <-]]. cbv zeta.
  set (t1 := t {{ input_ready_ := 2 }}). destruct (is_irt_ t1) as [irt|]; [|discriminate]. cbn [mbind option_bind].
  set (s1 := if irt then _ else _).
  assert (M1 : mild s s1 /\ dtxns_ s1 = dtxns_ s).
  { unfold s1. destruct irt; [now split |]. split; [|now destruct (_ || _)].
    etransitivity; [|apply mild_emit; now repeat constructor]. destruct (_ || _); now apply mild_frame. }
  destruct M1 as [M1 Hd]. clearbody s1. destruct (MergeCheckReadyPieces vars (tpieces t1)) as [ps more].
  set (t2 := t1 {{ tpieces := ps }}).
  assert (M2 : mild s1 (put tid t2 s1)).
  { apply (mild_put tid t); [now rewrite Hd | apply kept_answers; now destruct t |]. unfold t2, t1.
    intros _ [C0 C1 C2 C3]. unfold answered in C1. destruct t. split; assumption. }
  set (s2 := (put tid t2 s1) {{ new_input_ := true }}).
  assert (M3 : mild s s2).
  { etransitivity; [exact M1 |]. etransitivity; [exact M2 |]. now apply mild_frame. }
  clearbody s2. destruct (_ && _); [|now intros [= <-]]. intros H%check_txns_mild. now transitivity s2.
Qed.

(** *** Submission of a CRT *)
Lemma foldl_insert_lookup {A} (v : A) ps : forall (m : gmap Z A) k x,
  foldl (fun m p => <[p := v]> m) m ps !! k = Some x -> x = v \/ m !! k = Some x.
Proof.
  induction ps as [|p ps IH]; intros m k x; cbn; [auto |]. intros [->|H]%IH; [auto |].
  destruct (decide (k = p)) as [->|Hne]; [rewrite lookup_insert_eq in H | rewrite lookup_insert_ne in H by auto; auto].
  injection H as ->. auto.
Qed.

Lemma submit_crt_mild rcmds s s' :
  (forall r m tid, head rcmds = Some (r, m) -> SlogOrder.txn_of m = Some tid -> dtxns_ s !! tid = None) ->
  OnSubmitCRT clock_at site_id partition_id n_replicas shards_per_region rcmds s = Some s' -> mild s s'.
Proof.
  intros Hfresh. unfold OnSubmitCRT. destruct (head rcmds) as [[r m]|]; [|discriminate]. cbn [mbind option_bind].
  destruct (SlogOrder.txn_of m) as [tid|] eqn:Htid; [|discriminate]. cbn [mbind option_bind].
  specialize (Hfresh r m tid eq_refl Htid). unfold verify. destruct (negb _); [|discriminate].
  cbn [mbind option_bind]. cbv zeta.
  set (s0 := s {{ distributed_txns_by_me_ := _ }}).
  assert (Ht0 : GetOrCreateDTxn tid s0 = new_txn) by (unfold GetOrCreateDTxn; change (dtxns_ s0) with (dtxns_ s); now rewrite Hfresh).
  assert (M0 : mild s s0) by now apply mild_frame.
  rewrite Ht0. destruct (generate _ _ _ _) as [s1 src] eqn:Hg. apply generate_frame in Hg as [Hd He].
  intros [= <-]. transitivity s1; [etransitivity; [exact M0 | now apply mild_frame] |].
  etransitivity; [|apply mild_emit, Forall_fmap, Forall_true; reflexivity].
  apply mild_new; [now rewrite Hd |]. intros _. destruct (waits_for_input rcmds); split.
  all: try reflexivity.
  all: try (intros par p Hp; cbn in Hp; left; apply foldl_insert_lookup in Hp as [?|Hp]; [assumption | now rewrite lookup_empty in Hp]).
  all: try (intros r' ts' Hr; cbn in Hr; now rewrite lookup_empty in Hr).
  all: intros par Hn; exfalso; apply Hn; cbn; destruct (foldl _ _ _ !! par) as [a|] eqn:Hl; [|reflexivity];
    apply foldl_insert_lookup in Hl as [->|Hl]; [reflexivity | now rewrite lookup_empty in Hl].
Qed.

Lemma crt_step_inv s s' : step s s' -> crt_inv s -> crt_inv s'.
Proof using All.
  intros Hs V. destruct Hs.
  - eapply inv_mild; [eapply handle_irt_mild; eassumption | exact V].
  - eapply inv_mild; [eapply submit_crt_mild; eassumption | exact V].
  - eapply inv_mild; [eapply irt_ack_mild; eassumption | exact V].
  - eapply inv_mild; [eapply prepare_irt_mild; eassumption | exact V].
  - eapply remote_prepared_inv; eassumption.
  - eapply prepare_crt_inv; eassumption.
  - eapply inv_mild; [eapply dist_exe_mild; eassumption | exact V].
  - eapply inv_mild; [eapply dist_exe_ack_mild; eassumption | exact V].
  - eapply inv_mild; [eapply send_output_mild; eassumption | exact V].
  - eapply inv_mild; [|exact V]. revert H. unfold OnNotiCRT, verify. case_bool_decide; [|discriminate].
    intros [= <-]. now apply mild_frame.
  - eapply inv_mild; [|exact V]. unfold OnNotiCommit. cbv zeta. destruct (_ =? _); now apply mild_frame.
  - eapply inv_mild; [|exact V]. revert H. unfold OnIRSync. intros H%check_txns_mild.
    etransitivity; [apply piggy_mild | exact H].
  - eapply inv_mild; [|exact V]. eapply sync_mild; eassumption.
Qed.

Lemma crt_init_inv db offset region_sites : crt_inv (site_init site_id db offset region_sites).
Proof.
  split.
  - intros tid t H. cbn in H. now rewrite lookup_empty in H.
  - intros par tid ts []%not_elem_of_nil.
  - intros par par' tid ts ts' []%not_elem_of_nil.
Qed.

(** C8. The coordinator of a transaction of several regions sends the decision to a partition
    only after a majority of the replicas of that partition and its leader have prepared the
    transaction; the timestamp it decides is the same for all partitions and is not before the
    one that the manager of any of their regions anticipated.  It holds in every state that the
    handlers of a site reach. *)
Theorem crt_decided_by_majority db offset region_sites s :
  rtc step (site_init site_id db offset region_sites) s ->
  (forall par tid ts, SendDistExe par tid ts ∈ events_ s ->
     exists t, dtxns_ s !! tid = Some t /\ answered t par
       /\ ~ lt ts (anticipated tid (par / shards_per_region)))
  /\ (forall par par' tid ts ts', SendDistExe par tid ts ∈ events_ s ->
       SendDistExe par' tid ts' ∈ events_ s -> ts = ts').
Proof using All.
  intros Hr. assert (V : crt_inv s).
  { generalize (crt_init_inv db offset region_sites). induction Hr as [|s1 s2 s3 Hs _ IH]; [auto |].
    intros V. apply IH. now apply (crt_step_inv s1). }
  split; [|apply (v_once _ V)]. intros par tid ts H. destruct (v_decided _ V _ _ _ H) as (t & ? & _ & ? & ?). eauto.
Qed.
End Crt.
End ChrCrt.
