(* ===== verification/ChrManager.v ===== *)
(** * The region managers of DAST

    [DastManager] (deptran/chronos/manager.h and .cc): the manager of a region anticipates
    the timestamp of a transaction of several regions, prepares it at the sites it touches and
    announces it to the other sites of the region.

    A manager has a clock of its own.  Of the loop [IRSyncLoop] that it inherits from the
    sites the readings of this clock are modelled, not the messages with them.  [PrepareCRT]
    and [NotiWait] are one step each; in the sources the clock, the anticipated timestamp and
    the pending timestamps are changed in separate critical sections.  The leader that
    [RandomGenerator::rand] picks for a partition is an argument. *)

From Stdlib Require Import ZArith Lia Sorting.Sorted.
From stdpp Require Import base list option gmap sets relations.
From coqutil Require Import Datatypes.RecordSetters.
From S2P Require Import Prelude ALock MemSchema PieceExec SlogOrder ChrTs ChrSched.
Import DoubleBraceUpdate.
Local Open Scope Z_scope.

Module ChrManager.
Import ChrTs ChrSched.

Inductive mevent :=
  | SendPrepareCRT (site : Z) (cmds : list SimpleCommand) (req : PrepareCRTReq)
  | SendNotiCRT (site : Z) (req : NotiCRTReq)
  | SendNotiCommit (site : Z) (req : NotiReq).

Record manager := {
  mclk : clock;
  max_future_ts_ : chr_ts;
  mevents : list mevent }.

Definition manager_init (offset : Z) : manager :=
  {| mclk := {| last_clock_ := zero_ts; clock_offset_ := offset; dist_txn_tss_ := []; reads_ := 0 |};
     max_future_ts_ := zero_ts; mevents := [] |}.

Section Manager.
(** The physical clock, the site whose process runs the manager and the configuration. *)
Context (clock_at : nat -> Z) (site_id mgr_rid mgr_siteid shards_per_region : Z)
  (SitesByPartitionId : Z -> list Z).

(** The partitions of the region. *)
Definition region_pars : list Z :=
  (fun i => mgr_rid * shards_per_region + Z.of_nat i) <$> seq 0 (Z.to_nat shards_per_region).

Definition memit (es : list mevent) (m : manager) : manager := m {{ mevents := mevents m ++ es }}.
Definition set_pending (tss : tsset) (m : manager) : manager := m {{ mclk := (mclk m) {{ dist_txn_tss_ := tss }} }}.

Definition NotiWait (req : NotiReq) (m : manager) : manager :=
  let es := par ← region_pars; site ← SitesByPartitionId par;
            if bool_decide (site ∈ nw_touched_sites req) then [] else [SendNotiCommit site req] in
  let tss := ts_erase (nw_original_ts req) (dist_txn_tss_ (mclk m)) in
  let tss := if negb (nw_need_input_wait req =? 0) then ts_add (nw_new_ts req) tss else tss in
  set_pending tss (memit es m).

(** The leader of a partition sends the outputs. *)
Definition shard_leader (rand : nat) (par coord : Z) : option Z :=
  if coord / SlogOrder.N_REP_PER_SHARD =? par then Some coord else SitesByPartitionId par !! rand.

(** The requests to the sites of the partitions that the transaction touches. *)
Fixpoint prepare_pars (rand : Z -> nat) (ts src_ts : chr_ts) (par_input_ready : gmap Z Z) (cmds_by_par : cmd_map) :
    option (list mevent) :=
  match cmds_by_par with
  | [] => Some []
  | (par, cmds) :: rest =>
      _ ← verify (par / shards_per_region =? mgr_rid);
      ready ← par_input_ready !! par;
      leader ← shard_leader (rand par) par (site_id_ src_ts);
      es ← prepare_pars rand ts src_ts par_input_ready rest;
      Some (((fun site => SendPrepareCRT site cmds
                {| pc_anticipated_ts := ts; pc_shard_leader := leader; pc_coord_site := site_id_ src_ts;
                   pc_input_ready := ready |}) <$> SitesByPartitionId par) ++ es)
  end.

Definition PrepareCRT (rand : Z -> nat) (cmds_by_par : cmd_map) (par_input_ready : gmap Z Z) (src_ts : chr_ts)
    (m : manager) : option manager :=
  tid ← SlogOrder.txn_of cmds_by_par;
  let '(c, my_ts) := GenerateChrTs clock_at site_id true (mclk m) in
  let ts := CalculateAnticipatedTs mgr_siteid src_ts my_ts (max_future_ts_ m) in
  es ← prepare_pars rand ts src_ts par_input_ready cmds_by_par;
  let touched_sites : gset Z := list_to_set (par ← cmds_by_par.*1; SitesByPartitionId par) in
  let others := List.filter (fun par => bool_decide (SlogOrder.cmds_at par cmds_by_par = None)) region_pars in
  let notis := par ← others; site ← SitesByPartitionId par;
               [SendNotiCRT site {| nc_txn_id := tid; nc_anticipated_ts := ts; nc_touched_sites := touched_sites |}] in
  Some (memit (es ++ notis)
    {| mclk := c {{ dist_txn_tss_ := ts_add ts (dist_txn_tss_ c) }}; max_future_ts_ := ts; mevents := mevents m |}).

(** ** Runs of a manager

    The coordinator that reports a wait has a timestamp that is not before the one this manager
    anticipated, which is still pending.  The loop over the sites of the region reads the clock
    at any time. *)
Inductive mstep (m : manager) : manager -> Prop :=
  | do_prepare rand cmds_by_par ready src m' :
      PrepareCRT rand cmds_by_par ready src m = Some m' -> mstep m m'
  | do_noti_wait req :
      (nw_need_input_wait req <> 0 -> is_Some (ts_find (nw_original_ts req) (dist_txn_tss_ (mclk m)))
         /\ timestamp_ (nw_original_ts req) <= timestamp_ (nw_new_ts req)
         /\ stretch_counter_ (nw_new_ts req) = 0) ->
      mstep m (NotiWait req m)
  | do_sync : mstep m (m {{ mclk := (GenerateChrTs clock_at site_id true (mclk m)).1 }}).

(** The timestamp that a message announces, and the site it goes to. *)
Definition announced (e : mevent) : option chr_ts :=
  match e with
  | SendPrepareCRT _ _ req => Some (pc_anticipated_ts req)
  | SendNotiCRT _ req => Some (nc_anticipated_ts req)
  | SendNotiCommit _ _ => None
  end.
Definition target (e : mevent) : Z :=
  match e with SendPrepareCRT s _ _ | SendNotiCRT s _ | SendNotiCommit s _ => s end.

Record manager_ok (m : manager) : Prop := {
  g_clock : clock_ok (mclk m);
  g_counter : stretch_counter_ (max_future_ts_ m) = 0;
  g_given : forall e ts, e ∈ mevents m -> announced e = Some ts -> ~ lt (max_future_ts_ m) ts }.

Lemma prepare_pars_announce rand ts src ready cmds : forall es,
  prepare_pars rand ts src ready cmds = Some es ->
  (forall e, e ∈ es -> announced e = Some ts)
  /\ forall par site, is_Some (SlogOrder.cmds_at par cmds) -> site ∈ SitesByPartitionId par ->
       exists e, e ∈ es /\ target e = site.
Proof.
  induction cmds as [|[par cs] cmds IH]; intros es; cbn [prepare_pars].
  - intros [= <-]. split; [intros e []%not_elem_of_nil | intros par site [x Hx]; discriminate].
  - destruct (verify _); [|discriminate]. cbn [mbind option_bind].
    destruct (ready !! par) as [rd|]; [|discriminate]. cbn [mbind option_bind].
    destruct (shard_leader _ _ _) as [ld|]; [|discriminate]. cbn [mbind option_bind].
    destruct (prepare_pars _ _ _ _ _) as [es'|]; [|discriminate]. cbn [mbind option_bind]. intros [= <-].
    destruct (IH es' eq_refl) as [H1 H2]. split.
    + intros e. rewrite elem_of_app, list_elem_of_fmap. intros [(site & -> & _)|H]; [reflexivity | now apply H1].
    + intros par' site Hc Hs. unfold SlogOrder.cmds_at in Hc. cbn in Hc.
      destruct (Z.eqb_spec par par') as [->|Hne].
      * eexists. rewrite elem_of_app, list_elem_of_fmap. split; [left; eauto | reflexivity].
      * destruct (H2 par' site Hc Hs) as (e & He & Ht). exists e. rewrite elem_of_app. auto.
Qed.

Section Runs.
Hypothesis clock_positive : forall n, 0 < clock_at n.

(** What a request does. *)
Lemma prepare_crt_ok rand cmds ready src m m' :
  manager_ok m -> PrepareCRT rand cmds ready src m = Some m' ->
  exists ts es, manager_ok m' /\ mevents m' = mevents m ++ es /\ lt (max_future_ts_ m) ts
    /\ timestamp_ src + estimated_rtt <= timestamp_ ts
    /\ is_Some (ts_find ts (dist_txn_tss_ (mclk m')))
    /\ (forall e, e ∈ es -> announced e = Some ts)
    /\ forall par site, par ∈ region_pars -> site ∈ SitesByPartitionId par -> exists e, e ∈ es /\ target e = site.
Proof using clock_positive.
  intros [Hc H0 Hg]. unfold PrepareCRT. destruct (SlogOrder.txn_of cmds) as [tid|]; [|discriminate].
  cbn [mbind option_bind]. pose proof (generate_ok clock_at site_id clock_positive (mclk m) Hc) as Hc'.
  assert (Hlast : last_clock_ (GenerateChrTs clock_at site_id true (mclk m)).1
                  = (GenerateChrTs clock_at site_id true (mclk m)).2) by reflexivity.
  destruct (GenerateChrTs _ _ _ _) as [c my]. cbn [fst snd] in *.
  destruct (anticipated_above mgr_siteid src my (max_future_ts_ m)) as (A1 & A2 & A3).
  set (ts := CalculateAnticipatedTs _ _ _ _) in *. clearbody ts. specialize (A3 H0).
  destruct (prepare_pars _ _ _ _ _) as [es|] eqn:Hp; [|discriminate]. cbn [mbind option_bind].
  apply prepare_pars_announce in Hp as [P1 P2]. intros [= <-].
  match goal with |- context [es ++ ?n] => set (notis := n) end.
  assert (N1 : forall e, e ∈ notis -> announced e = Some ts).
  { intros e. unfold notis. rewrite list_elem_of_bind. intros (par & H & _). revert H. rewrite list_elem_of_bind.
    intros (site & H & _). apply list_elem_of_singleton in H as ->. reflexivity. }
  assert (Hes : forall e, e ∈ es ++ notis -> announced e = Some ts) by (intros e [H|H]%elem_of_app; auto).
  assert (Hlt : timestamp_ (last_clock_ c) < timestamp_ ts) by (rewrite Hlast; unfold estimated_rtt in A2; lia).
  exists ts, (es ++ notis). split_and!.
  - split; cbn [mclk max_future_ts_ mevents memit]; [now apply clock_ok_add | exact A3 |].
    intros e t [H|H]%elem_of_app He; [|rewrite (Hes e H) in He; injection He as <-; apply lt_irrefl].
    change (~ lt ts t). specialize (Hg e t H He). unfold lt in *. lia.
  - reflexivity.
  - exact A1.
  - lia.
  - cbn. unfold ts_add. rewrite ts_find_put by apply (k_sorted _ Hc').
    destruct (eqb_spec ts ts); [eauto | contradiction].
  - exact Hes.
  - intros par site Hpar Hsite. destruct (SlogOrder.cmds_at par cmds) eqn:Hat.
    + destruct (P2 par site) as (e & He & Ht); [rewrite Hat; eauto | exact Hsite |]. exists e.
      rewrite elem_of_app. auto.
    + eexists (SendNotiCRT site _). rewrite elem_of_app. split; [right | reflexivity]. unfold notis. rewrite list_elem_of_bind.
      exists par. rewrite list_elem_of_bind. split; [exists site; split; [now apply list_elem_of_singleton | exact Hsite] |].
      rewrite list_elem_of_In, filter_In, <- list_elem_of_In. split; [exact Hpar | now apply bool_decide_eq_true].
Qed.

Lemma noti_wait_ok req m :
  (nw_need_input_wait req <> 0 -> is_Some (ts_find (nw_original_ts req) (dist_txn_tss_ (mclk m)))
     /\ timestamp_ (nw_original_ts req) <= timestamp_ (nw_new_ts req)
     /\ stretch_counter_ (nw_new_ts req) = 0) ->
  manager_ok m -> manager_ok (NotiWait req m).
Proof.
  intros Hreq [Hc H0 Hg]. unfold NotiWait. cbv zeta. set (es := _ ≫= _). set (tss := if negb _ then _ else _).
  assert (Hes : forall e, e ∈ es -> announced e = None).
  { intros e. unfold es. rewrite list_elem_of_bind. intros (par & H & _). revert H. rewrite list_elem_of_bind.
    intros (site & H & _). case_bool_decide; [now apply not_elem_of_nil in H |].
    apply list_elem_of_singleton in H as ->. reflexivity. }
  assert (Hk : clock_ok ((mclk m) {{ dist_txn_tss_ := tss }})).
  { unfold tss. pose proof (clock_ok_erase _ (nw_original_ts req) Hc) as Hc'.
    destruct (Z.eqb_spec (nw_need_input_wait req) 0) as [Hz|Hz]; cbn [negb]; [exact Hc' |].
    destruct (Hreq Hz) as ([x Hx] & Hle & Hs). apply ts_find_elem in Hx.
    apply (clock_ok_add _ (nw_new_ts req) Hc' Hs). pose proof (k_gap _ Hc _ Hx) as Hgap.
    change (timestamp_ (last_clock_ (mclk m)) < timestamp_ (nw_new_ts req)). cbn [fst] in Hgap. lia. }
  clearbody tss. split; [exact Hk | exact H0 |].
  intros e t [H|H]%elem_of_app He; [now apply (Hg e) | rewrite (Hes e H) in He; discriminate].
Qed.

Lemma mstep_ok m m' : mstep m m' -> manager_ok m -> manager_ok m'.
Proof using clock_positive.
  intros [rand cmds ready src m1 H|req H|] G; [|now apply noti_wait_ok|].
  - now destruct (prepare_crt_ok _ _ _ _ _ _ G H) as (ts & es & ? & _).
  - destruct G as [Hc H0 Hg]. split; [now apply generate_ok | exact H0 | exact Hg].
Qed.

Lemma manager_init_ok offset : 0 <= offset -> manager_ok (manager_init offset).
Proof.
  intros Ho. split; [split; cbn; auto; [constructor | |]; intros p []%not_elem_of_nil | reflexivity |].
  intros e ts []%not_elem_of_nil.
Qed.

(** C10. In every run of a region manager, a request to prepare a transaction announces one
    timestamp to every site of the region, be it touched or not.  The timestamp is after every
    one announced before, at least the estimated round trip after that of the coordinator, and
    stays pending; the clock of the manager remains before all timestamps that are pending.
    Requests are handled one after the other. *)
Theorem anticipated_in_order offset m rand cmds ready src m' :
  0 <= offset -> rtc mstep (manager_init offset) m -> PrepareCRT rand cmds ready src m = Some m' ->
  exists ts es, mevents m' = mevents m ++ es
    /\ (forall e, e ∈ es -> announced e = Some ts)
    /\ (forall par site, par ∈ region_pars -> site ∈ SitesByPartitionId par -> exists e, e ∈ es /\ target e = site)
    /\ (forall e ts', e ∈ mevents m -> announced e = Some ts' -> lt ts' ts)
    /\ timestamp_ src + estimated_rtt <= timestamp_ ts
    /\ is_Some (ts_find ts (dist_txn_tss_ (mclk m')))
    /\ forall p, p ∈ dist_txn_tss_ (mclk m') -> lt (last_clock_ (mclk m')) p.1.
Proof using clock_positive.
  intros Ho Hr Hx. assert (G : manager_ok m).
  { generalize (manager_init_ok offset Ho). induction Hr as [|m1 m2 m3 Hs _ IH]; [auto |].
    intros G. now apply IH, (mstep_ok m1). }
  destruct (prepare_crt_ok _ _ _ _ _ _ G Hx) as (ts & es & G' & He & Hl & Hs & Hp & Ha & Ht).
  exists ts, es. split_and!; auto.
  - intros e ts' Hin Hann. pose proof (g_given _ G _ _ Hin Hann) as Hn. unfold lt in *. lia.
  - intros p Hin. pose proof (k_gap _ (g_clock _ G') _ Hin). left. assumption.
Qed.
End Runs.
End Manager.
End ChrManager.
