(* ===== verification/ChrExec.v ===== *)
(** * Execution of the queue of a DAST site

    What [CheckExecutableTxns] (deptran/chronos/scheduler.cc) does with the transactions of
    [ready_txns_], against a specification that runs one piece at a time: a piece runs when
    its inputs are there, all transactions with a lower timestamp in the queue may execute,
    and no piece of theirs that is not executed conflicts with it, unless the scan passed the
    earlier transaction over because it was tried before and no input has arrived since. *)

From Stdlib Require Import ZArith Lia Sorting.Sorted.
From stdpp Require Import base list option gmap sets relations sorting.
From coqutil Require Import Datatypes.RecordSetters.
From S2P Require Import Prelude ALock MemSchema PieceExec SlogOrder SlogSched SlogExec ChrTs ChrSched.
Import DoubleBraceUpdate.
Local Open Scope Z_scope.

Module ChrExec.
Import ChrTs ChrSched.

Section Exec.
Context {E : Type} (conflict : Z -> Z -> bool)
  (exec : Z -> SimpleCommand -> E -> option (E * output_map)).
Context (site_id partition_id : Z).
Implicit Types s : @site E.

Abbreviation pieces_map := (gmap Z (list SimpleCommand)).
Abbreviation later := SlogExec.later.
Abbreviation unexecuted := SlogSched.unexecuted.

#[local] Existing Instance SlogExec.later_preorder.

Definition view s : E * pieces_map := (db_ s, tpieces <$> dtxns_ s).

(** ** The specification *)

Definition may_run s (tid : Z) : Prop :=
  exists t, dtxns_ s !! tid = Some t /\ stable t s = true /\ PHASE_CAN_EXE <= phase_num (chr_phase_ t).

(** Tried before by this site, and no input since. *)
Definition passed_over s (tid : Z) : Prop :=
  exists t, dtxns_ s !! tid = Some t /\ new_input_ s = false /\ exe_tried_ t = true /\ region_handler_ t = site_id.

(** The scan begins in [s0]. *)
Inductive ready_step s0 : E * pieces_map -> E * pieces_map -> Prop :=
  | run_next j ts tid i c ps ps' tg P db db' out :
      ready_txns_ s0 !! j = Some (ts, tid) -> P !! tid = Some ps -> ps !! i = Some c ->
      input_ready c = true -> local_executed_ c = false -> inputs_there c ->
      (forall k e, (k <= j)%nat -> ready_txns_ s0 !! k = Some e -> may_run s0 e.2) ->
      (forall k e, (k < j)%nat -> ready_txns_ s0 !! k = Some e -> passed_over s0 e.2 \/
         exists ps1, P !! e.2 = Some ps1
           /\ forall p, p ∈ ps1 -> local_executed_ p = false -> conflict (inn_id_ p) (inn_id_ c) = false) ->
      exec tid c db = Some (db', out) ->
      GetOutputsTargets out (<[i := set_local_executed true c]> ps) = Some tg ->
      ps' = (if bool_decide (partition_id ∈ tg)
             then (MergeCheckReadyPieces out (<[i := set_local_executed true c]> ps)).1
             else <[i := set_local_executed true c]> ps) ->
      ready_step s0 (db, P) (db', <[tid := ps']> P).

(** ** One transaction *)

(** The pieces of the first [j] transactions that are not executed are pending. *)
Definition clear s0 (j : nat) (pending : gset Z) (P : pieces_map) : Prop :=
  forall k e, (k < j)%nat -> ready_txns_ s0 !! k = Some e ->
    passed_over s0 e.2 \/ exists ps, P !! e.2 = Some ps /\ unexecuted ps ⊆ pending.

Lemma pending_later s0 j pending pending' P tid ps ps' :
  clear s0 j pending P -> P !! tid = Some ps -> later ps ps' -> pending ⊆ pending' ->
  clear s0 j pending' (<[tid := ps']> P).
Proof.
  intros Hc Hp Hl Hs k e Hk Hq. destruct (Hc k e Hk Hq) as [?|(ps1 & Hp1 & Hsub)]; [auto |]. right.
  destruct (decide (e.2 = tid)) as [He|Hne].
  - exists ps'. rewrite He, lookup_insert_eq. rewrite He, Hp in Hp1. injection Hp1 as <-. split; [done |].
    pose proof (SlogExec.later_unexecuted conflict exec _ _ Hl). set_solver.
  - exists ps1. rewrite lookup_insert_ne by auto. split; [done | set_solver].
Qed.

Definition all_may_run s0 (j : nat) : Prop :=
  forall k e, (k < j)%nat -> ready_txns_ s0 !! k = Some e -> may_run s0 e.2.

Lemma steps_lift s0 j ts tid pending r r' P :
  ready_txns_ s0 !! j = Some (ts, tid) -> all_may_run s0 (S j) ->
  rtc (piece_step (exec tid) (SlogSched.can_exe_wo_conflict conflict pending) partition_id) r r' ->
  P !! tid = Some (pieces_ r) -> clear s0 j pending P ->
  rtc (ready_step s0) (env r, P) (env r', <[tid := pieces_ r']> P) /\ later (pieces_ r) (pieces_ r').
Proof.
  intros Hj Hm Hs. revert P. induction Hs as [r|r r1 r' Hs Hs' IH]; intros P HP Hc.
  - rewrite insert_id by exact HP. split; [apply rtc_refl | reflexivity].
  - inversion_clear Hs as [i c ? ? more Hi Hr Hin Hx].
    destruct (SlogExec.exec_piece_inv exec partition_id _ _ _ _ _ _ _ Hi Hr Hx) as (out & tg & Hx' & Ht & Hps & Ho & Hn).
    assert (Hl : later (pieces_ r) (pieces_ r1)).
    { etransitivity; [exact (SlogExec.later_insert _ _ _ Hi) |]. rewrite Hps.
      case_bool_decide; [apply (SlogExec.later_merge exec) | reflexivity]. }
    destruct (IH (<[tid := pieces_ r1]> P)) as (H1 & H2);
      [apply lookup_insert_eq | eapply pending_later; eauto |].
    split; [|etransitivity; eauto].
    eapply rtc_l; [|rewrite insert_insert_eq in H1; exact H1].
    unfold can_run in Hr. apply andb_prop in Hr as [[Ha Hr]%andb_prop He%negb_true_iff].
    apply (run_next s0 j ts tid i c (pieces_ r) (pieces_ r1) tg P _ _ out); auto.
    + intros k e Hk. apply Hm. lia.
    + intros k e Hk Hq. destruct (Hc k e Hk Hq) as [?|(ps1 & Hp & Hsub)]; [auto | right]. exists ps1. split; [exact Hp |].
      intros p Hp' Hp2. eapply SlogExec.allowed_no_conflict; [exact Ha |]. apply Hsub, SlogExec.elem_of_unexecuted. eauto.
Qed.

(** What holds of a transaction in the queue: the handler that assigned [execute_callback_]
    has set what it uses. *)
Record assigned (by_me : gset Z) (tid : Z) (t : txn) : Prop := {
  w_local : n_local_pieces_ t = Some (Z.of_nat (length (tpieces t)));
  w_count : n_executed_pieces t = Z.of_nat (executed (tpieces t));
  w_pieces : Forall piece_wf (tpieces t);
  w_output : is_Some (dist_output_ t);
  w_coord : execute_callback_ t = BySubmitCRT -> send_output_client t = true /\ tid ∈ by_me }.

Definition runnable (by_me : gset Z) (tid : Z) (t : txn) : Prop :=
  if bool_decide (execute_callback_ t = NotAssigned) then tpieces t = [] else assigned by_me tid t.

(** What an attempt leaves as it was. *)
Record attempt_frame (tid : Z) s s' : Prop := {
  f_ready : ready_txns_ s' = ready_txns_ s;
  f_max : ir_site_max_ts s' = ir_site_max_ts s;
  f_input : new_input_ s' = new_input_ s;
  f_others : forall tid', tid' <> tid -> dtxns_ s' !! tid' = dtxns_ s !! tid';
  f_mine : forall tid', tid' <> tid -> tid' ∈ distributed_txns_by_me_ s -> tid' ∈ distributed_txns_by_me_ s' }.

Lemma frame_put tid t' s s' :
  dtxns_ s' = <[tid := t']> (dtxns_ s) -> ready_txns_ s' = ready_txns_ s -> ir_site_max_ts s' = ir_site_max_ts s ->
  new_input_ s' = new_input_ s ->
  (forall tid', tid' <> tid -> tid' ∈ distributed_txns_by_me_ s -> tid' ∈ distributed_txns_by_me_ s') ->
  attempt_frame tid s s'.
Proof. intros Hd. split; auto. intros tid' Hne. now rewrite Hd, lookup_insert_ne. Qed.

Lemma frame_trans tid s1 s2 s3 : attempt_frame tid s1 s2 -> attempt_frame tid s2 s3 -> attempt_frame tid s1 s3.
Proof. intros [] []. split; try congruence; auto. intros tid' Hne. now rewrite f_others1, f_others0. Qed.

Lemma finish_ok tid t s :
  assigned (distributed_txns_by_me_ s) tid t ->
  runs (finish partition_id tid t s) (fun s' =>
    attempt_frame tid s s' /\ db_ s' = db_ s
    /\ exists t', dtxns_ s' = <[tid := t']> (dtxns_ s) /\ tpieces t' = tpieces t).
Proof.
  intros [_ _ _ [out Ho] Hc]. unfold finish. rewrite Ho. cbn [mbind option_bind].
  assert (Hput : forall t' s', dtxns_ s' = <[tid := t']> (dtxns_ s) -> tpieces t' = tpieces t ->
    db_ s' = db_ s -> ready_txns_ s' = ready_txns_ s -> ir_site_max_ts s' = ir_site_max_ts s ->
    new_input_ s' = new_input_ s ->
    (forall tid', tid' <> tid -> tid' ∈ distributed_txns_by_me_ s -> tid' ∈ distributed_txns_by_me_ s') ->
    attempt_frame tid s s' /\ db_ s' = db_ s
    /\ exists t', dtxns_ s' = <[tid := t']> (dtxns_ s) /\ tpieces t' = tpieces t).
  { intros t' s' Hd Hp Hdb Hr Hm Hn Hb. split; [now apply (frame_put tid t') | eauto]. }
  destruct (execute_callback_ t) eqn:Hcb; try (apply runs_ret; now apply (Hput t)).
  destruct (Hc eq_refl) as [Hcl Hme]. unfold verify. rewrite bool_decide_eq_true_2 by exact Hme. cbn [mbind option_bind].
  cbv zeta. set (t1 := t {{ dist_partition_status_ := _ }}).
  assert (H1 : send_output_client t1 = true /\ dist_output_ t1 = Some out /\ tpieces t1 = tpieces t)
    by (unfold t1; destruct t; cbn in *; auto).
  destruct H1 as (H1 & H2 & H3). clearbody t1.
  assert (Hs : runs (CheckSendOutputToClient tid t1) (fun '(t2, _) => tpieces t2 = tpieces t)).
  { unfold CheckSendOutputToClient. case_bool_decide; [now apply runs_ret |].
    destruct (all_output_received t1); [|now apply runs_ret]. rewrite H1, H2. apply runs_ret. now destruct t1. }
  eapply runs_bind; [exact Hs |]. intros [t2 es] Ht2. apply runs_ret. apply (Hput t2); auto.
  intros tid' Hne Hin. cbn. set_solver.
Qed.

Section Total.
Hypothesis exec_total : forall tid c e, is_Some (exec tid c e).

Lemma run_pieces_ok s0 j ts tid by_me t pending P db :
  ready_txns_ s0 !! j = Some (ts, tid) -> all_may_run s0 (S j) -> assigned by_me tid t ->
  P !! tid = Some (tpieces t) -> clear s0 j pending P ->
  runs (run_ready conflict exec partition_id tid pending t db) (fun '(t', db', _, pending') =>
    assigned by_me tid t' /\ execute_callback_ t' = execute_callback_ t
    /\ rtc (ready_step s0) (db, P) (db', <[tid := tpieces t']> P) /\ later (tpieces t) (tpieces t')
    /\ pending' = pending ∪ unexecuted (tpieces t')).
Proof using exec_total.
  intros Hj Hm W HP Hc. unfold run_ready. destruct (w_output _ _ _ W) as [out Ho]. rewrite Ho. cbn [mbind option_bind].
  unfold RecursiveExecuteReadyPieces.
  set (r0 := {| pieces_ := tpieces t; env := db; PieceExec.n_executed_pieces := n_executed_pieces t;
                ret := ∅; outputs := out |}).
  destruct (exec_loop_ok (exec tid) (SlogSched.can_exe_wo_conflict conflict pending) (exec_total tid)
              (S (length (tpieces t))) partition_id r0) as (r & Hx & Hs & _ & Hw & Hlen & Hn).
  { exact (w_pieces _ _ _ W). }
  { cbn. unfold waiting. pose proof (List.filter_length_le (fun c => negb (input_ready c)) (tpieces t)). lia. }
  change (exec_loop _ _ _ _ _) with (exec_loop (exec tid) (SlogSched.can_exe_wo_conflict conflict pending)
    (S (length (tpieces t))) partition_id r0). rewrite Hx. cbn [mbind option_bind]. apply runs_ret.
  destruct (steps_lift s0 j ts tid pending r0 r P Hj Hm Hs HP Hc) as (H1 & H2).
  assert (Hn' : PieceExec.n_executed_pieces r = Z.of_nat (executed (pieces_ r))).
  { unfold r0 in Hn. cbn [pieces_ PieceExec.n_executed_pieces] in Hn. rewrite (w_count _ _ _ W) in Hn. lia. }
  match goal with |- assigned _ _ ?x /\ _ => set (t' := x) end.
  assert (Hf : tpieces t' = pieces_ r /\ n_local_pieces_ t' = n_local_pieces_ t
    /\ n_executed_pieces t' = PieceExec.n_executed_pieces r /\ dist_output_ t' = Some (outputs r)
    /\ execute_callback_ t' = execute_callback_ t /\ send_output_client t' = send_output_client t)
    by (unfold t'; now destruct t).
  destruct Hf as (F1 & F2 & F3 & F4 & F5 & F6). clearbody t'. rewrite F1. split_and!; auto.
  split; rewrite ?F1, ?F2, ?F3, ?F4, ?F5, ?F6; eauto; [|apply (w_coord _ _ _ W)].
  rewrite (w_local _ _ _ W). do 2 f_equal. symmetry. apply (SlogExec.later_length _ _ H2).
Qed.

Definition all_executed (ps : list SimpleCommand) : Prop := Forall (fun c => local_executed_ c = true) ps.

Lemma execute_ok s0 j ts tid t pending s :
  ready_txns_ s0 !! j = Some (ts, tid) -> all_may_run s0 (S j) -> dtxns_ s !! tid = Some t ->
  runnable (distributed_txns_by_me_ s) tid t -> clear s0 j pending (tpieces <$> dtxns_ s) ->
  runs (execute conflict exec partition_id tid pending s) (fun '(s', finished, pending') =>
    exists t', attempt_frame tid s s' /\ dtxns_ s' = <[tid := t']> (dtxns_ s) /\ later (tpieces t) (tpieces t')
    /\ rtc (ready_step s0) (view s) (view s') /\ pending ⊆ pending' /\ unexecuted (tpieces t') ⊆ pending'
    /\ (if (finished : bool) then all_executed (tpieces t') else runnable (distributed_txns_by_me_ s') tid t')).
Proof using exec_total.
  intros Hj Hm Ht Hr Hc. unfold execute. rewrite Ht. cbn [mbind option_bind].
  pose proof Hr as Hr0. unfold runnable in Hr. case_bool_decide as Hcb.
  { apply runs_ret. exists t. rewrite insert_id by exact Ht. split_and!; auto; [|reflexivity | apply rtc_refl |].
    - apply (frame_put tid t); auto. now rewrite insert_id.
    - rewrite Hr. cbn. set_solver. }
  assert (HP : (tpieces <$> dtxns_ s) !! tid = Some (tpieces t)) by now rewrite lookup_fmap, Ht.
  assert (Hrun : runs (if bool_decide (execute_callback_ t = BySubmitCRT) && bool_decide (tpieces t = [])
      then Some (t, db_ s, ∅, pending) else run_ready conflict exec partition_id tid pending t (db_ s))
    (fun '(t', db', _, pending') => assigned (distributed_txns_by_me_ s) tid t'
      /\ execute_callback_ t' = execute_callback_ t
      /\ rtc (ready_step s0) (view s) (db', <[tid := tpieces t']> (tpieces <$> dtxns_ s)) /\ later (tpieces t) (tpieces t')
      /\ pending' = pending ∪ unexecuted (tpieces t'))).
  { destruct (_ && _) eqn:Hb; [|exact (run_pieces_ok s0 j ts tid _ t pending _ (db_ s) Hj Hm Hr HP Hc)].
    apply andb_prop in Hb as [_ Hb%bool_decide_eq_true]. apply runs_ret. rewrite insert_id by exact HP.
    split_and!; auto; [apply rtc_refl | reflexivity |]. rewrite Hb. cbn. set_solver. }
  eapply runs_bind; [exact Hrun |]. clear Hrun. intros [[[t1 db'] out] pending'] (W & Hcb' & Hs & Hl & ->).
  cbv zeta. match goal with |- context [emit ?es ?x] => set (s1 := emit es x) end.
  assert (F1 : attempt_frame tid s s1) by now apply (frame_put tid t1).
  assert (Hd1 : dtxns_ s1 = <[tid := t1]> (dtxns_ s)) by reflexivity.
  assert (Hb1 : distributed_txns_by_me_ s1 = distributed_txns_by_me_ s) by reflexivity.
  assert (Hdb1 : db_ s1 = db') by reflexivity. clearbody s1.
  rewrite (w_local _ _ _ W), (w_count _ _ _ W). cbn [mbind option_bind].
  destruct (Z.eqb_spec (Z.of_nat (length (tpieces t1))) (Z.of_nat (executed (tpieces t1)))) as [Hx|Hx].
  - eapply runs_bind; [apply (finish_ok tid t1 s1); now rewrite Hb1 |].
    intros s2 (F2 & Hdb2 & t2 & Hd2 & Ht2). apply runs_ret. exists t2. rewrite Ht2.
    split_and!; auto; [eapply frame_trans; eauto | now rewrite Hd2, Hd1, insert_insert_eq | | set_solver | set_solver |].
    + unfold view at 2. rewrite Hdb2, Hdb1, Hd2, Hd1, insert_insert_eq, fmap_insert, Ht2. exact Hs.
    + apply SlogExec.executed_all. lia.
  - apply runs_ret. exists t1. split_and!; auto; [| set_solver | set_solver |].
    + unfold view at 2. now rewrite Hdb1, Hd1, fmap_insert.
    + unfold runnable. rewrite bool_decide_eq_false_2 by congruence. now rewrite Hb1.
Qed.
End Total.

(** ** The scan *)

Record site_ok s : Prop := {
  o_sorted : sorted (ready_txns_ s);
  o_once : NoDup (ready_txns_ s).*2;
  o_known : forall e, e ∈ ready_txns_ s ->
    exists t, dtxns_ s !! e.2 = Some t /\ runnable (distributed_txns_by_me_ s) e.2 t }.

(** The transaction is executed, or another site executes it. *)
Definition gone s0 s (tid : Z) : Prop :=
  (exists t, dtxns_ s0 !! tid = Some t /\ region_handler_ t <> site_id)
  \/ (exists t, dtxns_ s !! tid = Some t /\ all_executed (tpieces t)).

(** The loop from [s0] is at [s]: of the entries before the iterator some are kept. *)
Record scanning s0 (pre kept q : list (chr_ts * Z)) (pending : gset Z) s : Prop := {
  i_queue : ready_txns_ s0 = pre ++ q;
  i_ready : ready_txns_ s = kept ++ q;
  i_kept : kept `sublist_of` pre;
  i_ok : site_ok s;
  i_same : forall e, e ∈ q -> dtxns_ s !! e.2 = dtxns_ s0 !! e.2;
  i_max : ir_site_max_ts s = ir_site_max_ts s0;
  i_input : new_input_ s0 = true -> new_input_ s = true;
  i_run : all_may_run s0 (length pre);
  i_clear : clear s0 (length pre) pending (tpieces <$> dtxns_ s);
  i_gone : forall e, e ∈ pre -> e ∉ kept -> gone s0 s e.2 }.

Lemma erase_middle (kept q : list (chr_ts * Z)) ts tid :
  sorted (kept ++ (ts, tid) :: q) -> ts_erase ts (kept ++ (ts, tid) :: q) = kept ++ q.
Proof.
  intros Hs. unfold ts_erase.
  assert (Hkeep : forall l : list (chr_ts * Z), (forall e, e ∈ l -> e.1 <> ts) ->
    List.filter (fun kv => negb (eqb kv.1 ts)) l = l).
  { induction l as [|e l IH]; intros H; cbn; [reflexivity |].
    destruct (eqb_spec e.1 ts) as [He|He]; [destruct (H e); [now left | exact He] |]. cbn. f_equal.
    apply IH. intros e' He'. apply H. now right. }
  induction kept as [|k kept IH]; cbn in *; apply StronglySorted_inv in Hs as [Hs Hh]; rewrite Forall_forall in Hh.
  - destruct (eqb_spec ts ts); [|contradiction]. cbn. apply Hkeep. intros e He Hx. apply (lt_irrefl ts).
    specialize (Hh e He). cbn in Hh. now rewrite Hx in Hh.
  - destruct (eqb_spec k.1 ts) as [Hx|Hx]; cbn; [|f_equal; now apply IH].
    exfalso. specialize (Hh (ts, tid)). cbn in Hh. rewrite Hx in Hh. apply (lt_irrefl ts), Hh.
    rewrite elem_of_app. right. now left.
Qed.

Lemma scanning_step s0 pre kept kept' ts tid q pending pending' s s2 t t' :
  site_ok s0 -> scanning s0 pre kept ((ts, tid) :: q) pending s -> may_run s0 tid ->
  dtxns_ s !! tid = Some t -> dtxns_ s2 = <[tid := t']> (dtxns_ s) -> later (tpieces t) (tpieces t') ->
  pending ⊆ pending' -> passed_over s0 tid \/ unexecuted (tpieces t') ⊆ pending' ->
  ir_site_max_ts s2 = ir_site_max_ts s -> (new_input_ s = true -> new_input_ s2 = true) ->
  (forall tid', tid' <> tid -> tid' ∈ distributed_txns_by_me_ s -> tid' ∈ distributed_txns_by_me_ s2) ->
  ready_txns_ s2 = kept' ++ q ->
  kept' = kept ++ [(ts, tid)] /\ runnable (distributed_txns_by_me_ s2) tid t' \/ kept' = kept /\ gone s0 s2 tid ->
  scanning s0 (pre ++ [(ts, tid)]) kept' q pending' s2.
Proof.
  intros Hok0 [] Hmay Ht Hd Hl Hp Hu Hmax Hin Hdist Hr Hkept.
  pose proof (o_once _ Hok0) as Hnd0. rewrite i_queue0, fmap_app, fmap_cons in Hnd0.
  apply NoDup_app in Hnd0 as (_ & Hpre & [Htid _]%NoDup_cons).
  destruct i_ok0 as [Hs1 Hnd Hk]. rewrite i_ready0 in Hs1, Hnd, Hk.
  assert (Hne : forall e, e ∈ kept ++ q -> e.2 <> tid).
  { rewrite fmap_app, fmap_cons in Hnd. apply NoDup_app in Hnd as (_ & H1 & [H2 _]%NoDup_cons).
    intros e [He|He]%elem_of_app Hx.
    - apply (H1 e.2); [now apply list_elem_of_fmap_2 | rewrite Hx; now left].
    - apply H2. cbn [snd]. rewrite <- Hx. apply list_elem_of_fmap_2. exact He. }
  assert (Hlook : forall tid', tid' <> tid -> dtxns_ s2 !! tid' = dtxns_ s !! tid')
    by (intros tid' H; now rewrite Hd, lookup_insert_ne).
  assert (Hlen : length (pre ++ [(ts, tid)]) = S (length pre)) by (rewrite length_app; cbn; lia).
  assert (Hat : ready_txns_ s0 !! length pre = Some (ts, tid)).
  { rewrite i_queue0, lookup_app_r, Nat.sub_diag by lia. reflexivity. }
  split.
  - now rewrite i_queue0, <- app_assoc.
  - exact Hr.
  - destruct Hkept as [[-> _]|[-> _]]; [now apply sublist_app |]. now apply sublist_inserts_r.
  - split; rewrite Hr.
    + destruct Hkept as [[-> _]|[-> _]]; [rewrite <- app_assoc; exact Hs1 |].
      rewrite <- (erase_middle kept q ts tid Hs1). now apply ts_erase_sorted.
    + destruct Hkept as [[-> _]|[-> _]]; [rewrite <- app_assoc; exact Hnd |].
      rewrite fmap_app in *. rewrite fmap_cons in Hnd. rewrite NoDup_app in *. rewrite NoDup_cons in Hnd.
      destruct Hnd as (H1 & H2 & _ & H3). split_and!; auto. intros x Hx Hq. apply (H2 x Hx). now right.
    + intros e He. assert (Hc : e ∈ kept ++ q \/ e = (ts, tid) /\ runnable (distributed_txns_by_me_ s2) tid t').
      { destruct Hkept as [[-> H]|[-> _]]; [|auto]. rewrite !elem_of_app, list_elem_of_singleton in *. tauto. }
      destruct Hc as [Hc|[-> Hc]]; [|exists t'; cbn; rewrite Hd, lookup_insert_eq; auto].
      destruct (Hk e) as (te & Hte & Hrun); [rewrite !elem_of_app, elem_of_cons in *; tauto |].
      exists te. pose proof (Hne e Hc) as Hx. rewrite Hlook by exact Hx. split; [exact Hte |].
      unfold runnable in *. case_bool_decide; [exact Hrun |]. destruct Hrun as [W1 W2 W3 W4 W5]. split; auto.
      intros Hcb. destruct (W5 Hcb) as [W6 W7]. auto.
  - intros e He. rewrite Hlook by (apply Hne; rewrite elem_of_app; auto). apply i_same0. now right.
  - congruence.
  - auto.
  - rewrite Hlen. intros k e Hlt Hq. destruct (decide (k = length pre)) as [->|Hk'].
    + rewrite Hat in Hq. injection Hq as <-. exact Hmay.
    + apply (i_run0 k); [lia | exact Hq].
  - rewrite Hlen, Hd, fmap_insert. intros k e Hlt Hq. destruct (decide (k = length pre)) as [->|Hk'].
    + rewrite Hat in Hq. injection Hq as <-. cbn. destruct Hu as [Hu|Hu]; [auto | right].
      exists (tpieces t'). rewrite lookup_insert_eq. auto.
    + refine (pending_later s0 (length pre) pending pending' _ tid (tpieces t) (tpieces t') i_clear0 _ Hl Hp k e _ Hq);
        [now rewrite lookup_fmap, Ht | lia].
  - intros e He Hnk. apply elem_of_app in He as [He|He%list_elem_of_singleton].
    + destruct (i_gone0 e He) as [?|(te & Hte & Hx)]; [|left; assumption |].
      * destruct Hkept as [[-> _]|[-> _]]; [rewrite elem_of_app in Hnk; tauto | exact Hnk].
      * right. exists te. split; [|exact Hx]. rewrite Hlook; [exact Hte |]. intros Hx'.
        apply (Hpre e.2); [now apply list_elem_of_fmap_2 | rewrite Hx'; now left].
    + subst e. destruct Hkept as [[-> _]|[_ H]]; [|exact H]. rewrite elem_of_app, list_elem_of_singleton in Hnk. tauto.
Qed.

(** What a scan from [s0] has done when it stops in [s]. *)
Record scanned s0 s : Prop := {
  n_steps : rtc (ready_step s0) (view s0) (view s);
  n_ok : site_ok s;
  n_order : ready_txns_ s `sublist_of` ready_txns_ s0;
  n_gone : forall j e, ready_txns_ s0 !! j = Some e -> e ∉ ready_txns_ s ->
    all_may_run s0 (S j) /\ gone s0 s e.2 }.

Lemma scanning_end s0 pre kept q pending s :
  rtc (ready_step s0) (view s0) (view s) -> scanning s0 pre kept q pending s -> scanned s0 s.
Proof.
  intros Hs []. split; [exact Hs | exact i_ok0 | |].
  - rewrite i_ready0, i_queue0. now apply sublist_app.
  - intros j e Hj He. rewrite i_ready0, elem_of_app in He. rewrite i_queue0 in Hj.
    assert (Hlt : (j < length pre)%nat).
    { destruct (decide (j < length pre)%nat) as [H|H]; [exact H |]. exfalso. apply He. right.
      rewrite lookup_app_r in Hj by lia. now apply list_elem_of_lookup_2 in Hj. }
    rewrite lookup_app_l in Hj by exact Hlt. split.
    + intros k e' Hk. apply i_run0. lia.
    + apply i_gone0; [now apply list_elem_of_lookup_2 in Hj | tauto].
Qed.

Section Scan.
Hypothesis exec_total : forall tid c e, is_Some (exec tid c e).

(** The transaction at the iterator. *)
Lemma scanning_head s0 pre kept ts tid q pending s :
  scanning s0 pre kept ((ts, tid) :: q) pending s ->
  exists t, dtxns_ s !! tid = Some t /\ dtxns_ s0 !! tid = Some t /\ runnable (distributed_txns_by_me_ s) tid t
    /\ (stable t s = true -> PHASE_CAN_EXE <= phase_num (chr_phase_ t) -> may_run s0 tid)
    /\ forall s1, ready_txns_ s1 = ready_txns_ s -> ready_txns_ (ready_erase ts s1) = kept ++ q.
Proof.
  intros Hs. destruct (o_known _ (i_ok _ _ _ _ _ _ Hs) (ts, tid)) as (t & Ht & Hrun).
  { rewrite (i_ready _ _ _ _ _ _ Hs), elem_of_app. right. now left. }
  assert (Ht0 : dtxns_ s0 !! tid = Some t) by (rewrite <- Ht; symmetry; apply (i_same _ _ _ _ _ _ Hs (ts, tid)); now left).
  exists t. split_and!; auto.
  - intros Hst Hp. exists t. split_and!; auto. unfold stable in *. now rewrite <- (i_max _ _ _ _ _ _ Hs).
  - intros s1 H. pose proof (o_sorted _ (i_ok _ _ _ _ _ _ Hs)) as Hsort.
    rewrite (i_ready _ _ _ _ _ _ Hs) in Hsort, H. change (ts_erase ts (ready_txns_ s1) = kept ++ q).
    now rewrite H, erase_middle.
Qed.

Lemma execute_head_ok s0 pre kept ts tid q pending s :
  site_ok s0 -> scanning s0 pre kept ((ts, tid) :: q) pending s -> may_run s0 tid ->
  runs (execute conflict exec partition_id tid pending s) (fun '(s1, f, pending') =>
    rtc (ready_step s0) (view s) (view s1)
    /\ (gone s0 s1 tid -> scanning s0 (pre ++ [(ts, tid)]) kept q pending' (ready_erase ts s1)
          /\ scanning s0 (pre ++ [(ts, tid)]) kept q pending' ((ready_erase ts s1) {{ new_input_ := true }}))
    /\ if (f : bool) then gone s0 s1 tid
       else scanning s0 (pre ++ [(ts, tid)]) (kept ++ [(ts, tid)]) q pending' s1).
Proof using exec_total.
  intros Hok0 Hs Hmay. destruct (scanning_head _ _ _ _ _ _ _ _ Hs) as (t & Ht & Ht0 & Hrun & _ & Herase).
  assert (Hat : ready_txns_ s0 !! length pre = Some (ts, tid)).
  { rewrite (i_queue _ _ _ _ _ _ Hs), lookup_app_r, Nat.sub_diag by lia. reflexivity. }
  assert (Hall : all_may_run s0 (S (length pre))).
  { intros k e Hk Hq. destruct (decide (k = length pre)) as [->|Hne].
    - rewrite Hat in Hq. injection Hq as <-. exact Hmay.
    - apply (i_run _ _ _ _ _ _ Hs k); [lia | exact Hq]. }
  eapply runs_mono;
    [exact (execute_ok exec_total s0 (length pre) ts tid t pending s Hat Hall Ht Hrun (i_clear _ _ _ _ _ _ Hs)) |].
  intros [[s1 f] pending'] (t' & [F1 F2 F3 F4 F5] & Hd & Hl & Hsteps & Hp & Hu & Hf).
  split; [exact Hsteps |]. split.
  - intros Hg. split; apply (scanning_step s0 pre kept kept ts tid q pending pending' s _ t t'); auto;
      try exact (Herase s1 F1); try (right; split; [reflexivity | exact Hg]).
    intros H. change (new_input_ s1 = true). congruence.
  - destruct f; [right; exists t'; now rewrite Hd, lookup_insert_eq |].
    apply (scanning_step s0 pre kept _ ts tid q pending pending' s s1 t t'); auto; [congruence |].
    now rewrite F1, (i_ready _ _ _ _ _ _ Hs), <- app_assoc.
Qed.

(** A transaction that was tried and has no new input stays. *)
Lemma scanning_pass s0 pre kept ts tid q pending s t :
  site_ok s0 -> scanning s0 pre kept ((ts, tid) :: q) pending s -> may_run s0 tid ->
  dtxns_ s0 !! tid = Some t -> region_handler_ t = site_id -> exe_tried_ t = true -> new_input_ s = false ->
  scanning s0 (pre ++ [(ts, tid)]) (kept ++ [(ts, tid)]) q pending s.
Proof.
  intros Hok0 Hs Hmay Ht Hmine Htr Hni. destruct (scanning_head _ _ _ _ _ _ _ _ Hs) as (t1 & Ht1 & Ht0 & Hrun & _).
  rewrite Ht in Ht0. injection Ht0 as <-.
  apply (scanning_step s0 pre kept _ ts tid q pending pending s s t t); auto.
  - now rewrite insert_id.
  - reflexivity.
  - left. exists t. split_and!; auto. destruct (new_input_ s0) eqn:Hn0; [|reflexivity].
    rewrite (i_input _ _ _ _ _ _ Hs Hn0) in Hni. discriminate.
  - now rewrite (i_ready _ _ _ _ _ _ Hs), <- app_assoc.
Qed.

Lemma check_executable_ok s0 : site_ok s0 -> forall q pre kept found pending s,
  rtc (ready_step s0) (view s0) (view s) -> scanning s0 pre kept q pending s ->
  runs (check_executable conflict exec site_id partition_id q found pending s) (scanned s0).
Proof using exec_total.
  intros Hok0. induction q as [|[ts tid] q IH]; intros pre kept found pending s Hst Hs; cbn [check_executable].
  { apply runs_ret. eapply scanning_end; eauto. }
  destruct (scanning_head _ _ _ _ _ _ _ _ Hs) as (t & Ht & Ht0 & Hrun & Hmay & Herase).
  rewrite Ht. cbn [mbind option_bind].
  assert (Hend : runs (Some s) (scanned s0)) by (apply runs_ret; eapply scanning_end; eauto).
  destruct (stable t s); cbn [negb]; [|exact Hend].
  destruct (Z.ltb_spec (phase_num (chr_phase_ t)) PHASE_CAN_EXE) as [Hph|Hph]; [exact Hend |].
  specialize (Hmay eq_refl Hph). pose proof (execute_head_ok _ _ _ _ _ _ _ _ Hok0 Hs Hmay) as Hex.
  destruct (Z.eqb_spec (region_handler_ t) site_id) as [Hmine|Hother].
  - eapply runs_bind with (Q := fun '(s1, f, pending') => rtc (ready_step s0) (view s) (view s1)
         /\ if (f : bool) then scanning s0 (pre ++ [(ts, tid)]) kept q pending' ((ready_erase ts s1) {{ new_input_ := true }})
            else scanning s0 (pre ++ [(ts, tid)]) (kept ++ [(ts, tid)]) q pending' s1).
    + assert (Hex' := runs_mono _ _ (fun '(s1, f, pending') => rtc (ready_step s0) (view s) (view s1)
         /\ if (f : bool) then scanning s0 (pre ++ [(ts, tid)]) kept q pending' ((ready_erase ts s1) {{ new_input_ := true }})
            else scanning s0 (pre ++ [(ts, tid)]) (kept ++ [(ts, tid)]) q pending' s1) Hex).
      destruct (negb (exe_tried_ t)) eqn:Htr; [|destruct (new_input_ s) eqn:Hni].
      1, 2: apply Hex'; intros [[s1 f] pending'] (H1 & H2 & H3); split; [exact H1 | destruct f; [now apply H2 | exact H3]].
      apply runs_ret. split; [apply rtc_refl |]. eapply scanning_pass; eauto. now destruct (exe_tried_ t).
    + intros [[s1 f] pending'] [Hs1 Hsc].
      assert (Hst1 : rtc (ready_step s0) (view s0) (view s1)) by (etransitivity; eauto).
      destruct f; [apply (IH (pre ++ [(ts, tid)]) kept); [exact Hst1 | exact Hsc] |].
      destruct (max_pending_txns_ <? found + 1); [apply runs_ret; eapply scanning_end; eauto |].
      now apply (IH (pre ++ [(ts, tid)]) (kept ++ [(ts, tid)])).
  - eapply runs_bind; [exact Hex |]. intros [[s1 f] pending'] (H1 & H2 & _).
    apply (IH (pre ++ [(ts, tid)]) kept); [etransitivity; [exact Hst | exact H1] |]. apply H2. left. eauto.
Qed.

(** C9. In a site whose queue is sorted and holds each transaction once, with its callback and
    fields set ([site_ok]), [CheckExecutableTxns] returns, and runs pieces one at a time: each with all its inputs,
    only when every transaction with a lower timestamp in [ready_txns_] may execute too, and
    when no piece of those that is not executed conflicts with it, except of a transaction that
    the scan passes over because it was tried before and no input has arrived since.  The queue
    keeps its order; a transaction leaves it only when all before it may execute and either all
    its pieces are executed or another site is responsible for it. *)
Theorem ready_runs_in_ts_order s :
  site_ok s -> runs (CheckExecutableTxns conflict exec site_id partition_id s) (scanned s).
Proof using exec_total.
  intros Hok. unfold CheckExecutableTxns.
  eapply runs_bind; [apply (check_executable_ok s Hok (ready_txns_ s) [] [] 0 ∅ s); [apply rtc_refl |] |].
  - split; try reflexivity; [exact Hok | auto | | |]; [intros k e Hk; cbn in Hk; lia .. |].
    intros e []%not_elem_of_nil.
  - intros s1 [H1 [O1 O2 O3] H3 H4]. apply runs_ret. split; [exact H1 | split; assumption | exact H3 | exact H4].
Qed.
End Scan.

(** ** The timestamp of a transaction of the region *)
Section Irt.
Context (clock_at : nat -> Z).
Hypothesis clock_positive : forall n, 0 < clock_at n.

(** Entries of the queue after the clock: the loop meets each at most once. *)
Definition above (c : chr_ts) (m : list (chr_ts * Z)) : nat := length (List.filter (fun kv => ltb c kv.1) m).

Lemma above_le c c' m : lt c c' -> (above c' m <= above c m)%nat.
Proof.
  intros Hl. unfold above. induction m as [|kv m IH]; cbn; [lia |].
  destruct (ltb_spec c kv.1) as [H|H], (ltb_spec c' kv.1) as [H'|H']; cbn; try lia.
  destruct H. now apply (lt_trans c c').
Qed.

Lemma above_lt c ts x m : lt c ts -> (ts, x) ∈ m -> (above ts m < above c m)%nat.
Proof.
  intros Hl. unfold above. induction m as [|kv m IH]; intros Hin; [now apply not_elem_of_nil in Hin |].
  pose proof (above_le c ts m Hl) as Hle. unfold above in Hle. cbn. apply elem_of_cons in Hin as [<-|Hin].
  - cbn. destruct (ltb_spec c ts); [|contradiction]. destruct (ltb_spec ts ts) as [H'|H']; [now apply lt_irrefl in H' |].
    cbn. lia.
  - specialize (IH Hin). destruct (ltb_spec c kv.1) as [H|H], (ltb_spec ts kv.1) as [H'|H']; cbn; try lia.
    destruct H. now apply (lt_trans c ts).
Qed.

Lemma generate_local s :
  exists s1 ts, generate clock_at site_id true s = (s1, ts) /\ lt (last_clock_ (clk s)) ts
    /\ last_clock_ (clk s1) = ts /\ dist_txn_tss_ (clk s1) = dist_txn_tss_ (clk s)
    /\ clock_offset_ (clk s1) = clock_offset_ (clk s)
    /\ ready_txns_ s1 = ready_txns_ s /\ dtxns_ s1 = dtxns_ s
    /\ (site_id_ ts = site_id \/ site_id_ ts = site_id_ (last_clock_ (clk s)))
    /\ (pending_ok (clk s) -> forall p, p ∈ dist_txn_tss_ (clk s) ->
          timestamp_ (last_clock_ (clk s)) < timestamp_ p.1 -> timestamp_ ts < timestamp_ p.1).
Proof using clock_positive.
  unfold generate. pose proof (last_increases clock_at site_id (clk s)) as H1.
  pose proof (fun H p => generate_ahead clock_at site_id clock_positive (clk s) p H) as H3.
  assert (H4 : last_clock_ (GenerateChrTs clock_at site_id true (clk s)).1
               = (GenerateChrTs clock_at site_id true (clk s)).2) by reflexivity.
  assert (H5 : dist_txn_tss_ (GenerateChrTs clock_at site_id true (clk s)).1 = dist_txn_tss_ (clk s)) by reflexivity.
  assert (H7 : clock_offset_ (GenerateChrTs clock_at site_id true (clk s)).1 = clock_offset_ (clk s)) by reflexivity.
  assert (H6 : let x := site_id_ (GenerateChrTs clock_at site_id true (clk s)).2 in
               x = site_id \/ x = site_id_ (last_clock_ (clk s))).
  { rewrite generate_cases. cbv zeta. destruct (gtb _ _); [left | now right].
    unfold stretch. destruct (dist_txn_tss_ (clk s)) as [|[low u] m]; [reflexivity |]. now destruct (negb _). }
  destruct (GenerateChrTs _ _ _ _) as [c ts]. cbn [fst snd] in *. eexists _, ts.
  split_and!; [reflexivity | exact H1 | exact H4 | exact H5 | exact H7 | reflexivity | reflexivity | exact H6 | exact H3].
Qed.

(** As many rounds as there are entries after the clock are enough. *)
Lemma irt_ts_enough fuel k : forall s,
  (above (last_clock_ (clk s)) (ready_txns_ s) < fuel)%nat ->
  irt_ts clock_at site_id (fuel + k) s = irt_ts clock_at site_id fuel s.
Proof using clock_positive.
  induction fuel as [|fuel IH]; intros s Hf; [lia |]. cbn [irt_ts plus].
  destruct (generate_local s) as (s1 & ts & -> & Hl & Hlast & _ & _ & Hr & _).
  destruct (ts_find ts (ready_txns_ s1)) as [tid|] eqn:Hfind; [|reflexivity].
  destruct (dtxns_ s1 !! tid) as [t|]; [cbn [mbind option_bind] | reflexivity].
  destruct (verify _); [cbn [mbind option_bind] | reflexivity].
  apply IH. rewrite Hlast, Hr. rewrite Hr in Hfind.
  pose proof (above_lt _ _ _ _ Hl (ts_find_elem _ _ _ Hfind)). lia.
Qed.

(** What the loop answers: a timestamp, or none when it generates the timestamp of a
    transaction in the queue that is not decided. *)
Definition irt_result s (r : option (@site E * chr_ts)) : Prop :=
  match r with
  | Some (s', ts) =>
      ts_find ts (ready_txns_ s) = None /\ lt (last_clock_ (clk s)) ts /\ last_clock_ (clk s') = ts
      /\ ready_txns_ s' = ready_txns_ s /\ dtxns_ s' = dtxns_ s
      /\ (pending_ok (clk s) -> forall p, p ∈ dist_txn_tss_ (clk s) ->
            timestamp_ (last_clock_ (clk s)) < timestamp_ p.1 -> lt ts p.1)
  | None =>
      exists ts tid, ts_find ts (ready_txns_ s) = Some tid /\ lt (last_clock_ (clk s)) ts
        /\ (site_id_ ts = site_id \/ site_id_ ts = site_id_ (last_clock_ (clk s)))
        /\ forall t, dtxns_ s !! tid = Some t -> chr_phase_ t <> DIST_CAN_EXE
  end.

(** Another round: the clock was at [ts] and the queue is the same. *)
Lemma irt_result_next s s1 ts r :
  lt (last_clock_ (clk s)) ts -> last_clock_ (clk s1) = ts ->
  dist_txn_tss_ (clk s1) = dist_txn_tss_ (clk s) -> clock_offset_ (clk s1) = clock_offset_ (clk s) ->
  ready_txns_ s1 = ready_txns_ s -> dtxns_ s1 = dtxns_ s ->
  (site_id_ ts = site_id \/ site_id_ ts = site_id_ (last_clock_ (clk s))) ->
  (pending_ok (clk s) -> forall p, p ∈ dist_txn_tss_ (clk s) ->
     timestamp_ (last_clock_ (clk s)) < timestamp_ p.1 -> timestamp_ ts < timestamp_ p.1) ->
  irt_result s1 r -> irt_result s r.
Proof.
  intros Hl Hlast Htss Hoff Hr Hd Hsite Hp. destruct r as [[s' ts']|]; cbn.
  - rewrite Hlast, Hr, Hd, Htss. intros (H1 & H2 & H3 & H4 & H5 & H6).
    split_and!; auto; [now apply (lt_trans _ ts) |]. intros Hok p Hin Hlt.
    apply H6; [|exact Hin | now apply Hp]. destruct Hok as [K1 K2 K3]. split; now rewrite ?Htss, ?Hoff.
  - rewrite Hlast, Hr, Hd. intros (ts' & tid & H1 & H2 & H3 & H4). exists ts', tid.
    split_and!; auto; [now apply (lt_trans _ ts) |]. destruct H3 as [?|H3]; [auto | rewrite H3; exact Hsite].
Qed.

Lemma irt_ts_loop fuel : forall s,
  (above (last_clock_ (clk s)) (ready_txns_ s) < fuel)%nat -> irt_result s (irt_ts clock_at site_id fuel s).
Proof using clock_positive.
  induction fuel as [|fuel IH]; intros s Hf; [lia |]. cbn [irt_ts].
  destruct (generate_local s) as (s1 & ts & -> & Hl & Hlast & Htss & Hoff & Hr & Hdt & Hsite & Hp).
  destruct (ts_find ts (ready_txns_ s1)) as [tid|] eqn:Hfind; rewrite Hr in Hfind.
  2:{ split_and!; auto. intros Hok p Hin Hlt. left. now apply Hp. }
  assert (Hfail : (forall t, dtxns_ s !! tid = Some t -> chr_phase_ t <> DIST_CAN_EXE) -> irt_result s None)
    by (intros H; exists ts, tid; auto).
  rewrite Hdt. destruct (dtxns_ s !! tid) as [t|] eqn:Ht; [cbn [mbind option_bind] | now apply Hfail].
  destruct (decide (chr_phase_ t = DIST_CAN_EXE)) as [Hph|Hph].
  2:{ rewrite bool_decide_eq_false_2 by exact Hph. apply Hfail. now intros t' [= <-]. }
  rewrite bool_decide_eq_true_2 by exact Hph. cbn [verify mbind option_bind].
  apply (irt_result_next s s1 ts); auto. apply IH. rewrite Hr, Hlast.
  pose proof (above_lt _ _ _ _ Hl (ts_find_elem _ _ _ Hfind)). lia.
Qed.

(** C11. The loop of [HandleIRT] ends within one more round than the queue has entries: more
    rounds change nothing.  The timestamp it gives a transaction of the region is not in the
    queue and is after every timestamp the site generated before; and when the pending
    transactions of several regions are sorted, with timestamps that are not stretched, as the
    managers give them ([pending_ok]), it is before each of them that the clock had not passed
    already.  The site stops instead only if it generates the timestamp of a transaction in the
    queue that is not a decided transaction of several regions. *)
Theorem irt_ts_fits s :
  (forall k, irt_ts clock_at site_id (S (length (ready_txns_ s)) + k) s
             = irt_ts clock_at site_id (S (length (ready_txns_ s))) s)
  /\ irt_result s (irt_ts clock_at site_id (S (length (ready_txns_ s))) s).
Proof using clock_positive.
  assert (Hf : (above (last_clock_ (clk s)) (ready_txns_ s) < S (length (ready_txns_ s)))%nat).
  { unfold above. pose proof (List.filter_length_le (fun kv => ltb (last_clock_ (clk s)) kv.1) (ready_txns_ s)). lia. }
  split; [intros k; now apply irt_ts_enough | now apply irt_ts_loop].
Qed.
End Irt.
End Exec.
End ChrExec.
