(* ===== verification/ChrRuns.v ===== *)
(** * Runs of DAST sites

    Small inputs on which the definitions of the DAST files are evaluated, and behaviours that
    these runs show. *)

From Stdlib Require Import ZArith Lia Sorting.Sorted.
From stdpp Require Import base list option gmap sets relations sorting.
From coqutil Require Import Datatypes.RecordSetters.
From S2P Require Import Prelude ALock MemSchema PieceExec RccTxn SlogOrder SlogSched SlogExec ChrTs ChrSched ChrCrt ChrManager ChrExec.
Import DoubleBraceUpdate.
Local Open Scope Z_scope.

Module ChrRuns.
Import ChrTs ChrSched ChrCrt ChrManager ChrExec.

(** The database is the log of the pieces that ran. *)
Definition log := list (Z * Z).
Definition log_piece (tid : Z) (c : SimpleCommand) (e : log) : option (log * output_map) :=
  Some (e ++ [(tid, inn_id_ c)], []).

Lemma log_total tid c e : is_Some (log_piece tid c e).
Proof. eexists. reflexivity. Qed.

Definition piece (tid inn : Z) (ready : bool) : SimpleCommand :=
  {| inn_id_ := inn; type_ := inn; root_id_ := tid; root_type_ := 0; partition_id_ := 0; touchColsCnt_ := 0;
     input := {| keys_ := if ready then ∅ else {[1]}; values_ := ∅;
                 input_var_ready_ := if ready then ∅ else {[1 := 0]};
                 piece_input_ready_ := if ready then 1 else 0 |};
     local_executed_ := false; waiting_var_par_map := ∅ |}.

Definition ticks (n : nat) : Z := 1000 + Z.of_nat n.
Lemma ticks_positive n : 0 < ticks n.
Proof. unfold ticks. lia. Qed.

Definition sites_of (par : Z) : list Z := [3 * par; 3 * par + 1; 3 * par + 2].
Definition never (p q : Z) : bool := false.

Definition ts_at (t site : Z) : chr_ts := {| timestamp_ := t; stretch_counter_ := 0; site_id_ := site |}.

(** ** A decision

    Site 0 coordinates a transaction of partitions 0 and 2, the first of regions 0 and 1.  Its
    own replica 1 and the leader and a replica of partition 2 answer. *)
Definition anticipated_of (tid r : Z) : chr_ts := ts_at (91000 + r) (12 + r).

Implicit Types s : @site log.
Abbreviation lsite := (@site log).

Definition start : lsite := site_init 0 [] 0 (sites_of 0 ++ sites_of 1).

Definition submit s : option lsite :=
  OnSubmitCRT ticks 0 0 3 2 [(0, [(0, [piece 7 10 true])]); (1, [(2, [piece 7 20 true])])] s.
Definition prepared (par x leader : Z) s : option lsite :=
  OnRemotePrepared never log_piece ticks 0 0 0 3 2 sites_of
    {| rp_txn_id := 7; rp_site_id := x; rp_partition_id := par; rp_shard_manager := leader;
       rp_anticipated_ts := anticipated_of 7 (par / 2) |} s.
Definition prepare_self s : option lsite :=
  OnPrepareCRT never log_piece ticks 0 0 0 3 2 sites_of [piece 7 10 true]
    {| pc_anticipated_ts := anticipated_of 7 0; pc_shard_leader := 0; pc_coord_site := 0; pc_input_ready := 1 |} s.

Definition undecided : option lsite :=
  s ← submit start; s ← prepare_self s; s ← prepared 0 1 0 s; prepared 2 7 7 s.
Definition decided : option lsite := s ← undecided; prepared 2 6 7 s.

Definition decisions (s : @site log) : list event := List.filter is_decision (events_ s).

(** The answer of the fourth participant decides, with the greater of the two timestamps. *)
Example decided_run :
  (decisions <$> undecided) = Some []
  /\ (decisions <$> decided) = Some [SendDistExe 0 7 (ts_at 91001 13); SendDistExe 2 7 (ts_at 91001 13)].
Proof. split; vm_compute; reflexivity. Qed.

Abbreviation crt_step := (step never log_piece ticks 0 0 0 3 2 sites_of (fun x => x / 3) anticipated_of).

Lemma decided_reachable s : decided = Some s -> rtc crt_step start s.
Proof.
  unfold decided, undecided. destruct (submit start) as [s1|] eqn:H1; [|discriminate]. cbn [mbind option_bind].
  destruct (prepare_self s1) as [s2|] eqn:H2; [|discriminate]. cbn [mbind option_bind].
  destruct (prepared 0 1 0 s2) as [s3|] eqn:H3; [|discriminate]. cbn [mbind option_bind].
  destruct (prepared 2 7 7 s3) as [s4|] eqn:H4; [|discriminate]. cbn [mbind option_bind]. intros H5.
  eapply rtc_l; [eapply do_submit_crt; [|exact H1] |].
  { intros r m tid _ _. apply lookup_empty. }
  eapply rtc_l; [eapply do_prepare_crt; [|exact H2]; reflexivity |].
  eapply rtc_l; [eapply do_remote_prepared; [|exact H3]; reflexivity |].
  eapply rtc_l; [eapply do_remote_prepared; [|exact H4]; reflexivity |].
  eapply rtc_l; [eapply do_remote_prepared; [|exact H5]; reflexivity |]. apply rtc_refl.
Qed.

Lemma crt_decided_by_majority_witness : exists s t, decided = Some s
  /\ SendDistExe 2 7 (ts_at 91001 13) ∈ events_ s
  /\ dtxns_ s !! 7 = Some t /\ answered 3 t 2 /\ ~ lt (ts_at 91001 13) (anticipated_of 7 1).
Proof.
  destruct decided as [s|] eqn:Hs; [|exfalso; revert Hs; vm_compute; discriminate].
  assert (He : SendDistExe 2 7 (ts_at 91001 13) ∈ events_ s).
  { assert (Hd : decisions s = [SendDistExe 0 7 (ts_at 91001 13); SendDistExe 2 7 (ts_at 91001 13)]).
    { pose proof (proj2 decided_run) as H. rewrite Hs in H. now injection H. }
    apply list_elem_of_In. assert (Hin : In (SendDistExe 2 7 (ts_at 91001 13)) (decisions s)) by (rewrite Hd; cbn; auto).
    unfold decisions in Hin. now apply filter_In in Hin as [Hin _]. }
  destruct (proj1 (crt_decided_by_majority never log_piece ticks 0 0 0 3 2 sites_of (fun x => x / 3) anticipated_of
    ltac:(lia) [] 0 (sites_of 0 ++ sites_of 1) s (decided_reachable s Hs)) 2 7 _ He) as (t & Ht & Ha & Hl).
  exists s, t. split_and!; auto.
Defined.

(** ** A manager

    Two requests to the manager of region 0, which has partitions 0 and 1. *)
Definition request (tid par t : Z) (m : manager) : option manager :=
  PrepareCRT ticks 0 0 12 2 sites_of (fun _ => 1%nat) [(par, [piece tid 10 true])] {[par := 1]} (ts_at t 6) m.

Definition announcements (m : manager) : list (Z * option chr_ts) := (fun e => (target e, announced e)) <$> mevents m.

(** The second comes from a coordinator whose clock is behind, and still gets the later
    timestamp. *)
Example two_requests :
  (announcements <$> (m ← request 7 0 500000 (manager_init 0); request 8 1 400000 m))
  = Some (((fun x => (x, Some (ts_at 590000 12))) <$> [0; 1; 2; 3; 4; 5])
          ++ ((fun x => (x, Some (ts_at 590001 12))) <$> [3; 4; 5; 0; 1; 2])).
Proof. vm_compute. reflexivity. Qed.

Lemma anticipated_in_order_witness : exists m m' ts,
  request 7 0 500000 (manager_init 0) = Some m /\ request 8 1 400000 m = Some m'
  /\ 0 <= 0 /\ 400000 + estimated_rtt <= timestamp_ ts /\ is_Some (ts_find ts (dist_txn_tss_ (mclk m'))).
Proof.
  destruct (request 7 0 500000 (manager_init 0)) as [m|] eqn:H1; [|exfalso; revert H1; vm_compute; discriminate].
  destruct (request 8 1 400000 m) as [m'|] eqn:H2.
  2: { exfalso. vm_compute in H1. injection H1 as <-. revert H2. vm_compute. discriminate. }
  destruct (anticipated_in_order ticks 0 0 12 2 sites_of ticks_positive 0 m _ _ _ _ m' ltac:(lia)
    (rtc_once _ _ (do_prepare ticks 0 0 12 2 sites_of (manager_init 0) _ _ _ _ m H1)) H2)
    as (ts & es & _ & _ & _ & _ & H3 & H4 & _).
  exists m, m', ts. split_and!; auto; lia.
Defined.

(** ** A queue *)
Definition irt (ps : list SimpleCommand) (phase : TxnPhase) : txn :=
  new_txn {{ tpieces := ps; n_local_pieces_ := Some (Z.of_nat (length ps)); chr_phase_ := phase;
             handler_site_ := 0; region_handler_ := 0; is_irt_ := Some true; dist_output_ := Some ∅;
             execute_callback_ := ByHandleIRT }}.

(** Site 0 has a queue and has heard of the other sites of its region. *)
Definition queue_site (q : list (chr_ts * Z)) (ts : gmap Z txn) : lsite :=
  start {{ dtxns_ := ts; ready_txns_ := q;
           ir_site_max_ts := (fun _ => ts_at 1 0) <$> ir_site_max_ts start }}.

Definition two_ready : lsite :=
  queue_site [(ts_at 5 0, 1); (ts_at 6 0, 2)]
    (<[1 := irt [piece 1 10 true; piece 1 11 false] LOCAL_CAN_EXE]>
       {[2 := irt [piece 2 20 true] LOCAL_CAN_EXE]}).
Definition same_pieces (p q : Z) : bool := p / 10 =? q / 10.

(** The first waits for an input; the second has no conflict with it and leaves the queue. *)
Example two_ready_run :
  ((fun s => (db_ s, ready_txns_ s)) <$> CheckExecutableTxns same_pieces log_piece 0 0 two_ready)
  = Some ([(1, 10); (2, 20)], [(ts_at 5 0, 1)]).
Proof. vm_compute. reflexivity. Qed.

Lemma irt_assigned by_me tid ps phase :
  Forall piece_wf ps -> Forall (fun c => local_executed_ c = false) ps -> assigned by_me tid (irt ps phase).
Proof.
  intros Hw Hn. split; [reflexivity | | exact Hw | eexists; reflexivity | discriminate]. cbn.
  unfold executed. induction Hn as [|c ps Hc _ IH]; cbn; [reflexivity |]. rewrite Hc. apply IH. now inversion Hw.
Qed.

Lemma two_ready_ok : site_ok two_ready.
Proof.
  assert (Hw : forall tid inn b, piece_wf (piece tid inn b)).
  { intros tid inn []; unfold piece_wf; cbn.
    - intros k Hk. cbn in Hk. set_solver.
    - split; [now rewrite dom_singleton_L |]. intros k x Hk Hx.
      apply lookup_singleton_Some in Hk as [_ <-]. contradiction. }
  split.
  - repeat constructor.
  - cbn. repeat (constructor; [set_solver |]). constructor.
  - intros e He. cbn in He. apply elem_of_cons in He as [->|He%list_elem_of_singleton].
    + eexists. split; [apply lookup_insert_eq |]. cbn. apply irt_assigned; [|now repeat constructor].
      repeat (apply Forall_cons_2; [apply Hw |]). apply Forall_nil_2.
    + subst e. eexists. split; [cbn; rewrite lookup_insert_ne by lia; apply lookup_singleton_eq |]. cbn.
      apply irt_assigned; [|now repeat constructor].
      repeat (apply Forall_cons_2; [apply Hw |]). apply Forall_nil_2.
Qed.

Lemma ready_runs_in_ts_order_witness :
  site_ok two_ready /\ runs (CheckExecutableTxns same_pieces log_piece 0 0 two_ready)
    (scanned same_pieces log_piece 0 0 two_ready).
Proof. split; [exact two_ready_ok |]. exact (ready_runs_in_ts_order same_pieces log_piece 0 0 log_total _ two_ready_ok). Defined.

(** ** The timestamp of a transaction of the region

    The clock shows the timestamp of a decided transaction. *)
Definition tick_ts (t : Z) : chr_ts := {| timestamp_ := t; stretch_counter_ := t; site_id_ := 0 |}.
Definition colliding : lsite :=
  (queue_site [(tick_ts 1000, 3); (ts_at 2000 12, 4)]
     (<[3 := new_txn {{ chr_phase_ := DIST_CAN_EXE }}]> {[4 := new_txn]}))
    {{ clk := {| last_clock_ := zero_ts; clock_offset_ := 0; dist_txn_tss_ := [(ts_at 2000 12, tt)]; reads_ := 0 |} }}.

Example colliding_run : (snd <$> irt_ts ticks 0 3 colliding) = Some (tick_ts 1001).
Proof. vm_compute. reflexivity. Qed.

Lemma irt_ts_fits_witness :
  pending_ok (clk colliding) /\ exists s' ts, irt_ts ticks 0 3 colliding = Some (s', ts)
    /\ ts_find ts (ready_txns_ colliding) = None /\ lt ts (ts_at 2000 12).
Proof.
  assert (Hc : pending_ok (clk colliding)).
  { split; cbn; [repeat constructor | | lia]. now intros p ->%list_elem_of_singleton. }
  split; [exact Hc |]. destruct (irt_ts_fits 0 ticks ticks_positive colliding) as [_ H].
  change (S (length (ready_txns_ colliding))) with 3%nat in H.
  destruct (irt_ts ticks 0 3 colliding) as [[s' ts]|] eqn:E; [|vm_compute in E; discriminate].
  destruct H as (H1 & _ & _ & _ & _ & H2). exists s', ts. split; [reflexivity |]. split; [exact H1 |].
  apply (H2 Hc (ts_at 2000 12, tt)); [now left |]. cbn. lia.
Defined.

(** ** What the runs show *)

(** Site 2 of partition 0, which has heard of every site of its region once. *)
Definition replica : lsite :=
  (site_init 2 [] 0 (sites_of 0)) {{ ir_site_max_ts := <[0 := ts_at 1 0]> {[1 := ts_at 1 1]} }}.
Definition prepare_irt_at (tid t from : Z) s : option lsite :=
  OnPrepareIRT same_pieces log_piece ticks 2 0 3 (fun x => x / 3) [piece tid 10 true]
    {| sl_txn_ts := ts_at t from; sl_my_txns := []; sl_delivered_ts := zero_ts |} s.

(** [commit_ts_] is never set, so that a replica executes a transaction of the region as soon
    as it arrives: two replicas that get two conflicting transactions in different orders
    execute them in different orders, whatever their timestamps. *)
Example irts_run_as_they_arrive :
  (db_ <$> (s ← prepare_irt_at 1 10 0 replica; prepare_irt_at 2 5 1 s)) = Some [(1, 10); (2, 10)]
  /\ (db_ <$> (s ← prepare_irt_at 2 5 1 replica; prepare_irt_at 1 10 0 s)) = Some [(2, 10); (1, 10)].
Proof. split; vm_compute; reflexivity. Qed.

(** The second transaction conflicts with the piece that the first still has to run. *)
Definition behind (tried : bool) : lsite :=
  queue_site [(ts_at 5 0, 1); (ts_at 6 0, 2)]
    (<[1 := (irt [piece 1 11 false] LOCAL_CAN_EXE) {{ exe_tried_ := tried }}]>
       {[2 := irt [piece 2 12 true] LOCAL_CAN_EXE]}).

(** It waits for the first when the scan tries both; when the first was tried before, the scan
    passes it over, its pieces are not pending, and the second overtakes it. *)
Example tried_is_overtaken :
  (db_ <$> CheckExecutableTxns same_pieces log_piece 0 0 (behind false)) = Some []
  /\ (db_ <$> CheckExecutableTxns same_pieces log_piece 0 0 (behind true)) = Some [(2, 12)].
Proof. split; vm_compute; reflexivity. Qed.

(** A replica that is not responsible for a transaction drops it with a piece that still waits
    for its input. *)
Example replica_drops_unfinished :
  let s := queue_site [(ts_at 5 1, 1)]
             {[1 := (irt [piece 1 10 false] LOCAL_CAN_EXE) {{ region_handler_ := 1; execute_callback_ := ByPrepareIRT }}]} in
  ((fun s => (db_ s, ready_txns_ s)) <$> CheckExecutableTxns same_pieces log_piece 0 0 s) = Some ([], []).
Proof. vm_compute. reflexivity. Qed.

(** The coordinator divides the partition by the number of sites of a region instead of that of
    its partitions: a coordinator in partition 2, of region 1, has no pieces of its own. *)
Example coordinator_drops_pieces :
  length (own_pieces 0 3 2 [(0, [(0, [piece 7 10 true])]); (1, [(2, [piece 7 20 true])])]) = 1%nat
  /\ own_pieces 2 3 2 [(0, [(0, [piece 7 10 true])]); (1, [(2, [piece 7 20 true])])] = [].
Proof. split; reflexivity. Qed.

(** A decision that arrives before the request to prepare is never answered: the request then
    finds the transaction, in its first phase, and the transaction never runs. *)
Example early_decision_is_lost :
  let prepare := OnPrepareCRT same_pieces log_piece ticks 0 0 0 3 2 sites_of [piece 7 10 true]
    {| pc_anticipated_ts := ts_at 91000 12; pc_shard_leader := 0; pc_coord_site := 9; pc_input_ready := 1 |} in
  ((fun s => (events_ s, ready_txns_ s)) <$> (s ← OnDistExe same_pieces log_piece 0 0 7 (ts_at 91000 12) start; prepare s))
  = Some ([], []).
Proof. vm_compute. reflexivity. Qed.

(** A transaction of several regions whose timestamp has passed when it arrives is behind the
    timestamps the site goes on to give. *)
Example late_crt_is_overtaken :
  let c := {| last_clock_ := tick_ts 5000; clock_offset_ := 0; dist_txn_tss_ := [(ts_at 3000 12, tt)]; reads_ := 0 |} in
  ltb (ts_at 3000 12) (GenerateChrTs ticks 0 true c).2 = true.
Proof. vm_compute. reflexivity. Qed.

(** Only an instant write reaches the database. *)
Example only_instant_writes :
  (e ← DispatchExecute true 9 (fun _ _ => Some (Rcc.DF_NO, fun _ => Rcc.Write 1 2 (VI32 7) Rcc.TXN_DEFERRED (Rcc.Done [])))
         (piece 9 10 true)
         {| Rcc.cells := {[ (1, 2) := VI32 5 ]}; Rcc.last_ := ∅; Rcc.rows := []; Rcc.transferred := []; Rcc.tparents := [] |};
   Rcc.cells (fst e) !! (1, 2)) = Some (VI32 5).
Proof. vm_compute. reflexivity. Qed.
End ChrRuns.
