(* ===== verification/Graph.v ===== *)
(** * The dependency graph of the analytical server

    [Graph<V>] of OLAP/utilities/Graph.h at [V = ulong]: vertices with their
    parents and children, the two stack searches, [union_] and [parentExist].
    The main facts: the searches terminate and return exactly the vertices
    reachable along the edges, the edge test [parentExist] keeps the graph
    acyclic, and in an acyclic graph the number of ancestors is a rank. *)

From Stdlib Require Import ZArith Lia.
From stdpp Require Import base gmap sets list option relations.
From S2P Require Import Prelude.

Record Vertex := { parents : gset Z; children : gset Z }.

Abbreviation graph := (gmap Z Vertex).

(** ** Operations *)

Definition isExist (g : graph) (v : Z) : bool := bool_decide (v ∈ dom g).

Definition add_vertex (v : Z) (g : graph) : graph :=
  match g !! v with
  | None => <[v := {| parents := ∅; children := ∅ |}]> g
  | Some _ => g
  end.

(** [operator[]] on an [unordered_map] creates a missing vertex. *)
Definition at_vertex (g : graph) (v : Z) : Vertex :=
  default {| parents := ∅; children := ∅ |} (g !! v).

Definition add_child (from to : Z) (g : graph) : graph :=
  let x := at_vertex g from in
  <[from := {| parents := parents x; children := {[to]} ∪ children x |}]> g.

Definition add_parent (to from : Z) (g : graph) : graph :=
  let x := at_vertex g to in
  <[to := {| parents := {[from]} ∪ parents x; children := children x |}]> g.

Definition add_edge (from to : Z) (g : graph) : graph :=
  let g := add_vertex to (add_vertex from g) in
  add_parent to from (add_child from to g).

Definition get_children (g : graph) (v : Z) : gset Z :=
  match g !! v with None => ∅ | Some x => children x end.

Definition get_parents (g : graph) (v : Z) : gset Z :=
  match g !! v with None => ∅ | Some x => parents x end.

Definition get_neighbours (g : graph) (v : Z) : gset Z :=
  match g !! v with None => ∅ | Some x => parents x ∪ children x end.

Section Search.
(** The iteration order of an [unordered_set] is unspecified. *)
Variable iter : gset Z -> list Z.
Hypothesis iter_elements : forall X, iter X ≡ₚ elements X.

(** The loop of [get_descendants] ([next := children]) and of [get_ancestors]
    ([next := parents]); pushing the elements of a set one by one leaves them
    on the stack in reverse.  [None]: out of fuel, or [at] throws. *)
Fixpoint search (fuel : nat) (next : Vertex -> gset Z) (g : graph) (stack : list Z)
    (visited found : gset Z) : option (gset Z) :=
  match stack with
  | [] => Some found
  | top :: stack' =>
      match fuel with
      | O => None
      | S fuel' =>
          if bool_decide (top ∈ visited) then search fuel' next g stack' visited found
          else
            x ← g !! top;
            search fuel' next g (reverse (iter (next x)) ++ stack')
              ({[top]} ∪ visited) ({[top]} ∪ found)
      end
  end.

(** The number of edges bounds the number of turns of the loop. *)
Definition n_edges (next : Vertex -> gset Z) (g : graph) : nat :=
  sum_list_with (fun vx => size (next vx.2)) (map_to_list g).

Definition get_descendants (g : graph) (v : Z) : option (gset Z) :=
  match g !! v with
  | None => Some ∅
  | Some x => search (n_edges children g) children g (reverse (iter (children x))) {[v]} ∅
  end.

Definition get_ancestors (g : graph) (v : Z) : option (gset Z) :=
  match g !! v with
  | None => Some ∅
  | Some x => search (n_edges parents g) parents g (reverse (iter (parents x))) {[v]} ∅
  end.

Definition parentExist (g : graph) (from to : Z) : option bool :=
  ancestors ← get_ancestors g to;
  Some (bool_decide (from ∈ ancestors)).

(** Adds the vertices and edges of [that]. *)
Definition union_ (g that : graph) : graph :=
  foldl (fun g vx =>
           foldl (fun g child => add_edge vx.1 child g) (add_vertex vx.1 g) (iter (children vx.2)))
        g (map_to_list that).

(** ** Termination and correctness of the search *)

Section Loop.
Variable next : Vertex -> gset Z.
Variable g : graph.

(** The edges still to be pushed. *)
Definition unseen (visited : gset Z) (l : list (Z * Vertex)) : nat :=
  sum_list_with (fun vx => if bool_decide (vx.1 ∈ visited) then 0 else size (next vx.2)) l.

Definition edge (u v : Z) : Prop := exists x, g !! u = Some x /\ v ∈ next x.

Hypothesis closed : forall u v, edge u v -> v ∈ dom g.

Lemma unseen_cons visited u y l :
  unseen visited ((u, y) :: l) =
    ((if bool_decide (u ∈ visited) then 0 else size (next y)) + unseen visited l)%nat.
Proof. reflexivity. Qed.

Lemma unseen_other (visited : gset Z) (t u : Z) (n : nat) :
  u <> t ->
  (if bool_decide (u ∈ {[t]} ∪ visited) then 0%nat else n) =
  if bool_decide (u ∈ visited) then 0%nat else n.
Proof.
  intros Hne. destruct (decide (u ∈ visited));
    [rewrite !bool_decide_true | rewrite !bool_decide_false]; set_solver.
Qed.

Lemma unseen_skip visited t l :
  t ∉ l.*1 -> unseen ({[t]} ∪ visited) l = unseen visited l.
Proof.
  induction l as [|[u y] l IH]; intros Ht; [reflexivity |].
  cbn in Ht. apply not_elem_of_cons in Ht as [Hu Ht].
  rewrite !unseen_cons, IH, unseen_other by (try exact Ht; congruence). reflexivity.
Qed.

Lemma unseen_visit visited t x l :
  NoDup l.*1 -> (t, x) ∈ l -> t ∉ visited ->
  (unseen ({[t]} ∪ visited) l + size (next x) = unseen visited l)%nat.
Proof.
  intros Hnd Hin Hv. induction l as [|[u y] l IH]; [now apply elem_of_nil in Hin |].
  cbn in Hnd. apply list.NoDup_cons in Hnd as [Hu Hnd]. rewrite !unseen_cons.
  apply elem_of_cons in Hin as [[= <- <-]|Hin].
  - rewrite unseen_skip by exact Hu. rewrite bool_decide_true, bool_decide_false by set_solver. lia.
  - rewrite <- (IH Hnd Hin), unseen_other; [lia |].
    intros ->. apply Hu. apply list_elem_of_fmap. now exists (t, x).
Qed.

(** The loop invariant: everything on the stack or found is reachable from
    [v], and the successors of what was visited are visited or on the stack. *)
Record loop_inv (v : Z) (stack : list Z) (visited found : gset Z) : Prop := {
  loop_visited : visited = {[v]} ∪ found;
  loop_other : v ∉ found;
  loop_found : forall u, u ∈ found -> tc edge v u;
  loop_stack : forall u, u ∈ stack -> tc edge v u;
  loop_closed : forall u w, u ∈ visited -> edge u w -> w ∈ visited \/ w ∈ stack }.

Lemma loop_done v visited found :
  loop_inv v [] visited found -> forall u, u ∈ found <-> u <> v /\ tc edge v u.
Proof.
  intros [Hv Ho Hfd _ Hc] u.
  assert (Hall : forall x w, tc edge x w -> x ∈ visited -> w ∈ visited).
  { assert (Hstep : forall x w, x ∈ visited -> edge x w -> w ∈ visited).
    { intros x w Hx Hxw. destruct (Hc x w Hx Hxw) as [|[]%elem_of_nil]; assumption. }
    induction 1; eauto. }
  split.
  - intros Hu. split; [congruence | now apply Hfd].
  - intros [Hne Hr]. specialize (Hall v u Hr). set_solver.
Qed.

Lemma tc_snoc (x y z : Z) : tc edge x y -> edge y z -> tc edge x z.
Proof. intros H1 H2. eapply tc_r; eauto. Qed.

Lemma edge_dom v u : tc edge v u -> u ∈ dom g.
Proof. intros H. induction H as [x y Hxy|x y z Hxy _ IH]; eauto. Qed.

Lemma in_iter X (u : Z) : u ∈ iter X <-> u ∈ X.
Proof. rewrite (iter_elements X). apply elem_of_elements. Qed.

Lemma in_pushed X stack (u : Z) : u ∈ reverse (iter X) ++ stack <-> u ∈ X \/ u ∈ stack.
Proof. now rewrite elem_of_app, elem_of_reverse, in_iter. Qed.

Lemma length_pushed X stack : length (reverse (iter X) ++ stack) = (size X + length stack)%nat.
Proof. rewrite length_app, length_reverse, (iter_elements X). reflexivity. Qed.

Lemma search_ok v fuel stack visited found :
  loop_inv v stack visited found ->
  (length stack + unseen visited (map_to_list g) <= fuel)%nat ->
  runs (search fuel next g stack visited found)
    (fun res => forall u, u ∈ res <-> u <> v /\ tc edge v u).
Proof.
  revert stack visited found. induction fuel as [|fuel IH]; intros stack visited found Hinv Hf.
  { destruct stack; [apply runs_ret; eapply loop_done, Hinv | cbn in Hf; lia]. }
  destruct stack as [|top stack]; [apply runs_ret; eapply loop_done, Hinv |].
  cbn [search]. cbn in Hf. pose proof Hinv as [Hv Ho Hfd Hst Hc]. case_bool_decide as Et.
  - apply IH; [|lia]. split; auto.
    + intros u Hu. apply Hst. now right.
    + intros u w Hu Hw. destruct (Hc u w Hu Hw) as [?|[->|?]%elem_of_cons]; auto.
  - assert (Htop : tc edge v top) by (apply Hst; now left).
    destruct (proj1 (elem_of_dom g top) (edge_dom v top Htop)) as [x Hx]. rewrite Hx.
    cbn [mbind option_bind]. apply IH.
    + split.
      * set_solver.
      * set_solver.
      * intros u [->%elem_of_singleton|Hu]%elem_of_union; auto.
      * intros u [Hu|Hu]%in_pushed; [|apply Hst; now right].
        apply (tc_snoc v top u Htop). now exists x.
      * intros u w [->%elem_of_singleton|Hu]%elem_of_union Hw.
        -- right. apply in_pushed. left. destruct Hw as (x' & Hx' & Hw). congruence.
        -- destruct (Hc u w Hu Hw) as [?|[->|?]%elem_of_cons]; [set_solver | set_solver |].
           right. apply in_pushed. now right.
    + rewrite length_pushed.
      assert (Hun := unseen_visit visited top x (map_to_list g) (NoDup_fst_map_to_list g)
                       (proj2 (elem_of_map_to_list g top x) Hx) Et). lia.
Qed.

Lemma n_edges_unseen v x :
  g !! v = Some x ->
  (size (next x) + unseen {[v]} (map_to_list g) = n_edges next g)%nat.
Proof.
  intros Hx.
  assert (Hun := unseen_visit ∅ v x (map_to_list g) (NoDup_fst_map_to_list g)
                   (proj2 (elem_of_map_to_list g v x) Hx) (not_elem_of_empty v)).
  rewrite union_empty_r_L in Hun. rewrite Nat.add_comm, Hun. clear Hun. unfold unseen, n_edges.
  induction (map_to_list g) as [|[u y] l IH]; [reflexivity |]. cbn.
  rewrite IH, bool_decide_false by apply not_elem_of_empty. reflexivity.
Qed.

(** Started as the code starts it, the search returns what is reachable. *)
Lemma search_from v x :
  g !! v = Some x ->
  runs (search (n_edges next g) next g (reverse (iter (next x))) {[v]} ∅)
    (fun res => forall u, u ∈ res <-> u <> v /\ tc edge v u).
Proof.
  intros Hx. rewrite <- (app_nil_r (reverse (iter (next x)))). apply search_ok.
  - split; try set_solver.
    + intros u [Hu|[]%elem_of_nil]%in_pushed. apply tc_once. now exists x.
    + intros u w ->%elem_of_singleton (x' & Hx' & Hw). right. apply in_pushed. left. congruence.
  - rewrite length_pushed. cbn. rewrite <- (n_edges_unseen v x Hx). lia.
Qed.
End Loop.
End Search.

(** ** The graph as a relation *)

(** [p] is a parent of [c]. *)
Definition dep (g : graph) (p c : Z) : Prop := p ∈ get_parents g c.

(** Parents and children agree. *)
Definition wf (g : graph) : Prop := forall u v, v ∈ get_children g u <-> u ∈ get_parents g v.

Definition acyclic (g : graph) : Prop := forall v, ~ tc (dep g) v v.

Lemma edge_parents g u v : edge parents g u v <-> dep g v u.
Proof.
  unfold edge, dep, get_parents. destruct (g !! u); [|set_solver].
  split; [now intros (x & [= <-] & ?) | eauto].
Qed.

Lemma edge_children g u v : edge children g u v <-> v ∈ get_children g u.
Proof.
  unfold edge, get_children. destruct (g !! u); [|set_solver].
  split; [now intros (x & [= <-] & ?) | eauto].
Qed.

Lemma get_parents_dom g v : get_parents g v ≠ ∅ -> v ∈ dom g.
Proof. unfold get_parents. intros Hne. apply elem_of_dom. destruct (g !! v); [eauto | contradiction]. Qed.

Lemma get_children_dom g v : get_children g v ≠ ∅ -> v ∈ dom g.
Proof. unfold get_children. intros Hne. apply elem_of_dom. destruct (g !! v); [eauto | contradiction]. Qed.

Lemma dep_dom g p c : wf g -> dep g p c -> p ∈ dom g /\ c ∈ dom g.
Proof.
  intros Hwf Hd. split.
  - apply get_children_dom. apply Hwf in Hd. set_solver.
  - apply get_parents_dom. unfold dep in Hd. set_solver.
Qed.

Lemma tc_reverse (R S : Z -> Z -> Prop) x y :
  (forall a b, R a b -> S b a) -> tc R x y -> tc S y x.
Proof.
  intros HRS. induction 1 as [a b Hab|a b c Hab _ IH]; [apply tc_once; auto |].
  eapply tc_r; [exact IH | auto].
Qed.

Lemma tc_edge_parents g u v : tc (edge parents g) v u <-> tc (dep g) u v.
Proof. split; apply tc_reverse; intros a b; apply edge_parents. Qed.

Lemma tc_edge_children g u v : wf g -> tc (edge children g) u v <-> tc (dep g) u v.
Proof.
  intros Hwf. assert (He : forall a b, edge children g a b <-> dep g a b).
  { intros a b. rewrite edge_children. apply Hwf. }
  split; induction 1; [apply tc_once | eapply tc_l; [|eassumption]
                      | apply tc_once | eapply tc_l; [|eassumption]]; now apply He.
Qed.

Section SearchSpecs.
Variable iter : gset Z -> list Z.
Hypothesis iter_elements : forall X, iter X ≡ₚ elements X.

Lemma get_ancestors_ok g v :
  wf g -> runs (get_ancestors iter g v) (fun A => forall u, u ∈ A <-> u <> v /\ tc (dep g) u v).
Proof.
  intros Hwf. unfold get_ancestors. destruct (g !! v) as [x|] eqn:Hx.
  - eapply runs_mono; [apply (search_from iter iter_elements parents g) |].
    + intros a b Hab%edge_parents. now apply (dep_dom g b a Hwf).
    + exact Hx.
    + cbn beta. intros A HA u. rewrite HA. now rewrite tc_edge_parents.
  - apply runs_ret. intros u. split; [set_solver |]. intros [_ Hu]. exfalso.
    assert (Hd : exists w, dep g w v) by (apply tc_edge_parents in Hu; destruct Hu as [? ? H|? ? ? H];
      apply edge_parents in H; eauto).
    destruct Hd as [w Hd]. unfold dep, get_parents in Hd. rewrite Hx in Hd. set_solver.
Qed.

Lemma get_descendants_ok g v :
  wf g -> runs (get_descendants iter g v) (fun D => forall u, u ∈ D <-> u <> v /\ tc (dep g) v u).
Proof.
  intros Hwf. unfold get_descendants. destruct (g !! v) as [x|] eqn:Hx.
  - eapply runs_mono; [apply (search_from iter iter_elements children g) |].
    + intros a b Hab%edge_children. now apply (dep_dom g a b Hwf), Hwf.
    + exact Hx.
    + cbn beta. intros A HA u. rewrite HA. now rewrite tc_edge_children.
  - apply runs_ret. intros u. split; [set_solver |]. intros [_ Hu]. exfalso.
    assert (Hd : exists w, dep g v w) by (destruct Hu; eauto).
    destruct Hd as [w Hd]. apply Hwf in Hd. unfold get_children in Hd. rewrite Hx in Hd. set_solver.
Qed.

Lemma parentExist_ok g from to :
  wf g -> runs (parentExist iter g from to) (fun b => b = true <-> from <> to /\ tc (dep g) from to).
Proof.
  intros Hwf. unfold parentExist. eapply runs_bind; [now apply get_ancestors_ok |].
  intros A HA. apply runs_ret. rewrite bool_decide_eq_true. apply HA.
Qed.
End SearchSpecs.

(** ** Building the graph *)

Lemma add_vertex_parents v g c : get_parents (add_vertex v g) c = get_parents g c.
Proof.
  unfold add_vertex, get_parents. destruct (g !! v) eqn:E; [reflexivity |].
  destruct (decide (v = c)) as [->|]; [now rewrite lookup_insert_eq, E | now rewrite lookup_insert_ne].
Qed.

Lemma add_vertex_children v g c : get_children (add_vertex v g) c = get_children g c.
Proof.
  unfold add_vertex, get_children. destruct (g !! v) eqn:E; [reflexivity |].
  destruct (decide (v = c)) as [->|]; [now rewrite lookup_insert_eq, E | now rewrite lookup_insert_ne].
Qed.

Lemma add_vertex_dom v g : dom (add_vertex v g) = {[v]} ∪ dom g.
Proof.
  unfold add_vertex. destruct (g !! v) eqn:E; [|apply dom_insert_L].
  apply elem_of_dom_2 in E. set_solver.
Qed.

Lemma at_vertex_parents g v : parents (at_vertex g v) = get_parents g v.
Proof. unfold at_vertex, get_parents. now destruct (g !! v). Qed.
Lemma at_vertex_children g v : children (at_vertex g v) = get_children g v.
Proof. unfold at_vertex, get_children. now destruct (g !! v). Qed.

Lemma insert_parents v x g c :
  get_parents (<[v := x]> g) c = if decide (v = c) then parents x else get_parents g c.
Proof.
  unfold get_parents. destruct (decide (v = c)) as [->|];
    [now rewrite lookup_insert_eq | now rewrite lookup_insert_ne].
Qed.
Lemma insert_children v x g c :
  get_children (<[v := x]> g) c = if decide (v = c) then children x else get_children g c.
Proof.
  unfold get_children. destruct (decide (v = c)) as [->|];
    [now rewrite lookup_insert_eq | now rewrite lookup_insert_ne].
Qed.

Lemma add_edge_parents from to g c :
  get_parents (add_edge from to g) c =
    if decide (to = c) then {[from]} ∪ get_parents g c else get_parents g c.
Proof.
  unfold add_edge, add_parent, add_child.
  repeat (rewrite ?insert_parents, ?at_vertex_parents, ?add_vertex_parents; cbn [parents]).
  repeat case_decide; subst; congruence || reflexivity.
Qed.

Lemma add_edge_children from to g c :
  get_children (add_edge from to g) c =
    if decide (from = c) then {[to]} ∪ get_children g c else get_children g c.
Proof.
  unfold add_edge, add_parent, add_child.
  repeat (rewrite ?insert_children, ?at_vertex_children, ?add_vertex_children; cbn [children]).
  repeat case_decide; subst; congruence || reflexivity.
Qed.

Lemma add_edge_dom from to g : dom (add_edge from to g) = {[from; to]} ∪ dom g.
Proof.
  unfold add_edge, add_parent, add_child. rewrite !dom_insert_L, !add_vertex_dom. set_solver.
Qed.

Lemma dep_add_edge from to g p c : dep (add_edge from to g) p c <-> dep g p c \/ p = from /\ c = to.
Proof. unfold dep. rewrite add_edge_parents. case_decide; set_solver. Qed.

Lemma dep_add_vertex v g p c : dep (add_vertex v g) p c <-> dep g p c.
Proof. unfold dep. now rewrite add_vertex_parents. Qed.

Lemma wf_empty : wf ∅.
Proof. intros u v. unfold get_children, get_parents. rewrite !lookup_empty. set_solver. Qed.

Lemma wf_add_vertex v g : wf g -> wf (add_vertex v g).
Proof. intros Hg a b. rewrite add_vertex_children, add_vertex_parents. apply Hg. Qed.

Lemma wf_add_edge from to g : wf g -> wf (add_edge from to g).
Proof.
  intros Hg a b. rewrite add_edge_children, add_edge_parents. pose proof (Hg a b).
  repeat case_decide; set_solver.
Qed.

Lemma tc_impl (R S : Z -> Z -> Prop) x y : (forall a b, R a b -> S a b) -> tc R x y -> tc S x y.
Proof. intros HRS. induction 1; [apply tc_once; auto | eapply tc_l; eauto]. Qed.

Lemma acyclic_add_vertex v g : acyclic g -> acyclic (add_vertex v g).
Proof. intros Ha x Hx. apply (Ha x). eapply tc_impl; [|exact Hx]. intros a b. apply dep_add_vertex. Qed.

(** A new path either is an old one or goes through the new edge. *)
Lemma tc_add_edge from to g u w :
  tc (dep (add_edge from to g)) u w ->
  tc (dep g) u w \/ rtc (dep g) u from /\ rtc (dep g) to w.
Proof.
  induction 1 as [a b [Hab|[-> ->]]%dep_add_edge|a b c [Hab|[-> ->]]%dep_add_edge _ IH].
  - left. now apply tc_once.
  - right. split; apply rtc_refl.
  - destruct IH as [IH|[H1 H2]]; [left; eapply tc_l; eassumption | right].
    split; [eapply rtc_l; eassumption | exact H2].
  - right. split; [apply rtc_refl |]. destruct IH as [IH|[H1 H2]]; [now apply tc_rtc | exact H2].
Qed.

Lemma acyclic_add_edge from to g :
  acyclic g -> from <> to -> ~ tc (dep g) to from -> acyclic (add_edge from to g).
Proof.
  intros Ha Hne Hno v Hv. apply tc_add_edge in Hv as [Hv|[H1 H2]]; [now apply (Ha v) |].
  assert (Hr : rtc (dep g) to from) by (etransitivity; eassumption).
  apply rtc_tc in Hr as [->|Hr]; contradiction.
Qed.

(** ** Union *)

Section Union.
Variable iter : gset Z -> list Z.
Hypothesis iter_elements : forall X, iter X ≡ₚ elements X.

Lemma dep_add_children v cs g p c :
  dep (foldl (fun g child => add_edge v child g) g cs) p c <-> dep g p c \/ p = v /\ c ∈ cs.
Proof.
  revert g. induction cs as [|x cs IH]; intros g; cbn.
  - split; [auto | intros [?|[_ []%elem_of_nil]]; assumption].
  - rewrite IH, dep_add_edge, elem_of_cons. tauto.
Qed.

Lemma wf_add_children v cs g : wf g -> wf (foldl (fun g child => add_edge v child g) g cs).
Proof. revert g. induction cs as [|x cs IH]; intros g Hg; cbn; [exact Hg | now apply IH, wf_add_edge]. Qed.

(** [union_] adds exactly the edges of the other graph. *)
Lemma union_ok g h :
  wf g -> wf h ->
  wf (union_ iter g h) /\ forall p c, dep (union_ iter g h) p c <-> dep g p c \/ dep h p c.
Proof.
  intros Hg Hh. unfold union_.
  assert (Hl : forall l g, wf g ->
    wf (foldl (fun g vx => foldl (fun g child => add_edge vx.1 child g) (add_vertex vx.1 g)
                             (iter (children vx.2))) g l)
    /\ forall p c, dep (foldl (fun g vx => foldl (fun g child => add_edge vx.1 child g)
                                 (add_vertex vx.1 g) (iter (children vx.2))) g l) p c
        <-> dep g p c \/ exists x, (p, x) ∈ l /\ c ∈ children x).
  { induction l as [|[v x] l IH]; intros k Hk; cbn.
    - split; [exact Hk |]. intros p c. split; [auto | intros [?|(x & []%elem_of_nil & _)]; assumption].
    - destruct (IH _ (wf_add_children v (iter (children x)) _ (wf_add_vertex v k Hk))) as [Hwf Hdep].
      split; [exact Hwf |]. intros p c. rewrite Hdep, dep_add_children, dep_add_vertex.
      setoid_rewrite elem_of_cons. rewrite (in_iter iter iter_elements). split.
      + intros [[?|[-> ?]]|(y & ? & ?)]; [auto | right; exists x; auto | right; exists y; auto].
      + intros [?|(y & [[= -> ->]|?] & ?)]; [auto | left; right; auto | right; exists y; auto]. }
  destruct (Hl (map_to_list h) g Hg) as [Hwf Hdep]. split; [exact Hwf |]. intros p c. rewrite Hdep.
  setoid_rewrite elem_of_map_to_list.
  assert (He : (exists x, h !! p = Some x /\ c ∈ children x) <-> dep h p c).
  { unfold dep. rewrite <- (Hh p c), <- edge_children. reflexivity. }
  now rewrite He.
Qed.

(** ** The number of ancestors ranks an acyclic graph *)

Definition ancestors_of (g : graph) (v : Z) : gset Z := default ∅ (get_ancestors iter g v).
Definition rank (g : graph) (v : Z) : nat := size (ancestors_of g v).

Lemma ancestors_of_spec g v u :
  wf g -> acyclic g -> u ∈ ancestors_of g v <-> tc (dep g) u v.
Proof.
  intros Hg Ha. unfold ancestors_of.
  destruct (get_ancestors_ok iter iter_elements g v Hg) as (A & -> & HA). cbn. rewrite HA.
  split; [tauto |]. intros Hu. split; [|exact Hu]. intros ->. now apply (Ha v).
Qed.

Lemma rank_lt g p c : wf g -> acyclic g -> dep g p c -> (rank g p < rank g c)%nat.
Proof.
  intros Hg Ha Hd. unfold rank. apply subset_size. split.
  - intros u. rewrite !ancestors_of_spec by assumption. intros Hu. eapply tc_r; eassumption.
  - intros Hsub. assert (Hp : p ∈ ancestors_of g c) by (apply ancestors_of_spec; auto; now apply tc_once).
    apply Hsub in Hp. rewrite ancestors_of_spec in Hp by assumption. now apply (Ha p).
Qed.

Lemma rank_size g v : wf g -> acyclic g -> (rank g v <= size (dom g))%nat.
Proof.
  intros Hg Ha. unfold rank. apply subseteq_size. intros u.
  rewrite ancestors_of_spec by assumption. intros Hu.
  destruct Hu as [x y Hxy|x y z Hxy _]; now apply (dep_dom g _ _ Hg) in Hxy.
Qed.

(** ** Properties *)

(** C30. The two stack searches terminate on every consistent graph, cyclic or
    not, within one turn per edge, and return exactly the other vertices from
    which there is a path to the vertex, and to which there is one. *)
Theorem graph_search_exact g v :
  wf g ->
  exists A D, get_ancestors iter g v = Some A /\ get_descendants iter g v = Some D
    /\ (forall u, u ∈ A <-> u <> v /\ tc (dep g) u v)
    /\ (forall u, u ∈ D <-> u <> v /\ tc (dep g) v u).
Proof.
  intros Hg. destruct (get_ancestors_ok iter iter_elements g v Hg) as (A & EA & HA).
  destruct (get_descendants_ok iter iter_elements g v Hg) as (D & ED & HD). exists A, D. auto.
Qed.

(** [union_] yields a consistent graph whose edges are those of the two. *)
Theorem union_edges g h :
  wf g -> wf h ->
  wf (union_ iter g h) /\ forall p c, dep (union_ iter g h) p c <-> dep g p c \/ dep h p c.
Proof. apply union_ok. Qed.
End Union.
