(* ===== verification/APServer.v ===== *)
(** * The analytical server: applying updates in dependency order

    OLAP/APServer.cc, APServer.h and [DeltaManager::ingestup]: the transactional
    side streams, for every (shard, column), updates and orders (a transaction
    with the transactions it depends on); the server holds an update back until
    the updates of the parents have been ingested.  A query puts the
    transactions it has to see on a waitlist and runs when it is empty.

    The critical sections of a handler are definitions of their own
    ([store_update], [store_order], [back], [clean_col]) and steps of the
    transition system of APProps.v, so that handlers may interleave between
    them; the query thread walks over the waitlist without its lock
    (APServer.cc:128), which is modelled as the visits of [clean_col] and, to
    drop the emptied entries, a whole turn [TriggerCleanWaitlist].  The loop of TriggerCheckParent, which compares iterators of
    two temporaries (line 319) and has undefined behaviour, is modelled as the
    loop over the parents that it means.  The maps indexed by
    shard and column are one finite map of cells.  Ingestion is the log of the
    updates passed to the delta manager. *)

From Stdlib Require Import ZArith Lia.
From stdpp Require Import base gmap sets list option strings sorting relations.
From S2P Require Import Prelude Graph.
Local Open Scope Z_scope.

(** ** Data *)

Record Update := {
  row_index : Z; pkey_col_name : string; pkey_val : string; value : string;
  op_type : Z; txnid : Z }.

Record Order := {
  txn_id : Z; estimated_lat : Z; parents_tid : list Z; touched_cols : list string }.

Record odVertex := { status : Z; up_cnt : Z; estimated_time : Z }.

(** A value-initialised vertex, as [operator[]] creates it. *)
Definition no_vertex : odVertex := {| status := 0; up_cnt := 0; estimated_time := 0 |}.

Record cell := {
  orderMap : graph;
  orderVec : gmap Z odVertex;
  updateMap : gmap Z (list Update) }.

Definition empty_cell : cell := {| orderMap := ∅; orderVec := ∅; updateMap := ∅ |}.

(** A shard and a column. *)
Abbreviation key := (Z * string)%type.

Abbreviation waitlist := (gmap Z (gmap Z (gmap string Z))).

(** The state while one cell is worked on. *)
Record work := { here : cell; waiting : waitlist; log : list (key * Update) }.

Record server := { cells : gmap key cell; waitlist_ : waitlist; ingest_log : list (key * Update) }.

Definition server_init : server := {| cells := ∅; waitlist_ := ∅; ingest_log := [] |}.

Definition with_vec (vec : gmap Z odVertex) (c : cell) : cell :=
  {| orderMap := orderMap c; orderVec := vec; updateMap := updateMap c |}.
Definition with_graph (g : graph) (c : cell) : cell :=
  {| orderMap := g; orderVec := orderVec c; updateMap := updateMap c |}.
Definition with_updates (m : gmap Z (list Update)) (c : cell) : cell :=
  {| orderMap := orderMap c; orderVec := orderVec c; updateMap := m |}.
Definition on_cell (c : cell) (w : work) : work :=
  {| here := c; waiting := waiting w; log := log w |}.

(** [std::map::insert]: an existing entry stays. *)
Definition insert_new {V} (k : Z) (v : V) (m : gmap Z V) : gmap Z V :=
  match m !! k with Some _ => m | None => <[k := v]> m end.

(** [orderVec[..][t]], which creates a missing entry. *)
Definition vec_ref (c : cell) (t : Z) : odVertex * cell :=
  match orderVec c !! t with
  | Some v => (v, c)
  | None => (no_vertex, with_vec (<[t := no_vertex]> (orderVec c)) c)
  end.

Definition set_applied (t : Z) (c : cell) : cell :=
  let (v, c) := vec_ref c t in
  with_vec (<[t := {| status := 1; up_cnt := up_cnt v; estimated_time := estimated_time v |}]>
              (orderVec c)) c.

(** [waitlist_[tid][shard_id][col_id] = 1] when there is such an entry. *)
Definition mark_waiting (t : Z) (k : key) (wl : waitlist) : waitlist :=
  match wl !! t with
  | Some shards =>
      match shards !! k.1 with
      | Some cols =>
          match cols !! k.2 with
          | Some _ => <[t := <[k.1 := <[k.2 := 1]> cols]> shards]> wl
          | None => wl
          end
      | None => wl
      end
  | None => wl
  end.

Section Server.
(** The iteration order of an [unordered_set] is unspecified. *)
Variable iter : gset Z -> list Z.

(** ** Applying an update *)

(** The end of [TriggerCheckParent]: the transaction's updates are ingested. *)
Definition ingest (k : key) (t : Z) (w : work) : work :=
  let c := here w in
  let ups := default [] (updateMap c !! t) in
  {| here := with_updates (delete t (updateMap c)) (set_applied t c);
     waiting := mark_waiting t k (waiting w);
     log := log w ++ ((fun u => (k, u)) <$> ups) |}.

(** The loop over the parents; [apply] is [ApplyUpdateByOrder]. *)
Fixpoint check_parents (apply : work -> Z -> option (work * bool)) (w : work) (ps : list Z) :
    option (work * bool) :=
  match ps with
  | [] => Some (w, true)
  | p :: ps' =>
      let (v, c) := vec_ref (here w) p in
      let w := on_cell c w in
      if status v =? 0 then
        '(w, ok) ← apply w p;
        if (ok : bool) then check_parents apply w ps' else Some (w, false)
      else check_parents apply w ps'
  end.

Definition TriggerCheckParent (apply : work -> Z -> option (work * bool)) (k : key) (w : work)
    (t : Z) : option (work * bool) :=
  let ps := get_parents (orderMap (here w)) t in
  if bool_decide (size ps = 0%nat) then Some (ingest k t w, true)
  else
    '(w, dep_check) ← check_parents apply w (iter ps);
    if (dep_check : bool) then Some (ingest k t w, true) else Some (w, false).

(** The recursion follows the parents; [None] is running out of fuel. *)
Fixpoint apply_fuel (fuel : nat) (k : key) (w : work) (t : Z) : option (work * bool) :=
  match fuel with
  | O => None
  | S fuel' =>
      let c := here w in
      if negb (isExist (orderMap c) t) || bool_decide (updateMap c !! t = None) then Some (w, false)
      else
        let (v, c) := vec_ref c t in
        let w := on_cell c w in
        if negb (up_cnt v =? Z.of_nat (length (default [] (updateMap c !! t))))
        then Some (w, false)
        else TriggerCheckParent (apply_fuel fuel' k) k w t
  end.

(** ** The handlers, one critical section each *)

Definition cell_at (s : server) (k : key) : cell := default empty_cell (cells s !! k).

Definition set_cell (s : server) (k : key) (c : cell) : server :=
  {| cells := <[k := c]> (cells s); waitlist_ := waitlist_ s; ingest_log := ingest_log s |}.

Definition ApplyUpdateByOrder (s : server) (k : key) (t : Z) : option (server * bool) :=
  let w := {| here := cell_at s k; waiting := waitlist_ s; log := ingest_log s |} in
  '(w, ok) ← apply_fuel (S (size (dom (orderMap (here w))))) k w t;
  Some ({| cells := <[k := here w]> (cells s); waitlist_ := waiting w; ingest_log := log w |}, ok).

(** The body of the loop of [TransferUpdate]: the first critical section stores
    an update that is not known, [None] when there is nothing to do. *)
Definition store_update (s : server) (k : key) (u : Update) : option server :=
  let c := cell_at s k in
  if op_type u =? 0 then
    match updateMap c !! txnid u with
    | Some _ => None
    | None => Some (set_cell s k (with_updates (<[txnid u := [u]]> (updateMap c)) c))
    end
  else None.

(** The second one, [backUpdate] and [backOrder]. *)
Definition back (s : server) (k : key) (t : Z) : option server := fst <$> ApplyUpdateByOrder s k t.

Definition receive_update (s : server) (k : key) (u : Update) : option server :=
  match store_update s k u with
  | None => Some s
  | Some s => back s k (txnid u)
  end.

(** A parent of an order: a placeholder that counts as applied, and an edge
    unless it would close a cycle. *)
Definition add_order_parent (t p : Z) (c : cell) : option cell :=
  let g := add_vertex p (orderMap c) in
  let vec := insert_new p {| status := 1; up_cnt := 1; estimated_time := 0 |} (orderVec c) in
  exists_ ← parentExist iter g t p;
  Some {| orderMap := if negb exists_ then add_edge p t g else g;
          orderVec := vec; updateMap := updateMap c |}.

Fixpoint add_order_parents (t : Z) (ps : list Z) (c : cell) : option cell :=
  match ps with
  | [] => Some c
  | p :: ps' => c ← add_order_parent t p c; add_order_parents t ps' c
  end.

Definition add_order (o : Order) (c : cell) : option cell :=
  let t := txn_id o in
  add_order_parents t (parents_tid o)
    {| orderMap := add_vertex t (orderMap c);
       orderVec := insert_new t
         {| status := 0; up_cnt := 1; estimated_time := estimated_lat o |} (orderVec c);
       updateMap := updateMap c |}.

(** The body of the loops of [TransferOrder], for one order and one of the
    columns it touches, in two critical sections as well. *)
Definition store_order (s : server) (k : key) (o : Order) : option server :=
  c ← add_order o (cell_at s k); Some (set_cell s k c).

Definition receive_order (s : server) (k : key) (o : Order) : option server :=
  s ← store_order s k o; back s k (txn_id o).

Fixpoint receive_updates (s : server) (k : key) (us : list Update) : option server :=
  match us with
  | [] => Some s
  | u :: us' => s ← receive_update s k u; receive_updates s k us'
  end.

(** [TransferUpdate] on one request. *)
Definition TransferUpdate (s : server) (shard : Z) (col : string) (us : list Update) :
    option server := receive_updates s (shard, col) us.

Fixpoint receive_order_cols (s : server) (shard : Z) (cols : list string) (o : Order) :
    option server :=
  match cols with
  | [] => Some s
  | col :: cols' => s ← receive_order s (shard, col) o; receive_order_cols s shard cols' o
  end.

(** [TransferOrder] on one request. *)
Fixpoint TransferOrder (s : server) (shard : Z) (os : list Order) : option server :=
  match os with
  | [] => Some s
  | o :: os' => s ← receive_order_cols s shard (touched_cols o) o; TransferOrder s shard os'
  end.

(** ** The waitlist of a query *)

(** [query]: a transaction joins the waitlist. *)
Definition wait_for (t : Z) (k : key) (wl : waitlist) : waitlist :=
  match wl !! t with
  | None => <[t := {[k.1 := {[k.2 := 0]}]}]> wl
  | Some shards =>
      match shards !! k.1 with
      | None => <[t := <[k.1 := {[k.2 := 0]}]> shards]> wl
      | Some cols =>
          let cols := match cols !! k.2 with Some _ => cols | None => <[k.2 := 0]> cols end in
          <[t := <[k.1 := cols]> shards]> wl
      end
  end.

(** [query]: the pending transactions of one shard and column. *)
Definition wait_for_cell (s : server) (k : key) : server :=
  let c := cell_at s k in
  {| cells := cells s;
     waitlist_ := foldl (fun wl t =>
       match orderVec c !! t with
       | Some v => if status v =? 0 then wait_for t k wl else wl
       | None => wl
       end) (waitlist_ s) (iter (dom (orderMap c)));
     ingest_log := ingest_log s |}.

(** [query]: all the shards of the columns a query touches. *)
Definition build_waitlist (s : server) (cols : list string) : server :=
  foldl (fun s col => foldl (fun s shard => wait_for_cell s (shard, col)) s (Z.of_nat <$> seq 0 30))
    s cols.

Definition with_waitlist (wl : waitlist) (s : server) : server :=
  {| cells := cells s; waitlist_ := wl; ingest_log := ingest_log s |}.

(** The body of the innermost loop of [TriggerCleanWaitlist]. *)
Definition clean_col (t shard : Z) (s : server) (col : string) : option server :=
  '(s, _) ← ApplyUpdateByOrder s (shard, col) t;
  let wl := waitlist_ s in
  let shards := default ∅ (wl !! t) in
  let cols := default ∅ (shards !! shard) in
  Some (match cols !! col with
        | Some z => if z =? 0 then s
                    else with_waitlist (<[t := <[shard := delete col cols]> shards]> wl) s
        | None => s
        end).

Fixpoint each {X} (f : server -> X -> option server) (s : server) (l : list X) : option server :=
  match l with
  | [] => Some s
  | x :: l' => s ← f s x; each f s l'
  end.

(** [std::map] iterates in the order of the keys. *)
Definition clean_shard (t : Z) (s : server) (shard : Z) : option server :=
  let cols := default ∅ (default ∅ (waitlist_ s !! t) !! shard) in
  s ← each (clean_col t shard) s (merge_sort String.le (elements (dom cols)));
  let wl := waitlist_ s in
  let shards := default ∅ (wl !! t) in
  Some (if bool_decide (size (default ∅ (shards !! shard)) = 0%nat)
        then with_waitlist (<[t := delete shard shards]> wl) s else s).

Definition clean_txn (s : server) (t : Z) : option server :=
  let shards := default ∅ (waitlist_ s !! t) in
  s ← each (clean_shard t) s (merge_sort Z.le (elements (dom shards)));
  let wl := waitlist_ s in
  Some (if bool_decide (size (default ∅ (wl !! t)) = 0%nat)
        then with_waitlist (delete t wl) s else s).

Definition TriggerCleanWaitlist (s : server) : option server :=
  each clean_txn s (merge_sort Z.le (elements (dom (waitlist_ s)))).
End Server.

(** ** The invariant of a cell *)

Definition st (c : cell) (t : Z) : Z := status (default no_vertex (orderVec c !! t)).

(** The transactions ingested into a cell, in order. *)
Definition ingested (k : key) (lg : list (key * Update)) : list Z :=
  (fun e => txnid e.2) <$> List.filter (fun e => bool_decide (e.1 = k)) lg.

Lemma ingested_app k l1 l2 : ingested k (l1 ++ l2) = ingested k l1 ++ ingested k l2.
Proof. unfold ingested. now rewrite List.filter_app, fmap_app. Qed.

Lemma ingested_here k us : ingested k ((fun u => (k, u)) <$> us) = txnid <$> us.
Proof.
  unfold ingested. induction us as [|u us IH]; [reflexivity |]. cbn.
  rewrite bool_decide_true by reflexivity. cbn. now rewrite IH.
Qed.

Lemma ingested_elsewhere k k' us : k' <> k -> ingested k' ((fun u => (k, u)) <$> us) = [].
Proof.
  intros Hne. unfold ingested. induction us as [|u us IH]; [reflexivity |]. cbn.
  rewrite bool_decide_false by congruence. exact IH.
Qed.

(** [ord] are the transactions whose order has arrived, [lg] the ingested ones. *)
Record cell_inv (c : cell) (ord : gset Z) (lg : list Z) : Prop := {
  ci_wf : wf (orderMap c);
  ci_acyclic : acyclic (orderMap c);
  ci_vec : dom (orderVec c) = dom (orderMap c);
  ci_cnt : forall t v, orderVec c !! t = Some v -> up_cnt v = 1;
  ci_updates : forall t us, updateMap c !! t = Some us -> exists u, us = [u] /\ txnid u = t;
  ci_fresh : forall t, t ∈ lg -> updateMap c !! t = None;
  ci_nodup : NoDup lg;
  ci_log : forall t, t ∈ lg -> t ∈ dom (orderMap c) /\ st c t <> 0;
  ci_ordered : forall p t, dep (orderMap c) p t -> t ∈ ord;
  ci_ord_dom : forall t, t ∈ ord -> t ∈ dom (orderMap c);
  ci_done : forall t, t ∈ ord -> st c t <> 0 -> t ∈ lg;
  ci_pending : forall t, t ∈ dom (orderMap c) -> st c t = 0 -> t ∈ ord;
  ci_order : forall t p l1 l2, lg = l1 ++ t :: l2 -> dep (orderMap c) p t -> p ∈ ord -> p ∈ l1 }.

Lemma cell_inv_empty : cell_inv empty_cell ∅ [].
Proof.
  split; cbn; try set_solver.
  - apply wf_empty.
  - intros v Hv. destruct Hv as [x y Hxy|x y z Hxy _]; unfold dep, get_parents in Hxy;
      rewrite lookup_empty in Hxy; set_solver.
  - constructor.
Qed.

(** An entry of the waitlist. *)
Definition wait_of (wl : waitlist) (t : Z) (k : key) : option Z :=
  shards ← wl !! t; cols ← shards !! k.1; cols !! k.2.

Lemma mark_waiting_spec t k wl t' k' :
  wait_of (mark_waiting t k wl) t' k' =
    if decide (t' = t /\ k' = k) then (fun _ => 1) <$> wait_of wl t k else wait_of wl t' k'.
Proof.
  unfold mark_waiting, wait_of. destruct k as [sh col], k' as [sh' col']. cbn.
  destruct (wl !! t) as [shards|] eqn:E1; cbn;
    [destruct (shards !! sh) as [cols|] eqn:E2; cbn; [destruct (cols !! col) eqn:E3; cbn |] |].
  all: case_decide as Hd; [destruct Hd as [-> [= -> ->]] |];
    rewrite ?lookup_insert_eq, ?E1; cbn; rewrite ?lookup_insert_eq, ?E2; cbn;
    rewrite ?lookup_insert_eq, ?E3; auto.
  destruct (decide (t' = t)) as [->|]; [|now rewrite lookup_insert_ne by congruence].
  rewrite lookup_insert_eq, E1. cbn.
  destruct (decide (sh' = sh)) as [->|]; [|now rewrite lookup_insert_ne by congruence].
  rewrite lookup_insert_eq, E2. cbn.
  destruct (decide (col' = col)) as [->|]; [|now rewrite lookup_insert_ne by congruence].
  exfalso. now apply Hd.
Qed.

(** How a cell may change while updates are applied: only the transactions [S]
    change, a status once set stays set, the updates of a transaction that is
    still pending are kept, and the waitlist is marked for what was applied. *)
Record evolves (k : key) (S : Z -> Prop) (w w' : work) : Prop := {
  ev_graph : orderMap (here w') = orderMap (here w);
  ev_frame : forall u, ~ S u -> st (here w') u = st (here w) u
               /\ updateMap (here w') !! u = updateMap (here w) !! u;
  ev_mono : forall u, st (here w) u <> 0 -> st (here w') u <> 0;
  ev_pending : forall u, st (here w') u = 0 -> updateMap (here w') !! u = updateMap (here w) !! u;
  ev_log : exists us, log w' = log w ++ ((fun u => (k, u)) <$> us);
  ev_wait : forall t k', wait_of (waiting w') t k' = wait_of (waiting w) t k'
              \/ k' = k /\ is_Some (wait_of (waiting w) t k)
                 /\ is_Some (wait_of (waiting w') t k) /\ st (here w') t <> 0 }.

Lemma evolves_refl k S w : evolves k S w w.
Proof. split; auto. exists []. now rewrite app_nil_r. Qed.

Lemma evolves_weaken k (S S' : Z -> Prop) w w' :
  (forall u, S u -> S' u) -> evolves k S w w' -> evolves k S' w w'.
Proof. intros HS [Hg Hf Hm Hp Hl Hw]. split; auto. Qed.

Lemma evolves_trans k S w1 w2 w3 : evolves k S w1 w2 -> evolves k S w2 w3 -> evolves k S w1 w3.
Proof.
  intros [G1 F1 M1 P1 L1 W1] [G2 F2 M2 P2 L2 W2]. split.
  - congruence.
  - intros u Hu. destruct (F1 u Hu), (F2 u Hu). split; congruence.
  - auto.
  - intros u Hu. rewrite P2 by exact Hu. apply P1.
    destruct (decide (st (here w2) u = 0)) as [E|E]; [exact E |]. now apply M2 in E.
  - destruct L1 as [u1 E1], L2 as [u2 E2]. exists (u1 ++ u2). now rewrite E2, E1, fmap_app, app_assoc.
  - intros t k'.
    destruct (W1 t k') as [E1|(K1 & S1 & S1' & N1)], (W2 t k') as [E2|(K2 & S2 & S2' & N2)].
    + left. congruence.
    + right. subst k'. rewrite <- E1. auto.
    + right. subst k'. rewrite E2. auto.
    + right. auto.
Qed.

(** ** Ingesting *)

Lemma vec_present c ord lg t :
  cell_inv c ord lg -> t ∈ dom (orderMap c) ->
  exists v, orderVec c !! t = Some v /\ vec_ref c t = (v, c) /\ status v = st c t /\ up_cnt v = 1.
Proof.
  intros Hi Ht. rewrite <- (ci_vec _ _ _ Hi) in Ht. apply elem_of_dom in Ht as [v Hv].
  exists v. unfold vec_ref, st. rewrite Hv. split_and!; auto. exact (ci_cnt _ _ _ Hi t v Hv).
Qed.

Lemma set_applied_here c v t :
  orderVec c !! t = Some v ->
  set_applied t c =
    with_vec (<[t := {| status := 1; up_cnt := up_cnt v; estimated_time := estimated_time v |}]>
                (orderVec c)) c.
Proof. intros Hv. unfold set_applied, vec_ref. now rewrite Hv. Qed.

Lemma st_insert c t v u :
  st (with_vec (<[t := v]> (orderVec c)) c) u = if decide (t = u) then status v else st c u.
Proof.
  unfold st. cbn. destruct (decide (t = u)) as [->|];
    [now rewrite lookup_insert_eq | now rewrite lookup_insert_ne].
Qed.

Lemma ingest_evolves k t w ord lg :
  cell_inv (here w) ord lg -> t ∈ dom (orderMap (here w)) ->
  evolves k (eq t) w (ingest k t w) /\ st (here (ingest k t w)) t = 1
  /\ updateMap (here (ingest k t w)) !! t = None.
Proof.
  intros Hi Ht. destruct (vec_present _ _ _ t Hi Ht) as (v & Hv & _).
  unfold ingest. cbn [here]. rewrite (set_applied_here _ v t Hv).
  set (c' := with_vec _ (here w)).
  assert (Hst : forall u, st (with_updates (delete t (updateMap (here w))) c') u
                          = if decide (t = u) then 1 else st (here w) u)
    by (intros u; exact (st_insert (here w) t _ u)).
  split_and!.
  - split; cbn [here orderMap updateMap with_updates with_vec log waiting]; auto.
    + intros u Hu. rewrite Hst. case_decide; [contradiction |].
      split; [reflexivity | now apply lookup_delete_ne].
    + intros u Hu. rewrite Hst. now case_decide.
    + intros u Hu. rewrite Hst in Hu. case_decide; [discriminate | now apply lookup_delete_ne].
    + eauto.
    + intros t' k'. destruct (decide (t' = t /\ k' = k)) as [[-> ->]|Hd];
        [|left; rewrite mark_waiting_spec; now rewrite decide_False by exact Hd].
      rewrite !mark_waiting_spec, !decide_True by auto.
      destruct (wait_of (waiting w) t k) as [z|]; [right | now left].
      split_and!; cbn; eauto. rewrite Hst, decide_True by reflexivity. lia.
  - rewrite Hst. now rewrite decide_True.
  - apply lookup_delete_eq.
Qed.

Lemma snoc_split {A} (l l1 l2 : list A) (x t : A) :
  l ++ [x] = l1 ++ t :: l2 -> (l2 = [] /\ l1 = l /\ t = x) \/ exists l2', l2 = l2' ++ [x] /\ l = l1 ++ t :: l2'.
Proof.
  destruct l2 as [|y l2 _] using rev_ind; intros E.
  - left. apply app_inj_tail in E as [-> ->]. auto.
  - right. exists l2. rewrite app_comm_cons, app_assoc in E. apply app_inj_tail in E as [-> ->]. auto.
Qed.

Lemma ingest_inv k t w ord lg :
  cell_inv (here w) ord lg -> t ∈ dom (orderMap (here w)) ->
  updateMap (here w) !! t <> None ->
  (forall p, dep (orderMap (here w)) p t -> st (here w) p <> 0) ->
  exists u, txnid u = t /\ log (ingest k t w) = log w ++ [(k, u)]
    /\ cell_inv (here (ingest k t w)) ord (lg ++ [t]).
Proof.
  intros Hi Ht Hup Hdeps. pose proof (ingest_evolves k t w ord lg Hi Ht) as (Hev & Hst & Hnone).
  destruct (vec_present _ _ _ t Hi Ht) as (v & Hv & _).
  destruct (updateMap (here w) !! t) as [us|] eqn:Eus; [|contradiction].
  destruct (ci_updates _ _ _ Hi t us Eus) as (u & -> & Hu). exists u.
  split_and!; [exact Hu | unfold ingest; cbn; now rewrite Eus |].
  assert (Hnew : t ∉ lg) by (intros Hin; apply (ci_fresh _ _ _ Hi) in Hin; congruence).
  pose proof Hi as [Hwf Hac Hvec Hcnt Hups Hfr Hnd Hlg Hord Hod Hdone Hpend Horder].
  destruct Hev as [Hg Hf Hm Hp _ _].
  assert (Hvec' : orderVec (here (ingest k t w)) =
    <[t := {| status := 1; up_cnt := up_cnt v; estimated_time := estimated_time v |}]> (orderVec (here w)))
    by (unfold ingest; cbn; now rewrite (set_applied_here _ v t Hv)).
  assert (Hupd : updateMap (here (ingest k t w)) = delete t (updateMap (here w))) by reflexivity.
  split; rewrite ?Hg; auto.
  - rewrite Hvec', dom_insert_L, Hvec. set_solver.
  - intros x y Hxy. rewrite Hvec' in Hxy. apply lookup_insert_Some in Hxy as [[_ <-]|[_ Hxy]];
      [exact (Hcnt t v Hv) | now apply (Hcnt x)].
  - intros x us Hx. rewrite Hupd in Hx. apply lookup_delete_Some in Hx as [_ Hx]. now apply Hups.
  - intros x [Hx|Hx%list_elem_of_singleton]%elem_of_app; [|now subst x].
    rewrite Hupd. apply lookup_delete_None. right. now apply Hfr.
  - apply list.NoDup_app. split_and!; auto; [|apply NoDup_singleton].
    intros x Hx ->%list_elem_of_singleton. contradiction.
  - intros x [Hx|Hx%list_elem_of_singleton]%elem_of_app.
    + destruct (Hlg x Hx). auto.
    + subst x. split; [exact Ht | rewrite Hst; lia].
  - intros x Hx Hnz. apply elem_of_app. destruct (decide (t = x)) as [->|Hne]; [right; now left | left].
    apply Hdone; [exact Hx |]. now rewrite <- (proj1 (Hf x Hne)).
  - intros x Hx H0. apply Hpend; [exact Hx |]. destruct (decide (st (here w) x = 0)) as [E|E]; [exact E |].
    now apply Hm in E.
  - intros x p l1 l2 E Hd Hpo. apply snoc_split in E as [(-> & -> & ->)|(l2' & -> & ->)].
    + now apply Hdone; [|apply Hdeps].
    + now apply (Horder x p l1 l2').
Qed.

(** ** Applying *)

Section ApplySpecs.
Variable iter : gset Z -> list Z.
Hypothesis iter_elements : forall X, iter X ≡ₚ elements X.
Variable k : key.
Variable ord : gset Z.

(** The ancestors of [t] that are still pending have their update. *)
Definition ancestors_ready (c : cell) (t : Z) : Prop :=
  forall u, tc (dep (orderMap c)) u t -> st c u = 0 -> updateMap c !! u <> None.

Definition ready (c : cell) (t : Z) : Prop :=
  t ∈ dom (orderMap c) /\ updateMap c !! t <> None /\ ancestors_ready c t.

Definition upto (g : graph) (t u : Z) : Prop := u = t \/ tc (dep g) u t.

Definition applies (t : Z) (w : work) (res : work * bool) : Prop :=
  cell_inv (here res.1) ord (ingested k (log res.1))
  /\ evolves k (upto (orderMap (here w)) t) w res.1
  /\ (res.2 = true -> st (here res.1) t <> 0
      /\ (is_Some (wait_of (waiting w) t k) -> wait_of (waiting res.1) t k = Some 1))
  /\ (ready (here w) t -> res.2 = true).

Lemma on_cell_here w : on_cell (here w) w = w.
Proof. now destruct w. Qed.

Lemma ancestors_ready_evolves S w w' t :
  evolves k S w w' -> ancestors_ready (here w) t -> ancestors_ready (here w') t.
Proof.
  intros Hev Hr u Hu H0. rewrite (ev_graph _ _ _ _ Hev) in Hu.
  rewrite (ev_pending _ _ _ _ Hev u H0). apply Hr; [exact Hu |].
  destruct (decide (st (here w) u = 0)) as [E|E]; [exact E |]. now apply (ev_mono _ _ _ _ Hev) in E.
Qed.

Lemma check_parents_ok apply t ps w :
  cell_inv (here w) ord (ingested k (log w)) ->
  (forall p, p ∈ ps -> dep (orderMap (here w)) p t) ->
  (forall w' p, p ∈ ps -> orderMap (here w') = orderMap (here w) ->
     cell_inv (here w') ord (ingested k (log w')) -> runs (apply w' p) (applies p w')) ->
  runs (check_parents apply w ps) (fun res =>
    cell_inv (here res.1) ord (ingested k (log res.1))
    /\ evolves k (fun u => tc (dep (orderMap (here w))) u t) w res.1
    /\ (res.2 = true -> forall p, p ∈ ps -> st (here res.1) p <> 0)
    /\ (ancestors_ready (here w) t -> res.2 = true)).
Proof.
  revert w. induction ps as [|p ps IH]; intros w Hi Hps Happ; cbn [check_parents].
  { apply runs_ret. split_and!; auto using evolves_refl. intros _ p []%elem_of_nil. }
  assert (Hd : dep (orderMap (here w)) p t) by (apply Hps; now left).
  pose proof (dep_dom _ _ _ (ci_wf _ _ _ Hi) Hd) as [Hp _].
  destruct (vec_present _ _ _ p Hi Hp) as (v & _ & -> & -> & _). rewrite on_cell_here.
  destruct (Z.eqb_spec (st (here w) p) 0) as [E0|E0].
  - eapply runs_bind; [apply Happ; [now left | reflexivity | exact Hi] |].
    intros [w1 ok] (Hi1 & Hev1 & Hok & Hready). cbn [fst snd] in *.
    assert (Hev1' : evolves k (fun u => tc (dep (orderMap (here w))) u t) w w1).
    { eapply evolves_weaken; [|exact Hev1]. intros u [->|Hu]; [now apply tc_once | eapply tc_r; eassumption]. }
    assert (Hrdy : ancestors_ready (here w) t -> ready (here w) p).
    { intros Hr. split_and!; [exact Hp | apply Hr; [now apply tc_once | exact E0] |].
      intros u Hu. apply Hr. eapply tc_r; eassumption. }
    destruct ok.
    + pose proof (ev_graph _ _ _ _ Hev1) as Hg1.
      eapply runs_mono; [apply (IH w1 Hi1) |].
      * intros q Hq. rewrite Hg1. apply Hps. now right.
      * intros w' q Hq Hg'. apply Happ; [now right | congruence].
      * intros [w2 ok2] (Hi2 & Hev2 & Hok2 & Hr2). cbn [fst snd] in *. rewrite Hg1 in Hev2.
        split_and!; auto.
        -- eapply evolves_trans; eassumption.
        -- intros -> q [->|Hq]%elem_of_cons; [|now apply Hok2].
           apply (ev_mono _ _ _ _ Hev2), Hok. reflexivity.
        -- intros Hr. apply Hr2. now apply (ancestors_ready_evolves _ _ _ _ Hev1').
    + apply runs_ret. cbn [fst snd]. split_and!; auto; discriminate.
  - eapply runs_mono; [apply (IH w Hi) |].
    + intros q Hq. apply Hps. now right.
    + intros w' q Hq. apply Happ. now right.
    + intros [w2 ok2] (Hi2 & Hev2 & Hok2 & Hr2). cbn [fst snd] in *. split_and!; auto.
      intros -> q [->|Hq]%elem_of_cons; [|now apply Hok2]. now apply (ev_mono _ _ _ _ Hev2).
Qed.

(** Ingesting [t] once its parents are applied. *)
Lemma ingest_applies t w w1 :
  cell_inv (here w1) ord (ingested k (log w1)) ->
  evolves k (fun u => tc (dep (orderMap (here w))) u t) w w1 ->
  t ∈ dom (orderMap (here w)) -> ~ tc (dep (orderMap (here w))) t t ->
  updateMap (here w) !! t <> None ->
  (forall p, dep (orderMap (here w)) p t -> st (here w1) p <> 0) ->
  applies t w (ingest k t w1, true).
Proof.
  intros Hi Hev Ht Hac Hup Hdeps. pose proof (ev_graph _ _ _ _ Hev) as Hg.
  rewrite <- Hg in Ht, Hdeps. rewrite <- (proj2 (ev_frame _ _ _ _ Hev t Hac)) in Hup.
  destruct (ingest_inv k t w1 ord _ Hi Ht Hup Hdeps) as (u & Hu & Hlog & Hi').
  destruct (ingest_evolves k t w1 ord _ Hi Ht) as (Hev' & Hst & _).
  unfold applies. cbn [fst snd]. split_and!.
  - rewrite Hlog, ingested_app. change [(k, u)] with ((fun u => (k, u)) <$> [u]).
    rewrite ingested_here. cbn. now rewrite Hu.
  - eapply evolves_trans; eapply evolves_weaken; try eassumption; unfold upto; auto.
  - intros _. rewrite Hst. split; [lia |]. intros [z Hz]. unfold ingest. cbn [waiting].
    rewrite mark_waiting_spec, decide_True by auto.
    destruct (ev_wait _ _ _ _ Hev t k) as [->|(_ & _ & [z' ->] & _)]; [now rewrite Hz | reflexivity].
  - reflexivity.
Qed.

Lemma apply_fuel_ok fuel t w :
  cell_inv (here w) ord (ingested k (log w)) -> (rank iter (orderMap (here w)) t < fuel)%nat ->
  runs (apply_fuel iter fuel k w t) (applies t w).
Proof.
  revert t w. induction fuel as [|fuel IH]; intros t w Hi Hf; [lia |]. cbn [apply_fuel].
  assert (Hno : forall w0, w0 = w -> (ready (here w) t -> False) -> runs (Some (w0, false)) (applies t w)).
  { intros w0 -> Hnr. apply runs_ret. split_and!; cbn [fst snd]; auto using evolves_refl; try discriminate. }
  unfold isExist. case_bool_decide as Ht; cbn [negb orb].
  2:{ apply Hno; [reflexivity |]. intros (? & _). contradiction. }
  case_bool_decide as Hup.
  { apply Hno; [reflexivity |]. now intros (_ & ? & _). }
  destruct (vec_present _ _ _ t Hi Ht) as (v & _ & -> & _ & Hcnt). rewrite on_cell_here.
  destruct (updateMap (here w) !! t) as [us|] eqn:Eus; [|contradiction].
  destruct (ci_updates _ _ _ Hi t us Eus) as (u & -> & Hu). rewrite Hcnt. cbn [default length negb].
  unfold TriggerCheckParent. pose proof (ci_acyclic _ _ _ Hi t) as Hac.
  case_bool_decide as Hsz.
  - apply runs_ret, ingest_applies; auto using evolves_refl; [congruence |].
    intros p Hp. exfalso. apply size_empty_inv in Hsz. unfold dep in Hp. set_solver.
  - eapply runs_bind.
    + apply (check_parents_ok _ t); [exact Hi | |].
      * intros p Hp. now apply (in_iter iter iter_elements) in Hp.
      * intros w' p Hp Hg' Hi'. apply IH; [exact Hi' |]. rewrite Hg'.
        apply (in_iter iter iter_elements) in Hp.
        pose proof (rank_lt iter iter_elements _ p t (ci_wf _ _ _ Hi) (ci_acyclic _ _ _ Hi) Hp). lia.
    + intros [w1 dep_check] (Hi1 & Hev1 & Hok & Hr). cbn [fst snd] in *. destruct dep_check.
      * apply runs_ret, ingest_applies; auto; [congruence |].
        intros p Hp. apply Hok; [reflexivity |]. now apply (in_iter iter iter_elements).
      * apply runs_ret. split_and!; cbn [fst snd]; auto; try discriminate.
        -- eapply evolves_weaken; [|exact Hev1]. unfold upto. auto.
        -- now intros (_ & _ & ?%Hr).
Qed.
End ApplySpecs.

(** ** Adding an order *)

Lemma insert_new_dom {V} (t : Z) (v : V) (m : gmap Z V) : dom (insert_new t v m) = {[t]} ∪ dom m.
Proof.
  unfold insert_new. destruct (m !! t) eqn:E; [|apply dom_insert_L].
  apply elem_of_dom_2 in E. set_solver.
Qed.

Lemma insert_new_old {V} (t u : Z) (v : V) (m : gmap Z V) :
  u ∈ dom m -> insert_new t v m !! u = m !! u.
Proof.
  intros Hu. unfold insert_new. destruct (m !! t) eqn:E; [reflexivity |].
  apply lookup_insert_ne. intros ->. apply elem_of_dom in Hu as [x Hx]. congruence.
Qed.

Lemma insert_new_some {V} (t u : Z) (v x : V) (m : gmap Z V) :
  insert_new t v m !! u = Some x -> m !! u = Some x \/ u = t /\ x = v /\ u ∉ dom m.
Proof.
  unfold insert_new. destruct (m !! t) eqn:E; [now left |]. intros H.
  apply lookup_insert_Some in H as [[<- <-]|[_ H]]; [right | now left].
  split_and!; auto. now apply not_elem_of_dom.
Qed.

Section OrderSpecs.
Variable iter : gset Z -> list Z.
Hypothesis iter_elements : forall X, iter X ≡ₚ elements X.

(** What adding the parent [p] of [t] does to the cell. *)
Record parent_added (t p : Z) (c c' : cell) : Prop := {
  pa_wf : wf (orderMap c');
  pa_acyclic : acyclic (orderMap c');
  pa_dom : dom (orderMap c') = {[p]} ∪ dom (orderMap c);
  pa_dep : forall x y, dep (orderMap c') x y <->
             dep (orderMap c) x y \/ x = p /\ y = t /\ ~ tc (dep (orderMap c)) t p;
  pa_vec : orderVec c' = insert_new p {| status := 1; up_cnt := 1; estimated_time := 0 |} (orderVec c);
  pa_updates : updateMap c' = updateMap c }.

Lemma tc_add_vertex v g x y : tc (dep (add_vertex v g)) x y <-> tc (dep g) x y.
Proof. split; apply tc_impl; intros a b; apply dep_add_vertex. Qed.

Lemma add_order_parent_ok t p c :
  wf (orderMap c) -> acyclic (orderMap c) -> t <> p -> t ∈ dom (orderMap c) ->
  runs (add_order_parent iter t p c) (parent_added t p c).
Proof.
  intros Hwf Hac Hne Ht. unfold add_order_parent.
  eapply runs_bind; [apply (parentExist_ok iter iter_elements), wf_add_vertex, Hwf |].
  intros b Hb. apply runs_ret. cbn beta in Hb. rewrite tc_add_vertex in Hb.
  pose proof (wf_add_vertex p _ Hwf) as Hwf'. pose proof (acyclic_add_vertex p _ Hac) as Hac'.
  destruct b; cbn [negb].
  - split; cbn; auto using add_vertex_dom. intros x y. rewrite dep_add_vertex.
    destruct Hb as [Hb _]. specialize (Hb eq_refl). tauto.
  - assert (Hno : ~ tc (dep (orderMap c)) t p) by (intros Htc; destruct Hb as [_ Hb]; discriminate (Hb (conj Hne Htc))).
    split; cbn; auto using wf_add_edge.
    + apply acyclic_add_edge; [exact Hac' | congruence | now rewrite tc_add_vertex].
    + rewrite add_edge_dom, add_vertex_dom. set_solver.
    + intros x y. rewrite dep_add_edge, dep_add_vertex. tauto.
Qed.

(** The guard keeps the graph acyclic, whatever arrived before. *)
Lemma add_order_parents_acyclic t ps c :
  wf (orderMap c) -> acyclic (orderMap c) -> t ∉ ps -> t ∈ dom (orderMap c) ->
  runs (add_order_parents iter t ps c) (fun c' => wf (orderMap c') /\ acyclic (orderMap c')
    /\ dom (orderMap c') = list_to_set ps ∪ dom (orderMap c) /\ updateMap c' = updateMap c).
Proof.
  revert c. induction ps as [|p ps IH]; intros c Hwf Hac Hnin Ht; cbn [add_order_parents].
  { apply runs_ret. split_and!; auto. set_solver. }
  apply not_elem_of_cons in Hnin as [Hne Hnin].
  eapply runs_bind; [now apply add_order_parent_ok |]. intros c1 [W1 A1 D1 _ _ U1].
  eapply runs_mono; [apply IH; auto; rewrite D1; set_solver |].
  intros c2 (W2 & A2 & D2 & U2). split_and!; auto; [rewrite D2, D1; set_solver | congruence].
Qed.

(** A status that is set stays set. *)
Definition keeps (c c' : cell) : Prop := forall u, st c u <> 0 -> st c' u <> 0.

Lemma keeps_insert_new t v c c' :
  orderVec c' = insert_new t v (orderVec c) -> keeps c c'.
Proof.
  intros E u Hu. unfold st in *. rewrite E, insert_new_old; [exact Hu |].
  apply elem_of_dom. destruct (orderVec c !! u); [eauto | contradiction].
Qed.

(** The invariant while the parents of the new transaction [t] are added. *)
Definition adding (t : Z) (c : cell) (ord : gset Z) (lg : list Z) : Prop :=
  cell_inv c ord lg /\ t ∈ ord /\ t ∉ lg.

Lemma st_insert_new t v c u :
  u ∈ dom (orderVec c) -> st (with_vec (insert_new t v (orderVec c)) c) u = st c u.
Proof. intros Hu. unfold st. cbn. now rewrite insert_new_old. Qed.

Lemma add_order_parent_inv t p c ord lg :
  adding t c ord lg -> t <> p ->
  runs (add_order_parent iter t p c) (fun c' => adding t c' ord lg
    /\ updateMap c' = updateMap c /\ keeps c c'
    /\ forall x y, dep (orderMap c') x y <->
         dep (orderMap c) x y \/ x = p /\ y = t /\ ~ tc (dep (orderMap c)) t p).
Proof.
  intros (Hi & Hto & Htl) Hne. pose proof Hi as [Hwf Hac Hvec Hcnt Hups Hfr Hnd Hlg Hord Hod Hdone Hpend Horder].
  eapply runs_mono; [apply add_order_parent_ok; auto |].
  intros c' [W A D Dep Vec Ups]. unfold adding. split_and!; auto; [|eapply keeps_insert_new, Vec].
  assert (Hst : forall u, u ∈ dom (orderMap c) -> st c' u = st c u).
  { intros u Hu. unfold st. rewrite Vec, insert_new_old; [reflexivity |]. now rewrite Hvec. }
  split; rewrite ?Ups; auto.
  - rewrite Vec, D, insert_new_dom, Hvec. reflexivity.
  - intros u v Hv. rewrite Vec in Hv. apply insert_new_some in Hv as [Hv|(_ & -> & _)]; [eauto | reflexivity].
  - intros u Hu. destruct (Hlg u Hu) as [Hd Hs]. rewrite Hst by exact Hd. rewrite D. set_solver.
  - intros x y [Hd|(_ & -> & _)]%Dep; [eauto | exact Hto].
  - intros u Hu. rewrite D. apply Hod in Hu. set_solver.
  - intros u Hu Hs. rewrite Hst in Hs by auto. auto.
  - intros u Hu Hs. destruct (decide (u ∈ dom (orderMap c))) as [Hd|Hd];
      [rewrite Hst in Hs by exact Hd; auto |].
    exfalso. unfold st in Hs. rewrite Vec in Hs. unfold insert_new in Hs.
    assert (u = p) as -> by (rewrite D in Hu; set_solver).
    rewrite <- Hvec in Hd. apply not_elem_of_dom in Hd. rewrite Hd, lookup_insert_eq in Hs. discriminate.
  - intros x q l1 l2 E [Hd|(_ & -> & _)]%Dep Hq; [now apply (Horder x q l1 l2) |].
    exfalso. apply Htl. rewrite E. apply elem_of_app. right. now left.
Qed.

Lemma add_order_parents_inv t ps c ord lg :
  adding t c ord lg -> t ∉ ps -> (forall x, ~ dep (orderMap c) t x) ->
  runs (add_order_parents iter t ps c) (fun c' => adding t c' ord lg
    /\ updateMap c' = updateMap c /\ keeps c c'
    /\ forall x y, dep (orderMap c') x y <-> dep (orderMap c) x y \/ x ∈ ps /\ y = t).
Proof.
  revert c. induction ps as [|p ps IH]; intros c Hadd Hnin Hleaf; cbn [add_order_parents].
  { apply runs_ret. split_and!; auto; [now intros u |].
    intros x y. split; [auto | intros [?|[[]%elem_of_nil _]]; assumption]. }
  apply not_elem_of_cons in Hnin as [Hne Hnin].
  assert (Hno : ~ tc (dep (orderMap c)) t p) by (intros Htc; destruct Htc; eapply Hleaf; eassumption).
  eapply runs_bind; [apply (add_order_parent_inv t p c ord lg Hadd Hne) |]. intros c1 (Hadd1 & U1 & K1 & Dep1).
  eapply runs_mono; [apply (IH c1 Hadd1 Hnin) |].
  - intros x [Hx|(-> & _)]%Dep1; [now apply (Hleaf x) | contradiction].
  - intros c2 (Hadd2 & U2 & K2 & Dep2). split_and!; [exact Hadd2 | congruence | intros u Hu; now apply K2, K1 |].
    intros x y. rewrite Dep2, Dep1, elem_of_cons. tauto.
Qed.

(** An order whose transaction the cell does not know yet. *)
Lemma add_order_inv o c ord lg :
  cell_inv c ord lg -> txn_id o ∉ dom (orderMap c) -> txn_id o ∉ parents_tid o ->
  runs (add_order iter o c) (fun c' => cell_inv c' ({[txn_id o]} ∪ ord) lg
    /\ updateMap c' = updateMap c /\ keeps c c'
    /\ forall x y, dep (orderMap c') x y <->
         dep (orderMap c) x y \/ x ∈ parents_tid o /\ y = txn_id o).
Proof.
  intros Hi Hnew Hself. unfold add_order. set (t := txn_id o) in *.
  set (v := {| status := 0; up_cnt := 1; estimated_time := _ |}).
  set (c0 := {| orderMap := add_vertex t (orderMap c); orderVec := _; updateMap := _ |}).
  pose proof Hi as [Hwf Hac Hvec Hcnt Hups Hfr Hnd Hlg Hord Hod Hdone Hpend Horder].
  assert (Hst : forall u, u ∈ dom (orderMap c) -> st c0 u = st c u).
  { intros u Hu. unfold st. cbn. rewrite insert_new_old; [reflexivity |]. now rewrite Hvec. }
  assert (Ht0 : st c0 t = 0).
  { unfold st. cbn. unfold insert_new. replace (orderVec c !! t) with (@None odVertex);
      [now rewrite lookup_insert_eq |]. symmetry. apply not_elem_of_dom. now rewrite Hvec. }
  assert (Hadd : adding t c0 ({[t]} ∪ ord) lg).
  { unfold adding. split_and!; [|set_solver | intros Hin; now apply Hlg in Hin as [? _]].
    split; cbn [c0 orderMap orderVec updateMap]; auto using wf_add_vertex, acyclic_add_vertex.
    - rewrite insert_new_dom, add_vertex_dom, Hvec. reflexivity.
    - intros u x Hx. apply insert_new_some in Hx as [Hx|(_ & -> & _)]; [eauto | reflexivity].
    - intros u Hu. destruct (Hlg u Hu) as [Hd Hs]. rewrite Hst, add_vertex_dom by exact Hd. set_solver.
    - intros x y Hd%dep_add_vertex. apply Hord in Hd. set_solver.
    - intros u [->%elem_of_singleton|Hu%Hod]%elem_of_union; rewrite add_vertex_dom; set_solver.
    - intros u [->%elem_of_singleton|Hu]%elem_of_union Hs; [contradiction |].
      rewrite Hst in Hs by auto. auto.
    - intros u Hu Hs. rewrite add_vertex_dom in Hu.
      destruct (decide (u = t)) as [->|Hne]; [set_solver |].
      assert (Hu' : u ∈ dom (orderMap c)) by set_solver. rewrite Hst in Hs by exact Hu'.
      apply Hpend in Hs; [set_solver | exact Hu'].
    - intros x q l1 l2 E Hd%dep_add_vertex [->%elem_of_singleton|Hq]%elem_of_union;
        [|now apply (Horder x q l1 l2)].
      exfalso. apply Hnew. now apply (dep_dom _ _ _ Hwf Hd). }
  eapply runs_mono; [apply (add_order_parents_inv t _ c0 _ lg Hadd Hself) |].
  - intros x Hd%dep_add_vertex. apply Hnew. now apply (dep_dom _ _ _ Hwf Hd).
  - intros c' ((Hi' & _) & U & Kp & Dep). split_and!; auto.
    { intros u Hu. apply Kp. revert u Hu. now apply (keeps_insert_new t v). }
    intros x y. rewrite Dep. cbn. now rewrite dep_add_vertex.
Qed.
End OrderSpecs.

(** ** The server *)

Section ServerSpecs.
Variable iter : gset Z -> list Z.
Hypothesis iter_elements : forall X, iter X ≡ₚ elements X.

(** Every cell is in order, and only applied transactions are marked. *)
Record server_inv (s : server) (ord : key -> gset Z) : Prop := {
  si_cells : forall k, cell_inv (cell_at s k) (ord k) (ingested k (ingest_log s));
  si_marked : forall t k z, wait_of (waitlist_ s) t k = Some z -> z <> 0 ->
                st (cell_at s k) t <> 0 }.

(** Statuses stay set, and only applied transactions leave the waitlist. *)
Record advances (s s' : server) : Prop := {
  ad_status : forall k t, st (cell_at s k) t <> 0 -> st (cell_at s' k) t <> 0;
  ad_wait : forall t k, is_Some (wait_of (waitlist_ s) t k) ->
              is_Some (wait_of (waitlist_ s') t k) \/ st (cell_at s' k) t <> 0 }.

#[export] Instance advances_preorder : PreOrder advances.
Proof.
  split; [intros s; split; auto |]. intros s1 s2 s3 [S1 W1] [S2 W2]. split; auto.
  intros t k Hw. destruct (W1 t k Hw) as [Hw2|Hs]; auto.
Qed.

Lemma cell_at_insert s k c k' wl lg :
  cell_at {| cells := <[k := c]> (cells s); waitlist_ := wl; ingest_log := lg |} k' =
    if decide (k = k') then c else cell_at s k'.
Proof.
  unfold cell_at. cbn. destruct (decide (k = k')) as [->|];
    [now rewrite lookup_insert_eq | now rewrite lookup_insert_ne].
Qed.

Lemma apply_ok s ord k t :
  server_inv s ord ->
  runs (ApplyUpdateByOrder iter s k t) (fun res => server_inv res.1 ord /\ advances s res.1
    /\ (res.2 = true -> st (cell_at res.1 k) t <> 0)
    /\ (ready (cell_at s k) t -> res.2 = true)).
Proof.
  intros [Hc Hm]. unfold ApplyUpdateByOrder. cbn [here].
  eapply runs_bind.
  { apply (apply_fuel_ok iter iter_elements k (ord k)); [exact (Hc k) |]. cbn.
    pose proof (rank_size iter iter_elements (orderMap (cell_at s k)) t
                  (ci_wf _ _ _ (Hc k)) (ci_acyclic _ _ _ (Hc k))). lia. }
  intros [w ok] (Hi & Hev & Hok & Hr). cbn [fst snd here] in *. apply runs_ret. cbn [fst snd].
  destruct Hev as [Hg Hf Hmo Hp [us Hl] Hw]. cbn [here log waiting] in *.
  split_and!; [| |rewrite cell_at_insert, decide_True by reflexivity; apply Hok | exact Hr].
  - split.
    + intros k'. rewrite cell_at_insert. cbn [ingest_log]. case_decide as E; [now subst k' |].
      rewrite Hl, ingested_app, ingested_elsewhere, app_nil_r by congruence. apply Hc.
    + intros u k' z Hz Hnz. rewrite cell_at_insert. cbn [waitlist_] in Hz.
      destruct (Hw u k') as [Ew|(-> & _ & _ & Hs)]; [|now rewrite decide_True].
      rewrite Ew in Hz. specialize (Hm u k' z Hz Hnz). case_decide; [subst k'; auto | exact Hm].
  - split.
    + intros k' u Hs. rewrite cell_at_insert. case_decide; [subst k'; auto | exact Hs].
    + intros u k' Hs. cbn [waitlist_]. left. destruct (Hw u k') as [->|(-> & _ & Hs' & _)]; auto.
Qed.

Lemma set_cell_inv s ord k c o :
  server_inv s ord -> cell_inv c o (ingested k (ingest_log s)) -> keeps (cell_at s k) c ->
  server_inv (set_cell s k c) (fun k' => if decide (k = k') then o else ord k')
  /\ advances s (set_cell s k c).
Proof.
  intros [Hc Hm] Hi Hk. unfold set_cell. split; split.
  - intros k'. rewrite cell_at_insert. cbn [ingest_log]. case_decide; [now subst k' | apply Hc].
  - intros t k' z Hz Hnz. rewrite cell_at_insert. specialize (Hm t k' z Hz Hnz).
    case_decide; [subst k'; auto | exact Hm].
  - intros k' t Hs. rewrite cell_at_insert. case_decide; [subst k'; auto | exact Hs].
  - auto.
Qed.

Lemma store_update_ok s ord k u s1 :
  server_inv s ord -> txnid u ∉ ingested k (ingest_log s) -> store_update s k u = Some s1 ->
  server_inv s1 ord /\ advances s s1.
Proof using iter_elements.
  intros Hi Hnew. unfold store_update. destruct (op_type u =? 0); [|discriminate].
  destruct (updateMap (cell_at s k) !! txnid u) eqn:E; [discriminate |]. intros [= <-].
  set (c := with_updates _ (cell_at s k)).
  assert (Hci : cell_inv c (ord k) (ingested k (ingest_log s))).
  { destruct (si_cells _ _ Hi k) as [Hwf Hac Hvec Hcnt Hups Hfr Hnd Hlg Hord Hod Hdone Hpend Horder].
    split; auto; cbn.
    - intros t us Hus. apply lookup_insert_Some in Hus as [[<- <-]|[_ Hus]]; [eauto | now apply Hups].
    - intros t Ht. rewrite lookup_insert_ne; [now apply Hfr | congruence]. }
  destruct (set_cell_inv s ord k c (ord k) Hi Hci) as [[Hc1 Hm1] Had]; [now intros t |].
  split; [|exact Had]. split; [|exact Hm1].
  intros k'. specialize (Hc1 k'). case_decide; [now subst k' | exact Hc1].
Qed.

Lemma back_ok s ord k t :
  server_inv s ord -> runs (back iter s k t) (fun s' => server_inv s' ord /\ advances s s').
Proof.
  intros Hi. unfold back. destruct (apply_ok _ _ k t Hi) as ([s' ok] & -> & Hi' & Had' & _).
  apply runs_ret. auto.
Qed.

Lemma receive_update_ok s ord k u :
  server_inv s ord -> txnid u ∉ ingested k (ingest_log s) ->
  runs (receive_update iter s k u) (fun s' => server_inv s' ord /\ advances s s').
Proof.
  intros Hi Hnew. unfold receive_update.
  destruct (store_update s k u) as [s1|] eqn:E; [|apply runs_ret; split; [exact Hi | reflexivity]].
  destruct (store_update_ok s ord k u s1 Hi Hnew E) as [Hi1 Ha].
  eapply runs_mono; [exact (back_ok s1 ord k (txnid u) Hi1) |].
  intros s' [Hi' Ha']. split; [exact Hi' | now transitivity s1].
Qed.

Definition ordered_after (ord : key -> gset Z) (k : key) (t : Z) : key -> gset Z :=
  fun k' => if decide (k = k') then {[t]} ∪ ord k else ord k'.

Lemma store_order_ok s ord k o :
  server_inv s ord -> txn_id o ∉ dom (orderMap (cell_at s k)) -> txn_id o ∉ parents_tid o ->
  runs (store_order iter s k o) (fun s' =>
    server_inv s' (ordered_after ord k (txn_id o)) /\ advances s s').
Proof.
  intros Hi Hnew Hself. unfold store_order.
  eapply runs_bind; [apply (add_order_inv iter iter_elements o _ _ _ (si_cells _ _ Hi k) Hnew Hself) |].
  intros c (Hci & _ & Hkeep & _).
  destruct (set_cell_inv s ord k c _ Hi Hci Hkeep) as [Hi1 Had]. now apply runs_ret.
Qed.

Lemma receive_order_ok s ord k o :
  server_inv s ord -> txn_id o ∉ dom (orderMap (cell_at s k)) -> txn_id o ∉ parents_tid o ->
  runs (receive_order iter s k o) (fun s' =>
    server_inv s' (ordered_after ord k (txn_id o)) /\ advances s s').
Proof.
  intros Hi Hnew Hself. unfold receive_order. eapply runs_bind; [now apply (store_order_ok s ord) |].
  intros s1 [Hi1 Ha]. eapply runs_mono; [exact (back_ok s1 _ k (txn_id o) Hi1) |].
  intros s' [Hi' Ha']. split; [exact Hi' | now transitivity s1].
Qed.

(** *** The waitlist *)

Lemma wait_for_spec t k wl t' k' :
  wait_of (wait_for t k wl) t' k' =
    if decide (t' = t /\ k' = k) then Some (default 0 (wait_of wl t k)) else wait_of wl t' k'.
Proof.
  unfold wait_for, wait_of. destruct k as [sh col], k' as [sh' col']. cbn.
  destruct (decide (t' = t)) as [->|Ht].
  2:{ rewrite decide_False by tauto.
      destruct (wl !! t) as [shards|]; [destruct (shards !! sh) |]; now rewrite lookup_insert_ne by congruence. }
  destruct (wl !! t) as [shards|] eqn:E1; cbn; rewrite ?lookup_insert_eq; cbn.
  2:{ destruct (decide (sh' = sh)) as [->|Hs].
      - rewrite lookup_insert_eq. cbn. destruct (decide (col' = col)) as [->|Hcol].
        + now rewrite lookup_insert_eq, decide_True.
        + rewrite lookup_insert_ne, lookup_empty, decide_False; [reflexivity | naive_solver | congruence].
      - rewrite lookup_insert_ne, lookup_empty, decide_False; [reflexivity | naive_solver | congruence]. }
  destruct (shards !! sh) as [cols|] eqn:E2; cbn; rewrite lookup_insert_eq; cbn;
    (destruct (decide (sh' = sh)) as [->|Hs];
     [rewrite lookup_insert_eq; cbn
     |rewrite lookup_insert_ne, decide_False by (congruence || naive_solver); reflexivity]).
  - destruct (decide (col' = col)) as [->|Hcol].
    + rewrite decide_True by auto. destruct (cols !! col) eqn:E3; [exact E3 | now rewrite lookup_insert_eq].
    + rewrite decide_False, E2 by naive_solver. cbn.
      destruct (cols !! col); [reflexivity | now rewrite lookup_insert_ne by congruence].
  - destruct (decide (col' = col)) as [->|Hcol].
    + now rewrite lookup_insert_eq, decide_True.
    + rewrite lookup_insert_ne, lookup_empty, decide_False, E2;
        [reflexivity | naive_solver | congruence].
Qed.

(** All the pending transactions of a cell are on the waitlist. *)
Lemma wait_for_cell_ok s ord k :
  server_inv s ord ->
  server_inv (wait_for_cell iter s k) ord /\ advances s (wait_for_cell iter s k)
  /\ cells (wait_for_cell iter s k) = cells s
  /\ forall t, t ∈ dom (orderMap (cell_at s k)) -> st (cell_at s k) t = 0 ->
       is_Some (wait_of (waitlist_ (wait_for_cell iter s k)) t k).
Proof.
  intros [Hc Hm]. unfold wait_for_cell. set (c := cell_at s k).
  set (f := fun (wl : waitlist) t => match orderVec c !! t with
              | Some v => if status v =? 0 then wait_for t k wl else wl | None => wl end).
  assert (Hf : forall wl t t' k', wait_of wl t' k' = wait_of (f wl t) t' k'
    \/ wait_of wl t' k' = None /\ wait_of (f wl t) t' k' = Some 0).
  { intros wl t t' k'. unfold f. destruct (orderVec c !! t) as [v|]; [|auto].
    destruct (status v =? 0); [|auto]. rewrite wait_for_spec. case_decide as E; [|auto].
    destruct E as [-> ->]. destruct (wait_of wl t k); auto. }
  assert (Hl : forall l wl, (forall t' k', wait_of wl t' k' = wait_of (foldl f wl l) t' k'
      \/ wait_of wl t' k' = None /\ wait_of (foldl f wl l) t' k' = Some 0)
    /\ forall t v, t ∈ l -> orderVec c !! t = Some v -> status v = 0 ->
         is_Some (wait_of (foldl f wl l) t k)).
  { induction l as [|x l IH]; intros wl; cbn.
    - split; [auto | intros t v []%elem_of_nil].
    - destruct (IH (f wl x)) as [H1 H2]. split.
      + intros t' k'. destruct (H1 t' k') as [E1|[E1 E2]], (Hf wl x t' k') as [F1|[F1 F2]].
        * left. congruence.
        * right. split; congruence.
        * right. split; congruence.
        * congruence.
      + intros t v [->|Ht]%elem_of_cons Hv Hs; [|now apply (H2 t v)].
        assert (Hx : is_Some (wait_of (f wl x) x k)).
        { unfold f. rewrite Hv, Hs. cbn. rewrite wait_for_spec, decide_True; eauto. }
        destruct (H1 x k) as [<-|[_ ->]]; [exact Hx | eauto]. }
  destruct (Hl (iter (dom (orderMap c))) (waitlist_ s)) as [H1 H2].
  split_and!; [split | split | reflexivity |]; cbn; auto.
  - intros t k' z Hz Hnz. destruct (H1 t k') as [E|[_ E]]; [|congruence].
    apply (Hm t k' z); [congruence | exact Hnz].
  - intros t k' Hs. left. destruct (H1 t k') as [<-|[_ ->]]; [exact Hs | eauto].
  - intros t Ht Hs. destruct (vec_present c (ord k) _ t (Hc k) Ht) as (v & Hv & _ & Hsv & _).
    apply (H2 t v); [now apply (in_iter iter iter_elements) | exact Hv | congruence].
Qed.

(** *** Cleaning *)

(** A change of the waitlist that only drops marked entries. *)
Lemma with_waitlist_ok s ord wl :
  server_inv s ord ->
  (forall t k, wait_of wl t k = wait_of (waitlist_ s) t k
     \/ wait_of wl t k = None /\ (wait_of (waitlist_ s) t k = None
          \/ exists z, wait_of (waitlist_ s) t k = Some z /\ z <> 0)) ->
  server_inv (with_waitlist wl s) ord /\ advances s (with_waitlist wl s).
Proof.
  intros [Hc Hm] Hwl. split; split; cbn; auto.
  - intros t k z Hz. destruct (Hwl t k) as [E|[E _]]; [|congruence]. apply (Hm t k z). congruence.
  - intros t k Hs. destruct (Hwl t k) as [->|[_ [E|(z & E & Hz)]]]; [auto | rewrite E in Hs; now destruct Hs |].
    right. exact (Hm t k z E Hz).
Qed.

Definition cleans {X} (f : server -> X -> option server) : Prop :=
  forall s ord x, server_inv s ord -> runs (f s x) (fun s' => server_inv s' ord /\ advances s s').

Lemma each_ok {X} (f : server -> X -> option server) s ord l :
  cleans f -> server_inv s ord -> runs (each f s l) (fun s' => server_inv s' ord /\ advances s s').
Proof.
  intros Hf. revert s. induction l as [|x l IH]; intros s Hi; cbn.
  - apply runs_ret. split; [exact Hi | reflexivity].
  - eapply runs_bind; [exact (Hf s ord x Hi) |]. intros s1 [Hi1 Ha1].
    eapply runs_mono; [exact (IH s1 Hi1) |]. intros s2 [Hi2 Ha2]. split; [exact Hi2 | now transitivity s1].
Qed.

Lemma clean_col_ok t shard : cleans (clean_col iter t shard).
Proof.
  intros s ord col Hi. unfold clean_col.
  eapply runs_bind; [exact (apply_ok s ord (shard, col) t Hi) |].
  intros [s1 ok] (Hi1 & Ha1 & _). apply runs_ret. cbn [fst snd] in *.
  destruct (waitlist_ s1 !! t) as [shards|] eqn:E1; cbn; [|rewrite lookup_empty; cbn; rewrite lookup_empty; auto].
  destruct (shards !! shard) as [cols|] eqn:E2; cbn; [|rewrite lookup_empty; auto].
  destruct (cols !! col) as [z|] eqn:E3; [|auto]. destruct (Z.eqb_spec z 0) as [|Hz]; [auto |].
  destruct (with_waitlist_ok s1 ord (<[t := <[shard := delete col cols]> shards]> (waitlist_ s1)) Hi1) as [Hi2 Ha2].
  - intros t' [sh' col']. unfold wait_of. cbn.
    destruct (decide (t' = t)) as [->|]; [|left; now rewrite lookup_insert_ne by congruence].
    rewrite lookup_insert_eq, E1. cbn.
    destruct (decide (sh' = shard)) as [->|]; [|left; now rewrite lookup_insert_ne by congruence].
    rewrite lookup_insert_eq, E2. cbn.
    destruct (decide (col' = col)) as [->|]; [|left; now rewrite lookup_delete_ne by congruence].
    rewrite lookup_delete_eq. right. eauto.
  - split; [exact Hi2 | now transitivity s1].
Qed.

Lemma clean_shard_ok t : cleans (clean_shard iter t).
Proof.
  intros s ord shard Hi. unfold clean_shard.
  eapply runs_bind; [exact (each_ok _ s ord _ (clean_col_ok t shard) Hi) |]. intros s1 [Hi1 Ha1].
  apply runs_ret. case_bool_decide as Hsz; [|auto].
  destruct (with_waitlist_ok s1 ord (<[t := delete shard (default ∅ (waitlist_ s1 !! t))]> (waitlist_ s1)) Hi1)
    as [Hi2 Ha2]; [|split; [exact Hi2 | now transitivity s1]].
  apply map_size_empty_inv in Hsz.
  intros t' [sh' col']. unfold wait_of. cbn.
  destruct (decide (t' = t)) as [->|]; [|left; now rewrite lookup_insert_ne by congruence].
  rewrite lookup_insert_eq. cbn. destruct (decide (sh' = shard)) as [->|Hne].
  - rewrite lookup_delete_eq. cbn. right. split; [reflexivity | left].
    destruct (waitlist_ s1 !! t) as [shards|]; cbn in *; [|reflexivity].
    destruct (shards !! shard); cbn in *; [subst; apply lookup_empty | reflexivity].
  - rewrite lookup_delete_ne by congruence. left.
    destruct (waitlist_ s1 !! t) as [shards|]; cbn; [reflexivity | now rewrite lookup_empty].
Qed.

Lemma clean_txn_ok : cleans (clean_txn iter).
Proof.
  intros s ord t Hi. unfold clean_txn.
  eapply runs_bind; [exact (each_ok _ s ord _ (clean_shard_ok t) Hi) |]. intros s1 [Hi1 Ha1].
  apply runs_ret. case_bool_decide as Hsz; [|auto].
  destruct (with_waitlist_ok s1 ord (delete t (waitlist_ s1)) Hi1) as [Hi2 Ha2];
    [|split; [exact Hi2 | now transitivity s1]].
  apply map_size_empty_inv in Hsz. intros t' k'. unfold wait_of.
  destruct (decide (t' = t)) as [->|]; [|left; now rewrite lookup_delete_ne by congruence].
  rewrite lookup_delete_eq. cbn. right. split; [reflexivity | left].
  destruct (waitlist_ s1 !! t) as [shards|]; cbn in *; [subst; now rewrite lookup_empty | reflexivity].
Qed.

Lemma clean_ok s ord :
  server_inv s ord ->
  runs (TriggerCleanWaitlist iter s) (fun s' => server_inv s' ord /\ advances s s').
Proof. exact (each_ok _ s ord _ clean_txn_ok). Qed.
End ServerSpecs.
