(* ===== verification/APProps.v ===== *)
(** * What the analytical server guarantees

    The server as a transition system whose steps are the messages of the
    transactional side and the moves of the query thread, and the properties of
    the states it reaches: updates are ingested once and in dependency order,
    the recursion over the parents ends, an update is applied as soon as it is
    tried with everything it needs, and a query runs after everything that was
    pending when it was announced.  The last section shows what the guarantees
    depend on: the order in which orders and updates arrive. *)

From Stdlib Require Import ZArith Lia.
From stdpp Require Import base gmap sets list option strings sorting relations.
From S2P Require Import Prelude Graph APServer.
Local Open Scope Z_scope.

Section Transitions.
Variable iter : gset Z -> list Z.
Hypothesis iter_elements : forall X, iter X ≡ₚ elements X.

(** One message or one move of the query thread.  [ord k] are the transactions
    whose order the cell [k] has received.  The steps are those of a sender that
    keeps three rules: the update of a transaction is not sent again after it
    was ingested; the order of a transaction arrives once, and before every order
    that names the transaction as a parent; and an order does not name its own
    transaction as a parent.  The code does not enforce them, and the theorems of
    the last section show what happens when one is broken.  A handler runs as a
    whole or its critical sections are steps of their own, between which other
    steps may come; [step_back] allows the second section for any transaction at
    any time. *)
Inductive sstep : server * (key -> gset Z) -> server * (key -> gset Z) -> Prop :=
| step_update s ord k u s' :
    txnid u ∉ ingested k (ingest_log s) ->
    receive_update iter s k u = Some s' -> sstep (s, ord) (s', ord)
| step_order s ord k o s' :
    txn_id o ∉ dom (orderMap (cell_at s k)) -> txn_id o ∉ parents_tid o ->
    receive_order iter s k o = Some s' -> sstep (s, ord) (s', ordered_after ord k (txn_id o))
| step_store_update s ord k u s' :
    txnid u ∉ ingested k (ingest_log s) -> store_update s k u = Some s' -> sstep (s, ord) (s', ord)
| step_store_order s ord k o s' :
    txn_id o ∉ dom (orderMap (cell_at s k)) -> txn_id o ∉ parents_tid o ->
    store_order iter s k o = Some s' -> sstep (s, ord) (s', ordered_after ord k (txn_id o))
| step_back s ord k t s' : back iter s k t = Some s' -> sstep (s, ord) (s', ord)
| step_clean_col s ord t shard col s' : clean_col iter t shard s col = Some s' -> sstep (s, ord) (s', ord)
| step_wait s ord k : sstep (s, ord) (wait_for_cell iter s k, ord)
| step_clean s ord s' : TriggerCleanWaitlist iter s = Some s' -> sstep (s, ord) (s', ord).

Definition reachable (s : server) (ord : key -> gset Z) : Prop :=
  rtc sstep (server_init, fun _ => ∅) (s, ord).

Lemma init_inv : server_inv server_init (fun _ => ∅).
Proof.
  split.
  - intros k. exact cell_inv_empty.
  - intros t k z Hz. unfold wait_of in Hz. cbn in Hz. now rewrite lookup_empty in Hz.
Qed.

Lemma sstep_inv s ord s' ord' :
  sstep (s, ord) (s', ord') -> server_inv s ord -> server_inv s' ord' /\ advances s s'.
Proof.
  intros Hs Hi. inversion Hs; subst; clear Hs.
  - match goal with Hr : receive_update _ _ _ _ = _ |- _ =>
      edestruct (receive_update_ok iter iter_elements s ord' k u Hi) as (s1 & E & ? & ?);
        [assumption | rewrite E in Hr; injection Hr as <-; auto] end.
  - match goal with Hr : receive_order _ _ _ _ = _ |- _ =>
      edestruct (receive_order_ok iter iter_elements s ord k o Hi) as (s1 & E & ? & ?);
        [assumption | assumption | rewrite E in Hr; injection Hr as <-; auto] end.
  - now apply (store_update_ok iter iter_elements s ord' k u).
  - match goal with Hr : store_order _ _ _ _ = _ |- _ =>
      edestruct (store_order_ok iter iter_elements s ord k o Hi) as (s1 & E & ? & ?);
        [assumption | assumption | rewrite E in Hr; injection Hr as <-; auto] end.
  - match goal with Hr : back _ _ _ _ = _ |- _ =>
      destruct (back_ok iter iter_elements s ord' k t Hi) as (s1 & E & ? & ?);
        rewrite E in Hr; injection Hr as <-; auto end.
  - match goal with Hr : clean_col _ _ _ _ _ = _ |- _ =>
      destruct (clean_col_ok iter iter_elements t shard s ord' col Hi) as (s1 & E & ? & ?);
        rewrite E in Hr; injection Hr as <-; auto end.
  - now destruct (wait_for_cell_ok iter iter_elements s ord' k Hi) as (? & ? & _).
  - match goal with Hr : TriggerCleanWaitlist _ _ = _ |- _ =>
      destruct (clean_ok iter iter_elements s ord' Hi) as (s1 & E & ? & ?);
        rewrite E in Hr; injection Hr as <-; auto end.
Qed.

Lemma rtc_inv x y :
  rtc sstep x y -> server_inv x.1 x.2 -> server_inv y.1 y.2 /\ advances x.1 y.1.
Proof.
  induction 1 as [x|[s ord] [s1 ord1] y Hs _ IH]; intros Hi.
  - split; [exact Hi | split; auto].
  - cbn in *. destruct (sstep_inv s ord s1 ord1 Hs Hi) as [Hi1 Ha]. destruct (IH Hi1) as [Hi2 Ha2].
    split; [exact Hi2 | now transitivity s1].
Qed.

Lemma rtc_ord x y : rtc sstep x y -> forall k, x.2 k ⊆ y.2 k.
Proof.
  induction 1 as [x|x y z Hs _ IH]; intros k; [reflexivity |].
  transitivity (y.2 k); [|apply IH]. destruct Hs; cbn; try reflexivity;
    unfold ordered_after; (case_decide; [subst; set_solver | reflexivity]).
Qed.

Lemma reachable_server_inv s ord : reachable s ord -> server_inv s ord.
Proof. intros Hr. exact (proj1 (rtc_inv _ _ Hr init_inv)). Qed.

(** C1. Provided that the sender keeps the rules of [sstep] (no update is sent
    again after it was ingested; every order arrives once, before any order that
    names its transaction as a parent, and does not name itself), in every
    reachable state each cell has ingested a transaction's update at most once,
    and never before the update of a transaction it depends on: when [t] was
    ingested and [p] is a parent of [t] whose order the cell has received, [p] is
    ingested earlier.  Without the rules both halves fail:
    [resent_update_is_ingested_twice], [late_order_breaks_dependencies]. *)
Theorem ingestion_respects_dependencies s ord k :
  reachable s ord ->
  NoDup (ingested k (ingest_log s))
  /\ forall t p l1 l2, ingested k (ingest_log s) = l1 ++ t :: l2 ->
       dep (orderMap (cell_at s k)) p t -> p ∈ ord k -> p ∈ l1.
Proof.
  intros Hr%reachable_server_inv. pose proof (si_cells _ _ Hr k) as Hc.
  split; [apply (ci_nodup _ _ _ Hc) | apply (ci_order _ _ _ Hc)].
Qed.

(** C3. The recursion of [ApplyUpdateByOrder] over the parents ends in every
    state that is reachable under the rules of [sstep]; it answers yes only when the transaction counts as applied,
    and it does answer yes when the transaction and all its ancestors that are
    still pending have their updates. *)
Theorem apply_terminates_and_completes s ord k t :
  reachable s ord ->
  exists s' ok, ApplyUpdateByOrder iter s k t = Some (s', ok)
    /\ (ok = true -> st (cell_at s' k) t <> 0)
    /\ (ready (cell_at s k) t -> ok = true).
Proof.
  intros Hr%reachable_server_inv.
  destruct (apply_ok iter iter_elements s ord k t Hr) as ([s' ok] & E & _ & _ & Hok & Hrdy).
  exists s', ok. auto.
Qed.

(** No message is lost to a crash or a loop: from every reachable state
    the server handles any update, any order of a transaction that is new to
    the cell and does not depend on itself, and a turn of the query thread. *)
Theorem handlers_are_total s ord k u o :
  reachable s ord -> txnid u ∉ ingested k (ingest_log s) ->
  txn_id o ∉ dom (orderMap (cell_at s k)) -> txn_id o ∉ parents_tid o ->
  (exists s', receive_update iter s k u = Some s')
  /\ (exists s', receive_order iter s k o = Some s')
  /\ (exists s', TriggerCleanWaitlist iter s = Some s').
Proof.
  intros Hr%reachable_server_inv Hu Ho Hs. split_and!.
  - destruct (receive_update_ok iter iter_elements s ord k u Hr Hu) as (s' & E & _). eauto.
  - destruct (receive_order_ok iter iter_elements s ord k o Hr Ho Hs) as (s' & E & _). eauto.
  - destruct (clean_ok iter iter_elements s ord Hr) as (s' & E & _). eauto.
Qed.

(** C2. Under the rules of [sstep] a query sees everything that was pending when it was announced: once
    its waitlist is empty, whatever messages and cleaning turns happened in
    between, every transaction that the cell knew and had not applied has been
    ingested. *)
Theorem query_waits_for_pending s0 ord0 k s1 ord1 t :
  reachable s0 ord0 ->
  t ∈ dom (orderMap (cell_at s0 k)) -> st (cell_at s0 k) t = 0 ->
  rtc sstep (wait_for_cell iter s0 k, ord0) (s1, ord1) ->
  waitlist_ s1 = ∅ ->
  t ∈ ingested k (ingest_log s1).
Proof.
  intros Hr%reachable_server_inv Ht Hs Hrun Hempty.
  destruct (wait_for_cell_ok iter iter_elements s0 ord0 k Hr) as (Hi & _ & _ & Hw).
  destruct (rtc_inv _ _ Hrun Hi) as [Hi1 Ha]. cbn [fst snd] in *.
  apply (ci_done _ _ _ (si_cells _ _ Hi1 k)).
  - apply (rtc_ord _ _ Hrun), (ci_pending _ _ _ (si_cells _ _ Hr k)); assumption.
  - destruct (ad_wait _ _ Ha t k (Hw t Ht Hs)) as [[z Hz]|Hst]; [|exact Hst].
    rewrite Hempty in Hz. unfold wait_of in Hz. now rewrite lookup_empty in Hz.
Qed.

(** The test [parentExist] in front of [add_edge] keeps the dependency
    graph of a cell consistent and acyclic, whatever the graph contains and in
    whatever order the orders arrive, as long as an order does not name its own
    transaction as a parent. *)
Theorem orders_keep_graph_acyclic o c :
  wf (orderMap c) -> acyclic (orderMap c) -> txn_id o ∉ parents_tid o ->
  exists c', add_order iter o c = Some c' /\ wf (orderMap c') /\ acyclic (orderMap c')
    /\ dom (orderMap c') = {[txn_id o]} ∪ list_to_set (parents_tid o) ∪ dom (orderMap c).
Proof.
  intros Hwf Hac Hself. unfold add_order.
  destruct (add_order_parents_acyclic iter iter_elements (txn_id o) (parents_tid o)
    {| orderMap := add_vertex (txn_id o) (orderMap c);
       orderVec := insert_new (txn_id o)
         {| status := 0; up_cnt := 1; estimated_time := estimated_lat o |} (orderVec c);
       updateMap := updateMap c |}) as (c' & E & Hwf' & Hac' & Hdom & _); cbn;
    auto using wf_add_vertex, acyclic_add_vertex; [rewrite add_vertex_dom; set_solver |].
  exists c'. cbn in Hdom. rewrite add_vertex_dom in Hdom. split_and!; auto. rewrite Hdom. set_solver.
Qed.
End Transitions.

(** ** What the guarantees depend on *)

Definition update_of (t : Z) : Update :=
  {| row_index := 0; pkey_col_name := "id"; pkey_val := "7"; value := "42"; op_type := 0; txnid := t |}.
Definition order_of (t : Z) (ps : list Z) : Order :=
  {| txn_id := t; estimated_lat := 0; parents_tid := ps; touched_cols := ["customer.balance"%string] |}.
Definition balance : key := (0, "customer.balance"%string).

Inductive message := MUpdate (u : Update) | MOrder (o : Order).

Fixpoint deliver (s : server) (ms : list message) : option server :=
  match ms with
  | [] => Some s
  | MUpdate u :: ms' => s ← receive_update elements s balance u; deliver s ms'
  | MOrder o :: ms' => s ← receive_order elements s balance o; deliver s ms'
  end.

Definition delivered (ms : list message) : server := default server_init (deliver server_init ms).

(** When the order of a dependent transaction overtakes the order of the
    transaction it depends on, the latter is entered as already applied and
    without its own parents: its update is ingested at once, before that of its
    parent, and the late order does not correct it. *)
Theorem late_order_breaks_dependencies :
  exists s, deliver server_init
      [MOrder (order_of 3 [2]); MUpdate (update_of 2); MOrder (order_of 1 []);
       MOrder (order_of 2 [1]); MUpdate (update_of 1)] = Some s
    /\ dep (orderMap (cell_at s balance)) 1 2
    /\ ingested balance (ingest_log s) = [2; 1].
Proof.
  eexists. split; [vm_compute; reflexivity |]. split; [|reflexivity].
  unfold dep. apply (bool_decide_unpack _). vm_compute. exact I.
Qed.

(** An update that is sent again after it was ingested is ingested a second
    time: the entry that would show it as known is erased by then. *)
Theorem resent_update_is_ingested_twice :
  exists s, deliver server_init
      [MOrder (order_of 1 []); MUpdate (update_of 1); MUpdate (update_of 1)] = Some s
    /\ ingested balance (ingest_log s) = [1; 1].
Proof. eexists. split; vm_compute; reflexivity. Qed.

(** The cell after an order that names its own transaction and its update. *)
Definition self_parent : cell :=
  with_updates {[1 := [update_of 1]]} (default empty_cell (add_order elements (order_of 1 [1]) empty_cell)).

(** An order that names its own transaction as a parent passes the cycle
    test and makes [ApplyUpdateByOrder] recurse for ever: no depth of recursion is
    enough. *)
Theorem self_parent_diverges (fuel : nat) (wl : waitlist) (lg : list (key * Update)) :
  apply_fuel elements fuel balance {| here := self_parent; waiting := wl; log := lg |} 1 = None.
Proof.
  induction fuel as [|fuel IH]; [reflexivity |].
  transitivity ('(w, dep_check) ← ('(w, ok) ← apply_fuel elements fuel balance
                    {| here := self_parent; waiting := wl; log := lg |} 1;
                    if (ok : bool) then Some (w, true) else Some (w, false));
                if (dep_check : bool) then Some (ingest balance 1 w, true) else Some (w, false));
    [|now rewrite IH].
  reflexivity.
Qed.

(** ** Concrete runs *)

Lemma elements_iter (X : gset Z) : elements X ≡ₚ elements X.
Proof. reflexivity. Qed.

Definition ord0 : key -> gset Z := fun _ => ∅.
Definition ord1 := ordered_after ord0 balance 1.
Definition ord2 := ordered_after ord1 balance 2.

Definition orders : list message := [MOrder (order_of 1 []); MOrder (order_of 2 [1])].
Definition orders_up2 : list message := orders ++ [MUpdate (update_of 2)].
Definition orders_up21 : list message := orders_up2 ++ [MUpdate (update_of 1)].

Ltac decided := apply (bool_decide_unpack _); vm_compute; exact I.

Lemma orders_reachable : reachable elements (delivered orders) ord2.
Proof.
  eapply rtc_l; [apply (step_order _ _ _ balance (order_of 1 []) (delivered [MOrder (order_of 1 [])]));
                 [decided | decided | vm_compute; reflexivity] |].
  eapply rtc_l; [|apply rtc_refl].
  apply (step_order _ _ _ balance (order_of 2 [1]) (delivered orders)); [decided | decided | vm_compute; reflexivity].
Qed.

Lemma up2_reachable : reachable elements (delivered orders_up2) ord2.
Proof.
  eapply rtc_r; [exact orders_reachable |].
  apply (step_update _ _ _ balance (update_of 2)); [decided | vm_compute; reflexivity].
Qed.

Lemma up21_reachable : reachable elements (delivered orders_up21) ord2.
Proof.
  eapply rtc_r; [exact up2_reachable |].
  apply (step_update _ _ _ balance (update_of 1)); [decided | vm_compute; reflexivity].
Qed.

(** The graph of the two orders. *)
Definition two : graph := orderMap (cell_at (delivered orders) balance).

Lemma two_wf : wf two.
Proof.
  exact (ci_wf _ _ _ (si_cells _ _ (reachable_server_inv elements elements_iter _ _ orders_reachable) balance)).
Qed.

Lemma graph_search_exact_witness :
  exists A, get_ancestors elements two 2 = Some A /\ 1 ∈ A.
Proof.
  destruct (graph_search_exact elements elements_iter two 2 two_wf) as (A & _ & EA & _ & HA & _).
  exists A. split; [exact EA |]. apply HA. split; [lia |]. apply tc_once. unfold dep. decided.
Defined.

Lemma union_edges_witness : dep (union_ elements two (add_edge 2 3 ∅)) 2 3.
Proof.
  apply (union_edges elements elements_iter two (add_edge 2 3 ∅) two_wf (wf_add_edge 2 3 ∅ wf_empty)).
  right. apply dep_add_edge. auto.
Defined.

Lemma ingestion_respects_dependencies_witness :
  NoDup (ingested balance (ingest_log (delivered orders_up21)))
  /\ ingested balance (ingest_log (delivered orders_up21)) = [1].
Proof.
  split; [|reflexivity].
  exact (proj1 (ingestion_respects_dependencies elements elements_iter _ _ balance up21_reachable)).
Defined.

Lemma up21_cell : cell_inv (cell_at (delivered orders_up21) balance) (ord2 balance)
  (ingested balance (ingest_log (delivered orders_up21))).
Proof. exact (si_cells _ _ (reachable_server_inv elements elements_iter _ _ up21_reachable) balance). Qed.

(** Update 1 has been ingested; update 2, which came first, waits to be tried. *)
Lemma up21_ready : ready (cell_at (delivered orders_up21) balance) 2.
Proof.
  split_and!; [decided | vm_compute; discriminate |]. intros u Hu H0.
  apply (ancestors_of_spec elements elements_iter) in Hu;
    [|exact (ci_wf _ _ _ up21_cell) | exact (ci_acyclic _ _ _ up21_cell)].
  assert (E : ancestors_of elements (orderMap (cell_at (delivered orders_up21) balance)) 2 = {[1]})
    by (vm_compute; reflexivity).
  rewrite E in Hu. apply elem_of_singleton in Hu as ->. vm_compute in H0. discriminate H0.
Qed.

Lemma apply_terminates_and_completes_witness :
  exists s', ApplyUpdateByOrder elements (delivered orders_up21) balance 2 = Some (s', true)
    /\ st (cell_at s' balance) 2 <> 0.
Proof.
  destruct (apply_terminates_and_completes elements elements_iter _ _ balance 2 up21_reachable)
    as (s' & ok & E & Hok & Hr).
  exists s'. rewrite (Hr up21_ready) in E. split; [exact E | exact (Hok (Hr up21_ready))].
Defined.

Lemma handlers_are_total_witness :
  exists s', receive_order elements (delivered orders) balance (order_of 3 [2]) = Some s'.
Proof.
  exact (proj1 (proj2 (handlers_are_total elements elements_iter _ _ balance (update_of 1) (order_of 3 [2])
    orders_reachable ltac:(decided) ltac:(decided) ltac:(decided)))).
Defined.

(** A query is announced while 2 waits for 1; the update of 1 arrives and one
    cleaning turn empties the waitlist. *)
Definition announced : server := wait_for_cell elements (delivered orders_up2) balance.
Definition completed : server :=
  default server_init (receive_update elements announced balance (update_of 1)).
Definition cleaned : server := default server_init (TriggerCleanWaitlist elements completed).

Lemma announced_to_cleaned : rtc (sstep elements) (announced, ord2) (cleaned, ord2).
Proof.
  eapply rtc_l; [apply (step_update _ _ _ balance (update_of 1) completed); [decided | vm_compute; reflexivity] |].
  eapply rtc_l; [|apply rtc_refl]. apply step_clean. vm_compute. reflexivity.
Qed.

Lemma query_waits_for_pending_witness :
  2 ∈ ingested balance (ingest_log cleaned) /\ ingested balance (ingest_log cleaned) = [1; 2].
Proof.
  split; [|vm_compute; reflexivity].
  apply (query_waits_for_pending elements elements_iter (delivered orders_up2) ord2 balance cleaned ord2 2);
    [exact up2_reachable | decided | vm_compute; reflexivity | exact announced_to_cleaned | vm_compute; reflexivity].
Defined.

Lemma two_acyclic : acyclic two.
Proof.
  exact (ci_acyclic _ _ _ (si_cells _ _ (reachable_server_inv elements elements_iter _ _ orders_reachable) balance)).
Qed.

Lemma orders_keep_graph_acyclic_witness :
  exists c', add_order elements (order_of 1 [2]) (cell_at (delivered orders) balance) = Some c'
    /\ acyclic (orderMap c').
Proof.
  destruct (orders_keep_graph_acyclic elements elements_iter (order_of 1 [2]) (cell_at (delivered orders) balance)
    two_wf two_acyclic ltac:(decided)) as (c' & E & _ & Ha & _).
  exists c'. split; [exact E | exact Ha].
Defined.
